(* ===== verification/_CoqProject ===== *)
-Q . S2P
Prelude.v
Text.v
Programs.v
Traces.v
Wire.v
Client.v
Placement.v
Manifest.v
Cohorts.v
NodeLog.v
NodeReplay.v
NodeOps.v
NodeSafety.v
NodeContract.v
NodeToy.v
Evidence.v
EvidenceSafety.v
EvidenceToy.v
ControlDoc.v
Control.v
ControlSafety.v
ControlToy.v
Coordinator.v
CoordinatorToy.v
Cron.v
Ring.v
Gateway.v
GatewaySafety.v
GatewayRebuild.v
GatewayToy.v
CatchUp.v
CatchUpSafety.v
CatchUpToy.v
ObjectStore.v
Archive.v
ArchiveSafety.v
ArchiveToy.v
ControlHead.v
ControlHeadSafety.v
ControlHeadToy.v
RouteCache.v
Handoff.v
HandoffSafety.v
HandoffToy.v
Alarms.v
Ownership.v
OwnershipPlace.v
OwnershipLogic.v
OwnershipSafety.v
OwnershipToy.v
Access.v
AccessSafety.v
AccessToy.v
Literal.v
LiteralSafety.v
LiteralToy.v
Resources.v
ResourcesSafety.v
Authority.v
AuthoritySafety.v
AuthorityToy.v
Retirement.v
RetirementSafety.v
RetirementToy.v
Ingest.v
IngestSafety.v
IngestShape.v
IngestRules.v
IngestNames.v
IngestEvolve.v
IngestRun.v
IngestKeeps.v
IngestRunSafety.v
IngestStuck.v
IngestWritable.v
IngestHostToy.v
IngestToy.v
