(* ===== verification/Prelude.v ===== *)
(** * Walleye: a verification of the replicated WAL and its neighbours

    ** The program

    Walleye serves LanceDB tables in front of a replicated write-ahead log.  A query node
    seals each write into an encrypted record and sends it to a coordinator
    ([crates/walleye-bitr], [crates/walleye-bitr-server]).  The coordinator appends the
    record to the members of the stream's cohort, three storage members with one log file
    each, and acknowledges it once two of them hold it.  Which cohort owns which range of
    a stream is the routing manifest, part of a control document that lives first on three
    control volumes and, after a migration, in one object-store head replaced by conditional
    writes.  Placement fences on the members stop a stream while it moves.  Committed records
    are archived to an object store; recovery joins the archive with what the members prove.

    ** The files

    A definition carries the name of the function or type it translates.

    - [Prelude]: results with the [?] operator, machine widths, byte orders, sorting, maxima
      and the tactics; [Text]: Rust's strings.
    - [Wire], [Client]: [crates/walleye-bitr/src/lib.rs].  The binary transport, [QuorumWriter]
      over the interface [ReplicaGateway]/[GatewayLaws], and its in-memory implementation.
    - [Placement]: [placement.rs], the gates, leases and fences of a member as a transition
      system of threads ([placement_step]).
    - [Manifest], [Cohorts]: the routing manifest of [crates/walleye-bitr-server/src/lib.rs],
      its validation and its transitions; the rendezvous choice of a cohort.
    - [NodeLog], [NodeReplay], [NodeOps], [NodeSafety], [NodeContract], [NodeToy]: the storage
      member [DiskReplica], its file as bytes, its replay, each operation with writes that fail
      after any byte, and runs of calls, restarts, crashes in the middle of a write and changes of
      the control document ([node_step]).
    - [Evidence], [EvidenceSafety], [EvidenceToy]: what member snapshots prove committed, and
      the recovered tail.
    - [ControlDoc], [Control], [ControlSafety], [ControlToy]: the control document and the
      durable store of one volume ([DurableControl], and the freeze of
      [metadata_authority.rs]).
    - [Coordinator], [CoordinatorToy]: quorum reads and CAS of the manifest over three
      volumes ([cohort_run]).
    - [Gateway], [GatewaySafety], [GatewayRebuild], [GatewayToy]: the writer state of a
      coordinator, its reconstruction, the fan-out and the acknowledgement.
    - [CatchUp], [CatchUpSafety], [CatchUpToy]: bringing a member up to date over the
      interface [MemberClient], which [disk_member] discharges with the operations of
      [NodeLog].
    - [ObjectStore]: the interface to the object store ([ObjectStoreLaws]); [Archive],
      [ArchiveSafety], [ArchiveToy]: [archive.rs], archivers racing on that store.
    - [Cron]: [crates/walleye-node/src/cron.rs]; [Ring]: [crates/walleye-ring/src/lib.rs].
    - [ControlHead], [ControlHeadSafety], [ControlHeadToy]: [control_head.rs], a head and its
      handoff claims; each operation is a tree of requests ([Requests]), and operations race on
      the store ([co_step]).  [RouteCache]: [route_cache.rs], the bounded cache of proven routes.
    - [Programs], [Traces]: code that asks questions it does not answer, and what holds of the
      questions and results whatever the answers are ([always]).
    - [Handoff], [HandoffSafety], [HandoffToy]: [cutover_stream], [install_placement_on_nodes] and
      [publish_one_pending_handoff], as programs over members, archive and head.
    - [Authority], [AuthoritySafety], [AuthorityToy]: [authority.rs] and the driver of
      [metadata_authority.rs]: certificates, freezes and the first head, against volumes that run
      on ([member_run]).
    - [Retirement], [RetirementSafety], [RetirementToy]: [online_retirement.rs], the receipt that
      lets the machines of a cohort go.
    - [Alarms]: [crates/walleye-node/src/alarms.rs].
    - [Ownership], [OwnershipPlace], [OwnershipLogic], [OwnershipSafety], [OwnershipToy]:
      [crates/walleye-node/src/ownership.rs]: leases, claims and placement; every operation is a
      program over the clock, the locks and the bucket, and processes interleave.
    - [Access], [AccessSafety], [AccessToy]: [crates/walleye-node/src/access.rs], the route table,
      the published tokens and the gate.
    - [Literal], [LiteralSafety], [LiteralToy]: [crates/walleye-node/src/ingest/literal.rs], what a
      JSON value is and which column types hold it; an [f64] is a [spec_float].
    - [Resources], [ResourcesSafety]: [crates/walleye-cache/src/query_resources.rs], the budget that
      queries, leases, spill files and the cache share.
    - [Ingest], [IngestSafety], [IngestShape]: the data of [crates/walleye-node/src/ingest.rs], a
      record read through a rule and the batch of many; [table_config] and [conform_batch] of
      [engine.rs], [TableConfig] of [crates/walleye-lance/src/table.rs]; the tables a rule makes.
    - [IngestRules], [IngestNames], [IngestEvolve], [IngestKeeps]: the judge and its answers
      ([crates/walleye-typesafe/src/lib.rs]), [route], [design], [evolve] and [plan_embeddings], and
      the rules they keep ([rule_kept]).
    - [IngestRun], [IngestRunSafety], [IngestStuck], [IngestWritable], [IngestHostToy], [IngestToy]: a
      whole request ([ingest]) with [rebuild] and [repair], as a program over the engine, the store,
      the judge and the model; a host that satisfies the laws, and runs of it.

    ** What the theorems show

    - Storage member: reopening the file of a reachable member gives back its indexes, crashes in
      the middle of a write included; a batch cut anywhere is recovered as a prefix; batches are all
      or nothing; the log has no hole.  What a failed write that is not taken back does to the next
      one is a counterexample below.
    - Acknowledgement to recovery: an append that returns is on two members; a coordinator
      acknowledges one record per position; recovery and reconstruction return every
      acknowledged record and only sound ones; catch-up follows the committed log.
    - Control: every document is valid, a revision names one manifest on a volume and in the
      cohort, a quorum read is current, a frozen volume refuses further changes.
    - Placement: admissions never go back, an acknowledged fence is final, drained fences can
      be published.
    - Archive: archivers refine an append-only log, and archiving terminates.
    - Transport, schedules, ring: round trips, exactness of the calendar and of the next run.
    - Control head: the heads of any racing writers form one line; an acknowledged operation stays;
      a claimed handoff is held until it is completed.
    - Handoff: a cutover fences the source on a quorum, persists that in the claim, archives,
      persists that and installs the successor, in this order whatever the answers; and every
      acknowledged record of the source is in the tail it certifies.
    - Migration and retirement: a head is created only with metadata no quorum of the old cohort is
      ahead of; a receipt to retire a cohort means that every record it held is in the archive.
    - Ownership: in timely runs no two processes hold a table; placement is balanced.
    - Alarms: the successful runs, each with the occurrences it reports as missed, stand for exactly
      the first occurrences of the schedule; what is given up is handed to the next firing.
    - Access: the gate admits exactly whom the route table and the tokens read last allow; a refresh
      that succeeds leaves no token of an older version in force.
    - Literals: a conversion is exact or refused; the kind chosen without a judge fits every value.
    - Budget: while leases are admitted one at a time and infallible reservations can shrink the
      cache, cache, queries and leases stay within memory as long as the pool grants no more than it has.
    - Ingestion: records are in bronze before anything changes, and a request that succeeds leaves
      each in quarantine or in the table it reports; nothing of a record is lost in its row; the rules
      saved are well formed whatever the judge says; what is accepted, the table takes; a table whose
      keys are data and that was given a key is never made.

    Some theorems end in a counterexample: they record where the code does not keep what its
    comments say ([lost_newline_breaks_log], [failed_append_breaks_log],
    [stale_marker_hides_acknowledged], [gapped_cas_wedges_reads],
    [batch_watermark_loses_acknowledged], [schedule_corner_cases],
    [untimely_runs_share_a_table], [huge_interval_panics], [concurrent_leases_overrun],
    [failed_reads_keep_tokens], [negative_zero],
    [keyed_data_is_never_made], [interrupted_rebuild_is_stuck], [planning_passes_limit]).

    ** Parameters, widths and fuel

    Code outside the repository is a parameter with its documented behaviour as laws, and a
    concrete instance in a [...Toy] file shows the laws can hold: SHA-256, serde_json, URL
    parsing, the AEAD, the object store, the ring's hash and float scores.  Answers of the
    network are inputs, in the order they arrive, or steps of a transition system.  A [u64]
    is [N] with its checked, saturating or wrapping operations written out.  Loops that are
    not structural carry fuel: the archive's loop one turn per batch
    ([archive_committed_terminates]), the cron search the minutes of its window
    ([next_after_least]); the theorems show that neither runs out.  The loop that certifies
    a tail carries the size of its evidence and one more ([certify_ends]); the walk over missed
    occurrences is bounded by the code's own constant.  A fresh name
    is sought among one more candidates than there are names to avoid ([fresh_name_free]).

    ** Not modelled

    HTTP servers and clients, axum routing, environment parsing and process start: input and
    output around the modelled operations.  The rest of the query engine and of the Lance adapter,
    and the script host, mostly call LanceDB, Arrow, DataFusion and V8, which are not in the
    repository.  Lock poisoning, which needs a panic under a
    lock; signatures of commit certificates (their verdict is an input); the sampling of disk
    capacity.  Of the engine only the definition of a table and
    the conforming of a batch are modelled, of the cache only its budget,
    where the decisions of DataFusion's pool and of foyer are choices of the environment.  The forever loops that poll, renew and refresh are runs of their bodies. *)

From Stdlib Require Export Strings.Byte.
From Stdlib Require Import Lia.
From stdpp Require Export sorting.
From stdpp Require Export base gmap strings numbers list.

#[global] Open Scope string_scope.
#[global] Open Scope list_scope.
#[global] Open Scope stdpp_scope.
#[global] Open Scope N_scope.

(** ** Results: Rust's [Result<A, E>] and the [?] operator *)

Inductive result (E A : Type) : Type :=
| Ok (a : A)
| Err (e : E).

Arguments Ok {E A} a.
Arguments Err {E A} e.

#[global] Instance result_ret E : MRet (result E) := λ A a, Ok a.

#[global] Instance result_bind E : MBind (result E) := λ A B f m,
  match m with Ok a => f a | Err e => Err e end.

(** [map_err]. *)
Definition map_err {E E' A} (f : E → E') (m : result E A) : result E' A :=
  match m with Ok a => Ok a | Err e => Err (f e) end.

(** [Option::ok_or]. *)
Definition ok_or {E A} (o : option A) (e : E) : result E A :=
  match o with Some a => Ok a | None => Err e end.

Definition is_ok {E A} (m : result E A) : bool :=
  match m with Ok _ => true | Err _ => false end.

(** [iter().map(f).collect::<Result<Vec<_>, _>>()]: stops at the first error. *)
Fixpoint try_map {E A B} (f : A → result E B) (l : list A) : result E (list B) :=
  match l with
  | [] => Ok []
  | x :: l => y ← f x; ys ← try_map f l; Ok (y :: ys)
  end.

(** A [for] loop whose body uses [?] on an accumulator. *)
Fixpoint try_fold {E A S} (f : S → A → result E S) (s : S) (l : list A) : result E S :=
  match l with
  | [] => Ok s
  | x :: l => s' ← f s x; try_fold f s' l
  end.

(** ** Machine integers

    Unsigned integers are [N]; the operations that can leave the width are
    written with their Rust behaviour. *)

Definition u32_max : N := 2 ^ 32 - 1.
Definition u64_max : N := 2 ^ 64 - 1.
(** The supported targets are 64-bit. *)
Definition usize_max : N := u64_max.

Definition checked_add (a b : N) : option N :=
  if a + b <=? u64_max then Some (a + b) else None.
Definition saturating_add (a b : N) : N := N.min (a + b) u64_max.
Definition saturating_sub (a b : N) : N := a - b.
(** [u32::try_from]. *)
Definition u32_try_from (a : N) : option N :=
  if a <=? u32_max then Some a else None.

(** [slice.len()] as a [usize]. *)
Definition len {A} (l : list A) : N := N.of_nat (length l).

(** ** Bytes *)

#[global] Instance byte_eq_dec : EqDecision byte := Byte.byte_eq_dec.

Definition byte_of_N (x : N) : byte :=
  default x00 (Byte.of_N (x mod 256)).

(** [to_le_bytes] of an [8*n]-bit integer. *)
Fixpoint to_le_bytes (n : nat) (x : N) : list byte :=
  match n with
  | O => []
  | S n => byte_of_N x :: to_le_bytes n (x / 256)
  end.

Fixpoint from_le_bytes (bs : list byte) : N :=
  match bs with
  | [] => 0
  | b :: bs => Byte.to_N b + 256 * from_le_bytes bs
  end.

(** [to_be_bytes]. *)
Definition to_be_bytes (n : nat) (x : N) : list byte := rev (to_le_bytes n x).

(** ** Lists *)

(** [slice.windows(2)]. *)
Definition windows2 {A} (l : list A) : list (A * A) := zip l (tail l).

(** [iter().enumerate()]. *)
Definition enumerate {A} (l : list A) : list (nat * A) := zip (seq 0 (length l)) l.

(** [Iterator::max_by]: the last of the greatest elements; [ge x y] compares the
    later element [x] with the earlier [y]. *)
Definition max_by {A} (ge : A → A → bool) (l : list A) : option A :=
  foldl (λ acc x, match acc with
                  | None => Some x
                  | Some y => if ge x y then Some x else Some y
                  end) None l.

(** A stable sort by an integer key, [sort_by_key]. *)
Fixpoint insert_by_key {A} (key : A → N) (x : A) (l : list A) : list A :=
  match l with
  | [] => [x]
  | y :: l' => if key x <=? key y then x :: l else y :: insert_by_key key x l'
  end.

Definition sort_by_key {A} (key : A → N) (l : list A) : list A :=
  foldr (insert_by_key key) [] l.

(** Strictly increasing keys. *)
Definition strict_sorted {A} (key : A → N) (l : list A) : Prop :=
  StronglySorted (λ a b, key a < key b) l.

(** ** Automation *)

Create HintDb wal discriminated.
Create Rewrite HintDb wal_len.

(** Splits the [match]es and [if]s of a computation that returned a known
    result, keeping the equations. *)
Ltac case_result H :=
  repeat match type of H with
  | context [match ?x with _ => _ end] =>
      let E := fresh "E" in destruct x eqn:E; simplify_eq/=
  | context [if ?b then _ else _] =>
      let E := fresh "E" in destruct b eqn:E; simplify_eq/=
  end.

(** Runs the monadic steps whose results are known, and nothing else. *)
Ltac run := cbn beta iota delta [mbind result_bind option_bind ok_or orb andb negb].

(** Boolean tests on [N] turned into facts for [lia]. *)
Ltac bool_facts :=
  repeat match goal with
  | H : (_ <=? _) = true |- _ => apply N.leb_le in H
  | H : (_ <=? _) = false |- _ => apply N.leb_gt in H
  | H : (_ <? _) = true |- _ => apply N.ltb_lt in H
  | H : (_ <? _) = false |- _ => apply N.ltb_ge in H
  | H : (_ =? _) = true |- _ => apply N.eqb_eq in H
  | H : (_ =? _) = false |- _ => apply N.eqb_neq in H
  | H : _ && _ = true |- _ => apply andb_true_iff in H as [? ?]
  | H : _ && _ = false |- _ => apply andb_false_iff in H
  | H : _ || _ = true |- _ => apply orb_true_iff in H
  | H : _ || _ = false |- _ => apply orb_false_iff in H as [? ?]
  | H : negb _ = true |- _ => apply negb_true_iff in H
  | H : negb _ = false |- _ => apply negb_false_iff in H
  | H : bool_decide _ = true |- _ => apply bool_decide_eq_true in H
  | H : bool_decide _ = false |- _ => apply bool_decide_eq_false in H
  end.

(** ** Results *)

Lemma bind_Ok {E A B} (m : result E A) (f : A → result E B) b :
  m ≫= f = Ok b ↔ ∃ a, m = Ok a ∧ f a = Ok b.
Proof. destruct m; cbn; naive_solver. Qed.

Lemma bind_Err {E A B} (m : result E A) (f : A → result E B) e :
  m ≫= f = Err e ↔ m = Err e ∨ ∃ a, m = Ok a ∧ f a = Err e.
Proof. destruct m; cbn; naive_solver. Qed.

Lemma ok_or_Ok {E A} (o : option A) (e : E) a : ok_or o e = Ok a ↔ o = Some a.
Proof. destruct o; cbn; naive_solver. Qed.

Lemma map_err_Ok {E E' A} (f : E → E') (m : result E A) a :
  map_err f m = Ok a ↔ m = Ok a.
Proof. destruct m; cbn; naive_solver. Qed.

Lemma try_map_Ok {E A B} (f : A → result E B) l ys :
  try_map f l = Ok ys ↔ Forall2 (λ x y, f x = Ok y) l ys.
Proof.
  revert ys; induction l as [|x l IH]; intros ys; simpl.
  - split; [intros [= <-]; constructor|inversion 1; done].
  - rewrite bind_Ok. split.
    + intros (y & Hy & (ys' & Hys & [= <-])%bind_Ok). constructor; [done|by apply IH].
    + inversion 1 as [|? y ? ys' Hy Hys]; subst. exists y; split; [done|].
      apply bind_Ok. exists ys'; split; [by apply IH|done].
Qed.

Lemma try_fold_app {E A S} (f : S → A → result E S) s l k :
  try_fold f s (l ++ k) = s' ← try_fold f s l; try_fold f s' k.
Proof.
  revert s; induction l as [|x l IH]; intros s; simpl; [done|].
  destruct (f s x); simpl; [apply IH|done].
Qed.

Lemma try_fold_ext {E A S} (f g : S → A → result E S) s l :
  (∀ s x, f s x = g s x) → try_fold f s l = try_fold g s l.
Proof.
  intros Hfg. revert s. induction l as [|x l IH]; intros s; cbn; [done|].
  rewrite Hfg. destruct (g s x); cbn; [apply IH|done].
Qed.

(** A loop that only checks succeeds exactly when every element passes. *)
Lemma try_fold_all {E A} (f : A → result E unit) l :
  try_fold (λ _ x, f x) tt l = Ok tt ↔ ∀ x, x ∈ l → f x = Ok tt.
Proof.
  induction l as [|x l IH]; cbn [try_fold].
  { split; [by intros _ ? ?%not_elem_of_nil|done]. }
  rewrite bind_Ok. split.
  - intros ([] & Hx & Hl) y [->|Hy]%elem_of_cons; [done|by apply IH].
  - intros Hall. exists tt. split; [apply Hall; by left|apply IH; intros; apply Hall; by right].
Qed.

Lemma elem_of_enumerate {A} (l : list A) i x : (i, x) ∈ enumerate l ↔ l !! i = Some x.
Proof.
  unfold enumerate. rewrite list_elem_of_lookup. split.
  - intros [j Hj]. apply lookup_zip_with_Some in Hj as (a & b & [= -> ->] & Hs & Hl).
    apply lookup_seq in Hs as [-> _]. done.
  - intros Hl. exists i. apply lookup_zip_with_Some. exists i, x. split_and!; [done| |done].
    apply lookup_seq. split; [done|]. by eapply lookup_lt_Some.
Qed.

(** Splits the next [x ← m; k] of a successful computation. *)
Ltac next H :=
  let x := fresh "x" in let Hx := fresh "Hx" in
  apply bind_Ok in H as (x & Hx & H);
  lazymatch type of x with (_ * _)%type => destruct x as [? ?] | _ => idtac end.

(** ** Machine integers *)

Lemma checked_add_Some a b c :
  checked_add a b = Some c ↔ c = a + b ∧ a + b ≤ u64_max.
Proof.
  unfold checked_add. destruct (N.leb_spec (a + b) u64_max); split.
  - intros [= <-]. done.
  - by intros [-> _].
  - done.
  - intros [-> ?]. lia.
Qed.

Lemma checked_add_le a b : a + b ≤ u64_max → checked_add a b = Some (a + b).
Proof. intros Hle. by apply checked_add_Some. Qed.

Lemma u32_try_from_Some a c : u32_try_from a = Some c ↔ c = a ∧ a ≤ u32_max.
Proof.
  unfold u32_try_from. destruct (N.leb_spec a u32_max); naive_solver lia.
Qed.

Lemma len_app {A} (l k : list A) : len (l ++ k) = len l + len k.
Proof. unfold len. rewrite length_app. lia. Qed.

Lemma len_cons {A} (x : A) l : len (x :: l) = 1 + len l.
Proof. unfold len; simpl. lia. Qed.

Lemma len_nil {A} : len (A:=A) [] = 0.
Proof. done. Qed.

Lemma len_0 {A} (l : list A) : len l = 0 ↔ l = [].
Proof. destruct l; unfold len; simpl; split; (done || lia). Qed.

#[export] Hint Rewrite @len_app @len_cons @len_nil : wal_len.

(** ** Bytes *)

Lemma byte_of_to_N b : byte_of_N (Byte.to_N b) = b.
Proof. by destruct b. Qed.

Lemma to_N_lt b : Byte.to_N b < 256.
Proof. pose proof (Byte.to_N_bounded b). lia. Qed.

Lemma byte_of_N_add b x : byte_of_N (Byte.to_N b + 256 * x) = b.
Proof.
  unfold byte_of_N. rewrite (N.mul_comm 256), N.Div0.mod_add.
  pose proof (byte_of_to_N b) as Hb. unfold byte_of_N in Hb. done.
Qed.

Lemma to_N_byte_of_N x : Byte.to_N (byte_of_N x) = x mod 256.
Proof.
  unfold byte_of_N. destruct (Byte.of_N (x mod 256)) as [b|] eqn:E; simpl.
  - by apply Byte.to_of_N.
  - apply Byte.of_N_None_iff in E. pose proof (N.mod_lt x 256). lia.
Qed.

Lemma length_to_le_bytes n x : length (to_le_bytes n x) = n.
Proof. revert x; induction n; intros; simpl; congruence. Qed.

Lemma from_to_le_bytes n x : x < 256 ^ N.of_nat n → from_le_bytes (to_le_bytes n x) = x.
Proof.
  revert x; induction n as [|n IH]; intros x Hx.
  - rewrite N.pow_0_r in Hx. simpl. lia.
  - rewrite Nat2N.inj_succ, N.pow_succ_r' in Hx. simpl. rewrite to_N_byte_of_N, IH.
    + pose proof (N.div_mod x 256). lia.
    + by apply N.Div0.div_lt_upper_bound.
Qed.

Lemma to_from_le_bytes bs : to_le_bytes (length bs) (from_le_bytes bs) = bs.
Proof.
  induction bs as [|b bs IH]; simpl; [done|].
  rewrite byte_of_N_add. f_equal.
  rewrite (N.mul_comm 256), N.div_add by done.
  by rewrite N.div_small by apply to_N_lt.
Qed.

Lemma from_le_bytes_lt bs : from_le_bytes bs < 256 ^ len bs.
Proof.
  induction bs as [|b bs IH]; [done|].
  rewrite len_cons, N.add_1_l, N.pow_succ_r'. simpl.
  pose proof (to_N_lt b). lia.
Qed.

(** ** Lists *)

Lemma windows2_cons {A} (a b : A) l : windows2 (a :: b :: l) = (a, b) :: windows2 (b :: l).
Proof. done. Qed.

Lemma insert_by_key_Permutation {A} (key : A → N) x l :
  insert_by_key key x l ≡ₚ x :: l.
Proof.
  induction l as [|y l IH]; simpl; [done|].
  destruct (key x <=? key y); [done|]. rewrite IH. constructor.
Qed.

Lemma sort_by_key_Permutation {A} (key : A → N) l : sort_by_key key l ≡ₚ l.
Proof.
  induction l as [|x l IH]; simpl; [done|].
  unfold sort_by_key in *; simpl. rewrite insert_by_key_Permutation. by constructor.
Qed.

(** A list that is already strictly increasing is left as it is. *)
Lemma sort_by_key_sorted {A} (key : A → N) l :
  strict_sorted key l → sort_by_key key l = l.
Proof.
  induction 1 as [|x l Hl IH Hx]; [done|].
  unfold sort_by_key in *; simpl. rewrite IH.
  destruct Hx as [|y l Hy]; simpl; [done|].
  destruct (N.leb_spec (key x) (key y)); [done|lia].
Qed.

(** Sorting does not depend on the input order when the keys are distinct. *)
Lemma sort_by_key_unique {A} (key : A → N) l k :
  strict_sorted key k → l ≡ₚ k → sort_by_key key l = k.
Proof.
  intros Hk Hp. revert l Hp.
  induction Hk as [|x k Hk IH Hx]; intros l Hp.
  { apply Permutation_nil_r in Hp as ->. done. }
  revert Hp. assert (∀ l', l' ≡ₚ x :: k → ∃ l1 l2, l' = l1 ++ x :: l2 ∧ l1 ++ l2 ≡ₚ k) as Hsplit.
  { intros l' Hl'. assert (x ∈ l') as (l1 & l2 & ->)%list_elem_of_split.
    { rewrite Hl'. constructor. }
    exists l1, l2; split; [done|].
    rewrite <- Permutation_middle in Hl'. by apply Permutation_cons_inv in Hl'. }
  intros (l1 & l2 & -> & Hrest)%Hsplit.
  assert (∀ a, a ∈ l1 ++ l2 → key x < key a) as Hmin.
  { intros a Ha. rewrite Hrest in Ha. rewrite Forall_forall in Hx. by apply Hx. }
  specialize (IH _ Hrest). rewrite <- IH. clear IH Hrest Hx Hsplit Hk k.
  unfold sort_by_key. induction l1 as [|y l1 IH]; simpl.
  - assert (∀ a, a ∈ foldr (insert_by_key key) [] l2 → key x < key a) as Ha.
    { intros a Ha. apply Hmin. by rewrite <- (sort_by_key_Permutation key l2). }
    destruct (foldr _ _ l2) as [|z r]; simpl; [done|].
    destruct (N.leb_spec (key x) (key z)) as [|Hlt]; [done|].
    specialize (Ha z ltac:(apply elem_of_cons; by left)). lia.
  - rewrite IH by (intros a Ha; apply Hmin, elem_of_cons; by right).
    simpl. specialize (Hmin y ltac:(apply elem_of_cons; by left)).
    destruct (N.leb_spec (key y) (key x)); [lia|done].
Qed.

Lemma insert_by_key_le {A} (key : A → N) x l :
  StronglySorted (λ a b, key a ≤ key b) l →
  StronglySorted (λ a b, key a ≤ key b) (insert_by_key key x l).
Proof.
  induction 1 as [|y l Hl IH Hy]; cbn [insert_by_key]; [repeat constructor|].
  destruct (N.leb_spec (key x) (key y)).
  - constructor; [by constructor|]. constructor; [done|].
    eapply Forall_impl; [exact Hy|]. cbn. intros; lia.
  - constructor; [done|]. rewrite insert_by_key_Permutation. constructor; [lia|done].
Qed.

Lemma sort_by_key_le {A} (key : A → N) l :
  StronglySorted (λ a b, key a ≤ key b) (sort_by_key key l).
Proof.
  induction l as [|x l IH]; [constructor|]. unfold sort_by_key in *. cbn [foldr].
  by apply insert_by_key_le.
Qed.

(** Distinct keys sort strictly. *)
Lemma sort_by_key_strict {A} (key : A → N) l :
  NoDup (key <$> l) → strict_sorted key (sort_by_key key l).
Proof.
  intros Hnd. assert (NoDup (key <$> sort_by_key key l)) as Hnd'
    by by rewrite (fmap_Permutation key _ _ (sort_by_key_Permutation key l)).
  revert Hnd'. generalize (sort_by_key_le key l).
  generalize (sort_by_key key l) as k. clear. induction 1 as [|x k Hk IH Hx]; [constructor|].
  cbn. intros [Hnin Hnd]%NoDup_cons. constructor; [by apply IH|].
  rewrite Forall_forall in *. intros y Hy. specialize (Hx y Hy).
  destruct (N.eq_dec (key x) (key y)) as [Heq|]; [|lia].
  destruct Hnin. rewrite Heq. apply list_elem_of_fmap. eauto.
Qed.

#[global] Arguments to_le_bytes : simpl never.
#[global] Arguments from_le_bytes : simpl never.
#[global] Arguments to_be_bytes : simpl never.
#[global] Arguments sort_by_key : simpl never.

(** ** Maxima *)

(** [o] is the greatest element of [P], [None] when it is empty. *)
Definition is_max (o : option N) (P : N → Prop) : Prop :=
  match o with Some m => P m ∧ ∀ x, P x → x ≤ m | None => ∀ x, ¬ P x end.

Lemma is_max_unique o o' (P P' : N → Prop) :
  is_max o P → is_max o' P' → (∀ x, P x ↔ P' x) → o = o'.
Proof.
  intros Ho Ho' Heq. destruct o as [m|], o' as [m'|]; simpl in *.
  - destruct Ho as [Hm Hle], Ho' as [Hm' Hle']. f_equal. apply N.le_antisymm.
    + by apply Hle', Heq.
    + by apply Hle, Heq.
  - destruct Ho as [Hm _]. by destruct (Ho' m); apply Heq.
  - destruct Ho' as [Hm _]. by destruct (Ho m'); apply Heq.
  - done.
Qed.

Lemma is_max_iff o (P P' : N → Prop) : (∀ x, P x ↔ P' x) → is_max o P → is_max o P'.
Proof. intros Heq. destruct o; simpl; setoid_rewrite Heq; done. Qed.

(** Adding one element. *)
Lemma is_max_add o (P : N → Prop) e :
  is_max o P → is_max (Some (N.max (default 0 o) e)) (λ x, P x ∨ x = e).
Proof.
  destruct o as [m|]; simpl.
  - intros [Hm Hle]. split; [|intros x [Hx| ->]; [specialize (Hle x Hx)|]; lia].
    destruct (N.max_spec m e) as [[_ ->]|[_ ->]]; auto.
  - intros Hno. split; [right; lia|]. intros x [Hx| ->]; [by destruct (Hno x)|lia].
Qed.

Lemma max_by_is_max l : is_max (max_by (λ a b, b <=? a) l) (λ x, x ∈ l).
Proof.
  unfold max_by.
  assert (∀ (acc : option N) P, is_max acc P → is_max
    (foldl (λ acc x, match acc with
                     | None => Some x
                     | Some y => if y <=? x then Some x else Some y
                     end) acc l) (λ x, P x ∨ x ∈ l)) as Hgen.
  { induction l as [|a l IH]; intros acc P Hacc; simpl.
    - eapply is_max_iff, Hacc. intros x. rewrite elem_of_nil. tauto.
    - eapply is_max_iff; [|apply (IH _ (λ x, P x ∨ x = a))].
      + intros x. rewrite elem_of_cons. tauto.
      + pose proof (is_max_add _ _ a Hacc) as Hadd. destruct acc as [m|]; simpl in *.
        * destruct (N.leb_spec m a); [by rewrite N.max_r in Hadd by lia|].
          by rewrite N.max_l in Hadd by lia.
        * by rewrite N.max_r in Hadd by lia. }
  eapply is_max_iff; [|apply (Hgen None (λ _, False))]; [|by intros ? []]. naive_solver.
Qed.

(** Two maps with the same bindings are equal. *)
Lemma map_eq_iff `{Countable K} {V} (m1 m2 : gmap K V) :
  (∀ k v, m1 !! k = Some v ↔ m2 !! k = Some v) → m1 = m2.
Proof. intros Heq. apply map_eq. intros k. apply option_eq. intros v. apply Heq. Qed.

Lemma elem_of_concat {A} (x : A) ls : x ∈ concat ls ↔ ∃ l, l ∈ ls ∧ x ∈ l.
Proof. rewrite list_elem_of_In, in_concat. by setoid_rewrite list_elem_of_In. Qed.

(** [max_by] for a total preorder. *)
Lemma max_by_spec {A} (ge : A → A → bool) l :
  (∀ x y, ge x y = true ∨ ge y x = true) →
  (∀ x y z, ge x y = true → ge y z = true → ge x z = true) →
  match max_by ge l with
  | Some m => m ∈ l ∧ ∀ y, y ∈ l → ge m y = true
  | None => l = []
  end.
Proof.
  intros Htot Htrans. unfold max_by. induction l as [|x l IH] using rev_ind; [done|].
  rewrite foldl_snoc. destruct (foldl _ None l) as [m|].
  - destruct IH as [Hm Hall]. destruct (ge x m) eqn:E; (split; [set_solver|]);
      intros y [Hy| ->%list_elem_of_singleton]%elem_of_app; eauto.
    + by destruct (Htot x x).
    + destruct (Htot x m); [congruence|done].
  - subst l. split; [set_solver|]. intros y ->%list_elem_of_singleton. by destruct (Htot x x).
Qed.
