(* ===== verification/Text.v ===== *)
(** * Text: the parts of Rust's [str] and [String] the program relies on

    A Rust [String] is a byte sequence that is valid UTF-8.  Names (streams,
    members, digests) are modelled by [string], whose characters are the bytes;
    [String::from_utf8] checks validity, [str::trim().is_empty()] is [blank],
    and [str]'s ordering is the bytewise one. *)

From S2P Require Import Prelude.

Definition in_range (lo hi : N) (b : byte) : bool :=
  (lo <=? Byte.to_N b) && (Byte.to_N b <=? hi).

(** A continuation byte. *)
Definition cont (b : byte) : bool := in_range 0x80 0xBF b.

(** Well-formed UTF-8: the table of the Unicode standard, which is the check of
    [String::from_utf8]. *)
Fixpoint utf8_valid (bs : list byte) : bool :=
  match bs with
  | [] => true
  | b0 :: r0 =>
    if in_range 0x00 0x7F b0 then utf8_valid r0
    else match r0 with
    | [] => false
    | b1 :: r1 =>
      if in_range 0xC2 0xDF b0 then cont b1 && utf8_valid r1
      else match r1 with
      | [] => false
      | b2 :: r2 =>
        if in_range 0xE0 0xE0 b0 then in_range 0xA0 0xBF b1 && cont b2 && utf8_valid r2
        else if in_range 0xED 0xED b0 then in_range 0x80 0x9F b1 && cont b2 && utf8_valid r2
        else if in_range 0xE1 0xEF b0 then cont b1 && cont b2 && utf8_valid r2
        else match r2 with
        | [] => false
        | b3 :: r3 =>
          if in_range 0xF0 0xF0 b0 then
            in_range 0x90 0xBF b1 && cont b2 && cont b3 && utf8_valid r3
          else if in_range 0xF1 0xF3 b0 then
            cont b1 && cont b2 && cont b3 && utf8_valid r3
          else if in_range 0xF4 0xF4 b0 then
            in_range 0x80 0x8F b1 && cont b2 && cont b3 && utf8_valid r3
          else false
        end
      end
    end
  end.

(** [str::as_bytes] and [str::len]. *)
Definition as_bytes (s : string) : list byte := String.list_byte_of_string s.
Definition str_len (s : string) : N := len (as_bytes s).

(** [String::from_utf8]. *)
Definition from_utf8 (bs : list byte) : option string :=
  if utf8_valid bs then Some (String.string_of_list_byte bs) else None.

(** [s.trim().is_empty()]: every character has the Unicode [White_Space]
    property (U+0009..U+000D, U+0020, U+0085, U+00A0, U+1680, U+2000..U+200A,
    U+2028, U+2029, U+202F, U+205F, U+3000). *)
Fixpoint blank_bytes (bs : list byte) : bool :=
  match bs with
  | [] => true
  | b0 :: r0 =>
    if in_range 0x09 0x0D b0 || in_range 0x20 0x20 b0 then blank_bytes r0
    else match r0 with
    | [] => false
    | b1 :: r1 =>
      if in_range 0xC2 0xC2 b0 then
        (in_range 0x85 0x85 b1 || in_range 0xA0 0xA0 b1) && blank_bytes r1
      else match r1 with
      | [] => false
      | b2 :: r2 =>
        ((in_range 0xE1 0xE1 b0 && in_range 0x9A 0x9A b1 && in_range 0x80 0x80 b2)
         || (in_range 0xE2 0xE2 b0 && in_range 0x80 0x80 b1
             && (in_range 0x80 0x8A b2 || in_range 0xA8 0xA9 b2 || in_range 0xAF 0xAF b2))
         || (in_range 0xE2 0xE2 b0 && in_range 0x81 0x81 b1 && in_range 0x9F 0x9F b2)
         || (in_range 0xE3 0xE3 b0 && in_range 0x80 0x80 b1 && in_range 0x80 0x80 b2))
        && blank_bytes r2
      end
    end
  end.

Definition blank (s : string) : bool := blank_bytes (as_bytes s).

(** [a >= b] on [str]: bytewise lexicographic order. *)
Definition str_geb (a b : string) : bool := String.leb b a.

(** ** Ordered maps

    A [BTreeMap] is a [gmap]; where the source depends on its iteration order,
    the entries are listed by increasing key. *)

Definition key_le (a b : string * N) : Prop :=
  String.ltb a.1 b.1 = true ∨ a.1 = b.1 ∧ a.2 ≤ b.2.

#[global] Instance key_le_dec : RelDecision key_le.
Proof. intros a b. unfold key_le. apply _. Defined.

Definition btree_entries {V} (m : gmap (string * N) V) : list ((string * N) * V) :=
  merge_sort (λ a b, key_le a.1 b.1) (map_to_list m).

(** [map.values()]. *)
Definition btree_values {V} (m : gmap (string * N) V) : list V := (btree_entries m).*2.

Definition sbtree_entries {V} (m : gmap string V) : list (string * V) :=
  merge_sort (λ a b, String.le a.1 b.1) (map_to_list m).

Definition sbtree_values {V} (m : gmap string V) : list V := (sbtree_entries m).*2.

#[global] Arguments as_bytes : simpl never.
#[global] Arguments blank : simpl never.

(** ** Lemmas *)

Lemma as_bytes_of_bytes bs : as_bytes (String.string_of_list_byte bs) = bs.
Proof. apply String.list_byte_of_string_of_list_byte. Qed.

Lemma of_bytes_as_bytes s : String.string_of_list_byte (as_bytes s) = s.
Proof. apply String.string_of_list_byte_of_string. Qed.

Lemma as_bytes_app a b : as_bytes (a +:+ b) = as_bytes a ++ as_bytes b.
Proof.
  unfold as_bytes, String.list_byte_of_string. rewrite <- map_app. f_equal.
  induction a as [|c a IH]; [done|]. cbn. by rewrite <- IH.
Qed.

Lemma from_utf8_Some bs s :
  from_utf8 bs = Some s ↔ utf8_valid bs = true ∧ bs = as_bytes s.
Proof.
  unfold from_utf8. destruct (utf8_valid bs); split.
  - intros [= <-]. by rewrite as_bytes_of_bytes.
  - intros [_ ->]. by rewrite of_bytes_as_bytes.
  - done.
  - by intros [? _].
Qed.

#[global] Instance as_bytes_inj : Inj (=) (=) as_bytes.
Proof.
  intros a b Hab. rewrite <- (of_bytes_as_bytes a), <- (of_bytes_as_bytes b).
  by rewrite Hab.
Qed.

Lemma blank_empty : blank "" = true.
Proof. done. Qed.

Lemma str_ge_refl s : str_geb s s = true.
Proof. unfold str_geb. by destruct (String.leb_total s s). Qed.

Lemma str_ge_total a b : str_geb a b = false → str_geb b a = true.
Proof. unfold str_geb. by destruct (String.leb_total a b) as [->| ->]. Qed.

(** The bytes below 0x80 are valid UTF-8 on their own, so an ASCII literal is a
    Rust [String]. *)
Lemma utf8_ascii bs :
  Forall (λ b, Byte.to_N b < 128) bs → utf8_valid bs = true.
Proof.
  induction 1 as [|b bs Hb _ IH]; simpl; [done|].
  unfold in_range. destruct (N.leb_spec 0 (Byte.to_N b)); [|lia].
  by destruct (N.leb_spec (Byte.to_N b) 0x7F); [|lia].
Qed.

Lemma elem_of_btree_entries {V} (m : gmap (string * N) V) k v :
  (k, v) ∈ btree_entries m ↔ m !! k = Some v.
Proof. unfold btree_entries. by rewrite merge_sort_Permutation, elem_of_map_to_list. Qed.

Lemma elem_of_sbtree_entries {V} (m : gmap string V) k v :
  (k, v) ∈ sbtree_entries m ↔ m !! k = Some v.
Proof. unfold sbtree_entries. by rewrite merge_sort_Permutation, elem_of_map_to_list. Qed.

Lemma elem_of_btree_values {V} (m : gmap (string * N) V) v :
  v ∈ btree_values m ↔ ∃ k, m !! k = Some v.
Proof.
  unfold btree_values. rewrite list_elem_of_fmap. split.
  - intros ([k ?] & -> & Hk). exists k. by apply elem_of_btree_entries.
  - intros [k Hk]. exists (k, v). by rewrite elem_of_btree_entries.
Qed.

Lemma elem_of_sbtree_values {V} (m : gmap string V) v :
  v ∈ sbtree_values m ↔ ∃ k, m !! k = Some v.
Proof.
  unfold sbtree_values. rewrite list_elem_of_fmap. split.
  - intros ([k ?] & -> & Hk). exists k. by apply elem_of_sbtree_entries.
  - intros [k Hk]. exists (k, v). by rewrite elem_of_sbtree_entries.
Qed.

Lemma NoDup_btree_keys {V} (m : gmap (string * N) V) : NoDup (btree_entries m).*1.
Proof. unfold btree_entries. rewrite merge_sort_Permutation. apply NoDup_fst_map_to_list. Qed.

Lemma NoDup_sbtree_keys {V} (m : gmap string V) : NoDup (sbtree_entries m).*1.
Proof. unfold sbtree_entries. rewrite merge_sort_Permutation. apply NoDup_fst_map_to_list. Qed.
