(* ===== verification/Programs.v ===== *)
(** * Programs: code that asks

    A driver talks to nodes, stores and clocks it does not own.  It is a program over the
    questions it asks; what answers them is another matter. *)

From S2P Require Import Prelude.

(** A program over the questions [Q]: each question names the type of its answers. *)
Inductive Prog (Q : Type → Type) (E A : Type) : Type :=
| PReturn (r : result E A)
| PLoops
| PAsk {X : Type} (q : Q X) (k : X → Prog Q E A).

Arguments PReturn {Q E A} r.
Arguments PLoops {Q E A}.
Arguments PAsk {Q E A X} q k.

Fixpoint prog_bind {Q E A B} (m : Prog Q E A) (f : A → Prog Q E B) : Prog Q E B :=
  match m with
  | PReturn (Ok a) => f a
  | PReturn (Err e) => PReturn (Err e)
  | PLoops => PLoops
  | PAsk q k => PAsk q (λ x, prog_bind (k x) f)
  end.

#[global] Instance prog_mbind Q E : MBind (Prog Q E) := λ A B f m, prog_bind m f.

(** Ask, and go on with the answer. *)
Definition ask {Q E X} (q : Q X) : Prog Q E X := PAsk q (λ x, PReturn (Ok x)).

(** Ask, and return early with an error: [.await?]. *)
Definition try_ask {Q E X} (q : Q (result E X)) : Prog Q E X := PAsk q PReturn.

(** Ask [q] before returning, whatever the result: the drop of a guard. *)
Fixpoint finally {Q E A} (m : Prog Q E A) (q : Q unit) : Prog Q E A :=
  match m with
  | PReturn r => PAsk q (λ _, PReturn r)
  | PLoops => PLoops
  | PAsk q' k => PAsk q' (λ x, finally (k x) q)
  end.

(** Run, and go on whatever the result: an error that is only logged. *)
Fixpoint attempt {Q E A} (m : Prog Q E A) : Prog Q E (result E A) :=
  match m with
  | PReturn r => PReturn (Ok r)
  | PLoops => PLoops
  | PAsk q k => PAsk q (λ x, attempt (k x))
  end.

(** Forget the result. *)
Definition forget {Q E A} (m : Prog Q E A) : Prog Q E unit := _ ← m; PReturn (Ok tt).

(** ** Programs in flight *)

(** [set_nth i x l]: [l] with its [i]-th element replaced. *)
Fixpoint set_nth {A} (i : nat) (x : A) (l : list A) : list A :=
  match l, i with
  | [], _ => []
  | _ :: l, O => x :: l
  | y :: l, S i => y :: set_nth i x l
  end.

Lemma nth_error_is {A} (l : list A) i : nth_error l i = l !! i.
Proof. revert i. induction l as [|x l IH]; intros [|i]; cbn; auto. Qed.

Lemma set_nth_Some {A} i (x : A) l j y : set_nth i x l !! j = Some y → (i = j ∧ x = y) ∨ (i ≠ j ∧ l !! j = Some y).
Proof.
  revert i j. induction l as [|z l IH]; intros [|i] [|j]; cbn; try done; try (right; split; [lia|done]).
  - intros [= ->]. by left.
  - intros [[-> ->]|[Hne Hj]]%IH; [by left|right]. split; [lia|done].
Qed.

Lemma snoc_Some {A} (l : list A) x i y : (l ++ [x]) !! i = Some y → l !! i = Some y ∨ x = y.
Proof.
  revert i. induction l as [|z l IH]; intros [|i]; cbn; [|done|by left|apply IH]. intros [= ->]. by right.
Qed.
