(* ===== verification/Traces.v ===== *)
(** * Traces: what a program asks, in order

    Properties of a [Programs.Prog] that hold whatever its questions are answered: each question
    may depend on those before it and their answers, and so may the result. *)

From S2P Require Import Prelude Programs.

(** A question with its answer. *)
Inductive Event (Q : Type → Type) : Type :=
| Asked {X : Type} (q : Q X) (x : X).
Arguments Asked {Q X} q x.

(** Whatever the answers are, every question satisfies [P] and every result [R], given the
    questions and answers before. *)
Fixpoint always {Q E A} (P : list (Event Q) → ∀ X, Q X → Prop) (R : list (Event Q) → A → Prop)
    (tr : list (Event Q)) (m : Prog Q E A) : Prop :=
  match m with
  | PReturn r => ∀ a, r = Ok a → R tr a
  | PLoops => True
  | @PAsk _ _ _ X q k => P tr X q ∧ ∀ x, always P R (tr ++ [Asked q x]) (k x)
  end.

Section Programs.
Context {Q : Type → Type} {E : Type} (P : list (Event Q) → ∀ X, Q X → Prop).

Lemma always_bind {A B} (R0 : list (Event Q) → A → Prop) (R : list (Event Q) → B → Prop) tr
    (m : Prog Q E A) (f : A → Prog Q E B) :
  always P R0 tr m → (∀ tr' a, R0 tr' a → always P R tr' (f a)) → always P R tr (m ≫= f).
Proof.
  intros Hm Hf. revert tr Hm. induction m as [r| |X q k IH]; intros tr Hm.
  - destruct r; cbn in *; [by apply Hf, Hm|by intros ? ?].
  - done.
  - destruct Hm as [Hq Hk]. split; [done|]. intros x. by apply IH.
Qed.

Lemma always_mono {A} (R0 R : list (Event Q) → A → Prop) tr (m : Prog Q E A) :
  (∀ tr a, R0 tr a → R tr a) → always P R0 tr m → always P R tr m.
Proof.
  intros Hr. revert tr. induction m as [r| |X q k IH]; intros tr Hm; cbn in *.
  - intros a Ha. by apply Hr, Hm.
  - done.
  - destruct Hm as [Hq Hk]. split; [done|]. intros x. by apply IH.
Qed.

Lemma always_return {A B} (R : list (Event Q) → B → Prop) tr (r : result E A) (f : A → Prog Q E B) :
  (∀ a, r = Ok a → always P R tr (f a)) → always P R tr (a ← PReturn r; f a).
Proof. destruct r; intros Hf; cbn; [by apply Hf|by intros ? ?]. Qed.

Lemma always_ask {X B} (R : list (Event Q) → B → Prop) tr (q : Q X) (f : X → Prog Q E B) :
  P tr X q → (∀ x, always P R (tr ++ [Asked q x]) (f x)) → always P R tr (x ← ask q; f x).
Proof. done. Qed.

Lemma always_try {X B} (R : list (Event Q) → B → Prop) tr (q : Q (result E X)) (f : X → Prog Q E B) :
  P tr _ q → (∀ x, always P R (tr ++ [Asked q (Ok x)]) (f x)) → always P R tr (x ← try_ask q; f x).
Proof.
  intros Hq Hf. split; [done|]. intros [x|e]; [apply Hf|by intros ? ?].
Qed.

(** The answers only grow. *)
Lemma always_extends {A} (R : list (Event Q) → A → Prop) tr (m : Prog Q E A) :
  always P R tr m → always P (λ tr' a, R tr' a ∧ ∃ more, tr' = tr ++ more) tr m.
Proof.
  revert tr. induction m as [r| |X q k IH]; intros tr Hm; cbn in *.
  - intros a Ha. split; [by apply Hm|]. exists []. by rewrite app_nil_r.
  - done.
  - destruct Hm as [Hq Hk]. split; [done|]. intros x. eapply always_mono; [|by apply IH].
    intros tr' a [Ha [more ->]]. split; [done|]. exists (Asked q x :: more). by rewrite <- app_assoc.
Qed.

(** A guard dropped at the end is one more question. *)
Lemma always_finally {A} (R : list (Event Q) → A → Prop) tr (m : Prog Q E A) (q : Q unit) :
  (∀ tr, P tr unit q) → (∀ tr x a, R tr a → R (tr ++ [Asked q x]) a) →
  always P R tr m → always P R tr (finally m q).
Proof.
  intros Hq Hmono. revert tr. induction m as [r| |X q' k IH]; intros tr Hm; cbn in *.
  - split; [apply Hq|]. intros x a Ha. apply Hmono. by apply Hm.
  - done.
  - destruct Hm as [Hq' Hk]. split; [done|]. intros x. by apply IH.
Qed.

End Programs.

(** What is asked of every question is known of the questions that were asked. *)
Lemma always_adds {Q E A} (N : ∀ X, Q X → Prop) (R : list (Event Q) → A → Prop) tr (m : Prog Q E A) :
  always (λ _, N) R tr m →
  always (λ _ _ _, True)
    (λ tr' a, R tr' a ∧ ∃ more, tr' = tr ++ more ∧ Forall (λ e : Event Q, match e with Asked q _ => N _ q end) more) tr m.
Proof.
  revert tr. induction m as [r| |X q k IH]; intros tr Hm; cbn in *.
  - intros a Ha. split; [by apply Hm|]. exists []. by rewrite app_nil_r.
  - done.
  - destruct Hm as [Hq Hk]. split; [done|]. intros x. eapply always_mono; [|by apply IH].
    intros tr' a [Ha (more & -> & Hmore)]. split; [done|]. exists (Asked q x :: more). rewrite <- app_assoc. by split; [|constructor].
Qed.

(** What no question can undo. *)
Lemma always_past {Q E A} (C : list (Event Q) → Prop) tr (m : Prog Q E A) :
  (∀ more, C (tr ++ more)) → always (λ tr' _ _, C tr') (λ tr' _, C tr') tr m.
Proof.
  revert tr. induction m as [r| |X q k IH]; intros tr HC; cbn; [|done|].
  - intros a _. specialize (HC []). by rewrite app_nil_r in HC.
  - split; [specialize (HC []); by rewrite app_nil_r in HC|]. intros x. apply IH. intros more. rewrite <- app_assoc. apply HC.
Qed.

(** Two properties of one program. *)
Lemma always_both {Q E A} (P P' : list (Event Q) → ∀ X, Q X → Prop) (R R' : list (Event Q) → A → Prop) tr (m : Prog Q E A) :
  always P R tr m → always P' R' tr m →
  always (λ tr X q, P tr X q ∧ P' tr X q) (λ tr a, R tr a ∧ R' tr a) tr m.
Proof.
  revert tr. induction m as [r| |X q k IH]; intros tr Hm Hm'; cbn in *.
  - intros a Ha. split; [by apply Hm|by apply Hm'].
  - done.
  - destruct Hm as [Hq Hk], Hm' as [Hq' Hk']. split; [done|]. intros x. by apply IH.
Qed.


Lemma always_weaken {Q E A} (P P' : list (Event Q) → ∀ X, Q X → Prop) (R R' : list (Event Q) → A → Prop) tr (m : Prog Q E A) :
  (∀ tr X q, P tr X q → P' tr X q) → (∀ tr a, R tr a → R' tr a) → always P R tr m → always P' R' tr m.
Proof.
  intros HP HR. revert tr. induction m as [r| |X q k IH]; intros tr Hm; cbn in *.
  - intros a Ha. by apply HR, Hm.
  - done.
  - destruct Hm as [Hq Hk]. split; [by apply HP|]. intros x. by apply IH.
Qed.

(** A result that depends on a fact the questions do not need. *)
Lemma always_when {Q E A} (H : Prop) (P : list (Event Q) → ∀ X, Q X → Prop) (R : list (Event Q) → A → Prop) tr (m : Prog Q E A) :
  always P (λ _ _, True) tr m → (H → always P R tr m) → always P (λ tr a, H → R tr a) tr m.
Proof.
  revert tr. induction m as [r| |X q k IH]; intros tr Hm HR; cbn in *.
  - intros a Ha HH. by apply (HR HH).
  - done.
  - destruct Hm as [Hq Hk]. split; [done|]. intros x. apply IH; [done|]. intros HH. by apply (HR HH).
Qed.
