(* ===== verification/Wire.v ===== *)
(** * Wire: the bounded binary transport of encrypted records

    [crates/walleye-bitr/src/lib.rs]: [EncryptedRecord], its binary encoding
    and the framed batch encoding, with the readers they are built from.  A
    reader takes the remaining bytes and returns the value with the bytes left,
    as the source's [&mut &[u8]] cursors do. *)

From S2P Require Import Prelude Text.

(** ** Limits *)

Definition MAX_ENCRYPTED_RECORD_STREAM_BYTES : N := 4 * 1024.
Definition MAX_ENCRYPTED_RECORD_CIPHERTEXT_BYTES : N := 8 * 1024 * 1024.
Definition XCHACHA20POLY1305_TAG_BYTES : N := 16.
Definition MAX_ENCRYPTED_RECORD_PLAINTEXT_BYTES : N :=
  MAX_ENCRYPTED_RECORD_CIPHERTEXT_BYTES - XCHACHA20POLY1305_TAG_BYTES.
Definition MAX_ENCRYPTED_RECORD_BATCH_RECORDS : N := 1024.
Definition MAX_ENCRYPTED_RECORD_BATCH_BYTES : N := 32 * 1024 * 1024.
Definition ENCRYPTED_RECORD_AUTHENTICATION_BYTES : N := 32.
Definition ENCRYPTED_RECORD_BINARY_FIXED_BYTES : N :=
  4 + 8 + 8 + 8 + 24 + 4 + ENCRYPTED_RECORD_AUTHENTICATION_BYTES.
Definition MAX_ENCRYPTED_RECORD_BYTES : N :=
  ENCRYPTED_RECORD_BINARY_FIXED_BYTES
  + MAX_ENCRYPTED_RECORD_STREAM_BYTES
  + MAX_ENCRYPTED_RECORD_CIPHERTEXT_BYTES.
Definition ENCRYPTED_RECORD_BATCH_HEADER_BYTES : N := 4.
Definition ENCRYPTED_RECORD_BATCH_FRAME_BYTES : N := 4.

(** ** Errors *)

Inductive ReplicaError : Type :=
| QuorumUnavailable
| GatewayUnavailable
| GatewayUnauthorized
| GatewayRejected (status : N)
| WriterFenced
| Encryption
| NodeUnavailable
| LsnConflict
| InvalidWatermark (lsn committed_lsn : N)
| NodeStorage (reason : string)
| CapacityExceeded (cohort_id requested_bytes max_append_bytes : N)
| Protocol (reason : string)
| RecoveryGap (expected_lsn received_lsn : N)
| RecoveryStreamMismatch (expected_stream received_stream : string)
| CommitCertificateMissing
| RecoveryIncomplete (expected_lsn committed_lsn : N)
| RecoveryAmbiguous (lsn committed_nodes quorum : N).

(** ** Records *)

Record EncryptedRecord := mkEncryptedRecord {
  er_stream : string;
  er_writer_epoch : N;
  er_lsn : N;
  er_committed_lsn : N;
  er_nonce : list byte;
  er_ciphertext : list byte;
  er_authentication : list byte;
}.

#[global] Instance byte_countable : Countable byte :=
  inj_countable' Byte.to_N byte_of_N byte_of_to_N.

#[global] Instance EncryptedRecord_eq_dec : EqDecision EncryptedRecord.
Proof. solve_decision. Defined.

#[global] Instance ReplicaError_eq_dec : EqDecision ReplicaError.
Proof. solve_decision. Defined.

(** What Rust's types say of a record: a [String], three [u64]s, two arrays. *)
Definition wf_record (r : EncryptedRecord) : Prop :=
  utf8_valid (as_bytes (er_stream r)) = true
  ∧ er_writer_epoch r ≤ u64_max ∧ er_lsn r ≤ u64_max ∧ er_committed_lsn r ≤ u64_max
  ∧ length (er_nonce r) = 24%nat ∧ length (er_authentication r) = 32%nat.

(** The limits [binary_encoded_len] enforces. *)
Definition bounded_record (r : EncryptedRecord) : Prop :=
  1 ≤ str_len (er_stream r) ≤ MAX_ENCRYPTED_RECORD_STREAM_BYTES
  ∧ len (er_ciphertext r) ≤ MAX_ENCRYPTED_RECORD_CIPHERTEXT_BYTES.

(** ** Readers *)

Definition reader (A : Type) : Type := list byte → result ReplicaError (A * list byte).

Definition take_bytes (length : N) : reader (list byte) := λ bytes,
  if len bytes <? length then Err (Protocol "encrypted record body is truncated")
  else Ok (take (N.to_nat length) bytes, drop (N.to_nat length) bytes).

Definition read_u32 : reader N := λ bytes,
  '(raw, rest) ← take_bytes 4 bytes; Ok (from_le_bytes raw, rest).

Definition read_u64 : reader N := λ bytes,
  '(raw, rest) ← take_bytes 8 bytes; Ok (from_le_bytes raw, rest).

Definition read_fixed (n : N) : reader (list byte) := λ bytes, take_bytes n bytes.

(** ** Single records *)

Definition binary_encoded_len (r : EncryptedRecord) : result ReplicaError N :=
  let stream := as_bytes (er_stream r) in
  if (len stream =? 0) || (MAX_ENCRYPTED_RECORD_STREAM_BYTES <? len stream) then
    Err (Protocol "encrypted record stream length is out of bounds")
  else if MAX_ENCRYPTED_RECORD_CIPHERTEXT_BYTES <? len (er_ciphertext r) then
    Err (Protocol "encrypted record ciphertext length is out of bounds")
  else
    encoded_len ← ok_or
      (length ← checked_add ENCRYPTED_RECORD_BINARY_FIXED_BYTES (len stream);
       checked_add length (len (er_ciphertext r)))
      (Protocol "encrypted record length overflow");
    if MAX_ENCRYPTED_RECORD_BYTES <? encoded_len then
      Err (Protocol "encrypted record body is too large")
    else Ok encoded_len.

Definition encode_binary (r : EncryptedRecord) : result ReplicaError (list byte) :=
  _ ← binary_encoded_len r;
  let stream := as_bytes (er_stream r) in
  stream_len ← ok_or (u32_try_from (len stream))
    (Protocol "encrypted record stream length overflows wire type");
  ciphertext_len ← ok_or (u32_try_from (len (er_ciphertext r)))
    (Protocol "encrypted record ciphertext length overflows wire type");
  Ok (to_le_bytes 4 stream_len
      ++ stream
      ++ to_le_bytes 8 (er_writer_epoch r)
      ++ to_le_bytes 8 (er_lsn r)
      ++ to_le_bytes 8 (er_committed_lsn r)
      ++ er_nonce r
      ++ to_le_bytes 4 ciphertext_len
      ++ er_ciphertext r
      ++ er_authentication r).

Definition decode_binary (bytes : list byte) : result ReplicaError EncryptedRecord :=
  if MAX_ENCRYPTED_RECORD_BYTES <? len bytes then
    Err (Protocol "encrypted record body is too large")
  else
    '(stream_len, bytes) ← read_u32 bytes;
    if (stream_len =? 0) || (MAX_ENCRYPTED_RECORD_STREAM_BYTES <? stream_len) then
      Err (Protocol "encrypted record stream length is out of bounds")
    else
      '(raw, bytes) ← take_bytes stream_len bytes;
      stream ← ok_or (from_utf8 raw)
        (Protocol "encrypted record stream is not valid UTF-8");
      '(writer_epoch, bytes) ← read_u64 bytes;
      '(lsn, bytes) ← read_u64 bytes;
      '(committed_lsn, bytes) ← read_u64 bytes;
      '(nonce, bytes) ← read_fixed 24 bytes;
      '(ciphertext_len, bytes) ← read_u32 bytes;
      if MAX_ENCRYPTED_RECORD_CIPHERTEXT_BYTES <? ciphertext_len then
        Err (Protocol "encrypted record ciphertext length is out of bounds")
      else
        expected_tail ← ok_or
          (checked_add ciphertext_len ENCRYPTED_RECORD_AUTHENTICATION_BYTES)
          (Protocol "encrypted record length overflow");
        if negb (len bytes =? expected_tail) then
          Err (Protocol "encrypted record body is truncated or has trailing bytes")
        else
          '(ciphertext, bytes) ← take_bytes ciphertext_len bytes;
          '(authentication, bytes) ← read_fixed 32 bytes;
          Ok (mkEncryptedRecord stream writer_epoch lsn committed_lsn
                nonce ciphertext authentication).

(** ** Framed batches *)

(** The body length a batch would have: the first loop of [encode_binary_batch]. *)
Definition batch_encoded_len (records : list EncryptedRecord) : result ReplicaError N :=
  try_fold (λ encoded_len record,
    record_len ← binary_encoded_len record;
    ok_or
      (length ← checked_add encoded_len ENCRYPTED_RECORD_BATCH_FRAME_BYTES;
       checked_add length record_len)
      (Protocol "encrypted record batch length overflow"))
    ENCRYPTED_RECORD_BATCH_HEADER_BYTES records.

(** One length-delimited frame: the body of the second loop. *)
Definition encode_frame (r : EncryptedRecord) : result ReplicaError (list byte) :=
  record ← encode_binary r;
  frame_len ← ok_or (u32_try_from (len record))
    (Protocol "encrypted record frame length overflows wire type");
  Ok (to_le_bytes 4 frame_len ++ record).

Definition encode_binary_batch (records : list EncryptedRecord)
    : result ReplicaError (list byte) :=
  if len records =? 0 then Err (Protocol "encrypted record batch must not be empty")
  else if MAX_ENCRYPTED_RECORD_BATCH_RECORDS <? len records then
    Err (Protocol "encrypted record batch has too many records")
  else
    encoded_len ← batch_encoded_len records;
    if MAX_ENCRYPTED_RECORD_BATCH_BYTES <? encoded_len then
      Err (Protocol "encrypted record batch body is too large")
    else
      count ← ok_or (u32_try_from (len records))
        (Protocol "encrypted record batch count overflows wire type");
      frames ← try_map encode_frame records;
      Ok (to_le_bytes 4 count ++ concat frames).

(** The [for _ in 0..count] loop of [decode_binary_batch]. *)
Fixpoint decode_frames (count : nat) (bytes : list byte)
    : result ReplicaError (list EncryptedRecord * list byte) :=
  match count with
  | O => Ok ([], bytes)
  | S count =>
    '(frame_len, bytes) ← read_u32 bytes;
    if (frame_len =? 0) || (MAX_ENCRYPTED_RECORD_BYTES <? frame_len) then
      Err (Protocol "encrypted record frame length is out of bounds")
    else
      '(frame, bytes) ← take_bytes frame_len bytes;
      record ← decode_binary frame;
      '(records, bytes) ← decode_frames count bytes;
      Ok (record :: records, bytes)
  end.

Definition decode_binary_batch (bytes : list byte)
    : result ReplicaError (list EncryptedRecord) :=
  if MAX_ENCRYPTED_RECORD_BATCH_BYTES <? len bytes then
    Err (Protocol "encrypted record batch body is too large")
  else
    '(count, bytes) ← read_u32 bytes;
    if (count =? 0) || (MAX_ENCRYPTED_RECORD_BATCH_RECORDS <? count) then
      Err (Protocol "encrypted record batch count is out of bounds")
    else
      '(records, bytes) ← decode_frames (N.to_nat count) bytes;
      if negb (len bytes =? 0) then
        Err (Protocol "encrypted record batch has trailing bytes")
      else Ok records.

(** ** Reader lemmas *)

Lemma take_bytes_app n pre rest : len pre = n → take_bytes n (pre ++ rest) = Ok (pre, rest).
Proof.
  intros <-. unfold take_bytes. rewrite len_app.
  destruct (N.ltb_spec (len pre + len rest) (len pre)); [lia|].
  unfold len. by rewrite Nat2N.id, take_app_length, drop_app_length.
Qed.

Lemma take_bytes_Ok n bs raw rest :
  take_bytes n bs = Ok (raw, rest) → bs = raw ++ rest ∧ len raw = n.
Proof.
  unfold take_bytes, len. destruct (N.ltb_spec (N.of_nat (length bs)) n); [done|].
  intros [= <- <-]. rewrite take_drop. split; [done|]. rewrite length_take. lia.
Qed.

Lemma read_le_app n (x : N) rest :
  x < 256 ^ N.of_nat n →
  ('(raw, rest) ← take_bytes (N.of_nat n) (to_le_bytes n x ++ rest);
   Ok (from_le_bytes raw, rest)) = Ok (E:=ReplicaError) (x, rest).
Proof.
  intros Hx. rewrite take_bytes_app by (unfold len; by rewrite length_to_le_bytes).
  simpl. by rewrite from_to_le_bytes.
Qed.

Lemma read_le_Ok n bs x rest :
  ('(raw, rest) ← take_bytes (N.of_nat n) bs;
   Ok (E:=ReplicaError) (from_le_bytes raw, rest)) = Ok (x, rest) →
  bs = to_le_bytes n x ++ rest ∧ x < 256 ^ N.of_nat n.
Proof.
  rewrite bind_Ok. intros ([raw rest'] & (-> & Hlen)%take_bytes_Ok & [= <- ->]).
  pose proof (from_le_bytes_lt raw) as Hlt. rewrite Hlen in Hlt. split; [|done].
  f_equal. unfold len in Hlen. apply Nat2N.inj in Hlen. subst n.
  by rewrite to_from_le_bytes.
Qed.

Lemma read_u32_app x rest : x ≤ u32_max → read_u32 (to_le_bytes 4 x ++ rest) = Ok (x, rest).
Proof. intros Hx. apply (read_le_app 4). unfold u32_max in Hx. cbn. lia. Qed.

Lemma read_u64_app x rest : x ≤ u64_max → read_u64 (to_le_bytes 8 x ++ rest) = Ok (x, rest).
Proof. intros Hx. apply (read_le_app 8). unfold u64_max in Hx. cbn. lia. Qed.

Lemma read_u32_Ok bs x rest :
  read_u32 bs = Ok (x, rest) → bs = to_le_bytes 4 x ++ rest ∧ x ≤ u32_max.
Proof. intros [-> Hx]%(read_le_Ok 4). split; [done|]. unfold u32_max. cbn in Hx. lia. Qed.

Lemma read_u64_Ok bs x rest :
  read_u64 bs = Ok (x, rest) → bs = to_le_bytes 8 x ++ rest ∧ x ≤ u64_max.
Proof. intros [-> Hx]%(read_le_Ok 8). split; [done|]. unfold u64_max. cbn in Hx. lia. Qed.

(** ** The encoder in closed form *)

(** The bytes of a record within the limits. *)
Definition wire_bytes (r : EncryptedRecord) : list byte :=
  to_le_bytes 4 (str_len (er_stream r))
  ++ as_bytes (er_stream r)
  ++ to_le_bytes 8 (er_writer_epoch r)
  ++ to_le_bytes 8 (er_lsn r)
  ++ to_le_bytes 8 (er_committed_lsn r)
  ++ er_nonce r
  ++ to_le_bytes 4 (len (er_ciphertext r))
  ++ er_ciphertext r
  ++ er_authentication r.

Definition wire_len (r : EncryptedRecord) : N :=
  ENCRYPTED_RECORD_BINARY_FIXED_BYTES + str_len (er_stream r) + len (er_ciphertext r).

(** Unfolds the numeric limits. *)
Ltac limits :=
  unfold MAX_ENCRYPTED_RECORD_BYTES, MAX_ENCRYPTED_RECORD_STREAM_BYTES,
    MAX_ENCRYPTED_RECORD_CIPHERTEXT_BYTES, ENCRYPTED_RECORD_BINARY_FIXED_BYTES,
    ENCRYPTED_RECORD_AUTHENTICATION_BYTES, MAX_ENCRYPTED_RECORD_BATCH_BYTES,
    MAX_ENCRYPTED_RECORD_BATCH_RECORDS, ENCRYPTED_RECORD_BATCH_HEADER_BYTES,
    ENCRYPTED_RECORD_BATCH_FRAME_BYTES, u32_max, u64_max in *.

Lemma binary_encoded_len_Ok r n :
  binary_encoded_len r = Ok n ↔ bounded_record r ∧ n = wire_len r.
Proof.
  unfold binary_encoded_len, bounded_record, wire_len, str_len, checked_add.
  set (a := len (as_bytes (er_stream r))). set (b := len (er_ciphertext r)).
  split.
  - intros H. case_result H. unfold mbind, option_bind in *. case_result E1.
    bool_facts. limits. lia.
  - intros [[Ha Hb] ->]. limits.
    destruct (N.eqb_spec a 0); [lia|].
    destruct (N.ltb_spec (4 * 1024) a); [lia|]. simpl.
    destruct (N.ltb_spec (8 * 1024 * 1024) b); [lia|].
    repeat (match goal with |- context [?x <=? ?y] => destruct (N.leb_spec x y); [|lia] end; simpl).
    match goal with |- context [?x <? ?y] => destruct (N.ltb_spec x y); [lia|] end.
    done.
Qed.

Lemma encode_binary_Ok r bs :
  encode_binary r = Ok bs ↔ bounded_record r ∧ bs = wire_bytes r.
Proof.
  unfold encode_binary. rewrite bind_Ok. split.
  - intros (n & [Hb ->]%binary_encoded_len_Ok & H).
    apply bind_Ok in H as (a & [-> _]%ok_or_Ok%u32_try_from_Some & H).
    apply bind_Ok in H as (b & [-> _]%ok_or_Ok%u32_try_from_Some & [= <-]). done.
  - intros [Hb ->]. exists (wire_len r). rewrite binary_encoded_len_Ok. split; [done|].
    destruct Hb as [Hs Hc]. unfold str_len in Hs. unfold u32_try_from. limits.
    destruct (N.leb_spec (len (as_bytes (er_stream r))) (2 ^ 32 - 1)); [|lia]. simpl.
    destruct (N.leb_spec (len (er_ciphertext r)) (2 ^ 32 - 1)); [|lia]. done.
Qed.

Lemma len_to_le_bytes n x : len (to_le_bytes n x) = N.of_nat n.
Proof. unfold len. by rewrite length_to_le_bytes. Qed.

#[export] Hint Rewrite len_to_le_bytes : wal_len.

Lemma len_wire_bytes r :
  length (er_nonce r) = 24%nat → length (er_authentication r) = 32%nat →
  len (wire_bytes r) = wire_len r.
Proof.
  intros Hn Ha. unfold wire_bytes, wire_len, str_len. autorewrite with wal_len.
  unfold len at 2 4. rewrite Hn, Ha. limits. lia.
Qed.

Lemma decode_wire_bytes r :
  wf_record r → bounded_record r → decode_binary (wire_bytes r) = Ok r.
Proof.
  intros (Hutf & He & Hl & Hc & Hn & Ha) [Hs Hct].
  unfold decode_binary. rewrite len_wire_bytes by done.
  unfold wire_len. destruct (N.ltb_spec MAX_ENCRYPTED_RECORD_BYTES
    (ENCRYPTED_RECORD_BINARY_FIXED_BYTES + str_len (er_stream r) + len (er_ciphertext r)));
    [limits; lia|].
  unfold wire_bytes. rewrite read_u32_app by (limits; lia). run.
  destruct (N.eqb_spec (str_len (er_stream r)) 0); [lia|].
  destruct (N.ltb_spec MAX_ENCRYPTED_RECORD_STREAM_BYTES (str_len (er_stream r))); [lia|]. run.
  rewrite take_bytes_app by done. run.
  rewrite (proj2 (from_utf8_Some _ (er_stream r))) by done. run.
  rewrite !read_u64_app by done. run. rewrite !read_u64_app by done. run.
  rewrite !read_u64_app by done. run.
  unfold read_fixed. rewrite take_bytes_app by (unfold len; by rewrite Hn). run.
  rewrite read_u32_app by (limits; lia). run.
  destruct (N.ltb_spec MAX_ENCRYPTED_RECORD_CIPHERTEXT_BYTES (len (er_ciphertext r))); [lia|].
  unfold checked_add. limits.
  destruct (N.leb_spec (len (er_ciphertext r) + 32) (2 ^ 64 - 1)); [|lia]. run.
  assert (len (er_authentication r) = 32) as Ha' by (unfold len; by rewrite Ha).
  rewrite len_app, Ha', N.eqb_refl. run.
  rewrite take_bytes_app by done. run.
  rewrite <- (app_nil_r (er_authentication r)), take_bytes_app by done. run.
  by destruct r.
Qed.

Lemma decode_binary_Ok bs r :
  decode_binary bs = Ok r → wf_record r ∧ bounded_record r ∧ bs = wire_bytes r.
Proof.
  unfold decode_binary.
  destruct (MAX_ENCRYPTED_RECORD_BYTES <? len bs); [done|]. intros H.
  next H. apply read_u32_Ok in Hx as [-> Hsl].
  destruct ((n =? 0) || _) eqn:Hb in H; [done|]. bool_facts.
  next H. apply take_bytes_Ok in Hx as [-> Hraw].
  next H. apply ok_or_Ok, from_utf8_Some in Hx as [Hutf ->].
  next H. apply read_u64_Ok in Hx as [-> ?].
  next H. apply read_u64_Ok in Hx as [-> ?].
  next H. apply read_u64_Ok in Hx as [-> ?].
  next H. apply take_bytes_Ok in Hx as [-> Hn].
  next H. apply read_u32_Ok in Hx as [-> ?].
  destruct (_ <? _) eqn:Hc in H; [done|].
  next H. apply ok_or_Ok, checked_add_Some in Hx as [-> _].
  destruct (negb _) eqn:Htail in H; [done|]. bool_facts.
  next H. apply take_bytes_Ok in Hx as [-> Hct].
  next H. apply take_bytes_Ok in Hx as [-> Ha].
  injection H as <-. rewrite !len_app in Htail. limits.
  match type of Htail with _ + (_ + len ?rest) = _ =>
    assert (rest = []) as -> by (apply len_0; lia) end.
  rewrite app_nil_r.
  unfold wf_record, bounded_record, wire_bytes, str_len, len in *; cbn in *. subst.
  repeat split; try done; try lia.
Qed.

(** ** Batches in closed form *)

Definition frame_bytes (r : EncryptedRecord) : list byte :=
  to_le_bytes 4 (wire_len r) ++ wire_bytes r.

Fixpoint frames_len (records : list EncryptedRecord) : N :=
  match records with
  | [] => 0
  | r :: records => ENCRYPTED_RECORD_BATCH_FRAME_BYTES + wire_len r + frames_len records
  end.

Definition batch_bytes (records : list EncryptedRecord) : list byte :=
  to_le_bytes 4 (len records) ++ concat (frame_bytes <$> records).

Definition bounded_batch (records : list EncryptedRecord) : Prop :=
  Forall bounded_record records
  ∧ 1 ≤ len records ≤ MAX_ENCRYPTED_RECORD_BATCH_RECORDS
  ∧ ENCRYPTED_RECORD_BATCH_HEADER_BYTES + frames_len records
      ≤ MAX_ENCRYPTED_RECORD_BATCH_BYTES.

(** The length loop, from any accumulator. *)
Lemma batch_len_fold acc records n :
  try_fold (λ encoded_len record,
    record_len ← binary_encoded_len record;
    ok_or
      (length ← checked_add encoded_len ENCRYPTED_RECORD_BATCH_FRAME_BYTES;
       checked_add length record_len)
      (Protocol "encrypted record batch length overflow")) acc records = Ok n
  ↔ Forall bounded_record records ∧ n = acc + frames_len records
    ∧ (acc + frames_len records ≤ u64_max ∨ records = []).
Proof.
  revert acc; induction records as [|r records IH]; intros acc; simpl.
  { rewrite N.add_0_r. split; [intros [= <-]; by repeat split; auto|]. by intros (_ & -> & _). }
  rewrite bind_Ok, Forall_cons. setoid_rewrite IH. setoid_rewrite bind_Ok.
  setoid_rewrite binary_encoded_len_Ok. setoid_rewrite ok_or_Ok. split.
  - intros (a & (l & [Hr ->] & Ha) & Hf & -> & Hb).
    unfold mbind, option_bind in Ha. case_result Ha.
    apply checked_add_Some in E as [-> ?]. apply checked_add_Some in Ha as [-> ?].
    split_and!; [done|done|lia|]. left. destruct Hb as [?| ->]; simpl; lia.
  - intros ((Hr & Hf) & -> & [Hb|]); [|done].
    exists (acc + ENCRYPTED_RECORD_BATCH_FRAME_BYTES + wire_len r).
    split; [|split_and!; [done|lia|left; lia]].
    exists (wire_len r). split; [done|]. unfold mbind, option_bind.
    rewrite (proj2 (checked_add_Some acc _ _)) by (split; [reflexivity|lia]).
    apply checked_add_Some. split; [done|lia].
Qed.

Lemma wire_len_le r : bounded_record r → wire_len r ≤ MAX_ENCRYPTED_RECORD_BYTES.
Proof. intros [Hs Hc]. unfold wire_len. limits. lia. Qed.

Lemma wire_len_pos r : wire_len r ≠ 0.
Proof. unfold wire_len. limits. lia. Qed.

Lemma encode_frame_Ok r bs :
  wf_record r → encode_frame r = Ok bs ↔ bounded_record r ∧ bs = frame_bytes r.
Proof.
  intros (_ & _ & _ & _ & Hn & Ha). unfold encode_frame. rewrite bind_Ok.
  setoid_rewrite encode_binary_Ok. setoid_rewrite bind_Ok. setoid_rewrite ok_or_Ok.
  setoid_rewrite u32_try_from_Some. unfold frame_bytes. split.
  - intros (? & [Hb ->] & ? & [-> ?] & [= <-]). by rewrite len_wire_bytes.
  - intros [Hb ->]. exists (wire_bytes r). split; [done|].
    exists (wire_len r). rewrite len_wire_bytes by done. split; [|done]. split; [done|].
    pose proof (wire_len_le r Hb). limits. lia.
Qed.

Lemma encode_frames_Ok records frames :
  Forall wf_record records →
  try_map encode_frame records = Ok frames
  ↔ Forall bounded_record records ∧ frames = frame_bytes <$> records.
Proof.
  intros Hwf. rewrite try_map_Ok. split.
  - intros Hf. induction Hf as [|r bs records frames Hr Hf IH]; [done|].
    inversion Hwf; subst. apply encode_frame_Ok in Hr as [Hr ->]; [|done].
    destruct IH as [Hb ->]; [done|]. by split; [constructor|].
  - intros [Hb ->]. induction Hb as [|r records Hr Hb IH]; [constructor|].
    inversion Hwf; subst. constructor; [by apply encode_frame_Ok|by apply IH].
Qed.

Lemma encode_binary_batch_Ok records bs :
  Forall wf_record records →
  encode_binary_batch records = Ok bs ↔ bounded_batch records ∧ bs = batch_bytes records.
Proof.
  intros Hwf. unfold encode_binary_batch, bounded_batch, batch_bytes.
  destruct (N.eqb_spec (len records) 0) as [He|He]; [split; [done|lia]|].
  destruct (N.ltb_spec MAX_ENCRYPTED_RECORD_BATCH_RECORDS (len records)) as [Hm|Hm];
    [split; [done|lia]|].
  unfold batch_encoded_len. rewrite bind_Ok. setoid_rewrite batch_len_fold. split.
  - intros (n & (Hb & -> & Hn) & H).
    destruct (N.ltb_spec MAX_ENCRYPTED_RECORD_BATCH_BYTES
      (ENCRYPTED_RECORD_BATCH_HEADER_BYTES + frames_len records)); [done|].
    next H. apply ok_or_Ok, u32_try_from_Some in Hx as [-> _].
    next H. apply encode_frames_Ok in Hx as [_ ->]; [|done]. injection H as <-.
    split_and!; try done; lia.
  - intros ((Hb & Hl & Hn) & ->). eexists. split.
    { split_and!; [done|reflexivity|left; limits; lia]. }
    destruct (N.ltb_spec MAX_ENCRYPTED_RECORD_BATCH_BYTES
      (ENCRYPTED_RECORD_BATCH_HEADER_BYTES + frames_len records)); [lia|].
    rewrite (proj2 (u32_try_from_Some (len records) (len records)))
      by (split; [done|limits; lia]).
    run. by rewrite (proj2 (encode_frames_Ok records _ Hwf) (conj Hb eq_refl)).
Qed.

(** ** Decoding frames *)

Lemma decode_frames_app records rest :
  Forall wf_record records → Forall bounded_record records →
  decode_frames (length records) (concat (frame_bytes <$> records) ++ rest)
  = Ok (records, rest).
Proof.
  intros Hwf. induction Hwf as [|r records Hr Hwf IH]; intros Hb; [done|].
  inversion Hb as [|? ? Hbr Hbs]; subst.
  cbn [decode_frames length fmap list_fmap concat]. unfold frame_bytes at 1. rewrite <- !app_assoc.
  rewrite read_u32_app by (pose proof (wire_len_le r Hbr); limits; lia). run.
  destruct (N.eqb_spec (wire_len r) 0) as [Hz|_]; [by apply wire_len_pos in Hz|].
  destruct (N.ltb_spec MAX_ENCRYPTED_RECORD_BYTES (wire_len r)) as [Hlt|_].
  { pose proof (wire_len_le r Hbr). lia. }
  run. rewrite take_bytes_app by (apply len_wire_bytes; apply Hr). run.
  rewrite decode_wire_bytes by done. run. by rewrite IH.
Qed.

Lemma decode_frames_Ok count bs records rest :
  decode_frames count bs = Ok (records, rest) →
  Forall wf_record records ∧ Forall bounded_record records
  ∧ length records = count ∧ bs = concat (frame_bytes <$> records) ++ rest.
Proof.
  revert bs records rest; induction count as [|count IH]; intros bs records rest; simpl.
  { intros [= <- <-]. by repeat split. }
  intros H. next H. apply read_u32_Ok in Hx as [-> Hu].
  destruct ((n =? 0) || _) eqn:Hb in H; [done|]. bool_facts.
  next H. apply take_bytes_Ok in Hx as [-> Hl].
  next H. apply decode_binary_Ok in Hx as (Hwf & Hbr & ->).
  next H. apply IH in Hx as (Hwfs & Hbs & <- & ->). injection H as <- <-.
  rewrite len_wire_bytes in Hl by apply Hwf. subst n.
  split_and!; [by constructor|by constructor|done|].
  simpl. unfold frame_bytes. by rewrite <- !app_assoc.
Qed.

Lemma len_frames records :
  Forall wf_record records → len (concat (frame_bytes <$> records)) = frames_len records.
Proof.
  induction 1 as [|r records Hr _ IH]; [done|].
  cbn [fmap list_fmap concat frames_len]. unfold frame_bytes at 1.
  rewrite !len_app, IH, len_to_le_bytes, len_wire_bytes by apply Hr.
  limits. lia.
Qed.

(** ** Properties *)

(** the binary form of a record round-trips.  Any record whose Rust types
    hold and that [encode_binary] accepts is decoded back to itself, and
    [encode_binary] accepts every record within the documented limits. *)
Theorem encode_decode_binary r :
  wf_record r → bounded_record r →
  ∃ bs, encode_binary r = Ok bs ∧ decode_binary bs = Ok r
        ∧ len bs ≤ MAX_ENCRYPTED_RECORD_BYTES.
Proof.
  intros Hwf Hb. exists (wire_bytes r). rewrite encode_binary_Ok, decode_wire_bytes by done.
  rewrite len_wire_bytes by apply Hwf. auto using wire_len_le.
Qed.

(** the decoder accepts only canonical bodies.  What [decode_binary]
    accepts is a well-typed record within the limits whose encoding is exactly
    the received body, so no two bodies stand for one record and no record
    outside the limits enters through the transport. *)
Theorem decode_binary_canonical bs r :
  decode_binary bs = Ok r →
  wf_record r ∧ bounded_record r ∧ encode_binary r = Ok bs.
Proof.
  intros (Hwf & Hb & ->)%decode_binary_Ok. by rewrite encode_binary_Ok.
Qed.

(** C36: framed batches round-trip.  A batch that [encode_binary_batch] accepts
    stays within the body limit and [decode_binary_batch] returns the same
    records in the same order; the encoder accepts exactly the batches within
    the count and body limits. *)
Theorem encode_decode_batch records :
  Forall wf_record records →
  (is_ok (encode_binary_batch records) = true ↔ bounded_batch records)
  ∧ ∀ bs, encode_binary_batch records = Ok bs →
      decode_binary_batch bs = Ok records ∧ len bs ≤ MAX_ENCRYPTED_RECORD_BATCH_BYTES.
Proof.
  intros Hwf. split.
  { pose proof (λ bs, encode_binary_batch_Ok records bs Hwf) as Hiff.
    destruct (encode_binary_batch records) as [bs|e]; simpl.
    - split; [|done]. intros _. by apply (Hiff bs).
    - split; [done|]. intros Hb. discriminate (proj2 (Hiff _) (conj Hb eq_refl)). }
  intros bs ((Hb & Hl & Hn) & ->)%encode_binary_batch_Ok; [|done].
  unfold decode_binary_batch, batch_bytes.
  assert (len (to_le_bytes 4 (len records) ++ concat (frame_bytes <$> records))
          ≤ MAX_ENCRYPTED_RECORD_BATCH_BYTES) as Hle.
  { rewrite len_app, len_to_le_bytes, len_frames by done.
    change (N.of_nat 4) with ENCRYPTED_RECORD_BATCH_HEADER_BYTES. done. }
  split; [|done].
  apply N.ltb_ge in Hle as ->. rewrite read_u32_app by (limits; lia). run.
  destruct (N.eqb_spec (len records) 0); [lia|].
  destruct (N.ltb_spec MAX_ENCRYPTED_RECORD_BATCH_RECORDS (len records)); [lia|]. run.
  replace (N.to_nat (len records)) with (length records) by (unfold len; lia).
  rewrite <- (app_nil_r (concat _)), decode_frames_app by done. done.
Qed.

(** the batch decoder accepts only canonical bodies: a decoded batch has
    well-typed records, obeys every limit, and re-encodes to the received
    bytes. *)
Theorem decode_batch_canonical bs records :
  decode_binary_batch bs = Ok records →
  Forall wf_record records ∧ bounded_batch records
  ∧ encode_binary_batch records = Ok bs.
Proof.
  unfold decode_binary_batch.
  destruct (N.ltb_spec MAX_ENCRYPTED_RECORD_BATCH_BYTES (len bs)) as [|Hm]; [done|]. intros H.
  next H. apply read_u32_Ok in Hx as [-> Hu].
  destruct ((n =? 0) || _) eqn:Hb in H; [done|]. bool_facts.
  next H. apply decode_frames_Ok in Hx as (Hwf & Hbr & Hl & ->).
  destruct (negb _) eqn:Hz in H; [done|]. bool_facts. apply len_0 in Hz as ->.
  injection H as <-. rewrite app_nil_r in *.
  assert (n = len l0) as -> by (unfold len; lia).
  rewrite len_app, len_to_le_bytes, len_frames in Hm by done.
  assert (bounded_batch l0) as Hbb by (split_and!; try done; limits; lia).
  split_and!; [done|done|]. by apply encode_binary_batch_Ok.
Qed.

(** ** Witnesses *)

Definition sample_record (lsn : N) : EncryptedRecord :=
  mkEncryptedRecord "t/s" 1 lsn (lsn - 1) (replicate 24 x01) [x2a; x2b] (replicate 32 x02).

Lemma sample_record_wf lsn : lsn ≤ u64_max → wf_record (sample_record lsn).
Proof. intros H. unfold wf_record; cbn. repeat split; try done; try lia; by unfold u64_max. Qed.

Lemma sample_record_bounded lsn : bounded_record (sample_record lsn).
Proof. by repeat split. Qed.

Lemma encode_decode_binary_witness :
  ∃ bs, encode_binary (sample_record 7) = Ok bs ∧ decode_binary bs = Ok (sample_record 7)
        ∧ len bs ≤ MAX_ENCRYPTED_RECORD_BYTES.
Proof.
  apply encode_decode_binary; [by apply sample_record_wf|apply sample_record_bounded].
Defined.

Lemma decode_binary_canonical_witness :
  encode_binary (sample_record 7) = Ok (wire_bytes (sample_record 7)).
Proof.
  apply (decode_binary_canonical (wire_bytes (sample_record 7)) (sample_record 7)).
  vm_compute. reflexivity.
Defined.

Lemma encode_decode_batch_witness :
  is_ok (encode_binary_batch [sample_record 7; sample_record 8]) = true
  ∧ decode_binary_batch (batch_bytes [sample_record 7; sample_record 8])
    = Ok [sample_record 7; sample_record 8].
Proof.
  split; [vm_compute; reflexivity|].
  apply (encode_decode_batch [sample_record 7; sample_record 8]).
  - constructor; [by apply sample_record_wf|].
    constructor; [by apply sample_record_wf|constructor].
  - vm_compute. reflexivity.
Defined.

Lemma decode_batch_canonical_witness :
  encode_binary_batch [sample_record 7]
  = Ok (batch_bytes [sample_record 7]).
Proof.
  apply (decode_batch_canonical (batch_bytes [sample_record 7]) [sample_record 7]).
  vm_compute. reflexivity.
Defined.
