(* ===== verification/Client.v ===== *)
(** * Client: the writer's side of the quorum gateway

    [crates/walleye-bitr/src/lib.rs]: [AppendRecord], [CommitKnowledge],
    [validate_append_batch], the [ReplicaGateway] trait, [QuorumWriter] and the
    in-memory gateway [MemoryReplica].  The cipher, the MAC and the hash are
    third-party code: the class [CipherSuite] names them and [CipherLaws] the
    documented facts about them.  The gateway is an interface: [ReplicaGateway]
    has the trait's methods, [GatewayLaws] what a gateway promises its client,
    and [MemoryReplica] is one implementation. *)

From S2P Require Import Prelude Text Wire.

(** ** Records and commit knowledge *)

Record AppendRecord := mkAppendRecord {
  ar_stream : string;
  ar_writer_epoch : N;
  ar_lsn : N;
  ar_committed_lsn : N;
  ar_payload : list byte;
}.

Inductive DurabilityAuthority := Replica | ObjectStore | Local.

Record CommitKnowledge := mkCommitKnowledge {
  ck_stream : string;
  ck_writer_epoch : N;
  ck_committed_lsn : N;
  ck_certificate : option string;
  ck_authority : DurabilityAuthority;
}.

Definition replica_with_certificate (stream : string) (writer_epoch committed_lsn : N)
    (certificate : option string) : CommitKnowledge :=
  mkCommitKnowledge stream writer_epoch committed_lsn certificate Replica.

(** ** The shape every batch must have *)

Definition validate_append_pair (first previous current : EncryptedRecord)
    : result ReplicaError unit :=
  if negb (bool_decide (er_stream current = er_stream first)) then
    Err (Protocol "encrypted record batch contains multiple streams")
  else if negb (er_writer_epoch current =? er_writer_epoch first) then
    Err (Protocol "encrypted record batch contains multiple writer epochs")
  else
    expected_lsn ← ok_or (checked_add (er_lsn previous) 1) LsnConflict;
    if negb (er_lsn current =? expected_lsn) then Err LsnConflict
    else if negb (er_committed_lsn current =? er_lsn previous) then
      Err (InvalidWatermark (er_lsn current) (er_committed_lsn current))
    else if er_lsn current <=? er_committed_lsn current then
      Err (InvalidWatermark (er_lsn current) (er_committed_lsn current))
    else Ok tt.

Definition validate_append_batch (records : list EncryptedRecord)
    : result ReplicaError unit :=
  match records with
  | [] => Err (Protocol "encrypted record batch must not be empty")
  | first :: _ =>
    if er_lsn first <=? er_committed_lsn first then
      Err (InvalidWatermark (er_lsn first) (er_committed_lsn first))
    else try_fold (λ _ '(previous, current), validate_append_pair first previous current)
           tt (windows2 records)
  end.

(** ** The gateway interface *)

Class ReplicaGateway (S : Type) := {
  gw_append : S → EncryptedRecord → result ReplicaError (option string) * S;
  gw_append_many : S → list EncryptedRecord → result ReplicaError (option string) * S;
  gw_recover : S → string → N → result ReplicaError (list EncryptedRecord);
  gw_recover_with_watermark :
    S → string → N → N → string → result ReplicaError (list EncryptedRecord);
}.

(** The trait's one-record fallback for [append_many]. *)
Fixpoint append_each {S} (append : S → EncryptedRecord → result ReplicaError (option string) * S)
    (s : S) (certificate : option string) (records : list EncryptedRecord)
    : result ReplicaError (option string) * S :=
  match records with
  | [] => (Ok certificate, s)
  | record :: records =>
    match append s record with
    | (Ok certificate, s) => append_each append s certificate records
    | (Err e, s) => (Err e, s)
    end
  end.

Definition default_append_many {S}
    (append : S → EncryptedRecord → result ReplicaError (option string) * S)
    (s : S) (records : list EncryptedRecord) : result ReplicaError (option string) * S :=
  match validate_append_batch records with
  | Err e => (Err e, s)
  | Ok _ => append_each append s None records
  end.

(** What a gateway promises its client: in every state it can be in
    ([gw_inv]) it holds one record per LSN of a stream ([gw_log]); a successful
    append adds the batch and keeps what was there; a successful recovery
    returns exactly the records past the watermark. *)
Class GatewayLaws (S : Type) `{ReplicaGateway S} := {
  gw_inv : S → Prop;
  gw_log : S → string → list EncryptedRecord;
  gw_log_unique s stream : gw_inv s → NoDup (er_lsn <$> gw_log s stream);
  gw_append_many_inv s records : gw_inv s → gw_inv (gw_append_many s records).2;
  gw_append_many_log s s' records certificate stream r :
    gw_inv s → gw_append_many s records = (Ok certificate, s') →
    r ∈ gw_log s' stream ↔ r ∈ gw_log s stream ∨ (r ∈ records ∧ er_stream r = stream);
  gw_recover_log s stream after records :
    gw_inv s → gw_recover s stream after = Ok records →
    records ≡ₚ filter (λ r, after < er_lsn r) (gw_log s stream);
}.

(** ** Cryptography, as the client uses it *)

Class CipherSuite := {
  sha256 : list byte → list byte;
  (** [XChaCha20Poly1305::encrypt key nonce plaintext] and its inverse. *)
  aead_encrypt : list byte → list byte → list byte → option (list byte);
  aead_decrypt : list byte → list byte → list byte → option (list byte);
  (** [Hmac<Sha256>::new_from_slice(key)], [update]s and [finalize]. *)
  hmac_sha256 : list byte → list byte → option (list byte);
}.

Class CipherLaws `{CipherSuite} := {
  sha256_length bs : length (sha256 bs) = 32%nat;
  aead_encrypt_total key nonce p : is_Some (aead_encrypt key nonce p);
  aead_decrypt_encrypt key nonce p c :
    aead_encrypt key nonce p = Some c → aead_decrypt key nonce c = Some p;
  aead_encrypt_length key nonce p c :
    aead_encrypt key nonce p = Some c → len c = len p + XCHACHA20POLY1305_TAG_BYTES;
  hmac_sha256_length key bs tag : hmac_sha256 key bs = Some tag → length tag = 32%nat;
  hmac_sha256_total key bs : is_Some (hmac_sha256 key bs);
}.

Section Writer.
Context `{CipherSuite}.
Context (key : list byte).

(** The authenticated header both the MAC and the nonce are computed over. *)
Definition header_bytes (stream : string) (writer_epoch lsn committed_lsn : N) : list byte :=
  as_bytes stream ++ to_be_bytes 8 writer_epoch ++ to_be_bytes 8 lsn
  ++ to_be_bytes 8 committed_lsn.

Definition encrypt (record : AppendRecord) : result ReplicaError EncryptedRecord :=
  if MAX_ENCRYPTED_RECORD_PLAINTEXT_BYTES <? len (ar_payload record) then
    Err (Protocol "append payload exceeds encrypted record plaintext limit")
  else
    let header := header_bytes (ar_stream record) (ar_writer_epoch record)
                    (ar_lsn record) (ar_committed_lsn record) in
    let nonce_hash := sha256 (header ++ sha256 (ar_payload record)) in
    let nonce := take 24 nonce_hash in
    ciphertext ← ok_or (aead_encrypt key nonce (ar_payload record)) Encryption;
    authentication ← ok_or (hmac_sha256 key (header ++ ciphertext)) Encryption;
    Ok (mkEncryptedRecord (ar_stream record) (ar_writer_epoch record) (ar_lsn record)
          (ar_committed_lsn record) nonce ciphertext authentication).

Definition decrypt (record : EncryptedRecord) : result ReplicaError AppendRecord :=
  let header := header_bytes (er_stream record) (er_writer_epoch record)
                  (er_lsn record) (er_committed_lsn record) in
  tag ← ok_or (hmac_sha256 key (header ++ er_ciphertext record)) Encryption;
  if negb (bool_decide (tag = er_authentication record)) then Err Encryption
  else
    payload ← ok_or (aead_decrypt key (er_nonce record) (er_ciphertext record)) Encryption;
    Ok (mkAppendRecord (er_stream record) (er_writer_epoch record) (er_lsn record)
          (er_committed_lsn record) payload).

(** The loop of [decrypt_recovery]: [expected] is the next LSN, [None] past
    [u64::MAX]; it returns the decrypted records and the LSN expected next. *)
Fixpoint decrypt_loop (stream : string) (expected : option N)
    (records : list EncryptedRecord)
    : result ReplicaError (list AppendRecord * option N) :=
  match records with
  | [] => Ok ([], expected)
  | record :: records =>
    match expected with
    | None => Err (RecoveryGap u64_max (er_lsn record))
    | Some expected_lsn =>
      if negb (bool_decide (er_stream record = stream)) then
        Err (RecoveryStreamMismatch stream (er_stream record))
      else if negb (er_lsn record =? expected_lsn) then
        Err (RecoveryGap expected_lsn (er_lsn record))
      else if negb (er_committed_lsn record =? saturating_sub expected_lsn 1) then
        Err (InvalidWatermark (er_lsn record) (er_committed_lsn record))
      else
        plain ← decrypt record;
        '(recovered, expected) ← decrypt_loop stream (checked_add expected_lsn 1) records;
        Ok (plain :: recovered, expected)
    end
  end.

Definition decrypt_recovery (stream : string) (after_lsn : N) (committed_lsn : option N)
    (records : list EncryptedRecord) : result ReplicaError (list AppendRecord) :=
  if match committed_lsn with Some c => c <? after_lsn | None => false end then
    Err (RecoveryIncomplete (saturating_add after_lsn 1) (default 0 committed_lsn))
  else
    let records := sort_by_key er_lsn records in
    '(recovered, expected) ← decrypt_loop stream (checked_add after_lsn 1) records;
    match committed_lsn with
    | None => Ok recovered
    | Some committed_lsn =>
      let complete :=
        if committed_lsn =? after_lsn then bool_decide (length recovered = 0%nat)
        else match last recovered with
             | Some record => ar_lsn record =? committed_lsn
             | None => false
             end in
      if negb complete then
        Err (RecoveryIncomplete (default u64_max expected) committed_lsn)
      else Ok recovered
    end.

Context {S : Type} `{ReplicaGateway S}.

Definition qw_append (gateway : S) (record : AppendRecord)
    : result ReplicaError CommitKnowledge * S :=
  if ar_lsn record <=? ar_committed_lsn record then
    (Err (InvalidWatermark (ar_lsn record) (ar_committed_lsn record)), gateway)
  else match encrypt record with
  | Err e => (Err e, gateway)
  | Ok encrypted =>
    match gw_append gateway encrypted with
    | (Err e, gateway) => (Err e, gateway)
    | (Ok certificate, gateway) =>
      (Ok (replica_with_certificate (ar_stream record) (ar_writer_epoch record)
             (ar_lsn record) certificate), gateway)
    end
  end.

(** The size loop of [append_many]. *)
Definition append_batch_len (stream : string) (records : list AppendRecord)
    : result ReplicaError N :=
  try_fold (λ encoded_len record,
    if MAX_ENCRYPTED_RECORD_PLAINTEXT_BYTES <? len (ar_payload record) then
      Err (Protocol "append payload exceeds encrypted record plaintext limit")
    else ok_or
      (length ← checked_add encoded_len 4;
       length ← checked_add length ENCRYPTED_RECORD_BINARY_FIXED_BYTES;
       length ← checked_add length (str_len stream);
       length ← checked_add length XCHACHA20POLY1305_TAG_BYTES;
       checked_add length (len (ar_payload record)))
      (Protocol "append batch length overflow")) 4 records.

Definition append_pair (previous current : AppendRecord) : result ReplicaError unit :=
  if negb (bool_decide (ar_stream current = ar_stream previous)) then
    Err (Protocol "append batch contains multiple streams")
  else if negb (ar_writer_epoch current =? ar_writer_epoch previous) then
    Err (Protocol "append batch contains multiple writer epochs")
  else
    expected_lsn ← ok_or (checked_add (ar_lsn previous) 1) LsnConflict;
    if negb (ar_lsn current =? expected_lsn) then Err LsnConflict
    else if negb (ar_committed_lsn current =? ar_lsn previous) then
      Err (InvalidWatermark (ar_lsn current) (ar_committed_lsn current))
    else Ok tt.

(** Everything [append_many] checks and computes before it calls the gateway. *)
Definition prepare_append_many (records : list AppendRecord)
    : result ReplicaError (list EncryptedRecord) :=
  match records with
  | [] => Err (Protocol "append batch must not be empty")
  | first :: _ =>
    if MAX_ENCRYPTED_RECORD_BATCH_RECORDS <? len records then
      Err (Protocol "append batch has too many records")
    else if ar_lsn first <=? ar_committed_lsn first then
      Err (InvalidWatermark (ar_lsn first) (ar_committed_lsn first))
    else if (str_len (ar_stream first) =? 0)
         || (MAX_ENCRYPTED_RECORD_STREAM_BYTES <? str_len (ar_stream first)) then
      Err (Protocol "append batch stream length is out of bounds")
    else
      encoded_len ← append_batch_len (ar_stream first) records;
      if MAX_ENCRYPTED_RECORD_BATCH_BYTES <? encoded_len then
        Err (Protocol "append batch body is too large")
      else
        _ ← try_fold (λ _ '(previous, current), append_pair previous current)
              tt (windows2 records);
        try_map encrypt records
  end.

Definition qw_append_many (gateway : S) (records : list AppendRecord)
    : result ReplicaError CommitKnowledge * S :=
  match prepare_append_many records with
  | Err e => (Err e, gateway)
  | Ok encrypted =>
    match gw_append_many gateway encrypted with
    | (Err e, gateway) => (Err e, gateway)
    | (Ok certificate, gateway) =>
      match last records with
      | Some last =>
        (Ok (replica_with_certificate (ar_stream last) (ar_writer_epoch last)
               (ar_lsn last) certificate), gateway)
      | None => (Err (Protocol "append batch must not be empty"), gateway)
      end
    end
  end.

Definition qw_recover (gateway : S) (stream : string) (after_lsn : N)
    : result ReplicaError (list AppendRecord) :=
  records ← gw_recover gateway stream after_lsn;
  decrypt_recovery stream after_lsn None records.

Definition qw_recover_with_watermark (gateway : S) (stream : string)
    (after_lsn committed_lsn : N) (certificate : string)
    : result ReplicaError (list AppendRecord) :=
  if bool_decide (certificate = "") then Err CommitCertificateMissing
  else
    records ← gw_recover_with_watermark gateway stream after_lsn committed_lsn certificate;
    decrypt_recovery stream after_lsn (Some committed_lsn) records.

End Writer.

(** ** The in-memory gateway *)

Record MemoryReplica := mkMemoryReplica {
  mr_available : bool;
  mr_highest_epoch : gmap string N;
  mr_records : gmap (string * N) EncryptedRecord;
}.

Definition healthy : MemoryReplica := mkMemoryReplica true ∅ ∅.
Definition unavailable : MemoryReplica := mkMemoryReplica false ∅ ∅.

Definition record_key (r : EncryptedRecord) : string * N := (er_stream r, er_lsn r).

(** [state.highest_epoch.get(stream).copied().unwrap_or_default()]. *)
Definition mr_epoch (s : MemoryReplica) (stream : string) : N :=
  default 0 (mr_highest_epoch s !! stream).

Definition append_record (s : MemoryReplica) (record : EncryptedRecord)
    : result ReplicaError unit * MemoryReplica :=
  if negb (mr_available s) then (Err NodeUnavailable, s)
  else if er_lsn record <=? er_committed_lsn record then
    (Err (InvalidWatermark (er_lsn record) (er_committed_lsn record)), s)
  else
    let highest_epoch := mr_epoch s (er_stream record) in
    if er_writer_epoch record <? highest_epoch then (Err WriterFenced, s)
    else match mr_records s !! record_key record with
    | Some existing =>
      if bool_decide (existing = record) then (Ok tt, s) else (Err LsnConflict, s)
    | None =>
      (Ok tt, mkMemoryReplica (mr_available s)
        (<[er_stream record := N.max (er_writer_epoch record) highest_epoch]>
           (mr_highest_epoch s))
        (<[record_key record := record]> (mr_records s)))
    end.

(** The validation loop of [append_records]. *)
Definition check_record (s : MemoryReplica) (record : EncryptedRecord)
    : result ReplicaError unit :=
  if er_writer_epoch record <? mr_epoch s (er_stream record) then Err WriterFenced
  else match mr_records s !! record_key record with
  | Some existing => if bool_decide (existing = record) then Ok tt else Err LsnConflict
  | None => Ok tt
  end.

(** The insertion loop of [append_records]: [entry(key).or_insert(record)]. *)
Definition store_record (s : MemoryReplica) (record : EncryptedRecord) : MemoryReplica :=
  mkMemoryReplica (mr_available s)
    (<[er_stream record :=
         N.max (er_writer_epoch record) (mr_epoch s (er_stream record))]> (mr_highest_epoch s))
    (match mr_records s !! record_key record with
     | Some _ => mr_records s
     | None => <[record_key record := record]> (mr_records s)
     end).

Definition append_records (s : MemoryReplica) (records : list EncryptedRecord)
    : result ReplicaError unit * MemoryReplica :=
  if negb (mr_available s) then (Err NodeUnavailable, s)
  else match validate_append_batch records with
  | Err e => (Err e, s)
  | Ok _ =>
    match try_fold (λ _ record, check_record s record) tt records with
    | Err e => (Err e, s)
    | Ok _ => (Ok tt, foldl store_record s records)
    end
  end.

Definition records_snapshot (s : MemoryReplica) (stream : string) : list EncryptedRecord :=
  filter (λ r, er_stream r = stream) (btree_values (mr_records s)).

#[global] Instance memory_gateway : ReplicaGateway MemoryReplica := {
  gw_append s record :=
    let '(r, s) := append_record s record in (_ ← r; Ok None, s);
  gw_append_many s records :=
    let '(r, s) := append_records s records in (_ ← r; Ok None, s);
  gw_recover s stream after_lsn :=
    Ok (filter (λ r, after_lsn < er_lsn r) (records_snapshot s stream));
  gw_recover_with_watermark s stream after_lsn committed_lsn certificate :=
    if bool_decide (certificate = "") then Err CommitCertificateMissing
    else Ok (filter (λ r, after_lsn < er_lsn r ∧ er_lsn r ≤ committed_lsn)
               (records_snapshot s stream));
}.

(** ** Batches *)

(** A batch the way its consumers rely on it: one stream and one writer epoch,
    consecutive LSNs, every record after the first proposed right after its
    predecessor, and the first one past its own watermark. *)
Definition batch_shape (records : list EncryptedRecord) : Prop :=
  ∃ first, head records = Some first
    ∧ er_committed_lsn first < er_lsn first
    ∧ ∀ i r, records !! i = Some r →
        er_stream r = er_stream first ∧ er_writer_epoch r = er_writer_epoch first
        ∧ er_lsn r = er_lsn first + N.of_nat i
        ∧ (i ≠ 0%nat → er_committed_lsn r + 1 = er_lsn r).

(** What the pairwise checks establish of the records after [previous]. *)
Definition linked (stream : string) (epoch lsn : N) (rest : list EncryptedRecord) : Prop :=
  ∀ i r, rest !! i = Some r →
    er_stream r = stream ∧ er_writer_epoch r = epoch
    ∧ er_lsn r = lsn + 1 + N.of_nat i ∧ er_committed_lsn r + 1 = er_lsn r.

Lemma linked_cons stream epoch lsn r rest :
  linked stream epoch lsn (r :: rest) ↔
  (er_stream r = stream ∧ er_writer_epoch r = epoch
   ∧ er_lsn r = lsn + 1 ∧ er_committed_lsn r = lsn)
  ∧ linked stream epoch (lsn + 1) rest.
Proof.
  unfold linked. split.
  - intros Hl. split.
    + destruct (Hl 0%nat r eq_refl) as (? & ? & ? & ?). repeat split; try done; lia.
    + intros i r' Hi. destruct (Hl (S i) r' Hi) as (? & ? & ? & ?). repeat split; try done; lia.
  - intros [(? & ? & ? & ?) Hl] [|i] r' Hi; simplify_eq/=.
    + repeat split; try done; lia.
    + destruct (Hl i r' Hi) as (? & ? & ? & ?). repeat split; try done; lia.
Qed.

Lemma validate_append_pair_Ok first previous current :
  er_lsn current ≤ u64_max →
  validate_append_pair first previous current = Ok tt ↔
  er_stream current = er_stream first ∧ er_writer_epoch current = er_writer_epoch first
  ∧ er_lsn current = er_lsn previous + 1 ∧ er_committed_lsn current = er_lsn previous.
Proof.
  intros Hmax. unfold validate_append_pair. split.
  - destruct (bool_decide _) eqn:?; [|done]. destruct (er_writer_epoch current =? _) eqn:?; [|done].
    intros H. next H. apply ok_or_Ok, checked_add_Some in Hx as [-> ?].
    case_result H. bool_facts. done.
  - intros (-> & -> & Hl & Hc). rewrite bool_decide_true, N.eqb_refl by done. simpl.
    rewrite checked_add_le by lia. run.
    rewrite Hl, Hc, !N.eqb_refl. run.
    by destruct (N.leb_spec (er_lsn previous + 1) (er_lsn previous)); [lia|].
Qed.

Lemma validate_append_links first previous rest :
  Forall (λ r, er_lsn r ≤ u64_max) rest →
  try_fold (λ _ '(previous, current), validate_append_pair first previous current)
    tt (windows2 (previous :: rest)) = Ok tt
  ↔ linked (er_stream first) (er_writer_epoch first) (er_lsn previous) rest.
Proof.
  intros Hmax. revert previous. induction Hmax as [|r rest Hr Hmax IH]; intros previous.
  { split; [intros _ i r Hi; by rewrite lookup_nil in Hi|done]. }
  rewrite windows2_cons, linked_cons. cbn [try_fold].
  rewrite <- validate_append_pair_Ok by done. rewrite bind_Ok. split.
  - intros ([] & Hp & Hl%IH). split; [done|].
    by apply validate_append_pair_Ok in Hp as (_ & _ & <- & _).
  - intros [Hp Hl]. exists tt. split; [done|]. apply IH.
    by apply validate_append_pair_Ok in Hp as (_ & _ & -> & _).
Qed.

Lemma validate_append_batch_shape records :
  Forall (λ r, er_lsn r ≤ u64_max) records →
  validate_append_batch records = Ok tt ↔ batch_shape records.
Proof.
  intros Hmax. unfold batch_shape. destruct records as [|first rest]; simpl.
  { split; [done|by intros (? & ? & _)]. }
  inversion Hmax as [|? ? Hf Hr]; subst.
  destruct (N.leb_spec (er_lsn first) (er_committed_lsn first)) as [Hle|Hlt].
  { split; [done|]. intros (? & [= <-] & ? & _). lia. }
  rewrite (validate_append_links first first rest) by done. split.
  - intros Hl. exists first. split_and!; [done|done|].
    intros [|i] r Hi; simplify_eq/=; [repeat split; (done || lia)|].
    destruct (Hl i r Hi) as (? & ? & ? & ?). repeat split; try done; lia.
  - intros (? & [= <-] & _ & Hs) i r Hi.
    destruct (Hs (S i) r Hi) as (? & ? & ? & Hc). specialize (Hc ltac:(done)).
    repeat split; try done; lia.
Qed.

(** Acceptance alone gives the shape: the checked addition bounds the rest. *)
Lemma validate_append_links_sound first previous rest :
  try_fold (λ _ '(previous, current), validate_append_pair first previous current)
    tt (windows2 (previous :: rest)) = Ok tt →
  linked (er_stream first) (er_writer_epoch first) (er_lsn previous) rest.
Proof.
  revert previous. induction rest as [|r rest IH]; intros previous Hv.
  { intros i r Hi. by rewrite lookup_nil in Hi. }
  rewrite windows2_cons in Hv. cbn [try_fold] in Hv.
  apply bind_Ok in Hv as ([] & Hp & Hv%IH). apply linked_cons.
  assert (er_lsn r ≤ u64_max) as Hr.
  { clear -Hp. unfold validate_append_pair in Hp.
    destruct (bool_decide _); [|done]. destruct (er_writer_epoch r =? _); [|done].
    cbn in Hp. next Hp. apply ok_or_Ok, checked_add_Some in Hx as [-> ?].
    case_result Hp. bool_facts. lia. }
  apply validate_append_pair_Ok in Hp; [|done].
  destruct Hp as (? & ? & Heq & ?). by rewrite <- Heq.
Qed.

Lemma validate_append_batch_sound records :
  validate_append_batch records = Ok tt → batch_shape records.
Proof.
  destruct records as [|first rest]; simpl; [done|].
  destruct (N.leb_spec (er_lsn first) (er_committed_lsn first)) as [|Hlt]; [done|].
  intros Hl%validate_append_links_sound. exists first. split_and!; [done|done|].
  intros [|i] r Hi; simplify_eq/=; [repeat split; (done || lia)|].
  destruct (Hl i r Hi) as (? & ? & ? & ?). repeat split; try done; lia.
Qed.

Lemma batch_shape_keys records r r' :
  batch_shape records → r ∈ records → r' ∈ records → er_lsn r = er_lsn r' → r = r'.
Proof.
  intros (first & _ & _ & Hs) [i Hi]%list_elem_of_lookup [j Hj]%list_elem_of_lookup Heq.
  destruct (Hs i r Hi) as (_ & _ & ? & _), (Hs j r' Hj) as (_ & _ & ? & _).
  assert (i = j) as -> by lia. congruence.
Qed.

(** [validate_append_batch] accepts exactly the batches of one stream and
    one writer epoch with consecutive LSNs, each record after the first naming
    its predecessor as the committed watermark, and the first one past its own
    watermark; in particular it refuses a batch whose LSNs would pass
    [u64::MAX]. *)
Theorem validate_append_batch_spec records :
  Forall (λ r, er_lsn r ≤ u64_max) records →
  validate_append_batch records = Ok tt ↔ batch_shape records.
Proof. apply validate_append_batch_shape. Qed.

(** ** Encryption *)

Section WriterProofs.
Context `{CipherLaws}.
Context (key : list byte).

Lemma encrypt_fields r c :
  encrypt key r = Ok c →
  er_stream c = ar_stream r ∧ er_writer_epoch c = ar_writer_epoch r
  ∧ er_lsn c = ar_lsn r ∧ er_committed_lsn c = ar_committed_lsn r.
Proof. unfold encrypt. intros E. case_result E. unfold mbind, result_bind in E. case_result E. done. Qed.

Lemma encrypt_Ok r :
  len (ar_payload r) ≤ MAX_ENCRYPTED_RECORD_PLAINTEXT_BYTES → ∃ c, encrypt key r = Ok c.
Proof.
  intros Hl. unfold encrypt. apply N.ltb_ge in Hl as ->.
  match goal with |- context [aead_encrypt ?k ?n ?p] => destruct (aead_encrypt_total k n p) as [c Hc] end.
  rewrite Hc. run.
  match goal with |- context [hmac_sha256 ?k ?b] => destruct (hmac_sha256_total k b) as [t Ht] end.
  rewrite Ht. run. eauto.
Qed.

Lemma decrypt_encrypt r c : encrypt key r = Ok c → decrypt key c = Ok r.
Proof.
  unfold encrypt, decrypt. destruct (_ <? _); [done|]. intros Hc.
  next Hc. apply ok_or_Ok in Hx. next Hc. apply ok_or_Ok in Hx0. injection Hc as <-.
  cbn -[aead_decrypt hmac_sha256]. rewrite Hx0. run. rewrite bool_decide_true by done. run.
  rewrite (aead_decrypt_encrypt _ _ _ _ Hx). run. by destruct r.
Qed.

Lemma encrypt_wf r c :
  utf8_valid (as_bytes (ar_stream r)) = true →
  ar_writer_epoch r ≤ u64_max → ar_lsn r ≤ u64_max → ar_committed_lsn r ≤ u64_max →
  encrypt key r = Ok c →
  wf_record c ∧ len (er_ciphertext c) = len (ar_payload r) + XCHACHA20POLY1305_TAG_BYTES
  ∧ len (er_ciphertext c) ≤ MAX_ENCRYPTED_RECORD_CIPHERTEXT_BYTES.
Proof.
  unfold encrypt. destruct (N.ltb_spec MAX_ENCRYPTED_RECORD_PLAINTEXT_BYTES (len (ar_payload r)))
    as [|Hlen]; [done|]. intros Hu He Hl Hw Hc.
  next Hc. apply ok_or_Ok in Hx. next Hc. apply ok_or_Ok in Hx0. injection Hc as <-.
  unfold wf_record; cbn -[sha256]. apply aead_encrypt_length in Hx as Hcl.
  apply hmac_sha256_length in Hx0 as Htl. rewrite Hcl.
  split_and!; try done.
  - by rewrite length_take, sha256_length.
  - unfold MAX_ENCRYPTED_RECORD_PLAINTEXT_BYTES, XCHACHA20POLY1305_TAG_BYTES in *. limits. lia.
Qed.

(** encryption round-trips and stays within the transport limits.  Every
    record whose payload is within the plaintext limit is encrypted; decrypting
    the result authenticates and returns the same record, and the ciphertext
    fits the binary transport. *)
Theorem encrypt_decrypt r :
  utf8_valid (as_bytes (ar_stream r)) = true →
  ar_writer_epoch r ≤ u64_max → ar_lsn r ≤ u64_max → ar_committed_lsn r ≤ u64_max →
  len (ar_payload r) ≤ MAX_ENCRYPTED_RECORD_PLAINTEXT_BYTES →
  ∃ c, encrypt key r = Ok c ∧ decrypt key c = Ok r ∧ wf_record c
       ∧ len (er_ciphertext c) ≤ MAX_ENCRYPTED_RECORD_CIPHERTEXT_BYTES.
Proof.
  intros Hu He Hl Hw Hp. destruct (encrypt_Ok r Hp) as [c Hc]. exists c.
  destruct (encrypt_wf r c) as (? & _ & ?); auto using decrypt_encrypt.
Qed.

(** ** Recovery *)

Definition recovered_tail (stream : string) (after : N) (plain : list AppendRecord) : Prop :=
  ∀ i p, plain !! i = Some p →
    ar_stream p = stream ∧ ar_lsn p = after + 1 + N.of_nat i
    ∧ ar_committed_lsn p = after + N.of_nat i.

Lemma decrypt_fields c r :
  decrypt key c = Ok r →
  ar_stream r = er_stream c ∧ ar_writer_epoch r = er_writer_epoch c
  ∧ ar_lsn r = er_lsn c ∧ ar_committed_lsn r = er_committed_lsn c.
Proof.
  unfold decrypt. intros Hd. next Hd. destruct (negb _); [done|]. next Hd.
  by injection Hd as <-.
Qed.

Lemma decrypt_loop_sound stream after records plain expected :
  decrypt_loop key stream (checked_add after 1) records = Ok (plain, expected) →
  recovered_tail stream after plain ∧ Forall2 (λ r p, decrypt key r = Ok p) records plain.
Proof.
  revert after plain expected.
  induction records as [|r records IH]; intros after plain expected; simpl.
  { intros [= <- _]. split; [|constructor]. intros i p Hi. by rewrite lookup_nil in Hi. }
  destruct (checked_add after 1) as [e|] eqn:He; [|done].
  apply checked_add_Some in He as [-> _].
  destruct (bool_decide _) eqn:Hst; [|done]. destruct (er_lsn r =? _) eqn:Hl; [|done].
  destruct (er_committed_lsn r =? _) eqn:Hc; [|done]. bool_facts. cbn [negb].
  intros Hd. next Hd. next Hd. injection Hd as <- <-.
  apply IH in Hx0 as [Ht Hf]. apply decrypt_fields in Hx as Hfields.
  destruct Hfields as (? & _ & ? & ?). unfold saturating_sub in Hc.
  split; [|by constructor].
  intros [|i] p Hi; simplify_eq/=; [split_and!; [congruence|lia|lia]|].
  destruct (Ht i p Hi) as (? & ? & ?). repeat split; [done|lia|lia].
Qed.

Lemma decrypt_loop_complete stream after records plain :
  Forall2 (λ r p, decrypt key r = Ok p) records plain →
  (∀ i r, records !! i = Some r →
     er_stream r = stream ∧ er_lsn r = after + 1 + N.of_nat i ∧ er_lsn r ≤ u64_max
     ∧ er_committed_lsn r = after + N.of_nat i) →
  ∃ expected, decrypt_loop key stream (checked_add after 1) records = Ok (plain, expected).
Proof.
  intros Hf. revert after. induction Hf as [|r p records plain Hr Hf IH]; intros after Hs.
  { by eexists. }
  destruct (Hs 0%nat r eq_refl) as (Hst & Hl & Hm & Hc). cbn [decrypt_loop].
  rewrite checked_add_le by lia. rewrite bool_decide_true by done.
  replace (er_lsn r =? after + 1) with true by (symmetry; apply N.eqb_eq; lia).
  replace (er_committed_lsn r =? saturating_sub (after + 1) 1) with true
    by (symmetry; apply N.eqb_eq; unfold saturating_sub; lia).
  cbn [negb]. rewrite Hr. run.
  destruct (IH (after + 1)) as [expected He]; [|rewrite He; by eexists].
  intros i r' Hi. destruct (Hs (S i) r' Hi) as (? & ? & ? & ?). repeat split; try done; lia.
Qed.

(** recovery never invents, reorders or truncates.  Whatever the gateway
    returned, a successful [decrypt_recovery] is the authenticated decryption of
    exactly those records, for the requested stream, at consecutive LSNs right
    after the caller's watermark, each naming its predecessor; and with a
    committed watermark the tail ends exactly there. *)
Theorem decrypt_recovery_sound stream after wm records plain :
  decrypt_recovery key stream after wm records = Ok plain →
  recovered_tail stream after plain
  ∧ (∃ sorted, sorted ≡ₚ records ∧ Forall2 (λ r p, decrypt key r = Ok p) sorted plain)
  ∧ ∀ c, wm = Some c → after + len plain = c.
Proof.
  unfold decrypt_recovery. destruct (match wm with Some c => c <? after | None => false end) eqn:Hw; [done|].
  intros Hd. next Hd. apply decrypt_loop_sound in Hx as [Ht Hf].
  destruct wm as [c|].
  - case_result Hd. apply negb_false_iff in E. split_and!; [done|eauto using sort_by_key_Permutation|].
    intros ? [= <-]. destruct (N.eqb_spec c after) as [->|Hne].
    + apply bool_decide_eq_true in E. destruct plain; [|done]. rewrite len_nil. lia.
    + destruct (last plain) as [p|] eqn:Hlast; [|done]. apply N.eqb_eq in E.
      rewrite last_lookup in Hlast. apply Ht in Hlast as Hp. apply lookup_lt_Some in Hlast.
      unfold len. destruct Hp as (_ & Hp & _). rewrite E in Hp. lia.
  - injection Hd as <-. split_and!; [done|eauto using sort_by_key_Permutation|done].
Qed.

(** ** The whole path: append a batch, recover it *)

Context {S : Type} `{GatewayLaws S}.

Lemma append_pair_Ok previous current :
  append_pair previous current = Ok tt →
  ar_stream current = ar_stream previous
  ∧ ar_lsn current = ar_lsn previous + 1 ∧ ar_lsn current ≤ u64_max
  ∧ ar_committed_lsn current = ar_lsn previous.
Proof.
  unfold append_pair. destruct (bool_decide _) eqn:?; [|done].
  destruct (ar_writer_epoch current =? _); [|done]. intros Hp. cbn in Hp.
  next Hp. apply ok_or_Ok, checked_add_Some in Hx as [-> ?].
  case_result Hp. bool_facts. split_and!; [done|done|lia|done].
Qed.

Lemma append_links previous rest :
  try_fold (λ _ '(previous, current), append_pair previous current)
    tt (windows2 (previous :: rest)) = Ok tt →
  ∀ i p, rest !! i = Some p →
    ar_stream p = ar_stream previous ∧ ar_lsn p = ar_lsn previous + 1 + N.of_nat i
    ∧ ar_lsn p ≤ u64_max ∧ ar_committed_lsn p = ar_lsn previous + N.of_nat i.
Proof.
  revert previous. induction rest as [|r rest IH]; intros previous Hv i p Hi; [done|].
  rewrite windows2_cons in Hv. cbn [try_fold] in Hv.
  apply bind_Ok in Hv as ([] & Hp%append_pair_Ok & Hv).
  destruct Hp as (Hst & Hl & Hm & Hc).
  destruct i as [|i]; simplify_eq/=; [split_and!; (done || lia)|].
  destruct (IH _ Hv i p Hi) as (? & ? & ? & ?).
  split_and!; [congruence|lia|lia|lia].
Qed.

(** What [append_many] sends: one encryption per record, in order, chained. *)
Lemma prepare_append_many_Ok records encrypted :
  prepare_append_many key records = Ok encrypted →
  ∃ first, head records = Some first ∧ ar_committed_lsn first < ar_lsn first
  ∧ Forall2 (λ p c, encrypt key p = Ok c) records encrypted
  ∧ ∀ i p, records !! i = Some p →
      ar_stream p = ar_stream first ∧ ar_lsn p = ar_lsn first + N.of_nat i
      ∧ (i ≠ 0%nat → ar_lsn p ≤ u64_max ∧ ar_committed_lsn p + 1 = ar_lsn p).
Proof.
  unfold prepare_append_many. destruct records as [|first rest]; [done|].
  destruct (_ <? len _); [done|].
  destruct (N.leb_spec (ar_lsn first) (ar_committed_lsn first)); [done|].
  destruct (_ || _); [done|]. intros Hp. next Hp. destruct (_ <? x); [done|].
  next Hp. destruct x0. apply try_map_Ok in Hp. exists first. split_and!; try done.
  intros [|i] p Hi; simplify_eq/=; [split_and!; (done || lia)|].
  destruct (append_links _ _ Hx0 i p Hi) as (? & ? & ? & ?).
  split_and!; [done|lia|]. intros _. split; lia.
Qed.

(** The records a batch leaves past its watermark are the batch. *)
Lemma appended_tail s s' records encrypted certificate first stream :
  gw_inv s →
  Forall2 (λ p c, encrypt key p = Ok c) records encrypted →
  head records = Some first → ar_stream first = stream →
  ar_committed_lsn first + 1 = ar_lsn first →
  (∀ i p, records !! i = Some p → ar_stream p = stream ∧ ar_lsn p = ar_lsn first + N.of_nat i) →
  (∀ r, r ∈ gw_log s stream → er_lsn r ≤ ar_committed_lsn first) →
  gw_append_many s encrypted = (Ok certificate, s') →
  filter (λ r, ar_committed_lsn first < er_lsn r) (gw_log s' stream) ≡ₚ encrypted
  ∧ strict_sorted er_lsn encrypted.
Proof.
  intros Hinv Henc Hhd Hst Hw Hs Hold Happ.
  assert (∀ i c, encrypted !! i = Some c →
    er_stream c = stream ∧ er_lsn c = ar_lsn first + N.of_nat i) as Hi.
  { intros i c Hc. eapply Forall2_lookup_r in Henc as (p & Hp & He); [|done].
    apply encrypt_fields in He as (-> & _ & -> & _). by apply Hs. }
  assert (strict_sorted er_lsn encrypted) as Hsorted.
  { clear -Hi. unfold strict_sorted. revert Hi. generalize (ar_lsn first).
    induction encrypted as [|c l IH]; intros b Hi; [constructor|]. constructor.
    - apply (IH (b + 1)). intros i c' Hc. destruct (Hi (Datatypes.S i) c' Hc). split; [done|lia].
    - apply Forall_forall. intros c' [i Hc]%list_elem_of_lookup.
      destruct (Hi 0%nat c eq_refl), (Hi (Datatypes.S i) c' Hc). lia. }
  split; [|done]. apply NoDup_Permutation.
  - apply NoDup_filter. eapply NoDup_fmap_1, gw_log_unique.
    replace s' with (gw_append_many s encrypted).2 by (by rewrite Happ).
    by apply gw_append_many_inv.
  - clear -Hsorted. induction Hsorted as [|c l _ IH Hc]; constructor; [|done].
    intros Hin. rewrite Forall_forall in Hc. specialize (Hc c Hin). lia.
  - intros c. rewrite list_elem_of_filter, (gw_append_many_log s s') by done. split.
    + intros [Hc [Hin|[Hin _]]]; [|done]. specialize (Hold c Hin). lia.
    + intros Hin. apply list_elem_of_lookup in Hin as [i Hc].
      destruct (Hi i c Hc). split; [lia|]. right. split; [|done].
      apply list_elem_of_lookup. by exists i.
Qed.

(** C35: a committed batch is recovered verbatim.  Against any gateway that
    keeps its contract: when a writer whose watermark is the end of the stream
    appends a batch and is acknowledged, recovering from that watermark returns
    exactly the appended plaintext records in order, and the acknowledgement
    names the batch's last LSN. *)
Theorem append_then_recover s s' records first knowledge encrypted :
  gw_inv s → head records = Some first → ar_committed_lsn first + 1 = ar_lsn first →
  ar_lsn first ≤ u64_max →
  (∀ r, r ∈ gw_log s (ar_stream first) → er_lsn r ≤ ar_committed_lsn first) →
  qw_append_many key s records = (Ok knowledge, s') →
  gw_recover s' (ar_stream first) (ar_committed_lsn first) = Ok encrypted →
  qw_recover key s' (ar_stream first) (ar_committed_lsn first) = Ok records
  ∧ ck_committed_lsn knowledge + 1 = ar_lsn first + len records.
Proof.
  intros Hinv Hhd Hw Hmax Hold Happ Hrec. unfold qw_append_many in Happ.
  destruct (prepare_append_many key records) as [enc|e] eqn:Hprep; [|done].
  apply prepare_append_many_Ok in Hprep as (f & Hf & _ & Henc & Hs).
  rewrite Hhd in Hf. injection Hf as <-.
  destruct (gw_append_many s enc) as [[cert|e] s''] eqn:Hgw; [|done].
  destruct (last records) as [lst|] eqn:Hlast; simplify_eq/=.
  destruct (appended_tail s s' records enc cert first (ar_stream first)) as [Htail Hsorted];
    try done; [naive_solver|].
  apply gw_recover_log in Hrec as Hperm.
  2:{ replace s' with (gw_append_many s enc).2 by (by rewrite Hgw). by apply gw_append_many_inv. }
  rewrite Htail in Hperm. split.
  - unfold qw_recover, decrypt_recovery. rewrite Hrec. run.
    rewrite (sort_by_key_unique er_lsn encrypted enc) by done.
    destruct (decrypt_loop_complete (ar_stream first) (ar_committed_lsn first) enc records) as [ex He];
      [| |rewrite He; done].
    + apply Forall2_flip. eapply Forall2_impl; [done|]. simpl. eauto using decrypt_encrypt.
    + intros i c Hc. eapply Forall2_lookup_r in Henc as (p & Hp & He); [|done].
      apply encrypt_fields in He as (-> & _ & -> & ->).
      destruct (Hs i p Hp) as (? & ? & Hc'). split_and!; [done|lia| |].
      * destruct i; [|by apply Hc']. simplify_eq/=. by destruct records; simplify_eq/=.
      * destruct i; [destruct records; simplify_eq/=; lia|].
        destruct Hc' as [_ ?]; [done|]. lia.
  - rewrite last_lookup in Hlast. apply lookup_lt_Some in Hlast as Hlt.
    destruct (Hs _ _ Hlast) as (_ & -> & _). unfold len. lia.
Qed.

End WriterProofs.

(** ** The in-memory gateway keeps the contract *)

(** Records sit under their own key and never above the stream's fence. *)
Definition mr_inv (s : MemoryReplica) : Prop :=
  ∀ k r, mr_records s !! k = Some r →
    k = record_key r ∧ er_writer_epoch r ≤ mr_epoch s (er_stream r).

Lemma healthy_inv : mr_inv healthy.
Proof. intros k r Hk. simpl in Hk. by rewrite lookup_empty in Hk. Qed.

Lemma mr_epoch_insert s stream e records stream' :
  mr_epoch (mkMemoryReplica (mr_available s) (<[stream := e]> (mr_highest_epoch s)) records) stream'
  = if decide (stream = stream') then e else mr_epoch s stream'.
Proof. unfold mr_epoch; simpl. rewrite lookup_insert. by case_decide. Qed.

Lemma store_record_inv s r :
  mr_inv s → mr_inv (store_record s r).
Proof.
  intros Hinv k r' Hk. unfold store_record in *. simpl in Hk. rewrite mr_epoch_insert.
  assert (mr_records s !! k = Some r' → k = record_key r' ∧ er_writer_epoch r' ≤
    (if decide (er_stream r = er_stream r')
     then N.max (er_writer_epoch r) (mr_epoch s (er_stream r)) else mr_epoch s (er_stream r'))) as Hold.
  { intros [-> Hle]%Hinv. split; [done|]. case_decide as Heq; [|done]. rewrite Heq. lia. }
  destruct (mr_records s !! record_key r) as [r0|] eqn:E; [by apply Hold|].
  apply lookup_insert_Some in Hk as [[<- <-]|[_ Hk]]; [|by apply Hold].
  split; [done|]. rewrite decide_True by done. lia.
Qed.

Lemma store_records_inv s records : mr_inv s → mr_inv (foldl store_record s records).
Proof.
  revert s; induction records as [|r records IH]; intros s Hs; simpl; [done|].
  by apply IH, store_record_inv.
Qed.

Lemma store_records_lookup s records k r :
  (∀ a b, a ∈ records → b ∈ records → record_key a = record_key b → a = b) →
  mr_records (foldl store_record s records) !! k = Some r ↔
  mr_records s !! k = Some r
  ∨ (mr_records s !! k = None ∧ r ∈ records ∧ k = record_key r).
Proof.
  revert s; induction records as [|a records IH]; intros s Huniq; simpl.
  { split; [auto|]. intros [?|(_ & Hin & _)]; [done|]. by apply not_elem_of_nil in Hin. }
  rewrite IH by (intros; apply Huniq; by (right || left || auto); set_solver).
  unfold store_record; simpl. setoid_rewrite elem_of_cons.
  destruct (mr_records s !! record_key a) as [a0|] eqn:Ea.
  { split; [intros [?|(? & ? & ?)]; auto|].
    intros [?|(? & [->|?] & ->)]; [by auto|congruence|by auto]. }
  destruct (decide (k = record_key a)) as [->|Hne].
  - rewrite lookup_insert_eq. rewrite Ea. split.
    + intros [[= <-]|[? _]]; [by auto|done].
    + intros [?|(_ & [->|Hin] & Hk)]; [done|by auto|].
      left. f_equal. apply Huniq; [by left|by right|done].
  - rewrite lookup_insert_ne by done. split; [intros [?|(? & ? & ?)]; auto|].
    intros [?|(? & [->|?] & ->)]; [by auto|done|by auto].
Qed.

Lemma elem_of_snapshot s stream r :
  r ∈ records_snapshot s stream ↔ er_stream r = stream ∧ ∃ k, mr_records s !! k = Some r.
Proof. unfold records_snapshot. by rewrite list_elem_of_filter, elem_of_btree_values. Qed.

(** Records of one stream under distinct keys have distinct LSNs. *)
Lemma NoDup_lsns stream (l : list EncryptedRecord) :
  NoDup (record_key <$> l) → (∀ r, r ∈ l → er_stream r = stream) → NoDup (er_lsn <$> l).
Proof.
  intros Hnd Hst. apply (NoDup_fmap_1 (pair stream)). rewrite <- list_fmap_compose.
  erewrite list_fmap_ext; [exact Hnd|].
  intros i r Hi. simpl. unfold record_key. f_equal.
  symmetry. apply Hst, list_elem_of_lookup. by exists i.
Qed.

Lemma btree_values_keys s :
  mr_inv s → record_key <$> btree_values (mr_records s) = (btree_entries (mr_records s)).*1.
Proof.
  intros Hinv. unfold btree_values. rewrite <- list_fmap_compose. apply list_fmap_ext.
  intros i [k r] Hi. simpl. symmetry. apply (Hinv k r).
  apply elem_of_btree_entries, list_elem_of_lookup. by exists i.
Qed.

Lemma snapshot_unique s stream : mr_inv s → NoDup (er_lsn <$> records_snapshot s stream).
Proof.
  intros Hinv. apply (NoDup_lsns stream).
  - apply (sublist_NoDup _ (record_key <$> btree_values (mr_records s))).
    { rewrite btree_values_keys by done. apply NoDup_btree_keys. }
    apply fmap_sublist, sublist_filter.
  - intros r Hr. by apply elem_of_snapshot in Hr as [? _].
Qed.

Lemma append_records_Ok s s' records :
  append_records s records = (Ok tt, s') →
  batch_shape records ∧ (∀ r, r ∈ records → check_record s r = Ok tt)
  ∧ s' = foldl store_record s records ∧ mr_available s = true.
Proof.
  unfold append_records. destruct (mr_available s) eqn:Hav; [|done]. simpl.
  destruct (validate_append_batch records) as [[]|] eqn:Hv; [|done].
  destruct (try_fold _ tt records) as [[]|] eqn:Hc; [|done]. intros [= <-].
  split_and!; [by apply validate_append_batch_sound| |done|done].
  by apply (try_fold_all (check_record s)).
Qed.

Lemma batch_record_keys records a b :
  batch_shape records → a ∈ records → b ∈ records → record_key a = record_key b → a = b.
Proof. intros Hs Ha Hb [= _ Heq]. by eapply batch_shape_keys. Qed.

Lemma batch_shape_NoDup records : batch_shape records → NoDup (record_key <$> records).
Proof.
  intros (first & _ & _ & Hs). apply NoDup_alt. intros i j k.
  rewrite !list_lookup_fmap. intros (r & Hi & ->)%fmap_Some (r' & Hj & Heq)%fmap_Some.
  destruct (Hs i r Hi) as (_ & _ & ? & _), (Hs j r' Hj) as (_ & _ & ? & _).
  injection Heq as _ Heq. lia.
Qed.

Lemma check_record_Ok s r :
  check_record s r = Ok tt ↔
  mr_epoch s (er_stream r) ≤ er_writer_epoch r
  ∧ (mr_records s !! record_key r = None ∨ mr_records s !! record_key r = Some r).
Proof.
  unfold check_record. destruct (N.ltb_spec (er_writer_epoch r) (mr_epoch s (er_stream r))).
  { split; [done|]. intros [? _]. lia. }
  destruct (mr_records s !! record_key r) as [e|]; [|naive_solver].
  destruct (bool_decide_reflect (e = r)) as [->|]; split; try done; [by auto|].
  intros (_ & [?|[= ->]]); done.
Qed.

Lemma memory_append_log s s' records stream r :
  mr_inv s → append_records s records = (Ok tt, s') →
  r ∈ records_snapshot s' stream
  ↔ r ∈ records_snapshot s stream ∨ (r ∈ records ∧ er_stream r = stream).
Proof.
  intros Hinv (Hs & Hc & -> & _)%append_records_Ok. rewrite !elem_of_snapshot.
  setoid_rewrite store_records_lookup; [|by eauto using batch_record_keys]. split.
  - intros [? (k & [Hk|(_ & Hin & _)])]; [left; eauto|by right].
  - intros [[? [k Hk]]|[Hin Hst]]; [eauto|]. split; [done|].
    exists (record_key r). specialize (Hc r Hin). apply check_record_Ok in Hc as [_ [?|?]]; auto.
Qed.

#[global] Program Instance memory_laws : GatewayLaws MemoryReplica := {|
  gw_inv := mr_inv;
  gw_log := records_snapshot;
|}.
Next Obligation. simpl. intros. by apply snapshot_unique. Qed.
Next Obligation.
  simpl. intros s records Hinv. unfold append_records.
  destruct (negb _); [done|]. destruct (validate_append_batch records); [|done].
  destruct (try_fold _ tt records); [|done]. by apply store_records_inv.
Qed.
Next Obligation.
  simpl. intros s s' records c stream r Hinv Happ.
  destruct (append_records s records) as [[[]|e] s''] eqn:E; simplify_eq/=.
  by apply memory_append_log.
Qed.
Next Obligation. simpl. intros s stream after records _ [= <-]. done. Qed.

Lemma mr_epoch_store s r :
  mr_epoch (store_record s r) (er_stream r)
  = N.max (er_writer_epoch r) (mr_epoch s (er_stream r)).
Proof. unfold store_record. rewrite mr_epoch_insert. by rewrite decide_True. Qed.

(** Storing a batch raises the stream's fence to its epoch and no further. *)
Lemma mr_epoch_store_batch s records stream epoch :
  records ≠ [] → (∀ r, r ∈ records → er_stream r = stream ∧ er_writer_epoch r = epoch) →
  mr_epoch (foldl store_record s records) stream = N.max epoch (mr_epoch s stream).
Proof.
  intros Hne Hall. destruct records as [|r records]; [done|]. clear Hne. simpl.
  destruct (Hall r ltac:(by left)) as [<- <-].
  assert (∀ r', r' ∈ records → er_stream r' = er_stream r ∧ er_writer_epoch r' = er_writer_epoch r)
    as Hall' by (intros r' ?; apply Hall; by right).
  rewrite <- mr_epoch_store. clear Hall.
  assert (er_writer_epoch r ≤ mr_epoch (store_record s r) (er_stream r)) as Hle
    by (rewrite mr_epoch_store; lia).
  revert Hle Hall'. generalize (store_record s r). induction records as [|r' l IH]; [done|].
  intros s' Hle Hall'. simpl. destruct (Hall' r' ltac:(by left)) as [Hs He].
  assert (mr_epoch (store_record s' r') (er_stream r) = mr_epoch s' (er_stream r)) as Heq.
  { rewrite <- Hs, mr_epoch_store, He, Hs. lia. }
  rewrite IH, Heq; [done|by rewrite Heq|]. intros r'' ?. apply Hall'. by right.
Qed.

Lemma store_record_present s r :
  mr_records s !! record_key r = Some r → er_writer_epoch r ≤ mr_epoch s (er_stream r) →
  is_Some (mr_highest_epoch s !! er_stream r) → store_record s r = s.
Proof.
  intros Hr He [e Hs]. unfold store_record. rewrite Hr. destruct s as [av eps rs]; simpl in *.
  f_equal. unfold mr_epoch in *; simpl in *. rewrite Hs in *; simpl in *.
  apply insert_id. rewrite Hs. f_equal. lia.
Qed.

Lemma store_records_present s records :
  (∀ r, r ∈ records → mr_records s !! record_key r = Some r
     ∧ er_writer_epoch r ≤ mr_epoch s (er_stream r) ∧ is_Some (mr_highest_epoch s !! er_stream r)) →
  foldl store_record s records = s.
Proof.
  induction records as [|r records IH]; intros Hall; simpl; [done|].
  destruct (Hall r ltac:(by left)) as (? & ? & ?). rewrite store_record_present by done.
  apply IH. intros r' ?. apply Hall. by right.
Qed.

Lemma store_records_epoch_Some s records stream :
  (∃ r, r ∈ records ∧ er_stream r = stream) ∨ is_Some (mr_highest_epoch s !! stream) →
  is_Some (mr_highest_epoch (foldl store_record s records) !! stream).
Proof.
  revert s; induction records as [|r records IH]; intros s Hor; simpl.
  { destruct Hor as [(r & Hin & _)|?]; [by apply not_elem_of_nil in Hin|done]. }
  apply IH. simpl. rewrite lookup_insert. destruct Hor as [(r' & [->|?]%elem_of_cons & <-)|?].
  - right. rewrite decide_True by done. by eexists.
  - left. eauto.
  - right. case_decide; [by eexists|done].
Qed.

(** the in-memory gateway is idempotent and fences.  After an acknowledged
    batch the same batch is acknowledged again without changing anything, every
    record with an older writer epoch on that stream is refused with the state
    unchanged, and the record index keeps its invariant. *)
Theorem memory_append_fences s s' records :
  mr_inv s → append_records s records = (Ok tt, s') →
  mr_inv s' ∧ append_records s' records = (Ok tt, s')
  ∧ ∀ r old, r ∈ records → er_stream old = er_stream r →
      er_writer_epoch old < er_writer_epoch r →
      ∃ e, append_record s' old = (Err e, s').
Proof.
  intros Hinv Happ. pose proof Happ as (Hs & Hc & -> & Hav)%append_records_Ok.
  set (s' := foldl store_record s records).
  assert (mr_inv s') as Hinv' by by apply store_records_inv.
  assert (∀ r, r ∈ records → mr_records s' !! record_key r = Some r) as Hin.
  { intros r Hr. unfold s'. rewrite store_records_lookup by eauto using batch_record_keys.
    specialize (Hc r Hr). apply check_record_Ok in Hc as [_ [?|?]]; auto. }
  destruct Hs as (first & Hhd & Hw & Hs).
  assert (∀ r, r ∈ records → er_stream r = er_stream first
    ∧ er_writer_epoch r = er_writer_epoch first) as Hsame.
  { intros r [i Hi]%list_elem_of_lookup. destruct (Hs i r Hi) as (? & ? & _). done. }
  assert (first ∈ records) as Hfirst by (destruct records; simplify_eq/=; by left).
  assert (mr_epoch s' (er_stream first) = er_writer_epoch first) as Hep.
  { unfold s'. rewrite (mr_epoch_store_batch _ _ _ (er_writer_epoch first));
      [|by intros ->|done].
    specialize (Hc first Hfirst). apply check_record_Ok in Hc as [? _]. lia. }
  assert (mr_available s' = true) as Hav'.
  { unfold s'. clear -Hav. revert s Hav. induction records; intros; [done|]. simpl. by apply IHrecords. }
  split_and!; [done| |].
  - unfold append_records. rewrite Hav'. simpl.
    assert (validate_append_batch records = Ok tt) as ->.
    { unfold append_records in Happ. rewrite Hav in Happ. simpl in Happ.
      by destruct (validate_append_batch records) as [[]|]. }
    assert (try_fold (λ (_ : ()) r, check_record s' r) tt records = Ok tt) as ->.
    { apply (try_fold_all (check_record s')). intros r Hr. apply check_record_Ok.
      destruct (Hsame r Hr) as [-> ->]. rewrite Hep. auto. }
    f_equal. apply store_records_present. intros r Hr. destruct (Hsame r Hr) as [Hst Hwe].
    rewrite Hwe, Hst, Hep. split_and!; [by apply Hin|done|].
    unfold s'. apply store_records_epoch_Some. left. by exists first.
  - intros r old Hr Hst Hlt. destruct (Hsame r Hr) as [Hst' Hwe].
    unfold append_record. rewrite Hav'. simpl.
    destruct (_ <=? _); [by eexists|].
    rewrite Hst, Hst', Hep.
    destruct (N.ltb_spec (er_writer_epoch old) (er_writer_epoch first)); [by eexists|lia].
Qed.

(** ** Witnesses

    A suite that meets the laws, so that they can hold together: the tag is
    sixteen zero bytes and the hashes are constant. *)

Definition toy_cipher : CipherSuite := {|
  sha256 _ := replicate 32 x00;
  aead_encrypt _ _ p := Some (p ++ replicate 16 x00);
  aead_decrypt _ _ c := Some (take (length c - 16) c);
  hmac_sha256 _ _ := Some (replicate 32 x01);
|}.

Lemma toy_laws : @CipherLaws toy_cipher.
Proof.
  split; simpl.
  - done.
  - by eexists.
  - intros _ _ p c [= <-]. f_equal. rewrite length_app. simpl length.
    replace (length p + 16 - 16)%nat with (length p) by lia. apply take_app_length.
  - intros _ _ p c [= <-]. by rewrite len_app.
  - by intros _ _ t [= <-].
  - by eexists.
Qed.

Definition sample_append (lsn : N) : AppendRecord :=
  mkAppendRecord "t/s" 1 lsn (lsn - 1) [x41; x42].

Definition sample_batch : list AppendRecord := [sample_append 1; sample_append 2].

Lemma validate_append_batch_spec_witness :
  batch_shape [sample_record 4; sample_record 5].
Proof.
  apply validate_append_batch_spec; [|vm_compute; reflexivity].
  constructor; [vm_compute; discriminate|]. constructor; [vm_compute; discriminate|constructor].
Defined.

Lemma encrypt_decrypt_witness :
  ∃ c, @encrypt toy_cipher [] (sample_append 1) = Ok c
       ∧ @decrypt toy_cipher [] c = Ok (sample_append 1) ∧ wf_record c
       ∧ len (er_ciphertext c) ≤ MAX_ENCRYPTED_RECORD_CIPHERTEXT_BYTES.
Proof.
  apply (@encrypt_decrypt toy_cipher toy_laws); vm_compute; (reflexivity || discriminate).
Defined.

(** The sample batch, encrypted. *)
Definition sample_encrypted : list EncryptedRecord :=
  match @prepare_append_many toy_cipher [] sample_batch with Ok l => l | Err _ => [] end.

Definition sample_gateway : MemoryReplica :=
  (@qw_append_many toy_cipher [] MemoryReplica memory_gateway healthy sample_batch).2.

Lemma decrypt_recovery_sound_witness :
  recovered_tail "t/s" 0 sample_batch ∧ 0 + len sample_batch = 2.
Proof.
  pose proof (@decrypt_recovery_sound toy_cipher [] "t/s" 0 (Some 2)
    (rev sample_encrypted) sample_batch) as Hs.
  destruct Hs as (Ht & _ & Hc); [vm_compute; reflexivity|].
  split; [exact Ht|by apply Hc].
Defined.

Lemma append_then_recover_witness :
  @qw_recover toy_cipher [] MemoryReplica memory_gateway sample_gateway "t/s" 0 = Ok sample_batch.
Proof.
  eapply (@append_then_recover toy_cipher toy_laws [] MemoryReplica memory_gateway memory_laws
    healthy sample_gateway sample_batch (sample_append 1)).
  - apply healthy_inv.
  - reflexivity.
  - reflexivity.
  - vm_compute. discriminate.
  - intros r [_ [k Hk]]%elem_of_snapshot. simpl in Hk. by rewrite lookup_empty in Hk.
  - vm_compute. reflexivity.
  - vm_compute. reflexivity.
Defined.

Lemma memory_append_fences_witness :
  append_records sample_gateway sample_encrypted = (Ok tt, sample_gateway).
Proof.
  apply (memory_append_fences healthy sample_gateway sample_encrypted).
  - apply healthy_inv.
  - vm_compute. reflexivity.
Defined.
