(* ===== verification/Placement.v ===== *)
(** * Placement: durable, stream-local admission fences

    [crates/walleye-bitr-server/src/placement.rs].  [PlacementStore] is the
    shared state behind the store's [Arc]: one gate per stream, the last
    document written, the fail-closed flag, and the sidecar file itself.

    A method of the source that takes the gate's lock once is a function here.
    [install_fence] takes it several times, waiting on the condition variable
    between: it is [fence_enter] (up to setting the transition bit) and
    [fence_publish] (from the moment the admitted leases have drained), and
    [placement_step] interleaves them with the admissions, releases and
    restarts of other threads.  Lock poisoning, which needs a panic while a lock
    is held, is not modelled. *)

From S2P Require Import Prelude Text.

Definition PLACEMENT_STATE_VERSION : N := 1.

Record PlacementEpoch := mkPlacementEpoch {
  pe_epoch : N;
  pe_route_digest : string;
}.

#[global] Instance PlacementEpoch_eq_dec : EqDecision PlacementEpoch.
Proof. solve_decision. Defined.

Definition bootstrap : PlacementEpoch := mkPlacementEpoch 0 "".

Inductive PlacementError : Type :=
| InvalidStream
| InvalidEpoch
| Storage (reason : string)
| Transitioning
| Stale (current received : PlacementEpoch)
| Future (current received : PlacementEpoch)
| Conflict (current received : PlacementEpoch)
| Decreasing (current requested : PlacementEpoch)
| FenceConflict (current requested : PlacementEpoch).

Record StreamGateState := mkGate {
  g_placement : PlacementEpoch;
  g_admitted : N;
  g_transitioning : bool;
}.

Definition StreamGate_new (placement : PlacementEpoch) : StreamGateState :=
  mkGate placement 0 false.

(** The sidecar file: absent, unreadable (I/O or JSON), or a document. *)
Inductive Sidecar : Type :=
| SidecarMissing
| SidecarBroken (reason : string)
| SidecarDocument (version : N) (streams : gmap string PlacementEpoch).

Record PlacementStore := mkStore {
  ps_gates : gmap string StreamGateState;
  ps_persisted : gmap string PlacementEpoch;
  ps_failed_closed : bool;
  ps_sidecar : Sidecar;
}.

(** How one sidecar write ended: written and synced, or failed with an error,
    before or after the rename that publishes the new document. *)
Inductive PersistIo : Type :=
| PersistDone
| PersistFailed (reason : string) (renamed : bool).

(** ** Checks *)

Definition validate_epoch (placement : PlacementEpoch) : result PlacementError unit :=
  if ((pe_epoch placement =? 0) && negb (bool_decide (pe_route_digest placement = "")))
     || ((0 <? pe_epoch placement) && blank (pe_route_digest placement))
  then Err InvalidEpoch else Ok tt.

Definition compare_admission (current received : PlacementEpoch)
    : result PlacementError unit :=
  match pe_epoch received ?= pe_epoch current with
  | Lt => Err (Stale current received)
  | Gt => Err (Future current received)
  | Eq => if bool_decide (pe_route_digest received = pe_route_digest current)
          then Ok tt else Err (Conflict current received)
  end.

Definition fail_closed_error : PlacementError :=
  Storage "placement store is fail-closed after an uncertain sidecar write".

Definition ensure_healthy (s : PlacementStore) : result PlacementError unit :=
  if ps_failed_closed s then Err fail_closed_error else Ok tt.

(** ** The sidecar *)

(** The loop over the document's streams in [read_state_optional]. *)
Definition check_document (streams : gmap string PlacementEpoch) : result PlacementError unit :=
  try_fold (λ _ '(stream, placement),
    if blank stream then Err (Storage "placement state contains an empty stream")
    else map_err (λ _, Storage "invalid placement epoch") (validate_epoch placement))
    tt (sbtree_entries streams).

Definition read_state_optional (disk : Sidecar)
    : result PlacementError (option (gmap string PlacementEpoch)) :=
  match disk with
  | SidecarMissing => Ok None
  | SidecarBroken reason => Err (Storage reason)
  | SidecarDocument version streams =>
    if negb (version =? PLACEMENT_STATE_VERSION) then
      Err (Storage "unsupported placement state version")
    else _ ← check_document streams; Ok (Some streams)
  end.

Definition read_state (disk : Sidecar) : result PlacementError (gmap string PlacementEpoch) :=
  o ← read_state_optional disk; Ok (default ∅ o).

Definition read_state_required (disk : Sidecar)
    : result PlacementError (gmap string PlacementEpoch) :=
  o ← read_state_optional disk;
  ok_or o (Storage "placement sidecar is missing after initialization").

(** [persist_state]: the result and the file afterwards. *)
Definition persist_state (io : PersistIo) (disk : Sidecar)
    (streams : gmap string PlacementEpoch) : result PlacementError unit * Sidecar :=
  let document := SidecarDocument PLACEMENT_STATE_VERSION streams in
  match io with
  | PersistDone => (Ok tt, document)
  | PersistFailed reason renamed =>
    (Err (Storage reason), if renamed then document else disk)
  end.

(** ** Opening *)

Definition from_persisted (disk : Sidecar) (persisted : gmap string PlacementEpoch)
    : PlacementStore := mkStore ∅ persisted false disk.

Definition ps_open (disk : Sidecar) : result PlacementError PlacementStore :=
  persisted ← read_state disk; Ok (from_persisted disk persisted).

Definition open_existing (disk : Sidecar) : result PlacementError PlacementStore :=
  persisted ← read_state_required disk; Ok (from_persisted disk persisted).

Definition check_legacy (legacy_routes : gmap string PlacementEpoch)
    : result PlacementError unit :=
  try_fold (λ _ '(stream, placement),
    if blank stream then Err (Storage "legacy placement state contains an empty stream")
    else map_err (λ _, Storage "invalid legacy placement epoch") (validate_epoch placement))
    tt (sbtree_entries legacy_routes).

Definition bootstrap_legacy (io : PersistIo) (disk : Sidecar)
    (legacy_routes : gmap string PlacementEpoch)
    : result PlacementError PlacementStore * Sidecar :=
  match check_legacy legacy_routes with
  | Err e => (Err e, disk)
  | Ok _ =>
    match read_state_optional disk with
    | Err e => (Err e, disk)
    | Ok (Some persisted) =>
      if negb (bool_decide (persisted = legacy_routes)) then
        (Err (Storage "existing placement sidecar disagrees with legacy control routes"), disk)
      else (Ok (from_persisted disk persisted), disk)
    | Ok None =>
      match persist_state io disk legacy_routes with
      | (Err e, disk) => (Err e, disk)
      | (Ok _, disk) => (Ok (from_persisted disk legacy_routes), disk)
      end
    end
  end.

(** ** Gates, admission and release *)

(** [gate]: finds or creates the stream's gate. *)
Definition gate (s : PlacementStore) (stream : string)
    : result PlacementError (StreamGateState * PlacementStore) :=
  if blank stream then Err InvalidStream
  else match ps_gates s !! stream with
  | Some g => Ok (g, s)
  | None =>
    let g := StreamGate_new (default bootstrap (ps_persisted s !! stream)) in
    Ok (g, mkStore (<[stream := g]> (ps_gates s)) (ps_persisted s)
             (ps_failed_closed s) (ps_sidecar s))
  end.

Definition set_gate (s : PlacementStore) (stream : string) (g : StreamGateState)
    : PlacementStore :=
  mkStore (<[stream := g]> (ps_gates s)) (ps_persisted s) (ps_failed_closed s) (ps_sidecar s).

Definition current (s : PlacementStore) (stream : string)
    : result PlacementError PlacementEpoch * PlacementStore :=
  match ensure_healthy s with
  | Err e => (Err e, s)
  | Ok _ =>
    match gate s stream with
    | Err e => (Err e, s)
    | Ok (g, s) => (Ok (g_placement g), s)
    end
  end.

Definition contains_stream (s : PlacementStore) (stream : string)
    : result PlacementError bool :=
  _ ← ensure_healthy s;
  if blank stream then Err InvalidStream
  else Ok (bool_decide (is_Some (ps_persisted s !! stream))).

Definition is_transitioning (s : PlacementStore) (stream : string)
    : result PlacementError bool :=
  '(g, _) ← gate s stream; Ok (g_transitioning g).

Definition snapshot (s : PlacementStore) : result PlacementError (gmap string PlacementEpoch) :=
  _ ← ensure_healthy s; Ok (ps_persisted s).

Record PlacementLease := mkLease {
  pl_stream : string;
  pl_placement : PlacementEpoch;
}.

(** [admit_lease] after its health check. *)
Definition admit_gated (s : PlacementStore) (stream : string) (placement : PlacementEpoch)
    : result PlacementError PlacementLease * PlacementStore :=
  match validate_epoch placement with
  | Err e => (Err e, s)
  | Ok _ =>
    match gate s stream with
    | Err e => (Err e, s)
    | Ok (g, s) =>
      if g_transitioning g then (Err Transitioning, s)
      else match compare_admission (g_placement g) placement with
      | Err e => (Err e, s)
      | Ok _ =>
        (Ok (mkLease stream placement),
         set_gate s stream (mkGate (g_placement g) (saturating_add (g_admitted g) 1)
                              (g_transitioning g)))
      end
    end
  end.

Definition admit_lease (s : PlacementStore) (stream : string) (placement : PlacementEpoch)
    : result PlacementError PlacementLease * PlacementStore :=
  match ensure_healthy s with
  | Err e => (Err e, s)
  | Ok _ => admit_gated s stream placement
  end.

(** [release_inner] of a lease that was not released yet. *)
Definition release (s : PlacementStore) (lease : PlacementLease) : PlacementStore :=
  match ps_gates s !! pl_stream lease with
  | None => s
  | Some g =>
    set_gate s (pl_stream lease)
      (mkGate (g_placement g) (saturating_sub (g_admitted g) 1) (g_transitioning g))
  end.

(** ** Fences *)

Inductive FenceEntry : Type :=
| FenceWait                                  (** another fence owns the transition *)
| FenceReturns (r : result PlacementError unit)
| FenceDraining.                             (** the transition bit is set *)

(** [install_fence] after a health check, up to the drain loop.  A thread woken
    from the first wait checks the health and starts again here. *)
Definition fence_gated (s : PlacementStore) (stream : string) (requested : PlacementEpoch)
    : FenceEntry * PlacementStore :=
  match validate_epoch requested with
  | Err e => (FenceReturns (Err e), s)
  | Ok _ =>
    match gate s stream with
    | Err e => (FenceReturns (Err e), s)
    | Ok (g, s) =>
      if g_transitioning g then (FenceWait, s)
      else match pe_epoch requested ?= pe_epoch (g_placement g) with
      | Lt => (FenceReturns (Err (Decreasing (g_placement g) requested)), s)
      | Eq =>
        if bool_decide (requested = g_placement g) then (FenceReturns (Ok tt), s)
        else (FenceReturns (Err (FenceConflict (g_placement g) requested)), s)
      | Gt =>
        (FenceDraining, set_gate s stream (mkGate (g_placement g) (g_admitted g) true))
      end
    end
  end.

Definition fence_enter (s : PlacementStore) (stream : string) (requested : PlacementEpoch)
    : FenceEntry * PlacementStore :=
  match ensure_healthy s with
  | Err e => (FenceReturns (Err e), s)
  | Ok _ => fence_gated s stream requested
  end.

(** The exits of the publication that clear the transition bit and report an
    error; [close] is set where the source stores [failed_closed]. *)
Definition fence_abandon (s : PlacementStore) (stream : string) (g : StreamGateState)
    (close : bool) (disk : Sidecar) : PlacementStore :=
  mkStore (<[stream := mkGate (g_placement g) (g_admitted g) false]> (ps_gates s))
    (ps_persisted s) (ps_failed_closed s || close) disk.

(** [install_fence] after the drain loop; [None] while admitted leases remain. *)
Definition fence_publish (io : PersistIo) (s : PlacementStore) (stream : string)
    (requested : PlacementEpoch) : option (result PlacementError unit * PlacementStore) :=
  match ps_gates s !! stream with
  | None => None
  | Some g =>
    if negb (g_admitted g =? 0) then None
    else Some (
      if ps_failed_closed s then
        (Err fail_closed_error, fence_abandon s stream g false (ps_sidecar s))
      else if match ps_persisted s !! stream with
              | Some persisted => negb (bool_decide (persisted = g_placement g))
              | None => false
              end then
        (Err (Storage "placement gate disagrees with durable sidecar"),
         fence_abandon s stream g true (ps_sidecar s))
      else
        let next := <[stream := requested]> (ps_persisted s) in
        match persist_state io (ps_sidecar s) next with
        | (Err e, disk) => (Err e, fence_abandon s stream g true disk)
        | (Ok _, disk) =>
          (Ok tt, mkStore (<[stream := mkGate requested (g_admitted g) false]> (ps_gates s))
                    next (ps_failed_closed s) disk)
        end)
  end.

(** [install_fence] called while no other thread uses the store; [None] when it
    would wait. *)
Definition install_fence (io : PersistIo) (s : PlacementStore) (stream : string)
    (requested : PlacementEpoch) : option (result PlacementError unit * PlacementStore) :=
  match fence_enter s stream requested with
  | (FenceWait, _) => None
  | (FenceReturns r, s) => Some (r, s)
  | (FenceDraining, s) => fence_publish io s stream requested
  end.

(** ** Threads

    The live leases and the fences that own a transition, with the store.  The
    health check is one atomic read at the start of a call: it may have passed
    before the store failed closed, so the steps run the part after it. *)

Record PlacementState := mkState {
  st_store : PlacementStore;
  st_leases : gmap nat PlacementLease;
  st_fences : gmap nat (string * PlacementEpoch);
}.

Inductive placement_step : PlacementState → PlacementState → Prop :=
| step_admit st id stream placement lease s' :
    st_leases st !! id = None →
    admit_gated (st_store st) stream placement = (Ok lease, s') →
    (* a process holds fewer than 2^64 leases *)
    N.of_nat (size (st_leases st)) < usize_max →
    placement_step st (mkState s' (<[id := lease]> (st_leases st)) (st_fences st))
| step_refused st stream placement e s' :
    admit_gated (st_store st) stream placement = (Err e, s') →
    placement_step st (mkState s' (st_leases st) (st_fences st))
| step_release st id lease :
    st_leases st !! id = Some lease →
    placement_step st
      (mkState (release (st_store st) lease) (delete id (st_leases st)) (st_fences st))
| step_fence_enter st id stream requested s' :
    st_fences st !! id = None →
    fence_gated (st_store st) stream requested = (FenceDraining, s') →
    placement_step st
      (mkState s' (st_leases st) (<[id := (stream, requested)]> (st_fences st)))
| step_fence_returns st stream requested e s' :
    fence_gated (st_store st) stream requested = (e, s') → e ≠ FenceDraining →
    placement_step st (mkState s' (st_leases st) (st_fences st))
| step_fence_publish st id io stream requested r s' :
    st_fences st !! id = Some (stream, requested) →
    fence_publish io (st_store st) stream requested = Some (r, s') →
    placement_step st (mkState s' (st_leases st) (delete id (st_fences st)))
| step_restart st s' :
    ps_open (ps_sidecar (st_store st)) = Ok s' →
    placement_step st (mkState s' ∅ ∅).

(** A process that has just opened its sidecar. *)
Inductive placement_initial : PlacementState → Prop :=
| placement_opened disk s :
    ps_open disk = Ok s → placement_initial (mkState s ∅ ∅).

(** ** The invariant *)

(** The placement the durable document gives a stream. *)
Definition current_placement_of (s : PlacementStore) (stream : string) : PlacementEpoch :=
  default bootstrap (ps_persisted s !! stream).

Definition leases_on (leases : gmap nat PlacementLease) (stream : string)
    : gmap nat PlacementLease := filter (λ kl, pl_stream kl.2 = stream) leases.

Definition valid_entry (stream : string) (p : PlacementEpoch) : Prop :=
  blank stream = false ∧ validate_epoch p = Ok tt.

Definition valid_document (m : gmap string PlacementEpoch) : Prop :=
  ∀ stream p, m !! stream = Some p → valid_entry stream p.

Definition sidecar_holds (disk : Sidecar) (m : gmap string PlacementEpoch) : Prop :=
  match disk with
  | SidecarMissing => m = ∅
  | SidecarBroken _ => False
  | SidecarDocument version streams => version = PLACEMENT_STATE_VERSION ∧ streams = m
  end.

(** The file holds the last document, or, after a write whose outcome is
    uncertain, possibly the one that was being written. *)
Definition sidecar_inv (s : PlacementStore) : Prop :=
  sidecar_holds (ps_sidecar s) (ps_persisted s)
  ∨ (ps_failed_closed s = true ∧ ∃ stream p,
       sidecar_holds (ps_sidecar s) (<[stream := p]> (ps_persisted s))
       ∧ valid_entry stream p
       ∧ pe_epoch (current_placement_of s stream) < pe_epoch p).

Record placement_inv (st : PlacementState) : Prop := {
  inv_gate stream g :
    ps_gates (st_store st) !! stream = Some g →
    g_placement g = current_placement_of (st_store st) stream;
  inv_admitted stream g :
    ps_gates (st_store st) !! stream = Some g →
    g_admitted g = N.of_nat (size (leases_on (st_leases st) stream));
  inv_bounded : N.of_nat (size (st_leases st)) ≤ usize_max;
  inv_lease id l :
    st_leases st !! id = Some l →
    is_Some (ps_gates (st_store st) !! pl_stream l)
    ∧ pl_placement l = current_placement_of (st_store st) (pl_stream l);
  inv_fence id stream requested :
    st_fences st !! id = Some (stream, requested) →
    valid_entry stream requested
    ∧ pe_epoch (current_placement_of (st_store st) stream) < pe_epoch requested
    ∧ ∃ g, ps_gates (st_store st) !! stream = Some g ∧ g_transitioning g = true;
  inv_owner id id' stream p p' :
    st_fences st !! id = Some (stream, p) → st_fences st !! id' = Some (stream, p') → id = id';
  inv_document : valid_document (ps_persisted (st_store st));
  inv_sidecar : sidecar_inv (st_store st);
}.

(** [later p q]: [q] is [p] or belongs to a higher epoch. *)
Definition later (p q : PlacementEpoch) : Prop := p = q ∨ pe_epoch p < pe_epoch q.

#[global] Instance later_preorder : PreOrder later.
Proof.
  split; [by left|]. intros p q r [->|Hpq] [->|Hqr]; [by left|by right|by right|right; lia].
Qed.

(** ** Leases of a stream *)

Lemma leases_on_insert leases id l stream :
  leases !! id = None →
  size (leases_on (<[id := l]> leases) stream)
  = ((if decide (pl_stream l = stream) then 1 else 0) + size (leases_on leases stream))%nat.
Proof.
  intros Hid. unfold leases_on. rewrite map_filter_insert. simpl. case_decide.
  - rewrite map_size_insert_None; [done|]. apply map_lookup_filter_None. by left.
  - by rewrite delete_id.
Qed.

Lemma leases_on_delete leases id l stream :
  leases !! id = Some l →
  (size (leases_on (delete id leases) stream)
   + (if decide (pl_stream l = stream) then 1 else 0))%nat = size (leases_on leases stream).
Proof.
  intros Hid. rewrite <- (insert_delete_id leases id l Hid) at 2.
  rewrite leases_on_insert by apply lookup_delete_eq. lia.
Qed.

Lemma leases_on_le leases stream : (size (leases_on leases stream) ≤ size leases)%nat.
Proof. apply map_subseteq_size, map_filter_subseteq. Qed.

(** ** Opening *)

Lemma sbtree_check {E} (f : string → PlacementEpoch → result E unit) m :
  try_fold (λ _ '(stream, p), f stream p) tt (sbtree_entries m) = Ok tt
  ↔ ∀ stream p, m !! stream = Some p → f stream p = Ok tt.
Proof.
  rewrite (try_fold_all (λ '(stream, p), f stream p)). split.
  - intros Hall stream p Hp. apply (Hall (stream, p)). by apply elem_of_sbtree_entries.
  - intros Hall [stream p] Hin. apply Hall. by apply elem_of_sbtree_entries in Hin.
Qed.

Lemma check_entry (e e' : PlacementError) stream p :
  (if blank stream then Err e else map_err (λ _, e') (validate_epoch p)) = Ok tt
  ↔ valid_entry stream p.
Proof.
  unfold valid_entry. destruct (blank stream); [split; [done|by intros []]|].
  rewrite map_err_Ok. naive_solver.
Qed.

Lemma check_document_Ok m : check_document m = Ok tt ↔ valid_document m.
Proof.
  unfold check_document. rewrite sbtree_check. by setoid_rewrite check_entry.
Qed.

Lemma check_legacy_Ok m : check_legacy m = Ok tt ↔ valid_document m.
Proof.
  unfold check_legacy. rewrite sbtree_check. by setoid_rewrite check_entry.
Qed.

(** Opening succeeds exactly on the files the store writes. *)
Lemma ps_open_Ok disk s :
  ps_open disk = Ok s ↔
  ∃ m, sidecar_holds disk m ∧ valid_document m ∧ s = from_persisted disk m.
Proof.
  unfold ps_open, read_state, read_state_optional. split.
  - intros Ho. next Ho. injection Ho as <-. next Hx. injection Hx as <-.
    destruct disk as [|reason|version streams]; simplify_eq/=.
    + exists ∅. by split_and!.
    + destruct (N.eqb_spec version PLACEMENT_STATE_VERSION); [|done]. simpl in Hx0.
      next Hx0. destruct x. injection Hx0 as <-. exists streams.
      split; [done|]. split; [by apply check_document_Ok|done].
  - intros (m & Hd & Hv & ->). destruct disk as [|reason|version streams]; simplify_eq/=.
    + done.
    + done.
    + destruct Hd as [-> ->]. simpl.
      rewrite (proj2 (check_document_Ok m) Hv). done.
Qed.

(** ** Steps preserve the invariant *)

Lemma placement_inv_initial st : placement_initial st → placement_inv st.
Proof.
  intros [disk s (m & Hd & Hv & ->)%ps_open_Ok]. split; simpl.
  - intros stream g Hg. by rewrite lookup_empty in Hg.
  - intros stream g Hg. by rewrite lookup_empty in Hg.
  - rewrite map_size_empty. done.
  - intros id l Hl. by rewrite lookup_empty in Hl.
  - intros id stream r Hr. by rewrite lookup_empty in Hr.
  - intros id id' stream p p' Hr. by rewrite lookup_empty in Hr.
  - done.
  - by left.
Qed.

Lemma gate_Ok s stream g s' :
  gate s stream = Ok (g, s') →
  blank stream = false ∧ ps_gates s' !! stream = Some g
  ∧ ps_persisted s' = ps_persisted s ∧ ps_failed_closed s' = ps_failed_closed s
  ∧ ps_sidecar s' = ps_sidecar s
  ∧ ((ps_gates s !! stream = Some g ∧ s' = s)
     ∨ (ps_gates s !! stream = None ∧ g = StreamGate_new (current_placement_of s stream)
        ∧ ps_gates s' = <[stream := g]> (ps_gates s))).
Proof.
  unfold gate. destruct (blank stream); [done|].
  destruct (ps_gates s !! stream) as [g'|] eqn:Hg; intros [= <- <-]; simpl.
  - split_and!; auto.
  - rewrite lookup_insert_eq. split_and!; auto.
Qed.

(** Replacing the gates and the leases, everything durable unchanged. *)
Lemma placement_inv_gate_update st s' leases' :
  placement_inv st →
  ps_persisted s' = ps_persisted (st_store st) →
  ps_failed_closed s' = ps_failed_closed (st_store st) →
  ps_sidecar s' = ps_sidecar (st_store st) →
  (∀ stream g, ps_gates s' !! stream = Some g →
     g_placement g = current_placement_of s' stream
     ∧ g_admitted g = N.of_nat (size (leases_on leases' stream))) →
  (∀ stream g, ps_gates (st_store st) !! stream = Some g →
     ∃ g', ps_gates s' !! stream = Some g' ∧ (g_transitioning g → g_transitioning g')) →
  N.of_nat (size leases') ≤ usize_max →
  (∀ id l, leases' !! id = Some l →
     is_Some (ps_gates s' !! pl_stream l)
     ∧ pl_placement l = current_placement_of s' (pl_stream l)) →
  placement_inv (mkState s' leases' (st_fences st)).
Proof.
  intros Hinv Hp Hf Hd Hg Hgs Hb Hl.
  assert (∀ stream, current_placement_of s' stream = current_placement_of (st_store st) stream)
    as Hcur by (intros; unfold current_placement_of; by rewrite Hp).
  split; simpl.
  - intros. by apply Hg.
  - intros. by apply Hg.
  - done.
  - done.
  - intros id stream r Hr. destruct (inv_fence _ Hinv _ _ _ Hr) as (? & ? & g & Hgg & Htr).
    rewrite Hcur. split_and!; [done|done|].
    destruct (Hgs _ _ Hgg) as (g' & ? & Htr'). exists g'. split; [done|].
    rewrite Htr in Htr'. by destruct (g_transitioning g'); [|destruct Htr'].
  - apply (inv_owner _ Hinv).
  - rewrite Hp. apply (inv_document _ Hinv).
  - unfold sidecar_inv. rewrite Hp, Hf, Hd. setoid_rewrite Hcur. apply (inv_sidecar _ Hinv).
Qed.

(** Looking a gate up, creating it if needed, preserves the invariant. *)
Lemma placement_inv_gate st stream g s' :
  placement_inv st → gate (st_store st) stream = Ok (g, s') →
  placement_inv (mkState s' (st_leases st) (st_fences st)).
Proof.
  intros Hinv (Hb & Hg & Hp & Hf & Hd & Hor)%gate_Ok.
  destruct Hor as [[Hold ->]|(Hnone & -> & Hgs)]; [by destruct st|].
  apply placement_inv_gate_update; try done.
  - intros stream' g'. rewrite Hgs, lookup_insert. unfold current_placement_of. rewrite Hp.
    case_decide as Heq.
    + intros [= <-]. subst stream'. split; [done|]. simpl.
      destruct (decide (leases_on (st_leases st) stream = ∅)) as [->|Hne]; [by rewrite map_size_empty|].
      apply map_choose in Hne as (id & l & Hl). apply map_lookup_filter_Some in Hl as [Hl Heq].
      simpl in Heq. apply (inv_lease _ Hinv) in Hl as [[? Hs] _]. rewrite Heq in Hs. congruence.
    + intros Hg'. split; [by apply (inv_gate _ Hinv)|by apply (inv_admitted _ Hinv)].
  - intros stream' g' Hg'. rewrite Hgs, lookup_insert. case_decide; [congruence|]. eauto.
  - apply (inv_bounded _ Hinv).
  - intros id l Hl. apply (inv_lease _ Hinv) in Hl as [Hs Hpl].
    unfold current_placement_of in *. rewrite Hp. split; [|done].
    rewrite Hgs, lookup_insert. case_decide; [by eexists|done].
Qed.

Lemma compare_admission_Ok p q : compare_admission p q = Ok tt ↔ q = p.
Proof.
  unfold compare_admission. destruct (N.compare_spec (pe_epoch q) (pe_epoch p)) as [He|He|He].
  - destruct (bool_decide_reflect (pe_route_digest q = pe_route_digest p)); split; try done.
    + intros _. by destruct p, q; simplify_eq/=.
    + by intros ->.
  - split; [done|]. intros ->. lia.
  - split; [done|]. intros ->. lia.
Qed.

(** What a successful admission did. *)
Lemma admit_gated_Ok s stream placement lease s' :
  admit_gated s stream placement = (Ok lease, s') ↔
  validate_epoch placement = Ok tt ∧ lease = mkLease stream placement
  ∧ ∃ g s1, gate s stream = Ok (g, s1) ∧ g_transitioning g = false ∧ g_placement g = placement
    ∧ s' = set_gate s1 stream (mkGate placement (saturating_add (g_admitted g) 1) false).
Proof.
  unfold admit_gated. split.
  - destruct (validate_epoch placement) as [[]|]; [|done].
    destruct (gate s stream) as [[g s1]|]; [|done].
    destruct (g_transitioning g) eqn:Ht; [done|].
    destruct (compare_admission _ _) as [[]|] eqn:Hc; [|done].
    apply compare_admission_Ok in Hc as ->. intros [= <- <-].
    split_and!; try done. exists g, s1. done.
  - intros (-> & -> & g & s1 & -> & Ht & <- & ->). rewrite Ht.
    by rewrite (proj2 (compare_admission_Ok _ _) eq_refl).
Qed.

Lemma admit_granted s stream placement g s1 :
  ps_failed_closed s = false → validate_epoch placement = Ok tt →
  gate s stream = Ok (g, s1) → g_transitioning g = false → g_placement g = placement →
  is_ok (admit_lease s stream placement).1 = true.
Proof.
  intros Hf ? ? ? ?. unfold admit_lease, ensure_healthy. rewrite Hf.
  erewrite (proj2 (admit_gated_Ok s stream placement _ _)); [done|].
  split; [done|]. split; [done|]. by exists g, s1.
Qed.

Lemma admit_gated_Err s stream placement e s' :
  admit_gated s stream placement = (Err e, s') → s' = s ∨ ∃ g, gate s stream = Ok (g, s').
Proof.
  unfold admit_gated.
  destruct (validate_epoch placement) as [[]|]; [|intros [= _ <-]; by left].
  destruct (gate s stream) as [[g s1]|] eqn:Hg; [|intros [= _ <-]; by left].
  intros H. right. exists g. case_result H; done.
Qed.

Lemma placement_inv_admit st id stream placement lease s' :
  placement_inv st → st_leases st !! id = None →
  N.of_nat (size (st_leases st)) < usize_max →
  admit_gated (st_store st) stream placement = (Ok lease, s') →
  placement_inv (mkState s' (<[id := lease]> (st_leases st)) (st_fences st)).
Proof.
  intros Hinv Hid Hb (Hv & -> & g & s1 & Hg & Ht & Hp & ->)%admit_gated_Ok.
  pose proof (placement_inv_gate _ _ _ _ Hinv Hg) as Hinv1.
  apply gate_Ok in Hg as (Hbl & Hg1 & Hper & Hfc & Hsd & _).
  change (st_fences st) with (st_fences (mkState s1 (st_leases st) (st_fences st))).
  apply placement_inv_gate_update; simpl; try done.
  - intros stream' g'. rewrite lookup_insert, leases_on_insert by done. simpl.
    unfold set_gate, current_placement_of; simpl. case_decide as Heq.
    + intros [= <-]. subst stream'. simpl.
      split; [rewrite <- Hp; apply (inv_gate _ Hinv1 _ _ Hg1)|].
      rewrite (inv_admitted _ Hinv1 _ _ Hg1). simpl. unfold saturating_add.
      pose proof (leases_on_le (st_leases st) stream). unfold usize_max in Hb. lia.
    + intros Hg'. split; [apply (inv_gate _ Hinv1 _ _ Hg')|apply (inv_admitted _ Hinv1 _ _ Hg')].
  - intros stream' g' Hg'. rewrite lookup_insert. case_decide as Heq; [|eauto].
    subst stream'. eexists. split; [done|]. simpl. simplify_eq. by rewrite Ht.
  - rewrite map_size_insert_None by done. lia.
  - intros id' l. rewrite !lookup_insert. case_decide as Heq.
    + intros [= <-]. simpl. rewrite decide_True by done. split; [by eexists|].
      rewrite <- Hp. apply (inv_gate _ Hinv1 _ _ Hg1).
    + intros Hl. apply (inv_lease _ Hinv1) in Hl as [? ?]. simpl in *.
      split; [by case_decide; [eexists|]|done].
Qed.

Lemma placement_inv_release st id lease :
  placement_inv st → st_leases st !! id = Some lease →
  placement_inv
    (mkState (release (st_store st) lease) (delete id (st_leases st)) (st_fences st)).
Proof.
  intros Hinv Hl. destruct (inv_lease _ Hinv _ _ Hl) as [[g Hg] Hp].
  unfold release. rewrite Hg. apply placement_inv_gate_update; simpl; try done.
  - intros stream' g'. rewrite lookup_insert.
    pose proof (leases_on_delete _ _ _ stream' Hl) as Hsize.
    unfold set_gate, current_placement_of; simpl. case_decide as Heq.
    + intros [= <-]. subst stream'. simpl. split; [by apply (inv_gate _ Hinv)|].
      rewrite (inv_admitted _ Hinv _ _ Hg). unfold saturating_sub. lia.
    + intros Hg'. split; [by apply (inv_gate _ Hinv)|].
      rewrite (inv_admitted _ Hinv _ _ Hg'). lia.
  - intros stream' g' Hg'. rewrite lookup_insert. case_decide as Heq; [|eauto].
    subst stream'. simplify_eq. eexists. by split.
  - pose proof (inv_bounded _ Hinv). rewrite map_size_delete_Some by (by eexists). lia.
  - intros id' l'. rewrite lookup_delete_Some. intros [_ Hl'].
    apply (inv_lease _ Hinv) in Hl' as [? ?]. split; [|done].
    rewrite lookup_insert. by case_decide; [eexists|].
Qed.

Lemma fence_gated_cases s stream requested e s' :
  fence_gated s stream requested = (e, s') →
  (e ≠ FenceDraining ∧ (s' = s ∨ ∃ g, gate s stream = Ok (g, s')))
  ∨ (e = FenceDraining ∧ validate_epoch requested = Ok tt
     ∧ ∃ g s1, gate s stream = Ok (g, s1) ∧ g_transitioning g = false
       ∧ pe_epoch (g_placement g) < pe_epoch requested
       ∧ s' = set_gate s1 stream (mkGate (g_placement g) (g_admitted g) true)).
Proof.
  unfold fence_gated.
  destruct (validate_epoch requested) as [[]|]; [|intros [= <- <-]; left; by split; [|left]].
  destruct (gate s stream) as [[g s1]|] eqn:Hg; [|intros [= <- <-]; left; by split; [|left]].
  destruct (g_transitioning g) eqn:Ht; [intros [= <- <-]; left; split; [done|right; eauto]|].
  destruct (N.compare_spec (pe_epoch requested) (pe_epoch (g_placement g))).
  - case_bool_decide; intros [= <- <-]; left; split; try done; right; eauto.
  - intros [= <- <-]; left; split; [done|right; eauto].
  - intros [= <- <-]. right. split_and!; try done. exists g, s1. done.
Qed.

Lemma placement_inv_fence_enter st id stream requested s' :
  placement_inv st → st_fences st !! id = None →
  fence_gated (st_store st) stream requested = (FenceDraining, s') →
  placement_inv (mkState s' (st_leases st) (<[id := (stream, requested)]> (st_fences st))).
Proof.
  intros Hinv Hid He. apply fence_gated_cases in He as [[? _]|(_ & Hv & g & s1 & Hg & Ht & Hlt & ->)];
    [done|].
  pose proof (placement_inv_gate _ _ _ _ Hinv Hg) as Hinv1.
  pose proof (gate_Ok _ _ _ _ Hg) as (Hbl & Hg1 & _).
  assert (placement_inv (mkState (set_gate s1 stream (mkGate (g_placement g) (g_admitted g) true))
            (st_leases st) (st_fences st))) as Hinv2.
  { change (st_fences st) with (st_fences (mkState s1 (st_leases st) (st_fences st))).
    apply placement_inv_gate_update; simpl; try done.
    - intros stream' g'. rewrite lookup_insert. unfold set_gate, current_placement_of; simpl.
      case_decide as Heq; [|by split; [apply (inv_gate _ Hinv1)|apply (inv_admitted _ Hinv1)]].
      intros [= <-]. subst stream'. simpl.
      split; [apply (inv_gate _ Hinv1 _ _ Hg1)|apply (inv_admitted _ Hinv1 _ _ Hg1)].
    - intros stream' g' Hg'. rewrite lookup_insert. case_decide; [by eexists|eauto].
    - apply (inv_bounded _ Hinv1).
    - intros id' l Hl. apply (inv_lease _ Hinv1) in Hl as [? ?]. split; [|done].
      rewrite lookup_insert. by case_decide; [eexists|]. }
  split; try apply Hinv2; simpl.
  - intros id' stream' r. rewrite lookup_insert. case_decide as Heq.
    + intros [= <- <-]. split; [by split|]. split.
      * rewrite (inv_gate _ Hinv1 _ _ Hg1) in Hlt. done.
      * eexists. rewrite lookup_insert_eq. by split.
    + intros Hr. apply (inv_fence _ Hinv2 _ _ _ Hr).
  - intros id1 id2 stream' p1 p2. rewrite !lookup_insert.
    assert (∀ id' p', st_fences st !! id' = Some (stream, p') → False) as Hno.
    { intros id' p' Hf'. apply (inv_fence _ Hinv1) in Hf' as (_ & _ & g' & Hg' & Ht').
      simpl in Hg'. rewrite Hg1 in Hg'. simplify_eq. congruence. }
    case_decide as H1; case_decide as H2; intros E1 E2; simplify_eq; try done.
    + exfalso. by eapply Hno.
    + exfalso. by eapply Hno.
    + by eapply (inv_owner _ Hinv1).
Qed.

(** What a publication did: it gave the fence up, or the durable document moved
    to the requested placement. *)
Lemma fence_publish_cases io s stream requested r s' :
  fence_publish io s stream requested = Some (r, s') →
  ∃ g, ps_gates s !! stream = Some g ∧ g_admitted g = 0 ∧
    ((∃ e close disk, r = Err e ∧ s' = fence_abandon s stream g close disk
        ∧ (disk = ps_sidecar s
           ∨ close = true ∧ ps_failed_closed s = false
             ∧ disk = SidecarDocument PLACEMENT_STATE_VERSION (<[stream := requested]> (ps_persisted s))))
     ∨ (r = Ok tt ∧ ps_failed_closed s = false
        ∧ s' = mkStore (<[stream := mkGate requested 0 false]> (ps_gates s))
                 (<[stream := requested]> (ps_persisted s)) false
                 (SidecarDocument PLACEMENT_STATE_VERSION (<[stream := requested]> (ps_persisted s))))).
Proof.
  unfold fence_publish. destruct (ps_gates s !! stream) as [g|]; [|done].
  destruct (N.eqb_spec (g_admitted g) 0) as [Ha|]; [|done]. simpl. intros [= H].
  exists g. split_and!; [done|done|]. revert H.
  destruct (ps_failed_closed s) eqn:Hf.
  { intros [= <- <-]. left. do 3 eexists. split_and!; [done|done|by left]. }
  case_match; [intros [= <- <-]; left; do 3 eexists; split_and!; [done|done|by left]|].
  destruct io as [|reason renamed]; simpl; intros [= <- <-].
  - right. by rewrite Ha.
  - left. do 3 eexists. split_and!; [done|done|]. destruct renamed; [by right|by left].
Qed.

(** The gate of a fence that ends no longer transitions; every other gate, lease
    and fence is as before. *)
Lemma placement_inv_publish st id stream requested s' g close disk :
  placement_inv st → st_fences st !! id = Some (stream, requested) →
  ps_gates (st_store st) !! stream = Some g →
  s' = fence_abandon (st_store st) stream g close disk →
  sidecar_inv s' →
  placement_inv (mkState s' (st_leases st) (delete id (st_fences st))).
Proof.
  intros Hinv Hid Hg -> Hsd. unfold fence_abandon in *. split; simpl; try apply Hinv; try done.
  - intros stream' g'. rewrite lookup_insert. case_decide as Heq.
    + intros [= <-]. subst. apply (inv_gate _ Hinv _ _ Hg).
    + apply (inv_gate _ Hinv).
  - intros stream' g'. rewrite lookup_insert. case_decide as Heq.
    + intros [= <-]. subst. apply (inv_admitted _ Hinv _ _ Hg).
    + apply (inv_admitted _ Hinv).
  - intros id' l Hl. apply (inv_lease _ Hinv) in Hl as [? ?]. split; [|done].
    rewrite lookup_insert. by case_decide; [eexists|].
  - intros id' stream' r. rewrite lookup_delete_Some. intros [Hne Hr].
    destruct (inv_fence _ Hinv _ _ _ Hr) as (? & ? & g' & Hg' & Ht).
    split; [done|]. split; [done|]. exists g'. rewrite lookup_insert_ne; [done|].
    intros ->. by apply Hne, (inv_owner _ Hinv _ _ _ _ _ Hid Hr).
  - intros id1 id2 stream' p1 p2. rewrite !lookup_delete_Some. intros [_ ?] [_ ?].
    by eapply (inv_owner _ Hinv).
Qed.

Lemma placement_inv_published st id stream requested g :
  placement_inv st → st_fences st !! id = Some (stream, requested) →
  ps_gates (st_store st) !! stream = Some g → g_admitted g = 0 →
  placement_inv (mkState
    (mkStore (<[stream := mkGate requested 0 false]> (ps_gates (st_store st)))
       (<[stream := requested]> (ps_persisted (st_store st))) false
       (SidecarDocument PLACEMENT_STATE_VERSION
          (<[stream := requested]> (ps_persisted (st_store st)))))
    (st_leases st) (delete id (st_fences st))).
Proof.
  intros Hinv Hid Hg Ha.
  assert (∀ id' l, st_leases st !! id' = Some l → pl_stream l ≠ stream) as Hnone.
  { intros id' l Hl Heq. pose proof (inv_admitted _ Hinv _ _ Hg) as Hs. rewrite Ha in Hs.
    assert (leases_on (st_leases st) stream !! id' = Some l) as Hin
      by (by apply map_lookup_filter_Some).
    rewrite (map_size_empty_inv (leases_on (st_leases st) stream)) in Hin by lia.
    by rewrite lookup_empty in Hin. }
  destruct (inv_fence _ Hinv _ _ _ Hid) as (Hve & _ & _).
  unfold current_placement_of in *. split; simpl; try apply Hinv.
  - intros stream' g'. unfold current_placement_of; simpl. rewrite !lookup_insert.
    case_decide; [by intros [= <-]|apply (inv_gate _ Hinv)].
  - intros stream' g'. rewrite lookup_insert. case_decide as Heq; [|apply (inv_admitted _ Hinv)].
    intros [= <-]. subst. rewrite <- (inv_admitted _ Hinv _ _ Hg). done.
  - intros id' l Hl. unfold current_placement_of; simpl. specialize (Hnone _ _ Hl).
    rewrite !lookup_insert_ne by done. by apply (inv_lease _ Hinv id').
  - intros id' stream' r. rewrite lookup_delete_Some. intros [Hne Hr].
    destruct (inv_fence _ Hinv _ _ _ Hr) as (? & ? & g' & Hg' & Ht).
    assert (stream' ≠ stream) as Hns
      by (intros ->; by apply Hne, (inv_owner _ Hinv _ _ _ _ _ Hid Hr)).
    unfold current_placement_of; simpl. rewrite !lookup_insert_ne by done.
    split; [done|]. split; [done|]. by exists g'.
  - intros id1 id2 stream' p1 p2. rewrite !lookup_delete_Some. intros [_ ?] [_ ?].
    by eapply (inv_owner _ Hinv).
  - intros stream' p'. rewrite lookup_insert. case_decide as Heq; [|apply (inv_document _ Hinv)].
    intros [= <-]. by subst.
  - by left.
Qed.

(** An abandoned fence leaves the sidecar as it was, or in doubt and the store
    closed. *)
Lemma fence_abandon_sidecar st id stream requested g close disk :
  placement_inv st → st_fences st !! id = Some (stream, requested) →
  (disk = ps_sidecar (st_store st)
   ∨ close = true ∧ ps_failed_closed (st_store st) = false
     ∧ disk = SidecarDocument PLACEMENT_STATE_VERSION
                (<[stream := requested]> (ps_persisted (st_store st)))) →
  sidecar_inv (fence_abandon (st_store st) stream g close disk).
Proof.
  intros Hinv Hid [->|(-> & Hf & ->)].
  - destruct (inv_sidecar _ Hinv) as [H|(Hf & H)]; [by left|].
    right. split; [by simpl; rewrite Hf|done].
  - right. simpl. split; [by rewrite orb_true_r|]. exists stream, requested.
    destruct (inv_fence _ Hinv _ _ _ Hid) as (Hv & Hlt & _). by split; [|split].
Qed.

Lemma placement_inv_fence_publish st id io stream requested r s' :
  placement_inv st → st_fences st !! id = Some (stream, requested) →
  fence_publish io (st_store st) stream requested = Some (r, s') →
  placement_inv (mkState s' (st_leases st) (delete id (st_fences st))).
Proof.
  intros Hinv Hid (g & Hg & Ha & [(e & close & disk & -> & -> & Hd)|(-> & Hf & ->)])%fence_publish_cases.
  - eapply (placement_inv_publish _ id _ requested); [done..|].
    by apply (fence_abandon_sidecar _ id _ requested).
  - by eapply placement_inv_published.
Qed.

Lemma placement_inv_step st st' :
  placement_step st st' → placement_inv st → placement_inv st'.
Proof.
  intros Hstep Hinv. inversion Hstep; subst; simpl.
  - by eapply placement_inv_admit.
  - apply admit_gated_Err in H as [->|[g Hg]]; [by destruct st|by eapply placement_inv_gate].
  - by eapply placement_inv_release.
  - by eapply placement_inv_fence_enter.
  - apply fence_gated_cases in H as [[_ [->|[g Hg]]]|(? & _)]; [by destruct st|..|done].
    by eapply placement_inv_gate.
  - by eapply placement_inv_fence_publish.
  - by apply placement_inv_initial; econstructor.
Qed.

Lemma placement_inv_steps st st' :
  rtc placement_step st st' → placement_inv st → placement_inv st'.
Proof. induction 1; eauto using placement_inv_step. Qed.

(** ** Monotonicity *)

(** The document a restart finds gives every stream a later placement than the
    one the process was serving. *)
Lemma sidecar_inv_later s m stream :
  sidecar_inv s → sidecar_holds (ps_sidecar s) m →
  later (current_placement_of s stream) (default bootstrap (m !! stream)).
Proof.
  assert (∀ d m1 m2, sidecar_holds d m1 → sidecar_holds d m2 → m1 = m2) as Hfun.
  { intros [| |] m1 m2; simpl; [congruence|done|]. by intros [_ <-] [_ <-]. }
  intros [Hs|(_ & stream' & p & Hs & _ & Hlt)] Hm;
    rewrite (Hfun _ _ _ Hm Hs); unfold current_placement_of in *; [done|].
  rewrite lookup_insert. case_decide; [|done]. subst. by right.
Qed.

Lemma gate_current s stream stream' g s' :
  gate s stream = Ok (g, s') → current_placement_of s' stream' = current_placement_of s stream'.
Proof. intros (_ & _ & Hp & _)%gate_Ok. unfold current_placement_of. by rewrite Hp. Qed.

Lemma placement_step_later st st' stream :
  placement_step st st' → placement_inv st →
  later (current_placement_of (st_store st) stream) (current_placement_of (st_store st') stream).
Proof.
  intros Hstep Hinv. inversion Hstep; subst; simpl.
  - apply admit_gated_Ok in H0 as (_ & _ & g & s1 & Hg & _ & _ & ->).
    rewrite <- (gate_current _ _ stream _ _ Hg). by left.
  - apply admit_gated_Err in H as [->|[g Hg]]; [done|]. by rewrite (gate_current _ _ stream _ _ Hg).
  - unfold release. by case_match.
  - apply fence_gated_cases in H0 as [[? _]|(_ & _ & g & s1 & Hg & _ & _ & ->)]; [done|].
    rewrite <- (gate_current _ _ stream _ _ Hg). by left.
  - apply fence_gated_cases in H as [[_ [->|[g Hg]]]|(? & _)]; [done|..|done].
    by rewrite (gate_current _ _ stream _ _ Hg).
  - apply fence_publish_cases in H0 as (g & Hg & _ & [(e & close & disk & -> & -> & _)|(_ & _ & ->)]);
      [by left|]. unfold current_placement_of; simpl. rewrite lookup_insert. case_decide; [|done].
    subst. right. by destruct (inv_fence _ Hinv _ _ _ H) as (_ & ? & _).
  - apply ps_open_Ok in H as (m & Hm & _ & ->). by apply sidecar_inv_later, Hm; apply Hinv.
Qed.

Lemma placement_steps_later st st' stream :
  rtc placement_step st st' → placement_inv st →
  later (current_placement_of (st_store st) stream) (current_placement_of (st_store st') stream).
Proof.
  induction 1 as [|st1 st2 st3 Hstep _ IH]; [done|]. intros Hinv.
  etrans; [by apply placement_step_later|]. apply IH. by eapply placement_inv_step.
Qed.

Lemma admit_current st stream placement lease s' :
  placement_inv st → admit_gated (st_store st) stream placement = (Ok lease, s') →
  placement = current_placement_of (st_store st) stream.
Proof.
  intros Hinv (_ & _ & g & s1 & Hg & _ & <- & _)%admit_gated_Ok.
  rewrite <- (gate_current _ _ stream _ _ Hg).
  pose proof (placement_inv_gate _ _ _ _ Hinv Hg) as Hinv1.
  apply gate_Ok in Hg as (_ & Hg & _). apply (inv_gate _ Hinv1 _ _ Hg).
Qed.

(** A placement below the current one is refused. *)
Lemma admit_stale st stream placement :
  placement_inv st →
  pe_epoch placement < pe_epoch (current_placement_of (st_store st) stream) →
  ∃ e, (admit_gated (st_store st) stream placement).1 = Err e.
Proof.
  intros Hinv Hlt. destruct (admit_gated _ _ _) as [[lease|e] s'] eqn:Ha; [|by eexists].
  apply admit_current in Ha; [subst; lia|done].
Qed.

(** The sidecar of a process can always be opened again. *)
Lemma sidecar_reopens st :
  placement_inv st → ∃ s, ps_open (ps_sidecar (st_store st)) = Ok s.
Proof.
  intros Hinv. destruct (inv_sidecar _ Hinv) as [Hs|(_ & stream & p & Hs & Hv & _)];
    eexists; apply ps_open_Ok; eexists; (split; [done|split; [|done]]).
  - apply (inv_document _ Hinv).
  - intros stream' p'. rewrite lookup_insert. case_decide as Heq; [|apply (inv_document _ Hinv)].
    intros [= <-]. by subst.
Qed.

(** ** Properties *)

(** whatever the interleaving of admissions, releases, fences and restarts,
    every live lease carries the placement the durable document gives its
    stream, so two live leases of one stream agree, and no fence of a stream
    publishes while one of its leases is alive. *)
Theorem live_leases_hold_current st0 st id lease :
  placement_initial st0 → rtc placement_step st0 st →
  st_leases st !! id = Some lease →
  pl_placement lease = current_placement_of (st_store st) (pl_stream lease)
  ∧ (∀ id' lease', st_leases st !! id' = Some lease' →
       pl_stream lease' = pl_stream lease → pl_placement lease' = pl_placement lease)
  ∧ (∀ io requested, fence_publish io (st_store st) (pl_stream lease) requested = None).
Proof.
  intros Hi Hr Hl.
  assert (placement_inv st) as Hinv by eauto using placement_inv_steps, placement_inv_initial.
  destruct (inv_lease _ Hinv _ _ Hl) as [[g Hg] Hp]. split_and!; [done|..].
  - intros id' lease' Hl' Heq. apply (inv_lease _ Hinv) in Hl' as [_ ->]. by rewrite Heq.
  - intros io requested. unfold fence_publish. rewrite Hg, (inv_admitted _ Hinv _ _ Hg).
    assert (leases_on (st_leases st) (pl_stream lease) !! id = Some lease) as Hin
      by (by apply map_lookup_filter_Some).
    destruct (N.eqb_spec (N.of_nat (size (leases_on (st_leases st) (pl_stream lease)))) 0)
      as [Hz|]; [|done].
    rewrite (map_size_empty_inv (leases_on (st_leases st) (pl_stream lease))) in Hin by lia.
    by rewrite lookup_empty in Hin.
Qed.

(** C6: no split brain: of two admissions of one stream, whatever happens
    between them, restarts and failed fences included, the second one presented
    the placement of the first or one of a higher epoch. *)
Theorem admissions_never_go_back st0 st1 st2 stream p1 p2 lease1 lease2 s1 s2 id :
  placement_initial st0 → rtc placement_step st0 st1 →
  admit_gated (st_store st1) stream p1 = (Ok lease1, s1) →
  st_leases st1 !! id = None → N.of_nat (size (st_leases st1)) < usize_max →
  rtc placement_step (mkState s1 (<[id := lease1]> (st_leases st1)) (st_fences st1)) st2 →
  admit_gated (st_store st2) stream p2 = (Ok lease2, s2) →
  later p1 p2.
Proof.
  intros Hi Hr1 Ha1 Hid Hb Hr2 Ha2.
  assert (placement_inv st1) as Hinv by eauto using placement_inv_steps, placement_inv_initial.
  assert (placement_step st1 (mkState s1 (<[id := lease1]> (st_leases st1)) (st_fences st1)))
    as Hstep by (by eapply step_admit).
  assert (rtc placement_step st1 st2) as Hr by (by eapply rtc_l).
  rewrite (admit_current _ _ _ _ _ Hinv Ha1).
  rewrite (admit_current st2 _ _ _ _ (placement_inv_steps _ _ Hr Hinv) Ha2).
  by apply placement_steps_later.
Qed.

(** C33: an acknowledged fence is final.  After [install_fence] returned success,
    in every later state the stream's placement is the requested one or one of a
    higher epoch, an admission with a lower epoch is refused, and the sidecar a
    crash would leave opens and still holds it. *)
Theorem acknowledged_fence_is_final st0 st id io stream requested s' st' :
  placement_initial st0 → rtc placement_step st0 st →
  st_fences st !! id = Some (stream, requested) →
  fence_publish io (st_store st) stream requested = Some (Ok tt, s') →
  rtc placement_step (mkState s' (st_leases st) (delete id (st_fences st))) st' →
  later requested (current_placement_of (st_store st') stream)
  ∧ (∀ placement, pe_epoch placement < pe_epoch requested →
       ∃ e, (admit_gated (st_store st') stream placement).1 = Err e)
  ∧ ∃ s'', ps_open (ps_sidecar (st_store st')) = Ok s''
      ∧ later requested (current_placement_of s'' stream).
Proof.
  intros Hi Hr Hid Hp Hr'.
  assert (placement_inv st) as Hinv by eauto using placement_inv_steps, placement_inv_initial.
  pose proof (placement_inv_fence_publish _ _ _ _ _ _ _ Hinv Hid Hp) as Hinv1.
  pose proof (placement_inv_steps _ _ Hr' Hinv1) as Hinv'.
  assert (later requested (current_placement_of (st_store st') stream)) as Hlater.
  { pose proof (placement_steps_later _ _ stream Hr' Hinv1) as Hl. simpl in Hl.
    apply fence_publish_cases in Hp as (g & _ & _ & [(? & ? & ? & ? & _)|(_ & _ & ->)]); [done|].
    unfold current_placement_of at 1 in Hl; simpl in Hl. by rewrite lookup_insert_eq in Hl. }
  split; [done|]. split.
  - intros placement Hlt. apply admit_stale; [done|]. destruct Hlater as [<-|]; [done|lia].
  - destruct (sidecar_reopens _ Hinv') as [s'' Ho]. exists s''. split; [done|].
    apply ps_open_Ok in Ho as (m & Hm & _ & ->). etrans; [done|].
    apply sidecar_inv_later, Hm. apply Hinv'.
Qed.

(** admission is exact: in every reachable state it is granted if and only if
    the store is healthy, the placement well formed, the stream named, no fence
    is in transition on it, and the presented placement is the current one,
    digest included. *)
Theorem admit_exactly_current st0 st stream placement :
  placement_initial st0 → rtc placement_step st0 st →
  is_ok (admit_lease (st_store st) stream placement).1 = true ↔
  ps_failed_closed (st_store st) = false ∧ validate_epoch placement = Ok tt
  ∧ is_transitioning (st_store st) stream = Ok false
  ∧ placement = current_placement_of (st_store st) stream.
Proof.
  intros Hi Hr.
  assert (placement_inv st) as Hinv by eauto using placement_inv_steps, placement_inv_initial.
  split.
  - unfold admit_lease, ensure_healthy. destruct (ps_failed_closed (st_store st)); [done|].
    destruct (admit_gated _ _ _) as [[lease|e] s'] eqn:Ha; [|done]. intros _.
    pose proof (admit_current _ _ _ _ _ Hinv Ha) as Hc.
    apply admit_gated_Ok in Ha as (Hv & _ & g & s1 & Hg & Ht & _).
    unfold is_transitioning. rewrite Hg. run. by rewrite Ht.
  - intros (Hf & Hv & Ht & Hc). unfold is_transitioning in Ht.
    destruct (gate (st_store st) stream) as [[g s1]|] eqn:Hg; [|done]. injection Ht as Ht.
    assert (g_placement g = placement) as Hp.
    { pose proof (placement_inv_gate _ _ _ _ Hinv Hg) as Hinv1. rewrite Hc.
      rewrite <- (gate_current _ _ stream _ _ Hg). apply gate_Ok in Hg as (_ & Hg & _).
      apply (inv_gate _ Hinv1 _ _ Hg). }
    by eapply admit_granted.
Qed.

(** C37: a fence makes progress: once the last admitted lease of its stream is
    released, a healthy store whose sidecar write succeeds publishes it, and the
    very next admission of the requested placement is granted. *)
Theorem drained_fence_publishes st0 st id stream requested :
  placement_initial st0 → rtc placement_step st0 st →
  st_fences st !! id = Some (stream, requested) →
  ps_failed_closed (st_store st) = false →
  leases_on (st_leases st) stream = ∅ →
  ∃ s', fence_publish PersistDone (st_store st) stream requested = Some (Ok tt, s')
    ∧ current_placement_of s' stream = requested
    ∧ is_ok (admit_lease s' stream requested).1 = true
    ∧ ps_open (ps_sidecar s') = Ok (from_persisted (ps_sidecar s') (ps_persisted s')).
Proof.
  intros Hi Hr Hid Hf Hnone.
  assert (placement_inv st) as Hinv by eauto using placement_inv_steps, placement_inv_initial.
  destruct (inv_fence _ Hinv _ _ _ Hid) as ((Hb & Hv) & Hlt & g & Hg & Ht).
  pose proof (inv_admitted _ Hinv _ _ Hg) as Ha. rewrite Hnone, map_size_empty in Ha.
  pose proof (placement_inv_published _ _ _ _ _ Hinv Hid Hg Ha) as Hinv'.
  eexists. split.
  { unfold fence_publish. rewrite Hg, Ha, Hf. simpl.
    pose proof (inv_gate _ Hinv _ _ Hg) as Hgp. unfold current_placement_of in Hgp.
    destruct (ps_persisted (st_store st) !! stream) as [p|]; [|done].
    simpl in Hgp. by rewrite bool_decide_true. }
  unfold current_placement_of; simpl. rewrite lookup_insert_eq. split; [done|]. split.
  - eapply (admit_granted _ _ _ (mkGate requested 0 false)); [done|done| |done|done].
    unfold gate; simpl. by rewrite Hb, lookup_insert_eq.
  - apply ps_open_Ok. eexists. split; [done|]. split; [|done]. apply (inv_document _ Hinv').
Qed.

(** the one-shot adoption of legacy routes: it succeeds only on well-formed
    routes, an existing document is never overwritten, and after a success a
    repetition, whatever its input, leaves the same document in place and
    succeeds only for the same routes. *)
Theorem bootstrap_legacy_once io disk legacy s disk' :
  bootstrap_legacy io disk legacy = (Ok s, disk') →
  ps_persisted s = legacy ∧ valid_document legacy
  ∧ (disk = SidecarMissing ∨ disk' = disk)
  ∧ ps_open disk' = Ok s
  ∧ ∀ io' legacy',
      (bootstrap_legacy io' disk' legacy').2 = disk'
      ∧ (is_ok (bootstrap_legacy io' disk' legacy').1 = true → legacy' = legacy).
Proof.
  unfold bootstrap_legacy at 1. destruct (check_legacy legacy) as [[]|] eqn:Hl; [|done].
  apply check_legacy_Ok in Hl. intros H.
  assert (∃ v, disk' = SidecarDocument v legacy ∧ v = PLACEMENT_STATE_VERSION
    ∧ s = from_persisted disk' legacy ∧ (disk = SidecarMissing ∨ disk' = disk))
    as (v & -> & -> & -> & Hd).
  { destruct disk as [|reason|version streams]; simpl in H.
    - destruct io; simplify_eq/=. eexists. split_and!; [done..|by left].
    - done.
    - destruct (N.eqb_spec version PLACEMENT_STATE_VERSION) as [->|]; [|done]. simpl in H.
      destruct (check_document streams) as [[]|]; [|done]. simpl in H.
      case_bool_decide; simplify_eq/=. eexists. split_and!; [done..|by right]. }
  split; [done|]. split; [done|]. split; [done|]. split.
  { apply ps_open_Ok. exists legacy. by split. }
  intros io' legacy'. unfold bootstrap_legacy, read_state_optional.
  destruct (check_legacy legacy') as [[]|]; [|by split]. simpl.
  rewrite (proj2 (check_document_Ok legacy)) by done. run.
  by case_bool_decide; split.
Qed.

(** ** Witnesses

    Stream "s": a first lease at the bootstrap placement, a fence to epoch 1
    that waits for it, its release, the publication, an admission at epoch 1. *)

Definition p_one : PlacementEpoch := mkPlacementEpoch 1 "d1".

Definition w_open : PlacementState := mkState (from_persisted SidecarMissing ∅) ∅ ∅.
Definition w_leased : PlacementState :=
  mkState (admit_lease (st_store w_open) "s" bootstrap).2 {[0%nat := mkLease "s" bootstrap]} ∅.
Definition w_draining : PlacementState :=
  mkState (fence_enter (st_store w_leased) "s" p_one).2 (st_leases w_leased)
    {[0%nat := ("s", p_one)]}.
Definition w_drained : PlacementState :=
  mkState (release (st_store w_draining) (mkLease "s" bootstrap)) ∅ (st_fences w_draining).
Definition w_published : PlacementState :=
  mkState (default (st_store w_drained)
    (snd <$> fence_publish PersistDone (st_store w_drained) "s" p_one)) ∅ ∅.

Lemma w_open_initial : placement_initial w_open.
Proof. by apply (placement_opened SidecarMissing). Qed.

Lemma w_leased_reached : placement_step w_open w_leased.
Proof.
  apply (step_admit w_open 0 "s" bootstrap (mkLease "s" bootstrap)); by vm_compute.
Qed.

Lemma w_draining_reached : placement_step w_leased w_draining.
Proof. apply (step_fence_enter w_leased 0 "s" p_one); by vm_compute. Qed.

Lemma w_drained_reached : placement_step w_draining w_drained.
Proof. apply (step_release w_draining 0 (mkLease "s" bootstrap)). by vm_compute. Qed.

Lemma w_published_reached : placement_step w_drained w_published.
Proof.
  apply (step_fence_publish w_drained 0 PersistDone "s" p_one (Ok tt)); by vm_compute.
Qed.

#[local] Hint Resolve w_leased_reached w_draining_reached w_drained_reached
  w_published_reached : wal.

Lemma w_drained_run : rtc placement_step w_leased w_drained.
Proof. do 2 (eapply rtc_l; [eauto with wal|]). done. Qed.

Lemma w_full_run : rtc placement_step w_leased w_published.
Proof. eapply rtc_r; [apply w_drained_run|eauto with wal]. Qed.

Lemma live_leases_hold_current_witness :
  fence_publish PersistDone (st_store w_draining) "s" p_one = None.
Proof.
  refine (proj2 (proj2 (live_leases_hold_current w_open w_draining 0 (mkLease "s" bootstrap)
    w_open_initial _ _)) PersistDone p_one).
  - do 2 (eapply rtc_l; [eauto with wal|]). done.
  - by vm_compute.
Defined.

Lemma admissions_never_go_back_witness : later bootstrap p_one.
Proof.
  eapply (admissions_never_go_back w_open w_open w_published "s" bootstrap p_one
    (mkLease "s" bootstrap) (mkLease "s" p_one) (st_store w_leased) _ 0);
    [apply w_open_initial|done|by vm_compute|by vm_compute|by vm_compute| |by vm_compute].
  apply w_full_run.
Defined.

Lemma acknowledged_fence_is_final_witness :
  ∃ e, (admit_gated (st_store w_published) "s" bootstrap).1 = Err e.
Proof.
  refine (proj1 (proj2 (acknowledged_fence_is_final w_open w_drained 0 PersistDone "s" p_one
    (st_store w_published) w_published w_open_initial _ _ _ _)) bootstrap _).
  - eapply rtc_l; [eauto with wal|apply w_drained_run].
  - by vm_compute.
  - by vm_compute.
  - done.
  - by vm_compute.
Defined.

Lemma admit_exactly_current_witness :
  is_ok (admit_lease (st_store w_published) "s" p_one).1 = true.
Proof.
  refine (proj2 (admit_exactly_current w_open w_published "s" p_one w_open_initial _) _).
  - eapply rtc_l; [eauto with wal|apply w_full_run].
  - split_and!; by vm_compute.
Defined.

Lemma drained_fence_publishes_witness :
  ∃ s', fence_publish PersistDone (st_store w_drained) "s" p_one = Some (Ok tt, s')
    ∧ current_placement_of s' "s" = p_one.
Proof.
  destruct (drained_fence_publishes w_open w_drained 0 "s" p_one) as (s' & Hp & Hc & _);
    [apply w_open_initial| |by vm_compute..|by exists s'].
  eapply rtc_l; [eauto with wal|apply w_drained_run].
Defined.

Lemma bootstrap_legacy_once_witness :
  ps_open (SidecarDocument PLACEMENT_STATE_VERSION {["s" := p_one]})
  = Ok (from_persisted (SidecarDocument PLACEMENT_STATE_VERSION {["s" := p_one]}) {["s" := p_one]}).
Proof.
  refine (proj1 (proj2 (proj2 (proj2 (bootstrap_legacy_once PersistDone SidecarMissing
    {["s" := p_one]} _ _ _))))).
  by vm_compute.
Defined.
