(* ===== verification/Manifest.v ===== *)
(** * Manifest: members, cohorts and the immutable routing ranges

    The control document of [crates/walleye-bitr-server/src/lib.rs]
    ([DurableControlState]), the routing manifest it holds, and the functions
    that validate a manifest and a transition between two of them.  A route is
    the range of a stream that owns an LSN.

    SHA-256 with its hexadecimal printing, the JSON text of a range map, and the
    URL parser are parameters ([ManifestHost]). *)

From S2P Require Import Prelude Text Wire.

Definition CONTROL_STATE_VERSION : N := 1.
Definition MANIFEST_VERSION : N := 1.
Definition REPLICATION_FACTOR : N := 3.
Definition ACK_QUORUM : N := 2.

(** ** Data *)

Record ReplicaNode := mkNode { rn_id : string; rn_url : string }.

Inductive MemberStatus := MJoining | MActive | MDraining | MRemoved.

#[global] Instance MemberStatus_eq_dec : EqDecision MemberStatus.
Proof. solve_decision. Defined.

Record DurableMember := mkMember {
  dm_id : string;
  dm_url : string;
  dm_status : MemberStatus;
  dm_cohort_id : N;
  dm_name : string;
  dm_machine_id : string;
  dm_volume_id : string;
  dm_ordinal : N;
  dm_tier : string;
  dm_max_append_bytes : N;
}.

#[global] Instance DurableMember_eq_dec : EqDecision DurableMember.
Proof. solve_decision. Defined.

Inductive CohortStatus := CJoining | CActive | CDraining | CRetired.

#[global] Instance CohortStatus_eq_dec : EqDecision CohortStatus.
Proof. solve_decision. Defined.

Record DurableCohort := mkCohort {
  dc_id : N;
  dc_members : list string;
  dc_status : CohortStatus;
  dc_tier : string;
  dc_max_append_bytes : N;
}.

#[global] Instance DurableCohort_eq_dec : EqDecision DurableCohort.
Proof. solve_decision. Defined.

Record StreamSegment := mkSegment {
  sg_start_lsn : N;
  sg_end_lsn : option N;
  sg_cohort_id : N;
  sg_member_ids : list string;
  sg_member_hash : string;
  sg_writer_epoch : N;
  sg_manifest_revision : N;
  sg_placement_epoch : N;
  sg_operation_id : string;
  sg_tier : string;
  sg_max_append_bytes : N;
}.

#[global] Instance StreamSegment_eq_dec : EqDecision StreamSegment.
Proof. solve_decision. Defined.

Abbreviation segment_map := (gmap string (list StreamSegment)).

Record ReplicaManifest := mkManifest {
  rm_version : N;
  rm_revision : N;
  rm_digest : string;
  rm_writer_epoch : N;
  rm_cohort_id : N;
  rm_member_set_hash : string;
  rm_write_cohort_id : N;
  rm_stream_segments : segment_map;
  rm_operation_id : string;
  rm_tier : string;
  rm_max_append_bytes : N;
}.

#[global] Instance ReplicaManifest_eq_dec : EqDecision ReplicaManifest.
Proof. solve_decision. Defined.

Record ControlSourceMarker := mkSource {
  cs_authority : string;
  cs_authority_epoch : N;
  cs_revision : N;
  cs_digest : string;
}.

#[global] Instance ControlSourceMarker_eq_dec : EqDecision ControlSourceMarker.
Proof. solve_decision. Defined.

Record MetadataFreeze := mkFreeze {
  mf_operation_id : string;
  mf_source : ControlSourceMarker;
  mf_target_authority_epoch : N;
  mf_control_cohort_id : N;
}.

#[global] Instance MetadataFreeze_eq_dec : EqDecision MetadataFreeze.
Proof. solve_decision. Defined.

Record DurableControlState := mkControlState {
  ct_version : N;
  ct_membership_epoch : N;
  ct_manifest_revision : N;
  ct_manifest_digest : string;
  ct_manifest_operation_id : string;
  ct_manifest_writer_epoch : N;
  ct_manifest_cohort_id : N;
  ct_manifest_member_hash : string;
  ct_write_cohort_id : N;
  ct_control_authority_epoch : N;
  ct_control_head_revision : N;
  ct_control_head_digest : string;
  ct_control_authority_cohort_id : N;
  ct_metadata_freeze : option MetadataFreeze;
  ct_placement_initialized : bool;
  ct_members : gmap string DurableMember;
  ct_operations : gmap string string;
  ct_manifest_operations : gmap string string;
  ct_cohorts : gmap N DurableCohort;
  ct_stream_segments : segment_map;
}.

#[global] Instance DurableControlState_eq_dec : EqDecision DurableControlState.
Proof. solve_decision. Defined.

(** What the routing code calls outside this repository. *)
Class ManifestHost := {
  sha256_hex : list byte → string;
  segments_json : segment_map → list byte;
  (** [Url::parse]: the scheme, and whether there is a host *)
  url_parse : string → option (string * bool);
}.

(** Iteration over a [BTreeMap] with integer keys. *)
Definition nbtree_entries {V} (m : gmap N V) : list (N * V) := sort_by_key fst (map_to_list m).
Definition nbtree_values {V} (m : gmap N V) : list V := (nbtree_entries m).*2.

Section Manifest.
Context `{ManifestHost}.

(** ** Digests *)

Definition manifest_digest (segments : segment_map) : string :=
  sha256_hex (as_bytes "lakeday-cloud/replica-manifest/v1" ++ [x00] ++ segments_json segments).

(** The loop over the ids of [member_set_hash]; [None] is its early return. *)
Fixpoint member_identities (state : DurableControlState) (member_ids : list string)
    : option (list byte) :=
  match member_ids with
  | [] => Some []
  | id :: rest =>
    member ← ct_members state !! id;
    tail ← member_identities state rest;
    Some (as_bytes (dm_id member) ++ [x00] ++ as_bytes (dm_url member) ++ [x00] ++ tail)
  end.

Definition member_set_hash (state : DurableControlState) (member_ids : list string)
    : option string :=
  (λ ids, sha256_hex (as_bytes "lakeday-cloud/cohort-members/v1" ++ [x00] ++ ids))
    <$> member_identities state member_ids.

Definition cohort_member_hash (state : DurableControlState) (cohort_id : N) : option string :=
  cohort ← ct_cohorts state !! cohort_id;
  member_set_hash state (dc_members cohort).

(** ** Ranges *)

Definition covers (lsn : N) (segment : StreamSegment) : bool :=
  (sg_start_lsn segment <=? lsn)
  && match sg_end_lsn segment with None => true | Some end_lsn => lsn <=? end_lsn end.

Definition find_segment (segments : segment_map) (stream : string) (lsn : N)
    : option StreamSegment :=
  ranges ← segments !! stream; snd <$> list_find (λ s, covers lsn s = true) ranges.

Definition manifest_route (manifest : ReplicaManifest) (stream : string) (lsn : N)
    : option StreamSegment := find_segment (rm_stream_segments manifest) stream lsn.

(** [DurableControl::stream_segment]. *)
Definition stream_segment (state : DurableControlState) (stream : string) (lsn : N)
    : option StreamSegment := find_segment (ct_stream_segments state) stream lsn.

(** [windows(2).any(|w| w[0] >= w[1])]: the ids are not strictly increasing. *)
Definition unordered_ids (ids : list string) : bool :=
  existsb (λ '(a, b), str_geb a b) (windows2 ids).

Definition end_before_start (segment : StreamSegment) : bool :=
  match sg_end_lsn segment with Some e => e <? sg_start_lsn segment | None => false end.

Definition is_none {A} (o : option A) : bool := match o with None => true | Some _ => false end.

(** [validate_stream_segments]: the loop over one stream's ranges, [expected]
    being the first LSN not covered yet. *)
Fixpoint validate_ranges (expected : N) (segments : list StreamSegment)
    : result ReplicaError unit :=
  match segments with
  | [] => Ok tt
  | segment :: rest =>
    if negb (sg_start_lsn segment =? expected)
       || end_before_start segment
       || (is_none (sg_end_lsn segment) && negb (bool_decide (rest = [])))
       || unordered_ids (sg_member_ids segment)
    then Err (Protocol "placement manifest stream ranges are not contiguous")
    else if bool_decide (sg_member_ids segment = [])
       || bool_decide (sg_member_hash segment = "")
       || (sg_manifest_revision segment =? 0)
       || blank (sg_operation_id segment)
    then Err (Protocol "placement manifest stream range is missing its member binding")
    else if negb (len (sg_member_ids segment) =? REPLICATION_FACTOR)
    then Err (Protocol "placement manifest stream range must have exactly three members")
    else match sg_end_lsn segment with
    | Some end_lsn =>
      expected ← ok_or (checked_add end_lsn 1) (Protocol "placement manifest LSN range exhausted");
      validate_ranges expected rest
    | None => Ok tt
    end
  end.

Definition validate_stream_entry (stream : string) (segments : list StreamSegment)
    : result ReplicaError unit :=
  if blank stream || bool_decide (segments = []) then
    Err (Protocol "placement manifest contains an invalid stream range map")
  else validate_ranges 1 segments.

Definition validate_stream_segments (stream_segments : segment_map) : result ReplicaError unit :=
  try_fold (λ _ '(stream, segments), validate_stream_entry stream segments)
    tt (sbtree_entries stream_segments).

(** [ReplicaManifest::validate]. *)
Definition validate_manifest (m : ReplicaManifest) : result ReplicaError unit :=
  if negb (rm_version m =? MANIFEST_VERSION) then
    Err (Protocol "unsupported replica placement manifest version")
  else if rm_revision m =? 0 then
    if negb (bool_decide (rm_operation_id m = ""))
       || negb (bool_decide (rm_stream_segments m = ∅))
       || negb (rm_writer_epoch m =? 0)
       || negb (rm_cohort_id m =? 0)
       || negb (bool_decide (rm_member_set_hash m = ""))
       || negb (rm_write_cohort_id m =? 0)
       || negb (bool_decide (rm_tier m = ""))
       || negb (rm_max_append_bytes m =? 0)
    then Err (Protocol "non-empty placement manifest has zero revision") else Ok tt
  else if blank (rm_operation_id m) then
    Err (Protocol "placement manifest operation_id must not be empty")
  else if bool_decide (rm_member_set_hash m = "") then
    Err (Protocol "placement manifest is missing its member-set hash")
  else if negb (bool_decide (rm_digest m = manifest_digest (rm_stream_segments m))) then
    Err (Protocol "placement manifest digest does not match its ranges")
  else validate_stream_segments (rm_stream_segments m).

(** ** Ranges against the members of the document *)

(** The checks of [validate_manifest_segments] on a range that names its
    members. *)
Definition validate_binding (state : DurableControlState) (manifest_revision : N)
    (segment : StreamSegment) : result ReplicaError unit :=
  if negb (bool_decide (sg_member_ids segment = [])) then
    if unordered_ids (sg_member_ids segment)
       || negb (len (sg_member_ids segment) =? REPLICATION_FACTOR)
       || match ct_cohorts state !! sg_cohort_id segment with
          | None => true
          | Some cohort => negb (bool_decide (dc_members cohort = sg_member_ids segment))
          end
       || bool_decide (sg_member_hash segment = "")
       || ((0 <? manifest_revision)
           && ((sg_manifest_revision segment =? 0) || blank (sg_operation_id segment)))
    then Err LsnConflict
    else if negb (bool_decide (sg_member_hash segment = ""))
       && negb (bool_decide (cohort_member_hash state (sg_cohort_id segment)
                             = Some (sg_member_hash segment)))
    then Err LsnConflict
    else
      cohort ← ok_or (ct_cohorts state !! sg_cohort_id segment) LsnConflict;
      if (negb (bool_decide (sg_tier segment = "")) && negb (bool_decide (dc_tier cohort = ""))
          && negb (bool_decide (sg_tier segment = dc_tier cohort)))
         || (negb (sg_max_append_bytes segment =? 0) && negb (dc_max_append_bytes cohort =? 0)
             && negb (sg_max_append_bytes segment =? dc_max_append_bytes cohort))
      then Err LsnConflict else Ok tt
  else if 0 <? manifest_revision then Err LsnConflict else Ok tt.

(** The inner loop of [validate_manifest_segments]; [first] is [index == 0]. *)
Fixpoint validate_segment_list (state : DurableControlState) (manifest_revision : N)
    (first : bool) (previous_end : N) (segments : list StreamSegment)
    : result ReplicaError unit :=
  match segments with
  | [] => Ok tt
  | segment :: rest =>
    if (sg_start_lsn segment =? 0)
       || end_before_start segment
       || (sg_start_lsn segment <=? previous_end)
       || (first && negb (sg_start_lsn segment =? 1))
       || (is_none (sg_end_lsn segment) && negb (bool_decide (rest = [])))
       || negb (bool_decide (is_Some (ct_cohorts state !! sg_cohort_id segment)))
    then Err (NodeStorage "direct stream segment map is unordered or references an unknown cohort")
    else if manifest_revision <? sg_manifest_revision segment then Err LsnConflict
    else
      _ ← validate_binding state manifest_revision segment;
      validate_segment_list state manifest_revision false
        (default u64_max (sg_end_lsn segment)) rest
  end.

Definition validate_manifest_segments (state : DurableControlState)
    (stream_segments : segment_map) (manifest_revision : N) : result ReplicaError unit :=
  try_fold (λ _ '(stream, segments),
    if blank stream then Err (NodeStorage "stream segment map contains an empty stream")
    else validate_segment_list state manifest_revision true 0 segments)
    tt (sbtree_entries stream_segments).

(** ** Transitions *)

Definition is_open (segment : StreamSegment) : bool := is_none (sg_end_lsn segment).

Definition trailing_open (segments : list StreamSegment) : bool :=
  match last segments with Some segment => is_open segment | None => false end.

(** [same_identity]. *)
Definition same_identity (old new : StreamSegment) : bool :=
  (sg_start_lsn old =? sg_start_lsn new)
  && (sg_cohort_id old =? sg_cohort_id new)
  && (bool_decide (sg_member_ids old = []) || bool_decide (sg_member_ids old = sg_member_ids new))
  && (bool_decide (sg_member_hash old = "") || bool_decide (sg_member_hash old = sg_member_hash new))
  && ((sg_writer_epoch old =? 0) || (sg_writer_epoch old =? sg_writer_epoch new))
  && (bool_decide (sg_operation_id old = "")
      || bool_decide (sg_operation_id old = sg_operation_id new))
  && (bool_decide (sg_tier old = "") || bool_decide (sg_tier old = sg_tier new))
  && ((sg_max_append_bytes old =? 0) || (sg_max_append_bytes old =? sg_max_append_bytes new)).

(** One iteration over [retained]. *)
Definition retained_range (new_segments : list StreamSegment) (index : nat) (old : StreamSegment)
    : result ReplicaError unit :=
  match new_segments !! index with
  | None => Err LsnConflict
  | Some new =>
    if negb (same_identity old new) then Err LsnConflict
    else match sg_end_lsn old with
    | Some e => if negb (bool_decide (sg_end_lsn new = Some e)) then Err LsnConflict else Ok tt
    | None =>
      if negb (is_open new) && (length new_segments <=? index + 1)%nat
      then Err LsnConflict else Ok tt
    end
  end.

(** One iteration over the streams of [previous]. *)
Definition transition_stream (next : segment_map) (stream : string)
    (old_segments : list StreamSegment) : result ReplicaError unit :=
  let trailing := trailing_open old_segments in
  match next !! stream with
  | None => if trailing && (length old_segments =? 1)%nat then Ok tt else Err LsnConflict
  | Some new_segments =>
    let retained :=
      if trailing && (length new_segments + 1 =? length old_segments)%nat
      then take (length old_segments - 1) old_segments else old_segments in
    if (length new_segments <? length retained)%nat then Err LsnConflict
    else try_fold (λ _ '(index, old), retained_range new_segments index old)
           tt (enumerate retained)
  end.

Definition validate_manifest_transition (previous next : segment_map)
    : result ReplicaError unit :=
  try_fold (λ _ '(stream, old_segments), transition_stream next stream old_segments)
    tt (sbtree_entries previous).

(** The end at which [next] closes the range [old] of [previous], if it does. *)
Definition closed_at (new_segments : list StreamSegment) (index : nat) (old : StreamSegment)
    : option N :=
  match new_segments !! index with
  | Some new => sg_end_lsn new
  | None => Some (saturating_sub (sg_start_lsn old) 1)
  end.

Definition cutover_stream (new_segments : list StreamSegment) (closed_tail : option N)
    (entry : nat * StreamSegment) : result ReplicaError (option N) :=
  let '(index, old) := entry in
  if negb (is_open old) then Ok closed_tail
  else match closed_at new_segments index old with
  | None => Ok closed_tail
  | Some end_lsn => if is_none closed_tail then Ok (Some end_lsn) else Err LsnConflict
  end.

Definition validate_manifest_cutover (previous next : segment_map) (cutover_lsn : option N)
    : result ReplicaError unit :=
  closed_tail ← try_fold (λ closed_tail '(stream, old_segments),
      try_fold (cutover_stream (default [] (next !! stream))) closed_tail (enumerate old_segments))
    None (sbtree_entries previous);
  if negb (bool_decide (closed_tail = cutover_lsn)) then Err LsnConflict else Ok tt.

(** ** Ordered ranges *)

Lemma covers_spec lsn s :
  covers lsn s = true ↔
  sg_start_lsn s ≤ lsn ∧ (∀ e, sg_end_lsn s = Some e → lsn ≤ e).
Proof.
  unfold covers. rewrite andb_true_iff, N.leb_le. destruct (sg_end_lsn s).
  - rewrite N.leb_le. naive_solver.
  - naive_solver.
Qed.

(** What one range of a checked list satisfies. *)
Lemma validate_segment_list_cons st revision first previous s rest :
  validate_segment_list st revision first previous (s :: rest) = Ok tt →
  previous < sg_start_lsn s
  ∧ (∀ e, sg_end_lsn s = Some e → sg_start_lsn s ≤ e)
  ∧ (sg_end_lsn s = None → rest = [])
  ∧ validate_segment_list st revision false (default u64_max (sg_end_lsn s)) rest = Ok tt.
Proof.
  cbn [validate_segment_list]. intros Hv.
  destruct (_ || _) eqn:E in Hv; [done|].
  destruct (revision <? _); [done|]. next Hv. destruct x.
  bool_facts. unfold end_before_start in *. split_and!; try done.
  - intros e He. rewrite He in *. by apply N.ltb_ge.
  - intros He. rewrite He in *. simpl in *.
    match goal with H : _ ∨ _ |- _ => destruct H as [?|H]; [done|] end. by bool_facts.
Qed.

Lemma validate_segment_list_above st revision first previous segs s :
  validate_segment_list st revision first previous segs = Ok tt →
  s ∈ segs → previous < sg_start_lsn s.
Proof.
  revert first previous. induction segs as [|s' rest IH]; intros first previous Hv Hs;
    [by apply not_elem_of_nil in Hs|].
  apply validate_segment_list_cons in Hv as (Hlt & Hle & Hopen & Hrest).
  apply elem_of_cons in Hs as [->|Hs]; [done|].
  specialize (IH _ _ Hrest Hs). destruct (sg_end_lsn s') as [e|] eqn:He; simpl in IH.
  - specialize (Hle e eq_refl). lia.
  - rewrite (Hopen eq_refl) in Hs. by apply not_elem_of_nil in Hs.
Qed.

(** A checked list never covers one LSN twice. *)
Lemma validate_segment_list_disjoint st revision first previous segs i j s t lsn :
  validate_segment_list st revision first previous segs = Ok tt →
  segs !! i = Some s → segs !! j = Some t →
  covers lsn s = true → covers lsn t = true → i = j.
Proof.
  assert (∀ st revision first previous s rest t j,
    validate_segment_list st revision first previous (s :: rest) = Ok tt →
    rest !! j = Some t → covers lsn s = true → covers lsn t = true → False) as Hhead.
  { clear. intros st revision first previous s rest t j Hv Hj
      [Hs1 Hs2]%covers_spec [Ht1 Ht2]%covers_spec.
    apply validate_segment_list_cons in Hv as (_ & _ & Hopen & Hrest).
    apply list_elem_of_lookup_2 in Hj.
    pose proof (validate_segment_list_above _ _ _ _ _ _ Hrest Hj) as Habove.
    destruct (sg_end_lsn s) as [e|]; simpl in Habove.
    - specialize (Hs2 e eq_refl). lia.
    - rewrite (Hopen eq_refl) in Hj. by apply not_elem_of_nil in Hj. }
  revert first previous i j. induction segs as [|x rest IH]; intros first previous i j Hv; [done|].
  destruct i as [|i], j as [|j]; simpl; intros Hi Hj Hs Ht; simplify_eq; try done.
  - exfalso. by eapply Hhead.
  - exfalso. by eapply Hhead.
  - f_equal. eapply IH; [|done..].
    by apply validate_segment_list_cons in Hv as (_ & _ & _ & ?).
Qed.

Lemma validate_manifest_segments_stream st segments revision stream ranges :
  validate_manifest_segments st segments revision = Ok tt →
  segments !! stream = Some ranges →
  blank stream = false ∧ validate_segment_list st revision true 0 ranges = Ok tt.
Proof.
  unfold validate_manifest_segments.
  rewrite (try_fold_all (λ '(stream, segments), if blank stream then _ else _)).
  intros Hall Hr. specialize (Hall (stream, ranges)). simpl in Hall.
  destruct (blank stream); [|split; [done|]]; by
    (specialize (Hall (proj2 (elem_of_sbtree_entries _ _ _) Hr))).
Qed.

Lemma find_segment_Some segments stream lsn s :
  find_segment segments stream lsn = Some s →
  ∃ ranges i, segments !! stream = Some ranges ∧ ranges !! i = Some s ∧ covers lsn s = true.
Proof.
  unfold find_segment. intros (ranges & Hr & Hf)%bind_Some.
  apply fmap_Some in Hf as ([i s'] & Hf & ->). apply list_find_Some in Hf as (Hi & Hc & _).
  by exists ranges, i.
Qed.

(** In a checked map, a range that covers an LSN is the one found for it. *)
Lemma find_segment_unique st segments revision stream ranges lsn i s :
  validate_manifest_segments st segments revision = Ok tt →
  segments !! stream = Some ranges → ranges !! i = Some s → covers lsn s = true →
  find_segment segments stream lsn = Some s.
Proof.
  intros Hv Hr Hi Hc. destruct (validate_manifest_segments_stream _ _ _ _ _ Hv Hr) as [_ Hl].
  unfold find_segment. rewrite Hr. simpl.
  destruct (list_find (λ s, covers lsn s = true) ranges) as [[j t]|] eqn:Hf; simpl.
  - apply list_find_Some in Hf as (Hj & Ht & _).
    assert (i = j) as -> by (by eapply validate_segment_list_disjoint). congruence.
  - apply list_find_None in Hf. rewrite Forall_lookup in Hf. by destruct (Hf _ _ Hi).
Qed.

(** ** Transitions and cutovers *)

Lemma same_identity_spec old new :
  same_identity old new = true →
  sg_start_lsn old = sg_start_lsn new ∧ sg_cohort_id old = sg_cohort_id new
  ∧ (sg_member_ids old = [] ∨ sg_member_ids old = sg_member_ids new)
  ∧ (sg_member_hash old = "" ∨ sg_member_hash old = sg_member_hash new).
Proof.
  unfold same_identity. rewrite !andb_true_iff, !orb_true_iff, !bool_decide_eq_true, !N.eqb_eq.
  naive_solver.
Qed.

Lemma cutover_stream_Some news acc entry r :
  cutover_stream news acc entry = Ok r → (∃ e, acc = Some e) → r = acc.
Proof.
  unfold cutover_stream. intros Hc [e ->]. destruct entry as [index old].
  destruct (is_open old); simpl in Hc; [|by injection Hc as <-].
  by destruct (closed_at news index old); simplify_eq/=.
Qed.

Lemma cutover_fold_Some news acc entries r :
  try_fold (cutover_stream news) acc entries = Ok r → (∃ e, acc = Some e) → r = acc.
Proof.
  revert acc. induction entries as [|entry rest IH]; intros acc Hf Ha; [by injection Hf as <-|].
  cbn [try_fold] in Hf. next Hf. apply cutover_stream_Some in Hx as ->; [|done]. by apply IH.
Qed.

Lemma cutover_fold_closed news acc entries r index old e :
  try_fold (cutover_stream news) acc entries = Ok r →
  (index, old) ∈ entries → sg_end_lsn old = None → closed_at news index old = Some e →
  r = Some e.
Proof.
  intros Hf Hin Ho Hc. revert acc Hf. induction entries as [|entry rest IH]; intros acc Hf;
    [by apply not_elem_of_nil in Hin|].
  cbn [try_fold] in Hf. next Hf. apply elem_of_cons in Hin as [<-|Hin]; [|by eapply IH].
  unfold cutover_stream, is_open in Hx. rewrite Ho, Hc in Hx. simpl in Hx.
  destruct acc; simplify_eq/=. apply cutover_fold_Some in Hf; [done|by eexists].
Qed.

(** A range the next map closes is closed at the declared cutover. *)
Lemma validate_manifest_cutover_closed previous next cutover stream ranges index old e :
  validate_manifest_cutover previous next cutover = Ok tt →
  previous !! stream = Some ranges → ranges !! index = Some old → sg_end_lsn old = None →
  closed_at (default [] (next !! stream)) index old = Some e →
  cutover = Some e.
Proof.
  unfold validate_manifest_cutover. intros Hv Hr Hi Ho Hc. next Hv.
  assert (x = cutover) as <- by (by destruct (bool_decide_reflect (x = cutover))). clear Hv.
  apply elem_of_sbtree_entries in Hr.
  set (step := λ closed_tail '(stream, old_segments), _) in Hx.
  assert (∀ acc entries r, try_fold step acc entries = Ok r → (∃ e, acc = Some e) → r = acc) as Hkeep.
  { intros acc entries. revert acc. induction entries as [|[k l] rest IH]; intros acc r Hf Ha;
      [by injection Hf as <-|].
    cbn [try_fold] in Hf. next Hf. unfold step in Hx0.
    apply cutover_fold_Some in Hx0 as ->; [|done]. by eapply IH. }
  revert Hx. generalize (@None N) as acc. induction (sbtree_entries previous) as [|[k l] rest IH];
    intros acc Hf; [by apply not_elem_of_nil in Hr|].
  cbn [try_fold] in Hf. next Hf. apply elem_of_cons in Hr as [[= <- <-]|Hr]; [|by eapply IH].
  unfold step in Hx. eapply cutover_fold_closed in Hx; [|by apply elem_of_enumerate|done|done].
  subst. apply Hkeep in Hf; [done|by eexists].
Qed.

(** What a transition keeps of one range of the previous map: the range itself,
    or, for a trailing open range, nothing. *)
Lemma validate_manifest_transition_range previous next stream ranges index old :
  validate_manifest_transition previous next = Ok tt →
  previous !! stream = Some ranges → ranges !! index = Some old →
  (∃ news new, next !! stream = Some news ∧ news !! index = Some new
     ∧ same_identity old new = true ∧ (∀ e, sg_end_lsn old = Some e → sg_end_lsn new = Some e))
  ∨ (sg_end_lsn old = None ∧ default [] (next !! stream) !! index = None).
Proof.
  unfold validate_manifest_transition. intros Hv Hr Hi.
  rewrite (try_fold_all (λ '((stream, olds) : string * list StreamSegment), transition_stream next stream olds)) in Hv.
  specialize (Hv (stream, ranges) (proj2 (elem_of_sbtree_entries _ _ _) Hr)).
  unfold transition_stream in Hv.
  assert (trailing_open ranges = true → S index = length ranges → sg_end_lsn old = None) as Hlast.
  { intros Ht Hlen. unfold trailing_open in Ht. rewrite last_lookup, <- Hlen in Ht. simpl in Ht.
    rewrite Hi in Ht. unfold is_open in Ht. by destruct (sg_end_lsn old). }
  pose proof (lookup_lt_Some _ _ _ Hi) as Hlt.
  destruct (next !! stream) as [news|] eqn:Hn.
  2: { right. destruct (trailing_open ranges && _) eqn:E in Hv; [|done].
       apply andb_true_iff in E as [? E%Nat.eqb_eq]. split; [apply Hlast; [done|lia]|done]. }
  destruct (length news <? _)%nat eqn:Hlen in Hv; [done|]. apply Nat.ltb_ge in Hlen.
  rewrite (try_fold_all (λ '((index, old) : nat * StreamSegment), retained_range news index old)) in Hv.
  set (retained := if trailing_open ranges && _ then take _ ranges else ranges) in *.
  destruct (retained !! index) as [old'|] eqn:Hre.
  - assert (old' = old) as ->.
    { unfold retained in Hre. case_match; [|congruence].
      rewrite lookup_take in Hre. case_decide; congruence. }
    left. specialize (Hv _ (proj2 (elem_of_enumerate _ _ _) Hre)). simpl in Hv.
    unfold retained_range in Hv. destruct (news !! index) as [new|] eqn:Hni; [|done].
    destruct (same_identity old new) eqn:Hid; [|done]. simpl in Hv.
    exists news, new. split_and!; try done.
    intros e He. rewrite He in Hv. by case_bool_decide.
  - right. unfold retained in Hre. destruct (trailing_open ranges && _) eqn:E; [|congruence].
    apply andb_true_iff in E as [Ht E%Nat.eqb_eq]. apply lookup_ge_None in Hre.
    rewrite length_take in Hre. split; [apply Hlast; [done|lia]|].
    simpl. apply lookup_ge_None. lia.
Qed.

(** ** Contiguous ranges *)

Lemma validate_ranges_cons expected s rest :
  validate_ranges expected (s :: rest) = Ok tt →
  sg_start_lsn s = expected
  ∧ (∀ e, sg_end_lsn s = Some e →
       expected ≤ e ∧ e + 1 ≤ u64_max ∧ validate_ranges (e + 1) rest = Ok tt)
  ∧ (sg_end_lsn s = None → rest = [])
  ∧ len (sg_member_ids s) = REPLICATION_FACTOR.
Proof.
  cbn [validate_ranges]. intros Hv.
  destruct (_ || _) eqn:E1 in Hv; [done|]. destruct (_ || _) eqn:E2 in Hv; [done|].
  destruct (N.eqb_spec (len (sg_member_ids s)) REPLICATION_FACTOR) as [Hlen|]; [|done].
  simpl in Hv. apply orb_false_iff in E1 as [[[E1 Eb]%orb_false_iff Eo]%orb_false_iff _].
  apply negb_false_iff, N.eqb_eq in E1. unfold end_before_start in Eb.
  split; [done|]. split; [|split; [|done]].
  - intros e He. rewrite He in *. apply N.ltb_ge in Eb. next Hv.
    apply ok_or_Ok, checked_add_Some in Hx as [-> ?]. split_and!; [lia|done|done].
  - intros He. rewrite He in *. simpl in Eo. by destruct (bool_decide_reflect (rest = [])).
Qed.

(** The ranges of one stream cover, exactly once, every LSN from [expected] up to
    the end of the last one. *)
Lemma validate_ranges_cover expected segs lsn :
  validate_ranges expected segs = Ok tt → expected ≤ lsn →
  (∀ s e, last segs = Some s → sg_end_lsn s = Some e → lsn ≤ e) → segs ≠ [] →
  ∃ i s, segs !! i = Some s ∧ covers lsn s = true ∧ len (sg_member_ids s) = REPLICATION_FACTOR.
Proof.
  revert expected. induction segs as [|s rest IH]; intros expected Hv Hle Hlast Hne; [done|].
  apply validate_ranges_cons in Hv as (Hs & Hend & Hopen & Hlen).
  destruct (covers lsn s) eqn:Hc; [by exists 0%nat, s|].
  destruct (sg_end_lsn s) as [e|] eqn:He.
  2: { exfalso. assert (covers lsn s = true) as Hc'; [|congruence]. apply covers_spec.
       rewrite He. split; [lia|done]. }
  destruct (Hend e eq_refl) as (_ & _ & Hrest).
  assert (e < lsn) as Hgt.
  { destruct (N.lt_ge_cases e lsn) as [|Hge]; [done|]. exfalso.
    assert (covers lsn s = true) as Hc'; [|congruence]. apply covers_spec.
    rewrite He. split; [lia|]. by intros e' [= <-]. }
  destruct rest as [|s' rest'].
  { specialize (Hlast s e eq_refl He). lia. }
  destruct (IH (e + 1)) as (i & t & Hi & Ht & Htl); [done|lia|done|done|].
  exists (S i), t. done.
Qed.

Lemma validate_ranges_members expected segs s :
  validate_ranges expected segs = Ok tt → s ∈ segs → len (sg_member_ids s) = REPLICATION_FACTOR.
Proof.
  revert expected. induction segs as [|s' rest IH]; intros expected Hv Hin;
    [by apply not_elem_of_nil in Hin|].
  apply validate_ranges_cons in Hv as (_ & Hend & Hopen & Hlen).
  apply elem_of_cons in Hin as [->|Hin]; [done|].
  destruct (sg_end_lsn s') as [e|]; [|by rewrite (Hopen eq_refl) in Hin; apply not_elem_of_nil in Hin].
  destruct (Hend e eq_refl) as (_ & _ & Hrest). by eapply IH.
Qed.

Lemma validate_ranges_above expected segs s :
  validate_ranges expected segs = Ok tt → s ∈ segs → expected ≤ sg_start_lsn s.
Proof.
  revert expected. induction segs as [|s' rest IH]; intros expected Hv Hin;
    [by apply not_elem_of_nil in Hin|].
  apply validate_ranges_cons in Hv as (Hs & Hend & Hopen & _).
  apply elem_of_cons in Hin as [->|Hin]; [lia|].
  destruct (sg_end_lsn s') as [e|]; [|by rewrite (Hopen eq_refl) in Hin; apply not_elem_of_nil in Hin].
  destruct (Hend e eq_refl) as (? & _ & Hrest). specialize (IH _ Hrest Hin). lia.
Qed.

Lemma validate_stream_segments_stream segments stream ranges :
  validate_stream_segments segments = Ok tt → segments !! stream = Some ranges →
  ranges ≠ [] ∧ validate_ranges 1 ranges = Ok tt.
Proof.
  unfold validate_stream_segments.
  rewrite (try_fold_all (λ '((stream, segs) : string * list StreamSegment),
    validate_stream_entry stream segs)).
  intros Hall Hr. specialize (Hall (stream, ranges) (proj2 (elem_of_sbtree_entries _ _ _) Hr)).
  unfold validate_stream_entry in Hall. destruct (blank stream || _) eqn:E in Hall; [done|].
  apply orb_false_iff in E as [_ E%bool_decide_eq_false]. done.
Qed.

(** ** Properties *)

(** in a range map the control document accepts, no LSN of a stream belongs
    to two ranges: the route found for an LSN is the only one, whatever the
    order of the search. *)
Theorem routes_are_unique st segments revision stream ranges i j s t lsn :
  validate_manifest_segments st segments revision = Ok tt →
  segments !! stream = Some ranges → ranges !! i = Some s → ranges !! j = Some t →
  covers lsn s = true → covers lsn t = true →
  i = j ∧ find_segment segments stream lsn = Some s.
Proof.
  intros Hv Hr Hi Hj Hs Ht. split.
  - destruct (validate_manifest_segments_stream _ _ _ _ _ Hv Hr).
    by eapply validate_segment_list_disjoint.
  - by eapply find_segment_unique.
Qed.

(** C27: history is immutable: when a transition and its cutover proof are
    accepted, every LSN that had a route keeps it, with the same start, cohort
    and members, unless its range was open and the LSN lies beyond the declared
    cutover watermark. *)
Theorem transition_keeps_history st st' previous next revision revision' cutover stream lsn old :
  validate_manifest_segments st previous revision = Ok tt →
  validate_manifest_segments st' next revision' = Ok tt →
  validate_manifest_transition previous next = Ok tt →
  validate_manifest_cutover previous next cutover = Ok tt →
  find_segment previous stream lsn = Some old →
  (∃ new, find_segment next stream lsn = Some new
     ∧ sg_start_lsn old = sg_start_lsn new ∧ sg_cohort_id old = sg_cohort_id new
     ∧ (sg_member_ids old = [] ∨ sg_member_ids old = sg_member_ids new)
     ∧ (sg_member_hash old = "" ∨ sg_member_hash old = sg_member_hash new))
  ∨ (sg_end_lsn old = None ∧ ∃ c, cutover = Some c ∧ c < lsn).
Proof.
  intros Hv Hv' Ht Hc (ranges & i & Hr & Hi & Hcov)%find_segment_Some.
  pose proof (proj1 (covers_spec _ _) Hcov) as [Hstart Hend].
  destruct (validate_manifest_transition_range _ _ _ _ _ _ Ht Hr Hi)
    as [(news & new & Hn & Hni & Hid & Hkeep)|[Hopen Hgone]].
  - destruct (same_identity_spec _ _ Hid) as (Hs & ? & ? & ?).
    destruct (covers lsn new) eqn:Hcn.
    { left. exists new. split_and!; try done. by eapply find_segment_unique. }
    destruct (sg_end_lsn new) as [e|] eqn:Hne.
    2: { exfalso. assert (covers lsn new = true); [|congruence].
         apply covers_spec. rewrite Hne. by split; [lia|]. }
    destruct (N.le_gt_cases lsn e) as [Hle|Hgt].
    { exfalso. assert (covers lsn new = true); [|congruence].
      apply covers_spec. rewrite Hne. split; [lia|]. by intros ? [= <-]. }
    right. destruct (sg_end_lsn old) as [eo|] eqn:Hoe.
    { specialize (Hkeep eo eq_refl). specialize (Hend eo eq_refl). simplify_eq. lia. }
    split; [done|]. exists e. split; [|done].
    eapply validate_manifest_cutover_closed; [done..|].
    unfold closed_at. by rewrite Hn; simpl; rewrite Hni.
  - right. split; [done|]. exists (saturating_sub (sg_start_lsn old) 1). split.
    + eapply validate_manifest_cutover_closed; [done..|]. unfold closed_at. by rewrite Hgone.
    + destruct (validate_manifest_segments_stream _ _ _ _ _ Hv Hr) as [_ Hl].
      apply list_elem_of_lookup_2 in Hi.
      pose proof (validate_segment_list_above _ _ _ _ _ _ Hl Hi). unfold saturating_sub. lia.
Qed.

(** a manifest that passes its own validation routes without holes: every LSN
    of a listed stream from 1 to the end of its last range, or to infinity when
    that range is open, has a route of exactly three members, and LSN 0 has
    none. *)
Theorem valid_manifest_routes_all m stream ranges lsn :
  validate_manifest m = Ok tt → rm_stream_segments m !! stream = Some ranges →
  (∀ s e, last ranges = Some s → sg_end_lsn s = Some e → lsn ≤ e) →
  (1 ≤ lsn → ∃ route, manifest_route m stream lsn = Some route
     ∧ len (sg_member_ids route) = REPLICATION_FACTOR)
  ∧ (lsn = 0 → manifest_route m stream lsn = None).
Proof.
  intros Hv Hr Hlast.
  assert (validate_stream_segments (rm_stream_segments m) = Ok tt) as Hsegs.
  { unfold validate_manifest in Hv. destruct (negb (rm_version m =? _)); [done|].
    destruct (rm_revision m =? 0).
    - destruct (_ || _) eqn:E in Hv; [done|].
      rewrite !orb_false_iff, !negb_false_iff, !bool_decide_eq_true in E.
      destruct E as (((((((_ & E) & _) & _) & _) & _) & _) & _).
      rewrite E in Hr. by rewrite lookup_empty in Hr.
    - by repeat case_match. }
  destruct (validate_stream_segments_stream _ _ _ Hsegs Hr) as [Hne Hvr].
  unfold manifest_route, find_segment. rewrite Hr. simpl. split.
  - intros Hle. destruct (validate_ranges_cover 1 ranges lsn) as (i & s & Hi & Hc & Hlen); [done..|].
    destruct (list_find (λ s, covers lsn s = true) ranges) as [[j t]|] eqn:Hf; simpl.
    + exists t. split; [done|]. apply list_find_Some in Hf as (Hj & _ & _).
      apply list_elem_of_lookup_2 in Hj. by eapply validate_ranges_members.
    + apply list_find_None in Hf. rewrite Forall_lookup in Hf. by destruct (Hf _ _ Hi).
  - intros ->. destruct (list_find _ ranges) as [[j t]|] eqn:Hf; [|done].
    apply list_find_Some in Hf as (Hj & [Hs _]%covers_spec & _).
    apply list_elem_of_lookup_2 in Hj.
    pose proof (validate_ranges_above _ _ _ Hvr Hj). lia.
Qed.

End Manifest.

(** ** Witnesses

    One cohort of three members, one stream with an open range, and its cutover
    at LSN 5. *)

#[local] Instance toy_host : ManifestHost := {|
  sha256_hex := String.string_of_list_byte;
  segments_json _ := [];
  url_parse _ := Some ("http", true);
|}.

Definition w_ids : list string := ["a"; "b"; "c"].

Definition w_member (id : string) : DurableMember :=
  mkMember id ("http://" +:+ id) MActive 0 "" "" "" 0 "" 0.

Definition w_state : DurableControlState :=
  mkControlState 1 1 1 "" "op" 1 0 "" 0 1 0 "" 0 None true
    (list_to_map ((λ id, (id, w_member id)) <$> w_ids)) ∅ ∅
    {[0 := mkCohort 0 w_ids CActive "" 0]} ∅.

Definition w_segment (start_lsn : N) (end_lsn : option N) : StreamSegment :=
  mkSegment start_lsn end_lsn 0 w_ids (default "" (cohort_member_hash w_state 0)) 1 1 1 "op" "" 0.

Definition w_before : segment_map := {["s" := [w_segment 1 None]]}.
Definition w_after : segment_map := {["s" := [w_segment 1 (Some 5); w_segment 6 None]]}.
Definition w_gapped : segment_map := {["s" := [w_segment 1 (Some 5); w_segment 9 None]]}.

Definition w_manifest : ReplicaManifest :=
  mkManifest 1 1 (manifest_digest w_after) 1 0 "hash" 0 w_after "op" "" 0.

Lemma routes_are_unique_witness : find_segment w_after "s" 7 = Some (w_segment 6 None).
Proof.
  refine (proj2 (routes_are_unique w_state w_after 1 "s" [w_segment 1 (Some 5); w_segment 6 None]
    1 1 (w_segment 6 None) (w_segment 6 None) 7 _ _ _ _ _ _)); by vm_compute.
Defined.

Lemma transition_keeps_history_witness :
  ∃ new, find_segment w_after "s" 3 = Some new ∧ sg_cohort_id new = 0.
Proof.
  destruct (transition_keeps_history w_state w_state w_before w_after 1 1 (Some 5) "s" 3
    (w_segment 1 None)) as [(new & Hf & _ & Hc & _)|(_ & c & [= <-] & Hlt)];
    [by vm_compute..|by exists new|by vm_compute in Hlt].
Defined.

Lemma valid_manifest_routes_all_witness :
  ∃ route, manifest_route w_manifest "s" 12 = Some route ∧ len (sg_member_ids route) = 3.
Proof.
  refine (proj1 (valid_manifest_routes_all w_manifest "s" [w_segment 1 (Some 5); w_segment 6 None]
    12 _ _ _) _); [by vm_compute..| |by vm_compute].
  by intros s e [= <-].
Defined.

(** adjacency is not checked where a transition is accepted: a cutover that
    closes a range at LSN 5 and opens the next one at LSN 9 passes the range, the
    transition and the cutover checks, leaves LSN 6 without a route, and is
    refused by the validation every later read of the manifest makes. *)
Theorem gapped_cutover_is_accepted :
  validate_manifest_segments w_state w_gapped 1 = Ok tt
  ∧ validate_manifest_transition w_before w_gapped = Ok tt
  ∧ validate_manifest_cutover w_before w_gapped (Some 5) = Ok tt
  ∧ is_Some (find_segment w_before "s" 6)
  ∧ find_segment w_gapped "s" 6 = None
  ∧ validate_stream_segments w_gapped
    = Err (Protocol "placement manifest stream ranges are not contiguous").
Proof. vm_compute. repeat split; eauto. Qed.
