(* ===== verification/Cohorts.v ===== *)
(** * Cohorts: rendezvous placement of streams

    [cohort_for_stream] of [crates/walleye-bitr-server/src/lib.rs] and the tokens
    derived from a route.  A stream goes to the complete active cohort with the
    highest digest-based score, so a change of the cohorts moves only the streams
    whose winner it touches.  SHA-256 is a parameter. *)

From S2P Require Import Prelude Text Wire Client Placement Manifest.

(** The digest as its 32 bytes. *)
Class RingHost := {
  sha256 : list byte → list byte;
  hex_encode : list byte → string;
}.

Definition from_be_bytes (bs : list byte) : N := from_le_bytes (rev bs).

Section Cohorts.
Context `{RingHost}.

Definition cohort_ring_score (stream : string) (cohort_id : N) : N :=
  let digest := sha256 (as_bytes "lakeday-cloud/cohort-ring/v1/rendezvous" ++ [x00]
                        ++ as_bytes stream ++ [x00] ++ to_le_bytes 8 cohort_id) in
  from_be_bytes (take 16 digest).

(** The filter of [cohort_for_stream_excluding]. *)
Definition placeable (state : DurableControlState) (exclude : option N) (cohort : DurableCohort)
    : bool :=
  negb (bool_decide (exclude = Some (dc_id cohort)))
  && bool_decide (dc_status cohort = CActive)
  && (len (dc_members cohort) =? REPLICATION_FACTOR)
  && forallb (λ id, match ct_members state !! id with
                    | Some member => bool_decide (dm_status member = MActive)
                    | None => false
                    end) (dc_members cohort).

(** The comparison of the [max_by]: [x] is not below [y]. *)
Definition ring_ge (stream : string) (x y : DurableCohort) : bool :=
  let sx := cohort_ring_score stream (dc_id x) in
  let sy := cohort_ring_score stream (dc_id y) in
  if sx =? sy then dc_id y <=? dc_id x else sy <? sx.

Definition cohort_for_stream_excluding (state : DurableControlState) (stream : string)
    (exclude : option N) : result ReplicaError N :=
  ok_or (dc_id <$> max_by (ring_ge stream)
           (filter (λ cohort, placeable state exclude cohort = true)
              (nbtree_values (ct_cohorts state)))) QuorumUnavailable.

Definition cohort_for_stream (state : DurableControlState) (stream : string)
    : result ReplicaError N := cohort_for_stream_excluding state stream None.

(** The part of a placement token's digest that names the route. *)
Definition route_digest_tail (route : StreamSegment) : list byte :=
  to_le_bytes 8 (sg_start_lsn route) ++ to_le_bytes 8 (sg_cohort_id route)
  ++ to_le_bytes 8 (sg_writer_epoch route)
  ++ concat ((λ member, as_bytes member ++ [x00]) <$> sg_member_ids route).

Definition placement_for_route (stream : string) (route : StreamSegment) : PlacementEpoch :=
  let digest := sha256 (as_bytes "lakeday-cloud/stream-placement/v1" ++ [x00]
                        ++ as_bytes stream ++ [x00] ++ route_digest_tail route) in
  mkPlacementEpoch (if sg_placement_epoch route =? 0 then N.max (sg_manifest_revision route) 1
               else sg_placement_epoch route) (hex_encode digest).

Definition placement_for_transition (stream : string) (route : StreamSegment)
    (operation_id : string) (epoch : N) : PlacementEpoch :=
  let digest := sha256 (as_bytes "lakeday-cloud/stream-placement-transition/v1" ++ [x00]
                        ++ as_bytes stream ++ [x00] ++ as_bytes operation_id ++ [x00]
                        ++ route_digest_tail route) in
  mkPlacementEpoch (N.max epoch 1) (hex_encode digest).

Lemma elem_of_nbtree_values {V} (m : gmap N V) v : v ∈ nbtree_values m ↔ ∃ k, m !! k = Some v.
Proof.
  unfold nbtree_values, nbtree_entries. rewrite list_elem_of_fmap.
  setoid_rewrite sort_by_key_Permutation. split.
  - intros ([k ?] & -> & Hk%elem_of_map_to_list). eauto.
  - intros [k Hk]. exists (k, v). by rewrite elem_of_map_to_list.
Qed.

Lemma ring_ge_total stream x y : ring_ge stream x y = true ∨ ring_ge stream y x = true.
Proof.
  unfold ring_ge. rewrite (N.eqb_sym (cohort_ring_score stream (dc_id y))).
  destruct (N.eqb_spec (cohort_ring_score stream (dc_id x)) (cohort_ring_score stream (dc_id y))).
  - rewrite !N.leb_le. lia.
  - rewrite !N.ltb_lt. lia.
Qed.

Lemma ring_ge_spec stream x y : ring_ge stream x y = true ↔
  cohort_ring_score stream (dc_id y) < cohort_ring_score stream (dc_id x) ∨
  cohort_ring_score stream (dc_id x) = cohort_ring_score stream (dc_id y) ∧ dc_id y ≤ dc_id x.
Proof.
  unfold ring_ge. case_match; bool_facts; rewrite ?N.leb_le, ?N.ltb_lt; lia.
Qed.

Lemma ring_ge_trans stream x y z :
  ring_ge stream x y = true → ring_ge stream y z = true → ring_ge stream x z = true.
Proof. rewrite !ring_ge_spec. lia. Qed.

(** A cohort that the map keys by its id and that the filter accepts. *)
Definition placeable_id (state : DurableControlState) (exclude : option N) (id : N) : Prop :=
  ∃ cohort, ct_cohorts state !! id = Some cohort ∧ placeable state exclude cohort = true.

Definition cohorts_keyed (state : DurableControlState) : Prop :=
  ∀ id cohort, ct_cohorts state !! id = Some cohort → dc_id cohort = id.

(** The choice is the placeable cohort of the highest score. *)
Lemma cohort_for_stream_excluding_spec state stream exclude :
  cohorts_keyed state →
  match cohort_for_stream_excluding state stream exclude with
  | Ok id => placeable_id state exclude id ∧
      ∀ id', placeable_id state exclude id' →
        cohort_ring_score stream id' < cohort_ring_score stream id ∨
        cohort_ring_score stream id' = cohort_ring_score stream id ∧ id' ≤ id
  | Err e => e = QuorumUnavailable ∧ ∀ id, ¬ placeable_id state exclude id
  end.
Proof.
  intros Hkeyed. unfold cohort_for_stream_excluding.
  set (l := filter _ _).
  assert (∀ c, c ∈ l ↔ ct_cohorts state !! dc_id c = Some c ∧ placeable state exclude c = true) as Hl.
  { intros c. unfold l. rewrite list_elem_of_filter, elem_of_nbtree_values. split.
    - intros [? [k Hk]]. by rewrite (Hkeyed k c Hk).
    - intros [? ?]. eauto. }
  pose proof (max_by_spec (ring_ge stream) l (ring_ge_total stream) (ring_ge_trans stream)) as Hm.
  destruct (max_by (ring_ge stream) l) as [m|]; cbn.
  - destruct Hm as [[Hk Hp]%Hl Hall]. split; [by exists m|].
    intros id' (c & Hc & Hp'). specialize (Hall c). pose proof (Hkeyed _ _ Hc) as <-.
    apply ring_ge_spec in Hall; [lia|by apply Hl].
  - split; [done|]. intros id (c & Hc & Hp). assert (c ∈ l) as Hin; [|rewrite Hm in Hin; by apply elem_of_nil in Hin].
    apply Hl. by rewrite (Hkeyed _ _ Hc).
Qed.

(** changing the cohorts remaps only the streams whose winning cohort the
    change touches: if a stream is placed on one cohort before and on another
    after, then the old winner can no longer take it or the new one could not
    before; and a placement fails only when no complete active cohort is left. *)
Theorem rendezvous_moves_little state state' stream exclude exclude' :
  cohorts_keyed state → cohorts_keyed state' →
  match cohort_for_stream_excluding state stream exclude,
        cohort_for_stream_excluding state' stream exclude' with
  | Ok id, Ok id' =>
      id = id' ∨ ¬ placeable_id state' exclude' id ∨ ¬ placeable_id state exclude id'
  | Ok id, Err e => e = QuorumUnavailable ∧ ¬ placeable_id state' exclude' id
  | Err e, _ => e = QuorumUnavailable ∧ ∀ id, ¬ placeable_id state exclude id
  end.
Proof.
  intros Hk Hk'.
  pose proof (cohort_for_stream_excluding_spec state stream exclude Hk) as Hs.
  pose proof (cohort_for_stream_excluding_spec state' stream exclude' Hk') as Hs'.
  destruct (cohort_for_stream_excluding state stream exclude) as [id|e]; [|done].
  destruct (cohort_for_stream_excluding state' stream exclude') as [id'|e']; [|naive_solver].
  destruct Hs as [Hp Hmax], Hs' as [Hp' Hmax'].
  destruct (decide (id = id')) as [|Hne]; [by left|right].
  destruct (decide (cohort_ring_score stream id' < cohort_ring_score stream id ∨
    cohort_ring_score stream id' = cohort_ring_score stream id ∧ id' ≤ id)).
  - left. intros Hno. specialize (Hmax' id Hno). lia.
  - right. intros Hno. specialize (Hmax id' Hno). lia.
Qed.

(** A cutover never picks the cohort it excludes. *)
Lemma excluded_not_chosen state stream cohort_id id :
  cohorts_keyed state →
  cohort_for_stream_excluding state stream (Some cohort_id) = Ok id → id ≠ cohort_id.
Proof.
  intros Hk Hc ->. pose proof (cohort_for_stream_excluding_spec state stream (Some cohort_id) Hk) as Hs.
  rewrite Hc in Hs. destruct Hs as [(c & Hc' & Hp) _]. rewrite <- (Hk _ _ Hc') in Hp.
  unfold placeable in Hp. by rewrite bool_decide_eq_true_2 in Hp.
Qed.

End Cohorts.

(** ** Witness: a second cohort joins and takes the stream *)

#[local] Instance toy_ring : RingHost := {| sha256 bs := rev bs; hex_encode := String.string_of_list_byte |}.

Definition w_grown : DurableControlState :=
  mkControlState 1 2 1 "" "op" 1 0 "" 0 1 0 "" 0 None true
    (list_to_map ((λ id, (id, w_member id)) <$> (w_ids ++ ["d"; "e"; "f"]))) ∅ ∅
    {[0 := mkCohort 0 w_ids CActive "" 0; 1 := mkCohort 1 ["d"; "e"; "f"] CActive "" 0]} ∅.

Lemma rendezvous_moves_little_witness :
  cohort_for_stream_excluding w_state "s" None = Ok 0
  ∧ cohort_for_stream_excluding w_grown "s" None = Ok 1 ∧ ¬ placeable_id w_state None 1.
Proof.
  assert (cohorts_keyed w_state) as Hk.
  { intros id c Hc. unfold w_state in Hc. cbn in Hc. by apply lookup_singleton_Some in Hc as [<- <-]. }
  assert (cohorts_keyed w_grown) as Hk'.
  { intros id c Hc. unfold w_grown in Hc. cbn in Hc.
    by apply lookup_insert_Some in Hc as [[<- <-]|[_ [<- <-]%lookup_singleton_Some]]. }
  pose proof (rendezvous_moves_little w_state w_grown "s" None None Hk Hk') as Ht.
  assert (cohort_for_stream_excluding w_state "s" None = Ok 0) as E by by vm_compute.
  assert (cohort_for_stream_excluding w_grown "s" None = Ok 1) as E' by by vm_compute.
  rewrite E, E' in Ht. split_and!; [done|done|]. destruct Ht as [Heq|[Hno|Hno]]; [by vm_compute in Heq| |done].
  destruct Hno. eexists. split; by vm_compute.
Defined.
