(* ===== verification/NodeLog.v ===== *)
(** * NodeLog: the storage member's append-only log

    [DiskReplica] of [crates/walleye-bitr-server/src/lib.rs]: the log file as
    bytes, the indexes rebuilt from it ([LogIndex]), the durable maintenance
    marker, and every operation that changes them.  [open_log] is the replay of
    [open_internal] over the bytes of the file, line by line, with its repair of
    a torn tail.

    serde_json is a parameter ([LogJson]); what the replay relies on is
    [LogJsonLaws].  A write can fail after any number of bytes ([WriteIo]): the
    bytes written stay in the file, which is what the operating system leaves.
    Reading a file's length is taken not to fail. *)

From stdpp Require Import pretty.
From S2P Require Import Prelude Text Wire Client Placement Manifest.

Definition MAINTENANCE_MARKER_VERSION : N := 1.

(** ** Data *)

Record TrimmedPrefix := mkTrimmed {
  tp_stream : string;
  tp_archived_lsn : N;
  tp_writer_epoch : N;
}.

#[global] Instance TrimmedPrefix_eq_dec : EqDecision TrimmedPrefix.
Proof. solve_decision. Defined.

(** The maps of [DiskState] that the log determines. *)
Record LogIndex := mkIndex {
  ix_highest : gmap string N;
  ix_records : gmap (string * N) EncryptedRecord;
  ix_committed : gmap (string * N) EncryptedRecord;
  ix_trimmed : gmap string TrimmedPrefix;
}.

Definition empty_index : LogIndex := mkIndex ∅ ∅ ∅ ∅.

Record DurableMaintenanceFence := mkMaintenanceFence {
  df_owner : string;
  df_generation : N;
  df_signature : string;
}.

#[global] Instance DurableMaintenanceFence_eq_dec : EqDecision DurableMaintenanceFence.
Proof. solve_decision. Defined.

Record DurableMaintenanceState := mkMaintenance {
  ms_version : N;
  ms_generation : N;
  ms_active : option DurableMaintenanceFence;
  ms_last_released : option DurableMaintenanceFence;
}.

Definition default_maintenance : DurableMaintenanceState :=
  mkMaintenance MAINTENANCE_MARKER_VERSION 0 None None.

(** The marker file beside the log: absent, unreadable (I/O or JSON), or a
    document. *)
Inductive MarkerFile : Type :=
| MarkerMissing
| MarkerBroken (reason : string)
| MarkerDocument (state : DurableMaintenanceState).

Record VerifiedMaintenanceToken := mkToken {
  vt_owner : string;
  vt_generation : N;
  vt_signature : string;
}.

(** [VerifiedMaintenanceToken::marker]. *)
Definition marker (t : VerifiedMaintenanceToken) : DurableMaintenanceFence :=
  mkMaintenanceFence (vt_owner t) (vt_generation t) (vt_signature t).

(** [DiskReplica]: its [DiskState] (file, index, maintenance), the marker file,
    and its configuration. *)
Record DiskReplica := mkDisk {
  dr_file : list byte;
  dr_index : LogIndex;
  dr_maintenance : DurableMaintenanceState;
  dr_marker : MarkerFile;
  dr_log_max_bytes : option N;
  dr_node_name : string;
  dr_control : option DurableControlState;
  dr_placement : option PlacementStore;
}.

Definition set_log (d : DiskReplica) (file : list byte) (index : LogIndex) : DiskReplica :=
  mkDisk file index (dr_maintenance d) (dr_marker d) (dr_log_max_bytes d) (dr_node_name d)
    (dr_control d) (dr_placement d).

Definition set_maintenance (d : DiskReplica) (state : DurableMaintenanceState)
    (file : MarkerFile) : DiskReplica :=
  mkDisk (dr_file d) (dr_index d) state file (dr_log_max_bytes d) (dr_node_name d)
    (dr_control d) (dr_placement d).

Definition set_placement (d : DiskReplica) (placement : option PlacementStore) : DiskReplica :=
  mkDisk (dr_file d) (dr_index d) (dr_maintenance d) (dr_marker d) (dr_log_max_bytes d)
    (dr_node_name d) (dr_control d) placement.

(** What is written to the log, one JSON document a line: a raw record,
    [NodeCommitEntry], [NodeSupersedeEntry] or [NodeTrimEntry]. *)
Inductive LogEntry : Type :=
| LogRecord (record : EncryptedRecord)
| LogCommit (record : EncryptedRecord)
| LogSupersede (stream : string) (from_lsn writer_epoch : N)
| LogTrim (stream : string) (archived_lsn writer_epoch : N).

(** ** serde_json *)

Inductive JsonSyntax := JsonOk | JsonEof (reason : string) | JsonInvalid (reason : string).

Class LogJson := {
  (** [to_vec] of the entry *)
  json_line : LogEntry → list byte;
  (** [from_slice::<Value>]; [JsonEof] when [error.is_eof()] *)
  json_value : list byte → JsonSyntax;
  (** [from_slice::<EncryptedRecord>] *)
  json_record : list byte → option EncryptedRecord;
  (** the string at the key [kind] of the value, or the empty string *)
  json_kind : list byte → string;
  (** [from_slice] at the entry types *)
  json_commit : list byte → result string EncryptedRecord;
  json_supersede : list byte → result string (string * N * N);
  json_trim : list byte → result string (string * N * N);
}.

(** A Rust value of the entry's type. *)
Definition wf_entry (e : LogEntry) : Prop :=
  match e with
  | LogRecord r | LogCommit r => wf_record r
  | LogSupersede stream a b | LogTrim stream a b =>
    utf8_valid (as_bytes stream) = true ∧ a ≤ u64_max ∧ b ≤ u64_max
  end.

(** Compact output escapes control characters; deserialising what was serialised
    gives it back; a strict prefix of an object is an unexpected end of input;
    an object followed by another is refused for its trailing characters. *)
Class LogJsonLaws `{LogJson} := {
  json_line_chars e : wf_entry e →
    (x0a ∉ json_line e) ∧ (x0d ∉ json_line e) ∧ json_line e ≠ [];
  json_value_line e : wf_entry e → json_value (json_line e) = JsonOk;
  json_value_prefix e pre : wf_entry e → pre `prefix_of` json_line e →
    pre ≠ [] → pre ≠ json_line e → ∃ reason, json_value pre = JsonEof reason;
  json_value_trailing e e' : wf_entry e → wf_entry e' →
    ∃ reason, json_value (json_line e ++ json_line e') = JsonInvalid reason;
  json_record_line e : wf_entry e →
    json_record (json_line e) = match e with LogRecord r => Some r | _ => None end;
  json_kind_commit r : wf_record r → json_kind (json_line (LogCommit r)) = "commit";
  json_kind_supersede stream a b : wf_entry (LogSupersede stream a b) →
    json_kind (json_line (LogSupersede stream a b)) = "supersede";
  json_kind_trim stream a b : wf_entry (LogTrim stream a b) →
    json_kind (json_line (LogTrim stream a b)) = "trim";
  json_commit_line r : wf_record r → json_commit (json_line (LogCommit r)) = Ok r;
  json_supersede_line stream a b : wf_entry (LogSupersede stream a b) →
    json_supersede (json_line (LogSupersede stream a b)) = Ok (stream, a, b);
  json_trim_line stream a b : wf_entry (LogTrim stream a b) →
    json_trim (json_line (LogTrim stream a b)) = Ok (stream, a, b);
}.

(** ** Indexes *)

Definition index_record (ix : LogIndex) (record : EncryptedRecord)
    : result ReplicaError LogIndex :=
  let stream := er_stream record in
  let epoch := match ix_highest ix !! stream with
               | Some epoch => N.max epoch (er_writer_epoch record)
               | None => er_writer_epoch record
               end in
  let next := mkIndex (<[stream := epoch]> (ix_highest ix))
                (<[record_key record := record]> (ix_records ix))
                (ix_committed ix) (ix_trimmed ix) in
  match ix_records ix !! record_key record with
  | Some existing =>
    if negb (bool_decide (existing = record))
    then Err (NodeStorage "replica log contains conflicting records for one LSN")
    else Ok next
  | None => Ok next
  end.

(** The writer epochs [withdraw_suffix] takes the maximum of. *)
Definition stream_epochs (records : gmap (string * N) EncryptedRecord)
    (trimmed : gmap string TrimmedPrefix) (stream : string) : list N :=
  (er_writer_epoch ∘ snd <$> filter (λ kv, kv.1.1 = stream) (btree_entries records))
  ++ match trimmed !! stream with Some prefix => [tp_writer_epoch prefix] | None => [] end.

Definition withdraw_suffix (ix : LogIndex) (stream : string) (from_lsn : N) : LogIndex :=
  let keep (kv : (string * N) * EncryptedRecord) := kv.1.1 ≠ stream ∨ kv.1.2 < from_lsn in
  let records := filter keep (ix_records ix) in
  let highest := match max_by (λ a b, b <=? a) (stream_epochs records (ix_trimmed ix) stream) with
                 | Some epoch => <[stream := epoch]> (ix_highest ix)
                 | None => delete stream (ix_highest ix)
                 end in
  mkIndex highest records (filter keep (ix_committed ix)) (ix_trimmed ix).

(** ** Replay *)

Definition below_prefix (ix : LogIndex) (stream : string) (lsn : N) : bool :=
  match ix_trimmed ix !! stream with
  | Some prefix => lsn <=? tp_archived_lsn prefix
  | None => false
  end.

Definition replay_record (ix : LogIndex) (record : EncryptedRecord)
    : result ReplicaError LogIndex :=
  if below_prefix ix (er_stream record) (er_lsn record)
  then Err (NodeStorage "node log contains a record below its compacted prefix")
  else index_record ix record.

Definition replay_commit (ix : LogIndex) (record : EncryptedRecord) : LogIndex :=
  if bool_decide (ix_records ix !! record_key record = Some record)
  then mkIndex (ix_highest ix) (ix_records ix)
         (<[record_key record := record]> (ix_committed ix)) (ix_trimmed ix)
  else ix.

Definition replay_trim (ix : LogIndex) (stream : string) (archived_lsn writer_epoch : N)
    : result ReplicaError LogIndex :=
  if bool_decide (stream = "") || (archived_lsn =? 0)
     || bool_decide (is_Some (ix_trimmed ix !! stream))
  then Err (NodeStorage "invalid or duplicate node trim entry")
  else Ok (mkIndex (<[stream := writer_epoch]> (ix_highest ix)) (ix_records ix)
             (ix_committed ix)
             (<[stream := mkTrimmed stream archived_lsn writer_epoch]> (ix_trimmed ix))).

(** [slice.split(|byte| *byte == b'\n')]: one piece more than newlines. *)
Fixpoint split_lines (bytes : list byte) : list (list byte) :=
  match bytes with
  | [] => [[]]
  | b :: rest =>
    if bool_decide (b = x0a) then [] :: split_lines rest
    else match split_lines rest with
         | [] => [[b]]
         | line :: lines => (b :: line) :: lines
         end
  end.

(** [strip_suffix(b"\r").unwrap_or(raw_line)]. *)
Definition strip_cr (raw_line : list byte) : list byte :=
  if bool_decide (last raw_line = Some x0d) then take (length raw_line - 1) raw_line
  else raw_line.

Section NodeLog.
Context `{LogJson}.

(** The replay of one line that is valid JSON. *)
Definition replay_line (ix : LogIndex) (line : list byte) : result ReplicaError LogIndex :=
  match json_record line with
  | Some record => replay_record ix record
  | None =>
    let kind := json_kind line in
    if bool_decide (kind = "commit") then
      record ← map_err (λ e, NodeStorage ("invalid node log entry: " +:+ e)) (json_commit line);
      Ok (replay_commit ix record)
    else if bool_decide (kind = "supersede") then
      '(stream, from_lsn, _) ←
        map_err (λ e, NodeStorage ("invalid node supersede entry: " +:+ e)) (json_supersede line);
      Ok (withdraw_suffix ix stream from_lsn)
    else if bool_decide (kind = "trim") then
      '(stream, archived_lsn, writer_epoch) ←
        map_err (λ e, NodeStorage ("invalid node trim entry: " +:+ e)) (json_trim line);
      replay_trim ix stream archived_lsn writer_epoch
    else Err (NodeStorage "unknown node log entry kind")
  end.

(** The loop of [open_internal] over the lines: the index, and the length the
    file is cut to when its last line is torn. *)
Fixpoint replay_lines (has_trailing_newline : bool) (line_start : N) (ix : LogIndex)
    (lines : list (list byte)) : result ReplicaError (LogIndex * option N) :=
  match lines with
  | [] => Ok (ix, None)
  | raw_line :: rest =>
    let is_final_partial := bool_decide (rest = []) && negb has_trailing_newline in
    let line := strip_cr raw_line in
    let next_start := saturating_add line_start (len raw_line + 1) in
    if bool_decide (line = []) then replay_lines has_trailing_newline next_start ix rest
    else match json_value line with
    | JsonEof reason =>
      if is_final_partial then Ok (ix, Some line_start)
      else Err (NodeStorage ("invalid node log entry: " +:+ reason))
    | JsonInvalid reason => Err (NodeStorage ("invalid node log entry: " +:+ reason))
    | JsonOk =>
      ix ← replay_line ix line;
      replay_lines has_trailing_newline next_start ix rest
    end
  end.

(** The log part of [open_internal]: the rebuilt index and the file, cut at a
    torn last line.  [truncation] is the outcome of [set_len] and the sync. *)
Definition open_log (truncation : result string unit) (bytes : list byte)
    : result ReplicaError (LogIndex * list byte) :=
  let has_trailing_newline := bool_decide (last bytes = Some x0a) in
  '(ix, cut) ← replay_lines has_trailing_newline 0 empty_index (split_lines bytes);
  match cut with
  | None => Ok (ix, bytes)
  | Some line_start =>
    _ ← map_err NodeStorage truncation;
    Ok (ix, take (N.to_nat line_start) bytes)
  end.

(** ** Writing the log *)

(** How writing to the log and syncing it ended: done, or failed with the first
    [written] bytes in the file. *)
Inductive WriteIo : Type :=
| WriteDone
| WriteFailed (reason : string) (written : nat).

Definition file_write (io : WriteIo) (file payload : list byte)
    : result ReplicaError unit * list byte :=
  match io with
  | WriteDone => (Ok tt, file ++ payload)
  | WriteFailed reason written => (Err (NodeStorage reason), file ++ take written payload)
  end.

(** [write_json_line]: the entry's JSON and a newline. *)
Definition entry_line (e : LogEntry) : list byte := json_line e ++ [x0a].
Definition log_bytes (es : list LogEntry) : list byte := concat (entry_line <$> es).

(** ** Maintenance *)

Definition bad_marker (generation : N) (f : option DurableMaintenanceFence) : bool :=
  match f with
  | None => false
  | Some fence => negb (df_generation fence =? generation)
                  || blank (df_owner fence) || blank (df_signature fence)
  end.

Definition read_maintenance_state (file : MarkerFile)
    : result ReplicaError DurableMaintenanceState :=
  match file with
  | MarkerMissing => Ok default_maintenance
  | MarkerBroken reason => Err (NodeStorage reason)
  | MarkerDocument state =>
    if negb (ms_version state =? MAINTENANCE_MARKER_VERSION)
       || bad_marker (ms_generation state) (ms_active state)
       || bad_marker (ms_generation state) (ms_last_released state)
    then Err (NodeStorage "invalid maintenance marker generation or version")
    else Ok state
  end.

Definition persist_maintenance_state (io : PersistIo) (file : MarkerFile)
    (state : DurableMaintenanceState) : result ReplicaError unit * MarkerFile :=
  match io with
  | PersistDone => (Ok tt, MarkerDocument state)
  | PersistFailed reason renamed =>
    (Err (NodeStorage reason), if renamed then MarkerDocument state else file)
  end.

(** Persists [next] and, when that succeeded, adopts it. *)
Definition adopt_maintenance (io : PersistIo) (d : DiskReplica)
    (next : DurableMaintenanceState) : result ReplicaError unit * DiskReplica :=
  match persist_maintenance_state io (dr_marker d) next with
  | (Err e, file) => (Err e, set_maintenance d (dr_maintenance d) file)
  | (Ok _, file) => (Ok tt, set_maintenance d next file)
  end.

Definition fence (io : PersistIo) (d : DiskReplica) (token : VerifiedMaintenanceToken)
    : result ReplicaError unit * DiskReplica :=
  match ms_active (dr_maintenance d) with
  | Some active =>
    if bool_decide (active = marker token) then (Ok tt, d) else (Err WriterFenced, d)
  | None =>
    if vt_generation token <=? ms_generation (dr_maintenance d) then (Err WriterFenced, d)
    else adopt_maintenance io d
           (mkMaintenance MAINTENANCE_MARKER_VERSION (vt_generation token)
              (Some (marker token)) None)
  end.

Definition release_fence (io : PersistIo) (d : DiskReplica) (token : VerifiedMaintenanceToken)
    : result ReplicaError unit * DiskReplica :=
  match ms_active (dr_maintenance d) with
  | Some active =>
    if bool_decide (active = marker token) then
      adopt_maintenance io d
        (mkMaintenance MAINTENANCE_MARKER_VERSION (ms_generation (dr_maintenance d))
           None (Some (marker token)))
    else (Err GatewayUnauthorized, d)
  | None =>
    if bool_decide (ms_last_released (dr_maintenance d) = Some (marker token)) then (Ok tt, d)
    else if ms_generation (dr_maintenance d) <? vt_generation token then
      adopt_maintenance io d
        (mkMaintenance MAINTENANCE_MARKER_VERSION (vt_generation token) None (Some (marker token)))
    else (Err GatewayUnauthorized, d)
  end.

Definition verify_fence (d : DiskReplica) (token : VerifiedMaintenanceToken)
    : result ReplicaError unit :=
  if bool_decide (ms_active (dr_maintenance d) = Some (marker token))
  then Ok tt else Err WriterFenced.

Definition maintenance_allowed (d : DiskReplica) (token : option VerifiedMaintenanceToken)
    : bool :=
  match ms_active (dr_maintenance d), token with
  | None, None => true
  | Some active, Some token => bool_decide (active = marker token)
  | _, _ => false
  end.

(** ** Commit markers *)

Definition insert_commit (ix : LogIndex) (record : EncryptedRecord) : LogIndex :=
  mkIndex (ix_highest ix) (ix_records ix) (<[record_key record := record]> (ix_committed ix))
    (ix_trimmed ix).

Definition commit_inner (io : WriteIo) (d : DiskReplica) (record : EncryptedRecord)
    (token : option VerifiedMaintenanceToken) : result ReplicaError unit * DiskReplica :=
  let ix := dr_index d in
  if negb (maintenance_allowed d token) then (Err WriterFenced, d)
  else if er_lsn record <=? er_committed_lsn record then
    (Err (InvalidWatermark (er_lsn record) (er_committed_lsn record)), d)
  else if below_prefix ix (er_stream record) (er_lsn record) then (Ok tt, d)
  else if negb (bool_decide (ix_records ix !! record_key record = Some record)) then
    (Err LsnConflict, d)
  else if bool_decide (ix_committed ix !! record_key record = Some record) then (Ok tt, d)
  else if bool_decide (is_Some (ix_committed ix !! record_key record)) then (Err LsnConflict, d)
  else match file_write io (dr_file d) (entry_line (LogCommit record)) with
  | (Err e, file) => (Err e, set_log d file ix)
  | (Ok _, file) => (Ok tt, set_log d file (insert_commit ix record))
  end.

(** ** Superseding an orphaned suffix *)

(** The writer epochs of the records at and after [from_lsn]. *)
Definition doomed_epochs (ix : LogIndex) (stream : string) (from_lsn : N) : list N :=
  er_writer_epoch ∘ snd
    <$> filter (λ kv, kv.1.1 = stream ∧ from_lsn ≤ kv.1.2) (btree_entries (ix_records ix)).

Definition supersede (io : WriteIo) (d : DiskReplica) (stream : string)
    (from_lsn writer_epoch : N) : result ReplicaError N * DiskReplica :=
  let ix := dr_index d in
  if bool_decide (stream = "") || (from_lsn =? 0) then (Err LsnConflict, d)
  else if below_prefix ix stream from_lsn then (Err LsnConflict, d)
  else
    let doomed := doomed_epochs ix stream from_lsn in
    if bool_decide (doomed = []) then (Ok 0, d)
    else if existsb (λ epoch, writer_epoch <=? epoch) doomed then (Err WriterFenced, d)
    else match file_write io (dr_file d)
                 (entry_line (LogSupersede stream from_lsn writer_epoch)) with
    | (Err e, file) => (Err e, set_log d file ix)
    | (Ok _, file) => (Ok (len doomed), set_log d file (withdraw_suffix ix stream from_lsn))
    end.

(** ** Compaction *)

(** How the log rewrite ended: renamed and synced, failed before the rename, or
    renamed with a failed directory sync. *)
Inductive CompactIo : Type :=
| CompactDone
| CompactFailed (reason : string)
| CompactUnsynced (reason : string).

(** One iteration over the requested prefixes. *)
Definition trim_prefix (ix : LogIndex) (next_trimmed : gmap string TrimmedPrefix)
    (prefix : string * N * N) : result ReplicaError (gmap string TrimmedPrefix) :=
  let '(stream, archived_lsn, writer_epoch) := prefix in
  if bool_decide (stream = "") || (archived_lsn =? 0) then
    Err (NodeStorage "compaction requires a stream and nonzero archive watermark")
  else
    let previous := ix_trimmed ix !! stream in
    if match previous with Some p => archived_lsn <? tp_archived_lsn p | None => false end then
      Err (NodeStorage "archive compaction watermark cannot move backward")
    else
      let retained_epoch :=
        N.max (N.max (default 0 (ix_highest ix !! stream)) writer_epoch)
              (match previous with Some p => tp_writer_epoch p | None => 0 end) in
      Ok (<[stream := mkTrimmed stream archived_lsn retained_epoch]> next_trimmed).

(** Not archived under [trimmed]. *)
Definition retained (trimmed : gmap string TrimmedPrefix) (key : string * N) : bool :=
  match trimmed !! key.1 with Some prefix => tp_archived_lsn prefix <? key.2 | None => true end.

(** The lines of the replacement log. *)
Definition compacted_entries (ix : LogIndex) (next_trimmed : gmap string TrimmedPrefix)
    : list LogEntry :=
  ((λ prefix, LogTrim (tp_stream prefix) (tp_archived_lsn prefix) (tp_writer_epoch prefix))
     <$> sbtree_values next_trimmed)
  ++ concat ((λ kv : (string * N) * EncryptedRecord,
       LogRecord kv.2 ::
         if bool_decide (ix_committed ix !! kv.1 = Some kv.2) then [LogCommit kv.2] else [])
     <$> filter (λ kv, retained next_trimmed kv.1 = true) (btree_entries (ix_records ix))).

Definition raise_epoch (highest : gmap string N) (prefix : TrimmedPrefix) : gmap string N :=
  <[tp_stream prefix := match highest !! tp_stream prefix with
                        | Some epoch => N.max epoch (tp_writer_epoch prefix)
                        | None => tp_writer_epoch prefix
                        end]> highest.

(** The indexes after the rename. *)
Definition compacted_index (ix : LogIndex) (next_trimmed : gmap string TrimmedPrefix)
    : LogIndex :=
  mkIndex (foldl raise_epoch (ix_highest ix) (sbtree_values next_trimmed))
    (filter (λ kv, retained next_trimmed kv.1 = true) (ix_records ix))
    (filter (λ kv, retained next_trimmed kv.1 = true) (ix_committed ix))
    next_trimmed.

Definition compact_archived_batch (io : CompactIo) (d : DiskReplica)
    (prefixes : list (string * N * N)) : result ReplicaError N * DiskReplica :=
  let ix := dr_index d in
  if bool_decide (prefixes = []) then (Ok 0, d)
  else match try_fold (trim_prefix ix) (ix_trimmed ix) prefixes with
  | Err e => (Err e, d)
  | Ok next_trimmed =>
    let removed :=
      len (filter (λ kv, retained next_trimmed kv.1 = false) (btree_entries (ix_records ix))) in
    if (removed =? 0) && bool_decide (next_trimmed = ix_trimmed ix) then (Ok 0, d)
    else
      let next := set_log d (log_bytes (compacted_entries ix next_trimmed))
                    (compacted_index ix next_trimmed) in
      match io with
      | CompactDone => (Ok removed, next)
      | CompactFailed reason => (Err (NodeStorage reason), d)
      | CompactUnsynced reason => (Err (NodeStorage reason), next)
      end
  end.

(** ** Snapshots *)

Record NodeSnapshot := mkSnapshot {
  sn_records : list EncryptedRecord;
  sn_committed : list EncryptedRecord;
  sn_trimmed : list TrimmedPrefix;
}.

Definition node_snapshot (d : DiskReplica) : NodeSnapshot :=
  mkSnapshot (btree_values (ix_records (dr_index d))) (btree_values (ix_committed (dr_index d)))
    (sbtree_values (ix_trimmed (dr_index d))).

(** [Replica::records]. *)
Definition node_records (d : DiskReplica) (stream : string) : list EncryptedRecord :=
  filter (λ r, er_stream r = stream) (btree_values (ix_records (dr_index d))).

(** ** Placement leases *)

(** The [map_err] of [placement_lease]. *)
Definition lease_error (e : PlacementError) : ReplicaError :=
  match e with
  | Storage reason => NodeStorage reason
  | InvalidStream => Protocol "placement stream must not be empty"
  | InvalidEpoch => Protocol "invalid placement epoch"
  | _ => WriterFenced
  end.

(** [Display for PlacementError]. *)
Definition placement_error_text (e : PlacementError) : string :=
  match e with
  | InvalidStream => "placement stream must not be empty"
  | InvalidEpoch =>
    "placement epoch zero must have no digest and higher epochs require a route digest"
  | Storage reason => "placement storage failed: " +:+ reason
  | Transitioning => "stream placement is transitioning"
  | Stale current received =>
    "stale stream placement epoch " +:+ pretty (pe_epoch received)
    +:+ " (current " +:+ pretty (pe_epoch current) +:+ ")"
  | Future current received =>
    "stream placement epoch " +:+ pretty (pe_epoch received)
    +:+ " is ahead of current " +:+ pretty (pe_epoch current)
  | Conflict current received =>
    "stream placement epoch " +:+ pretty (pe_epoch received)
    +:+ " has a conflicting route digest (current " +:+ pretty (pe_epoch current) +:+ ")"
  | Decreasing current requested =>
    "stream placement cannot move from epoch " +:+ pretty (pe_epoch current)
    +:+ " backwards to " +:+ pretty (pe_epoch requested)
  | FenceConflict current requested =>
    "stream placement epoch " +:+ pretty (pe_epoch requested)
    +:+ " already names another route (requested " +:+ pretty (pe_epoch current) +:+ ")"
  end.

Definition placement_lease (d : DiskReplica) (stream : string)
    (placement : option PlacementEpoch)
    : result ReplicaError (option PlacementLease) * DiskReplica :=
  match dr_placement d with
  | None => (Ok None, d)
  | Some store =>
    let admit_at placement :=
      let '(r, store) := admit_lease store stream placement in
      (map_err lease_error (l ← r; Ok (Some l)), set_placement d (Some store)) in
    match placement with
    | Some placement => admit_at placement
    | None =>
      match contains_stream store stream with
      | Err e => (Err (NodeStorage (placement_error_text e)), d)
      | Ok true => (Err WriterFenced, d)
      | Ok false => admit_at bootstrap
      end
    end
  end.

(** Dropping the lease. *)
Definition drop_lease (d : DiskReplica) (lease : option PlacementLease) : DiskReplica :=
  match lease, dr_placement d with
  | Some lease, Some store => set_placement d (Some (release store lease))
  | _, _ => d
  end.

Definition install_fence_error (e : PlacementError) : ReplicaError :=
  match e with
  | Storage reason => NodeStorage reason
  | InvalidStream => Protocol "placement stream must not be empty"
  | InvalidEpoch => Protocol "invalid placement epoch"
  | Decreasing _ _ | FenceConflict _ _ => LsnConflict
  | _ => WriterFenced
  end.

(** [None] when the call waits for another thread. *)
Definition install_placement_fence (io : PersistIo) (d : DiskReplica) (stream : string)
    (placement : PlacementEpoch) : option (result ReplicaError unit * DiskReplica) :=
  match dr_placement d with
  | None => Some (Err (Protocol "placement fences require direct node mode"), d)
  | Some store =>
    '(r, store) ← install_fence io store stream placement;
    Some (map_err install_fence_error r, set_placement d (Some store))
  end.

(** ** Appending *)

Definition has_manifest_boundary (d : DiskReplica) (record : EncryptedRecord) : bool :=
  match dr_control d with
  | None => false
  | Some control =>
    match ct_stream_segments control !! er_stream record with
    | None => false
    | Some segments =>
      existsb (λ '(index, segment),
        (sg_start_lsn segment =? er_lsn record)
        && existsb (λ id, bool_decide (id = dr_node_name d)) (sg_member_ids segment)
        && (er_committed_lsn record =? saturating_sub (sg_start_lsn segment) 1)
        && ((index =? 0)%nat
            || match segments !! (index - 1)%nat with
               | Some previous =>
                 bool_decide (sg_end_lsn previous = Some (er_committed_lsn record))
               | None => false
               end)) (enumerate segments)
    end
  end.

(** The checks an append makes of one record before it writes: [Ok true] when the
    record is new.  [batch] is the records accepted before it in the same call. *)
Definition check_append (d : DiskReplica) (batch : list EncryptedRecord)
    (record : EncryptedRecord) : result ReplicaError bool :=
  let ix := dr_index d in
  if er_writer_epoch record <? default 0 (ix_highest ix !! er_stream record) then Err WriterFenced
  else if below_prefix ix (er_stream record) (er_lsn record) then Err LsnConflict
  else match ix_records ix !! record_key record with
  | Some existing => if bool_decide (existing = record) then Ok false else Err LsnConflict
  | None =>
    let previous_lsn := saturating_sub (er_lsn record) 1 in
    let has_batch_predecessor :=
      existsb (λ previous, bool_decide (er_stream previous = er_stream record)
                           && (er_lsn previous =? previous_lsn)) batch in
    let has_durable_predecessor :=
      bool_decide (is_Some (ix_records ix !! (er_stream record, previous_lsn))) in
    let has_compacted_predecessor :=
      match ix_trimmed ix !! er_stream record with
      | Some prefix => tp_archived_lsn prefix =? previous_lsn
      | None => false
      end in
    let needs_manifest_boundary :=
      (1 <? er_lsn record) && negb has_batch_predecessor
      && negb has_durable_predecessor && negb has_compacted_predecessor in
    if needs_manifest_boundary && negb (has_manifest_boundary d record)
    then Err LsnConflict else Ok true
  end.

Definition insert_record (ix : LogIndex) (record : EncryptedRecord) : LogIndex :=
  mkIndex (<[er_stream record := N.max (default 0 (ix_highest ix !! er_stream record))
                                       (er_writer_epoch record)]> (ix_highest ix))
    (<[record_key record := record]> (ix_records ix)) (ix_committed ix) (ix_trimmed ix).

(** The body of an append under the state lock. *)
Definition append_locked (io : WriteIo) (d : DiskReplica) (record : EncryptedRecord)
    (token : option VerifiedMaintenanceToken) : result ReplicaError unit * DiskReplica :=
  if negb (maintenance_allowed d token) then (Err WriterFenced, d)
  else if er_lsn record <=? er_committed_lsn record then
    (Err (InvalidWatermark (er_lsn record) (er_committed_lsn record)), d)
  else match check_append d [] record with
  | Err e => (Err e, d)
  | Ok false => (Ok tt, d)
  | Ok true =>
    let payload := entry_line (LogRecord record) in
    if match dr_log_max_bytes d with
       | Some cap => cap <? saturating_add (len (dr_file d)) (len payload)
       | None => false
       end
    then (Err (NodeStorage ("node log budget exhausted: " +:+ pretty (len (dr_file d))
                +:+ " bytes used of " +:+ pretty (default 0 (dr_log_max_bytes d))
                +:+ "; waiting for the archive to drain")), d)
    else match file_write io (dr_file d) payload with
    | (Err e, file) => (Err e, set_log d file (dr_index d))
    | (Ok _, file) => (Ok tt, set_log d file (insert_record (dr_index d) record))
    end
  end.

(** Runs [body] under the lease of the stream, which maintenance traffic does not
    take. *)
Definition with_lease (d : DiskReplica) (token : option VerifiedMaintenanceToken)
    (stream : string) (placement : option PlacementEpoch)
    (body : DiskReplica → result ReplicaError unit * DiskReplica)
    : result ReplicaError unit * DiskReplica :=
  match token with
  | Some _ => body d
  | None =>
    match placement_lease d stream placement with
    | (Err e, d) => (Err e, d)
    | (Ok lease, d) => let '(r, d) := body d in (r, drop_lease d lease)
    end
  end.

Definition append_inner_with_placement (io : WriteIo) (d : DiskReplica)
    (record : EncryptedRecord) (token : option VerifiedMaintenanceToken)
    (placement : option PlacementEpoch) : result ReplicaError unit * DiskReplica :=
  with_lease d token (er_stream record) placement (λ d, append_locked io d record token).

(** The first loop of a batch: the records to write, in order. *)
Definition collect_new (d : DiskReplica) (records : list EncryptedRecord)
    : result ReplicaError (list EncryptedRecord) :=
  try_fold (λ new_records record,
    is_new ← check_append d new_records record;
    Ok (if is_new : bool then new_records ++ [record] else new_records)) [] records.

(** The second loop: the commit markers to write. *)
Definition collect_commits (d : DiskReplica) (new_records : list EncryptedRecord)
    (records : list EncryptedRecord) : result ReplicaError (list EncryptedRecord) :=
  let ix := dr_index d in
  try_fold (λ new_commits record,
    if below_prefix ix (er_stream record) (er_lsn record) then Ok new_commits
    else if bool_decide (ix_committed ix !! record_key record = Some record) then Ok new_commits
    else if bool_decide (is_Some (ix_committed ix !! record_key record)) then Err LsnConflict
    else if bool_decide (ix_records ix !! record_key record = Some record)
            || existsb (λ r, bool_decide (record_key r = record_key record)
                             && bool_decide (r = record)) new_records
    then Ok (new_commits ++ [record])
    else Err LsnConflict) [] records.

(** A batch under the state lock.  After a failed write the file is cut back to
    its length before it; [restored] says whether that worked. *)
Definition append_many_locked (io : WriteIo) (restored : bool) (d : DiskReplica)
    (records : list EncryptedRecord) (token : option VerifiedMaintenanceToken)
    (commit : bool) : result ReplicaError unit * DiskReplica :=
  if negb (maintenance_allowed d token) then (Err WriterFenced, d)
  else match
    new_records ← collect_new d records;
    new_commits ← (if commit then collect_commits d new_records records else Ok []);
    Ok (new_records, new_commits)
  with
  | Err e => (Err e, d)
  | Ok (new_records, new_commits) =>
    if bool_decide (new_records = []) && bool_decide (new_commits = []) then (Ok tt, d)
    else match file_write io (dr_file d)
                 (log_bytes ((LogRecord <$> new_records) ++ (LogCommit <$> new_commits))) with
    | (Err e, file) =>
      (Err e, set_log d (if restored then take (length (dr_file d)) file else file) (dr_index d))
    | (Ok _, file) =>
      (Ok tt, set_log d file
                (foldl insert_commit (foldl insert_record (dr_index d) new_records) new_commits))
    end
  end.

Definition append_many_inner_with_placement (io : WriteIo) (restored : bool) (d : DiskReplica)
    (records : list EncryptedRecord) (token : option VerifiedMaintenanceToken)
    (commit : bool) (placement : option PlacementEpoch)
    : result ReplicaError unit * DiskReplica :=
  match validate_append_batch records with
  | Err e => (Err e, d)
  | Ok _ =>
    with_lease d token (match records with r :: _ => er_stream r | [] => "" end) placement
      (λ d, append_many_locked io restored d records token commit)
  end.

End NodeLog.
