(* ===== verification/NodeReplay.v ===== *)
(** * NodeReplay: what reopening a node log finds

    The replay of [NodeLog.open_log] over the bytes of a file, against the
    replay of the entries that were written ([replay]): a complete log, a log
    whose last write was cut at any byte, and the one cut, right before the final
    newline, that the code does not repair. *)

From S2P Require Import Prelude Text Wire Client Placement Manifest NodeLog.

(** ** Replay of entries *)

Definition apply_entry (ix : LogIndex) (e : LogEntry) : result ReplicaError LogIndex :=
  match e with
  | LogRecord record => replay_record ix record
  | LogCommit record => Ok (replay_commit ix record)
  | LogSupersede stream from_lsn _ => Ok (withdraw_suffix ix stream from_lsn)
  | LogTrim stream archived_lsn writer_epoch => replay_trim ix stream archived_lsn writer_epoch
  end.

Definition replay (es : list LogEntry) : result ReplicaError LogIndex :=
  try_fold apply_entry empty_index es.

Lemma replay_app es es' : replay (es ++ es') = ix ← replay es; try_fold apply_entry ix es'.
Proof. apply try_fold_app. Qed.

Lemma replay_snoc es e : replay (es ++ [e]) = ix ← replay es; apply_entry ix e.
Proof.
  rewrite replay_app. destruct (replay es) as [ix|]; cbn; [|done]. by destruct (apply_entry ix e).
Qed.

(** ** Lines *)

Lemma split_lines_not_nil bs : split_lines bs ≠ [].
Proof. destruct bs as [|b rest]; simpl; [done|]. by repeat case_match. Qed.

Lemma split_lines_app l rest :
  (x0a ∉ l) → split_lines (l ++ x0a :: rest) = l :: split_lines rest.
Proof.
  induction l as [|b l IH]; intros Hnl; cbn [app split_lines]; [done|].
  apply not_elem_of_cons in Hnl as [? Hnl].
  rewrite bool_decide_false by done. by rewrite IH.
Qed.

Lemma split_lines_single l : (x0a ∉ l) → split_lines l = [l].
Proof.
  induction l as [|b l IH]; intros Hnl; cbn [split_lines]; [done|].
  apply not_elem_of_cons in Hnl as [? Hnl].
  rewrite bool_decide_false by done. by rewrite IH.
Qed.

Lemma strip_cr_id l : (x0d ∉ l) → strip_cr l = l.
Proof.
  intros Hcr. unfold strip_cr. rewrite bool_decide_false; [done|].
  intros Hlast. apply last_Some in Hlast as [l' ->]. set_solver.
Qed.

Section Replay.
Context `{LogJsonLaws}.

Lemma replay_line_entry ix e : wf_entry e → replay_line ix (json_line e) = apply_entry ix e.
Proof.
  intros Hwf. unfold replay_line. rewrite json_record_line by done. destruct e; simpl.
  - done.
  - by rewrite json_kind_commit, json_commit_line.
  - by rewrite json_kind_supersede, json_supersede_line.
  - by rewrite json_kind_trim, json_trim_line.
Qed.

Lemma log_bytes_cons e es : log_bytes (e :: es) = json_line e ++ x0a :: log_bytes es.
Proof. unfold log_bytes, entry_line. simpl. by rewrite <- app_assoc. Qed.

Lemma log_bytes_app es es' : log_bytes (es ++ es') = log_bytes es ++ log_bytes es'.
Proof. unfold log_bytes. by rewrite fmap_app, concat_app. Qed.

Lemma log_bytes_one e : log_bytes [e] = entry_line e.
Proof. unfold log_bytes. simpl. by rewrite app_nil_r. Qed.

(** Where the loop's [line_start] stands after complete lines. *)
Definition advance (line_start : N) (es : list LogEntry) : N :=
  foldl (λ n e, saturating_add n (len (json_line e) + 1)) line_start es.

Lemma advance_exact start es :
  start + len (log_bytes es) ≤ u64_max → advance start es = start + len (log_bytes es).
Proof.
  revert start. induction es as [|e es IH]; intros start Hb; [unfold len; simpl; lia|].
  rewrite log_bytes_cons in *. rewrite len_app, len_cons in *. unfold advance in *. simpl.
  unfold saturating_add at 2. rewrite N.min_l by lia. rewrite IH by lia. lia.
Qed.

(** The complete lines at the front of a file are replayed entry by entry. *)
Lemma replay_lines_entries newline start ix es tail :
  Forall wf_entry es →
  replay_lines newline start ix (split_lines (log_bytes es ++ tail))
  = ix' ← try_fold apply_entry ix es;
    replay_lines newline (advance start es) ix' (split_lines tail).
Proof.
  revert start ix. induction es as [|e es IH]; intros start ix Hwf; [done|].
  apply Forall_cons in Hwf as [He Hwf]. destruct (json_line_chars e He) as (Hnl & Hcr & Hne).
  rewrite log_bytes_cons, <- app_assoc. cbn [app]. rewrite split_lines_app by done.
  cbn [replay_lines]. rewrite strip_cr_id by done. rewrite bool_decide_false by done.
  rewrite json_value_line, replay_line_entry by done. cbn [try_fold].
  destruct (apply_entry ix e); cbn; [|done]. by rewrite IH.
Qed.

(** Reopening a complete log replays it and leaves the file alone. *)
Lemma open_log_complete truncation es :
  Forall wf_entry es →
  open_log truncation (log_bytes es) = ix ← replay es; Ok (ix, log_bytes es).
Proof.
  intros Hwf. unfold open_log.
  replace (split_lines (log_bytes es)) with (split_lines (log_bytes es ++ []))
    by (by rewrite app_nil_r).
  rewrite replay_lines_entries by done. unfold replay.
  by destruct (try_fold apply_entry empty_index es).
Qed.

(** [tail] is what is left of a line: it holds no line end and is not empty. *)
Lemma open_log_tail truncation es tail :
  Forall wf_entry es → (x0a ∉ tail) → (x0d ∉ tail) → tail ≠ [] →
  open_log truncation (log_bytes es ++ tail)
  = ix ← replay es;
    match json_value tail with
    | JsonEof _ =>
      _ ← map_err NodeStorage truncation;
      Ok (ix, take (N.to_nat (advance 0 es)) (log_bytes es ++ tail))
    | JsonInvalid reason => Err (NodeStorage ("invalid node log entry: " +:+ reason))
    | JsonOk => ix ← replay_line ix tail; Ok (ix, log_bytes es ++ tail)
    end.
Proof.
  intros Hwf Hnl Hcr Hne. unfold open_log. rewrite replay_lines_entries by done.
  rewrite split_lines_single by done. unfold replay.
  destruct (try_fold apply_entry empty_index es) as [ix|]; [|done]. cbn [mbind result_bind].
  assert (bool_decide (last (log_bytes es ++ tail) = Some x0a) = false) as ->.
  { apply bool_decide_false. destruct (exists_last Hne) as (l & x & ->).
    rewrite app_assoc, last_snoc. intros [= ->]. set_solver. }
  cbn [replay_lines]. rewrite strip_cr_id by done. rewrite bool_decide_false by done.
  rewrite (bool_decide_true ([] = [])) by done. cbn [andb negb].
  destruct (json_value tail); [|done|done]. by destruct (replay_line ix tail).
Qed.

(** A line cut before its last byte is removed. *)
Lemma open_log_torn truncation es e tail :
  Forall wf_entry es → wf_entry e → tail `prefix_of` json_line e → tail ≠ [] →
  tail ≠ json_line e → len (log_bytes es) ≤ u64_max →
  open_log truncation (log_bytes es ++ tail)
  = ix ← replay es; _ ← map_err NodeStorage truncation; Ok (ix, log_bytes es).
Proof.
  intros Hwf He Hpre Hne Hneq Hlen. destruct (json_line_chars e He) as (Hnl & Hcr & _).
  assert (∀ b, b ∈ tail → b ∈ json_line e) as Hin
    by (destruct Hpre as [k Hk]; intros b; rewrite Hk; set_solver).
  rewrite open_log_tail by (done || naive_solver).
  destruct (json_value_prefix e tail He Hpre Hne Hneq) as [reason ->].
  rewrite advance_exact by lia. rewrite N.add_0_l. unfold len. rewrite Nat2N.id.
  by rewrite take_app_length.
Qed.

(** A line that lost only its newline is replayed, and the newline stays
    missing. *)
Lemma open_log_no_newline truncation es e :
  Forall wf_entry es → wf_entry e →
  open_log truncation (log_bytes es ++ json_line e)
  = ix ← replay (es ++ [e]); Ok (ix, log_bytes es ++ json_line e).
Proof.
  intros Hwf He. destruct (json_line_chars e He) as (Hnl & Hcr & Hne).
  rewrite open_log_tail by done. rewrite json_value_line, replay_snoc by done.
  destruct (replay es) as [ix|]; [|done]. cbn. by rewrite replay_line_entry.
Qed.

(** Two entries joined on one line are refused. *)
Lemma open_log_joined truncation es e e' ix :
  Forall wf_entry es → wf_entry e → wf_entry e' → replay es = Ok ix →
  ∃ reason, open_log truncation (log_bytes es ++ json_line e ++ entry_line e')
            = Err (NodeStorage reason).
Proof.
  intros Hes He He' Hix. destruct (json_line_chars e He) as (Hnl & Hcr & Hne).
  destruct (json_line_chars e' He') as (Hnl' & Hcr' & _).
  destruct (json_value_trailing e e' He He') as [reason Ht].
  exists ("invalid node log entry: " +:+ reason). unfold open_log, entry_line.
  rewrite replay_lines_entries by done. unfold replay in Hix. rewrite Hix. cbn [mbind result_bind].
  replace (json_line e ++ json_line e' ++ [x0a])
    with ((json_line e ++ json_line e') ++ x0a :: []) by (by rewrite <- app_assoc).
  rewrite split_lines_app by (rewrite elem_of_app; tauto).
  cbn [replay_lines]. rewrite strip_cr_id by (rewrite elem_of_app; tauto).
  rewrite bool_decide_false by (by intros [? _]%app_nil). by rewrite Ht.
Qed.

(** ** Cut writes *)

(** The first [n] bytes of a write: complete lines, then nothing, a strict prefix
    of the next line's JSON, or all of it without the newline. *)
Lemma take_log_bytes n ps :
  ∃ k tail, take n (log_bytes ps) = log_bytes (take k ps) ++ tail
    ∧ (tail = [] ∧ (k = length ps ∨ length (log_bytes (take k ps)) = n)
       ∨ ∃ e, ps !! k = Some e ∧ tail `prefix_of` json_line e ∧ tail ≠ []).
Proof.
  revert n. induction ps as [|e ps IH]; intros n.
  { exists 0%nat, []. split; [by destruct n|]. left. by split; [|left]. }
  destruct (decide (n ≤ length (json_line e))%nat) as [Hle|Hgt].
  - exists 0%nat, (take n (json_line e)). rewrite log_bytes_cons. split.
    { by rewrite take_app_le. }
    destruct n as [|n]; [left; split; [done|by right]|].
    destruct (json_line e) as [|b rest] eqn:Hj; [simpl in Hle; lia|].
    right. exists e. split; [done|]. rewrite Hj. split; [apply prefix_take|done].
  - destruct (IH (n - length (entry_line e))%nat) as (k & tail & Htake & Htail).
    exists (S k), tail. cbn [take]. rewrite !log_bytes_cons. split.
    + rewrite take_app_ge by lia. unfold entry_line in Htake. rewrite length_app in Htake.
      simpl in Htake. rewrite <- app_assoc. f_equal.
      replace (n - length (json_line e))%nat
        with (S (n - (length (json_line e) + 1)))%nat by lia.
      cbn [take app]. by rewrite Htake.
    + destruct Htail as [[-> Hk]|(e' & Hk & Hpre & Hne)]; [left|right; by exists e'].
      split; [done|]. destruct Hk as [->|Hk]; [by left|right].
      unfold entry_line in Hk. rewrite length_app in Hk. rewrite length_app. simpl in *. lia.
Qed.

End Replay.
