(* ===== verification/NodeOps.v ===== *)
(** * NodeOps: the operations of a storage member against its log

    The invariant of a running member, [node_inv]: its file is the log of some
    entries, and replaying them gives exactly its indexes.  Every operation of
    [NodeLog] keeps it, whatever its outcome, as long as a failed write leaves no
    bytes behind; so a member that is stopped at any moment and reopened is the
    same member ([reopen_is_identity]). *)

From S2P Require Import Prelude Text Wire Client Placement Manifest NodeLog NodeReplay.

(** ** Well-formed indexes *)

(** The writer epochs a member has seen for a stream: those of its records and of
    the prefix it compacted. *)
Definition epoch_in (records : gmap (string * N) EncryptedRecord)
    (trimmed : gmap string TrimmedPrefix) (stream : string) (epoch : N) : Prop :=
  (∃ lsn r, records !! (stream, lsn) = Some r ∧ er_writer_epoch r = epoch)
  ∨ (∃ p, trimmed !! stream = Some p ∧ tp_writer_epoch p = epoch).

Definition highest_ok (ix : LogIndex) : Prop :=
  ∀ stream, is_max (ix_highest ix !! stream) (epoch_in (ix_records ix) (ix_trimmed ix) stream).

Record index_ok (ix : LogIndex) : Prop := {
  ok_key k r : ix_records ix !! k = Some r → record_key r = k;
  ok_committed k r : ix_committed ix !! k = Some r → ix_records ix !! k = Some r;
  ok_trimmed s p : ix_trimmed ix !! s = Some p →
    tp_stream p = s ∧ s ≠ "" ∧ tp_archived_lsn p ≠ 0;
  ok_above s l r : ix_records ix !! (s, l) = Some r → below_prefix ix s l = false;
  ok_highest : highest_ok ix;
  ok_wf_record k r : ix_records ix !! k = Some r → wf_record r;
  ok_wf_trimmed s p : ix_trimmed ix !! s = Some p →
    wf_entry (LogTrim s (tp_archived_lsn p) (tp_writer_epoch p));
}.

Lemma empty_index_ok : index_ok empty_index.
Proof.
  split; try by (intros *; simpl; rewrite lookup_empty).
  intros stream. simpl. rewrite lookup_empty. simpl.
  intros x [(lsn & r & Hr & _)|(p & Hp & _)]; by rewrite lookup_empty in *.
Qed.

Lemma elem_of_stream_epochs records trimmed stream x :
  x ∈ stream_epochs records trimmed stream ↔ epoch_in records trimmed stream x.
Proof.
  unfold stream_epochs, epoch_in. rewrite elem_of_app, list_elem_of_fmap. f_equiv.
  - split.
    + intros ([[s l] r] & -> & [Hs Hin]%list_elem_of_filter). simpl in *. subst.
      apply elem_of_btree_entries in Hin. by exists l, r.
    + intros (l & r & Hr & <-). exists ((stream, l), r). split; [done|].
      apply list_elem_of_filter. split; [done|]. by apply elem_of_btree_entries.
  - destruct (trimmed !! stream) as [p|]; [|rewrite elem_of_nil; naive_solver].
    rewrite list_elem_of_singleton. naive_solver.
Qed.

(** ** Index updates *)

Lemma insert_record_highest ix r :
  highest_ok ix →
  (∀ r', ix_records ix !! record_key r = Some r' → r' = r) →
  highest_ok (insert_record ix r).
Proof.
  intros Hh Hkey stream. unfold insert_record; simpl. rewrite lookup_insert.
  case_decide as Heq.
  - subst stream. eapply is_max_iff, is_max_add, (Hh (er_stream r)).
    intros x. unfold epoch_in. split.
    + intros [[(l & r' & Hr' & <-)|Hp]| ->]; [left|by right|left].
      * exists l, r'. split; [|done]. rewrite lookup_insert. case_decide as Hk; [|done].
        rewrite <- Hk in Hr'. by rewrite (Hkey _ Hr').
      * exists (er_lsn r), r. split; [|done]. by rewrite lookup_insert_eq.
    + intros [(l & r' & Hr' & <-)|Hp]; [|by left; right].
      rewrite lookup_insert in Hr'. case_decide as Hk; [right; congruence|].
      left. left. by exists l, r'.
  - eapply is_max_iff, Hh. intros x. unfold epoch_in.
    setoid_rewrite lookup_insert_ne; [done|]. unfold record_key. congruence.
Qed.

(** A record that may be appended: a Rust value, above the compacted prefix, at a
    free position. *)
Definition appendable (ix : LogIndex) (r : EncryptedRecord) : Prop :=
  wf_record r ∧ below_prefix ix (er_stream r) (er_lsn r) = false
  ∧ ix_records ix !! record_key r = None.

Lemma insert_record_ok ix r : index_ok ix → appendable ix r → index_ok (insert_record ix r).
Proof.
  intros Hok (Hwf & Hbelow & Hnone). split; simpl; try apply Hok.
  - intros k r'. rewrite lookup_insert. case_decide; [congruence|apply (ok_key _ Hok)].
  - intros k r' Hc. apply (ok_committed _ Hok) in Hc. rewrite lookup_insert_ne; [done|congruence].
  - intros s l r'. rewrite lookup_insert. case_decide as Hk; [|apply (ok_above _ Hok)].
    intros _. unfold record_key in Hk. by injection Hk as <- <-.
  - apply insert_record_highest; [apply Hok|]. congruence.
  - intros k r'. rewrite lookup_insert. case_decide; [congruence|apply (ok_wf_record _ Hok)].
Qed.

Lemma insert_commit_ok ix r :
  index_ok ix → ix_records ix !! record_key r = Some r → index_ok (insert_commit ix r).
Proof.
  intros Hok Hr. split; simpl; try apply Hok.
  intros k r'. rewrite lookup_insert. case_decide; [congruence|apply (ok_committed _ Hok)].
Qed.

Lemma withdraw_suffix_highest ix stream from_lsn s :
  ix_highest (withdraw_suffix ix stream from_lsn) !! s =
  if decide (s = stream)
  then max_by (λ a b, b <=? a)
         (stream_epochs (ix_records (withdraw_suffix ix stream from_lsn)) (ix_trimmed ix) stream)
  else ix_highest ix !! s.
Proof.
  unfold withdraw_suffix; simpl. set (m := max_by _ _). case_decide as Hs.
  - subst. destruct m; [by rewrite lookup_insert_eq|by rewrite lookup_delete_eq].
  - destruct m; [by rewrite lookup_insert_ne|by rewrite lookup_delete_ne].
Qed.

Lemma withdraw_suffix_record ix stream from_lsn k r :
  ix_records (withdraw_suffix ix stream from_lsn) !! k = Some r ↔
  ix_records ix !! k = Some r ∧ (k.1 ≠ stream ∨ k.2 < from_lsn).
Proof. apply map_lookup_filter_Some. Qed.

Lemma withdraw_suffix_committed ix stream from_lsn k r :
  ix_committed (withdraw_suffix ix stream from_lsn) !! k = Some r ↔
  ix_committed ix !! k = Some r ∧ (k.1 ≠ stream ∨ k.2 < from_lsn).
Proof. apply map_lookup_filter_Some. Qed.

Lemma withdraw_suffix_ok ix stream from_lsn :
  index_ok ix → index_ok (withdraw_suffix ix stream from_lsn).
Proof.
  intros Hok. split.
  - intros k r [Hr _]%withdraw_suffix_record. by apply (ok_key _ Hok).
  - intros k r [Hc Hk]%withdraw_suffix_committed. apply withdraw_suffix_record.
    split; [by apply (ok_committed _ Hok)|done].
  - apply (ok_trimmed _ Hok).
  - intros s l r [Hr _]%withdraw_suffix_record. by apply (ok_above _ Hok) in Hr.
  - intros s. rewrite withdraw_suffix_highest. case_decide as Hs.
    + subst. eapply is_max_iff, max_by_is_max. intros x. apply elem_of_stream_epochs.
    + eapply is_max_iff, (ok_highest _ Hok). intros x. unfold epoch_in.
      setoid_rewrite withdraw_suffix_record. simpl. naive_solver.
  - intros k r [Hr _]%withdraw_suffix_record. by apply (ok_wf_record _ Hok) in Hr.
  - apply (ok_wf_trimmed _ Hok).
Qed.

(** ** Replay of what the operations write *)

Lemma index_record_insert ix r :
  (∀ r', ix_records ix !! record_key r = Some r' → r' = r) →
  index_record ix r = Ok (insert_record ix r).
Proof.
  intros Hkey. unfold index_record, insert_record.
  replace (match ix_highest ix !! er_stream r with
           | Some epoch => N.max epoch (er_writer_epoch r)
           | None => er_writer_epoch r end)
    with (N.max (default 0 (ix_highest ix !! er_stream r)) (er_writer_epoch r))
    by (case_match; simpl; lia).
  destruct (ix_records ix !! record_key r) as [r'|] eqn:Hr; [|done].
  by rewrite (Hkey r' eq_refl), bool_decide_true.
Qed.

Lemma apply_record ix r : appendable ix r → apply_entry ix (LogRecord r) = Ok (insert_record ix r).
Proof.
  intros (_ & Hbelow & Hnone). simpl. unfold replay_record. rewrite Hbelow.
  apply index_record_insert. congruence.
Qed.

Lemma apply_commit ix r :
  ix_records ix !! record_key r = Some r →
  apply_entry ix (LogCommit r) = Ok (insert_commit ix r).
Proof. intros Hr. simpl. unfold replay_commit. by rewrite bool_decide_true. Qed.

Lemma below_prefix_insert ix r s l : below_prefix (insert_record ix r) s l = below_prefix ix s l.
Proof. done. Qed.

(** Records with distinct keys are appended one after the other. *)
Lemma apply_records ix rs :
  index_ok ix → Forall (appendable ix) rs → NoDup (record_key <$> rs) →
  try_fold apply_entry ix (LogRecord <$> rs) = Ok (foldl insert_record ix rs)
  ∧ index_ok (foldl insert_record ix rs).
Proof.
  revert ix. induction rs as [|r rs IH]; intros ix Hok Hall Hnd; [done|].
  apply Forall_cons in Hall as [Hr Hall]. apply NoDup_cons in Hnd as [Hnot Hnd].
  cbn [fmap list_fmap try_fold]. rewrite apply_record by done. cbn [mbind result_bind foldl].
  apply IH; [by apply insert_record_ok| |done].
  rewrite Forall_forall in *. intros r' Hr'. destruct (Hall r' Hr') as (? & ? & Hnone).
  split; [done|]. split; [done|]. simpl. rewrite lookup_insert_ne; [done|].
  intros Heq. apply Hnot. rewrite Heq. by apply list_elem_of_fmap_2.
Qed.

Lemma foldl_insert_records ix rs k r :
  NoDup (record_key <$> rs) → Forall (λ r, ix_records ix !! record_key r = None) rs →
  ix_records (foldl insert_record ix rs) !! k = Some r ↔
  ix_records ix !! k = Some r ∨ (r ∈ rs ∧ record_key r = k).
Proof.
  revert ix. induction rs as [|a rs IH]; intros ix Hnd Hall; [set_solver|].
  apply Forall_cons in Hall as [Ha Hall]. apply NoDup_cons in Hnd as [Hnot Hnd].
  simpl. rewrite IH; [|done|].
  - simpl. rewrite lookup_insert, elem_of_cons. case_decide as Hk.
    + subst k. split.
      * intros [[= <-]|[Hin Hk]]; [by right; split; [left|]|].
        by right; split; [right|].
      * intros [Hr|[[->|Hin] Hk]]; [congruence|by left|by right].
    + naive_solver.
  - rewrite Forall_forall in *. intros r' Hr'. simpl. rewrite lookup_insert_ne; [by apply Hall|].
    intros Heq. apply Hnot. rewrite Heq. by apply list_elem_of_fmap_2.
Qed.

Lemma foldl_insert_commits_records ix rs : ix_records (foldl insert_commit ix rs) = ix_records ix.
Proof. revert ix. induction rs as [|r rs IH]; intros ix; simpl; [done|]. by rewrite IH. Qed.

Lemma apply_commits ix rs :
  index_ok ix → Forall (λ r, ix_records ix !! record_key r = Some r) rs →
  try_fold apply_entry ix (LogCommit <$> rs) = Ok (foldl insert_commit ix rs)
  ∧ index_ok (foldl insert_commit ix rs).
Proof.
  revert ix. induction rs as [|r rs IH]; intros ix Hok Hall; [done|].
  apply Forall_cons in Hall as [Hr Hall]. cbn [fmap list_fmap try_fold].
  rewrite apply_commit by done. cbn [mbind result_bind foldl].
  apply IH; [by apply insert_commit_ok|done].
Qed.

(** ** Compaction *)

(** A prefix a compaction may record for a stream: its own previous prefix, or one
    that is further and keeps the highest epoch seen. *)
Definition fresh_prefix (ix : LogIndex) (s : string) (p : TrimmedPrefix) : Prop :=
  tp_stream p = s ∧ s ≠ "" ∧ tp_archived_lsn p ≠ 0
  ∧ default 0 (ix_highest ix !! s) ≤ tp_writer_epoch p
  ∧ (∀ prev, ix_trimmed ix !! s = Some prev → tp_archived_lsn prev ≤ tp_archived_lsn p)
  ∧ wf_entry (LogTrim s (tp_archived_lsn p) (tp_writer_epoch p)).

Definition trims_ok (ix : LogIndex) (trimmed : gmap string TrimmedPrefix) : Prop :=
  ∀ s, (∀ p, trimmed !! s = Some p → ix_trimmed ix !! s = Some p ∨ fresh_prefix ix s p)
       ∧ (trimmed !! s = None → ix_trimmed ix !! s = None).

Definition wf_prefix (prefix : string * N * N) : Prop :=
  let '(s, archived_lsn, writer_epoch) := prefix in wf_entry (LogTrim s archived_lsn writer_epoch).

Lemma highest_le_u64 ix s : index_ok ix → default 0 (ix_highest ix !! s) ≤ u64_max.
Proof.
  intros Hok. pose proof (ok_highest _ Hok s) as Hm. destruct (ix_highest ix !! s) as [m|]; simpl; [|done].
  destruct Hm as [[(l & r & Hr & <-)|(p & Hp & <-)] _].
  - by apply (ok_wf_record _ Hok) in Hr as (_ & ? & _).
  - by apply (ok_wf_trimmed _ Hok) in Hp as (_ & _ & ?).
Qed.

Lemma trim_prefix_ok ix trimmed prefix trimmed' :
  index_ok ix → wf_prefix prefix → trims_ok ix trimmed →
  trim_prefix ix trimmed prefix = Ok trimmed' → trims_ok ix trimmed'.
Proof.
  destruct prefix as [[s a] w]. intros Hok Hwf Ht. simpl.
  destruct (bool_decide (s = "") || (a =? 0)) eqn:E1; [done|].
  destruct (match ix_trimmed ix !! s with Some p => a <? tp_archived_lsn p | None => false end)
    eqn:E2; [done|]. bool_facts. intros [= <-] s'. rewrite lookup_insert.
  case_decide as Hs; [|apply Ht]. subst s'. split; [|done]. intros p [= <-]. right.
  unfold fresh_prefix; simpl. split_and!; try done.
  - lia.
  - intros prev Hprev. rewrite Hprev in E2. by apply N.ltb_ge in E2.
  - apply Hwf.
  - apply Hwf.
  - pose proof (highest_le_u64 ix s Hok). destruct Hwf as (_ & _ & ?).
    destruct (ix_trimmed ix !! s) as [prev|] eqn:Hp; [|lia].
    apply (ok_wf_trimmed _ Hok) in Hp as (_ & _ & ?). lia.
Qed.

Lemma trim_prefixes_ok ix prefixes trimmed trimmed' :
  index_ok ix → Forall wf_prefix prefixes → trims_ok ix trimmed →
  try_fold (trim_prefix ix) trimmed prefixes = Ok trimmed' → trims_ok ix trimmed'.
Proof.
  intros Hok Hwf. revert trimmed. induction prefixes as [|p ps IH]; intros trimmed Ht Hf;
    [by injection Hf as <-|].
  apply Forall_cons in Hwf as [Hp Hps]. cbn [try_fold] in Hf. next Hf.
  eapply IH; [done| |done]. by eapply trim_prefix_ok.
Qed.

Lemma trims_ok_refl ix : trims_ok ix (ix_trimmed ix).
Proof. intros s. split; [by left|done]. Qed.

Lemma trims_ok_entry ix trimmed s p :
  index_ok ix → trims_ok ix trimmed → trimmed !! s = Some p →
  tp_stream p = s ∧ s ≠ "" ∧ tp_archived_lsn p ≠ 0
  ∧ wf_entry (LogTrim s (tp_archived_lsn p) (tp_writer_epoch p)).
Proof.
  intros Hok Ht Hp. destruct (proj1 (Ht s) p Hp) as [Hold|(? & ? & ? & _ & _ & ?)]; [|done].
  destruct (ok_trimmed _ Hok _ _ Hold) as (? & ? & ?). split; [done|]. split; [done|].
  split; [done|]. by apply (ok_wf_trimmed _ Hok).
Qed.

(** Retained records were already above the old prefix. *)
Lemma retained_spec trimmed k :
  retained trimmed k = true ↔ (∀ p, trimmed !! k.1 = Some p → tp_archived_lsn p < k.2).
Proof.
  unfold retained. destruct (trimmed !! k.1); [|naive_solver]. rewrite N.ltb_lt. naive_solver.
Qed.

Lemma foldl_raise_other highest ps s :
  (∀ p, p ∈ ps → tp_stream p ≠ s) → foldl raise_epoch highest ps !! s = highest !! s.
Proof.
  revert highest. induction ps as [|p ps IH]; intros highest Hne; [done|]. simpl.
  rewrite IH by (intros; apply Hne; by right). unfold raise_epoch.
  rewrite lookup_insert_ne; [done|]. apply Hne. by left.
Qed.

Lemma foldl_raise_one highest ps p :
  NoDup (tp_stream <$> ps) → p ∈ ps →
  foldl raise_epoch highest ps !! tp_stream p
  = Some (N.max (default 0 (highest !! tp_stream p)) (tp_writer_epoch p)).
Proof.
  revert highest. induction ps as [|q ps IH]; intros highest Hnd Hp;
    [by apply not_elem_of_nil in Hp|].
  cbn [fmap list_fmap] in Hnd. apply NoDup_cons in Hnd as [Hnot Hnd]. simpl.
  apply elem_of_cons in Hp as [->|Hp].
  - rewrite foldl_raise_other.
    2: { intros r Hr Heq. apply Hnot. rewrite <- Heq. by apply list_elem_of_fmap_2. }
    unfold raise_epoch. rewrite lookup_insert_eq. f_equal. case_match; simpl; lia.
  - rewrite IH by done. do 3 f_equal. unfold raise_epoch. rewrite lookup_insert_ne; [done|].
    intros Heq. apply Hnot. rewrite Heq. by apply list_elem_of_fmap_2.
Qed.

Lemma sbtree_values_streams ix trimmed :
  index_ok ix → trims_ok ix trimmed → NoDup (tp_stream <$> sbtree_values trimmed).
Proof.
  intros Hok Ht. unfold sbtree_values. rewrite <- list_fmap_compose.
  assert ((tp_stream ∘ snd <$> sbtree_entries trimmed) = (sbtree_entries trimmed).*1) as ->;
    [|apply NoDup_sbtree_keys].
  apply list_fmap_ext. intros i [s p] Hi. simpl.
  apply list_elem_of_lookup_2, elem_of_sbtree_entries in Hi.
  by destruct (trims_ok_entry _ _ _ _ Hok Ht Hi).
Qed.

Lemma compacted_highest ix trimmed s :
  index_ok ix → trims_ok ix trimmed →
  ix_highest (compacted_index ix trimmed) !! s
  = match trimmed !! s with
    | Some p => Some (N.max (default 0 (ix_highest ix !! s)) (tp_writer_epoch p))
    | None => ix_highest ix !! s
    end.
Proof.
  intros Hok Ht. unfold compacted_index; simpl. destruct (trimmed !! s) as [p|] eqn:Hp.
  - destruct (trims_ok_entry _ _ _ _ Hok Ht Hp) as (<- & _).
    apply foldl_raise_one; [by eapply sbtree_values_streams|].
    apply elem_of_sbtree_values. by eexists.
  - apply foldl_raise_other. intros p Hin Heq. apply elem_of_sbtree_values in Hin as [s' Hs'].
    destruct (trims_ok_entry _ _ _ _ Hok Ht Hs') as (? & _). congruence.
Qed.

Lemma compacted_record ix trimmed k r :
  ix_records (compacted_index ix trimmed) !! k = Some r ↔
  ix_records ix !! k = Some r ∧ retained trimmed k = true.
Proof. apply map_lookup_filter_Some. Qed.

Lemma compacted_committed ix trimmed k r :
  ix_committed (compacted_index ix trimmed) !! k = Some r ↔
  ix_committed ix !! k = Some r ∧ retained trimmed k = true.
Proof. apply map_lookup_filter_Some. Qed.

(** A stream whose prefix did not move keeps all its records. *)
Lemma retained_same ix trimmed s l r :
  index_ok ix → trimmed !! s = ix_trimmed ix !! s →
  ix_records ix !! (s, l) = Some r → retained trimmed (s, l) = true.
Proof.
  intros Hok Hs Hr. apply (ok_above _ Hok) in Hr. apply retained_spec. simpl. rewrite Hs.
  intros p Hp. unfold below_prefix in Hr. rewrite Hp in Hr. by apply N.leb_gt.
Qed.

Lemma compacted_highest_ok ix trimmed :
  index_ok ix → trims_ok ix trimmed → highest_ok (compacted_index ix trimmed).
Proof.
  intros Hok Ht s. rewrite compacted_highest by done.
  pose proof (ok_highest _ Hok s) as Hm.
  assert (∀ x, epoch_in (ix_records (compacted_index ix trimmed)) trimmed s x →
    x ≤ default 0 (ix_highest ix !! s) ∨ ∃ p, trimmed !! s = Some p ∧ x = tp_writer_epoch p) as Hle.
  { intros x [(l & r & Hr & <-)|(p & Hp & <-)]; [left|right; eauto].
    apply compacted_record in Hr as [Hr _].
    assert (epoch_in (ix_records ix) (ix_trimmed ix) s (er_writer_epoch r)) as Hin by (left; eauto).
    destruct (ix_highest ix !! s); simpl in *; [by apply Hm|by destruct (Hm _ Hin)]. }
  destruct (trimmed !! s) as [p|] eqn:Hp.
  - simpl. split.
    2: { intros x Hx. destruct (Hle x Hx) as [?|(p' & ? & ->)]; [lia|]. simplify_eq. lia. }
    destruct (proj1 (Ht s) p Hp) as [Hold|(_ & _ & _ & Hge & _)].
    + destruct (ix_highest ix !! s) as [m|] eqn:Hh; simpl.
      2: { right. exists p. split; [done|lia]. }
      destruct Hm as [Hatt Hub]. assert (tp_writer_epoch p ≤ m) by (apply Hub; right; eauto).
      rewrite N.max_l by done. destruct Hatt as [(l & r & Hr & <-)|(p' & Hp' & <-)].
      * left. exists l, r. split; [|done]. apply compacted_record. split; [done|].
        eapply retained_same; [done| |done]. congruence.
      * right. exists p'. split; [congruence|done].
    + rewrite N.max_r by done. right. by exists p.
  - pose proof (proj2 (Ht s) Hp) as Hold. eapply is_max_iff, Hm. intros x. unfold epoch_in; simpl.
    rewrite Hold, Hp. f_equiv. split; intros (l & r & Hr & <-); exists l, r; (split; [|done]).
    + apply compacted_record. split; [done|]. eapply retained_same; [done| |done]. congruence.
    + by apply compacted_record in Hr as [? _].
Qed.

Lemma compacted_index_ok ix trimmed :
  index_ok ix → trims_ok ix trimmed → index_ok (compacted_index ix trimmed).
Proof.
  intros Hok Ht. split.
  - intros k r [Hr _]%compacted_record. by apply (ok_key _ Hok).
  - intros k r [Hc ?]%compacted_committed. apply compacted_record.
    split; [by apply (ok_committed _ Hok)|done].
  - intros s p Hp. by destruct (trims_ok_entry _ _ _ _ Hok Ht Hp) as (? & ? & ? & _).
  - intros s l r [_ Hret]%compacted_record. rewrite retained_spec in Hret. simpl in Hret.
    unfold below_prefix; simpl. destruct (trimmed !! s); [|done]. apply N.leb_gt. by apply Hret.
  - by apply compacted_highest_ok.
  - intros k r [Hr _]%compacted_record. by apply (ok_wf_record _ Hok) in Hr.
  - intros s p Hp. by destruct (trims_ok_entry _ _ _ _ Hok Ht Hp) as (_ & _ & _ & ?).
Qed.

(** ** The compacted log replays to the compacted index *)

Definition trim_entry (p : TrimmedPrefix) : LogEntry :=
  LogTrim (tp_stream p) (tp_archived_lsn p) (tp_writer_epoch p).

Lemma replay_trim_entry ix p :
  tp_stream p ≠ "" → tp_archived_lsn p ≠ 0 → ix_trimmed ix !! tp_stream p = None →
  apply_entry ix (trim_entry p)
  = Ok (mkIndex (<[tp_stream p := tp_writer_epoch p]> (ix_highest ix)) (ix_records ix)
          (ix_committed ix) (<[tp_stream p := p]> (ix_trimmed ix))).
Proof.
  intros Hs Ha Hn. destruct p as [s a w]; simpl in *. unfold replay_trim.
  rewrite Hn. rewrite bool_decide_false by done. rewrite (proj2 (N.eqb_neq a 0)) by done.
  by rewrite bool_decide_false by (by intros [? ?]).
Qed.

Lemma replay_trims ix ps :
  ix_records ix = ∅ → highest_ok ix → NoDup (tp_stream <$> ps) →
  (∀ p, p ∈ ps → tp_stream p ≠ "" ∧ tp_archived_lsn p ≠ 0 ∧ ix_trimmed ix !! tp_stream p = None) →
  ∃ ix', try_fold apply_entry ix (trim_entry <$> ps) = Ok ix'
    ∧ ix_records ix' = ∅ ∧ ix_committed ix' = ix_committed ix ∧ highest_ok ix'
    ∧ ∀ s p, ix_trimmed ix' !! s = Some p ↔ ix_trimmed ix !! s = Some p ∨ (p ∈ ps ∧ tp_stream p = s).
Proof.
  revert ix. induction ps as [|p ps IH]; intros ix Hr Hh Hnd Hall.
  { exists ix. split_and!; try done. set_solver. }
  cbn [fmap list_fmap] in *. apply NoDup_cons in Hnd as [Hnot Hnd].
  destruct (Hall p) as (Hs & Ha & Hn); [by left|]. cbn [try_fold].
  rewrite replay_trim_entry by done. cbn [mbind result_bind].
  edestruct (IH (mkIndex (<[tp_stream p := tp_writer_epoch p]> (ix_highest ix)) (ix_records ix)
    (ix_committed ix) (<[tp_stream p := p]> (ix_trimmed ix)))) as (ix' & Hf & Hr' & Hc' & Hh' & Ht');
    [done| |done| |].
  - intros s. simpl. rewrite lookup_insert. case_decide as Heq.
    + subst s. simpl. unfold epoch_in. rewrite Hr, lookup_insert_eq. split.
      * right. by exists p.
      * intros x [(l & r & Hx & _)|(p' & [= <-] & <-)]; [by rewrite lookup_empty in Hx|done].
    + eapply is_max_iff, (Hh s). intros x. unfold epoch_in.
      by rewrite lookup_insert_ne by done.
  - intros q Hq. destruct (Hall q) as (? & ? & Hqn); [by right|]. split; [done|]. split; [done|].
    simpl. rewrite lookup_insert_ne; [done|]. intros Heq. apply Hnot. rewrite Heq.
    by apply list_elem_of_fmap_2.
  - exists ix'. split_and!; try done. intros s q. rewrite Ht'. simpl.
    rewrite lookup_insert, elem_of_cons. case_decide as Heq; [|naive_solver].
    subst s. rewrite Hn. split.
    + intros [[= <-]|[? ?]]; right; split; auto.
    + intros [?|[[->|Hin] ?]]; [done|by left|by right].
Qed.

(** The lines of one retained record. *)
Definition retained_lines (committed : gmap (string * N) EncryptedRecord)
    (kv : (string * N) * EncryptedRecord) : list LogEntry :=
  LogRecord kv.2 :: if bool_decide (committed !! kv.1 = Some kv.2) then [LogCommit kv.2] else [].

Lemma replay_retained_one ix committed k r :
  record_key r = k → below_prefix ix k.1 k.2 = false → ix_records ix !! k = None →
  try_fold apply_entry ix (retained_lines committed (k, r))
  = Ok (if bool_decide (committed !! k = Some r) then insert_commit (insert_record ix r) r
        else insert_record ix r).
Proof.
  intros <- Hb Hn. unfold retained_lines. cbn [fst snd try_fold].
  assert (apply_entry ix (LogRecord r) = Ok (insert_record ix r)) as ->.
  { simpl. unfold replay_record. change (record_key r).1 with (er_stream r) in Hb.
    change (record_key r).2 with (er_lsn r) in Hb. rewrite Hb.
    apply index_record_insert. congruence. }
  cbn [mbind result_bind]. case_bool_decide; [|done]. cbn [try_fold].
  rewrite apply_commit; [done|]. simpl. by rewrite lookup_insert_eq.
Qed.

Lemma replay_retained ix committed l :
  highest_ok ix → NoDup l.*1 →
  (∀ k r, (k, r) ∈ l →
     record_key r = k ∧ below_prefix ix k.1 k.2 = false
     ∧ ix_records ix !! k = None ∧ ix_committed ix !! k = None) →
  ∃ ix', try_fold apply_entry ix (concat (retained_lines committed <$> l)) = Ok ix'
    ∧ ix_trimmed ix' = ix_trimmed ix ∧ highest_ok ix'
    ∧ (∀ k r, ix_records ix' !! k = Some r ↔ ix_records ix !! k = Some r ∨ (k, r) ∈ l)
    ∧ (∀ k r, ix_committed ix' !! k = Some r ↔
         ix_committed ix !! k = Some r ∨ ((k, r) ∈ l ∧ committed !! k = Some r)).
Proof.
  revert ix. induction l as [|[k r] l IH]; intros ix Hh Hnd Hall.
  { exists ix. split_and!; try done; set_solver. }
  cbn [fmap list_fmap fst] in Hnd. apply NoDup_cons in Hnd as [Hnot Hnd].
  assert (∀ k' r', (k', r') ∈ l → k ≠ k') as Hfresh.
  { intros k' r' Hin ->. apply Hnot, list_elem_of_fmap. by exists (k', r'). }
  destruct (Hall k r) as (Hk & Hb & Hn & Hcn); [by left|]. cbn [fmap list_fmap concat].
  rewrite try_fold_app, replay_retained_one by done. cbn [mbind result_bind].
  set (ix1 := if bool_decide _ then _ else _).
  assert (ix_records ix1 = <[k := r]> (ix_records ix)) as Hr1
    by (unfold ix1; case_bool_decide; simpl; by rewrite Hk).
  assert (ix_trimmed ix1 = ix_trimmed ix) as Ht1 by (unfold ix1; by case_bool_decide).
  assert (∀ k' r', ix_committed ix1 !! k' = Some r' ↔ ix_committed ix !! k' = Some r'
    ∨ (k' = k ∧ r' = r ∧ committed !! k = Some r)) as Hc1.
  { intros k' r'. unfold ix1. case_bool_decide; simpl; [|naive_solver].
    rewrite Hk, lookup_insert. case_decide; naive_solver. }
  destruct (IH ix1) as (ix' & Hf & Ht' & Hh' & Hr' & Hc'); [|done| |].
  - assert (highest_ok (insert_record ix r)) by (apply insert_record_highest; [done|congruence]).
    unfold ix1. by case_bool_decide.
  - intros k' r' Hin. destruct (Hall k' r') as (? & ? & ? & ?); [by right|].
    specialize (Hfresh _ _ Hin). split; [done|]. unfold below_prefix. rewrite Ht1, Hr1.
    split; [done|]. rewrite lookup_insert_ne by done. split; [done|].
    apply eq_None_not_Some. intros [r'' [?|(? & _)]%Hc1]; congruence.
  - exists ix'. rewrite Hf, Ht', Ht1. split_and!; try done.
    + intros k' r'. rewrite Hr', Hr1, lookup_insert, elem_of_cons. case_decide; naive_solver.
    + intros k' r'. rewrite Hc', Hc1, elem_of_cons. naive_solver.
Qed.

Lemma compacted_entries_eq ix trimmed :
  compacted_entries ix trimmed
  = (trim_entry <$> sbtree_values trimmed)
    ++ concat (retained_lines (ix_committed ix)
         <$> filter (λ kv, retained trimmed kv.1 = true) (btree_entries (ix_records ix))).
Proof. done. Qed.

Lemma compacted_log_replays ix trimmed :
  index_ok ix → trims_ok ix trimmed →
  replay (compacted_entries ix trimmed) = Ok (compacted_index ix trimmed).
Proof.
  intros Hok Ht. rewrite compacted_entries_eq, replay_app. unfold replay.
  destruct (replay_trims empty_index (sbtree_values trimmed)) as (ix1 & -> & Hr1 & Hc1 & Hh1 & Ht1).
  { done. } { apply empty_index_ok. } { by eapply sbtree_values_streams. }
  { intros p [s Hp]%elem_of_sbtree_values.
    destruct (trims_ok_entry _ _ _ _ Hok Ht Hp) as (-> & ? & ? & _). simpl. by rewrite lookup_empty. }
  cbn [mbind result_bind].
  assert (ix_trimmed ix1 = trimmed) as Heq.
  { apply map_eq_iff. intros s p. rewrite Ht1. simpl. rewrite lookup_empty. split.
    - intros [?|[[s' Hs']%elem_of_sbtree_values Hs]]; [done|].
      destruct (trims_ok_entry _ _ _ _ Hok Ht Hs') as (? & _). congruence.
    - intros Hp. right. split; [apply elem_of_sbtree_values; by exists s|].
      by destruct (trims_ok_entry _ _ _ _ Hok Ht Hp). }
  destruct (replay_retained ix1 (ix_committed ix)
    (filter (λ kv, retained trimmed kv.1 = true) (btree_entries (ix_records ix))))
    as (ix2 & -> & Ht2 & Hh2 & Hr2 & Hc2).
  { done. }
  { eapply sublist_NoDup; [apply (NoDup_btree_keys (ix_records ix))|].
    apply fmap_sublist, sublist_filter. }
  { intros k r [Hret Hin]%list_elem_of_filter. apply elem_of_btree_entries in Hin.
    split; [by apply (ok_key _ Hok)|]. rewrite Hr1, Hc1. simpl. rewrite !lookup_empty.
    split; [|done]. simpl in Hret. rewrite retained_spec in Hret. unfold below_prefix.
    rewrite Heq. destruct (trimmed !! k.1); [|done]. apply N.leb_gt. by apply Hret. }
  f_equal.
  assert (ix_records ix2 = ix_records (compacted_index ix trimmed)) as Hrec.
  { apply map_eq_iff. intros k r. rewrite Hr2, Hr1, lookup_empty, compacted_record.
    rewrite list_elem_of_filter, elem_of_btree_entries. naive_solver. }
  assert (ix_committed ix2 = ix_committed (compacted_index ix trimmed)) as Hcom.
  { apply map_eq_iff. intros k r. rewrite Hc2, Hc1, compacted_committed. simpl.
    rewrite lookup_empty, list_elem_of_filter, elem_of_btree_entries. simpl. split; [naive_solver|].
    intros [Hc ?]. right. split; [|done]. split; [done|]. by apply (ok_committed _ Hok). }
  assert (ix_highest ix2 = ix_highest (compacted_index ix trimmed)) as Hhigh.
  { apply map_eq. intros s. eapply is_max_unique; [apply Hh2|by apply compacted_highest_ok|].
    intros x. by rewrite Hrec, Ht2, Heq. }
  destruct ix2. simpl in *. unfold compacted_index in *. simpl in *. congruence.
Qed.

(** ** Appends *)

(** [record] has its predecessor on the member: in the log, in the compacted
    prefix, among [batch], or proved by the manifest. *)
Definition has_predecessor (d : DiskReplica) (batch : list EncryptedRecord)
    (r : EncryptedRecord) : Prop :=
  er_lsn r ≤ 1
  ∨ (∃ p, p ∈ batch ∧ er_stream p = er_stream r ∧ er_lsn p = er_lsn r - 1)
  ∨ is_Some (ix_records (dr_index d) !! (er_stream r, er_lsn r - 1))
  ∨ (∃ p, ix_trimmed (dr_index d) !! er_stream r = Some p ∧ tp_archived_lsn p = er_lsn r - 1)
  ∨ has_manifest_boundary d r = true.

Lemma check_append_new d batch r :
  check_append d batch r = Ok true →
  below_prefix (dr_index d) (er_stream r) (er_lsn r) = false
  ∧ ix_records (dr_index d) !! record_key r = None
  ∧ default 0 (ix_highest (dr_index d) !! er_stream r) ≤ er_writer_epoch r
  ∧ has_predecessor d batch r.
Proof.
  unfold check_append, saturating_sub.
  destruct (N.ltb_spec (er_writer_epoch r) (default 0 (ix_highest (dr_index d) !! er_stream r)));
    [done|].
  destruct (below_prefix _ _ _); [done|].
  destruct (ix_records (dr_index d) !! record_key r) as [e|]; [by case_bool_decide|].
  match goal with |- context [if ?b then _ else _] => destruct b eqn:E end; [done|]. intros _.
  split_and!; try done. unfold has_predecessor.
  rewrite !andb_false_iff, !negb_false_iff in E.
  destruct E as [[[[E|E]|E]|E]|E].
  - left. by apply N.ltb_ge.
  - right. left. apply existsb_exists in E as (p & Hp & Heq). bool_facts.
    exists p. by rewrite list_elem_of_In.
  - right. right. left. by apply bool_decide_eq_true in E.
  - right. right. right. left. destruct (ix_trimmed (dr_index d) !! er_stream r) as [p|]; [|done].
    exists p. split; [done|by apply N.eqb_eq].
  - by do 4 right.
Qed.

Lemma check_append_old d batch r :
  check_append d batch r = Ok false → ix_records (dr_index d) !! record_key r = Some r.
Proof.
  unfold check_append. destruct (_ <? _); [done|]. destruct (below_prefix _ _ _); [done|].
  destruct (ix_records (dr_index d) !! record_key r) as [e|];
    [by case_bool_decide; subst|by case_match].
Qed.

(** What the first loop of a batch collects. *)
Lemma collect_new_spec d records news :
  collect_new d records = Ok news →
  news `sublist_of` records
  ∧ (∀ r, r ∈ records → r ∈ news ∨ ix_records (dr_index d) !! record_key r = Some r)
  ∧ (∀ i r, news !! i = Some r → check_append d (take i news) r = Ok true).
Proof.
  unfold collect_new.
  assert (∀ acc, (∀ i r, acc !! i = Some r → check_append d (take i acc) r = Ok true) →
    try_fold (λ news r, is_new ← check_append d news r;
      Ok (if is_new : bool then news ++ [r] else news)) acc records = Ok news →
    ∃ more, news = acc ++ more ∧ more `sublist_of` records
      ∧ (∀ r, r ∈ records → r ∈ more ∨ ix_records (dr_index d) !! record_key r = Some r)
      ∧ (∀ i r, news !! i = Some r → check_append d (take i news) r = Ok true)) as Hgen.
  { induction records as [|r records IH]; intros acc Hacc Hf.
    - injection Hf as <-. exists []. rewrite app_nil_r. split_and!; try done. set_solver.
    - cbn [try_fold] in Hf. next Hf. next Hx. injection Hx as <-. destruct x0.
      + destruct (IH (acc ++ [r])) as (more & -> & Hsub & Hall & Hchk); [|done|].
        { intros i r'. rewrite lookup_app_Some. intros [Hi|[Hge Hi]].
          - rewrite take_app_le by (apply lookup_lt_Some in Hi; lia). by apply Hacc.
          - destruct (i - length acc)%nat eqn:Hd; simplify_eq/=.
            replace i with (length acc) by lia. by rewrite take_app_length. }
        exists (r :: more). rewrite <- app_assoc in *. split_and!; try done.
        * by apply sublist_skip.
        * intros r' [->|Hr']%elem_of_cons; [left; by left|].
          destruct (Hall r' Hr') as [?|?]; [left; by right|by right].
      + destruct (IH acc Hacc Hf) as (more & -> & Hsub & Hall & Hchk).
        exists more. split_and!; try done; [by apply sublist_cons|].
        intros r' [->|Hr']%elem_of_cons; [right; by eapply check_append_old|by apply Hall]. }
  intros Hf. destruct (Hgen [] ltac:(done) Hf) as (more & -> & ? & ? & ?). done.
Qed.

Lemma collect_commits_spec d news records commits :
  collect_commits d news records = Ok commits →
  ∀ r, r ∈ commits → r ∈ records ∧ (ix_records (dr_index d) !! record_key r = Some r ∨ r ∈ news).
Proof.
  unfold collect_commits. set (f := λ new_commits record, _).
  assert (∀ records acc, try_fold f acc records = Ok commits →
    ∀ r, r ∈ commits → r ∈ acc ∨ (r ∈ records
      ∧ (ix_records (dr_index d) !! record_key r = Some r ∨ r ∈ news))) as Hgen.
  { clear records. induction records as [|r records IH]; intros acc Hf r' Hr'.
    - injection Hf as <-. by left.
    - cbn [try_fold] in Hf. next Hf. destruct (IH _ Hf r' Hr') as [Hin|[Hin ?]].
      2: { right. split; [by right|done]. }
      unfold f in Hx. destruct (below_prefix _ _ _); [injection Hx as <-; by left|].
      destruct (bool_decide _); [injection Hx as <-; by left|].
      destruct (bool_decide _); [done|].
      destruct (bool_decide (_ = Some r) || _) eqn:E in Hx; [|done]. injection Hx as <-.
      apply elem_of_app in Hin as [?|Hin]; [by left|]. apply list_elem_of_singleton in Hin as ->.
      right. split; [by left|]. apply orb_true_iff in E as [E|E]; bool_facts; [by left|right].
      apply existsb_exists in E as (x' & Hx' & E). bool_facts. subst.
      by apply list_elem_of_In. }
  intros Hf r Hr. destruct (Hgen _ _ Hf r Hr) as [Hin|?]; [by apply not_elem_of_nil in Hin|done].
Qed.
