(* ===== verification/NodeSafety.v ===== *)
(** * NodeSafety: what a storage member guarantees

    A member between two calls is described by [node_inv]; [node_step] is one
    call of one of its operations, or a restart.  The properties: reopening the
    log of a reachable member gives back its indexes; a write cut anywhere is
    recovered as a prefix of itself; the log never has a hole; appends are
    idempotent and fenced; maintenance generations only grow. *)

From S2P Require Import Prelude Text Wire Client Placement Manifest NodeLog NodeReplay NodeOps.

Section NodeSafety.
Context `{LogJsonLaws}.

(** ** The log invariant *)

(** The file is a log of well-typed entries whose replay is the index. *)
Definition log_inv (file : list byte) (ix : LogIndex) : Prop :=
  index_ok ix
  ∧ ∃ es, Forall wf_entry es ∧ file = log_bytes es ∧ replay es = Ok ix.

(** Replaying [es] after the log takes [ix] to [ix']. *)
Lemma log_inv_extend file ix es ix' :
  log_inv file ix → Forall wf_entry es → index_ok ix' →
  try_fold apply_entry ix es = Ok ix' → log_inv (file ++ log_bytes es) ix'.
Proof.
  intros (_ & es0 & Hwf0 & -> & Hr0) Hwf Hok Hf. split; [done|].
  exists (es0 ++ es). split; [by apply Forall_app|]. split; [by rewrite log_bytes_app|].
  by rewrite replay_app, Hr0.
Qed.

Lemma log_inv_empty : log_inv [] empty_index.
Proof. split; [apply empty_index_ok|]. by exists []. Qed.

Lemma log_inv_open truncation file ix :
  log_inv file ix → open_log truncation file = Ok (ix, file).
Proof. intros (_ & es & Hwf & -> & Hr). rewrite open_log_complete by done. by rewrite Hr. Qed.

(** A write that leaves nothing behind when it fails. *)
Definition clean (io : WriteIo) : Prop :=
  match io with WriteDone => True | WriteFailed _ written => written = 0%nat end.

Lemma file_write_clean io file payload r file' :
  clean io → file_write io file payload = (r, file') →
  (r = Ok tt ∧ file' = file ++ payload) ∨ (is_ok r = false ∧ file' = file).
Proof.
  destruct io as [|reason n]; simpl.
  - intros _ [= <- <-]. by left.
  - intros -> [= <- <-]. right. by rewrite take_0, app_nil_r.
Qed.

(** ** Each operation *)

Lemma append_locked_new io d r token res d' :
  append_locked io d r token = (res, d') →
  d' = d
  ∨ (check_append d [] r = Ok true ∧ maintenance_allowed d token = true
     ∧ er_committed_lsn r < er_lsn r
     ∧ ∃ file, file_write io (dr_file d) (entry_line (LogRecord r)) = (res, file)
       ∧ d' = set_log d file (if is_ok res then insert_record (dr_index d) r else dr_index d)).
Proof.
  unfold append_locked. destruct (maintenance_allowed d token); [|intros [= _ <-]; by left].
  cbn [negb]. destruct (N.leb_spec (er_lsn r) (er_committed_lsn r)); [intros [= _ <-]; by left|].
  destruct (check_append d [] r) as [[|]|]; [|intros [= _ <-]; by left..].
  match goal with |- context [if ?b then _ else _] => destruct b end; [intros [= _ <-]; by left|].
  destruct (file_write io (dr_file d) _) as [[[]|e] file] eqn:Hw; intros [= <- <-];
    right; split_and!; try done; by exists file.
Qed.

Lemma append_locked_inv io d r token res d' :
  log_inv (dr_file d) (dr_index d) → wf_record r → clean io →
  append_locked io d r token = (res, d') → log_inv (dr_file d') (dr_index d').
Proof.
  intros Hinv Hwf Hclean [->|(Hc & _ & _ & file & Hw & ->)]%append_locked_new; [done|].
  apply check_append_new in Hc as (Hb & Hn & _ & _).
  apply file_write_clean in Hw as [[-> ->]|[-> ->]]; [|done|done]. simpl.
  assert (appendable (dr_index d) r) as Ha by done.
  rewrite <- log_bytes_one. eapply log_inv_extend; [done|by apply Forall_singleton| |].
  - apply insert_record_ok; [apply Hinv|done].
  - cbn [try_fold]. by rewrite apply_record.
Qed.

Lemma commit_inner_inv io d r token res d' :
  log_inv (dr_file d) (dr_index d) → clean io →
  commit_inner io d r token = (res, d') → log_inv (dr_file d') (dr_index d').
Proof.
  intros Hinv Hclean. unfold commit_inner.
  destruct (negb _); [intros [= _ <-]; done|]. destruct (_ <=? _); [intros [= _ <-]; done|].
  destruct (below_prefix _ _ _); [intros [= _ <-]; done|].
  destruct (bool_decide_reflect (ix_records (dr_index d) !! record_key r = Some r)) as [Hr|];
    [|intros [= _ <-]; done]. cbn [negb].
  do 2 (destruct (bool_decide _); [intros [= _ <-]; done|]).
  destruct (file_write io (dr_file d) _) as [w file] eqn:Hw.
  apply file_write_clean in Hw as [[-> ->]|[Hno ->]]; [..|done].
  - intros [= _ <-]. simpl. rewrite <- log_bytes_one.
    destruct Hinv as [Hok Hes]. eapply log_inv_extend; [by split| | |].
    + apply Forall_singleton. by apply (ok_wf_record _ Hok) in Hr.
    + by apply insert_commit_ok.
    + cbn [try_fold]. by rewrite apply_commit.
  - destruct w; [done|]. by intros [= _ <-].
Qed.

Lemma supersede_inv io d stream from_lsn epoch res d' :
  log_inv (dr_file d) (dr_index d) → clean io → wf_entry (LogSupersede stream from_lsn epoch) →
  supersede io d stream from_lsn epoch = (res, d') → log_inv (dr_file d') (dr_index d').
Proof.
  intros Hinv Hclean Hwf. unfold supersede.
  destruct (_ || _); [intros [= _ <-]; done|]. destruct (below_prefix _ _ _); [intros [= _ <-]; done|].
  destruct (bool_decide _); [intros [= _ <-]; done|]. destruct (existsb _ _); [intros [= _ <-]; done|].
  destruct (file_write io (dr_file d) _) as [w file] eqn:Hw.
  apply file_write_clean in Hw as [[-> ->]|[Hno ->]]; [..|done].
  - intros [= _ <-]. simpl. rewrite <- log_bytes_one.
    eapply log_inv_extend; [done|by apply Forall_singleton| |done].
    apply withdraw_suffix_ok, Hinv.
  - destruct w; [done|]. by intros [= _ <-].
Qed.

Lemma compacted_entries_wf ix trimmed :
  index_ok ix → trims_ok ix trimmed → Forall wf_entry (compacted_entries ix trimmed).
Proof.
  intros Hok Ht. rewrite compacted_entries_eq. apply Forall_app. split.
  - apply Forall_fmap, Forall_forall. intros p [s Hp]%elem_of_sbtree_values.
    destruct (trims_ok_entry _ _ _ _ Hok Ht Hp) as (<- & _ & _ & ?). done.
  - apply Forall_concat, Forall_fmap, Forall_forall. intros [k r] [_ Hin]%list_elem_of_filter.
    apply elem_of_btree_entries, (ok_wf_record _ Hok) in Hin.
    unfold retained_lines. simpl. apply Forall_cons. split; [done|].
    case_bool_decide; [by apply Forall_singleton|by apply Forall_nil].
Qed.

Lemma compact_inv io d prefixes res d' :
  log_inv (dr_file d) (dr_index d) → Forall wf_prefix prefixes →
  compact_archived_batch io d prefixes = (res, d') → log_inv (dr_file d') (dr_index d').
Proof.
  intros Hinv Hwf. unfold compact_archived_batch. destruct (bool_decide _); [intros [= _ <-]; done|].
  destruct (try_fold _ _ prefixes) as [trimmed|] eqn:Ht; [|intros [= _ <-]; done].
  apply trim_prefixes_ok in Ht; [|apply Hinv|done|apply trims_ok_refl].
  match goal with |- context [if ?b then _ else _] => destruct b end; [intros [= _ <-]; done|].
  assert (log_inv (log_bytes (compacted_entries (dr_index d) trimmed))
            (compacted_index (dr_index d) trimmed)) as Hnew.
  { destruct Hinv as [Hok _]. split; [by apply compacted_index_ok|].
    exists (compacted_entries (dr_index d) trimmed).
    split; [by apply compacted_entries_wf|]. split; [done|]. by apply compacted_log_replays. }
  destruct io; intros [= _ <-]; done.
Qed.

Lemma batch_appendable d records news :
  Forall wf_record records → batch_shape records → collect_new d records = Ok news →
  Forall (appendable (dr_index d)) news ∧ NoDup (record_key <$> news).
Proof.
  intros Hwf Hshape Hnew. destruct (collect_new_spec _ _ _ Hnew) as (Hsub & _ & Hchk). split.
  - apply Forall_lookup. intros i r Hi.
    destruct (check_append_new _ _ _ (Hchk _ _ Hi)) as (? & ? & _).
    split; [|done]. rewrite Forall_forall in Hwf. apply Hwf.
    eapply sublist_subseteq; [done|]. by eapply list_elem_of_lookup_2.
  - eapply sublist_NoDup; [by apply batch_shape_NoDup|]. by apply fmap_sublist.
Qed.

(** The index a batch leaves when only the first [k] of its lines survive. *)
Definition batch_prefix (ix : LogIndex) (news commits : list EncryptedRecord) (k : nat) : LogIndex :=
  foldl insert_commit (foldl insert_record ix (take k news)) (take (k - length news) commits).

Definition batch_lines (news commits : list EncryptedRecord) : list LogEntry :=
  (LogRecord <$> news) ++ (LogCommit <$> commits).

Definition present (d : DiskReplica) (records news commits : list EncryptedRecord) : Prop :=
  ∀ r, r ∈ commits → r ∈ records ∧ (ix_records (dr_index d) !! record_key r = Some r ∨ r ∈ news).

Lemma batch_prefix_replay d records news commits k :
  index_ok (dr_index d) → Forall wf_record records → batch_shape records →
  collect_new d records = Ok news → present d records news commits →
  try_fold apply_entry (dr_index d) (take k (batch_lines news commits))
    = Ok (batch_prefix (dr_index d) news commits k)
  ∧ index_ok (batch_prefix (dr_index d) news commits k).
Proof.
  intros Hok Hwf Hshape Hn Hc. destruct (batch_appendable _ _ _ Hwf Hshape Hn) as [Happ Hnd].
  destruct (apply_records (dr_index d) (take k news) Hok) as [Hr1 Hok1].
  { by apply Forall_take. } { eapply sublist_NoDup; [done|]. by apply fmap_sublist, sublist_take. }
  unfold batch_prefix, batch_lines. rewrite take_app, length_fmap, try_fold_app, <- !fmap_take, Hr1.
  cbn [mbind result_bind]. destruct (decide (k ≤ length news)%nat) as [Hle|Hgt].
  { replace (k - length news)%nat with 0%nat by lia. done. }
  rewrite take_ge in * by lia. apply apply_commits; [done|]. apply Forall_take, Forall_forall.
  intros r Hr. apply foldl_insert_records; [done| |].
  - eapply Forall_impl; [done|]. by intros r' (_ & _ & ?).
  - destruct (Hc r Hr) as [_ [?|?]]; auto.
Qed.

Lemma batch_prefix_all ix news commits :
  batch_prefix ix news commits (length (batch_lines news commits))
  = foldl insert_commit (foldl insert_record ix news) commits.
Proof.
  unfold batch_prefix, batch_lines. rewrite length_app, !length_fmap.
  rewrite take_ge by lia. by rewrite (take_ge commits) by lia.
Qed.

(** A batch that was written: its lines, and their replay. *)
Lemma batch_replay d records news commits :
  index_ok (dr_index d) → Forall wf_record records → batch_shape records →
  collect_new d records = Ok news → present d records news commits →
  Forall wf_entry (batch_lines news commits)
  ∧ try_fold apply_entry (dr_index d) (batch_lines news commits)
    = Ok (foldl insert_commit (foldl insert_record (dr_index d) news) commits)
  ∧ index_ok (foldl insert_commit (foldl insert_record (dr_index d) news) commits).
Proof.
  intros Hok Hwf Hshape Hn Hc.
  destruct (batch_prefix_replay d records news commits (length (batch_lines news commits)))
    as [Hr Hok']; [done..|].
  rewrite batch_prefix_all in *. rewrite firstn_all in Hr. split; [|done].
  destruct (collect_new_spec _ _ _ Hn) as (Hsub & _ & _). rewrite Forall_forall in Hwf.
  apply Forall_app. split; apply Forall_fmap, Forall_forall; intros r Hr'; apply Hwf.
  - by eapply sublist_subseteq.
  - by apply Hc.
Qed.

Lemma append_many_locked_written io restored d records token commit res d' :
  append_many_locked io restored d records token commit = (res, d') →
  d' = d
  ∨ (maintenance_allowed d token = true ∧ ∃ news commits file,
       collect_new d records = Ok news
       ∧ (if commit then collect_commits d news records else Ok []) = Ok commits
       ∧ file_write io (dr_file d)
           (log_bytes (batch_lines news commits)) = (res, file)
       ∧ d' = set_log d
                (if is_ok res then file
                 else if restored then take (length (dr_file d)) file else file)
                (if is_ok res
                 then foldl insert_commit (foldl insert_record (dr_index d) news) commits
                 else dr_index d)).
Proof.
  unfold append_many_locked. destruct (maintenance_allowed d token); [|intros [= _ <-]; by left].
  cbn [negb]. destruct (collect_new d records) as [news|] eqn:Hn; [|intros [= _ <-]; by left].
  cbn [mbind result_bind].
  destruct (if commit then collect_commits d news records else Ok []) as [commits|] eqn:Hc;
    [|intros [= _ <-]; by left]. cbn [mbind result_bind].
  destruct (bool_decide (news = []) && bool_decide (commits = [])); [intros [= _ <-]; by left|].
  destruct (file_write io (dr_file d) _) as [[[]|e] file] eqn:Hw; intros [= <- <-];
    right; (split; [done|]); by exists news, commits, file.
Qed.

Lemma collected_commits d commit news records commits :
  (if commit : bool then collect_commits d news records else Ok []) = Ok commits →
  present d records news commits.
Proof.
  destruct commit; [intros Hc r Hr; by eapply collect_commits_spec|].
  intros [= <-] r Hr. by apply not_elem_of_nil in Hr.
Qed.

Lemma append_many_locked_inv io restored d records token commit res d' :
  log_inv (dr_file d) (dr_index d) → Forall wf_record records → batch_shape records →
  clean io ∨ restored = true →
  append_many_locked io restored d records token commit = (res, d') →
  log_inv (dr_file d') (dr_index d').
Proof.
  intros Hinv Hwf Hshape Hio
    [->|(_ & news & commits & file & Hn & Hc & Hw & ->)]%append_many_locked_written; [done|].
  apply collected_commits in Hc.
  destruct (batch_replay _ _ _ _ (proj1 Hinv) Hwf Hshape Hn Hc) as (Hwfe & Hr & Hok).
  destruct io as [|reason n]; simplify_eq/=.
  - by eapply log_inv_extend.
  - destruct Hio as [-> | ->].
    + rewrite take_0, app_nil_r. destruct restored; [by rewrite firstn_all|done].
    + by rewrite take_app_length.
Qed.

(** ** Leases leave the log alone *)

Definition same_log (d d' : DiskReplica) : Prop :=
  dr_file d' = dr_file d ∧ dr_index d' = dr_index d
  ∧ dr_maintenance d' = dr_maintenance d ∧ dr_marker d' = dr_marker d
  ∧ dr_log_max_bytes d' = dr_log_max_bytes d
  ∧ dr_node_name d' = dr_node_name d ∧ dr_control d' = dr_control d.

#[local] Instance same_log_preorder : PreOrder same_log.
Proof. split; [by repeat split|]. intros d1 d2 d3. unfold same_log. intuition congruence. Qed.

Lemma placement_lease_same d stream placement res d' :
  placement_lease d stream placement = (res, d') → same_log d d'.
Proof.
  unfold placement_lease. destruct (dr_placement d) as [store|]; [|by intros [= _ <-]].
  destruct placement as [p|].
  - destruct (admit_lease store stream p). by intros [= _ <-].
  - destruct (contains_stream store stream) as [[|]|]; [by intros [= _ <-]| |by intros [= _ <-]].
    destruct (admit_lease store stream bootstrap). by intros [= _ <-].
Qed.

Lemma drop_lease_same d lease : same_log d (drop_lease d lease).
Proof. unfold drop_lease. by repeat case_match. Qed.

(** What [with_lease] did to the log, [body] did, on the same log. *)
Lemma with_lease_body d token stream placement body res d' :
  with_lease d token stream placement body = (res, d') →
  same_log d d' ∨ ∃ d1 d2, same_log d d1 ∧ body d1 = (res, d2) ∧ same_log d2 d'.
Proof.
  unfold with_lease. destruct token as [token|].
  - intros Hb. right. exists d, d'. by split_and!.
  - destruct (placement_lease d stream placement) as [[lease|e] d1] eqn:Hl;
      apply placement_lease_same in Hl.
    + destruct (body d1) as [r d2] eqn:Hb. intros [= <- <-]. right.
      exists d1, d2. split_and!; [done|done|apply drop_lease_same].
    + intros [= _ <-]. by left.
Qed.

Lemma same_log_inv d d' : same_log d d' → log_inv (dr_file d) (dr_index d) → log_inv (dr_file d') (dr_index d').
Proof. by intros (-> & -> & _). Qed.

(** ** Cut writes *)

(** The file ends where a line ends. *)
Definition whole (file : list byte) : Prop := file = [] ∨ last file = Some x0a.

Lemma json_line_not_whole file e : wf_entry e → ¬ whole (file ++ json_line e).
Proof.
  intros He. destruct (json_line_chars e He) as (Hnl & _ & Hne). intros [Hnil|Hlast].
  - by apply app_nil in Hnil as [_ ?].
  - destruct (last (json_line e)) as [b|] eqn:Hb; [|by apply last_None in Hb].
    rewrite last_app, Hb in Hlast. injection Hlast as ->. by apply last_Some_elem_of in Hb.
Qed.

Lemma log_bytes_take_lt ps k k' e :
  ps !! k = Some e → (k < k')%nat →
  (length (log_bytes (take k ps)) + length (entry_line e) ≤ length (log_bytes (take k' ps)))%nat.
Proof.
  intros He Hlt. replace k' with (S k + (k' - S k))%nat by lia.
  rewrite <- take_take_drop, log_bytes_app, (take_S_r _ _ e) by done.
  rewrite log_bytes_app, log_bytes_one, !length_app. lia.
Qed.

(** A file of complete lines followed by the first [n] bytes of further lines:
    a prefix of the further entries is recovered, at least those whose lines are
    complete, and nothing else is left in the file unless it lost just a newline. *)
Lemma open_log_cut es ps n ix :
  Forall wf_entry es → Forall wf_entry ps → len (log_bytes es ++ take n (log_bytes ps)) ≤ u64_max →
  replay es = Ok ix → is_ok (try_fold apply_entry ix ps) = true →
  ∃ k ix' file', try_fold apply_entry ix (take k ps) = Ok ix'
    ∧ open_log (Ok tt) (log_bytes es ++ take n (log_bytes ps)) = Ok (ix', file')
    ∧ (file' = log_bytes (es ++ take k ps) ∨ ¬ whole file')
    ∧ ∀ k', (k' ≤ length ps → length (log_bytes (take k' ps)) ≤ n → k' ≤ k)%nat.
Proof.
  intros Hes Hps Hlen Hix Hall.
  assert (∀ k, ∃ ix', try_fold apply_entry ix (take k ps) = Ok ix') as Hprefix.
  { intros k. rewrite <- (take_drop k ps), try_fold_app in Hall.
    destruct (try_fold apply_entry ix (take k ps)); [by eexists|done]. }
  assert (∀ k, Forall wf_entry (es ++ take k ps)) as Hwf
    by (intros k; apply Forall_app; split; [done|by apply Forall_take]).
  assert (∀ k ix', try_fold apply_entry ix (take k ps) = Ok ix' → replay (es ++ take k ps) = Ok ix')
    as Hreplay by (intros k ix' Hk; by rewrite replay_app, Hix).
  destruct (take_log_bytes n ps) as (k & tail & Htake & Htail).
  assert (∀ k', (k' ≤ length ps → length (log_bytes (take k' ps)) ≤ n → k' ≤ k)%nat) as Hmax.
  { intros k' Hk' Hn. destruct (decide (k' ≤ k)%nat) as [|Hgt]; [done|]. exfalso.
    destruct (lookup_lt_is_Some_2 ps k) as [e He]; [lia|].
    pose proof (log_bytes_take_lt ps k k' e He ltac:(lia)) as Hlt.
    pose proof (f_equal length Htake) as Hl. rewrite length_take, length_app in Hl.
    assert (length (log_bytes (take k' ps)) ≤ length (log_bytes ps))%nat.
    { rewrite <- (take_drop k' ps) at 2. rewrite log_bytes_app, length_app. lia. }
    unfold entry_line in Hlt. rewrite length_app in Hlt. simpl in Hlt.
    destruct Htail as [[-> _]|(e' & He' & Hpre & _)]; [simpl in Hl; lia|].
    simplify_eq. apply prefix_length in Hpre. lia. }
  rewrite Htake, app_assoc, <- log_bytes_app in Hlen |- *.
  destruct Htail as [[-> _]|(e & He & Hpre & Hne)].
  - destruct (Hprefix k) as [ix' Hix']. exists k, ix', (log_bytes (es ++ take k ps)).
    rewrite app_nil_r, open_log_complete, (Hreplay k ix') by done. split_and!; [done|done|by left|done].
  - assert (wf_entry e) as Hwe by (by eapply Forall_lookup_1).
    destruct (decide (tail = json_line e)) as [->|Hneq].
    + destruct (Hprefix (S k)) as [ix' Hix'].
      assert (es ++ take (S k) ps = (es ++ take k ps) ++ [e]) as Hsk
        by (by rewrite (take_S_r _ _ e), app_assoc).
      exists (S k), ix', (log_bytes (es ++ take k ps) ++ json_line e).
      rewrite open_log_no_newline, <- Hsk, (Hreplay (S k) ix') by done.
      split_and!; [done|done|right|intros k' ? ?; specialize (Hmax k'); lia].
      by apply json_line_not_whole.
    + destruct (Hprefix k) as [ix' Hix']. exists k, ix', (log_bytes (es ++ take k ps)).
      rewrite (open_log_torn _ _ e), (Hreplay k ix'); try done; [split_and!; [done|done|by left|done]|].
      rewrite len_app in Hlen. lia.
Qed.

(** ** Writes that end anywhere *)

(** One call that writes to the log, however its write ends. *)
Inductive write_call : DiskReplica → DiskReplica → Prop :=
| write_append io d r token placement res d' :
    wf_record r → append_inner_with_placement io d r token placement = (res, d') → write_call d d'
| write_append_many io restored d records token commit placement res d' :
    Forall wf_record records →
    append_many_inner_with_placement io restored d records token commit placement = (res, d') →
    write_call d d'
| write_commit io d r token res d' : commit_inner io d r token = (res, d') → write_call d d'
| write_supersede io d stream from_lsn epoch res d' :
    wf_entry (LogSupersede stream from_lsn epoch) →
    supersede io d stream from_lsn epoch = (res, d') → write_call d d'.

(** The lines such a call sends to the file. *)
Inductive pending (d : DiskReplica) : list LogEntry → Prop :=
| pending_none : pending d []
| pending_record r : wf_record r → check_append d [] r = Ok true → pending d [LogRecord r]
| pending_batch records news commits :
    Forall wf_record records → batch_shape records → collect_new d records = Ok news →
    present d records news commits → pending d (batch_lines news commits)
| pending_commit r : ix_records (dr_index d) !! record_key r = Some r → pending d [LogCommit r]
| pending_supersede stream from_lsn epoch :
    wf_entry (LogSupersede stream from_lsn epoch) → pending d [LogSupersede stream from_lsn epoch].

Lemma check_append_same d a batch r : same_log d a → check_append a batch r = check_append d batch r.
Proof.
  intros (_ & Hix & _ & _ & _ & Hn & Hc). unfold check_append, has_manifest_boundary. by rewrite Hix, Hn, Hc.
Qed.

Lemma collect_new_same d a records : same_log d a → collect_new a records = collect_new d records.
Proof.
  intros Ha. apply try_fold_ext. intros acc r. by rewrite (check_append_same d a).
Qed.

Lemma pending_same d a ps : same_log d a → pending a ps → pending d ps.
Proof.
  intros Ha Hp. pose proof Ha as (_ & Hix & _). destruct Hp as [|r Hwf Hc|records news commits Hwf Hsh Hn Hp|r Hr|]; [by constructor|..].
  - constructor; [done|]. by rewrite <- (check_append_same d a).
  - eapply pending_batch; [done|done|by rewrite <- (collect_new_same d a)|]. unfold present in *. by rewrite <- Hix.
  - constructor. by rewrite <- Hix.
  - by constructor.
Qed.

(** Any prefix of the lines replays. *)
Lemma pending_replay d ps :
  index_ok (dr_index d) → pending d ps →
  Forall wf_entry ps ∧ ∀ k, ∃ ix, try_fold apply_entry (dr_index d) (take k ps) = Ok ix ∧ index_ok ix.
Proof.
  intros Hok Hp.
  assert (∀ e ix, wf_entry e → apply_entry (dr_index d) e = Ok ix → index_ok ix →
    Forall wf_entry [e] ∧ ∀ k, ∃ ix, try_fold apply_entry (dr_index d) (take k [e]) = Ok ix ∧ index_ok ix) as Hone.
  { intros e ix He Ha Hix. split; [by apply Forall_singleton|]. intros [|k]; [by exists (dr_index d)|].
    exists ix. cbn [take try_fold]. rewrite Ha. cbn. rewrite take_nil. done. }
  destruct Hp as [|r Hwf Hc|records news commits Hwf Hsh Hn Hp|r Hr|stream from_lsn epoch Hwf].
  - split; [by apply Forall_nil|]. intros k. exists (dr_index d). by rewrite take_nil.
  - apply check_append_new in Hc as (Hb & Hn & _). assert (appendable (dr_index d) r) as Ha by done.
    eapply Hone; [done|by apply apply_record|by apply insert_record_ok].
  - split; [by apply (batch_replay d records)|]. intros k.
    destruct (batch_prefix_replay d records news commits k) as [Hr Hx]; [done..|]. eauto.
  - eapply Hone; [by apply (ok_wf_record _ Hok) in Hr|by apply apply_commit|by apply insert_commit_ok].
  - eapply Hone; [done|reflexivity|by apply withdraw_suffix_ok].
Qed.

Lemma file_write_cut io file payload r file' :
  file_write io file payload = (r, file') → ∃ n, file' = file ++ take n payload.
Proof.
  destruct io as [|reason n]; intros [= _ <-]; [|by exists n]. exists (length payload). by rewrite firstn_all.
Qed.

(** What a writing call leaves alone. *)
Definition same_member (d d' : DiskReplica) : Prop :=
  dr_maintenance d' = dr_maintenance d ∧ dr_marker d' = dr_marker d ∧ dr_log_max_bytes d' = dr_log_max_bytes d
  ∧ dr_node_name d' = dr_node_name d ∧ dr_control d' = dr_control d.

Lemma same_log_member d d' : same_log d d' → same_member d d'.
Proof. by intros (_ & _ & ? & ? & ? & ? & ?). Qed.

#[local] Instance same_member_preorder : PreOrder same_member.
Proof. split; [by repeat split|]. intros d1 d2 d3. unfold same_member. intuition congruence. Qed.

(** The file after a writing call: what it was, and the first bytes of the pending lines. *)
Definition written (d d' : DiskReplica) : Prop :=
  same_member d d' ∧ ∃ ps n, pending d ps ∧ dr_file d' = dr_file d ++ take n (log_bytes ps).

Lemma written_none d d' : same_log d d' → written d d'.
Proof.
  intros Hs. split; [by apply same_log_member|]. exists [], 0%nat. split; [constructor|].
  rewrite take_0, app_nil_r. apply Hs.
Qed.

Lemma written_lines d ps io file r ix :
  pending d ps → file_write io (dr_file d) (log_bytes ps) = (r, file) → written d (set_log d file ix).
Proof.
  intros Hp [n ->]%file_write_cut. split; [done|]. by exists ps, n.
Qed.

Lemma written_leased d a b d' : same_log d a → written a b → same_log b d' → written d d'.
Proof.
  intros Ha [Hm (ps & n & Hp & Hf)] Hb. split.
  - transitivity a; [by apply same_log_member|]. transitivity b; [done|by apply same_log_member].
  - exists ps, n. split; [by eapply pending_same|]. destruct Ha as [Haf _], Hb as [Hbf _]. by rewrite Hbf, Hf, Haf.
Qed.

Lemma write_call_written d d' : write_call d d' → written d d'.
Proof.
  intros [io d0 r token placement res d1 Hwf Hs|io restored d0 records token commit placement res d1 Hwf Hs
         |io d0 r token res d1 Hs|io d0 stream from_lsn epoch res d1 Hwf Hs].
  - apply with_lease_body in Hs as [Hs|(a & b & Ha & Hb & Hc)]; [by apply written_none|].
    eapply written_leased; [done| |done].
    apply append_locked_new in Hb as [->|(Hn & _ & _ & file & Hw & ->)]; [by apply written_none|].
    rewrite <- log_bytes_one in Hw. eapply written_lines; [|done]. by constructor.
  - unfold append_many_inner_with_placement in Hs.
    destruct (validate_append_batch records) as [[]|] eqn:Hv; [|injection Hs as _ <-; by apply written_none].
    apply validate_append_batch_sound in Hv.
    apply with_lease_body in Hs as [Hs|(a & b & Ha & Hb & Hc)]; [by apply written_none|].
    eapply written_leased; [done| |done].
    apply append_many_locked_written in Hb as [->|(_ & news & commits & file & Hn & Hcm & Hw & ->)]; [by apply written_none|].
    apply collected_commits in Hcm. assert (pending a (batch_lines news commits)) as Hp by by eapply pending_batch.
    destruct (is_ok res || negb restored) eqn:Hr.
    + assert ((if is_ok res then file else if restored then take (length (dr_file a)) file else file) = file) as ->
        by (destruct (is_ok res), restored; done). by eapply written_lines.
    + destruct (is_ok res), restored; try done. apply file_write_cut in Hw as [n ->]. rewrite take_app_length.
      split; [done|]. exists [], 0%nat. split; [constructor|]. by rewrite take_0, app_nil_r.
  - unfold commit_inner in Hs. destruct (negb _); [injection Hs as _ <-; by apply written_none|].
    destruct (_ <=? _); [injection Hs as _ <-; by apply written_none|].
    destruct (below_prefix _ _ _); [injection Hs as _ <-; by apply written_none|].
    destruct (bool_decide_reflect (ix_records (dr_index d0) !! record_key r = Some r)) as [Hr|];
      [|injection Hs as _ <-; by apply written_none]. cbn [negb] in Hs.
    do 2 (destruct (bool_decide _); [injection Hs as _ <-; by apply written_none|]).
    destruct (file_write io (dr_file d0) _) as [w file] eqn:Hw. rewrite <- log_bytes_one in Hw.
    destruct w; injection Hs as _ <-; (eapply written_lines; [|done]); by constructor.
  - unfold supersede in Hs. destruct (_ || _); [injection Hs as _ <-; by apply written_none|].
    destruct (below_prefix _ _ _); [injection Hs as _ <-; by apply written_none|].
    destruct (bool_decide _); [injection Hs as _ <-; by apply written_none|].
    destruct (existsb _ _); [injection Hs as _ <-; by apply written_none|].
    destruct (file_write io (dr_file d0) _) as [w file] eqn:Hw. rewrite <- log_bytes_one in Hw.
    destruct w; injection Hs as _ <-; (eapply written_lines; [|done]); by constructor.
Qed.

(** A process that dies in such a call, and the log it opens next: some of the pending lines. *)
Lemma crash_recovers d d1 ix file :
  log_inv (dr_file d) (dr_index d) → write_call d d1 → len (dr_file d1) ≤ u64_max →
  open_log (Ok tt) (dr_file d1) = Ok (ix, file) → whole file →
  log_inv file ix ∧ same_member d d1 ∧ ∃ ps k, pending d ps ∧ try_fold apply_entry (dr_index d) (take k ps) = Ok ix.
Proof.
  intros (Hok & es & Hes & Hfile & Hix) [Hm (ps & n & Hp & Hf)]%write_call_written Hlen Ho Hw.
  destruct (pending_replay d ps Hok Hp) as [Hwf Hall].
  rewrite Hf, Hfile in Hlen, Ho. destruct (open_log_cut es ps n (dr_index d)) as (k & ix' & file' & Hk & Ho' & Hfile' & _); [done..| |].
  { destruct (Hall (length ps)) as (x & Hx & _). rewrite firstn_all in Hx. by rewrite Hx. }
  rewrite Ho' in Ho. injection Ho as -> ->. destruct Hfile' as [->|]; [|done].
  destruct (Hall k) as (x & Hx & Hokx). rewrite Hk in Hx. injection Hx as <-.
  split; [|split; [done|by exists ps, k]]. split; [done|]. exists (es ++ take k ps). split_and!; [|done|by rewrite replay_app, Hix].
  apply Forall_app. split; [done|by apply Forall_take].
Qed.

(** ** Calls and restarts *)

Definition set_control (d : DiskReplica) (control : option DurableControlState) : DiskReplica :=
  mkDisk (dr_file d) (dr_index d) (dr_maintenance d) (dr_marker d) (dr_log_max_bytes d) (dr_node_name d)
    control (dr_placement d).

(** One call of an operation with well-typed arguments; a change of the control document, to any
    other; a restart of the process; or a crash: a call whose write ends after any byte, and
    the process that opens the log again before anything else is written.

    A call that returns without a crash either wrote its lines or left nothing behind: the code does
    not take back what a failed append, commit or supersede left in the file, and
    [failed_append_breaks_log] shows what the next write then does.  After a crash the file ends
    with a line: [lost_newline_breaks_log] shows the write that was cut right before its newline. *)
Inductive node_step : DiskReplica → DiskReplica → Prop :=
| node_append io d r token placement res d' :
    wf_record r → clean io →
    append_inner_with_placement io d r token placement = (res, d') → node_step d d'
| node_append_many io restored d records token commit placement res d' :
    Forall wf_record records → clean io ∨ restored = true →
    append_many_inner_with_placement io restored d records token commit placement = (res, d') →
    node_step d d'
| node_commit io d r token res d' :
    clean io → commit_inner io d r token = (res, d') → node_step d d'
| node_supersede io d stream from_lsn epoch res d' :
    clean io → wf_entry (LogSupersede stream from_lsn epoch) →
    supersede io d stream from_lsn epoch = (res, d') → node_step d d'
| node_compact io d prefixes res d' :
    Forall wf_prefix prefixes → compact_archived_batch io d prefixes = (res, d') →
    node_step d d'
| node_fence io d token res d' : fence io d token = (res, d') → node_step d d'
| node_release io d token res d' : release_fence io d token = (res, d') → node_step d d'
| node_place io d stream placement res d' :
    install_placement_fence io d stream placement = Some (res, d') → node_step d d'
| node_restart truncation d ix file maintenance :
    open_log truncation (dr_file d) = Ok (ix, file) →
    read_maintenance_state (dr_marker d) = Ok maintenance →
    node_step d (mkDisk file ix maintenance (dr_marker d) (dr_log_max_bytes d) (dr_node_name d)
                   (dr_control d) (dr_placement d))
| node_crash d d1 ix file maintenance :
    write_call d d1 → len (dr_file d1) ≤ u64_max →
    open_log (Ok tt) (dr_file d1) = Ok (ix, file) → whole file →
    read_maintenance_state (dr_marker d1) = Ok maintenance →
    node_step d (mkDisk file ix maintenance (dr_marker d1) (dr_log_max_bytes d1) (dr_node_name d1)
                   (dr_control d1) (dr_placement d1))
| node_control d control : node_step d (set_control d control).

Definition node_initial (d : DiskReplica) : Prop := dr_file d = [] ∧ dr_index d = empty_index.

Lemma adopt_maintenance_log io d next res d' :
  adopt_maintenance io d next = (res, d') → dr_file d' = dr_file d ∧ dr_index d' = dr_index d.
Proof.
  unfold adopt_maintenance. destruct (persist_maintenance_state _ _ _) as [[]]; by intros [= _ <-].
Qed.

Lemma fence_log io d token res d' :
  fence io d token = (res, d') → dr_file d' = dr_file d ∧ dr_index d' = dr_index d.
Proof.
  unfold fence. destruct (ms_active _); [case_bool_decide; by intros [= _ <-]|].
  destruct (_ <=? _); [by intros [= _ <-]|apply adopt_maintenance_log].
Qed.

Lemma release_fence_log io d token res d' :
  release_fence io d token = (res, d') → dr_file d' = dr_file d ∧ dr_index d' = dr_index d.
Proof.
  unfold release_fence. destruct (ms_active _).
  - case_bool_decide; [apply adopt_maintenance_log|by intros [= _ <-]].
  - case_bool_decide; [by intros [= _ <-]|].
    destruct (_ <? _); [apply adopt_maintenance_log|by intros [= _ <-]].
Qed.

Lemma node_step_inv d d' :
  node_step d d' → log_inv (dr_file d) (dr_index d) → log_inv (dr_file d') (dr_index d').
Proof.
  intros [io d0 r token placement res d1 Hwf Hio Hs
         |io restored d0 records token commit placement res d1 Hwf Hio Hs
         |io d0 r token res d1 Hio Hs|io d0 stream from_lsn epoch res d1 Hio Hwf Hs
         |io d0 prefixes res d1 Hwf Hs|io d0 token res d1 Hs|io d0 token res d1 Hs
         |io d0 stream placement res d1 Hs|truncation d0 ix file maintenance Ho _
         |d0 d1 ix file maintenance Hw Hlen Ho Hwhole _|] Hinv.
  - apply with_lease_body in Hs as [Hsame|(a & b & Ha & Hb & Hc)]; [by eapply same_log_inv|].
    eapply same_log_inv, append_locked_inv; [done| |done..]. by eapply same_log_inv.
  - unfold append_many_inner_with_placement in Hs.
    destruct (validate_append_batch records) as [[]|] eqn:Hv; [|by injection Hs as _ <-].
    apply validate_append_batch_sound in Hv.
    apply with_lease_body in Hs as [Hsame|(a & b & Ha & Hb & Hc)]; [by eapply same_log_inv|].
    eapply same_log_inv, append_many_locked_inv; [done| |done..]. by eapply same_log_inv.
  - by eapply commit_inner_inv.
  - by eapply supersede_inv.
  - by eapply compact_inv.
  - by apply fence_log in Hs as [-> ->].
  - by apply release_fence_log in Hs as [-> ->].
  - unfold install_placement_fence in Hs. destruct (dr_placement d0); [|by injection Hs as _ <-].
    apply bind_Some in Hs as ([r store] & _ & [= _ <-]). done.
  - rewrite (log_inv_open truncation _ _ Hinv) in Ho. by injection Ho as <- <-.
  - by apply (crash_recovers _ _ _ _ Hinv Hw Hlen Ho Hwhole).
  - done.
Qed.

Lemma node_steps_inv d d' :
  rtc node_step d d' → log_inv (dr_file d) (dr_index d) → log_inv (dr_file d') (dr_index d').
Proof. induction 1; eauto using node_step_inv. Qed.

Lemma node_reachable_inv d0 d :
  node_initial d0 → rtc node_step d0 d → log_inv (dr_file d) (dr_index d).
Proof. intros [Hf Hi] Hr. eapply node_steps_inv; [done|]. rewrite Hf, Hi. apply log_inv_empty. Qed.

(** ** Properties *)

(** C1: the log file of a member holds exactly its indexes.  In every run of calls, changes of the
    control document, restarts, and crashes in the middle of a write, whatever byte it was cut at
    (but the one before a newline) and before anything else is written: reopening the file rebuilds
    the same records, commit markers, compacted prefixes and writer epochs, and changes nothing in
    the file.  A failed batch may leave its bytes if they are cut off again; a failed append, commit
    or supersede that leaves bytes behind counts as a crash. *)
Theorem reopen_is_identity d0 d truncation :
  node_initial d0 → rtc node_step d0 d →
  open_log truncation (dr_file d) = Ok (dr_index d, dr_file d).
Proof. intros Hi Hr. apply log_inv_open. by eapply node_reachable_inv. Qed.

(** a commit marker is never evidence of anything but a record the member
    holds, and a compacted prefix never hides a held record: in every reachable
    state each marked record is stored, each stored record is filed under its own
    key and lies above its stream's compacted prefix, and the highest writer
    epoch of a stream is the greatest among its records and its prefix. *)
Theorem node_index_sound d0 d :
  node_initial d0 → rtc node_step d0 d →
  (∀ k r, ix_committed (dr_index d) !! k = Some r → ix_records (dr_index d) !! k = Some r)
  ∧ (∀ k r, ix_records (dr_index d) !! k = Some r →
       record_key r = k ∧ below_prefix (dr_index d) k.1 k.2 = false
       ∧ er_writer_epoch r ≤ default 0 (ix_highest (dr_index d) !! k.1))
  ∧ (∀ s, is_max (ix_highest (dr_index d) !! s)
            (epoch_in (ix_records (dr_index d)) (ix_trimmed (dr_index d)) s)).
Proof.
  intros Hi Hr. destruct (node_reachable_inv _ _ Hi Hr) as [Hok _].
  split; [apply (ok_committed _ Hok)|]. split; [|apply (ok_highest _ Hok)].
  intros [s l] r Hrec. split; [by apply (ok_key _ Hok)|].
  split; [by apply (ok_above _ Hok) in Hrec|]. simpl.
  pose proof (ok_highest _ Hok s) as Hm.
  assert (epoch_in (ix_records (dr_index d)) (ix_trimmed (dr_index d)) s (er_writer_epoch r))
    as Hin by (left; eauto).
  destruct (ix_highest (dr_index d) !! s); simpl in *; [by apply Hm|by destruct (Hm _ Hin)].
Qed.

(** C30: a batch that was being written when the process died is recovered as a
    prefix of itself, whatever byte the write was cut at: the member reopens with
    the indexes it had plus the first [k] lines of the batch, records before
    markers, at least all those that reached the file whole. *)
Theorem torn_batch_recovers_prefix d0 d records token commit d' n :
  node_initial d0 → rtc node_step d0 d → Forall wf_record records →
  validate_append_batch records = Ok tt →
  append_many_locked WriteDone true d records token commit = (Ok tt, d') →
  len (dr_file d') ≤ u64_max →
  ∃ news commits k file,
    news `sublist_of` records
    ∧ dr_index d' = foldl insert_commit (foldl insert_record (dr_index d) news) commits
    ∧ open_log (Ok tt) (take (length (dr_file d) + n) (dr_file d'))
      = Ok (batch_prefix (dr_index d) news commits k, file)
    ∧ ∀ k', (k' ≤ length (batch_lines news commits) →
        length (log_bytes (take k' (batch_lines news commits))) ≤ n → k' ≤ k)%nat.
Proof.
  intros Hi Hr Hwf Hv%validate_append_batch_sound Happ Hlen.
  pose proof (node_reachable_inv _ _ Hi Hr) as Hinv.
  apply append_many_locked_written in Happ
    as [->|(_ & news & commits & file & Hn & Hc & Hw & ->)].
  { exists [], [], 0%nat, (dr_file d). split; [apply sublist_nil_l|]. split; [done|].
    rewrite take_ge by lia. split; [by apply log_inv_open|]. intros k' Hk'. simpl in Hk'. lia. }
  apply collected_commits in Hc. injection Hw as <-. simpl in *.
  destruct (batch_replay _ _ _ _ (proj1 Hinv) Hwf Hv Hn Hc) as (Hwfe & Hrp & _).
  destruct Hinv as (Hok & es & Hes & Hfile & Hres). rewrite Hfile in *.
  destruct (open_log_cut es (batch_lines news commits) n (dr_index d))
    as (k & ix' & file' & Hix & Ho & _ & Hk); try done.
  { rewrite len_app in *. etrans; [|exact Hlen]. apply N.add_le_mono_l. unfold len. rewrite length_take. lia. }
  { by rewrite Hrp. }
  destruct (batch_prefix_replay d records news commits k) as [Hp _]; [done..|].
  rewrite Hp in Hix. injection Hix as <-.
  exists news, commits, k, file'. split; [by destruct (collect_new_spec _ _ _ Hn)|].
  split; [done|]. split; [|done].
  rewrite take_app_add'; [done|done].
Qed.

(** a lost final newline is not repaired.  A write cut right before the
    newline of an appended record reopens with the record, but the file still
    ends without a newline; the next append is acknowledged, and from then on the
    log cannot be opened any more. *)
Theorem lost_newline_breaks_log d0 d r1 r2 d1 d2 truncation cut :
  node_initial d0 → rtc node_step d0 d → wf_record r1 → wf_record r2 →
  append_locked WriteDone d r1 None = (Ok tt, d1) → dr_file d1 ≠ dr_file d →
  cut = take (length (dr_file d1) - 1) (dr_file d1) →
  append_locked WriteDone (set_log d1 cut (dr_index d1)) r2 None = (Ok tt, d2) →
  dr_file d2 ≠ cut →
  open_log truncation cut = Ok (dr_index d1, cut)
  ∧ ∃ reason, open_log truncation (dr_file d2) = Err (NodeStorage reason).
Proof.
  intros Hi Hr Hw1 Hw2 Ha1 Hne1 Hcut Ha2 Hne2.
  destruct (node_reachable_inv _ _ Hi Hr) as (Hok & es & Hes & Hfile & Hix).
  apply append_locked_new in Ha1 as [->|(Hc1 & _ & _ & f1 & Hf1 & ->)]; [done|].
  injection Hf1 as <-. simpl in *.
  assert (cut = log_bytes es ++ json_line (LogRecord r1)) as Hcut'.
  { rewrite Hcut, Hfile. unfold entry_line. rewrite app_assoc, length_app. simpl.
    by rewrite Nat.add_sub, take_app_length. }
  apply check_append_new in Hc1 as (Hb & Hn & _ & _).
  apply append_locked_new in Ha2 as [->|(_ & _ & _ & f2 & Hf2 & ->)]; [done|].
  injection Hf2 as <-. simpl in *. rewrite Hcut'.
  split.
  - rewrite open_log_no_newline, replay_snoc, Hix by done. cbn [mbind result_bind].
    by rewrite apply_record.
  - rewrite <- app_assoc. by apply (open_log_joined _ _ (LogRecord r1) (LogRecord r2) (dr_index d)).
Qed.

(** a failed append that left its JSON without the newline (a full disk at
    that byte) is not rolled back either: the member reports the failure, goes on
    serving, and the next append it acknowledges makes the log unreadable. *)
Theorem failed_append_breaks_log d0 d r1 r2 reason d1 d2 truncation :
  node_initial d0 → rtc node_step d0 d → wf_record r1 → wf_record r2 →
  append_locked (WriteFailed reason (length (json_line (LogRecord r1)))) d r1 None
    = (Err (NodeStorage reason), d1) →
  dr_file d1 ≠ dr_file d →
  append_locked WriteDone d1 r2 None = (Ok tt, d2) → dr_file d2 ≠ dr_file d1 →
  ∃ reason', open_log truncation (dr_file d2) = Err (NodeStorage reason').
Proof.
  intros Hi Hr Hw1 Hw2 Ha1 Hne1 Ha2 Hne2.
  destruct (node_reachable_inv _ _ Hi Hr) as (Hok & es & Hes & Hfile & Hix).
  apply append_locked_new in Ha1 as [->|(_ & _ & _ & f1 & Hf1 & ->)]; [done|].
  injection Hf1 as <-. simpl in *. unfold entry_line in *. rewrite take_app_length in *.
  apply append_locked_new in Ha2 as [->|(_ & _ & _ & f2 & Hf2 & ->)]; [done|].
  injection Hf2 as <-. simpl in *. rewrite Hfile, <- app_assoc.
  by apply (open_log_joined _ _ (LogRecord r1) (LogRecord r2) (dr_index d)).
Qed.

End NodeSafety.
