(* ===== verification/NodeContract.v ===== *)
(** * NodeContract: what each operation of a storage member promises its callers

    The functional behaviour of the operations of [NodeLog] on a reachable
    member: ordered appends without holes, idempotence and fencing, all-or-nothing
    batches, the exact effect of superseding and compacting, and the maintenance
    fence. *)

From S2P Require Import Prelude Text Wire Client Placement Manifest NodeLog NodeReplay NodeOps NodeSafety.

Section NodeContract.
Context `{LogJsonLaws}.

(** ** No holes *)

(** How one step changes the records and the compacted prefixes of a member: records that each found
    their predecessor are added, in order; a suffix is withdrawn; or a prefix is compacted. *)
Inductive log_change (d : DiskReplica) : LogIndex → Prop :=
| change_append rs ix :
    ix_records ix = ix_records (foldl insert_record (dr_index d) rs) →
    ix_trimmed ix = ix_trimmed (dr_index d) →
    NoDup (record_key <$> rs) → Forall (appendable (dr_index d)) rs →
    (∀ i r, rs !! i = Some r → has_predecessor d (take i rs) r) → log_change d ix
| change_withdraw stream from_lsn : log_change d (withdraw_suffix (dr_index d) stream from_lsn)
| change_compact trimmed :
    trims_ok (dr_index d) trimmed → log_change d (compacted_index (dr_index d) trimmed).

Lemma change_none d ix :
  ix_records ix = ix_records (dr_index d) → ix_trimmed ix = ix_trimmed (dr_index d) → log_change d ix.
Proof. intros Hr Ht. apply (change_append d []); [done..|apply NoDup_nil_2|by apply Forall_nil|done]. Qed.

Lemma change_same_log d a b d' :
  same_log d a → log_change a (dr_index b) → same_log b d' → log_change d (dr_index d').
Proof.
  intros (_ & Hix & _ & _ & _ & Hn & Hc) Hch (_ & -> & _).
  assert (∀ batch r, has_predecessor a batch r → has_predecessor d batch r) as Hp.
  { intros batch r. unfold has_predecessor, has_manifest_boundary. by rewrite Hix, Hn, Hc. }
  destruct Hch as [rs ix|stream from_lsn|trimmed]; rewrite Hix in *;
    [eapply change_append; eauto|by constructor..].
Qed.

Lemma insert_records_trimmed ix rs : ix_trimmed (foldl insert_record ix rs) = ix_trimmed ix.
Proof. revert ix. induction rs as [|r rs IH]; intros ix; simpl; [done|]. by rewrite IH. Qed.

Lemma insert_commits_trimmed ix rs : ix_trimmed (foldl insert_commit ix rs) = ix_trimmed ix.
Proof. revert ix. induction rs as [|r rs IH]; intros ix; simpl; [done|]. by rewrite IH. Qed.

(** A prefix of the lines of a batch. *)
Lemma change_batch d records news commits k :
  Forall wf_record records → batch_shape records → collect_new d records = Ok news →
  log_change d (batch_prefix (dr_index d) news commits k).
Proof.
  intros Hwf Hshape Hn. destruct (batch_appendable _ _ _ Hwf Hshape Hn) as [Happ Hnd].
  apply (change_append d (take k news)); unfold batch_prefix.
  - apply foldl_insert_commits_records.
  - by rewrite insert_commits_trimmed, insert_records_trimmed.
  - eapply sublist_NoDup; [done|]. by apply fmap_sublist, sublist_take.
  - by apply Forall_take.
  - intros i r [Hi Hlt]%lookup_take_Some. rewrite take_take, min_l by lia.
    apply (collect_new_spec _ _ _ Hn) in Hi. by apply check_append_new in Hi as (_ & _ & _ & ?).
Qed.

Lemma change_record d r : check_append d [] r = Ok true → wf_record r → log_change d (insert_record (dr_index d) r).
Proof.
  intros (Hb & Hn & _ & Hp)%check_append_new Hwf. apply (change_append d [r]); [done..|apply NoDup_singleton| |].
  - by apply Forall_singleton.
  - intros [|i] r' Hi; by simplify_eq/=.
Qed.

Lemma append_locked_change io d r token res d' :
  wf_record r → append_locked io d r token = (res, d') → log_change d (dr_index d').
Proof.
  intros Hwf [->|(Hc & _ & _ & file & _ & ->)]%append_locked_new; [by apply change_none|].
  simpl. destruct (is_ok res); [by apply change_record|by apply change_none].
Qed.

Lemma append_many_locked_change io restored d records token commit res d' :
  Forall wf_record records → batch_shape records →
  append_many_locked io restored d records token commit = (res, d') → log_change d (dr_index d').
Proof.
  intros Hwf Hshape
    [->|(_ & news & commits & file & Hn & Hc & _ & ->)]%append_many_locked_written; [by apply change_none|].
  simpl. destruct (is_ok res); [|by apply change_none]. rewrite <- batch_prefix_all. by eapply change_batch.
Qed.

Lemma commit_inner_change io d r token res d' :
  commit_inner io d r token = (res, d') → log_change d (dr_index d').
Proof. unfold commit_inner. intros Hc. apply change_none; repeat case_match; by simplify_eq/=. Qed.

Lemma supersede_change io d stream from_lsn epoch res d' :
  supersede io d stream from_lsn epoch = (res, d') → log_change d (dr_index d').
Proof.
  intros Hs. assert (dr_index d' = dr_index d ∨ dr_index d' = withdraw_suffix (dr_index d) stream from_lsn) as [->| ->].
  { unfold supersede in Hs. repeat case_match; simplify_eq/=; auto. }
  - by apply change_none.
  - constructor.
Qed.

Lemma compact_cases io d prefixes res d' :
  index_ok (dr_index d) → Forall wf_prefix prefixes →
  compact_archived_batch io d prefixes = (res, d') →
  d' = d ∨ ∃ trimmed, trims_ok (dr_index d) trimmed
    ∧ try_fold (trim_prefix (dr_index d)) (ix_trimmed (dr_index d)) prefixes = Ok trimmed
    ∧ d' = set_log d (log_bytes (compacted_entries (dr_index d) trimmed))
             (compacted_index (dr_index d) trimmed).
Proof.
  intros Hok Hwf. unfold compact_archived_batch. destruct (bool_decide _); [intros [= _ <-]; by left|].
  destruct (try_fold _ _ prefixes) as [trimmed|] eqn:Hf; [|intros [= _ <-]; by left].
  pose proof (trim_prefixes_ok _ _ _ _ Hok Hwf (trims_ok_refl _) Hf) as Ht.
  match goal with |- context [if ?b then _ else _] => destruct b end; [intros [= _ <-]; by left|].
  destruct io; intros [= _ <-]; eauto.
Qed.

(** What a crash recovered of the lines it was writing. *)
Lemma pending_change d ps k ix :
  index_ok (dr_index d) → pending d ps → try_fold apply_entry (dr_index d) (take k ps) = Ok ix → log_change d ix.
Proof.
  intros Hok Hp Hk.
  assert (∀ e ix', apply_entry (dr_index d) e = Ok ix' → log_change d ix' →
    try_fold apply_entry (dr_index d) (take k [e]) = Ok ix → log_change d ix) as Hone.
  { intros e ix' He Hch. destruct k as [|k]; cbn [take try_fold]; [intros [= <-]; by apply change_none|].
    rewrite He. cbn. rewrite take_nil. by intros [= <-]. }
  destruct Hp as [|r Hwf Hc|records news commits Hwf Hsh Hn Hp|r Hr|stream from_lsn epoch Hwf].
  - rewrite take_nil in Hk. injection Hk as <-. by apply change_none.
  - pose proof (check_append_new _ _ _ Hc) as (Hb & Hn & _).
    eapply Hone; [by apply apply_record|by apply change_record|done].
  - destruct (batch_prefix_replay d records news commits k) as [Hr _]; [done..|].
    rewrite Hr in Hk. injection Hk as <-. by eapply change_batch.
  - eapply Hone; [by apply apply_commit|by apply change_none|done].
  - eapply (Hone (LogSupersede stream from_lsn epoch)); [reflexivity|constructor|done].
Qed.

Lemma node_step_change d d' :
  node_step d d' → log_inv (dr_file d) (dr_index d) → log_change d (dr_index d').
Proof.
  intros [io d0 r token placement res d1 Hwf Hio Hs
         |io restored d0 records token commit placement res d1 Hwf Hio Hs
         |io d0 r token res d1 Hio Hs|io d0 stream from_lsn epoch res d1 Hio Hwf Hs
         |io d0 prefixes res d1 Hwf Hs|io d0 token res d1 Hs|io d0 token res d1 Hs
         |io d0 stream placement res d1 Hs|truncation d0 ix file maintenance Ho _
         |d0 d1 ix file maintenance Hw Hlen Ho Hwhole _|] Hinv.
  - apply with_lease_body in Hs as [(_ & -> & _)|(a & b & Ha & Hb & Hc)]; [by apply change_none|].
    eapply change_same_log; [done| |done]. by eapply append_locked_change.
  - unfold append_many_inner_with_placement in Hs.
    destruct (validate_append_batch records) as [[]|] eqn:Hv; [|injection Hs as _ <-; by apply change_none].
    apply validate_append_batch_sound in Hv.
    apply with_lease_body in Hs as [(_ & -> & _)|(a & b & Ha & Hb & Hc)]; [by apply change_none|].
    eapply change_same_log; [done| |done]. by eapply append_many_locked_change.
  - by eapply commit_inner_change.
  - by eapply supersede_change.
  - apply compact_cases in Hs as [->|(trimmed & Ht & _ & ->)]; [by apply change_none|by constructor|apply Hinv|done].
  - apply fence_log in Hs as [_ ->]. by apply change_none.
  - apply release_fence_log in Hs as [_ ->]. by apply change_none.
  - unfold install_placement_fence in Hs. destruct (dr_placement d0); [|injection Hs as _ <-; by apply change_none].
    apply bind_Some in Hs as ([r store] & _ & [= _ <-]). by apply change_none.
  - rewrite (log_inv_open truncation _ _ Hinv) in Ho. injection Ho as <- <-. by apply change_none.
  - destruct (crash_recovers _ _ _ _ Hinv Hw Hlen Ho Hwhole) as (_ & _ & ps & k & Hp & Hk).
    eapply pending_change; [apply Hinv|done|done].
  - by apply change_none.
Qed.

(** The predecessor of [r] is below the first LSN, held, the last of the compacted prefix, or given
    by [B]. *)
Definition rooted (B : EncryptedRecord → Prop) (ix : LogIndex) (r : EncryptedRecord) : Prop :=
  er_lsn r ≤ 1
  ∨ is_Some (ix_records ix !! (er_stream r, er_lsn r - 1))
  ∨ (∃ p, ix_trimmed ix !! er_stream r = Some p ∧ tp_archived_lsn p = er_lsn r - 1)
  ∨ B r.

Definition no_holes (B : EncryptedRecord → Prop) (ix : LogIndex) : Prop :=
  ∀ k r, ix_records ix !! k = Some r → rooted B ix r.

Lemma insert_records_mono ix rs s l :
  is_Some (ix_records ix !! (s, l)) → is_Some (ix_records (foldl insert_record ix rs) !! (s, l)).
Proof.
  revert ix. induction rs as [|r rs IH]; intros ix Hs; [done|]. simpl. apply IH. simpl.
  rewrite lookup_insert. by case_decide; [eexists|].
Qed.

(** Appended records, each with its predecessor, keep the log without holes. *)
Lemma no_holes_append (B : EncryptedRecord → Prop) d ix rs :
  no_holes B (dr_index d) →
  (∀ r, has_manifest_boundary d r = true → ix_records (dr_index d) !! record_key r = None →
    ix_records ix !! record_key r = Some r → B r) →
  ix_records ix = ix_records (foldl insert_record (dr_index d) rs) →
  ix_trimmed ix = ix_trimmed (dr_index d) →
  NoDup (record_key <$> rs) → Forall (appendable (dr_index d)) rs →
  (∀ i r, rs !! i = Some r → has_predecessor d (take i rs) r) →
  no_holes B ix.
Proof.
  intros Hno HB Hrec Ht Hnd Happ Hpred k r Hk.
  assert (Forall (λ r, ix_records (dr_index d) !! record_key r = None) rs) as Hnone
    by (eapply Forall_impl; [done|]; by intros ? (_ & _ & ?)).
  assert (∀ s l, is_Some (ix_records (dr_index d) !! (s, l)) → is_Some (ix_records ix !! (s, l))) as Hmono
    by (intros s l Hs; rewrite Hrec; by apply insert_records_mono).
  pose proof Hk as Hin. rewrite Hrec in Hin. apply foldl_insert_records in Hin; [|done..].
  unfold rooted. rewrite Ht. destruct Hin as [Hold|[[i Hi]%list_elem_of_lookup <-]].
  { destruct (Hno _ _ Hold) as [?|[?|[?|?]]]; auto. }
  destruct (Hpred i r Hi) as [?|[(p & Hp & Hs & Hl)|[?|[?|Hm]]]]; auto.
  - right. left. exists p. rewrite Hrec. apply foldl_insert_records; [done..|]. right.
    split; [|by unfold record_key; rewrite Hs, Hl]. eapply sublist_subseteq; [apply sublist_take|done].
  - do 3 right. apply HB; [done| |done]. rewrite Forall_forall in Hnone. apply Hnone. by eapply list_elem_of_lookup_2.
Qed.

Lemma no_holes_withdraw B ix stream from_lsn :
  index_ok ix → no_holes B ix → no_holes B (withdraw_suffix ix stream from_lsn).
Proof.
  intros Hok Hno k r Hk. apply withdraw_suffix_record in Hk as [Hk Hkeep].
  pose proof (ok_key _ Hok _ _ Hk) as <-. simpl in Hkeep.
  destruct (Hno _ _ Hk) as [?|[[p Hp]|[?|?]]]; [by left| |by do 2 right; left|by do 3 right].
  right. left. exists p. apply withdraw_suffix_record. split; [done|].
  simpl. destruct Hkeep; [by left|right; lia].
Qed.

Lemma no_holes_compacted B ix trimmed :
  index_ok ix → trims_ok ix trimmed → no_holes B ix → no_holes B (compacted_index ix trimmed).
Proof.
  intros Hok Ht Hno k r Hk. apply compacted_record in Hk as [Hk Hret].
  pose proof (ok_key _ Hok _ _ Hk) as <-. rewrite retained_spec in Hret. simpl in Hret.
  destruct (decide (er_lsn r ≤ 1)) as [|Hgt]; [by left|]. right. simpl.
  destruct (trimmed !! er_stream r) as [q|] eqn:Hq.
  - specialize (Hret q eq_refl).
    destruct (decide (tp_archived_lsn q = er_lsn r - 1)) as [|Hne]; [right; left; eauto|].
    destruct (Hno _ _ Hk) as [?|[[p Hp]|[(p & Hp & Hl)|Hm]]]; [done| | |by do 2 right].
    + left. exists p. apply compacted_record. split; [done|]. apply retained_spec. simpl.
      rewrite Hq. intros q' [= <-]. lia.
    + destruct (proj1 (Ht _) q Hq) as [Hold|(_ & _ & _ & _ & Hle & _)]; [congruence|].
      specialize (Hle p Hp). lia.
  - pose proof (proj2 (Ht _) Hq) as Hold.
    destruct (Hno _ _ Hk) as [?|[[p Hp]|[(p & Hp & Hl)|Hm]]]; [done| |congruence|by do 2 right].
    left. exists p. apply compacted_record. split; [done|]. apply retained_spec. simpl. by rewrite Hq.
Qed.

Lemma log_change_no_holes (B : EncryptedRecord → Prop) d ix :
  index_ok (dr_index d) → log_change d ix → no_holes B (dr_index d) →
  (∀ r, has_manifest_boundary d r = true → ix_records (dr_index d) !! record_key r = None →
    ix_records ix !! record_key r = Some r → B r) →
  no_holes B ix.
Proof.
  intros Hok [rs ix' Hr Ht Hnd Ha Hp|stream from_lsn|trimmed Ht] Hno HB.
  - by eapply no_holes_append.
  - by apply no_holes_withdraw.
  - by apply no_holes_compacted.
Qed.

(** The record was taken by a step of the run, when the manifest the member had then had a range that
    opens with it. *)
Definition opened_range (d0 d : DiskReplica) (r : EncryptedRecord) : Prop :=
  ∃ d1 d2, rtc node_step d0 d1 ∧ has_manifest_boundary d1 r = true
    ∧ ix_records (dr_index d1) !! record_key r = None
    ∧ node_step d1 d2 ∧ ix_records (dr_index d2) !! record_key r = Some r
    ∧ rtc node_step d2 d.


(** ** Appends *)

(** The outcome of [check_append], by cases. *)
Lemma check_append_Err d batch r e :
  check_append d batch r = Err e → e = WriterFenced ∨ e = LsnConflict.
Proof.
  unfold check_append. destruct (_ <? _); [intros [= <-]; by left|].
  destruct (below_prefix _ _ _); [intros [= <-]; by right|].
  destruct (ix_records _ !! _); [case_bool_decide; [done|]; intros [= <-]; by right|].
  match goal with |- context [if ?b then _ else _] => destruct b end; [|done].
  intros [= <-]. by right.
Qed.

Lemma check_append_present d batch r :
  index_ok (dr_index d) → ix_records (dr_index d) !! record_key r = Some r →
  default 0 (ix_highest (dr_index d) !! er_stream r) ≤ er_writer_epoch r →
  check_append d batch r = Ok false.
Proof.
  intros Hok Hr He. unfold check_append. rewrite (proj2 (N.ltb_ge _ _) He).
  rewrite (ok_above _ Hok _ _ _ Hr), Hr. by rewrite bool_decide_true.
Qed.

(** an acknowledged append holds the record, at its own key and without
    touching any other, raises the stream's epoch to the record's, and can be
    repeated: the same append then succeeds again and changes nothing, whatever
    the disk does.  From then on a record of an older epoch is fenced, and a
    different record for the same LSN is a conflict. *)
Theorem append_acknowledged d0 d r token d' :
  node_initial d0 → rtc node_step d0 d → wf_record r →
  append_locked WriteDone d r token = (Ok tt, d') →
  ix_records (dr_index d') = <[record_key r := r]> (ix_records (dr_index d))
  ∧ ix_committed (dr_index d') = ix_committed (dr_index d)
  ∧ ix_highest (dr_index d') !! er_stream r = Some (er_writer_epoch r)
  ∧ (∀ io, append_locked io d' r token = (Ok tt, d'))
  ∧ (∀ io r', er_stream r' = er_stream r → er_committed_lsn r' < er_lsn r' →
       er_writer_epoch r' < er_writer_epoch r →
       append_locked io d' r' token = (Err WriterFenced, d'))
  ∧ (∀ io r', record_key r' = record_key r → r' ≠ r → er_committed_lsn r' < er_lsn r' →
       er_writer_epoch r ≤ er_writer_epoch r' →
       append_locked io d' r' token = (Err LsnConflict, d')).
Proof.
  intros Hi Hreach Hwf Happ. destruct (node_reachable_inv _ _ Hi Hreach) as [Hok _].
  assert (maintenance_allowed d token = true ∧ er_committed_lsn r < er_lsn r
    ∧ index_ok (dr_index d') ∧ ix_records (dr_index d') = <[record_key r := r]> (ix_records (dr_index d))
    ∧ ix_committed (dr_index d') = ix_committed (dr_index d)
    ∧ ix_highest (dr_index d') !! er_stream r = Some (er_writer_epoch r)
    ∧ dr_maintenance d' = dr_maintenance d)
    as (Hm & Hlsn & Hok' & Hrec & Hcom & Hhigh & Hmt).
  { unfold append_locked in Happ. destruct (maintenance_allowed d token); [|done]. cbn [negb] in Happ.
    destruct (N.leb_spec (er_lsn r) (er_committed_lsn r)); [done|].
    destruct (check_append d [] r) as [[|]|] eqn:Hc; [..|done].
    - match type of Happ with context [if ?b then _ else _] => destruct b end; [done|].
      injection Happ as <-. apply check_append_new in Hc as (Hb & Hn & He & _). simpl.
      split_and!; try done; [by apply insert_record_ok|].
      rewrite lookup_insert_eq. f_equal. lia.
    - injection Happ as <-. pose proof (check_append_old _ _ _ Hc) as Hr. split_and!; try done.
      + by rewrite insert_id.
      + assert (epoch_in (ix_records (dr_index d)) (ix_trimmed (dr_index d)) (er_stream r)
          (er_writer_epoch r)) as Hin by (left; by exists (er_lsn r), r).
        pose proof (ok_highest _ Hok (er_stream r)) as Hmax. unfold check_append in Hc.
        destruct (N.ltb_spec (er_writer_epoch r)
          (default 0 (ix_highest (dr_index d) !! er_stream r))); [done|].
        destruct (ix_highest (dr_index d) !! er_stream r) as [m|]; simpl in *;
          [|by destruct (Hmax _ Hin)].
        f_equal. apply N.le_antisymm; [done|by apply Hmax]. }
  assert (maintenance_allowed d' token = true) as Hm'
    by (unfold maintenance_allowed in *; by rewrite Hmt).
  split_and!; try done; unfold append_locked; rewrite Hm'; cbn [negb].
  - intros io. rewrite (proj2 (N.leb_gt _ _) Hlsn). rewrite check_append_present; [done|done| |].
    + by rewrite Hrec, lookup_insert_eq.
    + by rewrite Hhigh.
  - intros io r' Hs Hl He. rewrite (proj2 (N.leb_gt _ _) Hl). unfold check_append.
    rewrite Hs, Hhigh. simpl. by rewrite (proj2 (N.ltb_lt _ _) He).
  - intros io r' Hk Hne Hl He. rewrite (proj2 (N.leb_gt _ _) Hl). unfold check_append.
    pose proof Hk as [= Hs Hlsn']. rewrite Hs, Hhigh. simpl.
    rewrite (proj2 (N.ltb_ge _ _) He), Hk, Hrec, lookup_insert_eq, Hlsn'.
    rewrite (ok_above _ Hok' (er_stream r) (er_lsn r) r) by (by rewrite Hrec, lookup_insert_eq).
    by rewrite bool_decide_false.
Qed.

(** The marked records after the second loop. *)
Lemma collect_commits_complete d news records commits :
  collect_commits d news records = Ok commits →
  ∀ r, r ∈ records → r ∈ commits ∨ ix_committed (dr_index d) !! record_key r = Some r
    ∨ below_prefix (dr_index d) (er_stream r) (er_lsn r) = true.
Proof.
  unfold collect_commits. set (f := λ new_commits record, _).
  assert (∀ records acc, try_fold f acc records = Ok commits →
    (∀ r, r ∈ acc → r ∈ commits)
    ∧ ∀ r, r ∈ records → r ∈ commits ∨ ix_committed (dr_index d) !! record_key r = Some r
       ∨ below_prefix (dr_index d) (er_stream r) (er_lsn r) = true) as Hgen.
  { clear records. induction records as [|r records IH]; intros acc Hf.
    - injection Hf as <-. split; [done|]. by intros ? ?%not_elem_of_nil.
    - cbn [try_fold] in Hf. next Hf. destruct (IH _ Hf) as [Hacc Hall]. unfold f in Hx.
      destruct (below_prefix _ _ _) eqn:Hb; [injection Hx as <-|
        destruct (bool_decide_reflect (ix_committed (dr_index d) !! record_key r = Some r));
        [injection Hx as <-|]].
      + split; [done|]. intros r' [->|?]%elem_of_cons; auto.
      + split; [done|]. intros r' [->|?]%elem_of_cons; auto.
      + destruct (bool_decide _); [done|]. destruct (_ || _); [|done]. injection Hx as <-.
        split; [intros r' ?; apply Hacc, elem_of_app; by left|].
        intros r' [->|?]%elem_of_cons; [left; apply Hacc, elem_of_app; right; by left|auto]. }
  intros Hf. by apply (Hgen _ _ Hf).
Qed.

Lemma foldl_insert_commits ix cs k r :
  (∀ a b, a ∈ cs → b ∈ cs → record_key a = record_key b → a = b) →
  (∀ c, c ∈ cs → ∀ r', ix_committed ix !! record_key c = Some r' → r' = c) →
  ix_committed (foldl insert_commit ix cs) !! k = Some r ↔
  ix_committed ix !! k = Some r ∨ (r ∈ cs ∧ record_key r = k).
Proof.
  revert ix. induction cs as [|c cs IH]; intros ix Hinj Hold; [set_solver|]. simpl. rewrite IH.
  - simpl. rewrite lookup_insert, elem_of_cons. case_decide as Hk.
    + subst k. split.
      * intros [[= <-]|[? ?]]; right; auto.
      * intros [Hr|[[->|?] ?]]; [|by left|by right].
        left. by rewrite (Hold c ltac:(by left) _ Hr).
    + naive_solver.
  - intros a b Ha Hb. apply Hinj; by right.
  - intros c' Hc' r'. simpl. rewrite lookup_insert. case_decide as Hk.
    + intros [= <-]. apply Hinj; [by left|by right|done].
    + apply Hold. by right.
Qed.

(** C7: a batch is all or nothing.  When [append_and_commit_many] is acknowledged
    every record of the batch is stored and marked, nothing else changed among
    the records; when it is refused, or its write fails and the file is cut back,
    the member and its file are exactly as before. *)
Theorem batch_all_or_nothing d0 d records token io d' res :
  node_initial d0 → rtc node_step d0 d → Forall wf_record records →
  validate_append_batch records = Ok tt →
  append_many_locked io true d records token true = (res, d') →
  (res = Ok tt ∧
     (∀ k r, ix_records (dr_index d') !! k = Some r ↔
        ix_records (dr_index d) !! k = Some r ∨ (r ∈ records ∧ record_key r = k))
     ∧ (∀ r, r ∈ records → ix_committed (dr_index d') !! record_key r = Some r))
  ∨ (is_ok res = false ∧ dr_index d' = dr_index d ∧ dr_file d' = dr_file d).
Proof.
  intros Hi Hreach Hwf Hv%validate_append_batch_sound Happ.
  destruct (node_reachable_inv _ _ Hi Hreach) as [Hok _]. unfold append_many_locked in Happ.
  destruct (maintenance_allowed d token); [|injection Happ as <- <-; by right]. cbn [negb] in Happ.
  destruct (collect_new d records) as [news|] eqn:Hn; [|injection Happ as <- <-; by right].
  cbn [mbind result_bind] in Happ.
  destruct (collect_commits d news records) as [commits|] eqn:Hc; [|injection Happ as <- <-; by right].
  cbn [mbind result_bind] in Happ.
  destruct (collect_new_spec _ _ _ Hn) as (Hsub & Hall & _).
  destruct (batch_appendable _ _ _ Hwf Hv Hn) as [Hap Hnd].
  assert (Forall (λ r, ix_records (dr_index d) !! record_key r = None) news) as Hnone
    by (eapply Forall_impl; [done|]; by intros ? (_ & _ & ?)).
  assert (∀ k r, ix_records (foldl insert_record (dr_index d) news) !! k = Some r ↔
    ix_records (dr_index d) !! k = Some r ∨ (r ∈ records ∧ record_key r = k)) as Hrec.
  { intros k r. rewrite foldl_insert_records by done. split.
    - intros [?|[? ?]]; [by left|right]. split; [by eapply sublist_subseteq|done].
    - intros [?|[Hin <-]]; [by left|]. destruct (Hall r Hin) as [?|?]; [by right|by left]. }
  assert (∀ ix, ix_committed (foldl insert_record ix news) = ix_committed ix) as Hcr.
  { clear. induction news as [|r news IH]; intros ix; [done|]. simpl. by rewrite IH. }
  assert (∀ r, r ∈ records → below_prefix (dr_index d) (er_stream r) (er_lsn r) = false) as Habove.
  { intros r Hr. destruct (Hall r Hr) as [Hin|Hin]; [|by apply (ok_above _ Hok) in Hin].
    rewrite Forall_forall in Hap. by destruct (Hap r Hin) as (_ & ? & _). }
  assert (∀ r, r ∈ records →
    ix_committed (foldl insert_commit (foldl insert_record (dr_index d) news) commits)
      !! record_key r = Some r) as Hcom.
  { intros r Hr. apply foldl_insert_commits.
    - intros a b Ha Hb. apply (batch_record_keys records); [done|..];
        by eapply (collect_commits_spec _ _ _ _ Hc).
    - intros c Hin r'. rewrite Hcr. intros Hr'. apply (ok_committed _ Hok) in Hr'.
      assert (ix_records (foldl insert_record (dr_index d) news) !! record_key c = Some r') as Hx
        by (apply Hrec; by left).
      assert (ix_records (foldl insert_record (dr_index d) news) !! record_key c = Some c) as Hx'.
      { apply Hrec. right. split; [|done]. by eapply (collect_commits_spec _ _ _ _ Hc). }
      congruence.
    - destruct (collect_commits_complete _ _ _ _ Hc r Hr) as [?|[?|Hb]]; [by right|left; by rewrite Hcr|].
      rewrite Habove in Hb by done. done. }
  destruct (bool_decide (news = []) && bool_decide (commits = [])) eqn:Hempty.
  - injection Happ as <- <-. apply andb_true_iff in Hempty as [->%bool_decide_eq_true ->%bool_decide_eq_true].
    left. by split.
  - destruct io as [|reason n]; injection Happ as <- <-; simpl.
    + left. split; [done|]. split; [|done]. intros k r. by rewrite foldl_insert_commits_records.
    + right. by rewrite take_app_length.
Qed.

(** ** Superseding *)

Lemma elem_of_doomed ix stream from_lsn epoch :
  epoch ∈ doomed_epochs ix stream from_lsn ↔
  ∃ lsn r, ix_records ix !! (stream, lsn) = Some r ∧ from_lsn ≤ lsn ∧ er_writer_epoch r = epoch.
Proof.
  unfold doomed_epochs. rewrite list_elem_of_fmap. split.
  - intros ([[s l] r] & -> & [[Hs Hl] Hin]%list_elem_of_filter). simpl in *. subst.
    apply elem_of_btree_entries in Hin. by exists l, r.
  - intros (l & r & Hr & Hl & <-). exists ((stream, l), r). split; [done|].
    apply list_elem_of_filter. split; [done|]. by apply elem_of_btree_entries.
Qed.

Lemma doomed_empty ix stream from_lsn k r :
  doomed_epochs ix stream from_lsn = [] → ix_records ix !! k = Some r →
  k.1 ≠ stream ∨ k.2 < from_lsn.
Proof.
  intros He Hr. destruct (decide (k.1 = stream)) as [Hk|]; [|by left]. right.
  apply N.lt_nge. intros Hge. destruct k as [s l]; simpl in *; subst.
  assert (er_writer_epoch r ∈ doomed_epochs ix stream from_lsn) as Hin
    by (apply elem_of_doomed; eauto).
  rewrite He in Hin. by apply not_elem_of_nil in Hin.
Qed.

(** superseding withdraws exactly the orphaned suffix.  When it is
    acknowledged, no record is left at or after [from_lsn], all of those withdrawn
    were written by writers older than [writer_epoch] and lay above the compacted
    prefix, and the records of other streams and those before [from_lsn] are
    untouched.  Otherwise, and whenever the suffix holds a record of
    [writer_epoch] or newer, nothing changes. *)
Theorem supersede_withdraws_orphans d stream from_lsn epoch res d' :
  supersede WriteDone d stream from_lsn epoch = (res, d') →
  (is_ok res = true →
     (∀ k r, ix_records (dr_index d') !! k = Some r ↔
        ix_records (dr_index d) !! k = Some r ∧ (k.1 ≠ stream ∨ k.2 < from_lsn))
     ∧ (∀ lsn r, ix_records (dr_index d) !! (stream, lsn) = Some r → from_lsn ≤ lsn →
          er_writer_epoch r < epoch)
     ∧ (∀ lsn, from_lsn ≤ lsn → below_prefix (dr_index d) stream lsn = false))
  ∧ (is_ok res = false → d' = d).
Proof.
  unfold supersede. destruct (_ || _); [by intros [= <- <-]|].
  destruct (below_prefix (dr_index d) stream from_lsn) eqn:Hb; [by intros [= <- <-]|].
  assert (∀ lsn, from_lsn ≤ lsn → below_prefix (dr_index d) stream lsn = false) as Habove.
  { intros lsn Hle. unfold below_prefix in *. destruct (ix_trimmed (dr_index d) !! stream); [|done].
    apply N.leb_gt in Hb. apply N.leb_gt. lia. }
  destruct (bool_decide_reflect (doomed_epochs (dr_index d) stream from_lsn = [])) as [He|].
  - intros [= <- <-]. split; [intros _|done]. split_and!; [| |done].
    + intros k r. split; [|by intros [? _]]. intros Hr. split; [done|by eapply doomed_empty].
    + intros lsn r Hr Hle. destruct (doomed_empty _ _ _ _ _ He Hr); simpl in *; [done|lia].
  - destruct (existsb _ _) eqn:Hex; [by intros [= <- <-]|]. intros [= <- <-].
    split; [intros _|done]. split_and!; [|intros lsn r Hr Hle|done].
    + intros k r. apply withdraw_suffix_record.
    + apply N.lt_nge. intros Hge. rewrite <- not_true_iff_false in Hex.
      apply Hex, existsb_exists. exists (er_writer_epoch r). split; [|by apply N.leb_le].
      apply list_elem_of_In, elem_of_doomed. eauto.
Qed.

(** ** Compaction *)

Lemma trim_fold_last ix trimmed prefixes trimmed' stream archived_lsn epoch :
  try_fold (trim_prefix ix) trimmed prefixes = Ok trimmed' →
  (∀ p, p ∈ prefixes → p.1.1 = stream → p = (stream, archived_lsn, epoch)) →
  (stream, archived_lsn, epoch) ∈ prefixes →
  ∃ p, trimmed' !! stream = Some p ∧ tp_archived_lsn p = archived_lsn ∧ epoch ≤ tp_writer_epoch p.
Proof.
  revert trimmed. induction prefixes as [|[[s a] w] ps IH]; intros trimmed Hf Huniq Hin;
    [by apply not_elem_of_nil in Hin|].
  cbn [try_fold] in Hf. next Hf.
  destruct (decide ((stream, archived_lsn, epoch) ∈ ps)) as [Hps|Hps].
  { eapply IH; [done| |done]. intros p Hp. apply Huniq. by right. }
  apply elem_of_cons in Hin as [[= <- <- <-]|]; [|done].
  assert (∃ p, x !! stream = Some p ∧ tp_archived_lsn p = archived_lsn ∧ epoch ≤ tp_writer_epoch p) as Hx'.
  { unfold trim_prefix in Hx. destruct (_ || _); [done|]. case_match; [done|].
    injection Hx as <-. rewrite lookup_insert_eq. eexists. split; [done|]. simpl. split; [done|lia]. }
  clear Hx IH. revert x Hf Hx'. induction ps as [|[[s a] w] ps IH]; intros x Hf Hx'; [by injection Hf as <-|].
  cbn [try_fold] in Hf. next Hf. eapply IH; [| |done|].
  - intros p Hp. apply Huniq. set_solver.
  - set_solver.
  - assert (s ≠ stream) as Hs.
    { intros ->. apply Hps. rewrite (Huniq (stream, a, w)); [by left|set_solver|done]. }
    unfold trim_prefix in Hx. destruct (_ || _); [done|]. case_match; [done|]. injection Hx as <-.
    by rewrite lookup_insert_ne.
Qed.

(** The prefixes a compaction leaves, and the index they give. *)
Lemma compact_outcome io d prefixes res d' :
  index_ok (dr_index d) → Forall wf_prefix prefixes →
  compact_archived_batch io d prefixes = (res, d') →
  ∃ trimmed, trims_ok (dr_index d) trimmed
    ∧ (∀ n, res = Ok n → prefixes ≠ [] →
         try_fold (trim_prefix (dr_index d)) (ix_trimmed (dr_index d)) prefixes = Ok trimmed)
    ∧ (dr_index d' = compacted_index (dr_index d) trimmed
       ∨ (trimmed = ix_trimmed (dr_index d) ∧ dr_index d' = dr_index d)).
Proof.
  intros Hok Hwf. unfold compact_archived_batch.
  pose proof (trims_ok_refl (dr_index d)) as Hrefl.
  destruct (bool_decide_reflect (prefixes = [])).
  { intros [= <- <-]. exists (ix_trimmed (dr_index d)). split; [done|]. split; [done|by right]. }
  destruct (try_fold _ _ prefixes) as [trimmed|] eqn:Hf.
  2: { intros [= <- <-]. exists (ix_trimmed (dr_index d)). split; [done|]. split; [done|by right]. }
  pose proof (trim_prefixes_ok _ _ _ _ Hok Hwf Hrefl Hf) as Ht.
  match goal with |- context [if ?b then _ else _] => destruct b eqn:E end.
  { intros [= <- <-]. apply andb_true_iff in E as [_ ->%bool_decide_eq_true].
    exists (ix_trimmed (dr_index d)). split; [done|]. split; [done|by right]. }
  destruct io; intros [= <- <-].
  - exists trimmed. split; [done|]. split; [done|by left].
  - exists (ix_trimmed (dr_index d)). split; [done|]. split; [done|by right].
  - exists trimmed. split; [done|]. split; [done|by left].
Qed.

(** compaction removes the archived prefix and nothing else.  Whatever the
    outcome of the rewrite, a record or marker is gone only if the member's
    compacted watermark for its stream now covers it, that watermark and the
    highest writer epoch never go back, and a completed compaction covers every
    requested prefix. *)
Theorem compaction_removes_only_archived d0 d io prefixes res d' :
  node_initial d0 → rtc node_step d0 d → Forall wf_prefix prefixes →
  compact_archived_batch io d prefixes = (res, d') →
  (∀ k r, ix_records (dr_index d') !! k = Some r ↔
     ix_records (dr_index d) !! k = Some r ∧ below_prefix (dr_index d') k.1 k.2 = false)
  ∧ (∀ k r, ix_committed (dr_index d') !! k = Some r ↔
     ix_committed (dr_index d) !! k = Some r ∧ below_prefix (dr_index d') k.1 k.2 = false)
  ∧ (∀ s l, below_prefix (dr_index d) s l = true → below_prefix (dr_index d') s l = true)
  ∧ (∀ s, default 0 (ix_highest (dr_index d) !! s) ≤ default 0 (ix_highest (dr_index d') !! s))
  ∧ (∀ stream archived_lsn epoch n, res = Ok n → (stream, archived_lsn, epoch) ∈ prefixes →
       (∀ p, p ∈ prefixes → p.1.1 = stream → p = (stream, archived_lsn, epoch)) →
       below_prefix (dr_index d') stream archived_lsn = true).
Proof.
  intros Hi Hreach Hwf Hc. destruct (node_reachable_inv _ _ Hi Hreach) as [Hok _].
  destruct (compact_outcome _ _ _ _ _ Hok Hwf Hc) as (trimmed & Ht & Hf & Hix).
  assert (ix_trimmed (dr_index d') = trimmed) as Htr.
  { by destruct Hix as [->|[-> ->]]. }
  assert (∀ k, retained trimmed k = true ↔ below_prefix (dr_index d') k.1 k.2 = false) as Hret.
  { intros [s l]. unfold retained, below_prefix. rewrite Htr. simpl.
    destruct (trimmed !! s); [|done]. by rewrite N.ltb_lt, N.leb_gt. }
  assert (∀ s l, below_prefix (dr_index d) s l = true → below_prefix (dr_index d') s l = true) as Hmono.
  { intros s l Hb. unfold below_prefix in *. rewrite Htr.
    destruct (ix_trimmed (dr_index d) !! s) as [p|] eqn:Hp; [|done]. apply N.leb_le in Hb.
    destruct (trimmed !! s) as [q|] eqn:Hq; [|by rewrite (proj2 (Ht s) Hq) in Hp].
    apply N.leb_le. destruct (proj1 (Ht s) q Hq) as [?|(_ & _ & _ & _ & Hle & _)]; [simplify_eq; lia|].
    specialize (Hle p Hp). lia. }
  split; [|split; [|split; [done|split]]].
  - intros k r. rewrite <- Hret. destruct Hix as [->|[-> ->]]; [apply compacted_record|].
    split; [|by intros [? _]]. intros Hr. split; [done|]. destruct k. by eapply retained_same.
  - intros k r. rewrite <- Hret. destruct Hix as [->|[-> ->]]; [apply compacted_committed|].
    split; [|by intros [? _]]. intros Hr. split; [done|]. destruct k.
    eapply retained_same; [done|done|]. by apply (ok_committed _ Hok).
  - intros s. destruct Hix as [->|[_ ->]]; [|done]. rewrite compacted_highest by done.
    destruct (trimmed !! s); simpl; [lia|done].
  - intros stream a w n Hres Hin Huniq. assert (prefixes ≠ []) as Hne by (by intros ->; apply not_elem_of_nil in Hin).
    destruct (trim_fold_last _ _ _ _ _ _ _ (Hf n Hres Hne) Huniq Hin) as (p & Hp & Ha & _).
    unfold below_prefix. rewrite Htr, Hp. apply N.leb_le. lia.
Qed.

(** ** Maintenance *)

Definition generation (d : DiskReplica) : N := ms_generation (dr_maintenance d).

(** The marker file is never behind the generation the member acts on. *)
Definition marker_ok (d : DiskReplica) : Prop :=
  match dr_marker d with
  | MarkerMissing => generation d = 0
  | MarkerBroken _ => True
  | MarkerDocument m => generation d ≤ ms_generation m
  end.

Lemma adopt_maintenance_generation io d next res d' :
  marker_ok d → generation d ≤ ms_generation next →
  adopt_maintenance io d next = (res, d') → generation d ≤ generation d' ∧ marker_ok d'.
Proof.
  intros Hm Hle. unfold adopt_maintenance, persist_maintenance_state.
  destruct io as [|reason renamed]; intros [= _ <-]; unfold marker_ok, generation in *; simpl.
  - done.
  - split; [done|]. by destruct renamed.
Qed.

Lemma read_maintenance_generation d d' :
  marker_ok d → read_maintenance_state (dr_marker d) = Ok (dr_maintenance d') → dr_marker d' = dr_marker d →
  generation d ≤ generation d' ∧ marker_ok d'.
Proof.
  intros Hok Hread Hm. unfold marker_ok, generation in *. rewrite Hm in *.
  unfold read_maintenance_state in Hread. destruct (dr_marker d) as [|reason|m]; [|done|].
  - injection Hread as <-. by rewrite Hok.
  - destruct (_ || _) in Hread; [done|]. by injection Hread as <-.
Qed.

Lemma node_step_generation d d' :
  node_step d d' → marker_ok d → generation d ≤ generation d' ∧ marker_ok d'.
Proof.
  assert (∀ a b, dr_maintenance b = dr_maintenance a → dr_marker b = dr_marker a →
    marker_ok a → generation a ≤ generation b ∧ marker_ok b) as Hsame.
  { intros a b Hma Hmk Hok. unfold generation, marker_ok in *. rewrite Hmk. unfold generation in *.
    by rewrite Hma. }
  assert (∀ a b, same_log a b → dr_maintenance b = dr_maintenance a ∧ dr_marker b = dr_marker a) as Hsl
    by (by intros a b (_ & _ & ? & ? & _)).
  intros [io d0 r token placement res d1 Hwf Hio Hs
         |io restored d0 records token commit placement res d1 Hwf Hio Hs
         |io d0 r token res d1 Hio Hs|io d0 stream from_lsn epoch res d1 Hio Hwf Hs
         |io d0 prefixes res d1 Hwf Hs|io d0 token res d1 Hs|io d0 token res d1 Hs
         |io d0 stream placement res d1 Hs|truncation d0 ix file maintenance _ Hread
         |d0 d1 ix file maintenance Hw _ _ _ Hread|] Hok.
  - apply with_lease_body in Hs as [Hab|(d2 & d3 & Hab & Hb & Hcd)];
      [apply Hsl in Hab as [? ?]; by apply Hsame|].
    apply Hsl in Hab as [? ?], Hcd as [? ?].
    apply append_locked_new in Hb as [->|(_ & _ & _ & f & _ & ->)]; apply Hsame; simpl in *; congruence.
  - unfold append_many_inner_with_placement in Hs.
    destruct (validate_append_batch records); [|injection Hs as _ <-; by apply Hsame].
    apply with_lease_body in Hs as [Hab|(d2 & d3 & Hab & Hb & Hcd)];
      [apply Hsl in Hab as [? ?]; by apply Hsame|].
    apply Hsl in Hab as [? ?], Hcd as [? ?].
    apply append_many_locked_written in Hb as [->|(_ & n & c & f & _ & _ & _ & ->)];
      apply Hsame; simpl in *; congruence.
  - unfold commit_inner in Hs. repeat case_match; simplify_eq/=; by apply Hsame.
  - unfold supersede in Hs. repeat case_match; simplify_eq/=; by apply Hsame.
  - unfold compact_archived_batch in Hs. repeat case_match; simplify_eq/=; by apply Hsame.
  - unfold fence in Hs. destruct (ms_active _); [case_bool_decide; injection Hs as _ <-; by apply Hsame|].
    destruct (N.leb_spec (vt_generation token) (ms_generation (dr_maintenance d0)));
      [injection Hs as _ <-; by apply Hsame|].
    eapply adopt_maintenance_generation; [done| |done]. unfold generation. simpl. lia.
  - unfold release_fence in Hs. destruct (ms_active _).
    + case_bool_decide; [|injection Hs as _ <-; by apply Hsame].
      eapply adopt_maintenance_generation; [done| |done]. unfold generation. simpl. lia.
    + case_bool_decide; [injection Hs as _ <-; by apply Hsame|].
      destruct (N.ltb_spec (ms_generation (dr_maintenance d0)) (vt_generation token));
        [|injection Hs as _ <-; by apply Hsame].
      eapply adopt_maintenance_generation; [done| |done]. unfold generation. simpl. lia.
  - unfold install_placement_fence in Hs. destruct (dr_placement d0);
      [|injection Hs as _ <-; by apply Hsame].
    apply bind_Some in Hs as ([r store] & _ & [= _ <-]). by apply Hsame.
  - eapply read_maintenance_generation; [done|done|reflexivity].
  - apply write_call_written in Hw as [(_ & Hmk & _) _]. rewrite Hmk in *.
    eapply read_maintenance_generation; [done|done|reflexivity].
  - by apply Hsame.
Qed.

(** maintenance tokens cannot be replayed.  Once a member has acted on a
    generation, no later call, crash or restart lets a token of that generation
    or an older one take the fence: presenting it never changes the member, and
    succeeds only while that very token still holds the fence. *)
Theorem stale_token_never_acquires d d' token io res d'' :
  marker_ok d → rtc node_step d d' → vt_generation token ≤ generation d →
  fence io d' token = (res, d'') →
  generation d ≤ generation d' ∧ d'' = d'
  ∧ (res = Ok tt → ms_active (dr_maintenance d') = Some (marker token)).
Proof.
  intros Hok Hr Hle Hf.
  assert (generation d ≤ generation d') as Hmono.
  { clear Hf Hle. induction Hr as [|a b c Hstep _ IH]; [done|].
    destruct (node_step_generation _ _ Hstep Hok) as [? ?]. etrans; [done|by apply IH]. }
  split; [done|]. unfold fence in Hf. unfold generation in *.
  destruct (ms_active (dr_maintenance d')).
  - case_bool_decide; injection Hf as <- <-; [by subst|done].
  - rewrite (proj2 (N.leb_le _ _)) in Hf by lia. by injection Hf as <- <-.
Qed.

(** an acknowledged maintenance fence is durable and exclusive: it is what a
    restart reads, and while it is held every append, batch or commit that does
    not present that very token is refused and leaves the member as it was. *)
Theorem maintenance_fence_holds d token d' io :
  ms_active (dr_maintenance d) = None → blank (vt_owner token) = false →
  blank (vt_signature token) = false → fence PersistDone d token = (Ok tt, d') →
  read_maintenance_state (dr_marker d') = Ok (dr_maintenance d')
  ∧ verify_fence d' token = Ok tt
  ∧ ∀ presented, marker <$> presented ≠ Some (marker token) →
      (∀ r, append_locked io d' r presented = (Err WriterFenced, d'))
      ∧ (∀ records restored commit,
           append_many_locked io restored d' records presented commit = (Err WriterFenced, d'))
      ∧ (∀ r, commit_inner io d' r presented = (Err WriterFenced, d')).
Proof.
  intros Hnone Ho Hsig Hf. unfold fence in Hf. rewrite Hnone in Hf.
  destruct (_ <=? _); [done|]. injection Hf as <-.
  unfold verify_fence, append_locked, append_many_locked, commit_inner, maintenance_allowed. simpl.
  rewrite N.eqb_refl, Ho, Hsig. simpl. rewrite bool_decide_true by done. split; [done|]. split; [done|].
  intros presented Hp. assert (match presented with
    | Some t => bool_decide (marker token = marker t) | None => false end = false) as ->; [|done].
  destruct presented as [t|]; [|done]. apply bool_decide_false. simpl in Hp. congruence.
Qed.

End NodeContract.
