(* ===== verification/NodeToy.v ===== *)
(** * NodeToy: a concrete log codec, and the node theorems at concrete inputs

    [toy_json] writes an entry as a brace, its binary code spelled with two
    letters, and a closing brace: enough of JSON to satisfy [LogJsonLaws].  The
    witnesses run a member through appends, commits, a compaction and restarts. *)

From S2P Require Import Prelude Text Wire Client Placement Manifest NodeLog NodeReplay NodeOps NodeSafety NodeContract.

(** Entries as nested sums and products. *)
Abbreviation record_code :=
  (list byte * (list byte * (list byte * (string * (N * (N * N))))))%type.

Definition record_to_code (r : EncryptedRecord) : record_code :=
  (er_authentication r, (er_nonce r, (er_ciphertext r, (er_stream r,
    (er_writer_epoch r, (er_lsn r, er_committed_lsn r)))))).

Definition record_of_code (c : record_code) : EncryptedRecord :=
  let '(a, (n, (ct, (s, (w, (l, cl)))))) := c in mkEncryptedRecord s w l cl n ct a.

Definition entry_to_code (e : LogEntry)
    : (record_code + record_code) + ((string * N * N) + (string * N * N)) :=
  match e with
  | LogRecord r => inl (inl (record_to_code r))
  | LogCommit r => inl (inr (record_to_code r))
  | LogSupersede s a b => inr (inl (s, a, b))
  | LogTrim s a b => inr (inr (s, a, b))
  end.

Definition entry_of_code
    (c : (record_code + record_code) + ((string * N * N) + (string * N * N))) : LogEntry :=
  match c with
  | inl (inl r) => LogRecord (record_of_code r)
  | inl (inr r) => LogCommit (record_of_code r)
  | inr (inl (s, a, b)) => LogSupersede s a b
  | inr (inr (s, a, b)) => LogTrim s a b
  end.

Lemma entry_of_to_code e : entry_of_code (entry_to_code e) = e.
Proof. destruct e as [[]|[]| |]; done. Qed.

#[global] Instance entry_eq_dec : EqDecision LogEntry.
Proof. solve_decision. Defined.

#[global] Instance entry_countable : Countable LogEntry :=
  inj_countable' entry_to_code entry_of_code entry_of_to_code.

(** A positive spelled in letters. *)
Fixpoint spell (p : positive) : list byte :=
  match p with
  | xH => []
  | xO p => x61 :: spell p
  | xI p => x62 :: spell p
  end.

Fixpoint unspell (bs : list byte) : positive :=
  match bs with
  | [] => xH
  | b :: rest => if bool_decide (b = x61) then xO (unspell rest) else xI (unspell rest)
  end.

Lemma unspell_spell p : unspell (spell p) = p.
Proof. induction p; simpl; congruence. Qed.

Lemma spell_letters p b : b ∈ spell p → b = x61 ∨ b = x62.
Proof.
  induction p; simpl; rewrite ?elem_of_cons, ?elem_of_nil; naive_solver.
Qed.

Definition toy_line (e : LogEntry) : list byte := x7b :: spell (encode e) ++ [x7d].

(** Where the first closing brace stands: nowhere, at the end, or before it. *)
Fixpoint toy_value (bs : list byte) : JsonSyntax :=
  match bs with
  | [] => JsonEof "EOF while parsing"
  | b :: rest =>
    if bool_decide (b = x7d)
    then if bool_decide (rest = []) then JsonOk else JsonInvalid "trailing characters"
    else toy_value rest
  end.

Definition toy_entry (bs : list byte) : option LogEntry :=
  match bs with b :: rest => decode (unspell (take (length rest - 1) rest)) | [] => None end.

Lemma toy_entry_line e : toy_entry (toy_line e) = Some e.
Proof.
  unfold toy_entry, toy_line. rewrite length_app. simpl.
  rewrite Nat.add_sub, take_app_length, unspell_spell. apply decode_encode.
Qed.

Definition toy_kind (e : LogEntry) : string :=
  match e with
  | LogRecord _ => ""
  | LogCommit _ => "commit"
  | LogSupersede _ _ _ => "supersede"
  | LogTrim _ _ _ => "trim"
  end.

#[global] Instance toy_json : LogJson := {|
  json_line := toy_line;
  json_value := toy_value;
  json_record bs := match toy_entry bs with Some (LogRecord r) => Some r | _ => None end;
  json_kind bs := match toy_entry bs with Some e => toy_kind e | None => "" end;
  json_commit bs := match toy_entry bs with Some (LogCommit r) => Ok r | _ => Err "commit" end;
  json_supersede bs :=
    match toy_entry bs with Some (LogSupersede s a b) => Ok (s, a, b) | _ => Err "supersede" end;
  json_trim bs := match toy_entry bs with Some (LogTrim s a b) => Ok (s, a, b) | _ => Err "trim" end;
|}.

(** No brace before the last byte. *)
Lemma toy_line_body (e : LogEntry) b : b ∈ x7b :: spell (encode e) → b = x7b ∨ b = x61 ∨ b = x62.
Proof. rewrite elem_of_cons. intros [->|?%spell_letters]; auto. Qed.

Lemma toy_value_app pre rest :
  (∀ b, b ∈ pre → b ≠ x7d) → toy_value (pre ++ rest) = toy_value rest.
Proof.
  induction pre as [|b pre IH]; intros Hb; [done|]. simpl.
  rewrite bool_decide_false by (apply Hb; by left). apply IH. intros b' Hb'. apply Hb. by right.
Qed.

Lemma toy_line_split e : toy_line e = (x7b :: spell (encode e)) ++ [x7d].
Proof. done. Qed.

Lemma toy_body_no_close (e : LogEntry) b : b ∈ x7b :: spell (encode e) → b ≠ x7d.
Proof. by intros [->|[->| ->]]%toy_line_body. Qed.

Ltac toy :=
  cbn [json_line json_value json_record json_kind json_commit json_supersede json_trim toy_json].

#[global] Instance toy_json_laws : LogJsonLaws.
Proof.
  split.
  - intros e _. toy. rewrite toy_line_split. split_and!; [..|done];
      intros [Hb|Hb%list_elem_of_singleton]%elem_of_app; try done;
      by apply toy_line_body in Hb as [?|[?|?]].
  - intros e _. toy. rewrite toy_line_split, toy_value_app by apply toy_body_no_close. done.
  - intros e pre _. toy. intros Hpre Hne Hneq. exists "EOF while parsing".
    rewrite toy_line_split in Hpre, Hneq.
    assert (pre `prefix_of` x7b :: spell (encode e)) as Hbody.
    { destruct Hpre as [k Hk]. destruct (exists_last (l:=k)) as (k' & b & ->).
      { intros ->. rewrite app_nil_r in Hk. congruence. }
      rewrite app_assoc in Hk. apply app_inj_tail in Hk as [Hk _]. by exists k'. }
    rewrite <- (app_nil_r pre), toy_value_app; [done|].
    intros b Hb. apply (toy_body_no_close e). destruct Hbody as [k ->]. apply elem_of_app. by left.
  - intros e e' _ _. exists "trailing characters". toy.
    rewrite (toy_line_split e), <- app_assoc, toy_value_app by apply toy_body_no_close. done.
  - intros e _. toy. by rewrite toy_entry_line.
  - intros r _. toy. by rewrite toy_entry_line.
  - intros s a b _. toy. by rewrite toy_entry_line.
  - intros s a b _. toy. by rewrite toy_entry_line.
  - intros r _. toy. by rewrite toy_entry_line.
  - intros s a b _. toy. by rewrite toy_entry_line.
  - intros s a b _. toy. by rewrite toy_entry_line.
Qed.

(** A call, from its outcome alone. *)
Lemma outcome {A B} (p : A * B) a : p.1 = a → p = (a, p.2).
Proof. destruct p. by intros <-. Qed.

Ltac call := apply outcome; vm_compute; reflexivity.

(** Without placement, a call is its body. *)
Lemma with_lease_plain d stream placement body :
  dr_placement d = None → with_lease d None stream placement body = body d.
Proof.
  intros Hp. unfold with_lease, placement_lease. rewrite Hp. by destruct (body d).
Qed.

(** ** A member at work *)

Definition w_disk : DiskReplica :=
  mkDisk [] empty_index default_maintenance MarkerMissing None "n" None None.

Definition w_batch : list EncryptedRecord := [sample_record 2; sample_record 3].

Definition w_d1 : DiskReplica := (append_locked WriteDone w_disk (sample_record 1) None).2.
Definition w_d2 : DiskReplica := (append_many_locked WriteDone true w_d1 w_batch None true).2.
Definition w_d3 : DiskReplica := (compact_archived_batch CompactDone w_d2 [("t/s", 2, 1)]).2.

Lemma w_disk_initial : node_initial w_disk.
Proof. done. Qed.

Lemma w_record_wf lsn : lsn ≤ 9 → wf_record (sample_record lsn).
Proof. intros Hl. apply sample_record_wf. unfold u64_max. lia. Qed.

Lemma w_batch_wf : Forall wf_record w_batch.
Proof. repeat (apply Forall_cons; split); [by apply w_record_wf..|by apply Forall_nil]. Qed.

Lemma w_prefixes_wf : Forall wf_prefix [("t/s", 2, 1)].
Proof. apply Forall_singleton. split_and!; by vm_compute. Qed.

Lemma w_d1_ok : append_locked WriteDone w_disk (sample_record 1) None = (Ok tt, w_d1).
Proof. call. Qed.

Lemma w_d2_ok : append_many_locked WriteDone true w_d1 w_batch None true = (Ok tt, w_d2).
Proof. call. Qed.

Lemma w_step1 : node_step w_disk w_d1.
Proof.
  apply (node_append WriteDone w_disk (sample_record 1) None None (Ok tt));
    [by apply w_record_wf|done|].
  unfold append_inner_with_placement. by rewrite with_lease_plain, w_d1_ok.
Qed.

Lemma w_step2 : node_step w_d1 w_d2.
Proof.
  apply (node_append_many WriteDone true w_d1 w_batch None true None (Ok tt));
    [apply w_batch_wf|by left|].
  unfold append_many_inner_with_placement. change (validate_append_batch w_batch) with (@Ok ReplicaError unit tt).
  by rewrite with_lease_plain, w_d2_ok.
Qed.

Lemma w_step3 : node_step w_d2 w_d3.
Proof.
  apply (node_compact CompactDone w_d2 [("t/s", 2, 1)] (Ok 2));
    [apply w_prefixes_wf|call].
Qed.

Lemma w_run1 : rtc node_step w_disk w_d1.
Proof. eapply rtc_once, w_step1. Qed.

Lemma w_run2 : rtc node_step w_disk w_d2.
Proof. eapply rtc_r; [apply w_run1|apply w_step2]. Qed.

Lemma w_run3 : rtc node_step w_disk w_d3.
Proof. eapply rtc_r; [apply w_run2|apply w_step3]. Qed.

(** ** Witnesses *)

(** The batch again, cut after five bytes by a crash, and the process that opens the log next. *)
Definition w_crashed : DiskReplica := (append_many_locked (WriteFailed "power" 5) false w_d1 w_batch None true).2.

Lemma w_crash_step : node_step w_d1 w_d1.
Proof.
  apply (node_crash w_d1 w_crashed (dr_index w_d1) (dr_file w_d1) (dr_maintenance w_d1)).
  - apply (write_append_many (WriteFailed "power" 5) false w_d1 w_batch None true None (Err (NodeStorage "power")));
      [apply w_batch_wf|].
    unfold append_many_inner_with_placement. change (validate_append_batch w_batch) with (@Ok ReplicaError unit tt).
    rewrite with_lease_plain by done. call.
  - by vm_compute.
  - by vm_compute.
  - right. by vm_compute.
  - done.
Qed.

Lemma w_crash_run : rtc node_step w_disk w_d3.
Proof.
  apply (rtc_l _ _ w_d1); [apply w_step1|]. apply (rtc_l _ _ w_d1); [apply w_crash_step|].
  apply (rtc_l _ _ w_d2); [apply w_step2|]. apply rtc_once, w_step3.
Qed.

Lemma reopen_is_identity_witness :
  (length (dr_file w_d1) < length (dr_file w_crashed))%nat
  ∧ open_log (Ok tt) (dr_file w_d3) = Ok (dr_index w_d3, dr_file w_d3).
Proof.
  split; [vm_compute; lia|].
  exact (reopen_is_identity w_disk w_d3 (Ok tt) w_disk_initial w_crash_run).
Defined.

Lemma node_index_sound_witness :
  is_max (ix_highest (dr_index w_d3) !! "t/s")
    (epoch_in (ix_records (dr_index w_d3)) (ix_trimmed (dr_index w_d3)) "t/s").
Proof. exact (proj2 (proj2 (node_index_sound w_disk w_d3 w_disk_initial w_run3)) "t/s"). Defined.

Lemma torn_batch_recovers_prefix_witness :
  ∃ news commits k file, news `sublist_of` w_batch
    ∧ open_log (Ok tt) (take (length (dr_file w_d1) + 5) (dr_file w_d2))
      = Ok (batch_prefix (dr_index w_d1) news commits k, file).
Proof.
  destruct (torn_batch_recovers_prefix w_disk w_d1 w_batch None true w_d2 5)
    as (news & commits & k & file & Hsub & _ & Ho & _);
    [apply w_disk_initial|apply w_run1|apply w_batch_wf|by vm_compute|apply w_d2_ok
    |by vm_compute|by exists news, commits, k, file].
Defined.

Definition w_cut : list byte := take (length (dr_file w_d1) - 1) (dr_file w_d1).

Lemma lost_newline_breaks_log_witness :
  ∃ d2 reason,
    append_locked WriteDone (set_log w_d1 w_cut (dr_index w_d1)) (sample_record 2) None = (Ok tt, d2)
    ∧ open_log (Ok tt) (dr_file d2) = Err (NodeStorage reason).
Proof.
  set (d2 := (append_locked WriteDone (set_log w_d1 w_cut (dr_index w_d1)) (sample_record 2) None).2).
  assert (append_locked WriteDone (set_log w_d1 w_cut (dr_index w_d1)) (sample_record 2) None
          = (Ok tt, d2)) as Ha by call.
  destruct (lost_newline_breaks_log w_disk w_disk (sample_record 1) (sample_record 2) w_d1 d2
    (Ok tt) w_cut) as [_ [reason Ho]];
    [apply w_disk_initial|done|by apply w_record_wf|by apply w_record_wf|apply w_d1_ok
    |by vm_compute|done|apply Ha|by vm_compute|by exists d2, reason].
Defined.

Lemma failed_append_breaks_log_witness :
  ∃ d1 d2 reason,
    append_locked (WriteFailed "disk full" (length (json_line (LogRecord (sample_record 1)))))
      w_disk (sample_record 1) None = (Err (NodeStorage "disk full"), d1)
    ∧ append_locked WriteDone d1 (sample_record 1) None = (Ok tt, d2)
    ∧ open_log (Ok tt) (dr_file d2) = Err (NodeStorage reason).
Proof.
  set (io := WriteFailed "disk full" (length (json_line (LogRecord (sample_record 1))))).
  set (d1 := (append_locked io w_disk (sample_record 1) None).2).
  set (d2 := (append_locked WriteDone d1 (sample_record 1) None).2).
  assert (append_locked io w_disk (sample_record 1) None = (Err (NodeStorage "disk full"), d1))
    as Ha1 by call.
  assert (append_locked WriteDone d1 (sample_record 1) None = (Ok tt, d2)) as Ha2 by call.
  destruct (failed_append_breaks_log w_disk w_disk (sample_record 1) (sample_record 1) "disk full"
    d1 d2 (Ok tt)) as [reason Ho];
    [apply w_disk_initial|done|by apply w_record_wf|by apply w_record_wf|apply Ha1
    |by vm_compute|apply Ha2|by vm_compute|by exists d1, d2, reason].
Defined.


Lemma append_acknowledged_witness :
  append_locked (WriteFailed "gone" 3) w_d1 (sample_record 1) None = (Ok tt, w_d1).
Proof.
  refine (proj1 (proj2 (proj2 (proj2 (append_acknowledged w_disk w_disk (sample_record 1) None w_d1
    w_disk_initial (rtc_refl _ _) _ w_d1_ok)))) (WriteFailed "gone" 3)).
  by apply w_record_wf.
Defined.

Lemma batch_all_or_nothing_witness :
  ix_committed (dr_index w_d2) !! ("t/s", 3) = Some (sample_record 3).
Proof.
  destruct (batch_all_or_nothing w_disk w_d1 w_batch None WriteDone w_d2 (Ok tt))
    as [(_ & _ & Hc)|(? & _)];
    [apply w_disk_initial|apply w_run1|apply w_batch_wf|by vm_compute|apply w_d2_ok| |done].
  apply (Hc (sample_record 3)). right. left.
Defined.

Lemma supersede_withdraws_orphans_witness :
  ix_records (dr_index (supersede WriteDone w_d1 "t/s" 1 2).2) !! ("t/s", 1) = None.
Proof.
  destruct (supersede_withdraws_orphans w_d1 "t/s" 1 2 (Ok 1) (supersede WriteDone w_d1 "t/s" 1 2).2)
    as [Hok _]; [call|].
  destruct (Hok eq_refl) as [Hr _]. apply eq_None_not_Some. intros [r Hx].
  apply Hr in Hx as [_ [?|Hlt]]; [done|]. simpl in Hlt. lia.
Defined.

Lemma compaction_removes_only_archived_witness :
  ix_records (dr_index w_d3) !! ("t/s", 3) = Some (sample_record 3).
Proof.
  refine (proj2 (proj1 (compaction_removes_only_archived w_disk w_d2 CompactDone [("t/s", 2, 1)]
    (Ok 2) w_d3 w_disk_initial w_run2 w_prefixes_wf _) _ _) _); [call|].
  split; by vm_compute.
Defined.

Definition w_token (generation : N) : VerifiedMaintenanceToken := mkToken "op" generation "sig".

Definition w_fenced : DiskReplica := (fence PersistDone w_d1 (w_token 3)).2.
Definition w_released : DiskReplica := (release_fence PersistDone w_fenced (w_token 3)).2.

Lemma stale_token_never_acquires_witness :
  (fence PersistDone w_released (w_token 3)).1 ≠ Ok tt.
Proof.
  intros Hok.
  destruct (stale_token_never_acquires w_fenced w_released (w_token 3) PersistDone
    (fence PersistDone w_released (w_token 3)).1 (fence PersistDone w_released (w_token 3)).2)
    as (_ & _ & Hactive); [by vm_compute| |by vm_compute|call|].
  - eapply rtc_once, (node_release PersistDone w_fenced (w_token 3) (Ok tt)). call.
  - specialize (Hactive Hok). by vm_compute in Hactive.
Defined.

Lemma maintenance_fence_holds_witness :
  append_locked WriteDone w_fenced (sample_record 2) None = (Err WriterFenced, w_fenced).
Proof.
  refine (proj1 (proj2 (proj2 (maintenance_fence_holds w_d1 (w_token 3) w_fenced WriteDone
    _ _ _ _)) None _) (sample_record 2)); by vm_compute.
Defined.
