(* ===== verification/Evidence.v ===== *)
(** * Evidence: recovering the committed tail from member snapshots

    The recovery of the gateway in [crates/walleye-bitr-server/src/lib.rs]: which
    records the snapshots of the storage members prove committed
    ([collect_candidates_from_snapshots]), which evidence is refused as ambiguous,
    and the contiguous tail that [recover_hot_tail] returns.  The snapshots, the
    archive's answers and the verdict on a commit certificate are inputs: fetching
    them is network traffic.

    [record_identity] is serde_json's text of the record. *)

From S2P Require Import Prelude Text Wire Client Placement Manifest Cohorts NodeLog.

Abbreviation snapshots := (list (ReplicaNode * option NodeSnapshot)).

(** ** Watermarks and floors *)

Definition ensure_exact_watermark (after_lsn committed_lsn : N) (records : list EncryptedRecord)
    : result ReplicaError unit :=
  if committed_lsn =? after_lsn then Ok tt
  else match last records with
  | None => Err (RecoveryIncomplete (saturating_add after_lsn 1) committed_lsn)
  | Some record =>
    if er_lsn record =? committed_lsn then Ok tt
    else Err (RecoveryIncomplete (saturating_add (er_lsn record) 1) committed_lsn)
  end.

(** The prefixes of a stream the answering members report. *)
Definition reported_trims (stream : string) (snaps : snapshots) : list N :=
  concat ((λ ns, match ns.2 with
                 | None => []
                 | Some snapshot =>
                   tp_archived_lsn <$> filter (λ p, tp_stream p = stream) (sn_trimmed snapshot)
                 end) <$> snaps).

Definition trimmed_floor (stream : string) (after_lsn : N) (committed_lsn : option N)
    (snaps : snapshots) : N :=
  let trimmed := default 0 (max_by (λ a b, b <=? a) (reported_trims stream snaps)) in
  let trimmed := match committed_lsn with Some limit => N.min trimmed limit | None => trimmed end in
  N.max after_lsn trimmed.

Definition has_durable_marker (record : EncryptedRecord) (snaps : snapshots) : bool :=
  existsb (λ ns, match ns.2 with
                 | Some snapshot => existsb (λ c, bool_decide (c = record)) (sn_committed snapshot)
                 | None => false
                 end) snaps.

(** ** Evidence groups *)

(** A record value, the nodes that hold it and those that marked it. *)
Record EvidenceGroup := mkGroup {
  eg_record : EncryptedRecord;
  eg_data : gset string;
  eg_committed : gset string;
}.

(** Byte strings in the order of [Vec<u8>]. *)
Fixpoint bytes_leb (a b : list byte) : bool :=
  match a, b with
  | [], _ => true
  | _ :: _, [] => false
  | x :: a, y :: b =>
    if Byte.to_N x <? Byte.to_N y then true
    else if Byte.to_N y <? Byte.to_N x then false else bytes_leb a b
  end.

Definition bytes_le (a b : list byte * EvidenceGroup) : Prop := bytes_leb a.1 b.1 = true.

#[global] Instance bytes_le_dec : RelDecision bytes_le.
Proof. intros a b. unfold bytes_le. apply _. Defined.

(** [identities.into_values()]. *)
Definition group_values (m : gmap (list byte) EvidenceGroup) : list EvidenceGroup :=
  (merge_sort bytes_le (map_to_list m)).*2.

Section Evidence.
Context `{ManifestHost} `{LogJson}.

Definition record_identity (record : EncryptedRecord) : list byte := json_line (LogRecord record).

(** [node_owns_record]: [state] is the control document in direct mode. *)
Definition node_owns_record (state : option DurableControlState) (node : ReplicaNode)
    (record : EncryptedRecord) : bool :=
  match state with
  | None => true
  | Some state =>
    match find_segment (ct_stream_segments state) (er_stream record) (er_lsn record) with
    | None => false
    | Some segment =>
      if negb (len (sg_member_ids segment) =? REPLICATION_FACTOR)
         || unordered_ids (sg_member_ids segment)
         || negb (bool_decide (member_set_hash state (sg_member_ids segment)
                               = Some (sg_member_hash segment)))
      then false
      else existsb (λ id, bool_decide (id = rn_id node)) (sg_member_ids segment)
    end
  end.

(** One record seen on one node: the [or_insert_with] and the two inserts. *)
Definition add_evidence {K} `{Countable K} (groups : gmap K (gmap (list byte) EvidenceGroup))
    (key : K) (node : ReplicaNode) (snapshot : NodeSnapshot) (record : EncryptedRecord)
    : gmap K (gmap (list byte) EvidenceGroup) :=
  let identities := default ∅ (groups !! key) in
  let entry := default (mkGroup record ∅ ∅) (identities !! record_identity record) in
  let marked := existsb (λ c, bool_decide (c = record)) (sn_committed snapshot) in
  <[key := <[record_identity record :=
      mkGroup (eg_record entry) ({[rn_id node]} ∪ eg_data entry)
        (if marked then {[rn_id node]} ∪ eg_committed entry else eg_committed entry)]>
    identities]> groups.

(** A loop over the records of every answering node that keeps those [keep]
    accepts. *)
Definition collect_groups {K} `{Countable K} (key_of : EncryptedRecord → K)
    (keep : ReplicaNode → EncryptedRecord → bool) (snaps : snapshots)
    : gmap K (gmap (list byte) EvidenceGroup) :=
  foldl (λ groups ns,
    match ns.2 with
    | None => groups
    | Some snapshot =>
      foldl (λ groups record,
        if keep ns.1 record then add_evidence groups (key_of record) ns.1 snapshot record
        else groups) groups (sn_records snapshot)
    end) ∅ snaps.

Context (control : option DurableControlState) (quorum : N).

Definition on_stream (stream : string) (record : EncryptedRecord) : bool :=
  bool_decide (stream = "*") || bool_decide (er_stream record = stream).

(** The keys whose only copies have a malformed watermark. *)
Definition invalid_keys (stream : string) (snaps : snapshots) : gset (string * N) :=
  list_to_set (concat ((λ ns, match ns.2 with
    | None => []
    | Some snapshot =>
      record_key <$> filter (λ r, on_stream stream r = true
        ∧ node_owns_record control ns.1 r = true ∧ er_lsn r ≤ er_committed_lsn r)
        (sn_records snapshot)
    end) <$> snaps)).

(** The owners of a record that answered. *)
Definition answering_owners (snaps : snapshots) (record : EncryptedRecord) : N :=
  len (filter (λ ns : ReplicaNode * option NodeSnapshot,
    is_Some ns.2 ∧ node_owns_record control ns.1 record = true) snaps).

Definition eligible (answering : N) (g : EvidenceGroup) : bool :=
  (quorum <=? N.of_nat (size (eg_committed g)))
  || (negb (bool_decide (eg_committed g = ∅))
      && (saturating_sub answering (N.of_nat (size (eg_data g))) <? quorum)).

Definition candidate_of (snaps : snapshots) (identities : gmap (list byte) EvidenceGroup)
    : option EncryptedRecord :=
  let answering := match group_values identities with
                   | sample :: _ => answering_owners snaps (eg_record sample)
                   | [] => 0
                   end in
  match filter (λ g, eligible answering g = true) (group_values identities) with
  | [g] => Some (eg_record g)
  | _ => None
  end.

Definition collect_candidates_from_snapshots (stream : string) (snaps : snapshots)
    : gmap (string * N) EncryptedRecord * N :=
  let groups := collect_groups record_key (λ node r,
    on_stream stream r && node_owns_record control node r
    && negb (er_lsn r <=? er_committed_lsn r)) snaps in
  let candidates := omap (candidate_of snaps) groups in
  (candidates,
   N.of_nat (size (invalid_keys stream snaps ∖ dom groups))
   + N.of_nat (size groups - size candidates)).

(** A data quorum without a marker quorum. *)
Definition check_evidence (lsn : N) (g : EvidenceGroup) : result ReplicaError unit :=
  if (quorum <=? N.of_nat (size (eg_data g))) && (N.of_nat (size (eg_committed g)) <? quorum)
  then Err (RecoveryAmbiguous lsn (N.of_nat (size (eg_committed g))) quorum)
  else Ok tt.

Definition reject_ambiguous_quorum_records (stream : string) (after_lsn : N) (snaps : snapshots)
    : result ReplicaError unit :=
  let groups := collect_groups record_key (λ node r,
    negb ((er_lsn r <=? after_lsn) || negb (on_stream stream r)
          || (er_lsn r <=? er_committed_lsn r) || negb (node_owns_record control node r))) snaps in
  try_fold (λ _ bucket, try_fold (λ _ g, check_evidence bucket.1.2 g) tt (group_values bucket.2))
    tt (btree_entries groups).

(** ** Recovery under a watermark *)

Definition within_watermark (stream : string) (committed_lsn : N) (r : EncryptedRecord) : bool :=
  bool_decide (er_stream r = stream) && (er_lsn r <=? committed_lsn)
  && negb (er_lsn r <=? er_committed_lsn r) && (er_committed_lsn r <=? committed_lsn).

Definition watermark_candidates (stream : string) (after_lsn committed_lsn : N)
    (snaps : snapshots) : list EncryptedRecord :=
  let groups := collect_groups er_lsn (λ node r,
    within_watermark stream committed_lsn r && negb (er_lsn r <=? after_lsn)
    && node_owns_record control node r) snaps in
  omap (λ values, match group_values values with
                  | [g] => if bool_decide (eg_data g = ∅) then None else Some (eg_record g)
                  | _ => None
                  end) (nbtree_values groups).

(** The [while] loop of [watermark_repair_candidates], [fuel] being the LSNs left
    up to the watermark. *)
Fixpoint repair_prefix (fuel : nat) (groups : gmap N (gmap (list byte) EvidenceGroup))
    (committed_lsn expected expected_epoch : N) : list EncryptedRecord * N :=
  match fuel with
  | O => ([], 0)
  | S fuel =>
    if negb (expected <=? committed_lsn) then ([], 0)
    else match groups !! expected with
    | None => ([], 1)
    | Some values =>
      match group_values values with
      | [g] =>
        let record := eg_record g in
        if bool_decide (eg_data g = ∅) then ([], 1)
        else if negb (er_committed_lsn record =? saturating_sub expected 1)
                || (er_writer_epoch record <? expected_epoch) then ([], 1)
        else if expected =? committed_lsn then ([record], 0)
        else
          let '(records, skipped) :=
            repair_prefix fuel groups committed_lsn (saturating_add expected 1)
              (er_writer_epoch record) in
          (record :: records, skipped)
      | _ => ([], 1)
      end
    end
  end.

Definition watermark_repair_candidates (stream : string) (committed_lsn : N) (snaps : snapshots)
    : list EncryptedRecord * N :=
  let groups := collect_groups er_lsn (λ node r,
    within_watermark stream committed_lsn r && node_owns_record control node r) snaps in
  repair_prefix (N.to_nat committed_lsn) groups committed_lsn 1 0.

(** ** The contiguous tail *)

(** The loop of ordinary recovery: a hole is an error. *)
Fixpoint ordinary_tail (expected expected_epoch : N) (records : list EncryptedRecord)
    : result ReplicaError (list EncryptedRecord) :=
  match records with
  | [] => Ok []
  | record :: rest =>
    if er_lsn record <? expected then ordinary_tail expected expected_epoch rest
    else if negb (er_lsn record =? expected) then Err (RecoveryGap expected (er_lsn record))
    else if negb (er_committed_lsn record =? saturating_sub expected 1)
            || (er_writer_epoch record <? expected_epoch) then Ok []
    else
      tail ← ordinary_tail (saturating_add expected 1) (er_writer_epoch record) rest;
      Ok (record :: tail)
  end.

(** The loop of certified recovery: a hole ends the prefix. *)
Fixpoint watermark_tail (committed_lsn expected expected_epoch : N)
    (records : list EncryptedRecord) : list EncryptedRecord :=
  match records with
  | [] => []
  | record :: rest =>
    if er_lsn record <? expected then watermark_tail committed_lsn expected expected_epoch rest
    else if negb (er_lsn record =? expected) || (committed_lsn <? er_lsn record)
            || negb (er_committed_lsn record =? saturating_sub expected 1)
            || (er_writer_epoch record <? expected_epoch) then []
    else record :: watermark_tail committed_lsn (saturating_add expected 1)
                     (er_writer_epoch record) rest
  end.

(** [dedup_by_key]: of consecutive records with one LSN, the first. *)
Fixpoint dedup_lsn (records : list EncryptedRecord) : list EncryptedRecord :=
  match records with
  | [] => []
  | r :: rest =>
    match dedup_lsn rest with
    | r' :: rest' => if er_lsn r' =? er_lsn r then r :: rest' else r :: r' :: rest'
    | [] => [r]
    end
  end.

(** [recover_hot_tail] without a watermark: the tail and its floor. *)
Definition recover_ordinary (stream : string) (after_lsn : N) (snaps : snapshots)
    : result ReplicaError (list EncryptedRecord * N) :=
  let floor := trimmed_floor stream after_lsn None snaps in
  _ ← reject_ambiguous_quorum_records stream floor snaps;
  let candidates := (collect_candidates_from_snapshots stream snaps).1 in
  tail ← ordinary_tail (saturating_add floor 1) 0
           (sort_by_key er_lsn (filter (λ r, floor < er_lsn r) (btree_values candidates)));
  Ok (tail, floor).

(** The records of the watermark loop: the candidates of the first pass and the
    unanimous records of the second, sorted and without repeated LSNs. *)
Definition certified_records (stream : string) (after_lsn floor committed_lsn : N)
    (snaps snaps' : snapshots) : list EncryptedRecord :=
  let records := filter (λ r, after_lsn < er_lsn r)
                   (btree_values (collect_candidates_from_snapshots stream snaps).1) in
  let records := filter (λ r, floor < er_lsn r) records
                 ++ watermark_candidates stream floor committed_lsn snaps' in
  dedup_lsn (sort_by_key er_lsn records).

(** [recover_hot_tail] with a watermark.  [snaps] and [snaps'] are the two passes
    over the members; [certificate] is [None] when the caller presented none, and
    otherwise tells whether it certifies the last record of the prefix. *)
Definition recover_certified (stream : string) (after_lsn committed_lsn : N)
    (snaps snaps' : snapshots)
    (certificate : option (EncryptedRecord → result ReplicaError unit))
    : result ReplicaError (list EncryptedRecord * N) :=
  if committed_lsn <? after_lsn then
    Err (RecoveryGap (saturating_add after_lsn 1) committed_lsn)
  else
    let candidates := (collect_candidates_from_snapshots stream snaps).1 in
    let floor := trimmed_floor stream after_lsn (Some committed_lsn) snaps' in
    let contiguous :=
      watermark_tail committed_lsn (saturating_add floor 1) 0
        (certified_records stream after_lsn floor committed_lsn snaps snaps') in
    _ ← ensure_exact_watermark floor committed_lsn contiguous;
    _ ← match last contiguous with
        | None => Ok tt
        | Some last =>
          if existsb (λ r, negb (bool_decide (candidates !! record_key r = Some r))
                           && negb (has_durable_marker r snaps')) contiguous
          then
            verify ← ok_or certificate CommitCertificateMissing;
            verify last
          else Ok tt
        end;
    Ok (contiguous, floor).

(** The two modes of [recover_hot_tail]. *)
Definition recover_hot_tail (stream : string) (committed_lsn : option N) (snaps snaps' : snapshots)
    (certificate : option (EncryptedRecord → result ReplicaError unit)) (after_lsn : N)
    : result ReplicaError (list EncryptedRecord * N) :=
  match committed_lsn with
  | None => recover_ordinary stream after_lsn snaps
  | Some limit => recover_certified stream after_lsn limit snaps snaps' certificate
  end.

(** The [retain] under a watermark. *)
Definition up_to (committed_lsn : option N) (records : list EncryptedRecord)
    : list EncryptedRecord :=
  match committed_lsn with
  | Some limit => filter (λ r, er_lsn r ≤ limit) records
  | None => records
  end.

(** [recover_with_watermark_certificate]: the archived records, the hot tail with
    its floor, and the archive read again when a member trimmed past it. *)
Definition recover_with_watermark_certificate (stream : string) (after_lsn : N)
    (committed_lsn : option N) (archived : list EncryptedRecord)
    (hot_tail : N → result ReplicaError (list EncryptedRecord * N))
    (late : N → list EncryptedRecord) : result ReplicaError (list EncryptedRecord) :=
  let archived := up_to committed_lsn archived in
  let hot_after := N.max (match last archived with Some r => er_lsn r | None => after_lsn end)
                         after_lsn in
  '(hot, floor) ← hot_tail hot_after;
  archived ←
    (if hot_after <? floor then
       let late := up_to committed_lsn (late hot_after) in
       let reached := match last late with Some r => er_lsn r | None => hot_after end in
       if reached <? floor then
         Err (NodeStorage "member trim checkpoint exceeds the archive tail")
       else Ok (archived ++ late ++ filter (λ r, reached < er_lsn r) hot)
     else Ok (archived ++ hot));
  _ ← match committed_lsn with
      | Some limit => ensure_exact_watermark after_lsn limit archived
      | None => Ok tt
      end;
  Ok archived.

(** ** The quorum an ordinary recovery reads *)

Context `{RingHost}.

(** The owners of every range that can still hold records above [after_lsn]; the
    third argument of the fold is the group list. *)
Definition range_owners (after_lsn : N) (groups : list (gset string)) (segment : StreamSegment)
    : result ReplicaError (list (gset string)) :=
  if negb (len (sg_member_ids segment) =? REPLICATION_FACTOR) then
    Err (Protocol "placement manifest stream range has an incomplete owner set")
  else if match sg_end_lsn segment with Some e => e <=? after_lsn | None => false end then Ok groups
  else Ok (groups ++ [list_to_set (sg_member_ids segment)]).

(** [manifest] is what [read_manifest_quorum] returned. *)
Definition owning_member_groups (manifest : option ReplicaManifest) (stream : string)
    (nodes : list ReplicaNode) (after_lsn : N) : result ReplicaError (list (gset string)) :=
  owner_groups ←
    match control with
    | None => Ok [list_to_set (rn_id <$> take 3 nodes)]
    | Some state =>
      manifest ← ok_or manifest QuorumUnavailable;
      match rm_stream_segments manifest !! stream with
      | Some segments => try_fold (range_owners after_lsn) [] segments
      | None =>
        cohort_id ← cohort_for_stream state stream;
        cohort ← ok_or (ct_cohorts state !! cohort_id) QuorumUnavailable;
        if negb (len (dc_members cohort) =? REPLICATION_FACTOR) then Err QuorumUnavailable
        else Ok [list_to_set (dc_members cohort)]
      end
    end;
  if existsb (λ owners : gset string,
       negb (bool_decide (owners ⊆ list_to_set (rn_id <$> nodes)))) owner_groups
  then Err QuorumUnavailable else Ok owner_groups.

(** The members of a group that answered. *)
Definition available (results : list (ReplicaNode * result ReplicaError NodeSnapshot))
    (owners : gset string) : N :=
  len (filter (λ nr : ReplicaNode * result ReplicaError NodeSnapshot,
    rn_id nr.1 ∈ owners ∧ is_ok nr.2 = true) results).

Definition first_owner_error (results : list (ReplicaNode * result ReplicaError NodeSnapshot))
    (owners : gset string) : ReplicaError :=
  default QuorumUnavailable (head (omap (λ nr : ReplicaNode * result ReplicaError NodeSnapshot,
    if bool_decide (rn_id nr.1 ∈ owners)
    then match nr.2 with Err e => Some e | Ok _ => None end else None) results)).

Definition result_ok {E A} (m : result E A) : option A :=
  match m with Ok a => Some a | Err _ => None end.

(** [results] is what [fetch_snapshot_results] returned for [nodes]. *)
Definition fetch_ordinary_recovery_snapshots (manifest : option ReplicaManifest) (stream : string)
    (after_lsn : N) (results : list (ReplicaNode * result ReplicaError NodeSnapshot))
    : result ReplicaError snapshots :=
  owner_groups ← owning_member_groups manifest stream results.*1 after_lsn;
  _ ← try_fold (λ _ owners,
        if available results owners <? quorum then Err (first_owner_error results owners)
        else Ok tt) tt owner_groups;
  Ok ((λ nr, (nr.1, result_ok nr.2)) <$> results).

End Evidence.
