(* ===== verification/EvidenceSafety.v ===== *)
(** * EvidenceSafety: what recovery proves

    The groups that the gateway builds are exactly the sightings of each record on
    the members; a candidate is the only eligible record of its key; a record that
    a quorum of owners stored and marked is the candidate; the tail that recovery
    returns is contiguous and holds every acknowledged record. *)

From S2P Require Import Prelude Text Wire Client Placement Manifest Cohorts NodeLog Evidence.

(** One record seen on one answering member. *)
Record Sighting := mkSight {
  si_node : ReplicaNode; si_snapshot : NodeSnapshot; si_record : EncryptedRecord }.

Definition sightings_of (ns : ReplicaNode * option NodeSnapshot) : list Sighting :=
  match ns.2 with
  | None => []
  | Some snapshot => mkSight ns.1 snapshot <$> sn_records snapshot
  end.

Definition sightings (snaps : snapshots) : list Sighting := concat (sightings_of <$> snaps).

Definition si_marked (x : Sighting) : bool :=
  existsb (λ c, bool_decide (c = si_record x)) (sn_committed (si_snapshot x)).

(** The ids of the members on which [P] sees [r]. *)
Definition ids_where (P : Sighting → bool) (xs : list Sighting) (r : EncryptedRecord)
    : gset string :=
  list_to_set ((λ x, rn_id (si_node x)) <$> filter (λ x, si_record x = r ∧ P x = true) xs).

Lemma elem_of_sightings snaps x :
  x ∈ sightings snaps ↔
  (si_node x, Some (si_snapshot x)) ∈ snaps ∧ si_record x ∈ sn_records (si_snapshot x).
Proof.
  unfold sightings. rewrite elem_of_concat. setoid_rewrite list_elem_of_fmap. split.
  - intros (l & ([node o] & -> & Hns) & Hx). destruct o as [s|]; [|by apply elem_of_nil in Hx].
    apply list_elem_of_fmap in Hx as (r & -> & Hr). done.
  - intros [Hns Hr]. destruct x as [node s r]; simpl in *. exists (mkSight node s <$> sn_records s).
    split; [by exists (node, Some s)|]. by apply list_elem_of_fmap; exists r.
Qed.

Lemma elem_of_ids_where P xs r id :
  id ∈ ids_where P xs r ↔
  ∃ x, x ∈ xs ∧ si_record x = r ∧ P x = true ∧ rn_id (si_node x) = id.
Proof.
  unfold ids_where. rewrite elem_of_list_to_set, list_elem_of_fmap.
  setoid_rewrite list_elem_of_filter. naive_solver.
Qed.

Lemma ids_where_snoc P xs x r :
  ids_where P (xs ++ [x]) r =
  if decide (si_record x = r ∧ P x = true) then {[rn_id (si_node x)]} ∪ ids_where P xs r
  else ids_where P xs r.
Proof.
  unfold ids_where. rewrite filter_app, fmap_app, list_to_set_app_L, filter_cons.
  case_decide; simpl; [by rewrite (right_id_L ∅ (∪)), (comm_L (∪))|by rewrite (right_id_L ∅ (∪))].
Qed.

Lemma ids_where_and P Q xs r : ids_where (λ x, P x && Q x) xs r ⊆ ids_where P xs r.
Proof.
  intros id. rewrite !elem_of_ids_where. intros (x & ? & ? & [? ?]%andb_true_iff & ?). eauto.
Qed.

Lemma ids_where_and_empty P Q xs r :
  ids_where P xs r = ∅ → ids_where (λ x, P x && Q x) xs r = ∅.
Proof. pose proof (ids_where_and P Q xs r). set_solver. Qed.

Lemma ids_where_non_empty P xs r :
  ids_where P xs r ≠ ∅ ↔ ∃ x, x ∈ xs ∧ si_record x = r ∧ P x = true.
Proof.
  split.
  - intros (id & (x & ? & ? & ? & _)%elem_of_ids_where)%set_choose_L. eauto.
  - intros (x & ? & ? & ?) Hemp.
    assert (rn_id (si_node x) ∈ (∅ : gset string)) as []%not_elem_of_empty.
    rewrite <- Hemp. apply elem_of_ids_where. eauto.
Qed.

Section Groups.
Context `{LogJsonLaws}.

(** serde_json's text determines the record. *)
Lemma record_identity_inj r r' :
  wf_record r → wf_record r' → record_identity r = record_identity r' → r = r'.
Proof.
  intros Hr Hr' Heq. unfold record_identity in Heq.
  pose proof (json_record_line (LogRecord r) Hr) as E.
  pose proof (json_record_line (LogRecord r') Hr') as E'.
  rewrite Heq in E. simplify_eq/=. congruence.
Qed.

Context {K : Type} `{Countable K} (key_of : EncryptedRecord → K)
  (keep : ReplicaNode → EncryptedRecord → bool).

Definition kept (x : Sighting) : bool := keep (si_node x) (si_record x).

Definition see (groups : gmap K (gmap (list byte) EvidenceGroup)) (x : Sighting) :=
  if kept x then add_evidence groups (key_of (si_record x)) (si_node x) (si_snapshot x)
                   (si_record x)
  else groups.

Lemma collect_groups_sightings snaps :
  collect_groups key_of keep snaps = foldl see ∅ (sightings snaps).
Proof.
  unfold collect_groups, sightings. generalize (∅ : gmap K (gmap (list byte) EvidenceGroup)).
  induction snaps as [|[node o] snaps IH]; intros groups; simpl; [done|].
  rewrite foldl_app, IH. f_equal. unfold sightings_of. destruct o as [s|]; simpl; [|done].
  clear IH.
  revert groups. induction (sn_records s) as [|r rs IHr]; intros groups; simpl; [done|].
  apply IHr.
Qed.

Definition group_at (groups : gmap K (gmap (list byte) EvidenceGroup)) (r : EncryptedRecord)
    : option EvidenceGroup :=
  groups !! key_of r ≫= λ ids, ids !! record_identity r.

(** The group of [r] among the sightings [xs]. *)
Definition group_of (xs : list Sighting) (r : EncryptedRecord) : EvidenceGroup :=
  mkGroup r (ids_where kept xs r) (ids_where (λ x, kept x && si_marked x) xs r).

(** Every bucket is keyed by the key and the identity of a kept record. *)
Definition groups_keyed (xs : list Sighting) (groups : gmap K (gmap (list byte) EvidenceGroup)) :=
  ∀ k ids, groups !! k = Some ids → ids ≠ ∅ ∧ ∀ i g, ids !! i = Some g →
    ∃ x, x ∈ xs ∧ kept x = true ∧ k = key_of (si_record x) ∧ i = record_identity (si_record x).

Lemma see_keyed xs groups x :
  groups_keyed xs groups → groups_keyed (xs ++ [x]) (see groups x).
Proof.
  intros Hold. unfold see. destruct (kept x) eqn:Hk.
  2:{ intros k ids Hids. destruct (Hold k ids Hids) as [Hne Hall]. split; [done|].
      intros i g Hg. destruct (Hall i g Hg) as (y & ? & ?). exists y. set_solver. }
  intros k ids. unfold add_evidence. destruct (decide (k = key_of (si_record x))) as [->|Hne].
  - rewrite lookup_insert_eq. intros [= <-]. split; [apply insert_non_empty|].
    intros i g [[<- _]|[Hi Hg]]%lookup_insert_Some; [exists x; set_solver|].
    destruct (groups !! key_of (si_record x)) as [ids|] eqn:E; simpl in Hg; [|done].
    destruct (Hold _ _ E) as [_ Hall]. destruct (Hall i g Hg) as (y & ? & ?). exists y. set_solver.
  - rewrite lookup_insert_ne by done. intros Hids.
    destruct (Hold k ids Hids) as [Hids' Hall]. split; [done|].
    intros i g Hg. destruct (Hall i g Hg) as (y & ? & ?). exists y. set_solver.
Qed.

Lemma collect_keyed snaps :
  groups_keyed (sightings snaps) (collect_groups key_of keep snaps).
Proof.
  rewrite collect_groups_sightings. induction (sightings snaps) as [|x xs IH] using rev_ind.
  - intros k ids. simpl. by rewrite lookup_empty.
  - rewrite foldl_snoc. by apply see_keyed.
Qed.

Lemma see_group_at xs groups x r :
  wf_record (si_record x) → wf_record r →
  group_at groups r = (if decide (ids_where kept xs r = ∅) then None else Some (group_of xs r)) →
  group_at (see groups x) r =
  (if decide (ids_where kept (xs ++ [x]) r = ∅) then None else Some (group_of (xs ++ [x]) r)).
Proof.
  intros Hx Hr Hold. unfold see, group_of in *. rewrite !ids_where_snoc.
  destruct (kept x) eqn:Hk; cbn [andb].
  2:{ rewrite !(decide_False (P := _ ∧ false = true)) by naive_solver. done. }
  destruct (decide (si_record x = r)) as [<-|Hne].
  - rewrite (decide_True (P := _ ∧ true = true)) by done.
    rewrite (decide_False (P := _ ∪ _ = ∅)) by set_solver.
    unfold group_at, add_evidence. rewrite lookup_insert_eq. cbn. rewrite lookup_insert_eq.
    unfold group_at in Hold. destruct (groups !! key_of (si_record x)) as [ids|] eqn:E; cbn in *.
    + rewrite Hold. fold (si_marked x). case_decide as Hemp; cbn.
      * rewrite Hemp, (ids_where_and_empty kept) by done. destruct (si_marked x); [by rewrite decide_True by done|].
        by rewrite decide_False by naive_solver.
      * destruct (si_marked x); [by rewrite decide_True by done|].
        by rewrite decide_False by naive_solver.
    + fold (si_marked x). rewrite lookup_empty; cbn.
      destruct (decide (ids_where kept xs (si_record x) = ∅)) as [Hemp|]; [|done].
      rewrite Hemp, (ids_where_and_empty kept) by done. destruct (si_marked x); [by rewrite decide_True by done|].
      by rewrite decide_False by naive_solver.
  - rewrite !(decide_False (P := si_record x = r ∧ _)) by naive_solver. rewrite <- Hold.
    unfold group_at, add_evidence. destruct (decide (key_of (si_record x) = key_of r)) as [Hkey|].
    + rewrite Hkey, lookup_insert_eq. cbn. rewrite lookup_insert_ne.
      2:{ intros Hid. apply Hne. by apply record_identity_inj. }
      destruct (groups !! key_of r) eqn:E; cbn; [done|]. apply lookup_empty.
    + by rewrite lookup_insert_ne.
Qed.

(** The group of a record is the set of the members that hold it and the set of
    those that marked it. *)
Lemma collect_group_at snaps r :
  (∀ x, x ∈ sightings snaps → wf_record (si_record x)) → wf_record r →
  group_at (collect_groups key_of keep snaps) r =
  (if decide (ids_where kept (sightings snaps) r = ∅) then None
   else Some (group_of (sightings snaps) r)).
Proof.
  rewrite collect_groups_sightings. intros Hall Hr.
  induction (sightings snaps) as [|x xs IH] using rev_ind.
  - cbn. by rewrite decide_True.
  - rewrite foldl_snoc. apply see_group_at; [apply Hall; set_solver|done|].
    apply IH. intros; apply Hall; set_solver.
Qed.

(** Every group of a bucket is the group of a kept record with the bucket's key. *)
Lemma collect_groups_values snaps k ids g :
  (∀ x, x ∈ sightings snaps → wf_record (si_record x)) →
  collect_groups key_of keep snaps !! k = Some ids →
  g ∈ group_values ids ↔ ∃ x, x ∈ sightings snaps ∧ kept x = true ∧
    key_of (si_record x) = k ∧ g = group_of (sightings snaps) (si_record x).
Proof.
  intros Hall Hk. unfold group_values. rewrite list_elem_of_fmap.
  assert (∀ x, x ∈ sightings snaps → kept x = true → key_of (si_record x) = k →
    ids !! record_identity (si_record x) = Some (group_of (sightings snaps) (si_record x))) as Hat.
  { intros x Hx Hkept Hkey. pose proof (collect_group_at snaps _ Hall (Hall x Hx)) as E.
    unfold group_at in E. rewrite Hkey, Hk in E. cbn in E. rewrite E, decide_False; [done|].
    apply ids_where_non_empty. eauto. }
  split.
  - intros ([i g'] & -> & Hg). rewrite merge_sort_Permutation in Hg.
    apply elem_of_map_to_list in Hg. destruct (collect_keyed snaps k ids Hk) as [_ Hkeyed].
    destruct (Hkeyed i g' Hg) as (x & Hx & Hkept & -> & ->).
    exists x. split_and!; try done. specialize (Hat x Hx Hkept eq_refl). simpl. congruence.
  - intros (x & Hx & Hkept & Hkey & ->).
    exists (record_identity (si_record x), group_of (sightings snaps) (si_record x)).
    split; [done|]. rewrite merge_sort_Permutation. apply elem_of_map_to_list. by apply Hat.
Qed.

Lemma collect_groups_bucket snaps x :
  (∀ x, x ∈ sightings snaps → wf_record (si_record x)) →
  x ∈ sightings snaps → kept x = true →
  ∃ ids, collect_groups key_of keep snaps !! key_of (si_record x) = Some ids.
Proof.
  intros Hall Hx Hkept. pose proof (collect_group_at snaps _ Hall (Hall x Hx)) as E.
  unfold group_at in E. destruct (_ !! key_of _) as [ids|]; [by exists ids|]. cbn in E.
  case_decide as Hemp; [|done]. exfalso. revert Hemp. apply ids_where_non_empty. eauto.
Qed.

(** The groups of a bucket are those of distinct records. *)
Lemma group_values_NoDup snaps k ids :
  (∀ x, x ∈ sightings snaps → wf_record (si_record x)) →
  collect_groups key_of keep snaps !! k = Some ids →
  NoDup (eg_record <$> group_values ids).
Proof.
  intros Hall Hk. unfold group_values. rewrite <- list_fmap_compose.
  assert (∀ i g, (i, g) ∈ merge_sort bytes_le (map_to_list ids) → i = record_identity (eg_record g)) as Hid.
  { intros i g Hg. rewrite merge_sort_Permutation in Hg. apply elem_of_map_to_list in Hg.
    destruct (collect_keyed snaps k ids Hk) as [_ Hkeyed].
    destruct (Hkeyed i g Hg) as (x & Hx & Hkept & -> & ->).
    pose proof (collect_group_at snaps _ Hall (Hall x Hx)) as E.
    unfold group_at in E. rewrite Hk in E. cbn in E. rewrite Hg in E.
    case_decide; by simplify_eq. }
  assert (NoDup (merge_sort bytes_le (map_to_list ids)).*1) as Hnd.
  { rewrite merge_sort_Permutation. apply NoDup_fst_map_to_list. }
  revert Hid Hnd. generalize (merge_sort bytes_le (map_to_list ids)) as l.
  induction l as [|[i g] l IH]; intros Hid Hnd; cbn; [constructor|].
  apply NoDup_cons in Hnd as [Hi Hnd]. constructor; [|apply IH; set_solver].
  intros ([j g'] & Heq & Hj)%list_elem_of_fmap. apply Hi. cbn in Heq.
  apply list_elem_of_fmap. exists (j, g'). split; [|done]. cbn.
  rewrite (Hid i g), (Hid j g'), Heq by set_solver. done.
Qed.

End Groups.

(** ** Candidates *)

(** Of a list without repetition, a filter keeps one element. *)
Lemma filter_singleton {A} (P : A → Prop) `{∀ x, Decision (P x)} l y :
  NoDup l → filter P l = [y] ↔ y ∈ l ∧ P y ∧ ∀ z, z ∈ l → P z → z = y.
Proof.
  intros Hnd. split.
  - intros Hf. assert (∀ z, z ∈ l ∧ P z ↔ z = y) as Hiff.
    { intros z. rewrite (comm and), <- list_elem_of_filter, Hf. apply list_elem_of_singleton. }
    destruct (proj2 (Hiff y) eq_refl). split_and!; [done|done|]. intros z ? ?. by apply Hiff.
  - intros (Hy & HP & Hall). symmetry. apply Permutation_singleton_l.
    apply NoDup_Permutation; [apply NoDup_singleton|by apply NoDup_filter|].
    intros z. rewrite list_elem_of_singleton, list_elem_of_filter. naive_solver.
Qed.

Section Candidates.
Context `{ManifestHost} `{LogJsonLaws}.
Context (control : option DurableControlState) (quorum : N) (stream : string).

(** What the candidate pass keeps: records of the stream, on their owners, whose
    watermark is below their LSN. *)
Definition keeps (node : ReplicaNode) (r : EncryptedRecord) : bool :=
  on_stream stream r && node_owns_record control node r
  && negb (er_lsn r <=? er_committed_lsn r).

(** The answering owners that hold [r], and those that hold it with its marker. *)
Definition holders (snaps : snapshots) (r : EncryptedRecord) : gset string :=
  ids_where (kept keeps) (sightings snaps) r.

Definition markers (snaps : snapshots) (r : EncryptedRecord) : gset string :=
  ids_where (λ x, kept keeps x && si_marked x) (sightings snaps) r.

Definition eligible_record (snaps : snapshots) (r : EncryptedRecord) : bool :=
  eligible quorum (answering_owners control snaps r)
    (mkGroup r (holders snaps r) (markers snaps r)).

(** Every record of the snapshots is a Rust value. *)
Definition snaps_wf (snaps : snapshots) : Prop :=
  ∀ x, x ∈ sightings snaps → wf_record (si_record x).

Lemma owns_same_key node r r' :
  record_key r = record_key r' → node_owns_record control node r = node_owns_record control node r'.
Proof. unfold record_key, node_owns_record. by intros [= -> ->]. Qed.

Lemma answering_same_key snaps r r' :
  record_key r = record_key r' → answering_owners control snaps r = answering_owners control snaps r'.
Proof.
  intros Hkey. unfold answering_owners. f_equal. apply list_filter_iff.
  intros ns. by rewrite (owns_same_key _ _ _ Hkey).
Qed.

Lemma candidate_of_bucket snaps k ids r :
  snaps_wf snaps → collect_groups record_key keeps snaps !! k = Some ids →
  candidate_of control quorum snaps ids = Some r ↔
  record_key r = k ∧ holders snaps r ≠ ∅ ∧ eligible_record snaps r = true ∧
  ∀ r', record_key r' = k → holders snaps r' ≠ ∅ → eligible_record snaps r' = true → r' = r.
Proof.
  intros Hwf Hk.
  assert (∀ g, g ∈ group_values ids ↔ record_key (eg_record g) = k ∧
    holders snaps (eg_record g) ≠ ∅ ∧ g = group_of keeps (sightings snaps) (eg_record g)) as Hv.
  { intros g. rewrite (collect_groups_values record_key keeps snaps k ids g Hwf Hk).
    unfold holders. rewrite ids_where_non_empty. split.
    - intros (x & Hx & Hkx & Hkey & ->). cbn. eauto 10.
    - intros (Hkey & (x & Hx & Hr & Hkx) & Hg). exists x. rewrite Hr. auto. }
  pose proof (NoDup_fmap_1 _ _ (group_values_NoDup record_key keeps snaps k ids Hwf Hk)) as Hnd.
  unfold candidate_of. destruct (group_values ids) as [|g0 gs] eqn:Hgs.
  { cbn. split; [done|]. intros (Hkey & Hh & _).
    exfalso. by apply (not_elem_of_nil (group_of keeps (sightings snaps) r)), Hv. }
  set (a := answering_owners control snaps (eg_record g0)).
  assert (∀ r', record_key r' = k → answering_owners control snaps r' = a) as Ha.
  { intros r' Hr'. apply answering_same_key. rewrite Hr'. symmetry. apply Hv. by left. }
  rewrite <- Hgs in *. clear Hgs.
  assert (∀ g, g ∈ group_values ids → eligible quorum a g = eligible_record snaps (eg_record g)) as He.
  { intros g (Hkey & _ & Hg)%Hv. unfold eligible_record. rewrite (Ha _ Hkey).
    rewrite Hg at 1. done. }
  split.
  - intros Hc. assert (∃ g, filter (λ g, eligible quorum a g = true) (group_values ids) = [g]
      ∧ eg_record g = r) as (g & Hf & <-).
    { destruct (filter _ _) as [|g [|? ?]]; simplify_eq. by exists g. }
    apply filter_singleton in Hf as (Hg & Hel & Hall); [|done].
    pose proof Hg as (? & ? & _)%Hv. split_and!; [done|done|by rewrite <- He|].
    intros r' Hr' Hh' He'. specialize (Hall (group_of keeps (sightings snaps) r')).
    rewrite <- Hall; [done|by apply Hv|]. rewrite He; [done|by apply Hv].
  - intros (Hkey & Hh & Hel & Hall).
    rewrite (proj2 (filter_singleton _ _ (group_of keeps (sightings snaps) r) Hnd)); [done|].
    assert (group_of keeps (sightings snaps) r ∈ group_values ids) as Hin by by apply Hv.
    split_and!; [done|by rewrite He|]. intros g Hg Heg. pose proof Hg as (? & ? & ->)%Hv.
    f_equal. apply Hall; [done|done|by rewrite <- He].
Qed.

(** A record is the candidate of its key exactly when it is the only eligible one. *)
Lemma candidate_iff snaps k r :
  snaps_wf snaps →
  (collect_candidates_from_snapshots control quorum stream snaps).1 !! k = Some r ↔
  record_key r = k ∧ holders snaps r ≠ ∅ ∧ eligible_record snaps r = true ∧
  ∀ r', record_key r' = k → holders snaps r' ≠ ∅ → eligible_record snaps r' = true → r' = r.
Proof.
  intros Hwf. cbn [collect_candidates_from_snapshots fst]. rewrite lookup_omap. fold keeps.
  destruct (collect_groups record_key keeps snaps !! k) as [ids|] eqn:E; cbn.
  - by apply candidate_of_bucket.
  - split; [done|]. intros (Hkey & (x & Hx & Hr & Hk)%ids_where_non_empty & _).
    destruct (collect_groups_bucket record_key keeps snaps x Hwf Hx Hk) as [ids Hids].
    rewrite Hr, Hkey in Hids. congruence.
Qed.

(** ** Acknowledged records *)

(** The ids of the owners of [r] among the members, and of those that answered. *)
Definition owner_ids (snaps : snapshots) (r : EncryptedRecord) : gset string :=
  list_to_set ((λ ns, rn_id ns.1) <$> filter (λ ns : ReplicaNode * option NodeSnapshot,
    node_owns_record control ns.1 r = true) snaps).

Definition answering_ids (snaps : snapshots) (r : EncryptedRecord) : gset string :=
  list_to_set ((λ ns, rn_id ns.1) <$> filter (λ ns : ReplicaNode * option NodeSnapshot,
    is_Some ns.2 ∧ node_owns_record control ns.1 r = true) snaps).

(** The snapshots of distinct members, each with one record per key. *)
Record members_ok (snaps : snapshots) : Prop := {
  mo_wf : snaps_wf snaps;
  mo_ids : NoDup ((λ ns, rn_id ns.1) <$> snaps);
  mo_keys node s r r' : (node, Some s) ∈ snaps → r ∈ sn_records s → r' ∈ sn_records s →
    record_key r = record_key r' → r = r';
}.

(** The owners [acks] stored [r] and its commit marker: those that answer show
    both.  An owner that is silent may be one of them. *)
Definition acked_by (snaps : snapshots) (r : EncryptedRecord) (acks : gset string) : Prop :=
  acks ⊆ owner_ids snaps r ∧
  ∀ node s, (node, Some s) ∈ snaps → rn_id node ∈ acks → r ∈ sn_records s ∧ r ∈ sn_committed s.

Lemma elem_of_owner_ids snaps r id :
  id ∈ owner_ids snaps r ↔
  ∃ node o, (node, o) ∈ snaps ∧ node_owns_record control node r = true ∧ rn_id node = id.
Proof.
  unfold owner_ids. rewrite elem_of_list_to_set, list_elem_of_fmap. split.
  - intros ([node o] & -> & [? ?]%list_elem_of_filter). eauto.
  - intros (node & o & Hin & Hown & <-). exists (node, o). by rewrite list_elem_of_filter.
Qed.

Lemma elem_of_answering_ids snaps r id :
  id ∈ answering_ids snaps r ↔
  ∃ node s, (node, Some s) ∈ snaps ∧ node_owns_record control node r = true ∧ rn_id node = id.
Proof.
  unfold answering_ids. rewrite elem_of_list_to_set, list_elem_of_fmap. split.
  - intros ([node o] & -> & [[[s Hs] ?] ?]%list_elem_of_filter). simpl in *; subst. eauto.
  - intros (node & s & Hin & Hown & <-). exists (node, Some s).
    rewrite list_elem_of_filter. split_and!; [done| |done|done]. by exists s.
Qed.

Lemma size_answering_ids snaps r :
  members_ok snaps → N.of_nat (size (answering_ids snaps r)) = answering_owners control snaps r.
Proof.
  intros [_ Hids _]. unfold answering_ids, answering_owners, len.
  rewrite size_list_to_set; [by rewrite length_fmap|].
  eapply sublist_NoDup; [exact Hids|]. apply fmap_sublist, sublist_filter.
Qed.

Lemma holders_answer snaps r : holders snaps r ⊆ answering_ids snaps r.
Proof.
  intros id (x & [Hns _]%elem_of_sightings & <- & Hk & <-)%elem_of_ids_where.
  apply elem_of_answering_ids. unfold kept, keeps in Hk. bool_facts. eauto.
Qed.

Lemma acked_marked snaps r acks :
  acked_by snaps r acks → on_stream stream r = true → er_committed_lsn r < er_lsn r →
  acks ∩ answering_ids snaps r ⊆ markers snaps r.
Proof.
  intros [_ Hacks] Hs Hlsn id [Hid (node & s & Hns & Hown & <-)%elem_of_answering_ids]%elem_of_intersection.
  destruct (Hacks node s Hns Hid) as [Hr Hc]. apply elem_of_ids_where.
  exists (mkSight node s r). rewrite elem_of_sightings. cbn. split_and!; try done.
  unfold kept, keeps, si_marked. cbn. rewrite Hs, Hown, (proj2 (N.leb_gt _ _) Hlsn). cbn.
  apply existsb_exists. exists r. rewrite <- list_elem_of_In. by rewrite bool_decide_eq_true.
Qed.

(** Another record at the key is only on members that did not acknowledge. *)
Lemma acked_excludes snaps r r' acks :
  members_ok snaps → acked_by snaps r acks → record_key r' = record_key r → r' ≠ r →
  holders snaps r' ⊆ answering_ids snaps r ∖ acks.
Proof.
  intros [_ _ Hkeys] [_ Hacks] Hkey Hne id Hid.
  pose proof (holders_answer _ _ _ Hid) as Hans.
  apply elem_of_ids_where in Hid as (x & [Hns Hx]%elem_of_sightings & <- & Hk & <-).
  apply elem_of_difference. split.
  - apply elem_of_answering_ids. unfold kept, keeps in Hk. bool_facts.
    exists (si_node x), (si_snapshot x). by rewrite <- (owns_same_key _ _ _ Hkey).
  - intros Hack. destruct (Hacks _ _ Hns Hack) as [Hr _]. apply Hne. by eapply Hkeys.
Qed.

(** A quorum that acknowledged and a quorum that answers share an owner. *)
Lemma quorums_meet snaps r acks :
  acked_by snaps r acks → N.of_nat (size (owner_ids snaps r)) < 2 * quorum →
  quorum ≤ N.of_nat (size acks) → quorum ≤ N.of_nat (size (answering_ids snaps r)) →
  N.of_nat (size (answering_ids snaps r)) - N.of_nat (size (acks ∩ answering_ids snaps r)) < quorum
  ∧ acks ∩ answering_ids snaps r ≠ ∅.
Proof.
  intros [Hsub _] Hn Hq Ha. set (A := answering_ids snaps r) in *.
  assert (A ⊆ owner_ids snaps r) as HA.
  { intros id (node & s & ? & ? & ?)%elem_of_answering_ids. apply elem_of_owner_ids. eauto. }
  assert (size (acks ∪ A) ≤ size (owner_ids snaps r))%nat as Hle by (apply subseteq_size; set_solver).
  rewrite size_union_alt in Hle.
  pose proof (size_difference_alt A acks) as Hd. assert (A ∩ acks = acks ∩ A) as Hc by set_solver. rewrite Hc in Hd.
  assert (size (acks ∩ A) ≤ size A)%nat by (apply subseteq_size; set_solver).
  split; [lia|]. intros Hemp. rewrite Hemp, size_empty in *. lia.
Qed.

Lemma acked_eligible snaps r acks :
  members_ok snaps → acked_by snaps r acks → on_stream stream r = true →
  er_committed_lsn r < er_lsn r → N.of_nat (size (owner_ids snaps r)) < 2 * quorum →
  quorum ≤ N.of_nat (size acks) → quorum ≤ answering_owners control snaps r →
  holders snaps r ≠ ∅ ∧ eligible_record snaps r = true.
Proof.
  intros Hok Hacks Hs Hlsn Hn Hq Ha. rewrite <- (size_answering_ids _ _ Hok) in Ha.
  destruct (quorums_meet snaps r acks Hacks Hn Hq Ha) as [Hlt Hne].
  pose proof (acked_marked snaps r acks Hacks Hs Hlsn) as Hm.
  assert (markers snaps r ⊆ holders snaps r) as Hmh by apply ids_where_and.
  assert (size (acks ∩ answering_ids snaps r) ≤ size (holders snaps r))%nat
    by (apply subseteq_size; set_solver).
  split; [set_solver|]. unfold eligible_record, eligible. cbn.
  apply orb_true_iff. right. apply andb_true_iff. split.
  - apply negb_true_iff, bool_decide_eq_false. set_solver.
  - apply N.ltb_lt. unfold saturating_sub. rewrite <- (size_answering_ids _ _ Hok). lia.
Qed.

(** Nothing else is eligible when the acknowledging quorum answers, or when no
    other record of the key carries a marker. *)
Lemma acked_only_eligible snaps r r' acks :
  members_ok snaps → acked_by snaps r acks → N.of_nat (size (owner_ids snaps r)) < 2 * quorum →
  quorum ≤ N.of_nat (size acks) → record_key r' = record_key r → r' ≠ r →
  acks ⊆ answering_ids snaps r ∨ markers snaps r' = ∅ →
  eligible_record snaps r' = false.
Proof.
  intros Hok Hacks Hn Hq Hkey Hne Hor.
  pose proof (acked_excludes snaps r r' acks Hok Hacks Hkey Hne) as Hex.
  assert (markers snaps r' ⊆ holders snaps r') as Hmh by apply ids_where_and.
  assert (size (holders snaps r') ≤ size (answering_ids snaps r ∖ acks))%nat as Hh
    by by apply subseteq_size.
  assert (size (markers snaps r') ≤ size (holders snaps r'))%nat as Hm by by apply subseteq_size.
  assert (size (answering_ids snaps r ∖ acks) ≤ size (owner_ids snaps r ∖ acks))%nat.
  { apply subseteq_size. intros id [(node & s & ? & ? & ?)%elem_of_answering_ids ?]%elem_of_difference.
    apply elem_of_difference. split; [|done]. apply elem_of_owner_ids. eauto. }
  pose proof (size_difference _ _ (proj1 Hacks)).
  unfold eligible_record, eligible. cbn. apply orb_false_iff. split; [apply N.leb_gt; lia|].
  rewrite (answering_same_key _ _ _ Hkey), <- (size_answering_ids _ _ Hok).
  destruct Hor as [Hans| ->]; [|by rewrite bool_decide_eq_true_2].
  pose proof (size_difference _ _ Hans).
  assert (size acks ≤ size (answering_ids snaps r))%nat by by apply subseteq_size.
  apply andb_false_iff. right. apply N.ltb_ge. unfold saturating_sub. lia.
Qed.

Lemma acked_candidate snaps r acks :
  members_ok snaps → acked_by snaps r acks → on_stream stream r = true →
  er_committed_lsn r < er_lsn r → N.of_nat (size (owner_ids snaps r)) < 2 * quorum →
  quorum ≤ N.of_nat (size acks) → quorum ≤ answering_owners control snaps r →
  (acks ⊆ answering_ids snaps r ∨
   ∀ r', record_key r' = record_key r → r' ≠ r → markers snaps r' = ∅) →
  (collect_candidates_from_snapshots control quorum stream snaps).1 !! record_key r = Some r.
Proof.
  intros Hok Hacks Hs Hlsn Hn Hq Ha Hor. apply candidate_iff; [apply Hok|].
  destruct (acked_eligible snaps r acks) as [Hh Hel]; [done..|]. split_and!; [done|done|done|].
  intros r' Hkey _ Hel'. destruct (decide (r' = r)) as [|Hne]; [done|].
  rewrite (acked_only_eligible snaps r r' acks) in Hel'; [done..|].
  destruct Hor as [?|Hno]; [by left|right; by apply Hno].
Qed.

Lemma size_list_to_set_le (l : list string) : (size (list_to_set l : gset string) ≤ length l)%nat.
Proof.
  induction l as [|x l IH]; [done|]. cbn. rewrite size_union_alt, size_singleton.
  assert (size (list_to_set l ∖ {[x]} : gset string) ≤ size (list_to_set l : gset string))%nat
    by (apply subseteq_size; set_solver). lia.
Qed.

(** At most three members own a record in direct mode. *)
Lemma owners_bounded snaps r :
  is_Some control → N.of_nat (size (owner_ids snaps r)) ≤ REPLICATION_FACTOR.
Proof.
  intros [state Hstate].
  destruct (decide (owner_ids snaps r = ∅)) as [->|Hne]; [rewrite size_empty; lia|].
  assert (∀ node, node_owns_record control node r = true → ∃ segment,
    find_segment (ct_stream_segments state) (er_stream r) (er_lsn r) = Some segment
    ∧ len (sg_member_ids segment) = REPLICATION_FACTOR ∧ rn_id node ∈ sg_member_ids segment) as Hown.
  { intros node. unfold node_owns_record. rewrite Hstate.
    destruct (find_segment _ _ _) as [segment|] eqn:E; [|done].
    destruct (_ || _) eqn:Hc; [done|]. bool_facts.
    intros (id & Hin & Heq)%existsb_exists. bool_facts. subst.
    exists segment. by rewrite list_elem_of_In. }
  apply set_choose_L in Hne as (id & (node & o & _ & Hn & _)%elem_of_owner_ids).
  apply Hown in Hn as (segment & Hs & <- & _).
  assert (owner_ids snaps r ⊆ list_to_set (sg_member_ids segment)) as Hsub%subseteq_size.
  { intros id' (node' & o' & _ & (segment' & Hs' & _ & Hin)%Hown & <-)%elem_of_owner_ids.
    apply elem_of_list_to_set. congruence. }
  unfold len. pose proof (size_list_to_set_le (sg_member_ids segment)). lia.
Qed.

End Candidates.

(** ** The tail *)

(** Consecutive LSNs from [expected], each record naming its predecessor as
    committed, under epochs that do not decrease from [epoch]. *)
Fixpoint chain (expected epoch : N) (records : list EncryptedRecord) : Prop :=
  match records with
  | [] => True
  | r :: rest =>
    er_lsn r = expected ∧ er_committed_lsn r = expected - 1 ∧ epoch ≤ er_writer_epoch r
    ∧ chain (expected + 1) (er_writer_epoch r) rest
  end.

Abbreviation lsns_bounded := (Forall (λ r, er_lsn r ≤ u64_max)).

Lemma chain_ge e epoch l r : chain e epoch l → r ∈ l → e ≤ er_lsn r.
Proof.
  revert e epoch; induction l as [|x l IH]; intros e epoch; cbn; [by intros _ ?%elem_of_nil|].
  intros (Hx & _ & _ & Hl) [->|Hr]%elem_of_cons; [lia|]. specialize (IH _ _ Hl Hr). lia.
Qed.

Lemma chain_last e epoch l r : chain e epoch l → last l = Some r → er_lsn r + 1 = e + len l.
Proof.
  revert e epoch; induction l as [|x l IH]; intros e epoch; cbn; [done|].
  intros (Hx & _ & _ & Hl) Hlast. rewrite len_cons. destruct l as [|y l].
  - simplify_eq/=. unfold len; cbn. lia.
  - specialize (IH _ _ Hl Hlast). lia.
Qed.

Lemma chain_committed e epoch l r :
  chain e epoch l → 0 < e → r ∈ l → er_committed_lsn r < er_lsn r.
Proof.
  revert e epoch; induction l as [|x l IH]; intros e epoch; cbn; [by intros _ _ ?%elem_of_nil|].
  intros (Hx & Hc & _ & Hl) Hpos [->|Hr]%elem_of_cons; [lia|]. eapply IH; [exact Hl|lia|done].
Qed.

(** Past a record at the last LSN nothing follows. *)
Lemma sorted_next r rest :
  strict_sorted er_lsn (r :: rest) → lsns_bounded (r :: rest) →
  rest = [] ∨ saturating_add (er_lsn r) 1 = er_lsn r + 1.
Proof.
  intros [_ Hlt]%StronglySorted_inv Hb. destruct rest as [|y rest]; [by left|right].
  apply Forall_cons in Hlt as [Hy _]. apply Forall_cons in Hb as [_ [Hb _]%Forall_cons].
  unfold saturating_add. lia.
Qed.

Lemma ordinary_tail_chain e epoch l t :
  strict_sorted er_lsn l → lsns_bounded l → ordinary_tail e epoch l = Ok t →
  chain e epoch t ∧ t ⊆ l.
Proof.
  revert e epoch t; induction l as [|r rest IH]; intros e epoch t Hs Hb; cbn.
  { intros [= <-]. done. }
  pose proof Hs as [Hs' _]%StronglySorted_inv. pose proof Hb as [_ Hb']%Forall_cons.
  destruct (N.ltb_spec (er_lsn r) e).
  { intros Ht. destruct (IH _ _ _ Hs' Hb' Ht). set_solver. }
  destruct (N.eqb_spec (er_lsn r) e) as [<-|]; cbn; [|done].
  destruct (_ || _) eqn:Hc; [intros [= <-]; split; [done|set_solver]|]. bool_facts.
  intros (t' & Ht' & [= <-])%bind_Ok.
  destruct (sorted_next _ _ Hs Hb) as [->|Hnext].
  { cbn in Ht'. simplify_eq. unfold saturating_sub in *. cbn. split_and!; (done || set_solver). }
  rewrite Hnext in Ht'. destruct (IH _ _ _ Hs' Hb' Ht') as [Hch Hin].
  unfold saturating_sub in *. cbn. split_and!; (done || set_solver).
Qed.

(** Recovery keeps every chain of candidates that starts at its first LSN. *)
Lemma ordinary_tail_prefix e epoch l t p :
  strict_sorted er_lsn l → lsns_bounded l → ordinary_tail e epoch l = Ok t →
  chain e epoch p → p ⊆ l → p `prefix_of` t.
Proof.
  revert e epoch t p; induction l as [|r rest IH]; intros e epoch t p Hs Hb Ht Hp Hin.
  { assert (p = []) as -> by (destruct p; set_solver). apply prefix_nil. }
  pose proof Hs as [Hs' Hlt]%StronglySorted_inv. pose proof Hb as [_ Hb']%Forall_cons.
  destruct p as [|x p]; [apply prefix_nil|]. cbn in Ht.
  pose proof Hp as (Hx & Hcx & Hex & Hp').
  assert (x = r ∨ er_lsn r < er_lsn x) as Hxr.
  { specialize (Hin x ltac:(by left)). apply elem_of_cons in Hin as [|Hin]; [by left|].
    rewrite Forall_forall in Hlt. right. by apply Hlt. }
  destruct (N.ltb_spec (er_lsn r) e) as [Hlow|Hge].
  { eapply (IH e epoch); [done..|]. intros y Hy. pose proof (chain_ge _ _ _ _ Hp Hy).
    specialize (Hin y Hy). apply elem_of_cons in Hin as [->|]; [lia|done]. }
  destruct (N.eqb_spec (er_lsn r) e) as [He|]; cbn in Ht; [|done].
  destruct Hxr as [->|]; [|lia]. unfold saturating_sub in Ht.
  rewrite Hcx, N.eqb_refl in Ht. cbn in Ht. rewrite (proj2 (N.ltb_ge _ _) Hex) in Ht.
  apply bind_Ok in Ht as (t' & Ht' & [= <-]). apply prefix_cons.
  assert (p ⊆ rest) as Hin'.
  { intros y Hy. pose proof (chain_ge _ _ _ _ Hp' Hy).
    specialize (Hin y ltac:(by right)). apply elem_of_cons in Hin as [->|]; [lia|done]. }
  destruct (sorted_next _ _ Hs Hb) as [->|Hnext].
  { assert (p = []) as -> by (destruct p; set_solver). apply prefix_nil. }
  rewrite He in Hnext. rewrite Hnext in Ht'. by eapply IH.
Qed.

Lemma watermark_tail_chain w e epoch l :
  strict_sorted er_lsn l → lsns_bounded l →
  chain e epoch (watermark_tail w e epoch l) ∧ watermark_tail w e epoch l ⊆ l
  ∧ ∀ r, r ∈ watermark_tail w e epoch l → er_lsn r ≤ w.
Proof.
  revert e epoch; induction l as [|r rest IH]; intros e epoch Hs Hb; cbn; [set_solver|].
  pose proof Hs as [Hs' _]%StronglySorted_inv. pose proof Hb as [_ Hb']%Forall_cons.
  destruct (N.ltb_spec (er_lsn r) e).
  { destruct (IH e epoch Hs' Hb') as (? & ? & ?). set_solver. }
  destruct (_ || _) eqn:Hc; [split_and!; [done|set_solver|by intros ? ?%elem_of_nil]|].
  bool_facts. subst e. unfold saturating_sub in *.
  destruct (sorted_next _ _ Hs Hb) as [->|Hnext].
  { cbn. split_and!; try done. by intros y ->%list_elem_of_singleton. }
  rewrite Hnext. destruct (IH (er_lsn r + 1) (er_writer_epoch r) Hs' Hb') as (Hch & Hin & Hw).
  cbn. split_and!; [done|done|done|done|set_solver|]. intros y [->|Hy]%elem_of_cons; [done|by apply Hw].
Qed.

Lemma dedup_lsn_subset l r : r ∈ dedup_lsn l → r ∈ l.
Proof.
  revert r. induction l as [|x l IH]; intros r; cbn; [done|].
  destruct (dedup_lsn l) as [|y l'] eqn:E; [set_solver|].
  destruct (_ =? _); set_solver.
Qed.

Lemma dedup_lsn_strict l :
  StronglySorted (λ a b, er_lsn a ≤ er_lsn b) l → strict_sorted er_lsn (dedup_lsn l).
Proof.
  induction 1 as [|x l Hl IH Hx]; cbn; [constructor|].
  assert (∀ y, y ∈ dedup_lsn l → er_lsn x ≤ er_lsn y) as Hle.
  { intros y Hy%dedup_lsn_subset. rewrite Forall_forall in Hx. by apply Hx. }
  destruct (dedup_lsn l) as [|y l']; [repeat constructor|].
  pose proof IH as [Hl' Hy]%StronglySorted_inv.
  pose proof (Hle y ltac:(by left)).
  destruct (N.eqb_spec (er_lsn y) (er_lsn x)) as [Heq|].
  - constructor; [done|]. by rewrite <- Heq.
  - constructor; [done|]. constructor; [lia|].
    eapply Forall_impl; [exact Hy|]. cbn. intros; lia.
Qed.

Section Recovery.
Context `{ManifestHost} `{LogJsonLaws}.
Context (control : option DurableControlState) (quorum : N) (stream : string).

Abbreviation candidates := (λ snaps, (collect_candidates_from_snapshots control quorum stream snaps).1).

(** The records ordinary recovery walks. *)
Definition ordinary_records (floor : N) (snaps : snapshots) : list EncryptedRecord :=
  sort_by_key er_lsn (filter (λ r, floor < er_lsn r) (btree_values (candidates snaps))).

Lemma elem_of_candidates snaps r :
  snaps_wf snaps → r ∈ btree_values (candidates snaps) ↔
  candidates snaps !! record_key r = Some r.
Proof.
  intros Hwf. rewrite elem_of_btree_values. split; [|eauto].
  intros [k Hk]. pose proof Hk as (<- & _)%candidate_iff; done.
Qed.

Lemma elem_of_ordinary_records floor snaps r :
  snaps_wf snaps → r ∈ ordinary_records floor snaps ↔
  floor < er_lsn r ∧ candidates snaps !! record_key r = Some r.
Proof.
  intros Hwf. unfold ordinary_records.
  rewrite sort_by_key_Permutation, list_elem_of_filter, elem_of_candidates by done. done.
Qed.

Lemma candidate_sighted snaps r :
  snaps_wf snaps → candidates snaps !! record_key r = Some r →
  wf_record r ∧ on_stream stream r = true.
Proof.
  intros Hwf (_ & (x & Hx & <- & Hk)%ids_where_non_empty & _)%candidate_iff; [|done].
  unfold kept, keeps in Hk. bool_facts. split; [by apply Hwf|done].
Qed.

Lemma ordinary_records_sorted floor snaps :
  snaps_wf snaps → stream ≠ "*" →
  strict_sorted er_lsn (ordinary_records floor snaps) ∧ lsns_bounded (ordinary_records floor snaps).
Proof.
  intros Hwf Hstar. split.
  - apply sort_by_key_strict. apply (sublist_NoDup _ (er_lsn <$> btree_values (candidates snaps))).
    2:{ apply fmap_sublist, sublist_filter. }
    unfold btree_values. rewrite <- list_fmap_compose.
    assert (∀ k r, (k, r) ∈ btree_entries (candidates snaps) → k = (stream, er_lsn r)) as Hk.
    { intros k r Hr%elem_of_btree_entries. pose proof Hr as (<- & _)%candidate_iff; [|done].
      destruct (candidate_sighted snaps r Hwf Hr) as [_ Hs]. unfold record_key.
      unfold on_stream in Hs. bool_facts. destruct Hs; bool_facts; [done|]. by subst. }
    pose proof (NoDup_btree_keys (candidates snaps)) as Hnd. revert Hk Hnd.
    induction (btree_entries _) as [|[k r] l IH]; intros Hk Hnd; cbn; [constructor|].
    apply NoDup_cons in Hnd as [Hnin Hnd]. constructor; [|apply IH; set_solver].
    intros ([k' r'] & Heq & Hin)%list_elem_of_fmap. cbn in Heq. apply Hnin.
    apply list_elem_of_fmap. exists (k', r'). split; [|done]. cbn.
    rewrite (Hk k r), (Hk k' r'), Heq by set_solver. done.
  - apply Forall_forall. intros r (_ & Hr)%elem_of_ordinary_records; [|done].
    apply candidate_sighted in Hr as [Hr _]; [|done]. by apply Hr.
Qed.

Lemma recover_ordinary_Ok after snaps tail floor :
  recover_ordinary control quorum stream after snaps = Ok (tail, floor) →
  floor = trimmed_floor stream after None snaps
  ∧ reject_ambiguous_quorum_records control quorum stream floor snaps = Ok tt
  ∧ ordinary_tail (saturating_add floor 1) 0 (ordinary_records floor snaps) = Ok tail.
Proof.
  unfold recover_ordinary. intros Hr. next Hr. destruct x. next Hr. simplify_eq. done.
Qed.

Lemma ids_where_ext P Q xs r :
  (∀ x, si_record x = r → P x = Q x) → ids_where P xs r = ids_where Q xs r.
Proof.
  intros Hext. apply set_eq. intros id. rewrite !elem_of_ids_where.
  split; intros (x & ? & Hr & HP & ?); exists x; by rewrite (Hext x Hr) in *.
Qed.

(** A data quorum that the ambiguity check lets pass has its marker quorum. *)
Lemma reject_ambiguous_Ok snaps floor r :
  snaps_wf snaps → reject_ambiguous_quorum_records control quorum stream floor snaps = Ok tt →
  0 < quorum → floor < er_lsn r → quorum ≤ N.of_nat (size (holders control stream snaps r)) →
  quorum ≤ N.of_nat (size (markers control stream snaps r)).
Proof.
  intros Hwf Hok Hpos Hlsn Hq. unfold reject_ambiguous_quorum_records in Hok.
  set (keep := λ node r, negb ((er_lsn r <=? floor) || negb (on_stream stream r)
    || (er_lsn r <=? er_committed_lsn r) || negb (node_owns_record control node r))) in Hok.
  assert (∀ x, si_record x = r → kept keep x = kept (keeps control stream) x) as Hext.
  { intros x Hx. unfold kept, keep, keeps. rewrite Hx, (proj2 (N.leb_gt _ _) Hlsn). cbn.
    by destruct (on_stream stream r), (er_lsn r <=? _), (node_owns_record control _ r). }
  assert (holders control stream snaps r ≠ ∅) as Hne.
  { intros Hemp. rewrite Hemp, size_empty in Hq. lia. }
  apply ids_where_non_empty in Hne as (x & Hx & Hxr & Hk). rewrite <- Hext in Hk by done.
  destruct (collect_groups_bucket record_key keep snaps x Hwf Hx Hk) as [ids Hids].
  rewrite (try_fold_all (λ bucket, try_fold (λ _ g, check_evidence quorum bucket.1.2 g) tt
    (group_values bucket.2))) in Hok.
  specialize (Hok (_, ids) (proj2 (elem_of_btree_entries _ _ _) Hids)). cbn in Hok.
  rewrite (try_fold_all (check_evidence quorum _)) in Hok.
  specialize (Hok (group_of keep (sightings snaps) r)).
  rewrite (collect_groups_values record_key keep snaps _ ids _ Hwf Hids) in Hok.
  specialize (Hok ltac:(exists x; by subst r)). unfold check_evidence in Hok. cbn in Hok.
  rewrite (ids_where_ext _ (kept (keeps control stream)) _ r Hext) in Hok.
  rewrite (ids_where_ext (λ x, kept keep x && si_marked x)
    (λ x, kept (keeps control stream) x && si_marked x) _ r) in Hok.
  2:{ intros y Hy. by rewrite (Hext y Hy). }
  destruct (_ && _) eqn:Hc; [done|]. unfold holders in Hq. bool_facts.
  destruct Hc; bool_facts; unfold markers; lia.
Qed.

(** The answering owners that marked [r] acknowledged it. *)
Lemma markers_acked snaps r :
  members_ok snaps → acked_by control snaps r (markers control stream snaps r).
Proof.
  intros [_ Hids _]. split.
  - intros id (x & [Hx _]%elem_of_sightings & <- & Hk & <-)%elem_of_ids_where.
    apply elem_of_owner_ids. unfold kept, keeps in Hk. bool_facts. eauto.
  - intros node s Hns (x & [Hx Hr]%elem_of_sightings & <- & Hk & Hid)%elem_of_ids_where.
    assert (si_snapshot x = s) as <-.
    { apply list_elem_of_lookup in Hx as [i Hi], Hns as [j Hj].
      assert (i = j) as ->; [|congruence].
      eapply NoDup_lookup; [exact Hids| |].
      - rewrite list_lookup_fmap, Hi. cbn. by rewrite Hid.
      - by rewrite list_lookup_fmap, Hj. }
    apply andb_true_iff in Hk as [_ Hm]. split; [done|].
    unfold si_marked in Hm. apply existsb_exists in Hm as (c & Hc & Heq).
    bool_facts. subst c. by apply list_elem_of_In.
Qed.

End Recovery.

(** ** Consecutive LSNs *)

Fixpoint lsns_from (e : N) (records : list EncryptedRecord) : Prop :=
  match records with
  | [] => True
  | r :: rest => er_lsn r = e ∧ lsns_from (e + 1) rest
  end.

Lemma chain_lsns e epoch l : chain e epoch l → lsns_from e l.
Proof. revert e epoch; induction l; cbn; naive_solver. Qed.

Lemma lsns_from_app e l k : lsns_from e l → lsns_from (e + len l) k → lsns_from e (l ++ k).
Proof.
  revert e; induction l as [|x l IH]; intros e; cbn.
  - by rewrite len_nil, N.add_0_r.
  - rewrite len_cons, N.add_assoc. naive_solver.
Qed.

Lemma lsns_from_ge e l r : lsns_from e l → r ∈ l → e ≤ er_lsn r.
Proof.
  revert e; induction l as [|x l IH]; intros e; cbn; [by intros _ ?%elem_of_nil|].
  intros [Hx Hl] [->|Hr]%elem_of_cons; [lia|]. specialize (IH _ Hl Hr). lia.
Qed.

Lemma lsns_from_le e l w : lsns_from e l → lsns_from e (filter (λ r, er_lsn r ≤ w) l).
Proof.
  revert e; induction l as [|x l IH]; intros e; [done|]. intros [Hx Hl].
  rewrite filter_cons. case_decide as Hw; [by split; auto|].
  destruct (filter _ l) as [|y k] eqn:E; [done|]. exfalso.
  assert (y ∈ filter (λ r, er_lsn r ≤ w) l) as [Hy Hin]%list_elem_of_filter by (rewrite E; by left).
  pose proof (lsns_from_ge _ _ _ Hl Hin). lia.
Qed.

Lemma lsns_from_lt e l r : lsns_from e l → r ∈ l → er_lsn r < e + len l.
Proof.
  revert e; induction l as [|x l IH]; intros e; cbn; [by intros _ ?%elem_of_nil|].
  rewrite len_cons. intros [Hx Hl] [->|Hr]%elem_of_cons; [lia|]. specialize (IH _ Hl Hr). lia.
Qed.

Lemma filter_keeps_all {A} (P : A → Prop) `{∀ x, Decision (P x)} (l : list A) :
  (∀ x, x ∈ l → P x) → filter P l = l.
Proof.
  induction l as [|x l IH]; intros Hall; [done|].
  rewrite filter_cons, decide_True, IH; [done|set_solver..].
Qed.

Lemma lsns_from_gt e l w :
  lsns_from e l → e ≤ w + 1 → lsns_from (w + 1) (filter (λ r, w < er_lsn r) l).
Proof.
  revert e; induction l as [|x l IH]; intros e; [done|]. intros [Hx Hl] He.
  rewrite filter_cons. case_decide as Hw.
  - assert (e = w + 1) as -> by lia. split; [done|].
    rewrite filter_keeps_all; [done|]. intros y Hy.
    pose proof (lsns_from_ge _ _ _ Hl Hy). lia.
  - apply (IH (e + 1)); [done|lia].
Qed.

(** The LSN after the last record. *)
Lemma lsns_from_reached h l :
  lsns_from (h + 1) l →
  match last l with Some r => er_lsn r | None => h end = h + len l.
Proof.
  revert h; induction l as [|x l IH]; intros h; cbn [lsns_from]; [rewrite len_nil; cbn; lia|].
  intros [Hx Hl]. rewrite len_cons. destruct l as [|y l]; [cbn; unfold len; cbn; lia|].
  specialize (IH (h + 1) Hl). change (last (x :: y :: l)) with (last (y :: l)).
  destruct (last (y :: l)) eqn:E; [lia|]. by apply last_None in E.
Qed.

(** ** Properties of the gateway's recovery *)

Section Properties.
Context `{ManifestHost} `{RingHost} `{LogJsonLaws}.

Lemma try_fold_range_owners after groups segments owner_groups s :
  try_fold (range_owners after) groups segments = Ok owner_groups →
  (∀ g, g ∈ groups → g ∈ owner_groups) ∧
  (s ∈ segments → (∀ e, sg_end_lsn s = Some e → after < e) →
   list_to_set (sg_member_ids s) ∈ owner_groups).
Proof.
  revert groups; induction segments as [|x segments IH]; intros groups; cbn.
  { intros [= ->]. split; [done|by intros ?%elem_of_nil]. }
  intros (groups' & Hx & Hrest)%bind_Ok. destruct (IH _ Hrest) as [Hkeep Hs].
  unfold range_owners in Hx. destruct (negb _); [done|].
  split.
  - intros g Hg. apply Hkeep. case_match; simplify_eq; set_solver.
  - intros [->|Hin]%elem_of_cons Hend; [|by apply Hs]. apply Hkeep.
    destruct (sg_end_lsn x) as [e|]; [|simplify_eq; set_solver].
    specialize (Hend e eq_refl). destruct (N.leb_spec e after); [lia|]. simplify_eq. set_solver.
Qed.

(** The read quorum that [fetch_ordinary_recovery_snapshots] enforces holds for
    every owned record above the caller's watermark. *)
Lemma fetch_answering state quorum m stream after results snaps r :
  fetch_ordinary_recovery_snapshots (Some state) quorum (Some m) stream after results = Ok snaps →
  rm_stream_segments m = ct_stream_segments state → er_stream r = stream → after < er_lsn r →
  owner_ids (Some state) snaps r ≠ ∅ → quorum ≤ answering_owners (Some state) snaps r.
Proof.
  intros Hf Hm Hstream Hafter Howner. unfold fetch_ordinary_recovery_snapshots in Hf.
  next Hf. next Hf. destruct x0. simplify_eq.
  apply set_choose_L in Howner as (id & (node & o & _ & Hown & _)%elem_of_owner_ids).
  unfold node_owns_record in Hown.
  destruct (find_segment _ _ _) as [segment|] eqn:Hseg; [|done].
  destruct (_ || _) eqn:Hc in Hown; [done|]. clear Hown.
  pose proof Hseg as (ranges & i & Hr & Hi & Hcov)%find_segment_Some.
  apply covers_spec in Hcov as [_ Hend].
  assert (list_to_set (sg_member_ids segment) ∈ x) as Hin.
  { unfold owning_member_groups in Hx. cbn [ok_or] in Hx. rewrite bind_Ok in Hx.
    destruct Hx as (groups & Hg & Hx). cbn in Hg. rewrite Hm, Hr in Hg.
    case_match; simplify_eq.
    eapply (try_fold_range_owners _ _ _ _ segment Hg); [by eapply list_elem_of_lookup_2|].
    intros e He. specialize (Hend e He). lia. }
  rewrite (try_fold_all (λ owners, if available results owners <? quorum
    then Err (first_owner_error results owners) else Ok tt)) in Hx0.
  specialize (Hx0 _ Hin). destruct (N.ltb_spec (available results (list_to_set (sg_member_ids segment))) quorum) as [|Hge];
    [done|].
  etrans; [exact Hge|]. unfold available, answering_owners, len.
  apply N.eq_le_incl. f_equal. clear -Hseg Hc.
  induction results as [|[node res] results IH]; [done|]. cbn [fmap list_fmap].
  rewrite !filter_cons. cbn [fst snd].
  assert ((rn_id node ∈ (list_to_set (sg_member_ids segment) : gset string) ∧ is_ok res = true) ↔
    (is_Some (result_ok res) ∧ node_owns_record (Some state) node r = true)) as Hiff.
  { unfold node_owns_record. rewrite Hseg, Hc, elem_of_list_to_set.
    assert (rn_id node ∈ sg_member_ids segment ↔
      existsb (λ id, bool_decide (id = rn_id node)) (sg_member_ids segment) = true) as ->.
    { rewrite existsb_exists. setoid_rewrite <- list_elem_of_In.
      setoid_rewrite bool_decide_eq_true. naive_solver. }
    destruct res as [snapshot|e]; cbn.
    - split; intros [? ?]; (split; [|done]); [by exists snapshot|done].
    - split; [by intros [_ ?]|by intros [[? ?] _]]. }
  destruct (decide (rn_id node ∈ _ ∧ _)) as [Hl|Hl].
  - rewrite decide_True by by apply Hiff. cbn. f_equal. apply IH.
  - rewrite decide_False by by rewrite <- Hiff. apply IH.
Qed.

Lemma trimmed_floor_ge stream after w snaps : after ≤ trimmed_floor stream after w snaps.
Proof. unfold trimmed_floor. lia. Qed.

(** C32: an ordinary recovery loses no acknowledged record.  Take a chain [p] of
    records from the LSN after the floor, each stored and marked by a quorum of its
    owners (silent owners included).  If the fetch of the snapshots found its read
    quorum and the recovery succeeds, then it returns [p] first, provided that for
    each record its quorum answers or no other record at its LSN carries a
    marker. *)
Theorem acknowledged_tail_recovered state m stream after results snaps tail floor p
    (acks : EncryptedRecord → gset string) :
  stream ≠ "*" → members_ok snaps → rm_stream_segments m = ct_stream_segments state →
  fetch_ordinary_recovery_snapshots (Some state) ACK_QUORUM (Some m) stream after results = Ok snaps →
  recover_ordinary (Some state) ACK_QUORUM stream after snaps = Ok (tail, floor) →
  chain (floor + 1) 0 p →
  (∀ r, r ∈ p → er_stream r = stream ∧ acked_by (Some state) snaps r (acks r)
     ∧ ACK_QUORUM ≤ N.of_nat (size (acks r))
     ∧ (acks r ⊆ answering_ids (Some state) snaps r
        ∨ ∀ r', record_key r' = record_key r → r' ≠ r →
            markers (Some state) stream snaps r' = ∅)) →
  p `prefix_of` tail.
Proof.
  intros Hstar Hok Hm Hf Hr Hchain Hp.
  destruct (recover_ordinary_Ok _ _ _ _ _ _ _ Hr) as (Hfloor & _ & Htail).
  pose proof (trimmed_floor_ge stream after None snaps) as Hge. rewrite <- Hfloor in Hge.
  assert (∀ r, r ∈ p → r ∈ ordinary_records (Some state) ACK_QUORUM stream floor snaps) as Hin.
  { intros r Hrp. destruct (Hp r Hrp) as (Hs & Hacked & Hq & Hor).
    pose proof (chain_ge _ _ _ _ Hchain Hrp).
    apply elem_of_ordinary_records; [apply Hok|]. split; [lia|].
    assert (owner_ids (Some state) snaps r ≠ ∅) as Howner.
    { intros Hemp. destruct Hacked as [Hsub _]. apply subseteq_size in Hsub.
      rewrite Hemp, size_empty in Hsub. unfold ACK_QUORUM in Hq. lia. }
    eapply (acked_candidate _ _ _ _ _ (acks r)); try done.
    - unfold on_stream. rewrite Hs, (bool_decide_eq_true_2 (stream = stream)) by done.
      apply orb_true_r.
    - eapply chain_committed; [exact Hchain|lia|done].
    - pose proof (owners_bounded (Some state) snaps r ltac:(by eexists)).
      unfold REPLICATION_FACTOR, ACK_QUORUM in *. lia.
    - eapply fetch_answering; [exact Hf|done..|lia|done]. }
  destruct (ordinary_records_sorted (Some state) ACK_QUORUM stream floor snaps (mo_wf _ Hok) Hstar)
    as [Hsorted Hbound].
  eapply ordinary_tail_prefix; [exact Hsorted|exact Hbound|exact Htail| |exact Hin].
  destruct p as [|r p]; [done|].
  rewrite Forall_forall in Hbound. specialize (Hbound r (Hin r ltac:(by left))).
  pose proof Hchain as [Hlsn _]. unfold saturating_add. by rewrite N.min_l by lia.
Qed.

Lemma recover_ordinary_chain control quorum stream after snaps tail floor :
  stream ≠ "*" → members_ok snaps →
  recover_ordinary control quorum stream after snaps = Ok (tail, floor) →
  after ≤ floor ∧ chain (floor + 1) 0 tail
  ∧ tail ⊆ ordinary_records control quorum stream floor snaps.
Proof.
  intros Hstar Hok Hr.
  destruct (recover_ordinary_Ok _ _ _ _ _ _ _ Hr) as (Hfloor & _ & Htail).
  destruct (ordinary_records_sorted control quorum stream floor snaps (mo_wf _ Hok) Hstar)
    as [Hsorted Hbound].
  destruct (ordinary_tail_chain _ _ _ _ Hsorted Hbound Htail) as [Hchain Hin].
  split_and!; [rewrite Hfloor; apply trimmed_floor_ge| |done].
  destruct tail as [|r tail]; [done|]. specialize (Hin r ltac:(by left)).
  rewrite Forall_forall in Hbound. specialize (Hbound r Hin).
  apply elem_of_ordinary_records in Hin as [Hlsn _]; [|apply Hok].
  unfold saturating_add in Hchain. by rewrite N.min_l in Hchain by lia.
Qed.

(** what an ordinary recovery returns is a contiguous tail above the caller's
    watermark, under non-decreasing epochs, of records that an answering owner has
    marked committed; each has a marker quorum or is missing on fewer than a quorum
    of the owners that answered. *)
Theorem recovered_tail_sound control quorum stream after snaps tail floor :
  stream ≠ "*" → 0 < quorum → members_ok snaps →
  recover_ordinary control quorum stream after snaps = Ok (tail, floor) →
  after ≤ floor ∧ chain (floor + 1) 0 tail ∧ ∀ r, r ∈ tail →
    er_stream r = stream
    ∧ markers control stream snaps r ≠ ∅
    ∧ (quorum ≤ N.of_nat (size (markers control stream snaps r))
       ∨ answering_owners control snaps r - N.of_nat (size (holders control stream snaps r))
         < quorum).
Proof.
  intros Hstar Hpos Hok Hr.
  destruct (recover_ordinary_chain _ _ _ _ _ _ _ Hstar Hok Hr) as (Hge & Hchain & Hin).
  split_and!; [done|done|]. intros r Hrt.
  apply Hin, elem_of_ordinary_records in Hrt as [_ Hc]; [|apply Hok].
  pose proof (candidate_sighted _ _ _ _ _ (mo_wf _ Hok) Hc) as [_ Hs].
  apply candidate_iff in Hc as (_ & _ & Hel & _); [|apply Hok].
  unfold on_stream in Hs. unfold eligible_record, eligible, saturating_sub in Hel. cbn in Hel.
  bool_facts. destruct Hs as [|Hs]; bool_facts; [done|]. split; [done|].
  destruct Hel as [Hq|Hel]; bool_facts; [|by eauto].
  split; [|by left]. intros Hemp. rewrite Hemp, size_empty in Hq. lia.
Qed.

(** a record on a quorum of the owners that answered is never passed over in
    silence: the recovery refuses, or the record is the candidate of its LSN. *)
Theorem data_quorum_recovered_or_refused control quorum stream after snaps tail floor r :
  members_ok snaps → 0 < quorum → N.of_nat (size (owner_ids control snaps r)) < 2 * quorum →
  floor < er_lsn r → quorum ≤ N.of_nat (size (holders control stream snaps r)) →
  recover_ordinary control quorum stream after snaps = Ok (tail, floor) →
  (collect_candidates_from_snapshots control quorum stream snaps).1 !! record_key r = Some r.
Proof.
  intros Hok Hpos Hn Hlsn Hq Hr.
  assert (on_stream stream r = true ∧ er_committed_lsn r < er_lsn r) as [Hs Hc].
  { assert (holders control stream snaps r ≠ ∅) as (x & _ & <- & Hk)%ids_where_non_empty.
    { intros Hemp. rewrite Hemp, size_empty in Hq. lia. }
    unfold kept, keeps in Hk. by bool_facts. }
  destruct (recover_ordinary_Ok _ _ _ _ _ _ _ Hr) as (_ & Hamb & _).
  pose proof (reject_ambiguous_Ok _ _ _ _ _ _ (mo_wf _ Hok) Hamb Hpos Hlsn Hq) as Hmq.
  assert (markers control stream snaps r ⊆ answering_ids control snaps r) as Hsub.
  { etrans; [apply ids_where_and|apply holders_answer]. }
  eapply (acked_candidate _ _ _ _ _ (markers control stream snaps r)); try done.
  - by apply markers_acked.
  - rewrite <- size_answering_ids by done. apply subseteq_size in Hsub. lia.
  - by left.
Qed.

(** A certified record without a candidate was the only value its owners showed. *)
Lemma elem_of_watermark_candidates control stream after w snaps r :
  snaps_wf snaps → r ∈ watermark_candidates control stream after w snaps →
  wf_record r ∧ after < er_lsn r
  ∧ ∀ x, x ∈ sightings snaps → within_watermark stream w (si_record x) = true →
      node_owns_record control (si_node x) (si_record x) = true →
      er_lsn (si_record x) = er_lsn r → si_record x = r.
Proof.
  intros Hwf Hr. unfold watermark_candidates in Hr.
  set (keep := λ node r, within_watermark stream w r && negb (er_lsn r <=? after)
    && node_owns_record control node r) in Hr.
  apply list_elem_of_omap in Hr as (ids & [k Hk]%elem_of_nbtree_values & Hg).
  destruct (group_values ids) as [|g [|? ?]] eqn:Hv; [done| |done].
  case_match; simplify_eq.
  pose proof (collect_groups_values er_lsn keep snaps k ids g Hwf Hk) as Hiff.
  rewrite Hv in Hiff. destruct (proj1 Hiff ltac:(by left)) as (x & Hx & Hkx & <- & ->). cbn.
  pose proof Hkx as Hkx'. unfold kept, keep, within_watermark in Hkx'. bool_facts.
  split_and!; [by apply Hwf|done|].
  intros y Hy Hw Hown Heq.
  assert (group_of keep (sightings snaps) (si_record y) ∈ group_values ids) as Hin.
  { apply (collect_groups_values er_lsn keep snaps _ _ _ Hwf Hk). exists y.
    split_and!; try done. unfold kept, keep. rewrite Hw, Hown, Heq.
    by rewrite (proj2 (N.leb_gt _ after)). }
  rewrite Hv in Hin. by apply list_elem_of_singleton in Hin as [=].
Qed.

Lemma trimmed_floor_le stream after w snaps :
  after ≤ w → trimmed_floor stream after (Some w) snaps ≤ w.
Proof. unfold trimmed_floor. lia. Qed.

Lemma certified_records_sorted control quorum stream after floor w snaps snaps' :
  snaps_wf snaps → snaps_wf snaps' →
  let l := certified_records control quorum stream after floor w snaps snaps' in
  strict_sorted er_lsn l ∧ lsns_bounded l.
Proof.
  intros Hwf Hwf' l. split; [apply dedup_lsn_strict, sort_by_key_le|].
  apply Forall_forall. intros r Hr%dedup_lsn_subset. rewrite sort_by_key_Permutation in Hr.
  apply elem_of_app in Hr as [[_ [_ Hr]%list_elem_of_filter]%list_elem_of_filter|Hr].
  - apply elem_of_candidates in Hr; [|done]. apply candidate_sighted in Hr as [Hr _]; [|done].
    by apply Hr.
  - apply elem_of_watermark_candidates in Hr as [Hr _]; [|done]. by apply Hr.
Qed.

(** A chain bounded by the watermark that passes the exactness check reaches it. *)
Lemma exact_watermark_length floor w l :
  (floor < u64_max → chain (floor + 1) 0 l) → (∀ r, r ∈ l → floor < er_lsn r ≤ w) →
  lsns_bounded l → floor ≤ w → ensure_exact_watermark floor w l = Ok tt →
  chain (floor + 1) 0 l ∧ floor + len l = w.
Proof.
  intros Hchain Hw Hb Hle Hex. unfold ensure_exact_watermark in Hex.
  destruct (last l) as [r|] eqn:Hlast.
  - assert (r ∈ l) as Hr by by apply last_Some_elem_of.
    pose proof (Hw r Hr). rewrite Forall_forall in Hb. specialize (Hb r Hr).
    specialize (Hchain ltac:(lia)). pose proof (chain_last _ _ _ _ Hchain Hlast).
    split; [done|]. destruct (N.eqb_spec w floor) as [->|]; [lia|]. case_match; bool_facts; [lia|done].
  - apply last_None in Hlast as ->. split; [done|]. rewrite len_nil.
    destruct (N.eqb_spec w floor) as [->|]; [lia|done].
Qed.

Lemma recover_certified_Ok control quorum stream after w snaps snaps' certificate records floor :
  recover_certified control quorum stream after w snaps snaps' certificate = Ok (records, floor) →
  after ≤ w ∧ floor = trimmed_floor stream after (Some w) snaps'
  ∧ records = watermark_tail w (saturating_add floor 1) 0
                (certified_records control quorum stream after floor w snaps snaps')
  ∧ ensure_exact_watermark floor w records = Ok tt
  ∧ ((∀ r, r ∈ records →
        (collect_candidates_from_snapshots control quorum stream snaps).1 !! record_key r = Some r
        ∨ has_durable_marker r snaps' = true)
     ∨ ∃ verify r, certificate = Some verify ∧ last records = Some r ∧ verify r = Ok tt).
Proof.
  unfold recover_certified. destruct (N.ltb_spec w after) as [|Hle]; [done|]. intros Hr.
  next Hr. destruct x. next Hr. destruct x. injection Hr as <- <-.
  split_and!; [done|done|done|done|].
  destruct (last _) as [l|] eqn:Hlast in Hx0.
  - destruct (existsb _ _) eqn:Hex in Hx0.
    + next Hx0. apply ok_or_Ok in Hx1. right. eauto.
    + left. intros r Hr. apply not_true_iff_false in Hex.
      destruct (has_durable_marker r snaps') eqn:Hm; [by right|left].
      apply dec_stable. intros Hne. apply Hex, existsb_exists. exists r.
      rewrite <- list_elem_of_In, Hm, bool_decide_eq_false_2 by done. done.
  - left. apply last_None in Hlast. intros r Hr. rewrite Hlast in Hr. by apply elem_of_nil in Hr.
Qed.

Lemma recover_certified_chain control quorum stream after w snaps snaps' certificate records floor :
  snaps_wf snaps → snaps_wf snaps' →
  recover_certified control quorum stream after w snaps snaps' certificate = Ok (records, floor) →
  after ≤ floor ≤ w ∧ chain (floor + 1) 0 records ∧ floor + len records = w.
Proof.
  intros Hwf Hwf' (Hle & Hfloor & Hrec & Hex & _)%recover_certified_Ok.
  pose proof (trimmed_floor_ge stream after (Some w) snaps') as Hge. rewrite <- Hfloor in Hge.
  pose proof (trimmed_floor_le stream after w snaps' Hle) as Hfw. rewrite <- Hfloor in Hfw.
  destruct (certified_records_sorted control quorum stream after floor w snaps snaps' Hwf Hwf')
    as [Hsorted Hbound].
  destruct (watermark_tail_chain w (saturating_add floor 1) 0 _ Hsorted Hbound) as (Hch & Hin & Hw).
  rewrite <- Hrec in Hch, Hin, Hw.
  destruct (exact_watermark_length floor w records) as [Hchain Hlen]; try done.
  - intros Hlt. unfold saturating_add in Hch. by rewrite N.min_l in Hch by lia.
  - intros r Hr. split; [|by apply Hw]. apply Hin, dedup_lsn_subset in Hr.
    rewrite sort_by_key_Permutation in Hr.
    apply elem_of_app in Hr as [[? _]%list_elem_of_filter|Hr]; [done|].
    by apply elem_of_watermark_candidates in Hr as (_ & ? & _).
  - rewrite Forall_forall in *. intros r Hr. by apply Hbound, Hin.
Qed.

(** a certified recovery ends exactly at its watermark.  What it returns is a
    chain from the floor to the watermark; every record of it is a candidate of the
    first pass or carries a durable marker in the second, unless the certificate
    vouches for the last record. *)
Theorem certified_recovery_exact control quorum stream after w snaps snaps' certificate records floor :
  snaps_wf snaps → snaps_wf snaps' →
  recover_certified control quorum stream after w snaps snaps' certificate = Ok (records, floor) →
  after ≤ floor ≤ w ∧ chain (floor + 1) 0 records ∧ floor + len records = w
  ∧ ((∀ r, r ∈ records →
        (collect_candidates_from_snapshots control quorum stream snaps).1 !! record_key r = Some r
        ∨ has_durable_marker r snaps' = true)
     ∨ ∃ verify r, certificate = Some verify ∧ last records = Some r ∧ verify r = Ok tt).
Proof.
  intros Hwf Hwf' Hr.
  destruct (recover_certified_chain _ _ _ _ _ _ _ _ _ _ Hwf Hwf' Hr) as (Hge & Hchain & Hlen).
  apply recover_certified_Ok in Hr as (_ & _ & _ & _ & Hcert). done.
Qed.

(** The archive and the hot tail fit together. *)
Lemma recover_joins stream after w archived hot_tail late records :
  lsns_from (after + 1) archived → (∀ from, lsns_from (from + 1) (late from)) →
  (∀ h hot floor, hot_tail h = Ok (hot, floor) → h ≤ floor ∧ lsns_from (floor + 1) hot) →
  recover_with_watermark_certificate stream after w archived hot_tail late = Ok records →
  lsns_from (after + 1) records.
Proof.
  intros Harch Hlate Hhot Hr. unfold recover_with_watermark_certificate in Hr. cbv zeta in Hr.
  assert (∀ e l, lsns_from e l → lsns_from e (up_to w l)) as Hlim.
  { intros e l Hl. unfold up_to. destruct w; [by apply lsns_from_le|done]. }
  apply Hlim in Harch. pose proof (lsns_from_reached _ _ Harch) as Hreach.
  rewrite Hreach, N.max_l in Hr by lia. next Hr. next Hr. next Hr. destruct x0.
  injection Hr as <-. destruct (Hhot _ _ _ Hx) as [Hge Hcont].
  clear Hx1 Hreach. destruct (_ <? n) eqn:Hlate_read in Hx0; bool_facts.
  - pose proof (Hlim _ _ (Hlate (after + len (up_to w archived)))) as Hl.
    rewrite (lsns_from_reached _ _ Hl) in Hx0. destruct (_ <? n) eqn:Hshort in Hx0; bool_facts; [done|].
    injection Hx0 as <-.
    apply lsns_from_app; [done|]. rewrite <- N.add_assoc, (N.add_comm 1), N.add_assoc.
    apply lsns_from_app; [done|]. rewrite <- N.add_assoc, (N.add_comm 1), N.add_assoc.
    eapply lsns_from_gt; [exact Hcont|lia].
  - injection Hx0 as <-. apply lsns_from_app; [done|].
    assert (n = after + len (up_to w archived)) as -> by lia.
    by rewrite <- N.add_assoc, (N.add_comm 1), N.add_assoc.
Qed.

(** a recovery has no holes.  When the archive answers consecutive LSNs, what
    [recover_with_watermark_certificate] returns is consecutive from the LSN after
    the caller's watermark, over the archived records, those archived while it ran
    and the hot tail; with a watermark it ends exactly there. *)
Theorem recovery_has_no_holes control quorum stream after w archive snaps snaps' certificate
    late records :
  stream ≠ "*" → 0 < quorum → members_ok snaps → snaps_wf snaps' →
  (∀ from, lsns_from (from + 1) (archive from)) → (∀ from, lsns_from (from + 1) (late from)) →
  recover_with_watermark_certificate stream after w (archive after)
    (recover_hot_tail control quorum stream w snaps snaps' certificate) late = Ok records →
  lsns_from (after + 1) records ∧ ∀ limit, w = Some limit → after + len records = limit.
Proof.
  intros Hstar Hpos Hok Hwf' Harch Hlate Hr.
  assert (lsns_from (after + 1) records) as Hl.
  { eapply recover_joins; [apply Harch|exact Hlate| |exact Hr]. intros h hot floor.
    unfold recover_hot_tail. destruct w as [limit|].
    - intros ([? _] & Hc & _)%recover_certified_chain; [|apply Hok|done].
      split; [done|by eapply chain_lsns].
    - intros (? & Hc & _)%recover_ordinary_chain; [|done..]. split; [done|by eapply chain_lsns]. }
  split; [done|]. intros limit ->. unfold recover_with_watermark_certificate in Hr. cbv zeta in Hr.
  next Hr. next Hr. next Hr. destruct x0. injection Hr as ->.
  apply recover_certified_chain in Hx as ([Hge Hle] & Hch & Hlen); [|apply Hok|done].
  assert (∀ r, r ∈ records → er_lsn r ≤ limit) as Hbound.
  { assert (∀ r, r ∈ l → er_lsn r ≤ limit) as Hhot.
    { intros r Hr. apply chain_lsns in Hch. pose proof (lsns_from_lt _ _ _ Hch Hr). lia. }
    intros r. destruct (_ <? n) in Hx0; [destruct (_ <? n) in Hx0; [done|]|]; injection Hx0 as <-;
      unfold up_to; rewrite ?elem_of_app, ?list_elem_of_filter; naive_solver. }
  pose proof Hl as Hl'. apply lsns_from_reached in Hl. unfold ensure_exact_watermark in Hx1.
  destruct (N.eqb_spec limit after) as [->|Hne].
  - destruct records as [|r records]; [by rewrite len_nil, N.add_0_r|].
    destruct Hl' as [Hr _]. specialize (Hbound r ltac:(by left)). lia.
  - destruct (last records) as [r|]; [|done].
    destruct (N.eqb_spec (er_lsn r) limit); [lia|done].
Qed.

(** The [while] loop of a repair, from any point. *)
Lemma repair_prefix_chain groups w fuel expected epoch records skipped :
  w ≤ u64_max → expected ≤ w + 1 → w + 1 - expected ≤ N.of_nat fuel →
  (∀ k ids g, groups !! k = Some ids → g ∈ group_values ids → er_lsn (eg_record g) = k) →
  repair_prefix fuel groups w expected epoch = (records, skipped) →
  chain expected epoch records
  ∧ (skipped = 0 ∧ len records = w + 1 - expected ∨ skipped = 1 ∧ len records < w + 1 - expected).
Proof.
  intros Hw. revert expected epoch records skipped.
  induction fuel as [|fuel IH]; intros expected epoch records skipped He Hfuel Hk; cbn [repair_prefix].
  { intros [= <- <-]. split; [done|]. left. unfold len; cbn. lia. }
  destruct (N.leb_spec expected w) as [Hle|]; cbn [negb].
  2:{ intros [= <- <-]. split; [done|]. left. unfold len; cbn. lia. }
  assert (∀ records skipped, ([], 1) = (records, skipped) → chain expected epoch records ∧
    (skipped = 0 ∧ len records = w + 1 - expected ∨ skipped = 1 ∧ len records < w + 1 - expected)) as Hstop.
  { intros ? ? [= <- <-]. split; [done|]. right. unfold len; cbn. lia. }
  destruct (groups !! expected) as [ids|] eqn:Hids; [|apply Hstop].
  destruct (group_values ids) as [|g [|? ?]] eqn:Hv; [apply Hstop| |apply Hstop].
  assert (er_lsn (eg_record g) = expected) as Hlsn 
    by (apply (Hk expected ids g Hids); rewrite Hv; by left).
  case_bool_decide; [apply Hstop|].
  destruct (_ || _) eqn:Hc; [apply Hstop|]. bool_facts. unfold saturating_sub in *.
  destruct (N.eqb_spec expected w) as [->|].
  { intros [= <- <-]. cbn. unfold len; cbn. split; [done|]. left. lia. }
  destruct (repair_prefix fuel _ _ _ _) as [rest skipped'] eqn:Hrest. intros [= <- <-].
  unfold saturating_add in Hrest. rewrite N.min_l in Hrest by lia.
  apply IH in Hrest as [Hchain Hor]; [|lia..|done]. rewrite len_cons. cbn. split; [done|]. lia.
Qed.

(** a repair copies only a contiguous prefix: the records it selects are a chain
    from LSN 1, and it reports a skip exactly when the chain stops before the
    watermark. *)
Theorem repair_is_contiguous control stream w snaps records skipped :
  snaps_wf snaps → w ≤ u64_max →
  watermark_repair_candidates control stream w snaps = (records, skipped) →
  chain 1 0 records ∧ len records ≤ w ∧ (skipped = 0 ↔ len records = w).
Proof.
  intros Hwf Hw Hr. unfold watermark_repair_candidates in Hr.
  apply repair_prefix_chain in Hr as [Hchain Hor]; [|done|lia|lia|].
  - split; [done|]. lia.
  - intros k ids g Hids Hg. apply collect_groups_values with (2 := Hids) in Hg; [|done].
    by destruct Hg as (x & _ & _ & <- & ->).
Qed.

End Properties.
