(* ===== verification/EvidenceToy.v ===== *)
(** * EvidenceToy: three members in recovery

    Concrete snapshots on which the recovery theorems apply, and the one on which a
    conflicting marker hides an acknowledged record. *)

From S2P Require Import Prelude Text Wire Client Placement Manifest Cohorts NodeLog NodeReplay NodeOps NodeSafety NodeContract NodeToy Evidence EvidenceSafety.

#[local] Existing Instance Manifest.toy_host.
#[local] Existing Instance Cohorts.toy_ring.

(** One stream whose open range the members a, b and c own. *)
Definition v_segments : segment_map := {["t/s" := [w_segment 1 None]]}.

Definition v_state : DurableControlState :=
  mkControlState 1 1 1 "" "op" 1 0 "" 0 1 0 "" 0 None true
    (list_to_map ((λ id, (id, w_member id)) <$> w_ids)) ∅ ∅
    {[0 := mkCohort 0 w_ids CActive "" 0]} v_segments.

Definition v_manifest : ReplicaManifest :=
  mkManifest 1 1 (manifest_digest v_segments) 1 0 "hash" 0 v_segments "op" "" 0.

Definition v_node (id : string) : ReplicaNode := mkNode id ("http://" +:+ id).

(** The record an older writer left behind at LSN 1. *)
Definition v_orphan : EncryptedRecord :=
  mkEncryptedRecord "t/s" 0 1 0 (replicate 24 x01) [x2a] (replicate 32 x02).

Definition v_full : NodeSnapshot :=
  mkSnapshot [sample_record 1; sample_record 2] [sample_record 1; sample_record 2] [].

(** b does not answer and c was behind when it stored nothing. *)
Definition v_results : list (ReplicaNode * result ReplicaError NodeSnapshot) :=
  [(v_node "a", Ok v_full); (v_node "b", Err NodeUnavailable);
   (v_node "c", Ok (mkSnapshot [] [] []))].

Definition v_snaps : snapshots := (λ nr, (nr.1, result_ok nr.2)) <$> v_results.

Lemma v_orphan_wf : wf_record v_orphan.
Proof. unfold wf_record. split_and!; by vm_compute. Qed.

Lemma v_snaps_ok : members_ok v_snaps.
Proof.
  split.
  - intros x [Hns Hr]%elem_of_sightings. destruct x as [node s r]. cbn in *.
    unfold v_snaps in Hns. cbn in Hns. rewrite !elem_of_cons, elem_of_nil in Hns.
    destruct Hns as [?|[?|[?|[]]]]; simplify_eq/=; [|by apply elem_of_nil in Hr].
    rewrite !elem_of_cons, elem_of_nil in Hr.
    destruct Hr as [->|[->|[]]]; by apply w_record_wf.
  - change (NoDup ["a"; "b"; "c"]). apply (bool_decide_unpack _). by vm_compute.
  - intros node s r r' Hns. unfold v_snaps in Hns. cbn in Hns.
    rewrite !elem_of_cons, elem_of_nil in Hns.
    destruct Hns as [?|[?|[?|[]]]]; simplify_eq/=; [|by intros ?%elem_of_nil].
    rewrite !elem_of_cons, !elem_of_nil. naive_solver.
Qed.

Definition v_acks : gset string := {["a"; "b"]}.

(** a and b acknowledged. *)
Lemma v_acked snaps r :
  snaps.*1 = v_snaps.*1 → er_stream r = "t/s" → 1 ≤ er_lsn r →
  (∀ node s, (node, Some s) ∈ snaps → rn_id node ∈ v_acks →
     r ∈ sn_records s ∧ r ∈ sn_committed s) →
  acked_by (Some v_state) snaps r v_acks.
Proof.
  intros Hids Hs Hlsn Hall. split; [|done]. intros id Hid. apply elem_of_owner_ids.
  assert (∃ node o, (node, o) ∈ snaps ∧ node = v_node id ∧ (id = "a" ∨ id = "b")) as (node & o & Hin & -> & Hor).
  { assert (v_node id ∈ snaps.*1) as ([node o] & Heq & Hin)%list_elem_of_fmap.
    { rewrite Hids. unfold v_acks in Hid. assert (id = "a" ∨ id = "b") as [-> | ->] by set_solver;
        cbn; set_solver. }
    exists node, o. split_and!; [done|done|]. unfold v_acks in Hid. set_solver. }
  exists (v_node id), o. split_and!; [done| |done].
  unfold node_owns_record, find_segment. cbn. rewrite Hs.
  change (v_segments !! "t/s") with (Some [w_segment 1 None]). cbn.
  unfold covers. cbn. rewrite (proj2 (N.leb_le _ _) Hlsn). cbn.
  destruct Hor as [-> | ->]; by vm_compute.
Qed.

Lemma acknowledged_tail_recovered_witness :
  [sample_record 1; sample_record 2] `prefix_of` [sample_record 1; sample_record 2].
Proof.
  apply (acknowledged_tail_recovered v_state v_manifest "t/s" 0 v_results v_snaps
    [sample_record 1; sample_record 2] 0 [sample_record 1; sample_record 2] (λ _, v_acks));
    [done|apply v_snaps_ok|done|by vm_compute|by vm_compute|by vm_compute|].
  intros r Hr. assert (r ∈ sn_records v_full ∧ er_stream r = "t/s" ∧ 1 ≤ er_lsn r) as (Hin & Hs & Hl).
  { split; [done|]. rewrite !elem_of_cons, elem_of_nil in Hr. by destruct Hr as [->|[->|[]]]. }
  split_and!; [done| |by vm_compute|].
  - apply v_acked; [done|done|done|]. intros node s Hns Hid. cbn in Hns.
    rewrite !elem_of_cons, elem_of_nil in Hns.
    destruct Hns as [?|[?|[?|[]]]]; simplify_eq/=; [done|]. by vm_compute in Hid.
  - right. intros r' Hkey Hne. apply dec_stable. intros (x & [Hns Hx]%elem_of_sightings & <- & _)%ids_where_non_empty.
    cbn in Hns. rewrite !elem_of_cons, elem_of_nil in Hns.
    destruct Hns as [?|[?|[?|[]]]]; simplify_eq/=.
    + apply Hne. replace (si_snapshot x) with v_full in Hx by congruence.
      apply (mo_keys _ v_snaps_ok (v_node "a") v_full); [|exact Hx|exact Hin|by unfold record_key; congruence].
      by apply (list_elem_of_lookup_2 _ 0%nat).
    + replace (si_snapshot x) with (mkSnapshot [] [] []) in Hx by congruence. by apply elem_of_nil in Hx.
Defined.

Lemma recovered_tail_sound_witness :
  chain 1 0 [sample_record 1; sample_record 2].
Proof.
  apply (recovered_tail_sound (Some v_state) 2 "t/s" 0 v_snaps
    [sample_record 1; sample_record 2] 0); [done|done|apply v_snaps_ok|by vm_compute].
Defined.

(** a and c answer with the data and the markers of LSN 1. *)
Definition v_quorum : snapshots :=
  [(v_node "a", Some (mkSnapshot [sample_record 1] [sample_record 1] []));
   (v_node "b", None);
   (v_node "c", Some (mkSnapshot [sample_record 1] [sample_record 1] []))].

Lemma v_quorum_ok : members_ok v_quorum.
Proof.
  split.
  - intros x [Hns Hr]%elem_of_sightings. destruct x as [node s r]. cbn in *.
    unfold v_quorum in Hns. rewrite !elem_of_cons, elem_of_nil in Hns.
    destruct Hns as [?|[?|[?|[]]]]; simplify_eq/=;
      apply list_elem_of_singleton in Hr as ->; by apply w_record_wf.
  - change (NoDup ["a"; "b"; "c"]). apply (bool_decide_unpack _). by vm_compute.
  - intros node s r r' Hns. unfold v_quorum in Hns. rewrite !elem_of_cons, elem_of_nil in Hns.
    destruct Hns as [?|[?|[?|[]]]]; simplify_eq/=; rewrite !list_elem_of_singleton; congruence.
Qed.

Lemma data_quorum_recovered_or_refused_witness :
  (collect_candidates_from_snapshots (Some v_state) 2 "t/s" v_quorum).1 !! ("t/s", 1)
  = Some (sample_record 1).
Proof.
  apply (data_quorum_recovered_or_refused (Some v_state) 2 "t/s" 0 v_quorum
    [sample_record 1] 0 (sample_record 1)); [apply v_quorum_ok|by vm_compute..].
Defined.

Lemma certified_recovery_exact_witness :
  0 + len [sample_record 1; sample_record 2] = 2.
Proof.
  apply (certified_recovery_exact (Some v_state) 2 "t/s" 0 2 v_snaps v_snaps None
    [sample_record 1; sample_record 2] 0); [apply v_snaps_ok..|by vm_compute].
Defined.

(** LSN 1 is archived, LSN 2 still hot. *)
Definition v_archive (from : N) : list EncryptedRecord :=
  if from =? 0 then [sample_record 1] else [].

Lemma recovery_has_no_holes_witness :
  lsns_from 1 [sample_record 1; sample_record 2].
Proof.
  apply (recovery_has_no_holes (Some v_state) 2 "t/s" 0 (Some 2) v_archive v_snaps v_snaps None
    v_archive); [done|done|apply v_snaps_ok|apply v_snaps_ok| | |by vm_compute];
    intros from; unfold v_archive; by destruct (N.eqb_spec from 0) as [->|].
Defined.

Lemma repair_is_contiguous_witness :
  chain 1 0 [sample_record 1; sample_record 2] ∧ len [sample_record 1; sample_record 2] < 3.
Proof.
  destruct (repair_is_contiguous (Some v_state) "t/s" 3 v_snaps
    [sample_record 1; sample_record 2] 1) as (Hchain & Hle & Hiff);
    [apply v_snaps_ok|by vm_compute|by vm_compute|]. split; [done|by vm_compute].
Defined.

(** ** A marker that hides an acknowledged record

    a and b acknowledged [sample_record 1]; c still holds the marked orphan of an
    older writer. *)

Definition v_conflict (b : option NodeSnapshot) : snapshots :=
  [(v_node "a", Some (mkSnapshot [sample_record 1] [sample_record 1] []));
   (v_node "b", b);
   (v_node "c", Some (mkSnapshot [v_orphan] [v_orphan] []))].

(** a stale marker hides an acknowledged record.  a and b stored and marked the
    record of LSN 1, and c holds another record at LSN 1 with its marker.  When b
    is silent both are eligible, so neither is a candidate, and the recovery
    returns an empty tail and no error; when b answers it returns the record. *)
Theorem stale_marker_hides_acknowledged :
  acked_by (Some v_state) (v_conflict None) (sample_record 1) v_acks
  ∧ recover_ordinary (Some v_state) ACK_QUORUM "t/s" 0 (v_conflict None) = Ok ([], 0)
  ∧ recover_ordinary (Some v_state) ACK_QUORUM "t/s" 0
      (v_conflict (Some (mkSnapshot [sample_record 1] [sample_record 1] [])))
    = Ok ([sample_record 1], 0).
Proof.
  split_and!; [|by vm_compute..]. apply v_acked; [done|done|done|].
  intros node s Hns Hid. unfold v_conflict in Hns. rewrite !elem_of_cons, elem_of_nil in Hns.
  destruct Hns as [?|[?|[?|[]]]]; simplify_eq/=; [by rewrite list_elem_of_singleton|].
  by vm_compute in Hid.
Qed.
