(* ===== verification/ControlDoc.v ===== *)
(** * ControlDoc: the control document of a volume

    The pure part of [DurableControl] in [crates/walleye-bitr-server/src/lib.rs]: the
    document's validation, the manifest it stands for, the reconciliation of its
    cohorts, the transitions an online membership change may make, and the pruning of
    its idempotency records.  serde_json, SHA-256 and URL parsing are parameters. *)

From S2P Require Import Prelude Text Wire Client Placement Manifest Cohorts.

(** ** Data of the control head *)

Inductive PendingHandoffStage := Prepared | SourceFenced | ArchiveVerified | RoutePublished.

Record PendingHandoffDescriptor := mkHandoff {
  ph_operation_id : string;
  ph_stream : string;
  ph_source : StreamSegment;
  ph_target_cohort_id : N;
  ph_target_members : list DurableMember;
  ph_target_member_hash : string;
  ph_target_tier : string;
  ph_target_max_append_bytes : N;
  ph_target_writer_epoch : N;
  ph_transition_placement : PlacementEpoch;
  ph_successor_placement_epoch : N;
  ph_successor_placement : option PlacementEpoch;
  ph_stage : PendingHandoffStage;
  ph_archived_lsn : option N;
  ph_successor : option StreamSegment;
}.

Record ControlMetadata := mkMetadata {
  cm_membership_epoch : N;
  cm_members : gmap string DurableMember;
  cm_cohorts : gmap N DurableCohort;
  cm_manifest : ReplicaManifest;
  cm_pending_handoffs : gmap string PendingHandoffDescriptor;
}.

Record ControlOperationReceipt := mkReceipt {
  cr_authority_epoch : N;
  cr_revision : N;
  cr_metadata_digest : string;
}.

Record ControlHead := mkHead {
  ch_version : N;
  ch_authority_epoch : N;
  ch_revision : N;
  ch_operation_id : string;
  ch_completed_operations : gmap string ControlOperationReceipt;
  ch_source_marker : ControlSourceMarker;
  ch_metadata_digest : string;
  ch_metadata : ControlMetadata;
}.

(** The public view of a document. *)
Record MembershipSnapshot := mkMembership {
  ms_membership_epoch : N;
  ms_manifest_revision : N;
  ms_manifest_digest : string;
  ms_write_cohort_id : N;
  ms_control_authority_epoch : N;
  ms_control_head_revision : N;
  ms_control_head_digest : string;
  ms_control_authority_cohort_id : N;
  ms_metadata_freeze : option MetadataFreeze;
  ms_manifest : option ReplicaManifest;
  ms_members : list DurableMember;
  ms_cohorts : list DurableCohort;
  ms_stream_segments : segment_map;
}.

(** serde_json on the idempotency records; the last two read one field of a record,
    0 when it cannot be read. *)
Class ControlJson := {
  manifest_json : ReplicaManifest → string;
  manifest_of_json : string → result string ReplicaManifest;
  membership_json : MembershipSnapshot → string;
  membership_of_json : string → result string MembershipSnapshot;
  json_revision : string → N;
  json_membership_epoch : string → N;
}.

Class ControlJsonLaws `{ControlJson} := {
  manifest_json_back m : manifest_of_json (manifest_json m) = Ok m;
  membership_json_back s : membership_of_json (membership_json s) = Ok s;
  manifest_json_revision m : json_revision (manifest_json m) = rm_revision m;
}.

(** ** Field updates *)

Definition set_membership_epoch (epoch : N) (st : DurableControlState)
    : DurableControlState :=
  mkControlState (ct_version st) epoch (ct_manifest_revision st) (ct_manifest_digest st)
    (ct_manifest_operation_id st) (ct_manifest_writer_epoch st) (ct_manifest_cohort_id st)
    (ct_manifest_member_hash st) (ct_write_cohort_id st) (ct_control_authority_epoch st)
    (ct_control_head_revision st) (ct_control_head_digest st)
    (ct_control_authority_cohort_id st) (ct_metadata_freeze st) (ct_placement_initialized st)
    (ct_members st) (ct_operations st) (ct_manifest_operations st) (ct_cohorts st)
    (ct_stream_segments st).

Definition set_members (members : gmap string DurableMember) (st : DurableControlState)
    : DurableControlState :=
  mkControlState (ct_version st) (ct_membership_epoch st) (ct_manifest_revision st)
    (ct_manifest_digest st) (ct_manifest_operation_id st) (ct_manifest_writer_epoch st)
    (ct_manifest_cohort_id st) (ct_manifest_member_hash st) (ct_write_cohort_id st)
    (ct_control_authority_epoch st) (ct_control_head_revision st) (ct_control_head_digest st)
    (ct_control_authority_cohort_id st) (ct_metadata_freeze st) (ct_placement_initialized st)
    members (ct_operations st) (ct_manifest_operations st) (ct_cohorts st)
    (ct_stream_segments st).

Definition set_cohorts (cohorts : gmap N DurableCohort) (st : DurableControlState)
    : DurableControlState :=
  mkControlState (ct_version st) (ct_membership_epoch st) (ct_manifest_revision st)
    (ct_manifest_digest st) (ct_manifest_operation_id st) (ct_manifest_writer_epoch st)
    (ct_manifest_cohort_id st) (ct_manifest_member_hash st) (ct_write_cohort_id st)
    (ct_control_authority_epoch st) (ct_control_head_revision st) (ct_control_head_digest st)
    (ct_control_authority_cohort_id st) (ct_metadata_freeze st) (ct_placement_initialized st)
    (ct_members st) (ct_operations st) (ct_manifest_operations st) cohorts
    (ct_stream_segments st).

Definition set_segments (segments : segment_map) (st : DurableControlState)
    : DurableControlState :=
  mkControlState (ct_version st) (ct_membership_epoch st) (ct_manifest_revision st)
    (ct_manifest_digest st) (ct_manifest_operation_id st) (ct_manifest_writer_epoch st)
    (ct_manifest_cohort_id st) (ct_manifest_member_hash st) (ct_write_cohort_id st)
    (ct_control_authority_epoch st) (ct_control_head_revision st) (ct_control_head_digest st)
    (ct_control_authority_cohort_id st) (ct_metadata_freeze st) (ct_placement_initialized st)
    (ct_members st) (ct_operations st) (ct_manifest_operations st) (ct_cohorts st) segments.

Definition set_write_cohort (cohort_id : N) (st : DurableControlState)
    : DurableControlState :=
  mkControlState (ct_version st) (ct_membership_epoch st) (ct_manifest_revision st)
    (ct_manifest_digest st) (ct_manifest_operation_id st) (ct_manifest_writer_epoch st)
    (ct_manifest_cohort_id st) (ct_manifest_member_hash st) cohort_id
    (ct_control_authority_epoch st) (ct_control_head_revision st) (ct_control_head_digest st)
    (ct_control_authority_cohort_id st) (ct_metadata_freeze st) (ct_placement_initialized st)
    (ct_members st) (ct_operations st) (ct_manifest_operations st) (ct_cohorts st)
    (ct_stream_segments st).

Definition set_revision (revision : N) (digest : string) (st : DurableControlState)
    : DurableControlState :=
  mkControlState (ct_version st) (ct_membership_epoch st) revision digest
    (ct_manifest_operation_id st) (ct_manifest_writer_epoch st) (ct_manifest_cohort_id st)
    (ct_manifest_member_hash st) (ct_write_cohort_id st) (ct_control_authority_epoch st)
    (ct_control_head_revision st) (ct_control_head_digest st)
    (ct_control_authority_cohort_id st) (ct_metadata_freeze st) (ct_placement_initialized st)
    (ct_members st) (ct_operations st) (ct_manifest_operations st) (ct_cohorts st)
    (ct_stream_segments st).

Definition set_binding (operation_id : string) (writer_epoch : N) (cohort_id : N) (member_hash : string)
    (st : DurableControlState)
    : DurableControlState :=
  mkControlState (ct_version st) (ct_membership_epoch st) (ct_manifest_revision st)
    (ct_manifest_digest st) operation_id writer_epoch cohort_id member_hash
    (ct_write_cohort_id st) (ct_control_authority_epoch st) (ct_control_head_revision st)
    (ct_control_head_digest st) (ct_control_authority_cohort_id st) (ct_metadata_freeze st)
    (ct_placement_initialized st) (ct_members st) (ct_operations st) (ct_manifest_operations st)
    (ct_cohorts st) (ct_stream_segments st).

Definition set_manifest_operations (operations : gmap string string) (st : DurableControlState)
    : DurableControlState :=
  mkControlState (ct_version st) (ct_membership_epoch st) (ct_manifest_revision st)
    (ct_manifest_digest st) (ct_manifest_operation_id st) (ct_manifest_writer_epoch st)
    (ct_manifest_cohort_id st) (ct_manifest_member_hash st) (ct_write_cohort_id st)
    (ct_control_authority_epoch st) (ct_control_head_revision st) (ct_control_head_digest st)
    (ct_control_authority_cohort_id st) (ct_metadata_freeze st) (ct_placement_initialized st)
    (ct_members st) (ct_operations st) operations (ct_cohorts st) (ct_stream_segments st).

Definition set_operations (operations : gmap string string) (st : DurableControlState)
    : DurableControlState :=
  mkControlState (ct_version st) (ct_membership_epoch st) (ct_manifest_revision st)
    (ct_manifest_digest st) (ct_manifest_operation_id st) (ct_manifest_writer_epoch st)
    (ct_manifest_cohort_id st) (ct_manifest_member_hash st) (ct_write_cohort_id st)
    (ct_control_authority_epoch st) (ct_control_head_revision st) (ct_control_head_digest st)
    (ct_control_authority_cohort_id st) (ct_metadata_freeze st) (ct_placement_initialized st)
    (ct_members st) operations (ct_manifest_operations st) (ct_cohorts st)
    (ct_stream_segments st).

Definition set_head (epoch : N) (revision : N) (digest : string) (st : DurableControlState)
    : DurableControlState :=
  mkControlState (ct_version st) (ct_membership_epoch st) (ct_manifest_revision st)
    (ct_manifest_digest st) (ct_manifest_operation_id st) (ct_manifest_writer_epoch st)
    (ct_manifest_cohort_id st) (ct_manifest_member_hash st) (ct_write_cohort_id st) epoch
    revision digest (ct_control_authority_cohort_id st) (ct_metadata_freeze st)
    (ct_placement_initialized st) (ct_members st) (ct_operations st) (ct_manifest_operations st)
    (ct_cohorts st) (ct_stream_segments st).

Definition set_authority_cohort (cohort_id : N) (st : DurableControlState)
    : DurableControlState :=
  mkControlState (ct_version st) (ct_membership_epoch st) (ct_manifest_revision st)
    (ct_manifest_digest st) (ct_manifest_operation_id st) (ct_manifest_writer_epoch st)
    (ct_manifest_cohort_id st) (ct_manifest_member_hash st) (ct_write_cohort_id st)
    (ct_control_authority_epoch st) (ct_control_head_revision st) (ct_control_head_digest st)
    cohort_id (ct_metadata_freeze st) (ct_placement_initialized st) (ct_members st)
    (ct_operations st) (ct_manifest_operations st) (ct_cohorts st) (ct_stream_segments st).

Definition set_freeze (freeze : option MetadataFreeze) (st : DurableControlState)
    : DurableControlState :=
  mkControlState (ct_version st) (ct_membership_epoch st) (ct_manifest_revision st)
    (ct_manifest_digest st) (ct_manifest_operation_id st) (ct_manifest_writer_epoch st)
    (ct_manifest_cohort_id st) (ct_manifest_member_hash st) (ct_write_cohort_id st)
    (ct_control_authority_epoch st) (ct_control_head_revision st) (ct_control_head_digest st)
    (ct_control_authority_cohort_id st) freeze (ct_placement_initialized st) (ct_members st)
    (ct_operations st) (ct_manifest_operations st) (ct_cohorts st) (ct_stream_segments st).

Definition set_placement_initialized (initialized : bool) (st : DurableControlState)
    : DurableControlState :=
  mkControlState (ct_version st) (ct_membership_epoch st) (ct_manifest_revision st)
    (ct_manifest_digest st) (ct_manifest_operation_id st) (ct_manifest_writer_epoch st)
    (ct_manifest_cohort_id st) (ct_manifest_member_hash st) (ct_write_cohort_id st)
    (ct_control_authority_epoch st) (ct_control_head_revision st) (ct_control_head_digest st)
    (ct_control_authority_cohort_id st) (ct_metadata_freeze st) initialized (ct_members st)
    (ct_operations st) (ct_manifest_operations st) (ct_cohorts st) (ct_stream_segments st).

Definition set_member_cohort (cohort_id : N) (m : DurableMember) : DurableMember :=
  mkMember (dm_id m) (dm_url m) (dm_status m) cohort_id (dm_name m) (dm_machine_id m)
    (dm_volume_id m) (dm_ordinal m) (dm_tier m) (dm_max_append_bytes m).

(** ** Members *)

(** [trim_end_matches('/')]. *)
Definition trim_end_slashes (s : string) : string :=
  String.string_of_list_byte
    (rev ((fix go bs := match bs with
                        | b :: rest => if bool_decide (b = x2f) then go rest else bs
                        | [] => []
                        end) (rev (as_bytes s)))).

(** [DurableMember::node]. *)
Definition member_node (m : DurableMember) : ReplicaNode :=
  mkNode (dm_id m) (trim_end_slashes (dm_url m)).

Section ControlDoc.
Context `{ManifestHost}.

Definition validate_node (node : ReplicaNode) : result ReplicaError unit :=
  if blank (rn_id node) then Err (NodeStorage "replica node id must not be empty")
  else
    '(scheme, has_host) ← ok_or (url_parse (rn_url node)) (NodeStorage "replica node URL is invalid");
    if negb (bool_decide (scheme = "http") || bool_decide (scheme = "https")) || negb has_host
    then Err (NodeStorage "replica node URL must be http or https") else Ok tt.

Definition check_member (urls : gset string) (entry : string * DurableMember)
    : result ReplicaError (gset string) :=
  let '(id, member) := entry in
  if negb (bool_decide (id = dm_id member)) || blank (dm_id member) then
    Err (NodeStorage "direct membership id is invalid")
  else
    _ ← validate_node (member_node member);
    if bool_decide (dm_url member ∈ urls) then
      Err (NodeStorage "direct membership URLs must be unique")
    else Ok ({[dm_url member]} ∪ urls).

Definition validate_members_state (members : gmap string DurableMember)
    : result ReplicaError unit :=
  _ ← try_fold check_member ∅ (sbtree_entries members); Ok tt.

Definition member_has_status (st : DurableControlState) (status : MemberStatus) (id : string)
    : bool :=
  match ct_members st !! id with
  | Some member => bool_decide (dm_status member = status)
  | None => false
  end.

(** ** The document *)

(** The loop over the members of a cohort, with the assignments seen so far and
    the active members. *)
Definition check_cohort_member (st : DurableControlState) (cohort_id : N)
    (acc : gmap string N * N) (member_id : string) : result ReplicaError (gmap string N * N) :=
  let '(memberships, active) := acc in
  member ← ok_or (ct_members st !! member_id) (NodeStorage "cohort references an unknown member");
  if negb (dm_cohort_id member =? cohort_id) then
    Err (NodeStorage "member and cohort identities disagree")
  else
    Ok (<[member_id := default 0 (memberships !! member_id) + 1]> memberships,
        if bool_decide (dm_status member = MActive) then active + 1 else active).

Definition all_segments (segments : segment_map) : list StreamSegment :=
  concat (sbtree_values segments).

Definition open_range_of (segments : segment_map) (cohort_id : N) : bool :=
  existsb (λ s, (sg_cohort_id s =? cohort_id) && is_none (sg_end_lsn s)) (all_segments segments).

Definition check_cohort (st : DurableControlState) (memberships : gmap string N)
    (entry : N * DurableCohort) : result ReplicaError (gmap string N) :=
  let '(id, cohort) := entry in
  if negb (dc_id cohort =? id) || bool_decide (dc_members cohort = [])
     || (REPLICATION_FACTOR <? len (dc_members cohort)) || unordered_ids (dc_members cohort)
  then Err (NodeStorage "invalid direct replica cohort definition")
  else
    '(memberships, active) ← try_fold (check_cohort_member st id) (memberships, 0) (dc_members cohort);
    if bool_decide (dc_status cohort = CActive)
       && (negb (len (dc_members cohort) =? REPLICATION_FACTOR) || negb (active =? REPLICATION_FACTOR))
    then Err QuorumUnavailable
    else if bool_decide (dc_status cohort = CRetired) && open_range_of (ct_stream_segments st) id
    then Err (Protocol "cohort cannot drain or retire while an owned stream range is open")
    else Ok memberships.

(** The cohort has three members, all active. *)
Definition complete_active (st : DurableControlState) (cohort : DurableCohort) : bool :=
  bool_decide (dc_status cohort = CActive) && (len (dc_members cohort) =? REPLICATION_FACTOR)
  && forallb (member_has_status st MActive) (dc_members cohort).

Definition validate_write_cohort (st : DurableControlState) (write_cohort_id : N)
    : result ReplicaError unit :=
  if write_cohort_id =? 0 then Ok tt
  else
    cohort ← ok_or (ct_cohorts st !! write_cohort_id) LsnConflict;
    if negb (complete_active st cohort) then Err QuorumUnavailable else Ok tt.

Definition validate_control_state (st : DurableControlState) : result ReplicaError unit :=
  _ ← validate_members_state (ct_members st);
  memberships ← try_fold (check_cohort st) ∅ (nbtree_entries (ct_cohorts st));
  if existsb (λ member, negb (bool_decide (memberships !! dm_id member = Some 1)))
       (sbtree_values (ct_members st))
  then Err (NodeStorage "direct member is not assigned to exactly one cohort")
  else
    _ ← validate_manifest_segments st (ct_stream_segments st) (ct_manifest_revision st);
    if (ct_manifest_revision st =? 0) && negb (bool_decide (ct_manifest_digest st = ""))
    then Err (NodeStorage "manifest digest exists without a manifest revision")
    else if (0 <? ct_manifest_revision st)
            && negb (bool_decide (ct_manifest_digest st = manifest_digest (ct_stream_segments st)))
    then Err (NodeStorage "manifest digest does not match its segments")
    else validate_write_cohort st (ct_write_cohort_id st).

(** ** The manifest of a document *)

(** [max_by_key(|segment| (segment.manifest_revision, segment.start_lsn))]. *)
Definition latest_ge (x y : StreamSegment) : bool :=
  (sg_manifest_revision y <? sg_manifest_revision x)
  || ((sg_manifest_revision y =? sg_manifest_revision x) && (sg_start_lsn y <=? sg_start_lsn x)).

Definition latest_manifest_binding (segments : segment_map) : N * N * string :=
  match max_by latest_ge (all_segments segments) with
  | None => (0, 0, "")
  | Some s => (sg_writer_epoch s, sg_cohort_id s, sg_member_hash s)
  end.

Definition manifest_metadata_for_state (st : DurableControlState) (segments : segment_map)
    : N * N * string :=
  let '(segment_epoch, segment_cohort, segment_hash) := latest_manifest_binding segments in
  let writer_epoch := N.max (ct_manifest_writer_epoch st) segment_epoch in
  if negb (ct_write_cohort_id st =? 0) then
    (writer_epoch, ct_write_cohort_id st,
     default "" (cohort_member_hash st (ct_write_cohort_id st)))
  else if negb (bool_decide (segment_hash = "")) then (writer_epoch, segment_cohort, segment_hash)
  else
    let newest := max_by (λ x y, dc_id y <=? dc_id x)
      (filter (λ c, bool_decide (dc_status c = CActive)
                    && (len (dc_members c) =? REPLICATION_FACTOR) = true)
         (nbtree_values (ct_cohorts st))) in
    let cohort_id := match newest with Some c => dc_id c | None => ct_manifest_cohort_id st end in
    let member_hash := default "" (cohort_member_hash st cohort_id) in
    (writer_epoch, cohort_id,
     if bool_decide (member_hash = "") then ct_manifest_member_hash st else member_hash).

Definition manifest_policy_for_state (st : DurableControlState) (segments : segment_map)
    (cohort_id : N) : string * N :=
  let from_segment :=
    match max_by latest_ge (filter (λ s, sg_cohort_id s = cohort_id) (all_segments segments)) with
    | Some s =>
      if negb (bool_decide (sg_tier s = "")) || negb (sg_max_append_bytes s =? 0)
      then Some (sg_tier s, sg_max_append_bytes s) else None
    | None => None
    end in
  match from_segment with
  | Some policy => policy
  | None => match ct_cohorts st !! cohort_id with
            | Some cohort => (dc_tier cohort, dc_max_append_bytes cohort)
            | None => ("", 0)
            end
  end.

Definition manifest_from_state (st : DurableControlState) : ReplicaManifest :=
  let revision := ct_manifest_revision st in
  let digest := if revision =? 0 then ""
                else if bool_decide (ct_manifest_digest st = "")
                then manifest_digest (ct_stream_segments st) else ct_manifest_digest st in
  let cohort_id := if negb (ct_write_cohort_id st =? 0) then ct_write_cohort_id st
                   else ct_manifest_cohort_id st in
  let member_set_hash := if revision =? 0 then ""
                         else if bool_decide (ct_manifest_member_hash st = "")
                         then default "" (cohort_member_hash st cohort_id)
                         else ct_manifest_member_hash st in
  let policy := if revision =? 0 then ("", 0)
                else manifest_policy_for_state st (ct_stream_segments st) cohort_id in
  mkManifest MANIFEST_VERSION revision digest (ct_manifest_writer_epoch st) cohort_id
    member_set_hash (ct_write_cohort_id st) (ct_stream_segments st)
    (ct_manifest_operation_id st) policy.1 policy.2.

Definition validate_manifest_against_state (st : DurableControlState) (m : ReplicaManifest)
    : result ReplicaError unit :=
  _ ← validate_manifest m;
  if negb (rm_revision m =? ct_manifest_revision st)
     || ((0 <? rm_revision m)
         && negb (bool_decide (rm_digest m = manifest_digest (ct_stream_segments st))))
  then Err (Protocol "placement manifest revision or digest is inconsistent with control state")
  else if rm_revision m =? 0 then Ok tt
  else
    let '(writer_epoch, cohort_id, member_hash) :=
      manifest_metadata_for_state st (ct_stream_segments st) in
    if negb (rm_writer_epoch m =? writer_epoch) || negb (rm_cohort_id m =? cohort_id)
       || negb (bool_decide (rm_member_set_hash m = member_hash))
       || negb (rm_write_cohort_id m =? ct_write_cohort_id st)
    then Err (Protocol "placement manifest cohort binding is inconsistent with control state")
    else
      let '(tier, max_append_bytes) :=
        manifest_policy_for_state st (rm_stream_segments m) (rm_cohort_id m) in
      if negb (bool_decide (rm_tier m = tier)) || negb (rm_max_append_bytes m =? max_append_bytes)
      then Err (Protocol "placement manifest capacity policy is inconsistent with control state")
      else validate_manifest_segments st (rm_stream_segments m) (rm_revision m).

(** [MembershipSnapshot::from_state]. *)
Definition membership_from_state (st : DurableControlState) : MembershipSnapshot :=
  mkMembership (ct_membership_epoch st) (ct_manifest_revision st) (ct_manifest_digest st)
    (ct_write_cohort_id st) (ct_control_authority_epoch st) (ct_control_head_revision st)
    (ct_control_head_digest st) (ct_control_authority_cohort_id st) (ct_metadata_freeze st)
    (Some (manifest_from_state st)) (sbtree_values (ct_members st))
    (nbtree_values (ct_cohorts st)) (ct_stream_segments st).

(** ** Online membership transitions *)

(** The identity fields a live transition may not touch. *)
Definition same_member (member candidate : DurableMember) : bool :=
  bool_decide (dm_id candidate = dm_id member) && bool_decide (dm_url candidate = dm_url member)
  && (dm_cohort_id candidate =? dm_cohort_id member)
  && bool_decide (dm_name candidate = dm_name member)
  && bool_decide (dm_machine_id candidate = dm_machine_id member)
  && bool_decide (dm_volume_id candidate = dm_volume_id member)
  && (dm_ordinal candidate =? dm_ordinal member)
  && bool_decide (dm_tier candidate = dm_tier member)
  && (dm_max_append_bytes candidate =? dm_max_append_bytes member).

(** The status changes of an additive transition. *)
Definition member_joins (old new : MemberStatus) : bool :=
  match old, new with
  | MJoining, MJoining | MJoining, MActive => true
  | MActive, MActive | MDraining, MDraining | MRemoved, MRemoved => true
  | _, _ => false
  end.

(** A member that is not in the current document. *)
Definition check_new_member (current : DurableControlState) (entry : string * DurableMember)
    : result ReplicaError unit :=
  let '(id, member) := entry in
  match ct_members current !! id with
  | Some _ => Ok tt
  | None =>
    if (dm_cohort_id member =? 0)
       || negb (bool_decide (dm_status member = MJoining) || bool_decide (dm_status member = MActive))
    then Err LsnConflict else Ok tt
  end.

Definition online_member (next : DurableControlState) (entry : string * DurableMember)
    : result ReplicaError unit :=
  let '(id, member) := entry in
  candidate ← ok_or (ct_members next !! id) LsnConflict;
  if negb (same_member member candidate) then Err LsnConflict
  else if member_joins (dm_status member) (dm_status candidate) then Ok tt else Err LsnConflict.

Definition members_all_active (st : DurableControlState) (ids : list string) : bool :=
  forallb (member_has_status st MActive) ids.

Definition online_cohort (next : DurableControlState) (entry : N * DurableCohort)
    : result ReplicaError unit :=
  let '(id, cohort) := entry in
  candidate ← ok_or (ct_cohorts next !! id) LsnConflict;
  if negb (dc_id candidate =? dc_id cohort) || negb (bool_decide (dc_tier candidate = dc_tier cohort))
     || negb (dc_max_append_bytes candidate =? dc_max_append_bytes cohort)
     || (len (dc_members candidate) <? len (dc_members cohort))
     || existsb (λ m, negb (bool_decide (m ∈ dc_members candidate))) (dc_members cohort)
     || (REPLICATION_FACTOR <? len (dc_members candidate))
  then Err LsnConflict
  else match dc_status cohort, dc_status candidate with
  | CJoining, CJoining => Ok tt
  | CJoining, CActive =>
    if negb (len (dc_members cohort) =? REPLICATION_FACTOR)
       || negb (members_all_active next (dc_members candidate))
    then Err QuorumUnavailable else Ok tt
  | CActive, CActive | CDraining, CDraining | CRetired, CRetired => Ok tt
  | _, _ => Err LsnConflict
  end.

Definition online_new_cohort (current next : DurableControlState) (entry : N * DurableCohort)
    : result ReplicaError unit :=
  let '(id, cohort) := entry in
  match ct_cohorts current !! id with
  | Some _ => Ok tt
  | None =>
    if (id =? 0) || bool_decide (dc_members cohort = [])
       || (REPLICATION_FACTOR <? len (dc_members cohort))
       || negb (bool_decide (dc_status cohort = CJoining) || bool_decide (dc_status cohort = CActive))
    then Err LsnConflict
    else if bool_decide (dc_status cohort = CActive)
            && (negb (len (dc_members cohort) =? REPLICATION_FACTOR)
                || negb (members_all_active next (dc_members cohort)))
    then Err QuorumUnavailable else Ok tt
  end.

Definition online_ranges (next : DurableControlState) (entry : string * list StreamSegment)
    : result ReplicaError unit :=
  let '(stream, current_segments) := entry in
  next_segments ← ok_or (ct_stream_segments next !! stream) LsnConflict;
  if (length next_segments <? length current_segments)%nat
     || existsb (λ '(old, new), negb (bool_decide (old = new))) (zip current_segments next_segments)
  then Err LsnConflict else Ok tt.

Definition validate_online_membership_transition (current next : DurableControlState)
    : result ReplicaError unit :=
  _ ← try_fold (λ _ entry, online_member next entry) tt (sbtree_entries (ct_members current));
  _ ← try_fold (λ _ entry, check_new_member current entry) tt (sbtree_entries (ct_members next));
  _ ← try_fold (λ _ entry, online_cohort next entry) tt (nbtree_entries (ct_cohorts current));
  _ ← try_fold (λ _ entry, online_new_cohort current next entry) tt (nbtree_entries (ct_cohorts next));
  try_fold (λ _ entry, online_ranges next entry) tt (sbtree_entries (ct_stream_segments current)).

(** ** Replacing a whole cohort *)

Definition member_retires (old new : MemberStatus) : bool :=
  match old, new with
  | MActive, MRemoved | MDraining, MRemoved => true
  | _, _ => member_joins old new
  end.

(** The accumulator collects the cohorts of active members that become removed. *)
Definition replaced_member (next : DurableControlState) (retired : gset N)
    (entry : string * DurableMember) : result ReplicaError (gset N) :=
  let '(id, member) := entry in
  candidate ← ok_or (ct_members next !! id) LsnConflict;
  if negb (same_member member candidate) then Err LsnConflict
  else if negb (member_retires (dm_status member) (dm_status candidate)) then Err LsnConflict
  else if bool_decide (dm_status member = MActive) && bool_decide (dm_status candidate = MRemoved)
  then Ok ({[dm_cohort_id member]} ∪ retired) else Ok retired.

Definition cohort_retires (old new : CohortStatus) : bool :=
  match old, new with
  | CActive, CRetired | CActive, CDraining | CDraining, CRetired => true
  | CJoining, CJoining | CJoining, CActive => true
  | CActive, CActive | CDraining, CDraining | CRetired, CRetired => true
  | _, _ => false
  end.

Definition replaced_cohort (next : DurableControlState) (entry : N * DurableCohort)
    : result ReplicaError unit :=
  let '(id, cohort) := entry in
  candidate ← ok_or (ct_cohorts next !! id) LsnConflict;
  if negb (dc_id candidate =? dc_id cohort) || negb (bool_decide (dc_tier candidate = dc_tier cohort))
     || negb (dc_max_append_bytes candidate =? dc_max_append_bytes cohort)
     || negb (bool_decide (dc_members candidate = dc_members cohort))
  then Err LsnConflict
  else if cohort_retires (dc_status cohort) (dc_status candidate) then Ok tt else Err LsnConflict.

Definition replacement_cohort (current next : DurableControlState) (entry : N * DurableCohort)
    : result ReplicaError unit :=
  let '(id, cohort) := entry in
  match ct_cohorts current !! id with
  | Some _ => Ok tt
  | None =>
    if (id =? 0) || negb (len (dc_members cohort) =? REPLICATION_FACTOR)
       || negb (bool_decide (dc_status cohort = CActive))
       || negb (members_all_active next (dc_members cohort))
    then Err QuorumUnavailable else Ok tt
  end.

(** One old range under a replacement. *)
Definition replaced_range (retired : gset N) (next_segments : list StreamSegment)
    (entry : nat * StreamSegment) : result ReplicaError unit :=
  let '(index, old) := entry in
  new ← ok_or (next_segments !! index) LsnConflict;
  if negb (is_none (sg_end_lsn old)) then
    if bool_decide (old = new) then Ok tt else Err LsnConflict
  else if bool_decide (sg_cohort_id old ∈ retired) then
    if negb (sg_start_lsn old =? sg_start_lsn new) || negb (sg_cohort_id old =? sg_cohort_id new)
       || negb (bool_decide (sg_member_ids old = sg_member_ids new))
       || negb (bool_decide (sg_member_hash old = sg_member_hash new))
       || negb (sg_writer_epoch old =? sg_writer_epoch new) || is_none (sg_end_lsn new)
    then Err LsnConflict else Ok tt
  else if bool_decide (old = new) then Ok tt else Err LsnConflict.

Definition replaced_stream (retired : gset N) (next : DurableControlState)
    (entry : string * list StreamSegment) : result ReplicaError unit :=
  let '(stream, current_segments) := entry in
  next_segments ← ok_or (ct_stream_segments next !! stream) LsnConflict;
  if (length next_segments <? length current_segments)%nat then Err LsnConflict
  else
    _ ← try_fold (λ _ e, replaced_range retired next_segments e) tt (enumerate current_segments);
    match last current_segments with
    | Some l =>
      if is_none (sg_end_lsn l) && bool_decide (sg_cohort_id l ∈ retired)
         && (length next_segments =? length current_segments)%nat
      then Err LsnConflict else Ok tt
    | None => Ok tt
    end.

Definition validate_online_replacement_transition (current next : DurableControlState)
    : result ReplicaError unit :=
  retired ← try_fold (replaced_member next) ∅ (sbtree_entries (ct_members current));
  _ ← try_fold (λ _ entry, check_new_member current entry) tt (sbtree_entries (ct_members next));
  _ ← try_fold (λ _ entry, replaced_cohort next entry) tt (nbtree_entries (ct_cohorts current));
  _ ← try_fold (λ _ entry, replacement_cohort current next entry) tt (nbtree_entries (ct_cohorts next));
  _ ← try_fold (λ _ entry, replaced_stream retired next entry) tt
        (sbtree_entries (ct_stream_segments current));
  if existsb (open_range_of (ct_stream_segments next)) (elements retired)
  then Err LsnConflict else Ok tt.

(** ** Normalisation *)

Definition may_adopt_authoritative_bootstrap (st : DurableControlState) (repair : bool) : bool :=
  repair && (ct_membership_epoch st <=? 1) && (ct_manifest_revision st =? 0)
  && bool_decide (ct_stream_segments st = ∅) && bool_decide (ct_operations st = ∅)
  && bool_decide (ct_manifest_operations st = ∅).

(** The greatest key of a [BTreeMap] with integer keys. *)
Definition last_key {V} (m : gmap N V) : option N := fst <$> last (nbtree_entries m).

Definition normalize_members_for_cas (members : gmap string DurableMember)
    (current : DurableControlState) : gmap string DurableMember :=
  let members := map_imap (λ id member,
    Some (match ct_members current !! id with
          | Some previous => set_member_cohort (dm_cohort_id previous) member
          | None => member
          end)) members in
  let is_pending id member :=
    bool_decide (ct_members current !! id = None) && (dm_cohort_id member =? 0) in
  let pending := filter (λ e : string * DurableMember, is_pending e.1 e.2 = true)
                   (sbtree_entries members) in
  if bool_decide (pending = []) then members
  else
    let joining := max_by (λ a b, b <=? a)
      (dc_id <$> filter (λ c, bool_decide (dc_status c = CJoining)
                   && (saturating_add (len (dc_members c)) (len pending) <=? REPLICATION_FACTOR) = true)
         (nbtree_values (ct_cohorts current))) in
    let cohort_id := match joining with
                     | Some id => id
                     | None => match last_key (ct_cohorts current) with
                               | Some id => saturating_add id 1
                               | None => 0
                               end
                     end in
    map_imap (λ id member,
      Some (if is_pending id member then set_member_cohort cohort_id member else member)) members.

(** ** Reconciling the cohorts *)

(** The one-time grouping of a document without cohorts. *)
Definition group_legacy_members (st : DurableControlState) : DurableControlState :=
  if bool_decide (ct_cohorts st = ∅) && negb (bool_decide (ct_members st = ∅))
     && forallb (λ m, dm_cohort_id m =? 0) (sbtree_values (ct_members st))
  then set_members (list_to_map ((λ '(index, (id, member)),
         (id, set_member_cohort (N.of_nat index / REPLICATION_FACTOR) member))
         <$> enumerate (sbtree_entries (ct_members st)))) st
  else st.

Definition cohort_groups (st : DurableControlState) : gmap N (list string) :=
  merge_sort String.le <$>
  foldl (λ (groups : gmap N (list string)) member,
    <[dm_cohort_id member := default [] (groups !! dm_cohort_id member) ++ [dm_id member]]> groups)
    ∅ (sbtree_values (ct_members st)).

Definition count_status (st : DurableControlState) (status : MemberStatus) (ids : list string) : N :=
  len (filter (λ id, member_has_status st status id = true) ids).

Definition reconciled_status (st : DurableControlState) (old : option CohortStatus)
    (members : list string) : CohortStatus :=
  let removed_count := count_status st MRemoved members in
  let active_count := count_status st MActive members in
  let draining_count := count_status st MDraining members in
  match old with
  | Some CRetired => CRetired
  | Some CDraining =>
    if (removed_count =? len members) || (active_count =? 0)
    then if removed_count =? len members then CRetired else CDraining
    else CDraining
  | _ =>
    if removed_count =? len members then CRetired
    else if 0 <? draining_count then CDraining
    else if (len members =? REPLICATION_FACTOR) && (active_count =? REPLICATION_FACTOR)
            && members_all_active st members
    then CActive else CJoining
  end.

Definition first_tier (st : DurableControlState) (members : list string) : string :=
  default "" (head (filter (λ tier, tier ≠ "")
    (dm_tier <$> omap (λ id, ct_members st !! id) members))).

Definition first_limit (st : DurableControlState) (members : list string) : N :=
  default 0 (head (filter (λ limit, limit ≠ 0)
    (dm_max_append_bytes <$> omap (λ id, ct_members st !! id) members))).

Definition reconciled_cohort (st : DurableControlState) (previous : gmap N DurableCohort) (id : N)
    (members : list string) : DurableCohort :=
  let old := previous !! id in
  let tier := match old with
              | Some c => if bool_decide (dc_tier c = "") then first_tier st members else dc_tier c
              | None => first_tier st members
              end in
  let limit := match old with
               | Some c => if dc_max_append_bytes c =? 0 then first_limit st members
                           else dc_max_append_bytes c
               | None => first_limit st members
               end in
  mkCohort id members (reconciled_status st (dc_status <$> old) members) tier limit.

(** A member takes the tier and the limit of its cohort where it has none. *)
Definition fill_member_policy (cohort : DurableCohort) (m : DurableMember) : DurableMember :=
  mkMember (dm_id m) (dm_url m) (dm_status m) (dm_cohort_id m) (dm_name m) (dm_machine_id m)
    (dm_volume_id m) (dm_ordinal m)
    (if bool_decide (dm_tier m = "") then dc_tier cohort else dm_tier m)
    (if dm_max_append_bytes m =? 0 then dc_max_append_bytes cohort else dm_max_append_bytes m).

Definition fill_policies (st : DurableControlState) : DurableControlState :=
  set_members (foldl (λ members cohort,
    foldl (λ (members : gmap string DurableMember) id, alter (fill_member_policy cohort) id members)
      members (dc_members cohort)) (ct_members st) (nbtree_values (ct_cohorts st))) st.

(** A range takes the binding of its cohort where it has none. *)
Definition fill_segment (st : DurableControlState) (s : StreamSegment)
    : result ReplicaError StreamSegment :=
  cohort ← ok_or (ct_cohorts st !! sg_cohort_id s)
             (NodeStorage "stream segment references an unknown cohort");
  member_hash ←
    (if bool_decide (sg_member_hash s = "") then
       ok_or (cohort_member_hash st (sg_cohort_id s))
         (NodeStorage "stream segment cannot resolve its cohort member hash")
     else Ok (sg_member_hash s));
  Ok (mkSegment (sg_start_lsn s) (sg_end_lsn s) (sg_cohort_id s)
        (if bool_decide (sg_member_ids s = []) then dc_members cohort else sg_member_ids s)
        member_hash (sg_writer_epoch s)
        (if (sg_manifest_revision s =? 0) && negb (ct_manifest_revision st =? 0)
         then ct_manifest_revision st else sg_manifest_revision s)
        (sg_placement_epoch s)
        (if bool_decide (sg_operation_id s = "")
            && negb (bool_decide (ct_manifest_operation_id st = ""))
         then ct_manifest_operation_id st else sg_operation_id s)
        (if bool_decide (sg_tier s = "") then dc_tier cohort else sg_tier s)
        (if sg_max_append_bytes s =? 0 then dc_max_append_bytes cohort else sg_max_append_bytes s)).

Definition fill_segments (st : DurableControlState) : result ReplicaError segment_map :=
  entries ← try_map (λ '(stream, segments),
    segments ← try_map (fill_segment st) segments; Ok (stream, segments))
    (sbtree_entries (ct_stream_segments st));
  Ok (list_to_map entries).

(** The migration of a document from before the manifest fields. *)
Definition migrate_manifest (st : DurableControlState) : DurableControlState :=
  if (ct_manifest_revision st =? 0) && negb (bool_decide (ct_stream_segments st = ∅)) then
    let cohort_id := match max_by (λ x y, dc_id y <=? dc_id x)
                             (filter (λ c, dc_status c = CActive) (nbtree_values (ct_cohorts st))) with
                     | Some c => dc_id c
                     | None => 0
                     end in
    let writer_epoch := default 0 (max_by (λ a b, b <=? a)
                          (sg_writer_epoch <$> all_segments (ct_stream_segments st))) in
    set_binding "manifest-migration" writer_epoch cohort_id
      (default "" (cohort_member_hash st cohort_id)) (set_revision 1 (ct_manifest_digest st) st)
  else st.

Definition seal_manifest (st : DurableControlState) : result ReplicaError DurableControlState :=
  let canonical_digest := manifest_digest (ct_stream_segments st) in
  if negb (ct_manifest_revision st =? 0) then
    if negb (bool_decide (ct_manifest_digest st = ""))
       && negb (bool_decide (ct_manifest_digest st = canonical_digest))
    then Err (NodeStorage "replica placement manifest digest does not match its ranges")
    else
      let st := set_revision (ct_manifest_revision st) canonical_digest st in
      Ok (set_binding
        (if bool_decide (ct_manifest_operation_id st = "") then "manifest-migration"
         else ct_manifest_operation_id st)
        (ct_manifest_writer_epoch st) (ct_manifest_cohort_id st)
        (if bool_decide (ct_manifest_member_hash st = "")
         then default "" (cohort_member_hash st (ct_manifest_cohort_id st))
         else ct_manifest_member_hash st) st)
  else Ok st.

(** [reconcile_cohorts]: the document afterwards, and whether it changed. *)
Definition reconcile_cohorts (before : DurableControlState)
    : result ReplicaError (DurableControlState * bool) :=
  _ ← validate_members_state (ct_members before);
  let st := group_legacy_members before in
  let cohorts := map_imap (λ id members, Some (reconciled_cohort st (ct_cohorts st) id members))
                   (cohort_groups st) in
  let st := fill_policies (set_cohorts cohorts st) in
  segments ← fill_segments st;
  st ← seal_manifest (migrate_manifest (set_segments segments st));
  Ok (st, negb (bool_decide (st = before))).

(** ** Idempotency records *)

Context `{ControlJson}.

Definition OPERATION_RECORD_RETENTION : nat := 8.

(** The order of the pairs [(rank, id)]. *)
Definition rank_le (a b : N * string) : Prop := a.1 < b.1 ∨ a.1 = b.1 ∧ String.le a.2 b.2.

#[global] Instance rank_le_dec : RelDecision rank_le.
Proof. intros a b. unfold rank_le. apply _. Defined.

Definition prune (map : gmap string string) (keep : string) (rank : string → N)
    : gmap string string :=
  if (size map <=? OPERATION_RECORD_RETENTION)%nat then map
  else
    let ranked := merge_sort rank_le ((λ e : string * string, (rank e.2, e.1)) <$> sbtree_entries map) in
    let excess := (size map - OPERATION_RECORD_RETENTION)%nat in
    foldl (λ map id, if bool_decide (id = keep) then map else delete id map) map
      (take excess ranked).*2.

Definition prune_operation_records (st : DurableControlState) : DurableControlState :=
  set_operations (prune (ct_operations st) "" json_membership_epoch)
    (set_manifest_operations
       (prune (ct_manifest_operations st) (ct_manifest_operation_id st) json_revision) st).

End ControlDoc.
