(* ===== verification/Control.v ===== *)
(** * Control: the durable control store of a volume

    [DurableControl] of [crates/walleye-bitr-server/src/lib.rs] and the metadata freeze
    of [metadata_authority.rs].  The store is the file, the document in memory and the
    cached manifest.  Every operation decides under the lock (a [Plan]), then persists
    the next document and only then installs it; a persist may fail before or after
    the rename.  The file is modelled as the document it encodes. *)

From S2P Require Import Prelude Text Wire Client Placement Manifest Cohorts ControlDoc.

Record DurableControl := mkControl {
  dcl_disk : DurableControlState;
  dcl_state : DurableControlState;
  dcl_cache : option ReplicaManifest;
}.

(** What an operation decided: answer at once, or persist a document and answer. *)
Inductive Plan (A : Type) :=
| Reply (a : A)
| Install (next : DurableControlState) (a : A).
Arguments Reply {A} a.
Arguments Install {A} next a.

(** [persist_control_state]: the result and the file afterwards. *)
Definition persist_control_state (io : PersistIo) (disk next : DurableControlState)
    : result ReplicaError unit * DurableControlState :=
  match io with
  | PersistDone => (Ok tt, next)
  | PersistFailed reason renamed => (Err (NodeStorage reason), if renamed then next else disk)
  end.

(** The end of every operation; [clear] is [clear_manifest_cache]. *)
Definition execute {A} (io : PersistIo) (clear : bool) (c : DurableControl)
    (plan : result ReplicaError (Plan A)) : result ReplicaError A * DurableControl :=
  match plan with
  | Err e => (Err e, c)
  | Ok (Reply a) => (Ok a, c)
  | Ok (Install next a) =>
    match persist_control_state io (dcl_disk c) next with
    | (Ok _, disk) => (Ok a, mkControl disk next (if clear then None else dcl_cache c))
    | (Err e, disk) => (Err e, mkControl disk (dcl_state c) (dcl_cache c))
    end
  end.

Section Control.
Context `{ManifestHost} `{ControlJson}.

(** ** Opening *)

(** The members of a first bootstrap. *)
Definition bootstrap_member (acc : gset string * gset string * gmap string DurableMember)
    (entry : nat * ReplicaNode)
    : result ReplicaError (gset string * gset string * gmap string DurableMember) :=
  let '(ids, urls, members) := acc in
  let '(index, node) := entry in
  _ ← validate_node node;
  if bool_decide (rn_id node ∈ ids) || bool_decide (rn_url node ∈ urls) then
    Err (NodeStorage "direct membership identities and URLs must be unique")
  else
    Ok ({[rn_id node]} ∪ ids, {[rn_url node]} ∪ urls,
        <[rn_id node := mkMember (rn_id node) (rn_url node) MActive
                          (N.of_nat index / REPLICATION_FACTOR) "" "" "" 0 "" 0]> members).

Definition default_control_state : DurableControlState :=
  mkControlState CONTROL_STATE_VERSION 0 0 "" "" 0 0 "" 0 1 0 "" 0 None false ∅ ∅ ∅ ∅ ∅.

(** The document that is read, or the one of a first bootstrap. *)
Definition first_document (file : option DurableControlState) (initial_members : list ReplicaNode)
    : result ReplicaError DurableControlState :=
  match file with
  | Some st => Ok st
  | None =>
    '(_, members) ← try_fold bootstrap_member (∅, ∅, ∅) (enumerate initial_members);
    let st := set_members members default_control_state in
    Ok (if bool_decide (members = ∅) then st else set_membership_epoch 1 st)
  end.

(** [DurableControl::open]: [file] is the document of an existing file. *)
Definition control_open (io : PersistIo) (file : option DurableControlState)
    (initial_members : list ReplicaNode) : result ReplicaError DurableControl :=
  st ← first_document file initial_members;
  if negb (ct_version st =? CONTROL_STATE_VERSION) then
    Err (NodeStorage "unsupported replica control state version")
  else
    '(st, normalized) ← reconcile_cohorts st;
    _ ← validate_control_state st;
    match file with
    | Some disk =>
      if (normalized : bool) then
        match persist_control_state io disk st with
        | (Ok _, disk) => Ok (mkControl disk st None)
        | (Err e, _) => Err e
        end
      else Ok (mkControl disk st None)
    | None =>
      match persist_control_state io st st with
      | (Ok _, disk) => Ok (mkControl disk st None)
      | (Err e, _) => Err e
      end
    end.

(** ** Manifest operations *)

(** The manifest an operation publishes. *)
Definition published_manifest (st : DurableControlState) (revision : N) (segments : segment_map)
    (operation_id : string) : ReplicaManifest :=
  let '(writer_epoch, cohort_id, member_set_hash) := manifest_metadata_for_state st segments in
  let '(tier, max_append_bytes) := manifest_policy_for_state st segments cohort_id in
  mkManifest MANIFEST_VERSION revision (manifest_digest segments) writer_epoch cohort_id
    member_set_hash (ct_write_cohort_id st) segments operation_id tier max_append_bytes.

(** The document that carries it, with its idempotency record. *)
Definition with_manifest (st : DurableControlState) (m : ReplicaManifest) : DurableControlState :=
  set_manifest_operations
    (<[rm_operation_id m := manifest_json m]> (ct_manifest_operations st))
    (set_segments (rm_stream_segments m)
       (set_binding (rm_operation_id m) (rm_writer_epoch m) (rm_cohort_id m) (rm_member_set_hash m)
          (set_revision (rm_revision m) (rm_digest m) st))).

Definition current_digest (st : DurableControlState) : string :=
  if bool_decide (ct_manifest_digest st = "") then manifest_digest (ct_stream_segments st)
  else ct_manifest_digest st.

Definition publish (st : DurableControlState) (m : ReplicaManifest)
    : result ReplicaError (Plan ReplicaManifest) :=
  let next := prune_operation_records (with_manifest st m) in
  _ ← validate_control_state next;
  Ok (Install next m).

(** The branch of a repair. *)
Definition repair_manifest (st : DurableControlState) (target_revision : N)
    (expected_digest : string) (segments : segment_map) (operation_id : string)
    : result ReplicaError (Plan ReplicaManifest) :=
  let target_digest := manifest_digest segments in
  if (target_revision =? 0) || negb (bool_decide (expected_digest = target_digest))
     || (target_revision <? ct_manifest_revision st)
  then Err LsnConflict
  else if (ct_manifest_revision st =? target_revision)
          && bool_decide (current_digest st = target_digest)
  then Ok (Reply (manifest_from_state st))
  else
    _ ← validate_manifest_segments st segments target_revision;
    publish st (published_manifest st target_revision segments operation_id).

Definition plan_cas_manifest (st : DurableControlState) (expected_revision : N)
    (expected_digest : string) (segments : segment_map) (operation_id : string) (repair : bool)
    (cutover_lsn : option N) : result ReplicaError (Plan ReplicaManifest) :=
  if blank operation_id then Err (Protocol "manifest operation_id must not be empty")
  else match ct_manifest_operations st !! operation_id with
  | Some previous => m ← map_err NodeStorage (manifest_of_json previous); Ok (Reply m)
  | None =>
    if negb (bool_decide (ct_metadata_freeze st = None)) || negb (ct_control_head_revision st =? 0)
    then Err WriterFenced
    else if repair then repair_manifest st expected_revision expected_digest segments operation_id
    else if negb (ct_manifest_revision st =? expected_revision)
            || (negb (bool_decide (expected_digest = ""))
                && negb (bool_decide (current_digest st = expected_digest)))
    then Err LsnConflict
    else
      next_revision ← ok_or (checked_add expected_revision 1) (Protocol "manifest revision exhausted");
      _ ← validate_manifest_segments st segments next_revision;
      _ ← validate_manifest_transition (ct_stream_segments st) segments;
      _ ← validate_manifest_cutover (ct_stream_segments st) segments cutover_lsn;
      publish st (published_manifest st next_revision segments operation_id)
  end.

Definition cas_manifest_with_cutover (io : PersistIo) (c : DurableControl) (expected_revision : N)
    (expected_digest : string) (segments : segment_map) (operation_id : string) (repair : bool)
    (cutover_lsn : option N) : result ReplicaError ReplicaManifest * DurableControl :=
  execute io true c (plan_cas_manifest (dcl_state c) expected_revision expected_digest segments
                       operation_id repair cutover_lsn).

Definition cas_manifest (io : PersistIo) (c : DurableControl) (expected_revision : N)
    (expected_digest : string) (segments : segment_map) (operation_id : string) (repair : bool)
    : result ReplicaError ReplicaManifest * DurableControl :=
  cas_manifest_with_cutover io c expected_revision expected_digest segments operation_id repair None.

Definition plan_adopt_manifest (st : DurableControlState) (m : ReplicaManifest)
    (force_same_revision : bool) : result ReplicaError (Plan unit) :=
  _ ← validate_manifest m;
  if negb (bool_decide (rm_digest m = manifest_digest (rm_stream_segments m))) then Err LsnConflict
  else if rm_revision m <? ct_manifest_revision st then Err LsnConflict
  else
    let divergent := negb (bool_decide (current_digest st = rm_digest m)) in
    if (rm_revision m =? ct_manifest_revision st) && divergent && negb force_same_revision
    then Err LsnConflict
    else
      _ ← validate_manifest_segments st (rm_stream_segments m) (rm_revision m);
      _ ← (if negb (force_same_revision && divergent)
           then validate_manifest_transition (ct_stream_segments st) (rm_stream_segments m)
           else Ok tt);
      _ ← validate_write_cohort st (rm_write_cohort_id m);
      let '(writer_epoch, cohort_id, member_set_hash) :=
        manifest_metadata_for_state st (rm_stream_segments m) in
      let next := set_write_cohort (rm_write_cohort_id m) st in
      let next := set_revision (rm_revision m) (rm_digest m) next in
      let next := set_binding (rm_operation_id m) writer_epoch cohort_id
                    (if bool_decide (rm_member_set_hash m = "") then member_set_hash
                     else rm_member_set_hash m) next in
      let next := set_segments (rm_stream_segments m) next in
      let next := set_manifest_operations
                    (<[rm_operation_id m := manifest_json m]> (ct_manifest_operations st)) next in
      let next := prune_operation_records next in
      _ ← validate_control_state next;
      Ok (Install next tt).

Definition adopt_manifest (io : PersistIo) (c : DurableControl) (m : ReplicaManifest)
    (force_same_revision : bool) : result ReplicaError unit * DurableControl :=
  execute io true c (plan_adopt_manifest (dcl_state c) m force_same_revision).

(** [DurableControl::manifest]: the answer, and the store with its cache. *)
Definition control_manifest (c : DurableControl) : result ReplicaError ReplicaManifest * DurableControl :=
  let st := dcl_state c in
  let rebuild :=
    let m := manifest_from_state st in
    match validate_manifest_against_state st m with
    | Err e => (Err e, c)
    | Ok _ => (Ok m, mkControl (dcl_disk c) st (Some m))
    end in
  match dcl_cache c with
  | Some cached =>
    if (rm_revision cached =? ct_manifest_revision st)
       && bool_decide (rm_digest cached = ct_manifest_digest st)
       && bool_decide (rm_operation_id cached = ct_manifest_operation_id st)
    then (Ok cached, c) else rebuild
  | None => rebuild
  end.

(** ** Head and marker operations *)

Definition plan_adopt_control_head (st : DurableControlState) (head : ControlHead)
    : result ReplicaError (Plan unit) :=
  let metadata := ch_metadata head in
  let m := cm_manifest metadata in
  _ ← validate_manifest m;
  if (ch_authority_epoch head <? ct_control_authority_epoch st)
     || ((ch_authority_epoch head =? ct_control_authority_epoch st)
         && (ch_revision head <? ct_control_head_revision st))
  then Err LsnConflict
  else if (ch_authority_epoch head =? ct_control_authority_epoch st)
          && (ch_revision head =? ct_control_head_revision st)
          && negb (bool_decide (ct_control_head_digest st = ""))
          && negb (bool_decide (ct_control_head_digest st = ch_metadata_digest head))
  then Err LsnConflict
  else
    let next := set_membership_epoch (cm_membership_epoch metadata) st in
    let next := set_members (cm_members metadata) next in
    let next := set_cohorts (cm_cohorts metadata) next in
    let next := set_write_cohort (rm_write_cohort_id m) next in
    let next := set_revision (rm_revision m) (rm_digest m) next in
    let next := set_binding (rm_operation_id m) (rm_writer_epoch m) (rm_cohort_id m)
                  (rm_member_set_hash m) next in
    let next := set_segments (rm_stream_segments m) next in
    let next := set_head (ch_authority_epoch head) (ch_revision head) (ch_metadata_digest head) next in
    _ ← validate_control_state next;
    Ok (Install next tt).

Definition adopt_control_head (io : PersistIo) (c : DurableControl) (head : ControlHead)
    : result ReplicaError unit * DurableControl :=
  execute io true c (plan_adopt_control_head (dcl_state c) head).

(** [DurableControl::adopt_authoritative_head]. *)
Definition adopt_authoritative_head (io : PersistIo) (c : DurableControl) (head : ControlHead)
    : result ReplicaError unit * DurableControl :=
  match ct_metadata_freeze (dcl_state c) with
  | Some freeze =>
    if (ch_authority_epoch head <? mf_target_authority_epoch freeze)
       || negb (bool_decide (cs_digest (ch_source_marker head) = cs_digest (mf_source freeze)))
    then (Err LsnConflict, c) else adopt_control_head io c head
  | None => adopt_control_head io c head
  end.

Definition plan_adopt_authority_fields (st : DurableControlState) (authority_epoch head_revision : N)
    (head_digest : string) (authority_cohort_id : N) : result ReplicaError (Plan unit) :=
  if (authority_epoch =? 0) || (head_revision =? 0) || blank head_digest then
    Err (Protocol "invalid control-head authority receipt")
  else if (authority_epoch <? ct_control_authority_epoch st)
          || ((authority_epoch =? ct_control_authority_epoch st)
              && (head_revision <? ct_control_head_revision st))
  then Err LsnConflict
  else if (authority_epoch =? ct_control_authority_epoch st)
          && (head_revision =? ct_control_head_revision st)
          && negb (bool_decide (ct_control_head_digest st = ""))
          && negb (bool_decide (ct_control_head_digest st = head_digest))
  then Err LsnConflict
  else Ok (Install (set_authority_cohort authority_cohort_id
                      (set_head authority_epoch head_revision head_digest st)) tt).

Definition adopt_authority_fields (io : PersistIo) (c : DurableControl)
    (authority_epoch head_revision : N) (head_digest : string) (authority_cohort_id : N)
    : result ReplicaError unit * DurableControl :=
  execute io false c (plan_adopt_authority_fields (dcl_state c) authority_epoch head_revision
                        head_digest authority_cohort_id).

Definition plan_mark_placement_initialized (st : DurableControlState)
    : result ReplicaError (Plan unit) :=
  if ct_placement_initialized st then Ok (Reply tt)
  else
    let next := set_placement_initialized true st in
    _ ← validate_control_state next;
    Ok (Install next tt).

Definition mark_placement_initialized (io : PersistIo) (c : DurableControl)
    : result ReplicaError unit * DurableControl :=
  execute io true c (plan_mark_placement_initialized (dcl_state c)).

(** ** Membership operations *)

(** The arguments of a membership CAS. *)
Record MembershipRequest := mkRequest {
  mq_expected_epoch : N;
  mq_target_epoch : option N;
  mq_repair : bool;
  mq_members : list DurableMember;
  mq_cohorts : option (list DurableCohort);
  mq_stream_segments : option segment_map;
  mq_manifest_revision : option N;
  mq_manifest_digest : option string;
  mq_write_cohort_id : option N;
  mq_online : bool;
  mq_replacement : bool;
  mq_operation_id : string;
}.

Definition collect_member (members : gmap string DurableMember) (member : DurableMember)
    : result ReplicaError (gmap string DurableMember) :=
  _ ← validate_node (member_node member);
  match members !! dm_id member with
  | Some _ => Err LsnConflict
  | None => Ok (<[dm_id member := member]> members)
  end.

(** A repair of a document that already is the requested one. *)
Definition already_adopted (st : DurableControlState) (q : MembershipRequest)
    (next_members : gmap string DurableMember) : bool :=
  mq_repair q
  && bool_decide (mq_target_epoch q = Some (ct_membership_epoch st))
  && bool_decide (ct_members st = next_members)
  && match mq_cohorts q with
     | None => true
     | Some cohorts => bool_decide (nbtree_values (ct_cohorts st) = cohorts)
     end
  && match mq_stream_segments q with
     | None => true
     | Some segments => bool_decide (ct_stream_segments st = segments)
     end
  && match mq_write_cohort_id q with
     | None => true
     | Some id => ct_write_cohort_id st =? id
     end.

(** A removed member stays removed and a known one keeps its cohort. *)
Definition check_known_member (st : DurableControlState) (may_adopt : bool)
    (entry : string * DurableMember) : result ReplicaError unit :=
  let '(id, member) := entry in
  match ct_members st !! id with
  | None => Ok tt
  | Some previous =>
    if bool_decide (dm_status previous = MRemoved) && negb (bool_decide (dm_status member = MRemoved))
    then Err LsnConflict
    else if negb (dm_cohort_id previous =? dm_cohort_id member) && negb may_adopt
    then Err LsnConflict else Ok tt
  end.

(** The routes the operation carries: [next] is the document with the new members. *)
Definition incoming_routes (st next : DurableControlState) (q : MembershipRequest)
    : result ReplicaError (N * segment_map) :=
  match mq_stream_segments q with
  | Some incoming =>
    let incoming_revision := default (ct_manifest_revision st) (mq_manifest_revision q) in
    let incoming_digest :=
      match mq_manifest_digest q with
      | Some digest => if bool_decide (digest = "") then manifest_digest incoming else digest
      | None => manifest_digest incoming
      end in
    let incoming_digest :=
      if (incoming_revision =? 0) && bool_decide (incoming = ∅)
         && bool_decide (ct_stream_segments st = ∅) && bool_decide (ct_manifest_digest st = "")
      then current_digest st else incoming_digest in
    if incoming_revision =? ct_manifest_revision st then
      if negb (bool_decide (incoming_digest = current_digest st))
         || negb (bool_decide (incoming = ct_stream_segments st))
      then Err LsnConflict else Ok (ct_manifest_revision st, ct_stream_segments st)
    else if ct_manifest_revision st <? incoming_revision then
      if negb (bool_decide (incoming_digest = manifest_digest incoming)) then Err LsnConflict
      else
        _ ← validate_manifest_segments next incoming incoming_revision;
        _ ← (if negb (mq_repair q) then validate_manifest_transition (ct_stream_segments st) incoming
             else Ok tt);
        Ok (incoming_revision, incoming)
    else Ok (ct_manifest_revision st, ct_stream_segments st)
  | None =>
    revision ← ok_or (checked_add (ct_manifest_revision st) 1) (Protocol "manifest revision exhausted");
    Ok (revision, ct_stream_segments st)
  end.

(** The members, cohorts and write target of the next document. *)
Definition requested_document (st : DurableControlState) (q : MembershipRequest)
    (next_members : gmap string DurableMember) (next_epoch : N)
    : result ReplicaError DurableControlState :=
  let next := set_members next_members (set_membership_epoch next_epoch st) in
  let next := match mq_cohorts q with
              | Some cohorts => set_cohorts (list_to_map (rev ((λ c, (dc_id c, c)) <$> cohorts))) next
              | None => next
              end in
  match mq_write_cohort_id q with
  | Some id => if id =? 0 then Err LsnConflict else Ok (set_write_cohort id next)
  | None => Ok next
  end.

(** The manifest fields after the reconciliation. *)
Definition publish_routes (st next : DurableControlState) (q : MembershipRequest) (revision : N)
    (segments : segment_map) : DurableControlState :=
  let m := published_manifest next revision segments (mq_operation_id q) in
  if ct_manifest_revision st <? revision then with_manifest next m
  else match mq_write_cohort_id q with
  | Some _ =>
    set_manifest_operations (<[rm_operation_id m := manifest_json m]> (ct_manifest_operations next))
      (set_binding (rm_operation_id m) (rm_writer_epoch m) (rm_cohort_id m) (rm_member_set_hash m) next)
  | None => next
  end.

(** No active cohort, or an incomplete one. *)
Definition lacks_active_cohort (st : DurableControlState) : bool :=
  let active := filter (λ c, dc_status c = CActive) (nbtree_values (ct_cohorts st)) in
  bool_decide (active = [])
  || existsb (λ c, negb (len (dc_members c) =? REPLICATION_FACTOR)) active.

Definition plan_cas_membership (st : DurableControlState) (q : MembershipRequest)
    : result ReplicaError (Plan MembershipSnapshot) :=
  if blank (mq_operation_id q) then Err (Protocol "membership operation_id must not be empty")
  else
    next_members ← try_fold collect_member ∅ (mq_members q);
    _ ← validate_members_state next_members;
    match (if mq_repair q then None else ct_operations st !! mq_operation_id q) with
    | Some previous => snapshot ← map_err NodeStorage (membership_of_json previous); Ok (Reply snapshot)
    | None =>
      if already_adopted st q next_members then Ok (Reply (membership_from_state st))
      else if negb (bool_decide (ct_metadata_freeze st = None)) || negb (ct_control_head_revision st =? 0)
      then Err WriterFenced
      else if negb (ct_membership_epoch st =? mq_expected_epoch q) then Err LsnConflict
      else
        let next_members := match mq_cohorts q with
                            | None => normalize_members_for_cas next_members st
                            | Some _ => next_members
                            end in
        let may_adopt := may_adopt_authoritative_bootstrap st (mq_repair q) in
        _ ← try_fold (λ _ entry, check_known_member st may_adopt entry) tt (sbtree_entries next_members);
        _ ← validate_members_state next_members;
        adjacent ← ok_or (checked_add (mq_expected_epoch q) 1) (Protocol "membership epoch exhausted");
        let next_epoch := default adjacent (mq_target_epoch q) in
        if (next_epoch <? adjacent) || (negb (mq_repair q) && negb (next_epoch =? adjacent))
        then Err LsnConflict
        else
          next ← requested_document st q next_members next_epoch;
          '(revision, segments) ← incoming_routes st next q;
          let next := set_segments segments next in
          _ ← (if mq_online q && negb may_adopt then
                 if mq_replacement q then validate_online_replacement_transition st next
                 else validate_online_membership_transition st next
               else Ok tt);
          let next := if ct_manifest_revision st <? revision
                      then set_revision revision (manifest_digest segments) next else next in
          '(next, _) ← reconcile_cohorts next;
          let next := publish_routes st next q revision segments in
          _ ← validate_control_state next;
          if lacks_active_cohort next then Err QuorumUnavailable
          else
            let snapshot := membership_from_state next in
            Ok (Install (prune_operation_records (set_operations
                  (<[mq_operation_id q := membership_json snapshot]> (ct_operations next)) next))
                snapshot)
    end.

(** [cas_membership_document_with_options]; the public variants fix some of the
    arguments. *)
Definition cas_membership_document_with_options (io : PersistIo) (c : DurableControl)
    (q : MembershipRequest) : result ReplicaError MembershipSnapshot * DurableControl :=
  execute io true c (plan_cas_membership (dcl_state c) q).

(** ** The metadata freeze *)

Record MetadataFreezeAck := mkFreezeAck {
  fa_member_id : string;
  fa_operation_id : string;
  fa_source : ControlSourceMarker;
  fa_target_authority_epoch : N;
  fa_metadata_digest : string;
  fa_control_cohort_id : N;
}.

(** [serde_json::to_vec] of the metadata. *)
Class MetadataJson := { metadata_to_vec : ControlMetadata → list byte }.

Context `{MetadataJson}.

(** [ControlMetadata::digest]. *)
Definition metadata_digest (m : ControlMetadata) : string := sha256_hex (metadata_to_vec m).

Definition LEGACY_CONTROL_AUTHORITY : string := "legacy-control-quorum".
Definition MAX_SOURCE_AUTHORITY_BYTES : N := 256.
Definition MAX_SOURCE_DIGEST_BYTES : N := 256.

Definition control_metadata_from_state (st : DurableControlState) : ControlMetadata :=
  mkMetadata (ct_membership_epoch st) (ct_members st) (ct_cohorts st) (manifest_from_state st) ∅.

(** [ControlSourceMarker::new]. *)
Definition source_marker_new (authority : string) (authority_epoch revision : N) (digest : string)
    : result ReplicaError ControlSourceMarker :=
  let invalid reason := Err (NodeStorage ("invalid replica control head: " +:+ reason)) in
  if blank authority || (MAX_SOURCE_AUTHORITY_BYTES <? str_len authority) then
    invalid "control source authority is empty or too long"
  else if (authority_epoch =? 0) || (revision =? 0) then
    invalid "control source authority epoch and revision must be nonzero"
  else if blank digest || (MAX_SOURCE_DIGEST_BYTES <? str_len digest) then
    invalid "control source digest is empty or too long"
  else Ok (mkSource authority authority_epoch revision digest).

Definition source_marker_for_state (st : DurableControlState) (digest : string)
    : result ReplicaError ControlSourceMarker :=
  let authority_epoch := N.max (ct_control_authority_epoch st) 1 in
  let revision := if ct_control_head_revision st =? 0 then N.max (ct_manifest_revision st) 1
                  else ct_control_head_revision st in
  if negb (bool_decide (ct_control_head_digest st = ""))
     && negb (bool_decide (ct_control_head_digest st = digest))
  then Err LsnConflict
  else source_marker_new LEGACY_CONTROL_AUTHORITY authority_epoch revision digest.

Definition ensure_request_matches_state (st : DurableControlState) (request : MetadataFreeze)
    : result ReplicaError string :=
  if blank (mf_operation_id request) then
    Err (Protocol "metadata freeze operation_id must not be empty")
  else
    let digest := metadata_digest (control_metadata_from_state st) in
    expected ← source_marker_for_state st digest;
    if negb (bool_decide (mf_source request = expected))
       || negb (mf_control_cohort_id request =? ct_control_authority_cohort_id st)
    then Err LsnConflict
    else
      target ← ok_or (checked_add (N.max (ct_control_authority_epoch st) 1) 1)
                 (Protocol "authority epoch exhausted");
      if negb (mf_target_authority_epoch request =? target) then Err LsnConflict
      else
        cohort ← ok_or (ct_cohorts st !! ct_control_authority_cohort_id st) QuorumUnavailable;
        if negb (len (dc_members cohort) =? REPLICATION_FACTOR)
           || existsb (λ id, bool_decide (ct_members st !! id = None)) (dc_members cohort)
        then Err QuorumUnavailable else Ok digest.

Definition plan_freeze (st : DurableControlState) (member_id : string) (request : MetadataFreeze)
    : result ReplicaError (Plan MetadataFreezeAck) :=
  if blank member_id then Err (Protocol "metadata freeze member id must not be empty")
  else
    digest ← ensure_request_matches_state st request;
    cohort ← ok_or (ct_cohorts st !! mf_control_cohort_id request) QuorumUnavailable;
    if negb (bool_decide (member_id ∈ dc_members cohort)) then Err LsnConflict
    else
      let ack := mkFreezeAck member_id (mf_operation_id request) (mf_source request)
                   (mf_target_authority_epoch request) digest (mf_control_cohort_id request) in
      match ct_metadata_freeze st with
      | Some previous => if bool_decide (previous = request) then Ok (Reply ack) else Err WriterFenced
      | None => Ok (Install (set_freeze (Some request) st) ack)
      end.

Definition freeze_metadata_authority (io : PersistIo) (c : DurableControl) (member_id : string)
    (request : MetadataFreeze) : result ReplicaError MetadataFreezeAck * DurableControl :=
  execute io false c (plan_freeze (dcl_state c) member_id request).

End Control.
