(* ===== verification/ControlSafety.v ===== *)
(** * ControlSafety: what the control store keeps

    Every document a volume holds is valid, in memory and on file; a revision of the
    manifest names one value; a frozen volume refuses every further CAS; a retry
    returns the recorded answer; and a read after a CAS returns what the CAS
    acknowledged. *)

From S2P Require Import Prelude Text Wire Client Placement Manifest Cohorts ControlDoc Control.

(** Walks through a plan that succeeded: binds, tests and matches. *)
Ltac walk H :=
  repeat match type of H with
  | _ ≫= _ = Ok _ => next H
  | (if ?b then _ else _) = Ok _ => destruct b eqn:?; try discriminate H
  | (match ?o with _ => _ end) = Ok _ => destruct o eqn:?; try discriminate H
  | Err _ = Ok _ => discriminate H
  | (let _ := _ in _) = Ok _ => cbv zeta in H
  | Ok _ = Ok _ => progress simplify_eq
  end.

Ltac destruct_units := repeat match goal with u : unit |- _ => destruct u end.

(** ** Validity depends on the routing fields only *)

(** The documents agree on what validation reads. *)
Record same_routing (st st' : DurableControlState) : Prop := {
  sr_members : ct_members st = ct_members st';
  sr_cohorts : ct_cohorts st = ct_cohorts st';
}.

Section Ext.
Context `{ManifestHost}.

Lemma member_identities_ext st st' ids :
  same_routing st st' → member_identities st ids = member_identities st' ids.
Proof.
  intros [Hm _]. induction ids as [|id ids IH]; cbn; [done|]. by rewrite Hm, IH.
Qed.

Lemma cohort_member_hash_ext st st' id :
  same_routing st st' → cohort_member_hash st id = cohort_member_hash st' id.
Proof.
  intros Hs. unfold cohort_member_hash, member_set_hash. rewrite (sr_cohorts _ _ Hs).
  destruct (ct_cohorts st' !! id); cbn; [|done]. by rewrite (member_identities_ext st st').
Qed.

Lemma validate_segment_list_ext st st' revision first previous segments :
  same_routing st st' →
  validate_segment_list st revision first previous segments
  = validate_segment_list st' revision first previous segments.
Proof.
  intros Hs. revert first previous. induction segments as [|s rest IH]; intros; cbn; [done|].
  unfold validate_binding. rewrite (sr_cohorts _ _ Hs), (cohort_member_hash_ext st st' _ Hs).
  by rewrite IH.
Qed.

Lemma validate_manifest_segments_ext st st' segments revision :
  same_routing st st' →
  validate_manifest_segments st segments revision = validate_manifest_segments st' segments revision.
Proof.
  intros Hs. unfold validate_manifest_segments. apply try_fold_ext. intros _ [stream segs].
  by rewrite (validate_segment_list_ext st st').
Qed.

Lemma validate_write_cohort_ext st st' id :
  same_routing st st' → validate_write_cohort st id = validate_write_cohort st' id.
Proof.
  intros [Hm Hc]. unfold validate_write_cohort, complete_active, member_has_status.
  by rewrite Hm, Hc.
Qed.

Lemma validate_control_state_ext st st' :
  same_routing st st' → ct_stream_segments st = ct_stream_segments st' →
  ct_manifest_revision st = ct_manifest_revision st' →
  ct_manifest_digest st = ct_manifest_digest st' → ct_write_cohort_id st = ct_write_cohort_id st' →
  validate_control_state st = validate_control_state st'.
Proof.
  intros Hs Hseg Hrev Hdig Hw. unfold validate_control_state.
  rewrite (validate_write_cohort_ext st st' _ Hs), (validate_manifest_segments_ext st st' _ _ Hs).
  rewrite (try_fold_ext (check_cohort st) (check_cohort st')).
  { by rewrite (sr_members _ _ Hs), (sr_cohorts _ _ Hs), Hseg, Hrev, Hdig, Hw. }
  intros memberships [id cohort]. unfold check_cohort. rewrite Hseg.
  rewrite (try_fold_ext (check_cohort_member st id) (check_cohort_member st' id)); [done|].
  intros [counts active] member. unfold check_cohort_member. by rewrite (sr_members _ _ Hs).
Qed.

(** The documents agree on what the manifest is built from. *)
Record same_manifest (st st' : DurableControlState) : Prop := {
  sm_routing : same_routing st st';
  sm_segments : ct_stream_segments st = ct_stream_segments st';
  sm_revision : ct_manifest_revision st = ct_manifest_revision st';
  sm_digest : ct_manifest_digest st = ct_manifest_digest st';
  sm_operation : ct_manifest_operation_id st = ct_manifest_operation_id st';
  sm_epoch : ct_manifest_writer_epoch st = ct_manifest_writer_epoch st';
  sm_cohort : ct_manifest_cohort_id st = ct_manifest_cohort_id st';
  sm_hash : ct_manifest_member_hash st = ct_manifest_member_hash st';
  sm_write : ct_write_cohort_id st = ct_write_cohort_id st';
}.

Lemma manifest_policy_ext st st' segments id :
  same_routing st st' →
  manifest_policy_for_state st segments id = manifest_policy_for_state st' segments id.
Proof. intros [_ Hc]. unfold manifest_policy_for_state. by rewrite Hc. Qed.

Lemma manifest_metadata_ext st st' segments :
  same_routing st st' → ct_manifest_writer_epoch st = ct_manifest_writer_epoch st' →
  ct_manifest_cohort_id st = ct_manifest_cohort_id st' →
  ct_manifest_member_hash st = ct_manifest_member_hash st' →
  ct_write_cohort_id st = ct_write_cohort_id st' →
  manifest_metadata_for_state st segments = manifest_metadata_for_state st' segments.
Proof.
  intros Hr He Hc Hh Hw. unfold manifest_metadata_for_state.
  rewrite He, Hc, Hh, Hw, (sr_cohorts _ _ Hr), (cohort_member_hash_ext st st' _ Hr).
  destruct (latest_manifest_binding segments) as [[? ?] ?].
  by rewrite (cohort_member_hash_ext st st' _ Hr).
Qed.

Lemma manifest_from_state_ext st st' :
  same_manifest st st' → manifest_from_state st = manifest_from_state st'.
Proof.
  intros [Hr Hs Hrev Hd Ho He Hc Hh Hw]. unfold manifest_from_state.
  by rewrite Hs, Hrev, Hd, Ho, He, Hc, Hh, Hw, (cohort_member_hash_ext st st' _ Hr),
    (manifest_policy_ext st st' _ _ Hr).
Qed.

Lemma validate_against_state_ext st st' m :
  same_manifest st st' →
  validate_manifest_against_state st m = validate_manifest_against_state st' m.
Proof.
  intros [Hr Hs Hrev Hd Ho He Hc Hh Hw]. unfold validate_manifest_against_state.
  rewrite Hs, Hrev, Hw, (manifest_metadata_ext st st'), (validate_manifest_segments_ext st st' _ _ Hr)
    by done.
  by rewrite (manifest_policy_ext st st' _ _ Hr).
Qed.

End Ext.

(** ** Runs of a store *)

Section Runs.
Context `{ManifestHost} `{ControlJson} `{MetadataJson}.

(** One operation on a volume, with the outcome of its write, or a restart. *)
Inductive volume_step (c : DurableControl) : DurableControl → Prop :=
| step_cas io revision digest segments op cutover r c' :
    cas_manifest_with_cutover io c revision digest segments op false cutover = (r, c') →
    volume_step c c'
| step_membership io q r c' :
    cas_membership_document_with_options io c q = (r, c') → volume_step c c'
| step_adopt io m r c' :
    adopt_manifest io c m false = (r, c') → volume_step c c'
| step_authority io epoch revision digest cohort r c' :
    adopt_authority_fields io c epoch revision digest cohort = (r, c') → volume_step c c'
| step_freeze io member request r c' :
    freeze_metadata_authority io c member request = (r, c') → volume_step c c'
| step_placement io r c' :
    mark_placement_initialized io c = (r, c') → volume_step c c'
| step_read r c' :
    control_manifest c = (r, c') → volume_step c c'
| step_restart io c' :
    control_open io (Some (dcl_disk c)) [] = Ok c' → volume_step c c'.

(** The operations a control quorum drives besides: a repair, a forced adoption, and
    the adoption of an object-store head. *)
Inductive quorum_step (c : DurableControl) : DurableControl → Prop :=
| step_repair io revision digest segments op cutover r c' :
    cas_manifest_with_cutover io c revision digest segments op true cutover = (r, c') →
    quorum_step c c'
| step_forced io m r c' :
    adopt_manifest io c m true = (r, c') → quorum_step c c'
| step_head io head r c' :
    adopt_authoritative_head io c head = (r, c') → quorum_step c c'
| step_direct_head io head r c' :
    adopt_control_head io c head = (r, c') → quorum_step c c'.

Definition control_step (c c' : DurableControl) : Prop := volume_step c c' ∨ quorum_step c c'.

(** The cached manifest is the one of the document. *)
Definition cache_ok (c : DurableControl) : Prop :=
  ∀ m, dcl_cache c = Some m →
    m = manifest_from_state (dcl_state c)
    ∧ validate_manifest_against_state (dcl_state c) m = Ok tt.

Record control_inv (c : DurableControl) : Prop := {
  ci_state : validate_control_state (dcl_state c) = Ok tt;
  ci_disk : validate_control_state (dcl_disk c) = Ok tt;
  ci_cache : cache_ok c;
}.

(** ** Plans *)

(** Every document a plan installs is valid. *)
Definition plan_valid {A} (plan : result ReplicaError (Plan A)) : Prop :=
  ∀ next a, plan = Ok (Install next a) → validate_control_state next = Ok tt.

Lemma execute_inv {A} io c (plan : result ReplicaError (Plan A)) r c' :
  control_inv c → plan_valid plan → execute io true c plan = (r, c') → control_inv c'.
Proof.
  intros Hinv Hp. unfold execute.
  destruct plan as [[a|next a]|e]; [by intros [= <- <-]| |by intros [= <- <-]].
  specialize (Hp next a eq_refl). unfold persist_control_state.
  destruct io as [|reason [|]]; intros [= <- <-]; destruct Hinv; by split.
Qed.

(** Operations that keep the cache change nothing the manifest depends on. *)
Lemma execute_keep_inv {A} io c (plan : result ReplicaError (Plan A)) r c' :
  control_inv c → plan_valid plan →
  (∀ next a, plan = Ok (Install next a) →
     manifest_from_state next = manifest_from_state (dcl_state c)
     ∧ ∀ m, validate_manifest_against_state next m
            = validate_manifest_against_state (dcl_state c) m) →
  execute io false c plan = (r, c') → control_inv c'.
Proof.
  intros [Hst Hd Hc] Hp Hsame. unfold execute.
  destruct plan as [[a|next a]|e]; [by intros [= <- <-]| |by intros [= <- <-]].
  destruct (Hsame next a eq_refl) as [Hm Hv]. specialize (Hp next a eq_refl).
  unfold persist_control_state. destruct io as [|reason [|]]; intros [= <- <-]; split; try done.
  intros m Hcm. cbn. rewrite Hm, Hv. by apply Hc.
Qed.

Lemma publish_Ok st m plan :
  publish st m = Ok plan →
  plan = Install (prune_operation_records (with_manifest st m)) m
  ∧ validate_control_state (prune_operation_records (with_manifest st m)) = Ok tt.
Proof. unfold publish. intros Hp. walk Hp. destruct x. done. Qed.

(** What a manifest CAS that installs a document did. *)
Lemma plan_cas_manifest_Install st revision digest segments op repair cutover next m :
  plan_cas_manifest st revision digest segments op repair cutover = Ok (Install next m) →
  blank op = false ∧ ct_manifest_operations st !! op = None
  ∧ ct_metadata_freeze st = None ∧ ct_control_head_revision st = 0
  ∧ next = prune_operation_records (with_manifest st m) ∧ validate_control_state next = Ok tt
  ∧ (if repair then
       m = published_manifest st revision segments op ∧ ct_manifest_revision st ≤ revision
       ∧ validate_manifest_segments st segments revision = Ok tt
     else
       m = published_manifest st (revision + 1) segments op ∧ ct_manifest_revision st = revision
       ∧ validate_manifest_segments st segments (revision + 1) = Ok tt
       ∧ validate_manifest_transition (ct_stream_segments st) segments = Ok tt
       ∧ validate_manifest_cutover (ct_stream_segments st) segments cutover = Ok tt).
Proof.
  unfold plan_cas_manifest, repair_manifest. intros Hp. walk Hp; bool_facts.
  - destruct x. apply publish_Ok in Hp as [[= -> ->] Hv]. by split_and!; try lia.
  - destruct x0, x1, x2. apply publish_Ok in Hp as [[= -> ->] Hv].
    apply ok_or_Ok, checked_add_Some in Hx as [-> _]. by split_and!.
Qed.

Lemma plan_adopt_manifest_valid st m force : plan_valid (plan_adopt_manifest st m force).
Proof.
  intros next a Hp. unfold plan_adopt_manifest in Hp. walk Hp; by destruct_units.
Qed.

Lemma plan_adopt_control_head_valid st head : plan_valid (plan_adopt_control_head st head).
Proof. intros next a Hp. unfold plan_adopt_control_head in Hp. walk Hp; by destruct_units. Qed.

Lemma plan_mark_placement_valid st : plan_valid (plan_mark_placement_initialized st).
Proof. intros next a Hp. unfold plan_mark_placement_initialized in Hp. walk Hp; by destruct_units. Qed.

Lemma plan_cas_manifest_valid st revision digest segments op repair cutover :
  plan_valid (plan_cas_manifest st revision digest segments op repair cutover).
Proof. by intros next m (_ & _ & _ & _ & _ & Hv & _)%plan_cas_manifest_Install. Qed.

(** Validation does not read the idempotency records. *)
Lemma validate_set_operations ops st :
  validate_control_state (set_operations ops st) = validate_control_state st.
Proof. by apply validate_control_state_ext. Qed.

Lemma validate_prune st :
  validate_control_state (prune_operation_records st) = validate_control_state st.
Proof. by apply validate_control_state_ext. Qed.

(** What a membership CAS that installs a document did. *)
Lemma plan_cas_membership_Install st q next snapshot :
  plan_cas_membership st q = Ok (Install next snapshot) →
  ct_metadata_freeze st = None ∧ ct_control_head_revision st = 0
  ∧ ∃ requested revision segments reconciled changed published,
    incoming_routes st requested q = Ok (revision, segments)
    ∧ reconcile_cohorts
        (if ct_manifest_revision st <? revision
         then set_revision revision (manifest_digest segments) (set_segments segments requested)
         else set_segments segments requested) = Ok (reconciled, changed)
    ∧ published = publish_routes st reconciled q revision segments
    ∧ validate_control_state published = Ok tt
    ∧ next = prune_operation_records (set_operations
        (<[mq_operation_id q := membership_json snapshot]> (ct_operations published)) published)
    ∧ ∃ members epoch, requested_document st q members epoch = Ok requested.
Proof.
  unfold plan_cas_membership. intros Hp. walk Hp; bool_facts; destruct_units;
    (split; [done|split; [done|]]); eauto 20.
Qed.

Lemma plan_cas_membership_valid st q : plan_valid (plan_cas_membership st q).
Proof.
  intros next snapshot (_ & _ & ? & ? & ? & ? & ? & ? & _ & _ & _ & Hv & -> & _)%plan_cas_membership_Install.
  by rewrite validate_prune, validate_set_operations.
Qed.

Lemma plan_authority_Install st epoch revision digest cohort next a :
  plan_adopt_authority_fields st epoch revision digest cohort = Ok (Install next a) →
  same_manifest next st ∧ ct_metadata_freeze next = ct_metadata_freeze st
  ∧ ct_control_head_revision next ≠ 0.
Proof.
  unfold plan_adopt_authority_fields. intros Hp. walk Hp; bool_facts. by split_and!.
Qed.

Lemma plan_freeze_Install st member request next a :
  plan_freeze st member request = Ok (Install next a) →
  same_manifest next st ∧ ct_metadata_freeze st = None ∧ ct_metadata_freeze next = Some request.
Proof. unfold plan_freeze. intros Hp. walk Hp. by split_and!. Qed.

Lemma same_manifest_valid st st' :
  same_manifest st st' → validate_control_state st = validate_control_state st'.
Proof. intros [? ? ? ? ? ? ? ? ?]. by apply validate_control_state_ext. Qed.

Lemma reconcile_unchanged before st changed :
  reconcile_cohorts before = Ok (st, changed) → changed = false → before = st.
Proof.
  unfold reconcile_cohorts. intros Hr ->. walk Hr. by bool_facts.
Qed.

Lemma control_open_Ok io file members c :
  control_open io file members = Ok c →
  validate_control_state (dcl_state c) = Ok tt ∧ dcl_cache c = None
  ∧ dcl_disk c = dcl_state c
  ∧ ∃ st changed, first_document file members = Ok st
      ∧ reconcile_cohorts st = Ok (dcl_state c, changed).
Proof.
  unfold control_open, persist_control_state. intros Ho.
  destruct io as [|reason renamed]; walk Ho; destruct_units; cbn;
    (split; [done|split; [done|split; [|by eauto]]]); try done;
    match goal with Hf : first_document (Some _) _ = Ok _ |- _ => injection Hf as -> end;
    by eapply reconcile_unchanged.
Qed.

Lemma control_manifest_inv c r c' :
  control_inv c → control_manifest c = (r, c') →
  control_inv c' ∧ dcl_state c' = dcl_state c ∧ dcl_disk c' = dcl_disk c
  ∧ r = (_ ← validate_manifest_against_state (dcl_state c) (manifest_from_state (dcl_state c));
         Ok (manifest_from_state (dcl_state c))).
Proof.
  intros [Hst Hd Hc] Hm. unfold control_manifest in Hm.
  assert (∀ r c', match validate_manifest_against_state (dcl_state c) (manifest_from_state (dcl_state c)) with
    | Err e => (Err e, c)
    | Ok _ => (Ok (manifest_from_state (dcl_state c)),
               mkControl (dcl_disk c) (dcl_state c) (Some (manifest_from_state (dcl_state c))))
    end = (r, c') → control_inv c' ∧ dcl_state c' = dcl_state c ∧ dcl_disk c' = dcl_disk c
    ∧ r = (_ ← validate_manifest_against_state (dcl_state c) (manifest_from_state (dcl_state c));
           Ok (manifest_from_state (dcl_state c)))) as Hrebuild.
  { intros r' c''. destruct (validate_manifest_against_state _ _) as [[]|e] eqn:Hv; intros [= <- <-].
    - split; [|done]. split; [done|done|]. by intros m [= <-].
    - by split_and!. }
  destruct (dcl_cache c) as [cached|] eqn:Hcache; [|by apply Hrebuild].
  destruct (_ && _); [|by apply Hrebuild]. injection Hm as <- <-.
  destruct (Hc cached Hcache) as [-> Hv]. split_and!; [by split|done|done|]. by rewrite Hv.
Qed.

Lemma execute_state {A} io clear c (plan : result ReplicaError (Plan A)) r c' :
  execute io clear c plan = (r, c') →
  dcl_state c' = dcl_state c
  ∨ ∃ next a, plan = Ok (Install next a) ∧ r = Ok a ∧ dcl_state c' = next ∧ dcl_disk c' = next.
Proof.
  unfold execute, persist_control_state.
  destruct plan as [[a|next a]|e]; [by intros [= <- <-]; left| |by intros [= <- <-]; left].
  destruct io as [|reason renamed]; intros [= <- <-]; [right; by exists next, a|by left].
Qed.

Lemma volume_step_inv c c' : control_inv c → volume_step c c' → control_inv c'.
Proof.
  intros Hinv Hs. pose proof Hinv as [Hst Hd Hc]. destruct Hs as
    [io rev dg segs op cut r c' Hs|io q r c' Hs|io m r c' Hs|io ep rev dg co r c' Hs
    |io mem rq r c' Hs|io r c' Hs|r c' Hs|io c' Hs].
  - eapply execute_inv; [done|apply plan_cas_manifest_valid|exact Hs].
  - eapply execute_inv; [done|apply plan_cas_membership_valid|exact Hs].
  - eapply execute_inv; [done|apply plan_adopt_manifest_valid|exact Hs].
  - eapply execute_keep_inv; [done| | |exact Hs].
    + intros next a (Hsm & _)%plan_authority_Install. by rewrite (same_manifest_valid _ _ Hsm).
    + intros next a (Hsm & _)%plan_authority_Install. split; [by apply manifest_from_state_ext|].
      intros m. by apply validate_against_state_ext.
  - eapply execute_keep_inv; [done| | |exact Hs].
    + intros next a (Hsm & _)%plan_freeze_Install. by rewrite (same_manifest_valid _ _ Hsm).
    + intros next a (Hsm & _)%plan_freeze_Install. split; [by apply manifest_from_state_ext|].
      intros m. by apply validate_against_state_ext.
  - eapply execute_inv; [done|apply plan_mark_placement_valid|exact Hs].
  - by apply control_manifest_inv in Hs as [? _].
  - apply control_open_Ok in Hs as (Hv & Hca & Hdisk & _).
    split; [done|by rewrite Hdisk|by intros m; rewrite Hca].
Qed.

Lemma quorum_step_inv c c' : control_inv c → quorum_step c c' → control_inv c'.
Proof.
  intros Hinv [io rev dg segs op cut r c'' Hs|io m r c'' Hs|io head r c'' Hs|io head r c'' Hs].
  - eapply execute_inv; [done|apply plan_cas_manifest_valid|exact Hs].
  - eapply execute_inv; [done|apply plan_adopt_manifest_valid|exact Hs].
  - unfold adopt_authoritative_head in Hs.
    destruct (ct_metadata_freeze _) as [freeze|]; [destruct (_ || _); [by injection Hs as <- <-|]|];
      (eapply execute_inv; [done|apply plan_adopt_control_head_valid|exact Hs]).
  - eapply execute_inv; [done|apply plan_adopt_control_head_valid|exact Hs].
Qed.

(** C18: every document a volume holds is valid.  From an opened store, whatever
    operations run, with writes that fail before or after the rename and restarts,
    the document in memory and the one on file pass validation, and the manifest a
    read serves is built from the document in memory, cached or not. *)
Theorem control_always_valid io file members c0 c :
  control_open io file members = Ok c0 → rtc control_step c0 c →
  validate_control_state (dcl_state c) = Ok tt ∧ validate_control_state (dcl_disk c) = Ok tt
  ∧ (control_manifest c).1
    = (_ ← validate_manifest_against_state (dcl_state c) (manifest_from_state (dcl_state c));
       Ok (manifest_from_state (dcl_state c))).
Proof.
  intros Ho Hrun. assert (control_inv c) as Hinv.
  { assert (control_inv c0) as Hopen.
    { apply control_open_Ok in Ho as (Hv & Hca & Hdisk & _).
      split; [done|by rewrite Hdisk|by intros m; rewrite Hca]. }
    clear Ho. induction Hrun as [|c1 c2 c3 [Hs|Hs] _ IH]; [done| |].
    - by apply IH, (volume_step_inv c1).
    - by apply IH, (quorum_step_inv c1). }
  split; [apply Hinv|split; [apply Hinv|]].
  destruct (control_manifest c) as [r c'] eqn:Hm.
  by destruct (control_manifest_inv c r c' Hinv Hm) as (_ & _ & _ & ->).
Qed.

(** ** Revisions *)

(** A later document: a higher revision, or the same revision with the same
    digest. *)
Definition revs_le (st st' : DurableControlState) : Prop :=
  ct_manifest_revision st < ct_manifest_revision st'
  ∨ ct_manifest_revision st = ct_manifest_revision st' ∧ ct_manifest_digest st = ct_manifest_digest st'.

#[local] Instance revs_le_preorder : PreOrder revs_le.
Proof. split; [by right|]. unfold revs_le. intros a b c [|[]] [|[]]; (left; lia) || (right; split; congruence). Qed.

Lemma same_manifest_revs st st' : same_manifest st' st → revs_le st st'.
Proof. intros [? ? ? ? ? ? ? ? ?]. by right. Qed.

(** SHA-256 in hexadecimal is 64 characters. *)
Context (sha256_hex_nonempty : ∀ bs, sha256_hex bs ≠ "").

Lemma valid_digest st :
  validate_control_state st = Ok tt →
  (ct_manifest_revision st = 0 → ct_manifest_digest st = "")
  ∧ (ct_manifest_revision st ≠ 0 → ct_manifest_digest st = manifest_digest (ct_stream_segments st)
       ∧ ct_manifest_digest st ≠ "").
Proof.
  unfold validate_control_state. intros Hv. next Hv. next Hv.
  destruct (existsb _ _); [done|]. next Hv.
  destruct (_ && _) eqn:E0 in Hv; [done|]. destruct (_ && _) eqn:E1 in Hv; [done|]. split.
  - intros Hrev. rewrite Hrev in E0. cbn in E0. by bool_facts.
  - intros Hrev. assert ((0 <? ct_manifest_revision st) = true) as Hpos by (apply N.ltb_lt; lia).
    rewrite Hpos in E1. cbn in E1. bool_facts. split; [done|]. rewrite E1. apply sha256_hex_nonempty.
Qed.

Lemma current_digest_valid st :
  validate_control_state st = Ok tt → ct_manifest_revision st ≠ 0 →
  current_digest st = ct_manifest_digest st.
Proof.
  intros Hv Hrev. unfold current_digest. destruct (proj2 (valid_digest st Hv) Hrev) as [_ Hne].
  by rewrite bool_decide_eq_false_2.
Qed.

Lemma seal_migrate_revs st st' :
  seal_manifest (migrate_manifest st) = Ok st' →
  (ct_manifest_revision st = 0 → ct_manifest_digest st = "") →
  (ct_manifest_revision st ≠ 0 → ct_manifest_digest st ≠ "") →
  revs_le st st'.
Proof.
  unfold seal_manifest, migrate_manifest. intros Hs Hzero Hpos.
  destruct (N.eqb_spec (ct_manifest_revision st) 0) as [Hz|Hnz].
  - destruct (bool_decide (ct_stream_segments st = ∅)); cbn [andb negb] in Hs.
    + rewrite Hz in Hs. cbn [negb N.eqb] in Hs. injection Hs as <-. by right.
    + cbn [negb N.eqb ct_manifest_revision set_binding set_revision] in Hs.
      destruct (_ && _); [done|]. injection Hs as <-. left. rewrite Hz. cbn. lia.
  - cbn [andb] in Hs. rewrite (proj2 (N.eqb_neq _ _) Hnz) in Hs. cbn [negb] in Hs.
    specialize (Hpos Hnz). rewrite (bool_decide_eq_false_2 (ct_manifest_digest st = "")) in Hs by done.
    cbn [negb andb] in Hs. case_bool_decide as Hd; [|done]. injection Hs as <-. by right.
Qed.

Lemma group_legacy_revs st :
  ct_manifest_revision (group_legacy_members st) = ct_manifest_revision st
  ∧ ct_manifest_digest (group_legacy_members st) = ct_manifest_digest st.
Proof. unfold group_legacy_members. by case_match. Qed.

(** Reconciling keeps a published revision and its digest. *)
Lemma reconcile_revs before st changed :
  reconcile_cohorts before = Ok (st, changed) →
  (ct_manifest_revision before = 0 → ct_manifest_digest before = "") →
  (ct_manifest_revision before ≠ 0 → ct_manifest_digest before ≠ "") →
  revs_le before st.
Proof.
  unfold reconcile_cohorts. intros Hr. next Hr. next Hr. next Hr. injection Hr as <- _.
  destruct (group_legacy_revs before) as [Hrev Hdig].
  generalize (seal_migrate_revs _ _ Hx1). clear Hx1. unfold revs_le.
  cbn [ct_manifest_revision ct_manifest_digest set_segments fill_policies set_members set_cohorts].
  rewrite Hrev, Hdig. intros Hs Hzero Hpos. by apply Hs.
Qed.

Lemma plan_cas_manifest_revs st revision digest segments op cutover next m :
  plan_cas_manifest st revision digest segments op false cutover = Ok (Install next m) →
  revs_le st next ∧ rm_revision m = revision + 1 ∧ ct_manifest_revision next = revision + 1.
Proof.
  intros (_ & _ & _ & _ & -> & _ & -> & <- & _)%plan_cas_manifest_Install.
  assert (∀ r, rm_revision (published_manifest st r segments op) = r) as Hr.
  { intros r. unfold published_manifest. destruct (manifest_metadata_for_state st segments) as [[? ?] ?].
    by destruct (manifest_policy_for_state st segments _). }
  unfold revs_le. cbn [prune_operation_records set_operations set_manifest_operations with_manifest
    set_segments set_binding set_revision ct_manifest_revision]. rewrite Hr.
  split_and!; [left; lia|done|done].
Qed.

Lemma requested_document_revs st q members epoch requested :
  requested_document st q members epoch = Ok requested →
  ct_manifest_revision requested = ct_manifest_revision st
  ∧ ct_manifest_digest requested = ct_manifest_digest st.
Proof.
  unfold requested_document. destruct (mq_cohorts q), (mq_write_cohort_id q) as [id|];
    try destruct (id =? 0); by intros [= <-].
Qed.

Lemma incoming_routes_revs st next q revision segments :
  incoming_routes st next q = Ok (revision, segments) →
  ct_manifest_revision st ≤ revision.
Proof.
  unfold incoming_routes. intros Hi. walk Hi; bool_facts; try lia.
  apply ok_or_Ok, checked_add_Some in Hx as [-> _]. lia.
Qed.

Lemma plan_cas_membership_revs st q next snapshot :
  validate_control_state st = Ok tt →
  plan_cas_membership st q = Ok (Install next snapshot) → revs_le st next.
Proof.
  intros Hv (_ & _ & requested & revision & segments & reconciled & changed & published & Hi & Hr
    & -> & _ & -> & members & epoch & Hreq)%plan_cas_membership_Install.
  destruct (requested_document_revs _ _ _ _ _ Hreq) as [Hrr Hrd].
  pose proof (incoming_routes_revs _ _ _ _ _ Hi) as Hle.
  assert (∀ r, rm_revision (published_manifest reconciled r segments (mq_operation_id q)) = r) as Hpr.
  { intros r. unfold published_manifest.
    destruct (manifest_metadata_for_state reconciled segments) as [[? ?] ?].
    by destruct (manifest_policy_for_state reconciled segments _). }
  destruct (valid_digest st Hv) as [Hzero Hpos].
  unfold revs_le. cbn [prune_operation_records set_operations set_manifest_operations
    ct_manifest_revision ct_manifest_digest]. unfold publish_routes.
  destruct (N.ltb_spec (ct_manifest_revision st) revision) as [Hlt|Hge].
  - left. cbn [with_manifest set_manifest_operations set_segments set_binding set_revision
      ct_manifest_revision]. by rewrite Hpr.
  - apply reconcile_revs in Hr; cbn [set_segments ct_manifest_revision ct_manifest_digest] in *.
    + unfold revs_le in Hr. cbn [set_segments ct_manifest_revision ct_manifest_digest] in Hr.
      rewrite Hrr, Hrd in Hr. by destruct (mq_write_cohort_id q).
    + by rewrite Hrr, Hrd.
    + rewrite Hrr, Hrd. intros Hne. by apply Hpos.
Qed.

Lemma plan_adopt_manifest_revs st m next a :
  validate_control_state st = Ok tt →
  plan_adopt_manifest st m false = Ok (Install next a) → revs_le st next.
Proof.
  intros Hv Hp. pose proof (plan_adopt_manifest_valid _ _ _ _ _ Hp) as Hnv.
  unfold plan_adopt_manifest in Hp. next Hp. destruct (negb _); [done|].
  destruct (N.ltb_spec (rm_revision m) (ct_manifest_revision st)); [done|]. cbv zeta in Hp.
  destruct (_ && _) eqn:Hsame in Hp; [done|]. next Hp. next Hp. next Hp.
  destruct (manifest_metadata_for_state _ _) as [[? ?] ?]. next Hp. injection Hp as <- _.
  destruct (valid_digest _ Hnv) as [Hnz _]. unfold revs_le.
  cbn [set_write_cohort set_revision set_binding set_segments set_manifest_operations
    prune_operation_records set_operations ct_manifest_revision ct_manifest_digest] in *.
  destruct (N.eq_dec (rm_revision m) (ct_manifest_revision st)) as [Heq|Hne]; [right|left; lia].
  split; [done|]. destruct (valid_digest st Hv) as [Hzero _].
  destruct (N.eq_dec (ct_manifest_revision st) 0) as [Hz|Hrev].
  - by rewrite Hzero, Hnz by congruence.
  - rewrite (proj2 (N.eqb_eq _ _) Heq), andb_true_r in Hsame. cbn [andb] in Hsame. bool_facts.
    by rewrite <- Hsame, current_digest_valid.
Qed.

(** The file is never behind the document in memory. *)
Definition disk_ahead (c : DurableControl) : Prop := revs_le (dcl_state c) (dcl_disk c).

Lemma execute_revs {A} io clear c (plan : result ReplicaError (Plan A)) r c' :
  disk_ahead c → (∀ next a, plan = Ok (Install next a) → revs_le (dcl_state c) next) →
  execute io clear c plan = (r, c') → revs_le (dcl_state c) (dcl_state c') ∧ disk_ahead c'.
Proof.
  intros Hd Hp. unfold execute, persist_control_state, disk_ahead in *.
  destruct plan as [[a|next a]|e]; [by intros [= <- <-]| |by intros [= <- <-]].
  specialize (Hp next a eq_refl). destruct io as [|reason [|]]; intros [= <- <-]; by cbn.
Qed.

Lemma volume_step_revs c c' :
  control_inv c → disk_ahead c → volume_step c c' →
  revs_le (dcl_state c) (dcl_state c') ∧ disk_ahead c'.
Proof.
  intros Hinv Hd Hs. pose proof Hinv as [Hst Hdv _]. destruct Hs as
    [io rev dg segs op cut r c' Hs|io q r c' Hs|io m r c' Hs|io ep rev dg co r c' Hs
    |io mem rq r c' Hs|io r c' Hs|r c' Hs|io c' Hs].
  - eapply execute_revs; [done| |exact Hs]. by intros next a [? _]%plan_cas_manifest_revs.
  - eapply execute_revs; [done| |exact Hs]. intros next a. by apply plan_cas_membership_revs.
  - eapply execute_revs; [done| |exact Hs]. intros next a. by apply plan_adopt_manifest_revs.
  - eapply execute_revs; [done| |exact Hs].
    by intros next a (?%same_manifest_revs & _)%plan_authority_Install.
  - eapply execute_revs; [done| |exact Hs].
    by intros next a (?%same_manifest_revs & _)%plan_freeze_Install.
  - eapply execute_revs; [done| |exact Hs]. intros next a Hp.
    unfold plan_mark_placement_initialized in Hp. walk Hp. by right.
  - apply control_manifest_inv in Hs as (_ & Hs & Hd' & _); [|done].
    unfold disk_ahead. rewrite Hs, Hd'. done.
  - apply control_open_Ok in Hs as (_ & _ & Hdisk & st & changed & [= <-] & Hr).
    apply reconcile_revs in Hr; [|by apply valid_digest|by intros ?; apply valid_digest].
    unfold disk_ahead. rewrite Hdisk. split; [|done]. by etrans.
Qed.

(** C21: a revision names one value.  Along every run of a volume's own operations,
    with writes that fail before or after the rename and restarts from the file, the
    manifest revision never goes back, and two documents with the same revision have
    the same manifest digest. *)
Theorem revision_names_one_value io file members c0 c1 c2 :
  control_open io file members = Ok c0 → rtc volume_step c0 c1 → rtc volume_step c1 c2 →
  ct_manifest_revision (dcl_state c1) ≤ ct_manifest_revision (dcl_state c2)
  ∧ (ct_manifest_revision (dcl_state c1) = ct_manifest_revision (dcl_state c2) →
     ct_manifest_digest (dcl_state c1) = ct_manifest_digest (dcl_state c2)).
Proof.
  intros Ho Hrun Hrun'.
  assert (∀ a b, rtc volume_step a b → control_inv a → disk_ahead a →
    revs_le (dcl_state a) (dcl_state b) ∧ control_inv b ∧ disk_ahead b) as Hgen.
  { intros a b. induction 1 as [|x y z Hs _ IH]; intros Hinv Hd; [done|].
    destruct (volume_step_revs x y Hinv Hd Hs) as [Hle Hd'].
    destruct (IH (volume_step_inv x y Hinv Hs) Hd') as (Hle' & ? & ?). split; [by etrans|done]. }
  apply control_open_Ok in Ho as (Hv & Hca & Hdisk & _).
  assert (control_inv c0) as Hinv by (split; [done|by rewrite Hdisk|by intros m; rewrite Hca]).
  assert (disk_ahead c0) as Hd by (unfold disk_ahead; by rewrite Hdisk).
  destruct (Hgen c0 c1 Hrun Hinv Hd) as (_ & Hinv1 & Hd1).
  destruct (Hgen c1 c2 Hrun' Hinv1 Hd1) as ([Hlt|[Heq Hdig]] & _ & _); split; (lia || done).
Qed.

End Runs.

(** ** Freezing and retries *)

Section Fence.
Context `{ManifestHost} `{ControlJson} `{MetadataJson}.

(** The document is closed to the volume's CAS. *)
Definition frozen_by (request : MetadataFreeze) (c : DurableControl) : Prop :=
  ct_metadata_freeze (dcl_state c) = Some request ∧ ct_metadata_freeze (dcl_disk c) = Some request.

Definition keeps_freeze {A} (st : DurableControlState) (plan : result ReplicaError (Plan A)) : Prop :=
  ∀ next a, plan = Ok (Install next a) → ct_metadata_freeze next = ct_metadata_freeze st.

Lemma execute_freeze {A} io clear c (plan : result ReplicaError (Plan A)) r c' request :
  frozen_by request c → keeps_freeze (dcl_state c) plan →
  execute io clear c plan = (r, c') → frozen_by request c'.
Proof.
  intros [Hs Hd] Hk. unfold execute, persist_control_state, frozen_by.
  destruct plan as [[a|next a]|e]; [by intros [= <- <-]| |by intros [= <- <-]].
  specialize (Hk next a eq_refl). rewrite <- Hk in Hs.
  destruct io as [|reason [|]]; intros [= <- <-]; cbn; rewrite ?Hs, ?Hd; split; congruence.
Qed.

Lemma seal_migrate_freeze st st' :
  seal_manifest (migrate_manifest st) = Ok st' → ct_metadata_freeze st' = ct_metadata_freeze st.
Proof.
  assert (ct_metadata_freeze (migrate_manifest st) = ct_metadata_freeze st) as <-.
  { unfold migrate_manifest. by destruct (_ && _). }
  generalize (migrate_manifest st) as x. intros x. unfold seal_manifest.
  destruct (negb _); [|by intros [= <-]]. destruct (_ && _); [done|]. by intros [= <-].
Qed.

Lemma reconcile_freeze before st changed :
  reconcile_cohorts before = Ok (st, changed) → ct_metadata_freeze st = ct_metadata_freeze before.
Proof.
  unfold reconcile_cohorts. intros Hr. next Hr. next Hr. next Hr. injection Hr as <- _.
  assert (ct_metadata_freeze (group_legacy_members before) = ct_metadata_freeze before) as Hg
    by (unfold group_legacy_members; by case_match).
  rewrite (seal_migrate_freeze _ _ Hx1).
  cbn [ct_metadata_freeze set_segments fill_policies set_members set_cohorts]. exact Hg.
Qed.

Lemma plan_cas_manifest_freeze st revision digest segments op repair cutover :
  keeps_freeze st (plan_cas_manifest st revision digest segments op repair cutover).
Proof. by intros next m (_ & _ & _ & _ & -> & _)%plan_cas_manifest_Install. Qed.

Lemma plan_cas_membership_freeze st q : keeps_freeze st (plan_cas_membership st q).
Proof.
  intros next snapshot (_ & _ & requested & revision & segments & reconciled & changed & published & Hi
    & Hr & -> & _ & -> & members & epoch & Hreq)%plan_cas_membership_Install.
  apply reconcile_freeze in Hr.
  assert (ct_metadata_freeze requested = ct_metadata_freeze st) as Hq.
  { unfold requested_document in Hreq. destruct (mq_cohorts q), (mq_write_cohort_id q) as [id|];
      try destruct (id =? 0); by simplify_eq/=. }
  assert (ct_metadata_freeze reconciled = ct_metadata_freeze st) as Hrec.
  { etrans; [exact Hr|]. destruct (_ <? _); exact Hq. }
  unfold publish_routes. destruct (_ <? _); [exact Hrec|].
  destruct (mq_write_cohort_id q); exact Hrec.
Qed.

Lemma plan_adopt_manifest_freeze st m force : keeps_freeze st (plan_adopt_manifest st m force).
Proof.
  intros next a Hp. unfold plan_adopt_manifest in Hp. walk Hp; destruct_units; done.
Qed.

Lemma plan_adopt_control_head_freeze st head : keeps_freeze st (plan_adopt_control_head st head).
Proof. intros next a Hp. unfold plan_adopt_control_head in Hp. walk Hp; destruct_units; done. Qed.

(** What is frozen in memory is frozen on file. *)
Definition freeze_durable (c : DurableControl) : Prop :=
  ∀ request, ct_metadata_freeze (dcl_state c) = Some request → frozen_by request c.

Lemma execute_freeze_durable {A} io clear c (plan : result ReplicaError (Plan A)) r c' :
  freeze_durable c →
  (∀ next a, plan = Ok (Install next a) → ct_metadata_freeze next = ct_metadata_freeze (dcl_state c)
     ∨ ct_metadata_freeze (dcl_state c) = None) →
  execute io clear c plan = (r, c') →
  freeze_durable c' ∧ ∀ request, frozen_by request c → frozen_by request c'.
Proof.
  intros Hd Hk. unfold execute, persist_control_state.
  destruct plan as [[a|next a]|e]; [by intros [= <- <-]| |by intros [= <- <-]].
  specialize (Hk next a eq_refl). unfold freeze_durable, frozen_by in *.
  destruct io as [|reason [|]]; intros [= <- <-]; cbn; naive_solver congruence.
Qed.

Lemma control_step_freeze c c' :
  control_inv c → freeze_durable c → control_step c c' →
  freeze_durable c' ∧ ∀ request, frozen_by request c → frozen_by request c'.
Proof.
  intros Hinv Hd [Hs|Hs].
  - destruct Hs as [io rev dg segs op cut r c' Hs|io q r c' Hs|io m r c' Hs|io ep rev dg co r c' Hs
      |io mem rq r c' Hs|io r c' Hs|r c' Hs|io c' Hs].
    + eapply execute_freeze_durable; [done| |exact Hs]. left. by eapply plan_cas_manifest_freeze.
    + eapply execute_freeze_durable; [done| |exact Hs]. left. by eapply plan_cas_membership_freeze.
    + eapply execute_freeze_durable; [done| |exact Hs]. left. by eapply plan_adopt_manifest_freeze.
    + eapply execute_freeze_durable; [done| |exact Hs]. left. by eapply plan_authority_Install.
    + eapply execute_freeze_durable; [done| |exact Hs]. right. by eapply plan_freeze_Install.
    + eapply execute_freeze_durable; [done| |exact Hs]. intros next a Hp. left.
      unfold plan_mark_placement_initialized in Hp. by walk Hp.
    + apply control_manifest_inv in Hs as (_ & Hst & Hdk & _); [|done].
      unfold freeze_durable, frozen_by in *. by rewrite Hst, Hdk.
    + apply control_open_Ok in Hs as (_ & _ & Hdisk & st & changed & [= <-] & Hr%reconcile_freeze).
      unfold freeze_durable, frozen_by in *. rewrite Hdisk, Hr. naive_solver.
  - destruct Hs as [io rev dg segs op cut r c'' Hs|io m r c'' Hs|io head r c'' Hs|io head r c'' Hs].
    + eapply execute_freeze_durable; [done| |exact Hs]. left. by eapply plan_cas_manifest_freeze.
    + eapply execute_freeze_durable; [done| |exact Hs]. left. by eapply plan_adopt_manifest_freeze.
    + unfold adopt_authoritative_head in Hs.
      destruct (ct_metadata_freeze _) as [freeze|]; [destruct (_ || _); [by injection Hs as <- <-|]|];
        (eapply execute_freeze_durable; [done| |exact Hs]; left; by eapply plan_adopt_control_head_freeze).
    + eapply execute_freeze_durable; [done| |exact Hs]. left. by eapply plan_adopt_control_head_freeze.
Qed.

(** a frozen volume is closed to the volume CAS.  Once a freeze is acknowledged,
    whatever happens afterwards, restarts and failed writes included, the freeze
    stays in memory and on file; a manifest CAS only answers with the recorded result
    of an earlier operation, and neither it nor a membership CAS changes the store. *)
Theorem frozen_volume_refuses_cas io file members c0 c io' member request ack c1 c2 :
  control_open io file members = Ok c0 → rtc control_step c0 c →
  freeze_metadata_authority io' c member request = (Ok ack, c1) → rtc control_step c1 c2 →
  frozen_by request c2
  ∧ (∀ io revision digest segments op repair cutover r c3,
       cas_manifest_with_cutover io c2 revision digest segments op repair cutover = (r, c3) →
       c3 = c2 ∧ ∀ m, r = Ok m → ∃ previous,
         ct_manifest_operations (dcl_state c2) !! op = Some previous
         ∧ manifest_of_json previous = Ok m)
  ∧ (∀ io q r c3, cas_membership_document_with_options io c2 q = (r, c3) → c3 = c2).
Proof.
  intros Ho Hrun Hf Hrun'.
  assert (∀ a b, rtc control_step a b → control_inv a → freeze_durable a →
    control_inv b ∧ freeze_durable b ∧ ∀ request, frozen_by request a → frozen_by request b) as Hgen.
  { intros a b. induction 1 as [|x y z Hs _ IH]; intros Hinv Hd; [done|].
    destruct (control_step_freeze x y Hinv Hd Hs) as [Hd' Hk].
    assert (control_inv y) as Hinv' by (destruct Hs; [by eapply volume_step_inv|by eapply quorum_step_inv]).
    destruct (IH Hinv' Hd') as (? & ? & ?). eauto. }
  apply control_open_Ok in Ho as (Hv & Hca & Hdisk & _).
  assert (control_inv c0) as Hinv by (split; [done|by rewrite Hdisk|by intros m; rewrite Hca]).
  assert (freeze_durable c0) as Hd by (intros rq; unfold frozen_by; by rewrite Hdisk).
  destruct (Hgen c0 c Hrun Hinv Hd) as (Hinvc & Hdc & _).
  assert (frozen_by request c1 ∧ control_inv c1 ∧ freeze_durable c1) as (Hfr & Hinv1 & Hd1).
  { assert (volume_step c c1) as Hstep by by econstructor.
    pose proof (volume_step_inv _ _ Hinvc Hstep).
    destruct (control_step_freeze c c1 Hinvc Hdc (or_introl Hstep)) as [Hd1 _].
    split; [|done]. apply Hd1. apply execute_state in Hf as Hst.
    destruct Hst as [Hst|(next & a & Hp & _ & -> & _)]; [|by eapply plan_freeze_Install].
    rewrite Hst. unfold freeze_metadata_authority, execute in Hf.
    destruct (plan_freeze _ _ _) as [[a|next a]|e] eqn:Hp; [| |done].
    - unfold plan_freeze in Hp. walk Hp; bool_facts; congruence.
    - unfold persist_control_state in Hf. destruct io'; [|done]. injection Hf as _ <-.
      apply plan_freeze_Install in Hp as (_ & _ & Hp). by cbn in Hst; rewrite <- Hst. }
  destruct (Hgen c1 c2 Hrun' Hinv1 Hd1) as (_ & _ & Hk). specialize (Hk request Hfr).
  pose proof Hk as [Hst _]. split_and!; [done| |].
  - intros io2 rev dg segs op rep cut r c3 Hcas. unfold cas_manifest_with_cutover, execute in Hcas.
    destruct (plan_cas_manifest _ _ _ _ _ _ _) as [[a|next a]|e] eqn:Hp.
    + injection Hcas as <- <-. split; [done|]. intros m [= <-].
      unfold plan_cas_manifest in Hp. destruct (blank op); [done|].
      destruct (ct_manifest_operations _ !! op) as [previous|].
      * next Hp. apply map_err_Ok in Hx. simplify_eq. eauto.
      * rewrite Hst in Hp. done.
    + apply plan_cas_manifest_Install in Hp as (_ & _ & Hno & _). congruence.
    + injection Hcas as <- <-. by split.
  - intros io2 q r c3 Hcas. unfold cas_membership_document_with_options, execute in Hcas.
    destruct (plan_cas_membership _ _) as [[a|next a]|e] eqn:Hp; [by injection Hcas as <- <-| |by injection Hcas as <- <-].
    apply plan_cas_membership_Install in Hp as (Hno & _). congruence.
Qed.

End Fence.

(** ** Retries and reads *)

(** The record of the current operation survives pruning. *)
Lemma prune_keeps map keep rank : prune map keep rank !! keep = map !! keep.
Proof.
  unfold prune. destruct (size map <=? _)%nat; [done|]. cbv zeta.
  match goal with |- foldl _ _ ?l !! _ = _ => generalize l as ids end.
  intros ids. revert map. induction ids as [|id ids IH]; intros map; cbn; [done|].
  rewrite IH. case_bool_decide; [done|]. by rewrite lookup_delete_ne.
Qed.

Section Reads.
Context `{ManifestHost} `{ControlJsonLaws} `{MetadataJson}.

Lemma published_operation st revision segments op :
  rm_operation_id (published_manifest st revision segments op) = op.
Proof.
  unfold published_manifest. destruct (manifest_metadata_for_state st segments) as [[? ?] ?].
  by destruct (manifest_policy_for_state st segments _).
Qed.

Lemma cas_manifest_Ok io c revision digest segments op cutover m c' :
  cas_manifest_with_cutover io c revision digest segments op false cutover = (Ok m, c') →
  (∃ previous, ct_manifest_operations (dcl_state c) !! op = Some previous
     ∧ manifest_of_json previous = Ok m ∧ c' = c ∧ blank op = false)
  ∨ ∃ next, plan_cas_manifest (dcl_state c) revision digest segments op false cutover = Ok (Install next m)
     ∧ c' = mkControl next next None.
Proof.
  unfold cas_manifest_with_cutover, execute, persist_control_state.
  destruct (plan_cas_manifest _ _ _ _ _ _ _) as [[a|next a]|e] eqn:Hp; [| |done].
  - intros [= -> ->]. left. unfold plan_cas_manifest in Hp. walk Hp.
    + apply map_err_Ok in Hx. eauto.
    + by apply publish_Ok in Hp as [? _].
  - destruct io; [|done]. intros [= -> <-]. right. eauto.
Qed.

(** a retry is idempotent.  After a manifest CAS that was acknowledged, a call with
    the same operation id, whatever its other arguments and its write, returns the
    same manifest and changes nothing. *)
Theorem cas_retry_is_idempotent io c revision digest segments op cutover m c'
    io' revision' digest' segments' repair' cutover' :
  cas_manifest_with_cutover io c revision digest segments op false cutover = (Ok m, c') →
  cas_manifest_with_cutover io' c' revision' digest' segments' op repair' cutover' = (Ok m, c').
Proof.
  assert (∀ c previous, blank op = false → ct_manifest_operations (dcl_state c) !! op = Some previous →
    manifest_of_json previous = Ok m →
    cas_manifest_with_cutover io' c revision' digest' segments' op repair' cutover' = (Ok m, c)) as Hreply.
  { intros d previous Hb Hop Hm. unfold cas_manifest_with_cutover, plan_cas_manifest.
    by rewrite Hb, Hop, Hm. }
  intros [(previous & Hop & Hm & -> & Hb)|(next & Hp & ->)]%cas_manifest_Ok; [by eapply Hreply|].
  apply plan_cas_manifest_Install in Hp as (Hb & _ & _ & _ & -> & _ & -> & _).
  eapply (Hreply _ (manifest_json (published_manifest (dcl_state c) (revision + 1) segments op)));
    [done| |apply manifest_json_back].
  cbn [dcl_state prune_operation_records set_operations set_manifest_operations with_manifest
    ct_manifest_operations ct_manifest_operation_id set_segments set_binding set_revision].
  rewrite published_operation, prune_keeps. apply lookup_insert_eq.
Qed.

Lemma published_fields st revision segments op epoch cohort hash :
  manifest_metadata_for_state st segments = (epoch, cohort, hash) →
  published_manifest st revision segments op =
  mkManifest MANIFEST_VERSION revision (manifest_digest segments) epoch cohort hash
    (ct_write_cohort_id st) segments op
    (manifest_policy_for_state st segments cohort).1 (manifest_policy_for_state st segments cohort).2.
Proof.
  intros Hm. unfold published_manifest. rewrite Hm.
  by destruct (manifest_policy_for_state st segments cohort).
Qed.

(** Publishing what the metadata says does not change what it says. *)
Lemma metadata_stable st next segments epoch cohort hash :
  same_routing next st → ct_write_cohort_id next = ct_write_cohort_id st →
  manifest_metadata_for_state st segments = (epoch, cohort, hash) →
  ct_manifest_writer_epoch next = epoch → ct_manifest_cohort_id next = cohort →
  ct_manifest_member_hash next = hash →
  manifest_metadata_for_state next segments = (epoch, cohort, hash)
  ∧ (if negb (ct_write_cohort_id st =? 0) then ct_write_cohort_id st else cohort) = cohort
  ∧ (hash = "" → default "" (cohort_member_hash st cohort) = "").
Proof.
  intros Hr Hw Hm He Hc Hh. unfold manifest_metadata_for_state in *.
  rewrite (sr_cohorts _ _ Hr), Hw, He, Hc, Hh, (cohort_member_hash_ext next st _ Hr).
  destruct (latest_manifest_binding segments) as [[e c] h].
  destruct (ct_write_cohort_id st =? 0); cbn [negb] in *.
  - destruct (bool_decide (h = "")) eqn:Eh; cbn [negb] in *.
    + rewrite (cohort_member_hash_ext next st _ Hr). clear He Hc Hh Eh. injection Hm as <- <- <-.
      rewrite N.max_l by lia.
      destruct (max_by _ _) as [newest|]; case_bool_decide as Hemp; split_and!; try done;
        by rewrite Hemp.
    + clear He Hc Hh. injection Hm as <- <- <-. rewrite N.max_l by lia. bool_facts. by split_and!.
  - clear He Hc Hh. injection Hm as <- <- <-. rewrite N.max_l by lia. by split_and!.
Qed.

(** The document that publishes a manifest stands for it. *)
Lemma published_document st revision segments op :
  revision ≠ 0 → validate_manifest_segments st segments revision = Ok tt →
  let m := published_manifest st revision segments op in
  let next := prune_operation_records (with_manifest st m) in
  manifest_from_state next = m
  ∧ validate_manifest_against_state next m = validate_manifest m.
Proof.
  intros Hrev Hsegs m next.
  destruct (manifest_metadata_for_state st segments) as [[epoch cohort] hash] eqn:Hmeta.
  pose proof (published_fields st revision segments op _ _ _ Hmeta) as Hm. fold m in Hm.
  assert (same_routing next st) as Hr by done.
  destruct (metadata_stable st next segments epoch cohort hash Hr eq_refl Hmeta) as (Hstable & Hc & Hh);
    [by unfold next; rewrite Hm..|].
  assert (manifest_from_state next = m) as Hfrom.
  { unfold manifest_from_state. rewrite (manifest_policy_ext next st _ _ Hr), (cohort_member_hash_ext next st _ Hr).
    unfold next. rewrite Hm.
    cbn [prune_operation_records set_operations set_manifest_operations with_manifest set_segments
      set_binding set_revision ct_manifest_revision ct_manifest_digest ct_manifest_operation_id
      ct_manifest_writer_epoch ct_manifest_cohort_id ct_manifest_member_hash ct_write_cohort_id
      ct_stream_segments rm_revision rm_digest rm_writer_epoch rm_cohort_id rm_member_set_hash
      rm_operation_id rm_stream_segments].
    rewrite Hc, (proj2 (N.eqb_neq _ _) Hrev). f_equal.
    - by case_bool_decide.
    - case_bool_decide as He; [|done]. by rewrite He, Hh. }
  split; [done|]. unfold validate_manifest_against_state.
  rewrite (validate_manifest_segments_ext next st _ _ Hr), (manifest_policy_ext next st _ _ Hr).
  change (ct_stream_segments next) with (rm_stream_segments m).
  change (ct_manifest_revision next) with (rm_revision m).
  change (ct_write_cohort_id next) with (ct_write_cohort_id st).
  rewrite Hm. cbn [rm_revision rm_digest rm_writer_epoch rm_cohort_id rm_member_set_hash
    rm_write_cohort_id rm_stream_segments rm_tier rm_max_append_bytes].
  destruct (validate_manifest _) as [[]|e]; cbn; [|done].
  rewrite Hstable, !N.eqb_refl, !bool_decide_eq_true_2, andb_false_r by done. cbn.
  rewrite (proj2 (N.eqb_neq _ _) Hrev).
  destruct (manifest_policy_for_state st segments cohort) as [tier limit]. cbn.
  by rewrite !N.eqb_refl, !bool_decide_eq_true_2 by done.
Qed.

(** a read after a CAS returns what the CAS acknowledged.  After a manifest CAS
    published [m] at the next revision, reading the manifest gives [m] if [m] passes
    its own validation, and that error otherwise. *)
Theorem read_after_cas io c revision digest segments op cutover m c' :
  ct_manifest_operations (dcl_state c) !! op = None →
  cas_manifest_with_cutover io c revision digest segments op false cutover = (Ok m, c') →
  rm_revision m = revision + 1 ∧ rm_stream_segments m = segments ∧ rm_operation_id m = op
  ∧ (control_manifest c').1 = (_ ← validate_manifest m; Ok m).
Proof.
  intros Hnew [(previous & Hop & _)|(next & Hp & ->)]%cas_manifest_Ok; [congruence|].
  apply plan_cas_manifest_Install in Hp as (_ & _ & _ & _ & -> & _ & -> & _ & Hsegs & _).
  destruct (published_document (dcl_state c) (revision + 1) segments op) as [Hfrom Hval]; [lia|done|].
  destruct (manifest_metadata_for_state (dcl_state c) segments) as [[epoch cohort] hash] eqn:Hmeta.
  pose proof (published_fields (dcl_state c) (revision + 1) segments op _ _ _ Hmeta) as Hm.
  split_and!; [by rewrite Hm|by rewrite Hm|by rewrite Hm|].
  unfold control_manifest. cbn [dcl_cache dcl_state]. rewrite Hfrom, Hval.
  by destruct (validate_manifest _).
Qed.

End Reads.
