(* ===== verification/ControlToy.v ===== *)
(** * ControlToy: a control volume at work

    A codec for the idempotency records, and concrete stores on which the theorems of
    the control store apply: a bootstrap, a first route, its cutover, a gapped
    cutover, and a freeze. *)

From S2P Require Import Prelude Text Wire Client Placement Manifest Cohorts NodeLog NodeReplay NodeOps NodeSafety NodeContract NodeToy ControlDoc Control ControlSafety.

(** ** A codec *)

#[global] Instance status_countable : Countable MemberStatus :=
  inj_countable' (λ s, match s with MJoining => 0 | MActive => 1 | MDraining => 2 | MRemoved => 3 end)
    (λ n, match n with 0 => MJoining | 1 => MActive | 2 => MDraining | _ => MRemoved end)
    ltac:(by intros []).

#[global] Instance cohort_status_countable : Countable CohortStatus :=
  inj_countable' (λ s, match s with CJoining => 0 | CActive => 1 | CDraining => 2 | CRetired => 3 end)
    (λ n, match n with 0 => CJoining | 1 => CActive | 2 => CDraining | _ => CRetired end)
    ltac:(by intros []).

#[global] Instance segment_countable : Countable StreamSegment :=
  inj_countable'
    (λ s, (sg_start_lsn s, sg_end_lsn s, sg_cohort_id s, sg_member_ids s, sg_member_hash s,
           sg_writer_epoch s, sg_manifest_revision s, sg_placement_epoch s, sg_operation_id s,
           sg_tier s, sg_max_append_bytes s))
    (λ '(a, b, c, d, e, f, g, h, i, j, k), mkSegment a b c d e f g h i j k)
    ltac:(by intros []).

#[global] Instance manifest_countable : Countable ReplicaManifest :=
  inj_countable'
    (λ m, (rm_version m, rm_revision m, rm_digest m, rm_writer_epoch m, rm_cohort_id m,
           rm_member_set_hash m, rm_write_cohort_id m, rm_stream_segments m, rm_operation_id m,
           rm_tier m, rm_max_append_bytes m))
    (λ '(a, b, c, d, e, f, g, h, i, j, k), mkManifest a b c d e f g h i j k)
    ltac:(by intros []).

#[global] Instance member_countable : Countable DurableMember :=
  inj_countable'
    (λ m, (dm_id m, dm_url m, dm_status m, dm_cohort_id m, dm_name m, dm_machine_id m,
           dm_volume_id m, dm_ordinal m, dm_tier m, dm_max_append_bytes m))
    (λ '(a, b, c, d, e, f, g, h, i, j), mkMember a b c d e f g h i j)
    ltac:(by intros []).

#[global] Instance cohort_countable : Countable DurableCohort :=
  inj_countable'
    (λ c, (dc_id c, dc_members c, dc_status c, dc_tier c, dc_max_append_bytes c))
    (λ '(a, b, c, d, e), mkCohort a b c d e)
    ltac:(by intros []).

#[global] Instance source_countable : Countable ControlSourceMarker :=
  inj_countable' (λ s, (cs_authority s, cs_authority_epoch s, cs_revision s, cs_digest s))
    (λ '(a, b, c, d), mkSource a b c d) ltac:(by intros []).

#[local] Instance freeze_countable : Countable MetadataFreeze :=
  inj_countable' (λ f, (mf_operation_id f, mf_source f, mf_target_authority_epoch f, mf_control_cohort_id f))
    (λ '(a, b, c, d), mkFreeze a b c d) ltac:(by intros []).

#[local] Instance membership_eq_dec : EqDecision MembershipSnapshot.
Proof. solve_decision. Defined.

#[local] Instance membership_countable : Countable MembershipSnapshot :=
  inj_countable'
    (λ s, (ms_membership_epoch s, ms_manifest_revision s, ms_manifest_digest s, ms_write_cohort_id s,
           ms_control_authority_epoch s, ms_control_head_revision s, ms_control_head_digest s,
           ms_control_authority_cohort_id s, ms_metadata_freeze s, ms_manifest s, ms_members s,
           ms_cohorts s, ms_stream_segments s))
    (λ '(a, b, c, d, e, f, g, h, i, j, k, l, m), mkMembership a b c d e f g h i j k l m)
    ltac:(by intros []).

(** Every countable type has a text codec; its inner workings do not matter. *)
Record Codec (A : Type) := mkCodec {
  cd_write : A → string;
  cd_read : string → result string A;
  cd_back a : cd_read (cd_write a) = Ok a;
}.
Arguments cd_write {A} _ _.
Arguments cd_read {A} _ _.
Arguments cd_back {A} _ _.

Lemma codec (A : Type) `{Countable A} : Codec A.
Proof.
  refine (mkCodec A (λ a, String.string_of_list_byte (spell (encode a)))
    (λ s, ok_or (decode (unspell (String.list_byte_of_string s))) "invalid") _).
  intros a. rewrite String.list_byte_of_string_of_list_byte, unspell_spell, decode_encode. done.
Qed.

#[local] Instance toy_control_json : ControlJson := {|
  manifest_json := cd_write (codec ReplicaManifest);
  manifest_of_json := cd_read (codec ReplicaManifest);
  membership_json := cd_write (codec MembershipSnapshot);
  membership_of_json := cd_read (codec MembershipSnapshot);
  json_revision s := match cd_read (codec ReplicaManifest) s with Ok m => rm_revision m | Err _ => 0 end;
  json_membership_epoch s :=
    match cd_read (codec MembershipSnapshot) s with Ok m => ms_membership_epoch m | Err _ => 0 end;
|}.

#[local] Instance toy_control_laws : ControlJsonLaws.
Proof.
  split; [apply cd_back|apply cd_back|]. intros m. cbn. by rewrite cd_back.
Qed.

(** A digest that counts the ranges. *)
#[local] Instance toy_control_host : ManifestHost := {|
  sha256_hex bs := "h" +:+ String.string_of_list_byte bs;
  segments_json segments := replicate (length (concat (map_to_list segments).*2)) x61;
  url_parse _ := Some ("http", true);
|}.

#[local] Instance toy_metadata_json : MetadataJson := {| metadata_to_vec _ := [x6d] |}.

Lemma toy_digest_nonempty bs : @sha256_hex toy_control_host bs ≠ "".
Proof. done. Qed.

(** ** A volume *)

Definition k_nodes : list ReplicaNode :=
  [mkNode "a" "http://a"; mkNode "b" "http://b"; mkNode "c" "http://c"].

Definition k_open : result ReplicaError DurableControl := control_open PersistDone None k_nodes.

Definition k_control : DurableControl :=
  match k_open with Ok c => c | Err _ => mkControl default_control_state default_control_state None end.

Lemma k_open_ok : control_open PersistDone None k_nodes = Ok k_control.
Proof. by vm_compute. Qed.

Definition k_segment (start_lsn : N) (end_lsn : option N) (revision : N) : StreamSegment :=
  mkSegment start_lsn end_lsn 0 w_ids
    (default "" (cohort_member_hash (dcl_state k_control) 0)) 1 revision 1 "op" "" 0.

Definition k_first : segment_map := {["s" := [k_segment 1 None 1]]}.
Definition k_cutover : segment_map := {["s" := [k_segment 1 (Some 5) 1; k_segment 6 None 2]]}.
Definition k_gapped : segment_map := {["s" := [k_segment 1 (Some 5) 1; k_segment 9 None 2]]}.

Definition k_cas1 := cas_manifest_with_cutover PersistDone k_control 0 "" k_first "op1" false None.
Definition k_one : DurableControl := k_cas1.2.

(** A marker is written, but its acknowledgement is lost; the process restarts and
    publishes the first route. *)
Definition k_mark := mark_placement_initialized (PersistFailed "sync" true) k_control.
Definition k_unsure : DurableControl := k_mark.2.
Definition k_reopened : DurableControl :=
  match control_open PersistDone (Some (dcl_disk k_unsure)) [] with Ok c => c | Err _ => k_unsure end.
Definition k_cas2 := cas_manifest_with_cutover PersistDone k_reopened 0 "" k_first "op1" false None.
Definition k_moved : DurableControl := k_cas2.2.

Lemma k_step1 : volume_step k_control k_one.
Proof.
  apply (step_cas k_control PersistDone 0 "" k_first "op1" None k_cas1.1).
  exact (surjective_pairing k_cas1).
Qed.

Lemma k_step_mark : volume_step k_control k_unsure.
Proof.
  apply (step_placement k_control (PersistFailed "sync" true) k_mark.1).
  exact (surjective_pairing k_mark).
Qed.

Lemma k_step_restart : volume_step k_unsure k_reopened.
Proof. apply (step_restart k_unsure PersistDone). by vm_compute. Qed.

Lemma k_step_cas : volume_step k_reopened k_moved.
Proof.
  apply (step_cas k_reopened PersistDone 0 "" k_first "op1" None k_cas2.1).
  exact (surjective_pairing k_cas2).
Qed.

Lemma control_always_valid_witness :
  validate_control_state (dcl_state k_moved) = Ok tt
  ∧ ct_manifest_revision (dcl_state k_moved) = 1
  ∧ ct_placement_initialized (dcl_state k_moved) = true.
Proof.
  split; [|by vm_compute].
  refine (proj1 (control_always_valid PersistDone None k_nodes k_control k_moved k_open_ok _)).
  eapply rtc_l; [left; apply k_step_mark|]. eapply rtc_l; [left; apply k_step_restart|].
  eapply rtc_once. left. apply k_step_cas.
Defined.

Lemma revision_names_one_value_witness :
  ct_manifest_revision (dcl_state k_unsure) ≤ ct_manifest_revision (dcl_state k_moved).
Proof.
  refine (proj1 (revision_names_one_value toy_digest_nonempty PersistDone None k_nodes k_control k_unsure
    k_moved k_open_ok (rtc_once _ _ k_step_mark) _)).
  eapply rtc_l; [apply k_step_restart|]. eapply rtc_once, k_step_cas.
Defined.

(** The freeze a coordinator asks of this volume. *)
Definition k_request : MetadataFreeze :=
  mkFreeze "freeze" (mkSource LEGACY_CONTROL_AUTHORITY 1 1
    (metadata_digest (control_metadata_from_state (dcl_state k_one)))) 2 0.

Definition k_freeze := freeze_metadata_authority PersistDone k_one "b" k_request.
Definition k_ack : MetadataFreezeAck :=
  match k_freeze.1 with
  | Ok ack => ack
  | Err _ => mkFreezeAck "" "" (mf_source k_request) 0 "" 0
  end.
Definition k_frozen : DurableControl := k_freeze.2.

Lemma k_freeze_ok : freeze_metadata_authority PersistDone k_one "b" k_request = (Ok k_ack, k_frozen).
Proof.
  assert (k_freeze.1 = Ok k_ack) as H by by vm_compute.
  unfold k_frozen. rewrite <- H. exact (surjective_pairing k_freeze).
Qed.

Lemma frozen_volume_refuses_cas_witness :
  frozen_by k_request k_frozen
  ∧ (cas_manifest_with_cutover PersistDone k_frozen 1 "" k_cutover "op2" false (Some 5)).2 = k_frozen.
Proof.
  destruct (frozen_volume_refuses_cas PersistDone None k_nodes k_control k_one PersistDone "b" k_request
    k_ack k_frozen k_frozen k_open_ok (rtc_once _ _ (or_introl k_step1)) k_freeze_ok (rtc_refl _ _))
    as (Hf & Hcas & _). split; [done|].
  refine (proj1 (Hcas PersistDone 1 "" k_cutover "op2" false (Some 5) _ _ (surjective_pairing _))).
Defined.

Definition k_manifest : ReplicaManifest := published_manifest (dcl_state k_control) 1 k_first "op1".

Lemma k_cas1_ok :
  cas_manifest_with_cutover PersistDone k_control 0 "" k_first "op1" false None = (Ok k_manifest, k_one).
Proof.
  assert (k_cas1.1 = Ok k_manifest) as H by by vm_compute.
  unfold k_one. rewrite <- H. exact (surjective_pairing k_cas1).
Qed.

Lemma cas_retry_is_idempotent_witness :
  cas_manifest_with_cutover PersistDone k_one 7 "other" ∅ "op1" false None = (Ok k_manifest, k_one).
Proof. exact (cas_retry_is_idempotent _ _ _ _ _ _ _ _ _ _ _ _ _ _ _ k_cas1_ok). Defined.

Lemma read_after_cas_witness : (control_manifest k_one).1 = Ok k_manifest.
Proof.
  destruct (read_after_cas PersistDone k_control 0 "" k_first "op1" None k_manifest k_one) as (_ & _ & _ & Hr);
    [by vm_compute|apply k_cas1_ok|]. rewrite Hr. by vm_compute.
Defined.

(** a gapped cutover closes the manifest to every reader.  A CAS that closes the
    range of a stream at LSN 5 and opens the next one at LSN 9 is acknowledged and
    written at revision 2; every later read of the manifest fails. *)
Theorem gapped_cas_wedges_reads :
  let (r, c) := cas_manifest_with_cutover PersistDone k_one 1 "" k_gapped "op3" false (Some 5) in
  is_ok r = true ∧ ct_manifest_revision (dcl_disk c) = 2
  ∧ find_segment (ct_stream_segments (dcl_state c)) "s" 6 = None
  ∧ (control_manifest c).1 = Err (Protocol "placement manifest stream ranges are not contiguous").
Proof.
  destruct (cas_manifest_with_cutover _ _ _ _ _ _ _ _) as [r c] eqn:E.
  assert (r = (cas_manifest_with_cutover PersistDone k_one 1 "" k_gapped "op3" false (Some 5)).1) as ->
    by by rewrite E.
  assert (c = (cas_manifest_with_cutover PersistDone k_one 1 "" k_gapped "op3" false (Some 5)).2) as ->
    by by rewrite E. clear E.
  split_and!; by vm_compute.
Qed.
