(* ===== verification/Coordinator.v ===== *)
(** * Coordinator: the control cohort as one manifest register

    The manifest path of [ReplicaGateway] in [crates/walleye-bitr-server/src/lib.rs]
    before the migration to an object-store head: reading the manifest from the three
    control volumes, committing a CAS on two of them, and caching the result locally.
    The answers of the volumes are inputs, in the order they arrive.

    [cohort_run] composes coordinators and volumes: any number of coordinators send CAS
    requests, repairs and reads to three volumes that fail, restart and lag as they
    like. *)

From S2P Require Import Prelude Text Wire Client Placement Manifest Cohorts ControlDoc Control ControlSafety.
From stdpp Require Import functions fin finite.

#[local] Open Scope N_scope.

Record QuorumManifest := mkQuorumManifest {
  qm_manifest : ReplicaManifest;
  qm_agreed : gset string;
}.

Definition CONTROL_COHORT_SIZE : N := REPLICATION_FACTOR.

(** The answer of one volume; [None] when it had not answered. *)
Abbreviation Answer := (option (result ReplicaError (option ReplicaManifest))).

(** [control_cohort_nodes]. *)
Definition control_cohort_nodes (st : DurableControlState) : result ReplicaError (list ReplicaNode) :=
  let ids := match ct_cohorts st !! ct_control_authority_cohort_id st with
             | Some cohort => dc_members cohort
             | None => take (N.to_nat CONTROL_COHORT_SIZE) (sbtree_entries (ct_members st)).*1
             end in
  let nodes :=
    if negb (len ids =? CONTROL_COHORT_SIZE) then []
    else member_node <$> filter (λ m, dm_status m ≠ MRemoved) (omap (λ id, ct_members st !! id) ids) in
  if negb (len nodes =? CONTROL_COHORT_SIZE) then Err QuorumUnavailable else Ok nodes.

(** ** Reading *)

(** One answer joins the group of its manifest, or starts one. *)
Fixpoint join_group (m : ReplicaManifest) (id : string) (groups : list (ReplicaManifest * gset string))
    : list (ReplicaManifest * gset string) :=
  match groups with
  | [] => [(m, {[id]})]
  | (m', ids) :: rest =>
    if bool_decide (m' = m) then (m', {[id]} ∪ ids) :: rest else (m', ids) :: join_group m id rest
  end.

Definition count_answer (acc : list (ReplicaManifest * gset string) * N * N)
    (answer : ReplicaNode * Answer) : list (ReplicaManifest * gset string) * N * N :=
  let '(groups, supported, unavailable) := acc in
  match answer.2 with
  | Some (Ok (Some m)) => (join_group m (rn_id answer.1) groups, supported + 1, unavailable)
  | Some (Ok None) => (groups, supported, unavailable)
  | Some (Err _) | None => (groups, supported, unavailable + 1)
  end.

(** [read_manifest_quorum_agreement] without a control head; [local] is the manifest of
    the coordinator's own store. *)
Definition read_manifest_quorum_agreement (local : option ReplicaManifest)
    (answers : list (ReplicaNode * Answer)) : result ReplicaError QuorumManifest :=
  let '(groups, supported, unavailable) := foldl count_answer ([], 0, 0) answers in
  match list_find (λ g : ReplicaManifest * gset string, ACK_QUORUM ≤ N.of_nat (size g.2)) groups with
  | Some (_, (m, agreed)) => Ok (mkQuorumManifest m agreed)
  | None =>
    if (supported =? 0) && (unavailable =? 0) then
      m ← ok_or local QuorumUnavailable; Ok (mkQuorumManifest m ∅)
    else Err QuorumUnavailable
  end.

Section Coordinator.
Context `{ManifestHost} `{ControlJson}.

(** [sync_manifest_cache]: the local store adopts the manifest the quorum holds. *)
Definition sync_manifest_cache (io : PersistIo) (c : DurableControl)
    (quorum : result ReplicaError QuorumManifest)
    : result ReplicaError QuorumManifest * DurableControl :=
  match quorum with
  | Err e => (Err e, c)
  | Ok q =>
    let m := qm_manifest q in
    let '(local, c) := control_manifest c in
    let stale := match local with
                 | Ok l => negb (rm_revision l =? rm_revision m)
                           || negb (bool_decide (rm_digest l = rm_digest m))
                 | Err _ => true
                 end in
    if stale then
      let '(r, c) := adopt_manifest io c m true in (_ ← r; Ok q, c)
    else (Ok q, c)
  end.

(** ** Committing *)

(** How the receive loop ended: with a commit, or without one after counting the
    volumes that do not support the request. *)
Inductive CasVerdict := Committed (m : ReplicaManifest) | Undecided (unsupported : N).

(** The loop over the answers to a CAS. *)
Fixpoint cas_loop (expected_revision : N) (segments : segment_map)
    (acks unsupported failures : N) (committed : option ReplicaManifest)
    (results : list (result ReplicaError (option ReplicaManifest)))
    : result ReplicaError CasVerdict :=
  match results with
  | [] => Ok (Undecided unsupported)
  | r :: rest =>
    '(acks, unsupported, failures, committed) ←
      match r with
      | Ok (Some m) =>
        _ ← validate_manifest m;
        if negb (rm_revision m =? saturating_add expected_revision 1)
           || negb (bool_decide (rm_digest m = manifest_digest segments))
        then Err LsnConflict
        else if match committed with Some previous => negb (bool_decide (previous = m)) | None => false end
        then Err LsnConflict
        else Ok (acks + 1, unsupported, failures, Some m)
      | Ok None => Ok (acks, unsupported + 1, failures, committed)
      | Err _ => Ok (acks, unsupported, failures + 1, committed)
      end;
    if (ACK_QUORUM : N) <=? acks then
      m ← ok_or committed QuorumUnavailable; Ok (Committed m)
    else
      let outstanding := saturating_sub (saturating_sub CONTROL_COHORT_SIZE unsupported) failures in
      if (acks + outstanding <? ACK_QUORUM) && (unsupported =? 0) then Ok (Undecided unsupported)
      else cas_loop expected_revision segments acks unsupported failures committed rest
  end.

(** [cas_manifest_quorum] without a control head: the answer, and the coordinator's own
    store. *)
Definition cas_manifest_volumes (io : PersistIo) (c : DurableControl) (expected_revision : N)
    (segments : segment_map) (operation_id : string)
    (results : list (result ReplicaError (option ReplicaManifest)))
    : result ReplicaError ReplicaManifest * DurableControl :=
  match cas_loop expected_revision segments 0 0 0 None results with
  | Err e => (Err e, c)
  | Ok (Committed m) => let '(r, c) := adopt_manifest io c m true in (_ ← r; Ok m, c)
  | Ok (Undecided unsupported) =>
    if unsupported =? CONTROL_COHORT_SIZE then
      let '(local, c) := control_manifest c in
      match local with
      | Err e => (Err e, c)
      | Ok local =>
        cas_manifest io c (rm_revision local) (if rm_revision local =? 0 then "" else rm_digest local)
          segments operation_id false
      end
    else (Err QuorumUnavailable, c)
  end.

(** [require_manifest_sync_quorum]. *)
Definition require_manifest_sync_quorum {T} (results : list (result ReplicaError T)) (quorum : N)
    : result ReplicaError unit :=
  if quorum <=? len (filter (λ r, is_ok r = true) results) then Ok tt
  else if existsb (λ r, match r with Err WriterFenced => true | _ => false end) results then Err WriterFenced
  else if existsb (λ r, match r with Err LsnConflict => true | _ => false end) results then Err LsnConflict
  else Err QuorumUnavailable.

(** ** What the loops establish *)

Definition is_ack (m : ReplicaManifest) (r : result ReplicaError (option ReplicaManifest)) : bool :=
  match r with Ok (Some m') => bool_decide (m' = m) | _ => false end.

(** A commit has two answers with the manifest, at the next revision. *)
Lemma cas_loop_committed rev segments acks unsupported failures committed results m :
  cas_loop rev segments acks unsupported failures committed results = Ok (Committed m) →
  acks < ACK_QUORUM →
  (∀ m', committed = Some m' → rm_revision m' = saturating_add rev 1 ∧ rm_digest m' = manifest_digest segments) →
  ACK_QUORUM ≤ acks + len (filter (λ r, is_ack m r = true) results)
  ∧ (∀ m', committed = Some m' → m' = m)
  ∧ rm_revision m = saturating_add rev 1 ∧ rm_digest m = manifest_digest segments.
Proof.
  revert acks unsupported failures committed.
  induction results as [|r results IH]; intros acks unsupported failures committed; cbn [cas_loop]; [done|].
  intros Hl Ha Hc. apply bind_Ok in Hl as ([[[acks' unsup'] fail'] committed'] & Hr & Hl).
  assert (acks' = acks ∧ committed' = committed
    ∨ ∃ m', r = Ok (Some m') ∧ acks' = acks + 1 ∧ committed' = Some m'
        ∧ (∀ m'', committed = Some m'' → m'' = m')
        ∧ rm_revision m' = saturating_add rev 1 ∧ rm_digest m' = manifest_digest segments) as Hcase.
  { destruct r as [[m'|]|e]; [|injection Hr as <- _ _ <-; by left..].
    next Hr. destruct (_ || _) eqn:Ed in Hr; [done|].
    destruct (match committed with Some _ => _ | None => false end) eqn:Ec; [done|].
    injection Hr as <- _ _ <-. right. exists m'. bool_facts. split_and!; try done.
    intros m'' ->. by bool_facts. }
  clear Hr. assert (∀ m', committed' = Some m' →
    rm_revision m' = saturating_add rev 1 ∧ rm_digest m' = manifest_digest segments) as Hc'.
  { destruct Hcase as [[_ ->]|(m' & _ & _ & -> & _ & ? & ?)]; [done|]. by intros ? [= <-]. }
  assert (∀ k, acks' < ACK_QUORUM → ACK_QUORUM ≤ acks' + k → (∀ m', committed' = Some m' → m' = m) →
    ACK_QUORUM ≤ acks + (k + if is_ack m r then 1 else 0)) as Hstep.
  { intros k _ Hk Hm. destruct Hcase as [[-> _]|(m' & -> & -> & Hm' & _)]; [lia|].
    cbn. rewrite (Hm m' Hm'), bool_decide_eq_true_2 by done. lia. }
  assert (∀ m', committed = Some m' → committed' = Some m') as Hkeep.
  { destruct Hcase as [[_ ->]|(m' & _ & _ & -> & Hm' & _)]; [done|]. intros m'' Hm''. by rewrite (Hm' m''). }
  rewrite filter_cons.
  destruct (N.leb_spec ACK_QUORUM acks') as [Hq|Hq].
  - apply bind_Ok in Hl as (m' & Hm'%ok_or_Ok & [= ->]).
    destruct Hcase as [[-> _]|(m' & -> & -> & Hm'' & Hold & _)]; [lia|]. rewrite Hm' in Hm''.
    injection Hm'' as ->. rewrite decide_True by (cbn; by rewrite bool_decide_eq_true_2). rewrite len_cons. destruct (Hc' m' Hm').
    split_and!; [lia|done..].
  - destruct (_ && _); [done|]. apply IH in Hl as (Hlen & Hm & ? & ?); [|done|done].
    specialize (Hstep _ Hq Hlen Hm). split_and!; [|by eauto|done|done].
    destruct (decide (is_ack m r = true)) as [E|E]; [rewrite E in Hstep|
      apply not_true_iff_false in E; rewrite E in Hstep]; rewrite ?len_cons; lia.
Qed.

Lemma join_group_elem m id groups g :
  g ∈ join_group m id groups → ∀ x, x ∈ g.2 → g.1 = m ∧ x = id ∨ ∃ ids, (g.1, ids) ∈ groups ∧ x ∈ ids.
Proof.
  induction groups as [|[m' ids] rest IH]; cbn [join_group].
  { intros ->%list_elem_of_singleton x Hx. left. set_solver. }
  destruct (bool_decide (m' = m)) eqn:E.
  - bool_facts. subst. intros [->|Hg]%elem_of_cons x Hx.
    + cbn in *. apply elem_of_union in Hx as [Hx|Hx]; [left; set_solver|]. right. exists ids. set_solver.
    + right. destruct g as [mg ig]. exists ig. set_solver.
  - intros [->|Hg]%elem_of_cons x Hx; [right; exists ids; set_solver|].
    destruct (IH Hg x Hx) as [?|(ids' & ? & ?)]; [by left|]. right. exists ids'. set_solver.
Qed.

(** The members of a group answered with its manifest. *)
Lemma count_answers_groups (answers : list (ReplicaNode * Answer)) acc :
  (∀ g x, g ∈ acc.1.1 → x ∈ g.2 → ∃ node, (node, Some (Ok (Some g.1))) ∈ answers ∧ rn_id node = x) →
  ∀ rest g x, (∀ a, a ∈ rest → a ∈ answers) → g ∈ (foldl count_answer acc rest).1.1 → x ∈ g.2 →
  ∃ node, (node, Some (Ok (Some g.1))) ∈ answers ∧ rn_id node = x.
Proof.
  intros Hacc rest. revert acc Hacc. induction rest as [|a rest IH]; intros acc Hacc g x Hsub; cbn [foldl]; [by apply Hacc|].
  apply IH; [|intros b Hb; apply Hsub; by right]. clear g x. intros g x.
  destruct acc as [[groups supported] unavailable], a as [node answer]. cbn [count_answer fst snd].
  destruct answer as [[[m|]|e]|]; cbn [fst snd]; try apply Hacc.
  intros Hg Hx. destruct (join_group_elem _ _ _ _ Hg x Hx) as [[-> ->]|(ids & Hin & Hx')].
  - exists node. split; [|done]. apply Hsub. by left.
  - by apply (Hacc (g.1, ids)).
Qed.

Lemma read_agreement_Ok (answers : list (ReplicaNode * Answer)) q :
  read_manifest_quorum_agreement None answers = Ok q →
  ACK_QUORUM ≤ N.of_nat (size (qm_agreed q))
  ∧ ∀ x, x ∈ qm_agreed q → ∃ node, (node, Some (Ok (Some (qm_manifest q)))) ∈ answers ∧ rn_id node = x.
Proof.
  unfold read_manifest_quorum_agreement. pose proof (count_answers_groups answers ([], 0, 0)) as Hg.
  destruct (foldl count_answer ([], 0, 0) answers) as [[groups supported] unavailable] eqn:E.
  destruct (list_find _ groups) as [[i [m agreed]]|] eqn:Ef; [|by destruct (_ && _)].
  intros [= <-]. apply list_find_Some in Ef as (Hi & Hq & _). split; [done|]. intros x Hx.
  assert ((m, agreed) ∈ groups) as Hin by by eapply list_elem_of_lookup_2.
  eapply (Hg ltac:(by intros ? ? ?%not_elem_of_nil) answers (m, agreed) x); [done| |done]. by rewrite E.
Qed.

End Coordinator.

(** ** One volume *)

Section Agreement.
Context `{ManifestHost} `{ControlJsonLaws} `{MetadataJson}.
Context (sha256_hex_nonempty : ∀ bs, sha256_hex bs ≠ "").

Definition value (st : DurableControlState) : N * string :=
  (ct_manifest_revision st, ct_manifest_digest st).

(** An idempotency record of the document names a published value. *)
Definition recorded (st : DurableControlState) (v : N * string) : Prop :=
  ∃ op json m, ct_manifest_operations st !! op = Some json ∧ manifest_of_json json = Ok m
    ∧ v = (rm_revision m, rm_digest m).

Definition records_grow (st next : DurableControlState) : Prop :=
  ∀ v, recorded next v → v.1 = 0 ∨ recorded st v ∨ v = value next ∨ v = value st.

Lemma prune_lookup map keep rank op json :
  prune map keep rank !! op = Some json → map !! op = Some json.
Proof.
  unfold prune. destruct (size map <=? _)%nat; [done|]. cbv zeta.
  match goal with |- foldl _ _ ?l !! _ = _ → _ => generalize l as ids end.
  intros ids. revert map. induction ids as [|id ids IH]; intros map; cbn; [done|].
  intros Hl%IH. destruct (bool_decide (id = keep)); [done|]. by apply lookup_delete_Some in Hl as [_ ?].
Qed.

Lemma recorded_prune st v : recorded (prune_operation_records st) v → recorded st v.
Proof.
  intros (op & json & m & Hop & Hm & ->). exists op, json, m. split_and!; [|done|done].
  unfold prune_operation_records in Hop.
  cbn [set_operations set_manifest_operations ct_manifest_operations] in Hop. by eapply prune_lookup.
Qed.

(** A document with one more record. *)
Lemma recorded_insert st st' m v :
  ct_manifest_operations st' = <[rm_operation_id m := manifest_json m]> (ct_manifest_operations st) →
  recorded st' v → recorded st v ∨ v = (rm_revision m, rm_digest m).
Proof.
  intros Heq (op & json & m' & Hop & Hm & ->). rewrite Heq in Hop.
  apply lookup_insert_Some in Hop as [[_ <-]|[_ Hop]]; [|left; by exists op, json, m'].
  rewrite manifest_json_back in Hm. injection Hm as ->. by right.
Qed.

Lemma recorded_same st st' v :
  ct_manifest_operations st' = ct_manifest_operations st → recorded st' v → recorded st v.
Proof. intros Heq (op & json & m & Hop & Hm & ->). exists op, json, m. by rewrite <- Heq. Qed.

Lemma records_with_manifest st m :
  records_grow st (prune_operation_records (with_manifest st m)).
Proof.
  intros v Hv%recorded_prune. apply (recorded_insert st _ m) in Hv; [|done]. naive_solver.
Qed.

Lemma cas_manifest_records st revision digest segments op repair cutover next m :
  plan_cas_manifest st revision digest segments op repair cutover = Ok (Install next m) →
  records_grow st next ∧ value next = (rm_revision m, rm_digest m).
Proof.
  intros (_ & _ & _ & _ & -> & _)%plan_cas_manifest_Install. split; [apply records_with_manifest|done].
Qed.

Lemma adopt_manifest_records st m force next a :
  plan_adopt_manifest st m force = Ok (Install next a) →
  records_grow st next ∧ value next = (rm_revision m, rm_digest m)
  ∧ ct_manifest_revision st ≤ rm_revision m.
Proof.
  unfold plan_adopt_manifest. intros Hp. walk Hp; bool_facts; destruct_units;
    (split; [|split; [done|lia]]); intros v Hv%recorded_prune; apply (recorded_insert st _ m) in Hv; [|done]; naive_solver.
Qed.

Lemma reconcile_operations before st changed :
  reconcile_cohorts before = Ok (st, changed) → ct_manifest_operations st = ct_manifest_operations before.
Proof.
  unfold reconcile_cohorts. intros Hr. next Hr. next Hr. next Hr. injection Hr as <- _.
  assert (∀ x y, seal_manifest (migrate_manifest x) = Ok y →
    ct_manifest_operations y = ct_manifest_operations x) as Hseal.
  { intros x' y. assert (ct_manifest_operations (migrate_manifest x') = ct_manifest_operations x') as <-
      by (unfold migrate_manifest; by destruct (_ && _)).
    generalize (migrate_manifest x') as z. intros z. unfold seal_manifest.
    destruct (negb _); [|by intros [= <-]]. destruct (_ && _); [done|]. by intros [= <-]. }
  rewrite (Hseal _ _ Hx1).
  cbn [ct_manifest_operations set_segments fill_policies set_members set_cohorts].
  unfold group_legacy_members. by destruct (_ && _).
Qed.

Lemma published_value st revision segments op :
  (rm_revision (published_manifest st revision segments op),
   rm_digest (published_manifest st revision segments op)) = (revision, manifest_digest segments).
Proof.
  unfold published_manifest. destruct (manifest_metadata_for_state st segments) as [[? ?] ?].
  by destruct (manifest_policy_for_state st segments _).
Qed.

(** A request that does not raise the revision carries the routes of the document. *)
Lemma incoming_routes_same st next q revision segments :
  incoming_routes st next q = Ok (revision, segments) → revision ≤ ct_manifest_revision st →
  revision = ct_manifest_revision st ∧ segments = ct_stream_segments st.
Proof.
  unfold incoming_routes. intros Hi. walk Hi; bool_facts; intros; try lia; try done.
  apply ok_or_Ok, checked_add_Some in Hx as [-> _]. lia.
Qed.

Lemma membership_records st q next snapshot :
  validate_control_state st = Ok tt →
  plan_cas_membership st q = Ok (Install next snapshot) → records_grow st next.
Proof.
  intros Hv (_ & _ & requested & revision & segments & reconciled & changed & published & Hi & Hr
    & -> & _ & -> & members & epoch & Hreq)%plan_cas_membership_Install.
  intros v Hrec%recorded_prune. apply (recorded_same (publish_routes st reconciled q revision segments)) in Hrec; [|done].
  assert (ct_manifest_operations reconciled = ct_manifest_operations st) as Hops.
  { rewrite (reconcile_operations _ _ _ Hr). transitivity (ct_manifest_operations requested).
    - by destruct (ct_manifest_revision st <? revision).
    - unfold requested_document in Hreq. destruct (mq_cohorts q), (mq_write_cohort_id q) as [id|];
        try destruct (id =? 0); by simplify_eq/=. }
  unfold publish_routes in *. destruct (N.ltb_spec (ct_manifest_revision st) revision) as [Hlt|Hge].
  - apply (recorded_insert reconciled _ (published_manifest reconciled revision segments (mq_operation_id q)))
      in Hrec as [Hrec|Hrec]; [|right; by right; left|done].
    right. left. by eapply recorded_same.
  - destruct (mq_write_cohort_id q) as [id|]; [|right; left; by eapply recorded_same].
    apply (recorded_insert reconciled _ (published_manifest reconciled revision segments (mq_operation_id q)))
      in Hrec as [Hrec|Hrec]; [right; left; by eapply recorded_same| |done].
    rewrite published_value in Hrec. destruct (incoming_routes_same _ _ _ _ _ Hi Hge) as [-> ->].
    destruct (N.eq_dec (ct_manifest_revision st) 0) as [Hz|Hnz]; [left; by subst v|].
    right. right. right. subst v. unfold value. f_equal.
    symmetry. by apply (proj2 (valid_digest sha256_hex_nonempty st Hv) Hnz).
Qed.

(** ** The votes of a volume *)

(** A value the volume voted for, or one the cohort committed. *)
Definition accounted (votes : gmap N string) (committed : list ReplicaManifest) (v : N * string) : Prop :=
  v.1 = 0 ∨ votes !! v.1 = Some v.2 ∨ ∃ m, m ∈ committed ∧ v = (rm_revision m, rm_digest m).

Record volume_inv (votes : gmap N string) (committed : list ReplicaManifest) (c : DurableControl) : Prop := {
  vi_control : control_inv c;
  vi_votes n d : votes !! n = Some d → n ≤ ct_manifest_revision (dcl_state c);
  vi_state : accounted votes committed (value (dcl_state c));
  vi_records v : recorded (dcl_state c) v → accounted votes committed v;
  vi_disk_rev : ct_manifest_revision (dcl_state c) ≤ ct_manifest_revision (dcl_disk c);
  vi_disk : ct_manifest_revision (dcl_state c) < ct_manifest_revision (dcl_disk c)
            ∨ accounted votes committed (value (dcl_disk c));
  vi_disk_records v : recorded (dcl_disk c) v → accounted votes committed v ∨ v = value (dcl_disk c);
}.

Lemma accounted_mono votes votes' committed committed' v :
  votes ⊆ votes' → committed ⊆ committed' →
  accounted votes committed v → accounted votes' committed' v.
Proof.
  intros Hv Hc [?|[?|(m & ? & ?)]]; [by left|right; left; by eapply lookup_weaken|right; right].
  exists m. split; [by apply Hc|done].
Qed.

(** A value of a new revision becomes a vote. *)
Lemma vote votes committed (n : N) v :
  (∀ k d, votes !! k = Some d → k ≤ n) → n < v.1 ∨ accounted votes committed v ∧ v.1 = n →
  ∃ votes', votes ⊆ votes' ∧ accounted votes' committed v ∧ ∀ k d, votes' !! k = Some d → k ≤ v.1.
Proof.
  intros Hk [Hlt|[Ha <-]]; [|by exists votes].
  exists (<[v.1 := v.2]> votes). split_and!.
  - apply insert_subseteq. destruct (votes !! v.1) as [d|] eqn:E; [|done]. apply Hk in E. lia.
  - right. left. apply lookup_insert_eq.
  - intros k d [[<- _]|[_ Hd]]%lookup_insert_Some; [lia|]. apply Hk in Hd. lia.
Qed.

(** What a plan may do to the value. *)
Definition moves (committed : list ReplicaManifest) (st next : DurableControlState) : Prop :=
  ct_manifest_revision st < ct_manifest_revision next
  ∨ ct_manifest_revision next = ct_manifest_revision st
    ∧ (value next = value st ∨ ∃ m, m ∈ committed ∧ value next = (rm_revision m, rm_digest m)).

Lemma execute_votes {A} io clear c (plan : result ReplicaError (Plan A)) r c' votes committed :
  volume_inv votes committed c →
  (∀ next a, plan = Ok (Install next a) → moves committed (dcl_state c) next ∧ records_grow (dcl_state c) next) →
  control_inv c' → execute io clear c plan = (r, c') →
  ∃ votes', votes ⊆ votes' ∧ volume_inv votes' committed c'
  ∧ ct_manifest_revision (dcl_state c) ≤ ct_manifest_revision (dcl_state c').
Proof.
  intros Hv Hp Hinv. unfold execute, persist_control_state.
  destruct plan as [[a|next a]|e]; [intros [= <- <-]; by exists votes| |intros [= <- <-]; by exists votes].
  destruct (Hp next a eq_refl) as [Hm Hr]. destruct Hv as [_ Hvotes Hst Hrec Hdr Hd Hdrec].
  assert (ct_manifest_revision (dcl_state c) < ct_manifest_revision next
    ∨ accounted votes committed (value next) ∧ ct_manifest_revision next = ct_manifest_revision (dcl_state c)) as Hmv.
  { destruct Hm as [?|[Heq [Hs|Hm]]]; [by left|right; split; [by rewrite Hs|done]|right; split; [|done]].
    right. by right. }
  assert (∀ v, recorded next v → accounted votes committed v ∨ v = value next) as Hrn.
  { intros v [?|[?|[?|Hs]]]%Hr; [left; by left|left; auto|by right|left; by subst v]. }
  destruct io as [|reason renamed]; intros [= <- <-].
  - destruct (vote votes committed (ct_manifest_revision (dcl_state c)) (value next)) as (votes' & Hsub & Ha & Hk); [done|exact Hmv|].
    exists votes'. split; [done|]. split; [|cbn [dcl_state]; destruct Hmv; lia].
    split; cbn [dcl_state dcl_disk] in *; try done; [|by right|].
    + intros v [Hx| ->]%Hrn; [|done]. by eapply accounted_mono.
    + intros v [Hx| ->]%Hrn; [left|by right]. by eapply accounted_mono.
  - exists votes. split; [done|]. split; [|done]. destruct renamed.
    + split; cbn [dcl_state dcl_disk] in *; try done; [destruct Hmv; lia|]. naive_solver.
    + by split.
Qed.

Lemma revs_moves committed st next : revs_le st next → moves committed st next.
Proof. intros [?|[Hr Hd]]; [by left|right]. split; [done|left]. unfold value. by rewrite Hr, Hd. Qed.

Lemma records_same st next :
  ct_manifest_operations next = ct_manifest_operations st → records_grow st next.
Proof. intros Heq v Hv. right. left. by eapply recorded_same. Qed.

Lemma volume_step_votes votes committed c c' :
  volume_inv votes committed c → volume_step c c' →
  ∃ votes', votes ⊆ votes' ∧ volume_inv votes' committed c'
  ∧ ct_manifest_revision (dcl_state c) ≤ ct_manifest_revision (dcl_state c').
Proof.
  intros Hv Hs. pose proof (vi_control _ _ _ Hv) as Hinv.
  pose proof (volume_step_inv _ _ Hinv Hs) as Hinv'. pose proof Hinv as [Hst Hdv _]. destruct Hs as
    [io rev dg segs op cut r c' Hs|io q r c' Hs|io m r c' Hs|io ep rev dg co r c' Hs
    |io mem rq r c' Hs|io r c' Hs|r c' Hs|io c' Hs].
  - eapply execute_votes; [done| |done|exact Hs]. intros next a Hp. split.
    + apply revs_moves. by apply plan_cas_manifest_revs in Hp as [? _].
    + by apply cas_manifest_records in Hp as [? _].
  - eapply execute_votes; [done| |done|exact Hs]. intros next a Hp. split.
    + apply revs_moves. by eapply (plan_cas_membership_revs sha256_hex_nonempty).
    + by eapply membership_records.
  - eapply execute_votes; [done| |done|exact Hs]. intros next a Hp. split.
    + apply revs_moves. by eapply (plan_adopt_manifest_revs sha256_hex_nonempty).
    + by apply adopt_manifest_records in Hp as [? _].
  - eapply execute_votes; [done| |done|exact Hs]. intros next a Hp. split.
    + by apply revs_moves, same_manifest_revs, (plan_authority_Install _ _ _ _ _ _ _ Hp).
    + apply records_same. unfold plan_adopt_authority_fields in Hp. by walk Hp.
  - eapply execute_votes; [done| |done|exact Hs]. intros next a Hp. split.
    + by apply revs_moves, same_manifest_revs, (plan_freeze_Install _ _ _ _ _ Hp).
    + apply records_same. unfold plan_freeze in Hp. by walk Hp.
  - eapply execute_votes; [done| |done|exact Hs]. intros next a Hp.
    unfold plan_mark_placement_initialized in Hp. walk Hp. split; [apply revs_moves; by right|by apply records_same].
  - exists votes. split; [done|]. apply control_manifest_inv in Hs as (_ & Hst' & Hd' & _); [|done].
    split; [|by rewrite Hst']. destruct Hv. split; rewrite ?Hst', ?Hd' in *; done.
  - apply control_open_Ok in Hs as (Hval & _ & Hdisk & st & changed & [= <-] & Hr).
    pose proof (reconcile_operations _ _ _ Hr) as Hops.
    apply reconcile_revs in Hr; [|by apply valid_digest|by intros ?; apply valid_digest].
    destruct Hv as [_ Hvotes Hacc Hrec Hdr Hd Hdrec].
    destruct (vote votes committed (ct_manifest_revision (dcl_state c)) (value (dcl_disk c)))
      as (votes1 & Hsub1 & Ha1 & Hk1); [done| |].
    { destruct Hd as [?|Ha]; [by left|]. cbn.
      destruct (N.eq_dec (ct_manifest_revision (dcl_disk c)) (ct_manifest_revision (dcl_state c)));
        [by right|left; lia]. }
    destruct (vote votes1 committed (value (dcl_disk c)).1 (value (dcl_state c')))
      as (votes2 & Hsub2 & Ha2 & Hk2); [done| |].
    { destruct Hr as [?|[Hr1 Hr2]]; [by left|right]. unfold value in *. by rewrite <- Hr1, <- Hr2. }
    exists votes2. split; [by etrans|]. split; [|destruct Hr as [?|[? _]]; lia].
    assert (∀ v, recorded (dcl_state c') v → accounted votes2 committed v) as Hrec'.
    { intros v Hv%(recorded_same (dcl_disk c)); [|done].
      destruct (Hdrec v Hv) as [Hx| ->]; (eapply accounted_mono; [| |done]); (done || by etrans). }
    split; rewrite ?Hdisk; try done; [by right|]. intros v Hv. left. by apply Hrec'.
Qed.

(** A repair or a forced adoption of a committed value. *)
Lemma learn_votes votes committed c c' m :
  volume_inv votes committed c → m ∈ committed →
  (∃ io segments op cutover r,
     cas_manifest_with_cutover io c (rm_revision m) (rm_digest m) segments op true cutover = (r, c'))
  ∨ (∃ io r, adopt_manifest io c m true = (r, c')) →
  ∃ votes', votes ⊆ votes' ∧ volume_inv votes' committed c'
  ∧ ct_manifest_revision (dcl_state c) ≤ ct_manifest_revision (dcl_state c').
Proof.
  intros Hv Hm Hs. pose proof (vi_control _ _ _ Hv) as Hinv.
  assert (control_inv c') as Hinv'.
  { eapply quorum_step_inv; [exact Hinv|]. destruct Hs as [(io & sg & op & cut & r & Hs)|(io & r & Hs)];
      [by eapply step_repair|by eapply step_forced]. }
  assert (∀ next, value next = (rm_revision m, rm_digest m) →
    ct_manifest_revision (dcl_state c) ≤ rm_revision m → moves committed (dcl_state c) next) as Hmove.
  { intros next Hval Hle. pose proof Hval as [= Hr Hdg].
    destruct (N.eq_dec (ct_manifest_revision (dcl_state c)) (rm_revision m)); [right|left; lia].
    split; [congruence|]. right. eauto. }
  destruct Hs as [(io & sg & op & cut & r & Hs)|(io & r & Hs)].
  - eapply execute_votes; [done| |done|exact Hs]. intros next m' Hp.
    pose proof (cas_manifest_records _ _ _ _ _ _ _ _ _ Hp) as [Hrec Hval]. split; [|done].
    assert (rm_digest m = manifest_digest sg) as Hd.
    { unfold plan_cas_manifest, repair_manifest in Hp. walk Hp; by bool_facts. }
    apply plan_cas_manifest_Install in Hp as (_ & _ & _ & _ & _ & _ & -> & Hle & _).
    rewrite published_value in Hval. apply Hmove; [|done]. by rewrite Hval, Hd.
  - eapply execute_votes; [done| |done|exact Hs]. intros next a Hp.
    apply adopt_manifest_records in Hp as (Hrec & Hval & Hle). split; [by apply Hmove|done].
Qed.

(** ** The cohort *)

(** Any two pairs of three volumes share one. *)
Lemma pairs_meet (i j i' j' : fin 3) : i ≠ j → i' ≠ j' → i = i' ∨ i = j' ∨ j = i' ∨ j = j'.
Proof.
  assert (bool_decide (∀ i j i' j' : fin 3, i ≠ j → i' ≠ j' → i = i' ∨ i = j' ∨ j = i' ∨ j = j') = true)
    as Hall by by vm_compute.
  apply bool_decide_eq_true in Hall. by apply Hall.
Qed.

Context (peer : fin 3 → ReplicaNode) (peer_inj : ∀ i j, rn_id (peer i) = rn_id (peer j) → i = j).

(** The volumes, the manifests they acknowledged and reported, and the manifests a
    coordinator counted a quorum for. *)
Record CohortState := mkCohortState {
  co_volumes : fin 3 → DurableControl;
  co_acks : list (fin 3 * ReplicaManifest);
  co_reads : list (fin 3 * ReplicaManifest);
  co_committed : list ReplicaManifest;
}.

Definition with_volume (s : CohortState) (i : fin 3) (c : DurableControl) : fin 3 → DurableControl :=
  <[i := c]> (co_volumes s).

Inductive cohort_step (s : CohortState) : CohortState → Prop :=
| cohort_own i c' :
    volume_step (co_volumes s i) c' →
    cohort_step s (mkCohortState (with_volume s i c') (co_acks s) (co_reads s) (co_committed s))
| cohort_ack i io revision digest segments op cutover m c' :
    cas_manifest_with_cutover io (co_volumes s i) revision digest segments op false cutover = (Ok m, c') →
    cohort_step s (mkCohortState (with_volume s i c') ((i, m) :: co_acks s) (co_reads s) (co_committed s))
| cohort_read i m c' :
    control_manifest (co_volumes s i) = (Ok m, c') →
    cohort_step s (mkCohortState (with_volume s i c') (co_acks s) ((i, m) :: co_reads s) (co_committed s))
| cohort_commit revision segments results m :
    NoDup results.*1 → (∀ i m', (i, Ok (Some m')) ∈ results → (i, m') ∈ co_acks s) →
    cas_loop revision segments 0 0 0 None results.*2 = Ok (Committed m) →
    cohort_step s (mkCohortState (co_volumes s) (co_acks s) (co_reads s) (m :: co_committed s))
| cohort_agree answers q :
    (∀ i m', (i, Some (Ok (Some m'))) ∈ answers → (i, m') ∈ co_reads s) →
    read_manifest_quorum_agreement None (prod_map peer id <$> answers) = Ok q →
    cohort_step s (mkCohortState (co_volumes s) (co_acks s) (co_reads s) (qm_manifest q :: co_committed s))
| cohort_learn i m c' :
    m ∈ co_committed s →
    (∃ io segments op cutover r,
       cas_manifest_with_cutover io (co_volumes s i) (rm_revision m) (rm_digest m) segments op true cutover
       = (r, c'))
    ∨ (∃ io r, adopt_manifest io (co_volumes s i) m true = (r, c')) →
    cohort_step s (mkCohortState (with_volume s i c') (co_acks s) (co_reads s) (co_committed s)).

Definition value_of (m : ReplicaManifest) : N * string := (rm_revision m, rm_digest m).

Record cohort_inv (votes : fin 3 → gmap N string) (s : CohortState) : Prop := {
  coi_volumes i : volume_inv (votes i) (co_committed s) (co_volumes s i);
  coi_acks i m : (i, m) ∈ co_acks s → accounted (votes i) (co_committed s) (value_of m);
  coi_reads i m : (i, m) ∈ co_reads s → accounted (votes i) (co_committed s) (value_of m);
  coi_quorum m : m ∈ co_committed s → 1 ≤ rm_revision m →
    ∃ i j, i ≠ j ∧ votes i !! rm_revision m = Some (rm_digest m) ∧ votes j !! rm_revision m = Some (rm_digest m);
}.

(** One volume moves, and shows at most one more manifest. *)
Lemma cohort_change votes s i c' votes' acks reads :
  cohort_inv votes s → votes i ⊆ votes' → volume_inv votes' (co_committed s) c' →
  (∀ j m, (j, m) ∈ acks → (j, m) ∈ co_acks s ∨ j = i ∧ accounted votes' (co_committed s) (value_of m)) →
  (∀ j m, (j, m) ∈ reads → (j, m) ∈ co_reads s ∨ j = i ∧ accounted votes' (co_committed s) (value_of m)) →
  cohort_inv (<[i := votes']> votes) (mkCohortState (with_volume s i c') acks reads (co_committed s)).
Proof.
  intros [Hvol Hacks Hreads Hq] Hsub Hinv Ha Hr.
  assert (∀ j, votes j ⊆ (<[i := votes']> votes : fin 3 → _) j) as Hmono.
  { intros j. destruct (decide (i = j)) as [->|]; [by rewrite fn_lookup_insert|by rewrite fn_lookup_insert_ne]. }
  assert (∀ j v, accounted (votes j) (co_committed s) v →
    accounted ((<[i := votes']> votes : fin 3 → _) j) (co_committed s) v) as Hacc.
  { intros j v. by apply accounted_mono. }
  split; cbn [co_volumes co_acks co_reads co_committed].
  - intros j. unfold with_volume. destruct (decide (i = j)) as [->|].
    + by rewrite !fn_lookup_insert.
    + by rewrite !fn_lookup_insert_ne.
  - intros j m [Hin|[-> Hm]]%Ha; [by apply Hacc, Hacks|by rewrite fn_lookup_insert].
  - intros j m [Hin|[-> Hm]]%Hr; [by apply Hacc, Hreads|by rewrite fn_lookup_insert].
  - intros m Hm Hrev. destruct (Hq m Hm Hrev) as (j & k & Hne & Hj & Hk). exists j, k.
    split_and!; [done|apply (lookup_weaken (votes j)); [done|apply Hmono]|apply (lookup_weaken (votes k)); [done|apply Hmono]].
Qed.

(** A manifest that two volumes account for can be committed. *)
Lemma cohort_decide votes s i j m :
  cohort_inv votes s → i ≠ j →
  accounted (votes i) (co_committed s) (value_of m) → accounted (votes j) (co_committed s) (value_of m) →
  cohort_inv votes (mkCohortState (co_volumes s) (co_acks s) (co_reads s) (m :: co_committed s)).
Proof.
  intros [Hvol Hacks Hreads Hq] Hne Hi Hj.
  assert (∀ votes v, accounted votes (co_committed s) v → accounted votes (m :: co_committed s) v) as Hacc.
  { intros vs v. apply accounted_mono; [done|]. intros x Hx. by right. }
  split; cbn [co_volumes co_acks co_reads co_committed].
  - intros k. destruct (Hvol k) as [Hc Hv Hs Hrec Hrev Hd Hdrec]. split; [done|done|by apply Hacc| |done|..].
    + intros v Hr. by apply Hacc, Hrec.
    + destruct Hd as [?|Hd]; [by left|right; by apply Hacc].
    + intros v Hr. destruct (Hdrec v Hr); [left; by apply Hacc|by right].
  - intros k m' Hm'. by apply Hacc, Hacks.
  - intros k m' Hm'. by apply Hacc, Hreads.
  - intros m' [->|Hm']%elem_of_cons Hrev; [|by apply Hq].
    assert (∀ m0, m0 ∈ co_committed s → value_of m = value_of m0 →
      ∃ i j, i ≠ j ∧ votes i !! rm_revision m = Some (rm_digest m)
        ∧ votes j !! rm_revision m = Some (rm_digest m)) as Hold.
    { intros m0 Hm0 [= Hr Hd]. rewrite Hr, Hd. apply Hq; [done|]. by rewrite <- Hr. }
    destruct Hi as [Hz|[Hi|(m0 & Hm0 & Heq)]]; [cbn in Hz; lia| |by eapply Hold].
    destruct Hj as [Hz|[Hj|(m0 & Hm0 & Heq)]]; [cbn in Hz; lia| |by eapply Hold].
    exists i, j. done.
Qed.

(** Two of the counted answers come from different volumes. *)
Lemma two_acks (results : list (fin 3 * result ReplicaError (option ReplicaManifest))) m :
  NoDup results.*1 → ACK_QUORUM ≤ len (filter (λ r, is_ack m r = true) results.*2) →
  ∃ i j, i ≠ j ∧ (i, Ok (Some m)) ∈ results ∧ (j, Ok (Some m)) ∈ results.
Proof.
  intros Hnd Hlen. set (ok := filter (λ x : fin 3 * _, is_ack m x.2 = true) results).
  assert (length ok = length (filter (λ r, is_ack m r = true) results.*2)) as Hl.
  { subst ok. clear. induction results as [|[i r] results IH]; [done|]. cbn [fmap list_fmap snd].
    rewrite !filter_cons. cbn [snd]. by destruct (decide (is_ack m r = true)); cbn; rewrite ?IH. }
  assert (∀ x, x ∈ ok → (x.1, Ok (Some m)) ∈ results) as Hin.
  { intros [i r] [Ha Hr]%list_elem_of_filter. cbn in *. destruct r as [[m'|]|e]; cbn in Ha; try done.
    bool_facts. by subst. }
  assert (NoDup ok.*1) as Hnd'.
  { eapply sublist_NoDup; [exact Hnd|]. apply fmap_sublist, sublist_filter. }
  unfold len, ACK_QUORUM in Hlen. destruct ok as [|x [|y ok]]; cbn in Hl; [lia..|].
  cbn in Hnd'. apply NoDup_cons in Hnd' as [Hx _]. exists x.1, y.1.
  split_and!; [set_solver|apply Hin; by left|apply Hin; right; by left].
Qed.

Lemma two_members (X : gset string) : ACK_QUORUM ≤ N.of_nat (size X) → ∃ x y, x ≠ y ∧ x ∈ X ∧ y ∈ X.
Proof.
  unfold ACK_QUORUM. intros Hs. destruct (set_choose_L X) as [x Hx]; [intros ->; by rewrite size_empty in Hs|].
  destruct (set_choose_L (X ∖ {[x]})) as [y Hy].
  { intros He. pose proof (size_difference X {[x]} ltac:(set_solver)) as Hd.
    rewrite He, size_empty, size_singleton in Hd. lia. }
  exists x, y. set_solver.
Qed.

(** A quorum read names two volumes that reported its manifest. *)
Lemma agree_reads (answers : list (fin 3 * Answer)) q :
  read_manifest_quorum_agreement None (prod_map peer id <$> answers) = Ok q →
  ∃ i j, i ≠ j ∧ (i, Some (Ok (Some (qm_manifest q)))) ∈ answers
    ∧ (j, Some (Ok (Some (qm_manifest q)))) ∈ answers.
Proof.
  intros [Hsize Hin]%read_agreement_Ok. destruct (two_members _ Hsize) as (x & y & Hne & Hx & Hy).
  destruct (Hin x Hx) as (nx & Hnx & <-), (Hin y Hy) as (ny & Hny & <-).
  apply list_elem_of_fmap in Hnx as ([i ai] & [= -> <-] & Hi).
  apply list_elem_of_fmap in Hny as ([j aj] & [= -> <-] & Hj).
  exists i, j. split; [by intros ->|]. done.
Qed.

(** What a volume answers is accounted for. *)
Lemma ack_accounted votes committed c io revision digest segments op cutover m c' votes' :
  volume_inv votes committed c → votes ⊆ votes' → volume_inv votes' committed c' →
  cas_manifest_with_cutover io c revision digest segments op false cutover = (Ok m, c') →
  accounted votes' committed (value_of m).
Proof.
  intros Hv Hsub Hv' [(previous & Hop & Hm & -> & _)|(next & Hp & ->)]%cas_manifest_Ok.
  - apply (vi_records _ _ _ Hv'). by exists op, previous, m.
  - apply cas_manifest_records in Hp as [_ Hval]. unfold value_of. rewrite <- Hval. apply (vi_state _ _ _ Hv').
Qed.

Lemma read_value c m c' :
  control_inv c → control_manifest c = (Ok m, c') →
  rm_revision m = ct_manifest_revision (dcl_state c)
  ∧ (rm_revision m = 0 ∨ value_of m = value (dcl_state c)).
Proof.
  intros Hinv (_ & _ & _ & Hr)%control_manifest_inv; [|done]. symmetry in Hr.
  next Hr. injection Hr as <-. split; [done|]. unfold value_of, value, manifest_from_state.
  cbn [rm_revision rm_digest]. destruct (N.eqb_spec (ct_manifest_revision (dcl_state c)) 0) as [?|Hnz]; [by left|right].
  destruct (proj2 (valid_digest sha256_hex_nonempty _ (ci_state _ Hinv)) Hnz) as [_ Hne].
  by rewrite bool_decide_eq_false_2.
Qed.

Lemma volume_step_read c r c' : control_manifest c = (r, c') → volume_step c c'.
Proof. apply step_read. Qed.

(** Every step keeps the invariant, and no volume goes back. *)
Lemma cohort_step_inv votes s s' :
  cohort_inv votes s → cohort_step s s' →
  ∃ votes', cohort_inv votes' s'
  ∧ (∀ i, ct_manifest_revision (dcl_state (co_volumes s i)) ≤ ct_manifest_revision (dcl_state (co_volumes s' i))).
Proof.
  intros Hinv Hs.
  assert (∀ i c', ct_manifest_revision (dcl_state (co_volumes s i)) ≤ ct_manifest_revision (dcl_state c') →
    ∀ j, ct_manifest_revision (dcl_state (co_volumes s j))
         ≤ ct_manifest_revision (dcl_state (with_volume s i c' j))) as Hmono.
  { intros i c' Hle j. unfold with_volume. destruct (decide (i = j)) as [->|];
      [by rewrite fn_lookup_insert|by rewrite fn_lookup_insert_ne]. }
  destruct Hs as [i c' Hs|i io rev dg segs op cut m c' Hs|i m c' Hs|rev segs results m Hnd Hin Hl
    |answers q Hin Hq|i m c' Hm Hs].
  - destruct (volume_step_votes _ _ _ _ (coi_volumes _ _ Hinv i) Hs) as (v' & Hsub & Hv' & Hle).
    exists (<[i := v']> votes). split; [|by apply Hmono]. apply cohort_change; [done..|naive_solver|naive_solver].
  - destruct (volume_step_votes _ _ _ _ (coi_volumes _ _ Hinv i) (step_cas _ _ _ _ _ _ _ _ _ Hs))
      as (v' & Hsub & Hv' & Hle).
    exists (<[i := v']> votes). split; [|by apply Hmono]. apply cohort_change; [done..| |naive_solver].
    intros j m' [[= -> ->]|?]%elem_of_cons; [right|by left]. split; [done|].
    by eapply ack_accounted; [apply (coi_volumes _ _ Hinv i)|..].
  - destruct (volume_step_votes _ _ _ _ (coi_volumes _ _ Hinv i) (volume_step_read _ _ _ Hs))
      as (v' & Hsub & Hv' & Hle).
    exists (<[i := v']> votes). split; [|by apply Hmono]. apply cohort_change; [done..|naive_solver|].
    intros j m' [[= -> ->]|?]%elem_of_cons; [right|by left]. split; [done|].
    destruct (read_value _ _ _ (vi_control _ _ _ (coi_volumes _ _ Hinv i)) Hs) as [_ [Hz|Hval]]; [by left|].
    rewrite Hval. eapply accounted_mono; [exact Hsub|done|]. apply (vi_state _ _ _ (coi_volumes _ _ Hinv i)).
  - exists votes. split; [|done]. apply cas_loop_committed in Hl as (Hlen & _); [|done|done].
    destruct (two_acks _ _ Hnd Hlen) as (i & j & Hne & Hi & Hj).
    by apply (cohort_decide _ _ i j); [..|apply (coi_acks _ _ Hinv), Hin|apply (coi_acks _ _ Hinv), Hin].
  - exists votes. split; [|done]. destruct (agree_reads _ _ Hq) as (i & j & Hne & Hi & Hj).
    by apply (cohort_decide _ _ i j); [..|apply (coi_reads _ _ Hinv), Hin|apply (coi_reads _ _ Hinv), Hin].
  - destruct (learn_votes _ _ _ _ _ (coi_volumes _ _ Hinv i) Hm Hs) as (v' & Hsub & Hv' & Hle).
    exists (<[i := v']> votes). split; [|by apply Hmono]. apply cohort_change; [done..|naive_solver|naive_solver].
Qed.

Lemma cohort_run_inv votes s s' :
  cohort_inv votes s → rtc cohort_step s s' →
  ∃ votes', cohort_inv votes' s'
  ∧ (∀ i, ct_manifest_revision (dcl_state (co_volumes s i)) ≤ ct_manifest_revision (dcl_state (co_volumes s' i))).
Proof.
  intros Hinv Hr. revert votes Hinv. induction Hr as [|s1 s2 s3 Hs _ IH]; intros votes Hinv; [by exists votes|].
  destruct (cohort_step_inv _ _ _ Hinv Hs) as (votes1 & Hinv1 & Hle1).
  destruct (IH _ Hinv1) as (votes2 & Hinv2 & Hle2). exists votes2. split; [done|].
  intros i. etrans; [apply Hle1|apply Hle2].
Qed.

Lemma committed_mono s s' m : rtc cohort_step s s' → m ∈ co_committed s → m ∈ co_committed s'.
Proof.
  induction 1 as [|s1 s2 s3 Hs _ IH]; [done|]. intros Hm. apply IH. clear IH.
  destruct Hs; cbn; (done || by right).
Qed.

Lemma committed_unique votes s m1 m2 :
  cohort_inv votes s → m1 ∈ co_committed s → m2 ∈ co_committed s →
  rm_revision m1 = rm_revision m2 → 1 ≤ rm_revision m1 → rm_digest m1 = rm_digest m2.
Proof.
  intros Hinv Hm1 Hm2 Heq Hrev.
  destruct (coi_quorum _ _ Hinv m1 Hm1 Hrev) as (i & j & Hij & Hi & Hj).
  destruct (coi_quorum _ _ Hinv m2 Hm2 ltac:(lia)) as (i' & j' & Hij' & Hi' & Hj').
  rewrite <- Heq in Hi', Hj'.
  destruct (pairs_meet i j i' j' Hij Hij') as [->|[->|[->| ->]]]; congruence.
Qed.

(** Three fresh volumes. *)
Definition booted (volumes : fin 3 → DurableControl) : Prop :=
  ∀ i, ∃ io members, control_open io None members = Ok (volumes i).

Lemma booted_inv volumes :
  booted volumes → ∃ votes, cohort_inv votes (mkCohortState volumes [] [] []).
Proof.
  intros Hb. exists (λ i, {[ct_manifest_revision (dcl_state (volumes i)) := ct_manifest_digest (dcl_state (volumes i))]}).
  split; [|by intros ? ? ?%not_elem_of_nil..|by intros ? ?%not_elem_of_nil].
  intros i. cbn. destruct (Hb i) as (io & members & Ho).
  apply control_open_Ok in Ho as (Hv & Hca & Hdisk & st & changed & Hf & Hr).
  assert (ct_manifest_operations (dcl_state (volumes i)) = ∅) as Hops.
  { rewrite (reconcile_operations _ _ _ Hr). cbn [first_document] in Hf. next Hf. injection Hf as <-.
    by destruct (bool_decide _). }
  assert (∀ v, ¬ recorded (dcl_state (volumes i)) v) as Hrec.
  { intros v (op & json & m & Hop & _). rewrite Hops in Hop. by rewrite lookup_empty in Hop. }
  assert (∀ n d, ({[ct_manifest_revision (dcl_state (volumes i)) := ct_manifest_digest (dcl_state (volumes i))]}
    : gmap N string) !! n = Some d → n ≤ ct_manifest_revision (dcl_state (volumes i))) as Hk.
  { intros n d [<- _]%lookup_singleton_Some. done. }
  assert (accounted {[ct_manifest_revision (dcl_state (volumes i)) := ct_manifest_digest (dcl_state (volumes i))]} []
    (value (dcl_state (volumes i)))) as Ha by (right; left; apply lookup_singleton_eq).
  split; rewrite ?Hdisk; try done; [|by intros v ?%Hrec|by right|by intros v ?%Hrec].
  split; [done|by rewrite Hdisk|by intros m; rewrite Hca].
Qed.

(** C2: the control cohort commits one manifest per revision.  Three volumes start empty;
    coordinators send CAS requests, repairs of committed manifests and reads in any order
    and number, volumes answer late, lose writes before or after the rename, restart, and
    take membership changes.  Whatever two coordinators counted a quorum for at one
    revision, by a CAS or by a read, has the same digest. *)
Theorem cohort_commits_one_manifest volumes s m1 m2 :
  booted volumes → rtc cohort_step (mkCohortState volumes [] [] []) s →
  m1 ∈ co_committed s → m2 ∈ co_committed s →
  rm_revision m1 = rm_revision m2 → 1 ≤ rm_revision m1 → rm_digest m1 = rm_digest m2.
Proof.
  intros (votes0 & Hinv0)%booted_inv Hr Hm1 Hm2 Heq Hrev.
  destruct (cohort_run_inv _ _ _ Hinv0 Hr) as (votes & Hinv & _). by eapply committed_unique.
Qed.

(** The reads of a run report revisions no lower than those the volumes started from. *)
Lemma reads_above votes s s' (low : fin 3 → N) :
  cohort_inv votes s → rtc cohort_step s s' →
  (∀ k, low k ≤ ct_manifest_revision (dcl_state (co_volumes s k))) →
  (∀ k m, (k, m) ∈ co_reads s → low k ≤ rm_revision m) →
  ∀ k m, (k, m) ∈ co_reads s' → low k ≤ rm_revision m.
Proof.
  intros Hinv Hr. revert votes Hinv. induction Hr as [|s1 s2 s3 Hs _ IH]; intros votes Hinv Hlow Hreads; [done|].
  destruct (cohort_step_inv _ _ _ Hinv Hs) as (votes1 & Hinv1 & Hle).
  apply (IH _ Hinv1); [intros k; etrans; [apply Hlow|apply Hle]|]. clear IH Hinv1 Hle.
  destruct Hs as [i c' Hs|i io rev dg segs op cut m c' Hs|i m c' Hs|rev segs results m Hnd Hin Hl
    |answers q Hin Hq|i m c' Hm Hs]; try exact Hreads.
  intros k m' [[= -> ->]|Hin]%elem_of_cons; [|by apply Hreads].
  by destruct (read_value _ _ _ (vi_control _ _ _ (coi_volumes _ _ Hinv i)) Hs) as [-> _].
Qed.

(** a quorum read never goes back.  Once a manifest is committed, every later read
    that finds two volumes in agreement, all of whose answers were given after the commit,
    returns a revision that is not lower; at the same revision it returns the same
    digest. *)
Theorem quorum_read_is_current volumes s m s' answers q :
  booted volumes → rtc cohort_step (mkCohortState volumes [] [] []) s → m ∈ co_committed s →
  rtc cohort_step (mkCohortState (co_volumes s) (co_acks s) [] (co_committed s)) s' →
  (∀ i m', (i, Some (Ok (Some m'))) ∈ answers → (i, m') ∈ co_reads s') →
  read_manifest_quorum_agreement None (prod_map peer id <$> answers) = Ok q →
  rm_revision m ≤ rm_revision (qm_manifest q)
  ∧ (rm_revision m = rm_revision (qm_manifest q) → 1 ≤ rm_revision m →
     rm_digest m = rm_digest (qm_manifest q)).
Proof.
  intros (votes0 & Hinv0)%booted_inv Hr Hm Hr' Hin Hq.
  destruct (cohort_run_inv _ _ _ Hinv0 Hr) as (votes & Hinv & _). clear Hr Hinv0.
  assert (cohort_inv votes (mkCohortState (co_volumes s) (co_acks s) [] (co_committed s))) as Hinv'.
  { destruct Hinv as [? ? _ ?]. split; try done. by intros ? ? ?%not_elem_of_nil. }
  pose proof (agree_reads _ _ Hq) as (i' & j' & Hij' & Hi' & Hj'). split.
  - destruct (N.eq_dec (rm_revision m) 0) as [->|Hnz]; [lia|].
    destruct (coi_quorum _ _ Hinv m Hm ltac:(lia)) as (i & j & Hij & Hi & Hj).
    apply (vi_votes _ _ _ (coi_volumes _ _ Hinv i)) in Hi. apply (vi_votes _ _ _ (coi_volumes _ _ Hinv j)) in Hj.
    pose proof (reads_above votes _ _ (λ k, ct_manifest_revision (dcl_state (co_volumes s k))) Hinv' Hr'
      ltac:(done) ltac:(by intros ? ? ?%not_elem_of_nil)) as Hreads.
    apply Hin, Hreads in Hi', Hj'. cbv beta in Hi', Hj'.
    destruct (pairs_meet i j i' j' Hij Hij') as [->|[->|[->| ->]]]; lia.
  - intros Heq Hrev. destruct (cohort_run_inv _ _ _ Hinv' Hr') as (votes' & Hinv'' & _).
    assert (cohort_inv votes' (mkCohortState (co_volumes s') (co_acks s') (co_reads s')
      (qm_manifest q :: co_committed s'))) as Hq'.
    { by apply (cohort_decide _ _ i' j'); [..|apply (coi_reads _ _ Hinv''), Hin|apply (coi_reads _ _ Hinv''), Hin]. }
    apply (committed_unique _ _ m (qm_manifest q) Hq'); [|by left|done|done].
    right. by apply (committed_mono _ _ _ Hr').
Qed.

End Agreement.
