(* ===== verification/CoordinatorToy.v ===== *)
(** * CoordinatorToy: a control cohort at work

    Three volumes, a CAS that two of them acknowledge, its commit, and a quorum read of
    the two, on which the theorems of [Coordinator] apply. *)

From S2P Require Import Prelude Text Wire Client Placement Manifest Cohorts NodeLog NodeReplay NodeOps NodeSafety NodeContract NodeToy ControlDoc Control ControlSafety ControlToy Coordinator.
From stdpp Require Import functions fin.

#[local] Open Scope N_scope.
#[local] Existing Instance toy_control_json.
#[local] Existing Instance toy_control_laws.
#[local] Existing Instance toy_control_host.
#[local] Existing Instance toy_metadata_json.

Definition z0 : fin 3 := 0%fin.
Definition z1 : fin 3 := 1%fin.

Definition z_peer (i : fin 3) : ReplicaNode :=
  match fin_to_nat i with
  | O => mkNode "a" "http://a" | 1%nat => mkNode "b" "http://b" | _ => mkNode "c" "http://c"
  end.

Lemma z_peer_inj i j : rn_id (z_peer i) = rn_id (z_peer j) → i = j.
Proof.
  assert (bool_decide (∀ i j, rn_id (z_peer i) = rn_id (z_peer j) → i = j) = true) as Hall by by vm_compute.
  apply bool_decide_eq_true in Hall. apply Hall.
Qed.

Definition z_boot : fin 3 → DurableControl := λ _, k_control.

Lemma z_booted : booted z_boot.
Proof. intros i. exists PersistDone, k_nodes. exact k_open_ok. Qed.

Definition z_start : CohortState := mkCohortState z_boot [] [] [].
Definition z_ack0 : CohortState :=
  mkCohortState (with_volume z_start z0 k_one) [(z0, k_manifest)] [] [].
Definition z_ack1 : CohortState :=
  mkCohortState (with_volume z_ack0 z1 k_one) [(z1, k_manifest); (z0, k_manifest)] [] [].
Definition z_done : CohortState :=
  mkCohortState (co_volumes z_ack1) (co_acks z_ack1) [] [k_manifest].

Lemma z_results_shown (M : ReplicaManifest) i m :
  (i, Ok (Some m) : result ReplicaError (option ReplicaManifest)) ∈ [(z0, Ok (Some M)); (z1, Ok (Some M))] →
  (i, m) ∈ [(z1, M); (z0, M)].
Proof.
  intros [[= -> ->]|[[= -> ->]|[]%not_elem_of_nil]%elem_of_cons]%elem_of_cons; [right; by left|by left].
Qed.

Lemma z_answers_shown (M : ReplicaManifest) i m :
  (i, Some (Ok (Some m)) : Answer) ∈ [(z0, Some (Ok (Some M))); (z1, Some (Ok (Some M)))] →
  (i, m) ∈ [(z1, M); (z0, M)].
Proof.
  intros [[= -> ->]|[[= -> ->]|[]%not_elem_of_nil]%elem_of_cons]%elem_of_cons; [right; by left|by left].
Qed.

Lemma z_commit_run : rtc (cohort_step z_peer) z_start z_done.
Proof.
  eapply rtc_l; [exact (cohort_ack z_peer z_start z0 _ _ _ _ _ _ _ _ k_cas1_ok)|].
  eapply rtc_l; [exact (cohort_ack z_peer z_ack0 z1 _ _ _ _ _ _ _ _ k_cas1_ok)|].
  apply rtc_once.
  apply (cohort_commit z_peer z_ack1 0 k_first [(z0, Ok (Some k_manifest)); (z1, Ok (Some k_manifest))]).
  - apply (bool_decide_unpack _). by vm_compute.
  - exact (z_results_shown k_manifest).
  - by vm_compute.
Qed.

Definition z_cached : DurableControl := (control_manifest k_one).2.

Lemma z_read_ok : control_manifest k_one = (Ok k_manifest, z_cached).
Proof.
  assert ((control_manifest k_one).1 = Ok k_manifest) as Hr by by vm_compute.
  unfold z_cached. rewrite <- Hr. apply surjective_pairing.
Qed.

(** The reads after the commit. *)
Definition z_after : CohortState :=
  mkCohortState (co_volumes z_done) (co_acks z_done) [] (co_committed z_done).
Definition z_read0 : CohortState :=
  mkCohortState (with_volume z_after z0 z_cached) (co_acks z_after) [(z0, k_manifest)] (co_committed z_after).
Definition z_read1 : CohortState :=
  mkCohortState (with_volume z_read0 z1 z_cached) (co_acks z_read0)
    [(z1, k_manifest); (z0, k_manifest)] (co_committed z_read0).
Definition z_answers : list (fin 3 * Answer) :=
  [(z0, Some (Ok (Some k_manifest))); (z1, Some (Ok (Some k_manifest)))].
Definition z_quorum : QuorumManifest := mkQuorumManifest k_manifest {["a"; "b"]}.

Lemma z_read_run : rtc (cohort_step z_peer) z_after z_read1.
Proof.
  eapply rtc_l; [exact (cohort_read z_peer z_after z0 k_manifest z_cached z_read_ok)|].
  apply rtc_once. exact (cohort_read z_peer z_read0 z1 k_manifest z_cached z_read_ok).
Qed.

Lemma z_answers_read i m : (i, Some (Ok (Some m))) ∈ z_answers → (i, m) ∈ co_reads z_read1.
Proof. exact (z_answers_shown k_manifest i m). Qed.

Lemma z_agreement : read_manifest_quorum_agreement None (prod_map z_peer id <$> z_answers) = Ok z_quorum.
Proof. by vm_compute. Qed.

Definition z_agreed : CohortState :=
  mkCohortState (co_volumes z_read1) (co_acks z_read1) (co_reads z_read1)
    (qm_manifest z_quorum :: co_committed z_read1).

Lemma cohort_commits_one_manifest_witness :
  rm_digest k_manifest = rm_digest (qm_manifest z_quorum) ∧ rm_revision k_manifest = 1.
Proof.
  split; [|by vm_compute].
  apply (cohort_commits_one_manifest toy_digest_nonempty z_peer z_peer_inj z_boot z_agreed).
  - exact z_booted.
  - transitivity z_done; [exact z_commit_run|]. transitivity z_read1; [exact z_read_run|].
    apply rtc_once. exact (cohort_agree z_peer z_read1 z_answers z_quorum z_answers_read z_agreement).
  - apply elem_of_cons. right. apply elem_of_cons. left. reflexivity.
  - apply elem_of_cons. left. reflexivity.
  - reflexivity.
  - by vm_compute.
Defined.

Lemma quorum_read_is_current_witness :
  rm_revision k_manifest ≤ rm_revision (qm_manifest z_quorum).
Proof.
  refine (proj1 (quorum_read_is_current toy_digest_nonempty z_peer z_peer_inj z_boot z_done k_manifest z_read1
    z_answers z_quorum z_booted z_commit_run _ z_read_run z_answers_read z_agreement)).
  apply elem_of_cons. left. reflexivity.
Defined.
