(* ===== verification/Cron.v ===== *)
(** * Cron: the schedules of the node's workers

    [crates/walleye-node/src/cron.rs]: five-field expressions, the minutes they name,
    the search for the next one, and the calendar that search relies on.

    [i64] is [Z] and [u32] is [N], both with the wrap-around of the release profile
    where an operation can leave its width; [/] on [i64] truncates.  A text is the list
    of its bytes.  The two loops carry a fuel: [mark] the distance to its upper end,
    [next_after] the minutes of its window; [schedule_parse_terminates] and
    [next_after_least] show that neither runs out. *)

From S2P Require Import Prelude Text.
From stdpp Require Import pretty.

#[local] Open Scope N_scope.

(** ** Text *)

Definition str : Type := list byte.

(** The byte length of a character, from its first byte. *)
Definition char_len (b : byte) : nat :=
  if in_range 0x00 0x7F b then 1
  else if in_range 0x80 0xDF b then 2
  else if in_range 0xE0 0xEF b then 3 else 4.

(** [str::chars], each character as its bytes. *)
Fixpoint chars (fuel : nat) (s : str) : list str :=
  match fuel, s with
  | S fuel, b :: _ => take (char_len b) s :: chars fuel (drop (char_len b) s)
  | _, _ => []
  end.

Definition is_whitespace (c : str) : bool := blank_bytes c.

Fixpoint drop_blanks (cs : list str) : list str :=
  match cs with
  | c :: rest => if is_whitespace c then drop_blanks rest else cs
  | [] => []
  end.

(** [str::trim]. *)
Definition trim (s : str) : str :=
  concat (rev (drop_blanks (rev (drop_blanks (chars (length s) s))))).

(** [str::split] at a one-byte character. *)
Fixpoint split_at (sep : byte) (s : str) : list str :=
  match s with
  | [] => [[]]
  | b :: rest =>
    if bool_decide (b = sep) then [] :: split_at sep rest
    else match split_at sep rest with
         | piece :: pieces => (b :: piece) :: pieces
         | [] => [[b]]
         end
  end.

(** [str::split_once] at a one-byte character. *)
Fixpoint split_once (sep : byte) (s : str) : option (str * str) :=
  match s with
  | [] => None
  | b :: rest =>
    if bool_decide (b = sep) then Some ([], rest)
    else '(before, after) ← split_once sep rest; Some (b :: before, after)
  end.

(** [str::split_whitespace]; [word] is the word being read. *)
Fixpoint words (word : str) (cs : list str) : list str :=
  let finished := if bool_decide (word = []) then [] else [word] in
  match cs with
  | [] => finished
  | c :: rest => if is_whitespace c then finished ++ words [] rest else words (word ++ c) rest
  end.

Definition split_whitespace (s : str) : list str := words [] (chars (length s) s).

(** [u32::from_str]: an optional plus sign and decimal digits. *)
Fixpoint digits (acc : N) (s : str) : option N :=
  match s with
  | [] => Some acc
  | b :: rest =>
    if in_range 0x30 0x39 b then
      let acc := 10 * acc + (Byte.to_N b - 0x30) in
      if acc <=? u32_max then digits acc rest else None
    else None
  end.

Definition parse_u32 (s : str) : option N :=
  match s with
  | [] => None
  | b :: rest => if bool_decide (b = x2b) && negb (bool_decide (rest = [])) then digits 0 rest else digits 0 s
  end.

(** [str::replace] of one character by another. *)
Definition replace_byte (old new : byte) (s : str) : str :=
  (λ b, if bool_decide (b = old) then new else b) <$> s.

(** ** Fields *)

(** How a call ends without a value; [Diverged] is an exhausted fuel. *)
Inductive Fault := Refused (message : string) | Panicked | Diverged.

Record Field := mkField { fd_allowed : list bool; fd_low : N; fd_any : bool }.

Definition u32 (x : N) : N := x mod 2 ^ 32.
(** [a - b] on [u32]. *)
Definition u32_sub (a b : N) : N := u32 (a + 2 ^ 32 - b).

Definition value (text : str) (name : string) : result Fault N :=
  ok_or (parse_u32 (trim text)) (Refused (name +:+ " has a value that is not a number")).

(** The bounds and the step of one piece of a field. *)
Definition piece (low high : N) (name : string) (part : str) : result Fault (N * N * N) :=
  if bool_decide (part = []) then Err (Refused (name +:+ " has an empty piece"))
  else
    '(range, step) ←
      match split_once x2f part with
      | Some (range, step) =>
        step ← ok_or (parse_u32 step) (Refused (name +:+ " has a step that is not a number"));
        Ok (range, step)
      | None => Ok (part, 1)
      end;
    if step =? 0 then Err (Refused (name +:+ " has a step of zero"))
    else
      '(from, to) ←
        (if bool_decide (range = [x2a]) then Ok (low, high)
         else match split_once x2d range with
              | Some (from, to) => from ← value from name; to ← value to name; Ok (from, to)
              | None => one ← value range name; Ok (if step =? 1 then (one, one) else (one, high))
              end);
      if (from <? low) || (high <? to) || (to <? from) then
        Err (Refused (name +:+ " must be between " +:+ pretty low +:+ " and " +:+ pretty high))
      else Ok (from, to, step).

(** The [while] loop that allows every [step]th value up to [to]. *)
Fixpoint mark (fuel : nat) (low to step at_ : N) (allowed : list bool) : result Fault (list bool) :=
  match fuel with
  | O => Err Diverged
  | S fuel =>
    if at_ <=? to then
      let index := u32_sub at_ low in
      if index <? len allowed then
        mark fuel low to step (u32 (at_ + step)) (<[N.to_nat index := true]> allowed)
      else Err Panicked
    else Ok allowed
  end.

Definition add_piece (low high : N) (name : string) (allowed : list bool) (part : str)
    : result Fault (list bool) :=
  '(from, to, step) ← piece low high name (trim part);
  mark (N.to_nat to + 2) low to step from allowed.

(** [Field::parse]. *)
Definition field_parse (spec : str) (low high : N) (name : string) : result Fault Field :=
  allowed ← try_fold (add_piece low high name) (replicate (N.to_nat (high - low + 1)) false)
              (split_at x2c spec);
  if negb (existsb id allowed) then Err (Refused (name +:+ " matches nothing"))
  else Ok (mkField allowed low (bool_decide (trim spec = [x2a]))).

(** [Field::matches]. *)
Definition field_matches (f : Field) (v : N) : bool :=
  if fd_low f <=? v then default false (fd_allowed f !! N.to_nat (v - fd_low f)) else false.

(** ** Schedules *)

Record Schedule := mkSchedule {
  sc_minute : Field;
  sc_hour : Field;
  sc_day : Field;
  sc_month : Field;
  sc_weekday : Field;
}.

(** [Schedule::parse]. *)
Definition schedule_parse (expression : str) : result Fault Schedule :=
  match split_whitespace expression with
  | [f0; f1; f2; f3; f4] =>
    minute ← field_parse f0 0 59 "minute";
    hour ← field_parse f1 0 23 "hour";
    day ← field_parse f2 1 31 "day of month";
    month ← field_parse f3 1 12 "month";
    weekday ← field_parse (replace_byte x37 x30 f4) 0 6 "day of week";
    Ok (mkSchedule minute hour day month weekday)
  | fields =>
    Err (Refused ("a schedule has five fields, minute hour day month weekday, but "
                  +:+ pretty (len fields) +:+ " were given"))
  end.

(** ** The calendar *)

#[local] Open Scope Z_scope.

Record Civil := mkCivil {
  cv_month : N;
  cv_day : N;
  cv_hour : N;
  cv_minute : N;
  cv_weekday : N;
}.

(** Year, month and day of a day count; every quotient is of non-negative numbers. *)
Definition civil_from_days (days : Z) : Z * N * N :=
  let z := days + 719468 in
  let era := z / 146097 in
  let doe := z mod 146097 in
  let yoe := (doe - doe / 1460 + doe / 36524 - doe / 146096) / 365 in
  let year := yoe + era * 400 in
  let doy := doe - (365 * yoe + yoe / 4 - yoe / 100) in
  let mp := (5 * doy + 2) / 153 in
  let day := Z.to_N (doy - (153 * mp + 2) / 5 + 1) in
  let month := Z.to_N (if mp <? 10 then mp + 3 else mp - 9) in
  (if (month <=? 2)%N then year + 1 else year, month, day).

(** [Civil::from_epoch]. *)
Definition from_epoch (seconds : Z) : Civil :=
  let days := seconds / 86400 in
  let rest := seconds mod 86400 in
  let '(_, month, day) := civil_from_days days in
  mkCivil month day (Z.to_N (rest / 3600)) (Z.to_N (rest mod 3600 / 60))
    (Z.to_N ((days + 4) mod 7)).

(** [Schedule::matches]. *)
Definition schedule_matches (s : Schedule) (c : Civil) : bool :=
  if negb (field_matches (sc_minute s) (cv_minute c)) || negb (field_matches (sc_hour s) (cv_hour c))
  then false
  else if negb (field_matches (sc_month s) (cv_month c)) then false
  else match fd_any (sc_day s), fd_any (sc_weekday s) with
       | false, false =>
         field_matches (sc_day s) (cv_day c) || field_matches (sc_weekday s) (cv_weekday c)
       | _, _ =>
         field_matches (sc_day s) (cv_day c) && field_matches (sc_weekday s) (cv_weekday c)
       end.

(** ** The search *)

(** Wrap-around of an [i64]. *)
Definition i64 (z : Z) : Z := (z + 2 ^ 63) mod 2 ^ 64 - 2 ^ 63.

(** At most [p] rounds of a loop whose body goes on ([inl]) or returns ([inr]). *)
Fixpoint rounds {S R} (p : positive) (body : S → S + R) (s : S) : S + R :=
  match p with
  | xH => body s
  | xO p => match rounds p body s with inl s => rounds p body s | inr r => inr r end
  | xI p =>
    match body s with
    | inl s => match rounds p body s with inl s => rounds p body s | inr r => inr r end
    | inr r => inr r
    end
  end.

Definition search_window : Z := 4 * 366 * 24 * 60 * 60.

Definition search_body (s : Schedule) (limit at_ : Z) : Z + option Z :=
  if at_ <? limit then
    if schedule_matches s (from_epoch at_) then inr (Some at_) else inl (i64 (at_ + 60))
  else inr None.

(** [Schedule::next_after]; the outer [None] is an exhausted fuel. *)
Definition next_after (s : Schedule) (after : Z) : option (option Z) :=
  let start := i64 (i64 (after ÷ 60 + 1) * 60) in
  let limit := i64 (start + search_window) in
  match rounds 2108161 (search_body s limit) start with
  | inr found => Some found
  | inl _ => None
  end.

(** ** The Gregorian calendar *)

Definition leap (y : Z) : bool := (y mod 4 =? 0) && negb (y mod 100 =? 0) || (y mod 400 =? 0).

Definition month_days (y : Z) (m : N) : N :=
  match m with
  | 2%N => if leap y then 29 else 28
  | 4%N | 6%N | 9%N | 11%N => 30
  | _ => 31
  end.

(** The day after a date. *)
Definition next_day (date : Z * N * N) : Z * N * N :=
  let '(y, m, d) := date in
  if (d <? month_days y m)%N then (y, m, (d + 1)%N)
  else if (m <? 12)%N then (y, (m + 1)%N, 1%N) else (y + 1, 1%N, 1%N).

Definition valid_date (date : Z * N * N) : Prop :=
  let '(y, m, d) := date in (1 <= m <= 12)%N ∧ (1 <= d <= month_days y m)%N.

(** Month and day of a day of the year that starts in March. *)
Definition month_day (doy : Z) : N * N :=
  let mp := (5 * doy + 2) / 153 in
  (Z.to_N (if mp <? 10 then mp + 3 else mp - 9), Z.to_N (doy - (153 * mp + 2) / 5 + 1)).

(** The date of day [doy] of March year [y]. *)
Definition march_date (y doy : Z) : Z * N * N :=
  let '(m, d) := month_day doy in (if (m <=? 2)%N then y + 1 else y, m, d).

(** Position of a day in its era of 400 years: century, leap cycle, year, day. *)
Record position (doe a b c doy : Z) : Prop := {
  pos_a : 0 <= a <= 3;
  pos_b : 0 <= b <= 24;
  pos_c : 0 <= c <= 3;
  pos_doy : 0 <= doy <= 364 ∨ doy = 365 ∧ c = 3 ∧ (b < 24 ∨ a = 3);
  pos_doe : doe = 36524 * a + 1461 * b + 365 * c + doy;
}.

Lemma position_exists doe :
  0 <= doe < 146097 → ∃ a b c doy, position doe a b c doy.
Proof.
  intros Hd.
  assert (∃ a r, 0 <= a <= 3 ∧ doe = 36524 * a + r ∧ 0 <= r ∧ (r < 36524 ∨ a = 3 ∧ r = 36524))
    as (a & r & Ha & -> & Hr & Hr').
  { exists (Z.min 3 (doe / 36524)), (doe - 36524 * Z.min 3 (doe / 36524)).
    Z.to_euclidean_division_equations; lia. }
  assert (∃ b q, 0 <= b <= 24 ∧ r = 1461 * b + q ∧ 0 <= q < 1461) as (b & q & Hb & -> & Hq).
  { exists (r / 1461), (r - 1461 * (r / 1461)). Z.to_euclidean_division_equations; lia. }
  assert (∃ c y, 0 <= c <= 3 ∧ q = 365 * c + y ∧ 0 <= y ∧ (y < 365 ∨ c = 3 ∧ y = 365))
    as (c & y & Hc & -> & Hy & Hy').
  { exists (Z.min 3 (q / 365)), (q - 365 * Z.min 3 (q / 365)).
    Z.to_euclidean_division_equations; lia. }
  exists a, b, c, y. split; lia.
Qed.

Lemma position_year doe a b c doy :
  position doe a b c doy →
  (doe - doe / 1460 + doe / 36524 - doe / 146096) / 365 = 100 * a + 4 * b + c.
Proof.
  intros [Ha Hb Hc Hy ->].
  assert (a = 0 ∨ a = 1 ∨ a = 2 ∨ a = 3) as Hcase by lia.
  destruct Hcase as [-> | [-> | [-> | ->]]]; Z.to_euclidean_division_equations; lia.
Qed.

Lemma position_days a b c :
  0 <= a <= 3 → 0 <= b <= 24 → 0 <= c <= 3 →
  365 * (100 * a + 4 * b + c) + (100 * a + 4 * b + c) / 4 - (100 * a + 4 * b + c) / 100
  = 36524 * a + 1461 * b + 365 * c.
Proof. intros. Z.to_euclidean_division_equations; lia. Qed.

Lemma civil_of_position era doe a b c doy :
  position doe a b c doy →
  civil_from_days (146097 * era + doe - 719468) = march_date (400 * era + 100 * a + 4 * b + c) doy.
Proof.
  intros Hp. pose proof (position_year _ _ _ _ _ Hp) as Hyoe.
  destruct Hp as [Ha Hb Hc Hy Hdoe].
  unfold civil_from_days, march_date, month_day.
  replace (146097 * era + doe - 719468 + 719468) with (doe + era * 146097) by lia.
  rewrite Z.div_add, Z.mod_add, (Z.div_small doe), (Z.mod_small doe) by lia.
  cbv zeta. rewrite Hyoe, position_days by lia.
  replace (doe - (36524 * a + 1461 * b + 365 * c)) with doy by lia.
  by replace (100 * a + 4 * b + c + (0 + era) * 400) with (400 * era + 100 * a + 4 * b + c) by lia.
Qed.

(** Within a March year the next day is the next day of its month, as if February had
    29 days. *)
Lemma month_day_next doy :
  0 <= doy <= 364 →
  let '(m, d) := month_day doy in
  month_day (doy + 1)
  = if (d <? (if m =? 2 then 29 else month_days 1 m))%N then (m, (d + 1)%N)
    else if (m <? 12)%N then ((m + 1)%N, 1%N) else (1%N, 1%N).
Proof.
  intros Hd.
  assert (forallb (λ n, let doy := Z.of_nat n in
    let '(m, d) := month_day doy in
    bool_decide (month_day (doy + 1)
      = if (d <? (if m =? 2 then 29 else month_days 1 m))%N then (m, (d + 1)%N)
        else if (m <? 12)%N then ((m + 1)%N, 1%N) else (1%N, 1%N))) (seq 0 365) = true) as Hall
    by by vm_compute.
  rewrite forallb_forall in Hall. specialize (Hall (Z.to_nat doy)).
  cbv beta zeta in Hall. rewrite in_seq, Z2Nat.id in Hall by lia. specialize (Hall ltac:(lia)).
  destruct (month_day doy) as [m d]. by apply bool_decide_eq_true in Hall.
Qed.

(** The bounds of a date, and which days are February 28 and 29. *)
Lemma month_day_bounds doy :
  0 <= doy <= 365 →
  let '(m, d) := month_day doy in
  (1 <= m <= 12 ∧ 1 <= d <= if m =? 2 then 29 else month_days 1 m)%N
  ∧ (m = 2%N → d = 28%N ↔ doy = 364) ∧ (m = 2%N → d = 29%N ↔ doy = 365).
Proof.
  intros Hd.
  assert (forallb (λ n, let doy := Z.of_nat n in
    let '(m, d) := month_day doy in
    bool_decide ((1 <= m <= 12 ∧ 1 <= d <= if m =? 2 then 29 else month_days 1 m)%N)
    && (negb (m =? 2)%N || (bool_decide (d = 28%N ↔ doy = 364) && bool_decide (d = 29%N ↔ doy = 365))))
    (seq 0 366) = true) as Hall by by vm_compute.
  rewrite forallb_forall in Hall. specialize (Hall (Z.to_nat doy)).
  cbv beta zeta in Hall. rewrite in_seq, Z2Nat.id in Hall by lia. specialize (Hall ltac:(lia)).
  destruct (month_day doy) as [m d]. apply andb_true_iff in Hall as [Hb Hf].
  apply bool_decide_eq_true in Hb. split; [done|].
  split; intros ->; cbn in Hf; apply andb_true_iff in Hf as [H1 H2];
    [by apply bool_decide_eq_true in H1|by apply bool_decide_eq_true in H2].
Qed.

Lemma leap_position era a b c :
  0 <= a <= 3 → 0 <= b <= 24 → 0 <= c <= 3 →
  leap (400 * era + 100 * a + 4 * b + c + 1) = true ↔ c = 3 ∧ (b < 24 ∨ a = 3).
Proof.
  intros Ha Hb Hc. unfold leap. rewrite orb_true_iff, andb_true_iff, negb_true_iff, !Z.eqb_eq, Z.eqb_neq.
  Z.to_euclidean_division_equations; lia.
Qed.

(** Months other than February do not depend on the year. *)
Lemma month_days_other y m : m ≠ 2%N → month_days y m = month_days 1 m.
Proof. intros Hm. unfold month_days. repeat (destruct m as [|m]; try done); destruct m; try done; by destruct m. Qed.

Lemma march_date_next y doy :
  0 <= doy <= 364 → (doy = 364 → leap (y + 1) = true) →
  march_date y (doy + 1) = next_day (march_date y doy).
Proof.
  intros Hd Hl. pose proof (month_day_next doy Hd) as Hn.
  pose proof (month_day_bounds doy ltac:(lia)) as Hb. unfold march_date.
  destruct (month_day doy) as [m d]. rewrite Hn. clear Hn. destruct Hb as (Hb & H28 & H29).
  unfold next_day. destruct (N.eqb_spec m 2) as [->|Hm].
  - change ((2 <=? 2)%N) with true. cbv iota. cbn [month_days].
    assert (d ≠ 29%N) by (intros Hd29; apply H29 in Hd29; [lia|done]).
    change (2 =? 2)%N with true in Hb. cbv iota in Hb.
    destruct (N.ltb_spec d 29) as [Hlt|]; [|lia].
    destruct (leap (y + 1)) eqn:E; cbv iota.
    { destruct (N.ltb_spec d 29); [done|lia]. }
    destruct (N.ltb_spec d 28); [done|].
    assert (d = 28%N) as Hd28 by lia. apply H28 in Hd28; [|done]. specialize (Hl Hd28). congruence.
  - rewrite (month_days_other (if (m <=? 2)%N then y + 1 else y)) by done.
    destruct (d <? month_days 1 m)%N; [done|].
    destruct (N.ltb_spec m 12).
    + destruct (N.leb_spec m 2), (N.leb_spec (m + 1) 2); try done; lia.
    + assert (m = 12%N) as -> by lia. done.
Qed.

Lemma march_date_last y doy :
  doy = 365 ∧ leap (y + 1) = true ∨ doy = 364 ∧ leap (y + 1) = false →
  next_day (march_date y doy) = march_date (y + 1) 0.
Proof.
  assert (march_date y 365 = (y + 1, 2%N, 29%N)) as H365 by done.
  assert (march_date y 364 = (y + 1, 2%N, 28%N)) as H364 by done.
  assert (march_date (y + 1) 0 = (y + 1, 3%N, 1%N)) as -> by done.
  intros [[-> Hl]|[-> Hl]]; rewrite ?H365, ?H364; unfold next_day; cbn [month_days]; by rewrite Hl.
Qed.

Lemma march_date_valid y doy :
  0 <= doy <= 365 → (doy = 365 → leap (y + 1) = true) → valid_date (march_date y doy).
Proof.
  intros Hd Hl. pose proof (month_day_bounds doy Hd) as Hb. unfold march_date, valid_date.
  destruct (month_day doy) as [m d]. destruct Hb as ((Hm & Hday) & H28 & H29).
  split; [done|]. destruct (N.eqb_spec m 2) as [->|Hne].
  - change (2 <=? 2)%N with true. cbv iota. cbn [month_days].
    destruct (leap (y + 1)) eqn:E; [done|].
    assert (d ≠ 29%N); [|lia]. intros Hd29. apply H29 in Hd29; [|done]. specialize (Hl Hd29). congruence.
  - by rewrite month_days_other.
Qed.

(** Every day count has a position in its era. *)
Lemma days_position days :
  ∃ era a b c doy, position (days + 719468 - 146097 * era) a b c doy.
Proof.
  exists ((days + 719468) / 146097). apply position_exists.
  Z.to_euclidean_division_equations; lia.
Qed.

Lemma position_leap era doe a b c doy :
  position doe a b c doy → doy = 365 → leap (400 * era + 100 * a + 4 * b + c + 1) = true.
Proof. intros [] ->. apply leap_position; lia. Qed.

(** The position of the next day: in the same year, or the first of the next one. *)
Lemma civil_next era doe a b c doy :
  position doe a b c doy →
  civil_from_days (146097 * era + doe - 719468 + 1)
  = next_day (march_date (400 * era + 100 * a + 4 * b + c) doy).
Proof.
  intros Hp. pose proof Hp as [Ha Hb Hc Hy Hdoe].
  set (Y := 400 * era + 100 * a + 4 * b + c).
  pose proof (leap_position era a b c Ha Hb Hc) as Hl. fold Y in Hl.
  destruct (decide (doy < 364 ∨ doy = 364 ∧ leap (Y + 1) = true)) as [Hin|Hout].
  - rewrite <- march_date_next by naive_solver lia.
    unfold Y. rewrite <- (civil_of_position era (doe + 1) a b c (doy + 1)); [f_equal; lia|].
    split; try done; [|lia]. destruct Hin as [|[-> Hlp]]; [lia|]. right. split; [done|by apply Hl].
  - assert (doy = 365 ∧ leap (Y + 1) = true ∨ doy = 364 ∧ leap (Y + 1) = false) as Hend.
    { destruct (leap (Y + 1)) eqn:E; [left; split; [naive_solver lia|done]|right; split; [|done]].
      destruct Hy as [Hy|[-> Hy]]; [naive_solver lia|]. by apply Hl in Hy. }
    rewrite march_date_last by done.
    assert (∃ era' a' b' c', 400 * era' + 100 * a' + 4 * b' + c' = Y + 1
      ∧ position (146097 * era + doe + 1 - 146097 * era') a' b' c' 0) as (era' & a' & b' & c' & HY & Hp').
    { destruct (decide (c < 3)); [exists era, a, b, (c + 1); split; [lia|split; naive_solver lia]|].
      destruct (decide (b < 24)); [exists era, a, (b + 1), 0; split; [lia|split; naive_solver lia]|].
      destruct (decide (a < 3)); [exists era, (a + 1), 0, 0; split; [lia|split; naive_solver lia]|].
      exists (era + 1), 0, 0, 0; split; [lia|split; naive_solver lia]. }
    rewrite <- HY, <- (civil_of_position era' _ a' b' c' 0 Hp'). f_equal. lia.
Qed.

(** C38: the node's calendar is the Gregorian one.  Day 0 is 1970-01-01, and the date of
    the day after any day, before or after the epoch, is the next date of the calendar;
    every date it gives is a day of a month. *)
Theorem calendar_exact :
  civil_from_days 0 = (1970, 1%N, 1%N)
  ∧ (∀ days, civil_from_days (days + 1) = next_day (civil_from_days days))
  ∧ (∀ days, valid_date (civil_from_days days)).
Proof.
  split; [done|]. split; intros days; destruct (days_position days) as (era & a & b & c & doy & Hp);
    pose proof (civil_of_position era _ _ _ _ _ Hp) as Hc;
    replace (146097 * era + (days + 719468 - 146097 * era) - 719468) with days in Hc by lia;
    rewrite Hc.
  - rewrite <- (civil_next era _ _ _ _ _ Hp). f_equal. lia.
  - apply march_date_valid; [destruct Hp; lia|]. by apply (position_leap era _ _ _ _ _ Hp).
Qed.

(** ** The search *)

Definition fires (s : Schedule) (t : Z) : Prop := schedule_matches s (from_epoch t) = true.

#[global] Instance fires_dec s t : Decision (fires s t).
Proof. unfold fires. apply _. Defined.

Lemma i64_id z : - 2 ^ 63 <= z < 2 ^ 63 → i64 z = z.
Proof. intros Hz. unfold i64. rewrite Z.mod_small; lia. Qed.

(** What at most [n] rounds of the search have seen. *)
Definition searched (s : Schedule) (limit at_ n : Z) (r : Z + option Z) : Prop :=
  match r with
  | inl at' => at' = at_ + 60 * n ∧ ∀ j, 0 <= j < n → at_ + 60 * j < limit ∧ ¬ fires s (at_ + 60 * j)
  | inr (Some t) => ∃ k, 0 <= k < n ∧ t = at_ + 60 * k ∧ t < limit ∧ fires s t
                    ∧ ∀ j, 0 <= j < k → ¬ fires s (at_ + 60 * j)
  | inr None => ∀ j, 0 <= j → at_ + 60 * j < limit → ¬ fires s (at_ + 60 * j)
  end.

Lemma searched_seq s limit at_ n m r :
  0 <= n → 0 <= m → searched s limit at_ n (inl (at_ + 60 * n)) →
  searched s limit (at_ + 60 * n) m r → searched s limit at_ (n + m) r.
Proof.
  intros Hn Hm [_ H1] H2.
  assert (∀ j, at_ + 60 * n + 60 * (j - n) = at_ + 60 * j) as Hj by (intros; lia).
  destruct r as [at'|[t|]]; cbn in *.
  - destruct H2 as [-> H2]. split; [lia|]. intros j Hr.
    destruct (decide (j < n)); [apply H1; lia|]. rewrite <- (Hj j). apply H2. lia.
  - destruct H2 as (k & Hk & -> & Hlt & Hf & Hno). exists (n + k).
    split_and!; [lia..|done|]. intros j Hr.
    destruct (decide (j < n)); [apply H1; lia|]. rewrite <- (Hj j). apply Hno. lia.
  - intros j Hr Hlt. destruct (decide (j < n)); [apply H1; lia|].
    rewrite <- (Hj j) in *. apply H2; [lia|done].
Qed.

Lemma search_body_searched s limit at_ :
  - 2 ^ 63 <= at_ → limit < 2 ^ 63 - 60 → searched s limit at_ 1 (search_body s limit at_).
Proof.
  intros Hat Hlimit. unfold search_body. destruct (Z.ltb_spec at_ limit) as [Hlt|Hge].
  - destruct (schedule_matches s (from_epoch at_)) eqn:E; cbn.
    + exists 0. rewrite Z.mul_0_r, Z.add_0_r. split_and!; [lia..|done|]. lia.
    + rewrite i64_id by lia. split; [lia|]. intros j Hj. replace j with 0 by lia.
      rewrite Z.mul_0_r, Z.add_0_r. split; [done|]. unfold fires. by rewrite E.
  - cbn. lia.
Qed.

Lemma searched_then s limit at_ n m r (k : Z → Z + option Z) :
  0 <= n → 0 <= m → - 2 ^ 63 <= at_ → searched s limit at_ n r →
  (∀ at', - 2 ^ 63 <= at' → searched s limit at' m (k at')) →
  searched s limit at_ (n + m) (match r with inl at' => k at' | inr f => inr f end).
Proof.
  intros Hn Hm Hat Hr Hk. destruct r as [at'|[t|]]; [|destruct Hr as (j & Hj & Hr); exists j; by split; [lia|]|done].
  pose proof Hr as [-> _]. apply searched_seq; [done..|]. apply Hk. lia.
Qed.

Lemma rounds_searched s limit p at_ :
  - 2 ^ 63 <= at_ → limit < 2 ^ 63 - 60 →
  searched s limit at_ (Z.pos p) (rounds p (search_body s limit) at_).
Proof.
  intros Hat Hlimit. revert at_ Hat. induction p as [p IH|p IH|]; intros at_ Hat; cbn [rounds].
  - replace (Z.pos p~1) with (1 + (Z.pos p + Z.pos p)) by lia.
    apply (searched_then s limit at_ 1 _ _
      (λ at', match rounds p (search_body s limit) at' with
              | inl at' => rounds p (search_body s limit) at' | inr f => inr f end));
      [lia..|by apply search_body_searched|].
    intros at' Hat'. by apply searched_then; [lia..|apply IH|].
  - replace (Z.pos p~0) with (Z.pos p + Z.pos p) by lia. by apply searched_then; [lia..|apply IH|].
  - by apply search_body_searched.
Qed.

(** The search ends, and has seen the minutes of its window. *)
Lemma next_after_searched s after :
  0 <= after <= 2 ^ 62 →
  let start := (after / 60 + 1) * 60 in
  ∃ found, next_after s after = Some found
  ∧ searched s (start + search_window) start 2108161 (inr found).
Proof.
  intros Hafter start. unfold next_after.
  assert (after ÷ 60 = after / 60) as -> by (apply Z.quot_div_nonneg; lia).
  rewrite (i64_id (after / 60 + 1)), (i64_id ((after / 60 + 1) * 60)), i64_id
    by (unfold search_window; Z.to_euclidean_division_equations; lia). fold start.
  assert (after < start <= after + 60) as Hs
    by (unfold start; Z.to_euclidean_division_equations; lia).
  pose proof (rounds_searched s (start + search_window) 2108161 start ltac:(lia)
    ltac:(unfold search_window; lia)) as Hr.
  destruct (rounds _ _ start) as [at'|found]; [|by exists found].
  destruct Hr as [_ Hr]. destruct (Hr 2108160 ltac:(lia)) as [Hlt _]. unfold search_window in Hlt. lia.
Qed.

(** C39: the search for the next run ends and finds the first one.  For every time from
    the epoch on, the loop ends within its window; a time it returns is the least whole
    minute after the given time at which the schedule fires, and when it returns none the
    schedule does not fire within the four-year window. *)
Theorem next_after_least s after :
  0 <= after <= 2 ^ 62 →
  ∃ found, next_after s after = Some found
  ∧ match found with
    | Some t => after < t ∧ t mod 60 = 0 ∧ fires s t
                ∧ ∀ u, after < u < t → u mod 60 = 0 → ¬ fires s u
    | None => ∀ u, after < u <= after + search_window → u mod 60 = 0 → ¬ fires s u
    end.
Proof.
  intros Hafter. destruct (next_after_searched s after Hafter) as (found & -> & Hr).
  set (start := (after / 60 + 1) * 60) in Hr.
  assert (after < start <= after + 60 ∧ start mod 60 = 0) as [Hs Hm].
  { unfold start. rewrite Z.mod_mul by lia. Z.to_euclidean_division_equations; lia. }
  assert (∀ u, after < u → u mod 60 = 0 → ∃ j, 0 <= j ∧ u = start + 60 * j) as Hgrid.
  { intros u Hu Hmod. exists ((u - start) / 60). Z.to_euclidean_division_equations; lia. }
  exists found. split; [done|]. destruct found as [t|]; cbn [searched] in Hr.
  - destruct Hr as (k & Hk & -> & _ & Hf & Hno).
    split_and!; [lia|Z.to_euclidean_division_equations; lia|done|].
    intros u Hu Hmod. destruct (Hgrid u ltac:(lia) Hmod) as (j & Hj & ->). apply Hno. lia.
  - intros u Hu Hmod. destruct (Hgrid u ltac:(lia) Hmod) as (j & Hj & ->). apply Hr; lia.
Qed.

#[local] Close Scope Z_scope.

(** ** Fields *)

Lemma lookup_mark (l : list bool) i j :
  (j < length l)%nat → <[j := true]> l !! i = Some true ↔ l !! i = Some true ∨ i = j.
Proof.
  intros Hj. destruct (decide (i = j)) as [->|Hne].
  - rewrite list_lookup_insert_eq by done. naive_solver.
  - rewrite list_lookup_insert_ne by done. naive_solver.
Qed.

(** The values a piece stands for. *)
Definition steps_from (from to step v : N) : Prop := v ≤ to ∧ ∃ k, v = from + step * k.

Lemma steps_from_cons at_ to step v :
  at_ ≤ to → steps_from at_ to step v ↔ v = at_ ∨ steps_from (at_ + step) to step v.
Proof.
  intros Hat. unfold steps_from. split.
  - intros [Hv [k ->]]. destruct (N.eq_dec k 0) as [->|Hk]; [left; lia|right]. split; [done|].
    exists (k - 1). rewrite N.mul_sub_distr_l. assert (step * 1 ≤ step * k) by (apply N.mul_le_mono_l; lia). lia.
  - intros [->|[Hv [k ->]]]; (split; [done|]); [exists 0; lia|exists (k + 1); lia].
Qed.

(** The loop of a step that does not overflow. *)
Lemma mark_spec fuel low to step at_ allowed :
  0 < step → to + step < 2 ^ 32 → low ≤ at_ → to < low + len allowed → to + 1 - at_ < N.of_nat fuel →
  ∃ allowed', mark fuel low to step at_ allowed = Ok allowed' ∧ length allowed' = length allowed
  ∧ ∀ i, allowed' !! i = Some true
         ↔ allowed !! i = Some true ∨ steps_from at_ to step (low + N.of_nat i).
Proof.
  intros Hstep Hto. revert at_ allowed. induction fuel as [|fuel IH]; intros at_ allowed Hlow Hlen Hfuel; [lia|].
  cbn [mark]. destruct (N.leb_spec at_ to) as [Hle|Hgt].
  - assert (u32_sub at_ low = at_ - low) as ->.
    { unfold u32_sub, u32. replace (at_ + 2 ^ 32 - low) with (at_ - low + 1 * 2 ^ 32) by lia.
      rewrite N.Div0.mod_add, N.mod_small; lia. }
    destruct (N.ltb_spec (at_ - low) (len allowed)); [|lia].
    assert (u32 (at_ + step) = at_ + step) as -> by (apply N.mod_small; lia).
    destruct (IH (at_ + step) (<[N.to_nat (at_ - low) := true]> allowed)) as (allowed' & -> & Hl & Hi).
    { lia. } { unfold len in *. by rewrite length_insert. } { lia. }
    exists allowed'. rewrite length_insert in Hl. split_and!; [done..|]. intros i.
    rewrite Hi, lookup_mark by (unfold len in *; lia). rewrite (steps_from_cons at_) by done.
    assert (i = N.to_nat (at_ - low) ↔ low + N.of_nat i = at_) as -> by lia. tauto.
  - exists allowed. split_and!; [done..|]. intros i. unfold steps_from. split; [by left|].
    intros [?|[Hv [k Hk]]]; [done|]. lia.
Qed.

(** The loop ends for every step, also when the counter wraps around. *)
Lemma mark_terminates fuel low to step at_ allowed :
  0 < step → step < 2 ^ 32 → to < 2 ^ 31 → at_ ≤ to → to + 2 ≤ N.of_nat fuel →
  mark fuel low to step at_ allowed ≠ Err Diverged.
Proof.
  intros Hstep Hs Hto Hat Hfuel. destruct (N.lt_ge_cases (to + step) (2 ^ 32)) as [Hup|Hdown].
  - assert (to + 1 - at_ < N.of_nat fuel) as Hf by lia. clear Hat Hfuel.
    revert at_ allowed Hf. induction fuel as [|fuel IH]; intros at_ allowed Hf; [lia|]. cbn [mark].
    destruct (N.leb_spec at_ to); [|done]. destruct (_ <? _); [|done].
    assert (u32 (at_ + step) = at_ + step) as -> by (apply N.mod_small; lia). apply IH. lia.
  - assert (at_ + 2 ≤ N.of_nat fuel) as Hf by lia. clear Hfuel.
    revert at_ allowed Hat Hf. induction fuel as [|fuel IH]; intros at_ allowed Hat Hf; [lia|]. cbn [mark].
    destruct (N.leb_spec at_ to); [|done]. destruct (_ <? _); [|done].
    destruct (N.lt_ge_cases (at_ + step) (2 ^ 32)) as [Hno|Hwrap].
    + assert (u32 (at_ + step) = at_ + step) as -> by (apply N.mod_small; lia).
      destruct fuel; [lia|]. cbn [mark]. destruct (N.leb_spec (at_ + step) to); [lia|done].
    + assert (u32 (at_ + step) = at_ + step - 2 ^ 32) as ->.
      { unfold u32. replace (at_ + step) with (at_ + step - 2 ^ 32 + 1 * 2 ^ 32) at 1 by lia.
        rewrite N.Div0.mod_add. apply N.mod_small. lia. }
      apply IH; lia.
Qed.

Lemma parse_u32_bound s n : parse_u32 s = Some n → n < 2 ^ 32.
Proof.
  assert (∀ t acc, acc < 2 ^ 32 → digits acc t = Some n → n < 2 ^ 32) as Hd.
  { induction t as [|b t IH]; intros acc Hacc; cbn; [by intros [= ->]|].
    destruct (in_range _ _ b); [|done]. destruct (N.leb_spec (10 * acc + (Byte.to_N b - 0x30)) u32_max); [|done].
    apply IH. unfold u32_max in *. lia. }
  unfold parse_u32. destruct s as [|b s]; [done|]. destruct (_ && _); by apply Hd.
Qed.

Lemma piece_Ok low high name part from to step :
  piece low high name part = Ok (from, to, step) →
  low ≤ from ∧ from ≤ to ∧ to ≤ high ∧ 0 < step ∧ step < 2 ^ 32.
Proof.
  unfold piece. intros H. destruct (bool_decide _); [done|].
  apply bind_Ok in H as ([range st] & Hst & H).
  destruct (N.eqb_spec st 0) as [|Hst0]; [done|].
  apply bind_Ok in H as ([f t] & Hft & H).
  destruct ((f <? low) || (high <? t) || (t <? f)) eqn:E; [done|]. injection H as [= <- <- <-].
  bool_facts. split_and!; [done..|lia|].
  destruct (split_once x2f part) as [[r s]|].
  - next Hst. injection Hst as [= <- <-]. apply ok_or_Ok in Hx. by eapply parse_u32_bound.
  - injection Hst as [= <- <-]. lia.
Qed.

(** No piece of the field has a step so large that adding it leaves 32 bits. *)
Definition steps_fit (spec : str) (low high : N) (name : string) : Prop :=
  ∀ part from to step, part ∈ split_at x2c spec →
    piece low high name (trim part) = Ok (from, to, step) → to + step < 2 ^ 32.

(** [v] is named by one of the pieces. *)
Definition named (low high : N) (name : string) (parts : list str) (v : N) : Prop :=
  ∃ part from to step, part ∈ parts
    ∧ piece low high name (trim part) = Ok (from, to, step) ∧ steps_from from to step v.

Lemma named_nil low high name v : ¬ named low high name [] v.
Proof. intros (part & ? & ? & ? & ?%not_elem_of_nil & _). done. Qed.

Lemma named_cons low high name part from to step parts v :
  piece low high name (trim part) = Ok (from, to, step) →
  named low high name (part :: parts) v
  ↔ steps_from from to step v ∨ named low high name parts v.
Proof.
  intros Hp. unfold named. split.
  - intros (p & f & t & s & [->|Hin]%elem_of_cons & Hpc & Hs); [left|right; eauto 10].
    rewrite Hp in Hpc. by injection Hpc as -> -> ->.
  - intros [Hs|(p & f & t & s & Hin & Hpc & Hs)];
      [exists part, from, to, step|exists p, f, t, s]; rewrite elem_of_cons; auto.
Qed.

Lemma add_pieces low high name parts allowed :
  (∀ part, part ∈ parts → is_ok (piece low high name (trim part)) = true) →
  (∀ part from to step, part ∈ parts →
    piece low high name (trim part) = Ok (from, to, step) → to + step < 2 ^ 32) →
  high < low + len allowed →
  ∃ allowed', try_fold (add_piece low high name) allowed parts = Ok allowed'
  ∧ length allowed' = length allowed
  ∧ ∀ i, allowed' !! i = Some true
         ↔ allowed !! i = Some true ∨ named low high name parts (low + N.of_nat i).
Proof.
  intros Hok Hfit. revert allowed. induction parts as [|part parts IH]; intros allowed Hlen; cbn [try_fold].
  { exists allowed. split_and!; [done..|]. intros i. pose proof (named_nil low high name (low + N.of_nat i)). tauto. }
  pose proof (Hok part ltac:(by left)) as Hp.
  destruct (piece low high name (trim part)) as [[[from to] step]|e] eqn:E; [|done].
  pose proof (piece_Ok _ _ _ _ _ _ _ E) as (Hlow & Hft & Hhigh & Hstep & _).
  destruct (mark_spec (N.to_nat to + 2) low to step from allowed Hstep) as (a1 & Hmark & Hl1 & Hi1);
    [by eapply Hfit; [left|]|done|lia|lia|].
  assert (add_piece low high name allowed part = Ok a1) as ->
    by (unfold add_piece; rewrite E; exact Hmark).
  cbn [mbind result_bind].
  destruct (IH ltac:(intros; apply Hok; by right) ltac:(intros; eapply Hfit; [by right|done]) a1)
    as (a2 & -> & Hl2 & Hi2); [unfold len in *; lia|].
  exists a2. split_and!; [done|congruence|]. intros i. rewrite Hi2, Hi1, (named_cons _ _ _ _ _ _ _ _ _ E). tauto.
Qed.

Lemma split_at_nonempty sep s : split_at sep s ≠ [].
Proof. destruct s as [|b s]; cbn; [done|]. destruct (bool_decide _); [done|]. by destruct (split_at sep s). Qed.

(** a field means what its pieces say.  When no step leaves 32 bits, a field is
    accepted exactly when each of its comma-separated pieces is, and it then matches the
    values [from], [from + step], ... up to [to] of its pieces and no others. *)
Theorem field_parse_exact spec low high name :
  low ≤ high → steps_fit spec low high name →
  is_ok (field_parse spec low high name)
  = forallb (λ part, is_ok (piece low high name (trim part))) (split_at x2c spec)
  ∧ ∀ f, field_parse spec low high name = Ok f → ∀ v,
      field_matches f v = true ↔ named low high name (split_at x2c spec) v.
Proof.
  intros Hlh Hfit. unfold field_parse. set (parts := split_at x2c spec) in *.
  destruct (forallb _ parts) eqn:Eall.
  - rewrite forallb_forall in Eall. setoid_rewrite <- list_elem_of_In in Eall.
    destruct (add_pieces low high name parts (replicate (N.to_nat (high - low + 1)) false) Eall)
      as (allowed & -> & Hl & Hi); [exact Hfit|unfold len; rewrite length_replicate; lia|].
    cbn [mbind result_bind]. rewrite length_replicate in Hl.
    assert (∀ i, allowed !! i = Some true ↔ named low high name parts (low + N.of_nat i)) as Hn.
    { intros i. rewrite Hi. split; [|by right]. intros [Hr|?]; [|done].
      by apply lookup_replicate in Hr as [[=] _]. }
    assert (existsb id allowed = true) as ->.
    { destruct parts as [|part rest] eqn:Ep; [by apply split_at_nonempty in Ep|].
      specialize (Eall part ltac:(by left)).
      destruct (piece low high name (trim part)) as [[[from to] step]|e] eqn:E; [|done].
      pose proof (piece_Ok _ _ _ _ _ _ _ E) as (Hlow & Hft & Hhigh & Hstep & _).
      apply existsb_exists. exists true. split; [|done]. apply list_elem_of_In, list_elem_of_lookup.
      exists (N.to_nat (from - low)). apply Hn. exists part, from, to, step. split_and!; [by left|done|].
      unfold steps_from. split; [lia|]. exists 0. lia. }
    cbn [negb]. split; [done|]. intros f [= <-] v. unfold field_matches. cbn [fd_low fd_allowed].
    destruct (N.leb_spec low v) as [Hv|Hv].
    + replace v with (low + N.of_nat (N.to_nat (v - low))) at 2 by lia. rewrite <- Hn.
      by destruct (allowed !! N.to_nat (v - low)) as [[]|].
    + split; [done|]. intros (part & from & to & step & _ & Hp & _ & k & ->).
      apply piece_Ok in Hp. lia.
  - assert (∃ e, try_fold (add_piece low high name) (replicate (N.to_nat (high - low + 1)) false) parts = Err e)
      as [e ->]; [|done].
    clear Hfit. revert Eall. generalize (replicate (N.to_nat (high - low + 1)) false).
    induction parts as [|part rest IH]; intros allowed; cbn [forallb try_fold]; [done|].
    destruct (add_piece low high name allowed part) as [a|e] eqn:E; [|by eexists].
    unfold add_piece in E. destruct (piece low high name (trim part)); [|done]. by apply IH.
Qed.

(** ** Whole expressions *)

Lemma field_parse_terminates spec low high name :
  high < 2 ^ 31 → field_parse spec low high name ≠ Err Diverged.
Proof.
  intros Hh. unfold field_parse. intros [Hf|(allowed & _ & Hx)]%bind_Err;
    [|by destruct (negb (existsb id allowed))].
  revert Hf. generalize (replicate (N.to_nat (high - low + 1)) false).
  induction (split_at x2c spec) as [|part parts IH]; intros allowed; cbn [try_fold]; [done|].
  intros [Ha|(a1 & _ & Hrest)]%bind_Err; [|by eapply IH].
  unfold add_piece in Ha. destruct (piece low high name (trim part)) as [[[from to] step]|e] eqn:E.
  - apply piece_Ok in E as (? & ? & ? & ? & ?). revert Ha. apply mark_terminates; lia.
  - cbn in Ha. injection Ha as ->. revert E. unfold piece, value.
    destruct (bool_decide _); [done|].
    intros [Hs|([range step] & _ & Hs)]%bind_Err.
    { destruct (split_once x2f (trim part)) as [[r st]|]; [|done]. by destruct (parse_u32 st). }
    destruct (step =? 0); [done|]. apply bind_Err in Hs as [Hs|([from to] & _ & Hs)].
    + destruct (bool_decide _); [done|].
      destruct (split_once x2d range) as [[f t]|].
      * destruct (parse_u32 (trim f)), (parse_u32 (trim t)); done.
      * by destruct (parse_u32 (trim range)).
    + by destruct ((from <? low) || (high <? to) || (to <? from)).
Qed.

(** reading a schedule always ends.  Whatever the text of the expression, also with
    a step so large that the counter of a field wraps around, the loops of the parser
    end. *)
Theorem schedule_parse_terminates expression : schedule_parse expression ≠ Err Diverged.
Proof.
  unfold schedule_parse.
  destruct (split_whitespace expression) as [|f0 [|f1 [|f2 [|f3 [|f4 [|]]]]]]; try done.
  intros H. do 5 (apply bind_Err in H as [H|(? & _ & H)]; [by apply field_parse_terminates in H|]). done.
Qed.

(** seven is Sunday only on its own.  The expression [0 0 * * 7] is the one for day
    0, but a range that ends in seven and a step of seven are refused: the digit is
    replaced before the field is read. *)
Lemma sunday_seven_ranges_refused :
  schedule_parse (as_bytes "0 0 * * 7") = schedule_parse (as_bytes "0 0 * * 0")
  ∧ schedule_parse (as_bytes "0 0 * * 5-7") = Err (Refused "day of week must be between 0 and 6")
  ∧ schedule_parse (as_bytes "0 0 * * */7") = Err (Refused "day of week has a step of zero").
Proof. by vm_compute. Qed.

(** A step close to the width of the counter makes it wrap below the first day of a
    month, and the parser panics. *)
Lemma huge_step_panics : schedule_parse (as_bytes "* * 1/4294967295 * *") = Err Panicked.
Proof. by vm_compute. Qed.

#[local] Open Scope Z_scope.

(** The schedule of every February 29. *)
Definition leap_days : Schedule :=
  match schedule_parse (as_bytes "0 0 29 2 *") with
  | Ok s => s
  | Err _ => let f := mkField [] 0%N true in mkSchedule f f f f f
  end.

Definition names_day (s : Schedule) (days : Z) : bool :=
  let '(_, m, d) := civil_from_days days in
  field_matches (sc_month s) m && field_matches (sc_day s) d.

Lemma fires_names_day t : fires leap_days t → names_day leap_days (t / 86400) = true.
Proof.
  unfold fires, from_epoch, names_day. destruct (civil_from_days (t / 86400)) as [[y m] d].
  unfold schedule_matches. cbn [cv_month cv_day cv_minute cv_hour cv_weekday].
  assert (fd_any (sc_weekday leap_days) = true) as -> by by vm_compute.
  destruct (negb _ || negb _); [done|]. destruct (field_matches (sc_month leap_days) m); [|done].
  destruct (fd_any (sc_day leap_days)), (field_matches (sc_day leap_days) d); done.
Qed.

Lemma no_leap_day n : 46081 <= n < 46081 + 1465 → names_day leap_days n = false.
Proof.
  intros Hn.
  assert (forallb (λ i, negb (names_day leap_days (46081 + Z.of_nat i))) (seq 0 1465) = true) as Hall
    by by vm_compute.
  rewrite forallb_forall in Hall. specialize (Hall (Z.to_nat (n - 46081))).
  rewrite in_seq in Hall. specialize (Hall ltac:(lia)).
  replace (46081 + Z.of_nat (Z.to_nat (n - 46081))) with n in Hall by lia. by apply negb_true_iff.
Qed.

(** the four-year window misses a leap day.  After February 29 of 2096 the schedule
    of every February 29 has no next run, although it fires on February 29 of 2104. *)
Lemma century_leap_day_missed :
  schedule_parse (as_bytes "0 0 29 2 *") = Ok leap_days
  ∧ civil_from_days 46081 = (2096, 3%N, 1%N)
  ∧ next_after leap_days (46081 * 86400) = Some None
  ∧ civil_from_days 49001 = (2104, 2%N, 29%N) ∧ fires leap_days (49001 * 86400).
Proof.
  split; [by vm_compute|]. split; [by vm_compute|]. split; [|by vm_compute].
  destruct (next_after_searched leap_days (46081 * 86400) ltac:(lia)) as (found & Hn & Hr).
  rewrite Hn. clear Hn. destruct found as [t|]; [exfalso|reflexivity].
  destruct Hr as (k & Hk & Ht & Hlt & Hf & _). apply fires_names_day in Hf.
  rewrite no_leap_day in Hf; [done|]. clear Hf.
  unfold search_window in Hlt. Z.to_euclidean_division_equations; lia.
Qed.

(** three corners of the schedules.  Seven is Sunday on its own but not as the end of
    a range or as a step; a step close to the width of the counter makes the parser panic;
    and the four-year window misses February 29 across a century year: after February
    2096 the schedule of every February 29 has no next run, although it fires in 2104. *)
Theorem schedule_corner_cases :
  (schedule_parse (as_bytes "0 0 * * 7") = schedule_parse (as_bytes "0 0 * * 0")
   ∧ schedule_parse (as_bytes "0 0 * * 5-7") = Err (Refused "day of week must be between 0 and 6")
   ∧ schedule_parse (as_bytes "0 0 * * */7") = Err (Refused "day of week has a step of zero"))
  ∧ schedule_parse (as_bytes "* * 1/4294967295 * *") = Err Panicked
  ∧ schedule_parse (as_bytes "0 0 29 2 *") = Ok leap_days
  ∧ civil_from_days 46081 = (2096, 3%N, 1%N) ∧ next_after leap_days (46081 * 86400) = Some None
  ∧ civil_from_days 49001 = (2104, 2%N, 29%N) ∧ fires leap_days (49001 * 86400).
Proof.
  split; [exact sunday_seven_ranges_refused|]. split; [exact huge_step_panics|exact century_leap_day_missed].
Qed.

(** ** Witnesses *)

Definition workdays : Schedule :=
  match schedule_parse (as_bytes "0 10 * * 1-5") with Ok s => s | Err _ => leap_days end.

Lemma next_after_least_witness :
  next_after workdays 1767348000 = Some (Some 1767607200)
  ∧ ∃ found, next_after workdays 1767348000 = Some found
    ∧ match found with
      | Some t => 1767348000 < t ∧ t mod 60 = 0 ∧ fires workdays t
                  ∧ ∀ u, 1767348000 < u < t → u mod 60 = 0 → ¬ fires workdays u
      | None => ∀ u, 1767348000 < u <= 1767348000 + search_window → u mod 60 = 0 → ¬ fires workdays u
      end.
Proof. split; [by vm_compute|]. apply (next_after_least workdays 1767348000). lia. Defined.

Lemma field_parse_exact_witness :
  is_ok (field_parse (as_bytes "0,30-40/5") 0 59 "minute") = true
  ∧ ∀ f, field_parse (as_bytes "0,30-40/5") 0 59 "minute" = Ok f → ∀ v,
      field_matches f v = true ↔ named 0 59 "minute" (split_at x2c (as_bytes "0,30-40/5")) v.
Proof.
  destruct (field_parse_exact (as_bytes "0,30-40/5") 0 59 "minute" ltac:(lia)) as [Hok Hm].
  - intros part from to step Hin Hp. vm_compute (split_at _ _) in Hin.
    repeat (apply elem_of_cons in Hin as [->|Hin]; [vm_compute in Hp; injection Hp as <- <- <-; lia|]).
    by apply not_elem_of_nil in Hin.
  - split; [|exact Hm]. rewrite Hok. by vm_compute.
Defined.
