(* ===== verification/Ring.v ===== *)
(** * Ring: the owners of cache keys

    [crates/walleye-ring/src/lib.rs]: weighted rendezvous placement of cache keys on the
    nodes, and the membership with its warming window.  The hash, and the arithmetic on
    floats that turns a hash and a weight into a score, are parameters: only the order of
    the scores matters.  [Instant] and [Duration] are [N], in any unit. *)

From S2P Require Import Prelude Text.

(** xxh3 and [f64]; [total_cmp] orders the scores as the integers they are given as. *)
Class CacheHost := {
  xxh3 : list byte → N;
  float : Type;
  #[global] float_eq_dec :: EqDecision float;
  is_finite : float → bool;
  positive_weight : float → bool;
  race : N → float → Z;
}.

Record Node `{CacheHost} := mkCacheNode { cn_id : string; cn_endpoint : string; cn_weight : float }.
Arguments mkCacheNode {_} _ _ _.

#[global] Instance node_eq_dec `{CacheHost} : EqDecision Node.
Proof. solve_decision. Defined.

Inductive RingError := RingEmpty | InvalidMember | DuplicateMember.

Record Ring `{CacheHost} := mkRing {
  rg_members : list Node;
  rg_previous : option (list Node * N);
  rg_epoch : N;
}.
Arguments mkRing {_} _ _ _.

(** [str::starts_with]. *)
Definition starts_with (s prefix : string) : bool := String.prefix prefix s.

Section Ring.
Context `{CacheHost}.

(** [Node::validate]. *)
Definition node_validate (n : Node) : result RingError unit :=
  if bool_decide (cn_id n = "") || negb (is_finite (cn_weight n)) || negb (positive_weight (cn_weight n))
     || negb (starts_with (cn_endpoint n) "http://" || starts_with (cn_endpoint n) "https://")
  then Err InvalidMember else Ok tt.

(** [Node::new]. *)
Definition node_new (id endpoint : string) (weight : float) : result RingError Node :=
  let node := mkCacheNode id endpoint weight in
  _ ← node_validate node; Ok node.

Definition validate_one (seen : gset string) (n : Node) : result RingError (gset string) :=
  _ ← node_validate n;
  if bool_decide (cn_id n ∈ seen) then Err DuplicateMember else Ok ({[cn_id n]} ∪ seen).

Definition validate (members : list Node) : result RingError unit :=
  if bool_decide (members = []) then Err RingEmpty
  else _ ← try_fold validate_one ∅ members; Ok tt.

(** The bytes that are hashed: every part after its length. *)
Definition hash_input (key : list byte) (id : string) : list byte :=
  concat ((λ part, to_le_bytes 8 (len part) ++ part) <$> [key; as_bytes id]).

Definition score (node : Node) (key : list byte) : Z :=
  race (xxh3 (hash_input key (cn_id node))) (cn_weight node).

(** The comparison of [choose]: by score, then by identity. *)
Definition node_le (key : list byte) (a b : Node) : bool :=
  match (score a key ?= score b key)%Z with
  | Lt => true
  | Gt => false
  | Eq => bool_decide (String.le (cn_id a) (cn_id b))
  end.

(** [Iterator::min_by]: the first of the least elements. *)
Definition min_by {A} (le : A → A → bool) (l : list A) : option A :=
  foldl (λ acc x, match acc with
                  | None => Some x
                  | Some y => if le y x then Some y else Some x
                  end) None l.

(** [choose]; [None] is the panic of its [expect]. *)
Definition choose (members : list Node) (key : list byte) : option Node :=
  min_by (node_le key) members.

Definition ring_new (members : list Node) : result RingError Ring :=
  _ ← validate members; Ok (mkRing members None 0).

(** [Ring::replace]. *)
Definition replace (r : Ring) (members : list Node) (now warming : N) : result RingError Ring :=
  _ ← validate members;
  Ok (mkRing members (Some (rg_members r, now + warming)) ((rg_epoch r + 1) mod 2 ^ 64)).

Definition owner (r : Ring) (key : list byte) : option Node := choose (rg_members r) key.

(** [Ring::donor]; the outer [None] is a panic. *)
Definition donor (r : Ring) (key : list byte) (now : N) : option (option Node) :=
  match rg_previous r with
  | None => Some None
  | Some (previous, deadline) =>
    if deadline <=? now then Some None
    else
      donor ← choose previous key;
      current ← owner r key;
      Some (if negb (bool_decide (cn_id donor = cn_id current)) then Some donor else None)
  end.

Definition sort_by_id (l : list Node) : list Node :=
  merge_sort (λ a b, String.le (cn_id a) (cn_id b)) l.

(** [Membership::new] and [Membership::update]: the answer, and the ring that later
    snapshots see. *)
Definition membership_new (members : list Node) : result RingError Ring := ring_new members.

Definition update (r : Ring) (members : list Node) (now warming : N) : result RingError bool * Ring :=
  match validate members with
  | Err e => (Err e, r)
  | Ok _ =>
    let members := sort_by_id members in
    if bool_decide (sort_by_id (rg_members r) = members) then (Ok false, r)
    else match replace r members now warming with
         | Ok next => (Ok true, next)
         | Err e => (Err e, r)
         end
  end.

(** ** Choosing *)

Lemma min_by_spec {A} (le : A → A → bool) l :
  (∀ x y, le x y = true ∨ le y x = true) →
  (∀ x y z, le x y = true → le y z = true → le x z = true) →
  match min_by le l with
  | Some m => m ∈ l ∧ ∀ y, y ∈ l → le m y = true
  | None => l = []
  end.
Proof.
  intros Htot Htrans. unfold min_by. induction l as [|x l IH] using rev_ind; [done|].
  rewrite foldl_snoc. destruct (foldl _ None l) as [m|].
  - destruct IH as [Hm Hall]. destruct (le m x) eqn:E; (split; [set_solver|]);
      intros y [Hy| ->%list_elem_of_singleton]%elem_of_app; eauto.
    + destruct (Htot x m); [eauto|congruence].
    + by destruct (Htot x x).
  - subst l. split; [set_solver|]. intros y ->%list_elem_of_singleton. by destruct (Htot x x).
Qed.

Lemma node_le_total key a b : node_le key a b = true ∨ node_le key b a = true.
Proof.
  unfold node_le. rewrite (Z.compare_antisym (score a key)).
  destruct (score a key ?= score b key)%Z; cbn; [|auto..]. rewrite !bool_decide_eq_true. apply String.le_total.
Qed.

Lemma node_le_spec key a b :
  node_le key a b = true
  ↔ (score a key < score b key)%Z ∨ score a key = score b key ∧ String.le (cn_id a) (cn_id b).
Proof.
  unfold node_le. destruct (Z.compare_spec (score a key) (score b key)); cbn;
    rewrite ?bool_decide_eq_true; naive_solver lia.
Qed.

Lemma node_le_trans key a b c :
  node_le key a b = true → node_le key b c = true → node_le key a c = true.
Proof.
  rewrite !node_le_spec. intros [?|[? Hab]] [?|[? Hbc]]; [left; lia..|].
  right. split; [lia|]. by trans (cn_id b).
Qed.

(** Nodes with one identity are told apart by nothing else. *)
Lemma node_le_antisym key a b :
  node_le key a b = true → node_le key b a = true → cn_id a = cn_id b.
Proof.
  rewrite !node_le_spec. intros [?|[? Hab]] [?|[? Hba]]; [lia..|]. by apply (anti_symm String.le).
Qed.

Lemma choose_spec members key :
  match choose members key with
  | Some m => m ∈ members ∧ ∀ y, y ∈ members → node_le key m y = true
  | None => members = []
  end.
Proof. apply min_by_spec; [apply node_le_total|apply node_le_trans]. Qed.

Lemma choose_Some members key m :
  choose members key = Some m → m ∈ members ∧ ∀ y, y ∈ members → node_le key m y = true.
Proof. intros Hc. pose proof (choose_spec members key) as Hs. by rewrite Hc in Hs. Qed.

Lemma choose_nonempty members key : members ≠ [] → is_Some (choose members key).
Proof. intros Hne. pose proof (choose_spec members key). by destruct (choose members key). Qed.

(** ** Valid memberships *)

Definition valid (members : list Node) : Prop := validate members = Ok tt.

Lemma validate_loop members seen :
  is_ok (try_fold validate_one seen members) = true
  ↔ NoDup (cn_id <$> members) ∧ ∀ n, n ∈ members → node_validate n = Ok tt ∧ cn_id n ∉ seen.
Proof.
  revert seen. induction members as [|n members IH]; intros seen; cbn [try_fold fmap list_fmap].
  { split; [intros _|done]. split; [constructor|]. by intros n ?%not_elem_of_nil. }
  replace (validate_one seen n) with (node_validate n ≫= λ _,
    if bool_decide (cn_id n ∈ seen) then Err DuplicateMember else Ok ({[cn_id n]} ∪ seen)) by done.
  rewrite NoDup_cons. setoid_rewrite elem_of_cons.
  destruct (node_validate n) as [[]|e] eqn:Ev; cbn [mbind result_bind];
    [|split; [done|]; intros (_ & Hall); destruct (Hall n (or_introl eq_refl)); congruence].
  destruct (bool_decide (cn_id n ∈ seen)) eqn:Eb; cbn [mbind result_bind].
  { apply bool_decide_eq_true in Eb. split; [done|]. intros (_ & Hall). by destruct (Hall n (or_introl eq_refl)). }
  apply bool_decide_eq_false in Eb. rewrite IH. split.
  - intros [Hnd Hall]. split_and!; [|done|].
    + rewrite list_elem_of_fmap. intros (m & Heq & Hm). destruct (Hall m Hm). set_solver.
    + intros m [->|Hm]; [done|]. destruct (Hall m Hm). split; [done|set_solver].
  - intros ((Hnin & Hnd) & Hall). split; [done|]. intros m Hm. destruct (Hall m (or_intror Hm)).
    split; [done|]. assert (cn_id m ≠ cn_id n); [|set_solver].
    intros Heq. apply Hnin. rewrite <- Heq. by apply list_elem_of_fmap_2.
Qed.

Lemma valid_spec members :
  valid members
  ↔ members ≠ [] ∧ NoDup (cn_id <$> members) ∧ ∀ n, n ∈ members → node_validate n = Ok tt.
Proof.
  unfold valid, validate. pose proof (validate_loop members ∅) as Hl.
  destruct (bool_decide (members = [])) eqn:E; bool_facts; [naive_solver|].
  destruct (try_fold validate_one ∅ members) as [seen|e]; cbn in *;
    (split; [intros ?|intros (_ & Hnd & Hall)]); [|done..|].
  - destruct Hl as [Hl _]. destruct (Hl eq_refl) as [? Hall]. split_and!; [done..|]. intros n Hn. by apply Hall.
  - destruct Hl as [_ Hl]. assert (false = true); [|done]. apply Hl.
    split; [done|]. intros n Hn. split; [by apply Hall|set_solver].
Qed.

Lemma valid_Permutation members members' : members ≡ₚ members' → valid members → valid members'.
Proof.
  intros Hp. rewrite !valid_spec. intros (Hne & Hnd & Hall). split_and!.
  - intros ->. by apply Permutation_nil_r in Hp.
  - by rewrite <- Hp.
  - intros n Hn. apply Hall. by rewrite Hp.
Qed.

(** Two members of a valid membership with one identity are the same node. *)
Lemma valid_unique members a b :
  valid members → a ∈ members → b ∈ members → cn_id a = cn_id b → a = b.
Proof.
  intros (_ & Hnd & _)%valid_spec Ha Hb Heq.
  apply list_elem_of_lookup in Ha as [i Hi]. apply list_elem_of_lookup in Hb as [j Hj].
  assert (i = j) as ->; [|congruence].
  apply (NoDup_lookup (cn_id <$> members) i j (cn_id a)); [done|..]; rewrite list_lookup_fmap.
  - by rewrite Hi.
  - by rewrite Hj, Heq.
Qed.

Lemma merge_by_id l k : valid l → l ≡ₚ k ↔ sort_by_id l = sort_by_id k.
Proof.
  intros Hv. unfold sort_by_id. split.
  - intros Hp. set (R := λ a b, String.le (cn_id a) (cn_id b)).
    assert (Transitive R) by (intros ???; unfold R; apply transitivity).
    assert (Total R) by (intros ??; apply String.le_total).
    apply (StronglySorted_unique_strong R).
    + intros x1 x2 Hx1 Hx2 H12 H21. rewrite merge_sort_Permutation in Hx1, Hx2. rewrite <- Hp in Hx2.
      apply (valid_unique l); [done..|]. by apply (anti_symm String.le).
    + by apply StronglySorted_merge_sort.
    + by apply StronglySorted_merge_sort.
    + by rewrite !merge_sort_Permutation.
  - intros Heq. rewrite <- (merge_sort_Permutation (λ a b, String.le (cn_id a) (cn_id b)) l), Heq.
    apply merge_sort_Permutation.
Qed.

(** ** Runs of a membership *)

Definition previous_valid (r : Ring) : Prop :=
  match rg_previous r with Some (previous, _) => valid previous | None => True end.

Definition ring_inv (r : Ring) : Prop := valid (rg_members r) ∧ previous_valid r.

Definition ring_step (r r' : Ring) : Prop :=
  ∃ members now warming answer, update r members now warming = (answer, r').

(** What an update does to a valid ring. *)
Lemma update_cases r members now warming :
  valid (rg_members r) →
  update r members now warming
  = match validate members with
    | Err e => (Err e, r)
    | Ok _ =>
      if bool_decide (rg_members r ≡ₚ members) then (Ok false, r)
      else (Ok true, mkRing (sort_by_id members) (Some (rg_members r, now + warming))
                       ((rg_epoch r + 1) mod 2 ^ 64))
    end.
Proof.
  intros Hv. unfold update. destruct (validate members) as [[]|e] eqn:E; [|done].
  rewrite (bool_decide_ext _ _ (symmetry (merge_by_id (rg_members r) members Hv))).
  destruct (bool_decide _); [done|]. unfold replace.
  assert (validate (sort_by_id members) = Ok tt) as ->; [|done].
  apply (valid_Permutation members); [|done]. symmetry. apply merge_sort_Permutation.
Qed.

Lemma ring_step_inv r r' : ring_inv r → ring_step r r' → ring_inv r'.
Proof.
  intros [Hv Hp] (members & now & warming & answer & Hu). rewrite update_cases in Hu by done.
  destruct (validate members) as [[]|e] eqn:E; [|by injection Hu as _ <-].
  destruct (bool_decide _); injection Hu as _ <-; [done|]. split; [|done].
  apply (valid_Permutation members); [|done]. symmetry. apply merge_sort_Permutation.
Qed.

Lemma ring_run_inv members r r' :
  ring_new members = Ok r → rtc ring_step r r' → ring_inv r'.
Proof.
  intros Hn Hr. assert (ring_inv r) as Hinv.
  { unfold ring_new in Hn. next Hn. injection Hn as <-. by destruct x. }
  clear Hn. induction Hr; eauto using ring_step_inv.
Qed.

(** every key has an owner at every time.  In every ring a membership goes through,
    the two [choose]s never panic: a key has an owner among the members, no member ranks
    before it, and a donor is a former owner that is not the owner now, offered only
    before its deadline. *)
Theorem owners_always_exist members r0 r key now :
  ring_new members = Ok r0 → rtc ring_step r0 r →
  ∃ o, owner r key = Some o ∧ o ∈ rg_members r ∧ (∀ n, n ∈ rg_members r → node_le key o n = true)
  ∧ ∃ d, donor r key now = Some d
  ∧ ∀ n, d = Some n → ∃ previous deadline, rg_previous r = Some (previous, deadline)
      ∧ now < deadline ∧ choose previous key = Some n ∧ cn_id n ≠ cn_id o.
Proof.
  intros Hn Hr. destruct (ring_run_inv _ _ _ Hn Hr) as [Hv Hp].
  destruct (choose_nonempty (rg_members r) key) as [o Ho]; [by apply valid_spec in Hv as []|].
  exists o. destruct (choose_Some _ _ _ Ho) as [Hin Hmin]. unfold owner. split_and!; [done..|].
  unfold donor, owner, previous_valid in *. rewrite Ho. destruct (rg_previous r) as [[previous deadline]|].
  - destruct (N.leb_spec deadline now) as [|Hlt]; [by eexists|].
    destruct (choose_nonempty previous key) as [d Hd]; [by apply valid_spec in Hp as []|].
    rewrite Hd. cbn. destruct (bool_decide (cn_id d = cn_id o)) eqn:E; cbn; [by eexists|].
    bool_facts. eexists. split; [done|]. intros n [= <-]. eauto 10.
  - by eexists.
Qed.

(** a membership change moves few keys.  When an update changes the owner of a key,
    the old owner is gone from the new membership, or the new owner was not in the old
    one; a key whose owner stays and that no newcomer wins keeps its owner. *)
Theorem update_moves_little members r0 r new now warming answer r' key o o' :
  ring_new members = Ok r0 → rtc ring_step r0 r → update r new now warming = (answer, r') →
  owner r key = Some o → owner r' key = Some o' → o ≠ o' →
  o ∉ rg_members r' ∨ o' ∉ rg_members r.
Proof.
  intros Hn Hr Hu Ho Ho' Hne. pose proof (ring_run_inv _ _ _ Hn Hr) as Hinv.
  assert (ring_inv r') as [Hv' _] by (eapply ring_step_inv; [done|]; unfold ring_step; eauto).
  destruct (decide (o ∈ rg_members r')) as [Hin|]; [|by left]. right. intros Hin'.
  destruct (choose_Some _ _ _ Ho) as [_ Hmin], (choose_Some _ _ _ Ho') as [Hmem' Hmin'].
  apply Hne. apply (valid_unique (rg_members r')); [done..|].
  apply (node_le_antisym key); auto.
Qed.

(** an update installs exactly a change.  A refused membership and one that only
    lists the current nodes in another order leave the ring, with its donor deadline, as
    it was; any other one is installed, and until [now + warming] the donor of a key is
    the node that owned it before, unless it owns it still. *)
Theorem update_hands_off members r0 r new now warming :
  ring_new members = Ok r0 → rtc ring_step r0 r →
  match update r new now warming with
  | (Err e, r') => validate new = Err e ∧ r' = r
  | (Ok false, r') => valid new ∧ rg_members r ≡ₚ new ∧ r' = r
  | (Ok true, r') =>
    valid new ∧ ¬ rg_members r ≡ₚ new ∧ rg_members r' ≡ₚ new
    ∧ rg_epoch r' = (rg_epoch r + 1) mod 2 ^ 64
    ∧ ∀ key later, donor r' key later
        = if later <? now + warming then
            o ← owner r key; o' ← owner r' key;
            Some (if bool_decide (cn_id o = cn_id o') then None else Some o)
          else Some None
  end.
Proof.
  intros Hn Hr. destruct (ring_run_inv _ _ _ Hn Hr) as [Hv _]. rewrite update_cases by done.
  unfold valid. destruct (validate new) as [[]|e] eqn:E; [|done].
  destruct (bool_decide (rg_members r ≡ₚ new)) eqn:Eb; bool_facts; [done|].
  split_and!; [done..|apply merge_sort_Permutation|done|].
  intros key later. unfold donor. cbn [rg_previous].
  destruct (N.leb_spec (now + warming) later), (N.ltb_spec later (now + warming)); [lia|done| |lia].
  unfold owner. cbn [rg_members]. destruct (choose (rg_members r) key); [cbn|done].
  destruct (choose (sort_by_id new) key); cbn; [|done]. by destruct (bool_decide _).
Qed.

End Ring.

(** ** Witnesses: three nodes, one leaves and another joins *)

#[local] Instance toy_cache_host : CacheHost := {|
  xxh3 bs := foldl (λ h b, (31 * h + Byte.to_N b) mod 2 ^ 16) 7 bs;
  float := N;
  is_finite _ := true;
  positive_weight w := 0 <? w;
  race h w := Z.of_N (h / w);
|}.

Definition t_node (id : string) : Node := mkCacheNode id ("http://" +:+ id) 1.
Definition t_old : list Node := [t_node "b"; t_node "a"; t_node "c"].
Definition t_new : list Node := [t_node "d"; t_node "b"; t_node "c"].
Definition t_ring : Ring := mkRing t_old None 0.
Definition t_next : Ring := (update t_ring t_new 100 60).2.
Definition t_key : list byte := as_bytes "k7".

Lemma t_ring_new : ring_new t_old = Ok t_ring.
Proof. by vm_compute. Qed.

Lemma t_step : ring_step t_ring t_next.
Proof. exists t_new, 100, 60, (Ok true). by vm_compute. Qed.

Lemma owners_always_exist_witness :
  ∃ o, owner t_next t_key = Some o ∧ o ∈ rg_members t_next.
Proof.
  destruct (owners_always_exist t_old t_ring t_next t_key 120 t_ring_new (rtc_once _ _ t_step))
    as (o & Ho & Hin & _). exact (ex_intro _ o (conj Ho Hin)).
Defined.

Lemma update_moves_little_witness :
  t_node "a" ∉ rg_members t_next ∨ t_node "b" ∉ rg_members t_ring.
Proof.
  apply (update_moves_little t_old t_ring t_ring t_new 100 60 (Ok true) t_next t_key
    (t_node "a") (t_node "b") t_ring_new (rtc_refl _ _)); by vm_compute.
Defined.

(** The node that left is offered as the donor until its deadline. *)
Lemma update_hands_off_witness :
  donor t_next t_key 159 = Some (Some (t_node "a")) ∧ donor t_next t_key 160 = Some None.
Proof.
  pose proof (update_hands_off t_old t_ring t_ring t_new 100 60 t_ring_new (rtc_refl _ _)) as Hu.
  assert (update t_ring t_new 100 60 = (Ok true, t_next)) as E by (vm_compute; reflexivity).
  rewrite E in Hu. clear E.
  destruct Hu as (_ & _ & _ & _ & Hd). split; [rewrite (Hd t_key 159)|rewrite (Hd t_key 160)]; reflexivity.
Defined.
