(* ===== verification/Gateway.v ===== *)
(** * Gateway: the writer state of a coordinator

    The append path of [ReplicaGateway] in [crates/walleye-bitr-server/src/lib.rs]: the
    cache of committed tails a coordinator appends behind, its reconstruction from member
    snapshots and the archive, the checks of a batch, the fan-out to the members of a
    route and the acknowledgement.  The answers of members, archive and control cohort
    are inputs, in the order they arrive; locks delimit the definitions: one definition
    per critical section. *)

From S2P Require Import Prelude Text Wire Client Placement Manifest Cohorts NodeLog Evidence ControlDoc Coordinator.

#[local] Open Scope N_scope.

#[global] Instance ReplicaNode_eq_dec : EqDecision ReplicaNode.
Proof. solve_decision. Defined.

Record StreamWriterState := mkStreamWriter {
  sw_writer_epoch : N;
  sw_committed_lsn : N;
  sw_records : gmap N EncryptedRecord;
}.

Record GatewayWriterState := mkWriterState {
  ws_initialized : bool;
  ws_membership : list ReplicaNode;
  ws_streams : gmap string StreamWriterState;
}.

(** [Default] of a stream. *)
Definition new_stream : StreamWriterState := mkStreamWriter 0 0 ∅.

(** [streams.entry(stream).or_default()]. *)
Definition stream_entry (streams : gmap string StreamWriterState) (stream : string)
    : StreamWriterState := default new_stream (streams !! stream).

Definition update_stream (f : StreamWriterState → StreamWriterState) (stream : string)
    (streams : gmap string StreamWriterState) : gmap string StreamWriterState :=
  <[stream := f (stream_entry streams stream)]> streams.

Definition raise_epoch (epoch : N) (sw : StreamWriterState) : StreamWriterState :=
  mkStreamWriter (N.max (sw_writer_epoch sw) epoch) (sw_committed_lsn sw) (sw_records sw).

Definition set_committed (lsn : N) (sw : StreamWriterState) : StreamWriterState :=
  mkStreamWriter (sw_writer_epoch sw) lsn (sw_records sw).

(** ** Reconstruction *)

Definition answered (snaps : snapshots) : list NodeSnapshot := omap snd snaps.

(** The epochs a member reports. *)
Definition observe_epochs (streams : gmap string StreamWriterState) (snapshot : NodeSnapshot)
    : gmap string StreamWriterState :=
  let streams := foldl (λ streams p, update_stream (raise_epoch (tp_writer_epoch p)) (tp_stream p) streams)
                   streams (sn_trimmed snapshot) in
  foldl (λ streams r, update_stream (raise_epoch (er_writer_epoch r)) (er_stream r) streams)
    streams (sn_records snapshot).

Definition push_watermark (watermarks : gmap string (list N)) (p : TrimmedPrefix)
    : gmap string (list N) :=
  <[tp_stream p := default [] (watermarks !! tp_stream p) ++ [tp_archived_lsn p]]> watermarks.

(** The trim checkpoints of every stream, in the order of the members. *)
Definition trim_watermarks (snaps : snapshots) : gmap string (list N) :=
  foldl push_watermark ∅ (concat (sn_trimmed <$> answered snaps)).

Definition descending (a b : N) : Prop := b ≤ a.

#[global] Instance descending_dec : RelDecision descending.
Proof. intros a b. unfold descending. apply _. Defined.

(** The watermark a quorum of the members reached: the [quorum]th from the top. *)
Definition quorum_watermark (quorum : N) (watermarks : list N) : option N :=
  merge_sort descending watermarks !! N.to_nat (saturating_sub quorum 1).

Definition apply_watermark (quorum : N) (watermarks : list N) (sw : StreamWriterState)
    : StreamWriterState :=
  match quorum_watermark quorum watermarks with
  | Some lsn => set_committed lsn sw
  | None => sw
  end.

(** The candidates of every stream. *)
Definition candidates_by_stream (candidates : gmap (string * N) EncryptedRecord)
    : gmap string (list EncryptedRecord) :=
  foldl (λ by_stream (entry : (string * N) * EncryptedRecord),
    <[entry.1.1 := default [] (by_stream !! entry.1.1) ++ [entry.2]]> by_stream)
    ∅ (btree_entries candidates).

(** The loop that extends the committed prefix of a stream. *)
Fixpoint extend_prefix (expected_lsn prefix_epoch : N) (records : list EncryptedRecord)
    (sw : StreamWriterState) : StreamWriterState :=
  match records with
  | [] => sw
  | record :: rest =>
    if er_lsn record <? expected_lsn then extend_prefix expected_lsn prefix_epoch rest sw
    else if negb (er_lsn record =? expected_lsn)
            || negb (er_committed_lsn record =? saturating_sub expected_lsn 1)
            || (er_writer_epoch record <? prefix_epoch) then sw
    else extend_prefix (saturating_add expected_lsn 1) (er_writer_epoch record) rest
           (mkStreamWriter (sw_writer_epoch sw) (er_lsn record)
              (<[er_lsn record := record]> (sw_records sw)))
  end.

Definition rebuild_stream (records : list EncryptedRecord) (sw : StreamWriterState)
    : StreamWriterState :=
  extend_prefix (saturating_add (sw_committed_lsn sw) 1) 0 (sort_by_key er_lsn records) sw.

Definition rebuild_writer_state (candidates : gmap (string * N) EncryptedRecord)
    (snaps : snapshots) (quorum : N) : GatewayWriterState :=
  let streams := foldl observe_epochs ∅ (answered snaps) in
  let streams := foldl (λ streams '(stream, watermarks),
                   update_stream (apply_watermark quorum watermarks) stream streams)
                   streams (sbtree_entries (trim_watermarks snaps)) in
  let streams := foldl (λ streams '(stream, records),
                   update_stream (rebuild_stream records) stream streams)
                   streams (sbtree_entries (candidates_by_stream candidates)) in
  mkWriterState true [] streams.

(** The floor below which the archive is not read. *)
Definition archive_floor (streams : gmap string StreamWriterState) (stream : string) : N :=
  match streams !! stream with
  | None => 0
  | Some sw => match head (nbtree_entries (sw_records sw)) with
               | Some (first, _) => saturating_sub first 1
               | None => sw_committed_lsn sw
               end
  end.

(** The loop over the archived and the hot records: no skipping, and the stream's epoch
    rises with the prefix. *)
Fixpoint merge_prefix (expected_lsn prefix_epoch : N) (records : list EncryptedRecord)
    (sw : StreamWriterState) : StreamWriterState :=
  match records with
  | [] => sw
  | record :: rest =>
    if negb (er_lsn record =? expected_lsn)
       || negb (er_committed_lsn record =? saturating_sub expected_lsn 1)
       || (er_writer_epoch record <? prefix_epoch) then sw
    else merge_prefix (saturating_add expected_lsn 1) (er_writer_epoch record) rest
           (mkStreamWriter (N.max (sw_writer_epoch sw) (er_writer_epoch record)) (er_lsn record)
              (<[er_lsn record := record]> (sw_records sw)))
  end.

(** The merge with the archive for the stream that is about to be extended. *)
Definition merge_archive (stream : string) (archived : list EncryptedRecord)
    (candidates : gmap (string * N) EncryptedRecord) (gw : GatewayWriterState) : GatewayWriterState :=
  let floor := archive_floor (ws_streams gw) stream in
  if bool_decide (archived = []) then gw
  else
    let records := archived ++ (filter (λ e : (string * N) * EncryptedRecord,
                     e.1.1 = stream ∧ floor < e.1.2) (btree_entries candidates)).*2 in
    let records := dedup_lsn (sort_by_key er_lsn records) in
    let merge sw := merge_prefix (saturating_add floor 1) 0 records
                      (mkStreamWriter (sw_writer_epoch sw) floor ∅) in
    mkWriterState (ws_initialized gw) (ws_membership gw) (update_stream merge stream (ws_streams gw)).

(** One record of the cache meets the reconstruction. *)
Definition preserve_record (target : StreamWriterState) (entry : N * EncryptedRecord)
    : result ReplicaError StreamWriterState :=
  let '(lsn, record) := entry in
  if match sw_records target !! lsn with
     | Some candidate => negb (bool_decide (candidate = record))
     | None => false
     end
  then Err LsnConflict
  else Ok (if sw_committed_lsn target <? lsn
           then mkStreamWriter (sw_writer_epoch target) (sw_committed_lsn target)
                  (<[lsn := record]> (sw_records target))
           else target).

Definition preserve_stream (cached target : StreamWriterState) : result ReplicaError StreamWriterState :=
  target ← try_fold preserve_record target (nbtree_entries (sw_records cached));
  Ok (mkStreamWriter (N.max (sw_writer_epoch target) (sw_writer_epoch cached))
        (N.max (sw_committed_lsn target) (sw_committed_lsn cached)) (sw_records target)).

Definition preserve_acknowledged_suffixes (cached rebuilt : GatewayWriterState)
    : result ReplicaError GatewayWriterState :=
  streams ← try_fold (λ streams '(stream, cached_stream),
      target ← preserve_stream cached_stream (stream_entry streams stream);
      Ok (<[stream := target]> streams))
    (ws_streams rebuilt) (sbtree_entries (ws_streams cached));
  Ok (mkWriterState (ws_initialized rebuilt) (ws_membership rebuilt) streams).

(** ** [ensure_initialized_through] *)

(** The first critical section: is the cache good enough? *)
Definition has_minimum (streams : gmap string StreamWriterState) (minimum : option (string * N)) : bool :=
  match minimum with
  | None => true
  | Some (stream, committed_lsn) =>
    match streams !! stream with
    | Some sw => committed_lsn <=? sw_committed_lsn sw
    | None => false
    end || (committed_lsn =? 0)
  end.

Definition cache_current (gw : GatewayWriterState) (nodes : list ReplicaNode)
    (minimum : option (string * N)) : bool :=
  ws_initialized gw && bool_decide (ws_membership gw = nodes) && has_minimum (ws_streams gw) minimum.

(** The reconstruction between the two critical sections; [archive] answers
    [archive.recover(stream, floor)]. *)
Definition reconstruct `{ManifestHost} `{LogJson} (control : option DurableControlState) (quorum : N)
    (nodes : list ReplicaNode) (minimum : option (string * N)) (snaps : snapshots)
    (archive : N → result string (list EncryptedRecord)) : result ReplicaError GatewayWriterState :=
  if len nodes <? quorum then Err QuorumUnavailable
  else if len (answered snaps) <? quorum then Err QuorumUnavailable
  else
    let candidates := (collect_candidates_from_snapshots control quorum "*" snaps).1 in
    let rebuilt := rebuild_writer_state candidates snaps quorum in
    rebuilt ← match minimum with
              | None => Ok rebuilt
              | Some (stream, _) =>
                archived ← map_err NodeStorage (archive (archive_floor (ws_streams rebuilt) stream));
                Ok (merge_archive stream archived candidates rebuilt)
              end;
    Ok (mkWriterState (ws_initialized rebuilt) nodes (ws_streams rebuilt)).

(** The second critical section: the cache may have moved meanwhile. *)
Definition install_rebuilt (gw rebuilt : GatewayWriterState) (minimum : option (string * N))
    : result ReplicaError GatewayWriterState :=
  let still_missing := match minimum with
                       | None => false
                       | Some (stream, committed_lsn) =>
                         match ws_streams gw !! stream with
                         | None => true
                         | Some sw => sw_committed_lsn sw <? committed_lsn
                         end
                       end in
  if negb (ws_initialized gw) || negb (bool_decide (ws_membership gw = ws_membership rebuilt)) || still_missing
  then preserve_acknowledged_suffixes gw rebuilt
  else Ok gw.

(** ** [append_many_serialized] *)

(** The first critical section: fences, and the LSNs only the archive can prove. *)
Definition check_cached (sw : StreamWriterState) (archived : gset N) (record : EncryptedRecord)
    : result ReplicaError (gset N) :=
  if er_writer_epoch record <? sw_writer_epoch sw then Err WriterFenced
  else if er_lsn record <=? sw_committed_lsn sw then
    match sw_records sw !! er_lsn record with
    | Some cached => if bool_decide (cached = record) then Ok archived else Err LsnConflict
    | None => Ok ({[er_lsn record]} ∪ archived)
    end
  else Ok archived.

(** [archived_record_matches]; [archived] is what the archive holds from the record on. *)
Definition archived_record_matches (archive : EncryptedRecord → result string (list EncryptedRecord))
    (record : EncryptedRecord) : result ReplicaError bool :=
  archived ← map_err NodeStorage (archive record);
  Ok (match list_find (λ c, er_lsn c = er_lsn record) archived with
      | Some (_, candidate) => bool_decide (candidate = record)
      | None => false
      end).

Definition check_archived (archive : EncryptedRecord → result string (list EncryptedRecord))
    (archived : gset N) (record : EncryptedRecord) : result ReplicaError unit :=
  if bool_decide (er_lsn record ∈ archived) then
    matches ← archived_record_matches archive record;
    if (matches : bool) then Ok tt else Err LsnConflict
  else Ok tt.

(** The first record above the committed tail follows it. *)
Definition check_first_new (current_lsn : N) (records : list EncryptedRecord) : result ReplicaError unit :=
  match list_find (λ r, current_lsn < er_lsn r) records with
  | None => Ok tt
  | Some (_, first_new) =>
    if negb (er_lsn first_new =? saturating_add current_lsn 1) then Err LsnConflict
    else if negb (er_committed_lsn first_new =? current_lsn) then
      Err (InvalidWatermark (er_lsn first_new) (er_committed_lsn first_new))
    else Ok tt
  end.

(** What is left of a batch after the archive proved its prefix: nothing, or records to
    offer to the members. *)
Inductive AppendPlan :=
| Archived
| Offer (records : list EncryptedRecord) (has_new : bool).

Definition plan_append (sw : StreamWriterState) (records : list EncryptedRecord)
    (archived_lsn : result string N)
    (archive : EncryptedRecord → result string (list EncryptedRecord))
    : result ReplicaError AppendPlan :=
  _ ← validate_append_batch records;
  archived ← try_fold (check_cached sw) ∅ records;
  let current_lsn := sw_committed_lsn sw in
  archived ←
    match records with
    | first :: _ =>
      if er_lsn first <=? current_lsn then
        archived_lsn ← map_err NodeStorage archived_lsn;
        Ok (list_to_set (er_lsn <$> filter (λ r, er_lsn r ≤ archived_lsn) records) ∪ archived)
      else Ok archived
    | [] => Ok archived
    end;
  _ ← try_fold (λ _ record, check_archived archive archived record) tt records;
  let records := filter (λ r, er_lsn r ∉ archived) records in
  if bool_decide (records = []) then Ok Archived
  else
    _ ← check_first_new current_lsn records;
    Ok (Offer records (existsb (λ r, current_lsn <? er_lsn r) records)).

(** The routes of the first and of the last record agree. *)
Definition check_batch_route (route : option StreamSegment) (manifest : option ReplicaManifest)
    (last : EncryptedRecord) : result ReplicaError unit :=
  let last_route := manifest ≫= λ m, manifest_route m (er_stream last) (er_lsn last) in
  if bool_decide (route = last_route) then Ok tt else Err LsnConflict.

(** The last critical section. *)
Fixpoint insert_acknowledged (sw : StreamWriterState) (records : list EncryptedRecord)
    : result ReplicaError unit * StreamWriterState :=
  match records with
  | [] => (Ok tt, sw)
  | record :: rest =>
    if match sw_records sw !! er_lsn record with
       | Some cached => negb (bool_decide (cached = record))
       | None => false
       end
    then (Err LsnConflict, sw)
    else insert_acknowledged
           (mkStreamWriter (sw_writer_epoch sw) (sw_committed_lsn sw)
              (<[er_lsn record := record]> (sw_records sw))) rest
  end.

Definition acknowledge (sw : StreamWriterState) (records : list EncryptedRecord)
    (last : EncryptedRecord) (has_new : bool) : result ReplicaError unit * StreamWriterState :=
  if has_new then
    insert_acknowledged
      (mkStreamWriter (N.max (sw_writer_epoch sw) (er_writer_epoch last))
         (N.max (sw_committed_lsn sw) (er_lsn last)) (sw_records sw)) records
  else (Ok tt, sw).

(** ** The members of a route *)

(** [newest_active_cohort]; the cohorts are in the order of their ids. *)
Definition newest_active_cohort (state : DurableControlState) : option DurableCohort :=
  max_by (λ a b, dc_id b <=? dc_id a)
    (filter (λ c, dc_status c = CActive ∧ len (dc_members c) = REPLICATION_FACTOR)
       (nbtree_values (ct_cohorts state))).

(** [select_static_replicas]. *)
Definition select_static_replicas (nodes : list ReplicaNode) : list ReplicaNode :=
  take (N.to_nat REPLICATION_FACTOR) nodes.

(** The member ids of [replicas_for_route_internal]. *)
Definition route_member_ids `{ManifestHost} (state : DurableControlState) (route : option StreamSegment)
    : result ReplicaError (list string) :=
  match route with
  | Some route =>
    if negb (len (sg_member_ids route) =? REPLICATION_FACTOR) || unordered_ids (sg_member_ids route)
       || bool_decide (sg_member_hash route = "")
       || negb (bool_decide (member_set_hash state (sg_member_ids route) = Some (sg_member_hash route)))
    then Err LsnConflict
    else Ok (sg_member_ids route)
  | None =>
    cohort ← ok_or (newest_active_cohort state) QuorumUnavailable;
    cohort ← ok_or (ct_cohorts state !! dc_id cohort) QuorumUnavailable;
    if negb (bool_decide (dc_status cohort = CActive)) then Err QuorumUnavailable
    else if negb (len (dc_members cohort) =? REPLICATION_FACTOR) then Err QuorumUnavailable
    else Ok (dc_members cohort)
  end.

Definition reachable_member (allow_joining : bool) (member : DurableMember) : bool :=
  negb (bool_decide (dm_status member = MRemoved))
  && (allow_joining || negb (bool_decide (dm_status member = MJoining))).

(** [replicas_for_route_internal]; [nodes] is the membership in static mode. *)
Definition replicas_for_route `{ManifestHost} (control : option DurableControlState)
    (nodes : list ReplicaNode) (route : option StreamSegment) (allow_joining : bool)
    : result ReplicaError (list ReplicaNode) :=
  match control with
  | None =>
    let replicas := select_static_replicas nodes in
    if negb (len replicas =? N.min REPLICATION_FACTOR (len nodes)) then Err QuorumUnavailable
    else Ok replicas
  | Some state =>
    member_ids ← route_member_ids state route;
    let nodes := member_node <$> filter (λ m, reachable_member allow_joining m = true)
                   (omap (λ id, ct_members state !! id) member_ids) in
    if negb (len nodes =? REPLICATION_FACTOR) then Err QuorumUnavailable else Ok nodes
  end.

(** ** Fan-out *)

Abbreviation RepairAnswer := (result ReplicaError (option ReplicaManifest)).

(** Who is asked to repair: a member that answered the quorum read with the manifest
    succeeds at once, the others take the next answer of [pending] ([None]: the phase
    ended first). *)
Fixpoint merge_repairs (agreed : gset string) (nodes : list ReplicaNode)
    (pending : list (option RepairAnswer)) : list RepairAnswer :=
  match nodes with
  | [] => []
  | node :: nodes =>
    if bool_decide (rn_id node ∈ agreed) then Ok None :: merge_repairs agreed nodes pending
    else default (Err NodeUnavailable) (head pending ≫= id) :: merge_repairs agreed nodes (tail pending)
  end.

(** [repair_route_members]; [authoritative_read] is the error of reading the control head,
    when there is one and it failed. *)
Definition repair_route_members (cache_hit authoritative_read : bool) (nodes : list ReplicaNode)
    (quorum : QuorumManifest) (pending : list (option RepairAnswer)) : list RepairAnswer :=
  if cache_hit then (λ _, Ok None) <$> nodes
  else if negb authoritative_read then (λ _, Err NodeUnavailable) <$> nodes
  else merge_repairs (qm_agreed quorum) nodes pending.

(** The answer of a member to the batch. *)
Abbreviation Arrival := (ReplicaNode * result ReplicaError unit)%type.

(** What the receiving loop knows when it runs out of answers. *)
Record FanOut := mkFanOut {
  fo_acknowledgements : N;
  fo_saw_fence : bool;
  fo_saw_conflict : bool;
  fo_behind : list ReplicaNode;
}.

(** The receiving loop: [inl] is the early return with a quorum. *)
Fixpoint receive (quorum : N) (fo : FanOut) (arrivals : list Arrival) : N + FanOut :=
  match arrivals with
  | [] => inr fo
  | (node, r) :: rest =>
    match r with
    | Ok _ =>
      let acknowledgements := fo_acknowledgements fo + 1 in
      if quorum <=? acknowledgements then inl acknowledgements
      else receive quorum (mkFanOut acknowledgements (fo_saw_fence fo) (fo_saw_conflict fo) (fo_behind fo)) rest
    | Err WriterFenced =>
      receive quorum (mkFanOut (fo_acknowledgements fo) true (fo_saw_conflict fo) (fo_behind fo)) rest
    | Err LsnConflict =>
      receive quorum (mkFanOut (fo_acknowledgements fo) (fo_saw_fence fo) true (fo_behind fo ++ [node])) rest
    | Err _ => receive quorum fo rest
    end
  end.

(** The second chance of the members that are behind: [caught_up] tells whether
    [catch_up_member] returned a range, [resent] whether the batch was then taken. *)
Fixpoint retry_behind (quorum acknowledgements : N) (caught_up resent : ReplicaNode → bool)
    (behind : list ReplicaNode) : option N :=
  match behind with
  | [] => None
  | node :: rest =>
    if caught_up node && resent node then
      if quorum <=? acknowledgements + 1 then Some (acknowledgements + 1)
      else retry_behind quorum (acknowledgements + 1) caught_up resent rest
    else retry_behind quorum acknowledgements caught_up resent rest
  end.

Definition count_acks (quorum : N) (caught_up resent : ReplicaNode → bool) (arrivals : list Arrival)
    : result ReplicaError N :=
  match receive quorum (mkFanOut 0 false false []) arrivals with
  | inl acknowledgements => Ok acknowledgements
  | inr fo =>
    match (if fo_saw_fence fo then None
           else retry_behind quorum (fo_acknowledgements fo) caught_up resent (fo_behind fo)) with
    | Some acknowledgements => Ok acknowledgements
    | None =>
      if fo_saw_fence fo then Err WriterFenced
      else if fo_saw_conflict fo then Err LsnConflict
      else Err QuorumUnavailable
    end
  end.

Definition check_capacity (route : option StreamSegment) (record : EncryptedRecord)
    : result ReplicaError unit :=
  match route with
  | Some route =>
    if negb (sg_max_append_bytes route =? 0) && (sg_max_append_bytes route <? len (er_ciphertext record))
    then Err (CapacityExceeded (sg_cohort_id route) (len (er_ciphertext record)) (sg_max_append_bytes route))
    else Ok tt
  | None => Ok tt
  end.

(** The repair phase of direct mode, before any record is sent; [sync_results] is what
    [repair_route_members] returned for the members. *)
Definition check_direct_route (stream : string) (lsn : N) (route : option StreamSegment)
    (manifest : option QuorumManifest) (quorum : N) (sync_results : QuorumManifest → list RepairAnswer)
    : result ReplicaError unit :=
  route ← ok_or route QuorumUnavailable;
  manifest ← ok_or manifest QuorumUnavailable;
  authoritative ← ok_or (manifest_route (qm_manifest manifest) stream lsn) QuorumUnavailable;
  if negb (bool_decide (authoritative = route)) then Err LsnConflict
  else require_manifest_sync_quorum (sync_results manifest) quorum.

(** [append_nodes_many]; [send nodes] is the list of answers of those members, in the
    order they arrive. *)
Definition append_nodes_many `{ManifestHost} (control : option DurableControlState)
    (membership : list ReplicaNode) (quorum : N) (records : list EncryptedRecord)
    (route : option StreamSegment) (manifest : option QuorumManifest)
    (sync_results : list ReplicaNode → QuorumManifest → list RepairAnswer)
    (send : list ReplicaNode → list Arrival) (caught_up resent : ReplicaNode → bool)
    : result ReplicaError N :=
  _ ← validate_append_batch records;
  _ ← try_fold (λ _ record, check_capacity route record) tt records;
  match records with
  | [] => Err (Protocol "append-many validation requires one record")
  | first :: _ =>
    nodes ← replicas_for_route control membership route false;
    if len nodes <? quorum then Err QuorumUnavailable
    else
      _ ← match control with
          | None => Ok tt
          | Some _ => check_direct_route (er_stream first) (er_lsn first) route manifest quorum
                        (sync_results nodes)
          end;
      count_acks quorum caught_up resent (send nodes)
  end.
