(* ===== verification/GatewaySafety.v ===== *)
(** * GatewaySafety: what a coordinator acknowledges

    The fan-out counts a quorum of distinct members; a coordinator never has two records
    acknowledged as new at one position of a stream, whatever reconstructions happen
    meanwhile; and its fences and tails never go back. *)

From S2P Require Import Prelude Text Wire Client Placement Manifest Cohorts NodeLog Evidence EvidenceSafety ControlDoc Coordinator Gateway.

#[local] Open Scope N_scope.

(** ** The fan-out *)

(** The three kinds of answers the loop tells apart. *)
Definition accepted (arrivals : list Arrival) : list ReplicaNode :=
  omap (λ a, match a.2 with Ok _ => Some a.1 | Err _ => None end) arrivals.

Definition conflicted (arrivals : list Arrival) : list ReplicaNode :=
  omap (λ a, match a.2 with Err LsnConflict => Some a.1 | _ => None end) arrivals.

Definition fenced (arrivals : list Arrival) : bool :=
  existsb (λ a, match a.2 with Err WriterFenced => true | _ => false end) arrivals.

(** The answer to a batch, as a function of the answers and of the second chances. *)
Definition verdict (quorum : N) (second_chance : ReplicaNode → bool) (arrivals : list Arrival)
    : result ReplicaError N :=
  let taken := filter (λ n, second_chance n = true) (conflicted arrivals) in
  if quorum <=? len (accepted arrivals) then Ok quorum
  else if fenced arrivals then Err WriterFenced
  else if quorum <=? len (accepted arrivals) + len taken then Ok quorum
  else if bool_decide (conflicted arrivals = []) then Err QuorumUnavailable
  else Err LsnConflict.

Lemma receive_spec quorum fo arrivals :
  fo_acknowledgements fo < quorum →
  receive quorum fo arrivals =
  if quorum <=? fo_acknowledgements fo + len (accepted arrivals) then inl quorum
  else inr (mkFanOut (fo_acknowledgements fo + len (accepted arrivals))
              (fo_saw_fence fo || fenced arrivals)
              (fo_saw_conflict fo || negb (bool_decide (conflicted arrivals = [])))
              (fo_behind fo ++ conflicted arrivals)).
Proof.
  revert fo. induction arrivals as [|[node r] arrivals IH]; intros [acks fence conflict behind] Hlt; cbn in *.
  { rewrite (proj2 (N.leb_gt _ _)) by (unfold len; cbn; lia).
    rewrite app_nil_r, !orb_false_r. do 2 f_equal. unfold len; cbn. lia. }
  destruct r as [[]|e]; cbn [accepted conflicted fenced omap list_omap existsb fst snd].
  - rewrite len_cons. destruct (N.leb_spec quorum (acks + 1)).
    + rewrite (proj2 (N.leb_le _ _)) by lia. f_equal. lia.
    + rewrite IH by (cbn; lia). cbn.
      replace (acks + 1 + len (accepted arrivals)) with (acks + (1 + len (accepted arrivals))) by lia.
      by destruct (_ <=? _).
  - destruct e; try (rewrite IH by done; cbn; done).
    + rewrite IH by done. cbn. destruct (_ <=? _); [done|]. by rewrite orb_true_r.
    + rewrite IH by done. cbn. destruct (_ <=? _); [done|].
      rewrite <- app_assoc. cbn. by rewrite orb_true_r.
Qed.

Lemma retry_behind_spec quorum acks caught_up resent behind :
  acks < quorum →
  retry_behind quorum acks caught_up resent behind =
  if quorum <=? acks + len (filter (λ n, caught_up n && resent n = true) behind) then Some quorum else None.
Proof.
  revert acks. induction behind as [|node behind IH]; intros acks Hlt; cbn [retry_behind].
  { rewrite (proj2 (N.leb_gt _ _)); [done|]. unfold len; cbn. lia. }
  rewrite filter_cons. destruct (caught_up node && resent node) eqn:Hb.
  - rewrite decide_True by done. rewrite len_cons. destruct (N.leb_spec quorum (acks + 1)).
    + rewrite (proj2 (N.leb_le _ _)) by lia. f_equal. lia.
    + rewrite IH by lia. by rewrite N.add_assoc.
  - rewrite decide_False by done. by apply IH.
Qed.

(** The loops of [append_nodes_many] compute [verdict]: an append is acknowledged exactly
    when a quorum of members took the batch at once, or, if none of them reported a fence,
    together with members that took it after they were caught up; otherwise the error is
    the fence if any member reported one, then a conflict, then a lost quorum. *)
Theorem count_acks_exact quorum caught_up resent arrivals :
  0 < quorum →
  count_acks quorum caught_up resent arrivals = verdict quorum (λ n, caught_up n && resent n) arrivals.
Proof.
  intros Hq. unfold count_acks, verdict. rewrite receive_spec by done. cbn.
  destruct (N.leb_spec quorum (len (accepted arrivals))) as [|Hlt].
  { by rewrite (proj2 (N.leb_le _ _)) by lia. }
  rewrite (proj2 (N.leb_gt _ _)) by lia. cbn. destruct (fenced arrivals); [done|].
  rewrite retry_behind_spec by lia. destruct (_ <=? _); [done|].
  by destruct (bool_decide (conflicted arrivals = [])).
Qed.

Lemma answers_submseteq arrivals (P : ReplicaNode → Prop) `{∀ n, Decision (P n)} :
  accepted arrivals ++ filter P (conflicted arrivals) ⊆+ arrivals.*1.
Proof.
  induction arrivals as [|[node r] arrivals IH]; [done|].
  destruct r as [[]|e]; cbn [accepted conflicted omap list_omap fst snd fmap list_fmap].
  - by apply submseteq_skip.
  - destruct e; try (by apply submseteq_cons).
    rewrite filter_cons. case_decide; [|by apply submseteq_cons].
    rewrite <- Permutation_middle. by apply submseteq_skip.
Qed.

Lemma elem_of_accepted arrivals node : node ∈ accepted arrivals → (node, Ok tt) ∈ arrivals.
Proof. unfold accepted. intros ([n [[]|e]] & Hin & [= <-])%list_elem_of_omap. done. Qed.

Lemma elem_of_conflicted arrivals node : node ∈ conflicted arrivals → (node, Err LsnConflict) ∈ arrivals.
Proof.
  unfold conflicted. intros ([n r] & Hin & Hr)%list_elem_of_omap. cbn in Hr.
  destruct r as [|e]; [done|]. destruct e; simplify_eq. done.
Qed.

Section Append.
Context `{ManifestHost}.
Context (control : option DurableControlState) (membership : list ReplicaNode) (quorum : N).
Context (sync_results : list ReplicaNode → QuorumManifest → list RepairAnswer).
Context (send : list ReplicaNode → list Arrival) (caught_up resent : ReplicaNode → bool).

(** The member took the batch, at once or after it was caught up. *)
Definition took (nodes : list ReplicaNode) (node : ReplicaNode) : Prop :=
  (node, Ok tt) ∈ send nodes
  ∨ ((node, Err LsnConflict) ∈ send nodes ∧ caught_up node = true ∧ resent node = true).

Lemma count_acks_took nodes n :
  0 < quorum → (send nodes).*1 ⊆+ nodes → count_acks quorum caught_up resent (send nodes) = Ok n →
  n = quorum ∧ ∃ acked, acked ⊆+ nodes ∧ len acked = quorum ∧ ∀ node, node ∈ acked → took nodes node.
Proof.
  intros Hq Hsub. rewrite count_acks_exact by done. unfold verdict.
  set (P := λ n, caught_up n && resent n = true).
  set (all := accepted (send nodes) ++ filter P (conflicted (send nodes))).
  intros Hv. assert (n = quorum ∧ quorum ≤ len all) as [-> Hlen].
  { unfold all. rewrite len_app. change (filter (λ n, caught_up n && resent n = true)) with (filter P) in Hv.
    repeat (case_match; bool_facts; simplify_eq; try lia); split; try done; lia. }
  split; [done|]. exists (take (N.to_nat quorum) all). split_and!.
  - etrans; [|exact Hsub]. etrans; [|apply (answers_submseteq _ P)].
    apply sublist_submseteq, sublist_take.
  - unfold len in *. rewrite length_take. lia.
  - intros node Hnode. assert (node ∈ all) as Hin by (eapply sublist_subseteq; [apply sublist_take|done]).
    apply elem_of_app in Hin as [?%elem_of_accepted|[Hp ?%elem_of_conflicted]%list_elem_of_filter]; [by left|].
    right. unfold P in Hp. bool_facts. auto.
Qed.

(** C14: An acknowledged append is on a quorum of the members of its route.  When
    [append_nodes_many] returns a count, it is the quorum; that many members of the route
    took the batch; every record fits the route; and in direct mode the route is the one
    the certified manifest gives, on a quorum of whose members the manifest was repaired
    before the first record was sent. *)
Theorem append_reaches_quorum records route manifest n :
  0 < quorum → (∀ nodes, (send nodes).*1 ⊆+ nodes) →
  append_nodes_many control membership quorum records route manifest sync_results send caught_up resent = Ok n →
  n = quorum
  ∧ ∃ nodes, replicas_for_route control membership route false = Ok nodes
    ∧ (∃ acked, acked ⊆+ nodes ∧ len acked = quorum ∧ ∀ node, node ∈ acked → took nodes node)
    ∧ (∀ r s, r ∈ records → route = Some s → sg_max_append_bytes s = 0 ∨ len (er_ciphertext r) ≤ sg_max_append_bytes s)
    ∧ (is_Some control → ∃ qm first, manifest = Some qm ∧ head records = Some first
         ∧ manifest_route (qm_manifest qm) (er_stream first) (er_lsn first) = route
         ∧ quorum ≤ len (filter (λ r, is_ok r = true) (sync_results nodes qm))).
Proof.
  intros Hq Hsend Ha. unfold append_nodes_many in Ha.
  apply bind_Ok in Ha as ([] & Hv & Ha). apply bind_Ok in Ha as ([] & Hcap & Ha).
  destruct records as [|first rest]; [done|]. apply bind_Ok in Ha as (nodes & Hn & Ha).
  destruct (N.ltb_spec (len nodes) quorum); [done|]. apply bind_Ok in Ha as ([] & Hd & Ha).
  apply count_acks_took in Ha as [-> Hack]; [|done..]. split; [done|]. exists nodes. split_and!; try done.
  - intros r s Hr ->. rewrite try_fold_all in Hcap. specialize (Hcap r Hr). cbn in Hcap.
    destruct (negb _ && _) eqn:Hb; [done|]. bool_facts. destruct Hb as [?|?]; bool_facts; auto.
  - intros [state ->]. unfold check_direct_route in Hd.
    apply bind_Ok in Hd as (s & Hs & Hd). apply bind_Ok in Hd as (qm & Hqm & Hd).
    apply bind_Ok in Hd as (authoritative & Hau & Hd).
    destruct route as [s'|]; [|done]. destruct manifest as [qm'|]; [|done].
    injection Hs as ->. injection Hqm as ->.
    destruct (manifest_route _ _ _) as [a|] eqn:Hroute; [|done]. injection Hau as ->.
    case_bool_decide as Hsa; [|done]. subst. cbn in Hd. exists qm, first. split_and!; try done.
    unfold require_manifest_sync_quorum in Hd. destruct (N.leb_spec quorum (len (filter (λ r, is_ok r = true) (sync_results nodes qm)))); [done|].
    repeat case_match; done.
Qed.

End Append.

(** ** Tails and fences *)

(** [sw'] is not behind [sw]. *)
Definition ahead (sw sw' : StreamWriterState) : Prop :=
  sw_writer_epoch sw ≤ sw_writer_epoch sw' ∧ sw_committed_lsn sw ≤ sw_committed_lsn sw'.

#[global] Instance ahead_preorder : PreOrder ahead.
Proof. split; [intros ?; by split|]. intros a b c [? ?] [? ?]. split; lia. Qed.

Lemma preserve_record_fields entries target target' :
  try_fold preserve_record target entries = Ok target' →
  sw_writer_epoch target' = sw_writer_epoch target ∧ sw_committed_lsn target' = sw_committed_lsn target.
Proof.
  revert target. induction entries as [|[lsn r] entries IH]; intros target; cbn [try_fold].
  { by intros [= <-]. }
  intros (t & Ht & Hf)%bind_Ok. apply IH in Hf as [-> ->]. unfold preserve_record in Ht.
  repeat case_match; by simplify_eq/=.
Qed.

Lemma preserve_stream_ahead cached target target' :
  preserve_stream cached target = Ok target' → ahead cached target' ∧ ahead target target'.
Proof.
  unfold preserve_stream. intros (t & Ht & [= <-])%bind_Ok. apply preserve_record_fields in Ht as [He Hc].
  unfold ahead. cbn. lia.
Qed.

Lemma stream_entry_insert streams s sw s' :
  stream_entry (<[s := sw]> streams) s' = if decide (s' = s) then sw else stream_entry streams s'.
Proof.
  unfold stream_entry. case_decide as E; [subst; by rewrite lookup_insert_eq|].
  by rewrite lookup_insert_ne.
Qed.

Lemma preserve_suffixes_ahead cached rebuilt gw s :
  preserve_acknowledged_suffixes cached rebuilt = Ok gw →
  ahead (stream_entry (ws_streams cached) s) (stream_entry (ws_streams gw) s).
Proof.
  unfold preserve_acknowledged_suffixes. intros (streams & Hf & [= <-])%bind_Ok. cbn.
  set (f := λ streams '(stream, cached_stream), _) in Hf.
  assert (∀ entries a b, try_fold f a entries = Ok b →
    ahead (stream_entry a s) (stream_entry b s)
    ∧ ∀ c, (s, c) ∈ entries → ahead c (stream_entry b s)) as Hgen.
  { induction entries as [|[s' c] entries IH]; intros a b; cbn [try_fold].
    - intros [= <-]. split; [done|]. by intros ? ?%elem_of_nil.
    - intros (a' & Ha & Hb)%bind_Ok. unfold f in Ha. apply bind_Ok in Ha as (t & Ht & [= <-]).
      apply IH in Hb as [Hb Hin]. rewrite stream_entry_insert in Hb.
      apply preserve_stream_ahead in Ht as [Hc Ht].
      case_decide; [subst s'|].
      + split; [by etrans|]. intros c' [[= ->]|?]%elem_of_cons; [by etrans|by apply Hin].
      + split; [done|]. intros c' [[= ? ?]|?]%elem_of_cons; [done|by apply Hin]. }
  apply Hgen in Hf as [_ Hin]. unfold stream_entry at 1.
  destruct (ws_streams cached !! s) as [c|] eqn:Hc; [apply Hin; by apply elem_of_sbtree_entries|].
  unfold ahead; cbn; lia.
Qed.

Lemma install_ahead gw rebuilt minimum gw' s :
  install_rebuilt gw rebuilt minimum = Ok gw' →
  ahead (stream_entry (ws_streams gw) s) (stream_entry (ws_streams gw') s).
Proof.
  unfold install_rebuilt. destruct (_ || _); [apply preserve_suffixes_ahead|by intros [= <-]].
Qed.

Lemma insert_acknowledged_fields sw records r sw' :
  insert_acknowledged sw records = (r, sw') →
  sw_writer_epoch sw' = sw_writer_epoch sw ∧ sw_committed_lsn sw' = sw_committed_lsn sw.
Proof.
  revert sw. induction records as [|x records IH]; intros sw; cbn; [by intros [= _ <-]|].
  match goal with |- (if ?b then _ else _) = _ → _ => destruct b end; [by intros [= _ <-]|].
  by intros [-> ->]%IH.
Qed.

Lemma acknowledge_ahead sw records last has_new r sw' :
  acknowledge sw records last has_new = (r, sw') →
  ahead sw sw' ∧ (has_new = true → er_lsn last ≤ sw_committed_lsn sw' ∧ er_writer_epoch last ≤ sw_writer_epoch sw').
Proof.
  unfold acknowledge. destruct has_new; [|intros [= _ <-]; done].
  intros [He Hc]%insert_acknowledged_fields. unfold ahead. cbn in *. lia.
Qed.

(** ** Runs of a coordinator *)

(** An append between its checks and its acknowledgement; the stream's lock keeps others
    of the stream out. *)
Record Flight := mkFlight {
  fl_records : list EncryptedRecord;
  fl_last : EncryptedRecord;
  fl_has_new : bool;
  fl_tail : N;
}.

(** The cache, the appends under way, and the records acknowledged above the tail of
    their append. *)
Record CoordinatorState := mkCoordinator {
  co_cache : GatewayWriterState;
  co_flights : gmap string Flight;
  co_acknowledged : list EncryptedRecord;
}.

Definition set_stream (gw : GatewayWriterState) (stream : string) (sw : StreamWriterState)
    : GatewayWriterState :=
  mkWriterState (ws_initialized gw) (ws_membership gw) (<[stream := sw]> (ws_streams gw)).

(** Appends of different streams, reconstructions from whatever was read, and failures. *)
Inductive coordinator_step : CoordinatorState → CoordinatorState → Prop :=
| step_install gw flights acked rebuilt minimum gw' :
    install_rebuilt gw rebuilt minimum = Ok gw' →
    coordinator_step (mkCoordinator gw flights acked) (mkCoordinator gw' flights acked)
| step_begin gw flights acked stream records lst archived_lsn archive offered has_new :
    flights !! stream = None → stream = er_stream lst → last records = Some lst →
    plan_append (stream_entry (ws_streams gw) stream) records archived_lsn archive = Ok (Offer offered has_new) →
    coordinator_step (mkCoordinator gw flights acked)
      (mkCoordinator (set_stream gw stream (stream_entry (ws_streams gw) stream))
         (<[stream := mkFlight offered lst has_new (sw_committed_lsn (stream_entry (ws_streams gw) stream))]> flights)
         acked)
| step_finish gw flights acked stream f sw :
    flights !! stream = Some f →
    acknowledge (stream_entry (ws_streams gw) stream) (fl_records f) (fl_last f) (fl_has_new f) = (Ok tt, sw) →
    coordinator_step (mkCoordinator gw flights acked)
      (mkCoordinator (if fl_has_new f then set_stream gw stream sw else gw) (delete stream flights)
         (filter (λ r, fl_tail f < er_lsn r) (fl_records f) ++ acked))
| step_conflict gw flights acked stream f e sw :
    flights !! stream = Some f →
    acknowledge (stream_entry (ws_streams gw) stream) (fl_records f) (fl_last f) (fl_has_new f) = (Err e, sw) →
    coordinator_step (mkCoordinator gw flights acked)
      (mkCoordinator (set_stream gw stream sw) (delete stream flights) acked)
| step_fail gw flights acked stream :
    coordinator_step (mkCoordinator gw flights acked) (mkCoordinator gw (delete stream flights) acked).

Definition tail_of (c : CoordinatorState) (stream : string) : StreamWriterState :=
  stream_entry (ws_streams (co_cache c)) stream.

Lemma coordinator_step_ahead c c' s : coordinator_step c c' → ahead (tail_of c s) (tail_of c' s).
Proof.
  unfold tail_of. destruct 1 as [? ? ? ? ? ? Hi| |? ? ? stream f sw ? Ha|? ? ? stream f e sw ? Ha|]; cbn.
  - by eapply install_ahead.
  - rewrite stream_entry_insert. case_decide; by subst.
  - destruct (fl_has_new f); [|done]. cbn. rewrite stream_entry_insert. case_decide; [subst|done].
    by apply acknowledge_ahead in Ha as [? _].
  - rewrite stream_entry_insert. case_decide; [subst|done]. by apply acknowledge_ahead in Ha as [? _].
  - done.
Qed.

Lemma coordinator_steps_ahead c c' s : rtc coordinator_step c c' → ahead (tail_of c s) (tail_of c' s).
Proof. induction 1; [done|]. etrans; [by apply coordinator_step_ahead|done]. Qed.

(** What an offered batch is. *)
Lemma plan_append_offer sw records archived_lsn archive offered has_new :
  plan_append sw records archived_lsn archive = Ok (Offer offered has_new) →
  batch_shape records ∧ offered `sublist_of` records
  ∧ has_new = existsb (λ r, sw_committed_lsn sw <? er_lsn r) offered
  ∧ check_first_new (sw_committed_lsn sw) offered = Ok tt
  ∧ (∀ r, r ∈ records → sw_writer_epoch sw ≤ er_writer_epoch r).
Proof.
  unfold plan_append. intros ([] & Hv%validate_append_batch_sound & Hp)%bind_Ok.
  apply bind_Ok in Hp as (cached & Hc & Hp). apply bind_Ok in Hp as (archived & _ & Hp).
  apply bind_Ok in Hp as ([] & _ & Hp). case_bool_decide; [done|].
  apply bind_Ok in Hp as ([] & Hf & [= <- <-]). split_and!; try done; [apply sublist_filter|].
  assert (∀ l a b, try_fold (check_cached sw) a l = Ok b → ∀ r, r ∈ l → sw_writer_epoch sw ≤ er_writer_epoch r) as Hgen.
  { induction l as [|x l IH]; intros a b; cbn [try_fold]; [by intros _ ? ?%elem_of_nil|].
    intros (a' & Hx & Hl)%bind_Ok r [->|Hr]%elem_of_cons; [|by eapply IH].
    unfold check_cached in Hx. destruct (N.ltb_spec (er_writer_epoch x) (sw_writer_epoch sw)); [done|lia]. }
  by eapply Hgen.
Qed.

Lemma batch_shape_last records lst r :
  batch_shape records → last records = Some lst → r ∈ records →
  er_stream r = er_stream lst ∧ er_lsn r ≤ er_lsn lst.
Proof.
  intros (first & _ & _ & Hs) Hl [i Hi]%list_elem_of_lookup. rewrite last_lookup in Hl.
  destruct (Hs i r Hi) as (-> & _ & -> & _), (Hs _ lst Hl) as (-> & _ & -> & _).
  apply lookup_lt_Some in Hi. split; [done|]. lia.
Qed.

(** The appends under way, and the acknowledged records, in every run. *)
Record coordinator_inv (c : CoordinatorState) : Prop := {
  ci_below r : r ∈ co_acknowledged c → er_lsn r ≤ sw_committed_lsn (tail_of c (er_stream r));
  ci_unique r r' : r ∈ co_acknowledged c → r' ∈ co_acknowledged c → record_key r = record_key r' → r = r';
  ci_flight s f : co_flights c !! s = Some f →
    (∀ r, r ∈ fl_records f → er_stream r = s ∧ er_lsn r ≤ er_lsn (fl_last f))
    ∧ (∀ r r', r ∈ fl_records f → r' ∈ fl_records f → er_lsn r = er_lsn r' → r = r')
    ∧ (∀ r, r ∈ co_acknowledged c → er_stream r = s → er_lsn r ≤ fl_tail f)
    ∧ fl_has_new f = existsb (λ r, fl_tail f <? er_lsn r) (fl_records f);
}.

Lemma coordinator_step_inv c c' : coordinator_step c c' → coordinator_inv c → coordinator_inv c'.
Proof.
  intros Hstep. pose proof (λ s, coordinator_step_ahead _ _ s Hstep) as Hahead.
  destruct Hstep as [gw flights acked rebuilt minimum gw' Hi
    |gw flights acked stream records lst archived_lsn archive offered has_new Hnone Hs Hlast Hp
    |gw flights acked stream f sw Hf Ha|gw flights acked stream f e sw Hf Ha|gw flights acked stream];
    intros [Hb Hu Hfl]; cbn in *.
  - split; cbn; try done. intros r Hr. etrans; [by apply Hb|]. apply Hahead.
  - split; cbn; try done; [intros r Hr; etrans; [by apply Hb|]; apply Hahead|].
    intros s f [[<- <-]|[? Hs']]%lookup_insert_Some; [|by apply Hfl]. cbn.
    apply plan_append_offer in Hp as (Hshape & Hsub & Hnew & _).
    assert (∀ r, r ∈ offered → r ∈ records) as Hin by (intros r; by apply sublist_subseteq).
    split_and!; [|eauto using batch_shape_keys|intros r Hr <-; by apply Hb|done].
    intros r Hr. rewrite Hs. by eapply batch_shape_last; eauto.
  - destruct (Hfl _ _ Hf) as (Hrec & Huniq & Htail & Hnew).
    apply acknowledge_ahead in Ha as [_ Hack].
    assert (∀ r, r ∈ filter (λ r, fl_tail f < er_lsn r) (fl_records f) → er_stream r = stream
      ∧ fl_tail f < er_lsn r ∧ r ∈ fl_records f ∧ fl_has_new f = true) as Hin.
    { intros r [Ht Hr]%list_elem_of_filter. split_and!; [by apply Hrec|done|done|].
      rewrite Hnew. apply existsb_exists. exists r. split; [by apply list_elem_of_In|by apply N.ltb_lt]. }
    split; cbn.
    + intros r [Hr|Hr]%elem_of_app; [|etrans; [by apply Hb|apply Hahead]].
      destruct (Hin r Hr) as (Hs & _ & Hr' & Hn). rewrite Hn. unfold tail_of; cbn.
      rewrite stream_entry_insert, decide_True by done. etrans; [by apply Hrec|by apply Hack].
    + intros r r' [Hr|Hr]%elem_of_app [Hr'|Hr']%elem_of_app [= Hks Hkl].
      * apply Huniq; [by apply Hin|by apply Hin|done].
      * destruct (Hin r Hr) as (Hs & Hlt & _). specialize (Htail r' Hr'). rewrite <- Hks in Htail.
        specialize (Htail Hs). lia.
      * destruct (Hin r' Hr') as (Hs & Hlt & _). specialize (Htail r Hr). rewrite Hks in Htail.
        specialize (Htail Hs). lia.
      * apply Hu; [done|done|]. unfold record_key. by rewrite Hks, Hkl.
    + intros s f' [Hne Hs]%lookup_delete_Some. destruct (Hfl _ _ Hs) as (? & ? & Ht & ?). split_and!; try done.
      intros r [Hr|Hr]%elem_of_app Hrs; [|by apply Ht]. destruct (Hin r Hr) as (? & _). congruence.
  - split; cbn; try done; [intros r Hr; etrans; [by apply Hb|]; apply Hahead|].
    intros s f' [_ Hs]%lookup_delete_Some. by apply Hfl.
  - split; cbn; try done. intros s f [_ Hs]%lookup_delete_Some. by apply Hfl.
Qed.

(** A coordinator that started empty. *)
Definition coordinator_initial (c : CoordinatorState) : Prop := co_flights c = ∅ ∧ co_acknowledged c = [].

(** C12: One record per position.  In every run of a coordinator, with appends of many streams
    under way and reconstructions of its cache from any snapshots at any time, no two
    different records are acknowledged as new at one LSN of a stream, every acknowledged
    record is at or below the tail the coordinator appends behind, and that tail was below
    it when its append began. *)
Theorem coordinator_acks_one_record c0 c :
  coordinator_initial c0 → rtc coordinator_step c0 c →
  (∀ r r', r ∈ co_acknowledged c → r' ∈ co_acknowledged c → record_key r = record_key r' → r = r')
  ∧ (∀ r, r ∈ co_acknowledged c → er_lsn r ≤ sw_committed_lsn (tail_of c (er_stream r)))
  ∧ (∀ s f r, co_flights c !! s = Some f → r ∈ co_acknowledged c → er_stream r = s → er_lsn r ≤ fl_tail f).
Proof.
  intros [Hf Ha] Hr. assert (coordinator_inv c) as [Hb Hu Hfl].
  { assert (coordinator_inv c0) as H0.
    { split; rewrite ?Ha, ?Hf; [by intros ? ?%elem_of_nil|by intros ? ? ?%elem_of_nil|]. intros s f. by rewrite lookup_empty. }
    clear Hf Ha. induction Hr; eauto using coordinator_step_inv. }
  split_and!; [done|done|]. intros s f r Hs. by apply (Hfl _ _ Hs).
Qed.

(** A fence is for good.  Once a coordinator's cache has seen a writer epoch of a stream,
    a batch of a lower epoch is refused with [WriterFenced] in every later state, whatever
    the archive answers; and the tail of a stream never goes back, so a batch is offered
    only if its first record above the tail follows it and names it as committed. *)
Theorem coordinator_fence_is_permanent c c' s records archived_lsn archive :
  rtc coordinator_step c c' → validate_append_batch records = Ok tt →
  (∀ r, head records = Some r → er_writer_epoch r < sw_writer_epoch (tail_of c s) →
     plan_append (tail_of c' s) records archived_lsn archive = Err WriterFenced)
  ∧ sw_committed_lsn (tail_of c s) ≤ sw_committed_lsn (tail_of c' s)
  ∧ (∀ offered has_new, plan_append (tail_of c' s) records archived_lsn archive = Ok (Offer offered has_new) →
       match list_find (λ r, sw_committed_lsn (tail_of c' s) < er_lsn r) offered with
       | Some (_, r) => er_lsn r = saturating_add (sw_committed_lsn (tail_of c' s)) 1
                        ∧ er_committed_lsn r = sw_committed_lsn (tail_of c' s)
       | None => has_new = false
       end).
Proof.
  intros Hr Hv. pose proof (coordinator_steps_ahead _ _ s Hr) as [He Hc]. split_and!; [|done|].
  - intros r Hh Hlt. destruct records as [|x records]; [done|]. injection Hh as ->.
    assert (check_cached (tail_of c' s) ∅ r = Err WriterFenced) as Hcc.
    { unfold check_cached. by rewrite (proj2 (N.ltb_lt _ _)) by lia. }
    unfold plan_append. rewrite Hv. cbn [mbind result_bind try_fold]. by rewrite Hcc.
  - intros offered has_new (_ & _ & -> & Hf & _)%plan_append_offer. unfold check_first_new in Hf.
    destruct (list_find _ _) as [[i r]|] eqn:Hl.
    + destruct (N.eqb_spec (er_lsn r) (saturating_add (sw_committed_lsn (tail_of c' s)) 1)); [|done].
      cbn in Hf. destruct (N.eqb_spec (er_committed_lsn r) (sw_committed_lsn (tail_of c' s))); [done|done].
    + apply list_find_None in Hl. apply not_true_iff_false. intros Hex%existsb_exists.
      destruct Hex as (r & Hin%list_elem_of_In & Hlt%N.ltb_lt). rewrite Forall_forall in Hl. by apply (Hl r).
Qed.
