(* ===== verification/GatewayRebuild.v ===== *)
(** * GatewayRebuild: reconstruction loses no acknowledged record

    [rebuild_writer_state] per stream, and its composition with the evidence rules: a
    coordinator that starts from the snapshots of a quorum appends behind every record
    that was acknowledged, and behind every writer epoch a member reports. *)

From S2P Require Import Prelude Text Wire Client Placement Manifest Cohorts NodeLog Evidence EvidenceSafety ControlDoc Coordinator Gateway GatewaySafety.

#[local] Open Scope N_scope.

(** ** Folds over streams *)

(** A loop that updates each stream of a map. *)
Lemma foldl_update_stream {V} (f : V → StreamWriterState → StreamWriterState) entries streams s :
  NoDup entries.*1 →
  stream_entry (foldl (λ streams '(stream, v), update_stream (f v) stream streams) streams entries) s
  = match list_find (λ e : string * V, e.1 = s) entries with
    | Some (_, (_, v)) => f v (stream_entry streams s)
    | None => stream_entry streams s
    end.
Proof.
  revert streams. induction entries as [|[s' v] entries IH]; intros streams Hnd; [done|].
  cbn in Hnd. apply NoDup_cons in Hnd as [Hni Hnd]. cbn [foldl list_find fst]. rewrite IH by done.
  unfold update_stream. rewrite stream_entry_insert. destruct (decide (s' = s)) as [->|Hne].
  - rewrite decide_True by done. destruct (list_find _ entries) as [[i [s' v']]|] eqn:Hl; [|done].
    apply list_find_Some in Hl as (Hi & Hs & _). cbn in Hs. subst s'. exfalso. apply Hni, list_elem_of_fmap.
    exists (s, v'). split; [done|by eapply list_elem_of_lookup_2].
  - rewrite decide_False by done. by destruct (list_find _ entries) as [[i [? ?]]|].
Qed.

Lemma foldl_update_streams {V} (f : V → StreamWriterState → StreamWriterState) (m : gmap string V) streams s :
  stream_entry (foldl (λ streams '(stream, v), update_stream (f v) stream streams) streams (sbtree_entries m)) s
  = match m !! s with Some v => f v (stream_entry streams s) | None => stream_entry streams s end.
Proof.
  rewrite foldl_update_stream by apply NoDup_sbtree_keys.
  destruct (list_find _ _) as [[i [s' v]]|] eqn:Hl.
  - apply list_find_Some in Hl as (Hi & Hs & _). cbn in Hs. subst s'.
    apply list_elem_of_lookup_2, elem_of_sbtree_entries in Hi. by rewrite Hi.
  - destruct (m !! s) as [v|] eqn:Hm; [|done]. apply elem_of_sbtree_entries in Hm.
    apply list_find_None in Hl. rewrite Forall_forall in Hl. by destruct (Hl _ Hm).
Qed.

(** A loop that collects values under their key. *)
Lemma foldl_group {A V} (key : A → string) (val : A → V) (l : list A) (m : gmap string (list V)) s :
  default [] (foldl (λ m x, <[key x := default [] (m !! key x) ++ [val x]]> m) m l !! s)
  = default [] (m !! s) ++ (val <$> filter (λ x, key x = s) l).
Proof.
  revert m. induction l as [|x l IH]; intros m; cbn [foldl]; [by rewrite app_nil_r|].
  rewrite IH, filter_cons. case_decide as E.
  - subst s. rewrite lookup_insert_eq. cbn. by rewrite <- app_assoc.
  - by rewrite lookup_insert_ne.
Qed.

Lemma trim_watermarks_lookup snaps s :
  default [] (trim_watermarks snaps !! s) = reported_trims s snaps.
Proof.
  unfold trim_watermarks. rewrite (foldl_group tp_stream tp_archived_lsn). rewrite lookup_empty. cbn.
  unfold reported_trims, answered. induction snaps as [|[node [snap|]] snaps IH]; cbn; [done| |done].
  rewrite filter_app, fmap_app. f_equal. exact IH.
Qed.

Lemma candidates_by_stream_lookup candidates s :
  default [] (candidates_by_stream candidates !! s)
  = (filter (λ e : (string * N) * EncryptedRecord, e.1.1 = s) (btree_entries candidates)).*2.
Proof.
  unfold candidates_by_stream.
  by rewrite (foldl_group (λ e : (string * N) * EncryptedRecord, e.1.1) snd), lookup_empty.
Qed.

(** A loop that raises epochs leaves the tails alone. *)
Lemma foldl_raise {A} (key : A → string) (epoch : A → N) (l : list A) streams s :
  let sw := stream_entry streams s in
  let sw' := stream_entry (foldl (λ st x, update_stream (raise_epoch (epoch x)) (key x) st) streams l) s in
  sw_committed_lsn sw' = sw_committed_lsn sw ∧ sw_records sw' = sw_records sw
  ∧ sw_writer_epoch sw ≤ sw_writer_epoch sw'
  ∧ ∀ x, x ∈ l → key x = s → epoch x ≤ sw_writer_epoch sw'.
Proof.
  cbn. revert streams. induction l as [|x l IH]; intros streams; cbn [foldl].
  { split_and!; try done. by intros ? ?%elem_of_nil. }
  destruct (IH (update_stream (raise_epoch (epoch x)) (key x) streams)) as (-> & -> & He & Hin).
  unfold update_stream in *. rewrite stream_entry_insert in He |- *.
  case_decide as E; cbn in *.
  - subst s. split_and!; [done|done|lia|]. intros y [->|Hy]%elem_of_cons Hs; [lia|by apply Hin].
  - split_and!; [done|done|lia|]. intros y [->|Hy]%elem_of_cons Hs; [done|by apply Hin].
Qed.

(** The fence of a stream is at least every epoch an answering member shows. *)
Lemma observed_epochs snaps s :
  let sw := stream_entry (foldl observe_epochs ∅ (answered snaps)) s in
  sw_committed_lsn sw = 0 ∧ sw_records sw = ∅
  ∧ (∀ node snap r, (node, Some snap) ∈ snaps → r ∈ sn_records snap → er_stream r = s →
       er_writer_epoch r ≤ sw_writer_epoch sw)
  ∧ (∀ node snap p, (node, Some snap) ∈ snaps → p ∈ sn_trimmed snap → tp_stream p = s →
       tp_writer_epoch p ≤ sw_writer_epoch sw).
Proof.
  cbn. assert (∀ l streams,
    let sw := stream_entry streams s in let sw' := stream_entry (foldl observe_epochs streams l) s in
    sw_committed_lsn sw' = sw_committed_lsn sw ∧ sw_records sw' = sw_records sw
    ∧ sw_writer_epoch sw ≤ sw_writer_epoch sw'
    ∧ (∀ snap, snap ∈ l →
         (∀ r, r ∈ sn_records snap → er_stream r = s → er_writer_epoch r ≤ sw_writer_epoch sw')
         ∧ (∀ p, p ∈ sn_trimmed snap → tp_stream p = s → tp_writer_epoch p ≤ sw_writer_epoch sw'))) as Hgen.
  { cbn. induction l as [|snap l IH]; intros streams; cbn [foldl].
    { split_and!; try done. by intros ? ?%elem_of_nil. }
    destruct (IH (observe_epochs streams snap)) as (-> & -> & He & Hin). unfold observe_epochs in *.
    destruct (foldl_raise tp_stream tp_writer_epoch (sn_trimmed snap) streams s) as (Hc1 & Hr1 & He1 & Hi1).
    set (st := foldl _ streams (sn_trimmed snap)) in *.
    destruct (foldl_raise er_stream er_writer_epoch (sn_records snap) st s) as (-> & -> & He2 & Hi2).
    split_and!; [done|done|lia|]. intros x [->|Hx]%elem_of_cons; [|by apply Hin]. split.
    - intros r Hr Hs. specialize (Hi2 r Hr Hs). lia.
    - intros p Hp Hs. specialize (Hi1 p Hp Hs). lia. }
  destruct (Hgen (answered snaps) ∅) as (-> & -> & _ & Hin).
  assert (∀ node snap, (node, Some snap) ∈ snaps → snap ∈ answered snaps) as Hans.
  { intros node snap Hns. unfold answered. apply list_elem_of_omap. by exists (node, Some snap). }
  unfold stream_entry at 1 2. rewrite lookup_empty. cbn. split_and!; [done|done| |].
  - intros node snap r Hns. by apply (Hin snap (Hans _ _ Hns)).
  - intros node snap p Hns. by apply (Hin snap (Hans _ _ Hns)).
Qed.

(** ** The committed prefix *)

(** The loop keeps the chain the watermark loop keeps, up to the last LSN. *)
Lemma extend_prefix_tail e epoch l sw :
  lsns_bounded l →
  extend_prefix e epoch l sw
  = foldl (λ sw r, mkStreamWriter (sw_writer_epoch sw) (er_lsn r) (<[er_lsn r := r]> (sw_records sw)))
      sw (watermark_tail u64_max e epoch l).
Proof.
  revert e epoch sw. induction l as [|r l IH]; intros e epoch sw Hb; [done|].
  apply Forall_cons in Hb as [Hr Hb]. cbn [extend_prefix watermark_tail].
  destruct (er_lsn r <? e); [by apply IH|].
  rewrite (proj2 (N.ltb_ge u64_max (er_lsn r))) by done. rewrite orb_false_r.
  destruct (_ || _); [done|]. cbn [foldl]. by apply IH.
Qed.

Lemma watermark_tail_prefix e epoch l p :
  strict_sorted er_lsn l → lsns_bounded l → chain e epoch p → p ⊆ l →
  p `prefix_of` watermark_tail u64_max e epoch l.
Proof.
  revert e epoch p; induction l as [|r rest IH]; intros e epoch p Hs Hb Hp Hin.
  { assert (p = []) as -> by (destruct p; set_solver). apply prefix_nil. }
  pose proof Hs as [Hs' Hlt]%StronglySorted_inv. pose proof Hb as [Hr Hb']%Forall_cons.
  destruct p as [|x p]; [apply prefix_nil|]. cbn [watermark_tail].
  pose proof Hp as (Hx & Hcx & Hex & Hp').
  assert (x = r ∨ er_lsn r < er_lsn x) as Hxr.
  { specialize (Hin x ltac:(by left)). apply elem_of_cons in Hin as [|Hin]; [by left|].
    rewrite Forall_forall in Hlt. right. by apply Hlt. }
  destruct (N.ltb_spec (er_lsn r) e) as [Hlow|Hge].
  { apply (IH e epoch); [done..|]. intros y Hy. pose proof (chain_ge _ _ _ _ Hp Hy).
    specialize (Hin y Hy). apply elem_of_cons in Hin as [->|]; [lia|done]. }
  destruct Hxr as [->|]; [|lia]. unfold saturating_sub.
  rewrite (proj2 (N.ltb_ge u64_max _)), Hx, N.eqb_refl, Hcx, N.eqb_refl, (proj2 (N.ltb_ge _ _) Hex) by done.
  cbn. apply prefix_cons.
  assert (p ⊆ rest) as Hin'.
  { intros y Hy. pose proof (chain_ge _ _ _ _ Hp' Hy).
    specialize (Hin y ltac:(by right)). apply elem_of_cons in Hin as [->|]; [lia|done]. }
  destruct (sorted_next _ _ Hs Hb) as [->|Hnext].
  { assert (p = []) as -> by (destruct p; set_solver). apply prefix_nil. }
  rewrite Hx in Hnext. rewrite Hnext. by apply IH.
Qed.

(** Installing a chain of records. *)
Lemma foldl_install e epoch t sw :
  chain e epoch t → 1 ≤ e → sw_committed_lsn sw + 1 = e →
  let sw' := foldl (λ sw r, mkStreamWriter (sw_writer_epoch sw) (er_lsn r) (<[er_lsn r := r]> (sw_records sw))) sw t in
  sw_writer_epoch sw' = sw_writer_epoch sw ∧ sw_committed_lsn sw' = sw_committed_lsn sw + len t
  ∧ (∀ l r, l < e → sw_records sw' !! l = Some r ↔ sw_records sw !! l = Some r)
  ∧ (∀ r, r ∈ t → sw_records sw' !! er_lsn r = Some r)
  ∧ (∀ l r, e ≤ l → sw_records sw' !! l = Some r → (er_lsn r = l ∧ r ∈ t) ∨ sw_records sw !! l = Some r).
Proof.
  cbn. revert e epoch sw. induction t as [|x t IH]; intros e epoch sw; cbn [foldl chain].
  { intros _ _ _. unfold len; cbn. split_and!; try done; [lia|by intros ? ?%elem_of_nil|auto]. }
  intros (Hx & Hc & He & Ht) Hpos Hsw.
  destruct (IH (e + 1) (er_writer_epoch x) (mkStreamWriter (sw_writer_epoch sw) (er_lsn x)
    (<[er_lsn x := x]> (sw_records sw))) Ht) as (-> & -> & Hlow & Hin & Hout); [lia|cbn; lia|].
  cbn in *. rewrite len_cons. split_and!; [done|lia| | |].
  - intros l r Hl. rewrite Hlow by lia. rewrite lookup_insert_ne; [done|lia].
  - intros r [->|Hr]%elem_of_cons; [|by apply Hin]. apply Hlow; [lia|]. by rewrite lookup_insert_eq.
  - intros l r Hl Hr. destruct (N.eq_dec l e) as [->|].
    + apply Hlow in Hr; [|lia]. rewrite Hx, lookup_insert_eq in Hr. injection Hr as <-.
      left. split; [done|by left].
    + destruct (Hout l r ltac:(lia) Hr) as [[? ?]|Hr']; [left; split; [done|by right]|].
      rewrite lookup_insert_ne in Hr' by lia. by right.
Qed.

Section Rebuild.
Context `{ManifestHost} `{LogJsonLaws}.
Context (control : option DurableControlState) (quorum : N) (snaps : snapshots) (stream : string).

Let candidates := (collect_candidates_from_snapshots control quorum "*" snaps).1.

(** The candidates of the stream, as the loop visits them. *)
Definition stream_candidates : list EncryptedRecord :=
  sort_by_key er_lsn
    (filter (λ e : (string * N) * EncryptedRecord, e.1.1 = stream) (btree_entries candidates)).*2.

Lemma candidate_keyed k r :
  members_ok snaps → candidates !! k = Some r → record_key r = k ∧ wf_record r.
Proof.
  intros Hok Hk. unfold candidates in Hk. apply candidate_iff in Hk as (Hkey & Hh & _); [|apply Hok].
  split; [done|]. apply ids_where_non_empty in Hh as (x & Hx & <- & _). by apply (mo_wf _ Hok).
Qed.

Lemma elem_of_stream_candidates r :
  members_ok snaps → r ∈ stream_candidates ↔ er_stream r = stream ∧ candidates !! record_key r = Some r.
Proof.
  intros Hok. unfold stream_candidates. rewrite sort_by_key_Permutation, list_elem_of_fmap. split.
  - intros ([k r'] & -> & [Hs Hin%elem_of_btree_entries]%list_elem_of_filter). cbn in *.
    destruct (candidate_keyed _ _ Hok Hin) as [<- _]. done.
  - intros [Hs Hin]. exists (record_key r, r). split; [done|]. apply list_elem_of_filter.
    split; [done|]. by apply elem_of_btree_entries.
Qed.

Lemma stream_candidates_sorted :
  members_ok snaps → strict_sorted er_lsn stream_candidates ∧ lsns_bounded stream_candidates.
Proof.
  intros Hok. split.
  - apply sort_by_key_strict. rewrite <- list_fmap_compose.
    apply (NoDup_fmap_2_strong _ _); [|apply NoDup_filter, (NoDup_fmap_1 fst), NoDup_btree_keys].
    intros [k r] [k' r'] [Hs Hin%elem_of_btree_entries]%list_elem_of_filter
      [Hs' Hin'%elem_of_btree_entries]%list_elem_of_filter Heq. cbn in *.
    destruct (candidate_keyed _ _ Hok Hin) as [<- _], (candidate_keyed _ _ Hok Hin') as [<- _].
    unfold record_key in *. cbn in *. rewrite Hs in *. rewrite Hs', Heq in *. congruence.
  - apply Forall_forall. intros r [_ Hin]%elem_of_stream_candidates; [|done].
    destruct (candidate_keyed _ _ Hok Hin) as [_ Hwf]. by apply Hwf.
Qed.

(** The tail of one stream after the reconstruction. *)
Lemma rebuilt_stream :
  members_ok snaps →
  let w := default 0 (quorum_watermark quorum (reported_trims stream snaps)) in
  let sw0 := stream_entry (foldl observe_epochs ∅ (answered snaps)) stream in
  stream_entry (ws_streams (rebuild_writer_state candidates snaps quorum)) stream
  = extend_prefix (saturating_add w 1) 0 stream_candidates (mkStreamWriter (sw_writer_epoch sw0) w ∅).
Proof.
  intros Hok w sw0. cbn [rebuild_writer_state ws_streams].
  rewrite (foldl_update_streams rebuild_stream), (foldl_update_streams (apply_watermark quorum)). fold sw0.
  destruct (observed_epochs snaps stream) as (Hc & Hr & _). fold sw0 in Hc, Hr.
  assert (match trim_watermarks snaps !! stream with
          | Some v => apply_watermark quorum v sw0 | None => sw0 end
          = mkStreamWriter (sw_writer_epoch sw0) w ∅) as ->.
  { unfold w. rewrite <- trim_watermarks_lookup. destruct sw0 as [e c rs]; cbn in *. subst.
    destruct (trim_watermarks snaps !! stream) as [v|]; cbn; [|done].
    unfold apply_watermark. by destruct (quorum_watermark quorum v). }
  unfold stream_candidates. rewrite <- candidates_by_stream_lookup.
  by destruct (candidates_by_stream candidates !! stream).
Qed.

(** C13: A reconstruction loses nothing that was acknowledged.  Take a chain [p] of records of
    the stream that starts after the checkpoint a quorum of the members reports, each
    stored and marked by a quorum of its owners, the quorum being more than half of them.  If a
    quorum of its owners answers, and for each record of [p] the quorum that acknowledged it is among
    those that answer or no other record at its LSN carries a marker
    ([stale_marker_hides_acknowledged] shows why), the rebuilt tail of the stream ends no lower than
    [p] and the cache holds every record of [p]; so no record can be appended over one of them.  The stream is fenced at the highest epoch
    any member shows, and every record of the cache is a candidate between the checkpoint
    and the tail. *)
Theorem rebuilt_covers_acknowledged p (acks : EncryptedRecord → gset string) :
  let w := default 0 (quorum_watermark quorum (reported_trims stream snaps)) in
  let sw := stream_entry (ws_streams (rebuild_writer_state candidates snaps quorum)) stream in
  members_ok snaps → w < u64_max → chain (w + 1) 0 p →
  (∀ r, r ∈ p → er_stream r = stream ∧ acked_by control snaps r (acks r)
     ∧ quorum ≤ N.of_nat (size (acks r)) ∧ N.of_nat (size (owner_ids control snaps r)) < 2 * quorum
     ∧ quorum ≤ answering_owners control snaps r
     ∧ (acks r ⊆ answering_ids control snaps r
        ∨ ∀ r', record_key r' = record_key r → r' ≠ r → markers control "*" snaps r' = ∅)) →
  (∀ r, r ∈ p → sw_records sw !! er_lsn r = Some r)
  ∧ w + len p ≤ sw_committed_lsn sw
  ∧ (∀ node snap r, (node, Some snap) ∈ snaps → r ∈ sn_records snap → er_stream r = stream →
       er_writer_epoch r ≤ sw_writer_epoch sw)
  ∧ (∀ l r, sw_records sw !! l = Some r →
       w < l ∧ l ≤ sw_committed_lsn sw ∧ candidates !! (stream, l) = Some r).
Proof.
  intros w sw Hok Hw Hp Hacked.
  destruct (stream_candidates_sorted Hok) as [Hsorted Hbound].
  assert (p ⊆ stream_candidates) as Hin.
  { intros r Hr. destruct (Hacked r Hr) as (Hs & Ha & Hq & Hn & Hans & Hor).
    apply elem_of_stream_candidates; [done|]. split; [done|].
    eapply acked_candidate; try done. eapply chain_committed; [exact Hp|lia|done]. }
  unfold sw. rewrite rebuilt_stream by done. fold w.
  destruct (observed_epochs snaps stream) as (_ & _ & Hep & _).
  set (sw0 := stream_entry (foldl observe_epochs ∅ (answered snaps)) stream) in *.
  rewrite extend_prefix_tail by done.
  replace (saturating_add w 1) with (w + 1) by (unfold saturating_add; lia).
  set (t := watermark_tail u64_max (w + 1) 0 stream_candidates).
  destruct (watermark_tail_chain u64_max (w + 1) 0 stream_candidates Hsorted Hbound) as (Ht & Htin & _).
  fold t in Ht, Htin.
  assert (p `prefix_of` t) as [k Hk] by by apply watermark_tail_prefix.
  destruct (foldl_install (w + 1) 0 t (mkStreamWriter (sw_writer_epoch sw0) w ∅) Ht)
    as (-> & -> & Hlow & Hall & Hfrom); [lia|done|]. cbn in *.
  split_and!.
  - intros r Hr. apply Hall. rewrite Hk. apply elem_of_app. by left.
  - rewrite Hk, len_app. lia.
  - done.
  - intros l r Hl. destruct (N.lt_ge_cases l (w + 1)) as [Hlt|Hge].
    { apply Hlow in Hl; [|done]. by rewrite lookup_empty in Hl. }
    destruct (Hfrom l r Hge Hl) as [[<- Hr]|He]; [|by rewrite lookup_empty in He].
    split_and!; [lia| |].
    + pose proof (lsns_from_lt _ _ _ (chain_lsns _ _ _ Ht) Hr). lia.
    + apply Htin, elem_of_stream_candidates in Hr as [Hs Hr]; [|done]. unfold record_key in Hr. by rewrite Hs in Hr.
Qed.

End Rebuild.
