(* ===== verification/GatewayToy.v ===== *)
(** * GatewayToy: a coordinator at work

    Concrete appends, fences and reconstructions on which the theorems about coordinators
    apply. *)

From S2P Require Import Prelude Text Wire Client Placement Manifest Cohorts NodeLog NodeReplay NodeOps NodeSafety NodeContract NodeToy Evidence EvidenceSafety EvidenceToy ControlDoc Coordinator Gateway GatewaySafety GatewayRebuild.

#[local] Open Scope N_scope.
#[local] Existing Instance Manifest.toy_host.

(** a takes the batch, b is behind and takes it after it was caught up, c is down. *)
Definition g_send (_ : list ReplicaNode) : list Arrival :=
  [(v_node "a", Ok tt); (v_node "c", Err NodeUnavailable); (v_node "b", Err LsnConflict)].

Definition g_nodes : list ReplicaNode := [v_node "a"; v_node "b"; v_node "c"].

Definition g_arrivals (nodes : list ReplicaNode) : list Arrival :=
  if bool_decide (nodes = g_nodes) then g_send nodes else [].

Lemma append_reaches_quorum_witness :
  append_nodes_many None g_nodes 2 [sample_record 1] None None (λ _ _, []) g_arrivals
    (λ _, true) (λ _, true) = Ok 2
  ∧ ∃ nodes, replicas_for_route None g_nodes None false = Ok nodes ∧
      ∃ acked, acked ⊆+ nodes ∧ len acked = 2
        ∧ ∀ node, node ∈ acked → took g_arrivals (λ _, true) (λ _, true) nodes node.
Proof.
  split; [vm_compute; reflexivity|].
  destruct (append_reaches_quorum None g_nodes 2 (λ _ _, []) g_arrivals (λ _, true) (λ _, true)
    [sample_record 1] None None 2) as (_ & nodes & Hn & Ha & _).
  - lia.
  - intros nodes. unfold g_arrivals. case_bool_decide; [subst|apply submseteq_nil_l]. cbn.
    apply submseteq_skip, submseteq_swap.
  - vm_compute; reflexivity.
  - exists nodes. split; [exact Hn|exact Ha].
Defined.

(** An append of one record, acknowledged. *)
Definition g_cache : GatewayWriterState := mkWriterState true g_nodes ∅.

Definition g_start : CoordinatorState := mkCoordinator g_cache ∅ [].

Definition g_flying : CoordinatorState :=
  mkCoordinator (set_stream g_cache "t/s" new_stream)
    {["t/s" := mkFlight [sample_record 1] (sample_record 1) true 0]} [].

Definition g_done : CoordinatorState :=
  mkCoordinator (set_stream (set_stream g_cache "t/s" new_stream) "t/s"
      (mkStreamWriter 1 1 {[1 := sample_record 1]})) (delete "t/s" (co_flights g_flying)) [sample_record 1].

Lemma g_run : rtc coordinator_step g_start g_done.
Proof.
  eapply rtc_l; [|apply rtc_once].
  - apply (step_begin g_cache ∅ [] "t/s" [sample_record 1] (sample_record 1) (Ok 0) (λ _, Ok [])
      [sample_record 1] true); by vm_compute.
  - apply (step_finish _ _ [] "t/s" (mkFlight [sample_record 1] (sample_record 1) true 0)); by vm_compute.
Qed.

Lemma coordinator_acks_one_record_witness :
  co_acknowledged g_done = [sample_record 1]
  ∧ er_lsn (sample_record 1) ≤ sw_committed_lsn (tail_of g_done "t/s").
Proof.
  split; [reflexivity|].
  destruct (coordinator_acks_one_record g_start g_done) as (_ & Hb & _);
    [split; reflexivity|exact g_run|]. apply (Hb (sample_record 1)). by left.
Defined.

(** The fence of the record's epoch refuses a batch of epoch zero. *)
Definition g_stale : EncryptedRecord := v_orphan.

Lemma coordinator_fence_is_permanent_witness :
  plan_append (tail_of g_done "t/s") [g_stale] (Ok 0) (λ _, Ok []) = Err WriterFenced.
Proof.
  apply (proj1 (coordinator_fence_is_permanent g_done g_done "t/s" [g_stale] (Ok 0) (λ _, Ok [])
    (rtc_refl _ _) (eq_refl (Ok tt))) g_stale); [reflexivity|by vm_compute].
Defined.

Lemma rebuilt_covers_acknowledged_witness :
  sw_records (stream_entry (ws_streams (rebuild_writer_state
    (collect_candidates_from_snapshots (Some v_state) 2 "*" v_quorum).1 v_quorum 2)) "t/s") !! 1
  = Some (sample_record 1).
Proof.
  destruct (rebuilt_covers_acknowledged (Some v_state) 2 v_quorum "t/s" [sample_record 1]
    (λ r, markers (Some v_state) "*" v_quorum r)) as (Hin & _).
  - apply v_quorum_ok.
  - by vm_compute.
  - by vm_compute.
  - intros r ->%list_elem_of_singleton. split_and!; [done|apply markers_acked, v_quorum_ok|by vm_compute..|].
    left. etrans; [apply ids_where_and|apply holders_answer].
  - apply (Hin (sample_record 1)). by left.
Defined.
