(* ===== verification/CatchUp.v ===== *)
(** * CatchUp: bringing a member of a cohort up to date

    [catch_up_member], [repair_under_replicated] and [repair_lagging] of [ReplicaGateway]
    in [crates/walleye-bitr-server/src/lib.rs].  [catch_up_plan] is the part that reads:
    what the peers, the coordinator and the archive know, how far the member agrees, what
    has to be withdrawn and which records are copied.  [run_catch_up] is the part that
    writes, over the interface a coordinator has to one member ([MemberClient]);
    [disk_member] discharges it with the member's own operations. *)

From S2P Require Import Prelude Text Wire Client Placement Manifest Cohorts NodeLog Evidence ControlDoc Coordinator Gateway.

#[local] Open Scope N_scope.

Definition CATCH_UP_BATCH : N := 256.

(** The highest checkpoint of a stream, and the highest epoch of one. *)
Definition trimmed_lsn (stream : string) (snapshot : NodeSnapshot) : N :=
  default 0 (max_by (λ a b, b <=? a)
    (tp_archived_lsn <$> filter (λ p, tp_stream p = stream) (sn_trimmed snapshot))).

Definition trimmed_epoch (stream : string) (snapshot : NodeSnapshot) : N :=
  default 0 (max_by (λ a b, b <=? a)
    (tp_writer_epoch <$> filter (λ p, tp_stream p = stream) (sn_trimmed snapshot))).

Definition above_floor (stream : string) (floor : N) (snapshot : NodeSnapshot) : list EncryptedRecord :=
  filter (λ r, er_stream r = stream ∧ floor < er_lsn r) (sn_records snapshot).

(** The member's own records by LSN. *)
Definition own_records (stream : string) (floor : N) (own : NodeSnapshot) : gmap N EncryptedRecord :=
  foldl (λ m r, <[er_lsn r := r]> m) ∅ (above_floor stream floor own).

(** ** What the others know *)

Record Copies := mkCopies {
  cp_copies : gmap N EncryptedRecord;
  cp_certified : N;
  cp_peers_trimmed : N;
  cp_disagreement : option N;
}.

Definition no_copies : Copies := mkCopies ∅ 0 0 None.

(** One record of one peer. *)
Definition peer_record (c : Copies) (record : EncryptedRecord) : Copies :=
  let certified := N.max (cp_certified c) (er_committed_lsn record) in
  match cp_copies c !! er_lsn record with
  | Some existing =>
    if bool_decide (existing = record)
    then mkCopies (cp_copies c) certified (cp_peers_trimmed c) (cp_disagreement c)
    else mkCopies (cp_copies c) certified (cp_peers_trimmed c)
           (Some (match cp_disagreement c with
                  | Some at_lsn => N.min at_lsn (er_lsn record)
                  | None => er_lsn record
                  end))
  | None => mkCopies (<[er_lsn record := record]> (cp_copies c)) certified (cp_peers_trimmed c)
              (cp_disagreement c)
  end.

Definition peer_snapshot (stream : string) (member : ReplicaNode) (floor : N) (c : Copies)
    (ns : ReplicaNode * option NodeSnapshot) : Copies :=
  if bool_decide (rn_id ns.1 = rn_id member) then c
  else match ns.2 with
  | None => c
  | Some snapshot =>
    foldl peer_record
      (mkCopies (cp_copies c) (cp_certified c)
         (N.max (cp_peers_trimmed c) (trimmed_lsn stream snapshot)) (cp_disagreement c))
      (above_floor stream floor snapshot)
  end.

Definition peer_copies (stream : string) (member : ReplicaNode) (floor : N) (snaps : snapshots) : Copies :=
  foldl (peer_snapshot stream member floor) no_copies snaps.

(** [copies.split_off] at the lowest disagreement. *)
Definition agreed_copies (c : Copies) : gmap N EncryptedRecord :=
  match cp_disagreement c with
  | Some at_lsn => filter (λ e : N * EncryptedRecord, e.1 < at_lsn) (cp_copies c)
  | None => cp_copies c
  end.

(** The loop over the records this coordinator acknowledged. *)
Fixpoint add_acknowledged (committed_lsn : N) (copies : gmap N EncryptedRecord)
    (entries : list (N * EncryptedRecord)) : result ReplicaError (gmap N EncryptedRecord) :=
  match entries with
  | [] => Ok copies
  | (lsn, record) :: rest =>
    if committed_lsn <? lsn then Ok copies
    else match copies !! lsn with
    | Some existing =>
      if bool_decide (existing = record) then add_acknowledged committed_lsn copies rest
      else Err LsnConflict
    | None => add_acknowledged committed_lsn (<[lsn := record]> copies) rest
    end
  end.

(** The loop over the archive up to what the peers trimmed. *)
Fixpoint add_archived (peers_trimmed : N) (copies : gmap N EncryptedRecord) (certified : N)
    (archived : list EncryptedRecord) : result ReplicaError (gmap N EncryptedRecord * N) :=
  match archived with
  | [] => Ok (copies, certified)
  | record :: rest =>
    if peers_trimmed <? er_lsn record then Ok (copies, certified)
    else
      let certified := N.max certified (er_lsn record) in
      if match copies !! er_lsn record with
         | Some existing => negb (bool_decide (existing = record))
         | None => false
         end
      then Err LsnConflict
      else add_archived peers_trimmed (<[er_lsn record := record]> copies) certified rest
  end.

(** The copies and the watermark below which they count as committed; [archive] answers
    [archive.recover(stream, floor)]. *)
Definition known_copies (stream : string) (member : ReplicaNode) (floor : N) (snaps : snapshots)
    (acknowledged : option StreamWriterState) (archive : result string (list EncryptedRecord))
    : result ReplicaError (gmap N EncryptedRecord * N) :=
  let c := peer_copies stream member floor snaps in
  let copies := agreed_copies c in
  '(copies, certified) ←
    match acknowledged with
    | None => Ok (copies, cp_certified c)
    | Some sw =>
      copies ← add_acknowledged (sw_committed_lsn sw) copies
        (filter (λ e : N * EncryptedRecord, saturating_add floor 1 ≤ e.1) (nbtree_entries (sw_records sw)));
      Ok (copies, N.max (cp_certified c) (sw_committed_lsn sw))
    end;
  if floor <? cp_peers_trimmed c then
    archived ← map_err NodeStorage archive;
    add_archived (cp_peers_trimmed c) copies certified archived
  else Ok (copies, certified).

(** ** How far the member agrees *)

(** The position reached, the epoch there, and the suffix to withdraw. *)
Fixpoint agreement (copies : gmap N EncryptedRecord) (certified position own_epoch : N)
    (own : list (N * EncryptedRecord)) : N * N * option (N * N) :=
  match own with
  | [] => (position, own_epoch, None)
  | (lsn, record) :: rest =>
    if negb (lsn =? saturating_add position 1) then (position, own_epoch, None)
    else match copies !! lsn with
    | Some copy =>
      if bool_decide (copy = record)
      then agreement copies certified lsn (N.max own_epoch (er_writer_epoch record)) rest
      else if (lsn <=? certified)
              && forallb (λ e, er_writer_epoch e.2 <? er_writer_epoch copy) ((lsn, record) :: rest)
      then (position, own_epoch, Some (lsn, er_writer_epoch copy))
      else (position, own_epoch, None)
    | None => (position, own_epoch, None)
    end
  end.

(** The records to copy. *)
Fixpoint missing_records (certified expected own_epoch : N) (copies : list (N * EncryptedRecord))
    : list EncryptedRecord :=
  match copies with
  | [] => []
  | (lsn, record) :: rest =>
    if negb (lsn =? expected) || (certified <? lsn)
       || negb (er_committed_lsn record =? saturating_sub lsn 1)
       || (er_writer_epoch record <? own_epoch) then []
    else record :: missing_records certified (saturating_add expected 1) (er_writer_epoch record) rest
  end.

Record CatchUpPlan := mkCatchUp {
  cu_withdraw : option (N * N);
  cu_missing : list EncryptedRecord;
}.

(** [catch_up_member] up to its writes, for a [member] of the stream's cohort. *)
Definition catch_up_plan (stream : string) (member : ReplicaNode) (snaps : snapshots)
    (acknowledged : option StreamWriterState) (archive : N → result string (list EncryptedRecord))
    : result ReplicaError CatchUpPlan :=
  own ← ok_or (list_find (λ ns : ReplicaNode * option NodeSnapshot, rn_id ns.1 = rn_id member) snaps
               ≫= λ f, f.2.2) NodeUnavailable;
  let floor := trimmed_lsn stream own in
  '(copies, certified) ← known_copies stream member floor snaps acknowledged (archive floor);
  let '(position, own_epoch, withdraw) :=
    agreement copies certified floor (trimmed_epoch stream own) (nbtree_entries (own_records stream floor own)) in
  let expected := saturating_add position 1 in
  Ok (mkCatchUp withdraw (missing_records certified expected own_epoch
        (filter (λ e : N * EncryptedRecord, expected ≤ e.1) (nbtree_entries copies)))).

(** The batches: one writer epoch each, and a bounded number of records. *)
Definition push_batch (acc : list (list EncryptedRecord) * list EncryptedRecord) (record : EncryptedRecord)
    : list (list EncryptedRecord) * list EncryptedRecord :=
  let '(sent, batch) := acc in
  if match last batch with
     | Some previous => negb (er_writer_epoch previous =? er_writer_epoch record)
     | None => false
     end || (CATCH_UP_BATCH <=? len batch)
  then (sent ++ [batch], [record])
  else (sent, batch ++ [record]).

Definition catch_up_batches (missing : list EncryptedRecord) : list (list EncryptedRecord) :=
  let '(sent, batch) := foldl push_batch ([], []) missing in
  if bool_decide (batch = []) then sent else sent ++ [batch].

(** The token of the stream's current route, when the quorum read found a manifest. *)
Definition catch_up_placement `{RingHost} (manifest : result ReplicaError (option ReplicaManifest))
    (stream : string) : result ReplicaError (option PlacementEpoch) :=
  manifest ← manifest;
  match manifest with
  | None => Ok None
  | Some manifest =>
    route ← ok_or (rm_stream_segments manifest !! stream ≫= last) QuorumUnavailable;
    Ok (Some (placement_for_route stream route))
  end.

(** ** Writing to the member *)

(** What [NodeClient] asks of one member. *)
Class MemberClient (S : Type) := {
  nc_supersede : S → string → N → N → result ReplicaError N * S;
  nc_install_placement_fence : S → string → PlacementEpoch → result ReplicaError unit * S;
  nc_append_and_commit_many : S → list EncryptedRecord → option PlacementEpoch → result ReplicaError unit * S;
}.

Section Run.
Context {S : Type} `{MemberClient S}.

Fixpoint send_batches (s : S) (placement : option PlacementEpoch) (batches : list (list EncryptedRecord))
    : result ReplicaError unit * S :=
  match batches with
  | [] => (Ok tt, s)
  | batch :: rest =>
    match nc_append_and_commit_many s batch placement with
    | (Err e, s) => (Err e, s)
    | (Ok _, s) => send_batches s placement rest
    end
  end.

(** The member is fenced to [placement] before anything is copied to it. *)
Definition fence_member (s : S) (stream : string)
    (placement : result ReplicaError (option PlacementEpoch))
    : result ReplicaError (option PlacementEpoch) * S :=
  match placement with
  | Err e => (Err e, s)
  | Ok None => (Ok None, s)
  | Ok (Some token) =>
    match nc_install_placement_fence s stream token with
    | (Err e, s) => (Err e, s)
    | (Ok _, s) => (Ok (Some token), s)
    end
  end.

(** The writes of [catch_up_member]: the range that was copied, if any. *)
Definition run_catch_up (s : S) (stream : string) (plan : CatchUpPlan)
    (placement : result ReplicaError (option PlacementEpoch))
    : result ReplicaError (option (N * N)) * S :=
  match (match cu_withdraw plan with
         | None => (Ok 0, s)
         | Some (lsn, epoch) => nc_supersede s stream lsn epoch
         end) with
  | (Err e, s) => (Err e, s)
  | (Ok _, s) =>
    match head (cu_missing plan), last (cu_missing plan) with
    | Some first, Some last =>
      match fence_member s stream placement with
      | (Err e, s) => (Err e, s)
      | (Ok token, s) =>
        match send_batches s token (catch_up_batches (cu_missing plan)) with
        | (Err e, s) => (Err e, s)
        | (Ok _, s) => (Ok (Some (er_lsn first, er_lsn last)), s)
        end
      end
    | _, _ => (Ok None, s)
    end
  end.

(** One member of [append_nodes_many] that was behind: caught up, then offered the batch
    again. *)
Definition retry_member (s : S) (stream : string) (plan : result ReplicaError CatchUpPlan)
    (token : result ReplicaError (option PlacementEpoch)) (records : list EncryptedRecord)
    (placement : option PlacementEpoch) : bool * S :=
  match plan with
  | Err _ => (false, s)
  | Ok plan =>
    match run_catch_up s stream plan token with
    | (Ok (Some _), s) =>
      let '(r, s) := nc_append_and_commit_many s records placement in (is_ok r, s)
    | (_, s) => (false, s)
    end
  end.

End Run.

(** A member reached over a network that delivers, on a disk that works; a fence that has
    to wait for leases counts as unavailable. *)
Section Disk.
Context `{LogJson}.

#[global] Instance disk_member : MemberClient DiskReplica := {|
  nc_supersede d stream lsn epoch := supersede WriteDone d stream lsn epoch;
  nc_install_placement_fence d stream token :=
    default (Err NodeUnavailable, d) (install_placement_fence PersistDone d stream token);
  nc_append_and_commit_many d records placement :=
    append_many_inner_with_placement WriteDone true d records None true placement;
|}.

End Disk.

(** [repair_under_replicated] for one answering member: what it is sent, one record at a
    time. *)
Definition under_replicated `{ManifestHost} (control : option DurableControlState) (stream : string)
    (node : ReplicaNode) (snapshot : NodeSnapshot) (certified : gmap N EncryptedRecord)
    : list EncryptedRecord :=
  let present : gset N := list_to_set (er_lsn <$> filter (λ r, er_stream r = stream) (sn_committed snapshot)) in
  filter (λ r, er_lsn r ∉ present ∧ node_owns_record control node r = true) (nbtree_values certified).
