(* ===== verification/CatchUpSafety.v ===== *)
(** * CatchUpSafety: catch-up follows the committed log

    What [catch_up_plan] may withdraw from a member and copy to it, related to the
    committed log of the stream, and a run in which a batch that never reached a quorum
    is taken for committed and an acknowledged record is withdrawn. *)

From S2P Require Import Prelude Text Wire Client Placement Manifest Cohorts NodeLog NodeReplay NodeOps NodeSafety NodeContract NodeToy Evidence EvidenceSafety EvidenceToy ControlDoc Coordinator Gateway CatchUp.

#[local] Open Scope N_scope.

Lemma elem_of_nbtree_entries {V} (m : gmap N V) k v : (k, v) ∈ nbtree_entries m ↔ m !! k = Some v.
Proof. unfold nbtree_entries. by rewrite sort_by_key_Permutation, elem_of_map_to_list. Qed.

Lemma nbtree_entries_strict {V} (m : gmap N V) : strict_sorted fst (nbtree_entries m).
Proof. apply sort_by_key_strict, NoDup_fst_map_to_list. Qed.

Lemma filter_strict {A} (key : A → N) (P : A → Prop) `{∀ x, Decision (P x)} l :
  strict_sorted key l → strict_sorted key (filter P l).
Proof.
  induction 1 as [|x l _ IH Hx]; [constructor|]. rewrite filter_cons. case_decide; [|done].
  constructor; [done|]. apply Forall_forall. intros y [_ Hy]%list_elem_of_filter.
  rewrite Forall_forall in Hx. by apply Hx.
Qed.

(** In a sorted list, everything above the head of a suffix is in the suffix. *)
Lemma suffix_above {A} (key : A → N) x suffix (l : list A) y :
  strict_sorted key l → (x :: suffix) `suffix_of` l → y ∈ l → key x ≤ key y → y ∈ x :: suffix.
Proof.
  intros Hs [k ->]. induction k as [|z k IH]; [done|]. cbn in Hs. inversion Hs as [|? ? Hs' Hz]; subst.
  intros [->|Hy]%elem_of_cons Hle; [|by apply IH].
  rewrite Forall_forall in Hz. specialize (Hz x ltac:(set_solver)). lia.
Qed.

Section Copies.
Context (stream : string) (member : ReplicaNode) (floor : N) (snaps : snapshots).

(** A peer that answered shows [r] above the floor. *)
Definition peer_shows (r : EncryptedRecord) : Prop :=
  ∃ node s, (node, Some s) ∈ snaps ∧ rn_id node ≠ rn_id member ∧ r ∈ above_floor stream floor s.

(** What the pass over the peers collects of the records it saw. *)
Record seen_ok (c : Copies) (seen : EncryptedRecord → Prop) : Prop := {
  so_copy l r : cp_copies c !! l = Some r → er_lsn r = l ∧ seen r;
  so_agree r : seen r → cp_copies c !! er_lsn r = Some r
    ∨ ∃ a, cp_disagreement c = Some a ∧ a ≤ er_lsn r;
  so_certified : cp_certified c = 0 ∨ ∃ r, seen r ∧ er_committed_lsn r = cp_certified c;
}.

Lemma seen_ok_iff c P Q : (∀ r, P r ↔ Q r) → seen_ok c P → seen_ok c Q.
Proof.
  intros Hiff [H1 H2 H3]. split.
  - intros l r Hl. destruct (H1 l r Hl). split; [done|by apply Hiff].
  - intros r Hr. by apply H2, Hiff.
  - destruct H3 as [?|(r & ? & ?)]; [by left|right]. exists r. by rewrite <- Hiff.
Qed.

Lemma peer_record_ok c seen r :
  seen_ok c seen → seen_ok (peer_record c r) (λ r', seen r' ∨ r' = r).
Proof.
  intros [H1 H2 H3]. unfold peer_record.
  assert (N.max (cp_certified c) (er_committed_lsn r) = 0 ∨
    ∃ r', (seen r' ∨ r' = r) ∧ er_committed_lsn r' = N.max (cp_certified c) (er_committed_lsn r)) as Hc.
  { destruct (N.max_spec (cp_certified c) (er_committed_lsn r)) as [[_ ->]|[_ ->]]; [right; eauto|].
    destruct H3 as [?|(r' & ? & ?)]; [by left|right; eauto]. }
  destruct (cp_copies c !! er_lsn r) as [x|] eqn:Hx; [case_bool_decide as Hxr|].
  - subst x. split; cbn; [|intros r' [Hr'| ->]; auto|done].
    intros l r' Hl. destruct (H1 l r' Hl); auto.
  - split; cbn; [| |done].
    + intros l r' Hl. destruct (H1 l r' Hl); auto.
    + intros r' [Hr'| ->].
      * destruct (H2 r' Hr') as [?|(a & -> & ?)]; [by left|right]. eexists. split; [done|]. lia.
      * right. destruct (cp_disagreement c); eexists; (split; [done|]); lia.
  - split; cbn; [| |done].
    + intros l r' [[<- <-]|[? Hl]]%lookup_insert_Some; [auto|]. destruct (H1 l r' Hl); auto.
    + intros r' [Hr'| ->]; [|left; by rewrite lookup_insert_eq].
      destruct (H2 r' Hr') as [Hl|?]; [left|by right].
      rewrite lookup_insert_ne; [done|]. congruence.
Qed.

Lemma peer_records_ok c seen rs :
  seen_ok c seen → seen_ok (foldl peer_record c rs) (λ r, seen r ∨ r ∈ rs).
Proof.
  revert c seen. induction rs as [|r rs IH]; intros c seen Hok; cbn.
  - eapply seen_ok_iff, Hok. intros x. rewrite elem_of_nil. tauto.
  - eapply seen_ok_iff, IH, peer_record_ok, Hok. intros x. rewrite elem_of_cons. tauto.
Qed.

Lemma peer_copies_ok : seen_ok (peer_copies stream member floor snaps) peer_shows.
Proof.
  unfold peer_copies.
  assert (∀ l c seen, seen_ok c seen → seen_ok (foldl (peer_snapshot stream member floor) c l)
    (λ r, seen r ∨ ∃ node s, (node, Some s) ∈ l ∧ rn_id node ≠ rn_id member
                             ∧ r ∈ above_floor stream floor s)) as Hgen.
  { induction l as [|[node o] l IH]; intros c seen Hok; cbn.
    - eapply seen_ok_iff, Hok. intros x. setoid_rewrite elem_of_nil. naive_solver.
    - assert (seen_ok (peer_snapshot stream member floor c (node, o))
        (λ r, seen r ∨ ∃ s, o = Some s ∧ rn_id node ≠ rn_id member ∧ r ∈ above_floor stream floor s)) as Hstep.
      { unfold peer_snapshot; cbn [fst snd].
        case_bool_decide as Hm; [eapply seen_ok_iff, Hok; naive_solver|].
        destruct o as [s|]; [|eapply seen_ok_iff, Hok; naive_solver].
        eapply seen_ok_iff, peer_records_ok; [|destruct Hok; split; eauto].
        naive_solver. }
      eapply seen_ok_iff, IH, Hstep. intros r. setoid_rewrite elem_of_cons. naive_solver. }
  eapply seen_ok_iff, (Hgen snaps no_copies (λ _, False)); [unfold peer_shows; naive_solver|].
  split; cbn; [|done|by left]. intros l r. by rewrite lookup_empty.
Qed.

(** After the cut, a copy is what every peer shows at its LSN. *)
Lemma agreed_copies_unanimous l r :
  agreed_copies (peer_copies stream member floor snaps) !! l = Some r →
  (er_lsn r = l ∧ peer_shows r) ∧ ∀ r', peer_shows r' → er_lsn r' = l → r' = r.
Proof.
  destruct peer_copies_ok as [H1 H2 _]. unfold agreed_copies. intros Hl.
  assert (cp_copies (peer_copies stream member floor snaps) !! l = Some r
    ∧ ∀ a, cp_disagreement (peer_copies stream member floor snaps) = Some a → l < a) as [Hc Ha].
  { destruct (cp_disagreement _) as [a|]; [|by split].
    apply map_lookup_filter_Some in Hl as [? ?]. split; [done|]. by intros ? [= <-]. }
  split; [by apply (H1 l r)|]. intros r' Hr' <-.
  destruct (H2 r' Hr') as [?|(a & Ha' & ?)]; [congruence|]. specialize (Ha a Ha'). lia.
Qed.

Context (acknowledged : option StreamWriterState) (archive : result string (list EncryptedRecord)).

(** A record the coordinator acknowledged, or learned as committed. *)
Definition cache_shows (l : N) (r : EncryptedRecord) : Prop :=
  ∃ sw, acknowledged = Some sw ∧ sw_records sw !! l = Some r
    ∧ saturating_add floor 1 ≤ l ∧ l ≤ sw_committed_lsn sw.

Definition archive_shows (r : EncryptedRecord) : Prop := ∃ archived, archive = Ok archived ∧ r ∈ archived.

(** A watermark some source gives. *)
Definition watermark (w : N) : Prop :=
  (∃ r, peer_shows r ∧ w = er_committed_lsn r)
  ∨ (∃ sw, acknowledged = Some sw ∧ w = sw_committed_lsn sw)
  ∨ (∃ r, archive_shows r ∧ w = er_lsn r).

(** The records of the archive before the first one above [trimmed]. *)
Fixpoint archive_read (trimmed : N) (archived : list EncryptedRecord) : list EncryptedRecord :=
  match archived with
  | [] => []
  | r :: rest => if trimmed <? er_lsn r then [] else r :: archive_read trimmed rest
  end.

(** A record of the archive that is compared with the copies. *)
Definition archive_compared (r : EncryptedRecord) : Prop :=
  ∃ archived, archive = Ok archived ∧ floor < cp_peers_trimmed (peer_copies stream member floor snaps)
    ∧ r ∈ archive_read (cp_peers_trimmed (peer_copies stream member floor snaps)) archived.

Lemma add_acknowledged_all committed_lsn copies entries copies' :
  add_acknowledged committed_lsn copies entries = Ok copies' → strict_sorted fst entries →
  (∀ l r, copies !! l = Some r → copies' !! l = Some r)
  ∧ (∀ l r, (l, r) ∈ entries → l ≤ committed_lsn → copies' !! l = Some r).
Proof.
  intros Ha Hs. revert copies Ha. induction Hs as [|[l r] entries Hs IH Hlt]; intros copies; cbn.
  { intros [= <-]. split; [done|]. by intros ? ? ?%elem_of_nil. }
  destruct (N.ltb_spec committed_lsn l).
  { intros [= <-]. split; [done|]. intros l' r' [[= -> ->]|Hin]%elem_of_cons; [lia|].
    rewrite Forall_forall in Hlt. specialize (Hlt _ Hin). cbn in Hlt. lia. }
  destruct (copies !! l) as [x|] eqn:Hx; [case_bool_decide as Hxr; [subst x|done]|]; intros Ha;
    destruct (IH _ Ha) as [Hmono Hall]; (split; [|intros l' r' [[= -> ->]|Hin]%elem_of_cons; [|by eauto]]).
  - done.
  - intros _. by apply Hmono.
  - intros l' r' Hl'. apply Hmono. rewrite lookup_insert_ne; [done|]. congruence.
  - intros _. apply Hmono. by rewrite lookup_insert_eq.
Qed.

Lemma add_archived_all trimmed copies certified archived copies' certified' :
  add_archived trimmed copies certified archived = Ok (copies', certified') →
  (∀ l r, copies !! l = Some r → copies' !! l = Some r)
  ∧ (∀ r, r ∈ archive_read trimmed archived → copies' !! er_lsn r = Some r).
Proof.
  revert copies certified. induction archived as [|r archived IH]; intros copies certified; cbn.
  { intros [= <- <-]. split; [done|]. by intros ? ?%elem_of_nil. }
  destruct (_ <? _). { intros [= <- <-]. split; [done|]. by intros ? ?%elem_of_nil. }
  match goal with |- (if ?b then _ else _) = _ → _ => destruct b eqn:Hb; [done|] end.
  intros Ha. destruct (IH _ _ Ha) as [Hmono Hall].
  assert (copies' !! er_lsn r = Some r) as Hr by (apply Hmono; by rewrite lookup_insert_eq).
  split; [|by intros x [->|?]%elem_of_cons; auto].
  intros l x Hl. destruct (decide (l = er_lsn r)) as [->|Hne].
  - rewrite Hl in Hb. bool_facts. congruence.
  - apply Hmono. by rewrite lookup_insert_ne by done.
Qed.

Lemma add_acknowledged_Ok committed_lsn copies entries copies' l r :
  add_acknowledged committed_lsn copies entries = Ok copies' → copies' !! l = Some r →
  copies !! l = Some r ∨ ((l, r) ∈ entries ∧ l ≤ committed_lsn).
Proof.
  revert copies. induction entries as [|[l' r'] entries IH]; intros copies; cbn; [intros [= <-]; auto|].
  destruct (N.ltb_spec committed_lsn l'); [intros [= <-]; auto|].
  destruct (copies !! l') as [x|] eqn:Hx; [case_bool_decide; [|done]|]; intros Ha Hl;
    destruct (IH _ Ha Hl) as [Hl'|[? ?]]; rewrite ?elem_of_cons; auto.
  apply lookup_insert_Some in Hl' as [[<- <-]|[? ?]]; auto.
Qed.

Lemma add_archived_Ok trimmed copies certified archived copies' certified' :
  add_archived trimmed copies certified archived = Ok (copies', certified') →
  (∀ l r, copies' !! l = Some r → copies !! l = Some r ∨ (r ∈ archived ∧ er_lsn r = l))
  ∧ (certified' = certified ∨ ∃ r, r ∈ archived ∧ certified' = er_lsn r).
Proof.
  revert copies certified. induction archived as [|r archived IH]; intros copies certified; cbn.
  { intros [= <- <-]. auto. }
  destruct (_ <? _); [intros [= <- <-]; auto|].
  match goal with |- (if ?b then _ else _) = _ → _ => destruct b; [done|] end.
  intros Ha. destruct (IH _ _ Ha) as [H1 H2]. split.
  - intros l r' Hl. destruct (H1 l r' Hl) as [[[<- <-]|[? ?]]%lookup_insert_Some|[? ?]];
      rewrite ?elem_of_cons; auto.
  - setoid_rewrite elem_of_cons. destruct H2 as [->|(x & ? & ->)]; [|eauto].
    destruct (N.max_spec certified (er_lsn r)) as [[_ ->]|[_ ->]]; eauto.
Qed.

(** Where the copies and the watermark come from. *)
Lemma known_copies_Ok copies certified :
  known_copies stream member floor snaps acknowledged archive = Ok (copies, certified) →
  (∀ l r, copies !! l = Some r →
     ((er_lsn r = l ∧ peer_shows r) ∧ ∀ r', peer_shows r' → er_lsn r' = l → r' = r)
     ∨ cache_shows l r ∨ (archive_shows r ∧ er_lsn r = l))
  ∧ (∀ l r, cache_shows l r → copies !! l = Some r)
  ∧ (∀ r, archive_compared r → copies !! er_lsn r = Some r)
  ∧ (certified = 0 ∨ watermark certified).
Proof.
  unfold known_copies. intros Hk. apply bind_Ok in Hk as ([copies1 certified1] & H1 & Hk).
  assert ((∀ l r, copies1 !! l = Some r →
     ((er_lsn r = l ∧ peer_shows r) ∧ ∀ r', peer_shows r' → er_lsn r' = l → r' = r) ∨ cache_shows l r)
    ∧ (∀ l r, cache_shows l r → copies1 !! l = Some r)
    ∧ (certified1 = 0 ∨ watermark certified1)) as (Hc1 & Hs1 & Hw1).
  { assert (cp_certified (peer_copies stream member floor snaps) = 0
      ∨ watermark (cp_certified (peer_copies stream member floor snaps))) as Hw.
    { destruct (so_certified _ _ peer_copies_ok) as [?|(r & ? & <-)]; [by left|right; left; eauto]. }
    destruct acknowledged as [sw|] eqn:Hack.
    - apply bind_Ok in H1 as (copies2 & Ha & [= <- <-]). split_and!.
      + intros l r Hl. destruct (add_acknowledged_Ok _ _ _ _ _ _ Ha Hl) as [Hag|[Hin ?]].
        * left. by apply agreed_copies_unanimous.
        * right. apply list_elem_of_filter in Hin as [Hge Hin]. cbn in Hge.
          apply elem_of_nbtree_entries in Hin. exists sw. by split_and!.
      + intros l r (sw' & Hsw & Hin & Hge & Hle). rewrite Hack in Hsw. injection Hsw as <-.
        eapply (add_acknowledged_all _ _ _ _ Ha); [apply filter_strict, nbtree_entries_strict| |done].
        apply list_elem_of_filter. split; [done|]. by apply elem_of_nbtree_entries.
      + destruct (N.max_spec (cp_certified (peer_copies stream member floor snaps)) (sw_committed_lsn sw))
          as [[_ ->]|[_ ->]]; [|done]. right. right. left. rewrite Hack. eauto.
    - injection H1 as <- <-. split_and!; [|intros ? ? (? & ? & _); congruence|done].
      intros l r Hl. left. by apply agreed_copies_unanimous. }
  destruct (N.ltb_spec floor (cp_peers_trimmed (peer_copies stream member floor snaps))).
  2:{ injection Hk as <- <-. split_and!; [|done|intros r (? & _ & ? & _); lia|done].
      intros l r Hl. destruct (Hc1 l r Hl); auto. }
  apply bind_Ok in Hk as (archived & Har & Hk).
  assert (archive = Ok archived) as Harc by (destruct archive; cbn in Har; congruence).
  destruct (add_archived_Ok _ _ _ _ _ _ Hk) as [Hc2 Hw2].
  destruct (add_archived_all _ _ _ _ _ _ Hk) as [Hmono Hs2]. split_and!.
  - intros l r Hl. destruct (Hc2 l r Hl) as [Hl'|[? ?]].
    + destruct (Hc1 l r Hl'); auto.
    + right. right. split; [|done]. by exists archived.
  - eauto.
  - intros r (archived' & ? & _ & ?). apply Hs2. congruence.
  - destruct Hw2 as [->|(r & ? & ->)]; [done|]. right. right. right. exists r. split; [|done]. by exists archived.
Qed.

End Copies.

(** The member's own records are keyed by their LSN, above the floor. *)
Lemma own_records_lookup stream floor own l r :
  own_records stream floor own !! l = Some r → er_lsn r = l ∧ r ∈ above_floor stream floor own.
Proof.
  unfold own_records.
  assert (∀ rs (m : gmap N EncryptedRecord), foldl (λ m r, <[er_lsn r := r]> m) m rs !! l = Some r →
    m !! l = Some r ∨ (er_lsn r = l ∧ r ∈ rs)) as Hgen.
  { induction rs as [|x rs IH]; intros m; cbn; [auto|]. intros [Hm|[? ?]]%IH; [|rewrite elem_of_cons; auto].
    apply lookup_insert_Some in Hm as [[<- <-]|[? ?]]; rewrite ?elem_of_cons; auto. }
  intros [Hm|?]%Hgen; [by rewrite lookup_empty in Hm|done].
Qed.

(** What [agreement] withdraws. *)
Lemma agreement_withdraws copies certified position epoch own position' epoch' l e :
  agreement copies certified position epoch own = (position', epoch', Some (l, e)) →
  l ≤ certified ∧ ∃ copy o suffix, copies !! l = Some copy ∧ er_writer_epoch copy = e
    ∧ o ≠ copy ∧ ((l, o) :: suffix) `suffix_of` own
    ∧ Forall (λ x : N * EncryptedRecord, er_writer_epoch x.2 < e) ((l, o) :: suffix).
Proof.
  revert position epoch. induction own as [|[l' o] own IH]; intros position epoch; cbn [agreement]; [done|].
  destruct (negb _); [done|]. destruct (copies !! l') as [copy|] eqn:Hc; [|done].
  case_bool_decide as Heq.
  { intros (Hle & c & o' & suffix & ? & ? & ? & ? & ?)%IH. split; [done|]. exists c, o', suffix.
    split_and!; try done. by apply suffix_cons_r. }
  destruct ((l' <=? certified) && _) eqn:Hb; [|done]. intros [= <- <- <- <-].
  apply andb_true_iff in Hb as [Hle Hall]. bool_facts. split; [done|].
  exists copy, o, own. split_and!; try done.
  apply Forall_forall. intros x Hx. rewrite forallb_forall in Hall.
  apply N.ltb_lt, Hall, list_elem_of_In, Hx.
Qed.

(** What is copied is certified and one of the copies. *)
Lemma missing_records_copies certified expected epoch copies r :
  r ∈ missing_records certified expected epoch copies →
  ∃ l, (l, r) ∈ copies ∧ l ≤ certified.
Proof.
  revert expected epoch. induction copies as [|[l x] copies IH]; intros expected epoch; cbn.
  { by intros ?%elem_of_nil. }
  match goal with |- context [if ?b then _ else _] => destruct b eqn:Hb end; [by intros ?%elem_of_nil|].
  bool_facts. setoid_rewrite elem_of_cons. intros [->|Hr]; [eauto|].
  destruct (IH _ _ Hr) as (l' & ? & ?). eauto.
Qed.

(** It is consecutive from [expected], in epochs that do not go back. *)
Lemma missing_records_chain certified expected epoch copies :
  strict_sorted fst copies → Forall (λ e : N * EncryptedRecord, er_lsn e.2 = e.1 ∧ e.1 ≤ u64_max) copies →
  chain expected epoch (missing_records certified expected epoch copies).
Proof.
  intros Hs. revert expected epoch. induction Hs as [|[l r] copies Hs IH Hlt]; intros expected epoch Hf; [done|].
  apply Forall_cons in Hf as [[Hk Hmax] Hf]. cbn in Hk, Hmax. cbn [missing_records].
  match goal with |- context [if ?b then _ else _] => destruct b eqn:Hb end; [done|].
  bool_facts. cbn [chain]. subst. split_and!; [done|unfold saturating_sub in *; lia|lia|].
  destruct (N.eq_dec (er_lsn r) u64_max) as [He|].
  - assert (copies = []) as ->; [|done]. destruct copies as [|[l' r'] copies]; [done|].
    apply Forall_cons in Hlt as [Hlt _], Hf as [[_ ?] _]. cbn in *. lia.
  - specialize (IH (saturating_add (er_lsn r) 1) (er_writer_epoch r) Hf).
    unfold saturating_add in *. by rewrite N.min_l in * by lia.
Qed.

Section Honest.
Context (stream : string) (member : ReplicaNode) (snaps : snapshots).
Context (acknowledged : option StreamWriterState) (archive : N → result string (list EncryptedRecord)).
Context (own : NodeSnapshot) (log : gmap N EncryptedRecord).

Let floor := trimmed_lsn stream own.

(** The evidence is honest about the committed [log]: what the coordinator's cache and
    the archive hold is the log; and whatever lies below a watermark that some source
    gives is in the log, and shown by a peer, by the cache or by the part of the archive
    that is read. *)
Record honest : Prop := {
  ho_keys l r : log !! l = Some r → er_lsn r = l ∧ l ≤ u64_max;
  ho_cache l r : cache_shows floor acknowledged l r → log !! l = Some r;
  ho_archive r : archive_shows (archive floor) r → log !! er_lsn r = Some r;
  ho_watermark w l : watermark stream member floor snaps acknowledged (archive floor) w →
    floor < l → l ≤ w → ∃ r, log !! l = Some r ∧ (peer_shows stream member floor snaps r
      ∨ cache_shows floor acknowledged l r
      ∨ archive_compared stream member floor snaps (archive floor) r);
}.

Lemma honest_copy copies certified l r :
  honest → known_copies stream member floor snaps acknowledged (archive floor) = Ok (copies, certified) →
  copies !! l = Some r → l ≤ certified → log !! l = Some r.
Proof.
  intros Hh Hk Hl Hc.
  destruct (known_copies_Ok _ _ _ _ _ _ _ _ Hk) as (Hcopies & Hs1 & Hs2 & Hcert).
  destruct (Hcopies l r Hl) as [[[Hkey Hshow] Hall]|[?|[? <-]]]; [|by apply ho_cache|by apply ho_archive].
  assert (floor < l) as Hf.
  { destruct Hshow as (? & ? & _ & _ & [[_ ?] _]%list_elem_of_filter). by subst l. }
  destruct Hcert as [->|Hw]; [lia|].
  destruct (ho_watermark Hh _ l Hw Hf Hc) as (r' & Hr' & Hs).
  rewrite Hr'. destruct (ho_keys Hh _ _ Hr') as [<- _]. destruct Hs as [Hs|[Hs|Hs]].
  - f_equal. by apply Hall.
  - apply Hs1 in Hs. congruence.
  - apply Hs2 in Hs. congruence.
Qed.

End Honest.

(** C31: Catch-up follows the committed log.  On honest evidence (see [honest]) the plan for a
    member copies only records of the log, consecutive ones in epochs that do not go
    back, and withdraws a suffix only where the member holds a record that the log
    replaced by one of a newer writer than every record withdrawn. *)
Theorem catch_up_respects_log stream member snaps acknowledged archive node own log plan :
  list_find (λ ns : ReplicaNode * option NodeSnapshot, rn_id ns.1 = rn_id member) snaps = Some (node, (member, Some own)) →
  honest stream member snaps acknowledged archive own log →
  (∀ r, peer_shows stream member (trimmed_lsn stream own) snaps r → er_lsn r ≤ u64_max) →
  catch_up_plan stream member snaps acknowledged archive = Ok plan →
  (∃ position epoch, chain position epoch (cu_missing plan))
  ∧ (∀ r, r ∈ cu_missing plan → log !! er_lsn r = Some r)
  ∧ (∀ l e, cu_withdraw plan = Some (l, e) →
       (∃ c, log !! l = Some c ∧ er_writer_epoch c = e
          ∧ ∃ o, own_records stream (trimmed_lsn stream own) own !! l = Some o ∧ o ≠ c)
       ∧ ∀ l' o, own_records stream (trimmed_lsn stream own) own !! l' = Some o → l ≤ l' →
           er_writer_epoch o < e).
Proof.
  intros Hown Hh Hwf Hp. unfold catch_up_plan in Hp. rewrite Hown in Hp. cbn in Hp.
  set (floor := trimmed_lsn stream own) in *.
  apply bind_Ok in Hp as ([copies certified] & Hk & Hp).
  destruct (agreement _ _ _ _ _) as [[position epoch] withdraw] eqn:Ha. injection Hp as <-. cbn.
  pose proof (λ l r, honest_copy _ _ _ _ _ _ _ copies certified l r Hh Hk) as Hcopy.
  fold floor in Hcopy. destruct (known_copies_Ok _ _ _ _ _ _ _ _ Hk) as (Hfrom & _).
  assert (∀ l r, copies !! l = Some r → er_lsn r = l ∧ l ≤ u64_max) as Hkeys.
  { intros l r Hl. destruct (Hfrom l r Hl) as [[[<- Hs] _]|[Hs|[Hs <-]]].
    - split; [done|]. by apply Hwf.
    - apply (ho_keys _ _ _ _ _ _ _ Hh), (ho_cache _ _ _ _ _ _ _ Hh), Hs.
    - split; [done|]. by apply (ho_keys _ _ _ _ _ _ _ Hh _ r), (ho_archive _ _ _ _ _ _ _ Hh). }
  split_and!.
  - exists (saturating_add position 1), epoch. apply missing_records_chain; [apply filter_strict, nbtree_entries_strict|].
    apply Forall_forall. intros [l r] [_ Hin%elem_of_nbtree_entries]%list_elem_of_filter. by apply Hkeys.
  - intros r (l & [_ Hin%elem_of_nbtree_entries]%list_elem_of_filter & Hle)%missing_records_copies.
    destruct (Hkeys l r Hin) as [-> _]. by apply Hcopy.
  - intros l e ->. apply agreement_withdraws in Ha as (Hle & c & o & suffix & Hc & <- & Hne & Hsuf & Hall).
    split.
    + exists c. split_and!; [by apply Hcopy|done|]. exists o. split; [|done].
      apply elem_of_nbtree_entries. destruct Hsuf as [k ->]. set_solver.
    + intros l' o' Ho'%elem_of_nbtree_entries Hl'. rewrite Forall_forall in Hall.
      specialize (Hall (l', o')). apply Hall. eapply suffix_above; [apply nbtree_entries_strict|done..].
Qed.
