(* ===== verification/CatchUpToy.v ===== *)
(** * CatchUpToy: catch-up on three members

    A member that an older writer left an orphan on is brought level; and the run in which
    a batch that reached one member only passes for committed. *)

From S2P Require Import Prelude Text Wire Client Placement Manifest Cohorts NodeLog NodeReplay NodeOps NodeSafety NodeContract NodeToy Evidence EvidenceSafety EvidenceToy ControlDoc Coordinator Gateway CatchUp CatchUpSafety.

#[local] Open Scope N_scope.
#[local] Existing Instance Manifest.toy_host.

Definition k_record (epoch lsn : N) (body : byte) : EncryptedRecord :=
  mkEncryptedRecord "t/s" epoch lsn (lsn - 1) (replicate 24 x01) [body] (replicate 32 x02).

(** The record of the older writer, and the batch of the newer one. *)
Definition k_first : EncryptedRecord := k_record 1 1 x2a.
Definition k_batch : list EncryptedRecord := [k_record 2 1 x2b; k_record 2 2 x2c].

Definition k_orphaned : NodeSnapshot := mkSnapshot [k_first] [] [].
Definition k_ahead : NodeSnapshot := mkSnapshot k_batch k_batch [].

Definition k_peers : snapshots := [(v_node "a", Some k_orphaned); (v_node "b", Some k_ahead); (v_node "c", None)].

Definition k_log : gmap N EncryptedRecord := {[1 := k_record 2 1 x2b]}.

Lemma k_shows r : peer_shows "t/s" (v_node "a") 0 k_peers r ↔ r ∈ k_batch.
Proof.
  split.
  - intros (node & s & Hin & Hne & [_ Hr]%list_elem_of_filter). unfold k_peers in Hin.
    rewrite !elem_of_cons, elem_of_nil in Hin. destruct Hin as [?|[?|[?|[]]]]; by simplify_eq/=.
  - intros Hr. exists (v_node "b"), k_ahead. split_and!; [set_solver|done|].
    apply list_elem_of_filter. split; [|done]. unfold k_batch in Hr.
    rewrite !elem_of_cons, elem_of_nil in Hr. destruct Hr as [->|[->|[]]]; by vm_compute.
Qed.

Lemma k_honest : honest "t/s" (v_node "a") k_peers None (λ _, Ok []) k_orphaned k_log.
Proof.
  split.
  - intros l r. unfold k_log. intros [<- <-]%lookup_singleton_Some. by vm_compute.
  - by intros l r (? & ? & _).
  - intros r (? & [= <-] & ?%elem_of_nil). done.
  - intros w l [(r & Hr%k_shows & ->)|[(? & ? & _)|(r & (? & [= <-] & ?%elem_of_nil) & _)]]; [|done..].
    unfold k_batch in Hr. rewrite !elem_of_cons, elem_of_nil in Hr.
    change (trimmed_lsn "t/s" k_orphaned) with 0.
    destruct Hr as [->|[->|[]]]; cbn; intros; [lia|]. assert (l = 1) as -> by lia.
    exists (k_record 2 1 x2b). split; [done|]. left. apply k_shows. by left.
Qed.

Lemma catch_up_respects_log_witness :
  ∃ plan, catch_up_plan "t/s" (v_node "a") k_peers None (λ _, Ok []) = Ok plan
    ∧ cu_withdraw plan = Some (1, 2) ∧ cu_missing plan = [k_record 2 1 x2b]
    ∧ k_log !! 1 = Some (k_record 2 1 x2b).
Proof.
  eexists. split; [vm_compute; reflexivity|]. split; [reflexivity|]. split; [reflexivity|].
  refine (proj1 (proj2 (catch_up_respects_log "t/s" (v_node "a") k_peers None (λ _, Ok [])
    0%nat k_orphaned k_log (mkCatchUp (Some (1, 2)) [k_record 2 1 x2b]) _ k_honest _ _)) (k_record 2 1 x2b) _);
    [reflexivity| |vm_compute; reflexivity|by left].
  intros r Hr%k_shows. unfold k_batch in Hr. rewrite !elem_of_cons, elem_of_nil in Hr.
  by destruct Hr as [->|[->|[]]]; vm_compute.
Defined.

(** ** A batch that reached one member *)

(** a after it took the older writer's record, as c did; and b after it took the batch. *)
Definition k_a : DiskReplica := (nc_append_and_commit_many w_disk [k_first] None).2.
Definition k_b : DiskReplica := (nc_append_and_commit_many w_disk k_batch None).2.

Definition k_snaps : snapshots :=
  [(v_node "a", Some (node_snapshot k_a)); (v_node "b", Some (node_snapshot k_b)); (v_node "c", None)].

(** The retry on a: the coordinator of the newer writer has an empty tail. *)
Definition k_retry : bool * DiskReplica :=
  retry_member k_a "t/s" (catch_up_plan "t/s" (v_node "a") k_snaps (Some new_stream) (λ _, Ok []))
    (Ok None) k_batch None.

Definition k_after : snapshots :=
  [(v_node "a", Some (node_snapshot k_retry.2)); (v_node "b", Some (node_snapshot k_b));
   (v_node "c", Some (node_snapshot k_a))].

(** A record that is not the first of its batch names its predecessor in the batch as
    committed, and catch-up believes it.  Two members acknowledge a record of an older
    writer; a batch of two records of a newer writer then reaches the third member only,
    while one of the two is down.  The member that is left refuses the batch, catch-up
    withdraws the acknowledged record from it and copies the batch's first record over it,
    the batch is acknowledged by a quorum, and the acknowledged record is no candidate of
    recovery any more, even with all three members answering. *)
Theorem batch_watermark_loses_acknowledged :
  (nc_append_and_commit_many w_disk [k_first] None).1 = Ok tt
  ∧ count_acks ACK_QUORUM (λ _, false) (λ _, false)
      [(v_node "a", Ok tt); (v_node "c", Ok tt)] = Ok 2
  ∧ (nc_append_and_commit_many w_disk k_batch None).1 = Ok tt
  ∧ (nc_append_and_commit_many k_a k_batch None).1 = Err LsnConflict
  ∧ catch_up_plan "t/s" (v_node "a") k_snaps (Some new_stream) (λ _, Ok [])
    = Ok (mkCatchUp (Some (1, 2)) [k_record 2 1 x2b])
  ∧ k_retry.1 = true
  ∧ count_acks ACK_QUORUM (λ _, true) (λ _, k_retry.1)
      [(v_node "b", Ok tt); (v_node "a", Err LsnConflict); (v_node "c", Err NodeUnavailable)] = Ok 2
  ∧ ix_records (dr_index k_retry.2) !! ("t/s", 1) = Some (k_record 2 1 x2b)
  ∧ (collect_candidates_from_snapshots None ACK_QUORUM "t/s" k_after).1 !! ("t/s", 1)
    = Some (k_record 2 1 x2b)
  ∧ k_first ≠ k_record 2 1 x2b.
Proof. split_and!; (vm_compute; reflexivity) || (intros [=]). Qed.
