(* ===== verification/ObjectStore.v ===== *)
(** * ObjectStore: the interface to the object store

    What the sources use of the [object_store] crate: reading an object with its version
    and the two conditional writes.  The store is a parameter; [ObjectStoreLaws] states its
    documented behaviour, and [toy_store] shows that it can hold. *)

From S2P Require Import Prelude Text.

#[local] Open Scope N_scope.

(** The cases of [object_store::Error] the sources tell apart. *)
Inductive StoreError :=
| NotFound
| AlreadyExists
| Precondition
| StoreOther (reason : string).

(** [PutMode]: create a new object, or replace the version that was read. *)
Inductive PutMode (V : Type) :=
| Create
| Update (v : V).

Arguments Create {V}.
Arguments Update {V} v.

(** An object with its [UpdateVersion], and a conditional write, which answers the version it
    wrote. *)
Class ObjectStore (S V : Type) := {
  os_get : S → string → option (list byte * V);
  os_put : S → string → list byte → PutMode V → result StoreError V * S;
}.

(** One write, whatever came of it. *)
Definition store_step {S V} `{ObjectStore S V} (s s' : S) : Prop :=
  ∃ path bytes mode r, os_put s path bytes mode = (r, s').

(** The condition of a write: no object yet, or the version that was read. *)
Definition may_put {S V} `{ObjectStore S V} (s : S) (path : string) (mode : PutMode V) : Prop :=
  match mode with
  | Create => os_get s path = None
  | Update v => ∃ old, os_get s path = Some (old, v)
  end.

Definition refusal {V} (mode : PutMode V) : StoreError :=
  match mode with Create => AlreadyExists | Update _ => Precondition end.

Class ObjectStoreLaws (S V : Type) `{ObjectStore S V} := {
  (** a write replaces its object exactly when its condition holds *)
  os_put_outcome s path bytes mode :
    (∃ s' v, os_put s path bytes mode = (Ok v, s') ∧ may_put s path mode
       ∧ os_get s' path = Some (bytes, v) ∧ ∀ path', path' ≠ path → os_get s' path' = os_get s path')
    ∨ (os_put s path bytes mode = (Err (refusal mode), s) ∧ ~ may_put s path mode);
  (** in the life of a store a version of an object names one content *)
  os_version s s' path bytes bytes' v : rtc store_step s s' →
    os_get s path = Some (bytes, v) → os_get s' path = Some (bytes', v) → bytes' = bytes;
}.

(** A request may fail, or its answer may be lost after it was served. *)
Inductive StoreIo :=
| StoreDone
| StoreLost (reason : string) (applied : bool).

Section Requests.
Context {S V : Type} `{ObjectStore S V}.

Definition store_put (io : StoreIo) (s : S) (path : string) (bytes : list byte) (mode : PutMode V)
    : result StoreError V * S :=
  match io with
  | StoreDone => os_put s path bytes mode
  | StoreLost reason applied =>
    (Err (StoreOther reason), if applied then (os_put s path bytes mode).2 else s)
  end.

(** Reading from one state. *)
Definition store_get (s : S) (path : string) : result StoreError (list byte * V) :=
  ok_or (os_get s path) NotFound.

Context `{!ObjectStoreLaws S V}.

(** A write did nothing, or replaced one object under its condition; an acknowledged one names
    the version it wrote. *)
Lemma store_put_effect io s path bytes mode r s' :
  store_put io s path bytes mode = (r, s') →
  (s' = s ∧ is_ok r = false)
  ∨ (may_put s path mode ∧ (∃ v, os_get s' path = Some (bytes, v) ∧ ∀ v', r = Ok v' → v' = v)
     ∧ ∀ path', path' ≠ path → os_get s' path' = os_get s path').
Proof.
  assert (∀ r s', os_put s path bytes mode = (r, s') →
    (s' = s ∧ is_ok r = false) ∨ (may_put s path mode ∧ (∃ v, os_get s' path = Some (bytes, v) ∧ ∀ v', r = Ok v' → v' = v)
     ∧ ∀ path', path' ≠ path → os_get s' path' = os_get s path')) as Hput.
  { intros r1 s1 Hp. destruct (os_put_outcome s path bytes mode) as [(s2 & v & Hp' & ? & ? & ?)|[Hp' _]];
      rewrite Hp in Hp'; simplify_eq; [right|by left]. split_and!; [done| |done]. exists v. split; [done|congruence]. }
  destruct io as [|reason []]; cbn; [apply Hput| |intros [= <- <-]; by left].
  destruct (os_put s path bytes mode) as [r0 s0] eqn:Hp. intros [= <- <-]. cbn.
  destruct (Hput _ _ eq_refl) as [[-> _]|(? & (v & ? & _) & ?)]; [by left|right].
  split_and!; [done| |done]. by exists v.
Qed.

Lemma store_put_steps io s path bytes mode r s' :
  store_put io s path bytes mode = (r, s') → rtc store_step s s'.
Proof.
  assert (∀ r s', os_put s path bytes mode = (r, s') → rtc store_step s s') as Hput.
  { intros r1 s1 Hp. apply rtc_once. by exists path, bytes, mode, r1. }
  destruct io as [|reason []]; cbn; [apply Hput| |by intros [= _ <-]].
  intros [= _ <-]. eapply Hput, surjective_pairing.
Qed.

(** A refused write had no right to be made. *)
Lemma store_put_refused io s path bytes mode e s' :
  store_put io s path bytes mode = (Err e, s') → e = AlreadyExists ∨ e = Precondition →
  ~ may_put s path mode.
Proof.
  destruct io as [|reason []]; cbn; intros Hp He; [|by destruct He; simplify_eq..].
  destruct (os_put_outcome s path bytes mode) as [(? & ? & Hp' & _)|[_ ?]]; [congruence|done].
Qed.

(** Objects are never deleted. *)
Lemma store_step_keeps s s' path : store_step s s' → os_get s path ≠ None → os_get s' path ≠ None.
Proof.
  intros (path' & bytes & mode & r & Hp) Hg.
  destruct (os_put_outcome s path' bytes mode) as [(s1 & v & Hp' & _ & Hg' & Hother)|[Hp' _]];
    rewrite Hp in Hp'; simplify_eq; [|done].
  destruct (decide (path = path')) as [->|Hne]; [congruence|by rewrite Hother].
Qed.

End Requests.

(** ** A store whose versions are the contents *)

Abbreviation ToyStore := (gmap string (list byte)).

#[global] Instance toy_store : ObjectStore ToyStore (list byte) := {|
  os_get s path := (λ bytes, (bytes, bytes)) <$> s !! path;
  os_put s path bytes mode :=
    if match mode with
       | Create => bool_decide (s !! path = None)
       | Update v => bool_decide (s !! path = Some v)
       end
    then (Ok bytes, <[path := bytes]> s)
    else (Err (refusal mode), s);
|}.

#[global] Instance toy_store_laws : ObjectStoreLaws ToyStore (list byte).
Proof.
  split.
  - intros s path bytes mode. cbn.
    match goal with |- context [if ?b then _ else _] => destruct b eqn:Hb end.
    + left. exists (<[path := bytes]> s), bytes. split_and!; [done| | |].
      * destruct mode as [|v]; bool_facts; cbn; rewrite Hb; eauto.
      * by rewrite lookup_insert_eq.
      * intros path' Hne. by rewrite lookup_insert_ne.
    + right. split; [done|]. destruct mode as [|v]; bool_facts; cbn.
      * by intros ?%fmap_None.
      * intros [old Hold]. destruct (s !! path); cbn in Hold; congruence.
  - intros s s' path bytes bytes' v _. cbn. intros (? & ? & ?)%fmap_Some (? & ? & ?)%fmap_Some. congruence.
Qed.
