(* ===== verification/Archive.v ===== *)
(** * Archive: sealed segments in an object store

    [OpaqueArchive] of [crates/walleye-bitr-server/src/archive.rs]: a head per stream names
    content-addressed segments of committed records, and is replaced by conditional writes.
    The object store, SHA-256 and the JSON of heads and segments are parameters; so is
    [Path::from], which turns a key into the path of an object. *)

From S2P Require Import Prelude Text Wire Client Placement Manifest ObjectStore.
From stdpp Require Import pretty.

#[local] Open Scope N_scope.

Definition HEAD_UPDATE_ATTEMPTS : N := 8.

Inductive ArchiveError :=
| Configuration (reason : string)
| ObjectStoreError (e : StoreError)
| ArchiveJson (reason : string)
| Contiguity (reason : string)
| Checksum (key : string)
| Contended.

Record Segment := mkArchiveSegment {
  as_stream : string;
  as_first_lsn : N;
  as_last_lsn : N;
  as_records : list EncryptedRecord;
}.

Record SegmentRef := mkSegmentRef {
  sr_first_lsn : N;
  sr_last_lsn : N;
  sr_key : string;
  sr_digest : string;
}.

Record ArchiveHead := mkHead {
  ah_stream : string;
  ah_archived_lsn : N;
  ah_writer_epoch : N;
  ah_segments : list SegmentRef;
}.

Record OpaqueArchive := mkArchive {
  oa_prefix : string;
  oa_max_records_per_segment : N;
}.

(** serde_json, and the paths of the object store. *)
Class ArchiveHost := {
  head_to_vec : ArchiveHead → list byte;
  head_from_slice : list byte → result string ArchiveHead;
  segment_to_vec : Segment → list byte;
  segment_from_slice : list byte → result string Segment;
  path_from : string → string;
}.

Class ArchiveHostLaws `{ArchiveHost} := {
  head_from_to h : head_from_slice (head_to_vec h) = Ok h;
  segment_from_to g : segment_from_slice (segment_to_vec g) = Ok g;
}.

(** [OpaqueArchive::new] on a prefix whose slashes at both ends were trimmed. *)
Definition archive_new (prefix : string) (max_records_per_segment : N) : result ArchiveError OpaqueArchive :=
  if bool_decide (prefix = "") || (max_records_per_segment =? 0)
  then Err (Configuration "prefix and max_records_per_segment must be nonzero")
  else Ok (mkArchive prefix max_records_per_segment).

Fixpoint zeros (n : nat) : string := match n with O => "" | S n => "0" +:+ zeros n end.

(** [{:020}]. *)
Definition pad20 (n : N) : string := zeros (20 - String.length (pretty n)) +:+ pretty n.

Definition head_missing (expected received : N) : string :=
  "expected LSN " +:+ pretty expected +:+ ", received " +:+ pretty received.

Definition segment_missing (expected received : N) : string :=
  "expected segment at LSN " +:+ pretty expected +:+ ", received " +:+ pretty received.

Section Archive.
Context `{ManifestHost} `{ArchiveHost}.
Context (a : OpaqueArchive).

Definition stream_digest (stream : string) : string := sha256_hex (as_bytes stream).

Definition head_key (stream : string) : string :=
  oa_prefix a +:+ "/streams/" +:+ stream_digest stream +:+ "/head.json".

Definition head_path (stream : string) : string := path_from (head_key stream).

Definition segment_prefix (stream : string) : string :=
  oa_prefix a +:+ "/streams/" +:+ stream_digest stream +:+ "/segments/".

Definition segment_key (stream : string) (first_lsn last_lsn : N) (digest : string) : string :=
  segment_prefix stream +:+ pad20 first_lsn +:+ "-" +:+ pad20 last_lsn +:+ "-" +:+ digest +:+ ".json".

(** ** Checks *)

(** The loop of [verify_segment]. *)
Fixpoint verify_records (stream key : string) (expected writer_epoch : N) (records : list EncryptedRecord)
    : result ArchiveError unit :=
  match records with
  | [] => Ok tt
  | record :: rest =>
    if negb (bool_decide (er_stream record = stream)) || negb (er_lsn record =? expected)
       || negb (er_committed_lsn record =? saturating_sub expected 1)
       || (er_writer_epoch record <? writer_epoch)
    then Err (Contiguity ("expected LSN " +:+ pretty expected +:+ " in " +:+ key))
    else verify_records stream key (saturating_add expected 1) (er_writer_epoch record) rest
  end.

Definition verify_segment (segment : Segment) (reference : SegmentRef) (stream : string)
    : result ArchiveError unit :=
  if negb (bool_decide (as_stream segment = stream))
     || negb (as_first_lsn segment =? sr_first_lsn reference)
     || negb (as_last_lsn segment =? sr_last_lsn reference)
     || negb (bool_decide (er_lsn <$> head (as_records segment) = Some (sr_first_lsn reference)))
     || negb (bool_decide (er_lsn <$> last (as_records segment) = Some (sr_last_lsn reference)))
  then Err (Contiguity ("segment " +:+ sr_key reference +:+ " metadata does not match its head entry"))
  else verify_records stream (sr_key reference) (sr_first_lsn reference) 0 (as_records segment).

Definition is_hexdigit (b : byte) : bool :=
  in_range 0x30 0x39 b || in_range 0x41 0x46 b || in_range 0x61 0x66 b.

(** The reference at [expected], and the LSN after it. *)
Definition check_reference (stream : string) (expected : N) (reference : SegmentRef)
    : result ArchiveError N :=
  if negb (sr_first_lsn reference =? expected) || (sr_last_lsn reference <? sr_first_lsn reference)
  then Err (Contiguity (segment_missing expected (sr_first_lsn reference)))
  else if negb (String.prefix (segment_prefix stream) (sr_key reference))
          || negb (str_len (sr_digest reference) =? 64)
          || negb (forallb is_hexdigit (as_bytes (sr_digest reference)))
  then Err (Checksum (sr_key reference))
  else ok_or (checked_add (sr_last_lsn reference) 1) (Contiguity "archive LSN range exhausted").

Definition validate_head_chain (stream : string) (h : ArchiveHead) : result ArchiveError unit :=
  if negb (bool_decide (ah_stream h = stream)) then Err (Checksum (head_path stream))
  else
    expected ← try_fold (check_reference stream) 1 (ah_segments h);
    let archived_lsn := saturating_sub expected 1 in
    if negb (ah_archived_lsn h =? archived_lsn) then
      Err (Contiguity ("head watermark " +:+ pretty (ah_archived_lsn h) +:+ " does not match segment tail "
                       +:+ pretty archived_lsn))
    else if (ah_archived_lsn h =? 0) && negb (ah_writer_epoch h =? 0) then
      Err (Contiguity "empty archive head has a nonzero writer epoch")
    else Ok tt.

(** ** Reading; [get] answers the store's reads *)

Section Reading.
Context {V : Type} (get : string → result StoreError (list byte * V)).

Definition empty_head (stream : string) : ArchiveHead := mkHead stream 0 0 [].

(** [load_head]: the head and the version to replace. *)
Definition load_head (stream : string) : result ArchiveError (ArchiveHead * option V) :=
  match get (head_path stream) with
  | Ok (bytes, v) =>
    h ← map_err ArchiveJson (head_from_slice bytes);
    if negb (bool_decide (ah_stream h = stream)) then Err (Checksum (head_path stream))
    else Ok (h, Some v)
  | Err NotFound => Ok (empty_head stream, None)
  | Err e => Err (ObjectStoreError e)
  end.

Definition archived_lsn (stream : string) : result ArchiveError N :=
  '(h, _) ← load_head stream;
  _ ← validate_head_chain stream h;
  Ok (ah_archived_lsn h).

(** Tuples in the order of [sort]. *)
Definition tail_le (x y : string * N * N) : Prop :=
  let '(s, l, e) := x in
  let '(s', l', e') := y in
  if bool_decide (s = s') then if l =? l' then e ≤ e' else l < l' else String.leb s s' = true.

#[global] Instance tail_le_dec : RelDecision tail_le.
Proof. intros [[s l] e] [[s' l'] e']. unfold tail_le. repeat case_match; apply _. Defined.

(** [stream_heads]; [listed] are the paths under the archive with their file names. *)
Definition stream_heads (listed : list (string * option string))
    : result ArchiveError (list (string * N * N)) :=
  heads ← try_fold (λ heads '(path, filename),
      if negb (bool_decide (filename = Some "head.json")) then Ok heads
      else
        '(bytes, _) ← map_err ObjectStoreError (get path);
        h ← map_err ArchiveJson (head_from_slice bytes);
        if ah_archived_lsn h =? 0 then Ok heads
        else
          _ ← validate_head_chain (ah_stream h) h;
          Ok (heads ++ [(ah_stream h, ah_archived_lsn h, ah_writer_epoch h)])) [] listed;
  Ok (merge_sort tail_le heads).

(** A segment fetched, hashed, parsed and verified. *)
Definition fetch_segment (stream : string) (reference : SegmentRef) : result ArchiveError Segment :=
  '(bytes, _) ← map_err ObjectStoreError (get (path_from (sr_key reference)));
  if negb (bool_decide (sha256_hex bytes = sr_digest reference)) then Err (Checksum (sr_key reference))
  else
    segment ← map_err ArchiveJson (segment_from_slice bytes);
    _ ← verify_segment segment reference stream;
    Ok segment.

Definition epoch_moved_back (segment : Segment) (epoch : N) : bool :=
  match head (as_records segment) with Some r => er_writer_epoch r <? epoch | None => false end.

Definition last_epoch (records : list EncryptedRecord) (epoch : N) : N :=
  match last records with Some r => er_writer_epoch r | None => epoch end.

(** The loop of [recover]: the LSN expected, the epoch of the tail and the records. *)
Definition recover_reference (stream : string) (after_lsn : N)
    (acc : N * N * list EncryptedRecord) (reference : SegmentRef)
    : result ArchiveError (N * N * list EncryptedRecord) :=
  let '(expected, tail_writer_epoch, recovered) := acc in
  if negb (sr_first_lsn reference =? expected) || (sr_last_lsn reference <? sr_first_lsn reference)
  then Err (Contiguity (segment_missing expected (sr_first_lsn reference)))
  else if sr_last_lsn reference <=? after_lsn
  then Ok (saturating_add (sr_last_lsn reference) 1, tail_writer_epoch, recovered)
  else
    segment ← fetch_segment stream reference;
    if epoch_moved_back segment tail_writer_epoch
    then Err (Contiguity "writer epoch moved backward between archive segments")
    else Ok (saturating_add (sr_last_lsn reference) 1, last_epoch (as_records segment) tail_writer_epoch,
             recovered ++ filter (λ r, after_lsn < er_lsn r) (as_records segment)).

Definition archive_recover (stream : string) (after_lsn : N) : result ArchiveError (list EncryptedRecord) :=
  '(h, _) ← load_head stream;
  '(expected, tail_writer_epoch, recovered) ←
    try_fold (recover_reference stream after_lsn) (1, 0, []) (ah_segments h);
  if negb (ah_archived_lsn h =? saturating_sub expected 1) then
    Err (Contiguity ("head " +:+ pretty (ah_archived_lsn h) +:+ " does not match segment tail "
                     +:+ pretty (saturating_sub expected 1)))
  else if (after_lsn <? ah_archived_lsn h) && negb (ah_writer_epoch h =? tail_writer_epoch) then
    Err (Contiguity "head writer epoch does not match its archived tail")
  else Ok recovered.

(** The loop of [archived_tail]. *)
Definition tail_reference (stream : string) (after_lsn : N) (acc : N * N) (reference : SegmentRef)
    : result ArchiveError (N * N) :=
  let '(expected, verified_epoch) := acc in
  if negb (sr_first_lsn reference =? expected) || (sr_last_lsn reference <? sr_first_lsn reference)
  then Err (Contiguity (segment_missing expected (sr_first_lsn reference)))
  else
    verified_epoch ←
      (if after_lsn <? sr_last_lsn reference then
         segment ← fetch_segment stream reference;
         if epoch_moved_back segment verified_epoch
         then Err (Contiguity "writer epoch moved backward between archive segments")
         else Ok (last_epoch (as_records segment) verified_epoch)
       else Ok verified_epoch);
    Ok (saturating_add (sr_last_lsn reference) 1, verified_epoch).

Definition archived_tail (stream : string) (after_lsn : N) : result ArchiveError (option (N * N)) :=
  '(h, _) ← load_head stream;
  if ah_archived_lsn h <? after_lsn then
    Err (Contiguity ("archive watermark " +:+ pretty (ah_archived_lsn h) +:+ " trails compacted LSN "
                     +:+ pretty after_lsn))
  else if ah_archived_lsn h =? after_lsn then Ok None
  else
    '(expected, verified_epoch) ← try_fold (tail_reference stream after_lsn) (1, 0) (ah_segments h);
    if negb (ah_archived_lsn h =? saturating_sub expected 1) || negb (verified_epoch =? ah_writer_epoch h)
    then Err (Contiguity "archive head does not match its verified tail")
    else Ok (Some (ah_archived_lsn h, ah_writer_epoch h)).

(** The records of one segment in [verify_range]: [inl] when the range is complete. *)
Fixpoint range_records (start_lsn end_lsn expected : N) (previous : option N) (records : list EncryptedRecord)
    : result ArchiveError (option N + (N * option N)) :=
  match records with
  | [] => Ok (inr (expected, previous))
  | record :: rest =>
    if er_lsn record <? start_lsn then range_records start_lsn end_lsn expected previous rest
    else if end_lsn <? er_lsn record then Ok (inr (expected, previous))
    else if negb (er_lsn record =? expected) then
      Err (Contiguity ("expected LSN " +:+ pretty expected +:+ " in requested archive range, received "
                       +:+ pretty (er_lsn record)))
    else if match previous with Some epoch => er_writer_epoch record <? epoch | None => false end then
      Err (Contiguity "writer epoch moved backward in requested archive range")
    else if er_lsn record =? end_lsn then Ok (inl (Some (er_writer_epoch record)))
    else range_records start_lsn end_lsn (saturating_add (er_lsn record) 1) (Some (er_writer_epoch record)) rest
  end.

(** The loop over the references: [inl] when the range is complete. *)
Fixpoint range_references (stream : string) (start_lsn end_lsn expected : N) (previous : option N)
    (references : list SegmentRef) : result ArchiveError (option N + (N * option N)) :=
  match references with
  | [] => Ok (inr (expected, previous))
  | reference :: rest =>
    if (sr_last_lsn reference <? start_lsn) || (end_lsn <? sr_first_lsn reference)
    then range_references stream start_lsn end_lsn expected previous rest
    else
      segment ← fetch_segment stream reference;
      done ← range_records start_lsn end_lsn expected previous (as_records segment);
      match done with
      | inl epoch => Ok (inl epoch)
      | inr (expected, previous) => range_references stream start_lsn end_lsn expected previous rest
      end
  end.

Definition verify_range (stream : string) (start_lsn end_lsn : N) : result ArchiveError unit :=
  if bool_decide (stream = "") || (start_lsn =? 0) || (end_lsn <? start_lsn) then
    Err (Contiguity "archive verification range must be non-empty and start at LSN 1 or later")
  else
    '(h, _) ← load_head stream;
    _ ← validate_head_chain stream h;
    if ah_archived_lsn h <? end_lsn then
      Err (Contiguity ("archive watermark " +:+ pretty (ah_archived_lsn h)
                       +:+ " trails requested range through LSN " +:+ pretty end_lsn))
    else
      verdict ← range_references stream start_lsn end_lsn start_lsn None (ah_segments h);
      match verdict with
      | inr _ => Err (Contiguity ("archive range " +:+ pretty start_lsn +:+ "-" +:+ pretty end_lsn
                                  +:+ " is not fully verified"))
      | inl previous_writer_epoch =>
        if (end_lsn =? ah_archived_lsn h) && negb (bool_decide (previous_writer_epoch = Some (ah_writer_epoch h)))
        then Err (Contiguity "archive head writer epoch does not match its verified tail")
        else Ok tt
      end.

End Reading.

(** ** Writing *)

(** The checks on the records of one call. *)
Definition check_pair (p : EncryptedRecord * EncryptedRecord) : result ArchiveError unit :=
  let '(previous, next) := p in
  if negb (er_lsn next =? saturating_add (er_lsn previous) 1)
     || negb (er_committed_lsn next =? er_lsn previous)
     || (er_writer_epoch next <? er_writer_epoch previous)
  then Err (Contiguity ("expected LSN " +:+ pretty (saturating_add (er_lsn previous) 1) +:+ " after "
                        +:+ pretty (er_lsn previous)))
  else Ok tt.

Definition check_records (stream : string) (records : list EncryptedRecord) : result ArchiveError unit :=
  if bool_decide (stream = "") || existsb (λ r, negb (bool_decide (er_stream r = stream))) records then
    Err (Contiguity "one archive call must contain exactly one non-empty stream")
  else try_fold (λ _ p, check_pair p) tt (windows2 records).

(** What one turn of the loop would publish after the head it loaded: nothing more, or a
    batch, which is not empty because [archive_new] refuses a bound of zero. *)
Definition next_batch (h : ArchiveHead) (records : list EncryptedRecord)
    : result ArchiveError (list EncryptedRecord) :=
  let expected := saturating_add (ah_archived_lsn h) 1 in
  match filter (λ r, expected ≤ er_lsn r) records with
  | [] => Ok []
  | first :: rest =>
    if negb (er_lsn first =? expected) || negb (er_committed_lsn first =? saturating_sub expected 1)
       || (er_writer_epoch first <? ah_writer_epoch h)
    then Err (Contiguity (head_missing expected (er_lsn first)))
    else Ok (take (N.to_nat (oa_max_records_per_segment a)) (first :: rest))
  end.

Definition batch_segment (stream : string) (batch : list EncryptedRecord) : Segment :=
  let first_lsn := match batch with r :: _ => er_lsn r | [] => 0 end in
  mkArchiveSegment stream first_lsn (match last batch with Some r => er_lsn r | None => first_lsn end) batch.

Definition segment_ref (stream : string) (g : Segment) : SegmentRef :=
  let digest := sha256_hex (segment_to_vec g) in
  mkSegmentRef (as_first_lsn g) (as_last_lsn g)
    (segment_key stream (as_first_lsn g) (as_last_lsn g) digest) digest.

(** The head after a batch. *)
Definition next_head (h : ArchiveHead) (reference : SegmentRef) (batch : list EncryptedRecord) : ArchiveHead :=
  mkHead (ah_stream h) (sr_last_lsn reference) (last_epoch batch (ah_writer_epoch h))
    (ah_segments h ++ [reference]).

Section Writing.
Context {S V : Type} `{ObjectStore S V}.

(** [put_segment]: created, or already there with the same bytes. *)
Definition put_segment (io : StoreIo) (s : S) (stream : string) (batch : list EncryptedRecord)
    : result ArchiveError SegmentRef * S :=
  let segment := batch_segment stream batch in
  let reference := segment_ref stream segment in
  let path := path_from (sr_key reference) in
  match store_put io s path (segment_to_vec segment) Create with
  | (Err AlreadyExists, s) =>
    match store_get s path with
    | Err e => (Err (ObjectStoreError e), s)
    | Ok (existing, _) =>
      if bool_decide (existing = segment_to_vec segment) then (Ok reference, s)
      else (Err (Checksum (sr_key reference)), s)
    end
  | (Err e, s) => (Err (ObjectStoreError e), s)
  | (Ok _, s) => (Ok reference, s)
  end.

Definition put_head (io : StoreIo) (s : S) (h : ArchiveHead) (update : option V)
    : result ArchiveError unit * S :=
  let mode := match update with None => Create | Some v => Update v end in
  let '(r, s) := store_put io s (head_path (ah_stream h)) (head_to_vec h) mode in
  (map_err ObjectStoreError (_ ← r; Ok tt), s).

(** How one turn of the loop ends. *)
Inductive TurnEnd :=
| TurnReturns (r : result ArchiveError N)
| TurnPublished
| TurnContended.

(** The requests of one turn, in the order the loop makes them; [ios] are the fates of
    its two writes. *)
Definition archive_turn (ios : StoreIo * StoreIo) (s : S) (stream : string) (records : list EncryptedRecord)
    : TurnEnd * S :=
  match load_head (store_get s) stream with
  | Err e => (TurnReturns (Err e), s)
  | Ok (h, update) =>
    match next_batch h records with
    | Err e => (TurnReturns (Err e), s)
    | Ok [] => (TurnReturns (Ok (ah_archived_lsn h)), s)
    | Ok batch =>
      match put_segment ios.1 s stream batch with
      | (Err e, s) => (TurnReturns (Err e), s)
      | (Ok reference, s) =>
        let next := next_head h reference batch in
        match put_head ios.2 s next update with
        | (Err (ObjectStoreError AlreadyExists), s) | (Err (ObjectStoreError Precondition), s) => (TurnContended, s)
        | (Err e, s) => (TurnReturns (Err e), s)
        | (Ok _, s) =>
          (if ah_archived_lsn next =? match last records with Some r => er_lsn r | None => 0 end
           then TurnReturns (Ok (ah_archived_lsn next)) else TurnPublished, s)
        end
      end
    end
  end.

(** The loop of [archive_committed]; [contention] counts lost conditional writes in a row. *)
Fixpoint archive_loop (fuel : nat) (ios : nat → StoreIo * StoreIo) (contention : N) (s : S)
    (stream : string) (records : list EncryptedRecord) : option (result ArchiveError N * S) :=
  match fuel with
  | O => None
  | Datatypes.S fuel =>
    match archive_turn (ios fuel) s stream records with
    | (TurnReturns r, s) => Some (r, s)
    | (TurnPublished, s) => archive_loop fuel ios 0 s stream records
    | (TurnContended, s) =>
      if HEAD_UPDATE_ATTEMPTS <=? saturating_add contention 1 then Some (Err Contended, s)
      else archive_loop fuel ios (saturating_add contention 1) s stream records
    end
  end.

Definition archive_committed (fuel : nat) (ios : nat → StoreIo * StoreIo) (s : S)
    (records : list EncryptedRecord) : option (result ArchiveError N * S) :=
  match records with
  | [] => Some (Ok 0, s)
  | first :: _ =>
    match check_records (er_stream first) records with
    | Err e => Some (Err e, s)
    | Ok _ => archive_loop fuel ios 0 s (er_stream first) records
    end
  end.

End Writing.
End Archive.
