(* ===== verification/ArchiveSafety.v ===== *)
(** * ArchiveSafety: the archive is an append-only log

    Archivers of any streams run against one object store, lose races and answers, and
    crash between their requests; what [archive_recover] reads is then a log that only
    grows, and [archive_committed] alone publishes everything it was given. *)

From S2P Require Import Prelude Text Wire Client Placement Manifest Cohorts NodeLog Evidence EvidenceSafety ObjectStore Archive.

#[local] Open Scope N_scope.

(** ** Strings *)

Lemma string_app_assoc (x y z : string) : (x +:+ y) +:+ z = x +:+ y +:+ z.
Proof. apply (inj as_bytes). by rewrite !as_bytes_app, (assoc_L (++)). Qed.

Lemma string_app_split a b c d : str_len a = str_len c → a +:+ b = c +:+ d → a = c ∧ b = d.
Proof.
  intros Hlen Heq. apply (f_equal as_bytes) in Heq. rewrite !as_bytes_app in Heq.
  apply app_inj_1 in Heq as [Ha Hb]; [|unfold str_len, len in Hlen; lia].
  split; by apply (inj as_bytes).
Qed.

Lemma prefix_app a b : String.prefix a (a +:+ b) = true.
Proof.
  induction a as [|c a IH]; [by destruct b|].
  transitivity (if Ascii.ascii_dec c c then String.prefix a (a +:+ b) else false); [done|].
  destruct (Ascii.ascii_dec c c) as [|n]; [done|by destruct n].
Qed.

(** ** Chains *)

(** A batch that continues a chain. *)
Lemma chain_app e epoch l k :
  chain e epoch l → chain (e + len l) (last_epoch l epoch) k → chain e epoch (l ++ k).
Proof.
  revert e epoch. induction l as [|r l IH]; intros e epoch; cbn [app chain].
  { intros _. unfold len; cbn. by rewrite N.add_0_r. }
  intros (Hr & Hc & He & Hl) Hk. split_and!; try done. apply IH; [done|].
  rewrite len_cons in Hk. replace (e + 1 + len l) with (e + (1 + len l)) by lia.
  replace (last_epoch l (er_writer_epoch r)) with (last_epoch (r :: l) epoch); [done|].
  unfold last_epoch. destruct l as [|x l]; [done|]. rewrite !last_cons. by destruct (last l).
Qed.

Lemma chain_split e epoch l k :
  chain e epoch (l ++ k) → chain e epoch l ∧ chain (e + len l) (last_epoch l epoch) k.
Proof.
  revert e epoch. induction l as [|r l IH]; intros e epoch; cbn [app chain].
  { unfold len; cbn. by rewrite N.add_0_r. }
  intros (Hr & Hc & He & Hl). destruct (IH _ _ Hl) as [Hl' Hk]. split; [done|].
  rewrite len_cons. replace (e + (1 + len l)) with (e + 1 + len l) by lia.
  replace (last_epoch (r :: l) epoch) with (last_epoch l (er_writer_epoch r)); [done|].
  unfold last_epoch. destruct l as [|x l]; [done|]. rewrite !last_cons. by destruct (last l).
Qed.

Lemma last_epoch_app l k epoch : last_epoch (l ++ k) epoch = last_epoch k (last_epoch l epoch).
Proof. unfold last_epoch. rewrite last_app. by destruct (last k). Qed.

Lemma chain_weaken e epoch epoch' l : epoch' ≤ epoch → chain e epoch l → chain e epoch' l.
Proof. destruct l; cbn; [done|]. intros ? (? & ? & ? & ?). split_and!; try done. lia. Qed.

Section Keys.
Context `{ManifestHost} `{ArchiveHostLaws}.
Context (a : OpaqueArchive) (stream : string).

(** Keys the archive uses. *)
Definition archive_key (k : string) : Prop :=
  (∃ s, k = head_key a s) ∨ (∃ s f l bs, k = segment_key a s f l (sha256_hex bs)).

(** SHA-256 in hexadecimal, and paths that keep the archive's keys apart. *)
Record host_ok : Prop := {
  hk_digest bs : str_len (sha256_hex bs) = 64 ∧ forallb is_hexdigit (as_bytes (sha256_hex bs)) = true;
  hk_paths k k' : archive_key k → archive_key k' → path_from k = path_from k' → k = k';
  hk_stream s : stream_digest s = stream_digest stream → s = stream;
}.

Lemma head_segment_apart s s' f l bs :
  host_ok → head_path a s ≠ path_from (segment_key a s' f l (sha256_hex bs)).
Proof.
  intros Hh Heq. apply (hk_paths Hh) in Heq; [|by left; eauto|by right; eauto].
  unfold head_key, segment_key, segment_prefix in Heq.
  rewrite !string_app_assoc in Heq.
  apply (inj (String.append (oa_prefix a))), (inj (String.append "/streams/")) in Heq.
  apply string_app_split in Heq as [_ Heq]; [done|].
  unfold stream_digest. by rewrite !(proj1 (hk_digest Hh _)).
Qed.

Lemma head_paths_apart s : host_ok → s ≠ stream → head_path a s ≠ head_path a stream.
Proof.
  intros Hh Hne Heq. apply Hne, (hk_stream Hh). apply (hk_paths Hh) in Heq; [|left; eauto..].
  unfold head_key in Heq. apply (inj (String.append (oa_prefix a))), (inj (String.append "/streams/")) in Heq.
  apply string_app_split in Heq as [Heq _]; [done|].
  unfold stream_digest. by rewrite !(proj1 (hk_digest Hh _)).
Qed.

(** A batch as its own segment. *)
Definition batch_ref (batch : list EncryptedRecord) : SegmentRef :=
  segment_ref a stream (batch_segment stream batch).

Definition batch_bytes (batch : list EncryptedRecord) : list byte := segment_to_vec (batch_segment stream batch).

Lemma batch_ref_bounds e epoch batch :
  chain e epoch batch → batch ≠ [] →
  sr_first_lsn (batch_ref batch) = e ∧ sr_last_lsn (batch_ref batch) + 1 = e + len batch.
Proof.
  intros Hc Hne. destruct batch as [|r batch]; [done|]. unfold batch_ref, segment_ref, batch_segment. cbn [sr_first_lsn sr_last_lsn as_first_lsn as_last_lsn].
  destruct (last (r :: batch)) as [x|] eqn:Hl; [|by apply last_None in Hl].
  split; [by destruct Hc|]. by eapply chain_last.
Qed.

Definition on_this_stream (records : list EncryptedRecord) : Prop :=
  Forall (λ r, er_stream r = stream ∧ er_lsn r < u64_max) records.

Lemma verify_records_chain key e epoch records :
  chain e epoch records → on_this_stream records → verify_records stream key e epoch records = Ok tt.
Proof.
  revert e epoch. induction records as [|r records IH]; intros e epoch; [done|].
  intros (Hr & Hc & He & Hl) [[Hs Hmax] Hon]%Forall_cons. cbn.
  rewrite bool_decide_eq_true_2, Hr, Hc, N.eqb_refl by done. unfold saturating_sub. rewrite N.eqb_refl.
  rewrite (proj2 (N.ltb_ge _ _) He). cbn. unfold saturating_add. rewrite N.min_l by lia. by apply IH.
Qed.

Lemma verify_batch e epoch batch :
  chain e epoch batch → on_this_stream batch → batch ≠ [] →
  verify_segment (batch_segment stream batch) (batch_ref batch) stream = Ok tt.
Proof.
  intros Hc Hon Hne. destruct (batch_ref_bounds _ _ _ Hc Hne) as [Hf Hl].
  unfold verify_segment. rewrite !N.eqb_refl. rewrite bool_decide_eq_true_2 by done.
  assert (er_lsn <$> head batch = Some (sr_first_lsn (batch_ref batch))) as Hfirst.
  { by destruct batch. }
  assert (er_lsn <$> last batch = Some (sr_last_lsn (batch_ref batch))) as Hlast.
  { destruct (last batch) as [x|] eqn:Hx; [|by apply last_None in Hx].
    unfold batch_ref, segment_ref, batch_segment. cbn. by rewrite Hx. }
  cbn [batch_segment as_records]. rewrite (bool_decide_eq_true_2 _ Hfirst), (bool_decide_eq_true_2 _ Hlast).
  cbn [negb orb]. rewrite Hf. apply verify_records_chain; [|done]. eapply chain_weaken; [|done]. lia.
Qed.

Lemma fetch_batch {V} (get : string → result StoreError (list byte * V)) e epoch batch v :
  chain e epoch batch → on_this_stream batch → batch ≠ [] →
  get (path_from (sr_key (batch_ref batch))) = Ok (batch_bytes batch, v) →
  fetch_segment get stream (batch_ref batch) = Ok (batch_segment stream batch).
Proof.
  intros Hc Hon Hne Hg. unfold fetch_segment. rewrite Hg. cbn [map_err mbind result_bind].
  rewrite bool_decide_eq_true_2 by done. cbn [negb]. unfold batch_bytes. rewrite segment_from_to. cbn.
  by rewrite (verify_batch _ _ _ Hc Hon Hne).
Qed.

Lemma check_batch_reference e epoch batch :
  host_ok → chain e epoch batch → on_this_stream batch → batch ≠ [] → 
  check_reference a stream e (batch_ref batch) = Ok (e + len batch).
Proof.
  intros Hh Hc Hon Hne. destruct (batch_ref_bounds _ _ _ Hc Hne) as [Hf Hl].
  assert (e ≤ sr_last_lsn (batch_ref batch) ∧ sr_last_lsn (batch_ref batch) < u64_max) as [Hle Hmax].
  { destruct batch as [|r batch]; [done|]. rewrite len_cons in Hl. split; [lia|].
    destruct (last (r :: batch)) as [x|] eqn:Hx; [|by apply last_None in Hx].
    unfold on_this_stream in Hon. rewrite Forall_forall in Hon. destruct (Hon x) as [_ ?].
    { by apply last_Some_elem_of. }
    unfold batch_ref, segment_ref, batch_segment. cbn [sr_last_lsn as_last_lsn]. by rewrite Hx. }
  assert (String.prefix (segment_prefix a stream) (sr_key (batch_ref batch)) = true) as Hp by apply prefix_app.
  destruct (hk_digest Hh (batch_bytes batch)) as [Hd1 Hd2].
  change (sha256_hex (batch_bytes batch)) with (sr_digest (batch_ref batch)) in Hd1, Hd2.
  unfold check_reference. rewrite Hf, N.eqb_refl, (proj2 (N.ltb_ge _ _) Hle), Hp, Hd1, Hd2. cbn [negb orb N.eqb].
  rewrite Pos.eqb_refl. cbn [negb orb]. unfold checked_add. rewrite (proj2 (N.leb_le _ _)) by lia. cbn [ok_or]. by rewrite Hl.
Qed.

End Keys.

Lemma chain_epoch_le e epoch l : chain e epoch l → epoch ≤ last_epoch l epoch.
Proof.
  revert e epoch. induction l as [|r l IH]; intros e epoch; cbn; [lia|].
  intros (_ & _ & He & Hl). specialize (IH _ _ Hl).
  replace (last_epoch (r :: l) epoch) with (last_epoch l (er_writer_epoch r)); [lia|].
  unfold last_epoch. destruct l as [|x l]; [done|]. rewrite !last_cons. by destruct (last l).
Qed.

Lemma chain_lt e epoch l r : chain e epoch l → r ∈ l → er_lsn r < e + len l.
Proof. intros Hc Hr. eapply lsns_from_lt; [by eapply chain_lsns|done]. Qed.

Lemma last_epoch_nonempty l epoch epoch' : l ≠ [] → last_epoch l epoch = last_epoch l epoch'.
Proof. unfold last_epoch. destruct (last l) eqn:E; [done|]. by apply last_None in E. Qed.

Lemma filter_none {A} (P : A → Prop) `{∀ x, Decision (P x)} (l : list A) :
  (∀ x, x ∈ l → ~ P x) → filter P l = [].
Proof.
  induction l as [|x l IH]; intros Hn; [done|]. rewrite filter_cons, decide_False by (apply Hn; by left).
  apply IH. intros y Hy. apply Hn. by right.
Qed.

Section Reads.
Context `{ManifestHost} `{ArchiveHostLaws}.
Context (a : OpaqueArchive) (stream : string) (Hhost : host_ok a stream).
Context {V : Type} (get : string → result StoreError (list byte * V)).

(** The batches of a log, each readable. *)
Record batches_ok (batches : list (list EncryptedRecord)) : Prop := {
  bo_nonempty : Forall (λ b, b ≠ []) batches;
  bo_chain : chain 1 0 (concat batches);
  bo_stream : on_this_stream stream (concat batches);
}.

Definition readable (batch : list EncryptedRecord) : Prop :=
  ∃ v, get (path_from (sr_key (batch_ref a stream batch))) = Ok (batch_bytes stream batch, v).

(** The head that names them. *)
Definition batches_head (batches : list (list EncryptedRecord)) : ArchiveHead :=
  mkHead stream (len (concat batches)) (last_epoch (concat batches) 0) (batch_ref a stream <$> batches).

(** One batch of a log, between what precedes and what follows it. *)
Lemma batches_ok_middle pre b post :
  batches_ok (pre ++ b :: post) →
  b ≠ [] ∧ chain (1 + len (concat pre)) (last_epoch (concat pre) 0) b ∧ on_this_stream stream b.
Proof.
  intros [Hne Hc Hs]. rewrite concat_app in Hc, Hs. cbn in Hc, Hs.
  apply chain_split in Hc as [_ Hc]. apply chain_split in Hc as [Hc _].
  apply Forall_app in Hs as [_ Hs]. apply Forall_app in Hs as [Hs _].
  apply Forall_app in Hne as [_ Hne]. by apply Forall_cons in Hne as [Hne _].
Qed.

Lemma recover_references after pre post epoch :
  batches_ok (pre ++ post) → Forall readable post →
  epoch ≤ last_epoch (concat pre) 0 →
  (after < len (concat pre) → epoch = last_epoch (concat pre) 0) →
  ∃ epoch', try_fold (recover_reference get stream after)
      (1 + len (concat pre), epoch, filter (λ r, after < er_lsn r) (concat pre)) (batch_ref a stream <$> post)
    = Ok (1 + len (concat (pre ++ post)), epoch', filter (λ r, after < er_lsn r) (concat (pre ++ post)))
    ∧ (after < len (concat (pre ++ post)) → epoch' = last_epoch (concat (pre ++ post)) 0).
Proof.
  revert pre epoch. induction post as [|b post IH]; intros pre epoch Hok Hr Hle Heq; cbn [fmap list_fmap try_fold].
  { rewrite app_nil_r. eauto. }
  apply Forall_cons in Hr as [[v Hb] Hr].
  destruct (batches_ok_middle _ _ _ Hok) as (Hne & Hc & Hs).
  destruct (batch_ref_bounds a stream _ _ _ Hc Hne) as [Hf Hl].
  replace (pre ++ b :: post) with ((pre ++ [b]) ++ post) in * by (by rewrite <- app_assoc).
  assert (concat (pre ++ [b]) = concat pre ++ b) as Hcat by (rewrite concat_app; cbn; by rewrite app_nil_r).
  assert (len b ≠ 0) as Hlen by (destruct b; [done|rewrite len_cons; lia]).
  assert (len (concat (pre ++ [b])) = sr_last_lsn (batch_ref a stream b)) as Hlast
    by (rewrite Hcat, len_app; lia).
  pose proof (chain_epoch_le _ _ _ Hc) as Hep.
  assert (sr_last_lsn (batch_ref a stream b) < u64_max) as Hmax.
  { destruct (last b) as [x|] eqn:Hx; [|by apply last_None in Hx].
    unfold on_this_stream in Hs. rewrite Forall_forall in Hs. destruct (Hs x) as [_ ?]; [by apply last_Some_elem_of|].
    pose proof (chain_last _ _ _ _ Hc Hx). lia. }
  cbn [recover_reference]. rewrite Hf, N.eqb_refl, (proj2 (N.ltb_ge _ _)) by lia. cbn [negb orb].
  assert (saturating_add (sr_last_lsn (batch_ref a stream b)) 1 = 1 + len (concat (pre ++ [b]))) as Hnext
    by (unfold saturating_add; lia).
  assert (last_epoch (concat (pre ++ [b])) 0 = last_epoch b (last_epoch (concat pre) 0)) as Hlep
    by (by rewrite Hcat, last_epoch_app).
  destruct (N.leb_spec (sr_last_lsn (batch_ref a stream b)) after) as [Hskip|Hread].
  - rewrite Hnext. cbn [mbind result_bind].
    assert (filter (λ r, after < er_lsn r) (concat (pre ++ [b])) = filter (λ r, after < er_lsn r) (concat pre)) as <-.
    { rewrite Hcat, filter_app. rewrite (filter_none _ b); [apply app_nil_r|].
      intros r Hr'. pose proof (chain_lt _ _ _ _ Hc Hr'). lia. }
    apply IH; [done|done|rewrite Hlep; lia|lia].
  - rewrite (fetch_batch a stream get _ _ b v Hc Hs Hne Hb). cbn [mbind result_bind].
    assert (epoch_moved_back (batch_segment stream b) epoch = false) as ->.
    { unfold epoch_moved_back. cbn [batch_segment as_records]. destruct b as [|r b]; [done|]. cbn.
      destruct Hc as (_ & _ & ? & _). apply N.ltb_ge. lia. }
    rewrite Hnext. cbn [batch_segment as_records].
    assert (filter (λ r, after < er_lsn r) (concat (pre ++ [b]))
      = filter (λ r, after < er_lsn r) (concat pre) ++ filter (λ r, after < er_lsn r) b) as <-
      by (by rewrite Hcat, filter_app).
    assert (last_epoch b epoch = last_epoch (concat (pre ++ [b])) 0) as ->
      by (rewrite Hlep; by apply last_epoch_nonempty).
    apply IH; [done|done|done|done].
Qed.

Lemma recover_exact batches update after :
  load_head a get stream = Ok (batches_head batches, update) →
  batches_ok batches → Forall readable batches →
  archive_recover a get stream after = Ok (filter (λ r, after < er_lsn r) (concat batches)).
Proof.
  intros Hl Hok Hr. unfold archive_recover. rewrite Hl. cbn [mbind result_bind batches_head ah_segments].
  destruct (recover_references after [] batches 0) as (epoch & Hf & Hep); [done|done|cbn; lia|cbn; lia|].
  cbn [concat len] in Hf. change (1 + len []) with 1 in Hf. cbn [filter list_filter] in Hf.
  match type of Hf with try_fold _ ?x _ = _ => change x with (1, 0, @nil EncryptedRecord) in Hf end.
  rewrite Hf. cbn [mbind result_bind app] in *. unfold saturating_sub.
  replace (1 + len (concat batches) - 1) with (len (concat batches)) by lia.
  cbn [batches_head ah_archived_lsn ah_writer_epoch]. rewrite N.eqb_refl. cbn [negb].
  destruct (N.ltb_spec after (len (concat batches))) as [Hlt|]; [|done].
  rewrite (Hep Hlt), N.eqb_refl. done.
Qed.

Lemma head_chain_valid batches :
  batches_ok batches → validate_head_chain a stream (batches_head batches) = Ok tt.
Proof.
  intros Hok. unfold validate_head_chain. cbn [batches_head ah_stream ah_segments].
  rewrite bool_decide_eq_true_2 by done. cbn [negb].
  assert (∀ pre post, batches_ok (pre ++ post) →
    try_fold (check_reference a stream) (1 + len (concat pre)) (batch_ref a stream <$> post)
    = Ok (1 + len (concat (pre ++ post)))) as Hgen.
  { intros pre post. revert pre. induction post as [|b post IH]; intros pre Hok'; cbn [fmap list_fmap try_fold].
    { by rewrite app_nil_r. }
    destruct (batches_ok_middle _ _ _ Hok') as (Hne & Hc & Hs).
    rewrite (check_batch_reference a stream _ _ _ Hhost Hc Hs Hne). cbn [mbind result_bind].
    replace (pre ++ b :: post) with ((pre ++ [b]) ++ post) in * by (by rewrite <- app_assoc).
    rewrite <- (IH (pre ++ [b])) by done. f_equal. rewrite concat_app; cbn. rewrite app_nil_r, len_app. lia. }
  specialize (Hgen [] batches Hok). change (1 + len (concat [])) with 1 in Hgen. rewrite Hgen.
  cbn [mbind result_bind app]. unfold saturating_sub.
  replace (1 + len (concat batches) - 1) with (len (concat batches)) by lia.
  cbn [batches_head ah_archived_lsn ah_writer_epoch]. rewrite N.eqb_refl. cbn [negb].
  destruct (N.eqb_spec (len (concat batches)) 0) as [Hz|]; [|done].
  destruct (concat batches); [done|]. rewrite len_cons in Hz. lia.
Qed.

End Reads.

(** ** Batches of a call *)

Lemma check_pairs_chain e epoch first rest :
  try_fold (λ _ p, check_pair p) tt (windows2 (first :: rest)) = Ok tt →
  er_lsn first = e → er_committed_lsn first = e - 1 → epoch ≤ er_writer_epoch first →
  Forall (λ r, er_lsn r < u64_max) (first :: rest) → chain e epoch (first :: rest).
Proof.
  revert e epoch first. induction rest as [|next rest IH]; intros e epoch first Hw He Hc Hep Hmax.
  { cbn. split_and!; try done. }
  rewrite windows2_cons in Hw. cbn [try_fold] in Hw. apply bind_Ok in Hw as ([] & Hp & Hw). unfold check_pair in Hp.
  destruct (_ || _) eqn:Hb in Hp; [done|]. bool_facts.
  apply Forall_cons in Hmax as [Hf Hmax].
  refine (conj He (conj Hc (conj Hep _))). apply IH; try done; [unfold saturating_add in *; lia|lia].
Qed.

(** What is left of checked records above an LSN is a suffix of them. *)
Lemma filter_checked e records :
  try_fold (λ _ p, check_pair p) tt (windows2 records) = Ok tt →
  Forall (λ r, er_lsn r < u64_max) records →
  try_fold (λ _ p, check_pair p) tt (windows2 (filter (λ r, e ≤ er_lsn r) records)) = Ok tt
  ∧ filter (λ r, e ≤ er_lsn r) records `suffix_of` records.
Proof.
  induction records as [|x records IH]; intros Hw Hmax; [done|].
  apply Forall_cons in Hmax as [Hx Hmax]. rewrite filter_cons. case_decide as Hle.
  - assert (filter (λ r, e ≤ er_lsn r) records = records) as ->; [|by split].
    clear IH Hx. revert x Hle Hw. induction records as [|y records IH]; intros x Hle Hw; [done|].
    rewrite windows2_cons in Hw. cbn [try_fold] in Hw. apply bind_Ok in Hw as ([] & Hp & Hw).
    unfold check_pair in Hp. destruct (_ || _) eqn:Hb in Hp; [done|]. bool_facts.
    apply Forall_cons in Hmax as [Hy Hmax].
    rewrite filter_cons, decide_True by (unfold saturating_add in *; lia). f_equal.
    apply (IH Hmax y); [unfold saturating_add in *; lia|done].
  - destruct records as [|y records]; [by split; [|apply suffix_nil]|].
    rewrite windows2_cons in Hw. cbn [try_fold] in Hw. apply bind_Ok in Hw as ([] & _ & Hw).
    destruct (IH Hw Hmax) as [? ?]. split; [done|]. by apply suffix_cons_r.
Qed.

Lemma next_batch_chain (a : OpaqueArchive) stream h records batch :
  check_records stream records = Ok tt → Forall (λ r, er_lsn r < u64_max) records →
  next_batch a h records = Ok batch → batch ≠ [] →
  chain (1 + ah_archived_lsn h) (ah_writer_epoch h) batch ∧ on_this_stream stream batch.
Proof.
  unfold check_records. destruct (_ || _) eqn:Hb; [done|]. bool_facts. intros Hw Hmax Hn Hne.
  unfold next_batch in Hn. set (e := saturating_add (ah_archived_lsn h) 1) in *.
  destruct (filter_checked e records Hw Hmax) as [Hw' Hsuf].
  destruct (filter (λ r, e ≤ er_lsn r) records) as [|first rest] eqn:Hf; [by simplify_eq|].
  destruct (_ || _) eqn:Hc in Hn; [done|]. bool_facts. injection Hn as <-.
  assert (Forall (λ r, er_lsn r < u64_max ∧ er_stream r = stream) (first :: rest)) as Hall.
  { apply Forall_forall. intros r Hr. assert (r ∈ records) as Hin by (destruct Hsuf as [k ->]; set_solver).
    split; [rewrite Forall_forall in Hmax; by apply Hmax|].
    destruct (decide (er_stream r = stream)) as [|Hs]; [done|].
    assert (existsb (λ r, negb (bool_decide (er_stream r = stream))) records = true); [|congruence].
    apply existsb_exists. exists r. split; [by apply list_elem_of_In|]. by rewrite bool_decide_eq_false_2. }
  assert (e = 1 + ah_archived_lsn h) as He.
  { apply Forall_cons in Hall as [[? _] _]. unfold e, saturating_add in *. lia. }
  assert (chain e (ah_writer_epoch h) (first :: rest)) as Hch.
  { apply check_pairs_chain; try done.
    eapply Forall_impl; [exact Hall|]. by intros ? []. }
  rewrite <- (take_drop (N.to_nat (oa_max_records_per_segment a)) (first :: rest)) in Hch, Hall.
  apply chain_split in Hch as [Hch _]. rewrite He in Hch. split; [done|].
  apply Forall_app in Hall as [Hall _]. eapply Forall_impl; [exact Hall|]. by intros ? [].
Qed.

(** ** Archivers at work *)

Section Runs.
Context `{ManifestHost} `{ArchiveHostLaws} {S V : Type} `{ObjectStoreLaws S V}.
Context (a : OpaqueArchive) (stream : string) (Hhost : host_ok a stream).

(** A turn of some archiver between its requests. *)
Record Task := mkTask {
  tk_stream : string;
  tk_head : ArchiveHead;
  tk_update : option V;
  tk_batch : list EncryptedRecord;
  tk_ref : option SegmentRef;
}.

Definition with_ref (t : Task) (r : SegmentRef) : Task :=
  mkTask (tk_stream t) (tk_head t) (tk_update t) (tk_batch t) (Some r).

Record Archivers := mkArchivers { av_store : S; av_tasks : list Task }.

(** Any number of turns, of any streams, one request at a time; requests fail, answers
    get lost, archivers stop. *)
Inductive archive_step : Archivers → Archivers → Prop :=
| av_load s tasks st records h update batch :
    check_records st records = Ok tt → Forall (λ r, er_lsn r < u64_max) records →
    load_head a (store_get s) st = Ok (h, update) → next_batch a h records = Ok batch → batch ≠ [] →
    archive_step (mkArchivers s tasks) (mkArchivers s (mkTask st h update batch None :: tasks))
| av_segment io s pre t post r s' :
    tk_ref t = None → put_segment a io s (tk_stream t) (tk_batch t) = (r, s') →
    archive_step (mkArchivers s (pre ++ t :: post))
      (mkArchivers s' (pre ++ match r with Ok reference => [with_ref t reference] | Err _ => [] end ++ post))
| av_head io s pre t post reference r s' :
    tk_ref t = Some reference →
    put_head a io s (next_head (tk_head t) reference (tk_batch t)) (tk_update t) = (r, s') →
    archive_step (mkArchivers s (pre ++ t :: post)) (mkArchivers s' (pre ++ post))
| av_stop s pre t post :
    archive_step (mkArchivers s (pre ++ t :: post)) (mkArchivers s (pre ++ post)).

(** What is known of a turn of the stream. *)
Record task_ok (s : S) (t : Task) : Prop := {
  to_stream : ah_stream (tk_head t) = stream;
  to_nonempty : tk_batch t ≠ [];
  to_chain : chain (1 + ah_archived_lsn (tk_head t)) (ah_writer_epoch (tk_head t)) (tk_batch t);
  to_on : on_this_stream stream (tk_batch t);
  to_update : match tk_update t with
              | None => tk_head t = empty_head stream
              | Some v => ∃ s0 bytes, rtc store_step s0 s ∧ os_get s0 (head_path a stream) = Some (bytes, v)
                  ∧ head_from_slice bytes = Ok (tk_head t)
              end;
  to_ref reference : tk_ref t = Some reference →
    reference = batch_ref a stream (tk_batch t) ∧ readable a stream (store_get s) (tk_batch t);
}.

(** The head and the segments of the stream, and the turns under way. *)
Record archive_inv (c : Archivers) (batches : list (list EncryptedRecord)) : Prop := {
  ai_head : match os_get (av_store c) (head_path a stream) with
            | None => batches = []
            | Some (bytes, _) => head_from_slice bytes = Ok (batches_head a stream batches)
            end;
  ai_ok : batches_ok stream batches;
  ai_readable : Forall (readable a stream (store_get (av_store c))) batches;
  ai_tasks t : t ∈ av_tasks c → tk_stream t = stream → task_ok (av_store c) t;
  ai_named t : t ∈ av_tasks c → ah_stream (tk_head t) = tk_stream t;
}.

Lemma readable_get s batch :
  readable a stream (store_get s) batch ↔
  ∃ v, os_get s (path_from (sr_key (batch_ref a stream batch))) = Some (batch_bytes stream batch, v).
Proof.
  unfold readable, store_get. split; intros [v Hv]; exists v.
  - by destruct (os_get s _); simplify_eq/=.
  - by rewrite Hv.
Qed.

(** Segments are written once. *)
Lemma put_segment_effect io s st batch r s' :
  put_segment a io s st batch = (r, s') →
  rtc store_step s s'
  ∧ os_get s' (head_path a stream) = os_get s (head_path a stream)
  ∧ (∀ b, readable a stream (store_get s) b → readable a stream (store_get s') b)
  ∧ (∀ reference, r = Ok reference → st = stream →
       reference = batch_ref a stream batch ∧ readable a stream (store_get s') batch).
Proof.
  unfold put_segment. set (g := batch_segment st batch). set (ref := segment_ref a st g).
  destruct (store_put io s (path_from (sr_key ref)) (segment_to_vec g) Create) as [r0 s0] eqn:Hp.
  intros Hput. assert (s' = s0) as ->.
  { repeat case_match; by simplify_eq. }
  split; [by eapply store_put_steps|].
  assert (head_path a stream ≠ path_from (sr_key ref)) as Hapart by by eapply head_segment_apart.
  destruct (store_put_effect _ _ _ _ _ _ _ Hp) as [[-> Hr0]|(Hmay & (v & Hv & _) & Hother)].
  - split_and!; [done|done|]. intros reference -> Hst.
    destruct r0 as [|e]; [done|]. destruct e; simplify_eq.
    destruct (store_get s (path_from (sr_key ref))) as [[existing v]|] eqn:Hg; [|done].
    case_bool_decide; [|done]. unfold ref, g in *. simplify_eq. split; [done|]. by exists v.
  - split_and!; [by apply Hother| |].
    + intros b [v' Hb]%readable_get. apply readable_get. exists v'. rewrite <- Hb. apply Hother.
      unfold may_put in Hmay. intros Heq. rewrite Heq in Hb. congruence.
    + intros reference Hr Hst. assert (reference = ref) as -> by (repeat case_match; by simplify_eq).
      unfold ref, g in *. subst st. split; [done|]. apply readable_get. by exists v.
Qed.

(** Heads do not touch segments. *)
Lemma put_head_effect io s h update r s' :
  put_head a io s h update = (r, s') →
  rtc store_step s s'
  ∧ (∀ b, readable a stream (store_get s) b → readable a stream (store_get s') b)
  ∧ (os_get s' (head_path a stream) = os_get s (head_path a stream)
     ∨ (ah_stream h = stream ∧ (∃ v, os_get s' (head_path a stream) = Some (head_to_vec h, v))
        ∧ match update with
          | None => os_get s (head_path a stream) = None
          | Some v => ∃ old, os_get s (head_path a stream) = Some (old, v)
          end))
  ∧ (r = Ok tt → ah_stream h = stream → ∃ v, os_get s' (head_path a stream) = Some (head_to_vec h, v)).
Proof.
  unfold put_head. destruct (store_put io s _ _ _) as [r0 s0] eqn:Hp. intros [= <- <-].
  split; [by eapply store_put_steps|].
  destruct (store_put_effect _ _ _ _ _ _ _ Hp) as [[-> Hne]|(Hmay & Hv0 & Hother)].
  { split_and!; [done|by left|]. by destruct r0. }
  assert (∃ v, os_get s0 (head_path a (ah_stream h)) = Some (head_to_vec h, v)) as Hv.
  { destruct Hv0 as (v & ? & _). by exists v. }
  split_and!; [| |intros _ <-; done].
  - intros b [v' Hb]%readable_get. apply readable_get. exists v'. rewrite <- Hb. apply Hother.
    symmetry. by eapply head_segment_apart.
  - destruct (decide (ah_stream h = stream)) as [Hs|Hs].
    + right. split_and!; [done|by rewrite <- Hs|]. rewrite <- Hs. by destruct update.
    + left. apply Hother. symmetry. by apply head_paths_apart.
Qed.

Lemma task_ok_step s s' t :
  rtc store_step s s' → (∀ b, readable a stream (store_get s) b → readable a stream (store_get s') b) →
  task_ok s t → task_ok s' t.
Proof.
  intros Hst Hread [Hs Hne Hc Hon Hu Hr]. split; try done.
  - destruct (tk_update t) as [v|]; [|done]. destruct Hu as (s0 & bytes & ? & ? & ?).
    exists s0, bytes. split_and!; [by etrans|done|done].
  - intros reference [? ?]%Hr. split; [done|]. by apply Hread.
Qed.

Lemma batches_ok_snoc batches batch :
  batches_ok stream batches → batch ≠ [] → on_this_stream stream batch →
  chain (1 + len (concat batches)) (last_epoch (concat batches) 0) batch →
  batches_ok stream (batches ++ [batch]).
Proof.
  intros [Hne Hc Hs] Hb Hon Hch. split.
  - apply Forall_app. by split; [|apply Forall_singleton].
  - rewrite concat_app. cbn. rewrite app_nil_r. by apply chain_app.
  - rewrite concat_app. cbn. rewrite app_nil_r. by apply Forall_app.
Qed.

Lemma next_head_batches batches batch :
  chain (1 + len (concat batches)) (last_epoch (concat batches) 0) batch → batch ≠ [] →
  next_head (batches_head a stream batches) (batch_ref a stream batch) batch
  = batches_head a stream (batches ++ [batch]).
Proof.
  intros Hc Hne. destruct (batch_ref_bounds a stream _ _ _ Hc Hne) as [_ Hl].
  unfold next_head, batches_head. cbn [ah_stream ah_segments ah_writer_epoch].
  rewrite concat_app. cbn [concat]. rewrite app_nil_r, len_app, last_epoch_app, fmap_app.
  f_equal. lia.
Qed.

(** A head that is replaced is the one the turn had read, or there was none. *)
Lemma head_replaced c batches t :
  archive_inv c batches → task_ok (av_store c) t →
  match tk_update t with
  | None => os_get (av_store c) (head_path a stream) = None
  | Some v => ∃ old, os_get (av_store c) (head_path a stream) = Some (old, v)
  end →
  tk_head t = batches_head a stream batches.
Proof.
  intros [Hh _ _ _] Ht Hm. pose proof (to_update _ _ Ht) as Hu. destruct (tk_update t) as [v|].
  - destruct Hm as [old Hold], Hu as (s0 & bytes & Hst & Hb & Hparse). rewrite Hold in Hh.
    rewrite (os_version _ _ _ _ _ _ Hst Hb Hold) in Hh. congruence.
  - rewrite Hm in Hh. subst batches. by rewrite Hu.
Qed.

(** The head a turn loads is its stream's. *)
Lemma load_head_stream s st h update :
  load_head a (store_get s) st = Ok (h, update) → ah_stream h = st.
Proof.
  unfold load_head. destruct (store_get s _) as [[bytes v]|[]]; try done; [|by intros [= <- _]].
  intros (h' & _ & Hl)%bind_Ok. case_bool_decide; [|done]. by simplify_eq/=.
Qed.

Lemma archive_step_inv c c' batches :
  archive_step c c' → archive_inv c batches →
  ∃ batches', archive_inv c' batches' ∧ batches `prefix_of` batches'.
Proof.
  intros Hstep Hinv. pose proof Hinv as [Hh Hok Hr Ht Hn].
  destruct Hstep as [s tasks st records h update batch Hck Hmax Hl Hnb Hne
    |io s pre t post r s' Hnone Hp|io s pre t post reference r s' Href Hp|s pre t post]; cbn in *.
  - exists batches. split; [|done]. split; cbn; try done.
    2:{ intros t [->|Hin]%elem_of_cons; [by eapply load_head_stream|by apply Hn]. }
    intros t [->|Hin]%elem_of_cons Hst; [|by apply Ht].
    cbn in Hst. subst st. destruct (next_batch_chain a stream h records batch Hck Hmax Hnb Hne) as [Hc Hon].
    pose proof (load_head_stream _ _ _ _ Hl) as Hs. unfold load_head, store_get in Hl.
    destruct (os_get s (head_path a stream)) as [[bytes v]|] eqn:Hg; cbn in Hl.
    + rewrite Hh in Hl. cbn in Hl. case_bool_decide; [|done]. injection Hl as <- <-.
      split; cbn; try done. exists s, bytes. by split_and!.
    + injection Hl as <- <-. split; cbn; done.
  - apply put_segment_effect in Hp as (Hst & Hhead & Hread & Hok').
    exists batches. split; [|done]. split; cbn; [by rewrite Hhead|done| | |].
    + eapply Forall_impl; [exact Hr|]. done.
    + intros t' Hin Hs. apply elem_of_app in Hin as [Hin|[Hin|Hin]%elem_of_app].
      * eapply task_ok_step; [done..|]. apply Ht; [set_solver|done].
      * destruct r as [reference|]; [|by apply elem_of_nil in Hin].
        apply list_elem_of_singleton in Hin as ->. cbn in Hs.
        destruct (task_ok_step _ _ _ Hst Hread (Ht t ltac:(set_solver) Hs)) as [? ? ? ? ? _].
        split; cbn; try done. intros ref [= <-]. by apply Hok'.
      * eapply task_ok_step; [done..|]. apply Ht; [set_solver|done].
    + intros t' [Hin|[Hin|Hin]%elem_of_app]%elem_of_app; [apply Hn; set_solver| |apply Hn; set_solver].
      destruct r as [reference|]; [|by apply elem_of_nil in Hin].
      apply list_elem_of_singleton in Hin as ->. cbn. apply Hn. set_solver.
  - pose proof Hp as (Hst & Hread & Hor & _)%put_head_effect.
    assert (∀ t', t' ∈ pre ++ post → tk_stream t' = stream → task_ok s' t') as Htasks.
    { intros t' Hin Hs. eapply task_ok_step; [done..|]. apply Ht; [set_solver|done]. }
    assert (∀ t', t' ∈ pre ++ post → ah_stream (tk_head t') = tk_stream t') as Hnamed
      by (intros t' Hin; apply Hn; set_solver).
    assert (Forall (readable a stream (store_get s')) batches) as Hr' by (eapply Forall_impl; [exact Hr|done]).
    destruct Hor as [Hsame|(Hs & [v Hv] & Hm)].
    + exists batches. split; [|done]. split; cbn; try done. by rewrite Hsame.
    + cbn in Hs. rewrite Hn in Hs by set_solver.
      pose proof (Ht t ltac:(set_solver) Hs) as Htask.
      pose proof (head_replaced _ _ _ Hinv Htask Hm) as Hhd.
      destruct (to_ref _ _ Htask _ Href) as [-> Hb]. destruct Htask as [_ Hne Hc Hon _ _]. rewrite Hhd in Hc. cbn in Hc.
      exists (batches ++ [tk_batch t]). split; [|by apply prefix_app_r].
      split; cbn; [|by apply batches_ok_snoc| |done|done].
      * rewrite Hv, Hhd, next_head_batches by done. apply head_from_to.
      * apply Forall_app. split; [done|]. apply Forall_singleton. by apply Hread.
  - exists batches. split; [|done]. split; cbn; try done; intros t' Hin; [apply Ht|apply Hn]; set_solver.
Qed.

Lemma archive_steps_inv c c' batches :
  rtc archive_step c c' → archive_inv c batches →
  ∃ batches', archive_inv c' batches' ∧ batches `prefix_of` batches'.
Proof.
  intros Hst. revert batches. induction Hst as [c|a' b c Hs _ IH]; intros batches Hinv; [eauto|].
  destruct (archive_step_inv _ _ _ Hs Hinv) as (b1 & H1' & Hp1). destruct (IH _ H1') as (b2 & H2' & Hp2).
  exists b2. split; [done|by etrans].
Qed.

Lemma archive_inv_load c batches :
  archive_inv c batches → ∃ update, load_head a (store_get (av_store c)) stream = Ok (batches_head a stream batches, update).
Proof.
  intros [Hh _ _ _ _]. unfold load_head, store_get.
  destruct (os_get (av_store c) (head_path a stream)) as [[bytes v]|]; cbn.
  - rewrite Hh. cbn. rewrite bool_decide_eq_true_2 by done. eauto.
  - subst batches. eauto.
Qed.

(** No object and no turn yet. *)
Definition archive_initial (c : Archivers) : Prop :=
  os_get (av_store c) (head_path a stream) = None ∧ av_tasks c = [].

(** What a run of archivers has published, and what later reads return. *)
Lemma archive_run_log c0 c :
  archive_initial c0 → rtc archive_step c0 c →
  ∃ log, chain 1 0 log ∧ on_this_stream stream log
    ∧ archived_lsn a (store_get (av_store c)) stream = Ok (len log)
    ∧ (∀ after, archive_recover a (store_get (av_store c)) stream after
                = Ok (filter (λ r, after < er_lsn r) log))
    ∧ (∀ c', rtc archive_step c c' → ∃ more,
         archive_recover a (store_get (av_store c')) stream 0 = Ok (log ++ more)
         ∧ archived_lsn a (store_get (av_store c')) stream = Ok (len (log ++ more))).
Proof.
  intros [Hg Hts] Hrun.
  assert (archive_inv c0 []) as H0'.
  { split; rewrite ?Hg, ?Hts; [done|split; [constructor|done|constructor]|constructor|by intros ? ?%elem_of_nil..]. }
  destruct (archive_steps_inv _ _ _ Hrun H0') as (batches & Hinv & _).
  assert (∀ c batches, archive_inv c batches →
    archived_lsn a (store_get (av_store c)) stream = Ok (len (concat batches))
    ∧ ∀ after, archive_recover a (store_get (av_store c)) stream after
        = Ok (filter (λ r, after < er_lsn r) (concat batches))) as Hread.
  { intros c1 b1 Hi. destruct (archive_inv_load _ _ Hi) as [update Hl]. destruct Hi as [_ Hok Hr _ _]. split.
    - unfold archived_lsn. rewrite Hl. cbn. by rewrite head_chain_valid.
    - intros after. by eapply recover_exact. }
  exists (concat batches). pose proof (ai_ok _ _ Hinv) as [_ Hc Hs].
  split_and!; [done|done|by apply Hread|by apply Hread|].
  intros c' Hrun'. destruct (archive_steps_inv _ _ _ Hrun' Hinv) as (b' & Hinv' & [k ->]).
  exists (concat k). rewrite <- concat_app. destruct (Hread _ _ Hinv') as [Hlsn Hrec]. split; [|done].
  rewrite Hrec. f_equal. apply filter_keeps_all. intros r Hr.
  pose proof (ai_ok _ _ Hinv') as [_ Hc' _]. pose proof (chain_ge _ _ _ _ Hc' Hr). lia.
Qed.

(** C22: The archive of a stream is an append-only log.  After any run of archivers, of this and
    other streams, with lost races, lost answers and crashes, there is a log of consecutive
    records from LSN 1, each naming its predecessor as committed, in epochs that do not go
    back, such that reading the archive after any LSN returns exactly the records of the
    log above it and the published watermark is its length; and whatever happens next, a
    later read returns this log first. *)
Theorem archive_refines_log c0 c :
  archive_initial c0 → rtc archive_step c0 c →
  ∃ log, chain 1 0 log ∧ on_this_stream stream log
    ∧ archived_lsn a (store_get (av_store c)) stream = Ok (len log)
    ∧ (∀ after, archive_recover a (store_get (av_store c)) stream after
                = Ok (filter (λ r, after < er_lsn r) log))
    ∧ (∀ c', rtc archive_step c c' → ∃ more,
         archive_recover a (store_get (av_store c')) stream 0 = Ok (log ++ more)
         ∧ archived_lsn a (store_get (av_store c')) stream = Ok (len (log ++ more))).
Proof. apply archive_run_log. Qed.

(** ** One archiver alone *)

Lemma check_pairs_sorted records :
  try_fold (λ _ p, check_pair p) tt (windows2 records) = Ok tt → Forall (λ r, er_lsn r < u64_max) records →
  strict_sorted er_lsn records.
Proof.
  induction records as [|x records IH]; intros Hw Hmax; [constructor|].
  apply Forall_cons in Hmax as [Hx Hmax]. destruct records as [|y records]; [repeat constructor|].
  rewrite windows2_cons in Hw. cbn [try_fold] in Hw. apply bind_Ok in Hw as ([] & Hp & Hw).
  unfold check_pair in Hp. destruct (_ || _) eqn:Hb in Hp; [done|]. bool_facts.
  specialize (IH Hw Hmax). constructor; [done|]. apply StronglySorted_inv in IH as [_ Hy].
  assert (er_lsn x < er_lsn y) as Hxy.
  { apply Forall_cons in Hmax as [? _]. unfold saturating_add in *. lia. }
  constructor; [done|]. eapply Forall_impl; [exact Hy|]. cbn. intros; lia.
Qed.

Lemma strict_sorted_unique {A} (key : A → N) l x y :
  strict_sorted key l → x ∈ l → y ∈ l → key x = key y → x = y.
Proof.
  induction 1 as [|z l _ IH Hz]; [by intros ?%elem_of_nil|]. rewrite Forall_forall in Hz.
  intros [->|Hx]%elem_of_cons [->|Hy]%elem_of_cons Heq; [done| | |by apply IH].
  - specialize (Hz y Hy). lia.
  - specialize (Hz x Hx). lia.
Qed.

Lemma strict_sorted_last {A} (key : A → N) l x y :
  strict_sorted key l → x ∈ l → last l = Some y → key x ≤ key y.
Proof.
  intros Hs Hx [l' ->]%last_Some. apply elem_of_app in Hx as [Hx| ->%list_elem_of_singleton]; [|done].
  induction l' as [|z l' IH]; [by apply elem_of_nil in Hx|].
  inversion Hs as [|? ? Hs' Hz]; subst. apply elem_of_cons in Hx as [->|Hx]; [|by apply IH].
  rewrite Forall_forall in Hz. specialize (Hz y ltac:(set_solver)). lia.
Qed.

(** A chain has every LSN of its range. *)
Lemma chain_has e epoch l n : chain e epoch l → e ≤ n → n < e + len l → ∃ r, r ∈ l ∧ er_lsn r = n.
Proof.
  revert e epoch. induction l as [|x l IH]; intros e epoch; cbn [chain]; [unfold len; cbn; lia|].
  intros (Hx & _ & _ & Hl) Hge Hlt. rewrite len_cons in Hlt. setoid_rewrite elem_of_cons.
  destruct (N.eq_dec n e) as [->|]; [eauto|]. destruct (IH _ _ Hl) as (r & ? & ?); [lia..|eauto].
Qed.

Lemma quiet_inv s s' batches :
  archive_inv (mkArchivers s []) batches →
  os_get s' (head_path a stream) = os_get s (head_path a stream) →
  (∀ b, readable a stream (store_get s) b → readable a stream (store_get s') b) →
  archive_inv (mkArchivers s' []) batches.
Proof.
  intros [Hh Hok Hr _ _] Hhead Hread. cbn in *. split; cbn; [by rewrite Hhead|done| |by intros ? ?%elem_of_nil..].
  eapply Forall_impl; [exact Hr|done].
Qed.

(** A published batch: the head named it, and it is readable. *)
Lemma published_inv s s' batches batch v :
  archive_inv (mkArchivers s []) batches →
  batch ≠ [] → on_this_stream stream batch →
  chain (1 + len (concat batches)) (last_epoch (concat batches) 0) batch →
  (∀ b, readable a stream (store_get s) b → readable a stream (store_get s') b) →
  readable a stream (store_get s') batch →
  os_get s' (head_path a stream)
    = Some (head_to_vec (next_head (batches_head a stream batches) (batch_ref a stream batch) batch), v) →
  archive_inv (mkArchivers s' []) (batches ++ [batch]).
Proof.
  intros [_ Hok Hr _ _] Hne Hon Hc Hread Hb Hg. cbn in *.
  split; cbn; [|by apply batches_ok_snoc| |by intros ? ?%elem_of_nil..].
  - rewrite Hg, next_head_batches by done. apply head_from_to.
  - apply Forall_app. split; [eapply Forall_impl; [exact Hr|done]|by apply Forall_singleton].
Qed.

(** One turn: it returns, or it publishes a batch. *)
Lemma archive_turn_alone ios s batches records result s' :
  0 < oa_max_records_per_segment a → archive_inv (mkArchivers s []) batches → check_records stream records = Ok tt →
  Forall (λ r, er_lsn r < u64_max) records → archive_turn a ios s stream records = (result, s') →
  (∃ e, result = TurnReturns (Err e) ∧ ∃ batches', archive_inv (mkArchivers s' []) batches' ∧ batches `prefix_of` batches')
  ∨ (result = TurnReturns (Ok (len (concat batches))) ∧ s' = s
     ∧ ∀ r, r ∈ records → er_lsn r ≤ len (concat batches))
  ∨ (∃ batch, archive_inv (mkArchivers s' []) (batches ++ [batch]) ∧ batch ≠ [] ∧ batch ⊆ records
     ∧ let n := len (concat (batches ++ [batch])) in
       result = if n =? match last records with Some r => er_lsn r | None => 0 end
                then TurnReturns (Ok n) else TurnPublished).
Proof.
  intros Hpos Hinv Hck Hmax Ht. unfold archive_turn in Ht.
  destruct (archive_inv_load _ _ Hinv) as [update Hl]. cbn [av_store] in Hl. rewrite Hl in Ht.
  destruct (next_batch a (batches_head a stream batches) records) as [batch|e] eqn:Hn.
  2:{ injection Ht as <- <-. left. eauto. }
  destruct (decide (batch = [])) as [->|Hne].
  { injection Ht as <- <-. right. left. split_and!; [done|done|]. intros r Hr.
    destruct (N.le_gt_cases (er_lsn r) (len (concat batches))) as [|Hgt]; [done|].
    unfold next_batch in Hn. cbn [batches_head ah_archived_lsn ah_writer_epoch] in Hn.
    set (e := saturating_add (len (concat batches)) 1) in *.
    assert (r ∈ filter (λ r, e ≤ er_lsn r) records) as Hin.
    { apply list_elem_of_filter. split; [unfold e, saturating_add; lia|done]. }
    destruct (filter (λ r, e ≤ er_lsn r) records) as [|first rest]; [by apply elem_of_nil in Hin|].
    destruct (_ || _) in Hn; [done|]. destruct (N.to_nat (oa_max_records_per_segment a)) eqn:Hz; [lia|done]. }
  destruct (next_batch_chain a stream _ _ _ Hck Hmax Hn Hne) as [Hc Hon]. cbn [batches_head ah_archived_lsn ah_writer_epoch] in Hc.
  assert (batch ⊆ records) as Hsub.
  { unfold next_batch in Hn. intros r Hr.
    match type of Hn with match ?l with _ => _ end = _ => destruct l as [|first rest] eqn:Hf; [by simplify_eq|] end.
    destruct (_ || _) in Hn; [done|]. injection Hn as <-.
    assert (r ∈ first :: rest) as Hin by (eapply sublist_subseteq; [apply sublist_take|done]).
    rewrite <- Hf in Hin. by apply list_elem_of_filter in Hin as [_ ?]. }
  destruct (put_segment a ios.1 s stream batch) as [r1 s1] eqn:Hseg.
  pose proof Hseg as (_ & Hhead1 & Hread1 & Href)%put_segment_effect.
  pose proof (quiet_inv _ _ _ Hinv Hhead1 Hread1) as Hinv1.
  replace (match batch with [] => _ | _ :: _ => _ end) with
    (match r1 with
     | Err e => (TurnReturns (Err e), s1)
     | Ok reference =>
       let next := next_head (batches_head a stream batches) reference batch in
       match put_head a ios.2 s1 next update with
       | (Err (ObjectStoreError AlreadyExists), s2) | (Err (ObjectStoreError Precondition), s2) => (TurnContended, s2)
       | (Err e, s2) => (TurnReturns (Err e), s2)
       | (Ok _, s2) =>
         (if ah_archived_lsn next =? match last records with Some r => er_lsn r | None => 0 end
          then TurnReturns (Ok (ah_archived_lsn next)) else TurnPublished, s2)
       end
     end) in Ht by (destruct batch; [done|by destruct r1]).
  destruct r1 as [reference|e]; [|injection Ht as <- <-; left; eauto].
  destruct (Href reference eq_refl eq_refl) as [-> Hb]. cbn zeta in Ht.
  destruct (put_head a ios.2 s1 _ update) as [r2 s2] eqn:Hph.
  pose proof Hph as (_ & Hread2 & Hor & Hok2)%put_head_effect.
  assert (∃ batches', archive_inv (mkArchivers s2 []) batches' ∧ batches `prefix_of` batches') as Hsome.
  { destruct Hor as [Hsame|(_ & [v Hv] & _)].
    - exists batches. split; [by eapply quiet_inv|done].
    - exists (batches ++ [batch]). split; [|by apply prefix_app_r]. eapply published_inv; eauto. }
  destruct r2 as [[]|e2].
  - right. right. destruct (Hok2 eq_refl eq_refl) as [v Hv]. exists batch.
    rewrite (next_head_batches _ _ Hc Hne) in Ht. cbn [batches_head ah_archived_lsn] in Ht.
    assert (s' = s2) as -> by congruence.
    split_and!; [eapply published_inv; eauto|done|done|]. cbn zeta. congruence.
  - assert (e2 ≠ ObjectStoreError AlreadyExists ∧ e2 ≠ ObjectStoreError Precondition) as [He1 He2].
    { unfold put_head in Hph. destruct (store_put _ _ _ _ _) as [r3 s3] eqn:Hsp. injection Hph as Hr3 <-.
      destruct r3 as [|e3]; [done|]. injection Hr3 as <-.
      assert (may_put s1 (head_path a stream) (match update with None => Create | Some v => Update v end)) as Hmay.
      { unfold load_head, store_get in Hl. unfold may_put.
        destruct (os_get s (head_path a stream)) as [[bytes v]|] eqn:Hg; cbn in Hl.
        - apply bind_Ok in Hl as (? & _ & Hl). case_bool_decide; [|done].
          assert (update = Some v) as -> by (cbn in Hl; congruence). rewrite Hhead1. eauto.
        - assert (update = None) as -> by congruence. congruence. }
      split; intros [= ->]; eapply store_put_refused in Hsp; eauto. }
    left. destruct e2 as [|[]| | | |]; simplify_eq; eauto.
Qed.

(** What a call has achieved with a log [b0] that extends the one it started with. *)
Definition achieved (batches b0 : list (list EncryptedRecord)) (records : list EncryptedRecord) : Prop :=
  batches `prefix_of` b0
  ∧ ∀ x, x ∈ records → len (concat batches) < er_lsn x → er_lsn x ≤ len (concat b0) → x ∈ concat b0.

Lemma achieved_batch batches b0 batch s records last_record :
  strict_sorted er_lsn records → last records = Some last_record →
  archive_inv (mkArchivers s []) (b0 ++ [batch]) → batch ≠ [] → batch ⊆ records →
  achieved batches b0 records →
  achieved batches (b0 ++ [batch]) records
  ∧ len (concat b0) < len (concat (b0 ++ [batch])) ≤ er_lsn last_record.
Proof.
  intros Hsorted Hlast Hinv Hne Hsub [Hpre Hin].
  assert (concat (b0 ++ [batch]) = concat b0 ++ batch) as Hcat by (rewrite concat_app; cbn; by rewrite app_nil_r).
  destruct (batches_ok_middle stream b0 batch [] (ai_ok _ _ Hinv)) as (_ & Hc & _).
  assert (len batch ≠ 0) as Hlen by (destruct batch; [done|rewrite len_cons; lia]).
  unfold achieved. rewrite Hcat, len_app. split_and!; [by apply prefix_app_r| |lia|].
  - intros x Hx Hgt Hxn. apply elem_of_app.
    destruct (N.le_gt_cases (er_lsn x) (len (concat b0))); [left; by apply Hin|right].
    destruct (chain_has _ _ _ (er_lsn x) Hc) as (y & Hy & Heq); [lia..|].
    by rewrite (strict_sorted_unique er_lsn records x y Hsorted Hx (Hsub y Hy) (eq_sym Heq)).
  - destruct (chain_has _ _ _ (len (concat b0) + len batch) Hc) as (x & Hx & <-); [lia..|].
    eapply strict_sorted_last; [done|by apply Hsub|done].
Qed.

Lemma archive_loop_alone fuel ios contention s batches b0 records last_record :
  0 < oa_max_records_per_segment a → archive_inv (mkArchivers s []) b0 →
  check_records stream records = Ok tt → Forall (λ r, er_lsn r < u64_max) records →
  strict_sorted er_lsn records → last records = Some last_record → achieved batches b0 records →
  (0 < fuel)%nat → (N.to_nat (er_lsn last_record) < fuel + N.to_nat (len (concat b0)))%nat →
  ∃ r s' b, archive_loop a fuel ios contention s stream records = Some (r, s')
    ∧ archive_inv (mkArchivers s' []) b ∧ batches `prefix_of` b
    ∧ ∀ n, r = Ok n → n = len (concat b) ∧ er_lsn last_record ≤ n ∧ achieved batches b records.
Proof.
  intros Hpos Hinv Hck Hmax Hsorted Hlast.
  revert contention s b0 Hinv. induction fuel as [|fuel IH]; intros contention s b0 Hinv Hach H0f Hf; [lia|].
  cbn [archive_loop]. destruct (archive_turn a (ios fuel) s stream records) as [result s1] eqn:Ht.
  destruct (archive_turn_alone _ _ _ _ _ _ Hpos Hinv Hck Hmax Ht)
    as [(e & -> & b1 & Hb1 & Hp1)|[(-> & -> & Hall)|(batch & Hb1 & Hne & Hsub & Hres)]].
  - eexists _, _, b1. split_and!; [done|done|etrans; [apply Hach|done]|done].
  - eexists _, _, b0. split_and!; [done|done|apply Hach|]. intros n [= <-]. split_and!; [done| |done..].
    apply Hall. by apply last_Some_elem_of.
  - rewrite Hlast in Hres. cbn zeta in Hres.
    destruct (achieved_batch _ _ _ _ _ _ Hsorted Hlast Hb1 Hne Hsub Hach) as (Hach' & Hgt & Hle).
    destruct (N.eqb_spec (len (concat (b0 ++ [batch]))) (er_lsn last_record)) as [Hend|Hmore]; subst result.
    + eexists _, _, (b0 ++ [batch]). split_and!; [done|done|apply Hach'|]. intros n [= <-]. split_and!; [done|lia|done..].
    + apply (IH _ _ (b0 ++ [batch])); [done|done|lia|lia].
Qed.

(** [archive_committed] ends.  An archiver alone needs one turn per LSN up to its last
    record and one more, whatever fails; the archive keeps its log, and if the call
    returns a watermark it is the length of the log, which contains every record that was
    not archived before. *)
Theorem archive_committed_terminates ios s batches first records last_record fuel :
  0 < oa_max_records_per_segment a → archive_inv (mkArchivers s []) batches →
  Forall (λ r, er_lsn r < u64_max) (first :: records) → last (first :: records) = Some last_record →
  er_stream first = stream → (N.to_nat (er_lsn last_record) < fuel)%nat →
  ∃ r s' batches', archive_committed a fuel ios s (first :: records) = Some (r, s')
    ∧ archive_inv (mkArchivers s' []) batches' ∧ batches `prefix_of` batches'
    ∧ ∀ n, r = Ok n → n = len (concat batches') ∧ er_lsn last_record ≤ n
        ∧ ∀ x, x ∈ first :: records → len (concat batches) < er_lsn x → x ∈ concat batches'.
Proof.
  intros Hpos Hinv Hmax Hlast Hs Hfuel. unfold archive_committed. rewrite Hs.
  destruct (check_records stream (first :: records)) as [[]|e] eqn:Hck; [|eexists _, _, batches; by split_and!].
  assert (strict_sorted er_lsn (first :: records)) as Hsorted.
  { unfold check_records in Hck. destruct (_ || _) in Hck; [done|]. by apply check_pairs_sorted. }
  destruct (archive_loop_alone fuel ios 0 s batches batches (first :: records) last_record)
    as (r & s' & b & Hl & Hb & Hp & Hok); try done; [|lia|lia|].
  { split; [done|]. intros x _ ? ?. lia. }
  exists r, s', b. split_and!; [done..|]. intros n Hn. destruct (Hok n Hn) as (-> & Hle & _ & Hin).
  split_and!; [done|done|]. intros x Hx Hgt. apply Hin; [done|done|].
  etrans; [|exact Hle]. by eapply strict_sorted_last.
Qed.

End Runs.
