(* ===== verification/ArchiveToy.v ===== *)
(** * ArchiveToy: an archive in a toy store

    A digest that tells one stream from the others, a codec, and a run of an archiver. *)

From S2P Require Import Prelude Text Wire Client Placement Manifest Cohorts NodeLog NodeReplay NodeOps NodeSafety NodeContract NodeToy Evidence EvidenceSafety ObjectStore Archive ArchiveSafety.

#[local] Open Scope N_scope.

Fixpoint repeat_string (c : string) (n : nat) : string :=
  match n with O => "" | S n => c +:+ repeat_string c n end.

(** 64 hexadecimal digits. *)
#[local] Instance digest_host : ManifestHost := {|
  sha256_hex bs := repeat_string (if bool_decide (bs = as_bytes "t/s") then "a" else "0") 64;
  segments_json _ := [];
  url_parse _ := None;
|}.

Definition head_code (h : ArchiveHead) : string * N * N * list (N * N * string * string) :=
  (ah_stream h, ah_archived_lsn h, ah_writer_epoch h,
   (λ r, (sr_first_lsn r, sr_last_lsn r, sr_key r, sr_digest r)) <$> ah_segments h).

Definition head_of_code (c : string * N * N * list (N * N * string * string)) : ArchiveHead :=
  let '(s, l, e, refs) := c in
  mkHead s l e ((λ '(f, l, k, d), mkSegmentRef f l k d) <$> refs).

Definition segment_code (g : Segment) : string * N * N * list record_code :=
  (as_stream g, as_first_lsn g, as_last_lsn g, record_to_code <$> as_records g).

Definition segment_of_code (c : string * N * N * list record_code) : Segment :=
  let '(s, f, l, rs) := c in mkArchiveSegment s f l (record_of_code <$> rs).

#[local] Instance archive_host : ArchiveHost := {|
  head_to_vec h := spell (encode (head_code h));
  head_from_slice bs := match decode (unspell bs) with Some c => Ok (head_of_code c) | None => Err "head" end;
  segment_to_vec g := spell (encode (segment_code g));
  segment_from_slice bs := match decode (unspell bs) with Some c => Ok (segment_of_code c) | None => Err "segment" end;
  path_from k := k;
|}.

#[local] Instance archive_host_laws : ArchiveHostLaws.
Proof.
  split.
  - intros h. cbn. rewrite unspell_spell, decode_encode. destruct h as [s l e refs]. cbn. do 2 f_equal.
    rewrite <- list_fmap_compose. rewrite <- (list_fmap_id refs) at 2. apply list_fmap_ext. by intros ? [] ?.
  - intros g. cbn. rewrite unspell_spell, decode_encode. destruct g as [s f l rs]. cbn. do 2 f_equal.
    rewrite <- list_fmap_compose. rewrite <- (list_fmap_id rs) at 2. apply list_fmap_ext. by intros ? [] ?.
Qed.

Definition z_archive : OpaqueArchive := mkArchive "replica" 2.

Lemma z_host : host_ok z_archive "t/s".
Proof.
  split.
  - intros bs. unfold sha256_hex, digest_host. by case_bool_decide; vm_compute.
  - done.
  - intros s Hs. unfold stream_digest, sha256_hex, digest_host in Hs.
    rewrite (bool_decide_eq_true_2 (as_bytes "t/s" = _)) in Hs by done.
    case_bool_decide as Heq; [by apply (inj as_bytes)|]. by vm_compute in Hs.
Qed.

Definition z_records : list EncryptedRecord := [sample_record 1; sample_record 2; sample_record 3].

Definition z_empty : @Archivers ToyStore (list byte) := mkArchivers ∅ [].

Lemma z_start : archive_initial z_archive "t/s" z_empty.
Proof. by split. Qed.

Lemma z_inv : archive_inv z_archive "t/s" z_empty [].
Proof.
  split; [done|split; [constructor|done|constructor]|constructor|by intros ? ?%elem_of_nil..].
Qed.

Lemma archive_committed_terminates_witness :
  ∃ r s' batches', archive_committed z_archive 4 (λ _, (StoreDone, StoreDone)) (∅ : ToyStore) z_records = Some (r, s')
    ∧ archive_inv z_archive "t/s" (mkArchivers s' []) batches'
    ∧ ∀ n, r = Ok n → 3 ≤ n ∧ sample_record 3 ∈ concat batches'.
Proof.
  destruct (archive_committed_terminates z_archive "t/s" z_host (λ _, (StoreDone, StoreDone)) (∅ : ToyStore) []
    (sample_record 1) [sample_record 2; sample_record 3] (sample_record 3) 4) as (r & s' & b & Hl & Hi & _ & Hok).
  - by vm_compute.
  - exact z_inv.
  - repeat constructor; by vm_compute.
  - reflexivity.
  - reflexivity.
  - vm_compute. lia.
  - exists r, s', b. split; [exact Hl|]. split; [exact Hi|]. intros n Hn.
    destruct (Hok n Hn) as (_ & Hle & Hin). split; [exact Hle|]. apply Hin; [right; right; left|vm_compute; reflexivity].
Defined.

(** The call succeeds, and what it archived is read back. *)
Example archive_round_trip :
  (λ o, (λ r : result ArchiveError N * ToyStore, (r.1, archived_lsn z_archive (store_get r.2) "t/s",
           archive_recover z_archive (store_get r.2) "t/s" 1)) <$> o)
    (archive_committed z_archive 4 (λ _, (StoreDone, StoreDone)) (∅ : ToyStore) z_records)
  = Some (Ok 3, Ok 3, Ok [sample_record 2; sample_record 3]).
Proof. vm_compute. reflexivity. Qed.

(** One turn, request by request. *)
Definition z_batch : list EncryptedRecord := [sample_record 1; sample_record 2].
Definition z_task : @Task (list byte) := mkTask "t/s" (empty_head "t/s") None z_batch None.
Definition z_s1 : ToyStore := (put_segment z_archive StoreDone (∅ : ToyStore) "t/s" z_batch).2.
Definition z_ref : SegmentRef := batch_ref z_archive "t/s" z_batch.
Definition z_s2 : ToyStore :=
  (put_head z_archive StoreDone z_s1 (next_head (empty_head "t/s") z_ref z_batch) None).2.

Lemma z_stored : put_segment z_archive StoreDone (∅ : ToyStore) "t/s" z_batch = (Ok z_ref, z_s1).
Proof.
  transitivity ((put_segment z_archive StoreDone (∅ : ToyStore) "t/s" z_batch).1, z_s1);
    [apply surjective_pairing|].
  assert ((put_segment z_archive StoreDone (∅ : ToyStore) "t/s" z_batch).1 = Ok z_ref) as ->; [|reflexivity].
  vm_compute. reflexivity.
Qed.

Lemma z_run : rtc (archive_step z_archive) z_empty (mkArchivers z_s2 []).
Proof.
  eapply rtc_l; [apply (av_load z_archive ∅ [] "t/s" z_records (empty_head "t/s") None z_batch)|].
  - vm_compute; reflexivity.
  - repeat (apply Forall_cons; split; [vm_compute; reflexivity|]). apply Forall_nil. exact I.
  - vm_compute; reflexivity.
  - vm_compute; reflexivity.
  - discriminate.
  - eapply rtc_l; [exact (av_segment z_archive StoreDone ∅ [] z_task [] (Ok z_ref) z_s1 eq_refl z_stored)|].
    apply rtc_once.
    exact (av_head z_archive StoreDone z_s1 [] (with_ref z_task z_ref) [] z_ref _ z_s2 eq_refl
             (surjective_pairing _)).
Qed.

Lemma archive_refines_log_witness :
  ∃ log, chain 1 0 log ∧ archived_lsn z_archive (store_get z_s2) "t/s" = Ok (len log) ∧ len log = 2.
Proof.
  destruct (archive_refines_log z_archive "t/s" z_host z_empty (mkArchivers z_s2 []) z_start z_run)
    as (log & Hc & _ & Hl & _). exists log. split; [exact Hc|]. split; [exact Hl|].
  cbn [av_store] in Hl. assert (archived_lsn z_archive (store_get z_s2) "t/s" = Ok 2) as H2 by (vm_compute; reflexivity).
  rewrite H2 in Hl. injection Hl as <-. reflexivity.
Defined.
