(* ===== verification/ControlHead.v ===== *)
(** * ControlHead: the object-store control head and its handoff claims

    [crates/walleye-bitr-server/src/control_head.rs]: the validation of a head, and the
    operations of [ControlHeadStore] that create it, replace it by a conditional write,
    and claim, advance, publish and complete the handoff of a stream inside it.

    An operation awaits the object store between its checks, and other coordinators run
    meanwhile: it is a tree of requests ([Requests]), not a function of one store state.
    [run_requests] runs a tree alone; the concurrent runs are in [ControlHeadSafety].
    serde_json, SHA-256 and the object store are parameters. *)

From S2P Require Import Prelude Text Wire Client Placement Manifest Cohorts ControlDoc Control ObjectStore.
From stdpp Require Import pretty.

#[local] Open Scope N_scope.

Definition CONTROL_HEAD_VERSION : N := 1.
Definition MAX_CONTROL_HEAD_BYTES : N := 32 * 1024 * 1024.
Definition MAX_OPERATION_ID_BYTES : N := 512.
Definition MAX_COMPLETED_OPERATIONS : N := 100000.
Definition MAX_PREFIX_BYTES : N := 1024.
Definition MAX_PENDING_HANDOFFS : N := 4096.
Definition MAX_STREAM_NAME_BYTES : N := 1024.

Inductive ControlHeadError :=
| HeadInvalid (reason : string)
| HeadObjectStore (e : StoreError)
| HeadJson (reason : string)
| HeadAlreadyExists
| HeadPrecondition
| HeadSourceMarkerMismatch
| HeadOperationConflict (operation_id : string)
| HeadPendingHandoffConflict (stream operation_id : string)
| HeadMissingEtag.

#[global] Instance StoreError_eq_dec : EqDecision StoreError.
Proof. solve_decision. Defined.

#[global] Instance ControlHeadError_eq_dec : EqDecision ControlHeadError.
Proof. solve_decision. Defined.

#[global] Instance PendingHandoffStage_eq_dec : EqDecision PendingHandoffStage.
Proof. solve_decision. Defined.

#[global] Instance PendingHandoffDescriptor_eq_dec : EqDecision PendingHandoffDescriptor.
Proof. solve_decision. Defined.

#[global] Instance ControlMetadata_eq_dec : EqDecision ControlMetadata.
Proof. solve_decision. Defined.

#[global] Instance ControlOperationReceipt_eq_dec : EqDecision ControlOperationReceipt.
Proof. solve_decision. Defined.

#[global] Instance ControlHead_eq_dec : EqDecision ControlHead.
Proof. solve_decision. Defined.

(** A loaded head with the identity its next conditional write needs. *)
Record ControlHeadSnapshot (V : Type) := mkSnapshot { sn_head : ControlHead; sn_version : V }.
Arguments mkSnapshot {V} _ _.
Arguments sn_head {V} _.
Arguments sn_version {V} _.

(** serde_json of a head. *)
Class HeadCodec := {
  control_head_to_vec : ControlHead → list byte;
  control_head_from_slice : list byte → result string ControlHead;
}.

Class HeadCodecLaws `{HeadCodec} := {
  control_head_back h : control_head_from_slice (control_head_to_vec h) = Ok h;
}.

(** Whether an [UpdateVersion] carries an ETag. *)
Class Etag (V : Type) := { has_etag : V → bool }.

(** [to_string] of a [ReplicaError]. *)
Definition replica_error_text (e : ReplicaError) : string :=
  match e with
  | QuorumUnavailable => "replica quorum unavailable"
  | GatewayUnavailable => "replica quorum gateway unavailable"
  | GatewayUnauthorized => "replica quorum gateway rejected credentials"
  | GatewayRejected status => "replica quorum gateway returned HTTP " +:+ pretty status
  | WriterFenced => "writer epoch is fenced"
  | Encryption => "record encryption failed"
  | NodeUnavailable => "replica node unavailable"
  | LsnConflict => "LSN conflicts with an existing record"
  | InvalidWatermark lsn committed_lsn =>
    "record LSN " +:+ pretty lsn +:+ " is not after committed LSN " +:+ pretty committed_lsn
  | NodeStorage reason => "replica storage failed: " +:+ reason
  | CapacityExceeded cohort_id requested_bytes max_append_bytes =>
    "replica cohort " +:+ pretty cohort_id +:+ " append is too large: " +:+ pretty requested_bytes
      +:+ " bytes exceeds " +:+ pretty max_append_bytes
  | Protocol reason => "replica gateway protocol error: " +:+ reason
  | RecoveryGap expected_lsn received_lsn =>
    "replica recovery expected LSN " +:+ pretty expected_lsn +:+ ", received " +:+ pretty received_lsn
  | RecoveryStreamMismatch expected_stream received_stream =>
    "replica recovery returned stream `" +:+ received_stream +:+ "` for `" +:+ expected_stream +:+ "`"
  | CommitCertificateMissing => "replica commit certificate is required for watermark recovery"
  | RecoveryIncomplete expected_lsn committed_lsn =>
    "replica recovery incomplete before committed LSN " +:+ pretty committed_lsn
      +:+ "; expected LSN " +:+ pretty expected_lsn
  | RecoveryAmbiguous lsn committed_nodes quorum =>
    "replica recovery found ambiguous LSN " +:+ pretty lsn +:+ ": " +:+ pretty committed_nodes
      +:+ " durable commit markers, quorum is " +:+ pretty quorum
  end.

(** ** Handoff claims *)

Definition rank (stage : PendingHandoffStage) : N :=
  match stage with Prepared => 0 | SourceFenced => 1 | ArchiveVerified => 2 | RoutePublished => 3 end.

Definition operation_suffix (stage : PendingHandoffStage) : string :=
  match stage with
  | Prepared => "prepared"
  | SourceFenced => "source-fenced"
  | ArchiveVerified => "archive-verified"
  | RoutePublished => "route-published"
  end.

Definition same_member_incarnation (left right : DurableMember) : bool :=
  bool_decide (dm_id left = dm_id right)
  && bool_decide (dm_url left = dm_url right)
  && (dm_cohort_id left =? dm_cohort_id right)
  && bool_decide (dm_name left = dm_name right)
  && bool_decide (dm_machine_id left = dm_machine_id right)
  && bool_decide (dm_volume_id left = dm_volume_id right)
  && (dm_ordinal left =? dm_ordinal right)
  && bool_decide (dm_tier left = dm_tier right)
  && (dm_max_append_bytes left =? dm_max_append_bytes right).

(** The part of a claim its operation may never change. *)
Definition immutable_eq (a b : PendingHandoffDescriptor) : bool :=
  bool_decide (ph_operation_id a = ph_operation_id b)
  && bool_decide (ph_stream a = ph_stream b)
  && bool_decide (ph_source a = ph_source b)
  && (ph_target_cohort_id a =? ph_target_cohort_id b)
  && forallb (λ '(a1, b1), same_member_incarnation a1 b1)
       (zip (ph_target_members a) (ph_target_members b))
  && bool_decide (ph_target_member_hash a = ph_target_member_hash b)
  && bool_decide (ph_target_tier a = ph_target_tier b)
  && (ph_target_max_append_bytes a =? ph_target_max_append_bytes b)
  && (ph_target_writer_epoch a =? ph_target_writer_epoch b)
  && bool_decide (ph_transition_placement a = ph_transition_placement b)
  && (ph_successor_placement_epoch a =? ph_successor_placement_epoch b)
  && (is_none (ph_successor_placement a)
      || bool_decide (ph_successor_placement b = ph_successor_placement a))
  && (is_none (ph_successor a) || bool_decide (ph_successor b = ph_successor a)).

Definition validate_placement (placement : PlacementEpoch) (label : string)
    : result ControlHeadError unit :=
  if (pe_epoch placement =? 0) || blank (pe_route_digest placement)
  then Err (HeadInvalid ("pending handoff " +:+ label +:+ " placement is incomplete"))
  else Ok tt.

(** The checks of [PendingHandoffDescriptor::validate] on a claim whose archive watermark is
    known. *)
Definition validate_archived (d : PendingHandoffDescriptor) : result ControlHeadError unit :=
  successor ← ok_or (ph_successor d) (HeadInvalid "archived handoff has no successor route");
  archived_lsn ← ok_or (ph_archived_lsn d) (HeadInvalid "archived handoff has no archive watermark");
  successor_placement ← ok_or (ph_successor_placement d)
                          (HeadInvalid "archived handoff has no successor placement");
  if negb (sg_cohort_id successor =? ph_target_cohort_id d)
     || negb (bool_decide (sg_member_ids successor = dm_id <$> ph_target_members d))
     || negb (bool_decide (sg_member_hash successor = ph_target_member_hash d))
     || negb (sg_writer_epoch successor =? ph_target_writer_epoch d)
     || negb (sg_placement_epoch successor =? pe_epoch successor_placement)
     || negb (pe_epoch successor_placement =? ph_successor_placement_epoch d)
     || negb (sg_start_lsn successor
              =? N.max (saturating_add archived_lsn 1) (sg_start_lsn (ph_source d)))
     || negb (is_none (sg_end_lsn successor))
  then Err (HeadInvalid "archived handoff successor route does not match its claim")
  else Ok tt.

(** [PendingHandoffDescriptor::validate]. *)
Definition validate_handoff (d : PendingHandoffDescriptor) (map_key : option string)
    : result ControlHeadError unit :=
  let archived := rank ArchiveVerified <=? rank (ph_stage d) in
  if match map_key with Some key => negb (bool_decide (key = ph_stream d)) | None => false end then
    Err (HeadInvalid "pending handoff map key does not match stream")
  else if blank (ph_operation_id d) || (MAX_OPERATION_ID_BYTES <? str_len (ph_operation_id d)) then
    Err (HeadInvalid "pending handoff operation id is empty or too long")
  else if blank (ph_stream d) || (MAX_STREAM_NAME_BYTES <? str_len (ph_stream d)) then
    Err (HeadInvalid "pending handoff stream is empty or too long")
  else if negb (len (ph_target_members d) =? REPLICATION_FACTOR) || blank (ph_target_member_hash d) then
    Err (HeadInvalid "pending handoff successor cohort is incomplete")
  else if unordered_ids (dm_id <$> ph_target_members d)
          || existsb (λ m, blank (dm_id m) || blank (dm_url m)
                           || negb (dm_cohort_id m =? ph_target_cohort_id d)) (ph_target_members d) then
    Err (HeadInvalid "pending handoff successor members are not deterministic")
  else if (sg_start_lsn (ph_source d) =? 0) || negb (is_none (sg_end_lsn (ph_source d)))
          || negb (len (sg_member_ids (ph_source d)) =? REPLICATION_FACTOR)
          || blank (sg_member_hash (ph_source d)) || unordered_ids (sg_member_ids (ph_source d)) then
    Err (HeadInvalid "pending handoff source route is not an open complete range")
  else if (sg_cohort_id (ph_source d) =? ph_target_cohort_id d)
          || negb (ph_target_writer_epoch d =? sg_writer_epoch (ph_source d)) then
    Err (HeadInvalid "pending handoff source and successor identities conflict")
  else
    _ ← validate_placement (ph_transition_placement d) "transition";
    if ph_successor_placement_epoch d =? 0 then
      Err (HeadInvalid "pending handoff successor placement epoch is zero")
    else if (pe_epoch (ph_transition_placement d) <=? sg_placement_epoch (ph_source d))
            || (ph_successor_placement_epoch d <=? pe_epoch (ph_transition_placement d)) then
      Err (HeadInvalid "pending handoff placement epochs are not strictly increasing")
    else if negb archived
            && (negb (is_none (ph_archived_lsn d)) || negb (is_none (ph_successor_placement d))) then
      Err (HeadInvalid "pending handoff archive watermark is ahead of its stage")
    else if archived && (is_none (ph_archived_lsn d) || is_none (ph_successor_placement d)) then
      Err (HeadInvalid "pending handoff archive stage has no watermark")
    else if archived then validate_archived d
    else if negb (is_none (ph_successor d)) then
      Err (HeadInvalid "unpublished handoff carries a successor route")
    else Ok tt.

Definition head_member_active (status : MemberStatus) : bool :=
  match status with MActive | MDraining => true | _ => false end.

Section ControlHead.
Context `{ManifestHost, MetadataJson, HeadCodec}.

(** The member-set digest of a route. *)
Definition member_hash (members : list DurableMember) : string :=
  sha256_hex (as_bytes "lakeday-cloud/cohort-members/v1" ++ [x00]
    ++ concat ((λ m, as_bytes (dm_id m) ++ [x00] ++ as_bytes (dm_url m) ++ [x00]) <$> members)).

Definition pending_operation_id (operation_id stream phase : string) : result ControlHeadError string :=
  if blank operation_id || blank stream || blank phase then
    Err (HeadInvalid "pending handoff operation id, stream, and phase must not be empty")
  else Ok ("handoff:" +:+ phase +:+ ":"
           +:+ sha256_hex (as_bytes "lakeday-cloud/pending-handoff/v1" ++ [x00] ++ as_bytes operation_id
                           ++ [x00] ++ as_bytes stream ++ [x00] ++ as_bytes phase)).

(** ** The metadata of a head *)

(** [ControlSourceMarker::validate]. *)
Definition validate_source_marker (m : ControlSourceMarker) : result ControlHeadError unit :=
  if blank (cs_authority m) || (MAX_SOURCE_AUTHORITY_BYTES <? str_len (cs_authority m)) then
    Err (HeadInvalid "control source authority is empty or too long")
  else if (cs_authority_epoch m =? 0) || (cs_revision m =? 0) then
    Err (HeadInvalid "control source authority epoch and revision must be nonzero")
  else if blank (cs_digest m) || (MAX_SOURCE_DIGEST_BYTES <? str_len (cs_digest m)) then
    Err (HeadInvalid "control source digest is empty or too long")
  else Ok tt.

Definition metadata_member (entry : string * DurableMember) : result ControlHeadError unit :=
  if blank entry.1 || negb (bool_decide (dm_id entry.2 = entry.1))
  then Err (HeadInvalid "control member map key does not match member identity") else Ok tt.

(** One member of a cohort, counted. *)
Definition metadata_cohort_member (meta : ControlMetadata) (id : N) (counts : gmap string N)
    (member_id : string) : result ControlHeadError (gmap string N) :=
  member ← ok_or (cm_members meta !! member_id)
             (HeadInvalid "control cohort references an unknown member");
  if negb (dm_cohort_id member =? id) then
    Err (HeadInvalid "control member and cohort identities disagree")
  else Ok (<[member_id := default 0 (counts !! member_id) + 1]> counts).

(** One cohort.  A list whose sorted, deduplicated copy is shorter has a duplicate. *)
Definition metadata_cohort (meta : ControlMetadata) (counts : gmap string N)
    (entry : N * DurableCohort) : result ControlHeadError (gmap string N) :=
  let '(id, cohort) := entry in
  if negb (id =? dc_id cohort) || bool_decide (dc_members cohort = []) then
    Err (HeadInvalid "control cohort map key does not match cohort identity")
  else if unordered_ids (dc_members cohort) then
    Err (HeadInvalid "control cohort members are not in deterministic order")
  else if negb (bool_decide (NoDup (dc_members cohort))) then
    Err (HeadInvalid "control cohort contains duplicate member identities")
  else try_fold (metadata_cohort_member meta id) counts (dc_members cohort).

Definition metadata_segment (meta : ControlMetadata) (segment : StreamSegment)
    : result ControlHeadError unit :=
  cohort ← ok_or (cm_cohorts meta !! sg_cohort_id segment)
             (HeadInvalid "control manifest references an unknown segment cohort");
  if negb (bool_decide (sg_member_ids segment = []))
     && negb (bool_decide (sg_member_ids segment = dc_members cohort))
  then Err (HeadInvalid "control manifest segment member set differs from its cohort") else Ok tt.

(** [ControlMetadata::validate]. *)
Definition validate_metadata (meta : ControlMetadata) : result ControlHeadError unit :=
  if cm_membership_epoch meta =? 0 then
    Err (HeadInvalid "control membership epoch must be nonzero")
  else
    _ ← map_err (λ e, HeadInvalid (replica_error_text e)) (validate_manifest (cm_manifest meta));
    _ ← try_fold (λ _ entry, metadata_member entry) tt (sbtree_entries (cm_members meta));
    counts ← try_fold (metadata_cohort meta) ∅ (nbtree_entries (cm_cohorts meta));
    if existsb (λ member, negb (bool_decide (counts !! dm_id member = Some 1)))
         (sbtree_values (cm_members meta)) then
      Err (HeadInvalid "control member is not assigned to exactly one cohort")
    else if negb (rm_cohort_id (cm_manifest meta) =? 0)
            && is_none (cm_cohorts meta !! rm_cohort_id (cm_manifest meta)) then
      Err (HeadInvalid "control manifest references an unknown default cohort")
    else
      _ ← try_fold (λ _ segment, metadata_segment meta segment) tt
            (concat (sbtree_values (rm_stream_segments (cm_manifest meta))));
      if MAX_PENDING_HANDOFFS <? N.of_nat (size (cm_pending_handoffs meta)) then
        Err (HeadInvalid "too many pending stream handoffs")
      else
        try_fold (λ _ '(stream, descriptor), validate_handoff descriptor (Some stream)) tt
          (sbtree_entries (cm_pending_handoffs meta)).

(** ** A head *)

Definition receipt_of (h : ControlHead) : ControlOperationReceipt :=
  mkReceipt (ch_authority_epoch h) (ch_revision h) (ch_metadata_digest h).

Definition bad_receipt (h : ControlHead) (receipt : ControlOperationReceipt) : bool :=
  (cr_authority_epoch receipt =? 0) || (cr_revision receipt =? 0)
  || (ch_authority_epoch h <? cr_authority_epoch receipt) || (ch_revision h <? cr_revision receipt)
  || blank (cr_metadata_digest receipt).

(** [ControlHead::validate]. *)
Definition validate_head (h : ControlHead) : result ControlHeadError unit :=
  if negb (ch_version h =? CONTROL_HEAD_VERSION) then
    Err (HeadInvalid ("unsupported control-head version " +:+ pretty (ch_version h)))
  else if (ch_authority_epoch h =? 0) || (ch_revision h =? 0) then
    Err (HeadInvalid "control-head authority epoch and revision must be nonzero")
  else if blank (ch_operation_id h) || (MAX_OPERATION_ID_BYTES <? str_len (ch_operation_id h)) then
    Err (HeadInvalid "control-head operation id is empty or too long")
  else if bool_decide (ch_completed_operations h = ∅)
          || (MAX_COMPLETED_OPERATIONS <? N.of_nat (size (ch_completed_operations h))) then
    Err (HeadInvalid "control-head completed operation receipts are empty or too large")
  else
    current_receipt ← ok_or (ch_completed_operations h !! ch_operation_id h)
                        (HeadInvalid "control-head is missing its current operation receipt");
    if negb (bool_decide (current_receipt = receipt_of h)) then
      Err (HeadInvalid "control-head current operation receipt does not match the head")
    else if existsb (bad_receipt h) (sbtree_values (ch_completed_operations h)) then
      Err (HeadInvalid "control-head contains an invalid completed operation receipt")
    else
      _ ← validate_source_marker (ch_source_marker h);
      if (ch_authority_epoch h <? cs_authority_epoch (ch_source_marker h))
         || (ch_revision h <? cs_revision (ch_source_marker h)) then
        Err (HeadInvalid "control source marker is newer than the control head")
      else
        _ ← validate_metadata (ch_metadata h);
        if negb (bool_decide (ch_metadata_digest h = metadata_digest (ch_metadata h))) then
          Err (HeadInvalid "control-head metadata digest does not match its payload")
        else Ok tt.

(** [ControlHead::new]. *)
Definition control_head_new (authority_epoch revision : N) (operation_id : string)
    (source_marker : ControlSourceMarker) (meta : ControlMetadata) : result ControlHeadError ControlHead :=
  let digest := metadata_digest meta in
  let head := mkHead CONTROL_HEAD_VERSION authority_epoch revision operation_id
                {[ operation_id := mkReceipt authority_epoch revision digest ]}
                source_marker digest meta in
  _ ← validate_head head; Ok head.

Definition set_receipts (h : ControlHead) (receipts : gmap string ControlOperationReceipt) : ControlHead :=
  mkHead (ch_version h) (ch_authority_epoch h) (ch_revision h) (ch_operation_id h) receipts
    (ch_source_marker h) (ch_metadata_digest h) (ch_metadata h).

(** One receipt of the published head. *)
Definition merge_receipt (receipts : gmap string ControlOperationReceipt)
    (entry : string * ControlOperationReceipt) : result ControlHeadError (gmap string ControlOperationReceipt) :=
  let '(operation_id, receipt) := entry in
  match receipts !! operation_id with
  | Some existing =>
    if bool_decide (existing = receipt) then Ok receipts else Err (HeadOperationConflict operation_id)
  | None => Ok (<[operation_id := receipt]> receipts)
  end.

Definition merge_completed_operations (h current : ControlHead) : result ControlHeadError ControlHead :=
  receipts ← try_fold merge_receipt (ch_completed_operations h)
               (sbtree_entries (ch_completed_operations current));
  let h := set_receipts h (<[ch_operation_id h := receipt_of h]> receipts) in
  _ ← validate_head h; Ok h.

Definition receipt_matches_head (receipt : ControlOperationReceipt) (h : ControlHead) : bool :=
  (cr_authority_epoch receipt =? ch_authority_epoch h) && (cr_revision receipt =? ch_revision h)
  && bool_decide (cr_metadata_digest receipt = ch_metadata_digest h).

Definition validate_size_and_head (h : ControlHead) : result ControlHeadError unit :=
  _ ← validate_head h;
  if MAX_CONTROL_HEAD_BYTES <? len (control_head_to_vec h) then
    Err (HeadInvalid ("control-head payload exceeds " +:+ pretty MAX_CONTROL_HEAD_BYTES +:+ " bytes"))
  else Ok tt.

Definition validate_expected {V} (expected current : ControlHeadSnapshot V) : result ControlHeadError unit :=
  if negb (bool_decide (ch_source_marker (sn_head expected) = ch_source_marker (sn_head current))) then
    Err HeadSourceMarkerMismatch
  else if negb (bool_decide (sn_head expected = sn_head current)) then Err HeadPrecondition
  else Ok tt.

Definition validate_transition (current next : ControlHead) : result ControlHeadError unit :=
  let succ_epoch := saturating_add (ch_authority_epoch current) 1 in
  if negb (ch_revision next =? saturating_add (ch_revision current) 1) then Err HeadPrecondition
  else if ch_authority_epoch next <? ch_authority_epoch current then Err HeadPrecondition
  else if (ch_authority_epoch current <? ch_authority_epoch next)
          && negb (ch_authority_epoch next =? succ_epoch) then Err HeadPrecondition
  else if (ch_authority_epoch next =? ch_authority_epoch current)
          && negb (bool_decide (ch_source_marker next = ch_source_marker current)) then
    Err HeadSourceMarkerMismatch
  else if (ch_authority_epoch next =? succ_epoch)
          && (negb (cs_authority_epoch (ch_source_marker next) =? ch_authority_epoch current)
              || negb (cs_revision (ch_source_marker next) =? ch_revision current)
              || negb (bool_decide (cs_digest (ch_source_marker next) = ch_metadata_digest current))) then
    Err HeadSourceMarkerMismatch
  else Ok tt.

Definition head_with_metadata (current : ControlHead) (meta : ControlMetadata) (operation_id : string)
    : result ControlHeadError ControlHead :=
  revision ← ok_or (checked_add (ch_revision current) 1) (HeadInvalid "control-head revision exhausted");
  control_head_new (ch_authority_epoch current) revision operation_id (ch_source_marker current) meta.

Definition set_pending (meta : ControlMetadata) (pending : gmap string PendingHandoffDescriptor)
    : ControlMetadata :=
  mkMetadata (cm_membership_epoch meta) (cm_members meta) (cm_cohorts meta) (cm_manifest meta) pending.

(** One claim of the published head, carried over. *)
Definition preserve_claim (pending : gmap string PendingHandoffDescriptor)
    (entry : string * PendingHandoffDescriptor)
    : result ControlHeadError (gmap string PendingHandoffDescriptor) :=
  let '(stream, existing) := entry in
  match pending !! stream with
  | Some candidate =>
    if bool_decide (candidate = existing) then Ok pending
    else Err (HeadPendingHandoffConflict stream (ph_operation_id existing))
  | None => Ok (<[stream := existing]> pending)
  end.

(** [preserve_pending_handoffs], and the refreshed digest and receipt of [update_inner]. *)
Definition preserve_pending_handoffs (current next : ControlHead) : result ControlHeadError ControlHead :=
  pending ← try_fold preserve_claim (cm_pending_handoffs (ch_metadata next))
              (sbtree_entries (cm_pending_handoffs (ch_metadata current)));
  let meta := set_pending (ch_metadata next) pending in
  let digest := metadata_digest meta in
  let receipts := alter (λ r, mkReceipt (cr_authority_epoch r) (cr_revision r) digest)
                    (ch_operation_id next) (ch_completed_operations next) in
  Ok (mkHead (ch_version next) (ch_authority_epoch next) (ch_revision next) (ch_operation_id next)
        receipts (ch_source_marker next) digest meta).

(** ** A claim against the members, cohorts and routes of a head *)

Definition source_cohort_allowed (stage : PendingHandoffStage) (status : CohortStatus) : bool :=
  match status with
  | CActive | CDraining => true
  | CRetired => bool_decide (stage = RoutePublished)
  | CJoining => false
  end.

Definition source_member_allowed (stage : PendingHandoffStage) (cohort : CohortStatus)
    (status : MemberStatus) : bool :=
  if bool_decide (stage = RoutePublished) then
    (bool_decide (cohort = CRetired) && bool_decide (status = MRemoved))
    || (negb (bool_decide (cohort = CRetired)) && head_member_active status)
  else head_member_active status.

Definition check_source_member (meta : ControlMetadata) (d : PendingHandoffDescriptor)
    (cohort : CohortStatus) (member_id : string) : result ControlHeadError unit :=
  member ← ok_or (cm_members meta !! member_id) HeadPrecondition;
  if negb (source_member_allowed (ph_stage d) cohort (dm_status member))
     || negb (dm_cohort_id member =? sg_cohort_id (ph_source d))
  then Err HeadPrecondition else Ok tt.

Definition check_target_member (meta : ControlMetadata) (target : DurableMember)
    : result ControlHeadError unit :=
  match cm_members meta !! dm_id target with
  | Some member =>
    if same_member_incarnation member target
       && match dm_status member with MJoining | MActive => true | _ => false end
    then Ok tt else Err HeadPrecondition
  | None => Err HeadPrecondition
  end.

(** [iter().position]. *)
Definition position {A} (f : A → bool) (l : list A) : option nat := fst <$> list_find (λ x, f x = true) l.

(** The closed range a published handoff left behind. *)
Definition is_closed_source (d : PendingHandoffDescriptor) (candidate : StreamSegment) : bool :=
  (sg_start_lsn candidate =? sg_start_lsn (ph_source d))
  && (sg_cohort_id candidate =? sg_cohort_id (ph_source d))
  && bool_decide (sg_member_ids candidate = sg_member_ids (ph_source d))
  && bool_decide (sg_member_hash candidate = sg_member_hash (ph_source d))
  && (sg_writer_epoch candidate =? sg_writer_epoch (ph_source d))
  && (sg_placement_epoch candidate =? sg_placement_epoch (ph_source d))
  && bool_decide (sg_end_lsn candidate = ph_archived_lsn d).

(** The routes of the stream: the source is still open, or the successor follows it. *)
Definition check_claimed_ranges (meta : ControlMetadata) (d : PendingHandoffDescriptor)
    (allow_published : bool) : result ControlHeadError unit :=
  ranges ← ok_or (rm_stream_segments (cm_manifest meta) !! ph_stream d) HeadPrecondition;
  if negb (bool_decide (ph_stage d = RoutePublished)) then
    if negb (bool_decide (last ranges = Some (ph_source d))) then Err HeadPrecondition else Ok tt
  else if negb allow_published then Err HeadPrecondition
  else
    successor ← ok_or (ph_successor d) HeadPrecondition;
    successor_index ← ok_or (position (λ c, bool_decide (c = successor)) ranges) HeadPrecondition;
    if match ph_archived_lsn d with
       | Some archived => sg_start_lsn (ph_source d) <=? archived
       | None => false
       end then
      source_index ← ok_or (position (is_closed_source d) ranges) HeadPrecondition;
      if negb (Nat.eqb (source_index + 1) successor_index) then Err HeadPrecondition else Ok tt
    else if negb (sg_start_lsn successor =? sg_start_lsn (ph_source d)) then Err HeadPrecondition
    else Ok tt.

Definition validate_handoff_against_metadata (meta : ControlMetadata) (d : PendingHandoffDescriptor)
    (allow_published : bool) : result ControlHeadError unit :=
  source_cohort ← ok_or (cm_cohorts meta !! sg_cohort_id (ph_source d))
                    (HeadInvalid "pending handoff source cohort is absent");
  if negb (bool_decide (dc_members source_cohort = sg_member_ids (ph_source d)))
     || negb (source_cohort_allowed (ph_stage d) (dc_status source_cohort))
  then Err HeadPrecondition
  else
    _ ← try_fold (λ _ id, check_source_member meta d (dc_status source_cohort) id) tt
          (sg_member_ids (ph_source d));
    let source_members := omap (λ id, cm_members meta !! id) (sg_member_ids (ph_source d)) in
    if negb (len source_members =? REPLICATION_FACTOR)
       || negb (bool_decide (member_hash source_members = sg_member_hash (ph_source d)))
    then Err HeadPrecondition
    else
      target_cohort ← ok_or (cm_cohorts meta !! ph_target_cohort_id d)
                        (HeadInvalid "pending handoff target cohort is absent");
      if negb (bool_decide (dc_members target_cohort = dm_id <$> ph_target_members d))
         || negb (match dc_status target_cohort with CJoining | CActive => true | _ => false end)
         || negb (bool_decide (dc_tier target_cohort = ph_target_tier d))
         || negb (dc_max_append_bytes target_cohort =? ph_target_max_append_bytes d)
         || negb (bool_decide (member_hash (ph_target_members d) = ph_target_member_hash d))
      then Err HeadPrecondition
      else
        _ ← try_fold (λ _ target, check_target_member meta target) tt (ph_target_members d);
        check_claimed_ranges meta d allow_published.

(** ** Requests to the store *)

(** What an operation still does: return, or read or write the head and go on with the
    answer. *)
Inductive Requests (V E A : Type) : Type :=
| Return (r : result E A)
| GetHead (k : result StoreError (list byte * V) → Requests V E A)
| PutHead (bytes : list byte) (mode : PutMode V) (k : result StoreError V → Requests V E A).

Arguments Return {V E A} r.
Arguments GetHead {V E A} k.
Arguments PutHead {V E A} bytes mode k.

(** Go on with what the operation returned, error or not. *)
Fixpoint settle {V E E' A B} (m : Requests V E A) (f : result E A → Requests V E' B) : Requests V E' B :=
  match m with
  | Return r => f r
  | GetHead k => GetHead (λ r, settle (k r) f)
  | PutHead bytes mode k => PutHead bytes mode (λ r, settle (k r) f)
  end.

#[global] Instance requests_bind V E : MBind (Requests V E) := λ A B f m,
  settle m (λ r, match r with Ok a => f a | Err e => Return (Err e) end).

Section Operations.
Context {V : Type} `{Etag V}.

Abbreviation Op := (Requests V ControlHeadError).
Abbreviation Snapshot := (ControlHeadSnapshot V).

(** What [load] makes of the object. *)
Definition read_head (bytes : list byte) (v : V) : result ControlHeadError Snapshot :=
  if MAX_CONTROL_HEAD_BYTES <? len bytes then
    Err (HeadInvalid ("control-head object exceeds " +:+ pretty MAX_CONTROL_HEAD_BYTES +:+ " bytes"))
  else if negb (has_etag v) then Err HeadMissingEtag
  else
    head ← map_err HeadJson (control_head_from_slice bytes);
    _ ← validate_head head;
    Ok (mkSnapshot head v).

Definition load : Op (option Snapshot) :=
  GetHead (λ r,
    match r with
    | Err NotFound => Return (Ok None)
    | Err e => Return (Err (HeadObjectStore e))
    | Ok (bytes, v) => Return (snapshot ← read_head bytes v; Ok (Some snapshot))
    end).

(** [load().await?.ok_or(Precondition)?]. *)
Definition load_present : Op Snapshot :=
  snapshot ← load; Return (ok_or snapshot HeadPrecondition).

Definition snapshot_from_put (head : ControlHead) (v : V) : result ControlHeadError Snapshot :=
  if negb (has_etag v) then Err HeadMissingEtag else Ok (mkSnapshot head v).

Definition create (head : ControlHead) : Op Snapshot :=
  _ ← Return (validate_size_and_head head);
  PutHead (control_head_to_vec head) Create (λ r,
    match r with
    | Ok v => Return (snapshot_from_put head v)
    | Err AlreadyExists =>
      current ← load_present;
      Return match ch_completed_operations (sn_head current) !! ch_operation_id head with
             | Some receipt =>
               if receipt_matches_head receipt head then Ok current
               else Err (HeadOperationConflict (ch_operation_id head))
             | None => Err HeadAlreadyExists
             end
    | Err e => Return (Err (HeadObjectStore e))
    end).

(** The conditional write of [update_inner], and its reconciliation of a lost race. *)
Definition put_next (expected : Snapshot) (next : ControlHead) : Op Snapshot :=
  PutHead (control_head_to_vec next) (Update (sn_version expected)) (λ r,
    match r with
    | Ok v => Return (snapshot_from_put next v)
    | Err Precondition =>
      latest ← load_present;
      Return match ch_completed_operations (sn_head latest) !! ch_operation_id next with
             | Some receipt => if receipt_matches_head receipt next then Ok latest else Err HeadPrecondition
             | None => Err HeadPrecondition
             end
    | Err e => Return (Err (HeadObjectStore e))
    end).

Definition update_inner (expected : Snapshot) (next : ControlHead) (preserve_pending : bool) : Op Snapshot :=
  current ← load_present;
  next ← Return (if preserve_pending then preserve_pending_handoffs (sn_head current) next else Ok next);
  match ch_completed_operations (sn_head current) !! ch_operation_id next with
  | Some receipt =>
    Return (if receipt_matches_head receipt next then Ok current
            else Err (HeadOperationConflict (ch_operation_id next)))
  | None =>
    next ← Return (
      _ ← validate_expected expected current;
      _ ← validate_transition (sn_head current) next;
      next ← merge_completed_operations next (sn_head current);
      _ ← validate_size_and_head next;
      Ok next);
    put_next expected next
  end.

Definition update (expected : Snapshot) (next : ControlHead) : Op Snapshot :=
  update_inner expected next true.

Definition update_exact (expected : Snapshot) (next : ControlHead) : Op Snapshot :=
  update_inner expected next false.

(** The next head of a claim operation, and its write. *)
Definition write_claim (current : Snapshot) (meta : ControlMetadata) (operation : string) : Op Snapshot :=
  next ← Return (head_with_metadata (sn_head current) meta operation);
  update_exact current next.

Definition claims (s : Snapshot) : gmap string PendingHandoffDescriptor :=
  cm_pending_handoffs (ch_metadata (sn_head s)).

(** The metadata of a head with one claim inserted. *)
Definition with_claim (s : Snapshot) (d : PendingHandoffDescriptor) : ControlMetadata :=
  set_pending (ch_metadata (sn_head s)) (<[ph_stream d := d]> (claims s)).

Definition completed (s : Snapshot) (operation : string) : bool :=
  negb (is_none (ch_completed_operations (sn_head s) !! operation)).

Definition claim_pending_handoff (expected : Snapshot) (d : PendingHandoffDescriptor) : Op Snapshot :=
  _ ← Return (validate_handoff d (Some (ph_stream d)));
  if negb (bool_decide (ph_stage d = Prepared)) then
    Return (Err (HeadInvalid "pending handoff claims must start in prepared stage"))
  else
    current ← load_present;
    claim_operation ← Return (pending_operation_id (ph_operation_id d) (ph_stream d) "claim");
    match claims current !! ph_stream d with
    | Some existing =>
      Return (if immutable_eq existing d then Ok current
              else Err (HeadPendingHandoffConflict (ph_stream d) (ph_operation_id existing)))
    | None =>
      if completed current claim_operation then Return (Err (HeadOperationConflict (ph_operation_id d)))
      else
        _ ← Return (validate_expected expected current);
        _ ← Return (validate_handoff_against_metadata (ch_metadata (sn_head current)) d false);
        write_claim current (with_claim current d) claim_operation
    end.

(** The replay of a phase that is not ahead of the claim. *)
Definition replay_phase (current : Snapshot) (existing d : PendingHandoffDescriptor) (operation : string)
    : result ControlHeadError Snapshot :=
  let exact_phase :=
    bool_decide (ph_archived_lsn d = ph_archived_lsn existing)
    && bool_decide (ph_successor d = ph_successor existing)
    && (is_none (ph_successor_placement d)
        || bool_decide (ph_successor_placement d = ph_successor_placement existing)) in
  if (rank (ph_stage d) <? rank (ph_stage existing)) && exact_phase then
    if completed current operation then Ok current else Err HeadPrecondition
  else if bool_decide (ph_stage d = ph_stage existing) then
    if exact_phase && completed current operation then Ok current
    else Err (HeadOperationConflict (ph_operation_id d))
  else Err HeadPrecondition.

Definition rebase_pending_handoff_advance (d : PendingHandoffDescriptor) (operation : string)
    (observed_claim : PendingHandoffDescriptor) : Op Snapshot :=
  latest ← load_present;
  match claims latest !! ph_stream d with
  | None => Return (Err HeadPrecondition)
  | Some latest_claim =>
    if negb (bool_decide (ph_operation_id latest_claim = ph_operation_id d)) then
      Return (Err (HeadPendingHandoffConflict (ph_stream d) (ph_operation_id latest_claim)))
    else if bool_decide (latest_claim = d) && completed latest operation then Return (Ok latest)
    else if negb (bool_decide (latest_claim = observed_claim)) then
      Return (Err (if rank (ph_stage d) <=? rank (ph_stage latest_claim) then HeadPrecondition
                   else HeadOperationConflict (ph_operation_id d)))
    else
      _ ← Return (validate_handoff_against_metadata (ch_metadata (sn_head latest)) d true);
      write_claim latest (with_claim latest d) operation
  end.

Definition advance_pending_handoff (expected : Snapshot) (d : PendingHandoffDescriptor) : Op Snapshot :=
  _ ← Return (validate_handoff d (Some (ph_stream d)));
  if bool_decide (ph_stage d = Prepared) then
    Return (Err (HeadInvalid "pending handoff advance must move beyond prepared stage"))
  else
    let phase := pending_operation_id (ph_operation_id d) (ph_stream d) (operation_suffix (ph_stage d)) in
    current ← load_present;
    match claims current !! ph_stream d with
    | None =>
      operation ← Return phase;
      Return (if completed current operation then Ok current else Err HeadPrecondition)
    | Some existing =>
      if negb (bool_decide (ph_operation_id existing = ph_operation_id d)) then
        Return (Err (HeadPendingHandoffConflict (ph_stream d) (ph_operation_id existing)))
      else if negb (immutable_eq existing d) then
        Return (Err (HeadOperationConflict (ph_operation_id d)))
      else if rank (ph_stage d) <=? rank (ph_stage existing) then
        operation ← Return phase;
        Return (replay_phase current existing d operation)
      else
        match validate_expected expected current with
        | Err HeadPrecondition =>
          operation ← Return phase;
          rebase_pending_handoff_advance d operation existing
        | Err e => Return (Err e)
        | Ok _ =>
          _ ← Return (validate_handoff_against_metadata (ch_metadata (sn_head current)) d true);
          operation ← Return phase;
          next ← Return (head_with_metadata (sn_head current) (with_claim current d) operation);
          settle (update_exact current next) (λ r,
            match r with
            | Err HeadPrecondition => rebase_pending_handoff_advance d operation existing
            | r => Return r
            end)
        end
    end.

Definition publish_pending_handoff (expected : Snapshot) (meta : ControlMetadata)
    (d : PendingHandoffDescriptor) : Op Snapshot :=
  _ ← Return (validate_handoff d (Some (ph_stream d)));
  if negb (bool_decide (ph_stage d = RoutePublished)) then
    Return (Err (HeadInvalid "pending handoff publication requires route_published stage"))
  else if negb (bool_decide (cm_pending_handoffs meta !! ph_stream d = Some d)) then
    Return (Err HeadPrecondition)
  else
    current ← load_present;
    match claims current !! ph_stream d with
    | None => Return (Err HeadPrecondition)
    | Some existing =>
      if negb (bool_decide (ph_operation_id existing = ph_operation_id d)) then
        Return (Err (HeadPendingHandoffConflict (ph_stream d) (ph_operation_id existing)))
      else
        operation ← Return (pending_operation_id (ph_operation_id d) (ph_stream d)
                              (operation_suffix (ph_stage d)));
        if bool_decide (existing = d) && bool_decide (ph_stage existing = RoutePublished)
           && completed current operation then Return (Ok current)
        else if negb (immutable_eq existing d) || (rank (ph_stage d) <=? rank (ph_stage existing))
                || (rank (ph_stage existing) <? rank ArchiveVerified) then
          Return (Err HeadPrecondition)
        else
          _ ← Return (validate_expected expected current);
          _ ← Return (validate_handoff_against_metadata meta d true);
          write_claim current meta operation
    end.

Definition complete_pending_handoff (expected : Snapshot) (stream operation_id : string) : Op Snapshot :=
  current ← load_present;
  complete_operation ← Return (pending_operation_id operation_id stream "complete");
  match claims current !! stream with
  | None => Return (if completed current complete_operation then Ok current else Err HeadPrecondition)
  | Some existing =>
    if negb (bool_decide (ph_operation_id existing = operation_id)) then
      Return (Err (HeadPendingHandoffConflict stream (ph_operation_id existing)))
    else if negb (bool_decide (ph_stage existing = RoutePublished)) then Return (Err HeadPrecondition)
    else
      _ ← Return (validate_expected expected current);
      _ ← Return (validate_handoff_against_metadata (ch_metadata (sn_head current)) existing true);
      write_claim current (set_pending (ch_metadata (sn_head current)) (delete stream (claims current)))
        complete_operation
  end.

(** A tree run alone, on a store that serves every request. *)
Fixpoint run_requests {S E A} `{ObjectStore S V} (path : string) (s : S) (m : Requests V E A)
    : result E A * S :=
  match m with
  | Return r => (r, s)
  | GetHead k => run_requests path s (k (store_get s path))
  | PutHead bytes mode k =>
    let '(r, s) := os_put s path bytes mode in run_requests path s (k r)
  end.

End Operations.

(** [ControlHeadStore::path] on a prefix whose slashes at both ends were trimmed, and the check
    of [ControlHeadStore::new]. *)
Definition control_head_path (prefix : string) : string := prefix +:+ "/control/head.json".

Definition check_prefix (prefix : string) : result ControlHeadError unit :=
  if bool_decide (prefix = "") || (MAX_PREFIX_BYTES <? str_len prefix)
  then Err (HeadInvalid "control-head prefix is empty or too long") else Ok tt.

End ControlHead.

Arguments Return {V E A} r.
Arguments GetHead {V E A} k.
Arguments PutHead {V E A} bytes mode k.
