(* ===== verification/ControlHeadSafety.v ===== *)
(** * ControlHeadSafety: coordinators racing on the control head

    Any number of coordinators run the operations of [ControlHead] against one object store,
    request by request, lose answers and disappear; the store is then a linear history of
    valid heads in which receipts and handoff claims are never lost. *)

From S2P Require Import Prelude Text Wire Client Placement Manifest Cohorts ControlDoc Control ObjectStore ControlHead.

#[local] Open Scope N_scope.

(** A fold that adds entries to a map and refuses to change one. *)
Lemma try_fold_union {E K A} `{Countable K} (f : gmap K A → K * A → result E (gmap K A)) l m m' :
  (∀ m k a m', f m (k, a) = Ok m' → m !! k = Some a ∧ m' = m ∨ m !! k = None ∧ m' = <[k := a]> m) →
  try_fold f m l = Ok m' → m ⊆ m' ∧ ∀ k a, (k, a) ∈ l → m' !! k = Some a.
Proof.
  intros Hf. revert m. induction l as [|[k a] l IH]; intros m; cbn [try_fold].
  { intros [= <-]. split; [done|]. by intros ? ? ?%not_elem_of_nil. }
  intros (m1 & Hm1 & Hl)%bind_Ok. destruct (IH _ Hl) as [Hsub Hall].
  destruct (Hf _ _ _ _ Hm1) as [[Hk ->]|[Hk ->]].
  - split; [done|]. intros k' a' [[= -> ->]|?]%elem_of_cons; [|by apply Hall].
    eapply lookup_weaken; eauto.
  - split; [etrans; [by apply insert_subseteq|done]|].
    intros k' a' [[= -> ->]|?]%elem_of_cons; [|by apply Hall].
    eapply lookup_weaken; [|done]. by rewrite lookup_insert_eq.
Qed.

Section Facts.
Context `{ManifestHost, MetadataJson, HeadCodec}.

Lemma merge_receipt_union m k a m' :
  merge_receipt m (k, a) = Ok m' → m !! k = Some a ∧ m' = m ∨ m !! k = None ∧ m' = <[k := a]> m.
Proof.
  cbn. destruct (m !! k) as [b|]; [case_bool_decide|]; intros; simplify_eq; eauto.
Qed.

Lemma preserve_claim_union m k a m' :
  preserve_claim m (k, a) = Ok m' → m !! k = Some a ∧ m' = m ∨ m !! k = None ∧ m' = <[k := a]> m.
Proof.
  cbn. destruct (m !! k) as [b|]; [case_bool_decide|]; intros; simplify_eq; eauto.
Qed.

(** What a valid head has. *)
Record head_facts (h : ControlHead) : Prop := {
  hf_receipt : ch_completed_operations h !! ch_operation_id h = Some (receipt_of h);
  hf_receipts op r : ch_completed_operations h !! op = Some r →
    cr_revision r ≤ ch_revision h ∧ cr_authority_epoch r ≤ ch_authority_epoch h;
  hf_digest : ch_metadata_digest h = metadata_digest (ch_metadata h);
  hf_claims st c : cm_pending_handoffs (ch_metadata h) !! st = Some c → validate_handoff c (Some st) = Ok tt;
}.

Lemma validate_metadata_claims meta st c :
  validate_metadata meta = Ok tt → cm_pending_handoffs meta !! st = Some c →
  validate_handoff c (Some st) = Ok tt.
Proof.
  unfold validate_metadata. destruct (_ =? 0); [done|].
  intros (_ & _ & (_ & _ & (counts & _ & Hm)%bind_Ok)%bind_Ok)%bind_Ok Hc.
  destruct (existsb _ _); [done|]. destruct (_ && _); [done|].
  apply bind_Ok in Hm as (_ & _ & Hm). destruct (_ <? _); [done|].
  rewrite (try_fold_all (λ '(stream, descriptor), validate_handoff descriptor (Some stream))) in Hm.
  apply (Hm (st, c)). by apply elem_of_sbtree_entries.
Qed.

Lemma validate_head_facts h : validate_head h = Ok tt → head_facts h.
Proof.
  unfold validate_head. intros Hv.
  do 4 match type of Hv with (if ?b then _ else _) = _ => destruct b; [done|] end.
  apply bind_Ok in Hv as (r & Hr%ok_or_Ok & Hv).
  match type of Hv with (if ?b then _ else _) = _ => destruct b eqn:Hcur; [done|] end.
  match type of Hv with (if ?b then _ else _) = _ => destruct b eqn:Hbad; [done|] end.
  apply bind_Ok in Hv as (_ & _ & Hv). destruct (_ || _); [done|].
  apply bind_Ok in Hv as ([] & Hm & Hv).
  match type of Hv with (if ?b then _ else _) = _ => destruct b eqn:Hd; [done|] end.
  apply negb_false_iff, bool_decide_eq_true in Hcur, Hd. subst r.
  split; [done| |done|intros st c; by apply validate_metadata_claims].
  intros op r Hop. assert (bad_receipt h r = false) as Hb.
  { destruct (bad_receipt h r) eqn:Hb; [|done]. rewrite <- Hbad. symmetry.
    apply existsb_exists. exists r. split; [|done]. apply list_elem_of_In, elem_of_sbtree_values. eauto. }
  unfold bad_receipt in Hb. bool_facts. lia.
Qed.

Lemma validate_expected_Ok {V} (e c : ControlHeadSnapshot V) :
  validate_expected e c = Ok tt → sn_head e = sn_head c.
Proof.
  unfold validate_expected. destruct (negb _); [done|]. case_bool_decide; [done|done].
Qed.

(** ** What one write may do to the head *)

(** How far the claim [c] of a stream may move. *)
Definition claim_moves (c c' : PendingHandoffDescriptor) : Prop :=
  immutable_eq c c' = true ∧ length (ph_target_members c) = length (ph_target_members c')
  ∧ rank (ph_stage c) ≤ rank (ph_stage c').

(** The route a published claim promised. *)
Definition successor_routed (c : PendingHandoffDescriptor) (meta : ControlMetadata) : Prop :=
  ∃ successor ranges, ph_successor c = Some successor
    ∧ rm_stream_segments (cm_manifest meta) !! ph_stream c = Some ranges ∧ successor ∈ ranges.

Definition claims_next (meta meta' : ControlMetadata) : Prop :=
  ∀ st c, cm_pending_handoffs meta !! st = Some c →
    (∃ c', cm_pending_handoffs meta' !! st = Some c' ∧ claim_moves c c')
    ∨ (cm_pending_handoffs meta' !! st = None ∧ ph_stage c = RoutePublished
       ∧ successor_routed c meta ∧ successor_routed c meta').

Record head_next (h h' : ControlHead) : Prop := {
  hn_valid : validate_head h' = Ok tt;
  hn_revision : ch_revision h' = saturating_add (ch_revision h) 1;
  hn_receipts : ch_completed_operations h ⊆ ch_completed_operations h';
  hn_fresh : ch_completed_operations h !! ch_operation_id h' = None;
  hn_authority :
    (ch_authority_epoch h' = ch_authority_epoch h ∧ ch_source_marker h' = ch_source_marker h)
    ∨ (ch_authority_epoch h' = ch_authority_epoch h + 1 ∧ ch_authority_epoch h' ≤ u64_max
       ∧ cs_authority_epoch (ch_source_marker h') = ch_authority_epoch h
       ∧ cs_revision (ch_source_marker h') = ch_revision h
       ∧ cs_digest (ch_source_marker h') = ch_metadata_digest h);
  hn_claims : claims_next (ch_metadata h) (ch_metadata h');
}.

Lemma same_member_refl m : same_member_incarnation m m = true.
Proof.
  unfold same_member_incarnation. by rewrite !bool_decide_eq_true_2, !N.eqb_refl.
Qed.

Lemma immutable_refl c : immutable_eq c c = true.
Proof.
  unfold immutable_eq. rewrite !bool_decide_eq_true_2, !N.eqb_refl, !orb_true_r by done.
  rewrite !andb_true_r, !andb_true_l. apply forallb_forall. intros [a b] Hin%list_elem_of_In.
  assert (a = b) as ->; [|apply same_member_refl].
  generalize (ph_target_members c) Hin. clear. intros l. induction l as [|x l IH]; cbn; [by intros ?%elem_of_nil|].
  intros [[= -> ->]|Hin]%elem_of_cons; eauto.
Qed.

Lemma claim_moves_refl c : claim_moves c c.
Proof. split_and!; [apply immutable_refl|done|lia]. Qed.

Lemma same_member_trans a b c :
  same_member_incarnation a b = true → same_member_incarnation b c = true → same_member_incarnation a c = true.
Proof.
  unfold same_member_incarnation. intros Hab Hbc. bool_facts.
  repeat (apply andb_true_intro; split); first [apply bool_decide_eq_true_2|apply N.eqb_eq]; congruence.
Qed.

Lemma same_members_trans (l1 l2 l3 : list DurableMember) :
  length l1 = length l2 → length l2 = length l3 →
  forallb (λ '(a, b), same_member_incarnation a b) (zip l1 l2) = true →
  forallb (λ '(a, b), same_member_incarnation a b) (zip l2 l3) = true →
  forallb (λ '(a, b), same_member_incarnation a b) (zip l1 l3) = true.
Proof.
  revert l2 l3. induction l1 as [|a l1 IH]; intros [|b l2] [|c l3]; try done.
  cbn. intros [= L12] [= L23] [Hab Hl1]%andb_true_iff [Hbc Hl2]%andb_true_iff.
  apply andb_true_iff. split; [by eapply same_member_trans|by eapply IH].
Qed.

Lemma kept_trans {A} `{EqDecision A} (a b c : option A) :
  is_none a || bool_decide (b = a) = true → is_none b || bool_decide (c = b) = true →
  is_none a || bool_decide (c = a) = true.
Proof.
  destruct a; cbn; [|done]. intros ->%bool_decide_eq_true. cbn. done.
Qed.

Lemma claim_moves_trans c1 c2 c3 : claim_moves c1 c2 → claim_moves c2 c3 → claim_moves c1 c3.
Proof.
  intros (H12 & L12 & R12) (H23 & L23 & R23). split_and!; [|congruence|lia].
  unfold immutable_eq in *. rewrite !andb_true_iff, ?bool_decide_eq_true, ?N.eqb_eq in *. destruct_and!.
  split_and!; try congruence; [by eapply (same_members_trans _ (ph_target_members c2))|by eapply kept_trans..].
Qed.

Lemma claims_next_refl meta meta' :
  cm_pending_handoffs meta ⊆ cm_pending_handoffs meta' → claims_next meta meta'.
Proof.
  intros Hsub st c Hc. left. exists c. split; [by eapply lookup_weaken|apply claim_moves_refl].
Qed.

Lemma merge_completed_Ok next cur next' :
  merge_completed_operations next cur = Ok next' →
  ch_completed_operations cur !! ch_operation_id next = None →
  validate_head next' = Ok tt ∧ ch_completed_operations cur ⊆ ch_completed_operations next'
  ∧ next' = set_receipts next (ch_completed_operations next').
Proof.
  unfold merge_completed_operations.
  intros (m & Hm & ([] & Hv & [= <-])%bind_Ok)%bind_Ok Hnone. split_and!; [done| |done].
  destruct (try_fold_union _ _ _ _ merge_receipt_union Hm) as [_ Hall].
  apply map_subseteq_spec. intros op r Hr. cbn [ch_completed_operations set_receipts].
  rewrite lookup_insert_ne by congruence. apply Hall. by apply elem_of_sbtree_entries.
Qed.

Lemma validate_transition_Ok cur next :
  validate_transition cur next = Ok tt →
  ch_revision next = saturating_add (ch_revision cur) 1
  ∧ ((ch_authority_epoch next = ch_authority_epoch cur ∧ ch_source_marker next = ch_source_marker cur)
     ∨ (ch_authority_epoch next = ch_authority_epoch cur + 1 ∧ ch_authority_epoch next ≤ u64_max
        ∧ cs_authority_epoch (ch_source_marker next) = ch_authority_epoch cur
        ∧ cs_revision (ch_source_marker next) = ch_revision cur
        ∧ cs_digest (ch_source_marker next) = ch_metadata_digest cur)).
Proof.
  unfold validate_transition. intros Hv.
  destruct (negb (ch_revision next =? _)) eqn:Hr in Hv; [done|].
  destruct (ch_authority_epoch next <? _) eqn:Hlt in Hv; [done|].
  destruct ((ch_authority_epoch cur <? _) && _) eqn:Hgt in Hv; [done|].
  destruct ((ch_authority_epoch next =? ch_authority_epoch cur) && _) eqn:Heq in Hv; [done|].
  destruct ((ch_authority_epoch next =? _) && _) eqn:Hsat in Hv; [done|]. clear Hv.
  bool_facts. split; [done|].
  destruct (decide (ch_authority_epoch next = ch_authority_epoch cur)) as [He|He].
  - left. split; [done|]. destruct Heq; bool_facts; done.
  - assert (ch_authority_epoch next = saturating_add (ch_authority_epoch cur) 1) as Hs.
    { destruct Hgt; bool_facts; [lia|done]. }
    right. destruct Hsat as [Hsat|Hsat]; bool_facts; [done|].
    unfold saturating_add in Hs. split_and!; try done; lia.
Qed.

(** What [update_inner] may write over the head it expects. *)
Lemma merged_head_next cur next next' :
  validate_transition cur next = Ok tt → merge_completed_operations next cur = Ok next' →
  ch_completed_operations cur !! ch_operation_id next = None →
  claims_next (ch_metadata cur) (ch_metadata next) →
  head_next cur next' ∧ ch_completed_operations next' !! ch_operation_id next = Some (receipt_of next).
Proof.
  intros [Hr Ha]%validate_transition_Ok Hm Hnone Hc.
  destruct (merge_completed_Ok _ _ _ Hm Hnone) as (Hv & Hsub & Hset).
  pose proof (hf_receipt _ (validate_head_facts _ Hv)) as Hop. rewrite Hset in Hop. rewrite Hset.
  split; [|done]. rewrite Hset in Hv. by split.
Qed.

Lemma preserve_pending_Ok cur next next' :
  preserve_pending_handoffs cur next = Ok next' →
  claims_next (ch_metadata cur) (ch_metadata next') ∧ ch_operation_id next' = ch_operation_id next
  ∧ ch_revision next' = ch_revision next ∧ ch_authority_epoch next' = ch_authority_epoch next.
Proof.
  unfold preserve_pending_handoffs. intros (m & Hm & [= <-])%bind_Ok. split_and!; [|done..].
  destruct (try_fold_union _ _ _ _ preserve_claim_union Hm) as [_ Hall].
  apply claims_next_refl, map_subseteq_spec. intros st c Hc. apply Hall. by apply elem_of_sbtree_entries.
Qed.

Lemma validate_handoff_key d st :
  validate_handoff d (Some st) = Ok tt → ph_stream d = st ∧ length (ph_target_members d) = 3%nat.
Proof.
  unfold validate_handoff. intros Hv. case_bool_decide as Hk; [|done]. cbn [negb] in Hv.
  do 2 (destruct (_ || _) in Hv; [done|]).
  destruct (negb (len (ph_target_members d) =? REPLICATION_FACTOR) || _) eqn:Hl in Hv; [done|]. clear Hv.
  bool_facts. unfold len, REPLICATION_FACTOR in *. split; [done|lia].
Qed.

(** A claim of a valid head and a valid descriptor that continues it. *)
Lemma claim_moves_intro h c d :
  validate_head h = Ok tt → cm_pending_handoffs (ch_metadata h) !! ph_stream d = Some c →
  validate_handoff d (Some (ph_stream d)) = Ok tt → immutable_eq c d = true →
  rank (ph_stage c) ≤ rank (ph_stage d) → claim_moves c d.
Proof.
  intros Hh Hc [_ Hd]%validate_handoff_key He Hr.
  apply (hf_claims _ (validate_head_facts _ Hh)), validate_handoff_key in Hc as [_ Hc].
  split_and!; [done|congruence|done].
Qed.

Lemma claims_next_insert meta c d :
  cm_pending_handoffs meta !! ph_stream d = Some c → claim_moves c d →
  claims_next meta (set_pending meta (<[ph_stream d := d]> (cm_pending_handoffs meta))).
Proof.
  intros Hc Hm st c1 Hc1. left. cbn [cm_pending_handoffs set_pending].
  destruct (decide (st = ph_stream d)) as [->|Hne].
  - exists d. rewrite lookup_insert_eq. split; [done|]. congruence.
  - exists c1. rewrite lookup_insert_ne by done. split; [done|apply claim_moves_refl].
Qed.

Lemma position_elem {A} (f : A → bool) l i : position f l = Some i → ∃ x, x ∈ l ∧ f x = true.
Proof.
  unfold position. intros ([j x] & (Hx & Hf & _)%list_find_Some & _)%fmap_Some.
  exists x. split; [by eapply list_elem_of_lookup_2|done].
Qed.

Lemma validated_successor meta d :
  validate_handoff_against_metadata meta d true = Ok tt → ph_stage d = RoutePublished →
  successor_routed d meta.
Proof.
  unfold validate_handoff_against_metadata. intros (sc & _ & Hv)%bind_Ok Hst.
  destruct (_ || _) in Hv; [done|]. apply bind_Ok in Hv as (_ & _ & Hv).
  destruct (_ || _) in Hv; [done|]. apply bind_Ok in Hv as (tc & _ & Hv).
  destruct (_ || _) in Hv; [done|]. apply bind_Ok in Hv as (_ & _ & Hv).
  unfold check_claimed_ranges in Hv. apply bind_Ok in Hv as (ranges & Hr%ok_or_Ok & Hv).
  rewrite bool_decide_eq_true_2 in Hv by done. cbn [negb] in Hv.
  apply bind_Ok in Hv as (successor & Hs%ok_or_Ok & (i & Hi%ok_or_Ok & _)%bind_Ok).
  apply position_elem in Hi as (x & Hx & ->%bool_decide_eq_true). by exists successor, ranges.
Qed.

(** A completed claim may go: its route is there. *)
Lemma claims_next_delete h c st :
  validate_head h = Ok tt → cm_pending_handoffs (ch_metadata h) !! st = Some c →
  ph_stage c = RoutePublished → validate_handoff_against_metadata (ch_metadata h) c true = Ok tt →
  claims_next (ch_metadata h)
    (set_pending (ch_metadata h) (delete st (cm_pending_handoffs (ch_metadata h)))).
Proof.
  intros Hh Hc Hst Hv st1 c1 Hc1. cbn [cm_pending_handoffs set_pending].
  destruct (decide (st1 = st)) as [->|Hne].
  - right. rewrite lookup_delete_eq. simplify_eq. apply validated_successor in Hv; [|done]. done.
  - left. exists c1. rewrite lookup_delete_ne by done. split; [done|apply claim_moves_refl].
Qed.

Lemma head_with_metadata_Ok cur meta op next :
  head_with_metadata cur meta op = Ok next → ch_metadata next = meta ∧ ch_operation_id next = op.
Proof.
  unfold head_with_metadata. intros (rev & _ & (_ & _ & [= <-])%bind_Ok)%bind_Ok. done.
Qed.

End Facts.

(** ** Coordinators on one store *)

Section Coordinators.
Context `{ManifestHost, MetadataJson, !HeadCodec, !HeadCodecLaws}.
Context {S V : Type} `{!ObjectStore S V, !ObjectStoreLaws S V, !Etag V}.
Variable path : string.

Abbreviation Snapshot := (ControlHeadSnapshot V).
Abbreviation Op := (Requests V ControlHeadError).

(** A head as the store is given it first. *)
Definition first_head (h : ControlHead) : Prop :=
  validate_head h = Ok tt ∧ ch_revision h ≤ u64_max ∧ ch_authority_epoch h ≤ u64_max.

(** What the object of the head may become by one write. *)
Definition head_change (old : option (list byte * V)) (bytes : list byte) : Prop :=
  ∃ h', bytes = control_head_to_vec h'
    ∧ match old with
      | None => first_head h'
      | Some (b, _) => ∃ h, control_head_from_slice b = Ok h ∧ head_next h h'
      end.

Definition store_change (s s' : S) : Prop :=
  store_step s s'
  ∧ (os_get s' path = os_get s path
     ∨ ∃ bytes v, os_get s' path = Some (bytes, v) ∧ head_change (os_get s path) bytes).

Definition later_store : S → S → Prop := rtc store_change.

Lemma later_steps s s' : later_store s s' → rtc store_step s s'.
Proof. induction 1 as [|s s1 s' [Hs _] _ IH]; [done|by eapply rtc_l]. Qed.

(** A snapshot that was read from the store, or written to it, at some time. *)
Definition observed (s : S) (sn : Snapshot) : Prop :=
  ∃ s0 bytes, later_store s0 s ∧ os_get s0 path = Some (bytes, sn_version sn)
    ∧ control_head_from_slice bytes = Ok (sn_head sn) ∧ validate_head (sn_head sn) = Ok tt.

Lemma observed_later s s' sn : later_store s s' → observed s sn → observed s' sn.
Proof.
  intros Hl (s0 & bytes & Hs & ?). exists s0, bytes. split; [by etrans|done].
Qed.

(** A version that is still there names the head that was observed. *)
Lemma observed_current s sn bytes :
  observed s sn → os_get s path = Some (bytes, sn_version sn) →
  control_head_from_slice bytes = Ok (sn_head sn).
Proof.
  intros (s0 & b0 & Hs%later_steps & Hg0 & Hb & _) Hg. by rewrite (os_version _ _ _ _ _ _ Hs Hg0 Hg).
Qed.

(** What an operation does from a store on, whatever happens between its requests: every write
    is a change the head may make, and what it returns satisfies [P]. *)
Fixpoint safe {A} (P : S → A → Prop) (s : S) (m : Op A) : Prop :=
  match m with
  | Return r => ∀ a, r = Ok a → P s a
  | GetHead k => ∀ s1 r, later_store s s1 →
      (r = store_get s1 path ∨ ∃ reason, r = Err (StoreOther reason)) → safe P s1 (k r)
  | PutHead bytes mode k => ∀ s1 io r s2, later_store s s1 →
      store_put io s1 path bytes mode = (r, s2) → later_store s1 s2 ∧ safe P s2 (k r)
  end.

Lemma safe_later {A} (P : S → A → Prop) s s' m :
  (∀ s s' a, later_store s s' → P s a → P s' a) → later_store s s' → safe P s m → safe P s' m.
Proof.
  intros Hp Hl. destruct m as [r|k|bytes mode k]; cbn.
  - intros Hm a Ha. eapply Hp; eauto.
  - intros Hm s1 r Hl1. apply Hm. by etrans.
  - intros Hm s1 io r s2 Hl1. apply Hm. by etrans.
Qed.

Lemma safe_settle {A B} (P : S → A → Prop) (Q : S → B → Prop) s m f :
  safe P s m →
  (∀ s1 r, later_store s s1 → (∀ a, r = Ok a → P s1 a) → safe Q s1 (f r)) → safe Q s (settle m f).
Proof.
  revert s. induction m as [r|k IH|bytes mode k IH]; intros s Hm Hf; cbn in *.
  - apply Hf; [apply rtc_refl|done].
  - intros s1 r Hl Hr. apply IH; [by apply Hm|]. intros s2 r2 Hl2. apply Hf. by etrans.
  - intros s1 io r s2 Hl Hp. destruct (Hm _ _ _ _ Hl Hp) as [Hl2 Hk].
    split; [done|]. apply IH; [done|]. intros s3 r3 Hl3. apply Hf. by do 2 (etrans; [done|]).
Qed.

Lemma safe_mono {A} (P Q : S → A → Prop) s m :
  (∀ s a, P s a → Q s a) → safe P s m → safe Q s m.
Proof.
  intros Hpq. revert s. induction m as [r|k IH|bytes mode k IH]; intros s Hm; cbn in *.
  - intros a Ha. by apply Hpq, Hm.
  - intros s1 r Hl Hr. by apply IH, Hm.
  - intros s1 io r s2 Hl Hp. destruct (Hm _ _ _ _ Hl Hp). eauto.
Qed.

Lemma safe_return {A B} (P : S → B → Prop) s (r : result _ A) (f : A → Op B) :
  (∀ a, r = Ok a → safe P s (f a)) → safe P s (a ← Return r; f a).
Proof. intros Hr. destruct r; [by apply Hr|]. intros ? [=]. Qed.

(** A snapshot that is the head now. *)
Definition loaded (s : S) (sn : Snapshot) : Prop :=
  ∃ bytes, os_get s path = Some (bytes, sn_version sn)
    ∧ control_head_from_slice bytes = Ok (sn_head sn) ∧ validate_head (sn_head sn) = Ok tt.

Lemma loaded_observed s sn : loaded s sn → observed s sn.
Proof. intros (bytes & ?). exists s, bytes. split; [apply rtc_refl|done]. Qed.

Lemma read_head_Ok bytes v sn :
  read_head bytes v = Ok sn →
  sn_version sn = v ∧ control_head_from_slice bytes = Ok (sn_head sn) ∧ validate_head (sn_head sn) = Ok tt.
Proof.
  unfold read_head. destruct (_ <? _); [done|]. destruct (negb _); [done|].
  intros (h & Hh%map_err_Ok & ([] & Hv & [= <-])%bind_Ok)%bind_Ok. done.
Qed.

Lemma safe_load {A} (P : S → A → Prop) s (f : Snapshot → Op A) :
  (∀ s1 sn, later_store s s1 → loaded s1 sn → safe P s1 (f sn)) →
  safe P s (sn ← load_present; f sn).
Proof.
  intros Hf. cbn. intros s1 r Hl [->|[reason ->]]; [|by intros ? ?].
  unfold store_get. destruct (os_get s1 path) as [[bytes v]|] eqn:Hg; cbn; [|by intros ? ?].
  destruct (read_head bytes v) as [sn|e] eqn:Hr; cbn; [|by intros ? ?].
  apply Hf; [done|]. apply read_head_Ok in Hr as (<- & ? & ?). by exists bytes.
Qed.

(** ** One conditional write *)

Lemma put_change io s bytes mode r s' :
  (may_put s path mode → head_change (os_get s path) bytes) →
  store_put io s path bytes mode = (r, s') →
  later_store s s' ∧ ∀ v, r = Ok v → os_get s' path = Some (bytes, v).
Proof.
  intros Hc Hp. destruct (store_put_effect _ _ _ _ _ _ _ Hp) as [[-> Hr]|(Hmay & (v & Hv & Hr) & _)].
  { split; [apply rtc_refl|]. by intros v ->. }
  split; [|intros v' Hv'; by rewrite (Hr _ Hv')].
  assert (s' = s ∨ store_step s s') as [->|Hstep]; [|apply rtc_refl|apply rtc_once; split; [done|right; eauto]].
  destruct io as [|reason []]; cbn in Hp; simplify_eq; [right..|by left].
  - by exists path, bytes, mode, r.
  - exists path, bytes, mode, (os_put s path bytes mode).1. apply surjective_pairing.
Qed.

(** The receipt of an operation in a head. *)
Definition receipt_in (h : ControlHead) (operation : string) (epoch revision : N) : Prop :=
  ∃ r, ch_completed_operations h !! operation = Some r ∧ cr_authority_epoch r = epoch
    ∧ cr_revision r = revision.

Lemma receipt_matches_in h next r :
  ch_completed_operations h !! ch_operation_id next = Some r → receipt_matches_head r next = true →
  receipt_in h (ch_operation_id next) (ch_authority_epoch next) (ch_revision next).
Proof. unfold receipt_matches_head. intros Hr Hm. bool_facts. by exists r. Qed.

Lemma put_next_safe s expected next :
  observed s expected → head_next (sn_head expected) next →
  ch_completed_operations next !! ch_operation_id next = Some (receipt_of next) →
  safe (λ s sn, observed s sn
    ∧ receipt_in (sn_head sn) (ch_operation_id next) (ch_authority_epoch next) (ch_revision next))
    s (put_next expected next).
Proof.
  intros Hobs Hn Hop. cbn [put_next safe]. intros s1 io r s2 Hl Hput.
  destruct (put_change io s1 (control_head_to_vec next) (Update (sn_version expected)) r s2) as [Hl2 Hr]; [|done|].
  { intros [old Hold]. exists next. split; [done|]. rewrite Hold. exists (sn_head expected).
    split; [|done]. eapply observed_current; [by eapply observed_later|done]. }
  split; [done|]. destruct r as [v|e]; cbn.
  - unfold snapshot_from_put. destruct (negb _); [by intros ? ?|]. intros sn [= <-]. split; [|by exists (receipt_of next)].
    exists s2, (control_head_to_vec next).
    split_and!; [apply rtc_refl|by apply Hr|apply control_head_back|apply (hn_valid _ _ Hn)].
  - destruct e; try (by intros ? [=]). apply safe_load. intros s3 sn Hl3 Hld. cbn.
    destruct (ch_completed_operations (sn_head sn) !! ch_operation_id next) as [rc|] eqn:Hrc; [|by intros ? ?].
    destruct (receipt_matches_head rc next) eqn:Hm; cbn; [|by intros ? ?]. intros ? [= <-].
    split; [by apply loaded_observed|by eapply receipt_matches_in].
Qed.

Lemma update_inner_safe s expected next preserve :
  observed s expected →
  (preserve = false → claims_next (ch_metadata (sn_head expected)) (ch_metadata next)) →
  safe (λ s sn, observed s sn
    ∧ receipt_in (sn_head sn) (ch_operation_id next) (ch_authority_epoch next) (ch_revision next))
    s (update_inner expected next preserve).
Proof.
  intros Hobs Hcl. apply safe_load. intros s1 cur Hl Hld. apply safe_return. intros n1 Hn1.
  assert (ch_operation_id n1 = ch_operation_id next ∧ ch_revision n1 = ch_revision next
    ∧ ch_authority_epoch n1 = ch_authority_epoch next
    ∧ (sn_head expected = sn_head cur → claims_next (ch_metadata (sn_head cur)) (ch_metadata n1)))
    as (<- & <- & <- & Hcl1).
  { destruct preserve; [|injection Hn1 as <-; split_and!; [done..|intros <-; by apply Hcl]].
    apply preserve_pending_Ok in Hn1 as (? & ? & ? & ?). done. }
  destruct (ch_completed_operations (sn_head cur) !! ch_operation_id n1) as [rc|] eqn:Hrc.
  { destruct (receipt_matches_head rc n1) eqn:Hm; cbn; [|by intros ? ?]. intros ? [= <-].
    split; [by apply loaded_observed|by eapply receipt_matches_in]. }
  apply safe_return. intros n2 ([] & He%validate_expected_Ok & ([] & Ht & (n3 & Hm & ([] & _ & [= <-])%bind_Ok)%bind_Ok)%bind_Ok)%bind_Ok.
  destruct (merged_head_next _ _ _ Ht Hm Hrc (Hcl1 He)) as [Hn Hop].
  assert (n3 = set_receipts n1 (ch_completed_operations n3)) as Hset by by apply merge_completed_Ok in Hm as (_ & _ & ?).
  pose proof (put_next_safe s1 expected n3) as Hput. rewrite <- He in Hn.
  assert (ch_operation_id n3 = ch_operation_id n1 ∧ ch_authority_epoch n3 = ch_authority_epoch n1
    ∧ ch_revision n3 = ch_revision n1 ∧ receipt_of n3 = receipt_of n1) as (E1 & E2 & E3 & E4) by (by rewrite Hset).
  rewrite E1, E2, E3, E4 in Hput. apply Hput; [by eapply observed_later|done|done].
Qed.

(** ** The operations *)

(** The operation is among the receipts of the snapshot. *)
Definition recorded (operation : string) (s : S) (sn : Snapshot) : Prop :=
  observed s sn ∧ is_Some (ch_completed_operations (sn_head sn) !! operation).

Lemma loaded_head s sn : loaded s sn → validate_head (sn_head sn) = Ok tt.
Proof. by intros (? & _ & _ & ?). Qed.

Lemma completed_recorded s sn operation :
  loaded s sn → completed sn operation = true → recorded operation s sn.
Proof.
  unfold completed. intros Hl Hc. split; [by apply loaded_observed|].
  by destruct (ch_completed_operations (sn_head sn) !! operation).
Qed.

Lemma update_exact_safe s current meta operation next :
  observed s current → claims_next (ch_metadata (sn_head current)) meta →
  head_with_metadata (sn_head current) meta operation = Ok next →
  safe (recorded operation) s (update_exact current next).
Proof.
  intros Hobs Hcl [Hm Ho]%head_with_metadata_Ok.
  eapply safe_mono; [|apply update_inner_safe; [done|by rewrite Hm]].
  cbn. intros s1 sn [Hs (r & Hr & _)]. split; [done|]. rewrite Ho in Hr. eauto.
Qed.

Lemma write_claim_safe s current meta operation :
  observed s current → claims_next (ch_metadata (sn_head current)) meta →
  safe (recorded operation) s (write_claim current meta operation).
Proof. intros Hobs Hcl. apply safe_return. intros next Hn. by eapply update_exact_safe. Qed.

Lemma create_safe s head :
  ch_revision head ≤ u64_max → ch_authority_epoch head ≤ u64_max →
  safe (λ s sn, observed s sn
    ∧ receipt_in (sn_head sn) (ch_operation_id head) (ch_authority_epoch head) (ch_revision head))
    s (create head).
Proof.
  intros Hr He. apply safe_return. intros [] ([] & Hv & _)%bind_Ok.
  cbn [safe]. intros s1 io r s2 Hl Hput.
  destruct (put_change io s1 (control_head_to_vec head) Create r s2) as [Hl2 Hok]; [|done|].
  { intros Hnone. cbn in Hnone. exists head. split; [done|]. by rewrite Hnone. }
  split; [done|]. destruct r as [v|e]; cbn.
  - unfold snapshot_from_put. destruct (negb _); [by intros ? ?|]. intros sn [= <-].
    split; [|by exists (receipt_of head); split_and!; [apply (hf_receipt _ (validate_head_facts _ Hv))|..]].
    exists s2, (control_head_to_vec head). split_and!; [apply rtc_refl|by apply Hok|apply control_head_back|done].
  - destruct e; try (by intros ? [=]). apply safe_load. intros s3 sn Hl3 Hld. cbn.
    destruct (ch_completed_operations (sn_head sn) !! ch_operation_id head) as [rc|] eqn:Hrc; [|by intros ? ?].
    destruct (receipt_matches_head rc head) eqn:Hm; cbn; [|by intros ? ?]. intros ? [= <-].
    split; [by apply loaded_observed|by eapply receipt_matches_in].
Qed.

(** A claim is there, or its operation was recorded. *)
Definition claim_recorded (d : PendingHandoffDescriptor) (s : S) (sn : Snapshot) : Prop :=
  observed s sn
  ∧ ((∃ c, claims sn !! ph_stream d = Some c ∧ immutable_eq c d = true)
     ∨ ∃ op, pending_operation_id (ph_operation_id d) (ph_stream d) "claim" = Ok op
         ∧ is_Some (ch_completed_operations (sn_head sn) !! op)).

Lemma claim_safe s expected d : safe (claim_recorded d) s (claim_pending_handoff expected d).
Proof.
  apply safe_return. intros [] Hv. case_bool_decide as Hst; cbn [negb]; [|by intros ? ?].
  apply safe_load. intros s1 cur Hl Hld. apply safe_return. intros op Hop.
  destruct (claims cur !! ph_stream d) as [c|] eqn:Hc.
  { destruct (immutable_eq c d) eqn:Hi; [|by intros ? ?]. intros ? [= <-].
    split; [by apply loaded_observed|]. left. eauto. }
  destruct (completed cur op); [by intros ? ?|].
  apply safe_return. intros [] _. apply safe_return. intros [] _.
  eapply safe_mono; [|apply write_claim_safe; [by apply loaded_observed|]].
  - intros s2 sn [Ho Hs]. split; [done|]. right. eauto.
  - apply claims_next_refl. by apply insert_subseteq.
Qed.

(** The receipt of a phase is there. *)
Definition phase_recorded (operation_id stream phase : string) (s : S) (sn : Snapshot) : Prop :=
  ∃ op, pending_operation_id operation_id stream phase = Ok op ∧ recorded op s sn.

Lemma with_claim_next s cur c d :
  loaded s cur → claims cur !! ph_stream d = Some c → claim_moves c d →
  claims_next (ch_metadata (sn_head cur)) (with_claim cur d).
Proof. intros Hl Hc Hm. by eapply claims_next_insert. Qed.

Lemma rebase_safe s d op observed_claim :
  claim_moves observed_claim d →
  safe (recorded op) s (rebase_pending_handoff_advance d op observed_claim).
Proof.
  intros Hm. apply safe_load. intros s1 cur Hl Hld.
  destruct (claims cur !! ph_stream d) as [c|] eqn:Hc; [|by intros ? ?].
  destruct (negb _); [by intros ? ?|].
  destruct (bool_decide (c = d) && completed cur op) eqn:Hd.
  { intros ? [= <-]. bool_facts. by apply completed_recorded. }
  clear Hd. case_bool_decide as Ho; cbn [negb]; [|by intros ? ?]. subst c.
  apply safe_return. intros [] _.
  apply write_claim_safe; [by apply loaded_observed|by eapply with_claim_next].
Qed.

Lemma advance_safe s expected d :
  safe (phase_recorded (ph_operation_id d) (ph_stream d) (operation_suffix (ph_stage d)))
    s (advance_pending_handoff expected d).
Proof.
  apply safe_return. intros [] Hv. destruct (bool_decide _); [by intros ? ?|].
  apply safe_load. intros s1 cur Hl Hld.
  assert (∀ op s2 m, pending_operation_id (ph_operation_id d) (ph_stream d) (operation_suffix (ph_stage d)) = Ok op →
    safe (recorded op) s2 m → safe (phase_recorded (ph_operation_id d) (ph_stream d) (operation_suffix (ph_stage d))) s2 m)
    as Hphase.
  { intros op s2 m Hop. apply safe_mono. intros s3 sn Hr. by exists op. }
  destruct (claims cur !! ph_stream d) as [c|] eqn:Hc; cycle 1.
  { apply safe_return. intros op Hop. apply (Hphase op _ _ Hop).
    intros ?. destruct (completed cur op) eqn:Hd; [|done]. intros [= <-]. by apply completed_recorded. }
  destruct (negb _); [by intros ? ?|]. destruct (negb (immutable_eq c d)) eqn:Hi; [by intros ? ?|].
  destruct (rank (ph_stage d) <=? _) eqn:Hr.
  { apply safe_return. intros op Hop. apply (Hphase op _ _ Hop). intros sn Hsn.
    assert (sn = cur ∧ completed cur op = true) as [-> ?]; [|by apply completed_recorded].
    revert Hsn. unfold replay_phase. destruct (completed cur op); rewrite ?andb_false_r, ?andb_true_r.
    - repeat case_match; try done; by intros [= <-].
    - by repeat case_match. }
  bool_facts. assert (claim_moves c d) as Hm.
  { eapply claim_moves_intro; [by eapply loaded_head|done..|lia]. }
  destruct (validate_expected expected cur) as [[]|e] eqn:He.
  - apply safe_return. intros [] _. apply safe_return. intros op Hop. apply (Hphase op _ _ Hop).
    apply safe_return. intros next Hn.
    eapply safe_settle.
    { eapply update_exact_safe; [by apply loaded_observed|by eapply with_claim_next|done]. }
    intros s2 r Hl2 Hok. destruct r as [sn|[]]; try (by intros ? ?).
    + intros ? [= <-]. by apply Hok.
    + by apply rebase_safe.
  - destruct e; try (by intros ? ?). apply safe_return. intros op Hop. apply (Hphase op _ _ Hop).
    by apply rebase_safe.
Qed.

(** The caller changes no other claim. *)
Definition keeps_other_claims (expected : Snapshot) (meta : ControlMetadata) (st : string) : Prop :=
  ∀ st', st' ≠ st → cm_pending_handoffs meta !! st' = claims expected !! st'.

Lemma publish_safe s expected meta d :
  keeps_other_claims expected meta (ph_stream d) →
  safe (phase_recorded (ph_operation_id d) (ph_stream d) (operation_suffix (ph_stage d)))
    s (publish_pending_handoff expected meta d).
Proof.
  intros Hkeep. apply safe_return. intros [] Hv. destruct (negb (bool_decide (ph_stage d = _))); [by intros ? ?|].
  case_bool_decide as Hd; cbn [negb]; [|by intros ? ?].
  apply safe_load. intros s1 cur Hl Hld.
  destruct (claims cur !! ph_stream d) as [c|] eqn:Hc; [|by intros ? ?].
  destruct (negb _); [by intros ? ?|]. apply safe_return. intros op Hop.
  apply (safe_mono (recorded op)); [intros ? ? ?; by exists op|].
  destruct (_ && completed cur op) eqn:Hdone.
  { intros ? [= <-]. bool_facts. by apply completed_recorded. }
  destruct (negb (immutable_eq c d) || _ || _) eqn:Hi; [by intros ? ?|].
  apply safe_return. intros [] He%validate_expected_Ok. apply safe_return. intros [] _.
  bool_facts. apply write_claim_safe; [by apply loaded_observed|].
  intros st c1 Hc1. left. destruct (decide (st = ph_stream d)) as [->|Hne].
  - exists d. split; [done|]. unfold claims in Hc. simplify_eq.
    eapply claim_moves_intro; [by eapply loaded_head|done..|lia].
  - exists c1. rewrite Hkeep by done. unfold claims. rewrite He. split; [done|apply claim_moves_refl].
Qed.

Lemma complete_safe s expected st operation_id :
  safe (phase_recorded operation_id st "complete") s (complete_pending_handoff expected st operation_id).
Proof.
  apply safe_load. intros s1 cur Hl Hld. apply safe_return. intros op Hop.
  apply (safe_mono (recorded op)); [intros ? ? ?; by exists op|].
  destruct (claims cur !! st) as [c|] eqn:Hc; cycle 1.
  { intros ?. destruct (completed cur op) eqn:Hd; [|done]. intros [= <-]. by apply completed_recorded. }
  destruct (negb (bool_decide (ph_operation_id c = _))); [by intros ? ?|].
  case_bool_decide as Hst; cbn [negb]; [|by intros ? ?].
  apply safe_return. intros [] _. apply safe_return. intros [] Hv.
  apply write_claim_safe; [by apply loaded_observed|].
  eapply claims_next_delete; eauto using loaded_head.
Qed.

(** ** The system *)

Inductive Call :=
| CallCreate (head : ControlHead)
| CallUpdate (expected : Snapshot) (next : ControlHead)
| CallClaim (expected : Snapshot) (d : PendingHandoffDescriptor)
| CallAdvance (expected : Snapshot) (d : PendingHandoffDescriptor)
| CallPublish (expected : Snapshot) (meta : ControlMetadata) (d : PendingHandoffDescriptor)
| CallComplete (expected : Snapshot) (stream operation_id : string).

Definition call_requests (call : Call) : Op Snapshot :=
  match call with
  | CallCreate head => create head
  | CallUpdate expected next => update expected next
  | CallClaim expected d => claim_pending_handoff expected d
  | CallAdvance expected d => advance_pending_handoff expected d
  | CallPublish expected meta d => publish_pending_handoff expected meta d
  | CallComplete expected stream operation_id => complete_pending_handoff expected stream operation_id
  end.

(** What callers do: an update names a snapshot that was read; a publication changes no other
    claim; a first head is made of [u64]s. *)
Definition may_call (s : S) (call : Call) : Prop :=
  match call with
  | CallCreate head => ch_revision head ≤ u64_max ∧ ch_authority_epoch head ≤ u64_max
  | CallUpdate expected _ => observed s expected
  | CallPublish expected meta d => keeps_other_claims expected meta (ph_stream d)
  | _ => True
  end.

(** The receipt an acknowledged call leaves; a claim may be acknowledged by the claim it
    finds instead. *)
Definition call_receipt (call : Call) : result ControlHeadError string :=
  match call with
  | CallCreate head => Ok (ch_operation_id head)
  | CallUpdate _ next => Ok (ch_operation_id next)
  | CallClaim _ d => Err HeadPrecondition
  | CallAdvance _ d | CallPublish _ _ d =>
    pending_operation_id (ph_operation_id d) (ph_stream d) (operation_suffix (ph_stage d))
  | CallComplete _ stream operation_id => pending_operation_id operation_id stream "complete"
  end.

Definition acknowledged_by (call : Call) (s : S) (sn : Snapshot) : Prop :=
  observed s sn
  ∧ ∀ op, call_receipt call = Ok op → is_Some (ch_completed_operations (sn_head sn) !! op).

(** A store, and the calls under way on it with what each still does. *)
Record Coordinators := mkCoordinators { co_store : S; co_ops : list (Call * Op Snapshot) }.

Inductive co_step : Coordinators → Coordinators → Prop :=
| co_call s ops call :
    may_call s call →
    co_step (mkCoordinators s ops) (mkCoordinators s ((call, call_requests call) :: ops))
| co_get s l1 l2 call k r :
    (r = store_get s path ∨ ∃ reason, r = Err (StoreOther reason)) →
    co_step (mkCoordinators s (l1 ++ (call, GetHead k) :: l2)) (mkCoordinators s (l1 ++ (call, k r) :: l2))
| co_put s s' l1 l2 call bytes mode k io r :
    store_put io s path bytes mode = (r, s') →
    co_step (mkCoordinators s (l1 ++ (call, PutHead bytes mode k) :: l2))
      (mkCoordinators s' (l1 ++ (call, k r) :: l2))
| co_gone s l1 l2 x : co_step (mkCoordinators s (l1 ++ x :: l2)) (mkCoordinators s (l1 ++ l2))
| co_other s s' ops other bytes mode r :
    other ≠ path → os_put s other bytes mode = (r, s') →
    co_step (mkCoordinators s ops) (mkCoordinators s' ops).

Definition co_initial (y : Coordinators) : Prop := os_get (co_store y) path = None ∧ co_ops y = [].

Definition co_inv (y : Coordinators) : Prop :=
  Forall (λ x, safe (acknowledged_by x.1) (co_store y) x.2) (co_ops y).

Lemma acknowledged_later call s s' sn :
  later_store s s' → acknowledged_by call s sn → acknowledged_by call s' sn.
Proof. intros Hl [Ho Hr]. split; [by eapply observed_later|done]. Qed.

Lemma phase_acknowledged s call m operation_id st phase :
  call_receipt call = pending_operation_id operation_id st phase →
  safe (phase_recorded operation_id st phase) s m → safe (acknowledged_by call) s m.
Proof.
  intros Hc. apply safe_mono. intros s1 sn (op & Hop & Ho & Hr). split; [done|].
  intros op'. rewrite Hc, Hop. by intros [= <-].
Qed.

Lemma call_safe s call : may_call s call → safe (acknowledged_by call) s (call_requests call).
Proof.
  destruct call as [h|e n|e d|e d|e meta d|e st op]; cbn [may_call call_requests].
  - intros [Hr He]. eapply safe_mono; [|by apply create_safe]. intros s1 sn [Ho (r & Hrc & _)].
    split; [done|]. intros op [= <-]. eauto.
  - intros Ho. eapply safe_mono; [|by apply update_inner_safe]. intros s1 sn [Ho1 (r & Hrc & _)].
    split; [done|]. intros op [= <-]. eauto.
  - intros _. eapply safe_mono; [|apply claim_safe]. intros s1 sn [Ho _]. by split.
  - intros _. by eapply phase_acknowledged, advance_safe.
  - intros Hk. by eapply phase_acknowledged, publish_safe.
  - intros _. by eapply phase_acknowledged, complete_safe.
Qed.

Lemma co_inv_later s s' (ops : list (Call * Op Snapshot)) :
  later_store s s' → Forall (λ x, safe (acknowledged_by x.1) s x.2) ops →
  Forall (λ x, safe (acknowledged_by x.1) s' x.2) ops.
Proof.
  intros Hl Hops. eapply Forall_impl; [exact Hops|]. intros [call m]. cbn. apply safe_later; [|done].
  intros ? ? ?. apply acknowledged_later.
Qed.

Lemma co_step_inv y y' : co_inv y → co_step y y' → co_inv y' ∧ later_store (co_store y) (co_store y').
Proof.
  unfold co_inv. intros Hi Hs. destruct Hs as [s ops call Hmay|s l1 l2 call k r Hr|s s' l1 l2 call bytes mode k io r Hp
    |s l1 l2 x|s s' ops other bytes mode r Hne Hp]; cbn in *.
  - split; [|apply rtc_refl]. constructor; [by apply call_safe|done].
  - apply Forall_app in Hi as [H1' [Hk H2']%Forall_cons]. split; [|apply rtc_refl].
    apply Forall_app. split; [done|]. constructor; [|done]. apply Hk; [apply rtc_refl|done].
  - apply Forall_app in Hi as [H1' [Hk H2']%Forall_cons]. cbn in Hk.
    destruct (Hk s io r s') as [Hl Hk']; [apply rtc_refl|done|]. split; [|done].
    apply Forall_app. split; [by eapply co_inv_later|]. constructor; [done|by eapply co_inv_later].
  - split; [|apply rtc_refl]. apply Forall_app in Hi as [? [_ ?]%Forall_cons]. by apply Forall_app.
  - assert (later_store s s') as Hl; [|split; [by eapply co_inv_later|done]].
    apply rtc_once. split; [by exists other, bytes, mode, r|]. left.
    destruct (os_put_outcome s other bytes mode) as [(s1 & v & Hp' & _ & _ & Ho)|[Hp' _]];
      rewrite Hp in Hp'; simplify_eq; [|done]. by apply Ho.
Qed.

Lemma co_steps_inv y y' :
  co_inv y → rtc co_step y y' → co_inv y' ∧ later_store (co_store y) (co_store y').
Proof.
  intros Hi Hs. revert Hi. induction Hs as [y|y y1 y' Hs _ IH]; intros Hi; [split; [done|apply rtc_refl]|].
  destruct (co_step_inv _ _ Hi Hs) as [Hi1 Hl]. destruct (IH Hi1) as [Hi2 Hl2]. split; [done|by etrans].
Qed.

(** ** The history of the head *)

Definition head_at (s : S) (h : ControlHead) : Prop :=
  ∃ bytes v, os_get s path = Some (bytes, v) ∧ control_head_from_slice bytes = Ok h.

Lemma head_later s s' h : later_store s s' → head_at s h → ∃ h', head_at s' h' ∧ rtc head_next h h'.
Proof.
  intros Hl. revert h. induction Hl as [s|s s1 s' [_ Hc] _ IH]; intros h (bytes & v & Hg & Hh).
  { exists h. split; [by exists bytes, v|apply rtc_refl]. }
  destruct Hc as [Hsame|(b1 & v1 & Hg1 & h1 & -> & Hch)].
  { apply IH. exists bytes, v. by rewrite Hsame. }
  rewrite Hg in Hch. destruct Hch as (h0 & Hh0 & Hn). assert (h0 = h) as -> by congruence.
  destruct (IH h1) as (h' & Hat & Hr).
  { exists (control_head_to_vec h1), v1. split; [done|apply control_head_back]. }
  exists h'. split; [done|]. eapply rtc_l; [exact Hn|exact Hr].
Qed.

(** Every head of a store that began without one is valid and within the width. *)
Lemma stored_head s s' h :
  os_get s path = None → later_store s s' → head_at s' h → first_head h.
Proof.
  intros Hnone Hl. revert h. revert s' Hl. apply (rtc_ind_r (λ s', ∀ h, head_at s' h → first_head h)).
  { intros h (b & v & Hg & _). congruence. }
  intros s1 s2 _ [_ Hc] IH h (b & v & Hg & Hh). destruct Hc as [Hsame|(b1 & v1 & Hg1 & h1 & -> & Hch)].
  { apply IH. exists b, v. by rewrite <- Hsame. }
  assert (h1 = h) as -> by (rewrite Hg1 in Hg; simplify_eq; rewrite control_head_back in Hh; by simplify_eq).
  destruct (os_get s1 path) as [[b0 v0]|] eqn:Hg0; [|done]. destruct Hch as (h0 & Hh0 & Hn).
  destruct (IH h0) as (Hv & Hr & He); [by exists b0, v0|].
  split_and!; [apply (hn_valid _ _ Hn)|rewrite (hn_revision _ _ Hn); unfold saturating_add; lia|].
  destruct (hn_authority _ _ Hn) as [[? _]|(_ & ? & _)]; lia.
Qed.

(** What a history keeps. *)
Lemma history_keeps h h' :
  ch_revision h ≤ u64_max → rtc head_next h h' →
  ch_revision h ≤ ch_revision h' ∧ ch_completed_operations h ⊆ ch_completed_operations h'
  ∧ ch_authority_epoch h ≤ ch_authority_epoch h'
  ∧ (ch_authority_epoch h' = ch_authority_epoch h → ch_source_marker h' = ch_source_marker h)
  ∧ (ch_revision h' = ch_revision h → ch_revision h < u64_max → h' = h).
Proof.
  intros Hw Hr. revert Hw. induction Hr as [h|h h1 h' Hn _ IH]; intros Hw; [done|].
  pose proof (hn_revision _ _ Hn) as Hrev. pose proof (hn_receipts _ _ Hn) as Hrc.
  pose proof (hn_authority _ _ Hn) as Ha. unfold saturating_add in Hrev.
  destruct IH as (IH1 & IH2 & IH3 & IH4 & _); [lia|].
  assert (ch_authority_epoch h ≤ ch_authority_epoch h1) by (destruct Ha as [[? _]|(? & _)]; lia).
  split_and!; [lia|by etrans|lia| |lia].
  intros He. destruct Ha as [[Hea Hm]|(? & _)]; [|lia]. rewrite <- Hm. apply IH4. lia.
Qed.

Lemma co_reach y0 y :
  co_initial y0 → rtc co_step y0 y →
  co_inv y ∧ ∀ h, head_at (co_store y) h → first_head h.
Proof.
  intros [H0' Hops] Hr. destruct (co_steps_inv y0 y) as [Hi Hl]; [by unfold co_inv; rewrite Hops|done|].
  split; [done|]. intros h. by eapply stored_head.
Qed.

Lemma co_history y0 y y' h h' :
  co_initial y0 → rtc co_step y0 y → rtc co_step y y' →
  head_at (co_store y) h → head_at (co_store y') h' → first_head h ∧ first_head h' ∧ rtc head_next h h'.
Proof.
  intros Hinit Hr Hr' Hh Hh'. destruct (co_reach _ _ Hinit Hr) as [Hi Hf].
  destruct (co_reach y0 y') as [_ Hf']; [done|by etrans|].
  destruct (co_steps_inv _ _ Hi Hr') as [_ Hl]. destruct (head_later _ _ _ Hl Hh) as (h1 & Hh1 & Hn).
  split_and!; [by apply Hf|by apply Hf'|].
  destruct Hh' as (b & v & Hg & Hb), Hh1 as (b1 & v1 & Hg1 & Hb1). congruence.
Qed.

(** C8: The control head is one linear history: whatever coordinators run against the store, and
    however their requests interleave, fail or lose their answers, every stored head is valid;
    revisions never go back and a revision names one head; the receipts of completed operations
    are never lost or changed; the authority epoch never goes back, and within an epoch the
    source marker is one value. *)
Theorem control_head_is_linear y0 y y' h h' :
  co_initial y0 → rtc co_step y0 y → rtc co_step y y' →
  head_at (co_store y) h → head_at (co_store y') h' →
  validate_head h = Ok tt ∧ validate_head h' = Ok tt
  ∧ ch_revision h ≤ ch_revision h'
  ∧ (ch_revision h' = ch_revision h → ch_revision h < u64_max → h' = h)
  ∧ ch_completed_operations h ⊆ ch_completed_operations h'
  ∧ ch_authority_epoch h ≤ ch_authority_epoch h'
  ∧ (ch_authority_epoch h' = ch_authority_epoch h → ch_source_marker h' = ch_source_marker h).
Proof.
  intros Hinit Hr Hr' Hh Hh'.
  destruct (co_history _ _ _ _ _ Hinit Hr Hr' Hh Hh') as ((Hv & Hw & _) & (Hv' & _) & Hn).
  destruct (history_keeps _ _ Hw Hn) as (? & ? & ? & ? & ?). done.
Qed.

(** C29: An acknowledged operation is in every later head: when a create, an update, or a phase of a
    handoff has returned a snapshot, the head of every later store carries its receipt. *)
Theorem acknowledged_operation_is_kept y0 y y' call sn op :
  co_initial y0 → rtc co_step y0 y → rtc co_step y y' →
  (call, Return (Ok sn)) ∈ co_ops y → call_receipt call = Ok op →
  ∃ h', head_at (co_store y') h' ∧ is_Some (ch_completed_operations h' !! op).
Proof.
  intros Hinit Hr Hr' Hin Hop. destruct (co_reach _ _ Hinit Hr) as [Hi Hf].
  unfold co_inv in Hi. rewrite Forall_forall in Hi. specialize (Hi _ Hin sn eq_refl).
  destruct Hi as [(s0 & bytes & Hl0 & Hg & Hb & Hv) Hrec]. destruct (Hrec _ Hop) as [r Hr0].
  destruct (co_steps_inv y y') as [_ Hl]; [by apply (co_reach _ _ Hinit Hr)|done|].
  destruct (head_later s0 (co_store y') (sn_head sn)) as (h' & Hh' & Hn); [by etrans|by exists bytes, (sn_version sn)|].
  exists h'. split; [done|]. exists r. clear -Hn Hr0.
  induction Hn as [|h h1 h' Hn _ IH]; [done|]. apply IH. eapply lookup_weaken; [done|apply (hn_receipts _ _ Hn)].
Qed.

(** C9: A claimed stream stays claimed: once a head carries a handoff claim on a stream, every later
    head carries the same claim at the same or a later phase, unless the claim was route-published
    and was removed by a head whose manifest routes the stream through the successor the claim
    names.  No operation replaces it, moves its phase back or changes its source, target members,
    placements or successor meanwhile. *)
Theorem handoff_claim_is_held y0 y y' h h' st c :
  co_initial y0 → rtc co_step y0 y → rtc co_step y y' →
  head_at (co_store y) h → head_at (co_store y') h' →
  cm_pending_handoffs (ch_metadata h) !! st = Some c →
  (∃ c', cm_pending_handoffs (ch_metadata h') !! st = Some c' ∧ claim_moves c c')
  ∨ (∃ h1 h2 c1, rtc head_next h h1 ∧ head_next h1 h2 ∧ rtc head_next h2 h'
       ∧ cm_pending_handoffs (ch_metadata h1) !! st = Some c1 ∧ claim_moves c c1
       ∧ ph_stage c1 = RoutePublished ∧ successor_routed c1 (ch_metadata h2)).
Proof.
  intros Hinit Hr Hr' Hh Hh' Hc.
  destruct (co_history _ _ _ _ _ Hinit Hr Hr' Hh Hh') as (_ & _ & Hn). clear -Hn Hc.
  revert c Hc. induction Hn as [h|h h1 h' Hn Hn' IH]; intros c Hc.
  { left. exists c. split; [done|apply claim_moves_refl]. }
  destruct (hn_claims _ _ Hn st c Hc) as [(c1 & Hc1 & Hm)|(_ & Hst & _ & Hroute)].
  - destruct (IH c1 Hc1) as [(c' & Hc' & Hm')|(h2 & h3 & c2 & Hr2 & Hn3 & Hr3 & Hc2 & Hm2 & Hst2 & Hroute)].
    + left. exists c'. split; [done|by eapply claim_moves_trans].
    + right. exists h2, h3, c2. split_and!; try done; [by eapply rtc_l|by eapply claim_moves_trans].
  - right. exists h, h1, c. split_and!; try done; apply claim_moves_refl.
Qed.

(** A call that runs alone. *)
Lemma runs_alone s ops call (m : Op Snapshot) :
  rtc co_step (mkCoordinators s ((call, m) :: ops))
    (mkCoordinators (run_requests path s m).2 ((call, Return (run_requests path s m).1) :: ops)).
Proof.
  revert s. induction m as [r|k IH|bytes mode k IH]; intros s; cbn [run_requests].
  - apply rtc_refl.
  - eapply rtc_l; [|apply IH]. apply (co_get s [] ops call k). by left.
  - destruct (os_put s path bytes mode) as [r s'] eqn:Hp. eapply rtc_l; [|apply IH].
    by apply (co_put s s' [] ops call bytes mode k StoreDone r).
Qed.

End Coordinators.
