(* ===== verification/ControlHeadToy.v ===== *)
(** * ControlHeadToy: a control head in a toy store

    A first head, and the handoff of a stream from one cohort to another: claimed, advanced,
    published and completed. *)

From S2P Require Import Prelude Text Wire Client Placement Manifest Cohorts ControlDoc Control ControlSafety ControlToy ObjectStore ControlHead ControlHeadSafety.

#[local] Open Scope N_scope.

#[export] Instance h_host : ManifestHost := {|
  sha256_hex bs := "h" +:+ String.string_of_list_byte (take 40 bs);
  segments_json segments := replicate (length (concat (map_to_list segments).*2)) x61;
  url_parse _ := Some ("http", true);
|}.

#[export] Instance h_metadata_json : MetadataJson :=
  {| metadata_to_vec m := replicate (N.to_nat (rm_revision (cm_manifest m)) + size (cm_pending_handoffs m)) x6d |}.

#[export] Instance h_etag : Etag (list byte) := {| has_etag _ := true |}.

(** ** The heads *)

Definition h_member (id : string) (cohort : N) : DurableMember :=
  mkMember id ("http://" +:+ id) MActive cohort "" "" "" 0 "" 0.

Definition h_old : list DurableMember := [h_member "a" 1; h_member "b" 1; h_member "c" 1].
Definition h_new : list DurableMember := [h_member "d" 2; h_member "e" 2; h_member "f" 2].

Definition h_source : StreamSegment :=
  mkSegment 1 None 1 ["a"; "b"; "c"] (member_hash h_old) 1 1 1 "op" "" 0.

Definition h_segments : segment_map := {["s" := [h_source]]}.

Definition h_meta : ControlMetadata :=
  mkMetadata 1 (list_to_map ((λ m, (dm_id m, m)) <$> h_old ++ h_new))
    {[1 := mkCohort 1 ["a"; "b"; "c"] CActive "" 0; 2 := mkCohort 2 ["d"; "e"; "f"] CActive "" 0]}
    (mkManifest 1 1 (manifest_digest h_segments) 1 1 "hash" 1 h_segments "op" "" 0) ∅.

Definition h_marker : ControlSourceMarker := mkSource "quorum" 1 1 "d".

Definition or_head (r : result ControlHeadError ControlHead) (d : ControlHead) : ControlHead :=
  match r with Ok h => h | Err _ => d end.

Definition h_dummy : ControlHead := mkHead 1 1 1 "op" ∅ h_marker "" h_meta.

Definition h_head0 : ControlHead := or_head (control_head_new 1 1 "boot" h_marker h_meta) h_dummy.

Definition h_claim (stage : PendingHandoffStage) (archived : option N) (placement : option PlacementEpoch)
    (successor : option StreamSegment) : PendingHandoffDescriptor :=
  mkHandoff "move" "s" h_source 2 h_new (member_hash h_new) "" 0 1 (mkPlacementEpoch 2 "t") 3
    placement stage archived successor.

Definition h_successor : StreamSegment :=
  mkSegment 6 None 2 ["d"; "e"; "f"] (member_hash h_new) 1 2 3 "move" "" 0.

Definition h_prepared : PendingHandoffDescriptor := h_claim Prepared None None None.
Definition h_archived : PendingHandoffDescriptor :=
  h_claim ArchiveVerified (Some 5) (Some (mkPlacementEpoch 3 "r")) (Some h_successor).
Definition h_published : PendingHandoffDescriptor :=
  h_claim RoutePublished (Some 5) (Some (mkPlacementEpoch 3 "r")) (Some h_successor).

Definition h_closed : StreamSegment :=
  mkSegment 1 (Some 5) 1 ["a"; "b"; "c"] (member_hash h_old) 1 1 1 "op" "" 0.

Definition h_routed : segment_map := {["s" := [h_closed; h_successor]]}.

Definition h_meta' : ControlMetadata :=
  mkMetadata 1 (cm_members h_meta) (cm_cohorts h_meta)
    (mkManifest 1 2 (manifest_digest h_routed) 1 1 "hash" 1 h_routed "move:route" "" 0)
    {["s" := h_published]}.

(** The heads the run goes through, made by the code's own functions. *)
Definition h_phase (h : ControlHead) (meta : ControlMetadata) (phase : string) : ControlHead :=
  or_head (op ← pending_operation_id "move" "s" phase; next ← head_with_metadata h meta op;
           merge_completed_operations next h) h_dummy.

Definition h_head1 : ControlHead := h_phase h_head0 (set_pending h_meta {["s" := h_prepared]}) "claim".
Definition h_head2 : ControlHead := h_phase h_head1 (set_pending h_meta {["s" := h_archived]}) "archive-verified".
Definition h_head3 : ControlHead := h_phase h_head2 h_meta' "route-published".
Definition h_head4 : ControlHead := h_phase h_head3 (set_pending h_meta' ∅) "complete".

(** ** A codec with short names for those heads *)

Definition h_known : list ControlHead := [h_head0; h_head1; h_head2; h_head3; h_head4].

#[local] Instance stage_countable : Countable PendingHandoffStage :=
  inj_countable' rank (λ n, match n with 0 => Prepared | 1 => SourceFenced | 2 => ArchiveVerified | _ => RoutePublished end)
    ltac:(by intros []).

#[local] Instance placement_countable : Countable PlacementEpoch :=
  inj_countable' (λ p, (pe_epoch p, pe_route_digest p)) (λ '(a, b), mkPlacementEpoch a b) ltac:(by intros []).

#[local] Instance handoff_countable : Countable PendingHandoffDescriptor :=
  inj_countable'
    (λ d, (ph_operation_id d, ph_stream d, ph_source d, ph_target_cohort_id d, ph_target_members d,
           ph_target_member_hash d, ph_target_tier d, ph_target_max_append_bytes d, ph_target_writer_epoch d,
           ph_transition_placement d, ph_successor_placement_epoch d, ph_successor_placement d, ph_stage d,
           ph_archived_lsn d, ph_successor d))
    (λ '(a, b, c, d, e, f, g, h, i, j, k, l, m, n, o), mkHandoff a b c d e f g h i j k l m n o)
    ltac:(by intros []).

#[local] Instance metadata_countable : Countable ControlMetadata :=
  inj_countable'
    (λ m, (cm_membership_epoch m, cm_members m, cm_cohorts m, cm_manifest m, cm_pending_handoffs m))
    (λ '(a, b, c, d, e), mkMetadata a b c d e) ltac:(by intros []).

#[local] Instance receipt_countable : Countable ControlOperationReceipt :=
  inj_countable' (λ r, (cr_authority_epoch r, cr_revision r, cr_metadata_digest r))
    (λ '(a, b, c), mkReceipt a b c) ltac:(by intros []).

#[local] Instance head_countable : Countable ControlHead :=
  inj_countable'
    (λ h, (ch_version h, ch_authority_epoch h, ch_revision h, ch_operation_id h, ch_completed_operations h,
           ch_source_marker h, ch_metadata_digest h, ch_metadata h))
    (λ '(a, b, c, d, e, f, g, h), mkHead a b c d e f g h) ltac:(by intros []).

#[export] Instance h_codec : HeadCodec := {|
  control_head_to_vec h :=
    match position (λ k, bool_decide (h = k)) h_known with
    | Some i => [byte_of_N (N.of_nat i + 1)]
    | None => x00 :: String.list_byte_of_string (cd_write (codec ControlHead) h)
    end;
  control_head_from_slice bs :=
    match bs with
    | x00 :: rest => cd_read (codec ControlHead) (String.string_of_list_byte rest)
    | b :: _ => ok_or (h_known !! N.to_nat (Byte.to_N b - 1)) "unknown"
    | [] => Err "empty"
    end;
|}.

#[export] Instance h_codec_laws : HeadCodecLaws.
Proof.
  split. intros h. cbn [control_head_to_vec h_codec].
  destruct (position _ _) as [i|] eqn:Hp.
  - unfold position in Hp. apply fmap_Some in Hp as ([j x] & (Hx & ->%bool_decide_eq_true & _)%list_find_Some & ->).
    cbn [fst control_head_from_slice h_codec]. assert (length h_known = 5%nat) as Hlen by reflexivity.
    generalize dependent h_known. clear. intros known Hx Hlen.
    destruct j as [|[|[|[|[|j]]]]].
    + change (ok_or (known !! 0%nat) "unknown" = Ok x). by rewrite Hx.
    + change (ok_or (known !! 1%nat) "unknown" = Ok x). by rewrite Hx.
    + change (ok_or (known !! 2%nat) "unknown" = Ok x). by rewrite Hx.
    + change (ok_or (known !! 3%nat) "unknown" = Ok x). by rewrite Hx.
    + change (ok_or (known !! 4%nat) "unknown" = Ok x). by rewrite Hx.
    + apply lookup_lt_Some in Hx. lia.
  - cbn [control_head_from_slice h_codec]. rewrite String.string_of_list_byte_of_string. apply cd_back.
Qed.

Definition h_path : string := control_head_path "tenant".

(** ** The run *)

Abbreviation HeadOp := (Requests (list byte) ControlHeadError (ControlHeadSnapshot (list byte))).

Definition h_bytes (h : ControlHead) : list byte := control_head_to_vec h.
Definition h_sn (h : ControlHead) : ControlHeadSnapshot (list byte) := mkSnapshot h (h_bytes h).

Definition h_after (s : ToyStore) (call : @Call (list byte)) : ToyStore :=
  (run_requests h_path s (call_requests call)).2.

Definition h_answer (s : ToyStore) (call : @Call (list byte)) :
    result ControlHeadError (ControlHeadSnapshot (list byte)) :=
  (run_requests h_path s (call_requests call)).1.

Definition h_create : @Call (list byte) := CallCreate h_head0.
Definition h_call1 : @Call (list byte) := CallClaim (h_sn h_head0) h_prepared.
Definition h_call2 : @Call (list byte) := CallAdvance (h_sn h_head1) h_archived.
Definition h_call3 : @Call (list byte) := CallPublish (h_sn h_head2) h_meta' h_published.
Definition h_call4 : @Call (list byte) := CallComplete (h_sn h_head3) "s" "move".

Definition h_s0 : ToyStore := h_after ∅ h_create.
Definition h_s1 : ToyStore := h_after h_s0 h_call1.
Definition h_s2 : ToyStore := h_after h_s1 h_call2.
Definition h_s3 : ToyStore := h_after h_s2 h_call3.
Definition h_s4 : ToyStore := h_after h_s3 h_call4.

Example answers :
  (λ '(s, c), is_ok (h_answer s c)) <$> [(∅, h_create); (h_s0, h_call1); (h_s1, h_call2); (h_s2, h_call3); (h_s3, h_call4)]
  = [true; true; true; true; true].
Proof. vm_compute. reflexivity. Qed.

Abbreviation Pool := (@Coordinators ToyStore (list byte)).

Definition h_next (y : Pool) (call : @Call (list byte)) : Pool :=
  mkCoordinators (h_after (co_store y) call) ((call, Return (h_answer (co_store y) call)) :: co_ops y).

Definition h_y : Pool := mkCoordinators ∅ [].
Definition h_y0 : Pool := h_next h_y h_create.
Definition h_y1 : Pool := h_next h_y0 h_call1.
Definition h_y2 : Pool := h_next h_y1 h_call2.
Definition h_y3 : Pool := h_next h_y2 h_call3.
Definition h_y4 : Pool := h_next h_y3 h_call4.

Lemma h_turn (y : Pool) call :
  may_call h_path (co_store y) call → rtc (co_step h_path) y (h_next y call).
Proof.
  intros Hmay. destruct y as [s ops]. eapply rtc_l; [by apply co_call|]. apply runs_alone.
Qed.

Lemma h_starts : co_initial h_path h_y.
Proof. split; reflexivity. Qed.

Lemma h_run0 : rtc (co_step h_path) h_y h_y0.
Proof. apply h_turn. split; vm_compute; discriminate. Qed.

Lemma h_run1 : rtc (co_step h_path) h_y0 h_y1.
Proof. apply h_turn. exact I. Qed.

Lemma h_run2 : rtc (co_step h_path) h_y h_y2.
Proof.
  transitivity h_y0; [exact h_run0|]. transitivity h_y1; [exact h_run1|]. apply h_turn. exact I.
Qed.

Lemma h_run24 : rtc (co_step h_path) h_y2 h_y4.
Proof.
  transitivity h_y3; [apply h_turn|apply h_turn; exact I].
  intros st Hst. transitivity (@None PendingHandoffDescriptor); [by apply lookup_singleton_ne|].
  assert (claims (h_sn h_head2) = {["s" := h_archived]}) as -> by (vm_compute; reflexivity).
  symmetry. by apply lookup_singleton_ne.
Qed.

Lemma h_run4 : rtc (co_step h_path) h_y1 h_y4.
Proof. transitivity h_y2; [apply h_turn; exact I|exact h_run24]. Qed.

Lemma h_run04 : rtc (co_step h_path) h_y0 h_y4.
Proof. transitivity h_y1; [exact h_run1|exact h_run4]. Qed.

Lemma h_run01 : rtc (co_step h_path) h_y h_y1.
Proof. transitivity h_y0; [exact h_run0|exact h_run1]. Qed.

Lemma h_at0 : head_at h_path (co_store h_y0) h_head0.
Proof. exists [x01], [x01]. split; vm_compute; reflexivity. Qed.

Lemma h_at1 : head_at h_path (co_store h_y1) h_head1.
Proof. exists [x02], [x02]. split; vm_compute; reflexivity. Qed.

Lemma h_at4 : head_at h_path (co_store h_y4) h_head4.
Proof. exists [x05], [x05]. split; vm_compute; reflexivity. Qed.

Lemma control_head_is_linear_witness :
  validate_head h_head4 = Ok tt ∧ ch_revision h_head0 ≤ ch_revision h_head4
  ∧ ch_completed_operations h_head0 ⊆ ch_completed_operations h_head4.
Proof.
  destruct (control_head_is_linear h_path h_y h_y0 h_y4 h_head0 h_head4 h_starts h_run0
    h_run04 h_at0 h_at4) as (_ & Hv & Hr & _ & Hc & _).
  exact (conj Hv (conj Hr Hc)).
Defined.

Definition h_claim_op : string :=
  match pending_operation_id "move" "s" "archive-verified" with Ok op => op | Err _ => "" end.

Lemma h_answer2 : h_answer (co_store h_y1) h_call2 = Ok (h_sn h_head2).
Proof. vm_compute. reflexivity. Qed.

Lemma acknowledged_operation_is_kept_witness :
  ∃ h', head_at h_path (co_store h_y4) h' ∧ is_Some (ch_completed_operations h' !! h_claim_op).
Proof.
  apply (acknowledged_operation_is_kept h_path h_y h_y2 h_y4 h_call2 (h_sn h_head2) h_claim_op
    h_starts h_run2 h_run24).
  - rewrite <- h_answer2. left.
  - vm_compute. reflexivity.
Defined.

Lemma handoff_claim_is_held_witness :
  (∃ c', cm_pending_handoffs (ch_metadata h_head4) !! "s" = Some c' ∧ claim_moves h_prepared c')
  ∨ (∃ h1 h2 c1, rtc head_next h_head1 h1 ∧ head_next h1 h2 ∧ rtc head_next h2 h_head4
       ∧ cm_pending_handoffs (ch_metadata h1) !! "s" = Some c1 ∧ claim_moves h_prepared c1
       ∧ ph_stage c1 = RoutePublished ∧ successor_routed c1 (ch_metadata h2)).
Proof.
  apply (handoff_claim_is_held h_path h_y h_y1 h_y4 h_head1 h_head4 "s" h_prepared h_starts
    h_run01 h_run4 h_at1 h_at4).
  vm_compute. reflexivity.
Defined.
