(* ===== verification/RouteCache.v ===== *)
(** * RouteCache: the bounded cache of route-repair proofs

    [crates/walleye-bitr-server/src/route_cache.rs]: a gateway remembers for which routes a
    quorum of the members persisted the current manifest, so that it need not repair them
    before every append.  SHA-256 and the JSON of the key are parameters. *)

From S2P Require Import Prelude Text Wire Client Placement Manifest Cohorts.

#[local] Open Scope N_scope.

Definition DEFAULT_ROUTE_REPAIR_CACHE_CAPACITY : N := 256.

(** What names one obligation to repair a route. *)
Record RouteRepairContext := mkContext {
  rx_authority_epoch : N;
  rx_head_revision : N;
  rx_head_digest : string;
  rx_route : StreamSegment;
  rx_members : list DurableMember;
}.

#[global] Instance RouteRepairContext_eq_dec : EqDecision RouteRepairContext.
Proof. solve_decision. Defined.

Record RouteRepairProof := mkProof {
  rp_context : RouteRepairContext;
  rp_acknowledged_member_ids : list string;
  rp_quorum : N;
}.

(** The serialization variant of the source is never built: the JSON of a key has only
    strings, integers and lists of them, which [serde_json] always encodes. *)
Inductive RouteRepairCacheError := RouteInvalid (reason : string).

Record CachedRoute := mkCached { cr_context : RouteRepairContext; cr_last_used : N }.

Record RouteRepairCache := mkCache {
  rc_capacity : N;
  rc_clock : N;
  rc_entries : gmap string CachedRoute;
}.

(** [serde_json::to_vec] of the tuple a key is the digest of. *)
Class RouteJson := {
  route_key_json : N → N → string → StreamSegment → list DurableMember → list byte;
}.

(** One member of the loop that collects the identities. *)
Definition collect_identity (members : gmap string DurableMember) (m : DurableMember)
    : result RouteRepairCacheError (gmap string DurableMember) :=
  if blank (dm_id m) || negb (is_none (members !! dm_id m))
  then Err (RouteInvalid "route repair context has duplicate or empty member identities")
  else Ok (<[dm_id m := m]> members).

(** [RouteRepairContext::validate]. *)
Definition validate_context (c : RouteRepairContext) : result RouteRepairCacheError unit :=
  let route := rx_route c in
  if (rx_authority_epoch c =? 0) || (rx_head_revision c =? 0) then
    Err (RouteInvalid "route repair context requires nonzero authority and head revisions")
  else if blank (rx_head_digest c) then
    Err (RouteInvalid "route repair context is missing the head digest")
  else if (sg_start_lsn route =? 0) || bool_decide (sg_member_ids route = [])
          || existsb blank (sg_member_ids route) || unordered_ids (sg_member_ids route) then
    Err (RouteInvalid "route repair context has an invalid member set")
  else if blank (sg_member_hash route) || blank (sg_operation_id route)
          || (sg_manifest_revision route =? 0) then
    Err (RouteInvalid "route repair context is missing immutable route binding")
  else
    members ← try_fold collect_identity ∅ (rx_members c);
    if negb (N.of_nat (size members) =? len (sg_member_ids route))
       || existsb (λ id, is_none (members !! id)) (sg_member_ids route) then
      Err (RouteInvalid "route repair context members do not match the route")
    else Ok tt.

(** [RouteRepairContext::new]. *)
Definition context_new (authority_epoch head_revision : N) (head_digest : string) (route : StreamSegment)
    (members : list DurableMember) : result RouteRepairCacheError RouteRepairContext :=
  let c := mkContext authority_epoch head_revision head_digest route members in
  _ ← validate_context c; Ok c.

(** [RouteRepairProof::validate]. *)
Definition validate_proof (p : RouteRepairProof) : result RouteRepairCacheError (gset string) :=
  _ ← validate_context (rp_context p);
  let member_ids := sg_member_ids (rx_route (rp_context p)) in
  if (rp_quorum p =? 0) || (len member_ids <? rp_quorum p) then
    Err (RouteInvalid "route repair proof has an invalid quorum")
  else
    let acknowledged : gset string := list_to_set (rp_acknowledged_member_ids p) in
    if negb (N.of_nat (size acknowledged) =? len (rp_acknowledged_member_ids p))
       || existsb (λ id, negb (bool_decide (id ∈ member_ids))) (elements acknowledged)
       || (N.of_nat (size acknowledged) <? rp_quorum p) then
      Err (RouteInvalid "route repair proof does not contain an exact member quorum")
    else Ok acknowledged.

(** [RouteRepairCache::new]. *)
Definition cache_new (capacity : N) : RouteRepairCache := mkCache capacity 0 ∅.

(** [iter().min_by_key(..)]: the first entry used longest ago. *)
Definition oldest_entry (entries : gmap string CachedRoute) : option string :=
  fst <$> foldl (λ acc e, match acc with
                          | None => Some e
                          | Some o => if cr_last_used (snd e) <? cr_last_used (snd o) then Some e else Some o
                          end) None (sbtree_entries entries).

(** The [while] loop of [record_quorum_repair]; each turn removes an entry, so the number of
    entries bounds it. *)
Fixpoint evict (fuel : nat) (capacity : N) (entries : gmap string CachedRoute) : gmap string CachedRoute :=
  match fuel with
  | O => entries
  | S fuel =>
    if capacity <? N.of_nat (size entries) then
      match oldest_entry entries with
      | Some oldest => evict fuel capacity (delete oldest entries)
      | None => entries
      end
    else entries
  end.

Section Cache.
Context `{ManifestHost, RouteJson}.

Definition key_digest (c : RouteRepairContext) : result RouteRepairCacheError string :=
  _ ← validate_context c;
  let by_id : gmap string DurableMember := foldl (λ m member, <[dm_id member := member]> m) ∅ (rx_members c) in
  canonical_members ← try_map (λ id, ok_or (by_id !! id)
    (RouteInvalid "route repair context is missing a route member identity")) (sg_member_ids (rx_route c));
  Ok (sha256_hex (route_key_json (rx_authority_epoch c) (rx_head_revision c) (rx_head_digest c)
                    (rx_route c) canonical_members)).

Definition record_quorum_repair (cache : RouteRepairCache) (p : RouteRepairProof)
    : result RouteRepairCacheError string * RouteRepairCache :=
  match (_ ← validate_proof p;
         if rc_capacity cache =? 0 then Err (RouteInvalid "route repair cache capacity must be positive")
         else key_digest (rp_context p)) with
  | Err e => (Err e, cache)
  | Ok key =>
    let clock := saturating_add (rc_clock cache) 1 in
    let entries := <[key := mkCached (rp_context p) clock]> (rc_entries cache) in
    (Ok key, mkCache (rc_capacity cache) clock (evict (size entries) (rc_capacity cache) entries))
  end.

Definition contains (cache : RouteRepairCache) (c : RouteRepairContext)
    : result RouteRepairCacheError bool * RouteRepairCache :=
  match (_ ← validate_context c; key_digest c) with
  | Err e => (Err e, cache)
  | Ok key =>
    match rc_entries cache !! key with
    | None => (Ok false, cache)
    | Some entry =>
      if negb (bool_decide (cr_context entry = c)) then
        (Ok false, mkCache (rc_capacity cache) (rc_clock cache) (delete key (rc_entries cache)))
      else
        let clock := saturating_add (rc_clock cache) 1 in
        (Ok true, mkCache (rc_capacity cache) clock
                    (<[key := mkCached (cr_context entry) clock]> (rc_entries cache)))
    end
  end.

End Cache.

(** ** Eviction *)

Lemma oldest_entry_spec entries k :
  oldest_entry entries = Some k →
  ∃ e, entries !! k = Some e ∧ ∀ k' e', entries !! k' = Some e' → cr_last_used e ≤ cr_last_used e'.
Proof.
  unfold oldest_entry.
  assert (∀ (l : list (string * CachedRoute)) acc o,
    foldl (λ acc e, match acc with None => Some e
      | Some o => if cr_last_used (snd e) <? cr_last_used (snd o) then Some e else Some o end) acc l = Some o →
    (acc = Some o ∨ o ∈ l) ∧ (∀ e, acc = Some e ∨ e ∈ l → cr_last_used (snd o) ≤ cr_last_used (snd e))) as Hfold.
  { induction l as [|x l IH]; intros acc o; cbn [foldl].
    { intros ->. split; [by left|]. intros e [[= <-]|?%not_elem_of_nil]; [lia|done]. }
    intros [Hin Hmin]%IH. destruct acc as [a|].
    - destruct (cr_last_used (snd x) <? cr_last_used (snd a)) eqn:Hlt; bool_facts.
      + split; [destruct Hin as [[= <-]|]; right; [left|by right]|].
        assert (cr_last_used (snd o) ≤ cr_last_used (snd x)) by (apply Hmin; by left).
        intros e [[= <-]|[->|He]%elem_of_cons]; [lia|lia|apply Hmin; by right].
      + split; [destruct Hin as [[= <-]|]; [by left|right; by right]|].
        assert (cr_last_used (snd o) ≤ cr_last_used (snd a)) by (apply Hmin; by left).
        intros e [[= <-]|[->|He]%elem_of_cons]; [lia|lia|apply Hmin; by right].
    - split; [destruct Hin as [[= <-]|]; right; [left|by right]|].
      intros e [|[->|He]%elem_of_cons]; [done|apply Hmin; by left|apply Hmin; by right]. }
  intros ([k0 e0] & Hf & ->)%fmap_Some. cbn. destruct (Hfold _ _ _ Hf) as [[|Hin] Hmin]; [done|].
  exists e0. split; [by apply elem_of_sbtree_entries|].
  intros k' e' He'%elem_of_sbtree_entries. apply (Hmin (k', e')). by right.
Qed.

Lemma oldest_entry_None entries : oldest_entry entries = None → entries = ∅.
Proof.
  unfold oldest_entry. intros Hn%fmap_None. destruct (map_choose_or_empty entries) as [(k & e & Hk)| ->]; [|done].
  apply elem_of_sbtree_entries in Hk. exfalso. revert Hn.
  assert (∀ (l : list (string * CachedRoute)) a, is_Some (foldl (λ acc e, match acc with None => Some e
      | Some o => if cr_last_used (snd e) <? cr_last_used (snd o) then Some e else Some o end) (Some a) l)) as Hs.
  { induction l as [|x l IH]; intros a; cbn [foldl]; [eauto|]. destruct (_ <? _); apply IH. }
  destruct (sbtree_entries entries) as [|x l]; [by apply not_elem_of_nil in Hk|]. cbn [foldl].
  destruct (Hs l x) as [? ->]. done.
Qed.

Lemma evict_subset fuel capacity entries : evict fuel capacity entries ⊆ entries.
Proof.
  revert entries. induction fuel as [|fuel IH]; intros entries; cbn [evict]; [done|].
  destruct (_ <? _); [|done]. destruct (oldest_entry entries) as [k|]; [|done].
  etrans; [apply IH|apply delete_subseteq].
Qed.

(** The loop ends with at most [capacity] entries. *)
Lemma evict_bound fuel capacity entries :
  (size entries ≤ fuel)%nat → N.of_nat (size (evict fuel capacity entries)) ≤ capacity.
Proof.
  revert entries. induction fuel as [|fuel IH]; intros entries Hf; cbn [evict]; [lia|].
  destruct (capacity <? _) eqn:Hlt; bool_facts; [|lia].
  destruct (oldest_entry entries) as [k|] eqn:Hk.
  - apply oldest_entry_spec in Hk as (e & He & _). apply IH. rewrite map_size_delete, He. cbn. lia.
  - apply oldest_entry_None in Hk as ->. rewrite map_size_empty in *. lia.
Qed.

(** With one entry too many, the loop removes one entry, which no other outlived. *)
Lemma evict_one fuel capacity entries :
  (size entries ≤ fuel)%nat → N.of_nat (size entries) ≤ capacity + 1 →
  evict fuel capacity entries = entries
  ∨ ∃ k e, entries !! k = Some e ∧ evict fuel capacity entries = delete k entries
      ∧ capacity < N.of_nat (size entries)
      ∧ ∀ k' e', entries !! k' = Some e' → cr_last_used e ≤ cr_last_used e'.
Proof.
  destruct fuel as [|fuel]; intros Hf Hc; cbn [evict]; [by left|].
  destruct (capacity <? _) eqn:Hlt; bool_facts; [|by left].
  destruct (oldest_entry entries) as [k|] eqn:Hk; [|by left].
  apply oldest_entry_spec in Hk as (e & He & Hmin). right. exists k, e. split_and!; [done| |done|done].
  assert (size (delete k entries) = pred (size entries)) as Hsz by (rewrite map_size_delete, He; done).
  destruct fuel as [|fuel]; cbn [evict]; [done|].
  assert ((capacity <? N.of_nat (size (delete k entries))) = false) as ->; [|done].
  apply N.ltb_ge. lia.
Qed.

Section Laws.
Context `{ManifestHost, RouteJson}.

(** A cache in use, with the proofs it recorded so far. *)
Inductive cache_step : RouteRepairCache * list RouteRepairProof → RouteRepairCache * list RouteRepairProof → Prop :=
| step_record cache ps p key cache' :
    record_quorum_repair cache p = (Ok key, cache') → cache_step (cache, ps) (cache', p :: ps)
| step_refused cache ps p e cache' :
    record_quorum_repair cache p = (Err e, cache') → cache_step (cache, ps) (cache', ps)
| step_lookup cache ps c r cache' :
    contains cache c = (r, cache') → cache_step (cache, ps) (cache', ps).

Record cache_inv (cache : RouteRepairCache) (ps : list RouteRepairProof) : Prop := {
  ci_bound : N.of_nat (size (rc_entries cache)) ≤ rc_capacity cache;
  ci_clock : rc_clock cache ≤ u64_max;
  ci_used k e : rc_entries cache !! k = Some e → cr_last_used e ≤ rc_clock cache;
  ci_proven k e : rc_entries cache !! k = Some e →
    ∃ p acknowledged, p ∈ ps ∧ rp_context p = cr_context e ∧ validate_proof p = Ok acknowledged;
}.

Lemma record_inv cache ps p key cache' :
  cache_inv cache ps → record_quorum_repair cache p = (Ok key, cache') →
  cache_inv cache' (p :: ps) ∧ rc_capacity cache' = rc_capacity cache.
Proof.
  intros Hi. unfold record_quorum_repair.
  destruct (validate_proof p) as [acked|] eqn:Hp; cbn; [|done].
  destruct (rc_capacity cache =? 0); [done|]. destruct (key_digest (rp_context p)) as [k|]; [|done].
  intros [= <- <-]. split; [|done]. split; cbn.
  - by apply evict_bound.
  - unfold saturating_add. lia.
  - intros k' e' He'. eapply lookup_weaken in He'; [|apply evict_subset].
    apply lookup_insert_Some in He' as [[_ <-]|[_ He']]; cbn; [done|].
    pose proof (ci_used _ _ Hi _ _ He'). pose proof (ci_clock _ _ Hi). unfold saturating_add. lia.
  - intros k' e' He'. eapply lookup_weaken in He'; [|apply evict_subset].
    apply lookup_insert_Some in He' as [[_ <-]|[_ He']]; cbn.
    + exists p, acked. split_and!; [left|done..].
    + destruct (ci_proven _ _ Hi _ _ He') as (p' & a & ? & ? & ?). exists p', a. split_and!; [by right|done..].
Qed.

Lemma contains_inv cache ps c r cache' :
  cache_inv cache ps → contains cache c = (r, cache') → cache_inv cache' ps ∧ rc_capacity cache' = rc_capacity cache.
Proof.
  intros Hi. unfold contains. destruct (_ ← _; _) as [key|e]; [|by intros [= _ <-]].
  destruct (rc_entries cache !! key) as [entry|] eqn:Hk; [|by intros [= _ <-]].
  case_bool_decide as Hc; cbn [negb]; intros [= _ <-]; (split; [|done]); split; cbn.
  - rewrite map_size_insert, Hk. apply (ci_bound _ _ Hi).
  - unfold saturating_add. lia.
  - intros k' e' [[_ <-]|[_ He']]%lookup_insert_Some; cbn; [done|].
    pose proof (ci_used _ _ Hi _ _ He'). pose proof (ci_clock _ _ Hi). unfold saturating_add. lia.
  - intros k' e' [[_ <-]|[_ He']]%lookup_insert_Some; cbn; by eapply (ci_proven _ _ Hi).
  - pose proof (ci_bound _ _ Hi). rewrite map_size_delete. destruct (rc_entries cache !! key); cbn; lia.
  - apply (ci_clock _ _ Hi).
  - intros k' e' [_ He']%lookup_delete_Some. by eapply (ci_used _ _ Hi).
  - intros k' e' [_ He']%lookup_delete_Some. by eapply (ci_proven _ _ Hi).
Qed.

Lemma cache_reach capacity cache ps :
  rtc cache_step (cache_new capacity, []) (cache, ps) → cache_inv cache ps ∧ rc_capacity cache = capacity.
Proof.
  intros Hr. change (cache_inv (cache, ps).1 (cache, ps).2 ∧ rc_capacity (cache, ps).1 = capacity).
  revert Hr. generalize (cache, ps). apply rtc_ind_r.
  { split; [|done]. split; cbn; [rewrite map_size_empty; lia|lia|by intros ? ? ?%lookup_empty_Some..]. }
  intros y1 y2 _ Hs [Hi Hc]. destruct Hs as [c1 ps1 p k c' Hrec|c1 ps1 p e c' Hrec|c1 ps1 c r c' Hcon]; cbn in *.
  - apply (record_inv _ _ _ _ _ Hi) in Hrec as [? ?]. split; [done|congruence].
  - enough (c' = c1) as -> by done. unfold record_quorum_repair in Hrec. destruct (_ ← _; _); by simplify_eq.
  - apply (contains_inv _ _ _ _ _ Hi) in Hcon as [? ?]. split; [done|congruence].
Qed.

(** The cache is bounded and only ever answers from a quorum proof: whatever repairs are
    recorded and looked up, it never holds more routes than its capacity, and a lookup that
    hits was preceded by a recorded proof for exactly this authority, head, route and member
    list, acknowledged by a quorum of distinct members of the route. *)
Theorem cache_hit_is_proven capacity cache ps c cache' :
  rtc cache_step (cache_new capacity, []) (cache, ps) →
  N.of_nat (size (rc_entries cache)) ≤ capacity
  ∧ (contains cache c = (Ok true, cache') →
     ∃ p acknowledged, p ∈ ps ∧ rp_context p = c ∧ validate_proof p = Ok acknowledged
       ∧ rp_quorum p ≤ N.of_nat (size acknowledged)
       ∧ ∀ id, id ∈ acknowledged → id ∈ sg_member_ids (rx_route c)).
Proof.
  intros [Hi Hcap]%cache_reach. split; [rewrite <- Hcap; apply (ci_bound _ _ Hi)|].
  unfold contains. destruct (_ ← _; _) as [key|e]; [|done].
  destruct (rc_entries cache !! key) as [entry|] eqn:Hk; [|done].
  case_bool_decide as Hc; cbn [negb]; [|done]. intros _.
  destruct (ci_proven _ _ Hi _ _ Hk) as (p & a & Hp & Hpc & Hv). exists p, a. rewrite Hc in Hpc.
  split_and!; [done..| |]; unfold validate_proof in Hv; apply bind_Ok in Hv as (_ & _ & Hv);
    destruct (_ || _) in Hv; [done| |done|];
    match type of Hv with (if ?b then _ else _) = _ => destruct b eqn:Hb; [done|] end;
    injection Hv as <-; bool_facts; [lia|].
  intros id Hid. rewrite <- Hpc. destruct (decide (id ∈ sg_member_ids (rx_route (rp_context p)))) as [|Hn]; [done|].
  exfalso. match goal with Hx : existsb _ _ = false |- _ => revert Hx end. apply not_false_iff_true.
  apply existsb_exists. exists id. split; [by apply list_elem_of_In, elem_of_elements|].
  by rewrite bool_decide_eq_false_2.
Qed.

(** Recording a proof evicts by recency: the recorded route is held with the newest clock value,
    and another route is dropped only when every route that stays was used at least as recently. *)
Theorem record_evicts_least_recent capacity cache ps p key cache' :
  rtc cache_step (cache_new capacity, []) (cache, ps) → rc_clock cache < u64_max →
  record_quorum_repair cache p = (Ok key, cache') →
  rc_entries cache' !! key = Some (mkCached (rp_context p) (rc_clock cache + 1))
  ∧ ∀ k e, rc_entries cache !! k = Some e → k ≠ key →
      rc_entries cache' !! k = Some e
      ∨ (rc_entries cache' !! k = None
         ∧ ∀ k' e', rc_entries cache' !! k' = Some e' → cr_last_used e ≤ cr_last_used e').
Proof.
  intros [Hi Hcap]%cache_reach Hclock. unfold record_quorum_repair.
  destruct (validate_proof p) as [acked|]; cbn; [|done].
  destruct (rc_capacity cache =? 0) eqn:H0'; [done|]. destruct (key_digest (rp_context p)) as [k0|]; [|done].
  intros [= <- <-]. cbn [rc_entries]. bool_facts.
  replace (saturating_add (rc_clock cache) 1) with (rc_clock cache + 1) by (unfold saturating_add; lia).
  set (new := mkCached (rp_context p) (rc_clock cache + 1)).
  assert (size (<[k0:=new]> (rc_entries cache)) ≤ S (size (rc_entries cache)))%nat as Hsz.
  { rewrite map_size_insert. by destruct (rc_entries cache !! k0); cbn; lia. }
  pose proof (ci_bound _ _ Hi).
  destruct (evict_one (size (<[k0:=new]> (rc_entries cache))) (rc_capacity cache) (<[k0:=new]> (rc_entries cache)))
    as [->|(k & e & He & -> & Hover & Hmin)]; [done|lia| |].
  { split; [apply lookup_insert_eq|]. intros k e He Hne. left. by rewrite lookup_insert_ne. }
  assert (k ≠ k0) as Hne.
  { intros ->. rewrite lookup_insert_eq in He. injection He as <-.
    enough (rc_entries cache ⊆ {[k0 := new]}) as Hsub.
    { apply map_subseteq_size in Hsub as Hs. enough (size (<[k0:=new]> (rc_entries cache)) ≤ 1)%nat by lia.
      transitivity (size (<[k0:=new]> ({[k0 := new]} : gmap string CachedRoute))).
      - by apply map_subseteq_size, insert_mono.
      - by rewrite insert_singleton_eq, map_size_singleton. }
    apply map_subseteq_spec. intros k' e' He'. destruct (decide (k' = k0)) as [->|Hne].
    - exfalso. rewrite map_size_insert, He' in Hover. cbn in Hover. lia.
    - exfalso. pose proof (ci_used _ _ Hi _ _ He'). specialize (Hmin k' e').
      rewrite lookup_insert_ne in Hmin by done. specialize (Hmin He'). cbn in Hmin. lia. }
  rewrite lookup_delete_ne, lookup_insert_eq by done. split; [done|].
  intros k' e' He' Hk'. destruct (decide (k' = k)) as [->|Hk].
  - right. rewrite lookup_delete_eq. split; [done|]. rewrite lookup_insert_ne, He' in He by done. injection He as <-.
    intros k1 e1 [_ He1]%lookup_delete_Some. by apply (Hmin k1).
  - left. by rewrite lookup_delete_ne, lookup_insert_ne.
Qed.

End Laws.

(** ** A cache at work *)

#[local] Instance cache_host : ManifestHost := {|
  sha256_hex := String.string_of_list_byte;
  segments_json _ := [];
  url_parse _ := None;
|}.

#[local] Instance cache_json : RouteJson :=
  {| route_key_json _ revision _ _ members := to_le_bytes 4 revision ++ concat ((λ m, as_bytes (dm_volume_id m)) <$> members) |}.

Definition r_member (id volume : string) : DurableMember :=
  mkMember id ("http://" +:+ id) MActive 1 "" "" volume 0 "" 0.
Definition r_members : list DurableMember := [r_member "a" "1"; r_member "b" "2"; r_member "c" "3"].
Definition r_route : StreamSegment := mkSegment 1 None 1 ["a"; "b"; "c"] "hash" 1 2 1 "op" "" 0.
Definition r_context (revision : N) : RouteRepairContext := mkContext 3 revision "head" r_route r_members.
Definition r_proof (revision : N) : RouteRepairProof := mkProof (r_context revision) ["a"; "b"] 2.

Definition r_after1 : RouteRepairCache := (record_quorum_repair (cache_new 1) (r_proof 7)).2.
Definition r_after2 : RouteRepairCache := (record_quorum_repair r_after1 (r_proof 8)).2.

Lemma r_run1 : rtc cache_step (cache_new 1, []) (r_after1, [r_proof 7]).
Proof.
  apply rtc_once. eapply step_record. transitivity ((record_quorum_repair (cache_new 1) (r_proof 7)).1, r_after1);
    [apply surjective_pairing|]. vm_compute. reflexivity.
Qed.

Lemma cache_hit_is_proven_witness :
  ∃ p acknowledged, p ∈ [r_proof 7] ∧ rp_context p = r_context 7 ∧ validate_proof p = Ok acknowledged.
Proof.
  destruct (cache_hit_is_proven 1 r_after1 [r_proof 7] (r_context 7) (contains r_after1 (r_context 7)).2 r_run1)
    as [_ Hhit].
  destruct Hhit as (p & a & Hp & Hc & Hv & _).
  { transitivity ((contains r_after1 (r_context 7)).1, (contains r_after1 (r_context 7)).2);
      [apply surjective_pairing|]. vm_compute. reflexivity. }
  exists p, a. exact (conj Hp (conj Hc Hv)).
Defined.

(** A second route in a cache of one evicts the first. *)
Example one_route_at_a_time :
  ((contains r_after2 (r_context 7)).1, (contains r_after2 (r_context 8)).1) = (Ok false, Ok true).
Proof. vm_compute. reflexivity. Qed.

(** A lookup with the same members in another order has the same key, misses, and takes the
    proof out of the cache. *)
Example reordered_lookup_evicts :
  let reordered := mkContext 3 7 "head" r_route (rev r_members) in
  let after := contains r_after1 reordered in
  key_digest reordered = key_digest (r_context 7)
  ∧ (contains r_after1 (r_context 7)).1 = Ok true
  ∧ after.1 = Ok false ∧ (contains after.2 (r_context 7)).1 = Ok false.
Proof. vm_compute. split_and!; reflexivity. Qed.
