(* ===== verification/Handoff.v ===== *)
(** * Handoff: moving a stream from one cohort to another

    [cutover_stream], [install_placement_on_nodes] and [publish_one_pending_handoff] of
    [ReplicaGateway] in [crates/walleye-bitr-server/src/lib.rs]: fence the source, archive its
    certified tail, persist the claim with the successor route, install the successor's
    placement, and publish the route in the control head.

    The driver talks to the members, the archive and the head store: it is a program that asks
    questions ([Programs.Prog]) and goes on with whatever answers come.  A program may also not end: the
    loop that certifies the tail carries a fuel, and [certify_ends] says when it is enough. *)

From S2P Require Import Prelude Text Programs Wire Client Placement Manifest Cohorts NodeLog Evidence ControlDoc Control ObjectStore ControlHead.

#[local] Open Scope N_scope.

(** ** Records of a cutover *)

Record StreamCutover := mkCutover {
  sc_stream : string;
  sc_source : StreamSegment;
  sc_successor : StreamSegment;
  sc_archived_lsn : N;
  sc_pending_handoff : option PendingHandoffDescriptor;
}.

(** The arguments of [cutover_stream]. *)
Record CutoverCall := mkCutoverCall {
  cc_stream : string;
  cc_source : StreamSegment;
  cc_target_cohort_id : N;
  cc_target_ids : list string;
  cc_target_nodes : list ReplicaNode;
  cc_target_member_hash : string;
  cc_target_tier : string;
  cc_target_max_append_bytes : N;
  cc_next_manifest_revision : N;
  cc_operation_id : string;
}.

(** What [cutover_stream] asks: the local control document, the claim of the stream in the
    control head, whether there is a head, the CAS of a phase, the placements and snapshots of
    members, a placement fence on members, and the archive. *)
Inductive CutoverReq : Type → Type :=
| ReadState : CutoverReq (option DurableControlState)
| ReadClaim (stream operation_id : string) : CutoverReq (result ReplicaError (option PendingHandoffDescriptor))
| ReadPlacements (stream : string) (nodes : list ReplicaNode)
    : CutoverReq (list (result ReplicaError PlacementEpoch))
| HeadPresent : CutoverReq (result ReplicaError bool)
| ClaimHandoff (d : PendingHandoffDescriptor) : CutoverReq (result ReplicaError bool)
| AdvanceHandoff (d : PendingHandoffDescriptor) : CutoverReq (result ReplicaError bool)
| InstallFence (stream : string) (placement : PlacementEpoch) (nodes : list ReplicaNode)
    : CutoverReq (list (result ReplicaError unit))
| FetchSnapshots (stream : string) (nodes : list ReplicaNode)
    : CutoverReq (list (ReplicaNode * result ReplicaError NodeSnapshot))
| ArchivedLsn (stream : string) : CutoverReq (result ReplicaError N)
| ArchiveRecover (stream : string) (after_lsn : N) : CutoverReq (result ReplicaError (list EncryptedRecord))
| ArchiveCommitted (records : list EncryptedRecord) : CutoverReq (result ReplicaError N).

Abbreviation Cutover := (Prog CutoverReq ReplicaError).

(** ** Fences *)

(** One node per id, in the order of the ids; the first of two wins. *)
Definition unique_nodes (nodes : list ReplicaNode) : list ReplicaNode :=
  sbtree_values (foldl (λ m node, match m !! rn_id node with
                                  | Some _ => m
                                  | None => <[rn_id node := node]> m
                                  end) (∅ : gmap string ReplicaNode) nodes).

Definition count_ok {E A} (results : list (result E A)) : N := len (filter (λ r, is_ok r = true) results).

Definition find_err {E A} (results : list (result E A)) : option E :=
  head (omap (λ r, match r with Err e => Some e | Ok _ => None end) results).

(** What [install_placement_on_nodes] makes of the answers. *)
Definition installed (quorum : N) (results : list (result ReplicaError unit)) : result ReplicaError unit :=
  if count_ok results <? quorum then Err (default QuorumUnavailable (find_err results)) else Ok tt.

Definition install_placement_on_nodes (quorum : N) (stream : string) (placement : PlacementEpoch)
    (nodes : list ReplicaNode) : Cutover unit :=
  results ← ask (InstallFence stream placement (unique_nodes nodes));
  PReturn (installed quorum results).

(** ** The certified tail of the source *)

(** One candidate added to what the archive holds. *)
Definition join_candidate (archived_before : N) (m : gmap N EncryptedRecord) (record : EncryptedRecord)
    : result ReplicaError (gmap N EncryptedRecord) :=
  if er_lsn record <=? archived_before then Ok m
  else match m !! er_lsn record with
       | Some existing =>
         if bool_decide (existing = record) then Ok (<[er_lsn record := record]> m) else Err LsnConflict
       | None => Ok (<[er_lsn record := record]> m)
       end.

Definition join_tail (archived : list EncryptedRecord) (archived_before : N)
    (candidates : gmap (string * N) EncryptedRecord) : result ReplicaError (gmap N EncryptedRecord) :=
  try_fold (join_candidate archived_before)
    (foldl (λ m r, <[er_lsn r := r]> m) ∅ archived) (btree_values candidates).

(** The [while] loop over [records_by_lsn]: the certified records, and the first LSN after them.
    [None]: the fuel ran out. *)
Fixpoint certify (fuel : nat) (quorum : N) (records_by_lsn : gmap N EncryptedRecord) (expected expected_epoch : N)
    : option (result ReplicaError (list EncryptedRecord * N)) :=
  match fuel with
  | O => None
  | S fuel =>
    match records_by_lsn !! expected with
    | None => Some (Ok ([], expected))
    | Some record =>
      if negb (er_committed_lsn record =? saturating_sub expected 1)
         || (er_writer_epoch record <? expected_epoch)
      then Some (Err (RecoveryAmbiguous expected 0 quorum))
      else
        tail ← certify fuel quorum records_by_lsn (saturating_add expected 1) (er_writer_epoch record);
        Some ('(certified, next) ← tail; Ok (record :: certified, next))
    end
  end.

(** The first LSN above the certified records. *)
Definition first_above (records_by_lsn : gmap N EncryptedRecord) (expected : N) : option N :=
  head (filter (λ lsn, expected < lsn) (nbtree_entries records_by_lsn).*1).

(** From the joined records to what is archived and where the source ends. *)
Definition certified_tail (quorum : N) (source : StreamSegment) (archived_before : N)
    (records_by_lsn : gmap N EncryptedRecord) : option (result ReplicaError (list EncryptedRecord * N)) :=
  let start := N.max (sg_start_lsn source) (saturating_add archived_before 1) in
  tail ← certify (S (size records_by_lsn)) quorum records_by_lsn start (sg_writer_epoch source);
  Some ('(certified, expected) ← tail;
        match first_above records_by_lsn expected with
        | Some received => Err (RecoveryGap expected received)
        | None => Ok (filter (λ r, archived_before < er_lsn r) certified, expected)
        end).

Definition lift_loop {A} (o : option (result ReplicaError A)) : Cutover A :=
  match o with Some r => PReturn r | None => PLoops end.

Section Handoff.
Context `{ManifestHost, RingHost, LogJson}.
Context (control : option DurableControlState) (quorum : N).

Definition manifest_operation_id (stream : string) (expected_revision start_lsn cohort_id writer_epoch : N)
    : string :=
  "manifest-" +:+ sha256_hex (as_bytes "lakeday-cloud/replica-manifest-operation/v1" ++ [x00]
    ++ as_bytes stream ++ [x00] ++ to_le_bytes 8 expected_revision ++ to_le_bytes 8 start_lsn
    ++ to_le_bytes 8 cohort_id ++ to_le_bytes 8 writer_epoch).

(** Whether the snapshots prove a tail: no ambiguous quorum, and nothing unsafe while a source
    is silent. *)
Definition source_candidates (stream : string) (archived_before : N) (snaps : snapshots) (available sources : N)
    : result ReplicaError (gmap (string * N) EncryptedRecord) :=
  _ ← reject_ambiguous_quorum_records control quorum stream archived_before snaps;
  let '(candidates, unsafe_records) := collect_candidates_from_snapshots control quorum stream snaps in
  if negb (unsafe_records =? 0) && (available <? sources) then Err (RecoveryAmbiguous 0 0 quorum)
  else Ok candidates.

Definition source_tail (call : CutoverCall) (source_nodes : list ReplicaNode) : Cutover (N * N) :=
  let stream := cc_stream call in
  results ← ask (FetchSnapshots stream source_nodes);
  let available := count_ok results.*2 in
  if available <? quorum then PReturn (Err NodeUnavailable)
  else
    let snaps := (λ nr, (nr.1, result_ok nr.2)) <$> results in
    archived_before ← try_ask (ArchivedLsn stream);
    candidates ← PReturn (source_candidates stream archived_before snaps available (len source_nodes));
    archived ← try_ask (ArchiveRecover stream archived_before);
    records_by_lsn ← PReturn (join_tail archived archived_before candidates);
    '(new_archive_records, expected) ←
      lift_loop (certified_tail quorum (cc_source call) archived_before records_by_lsn);
    _ ← (if bool_decide (new_archive_records = []) then PReturn (Ok 0)
         else try_ask (ArchiveCommitted new_archive_records));
    archived_lsn ← try_ask (ArchivedLsn stream);
    let cutover_lsn := saturating_sub expected 1 in
    if archived_lsn <? cutover_lsn
    then PReturn (Err (NodeStorage ("archive ended at " +:+ pretty.pretty archived_lsn
                                    +:+ ", cutover requires " +:+ pretty.pretty cutover_lsn)))
    else PReturn (Ok (archived_lsn, cutover_lsn)).

(** The nodes of the source, each looked up in the control document. *)
Fixpoint read_source_nodes (member_ids : list string) : Cutover (list ReplicaNode) :=
  match member_ids with
  | [] => PReturn (Ok [])
  | id :: rest =>
    state ← ask ReadState;
    node ← PReturn (ok_or (state ← state; member_node <$> ct_members state !! id) QuorumUnavailable);
    nodes ← read_source_nodes rest;
    PReturn (Ok (node :: nodes))
  end.

(** The placement that closes the source: the claim's, or one above every placement read. *)
Definition transition_placement (call : CutoverCall) (source_nodes : list ReplicaNode)
    (existing_claim : option PendingHandoffDescriptor) : Cutover (N * PlacementEpoch) :=
  match existing_claim with
  | Some claim =>
    PReturn (Ok (pe_epoch (ph_transition_placement claim), ph_transition_placement claim))
  | None =>
    source_placements ← ask (ReadPlacements (cc_stream call) source_nodes);
    target_placements ← ask (ReadPlacements (cc_stream call) (cc_target_nodes call));
    if (count_ok source_placements <? quorum) || (count_ok target_placements <? quorum)
    then PReturn (Err NodeUnavailable)
    else
      let epochs := pe_epoch <$> omap result_ok (source_placements ++ target_placements) in
      let source_epoch := N.max (N.max (foldr N.max 0 epochs) (sg_placement_epoch (cc_source call)))
                            (sg_manifest_revision (cc_source call)) in
      let transition_epoch := N.max (saturating_add source_epoch 1) 1 in
      PReturn (Ok (transition_epoch,
        placement_for_transition (cc_stream call) (cc_source call) (cc_operation_id call) transition_epoch))
  end.

Definition prepared_claim (call : CutoverCall) (target_members : list DurableMember)
    (transition_epoch : N) (transition : PlacementEpoch) : PendingHandoffDescriptor :=
  mkHandoff (cc_operation_id call) (cc_stream call) (cc_source call) (cc_target_cohort_id call)
    target_members (cc_target_member_hash call) (cc_target_tier call) (cc_target_max_append_bytes call)
    (sg_writer_epoch (cc_source call)) transition (N.max (saturating_add transition_epoch 1) 1)
    None Prepared None None.

Definition set_stage (d : PendingHandoffDescriptor) (stage : PendingHandoffStage) : PendingHandoffDescriptor :=
  mkHandoff (ph_operation_id d) (ph_stream d) (ph_source d) (ph_target_cohort_id d) (ph_target_members d)
    (ph_target_member_hash d) (ph_target_tier d) (ph_target_max_append_bytes d) (ph_target_writer_epoch d)
    (ph_transition_placement d) (ph_successor_placement_epoch d) (ph_successor_placement d) stage
    (ph_archived_lsn d) (ph_successor d).

(** The claim once the archive covers the source. *)
Definition verified_claim (d : PendingHandoffDescriptor) (stage : PendingHandoffStage) (archived_lsn : N)
    (placement : PlacementEpoch) (successor : StreamSegment) : PendingHandoffDescriptor :=
  mkHandoff (ph_operation_id d) (ph_stream d) (ph_source d) (ph_target_cohort_id d) (ph_target_members d)
    (ph_target_member_hash d) (ph_target_tier d) (ph_target_max_append_bytes d) (ph_target_writer_epoch d)
    (ph_transition_placement d) (ph_successor_placement_epoch d) (Some placement) stage
    (Some archived_lsn) (Some successor).

(** The claim a cutover works under, if the cluster has a control head. *)
Definition pending_claim (call : CutoverCall) (target_members : list DurableMember) (transition_epoch : N)
    (transition : PlacementEpoch) (existing_claim : option PendingHandoffDescriptor)
    : Cutover (option PendingHandoffDescriptor) :=
  match existing_claim with
  | Some claim => PReturn (Ok (Some claim))
  | None =>
    present ← try_ask HeadPresent;
    if present : bool then
      let descriptor := prepared_claim call target_members transition_epoch transition in
      _ ← try_ask (ClaimHandoff descriptor);
      PReturn (Ok (Some descriptor))
    else PReturn (Ok None)
  end.

Definition before (stage : PendingHandoffStage) (pending : option PendingHandoffDescriptor) : bool :=
  match pending with Some claim => rank (ph_stage claim) <? rank stage | None => true end.

(** Close the source, unless the claim says it is closed. *)
Definition fence_source (call : CutoverCall) (source_nodes : list ReplicaNode) (transition : PlacementEpoch)
    (pending : option PendingHandoffDescriptor) : Cutover (option PendingHandoffDescriptor) :=
  if before SourceFenced pending then
    _ ← install_placement_on_nodes quorum (cc_stream call) transition source_nodes;
    match pending with
    | Some claim =>
      let fenced := set_stage claim SourceFenced in
      _ ← try_ask (AdvanceHandoff fenced);
      PReturn (Ok (Some fenced))
    | None => PReturn (Ok None)
    end
  else PReturn (Ok pending).

(** Where the source ends: from the claim, or by archiving its certified tail. *)
Definition archive_source (call : CutoverCall) (source_nodes : list ReplicaNode)
    (pending : option PendingHandoffDescriptor) : Cutover (N * N) :=
  match pending with
  | Some claim =>
    if rank ArchiveVerified <=? rank (ph_stage claim) then
      archived_lsn ← PReturn (ok_or (ph_archived_lsn claim) LsnConflict);
      PReturn (Ok (archived_lsn, archived_lsn))
    else source_tail call source_nodes
  | None => source_tail call source_nodes
  end.

Definition computed_successor (call : CutoverCall) (successor_start final_epoch : N) : StreamSegment :=
  mkSegment successor_start None (cc_target_cohort_id call) (cc_target_ids call) (cc_target_member_hash call)
    (sg_writer_epoch (cc_source call)) (cc_next_manifest_revision call) final_epoch
    (manifest_operation_id (cc_stream call) (cc_next_manifest_revision call) successor_start
       (cc_target_cohort_id call) (sg_writer_epoch (cc_source call)))
    (cc_target_tier call) (cc_target_max_append_bytes call).

(** Persist the successor route in the claim, or compare it with the one it has. *)
Definition verify_claim (pending : option PendingHandoffDescriptor) (archived_lsn : N)
    (successor : StreamSegment) (final_placement : PlacementEpoch)
    : Cutover (option PendingHandoffDescriptor) :=
  match pending with
  | None => PReturn (Ok None)
  | Some claim =>
    if rank ArchiveVerified <=? rank (ph_stage claim) then
      if negb (bool_decide (ph_successor claim = Some successor))
         || negb (bool_decide (ph_successor_placement claim = Some final_placement))
         || negb (bool_decide (ph_archived_lsn claim = Some archived_lsn))
      then PReturn (Err LsnConflict) else PReturn (Ok (Some claim))
    else
      let archived_claim := verified_claim claim ArchiveVerified archived_lsn final_placement successor in
      _ ← try_ask (AdvanceHandoff archived_claim);
      PReturn (Ok (Some archived_claim))
  end.

Definition claim_differs (call : CutoverCall) (target_members : list DurableMember)
    (claim : PendingHandoffDescriptor) : bool :=
  negb (bool_decide (ph_source claim = cc_source call))
  || negb (ph_target_cohort_id claim =? cc_target_cohort_id call)
  || negb (bool_decide (ph_target_members claim = target_members))
  || negb (bool_decide (ph_target_member_hash claim = cc_target_member_hash call)).

Definition cutover_stream (call : CutoverCall) : Cutover StreamCutover :=
  source_nodes ← read_source_nodes (sg_member_ids (cc_source call));
  if negb (len source_nodes =? REPLICATION_FACTOR) || negb (len (cc_target_ids call) =? REPLICATION_FACTOR)
     || negb (len (cc_target_nodes call) =? REPLICATION_FACTOR)
  then PReturn (Err QuorumUnavailable)
  else
    existing_claim ← try_ask (ReadClaim (cc_stream call) (cc_operation_id call));
    '(transition_epoch, transition) ← transition_placement call source_nodes existing_claim;
    state ← ask ReadState;
    state ← PReturn (ok_or state QuorumUnavailable);
    let target_members := filter (λ m, dm_id m ∈ cc_target_ids call) (sbtree_values (ct_members state)) in
    if negb (len target_members =? REPLICATION_FACTOR) then PReturn (Err QuorumUnavailable)
    else if match existing_claim with Some claim => claim_differs call target_members claim | None => false end
    then PReturn (Err LsnConflict)
    else
      pending ← pending_claim call target_members transition_epoch transition existing_claim;
      pending ← fence_source call source_nodes transition pending;
      '(archived_lsn, cutover_lsn) ← archive_source call source_nodes pending;
      let successor_start := N.max (saturating_add cutover_lsn 1) (sg_start_lsn (cc_source call)) in
      let final_epoch := match pending with
                         | Some claim => ph_successor_placement_epoch claim
                         | None => N.max (saturating_add transition_epoch 1) 1
                         end in
      let successor := default (computed_successor call successor_start final_epoch)
                         (claim ← pending; ph_successor claim) in
      let final_placement := default (placement_for_route (cc_stream call) successor)
                               (claim ← pending; ph_successor_placement claim) in
      pending ← verify_claim pending archived_lsn successor final_placement;
      _ ← install_placement_on_nodes quorum (cc_stream call) final_placement source_nodes;
      _ ← install_placement_on_nodes quorum (cc_stream call) final_placement (cc_target_nodes call);
      PReturn (Ok (mkCutover (cc_stream call) (cc_source call) successor archived_lsn pending)).

End Handoff.

(** ** Publishing the route *)

(** What [publish_one_pending_handoff] asks: the head with its version, the two CAS operations of
    the head store, and the adoption of a head by the local control document. *)
Inductive PublishReq (V : Type) : Type → Type :=
| LoadHead : PublishReq V (result ReplicaError (option (ControlHeadSnapshot V)))
| PublishHandoff (expected : ControlHeadSnapshot V) (meta : ControlMetadata) (d : PendingHandoffDescriptor)
    : PublishReq V (result ReplicaError (ControlHeadSnapshot V))
| CompleteHandoff (expected : ControlHeadSnapshot V) (stream operation_id : string)
    : PublishReq V (result ReplicaError (ControlHeadSnapshot V))
| AdoptHead (head : ControlHead) : PublishReq V (result ReplicaError unit).

Arguments LoadHead {V}.
Arguments PublishHandoff {V} expected meta d.
Arguments CompleteHandoff {V} expected stream operation_id.
Arguments AdoptHead {V} head.

Definition close_range (s : StreamSegment) (end_lsn : N) : StreamSegment :=
  mkSegment (sg_start_lsn s) (Some end_lsn) (sg_cohort_id s) (sg_member_ids s) (sg_member_hash s)
    (sg_writer_epoch s) (sg_manifest_revision s) (sg_placement_epoch s) (sg_operation_id s) (sg_tier s)
    (sg_max_append_bytes s).

(** The last range is closed at the archive's watermark, or replaced when nothing of it was
    archived, and the successor follows. *)
Definition published_ranges (ranges : list StreamSegment) (archived_lsn : N) (successor : StreamSegment)
    : list StreamSegment :=
  match last ranges with
  | Some source =>
    if archived_lsn <? sg_start_lsn source then take (length ranges - 1) ranges ++ [successor]
    else take (length ranges - 1) ranges ++ [close_range source archived_lsn; successor]
  | None => ranges
  end.

(** The route a concurrent completion already published. *)
Definition same_open_route (successor range : StreamSegment) : bool :=
  (sg_start_lsn range =? sg_start_lsn successor) && (sg_cohort_id range =? sg_cohort_id successor)
  && bool_decide (sg_member_ids range = sg_member_ids successor)
  && bool_decide (sg_member_hash range = sg_member_hash successor)
  && (sg_placement_epoch range =? sg_placement_epoch successor) && is_none (sg_end_lsn range).

Section Publish.
Context `{ManifestHost, RingHost}.
Context {V : Type}.

Abbreviation Snapshot := (ControlHeadSnapshot V).

Definition head_ranges (expected : Snapshot) (stream : string) : option (list StreamSegment) :=
  rm_stream_segments (cm_manifest (ch_metadata (sn_head expected))) !! stream.

(** The metadata and the claim a publication writes over the head it expects. *)
Definition publish_plan (expected : Snapshot) (c : StreamCutover) (base : PendingHandoffDescriptor)
    : result ReplicaError (ControlMetadata * PendingHandoffDescriptor) :=
  let meta := ch_metadata (sn_head expected) in
  let manifest := cm_manifest meta in
  ranges ← ok_or (head_ranges expected (sc_stream c)) LsnConflict;
  last_range ← ok_or (last ranges) LsnConflict;
  next_manifest_revision ← ok_or (checked_add (rm_revision manifest) 1) (Protocol "manifest revision exhausted");
  let published_successor := default (sc_successor c) (ph_successor base) in
  if (sg_manifest_revision published_successor =? 0)
     || (next_manifest_revision <? sg_manifest_revision published_successor)
     || blank (sg_operation_id published_successor) then Err LsnConflict
  else if negb (bool_decide (last_range = sc_source c)) then Err LsnConflict
  else
    let archived_lsn := default (sc_archived_lsn c) (ph_archived_lsn base) in
    if negb (archived_lsn =? sc_archived_lsn c) then Err LsnConflict
    else
      let segments := <[sc_stream c := published_ranges ranges archived_lsn published_successor]>
                        (rm_stream_segments manifest) in
      let manifest' := mkManifest (rm_version manifest) next_manifest_revision (manifest_digest segments)
        (rm_writer_epoch manifest) (rm_cohort_id manifest) (rm_member_set_hash manifest)
        (rm_write_cohort_id manifest) segments (ph_operation_id base +:+ ":route") (rm_tier manifest)
        (rm_max_append_bytes manifest) in
      let placement := default (placement_for_route (sc_stream c) published_successor)
                         (ph_successor_placement base) in
      let descriptor := verified_claim base RoutePublished archived_lsn placement published_successor in
      Ok (mkMetadata (cm_membership_epoch meta) (cm_members meta) (cm_cohorts meta) manifest'
            (<[sc_stream c := descriptor]> (cm_pending_handoffs meta)), descriptor).

Abbreviation Publish := (Prog (PublishReq V) ReplicaError).

Definition complete_and_adopt (expected : Snapshot) (stream operation_id : string) : Publish unit :=
  head ← try_ask (CompleteHandoff expected stream operation_id);
  try_ask (AdoptHead (sn_head head)).

Definition publish_route (expected : Snapshot) (c : StreamCutover) (base : PendingHandoffDescriptor)
    : Publish unit :=
  '(meta, descriptor) ← PReturn (publish_plan expected c base);
  published ← try_ask (PublishHandoff expected meta descriptor);
  complete_and_adopt published (sc_stream c) (ph_operation_id base).

Definition publish_one_pending_handoff (c : StreamCutover) : Publish unit :=
  match sc_pending_handoff c with
  | None => PReturn (Ok tt)
  | Some base =>
    loaded ← try_ask LoadHead;
    expected ← PReturn (ok_or loaded (Protocol "authoritative membership head is not initialized"));
    let ranges := default [] (head_ranges expected (sc_stream c)) in
    match cm_pending_handoffs (ch_metadata (sn_head expected)) !! sc_stream c with
    | Some existing =>
      if bool_decide (ph_operation_id existing = ph_operation_id base)
         && bool_decide (ph_stage existing = RoutePublished) then
        published ← PReturn (ok_or (ph_successor existing) LsnConflict);
        if negb (existsb (λ range, bool_decide (range = published)) ranges) then PReturn (Err LsnConflict)
        else complete_and_adopt expected (sc_stream c) (ph_operation_id base)
      else publish_route expected c base
    | None =>
      if existsb (same_open_route (sc_successor c)) ranges then PReturn (Ok tt)
      else publish_route expected c base
    end
  end.

End Publish.
