(* ===== verification/HandoffSafety.v ===== *)
(** * HandoffSafety: a moved stream keeps every acknowledged record

    The order in which a cutover fences, archives, persists and installs, whatever its
    questions are answered; the tail it certifies covers what a quorum acknowledged; and the
    published routes send every archived LSN where it was and the rest to the successor. *)

From S2P Require Import Prelude Text Programs Traces Wire Client Placement Manifest Cohorts NodeLog NodeReplay NodeOps NodeSafety Evidence EvidenceSafety ControlDoc Control ObjectStore ControlHead ControlHeadSafety CatchUp CatchUpSafety Handoff.

#[local] Open Scope N_scope.

(** ** The protocol of a cutover *)

Section Protocol.
Context `{ManifestHost, RingHost, LogJson}.
Context (control : option DurableControlState) (quorum : N) (call : CutoverCall).

Abbreviation Trace := (list (Event CutoverReq)).

(** A fence that a quorum of the nodes acknowledged. *)
Definition fence_held (tr : Trace) (placement : PlacementEpoch) (nodes : list ReplicaNode) : Prop :=
  ∃ results, Asked (InstallFence (cc_stream call) placement (unique_nodes nodes)) results ∈ tr
    ∧ quorum ≤ count_ok results.

(** The claim the cutover found. *)
Definition resumed (tr : Trace) (claim : PendingHandoffDescriptor) : Prop :=
  Asked (ReadClaim (cc_stream call) (cc_operation_id call)) (Ok (Some claim)) ∈ tr.

(** The claim is durable: found in the head, or acknowledged by a CAS of the head. *)
Definition persisted (tr : Trace) (d : PendingHandoffDescriptor) : Prop :=
  resumed tr d ∨ ∃ b, Asked (AdvanceHandoff d) (Ok b) ∈ tr ∨ Asked (ClaimHandoff d) (Ok b) ∈ tr.

(** The placement that closes the source. *)
Definition closing (tr : Trace) (placement : PlacementEpoch) : Prop :=
  (∃ epoch, placement = placement_for_transition (cc_stream call) (cc_source call) (cc_operation_id call) epoch)
  ∨ ∃ claim, resumed tr claim ∧ placement = ph_transition_placement claim.

(** A quorum of the source acknowledged the closing placement. *)
Definition fenced (tr : Trace) (placement : PlacementEpoch) (nodes : list ReplicaNode) : Prop :=
  closing tr placement ∧ fence_held tr placement nodes.

(** The source takes no more appends: where the cluster has a control head, a quorum of the source
    acknowledged the closing placement of the claim and the head then took the claim as fenced,
    unless the claim the cutover found already says so; where it has none, a quorum of the source
    acknowledged the closing placement. *)
Definition source_closed (tr : Trace) (nodes : list ReplicaNode) : Prop :=
  (∃ claim b, fenced tr (ph_transition_placement claim) nodes ∧ ph_stage claim = SourceFenced
     ∧ Asked (AdvanceHandoff claim) (Ok b) ∈ tr)
  ∨ (∃ claim, resumed tr claim ∧ rank SourceFenced ≤ rank (ph_stage claim))
  ∨ (Asked HeadPresent (Ok false) ∈ tr ∧ ∃ placement, fenced tr placement nodes).

(** The archive covers the source up to where the successor starts: it was asked, or the claim the
    cutover found says so. *)
Definition source_archived (tr : Trace) (archived_lsn cutover_lsn : N) : Prop :=
  (Asked (ArchivedLsn (cc_stream call)) (Ok archived_lsn) ∈ tr ∧ cutover_lsn ≤ archived_lsn)
  ∨ ∃ claim, resumed tr claim ∧ rank ArchiveVerified ≤ rank (ph_stage claim)
      ∧ ph_archived_lsn claim = Some archived_lsn ∧ cutover_lsn = archived_lsn.

(** What a placement that is not the closing one needs: the source closed and archived, and the
    claim, if the cluster keeps one, durable with this placement. *)
Definition successor_ready (tr : Trace) (nodes : list ReplicaNode) (placement : PlacementEpoch) : Prop :=
  source_closed tr nodes ∧ (∃ archived_lsn cutover_lsn, source_archived tr archived_lsn cutover_lsn)
  ∧ (Asked HeadPresent (Ok false) ∈ tr
     ∨ ∃ d, persisted tr d ∧ rank ArchiveVerified ≤ rank (ph_stage d)
         ∧ ph_successor_placement d = Some placement).

(** What each question requires of those before. *)
Definition in_order (tr : Trace) (X : Type) (q : CutoverReq X) : Prop :=
  match q with
  | FetchSnapshots _ nodes => source_closed tr nodes
  | ArchiveCommitted _ => ∃ nodes, source_closed tr nodes
  | AdvanceHandoff d =>
    ∃ nodes, match ph_stage d with
    | SourceFenced => fenced tr (ph_transition_placement d) nodes
    | ArchiveVerified => source_closed tr nodes
        ∧ ∃ archived_lsn cutover_lsn, source_archived tr archived_lsn cutover_lsn
            ∧ ph_archived_lsn d = Some archived_lsn
    | _ => False
    end
  | InstallFence _ placement _ => closing tr placement ∨ ∃ nodes, successor_ready tr nodes placement
  | _ => True
  end.

(** What a finished cutover has. *)
Definition cutover_done (tr : Trace) (c : StreamCutover) : Prop :=
  ∃ nodes placement cutover_lsn,
    source_closed tr nodes ∧ source_archived tr (sc_archived_lsn c) cutover_lsn
    ∧ fence_held tr placement nodes ∧ fence_held tr placement (cc_target_nodes call)
    ∧ match sc_pending_handoff c with
      | Some d => persisted tr d ∧ rank ArchiveVerified ≤ rank (ph_stage d)
          ∧ ph_successor d = Some (sc_successor c) ∧ ph_successor_placement d = Some placement
          ∧ ph_archived_lsn d = Some (sc_archived_lsn c)
      | None => sg_start_lsn (sc_successor c) = N.max (saturating_add cutover_lsn 1) (sg_start_lsn (cc_source call))
          ∧ placement = placement_for_route (cc_stream call) (sc_successor c)
      end.

(** Facts about a trace stay true as it grows. *)
Lemma persisted_grows tr e d : persisted tr d → persisted (tr ++ [e]) d.
Proof.
  intros [Hr|(b & [Hb|Hb])]; [left|right; exists b; left|right; exists b; right]; apply elem_of_app; by left.
Qed.

Lemma fence_grows tr e placement nodes : fence_held tr placement nodes → fence_held (tr ++ [e]) placement nodes.
Proof. intros (r & Hr & ?). exists r. split; [apply elem_of_app; by left|done]. Qed.

Lemma asked_last {X} tr (q : CutoverReq X) x : Asked q x ∈ tr ++ [Asked q x].
Proof. apply elem_of_app. right. left. Qed.

Lemma resumed_grows tr e c : resumed tr c → resumed (tr ++ [e]) c.
Proof. intros Hr. apply elem_of_app. by left. Qed.

Lemma installed_Ok results : installed quorum results = Ok tt → quorum ≤ count_ok results.
Proof. unfold installed. destruct (_ <? _) eqn:Hlt; [done|]. by bool_facts. Qed.

Lemma asked_grows tr (e e' : Event CutoverReq) : e ∈ tr → e ∈ tr ++ [e'].
Proof. intros Hin. apply elem_of_app. by left. Qed.

#[local] Hint Resolve persisted_grows fence_grows asked_last resumed_grows asked_grows : wal.

Lemma closing_grows tr e placement : closing tr placement → closing (tr ++ [e]) placement.
Proof. intros [?|(c & Hc & ->)]; [by left|right]. exists c. eauto with wal. Qed.

#[local] Hint Resolve closing_grows : wal.

Lemma fenced_grows tr e placement nodes : fenced tr placement nodes → fenced (tr ++ [e]) placement nodes.
Proof. intros [? ?]. split; eauto with wal. Qed.

#[local] Hint Resolve fenced_grows : wal.

Lemma closed_grows tr e nodes : source_closed tr nodes → source_closed (tr ++ [e]) nodes.
Proof.
  intros [(c & b & Hf & Hs & Hb)|[(c & Hc & Hs)|(Hn & p & Hp)]].
  - left. exists c, b. eauto with wal.
  - right. left. exists c. eauto with wal.
  - right. right. eauto 6 with wal.
Qed.

Lemma archived_grows tr e a c : source_archived tr a c → source_archived (tr ++ [e]) a c.
Proof.
  intros [[Ha ?]|(claim & Hc & ?)]; [left; split; [apply elem_of_app; by left|done]|right; exists claim].
  split; [by apply resumed_grows|done].
Qed.

(** The claim the cutover works under is durable and carries the closing placement, and was found if
    it is at [floor] or later; without a claim the cluster has no head. *)
Definition pending_ok (tr : Trace) (floor : PendingHandoffStage) (placement : PlacementEpoch)
    (pending : option PendingHandoffDescriptor) : Prop :=
  match pending with
  | Some d => persisted tr d ∧ ph_transition_placement d = placement
      ∧ (rank floor ≤ rank (ph_stage d) → resumed tr d)
  | None => Asked HeadPresent (Ok false) ∈ tr
  end.

Lemma pending_grows tr e floor placement pending :
  pending_ok tr floor placement pending → pending_ok (tr ++ [e]) floor placement pending.
Proof. destruct pending; cbn; [intros (? & ? & ?); split_and!|]; eauto with wal. Qed.

#[local] Hint Resolve closed_grows archived_grows pending_grows : wal.

Lemma read_source_nodes_order tr ids :
  always in_order (λ _ _, True) tr (read_source_nodes ids).
Proof.
  revert tr. induction ids as [|id ids IH]; intros tr; [by intros ? ?|].
  split; [done|]. intros state. apply always_return. intros node _.
  eapply always_bind; [apply IH|]. by intros tr' nodes _ ? [= <-].
Qed.

(** What is known of the claim that was found and of the closing placement. *)
Definition opening (tr : Trace) (existing : option PendingHandoffDescriptor) (placement : PlacementEpoch) : Prop :=
  closing tr placement ∧ ∀ c, existing = Some c → resumed tr c ∧ ph_transition_placement c = placement.

Lemma opening_grows tr e existing placement : opening tr existing placement → opening (tr ++ [e]) existing placement.
Proof. intros [? Hex]. split; [eauto with wal|]. intros c [? ?]%Hex. eauto with wal. Qed.

Lemma transition_order tr nodes existing :
  (∀ c, existing = Some c → resumed tr c) →
  always in_order (λ tr' ep, opening tr' existing ep.2) tr (transition_placement quorum call nodes existing).
Proof.
  intros He. destruct existing as [c|]; cbn [transition_placement].
  - specialize (He c eq_refl). intros ? [= <-]. split; [right; by exists c|]. by intros ? [= <-].
  - apply always_ask; [done|]. intros sp. apply always_ask; [done|]. intros tp.
    destruct (_ || _); [by intros ? ?|]. intros ? [= <-]. split; [left; eauto|done].
Qed.

Lemma pending_claim_order tr members epoch placement existing :
  opening tr existing placement →
  always in_order (λ tr' pending, closing tr' placement ∧ pending_ok tr' SourceFenced placement pending) tr
    (pending_claim call members epoch placement existing).
Proof.
  intros [Hc He]. destruct existing as [c|]; cbn [pending_claim].
  - destruct (He c eq_refl) as [Hr Hp]. intros ? [= <-]. split; [done|]. split_and!; [by left|done..].
  - apply always_try; [done|]. intros [].
    + apply always_try; [done|]. intros b ? [= <-]. split; [eauto with wal|]. split_and!; [|done|by cbn].
      right. exists b. right. apply asked_last.
    + intros ? [= <-]. split; [eauto with wal|]. apply asked_last.
Qed.

Lemma install_order tr placement nodes :
  in_order tr _ (InstallFence (cc_stream call) placement (unique_nodes nodes)) →
  ∀ (K : Trace → Prop), (∀ e, K (tr ++ [e])) →
  always in_order (λ tr' _, fence_held tr' placement nodes ∧ K tr') tr
    (install_placement_on_nodes quorum (cc_stream call) placement nodes).
Proof.
  intros Hq K HK. apply always_ask; [done|]. intros results [] Hr%installed_Ok.
  split; [|apply HK]. exists results. split; [apply asked_last|done].
Qed.

Lemma fence_source_order tr nodes placement pending :
  closing tr placement → pending_ok tr SourceFenced placement pending →
  always in_order (λ tr' pending', source_closed tr' nodes ∧ pending_ok tr' ArchiveVerified placement pending') tr
    (fence_source quorum call nodes placement pending).
Proof.
  intros Hc Hp. unfold fence_source. destruct (before SourceFenced pending) eqn:Hb.
  - eapply always_bind.
    { apply install_order with (K := λ tr', closing tr' placement ∧ pending_ok tr' SourceFenced placement pending).
      - by left.
      - intros e. eauto with wal. }
    intros tr1 _ (Hf & Hc1 & Hp1). destruct pending as [claim|].
    + destruct Hp1 as (_ & <- & _). apply always_try; [exists nodes; by split|].
      intros b ? [= <-]. split.
      * left. exists (set_stage claim SourceFenced), b. split_and!; [split; eauto with wal|done|apply asked_last].
      * split_and!; [|done|by cbn]. right. exists b. left. apply asked_last.
    + intros ? [= <-]. split; [|done]. right. right. split; [done|]. exists placement. by split.
  - intros ? [= <-]. destruct pending as [claim|]; [|done]. destruct Hp as (Hper & Hpl & Hfl).
    cbn [before] in Hb. bool_facts. split; [|by split_and!; [..|intros _; apply Hfl]].
    right. left. exists claim. split; [by apply Hfl|done].
Qed.

Lemma source_tail_order tr nodes floor placement pending :
  source_closed tr nodes → pending_ok tr floor placement pending →
  always in_order (λ tr' ac, source_closed tr' nodes ∧ pending_ok tr' floor placement pending
      ∧ source_archived tr' ac.1 ac.2)
    tr (source_tail control quorum call nodes).
Proof.
  intros Hc Hp. unfold source_tail. apply always_ask; [done|]. intros results.
  destruct (_ <? quorum); [by intros ? ?|]. apply always_try; [done|]. intros archived_before.
  apply always_return. intros candidates _. apply always_try; [done|]. intros archived.
  apply always_return. intros by_lsn _.
  destruct (certified_tail _ _ _ _) as [[[new expected]|]|]; [|by intros ? ?|done].
  cbn [lift_loop]. apply always_return. intros ? [= <-].
  eapply (always_bind _ (λ tr' _, source_closed tr' nodes ∧ pending_ok tr' floor placement pending)).
  { case_bool_decide.
    - intros ? _. eauto 10 with wal.
    - split; [exists nodes; eauto 10 with wal|]. intros [x|e] ? ?; [eauto 10 with wal|done]. }
  intros tr1 _ [Hc1 Hp1]. apply always_try; [done|]. intros archived_lsn.
  destruct (_ <? _) eqn:Hlt; [by intros ? ?|]. intros ? [= <-]. bool_facts.
  split_and!; [eauto with wal..|]. left. cbn. split; [apply asked_last|done].
Qed.

Lemma archive_source_order tr nodes placement pending :
  source_closed tr nodes → pending_ok tr ArchiveVerified placement pending →
  always in_order (λ tr' ac, source_closed tr' nodes ∧ pending_ok tr' ArchiveVerified placement pending
      ∧ source_archived tr' ac.1 ac.2)
    tr (archive_source control quorum call nodes pending).
Proof.
  intros Hc Hp. destruct pending as [claim|]; cbn [archive_source]; [|by apply source_tail_order].
  destruct (_ <=? _) eqn:Hr; [|by apply source_tail_order].
  apply always_return. intros a Ha%ok_or_Ok ? [= <-]. bool_facts.
  split_and!; [done..|]. right. exists claim. split_and!; [by apply Hp|done..].
Qed.

(** The claim a successor was persisted under. *)
Definition claim_carries (tr : Trace) (pending : option PendingHandoffDescriptor) (archived_lsn : N)
    (successor : StreamSegment) (placement : PlacementEpoch) : Prop :=
  match pending with
  | Some d => persisted tr d ∧ rank ArchiveVerified ≤ rank (ph_stage d) ∧ ph_successor d = Some successor
      ∧ ph_successor_placement d = Some placement ∧ ph_archived_lsn d = Some archived_lsn
  | None => Asked HeadPresent (Ok false) ∈ tr
  end.

Lemma carries_grows tr e pending a s p :
  claim_carries tr pending a s p → claim_carries (tr ++ [e]) pending a s p.
Proof. destruct pending; cbn; [intros (? & ?); split|]; eauto with wal. Qed.

#[local] Hint Resolve carries_grows : wal.

Lemma verify_claim_order tr nodes transition pending a c successor placement :
  source_closed tr nodes → source_archived tr a c → pending_ok tr ArchiveVerified transition pending →
  always in_order (λ tr' pending', source_closed tr' nodes ∧ source_archived tr' a c
      ∧ claim_carries tr' pending' a successor placement ∧ (pending' = None ↔ pending = None))
    tr (verify_claim pending a successor placement).
Proof.
  intros Hc Ha Hp. destruct pending as [claim|]; cbn [verify_claim]; [|by intros ? [= <-]].
  destruct (_ <=? _) eqn:Hr; bool_facts.
  - destruct (_ || _) eqn:Hd; [by intros ? ?|]. intros ? [= <-]. bool_facts. destruct Hp as [? _]. done.
  - apply always_try; [exists nodes; cbn; eauto|]. intros b ? [= <-]. split_and!; [eauto with wal..| |done].
    split_and!; [right; exists b; left; apply asked_last|done..].
Qed.


End Protocol.

(** ** The certified tail *)

Section Tail.
Context `{ManifestHost, !LogJson, !LogJsonLaws}.

(** What the loop returns: the records at consecutive LSNs, up to the first that is missing. *)
Lemma certify_Ok fuel quorum m expected epoch l next :
  certify fuel quorum m expected epoch = Some (Ok (l, next)) → expected ≤ u64_max →
  next = expected + len l ∧ next ≤ u64_max ∧ m !! next = None
  ∧ ∀ i r, l !! i = Some r → m !! (expected + N.of_nat i) = Some r.
Proof.
  revert expected epoch l. induction fuel as [|fuel IH]; intros expected epoch l; cbn [certify]; [done|].
  destruct (m !! expected) as [record|] eqn:Hm; cycle 1.
  { intros [= <- <-] Hle. rewrite len_nil. split_and!; [lia|done|done|done]. }
  destruct (_ || _); [done|].
  destruct (certify fuel quorum m (saturating_add expected 1) (er_writer_epoch record)) as [[[rest n]|]|] eqn:Hc;
    cbn; [|done..].
  intros [= <- <-] Hle. destruct (IH _ _ _ Hc) as (Hn & Hmax & Hnone & Hall); [unfold saturating_add; lia|].
  destruct (decide (expected = u64_max)) as [->|Hne].
  { exfalso. unfold saturating_add in Hn. rewrite N.min_r in Hn by lia.
    assert (n = u64_max) as -> by lia. congruence. }
  assert (saturating_add expected 1 = expected + 1) as Hs by (unfold saturating_add; lia). rewrite Hs in *.
  split_and!; [rewrite len_cons; lia|done|done|]. intros [|i] r Hi.
  - injection Hi as <-. by rewrite N.add_0_r.
  - rewrite <- (Hall i r Hi). f_equal. lia.
Qed.

(** The loop ends: a turn more than there are records is enough, as long as no record sits on
    the last LSN, where [saturating_add] stands still. *)
Lemma certify_ends quorum m expected epoch fuel :
  m !! u64_max = None → expected ≤ u64_max →
  (size (filter (λ kr : N * EncryptedRecord, (expected ≤ kr.1)%N) m) < fuel)%nat →
  is_Some (certify fuel quorum m expected epoch).
Proof.
  intros Hlast. revert expected epoch. induction fuel as [|fuel IH]; intros expected epoch Hle Hf; [lia|].
  cbn [certify]. destruct (m !! expected) as [record|] eqn:Hm; [|eauto]. destruct (_ || _); [eauto|].
  assert (expected ≠ u64_max) as Hne by congruence.
  assert (saturating_add expected 1 = expected + 1) as -> by (unfold saturating_add; lia).
  edestruct (IH (expected + 1) (er_writer_epoch record)) as [o ->]; [lia| |cbn; eauto].
  assert (size (filter (λ kr : N * EncryptedRecord, (expected + 1 ≤ kr.1)%N) m)
    < size (filter (λ kr : N * EncryptedRecord, (expected ≤ kr.1)%N) m))%nat; [|lia].
  apply map_subset_size. split.
  - apply map_subseteq_spec. intros k r [Hk Hge]%map_lookup_filter_Some.
    apply map_lookup_filter_Some. cbn in *. split; [done|lia].
  - intros Hsub. rewrite map_subseteq_spec in Hsub.
    assert (filter (λ kr : N * EncryptedRecord, expected ≤ kr.1) m !! expected = Some record) as Hx%Hsub.
    { apply map_lookup_filter_Some. cbn. split; [done|lia]. }
    apply map_lookup_filter_Some in Hx as [_ Hx]. cbn in Hx. lia.
Qed.

(** Records filed under their LSNs. *)
Definition keyed (m : gmap N EncryptedRecord) : Prop := ∀ k r, m !! k = Some r → er_lsn r = k.

Lemma keyed_insert m r : keyed m → keyed (<[er_lsn r := r]> m).
Proof. intros Hm k x [[<- <-]|[_ ?]]%lookup_insert_Some; [done|by apply Hm]. Qed.

Lemma join_candidate_Ok before m x m' :
  join_candidate before m x = Ok m' → keyed m →
  keyed m' ∧ m ⊆ m' ∧ (before < er_lsn x → m' !! er_lsn x = Some x).
Proof.
  unfold join_candidate. destruct (_ <=? _) eqn:Hle; bool_facts.
  { intros [= <-] Hm. split_and!; [done..|lia]. }
  intros Hx Hm.
  assert (m' = <[er_lsn x := x]> m ∧ (m !! er_lsn x = None ∨ m !! er_lsn x = Some x)) as [-> Hor].
  { destruct (m !! er_lsn x) as [y|]; [case_bool_decide; [subst|done]|]; simplify_eq; eauto. }
  split_and!; [by apply keyed_insert| |intros _; apply lookup_insert_eq].
  destruct Hor as [?|?]; [by apply insert_subseteq|by rewrite insert_id].
Qed.

Lemma join_candidates_Ok before l m m' :
  try_fold (join_candidate before) m l = Ok m' → keyed m →
  keyed m' ∧ m ⊆ m' ∧ ∀ r, r ∈ l → before < er_lsn r → m' !! er_lsn r = Some r.
Proof.
  revert m. induction l as [|x l IH]; intros m; cbn [try_fold].
  { intros [= <-] Hm. split_and!; [done..|]. by intros ? ?%not_elem_of_nil. }
  intros (m1 & Hx & Hl)%bind_Ok Hm. destruct (join_candidate_Ok _ _ _ _ Hx Hm) as (Hm1 & Hsub & Hin).
  destruct (IH _ Hl Hm1) as (Hm' & Hsub' & Hall). split_and!; [done|by etrans|].
  intros r [->|Hr]%elem_of_cons Hlt; [|by apply Hall]. eapply lookup_weaken; [by apply Hin|done].
Qed.

(** Joining keeps each record at its LSN and loses no candidate above the archive. *)
Lemma join_tail_Ok archived before candidates m :
  join_tail archived before candidates = Ok m →
  keyed m ∧ ∀ r, r ∈ btree_values candidates → before < er_lsn r → m !! er_lsn r = Some r.
Proof.
  intros Hj. apply join_candidates_Ok in Hj as (? & _ & ?); [done|]. clear.
  induction archived as [|x archived IH] using rev_ind; [intros k r; cbn; by intros ?%lookup_empty_Some|].
  rewrite foldl_app. cbn [foldl]. by apply keyed_insert.
Qed.

(** A chain that is filed is certified. *)
Lemma certify_chain fuel quorum m expected epoch l next p ep :
  certify fuel quorum m expected epoch = Some (Ok (l, next)) → expected ≤ u64_max →
  chain expected ep p → Forall (λ r, er_lsn r ≤ u64_max) p →
  (∀ r, r ∈ p → m !! er_lsn r = Some r) → p `prefix_of` l.
Proof.
  intros Hc Hle. destruct (certify_Ok _ _ _ _ _ _ _ Hc Hle) as (-> & _ & Hnone & Hall). clear Hc Hle.
  intros Hchain _ Hp. revert expected ep l Hnone Hall Hchain.
  induction p as [|r p IH]; intros expected ep l Hnone Hall Hchain; [apply prefix_nil|].
  destruct Hchain as (Hr & _ & _ & Hchain). destruct l as [|x l].
  { exfalso. rewrite len_nil, N.add_0_r, <- Hr, Hp in Hnone by left. done. }
  assert (x = r) as ->.
  { specialize (Hall 0%nat x eq_refl). rewrite N.add_0_r, <- Hr, Hp in Hall by left. congruence. }
  apply prefix_cons, (IH (λ y Hy, Hp y (proj2 (elem_of_cons _ _ _) (or_intror Hy))) (expected + 1) (er_writer_epoch r)); [| |done].
  - rewrite <- Hnone. f_equal. rewrite len_cons. lia.
  - intros i y Hi. rewrite <- (Hall (S i) y Hi). f_equal. lia.
Qed.

(** With nothing unsafe, every key that was seen has its candidate. *)
Lemma nothing_unsafe control quorum stream snaps k :
  (collect_candidates_from_snapshots control quorum stream snaps).2 = 0 →
  is_Some (collect_groups record_key (keeps control stream) snaps !! k) →
  is_Some ((collect_candidates_from_snapshots control quorum stream snaps).1 !! k).
Proof.
  cbn [collect_candidates_from_snapshots fst snd]. fold (keeps control stream).
  set (groups := collect_groups record_key (keeps control stream) snaps).
  set (candidates := omap (candidate_of control quorum snaps) groups). intros H0' Hk.
  apply elem_of_dom. apply elem_of_dom in Hk.
  enough (dom candidates = dom groups) as -> by done.
  apply set_subseteq_size_eq; [apply dom_omap_subseteq|]. rewrite !size_dom. lia.
Qed.

(** What passes the checks of a cutover holds every acknowledged record: a silent source is
    only accepted when nothing was left undecided. *)
Lemma source_candidates_acked control quorum stream before snaps available sources candidates r acks :
  source_candidates control quorum stream before snaps available sources = Ok candidates →
  members_ok snaps → acked_by control snaps r acks → on_stream stream r = true →
  er_committed_lsn r < er_lsn r → N.of_nat (size (owner_ids control snaps r)) < 2 * quorum →
  quorum ≤ N.of_nat (size acks) → quorum ≤ answering_owners control snaps r →
  (sources ≤ available → acks ⊆ answering_ids control snaps r) →
  r ∈ btree_values candidates.
Proof.
  unfold source_candidates. intros (_ & _ & Hc)%bind_Ok Hok Hacked Hs Hlt Hn Hq Ha Hall.
  destruct (collect_candidates_from_snapshots control quorum stream snaps) as [cands unsafe] eqn:Hcc.
  destruct (_ && _) eqn:Hb; [done|]. injection Hc as <-.
  assert (cands = (collect_candidates_from_snapshots control quorum stream snaps).1) as -> by by rewrite Hcc.
  apply elem_of_candidates; [apply Hok|]. bool_facts. destruct Hb as [Hb|Hb]; bool_facts.
  - assert ((collect_candidates_from_snapshots control quorum stream snaps).2 = 0) as H0' by by rewrite Hcc.
    destruct (acked_eligible control quorum stream snaps r acks) as [Hh Hel]; [done..|].
    pose proof Hh as (x & Hx & Hxr & Hk)%ids_where_non_empty.
    destruct (collect_groups_bucket record_key (keeps control stream) snaps x) as [ids Hids]; [apply Hok|done..|].
    rewrite Hxr in Hids. destruct (nothing_unsafe _ _ _ _ (record_key r) H0') as [r' Hr']; [eauto|].
    pose proof Hr' as (_ & _ & _ & Huniq)%candidate_iff; [|apply Hok].
    assert (r = r') as -> by by apply Huniq. exact Hr'.
  - eapply acked_candidate; eauto.
Qed.

(** ** A handoff keeps every acknowledged record *)

Lemma count_ok_length {E A} (results : list (result E A)) :
  len results ≤ count_ok results → ∀ r, r ∈ results → is_ok r = true.
Proof.
  unfold len, count_ok, len. intros Hlen r Hr. apply list_elem_of_split in Hr as (l1 & l2 & ->).
  rewrite filter_app, filter_cons in Hlen. destruct (is_ok r) eqn:Hok; [done|].
  rewrite decide_False in Hlen by congruence. rewrite !length_app in Hlen. cbn in Hlen.
  pose proof (length_filter (λ r, is_ok r = true) l1). pose proof (length_filter (λ r, is_ok r = true) l2). lia.
Qed.

(** C11: Moving a stream loses no acknowledged record, and forks at none.  Take the answers of the
    three source members, one of which may be silent, after the fence.  Take any chain [p] of
    records from the first LSN the archive does not hold, each stored and marked by a quorum of
    the source.  If the checks of the cutover pass and its tail is certified, then every record
    of [p] is among those handed to the archive, below the LSN where the successor starts. *)
Theorem cutover_keeps_acknowledged control stream source
    (results : list (ReplicaNode * result ReplicaError NodeSnapshot)) archived_before archived
    candidates records_by_lsn new_records expected p (acks : EncryptedRecord → gset string) :
  let snaps := (λ nr, (nr.1, result_ok nr.2)) <$> results in
  members_ok snaps → len results = REPLICATION_FACTOR → ACK_QUORUM ≤ count_ok results.*2 →
  source_candidates control ACK_QUORUM stream archived_before snaps (count_ok results.*2) (len results)
    = Ok candidates →
  join_tail archived archived_before candidates = Ok records_by_lsn →
  certified_tail ACK_QUORUM source archived_before records_by_lsn = Some (Ok (new_records, expected)) →
  sg_start_lsn source ≤ u64_max → archived_before < u64_max →
  chain (N.max (sg_start_lsn source) (archived_before + 1)) 0 p →
  (∀ r, r ∈ p → er_stream r = stream ∧ er_lsn r ≤ u64_max
     ∧ (∀ node, node ∈ results.*1 → node_owns_record control node r = true)
     ∧ acked_by control snaps r (acks r) ∧ ACK_QUORUM ≤ N.of_nat (size (acks r))) →
  ∀ r, r ∈ p → r ∈ new_records ∧ er_lsn r < expected.
Proof.
  intros snaps Hok Hlen Hav Hsc Hj Hct Hstart Hbefore Hchain Hp.
  unfold certified_tail in Hct. set (first := N.max (sg_start_lsn source) (archived_before + 1)) in *.
  assert (N.max (sg_start_lsn source) (saturating_add archived_before 1) = first) as Hfirst
    by (unfold first, saturating_add; lia).
  rewrite Hfirst in Hct.
  destruct (certify _ _ _ _ _) as [[[l next]|]|] eqn:Hcert in Hct; cbn in Hct; [|done..].
  destruct (first_above records_by_lsn next); [done|]. injection Hct as <- <-.
  destruct (join_tail_Ok _ _ _ _ Hj) as [Hkeyed Hin].
  assert (∀ r, r ∈ p → archived_before < er_lsn r) as Habove.
  { intros r Hr. pose proof (chain_ge _ _ _ _ Hchain Hr). lia. }
  assert (p `prefix_of` l) as [rest ->].
  { eapply certify_chain; [exact Hcert|unfold first; lia|exact Hchain| |].
    - apply Forall_forall. intros r Hr. by apply Hp.
    - intros r Hr. destruct (Hp r Hr) as (Hs & _ & Howns & Hacked & Hq). apply Hin; [|by apply Habove].
      assert (answering_owners control snaps r = count_ok results.*2) as Hans.
      { unfold answering_owners, count_ok, len, snaps. f_equal. clear -Howns.
        induction results as [|[node res] results IH]; [done|].
        cbn [fmap list_fmap fst snd]. rewrite !filter_cons. cbn [fst snd].
        assert (node_owns_record control node r = true) as -> by (apply Howns; left).
        assert (∀ n, n ∈ results.*1 → node_owns_record control n r = true) as Hrest by (intros n Hn; apply Howns; by right).
        destruct res; cbn [result_ok is_ok]; repeat case_decide; cbn; rewrite ?IH by done; naive_solver. }
      eapply source_candidates_acked; [exact Hsc|done|exact Hacked| | | |done|by rewrite Hans|].
      + unfold on_stream. rewrite Hs, (bool_decide_eq_true_2 (stream = stream)) by done. apply orb_true_r.
      + eapply chain_committed; [exact Hchain|lia|done].
      + assert (size (owner_ids control snaps r) ≤ length results)%nat as Hsz.
        { unfold owner_ids. etrans; [apply size_list_to_set_le|]. rewrite length_fmap.
          etrans; [apply length_filter|]. unfold snaps. by rewrite length_fmap. }
        unfold len, REPLICATION_FACTOR, ACK_QUORUM in *. lia.
      + intros Hfull id Hid. destruct Hacked as [Hsub _]. apply Hsub, elem_of_owner_ids in Hid as (node & o & Hno & Hown & <-).
        apply elem_of_answering_ids. unfold snaps in Hno.
        apply list_elem_of_fmap in Hno as ([node' res] & [= -> ->] & Hnr).
        assert (is_ok res = true) as Hr'.
        { eapply (count_ok_length results.*2); [|apply list_elem_of_fmap; by exists (node', res)].
          unfold len in *. by rewrite length_fmap. }
        destruct res as [s|]; [|done]. exists node', s. split_and!; [|done|done].
        apply list_elem_of_fmap. by exists (node', Ok s). }
  intros r Hr. split.
  - apply list_elem_of_filter. split; [by apply Habove|]. apply elem_of_app. by left.
  - destruct (certify_Ok _ _ _ _ _ _ _ Hcert) as (-> & _ & _ & Hall); [unfold first; lia|].
    apply list_elem_of_lookup in Hr as [i Hi]. pose proof (Hall i r) as Hi'.
    rewrite (lookup_app_l_Some _ _ _ _ Hi) in Hi'. specialize (Hi' eq_refl).
    rewrite (Hkeyed _ _ Hi'). apply lookup_lt_Some in Hi. rewrite len_app. unfold len. lia.
Qed.

End Tail.

(** ** The published routes *)

(** The search of a route in the ranges of one stream. *)
Definition find_range (lsn : N) (ranges : list StreamSegment) : option StreamSegment :=
  snd <$> list_find (λ s, covers lsn s = true) ranges.

Lemma find_range_cons lsn s ranges :
  find_range lsn (s :: ranges) = if covers lsn s then Some s else find_range lsn ranges.
Proof.
  unfold find_range. cbn. destruct (covers lsn s); [by rewrite decide_True|]. rewrite decide_False by done.
  by destruct (list_find _ ranges) as [[]|].
Qed.

Lemma find_range_app lsn init rest :
  find_range lsn (init ++ rest) = match find_range lsn init with Some s => Some s | None => find_range lsn rest end.
Proof.
  induction init as [|s init IH]; cbn [app]; [done|]. rewrite !find_range_cons. by destruct (covers lsn s).
Qed.

(** The ranges before a range are closed before it starts, and do not depend on what follows. *)
Lemma validate_ranges_split init s rest e :
  validate_ranges e (init ++ s :: rest) = Ok tt →
  validate_ranges (sg_start_lsn s) (s :: rest) = Ok tt
  ∧ Forall (λ x, ∃ x_end, sg_end_lsn x = Some x_end ∧ x_end < sg_start_lsn s) init
  ∧ ∀ rest', rest' ≠ [] → validate_ranges (sg_start_lsn s) rest' = Ok tt →
      validate_ranges e (init ++ rest') = Ok tt.
Proof.
  revert e. induction init as [|x init IH]; intros e Hv.
  { cbn [app] in *. pose proof (validate_ranges_cons _ _ _ Hv) as (<- & _). done. }
  cbn [app validate_ranges] in *.
  destruct (bool_decide (init ++ s :: rest = [])) eqn:Hemp; [bool_facts; by destruct init|].
  destruct (sg_end_lsn x) as [x_end|] eqn:Hend; cbn [is_none negb andb orb] in *; cycle 1.
  { rewrite !orb_true_r in Hv. done. }
  destruct (negb (sg_start_lsn x =? e) || end_before_start x || false || unordered_ids (sg_member_ids x)) eqn:Hc; [done|].
  destruct (_ || blank (sg_operation_id x)) eqn:Hc2; [done|].
  destruct (negb (len (sg_member_ids x) =? REPLICATION_FACTOR)) eqn:Hc3; [done|].
  destruct (checked_add x_end 1) as [n|] eqn:Hadd; [|done]. cbn [ok_or mbind result_bind] in *.
  pose proof Hadd as Hn%checked_add_Some. destruct (IH n Hv) as (Hs & Hf & Hrest).
  split_and!; [done| |].
  - constructor; [|done]. exists x_end. split; [done|].
    assert (n ≤ sg_start_lsn s); [|lia]. eapply validate_ranges_above; [exact Hv|]. apply elem_of_app. right. left.
  - intros rest' Hne Hr. by apply Hrest.
Qed.

Lemma find_range_closed lsn init bound :
  Forall (λ x, ∃ x_end, sg_end_lsn x = Some x_end ∧ x_end < bound) init → bound ≤ lsn → find_range lsn init = None.
Proof.
  induction 1 as [|x init (x_end & Hend & Hlt) _ IH]; intros Hle; [done|]. rewrite find_range_cons.
  destruct (covers lsn x) eqn:Hc; [|by apply IH]. apply covers_spec in Hc as [_ Hc]. specialize (Hc _ Hend). lia.
Qed.

Lemma same_identity_close s n : same_identity s (close_range s n) = true ∧ same_identity s s = true.
Proof.
  unfold same_identity, close_range. cbn [sg_start_lsn sg_cohort_id sg_member_ids sg_member_hash sg_writer_epoch
    sg_operation_id sg_tier sg_max_append_bytes].
  split; repeat (apply andb_true_intro; split);
    first [apply N.eqb_refl|apply orb_true_iff; right; first [apply N.eqb_refl|by apply bool_decide_eq_true_2]].
Qed.

(** An open range may be closed where the next one starts after it. *)
Lemma validate_ranges_close s n rest :
  validate_ranges (sg_start_lsn s) [s] = Ok tt → sg_end_lsn s = None → sg_start_lsn s ≤ n → n < u64_max →
  validate_ranges (n + 1) rest = Ok tt → validate_ranges (sg_start_lsn s) (close_range s n :: rest) = Ok tt.
Proof.
  intros Hv Hopen Hle Hmax Hrest. cbn [validate_ranges] in *.
  unfold end_before_start in *. rewrite Hopen in Hv.
  cbn [close_range sg_start_lsn sg_end_lsn sg_member_ids sg_member_hash sg_manifest_revision sg_operation_id is_none].
  rewrite (proj2 (N.ltb_ge _ _) Hle). rewrite bool_decide_eq_true_2 in Hv by done.
  cbn [negb andb is_none] in *. rewrite !orb_false_r in *.
  destruct (_ || _) in Hv |- *; [done|]. destruct (_ || _ || _ || _) in Hv |- *; [done|].
  destruct (negb _) in Hv |- *; [done|].
  unfold checked_add. rewrite (proj2 (N.leb_le _ _)) by lia. exact Hrest.
Qed.

(** The ranges a publication writes, over valid ranges that end with an open one. *)
Lemma published_ranges_routes init source archived_lsn successor :
  validate_ranges 1 (init ++ [source]) = Ok tt → sg_end_lsn source = None → archived_lsn < u64_max →
  sg_end_lsn successor = None →
  sg_start_lsn successor = N.max (archived_lsn + 1) (sg_start_lsn source) →
  validate_ranges (sg_start_lsn successor) [successor] = Ok tt →
  let new := published_ranges (init ++ [source]) archived_lsn successor in
  validate_ranges 1 new = Ok tt
  ∧ (∀ lsn s, lsn < sg_start_lsn successor → find_range lsn (init ++ [source]) = Some s →
       ∃ s', find_range lsn new = Some s' ∧ same_identity s s' = true)
  ∧ (∀ lsn, sg_start_lsn successor ≤ lsn → find_range lsn new = Some successor).
Proof.
  intros Hv Hopen Ha Hsend Hstart Hs. destruct (validate_ranges_split _ _ _ _ Hv) as (Hsrc & Hclosed & Hrest).
  unfold published_ranges. rewrite last_snoc, length_app. cbn [length].
  replace (take _ (init ++ [source])) with init by (rewrite take_app_length'; [done|lia]).
  assert (∀ lsn, sg_start_lsn source ≤ lsn → find_range lsn init = None) as Hnone
    by (intros lsn; by apply find_range_closed).
  assert (∀ lsn, covers lsn successor = true ↔ sg_start_lsn successor ≤ lsn) as Hcov.
  { intros lsn. rewrite covers_spec, Hsend. split; [by intros [? _]|]. by intros ?; split. }
  destruct (archived_lsn <? sg_start_lsn source) eqn:Hlt; bool_facts; cbv zeta.
  - assert (sg_start_lsn successor = sg_start_lsn source) as He by lia.
    split_and!; [by apply Hrest; [|rewrite <- He]| |].
    + intros lsn s Hl Hf. exists s. split; [|apply (same_identity_close s 0)]. rewrite find_range_app in *.
      destruct (find_range lsn init) as [x|]; [done|]. rewrite find_range_cons in Hf.
      destruct (covers lsn source) eqn:Hc; [|done]. apply covers_spec in Hc as [? _]. lia.
    + intros lsn Hl. rewrite find_range_app, Hnone, find_range_cons by lia. by apply Hcov in Hl as ->.
  - assert (sg_start_lsn successor = archived_lsn + 1) as He by lia.
    split_and!.
    + apply Hrest; [done|]. apply validate_ranges_close; [done..|]. by rewrite <- He.
    + intros lsn s Hl Hf. rewrite find_range_app in *.
      destruct (find_range lsn init) as [x|]; [exists x; simplify_eq; split; [done|apply (same_identity_close s 0)]|].
      rewrite find_range_cons in *. destruct (covers lsn source) eqn:Hc; [|done]. injection Hf as <-.
      exists (close_range source archived_lsn). split; [|apply same_identity_close].
      assert (covers lsn (close_range source archived_lsn) = true) as ->; [|done].
      apply covers_spec in Hc as [? _]. apply covers_spec. cbn. split; [done|]. intros ? [= <-]. lia.
    + intros lsn Hl. rewrite find_range_app, Hnone, !find_range_cons by lia.
      destruct (covers lsn (close_range source archived_lsn)) eqn:Hc.
      { apply covers_spec in Hc as [_ Hc]. specialize (Hc archived_lsn eq_refl). lia. }
      by apply Hcov in Hl as ->.
Qed.

Section Published.
Context `{ManifestHost, RingHost, MetadataJson, HeadCodec}.
Context {V : Type}.

Lemma validate_head_ranges h stream ranges :
  validate_head h = Ok tt → rm_stream_segments (cm_manifest (ch_metadata h)) !! stream = Some ranges →
  validate_ranges 1 ranges = Ok tt.
Proof.
  unfold validate_head. intros Hv Hr.
  do 4 match type of Hv with (if ?b then _ else _) = _ => destruct b; [done|] end.
  apply bind_Ok in Hv as (r & _ & Hv).
  do 2 match type of Hv with (if ?b then _ else _) = _ => destruct b; [done|] end.
  apply bind_Ok in Hv as (_ & _ & Hv). destruct (_ || _); [done|].
  apply bind_Ok in Hv as ([] & Hm & _). unfold validate_metadata in Hm. destruct (_ =? 0); [done|].
  apply bind_Ok in Hm as ([] & Hm%map_err_Ok & _). unfold validate_manifest in Hm.
  destruct (negb _); [done|]. destruct (rm_revision _ =? 0).
  { destruct (_ || _) eqn:Hz in Hm; [done|]. bool_facts.
    match goal with He : rm_stream_segments _ = ∅ |- _ => rewrite He in Hr end. by apply lookup_empty_Some in Hr. }
  destruct (blank _); [done|]. destruct (bool_decide _); [done|]. destruct (negb _); [done|].
  unfold validate_stream_segments in Hm.
  rewrite (try_fold_all (λ '(stream, segments), validate_stream_entry stream segments)) in Hm.
  specialize (Hm (stream, ranges)). cbn in Hm. unfold validate_stream_entry in Hm.
  destruct (_ || _); [|by apply Hm, elem_of_sbtree_entries].
  by rewrite elem_of_sbtree_entries in Hm; apply Hm in Hr.
Qed.

(** What a valid published claim says of its successor. *)
Lemma published_successor_facts d st :
  validate_handoff d (Some st) = Ok tt → ph_stage d = RoutePublished →
  ∃ successor archived_lsn, ph_successor d = Some successor ∧ ph_archived_lsn d = Some archived_lsn
    ∧ sg_end_lsn successor = None
    ∧ sg_start_lsn successor = N.max (saturating_add archived_lsn 1) (sg_start_lsn (ph_source d))
    ∧ unordered_ids (sg_member_ids successor) = false ∧ len (sg_member_ids successor) = REPLICATION_FACTOR
    ∧ sg_member_hash successor ≠ "" ∧ sg_end_lsn (ph_source d) = None.
Proof.
  unfold validate_handoff. intros Hv Hst. rewrite Hst in Hv. cbn [rank N.leb N.compare Pos.compare Pos.compare_cont] in Hv.
  do 3 match type of Hv with (if ?b then _ else _) = _ => destruct b; [done|] end.
  destruct (negb (len _ =? _) || _) eqn:Hl in Hv; [done|].
  destruct (unordered_ids _ || _) eqn:Hu in Hv; [done|].
  destruct (_ || _) eqn:Hsrc in Hv; [done|]. destruct (_ || _) in Hv; [done|].
  apply bind_Ok in Hv as (_ & _ & Hv). destruct (_ =? 0) in Hv; [done|]. destruct (_ || _) in Hv; [done|].
  cbn [negb andb] in Hv. destruct (_ || _) in Hv; [done|].
  unfold validate_archived in Hv. apply bind_Ok in Hv as (successor & Hs%ok_or_Ok & Hv).
  apply bind_Ok in Hv as (archived & Ha%ok_or_Ok & Hv). apply bind_Ok in Hv as (pl & Hp%ok_or_Ok & Hv).
  destruct (_ || _) eqn:Hb in Hv; [done|]. clear Hv. exists successor, archived. bool_facts.
  destruct (sg_end_lsn successor); [done|]. destruct (sg_end_lsn (ph_source d)); [done|].
  split_and!; try done.
  - match goal with He : sg_member_ids successor = _ |- _ => rewrite He end. done.
  - match goal with He : sg_member_ids successor = _ |- _ => rewrite He end. unfold len in *. by rewrite length_fmap.
  - intros He. assert (ph_target_member_hash d = "") as Hh by congruence.
    match goal with Hb : blank (ph_target_member_hash d) = false |- _ => by rewrite Hh in Hb end.
Qed.

(** C28: A published handoff moves the tail of one stream and nothing else.  Over a valid head whose
    stream ends with the source, and with a claim that passes the checks of the head store, the
    new manifest has contiguous ranges for the stream; every LSN the archive covers keeps the
    route it had, with the same cohort, members and epochs; every LSN from the successor's start
    on is routed to the successor; the other streams keep their ranges, and the other claims are
    kept. *)
Theorem published_handoff_routes (expected : ControlHeadSnapshot V) c base meta d :
  validate_head (sn_head expected) = Ok tt → publish_plan expected c base = Ok (meta, d) →
  validate_handoff d (Some (sc_stream c)) = Ok tt → ph_source base = sc_source c →
  sc_archived_lsn c < u64_max →
  let old := rm_stream_segments (cm_manifest (ch_metadata (sn_head expected))) in
  let new := rm_stream_segments (cm_manifest meta) in
  ∃ successor ranges, ph_successor d = Some successor ∧ new !! sc_stream c = Some ranges
    ∧ validate_ranges 1 ranges = Ok tt
    ∧ sc_archived_lsn c < sg_start_lsn successor
    ∧ (∀ lsn s, lsn < sg_start_lsn successor → find_segment old (sc_stream c) lsn = Some s →
         ∃ s', find_segment new (sc_stream c) lsn = Some s' ∧ same_identity s s' = true)
    ∧ (∀ lsn, sg_start_lsn successor ≤ lsn → find_segment new (sc_stream c) lsn = Some successor)
    ∧ (∀ st, st ≠ sc_stream c → new !! st = old !! st)
    ∧ keeps_other_claims expected meta (sc_stream c).
Proof.
  intros Hh Hplan Hv Hsrc Hmax. unfold publish_plan in Hplan.
  apply bind_Ok in Hplan as (ranges & Hr%ok_or_Ok & Hplan). apply bind_Ok in Hplan as (lst & Hl%ok_or_Ok & Hplan).
  apply bind_Ok in Hplan as (rev & _ & Hplan).
  destruct (_ || _) eqn:Hrev in Hplan; [done|]. case_bool_decide as Hlast; cbn [negb] in Hplan; [|done]. subst lst.
  destruct (negb _) eqn:Harch in Hplan; [done|]. injection Hplan as <- <-.
  set (succ := default (sc_successor c) (ph_successor base)) in *. bool_facts.
  match goal with He : default _ (ph_archived_lsn base) = _ |- _ => rename He into Harch end.
  destruct (published_successor_facts _ _ Hv eq_refl) as (successor & archived & Hs & Ha & Hend & Hstart & Hids & Hlen & Hhash & Hopen).
  cbn in Hs, Ha, Hstart, Hopen. injection Hs as <-. rewrite Hsrc in Hopen, Hstart.
  assert (archived = sc_archived_lsn c) as -> by congruence. cbv zeta. cbn [cm_manifest rm_stream_segments ph_successor verified_claim].
  apply last_Some in Hl as [init ->]. unfold head_ranges in Hr.
  replace (saturating_add (sc_archived_lsn c) 1) with (sc_archived_lsn c + 1) in Hstart by (unfold saturating_add; lia).
  destruct (published_ranges_routes init (sc_source c) (sc_archived_lsn c) succ) as (Hvr & Hold & Hnew); [|done..| |].
  { by eapply validate_head_ranges. }
  { cbn [validate_ranges]. rewrite N.eqb_refl, Hids, Hlen, N.eqb_refl, Hend. unfold end_before_start. rewrite Hend.
    rewrite (bool_decide_eq_false_2 (sg_member_ids succ = [])) by (intros He; by rewrite He in Hlen).
    rewrite (bool_decide_eq_false_2 (sg_member_hash succ = "")), bool_decide_eq_true_2 by done.
    cbn. repeat match goal with Hf : ?b = false |- context [?b] => rewrite Hf end.
    match goal with Hf : sg_manifest_revision succ ≠ 0 |- _ => apply N.eqb_neq in Hf; rewrite Hf end. done. }
  exists succ, (published_ranges (init ++ [sc_source c]) (sc_archived_lsn c) succ). rewrite Harch.
  split_and!; [done|by rewrite lookup_insert_eq|done|lia| | | |].
  - intros lsn s Hlt. unfold find_segment. rewrite Hr, lookup_insert_eq. cbn. by apply Hold.
  - intros lsn Hle. unfold find_segment. rewrite lookup_insert_eq. cbn. by apply Hnew.
  - intros st Hne. by rewrite lookup_insert_ne.
  - intros st Hne. cbn. by rewrite lookup_insert_ne.
Qed.

(** What the gateway asks of the head store is what [ControlHeadSafety] expects of its callers:
    a publication changes no other claim. *)
Lemma publish_asks_allowed c :
  (∀ base, sc_pending_handoff c = Some base → ph_stream base = sc_stream c) →
  always (λ _ _ q, match q with
                   | PublishHandoff expected meta d => keeps_other_claims (V := V) expected meta (ph_stream d)
                   | _ => True
                   end) (λ _ _, True) [] (publish_one_pending_handoff c).
Proof.
  intros Hst. unfold publish_one_pending_handoff. destruct (sc_pending_handoff c) as [base|]; [|by intros ? ?].
  specialize (Hst _ eq_refl).
  set (P := λ (tr : list (Event (PublishReq V))) X (q : PublishReq V X), _).
  assert (∀ tr expected st op, always P (λ _ _, True) tr (complete_and_adopt expected st op)) as Hcomplete.
  { intros tr expected st op. apply always_try; [done|]. intros head. split; [done|]. by intros [] ? ?. }
  assert (∀ tr expected, always P (λ _ _, True) tr (publish_route expected c base)) as Hroute.
  { intros tr expected. apply always_return. intros [meta d] Hplan. apply always_try; [|intros; apply Hcomplete].
    unfold publish_plan in Hplan. repeat apply bind_Ok in Hplan as (? & _ & Hplan).
    do 3 (match type of Hplan with (if ?b then _ else _) = _ => destruct b; [done|] end).
    injection Hplan as <- <-. cbn [P ph_stream verified_claim]. rewrite Hst.
    intros st Hne. cbn [cm_pending_handoffs]. by rewrite lookup_insert_ne. }
  apply always_try; [done|]. intros loaded. apply always_return. intros expected _.
  destruct (cm_pending_handoffs _ !! sc_stream c) as [existing|].
  - destruct (_ && _); [|apply Hroute]. apply always_return. intros s _.
    destruct (negb _); [by intros ? ?|apply Hcomplete].
  - destruct (existsb _ _); [by intros ? ?|apply Hroute].
Qed.

End Published.
