(* ===== verification/HandoffToy.v ===== *)
(** * HandoffToy: a stream on the move

    A cutover with one silent source, and the publication of its route. *)

From S2P Require Import Prelude Text Programs Traces Wire Client Placement Manifest Cohorts NodeLog NodeReplay NodeOps NodeSafety NodeContract NodeToy Evidence EvidenceSafety EvidenceToy ControlDoc Control ObjectStore ControlHead ControlHeadSafety Handoff HandoffSafety ControlHeadToy.

#[local] Open Scope N_scope.
#[local] Existing Instance Cohorts.toy_ring.

(** ** The tail of the source *)

Section Source.
#[local] Existing Instance Manifest.toy_host.

Definition m_candidates : gmap (string * N) EncryptedRecord :=
  match source_candidates (Some v_state) ACK_QUORUM "t/s" 0 v_snaps 2 3 with Ok c => c | Err _ => ∅ end.

Definition m_records : gmap N EncryptedRecord :=
  match join_tail [] 0 m_candidates with Ok m => m | Err _ => ∅ end.

Lemma cutover_keeps_acknowledged_witness :
  sample_record 2 ∈ [sample_record 1; sample_record 2] ∧ er_lsn (sample_record 2) < 3.
Proof.
  apply (cutover_keeps_acknowledged (Some v_state) "t/s" (w_segment 1 None) v_results 0 [] m_candidates m_records
    [sample_record 1; sample_record 2] 3 [sample_record 1; sample_record 2] (λ _, v_acks)).
  - apply v_snaps_ok.
  - reflexivity.
  - vm_compute. discriminate.
  - vm_compute. reflexivity.
  - vm_compute. reflexivity.
  - vm_compute. reflexivity.
  - vm_compute. discriminate.
  - vm_compute. reflexivity.
  - by vm_compute.
  - intros r Hr. assert (r ∈ sn_records v_full ∧ er_stream r = "t/s" ∧ 1 ≤ er_lsn r ∧ er_lsn r ≤ u64_max) as (Hin & Hs & Hl & Hu).
    { split; [exact Hr|]. rewrite !elem_of_cons, elem_of_nil in Hr. by destruct Hr as [->|[->|[]]]. }
    split_and!; [done|done| | |by vm_compute].
    + intros node Hn. cbn in Hn. rewrite !elem_of_cons, elem_of_nil in Hn.
      rewrite !elem_of_cons, elem_of_nil in Hr.
      destruct Hn as [->|[->|[->|[]]]], Hr as [->|[->|[]]]; vm_compute; reflexivity.
    + apply v_acked; [done|done|done|]. intros node s Hns Hid. cbn in Hns.
      rewrite !elem_of_cons, elem_of_nil in Hns.
      destruct Hns as [?|[?|[?|[]]]]; simplify_eq/=; [done|]. by vm_compute in Hid.
  - right. left.
Defined.

End Source.

(** ** The publication *)

Definition m_cutover : StreamCutover := mkCutover "s" h_source h_successor 5 (Some h_archived).

Definition m_plan : ControlMetadata * PendingHandoffDescriptor :=
  match publish_plan (h_sn h_head2) m_cutover h_archived with Ok p => p | Err _ => (h_meta, h_archived) end.

Lemma published_handoff_routes_witness :
  ∃ successor ranges, ph_successor m_plan.2 = Some successor
    ∧ rm_stream_segments (cm_manifest m_plan.1) !! "s" = Some ranges ∧ validate_ranges 1 ranges = Ok tt.
Proof.
  destruct (published_handoff_routes (h_sn h_head2) m_cutover h_archived m_plan.1 m_plan.2) as (s & r & Hs & Hr & Hv & _).
  - vm_compute. reflexivity.
  - vm_compute. reflexivity.
  - vm_compute. reflexivity.
  - reflexivity.
  - reflexivity.
  - exists s, r. exact (conj Hs (conj Hr Hv)).
Defined.

(** The plan is the metadata the run of [ControlHeadToy] publishes. *)
Example plan_is_published : m_plan = (h_meta', h_published).
Proof. vm_compute. reflexivity. Qed.
