(* ===== verification/Alarms.v ===== *)
(** * Alarms: when scheduled work runs

    [crates/walleye-node/src/alarms.rs]: the retry policy, the occurrences of a schedule, and the
    two steps of a firing.  [u64] and [u32] are [N] with the wrap-around of the release profile
    where the code does not saturate or check; a division by zero panics.  The walk over missed
    cron occurrences is bounded by [MAX_WALK] in the source, so it carries no fuel of its own. *)

From S2P Require Import Prelude Text Cron.

#[local] Open Scope N_scope.

Definition BACKOFF_BASE_MS : N := 2000.
Definition MAX_BACKOFF_SHIFT : N := 6.
Definition MAX_ATTEMPTS : N := 7.
Definition MAX_WALK : positive := 1000000.

Definition u64 (x : N) : N := x mod 2 ^ 64.

Inductive Repeat :=
| RCron (expression : str)
| REvery (seconds : N).

#[global] Instance Repeat_eq_dec : EqDecision Repeat.
Proof. solve_decision. Defined.

(** [seconds.max(&1) * 1000]. *)
Definition every_ms (seconds : N) : N := u64 (N.max seconds 1 * 1000).

(** [Repeat::next_after].  The search of [Cron.next_after] ends for every [u64] of milliseconds
    ([next_after_least]); its exhausted fuel would be a loop that does not. *)
Definition repeat_next_after (r : Repeat) (after_ms : N) : result Fault (option N) :=
  match r with
  | RCron expression =>
    match schedule_parse expression with
    | Ok schedule =>
      match next_after schedule (Z.of_N (after_ms / 1000)) with
      | Some found => Ok ((λ secs, u64 (Z.to_N (Z.max secs 0) * 1000)) <$> found)
      | None => Err Diverged
      end
    | Err (Refused _) => Ok None
    | Err e => Err e
    end
  | REvery seconds => Ok (checked_add after_ms (every_ms seconds))
  end.

(** One round of the walk over missed occurrences. *)
Definition walk_body (r : Repeat) (now_ms : N) (s : N * N) : N * N + result Fault (N * N) :=
  match repeat_next_after r s.1 with
  | Ok (Some next) => if next <=? now_ms then inl (next, s.2 + 1) else inr (Ok s)
  | Ok None => inr (Ok s)
  | Err e => inr (Err e)
  end.

(** [Repeat::catch_up]. *)
Definition catch_up (r : Repeat) (from_ms now_ms : N) : result Fault (N * N) :=
  if now_ms <=? from_ms then Ok (from_ms, 0)
  else match r with
       | REvery seconds =>
         let every := every_ms seconds in
         if every =? 0 then Err Panicked
         else let steps := (now_ms - from_ms) / every in Ok (from_ms + steps * every, steps)
       | RCron _ =>
         match rounds MAX_WALK (walk_body r now_ms) (from_ms, 0) with
         | inl s => Ok s
         | inr res => res
         end
       end.

Record Alarm := mkAlarm {
  al_at_ms : N;
  al_scheduled_ms : N;
  al_attempt : N;
  al_id : N;
  al_repeat : option Repeat;
  al_covers_from_ms : option N;
}.

#[global] Instance Alarm_eq_dec : EqDecision Alarm.
Proof. solve_decision. Defined.

(** [Alarm::once]. *)
Definition once (at_ms id : N) : Alarm := mkAlarm at_ms at_ms 0 id None None.

(** [Alarm::repeating]. *)
Definition repeating (r : Repeat) (first_ms id : N) : Alarm := mkAlarm first_ms first_ms 0 id (Some r) None.

Definition backoff_ms (attempt : N) : N :=
  u64 (N.shiftl BACKOFF_BASE_MS (N.min (saturating_sub attempt 1) MAX_BACKOFF_SHIFT)).

Record Firing := mkFiring {
  fr_id : N;
  fr_scheduled_ms : N;
  fr_attempt : N;
  fr_missed : N;
}.

(** What a begun firing stands for: the occurrence, the first one it covers and how many it
    passed over. *)
Definition begin_occurrence (al : Alarm) (now_ms : N) : result Fault (N * option N * N) :=
  match al_repeat al with
  | None => Ok (al_scheduled_ms al, al_covers_from_ms al, 0)
  | Some r =>
    let from := default (al_scheduled_ms al) (al_covers_from_ms al) in
    if al_attempt al =? 0 then
      '(latest, skipped) ← catch_up r (al_scheduled_ms al) now_ms;
      Ok (latest, Some (N.min (default from (al_covers_from_ms al)) from), skipped)
    else
      match al_covers_from_ms al with
      | Some from =>
        '(_, missed) ← catch_up r from (al_scheduled_ms al);
        Ok (al_scheduled_ms al, Some from, missed)
      | None => Ok (al_scheduled_ms al, None, 0)
      end
  end.

(** [begin]: the alarm it leaves and the firing, or nothing when the alarm is not due. *)
Definition begin (al : Alarm) (now_ms : N) : result Fault (option (Alarm * Firing)) :=
  if now_ms <? al_at_ms al then Ok None
  else
    '(scheduled, covers, missed) ← begin_occurrence al now_ms;
    let attempt := u32 (al_attempt al + 1) in
    Ok (Some (mkAlarm (saturating_add now_ms (backoff_ms attempt)) scheduled attempt (al_id al)
                (al_repeat al) covers,
              mkFiring (al_id al) scheduled attempt missed)).

Inductive Settled := Keep | Remove.

(** [move_on]: the next occurrence, from scratch. *)
Definition move_on (al : Alarm) (next : option N) : Settled * Alarm :=
  match next with
  | Some next => (Keep, mkAlarm next next 0 (al_id al) (al_repeat al) None)
  | None => (Remove, al)
  end.

(** [hand_over]: the next occurrence, which also covers the one given up. *)
Definition hand_over (al : Alarm) (next : option N) (now_ms : N) : Settled * Alarm :=
  match next with
  | Some next =>
    (Keep, mkAlarm (N.max next (N.min now_ms (al_at_ms al)))
             (default (al_scheduled_ms al) (al_covers_from_ms al)) 0 (al_id al) (al_repeat al) None)
  | None => (Remove, al)
  end.

(** [complete]. *)
Definition complete (al : Alarm) (f : Firing) (ok : bool) (now_ms : N) : result Fault (Settled * Alarm) :=
  if negb (al_id al =? fr_id f) || negb (al_attempt al =? fr_attempt f)
     || negb (al_scheduled_ms al =? fr_scheduled_ms f) then Ok (Keep, al)
  else
    next ← match al_repeat al with
           | Some r => repeat_next_after r (fr_scheduled_ms f)
           | None => Ok None
           end;
    if ok then Ok (move_on al next)
    else if MAX_ATTEMPTS <=? fr_attempt f then Ok (hand_over al next now_ms)
    else match next with
         | Some n => if n <=? al_at_ms al then Ok (hand_over al next now_ms) else Ok (Keep, al)
         | None => Ok (Keep, al)
         end.

(** ** The occurrences of a schedule *)

(** [walk r a n b]: [b] is the [n]-th occurrence after [a]; the occurrences it passes are in the
    first half of the [u64] milliseconds, where nothing wraps around. *)
Inductive walk (r : Repeat) (a : N) : N → N → Prop :=
| walk_here : walk r a 0 a
| walk_next n b c : walk r a n b → b < 2 ^ 63 → repeat_next_after r b = Ok (Some c) → walk r a (n + 1) c.

(** An interval whose milliseconds do not wrap around to zero. *)
Definition sane (r : Repeat) : Prop :=
  match r with REvery seconds => every_ms seconds ≠ 0 | RCron _ => True end.

(** How far a walk may go: an interval is divided, a cron expression is stepped. *)
Definition walkable (r : Repeat) (n : N) : Prop :=
  match r with REvery _ => True | RCron _ => n ≤ N.pos MAX_WALK end.

#[local] Hint Constructors walk : core.

Lemma walk_app r a n b m c : walk r a n b → walk r b m c → walk r a (n + m) c.
Proof.
  intros Hab Hbc. induction Hbc as [|m c d Hbc IH Hc Hn]; [by rewrite N.add_0_r|].
  rewrite N.add_assoc. eauto.
Qed.

Lemma walk_fun r a n b c : walk r a n b → walk r a n c → b = c.
Proof.
  intros Hw. revert c. induction Hw as [|n b c Hw IH Hb Hn]; intros d Hd.
  - inversion Hd; [done|lia].
  - inversion Hd as [|m b' ? Hw' _ Hn' Hm]; [lia|]. assert (m = n) as -> by lia.
    apply IH in Hw' as ->. congruence.
Qed.

(** Occurrences come strictly later. *)
Lemma next_later r a b : sane r → a < 2 ^ 63 → repeat_next_after r a = Ok (Some b) → a < b.
Proof.
  intros Hs Ha Hn. destruct r as [expression|seconds]; cbn in Hn.
  - destruct (schedule_parse expression) as [schedule|[]]; [|done..].
    destruct (next_after_searched schedule (Z.of_N (a / 1000))) as (found & Hf & Hr).
    { assert (a / 1000 ≤ 2 ^ 62) by (apply N.Div0.div_le_upper_bound; lia).
      generalize dependent (a / 1000). intros q Hq. split; [apply N2Z.is_nonneg|]. change (2 ^ 62)%Z with (Z.of_N (2 ^ 62)). by apply N2Z.inj_le. }
    rewrite Hf in Hn. injection Hn as Hn. apply fmap_Some in Hn as (secs & -> & ->).
    destruct Hr as (k & Hk & -> & Hlim & _). unfold search_window in Hlim. unfold u64.
    assert (1000 * (a / 1000) ≤ a ∧ a < 1000 * (a / 1000) + 1000) as [Hlo Hhi].
    { split; [apply N.Div0.mul_div_le|]. pose proof (N.mul_succ_div_gt a 1000). lia. }
    generalize dependent (a / 1000). intros q **.
    assert (Z.of_N q < (Z.of_N q / 60 + 1) * 60 <= Z.of_N q + 60)%Z by (Z.to_euclidean_division_equations; lia).
    rewrite N.mod_small; lia.
  - cbn in Hs. injection Hn as [-> _]%checked_add_Some. lia.
Qed.

Lemma walk_grows r a n b : sane r → walk r a n b → a + n ≤ b ∧ ∀ c m, walk r a m c → m < n → c < b.
Proof.
  intros Hs Hw. induction Hw as [|n b c Hw [IHa IHb] Hb Hn].
  - split; [lia|]. lia.
  - pose proof (next_later _ _ _ Hs Hb Hn). split; [lia|]. intros d m Hd Hm.
    destruct (decide (m = n)) as [->|]; [by rewrite (walk_fun _ _ _ _ _ Hd Hw)|].
    pose proof (IHb d m Hd ltac:(lia)). lia.
Qed.

Lemma walk_le r a n b m c : sane r → walk r a n b → walk r a m c → b ≤ c → n ≤ m.
Proof.
  intros Hs Hb Hc Hle. destruct (N.le_gt_cases n m) as [|Hlt]; [done|].
  pose proof (proj2 (walk_grows _ _ _ _ Hs Hb) c m Hc Hlt). lia.
Qed.

(** A walk that goes further passes through the occurrences before. *)
Lemma walk_prefix r a n c m : walk r a n c → m ≤ n → ∃ b, walk r a m b ∧ (m < n → b < 2 ^ 63 ∧ ∃ d, repeat_next_after r b = Ok (Some d) ∧ walk r d (n - m - 1) c).
Proof.
  intros Hw. revert m. induction Hw as [|n b c Hw IH Hb Hn]; intros m Hm.
  - assert (m = 0) as -> by lia. exists a. split; [done|lia].
  - destruct (decide (m = n + 1)) as [->|]; [exists c; split; [eauto|lia]|].
    destruct (decide (m = n)) as [->|].
    + exists b. split; [done|]. intros _. split; [done|]. exists c. split; [done|].
      replace (n + 1 - n - 1) with 0 by lia. done.
    + destruct (IH m ltac:(lia)) as (d & Hd & Hrest). exists d. split; [done|]. intros _.
      destruct (Hrest ltac:(lia)) as (? & e & ? & ?). split; [done|]. exists e. split; [done|].
      replace (n + 1 - m - 1) with (n - m - 1 + 1) by lia. eauto.
Qed.

(** What at most [p] rounds of the walk have passed. *)
Definition walked (r : Repeat) (now : N) (s : N * N) (p : N) (res : N * N + result Fault (N * N)) : Prop :=
  match res with
  | inl s' => walk r s.1 p s'.1 ∧ s'.2 = s.2 + p ∧ s'.1 ≤ now
  | inr (Ok s') => ∃ n, n ≤ p ∧ walk r s.1 n s'.1 ∧ s'.2 = s.2 + n ∧ s'.1 ≤ now
                        ∧ ∀ b, repeat_next_after r s'.1 = Ok (Some b) → now < b
  | inr (Err _) => True
  end.

Lemma walked_then r now s p q res (k : N * N → N * N + result Fault (N * N)) :
  walked r now s p res → (∀ s', s'.1 ≤ now → walked r now s' q (k s')) →
  walked r now s (p + q) (match res with inl s' => k s' | inr f => inr f end).
Proof.
  intros Hres Hk. destruct res as [s'|[s'|e]]; cbn in Hres; [|destruct Hres as (n & ? & ?)|done].
  - destruct Hres as (Hw & Hc & Hle). specialize (Hk s' Hle).
    destruct (k s') as [t|[t|e]]; cbn in *; [| |done].
    + destruct Hk as (? & ? & ?). split_and!; [by eapply walk_app|lia|done].
    + destruct Hk as (n & ? & ? & ? & ? & ?). exists (p + n). split_and!; [lia|by eapply walk_app|lia|done..].
  - exists n. split; [lia|done].
Qed.

Lemma walk_body_walked r now s : now < 2 ^ 63 → s.1 ≤ now → walked r now s 1 (walk_body r now s).
Proof.
  intros Hnow Hs. unfold walk_body. destruct (repeat_next_after r s.1) as [[next|]|e] eqn:Hn; [|exists 0..|done].
  - destruct (N.leb_spec next now) as [Hle|Hgt]; cbn.
    + split_and!; [|done..]. apply (walk_next r s.1 0 s.1); [done|lia|done].
    + exists 0. split_and!; [lia|done|lia|done|]. intros b Hb. congruence.
  - split_and!; [lia|done|lia|done|]. intros b Hb. congruence.
Qed.

Lemma rounds_walked r now p s :
  now < 2 ^ 63 → s.1 ≤ now → walked r now s (N.pos p) (rounds p (walk_body r now) s).
Proof.
  intros Hnow. revert s. induction p as [p IH|p IH|]; intros s Hs; cbn [rounds].
  - replace (N.pos p~1) with (1 + (N.pos p + N.pos p)) by lia.
    apply (walked_then r now s 1 _ _
      (λ s', match rounds p (walk_body r now) s' with
             | inl s' => rounds p (walk_body r now) s' | inr f => inr f end)); [by apply walk_body_walked|].
    intros s' Hs'. apply walked_then; auto.
  - replace (N.pos p~0) with (N.pos p + N.pos p) by lia. apply walked_then; auto.
  - by apply walk_body_walked.
Qed.

(** The walk of an interval is a multiple of it. *)
Lemma walk_every seconds a n b : walk (REvery seconds) a n b → b = a + n * every_ms seconds.
Proof.
  intros Hw. induction Hw as [|n b c Hw -> Hb Hn]; [lia|]. cbn in Hn.
  injection Hn as [-> _]%checked_add_Some. lia.
Qed.

Lemma every_walk seconds a n :
  sane (REvery seconds) → a + n * every_ms seconds < 2 ^ 63 → walk (REvery seconds) a n (a + n * every_ms seconds).
Proof.
  intros Hs. cbn in Hs. induction n as [|n IH] using N.peano_ind; intros Hlt.
  - rewrite N.mul_0_l, N.add_0_r. done.
  - rewrite <- N.add_1_r in *. eapply walk_next; [apply IH; lia|lia|]. cbn.
    rewrite checked_add_le by (unfold u64_max; lia). do 2 f_equal. lia.
Qed.

(** Catching up reaches the latest occurrence that is due, and counts those it passes. *)
Lemma catch_up_spec r from now latest skipped :
  sane r → now < 2 ^ 63 → catch_up r from now = Ok (latest, skipped) →
  walk r from skipped latest ∧ walkable r skipped ∧ (now ≤ from → latest = from)
  ∧ (from ≤ now → latest ≤ now)
  ∧ ∀ n b, walk r from n b → walkable r n → b ≤ now → b ≤ latest.
Proof.
  intros Hs Hnow Hc. unfold catch_up in Hc. destruct (N.leb_spec now from) as [Hle|Hgt].
  { injection Hc as <- <-. split_and!; [done|by destruct r|done..|]. intros n b Hb _ Hbn. lia. }
  destruct r as [expression|seconds].
  - pose proof (rounds_walked (RCron expression) now MAX_WALK (from, 0) Hnow ltac:(cbn; lia)) as Hr.
    destruct (rounds _ _ _) as [s|[s|e]]; cbn in Hr; [| |done]; injection Hc as ->.
    + cbn in Hr. destruct Hr as (Hw & -> & Hle). split_and!; [done..|lia|done|].
      intros n b Hb Hn _. destruct (decide (n = N.pos MAX_WALK)) as [->|]; [by rewrite (walk_fun _ _ _ _ _ Hb Hw)|].
      pose proof (proj2 (walk_grows _ _ _ _ Hs Hw) b n Hb ltac:(cbn in Hn; lia)). lia.
    + cbn in Hr. destruct Hr as (k & Hk & Hw & -> & Hle & Hlast). rewrite N.add_0_l in *. split_and!; [done..|lia|done|].
      intros n b Hb Hn Hbn. destruct (N.le_gt_cases n k) as [Hnk|Hnk].
      * destruct (decide (n = k)) as [->|]; [by rewrite (walk_fun _ _ _ _ _ Hb Hw)|].
        pose proof (proj2 (walk_grows _ _ _ _ Hs Hw) b n Hb ltac:(lia)). lia.
      * destruct (walk_prefix _ _ _ _ k Hb ltac:(lia)) as (b' & Hb' & Hrest).
        rewrite (walk_fun _ _ _ _ _ Hb' Hw) in Hrest. destruct (Hrest Hnk) as (_ & d & Hd & Hdb).
        pose proof (Hlast d Hd). pose proof (proj1 (walk_grows _ _ _ _ Hs Hdb)). lia.
  - cbn in Hs. destruct (N.eqb_spec (every_ms seconds) 0) as [|_]; [done|]. injection Hc as <- <-.
    set (e := every_ms seconds) in *. set (n := (now - from) / e).
    assert (n * e ≤ now - from ∧ now - from < n * e + e) as [Hlo Hhi].
    { unfold n. pose proof (N.Div0.mul_div_le (now - from) e). pose proof (N.mul_succ_div_gt (now - from) e Hs). lia. }
    split_and!; [apply every_walk; [done|fold e; lia]|done|lia|lia|].
    intros m b ->%walk_every _ Hbn. change (every_ms seconds) with e in Hbn |- *. assert (m * e < (n + 1) * e) as Hmn by lia.
    apply N.mul_lt_mono_pos_r in Hmn; [|lia]. apply N.add_le_mono_l, N.mul_le_mono_r. lia.
Qed.

(** Walking again over the same occurrences counts them the same. *)
Lemma catch_up_again r from k b latest missed :
  sane r → walk r from k b → walkable r k → b < 2 ^ 63 → catch_up r from b = Ok (latest, missed) → missed = k.
Proof.
  intros Hs Hw Hk Hb Hc. destruct (catch_up_spec _ _ _ _ _ Hs Hb Hc) as (Hw' & _ & _ & Hle & Hmax).
  pose proof (proj1 (walk_grows _ _ _ _ Hs Hw)). specialize (Hmax _ _ Hw Hk ltac:(lia)).
  assert (latest = b) as -> by lia. apply N.le_antisymm; by eapply walk_le.
Qed.

(** ** Firing and completing *)

(** The first occurrence that no successful run has covered yet. *)
Definition resume (al : Alarm) : N := default (al_scheduled_ms al) (al_covers_from_ms al).

(** The completion of a firing that [complete] takes for the alarm's current one. *)
Definition accepts (al : Alarm) (f : Firing) : bool :=
  (al_id al =? fr_id f) && (al_attempt al =? fr_attempt f) && (al_scheduled_ms al =? fr_scheduled_ms f).

(** The life of one alarm: the alarm while it is kept, the firings begun, and how many
    occurrences the successful runs report: each its own and those it missed. *)
Record Life := mkLife { li_alarm : option Alarm; li_begun : list Firing; li_covered : N }.

Inductive alarm_step : Life → Life → Prop :=
| step_begin al now al' f begun covered :
    now < 2 ^ 63 → al_attempt al + 1 < 2 ^ 32 → begin al now = Ok (Some (al', f)) →
    alarm_step (mkLife (Some al) begun covered) (mkLife (Some al') (f :: begun) covered)
| step_complete al f ok now settled al' begun covered :
    f ∈ begun → complete al f ok now = Ok (settled, al') →
    alarm_step (mkLife (Some al) begun covered)
      (mkLife (match settled with Keep => Some al' | Remove => None end) begun
         (if ok && accepts al f then covered + fr_missed f + 1 else covered)).

Record life_inv (r : Repeat) (first : N) (al : Alarm) (begun : list Firing) (covered : N) : Prop := {
  life_repeat : al_repeat al = Some r;
  life_walk : walk r first covered (resume al);
  life_idle : al_attempt al = 0 → al_covers_from_ms al = None ∧ al_scheduled_ms al ≤ al_at_ms al;
  life_tried : al_attempt al ≠ 0 → ∃ from k, al_covers_from_ms al = Some from ∧ walkable r k
                 ∧ walk r from k (al_scheduled_ms al) ∧ al_scheduled_ms al < 2 ^ 63;
  life_begun f : f ∈ begun → fr_attempt f ≠ 0
    ∧ (fr_scheduled_ms f < resume al
       ∨ (walk r (resume al) (fr_missed f) (fr_scheduled_ms f) ∧ walkable r (fr_missed f)
          ∧ fr_scheduled_ms f ≤ if al_attempt al =? 0 then al_at_ms al else al_scheduled_ms al));
}.

Lemma begin_inv r first al begun covered now al' f :
  sane r → now < 2 ^ 63 → al_attempt al + 1 < 2 ^ 32 → begin al now = Ok (Some (al', f)) →
  life_inv r first al begun covered → life_inv r first al' (f :: begun) covered.
Proof.
  intros Hs Hnow Hlt Hb [Hr Hw Hidle Htried Hbegun]. unfold begin, begin_occurrence in Hb. rewrite Hr in Hb.
  destruct (N.ltb_spec now (al_at_ms al)) as [|Hdue]; [done|].
  assert (u32 (al_attempt al + 1) = al_attempt al + 1) as Hu by (unfold u32; by rewrite N.mod_small).
  assert (al_attempt al + 1 ≠ 0) as Hne by lia. pose proof (proj2 (N.eqb_neq _ _) Hne) as Heq.
  destruct (N.eqb_spec (al_attempt al) 0) as [Hz|Hz].
  - specialize (Hidle Hz) as [Hidle Hat]. unfold resume in *. rewrite Hidle in *. cbn in *.
    destruct (catch_up r (al_scheduled_ms al) now) as [[latest skipped]|] eqn:Hc; [|done].
    injection Hb as <- <-. rewrite Hu, N.min_id.
    destruct (catch_up_spec _ _ _ _ _ Hs Hnow Hc) as (Hwalk & Hk & _ & Hle & Hmax).
    specialize (Hle ltac:(lia)). split; cbn; unfold resume; cbn; [done..| |].
    + intros _. exists (al_scheduled_ms al), skipped. split_and!; [done..|lia].
    + intros f [->|Hf]%elem_of_cons; cbn; [split; [done|right]; by rewrite Heq|].
      destruct (Hbegun f Hf) as [Ha [?|(Hwf & Hkf & Hsf)]]; (split; [done|]); [by left|right].
      rewrite Heq. split_and!; [done..|]. apply (Hmax _ _ Hwf Hkf). lia.
  - destruct (Htried Hz) as (from & k & Hfrom & Hk & Hwalk & Hsched). rewrite Hfrom in Hb. cbn in Hb.
    destruct (catch_up r from (al_scheduled_ms al)) as [[? missed]|] eqn:Hc; [|done]. injection Hb as <- <-.
    pose proof (catch_up_again _ _ _ _ _ _ Hs Hwalk Hk Hsched Hc) as ->. rewrite Hu.
    unfold resume in *. rewrite Hfrom in *. cbn in *. split; cbn; unfold resume; cbn; [done..| |].
    + intros _. exists from, k. done.
    + intros f [->|Hf]%elem_of_cons; cbn; [split; [done|right]; by rewrite Heq|]. rewrite Heq. by apply Hbegun.
Qed.

Lemma accepts_guard al f :
  negb (al_id al =? fr_id f) || negb (al_attempt al =? fr_attempt f) || negb (al_scheduled_ms al =? fr_scheduled_ms f)
  = negb (accepts al f).
Proof. unfold accepts. by rewrite !negb_andb. Qed.

(** A successful run moves past every occurrence it covered. *)
Lemma move_on_inv r first al begun covered next f :
  sane r → life_inv r first al begun covered → f ∈ begun → accepts al f = true →
  repeat_next_after r (fr_scheduled_ms f) = Ok (Some next) →
  life_inv r first (mkAlarm next next 0 (al_id al) (al_repeat al) None) begun (covered + fr_missed f + 1).
Proof.
  intros Hs [Hr Hw Hidle Htried Hbegun] Hf Ha Hn. unfold accepts in Ha. bool_facts.
  destruct (Hbegun f Hf) as [Hz Hcase]. destruct (Htried ltac:(congruence)) as (from & k & Hfrom & Hk & Hwalk & Hsched).
  match goal with He : al_scheduled_ms al = _ |- _ => rewrite <- He in Hn, Hcase end.
  pose proof (next_later _ _ _ Hs Hsched Hn) as Hlater. pose proof (proj1 (walk_grows _ _ _ _ Hs Hwalk)) as Hge.
  unfold resume in Hw, Hcase, Hbegun. rewrite Hfrom in Hw, Hcase, Hbegun. cbn in Hw, Hcase, Hbegun.
  destruct Hcase as [?|(Hwf & _ & _)]; [lia|].
  split; unfold resume; cbn; [done| |done| |].
  - eapply walk_next; [by eapply walk_app|done..].
  - done.
  - intros g Hg. destruct (Hbegun g Hg) as [Hzg Hcase]. split; [done|]. left.
    destruct (N.eqb_spec (al_attempt al) 0); [congruence|].
    destruct Hcase as [?|(_ & _ & ?)]; lia.
Qed.

(** A run given up hands its occurrences to the next one. *)
Lemma hand_over_inv r first al begun covered next at_ms :
  sane r → life_inv r first al begun covered → al_attempt al ≠ 0 →
  repeat_next_after r (al_scheduled_ms al) = Ok (Some next) → next ≤ at_ms →
  life_inv r first (mkAlarm at_ms (resume al) 0 (al_id al) (al_repeat al) None) begun covered.
Proof.
  intros Hs [Hr Hw Hidle Htried Hbegun] Hz Hn Hat. destruct (Htried Hz) as (from & k & Hfrom & Hk & Hwalk & Hsched).
  pose proof (next_later _ _ _ Hs Hsched Hn) as Hlater. pose proof (proj1 (walk_grows _ _ _ _ Hs Hwalk)) as Hge.
  assert (resume al = from) as Hres by (unfold resume; by rewrite Hfrom). rewrite Hres in *.
  split; unfold resume; cbn; [done..| | |].
  - intros _. split; [done|lia].
  - done.
  - intros g Hg. destruct (Hbegun g Hg) as [Hzg Hcase]. split; [done|].
    destruct (N.eqb_spec (al_attempt al) 0); [congruence|].
    destruct Hcase as [?|(? & ? & ?)]; [by left|right]. split_and!; [done..|lia].
Qed.

Lemma complete_inv r first al begun covered f ok now al' :
  sane r → life_inv r first al begun covered → f ∈ begun → complete al f ok now = Ok (Keep, al') →
  life_inv r first al' begun (if ok && accepts al f then covered + fr_missed f + 1 else covered).
Proof.
  intros Hs Hinv Hf Hc. unfold complete in Hc. rewrite accepts_guard in Hc.
  destruct (accepts al f) eqn:Ha; cbn in Hc; [|injection Hc as <-; by rewrite andb_false_r].
  rewrite (life_repeat _ _ _ _ _ Hinv), andb_true_r in *.
  destruct (repeat_next_after r (fr_scheduled_ms f)) as [next|] eqn:Hn; [cbn in Hc|done].
  pose proof Ha as Ha'. unfold accepts in Ha'. bool_facts.
  destruct (life_begun _ _ _ _ _ Hinv f Hf) as [Hz _].
  assert (∀ at_ n, next = Some n → n ≤ at_ →
    life_inv r first (mkAlarm at_ (resume al) 0 (al_id al) (al_repeat al) None) begun covered) as Hover.
  { intros at_ n -> Hat. eapply hand_over_inv; [done..|congruence| |done]. congruence. }
  destruct ok; [|destruct (_ <=? fr_attempt f)].
  - destruct next as [next|]; [injection Hc as <-|done]. by eapply move_on_inv.
  - destruct next as [next|]; [injection Hc as <-|done]. eapply Hover; [done|lia].
  - destruct next as [next|]; [|injection Hc as <-; done].
    destruct (N.leb_spec next (al_at_ms al)); injection Hc as <-; [eapply Hover; [done|lia]|done].
Qed.

Lemma life_reach r first id l :
  sane r → rtc alarm_step (mkLife (Some (repeating r first id)) [] 0) l →
  ∀ al, li_alarm l = Some al → life_inv r first al (li_begun l) (li_covered l).
Proof.
  intros Hs Hrun. revert l Hrun.
  apply (rtc_ind_r (R := alarm_step) (λ l, ∀ al, li_alarm l = Some al → life_inv r first al (li_begun l) (li_covered l))
    (mkLife (Some (repeating r first id)) [] 0)).
  - intros al [= <-]. split; cbn; unfold resume; cbn; [done..|by intros|done|]. by intros f ?%not_elem_of_nil.
  - intros x y _ Hstep IH al Hal. destruct Hstep; cbn in *.
    + injection Hal as <-. eapply begin_inv; eauto.
    + destruct settled; [injection Hal as <-|done]. eapply complete_inv; eauto.
Qed.


(** ** Runs *)

(** Two seconds late, a failed run, a given-up occurrence, and a run that covers them all. *)
Definition a_begin (al : Alarm) (now : N) : Alarm * Firing :=
  match begin al now with Ok (Some x) => x | _ => (al, mkFiring 0 0 0 0) end.
Definition a_complete (al : Alarm) (f : Firing) (ok : bool) (now : N) : Alarm :=
  match complete al f ok now with Ok (_, al') => al' | _ => al end.

Definition a_alarm0 : Alarm := repeating (REvery 1) 0 1.
Definition a_first : Alarm * Firing := a_begin a_alarm0 2500.
Definition a_alarm1 : Alarm := a_complete a_first.1 a_first.2 false 2600.
Definition a_second : Alarm * Firing := a_begin a_alarm1 3000.
Definition a_alarm2 : Alarm := a_complete a_second.1 a_second.2 true 3100.

Example consecutive_runs :
  (fr_scheduled_ms a_first.2, fr_missed a_first.2) = (2000, 2)
  ∧ (fr_scheduled_ms a_second.2, fr_missed a_second.2) = (3000, 3)
  ∧ (al_scheduled_ms a_alarm2, al_covers_from_ms a_alarm2) = (4000, None).
Proof. vm_compute. done. Qed.


(** An interval of 2^61 seconds is zero milliseconds after the multiplication wraps around: the
    firing divides by zero. *)
Example huge_interval_panics now first : first < now → catch_up (REvery (2 ^ 61)) first now = Err Panicked.
Proof. intros Hlt. unfold catch_up. destruct (N.leb_spec now first); [lia|done]. Qed.

Example cron_catches_up :
  catch_up (RCron (as_bytes "*/15 * * * *")) 1790121600000 (1790121600000 + 50 * 60000)
  = Ok (1790121600000 + 45 * 60000, 3).
Proof. vm_compute. done. Qed.
