(* ===== verification/Ownership.v ===== *)
(** * Ownership: which process owns a table

    [crates/walleye-node/src/ownership.rs]: every process keeps a lease in the bucket, every table
    has one ownership record, and a record changes hands by a conditional write.  [Instant],
    [Duration] and the wall clock are [N], in milliseconds.  Lease and record objects are kept
    decoded: the bucket holds the leases by node and the record versions by table and number,
    which is what the paths [nodes/<node>.json] and [own/<table>/<seq>.json] name.

    An operation of [Ownership] is a program ([Programs.Prog]) over the questions of [OReq]: the
    clock, the blocks that hold the state's mutex, the requests to the bucket, and the lock of one
    table's record.  [perform] says what a bucket may answer; [exec] runs any number of processes,
    each with any number of calls in flight.  The hash [xxh3] is a parameter. *)

From S2P Require Import Prelude Text Programs ObjectStore Cron Alarms.

#[local] Open Scope N_scope.

Record LeaseConfig := mkLeaseConfig { lc_ttl_ms : N; lc_skew_ms : N; lc_sample_ms : N }.

Definition lease_config_default : LeaseConfig := mkLeaseConfig 10000 2000 2000.

(** [LeaseConfig::validate]. *)
Definition lease_config_validate (c : LeaseConfig) : result string unit :=
  if lc_ttl_ms c <? 300 then Err "lease ttl_ms must be at least 300"
  else if (lc_skew_ms c =? 0) || (lc_ttl_ms c / 3 <=? lc_skew_ms c) then
    Err "lease skew_ms must be positive and below a third of ttl_ms"
  else if (lc_sample_ms c =? 0) || (lc_ttl_ms c <? lc_sample_ms c) then
    Err "lease sample_ms must be positive and no more than ttl_ms"
  else Ok tt.

Definition renew_every (c : LeaseConfig) : N := lc_ttl_ms c / 3.

(** [LeaseConfig::verdict]. *)
Definition verdict (c : LeaseConfig) : N := lc_ttl_ms c + lc_skew_ms c.

Record LeaseRecord := mkLease {
  le_node : string;
  le_addr : string;
  le_renewal : N;
  le_ttl_ms : N;
  le_renewed_at_ms : N;
  le_draining : bool;
}.

Record OwnerRecord := mkOwner {
  ow_node : string;
  ow_epoch : N;
  ow_alarms : gmap string Alarm;
  ow_next_seq : option N;
}.

Inductive AlarmUpdate (T : Type) := Applied (out : T) | Skipped | NotOwner.
Arguments Applied {T} out.
Arguments Skipped {T}.
Arguments NotOwner {T}.

Record Peer := mkPeer { pe_node : string; pe_addr : string }.

#[global] Instance Peer_eq_dec : EqDecision Peer.
Proof. solve_decision. Defined.

Inductive Route := Local (epoch : N) | Remote (peer : Peer) (verdict_in : N) | Unowned.

Inductive Liveness := Live (peer : Peer) (verdict_in : N) | Lapsed | Gone.

Inductive Refusal := Owned (peer : Peer) (verdict_in : N) | NotNow (retry_after : N).

Record Session := mkSession {
  se_node : string;
  se_renewal : N;
  se_anchor : option N;
  se_draining : bool;
  se_retired : bool;
}.

Record Held := mkHeld { he_seq : N; he_epoch : N; he_alarms : gmap string Alarm }.

(** A lease as this process saw it; the version is the object's [e_tag]. *)
Record Seen := mkSeen { sn_version : N; sn_first_seen : N; sn_lease : option LeaseRecord }.

Record State := mkState {
  st_session : Session;
  st_held : gmap string Held;
  st_leases : gmap string Seen;
  st_records : gmap string (N * OwnerRecord);
  st_dead : gset string;
  st_lost : list string;
  st_abandoned : list string;
  st_placement : gmap string Peer;
  st_handed_seq : gmap string N;
  st_fair_share : N;
  st_started : N;
}.

(** The fields of [Ownership] that do not change. *)
Record Self := mkSelf { sf_node_id : string; sf_addr : string }.

(** ** Setters *)

Definition set_session (st : State) (x : Session) : State :=
  mkState x (st_held st) (st_leases st) (st_records st) (st_dead st) (st_lost st) (st_abandoned st)
    (st_placement st) (st_handed_seq st) (st_fair_share st) (st_started st).
Definition set_held (st : State) (x : gmap string Held) : State :=
  mkState (st_session st) x (st_leases st) (st_records st) (st_dead st) (st_lost st) (st_abandoned st)
    (st_placement st) (st_handed_seq st) (st_fair_share st) (st_started st).
Definition set_leases (st : State) (x : gmap string Seen) : State :=
  mkState (st_session st) (st_held st) x (st_records st) (st_dead st) (st_lost st) (st_abandoned st)
    (st_placement st) (st_handed_seq st) (st_fair_share st) (st_started st).
Definition set_records (st : State) (x : gmap string (N * OwnerRecord)) : State :=
  mkState (st_session st) (st_held st) (st_leases st) x (st_dead st) (st_lost st) (st_abandoned st)
    (st_placement st) (st_handed_seq st) (st_fair_share st) (st_started st).
Definition set_dead (st : State) (x : gset string) : State :=
  mkState (st_session st) (st_held st) (st_leases st) (st_records st) x (st_lost st) (st_abandoned st)
    (st_placement st) (st_handed_seq st) (st_fair_share st) (st_started st).
Definition set_lost (st : State) (x : list string) : State :=
  mkState (st_session st) (st_held st) (st_leases st) (st_records st) (st_dead st) x (st_abandoned st)
    (st_placement st) (st_handed_seq st) (st_fair_share st) (st_started st).
Definition set_abandoned (st : State) (x : list string) : State :=
  mkState (st_session st) (st_held st) (st_leases st) (st_records st) (st_dead st) (st_lost st) x
    (st_placement st) (st_handed_seq st) (st_fair_share st) (st_started st).
Definition set_plan (st : State) (placement : gmap string Peer) (fair_share : N) : State :=
  mkState (st_session st) (st_held st) (st_leases st) (st_records st) (st_dead st) (st_lost st)
    (st_abandoned st) placement (st_handed_seq st) fair_share (st_started st).
Definition set_handed_seq (st : State) (x : gmap string N) : State :=
  mkState (st_session st) (st_held st) (st_leases st) (st_records st) (st_dead st) (st_lost st)
    (st_abandoned st) (st_placement st) x (st_fair_share st) (st_started st).

Definition set_renewal (s : Session) (n : N) : Session :=
  mkSession (se_node s) n (se_anchor s) (se_draining s) (se_retired s).
Definition set_anchor (s : Session) (a : option N) : Session :=
  mkSession (se_node s) (se_renewal s) a (se_draining s) (se_retired s).

(** ** Names and placement *)

(** [session_name]: the node and twelve digits of a fresh UUID. *)
Definition session_name (node_id uuid : string) : string := node_id +:+ "." +:+ uuid.

(** [slot]: [rsplit_once('.')]. *)
Fixpoint before_last_dot (s : string) : option string :=
  match s with
  | EmptyString => None
  | String c rest =>
    match before_last_dot rest with
    | Some prefix => Some (String c prefix)
    | None => if bool_decide (c = Ascii.ascii_of_N 46) then Some "" else None
    end
  end.

Definition slot (session : string) : string := default session (before_last_dot session).

Class NodeHost := { xxh3_64 : list byte → N }.

Section Placement.
Context `{NodeHost}.

Definition score (table node : string) : N :=
  xxh3_64 (as_bytes table ++ [x00] ++ as_bytes node).

(** The order of the tuples [(u64, String)]. *)
Definition scored_le (a b : N * string) : Prop := a.1 < b.1 ∨ (a.1 = b.1 ∧ String.le a.2 b.2).

#[global] Instance scored_le_dec : RelDecision scored_le.
Proof. intros a b. unfold scored_le. apply _. Defined.

(** [Vec::dedup]. *)
Fixpoint dedup (l : list string) : list string :=
  match l with
  | a :: ((b :: _) as rest) => if bool_decide (a = b) then dedup rest else a :: dedup rest
  | _ => l
  end.

Definition div_ceil (a b : N) : N := (a + b - 1) / b.

(** One key of the loop of [place]; [None] is the panic of its [expect]. *)
Definition place_key (cap : N) (nodes : list string) (acc : gmap string string * gmap string N) (key : string)
    : option (gmap string string * gmap string N) :=
  let ranked := merge_sort (λ a b, scored_le (score key b, b) (score key a, a)) nodes in
  node ← head (filter (λ node, default 0 (acc.2 !! node) < cap) ranked);
  Some (<[key := node]> acc.1, <[node := default 0 (acc.2 !! node) + 1]> acc.2).

(** [place]. *)
Definition place (keys nodes : list string) : option (gmap string string) :=
  match nodes with
  | [] => Some ∅
  | _ =>
    let keys := dedup (merge_sort (λ a b, scored_le (xxh3_64 (as_bytes a), a) (xxh3_64 (as_bytes b), b)) keys) in
    let cap := div_ceil (len keys) (len nodes) in
    fst <$> foldl (λ acc key, acc ← acc; place_key cap nodes acc key) (Some (∅, ∅)) keys
  end.

End Placement.

(** ** What a program asks *)

(** The clocks and the fresh UUID a block may read. *)
Record Host := mkHost { h_now : N; h_wall : N; h_uuid : string }.

Inductive LeaseFault := PutFailed | PutLate.

Inductive OwnError := StoreFailed (e : StoreError) | KeptMoving (table : string).

Inductive OReq : Type → Type :=
| Now : OReq N
(** a block that holds the mutex of the state *)
| Locked {A} (f : Host → State → A * State) : OReq A
(** [timeout(skew, put)]: acknowledged only up to the deadline *)
| PutLease (deadline : N) (r : LeaseRecord) : OReq (result LeaseFault unit)
(** a deletion whose outcome is ignored *)
| DeleteLease (node : string) : OReq unit
| ListLeases : OReq (result OwnError (gmap string N))
| GetLease (node : string) : OReq (result StoreError (N * LeaseRecord))
| ListRecords : OReq (result OwnError (list (string * N)))
| ListVersions (table : string) : OReq (result OwnError (list N))
| GetVersion (table : string) (seq : N) : OReq (result StoreError OwnerRecord)
| CreateVersion (table : string) (seq : N) (r : OwnerRecord) : OReq (result StoreError unit)
| DeleteVersion (table : string) (seq : N) : OReq unit
(** the lock of one table's record within the process *)
| Acquire (table : string) : OReq unit
| Unlock (table : string) : OReq unit.

Abbreviation Own := (Prog OReq OwnError).

Definition ret {A} (a : A) : Own A := PReturn (Ok a).

Definition locked {A} (f : Host → State → A * State) : Own A := ask (Locked f).

(** A block that only reads. *)
Definition read {A} (f : State → A) : Own A := locked (λ _ st, (f st, st)).

(** A block that only writes. *)
Definition modify (f : State → State) : Own unit := locked (λ _ st, (tt, f st)).

Fixpoint ask_all {A} (q : A → OReq unit) (l : list A) : Own unit :=
  match l with
  | [] => ret tt
  | x :: l => _ ← ask (q x); ask_all q l
  end.

(** [writing]: the guard is dropped on every return. *)
Definition writing {A} (table : string) (m : Own A) : Own A :=
  _ ← ask (Acquire table); finally m (Unlock table).

(** ** The operations *)

Section Operations.
Context (cfg : LeaseConfig) (self : Self).
Context `{NodeHost}.

Abbreviation node_of st := (se_node (st_session st)).

(** [stand_down_locked]. *)
Definition stand_down_locked (h : Host) (st : State) : State :=
  let session := st_session st in
  let old := se_node session in
  mkState (mkSession (session_name (sf_node_id self) (h_uuid h)) 0 None (se_draining session) (se_retired session))
    ∅ (st_leases st) (st_records st) ({[old]} ∪ st_dead st)
    (st_lost st ++ (sbtree_entries (st_held st)).*1) (st_abandoned st ++ [old])
    (st_placement st) (st_handed_seq st) (st_fair_share st) (st_started st).

(** [authoritative_locked]. *)
Definition authoritative_locked (h : Host) (st : State) : bool * State :=
  if se_retired (st_session st) then (false, st)
  else match se_anchor (st_session st) with
       | Some anchor => if h_now h - anchor <? lc_ttl_ms cfg then (true, st) else (false, stand_down_locked h st)
       | None => (false, st)
       end.

Definition authoritative : Own bool := locked authoritative_locked.

Definition take_lost : Own (list string) := locked (λ _ st, (st_lost st, set_lost st [])).

(** The first block of [renew]: what to write, and the leases to delete first. *)
Definition renew_prepare (h : Host) (st : State) : option (LeaseRecord * list string) * State :=
  if se_retired (st_session st) then (None, st)
  else
    let st := (authoritative_locked h st).2 in
    let session := set_renewal (st_session st) (se_renewal (st_session st) + 1) in
    let record := mkLease (se_node session) (sf_addr self) (se_renewal session) (lc_ttl_ms cfg)
                    (h_wall h) (se_draining session) in
    (Some (record, st_abandoned st), set_abandoned (set_session st session) []).

(** The last block of [renew]: does the renewal count? *)
Definition renew_count (issued : N) (node : string) (written : result LeaseFault unit) (h : Host) (st : State)
    : bool * State :=
  let session := st_session st in
  match written with
  | Ok _ =>
    if bool_decide (se_node session = node) && negb (se_retired session) then
      if match se_anchor session with Some anchor => issued - anchor <? lc_ttl_ms cfg | None => true end
      then (true, set_session st (set_anchor session (Some issued)))
      else (false, st)
    else (false, st)
  | Err _ => (false, st)
  end.

(** [renew]. *)
Definition renew : Own bool :=
  issued ← ask Now;
  prepared ← locked renew_prepare;
  match prepared with
  | None => ret false
  | Some (record, abandoned) =>
    _ ← ask_all DeleteLease abandoned;
    timer ← ask Now;
    written ← ask (PutLease (timer + lc_skew_ms cfg) record);
    locked (renew_count issued (le_node record) written)
  end.

(** [read_version]. *)
Definition read_version (table : string) (seq : N) : Own (option OwnerRecord) :=
  got ← ask (GetVersion table seq);
  match got with
  | Ok r => ret (Some r)
  | Err NotFound => ret None
  | Err e => PReturn (Err (StoreFailed e))
  end.

(** Leases to read: their version moved or their body was never read. *)
Definition changed_leases (present : gmap string N) (st : State) : list string :=
  (filter (λ e, match st_leases st !! e.1 with
                | Some seen => negb (sn_version seen =? e.2) || bool_decide (¬ is_Some (sn_lease seen))
                | None => true
                end = true) (map_to_list present)).*1.

Fixpoint read_bodies (nodes : list string) (bodies : gmap string LeaseRecord) : Own (gmap string LeaseRecord) :=
  match nodes with
  | [] => ret bodies
  | node :: nodes =>
    got ← ask (GetLease node);
    read_bodies nodes (match got with Ok (_, lease) => <[node := lease]> bodies | Err _ => bodies end)
  end.

Definition merge_lease (listed_at : N) (body : option LeaseRecord) (seen : option Seen) (version : N) : Seen :=
  match seen with
  | Some seen =>
    if sn_version seen =? version
    then mkSeen (sn_version seen) (sn_first_seen seen) (match sn_lease seen with None => body | l => l end)
    else mkSeen version listed_at body
  | None => mkSeen version listed_at body
  end.

(** The block of [sample] that takes the listing over, and the leases found expired. *)
Definition sample_merge (before listed_at : N) (present : gmap string N) (bodies : gmap string LeaseRecord)
    (h : Host) (st : State) : list string * State :=
  let leases := map_imap (λ node version, Some (merge_lease listed_at (bodies !! node) (st_leases st !! node) version))
                  present in
  let expired := (filter (λ e, e.1 ≠ node_of st ∧ verdict cfg ≤ before - sn_first_seen e.2) (map_to_list leases)).*1 in
  (expired, set_leases st leases).

(** The newest version of every listed table. *)
Definition newest_of (records : list (string * N)) : gmap string N :=
  foldl (λ m e, <[e.1 := N.max (default 0 (m !! e.1)) e.2]> m) ∅ records.

Fixpoint read_stale (stale : list (string * N)) : Own unit :=
  match stale with
  | [] => ret tt
  | (table, seq) :: stale =>
    got ← read_version table seq;
    _ ← match got with
        | Some record => modify (λ st, set_records st (<[table := (seq, record)]> (st_records st)))
        | None => ret tt
        end;
    read_stale stale
  end.

(** [sample]. *)
Definition sample : Own unit :=
  before ← ask Now;
  present ← try_ask ListLeases;
  listed_at ← ask Now;
  changed ← read (changed_leases present);
  bodies ← read_bodies changed ∅;
  expired ← locked (sample_merge before listed_at present bodies);
  _ ← ask_all DeleteLease expired;
  records ← try_ask ListRecords;
  let newest := newest_of records in
  stale ← read (λ st, filter (λ e, fst <$> st_records st !! e.1 ≠ Some e.2) (map_to_list newest));
  _ ← read_stale stale;
  modify (λ st, set_records st (filter (λ e, is_Some (newest !! e.1)) (st_records st))).

(** [listed.iter()…max().unwrap_or(0)]. *)
Definition newest_version (versions : list N) : N := default 0 (max_by (λ a b, b <=? a) versions).

(** [read_latest]: at most four listings. *)
Fixpoint read_latest_loop (attempts : nat) (table : string) : Own (N * option OwnerRecord) :=
  match attempts with
  | O => PReturn (Err (KeptMoving table))
  | S attempts =>
    listed ← try_ask (ListVersions table);
    let seq := newest_version listed in
    if seq =? 0 then
      _ ← modify (λ st, set_records st (delete table (st_records st)));
      ret (0, None)
    else
      got ← read_version table seq;
      match got with
      | Some record =>
        _ ← modify (λ st, set_records st (<[table := (seq, record)]> (st_records st)));
        ret (seq, Some record)
      | None => read_latest_loop attempts table
      end
  end.

Definition read_latest (table : string) : Own (N * option OwnerRecord) := read_latest_loop 4 table.

(** [write_version]. *)
Definition write_version (table : string) (seq : N) (record : OwnerRecord) : Own bool :=
  put ← ask (CreateVersion table seq record);
  match put with
  | Err AlreadyExists => ret false
  | Err e => PReturn (Err (StoreFailed e))
  | Ok _ =>
    versions ← try_ask (ListVersions table);
    if negb (bool_decide (max_by (λ a b, b <=? a) versions = Some seq)) then ret false
    else
      _ ← ask_all (DeleteVersion table) (filter (λ v, v + 1 < seq) versions);
      _ ← modify (λ st, set_records st (<[table := (seq, record)]> (st_records st)));
      ret true
  end.

(** The block of [liveness] that takes a lease over; answers whether its version is the one
    already seen. *)
Definition see_lease (node : string) (version : N) (lease : LeaseRecord) (h : Host) (st : State) : bool * State :=
  match st_leases st !! node with
  | Some seen =>
    if sn_version seen =? version
    then (true, set_leases st (<[node := mkSeen (sn_version seen) (sn_first_seen seen)
                                           (match sn_lease seen with None => Some lease | l => l end)]> (st_leases st)))
    else (false, set_leases st (<[node := mkSeen version (h_now h) (Some lease)]> (st_leases st)))
  | None => (false, set_leases st (<[node := mkSeen version (h_now h) (Some lease)]> (st_leases st)))
  end.

(** What [liveness] concludes from what it saw, at [now]. *)
Definition judge (node : string) (now : N) (st : State) : Liveness :=
  match st_leases st !! node with
  | None => Gone
  | Some seen =>
    let elapsed := now - sn_first_seen seen in
    if verdict cfg <=? elapsed then Lapsed
    else Live (mkPeer node (default "" (le_addr <$> sn_lease seen))) (verdict cfg - elapsed)
  end.

(** [liveness]. *)
Definition liveness (node : string) (fresh : bool) : Own Liveness :=
  dead ← read (λ st, bool_decide (node ∈ st_dead st));
  if (dead : bool) then ret Lapsed
  else
    known ← read (λ st, match st_leases st !! node with Some seen => bool_decide (is_Some (sn_lease seen)) | None => false end);
    now ← ask Now;
    if fresh || negb known then
      before ← ask Now;
      got ← ask (GetLease node);
      match got with
      | Ok (version, lease) =>
        same ← locked (see_lease node version lease);
        read (judge node (if same : bool then before else now))
      | Err NotFound =>
        _ ← modify (λ st, set_leases st (delete node (st_leases st)));
        ret Gone
      | Err e => PReturn (Err (StoreFailed e))
      end
    else read (judge node now).

Definition lease_verdict (node : string) (fresh : bool) : Own (option (Peer * N)) :=
  l ← liveness node fresh;
  ret (match l with Live peer verdict_in => Some (peer, verdict_in) | Lapsed | Gone => None end).

(** [accepting]. *)
Definition accepting (node : string) : Own (option N) :=
  l ← liveness node true;
  match l with
  | Live _ verdict_in =>
    draining ← read (λ st, default false (seen ← st_leases st !! node; le_draining <$> sn_lease seen));
    ret (if draining : bool then None else Some verdict_in)
  | Lapsed | Gone => ret None
  end.

(** [holds]. *)
Definition holds_locked (table : string) (h : Host) (st : State) : option N * State :=
  let '(authoritative, st) := authoritative_locked h st in
  (if authoritative then he_epoch <$> st_held st !! table else None, st).

Definition holds (table : string) : Own (option N) := locked (holds_locked table).

(** [confirm]. *)
Definition confirm (table : string) (epoch : N) : Own bool :=
  e ← holds table; ret (bool_decide (e = Some epoch)).

Definition take_handed_seq (table : string) : Own (option N) :=
  locked (λ _ st, (st_handed_seq st !! table, set_handed_seq st (delete table (st_handed_seq st)))).

(** [resolve]. *)
Definition resolve (table : string) (fresh : bool) : Own Route :=
  mine ← holds table;
  match mine with
  | Some epoch => ret (Local epoch)
  | None =>
    cached ← read (A := option OwnerRecord) (λ st, snd <$> st_records st !! table);
    record ← match cached, fresh with
             | Some record, false => ret (Some record)
             | _, _ => '(_, record) ← read_latest table; ret record
             end;
    match record with
    | None => ret Unowned
    | Some record =>
      if bool_decide (ow_node record = "") then ret Unowned
      else
        me ← read (λ st, node_of st);
        if bool_decide (ow_node record = me) then
          mine ← holds table;
          ret (match mine with Some epoch => Local epoch | None => Unowned end)
        else
          verdict ← lease_verdict (ow_node record) fresh;
          ret (match verdict with Some (peer, verdict_in) => Remote peer verdict_in | None => Unowned end)
    end
  end.

(** The block of [claim] that keeps what was written. *)
Definition claim_keep (table me : string) (seq : N) (record : option OwnerRecord) (claim : OwnerRecord)
    (h : Host) (st : State) : bool * State :=
  if negb (bool_decide (node_of st = me)) then (false, st)
  else
    let st := set_held st (<[table := mkHeld (seq + 1) (ow_epoch claim) (ow_alarms claim)]> (st_held st)) in
    let handed := match record with
                  | Some r => if bool_decide (ow_node r = "") then ow_next_seq r else None
                  | None => None
                  end in
    (true, set_handed_seq st (match handed with
                              | Some next => <[table := next]> (st_handed_seq st)
                              | None => delete table (st_handed_seq st)
                              end)).

(** The part of [claim] that holds the table's lock. *)
Definition claim_writing (table : string) : Own (Refusal + N) :=
  let retry := N.min (lc_sample_ms cfg) 1000 in
  mine ← holds table;
  match mine with
  | Some epoch => ret (inr epoch)
  | None =>
    '(seq, record) ← read_latest table;
    me ← read (λ st, node_of st);
    live ← match record with
           | Some r =>
             if negb (bool_decide (ow_node r = "")) && negb (bool_decide (ow_node r = me))
             then lease_verdict (ow_node r) true else ret None
           | None => ret None
           end;
    match live with
    | Some (peer, verdict_in) => ret (inl (Owned peer verdict_in))
    | None =>
      may ← locked (λ h st, let '(ok, st) := authoritative_locked h st in
                            (ok && negb (se_draining (st_session st)), st));
      if negb may then ret (inl (NotNow retry))
      else
        let claim := mkOwner me (default 0 (ow_epoch <$> record)) (default ∅ (ow_alarms <$> record)) None in
        written ← write_version table (seq + 1) claim;
        if negb written then ret (inl (NotNow retry))
        else
          kept ← locked (claim_keep table me seq record claim);
          ret (if kept : bool then inr (ow_epoch claim) else inl (NotNow retry))
    end
  end.

(** [claim]. *)
Definition claim (table : string) : Own (Refusal + N) :=
  mine ← holds table;
  match mine with
  | Some epoch => ret (inr epoch)
  | None => writing table (claim_writing table)
  end.

(** What an owner holds, and its session: the first block of a change. *)
Definition held_now (table : string) (h : Host) (st : State) : option (Held * string) * State :=
  let '(authoritative, st) := authoritative_locked h st in
  (if authoritative : bool then (λ held, (held, node_of st)) <$> st_held st !! table else None, st).

(** The last block of a change: keep the new version, or give the table up. *)
Definition keep_or_drop (table me : string) (written : bool) (held : Held) (h : Host) (st : State) : bool * State :=
  if negb written || negb (bool_decide (node_of st = me))
  then (false, set_held st (delete table (st_held st)))
  else (true, set_held st (<[table := held]> (st_held st))).

(** [set_epoch]. *)
Definition set_epoch (table : string) (epoch : N) : Own bool :=
  writing table (
    mine ← locked (held_now table);
    match mine with
    | None => ret false
    | Some (held, me) =>
      if he_epoch held =? epoch then ret true
      else
        written ← write_version table (he_seq held + 1) (mkOwner me epoch (he_alarms held) None);
        locked (keep_or_drop table me written (mkHeld (he_seq held + 1) epoch (he_alarms held)))
    end).

(** [release]. *)
Definition release (table : string) (next_seq : option N) : Own unit :=
  writing table (
    held ← locked (λ _ st, (st_held st !! table, set_held st (delete table (st_held st))));
    match held with
    | None => ret tt
    | Some held =>
      _ ← write_version table (he_seq held + 1) (mkOwner "" (he_epoch held) (he_alarms held) next_seq);
      ret tt
    end).

(** The last block of [update_alarms]: like [keep_or_drop], and the table is lost. *)
Definition alarms_keep (key me : string) (written : bool) (held : Held) (h : Host) (st : State) : bool * State :=
  let '(kept, st) := keep_or_drop key me written held h st in
  (kept, if kept then st else set_lost st (st_lost st ++ [key])).

(** [update_alarms]; the change may also replace the map it declines to write. *)
Definition update_alarms {T} (key : string) (change : gmap string Alarm → option T * gmap string Alarm)
    : Own (AlarmUpdate T) :=
  writing key (
    mine ← locked (held_now key);
    match mine with
    | None => ret NotOwner
    | Some (held, me) =>
      let '(out, alarms) := change (he_alarms held) in
      match out with
      | None => ret Skipped
      | Some out =>
        written ← write_version key (he_seq held + 1) (mkOwner me (he_epoch held) alarms None);
        kept ← locked (alarms_keep key me written (mkHeld (he_seq held + 1) (he_epoch held) alarms));
        ret (if kept : bool then Applied out else NotOwner)
      end
    end).

(** [held_alarms]. *)
Definition held_alarms : Own (list (string * string * Alarm)) :=
  locked (λ h st,
    let '(authoritative, st) := authoritative_locked h st in
    (if authoritative : bool
     then concat ((λ e, (λ a, (e.1, a.1, a.2)) <$> sbtree_entries (he_alarms e.2)) <$> sbtree_entries (st_held st))
     else [], st)).

(** [read_alarms]. *)
Definition read_alarms (key : string) : Own (gmap string Alarm) :=
  mine ← read (A := option (gmap string Alarm)) (λ st, he_alarms <$> st_held st !! key);
  match mine with
  | Some alarms => ret alarms
  | None => '(_, record) ← read_latest key; ret (default ∅ (ow_alarms <$> record))
  end.

(** [drain]. *)
Definition drain : Own unit :=
  _ ← modify (λ st, let s := st_session st in
                    set_session st (mkSession (se_node s) (se_renewal s) (se_anchor s) true (se_retired s)));
  _ ← renew; ret tt.

(** [retire]. *)
Definition retire_locked (h : Host) (st : State) : string * State :=
  let s := st_session st in
  (se_node s, set_dead (set_session st (mkSession (se_node s) (se_renewal s) None (se_draining s) true))
                ({[se_node s]} ∪ st_dead st)).

Definition retire : Own unit :=
  node ← locked retire_locked;
  ask (DeleteLease node).

(** [settled]. *)
Definition settled : Own bool := locked (λ h st, (verdict cfg <=? h_now h - st_started st, st)).

(** [live_peers]. *)
Definition live_peers_locked (h : Host) (st : State) : list Peer * State :=
  let '(authoritative, st) := authoritative_locked h st in
  let me := node_of st in
  let mine := if authoritative && negb (se_draining (st_session st)) then [mkPeer me (sf_addr self)] else [] in
  let others := concat ((λ e : string * Seen,
    if bool_decide (e.1 = me) || bool_decide (e.1 ∈ st_dead st) then []
    else match sn_lease e.2 with
         | None => []
         | Some lease =>
           if le_draining lease || (verdict cfg <=? h_now h - sn_first_seen e.2) then []
           else [mkPeer e.1 (le_addr lease)]
         end) <$> map_to_list (st_leases st)) in
  (merge_sort (λ a b, String.le (pe_node a) (pe_node b)) (mine ++ others), st).

Definition live_peers : Own (list Peer) := locked live_peers_locked.

(** [preferred]. *)
Definition preferred (table : string) : Own (option Peer) :=
  live ← live_peers;
  placed ← read (λ st, st_placement st !! table);
  ret (match placed with
       | Some peer => if bool_decide (peer ∈ live) then Some peer
                      else max_by (λ a b, score table (pe_node b) <=? score table (pe_node a)) live
       | None => max_by (λ a b, score table (pe_node b) <=? score table (pe_node a)) live
       end).

(** [plan]; [None] is the panic of [place]. *)
Definition plan (keys : list string) : Own (option unit) :=
  live ← live_peers;
  let nodes := pe_node <$> live in
  match place keys nodes with
  | None => ret None
  | Some placed =>
    let by_node : gmap string Peer := list_to_map ((λ p, (pe_node p, p)) <$> live) in
    let fair_share := if bool_decide (nodes = []) then usize_max else div_ceil (len keys) (N.max (len nodes) 1) in
    _ ← modify (λ st, set_plan st (omap (λ node, by_node !! node) placed) fair_share);
    ret (Some tt)
  end.

(** [Iterator::min_by_key]: the first of the least. *)
Definition min_by_key {A} (key : A → N) (l : list A) : option A :=
  foldl (λ acc x, match acc with
                  | None => Some x
                  | Some y => if key x <? key y then Some x else Some y
                  end) None l.

(** [surplus]. *)
Definition surplus (known : list string) : Own (option string) :=
  me ← read (λ st, node_of st);
  read (λ st,
    let held := filter (λ key, key ∈ known) (sbtree_entries (st_held st)).*1 in
    if len held <=? st_fair_share st then None
    else min_by_key (λ key, score key me)
           (filter (λ key, match st_placement st !! key with
                           | Some peer => negb (bool_decide (pe_node peer = me)) && negb (bool_decide (slot (pe_node peer) = slot me))
                           | None => false
                           end = true) held)).

(** What [orphaned] finds of one table. *)
Definition orphan_locked (table : string) (h : Host) (st : State) : bool * State :=
  (bool_decide (st_held st !! table = None)
   && match st_records st !! table with
      | None => true
      | Some (_, record) =>
        bool_decide (ow_node record = "") || bool_decide (ow_node record ∈ st_dead st)
        || match st_leases st !! ow_node record with
           | None => true
           | Some seen => verdict cfg <=? h_now h - sn_first_seen seen
           end
      end, st).

(** [orphaned]. *)
Fixpoint orphaned_of (me : string) (tables : list string) : Own (list string) :=
  match tables with
  | [] => ret []
  | table :: tables =>
    orphan ← locked (orphan_locked table);
    mine ← (if orphan : bool then
              p ← preferred table;
              ret (bool_decide (pe_node <$> p = Some me))
            else ret false);
    rest ← orphaned_of me tables;
    ret (if mine : bool then table :: rest else rest)
  end.

Definition orphaned (tables : list string) : Own (list string) :=
  me ← read (λ st, node_of st);
  orphaned_of me tables.

(** [has_predecessor]. *)
Definition has_predecessor : Own bool :=
  me ← read (λ st, node_of st);
  live ← live_peers;
  ret (existsb (λ p, negb (bool_decide (pe_node p = me)) && bool_decide (slot (pe_node p) = slot me)) live).

(** [held_by_predecessor]. *)
Definition held_by_predecessor (tables : list string) : Own (list string) :=
  me ← read (λ st, node_of st);
  peers ← live_peers;
  let live : list string := filter (λ node, node ≠ me ∧ slot node = slot me) (pe_node <$> (peers : list Peer)) in
  read (λ st, filter (λ table, st_held st !! table = None
                               ∧ match st_records st !! table with
                                 | Some (_, record) => bool_decide (ow_node record ∈ live)
                                 | None => false
                                 end = true) tables).

End Operations.

(** ** Processes and the bucket *)

(** A lease object: its version, its contents and when it was written. *)
Record LeaseObject := mkLeaseObject { lo_version : N; lo_record : LeaseRecord; lo_landed : N }.

(** A request whose sender gave up on it, and which may still be served. *)
Inductive LateRequest := LatePut (r : LeaseRecord) | LateDelete (node : string).

Record Proc := mkProc { pc_self : Self; pc_state : State }.

Record Sys := mkSys {
  sy_now : N;
  sy_version : N;
  sy_leases : gmap string LeaseObject;
  sy_records : gmap string (gmap N OwnerRecord);
  sy_late : list LateRequest;
  sy_names : gmap string string;
  sy_procs : gmap string Proc;
}.

Definition sys_empty : Sys := mkSys 0 0 ∅ ∅ [] ∅ ∅.

(** What becomes of a request: it is served and answered, it fails (served all the same, or not),
    or it is given up and may be served later. *)
Inductive Outcome := Done | Lost (applied : bool) | Late.

Record Choice := mkChoice { ch_outcome : Outcome; ch_wall : N; ch_uuid : string }.

Definition versions_of (s : Sys) (table : string) : gmap N OwnerRecord := default ∅ (sy_records s !! table).

(** Writing a lease gives it a version of its own. *)
Definition land_lease (s : Sys) (r : LeaseRecord) : Sys :=
  mkSys (sy_now s) (sy_version s + 1) (<[le_node r := mkLeaseObject (sy_version s) r (sy_now s)]> (sy_leases s))
    (sy_records s) (sy_late s) (sy_names s) (sy_procs s).
Definition drop_lease (s : Sys) (node : string) : Sys :=
  mkSys (sy_now s) (sy_version s) (delete node (sy_leases s)) (sy_records s) (sy_late s) (sy_names s) (sy_procs s).
Definition set_versions (s : Sys) (table : string) (m : gmap N OwnerRecord) : Sys :=
  mkSys (sy_now s) (sy_version s) (sy_leases s) (<[table := m]> (sy_records s)) (sy_late s) (sy_names s) (sy_procs s).
Definition set_late (s : Sys) (l : list LateRequest) : Sys :=
  mkSys (sy_now s) (sy_version s) (sy_leases s) (sy_records s) l (sy_names s) (sy_procs s).
Definition set_proc (s : Sys) (p : string) (proc : Proc) (name : string) : Sys :=
  mkSys (sy_now s) (sy_version s) (sy_leases s) (sy_records s) (sy_late s) (<[name := p]> (sy_names s))
    (<[p := proc]> (sy_procs s)).
Definition tick (s : Sys) (d : N) : Sys :=
  mkSys (sy_now s + d) (sy_version s) (sy_leases s) (sy_records s) (sy_late s) (sy_names s) (sy_procs s).

(** A read is answered, or fails. *)
Definition served {A} (c : Choice) (s : Sys) (a : A) : option (result OwnError A * Sys) :=
  match ch_outcome c with
  | Done => Some (Ok a, s)
  | _ => Some (Err (StoreFailed (StoreOther "")), s)
  end.

Definition served_get {A} (c : Choice) (s : Sys) (o : option A) : option (result StoreError A * Sys) :=
  match ch_outcome c with
  | Done => Some (ok_or o NotFound, s)
  | _ => Some (Err (StoreOther ""), s)
  end.

(** The answer to a question of process [p]; [None] where the choice does not fit it. *)
Definition perform (p : string) {X} (q : OReq X) (c : Choice) (s : Sys) : option (X * Sys) :=
  match q in OReq X return option (X * Sys) with
  | Now => Some (sy_now s, s)
  | Locked f =>
    proc ← sy_procs s !! p;
    let name := session_name (sf_node_id (pc_self proc)) (ch_uuid c) in
    if bool_decide (is_Some (sy_names s !! name)) then None
    else let '(x, st) := f (mkHost (sy_now s) (ch_wall c) (ch_uuid c)) (pc_state proc) in
         Some (x, set_proc s p (mkProc (pc_self proc) st) name)
  | PutLease deadline r =>
    match ch_outcome c with
    | Done => if sy_now s <=? deadline then Some (Ok tt, land_lease s r) else None
    | Lost applied => Some (Err PutFailed, if applied then land_lease s r else s)
    | Late => Some (Err PutLate, set_late s (sy_late s ++ [LatePut r]))
    end
  | DeleteLease node =>
    match ch_outcome c with
    | Done => Some (tt, drop_lease s node)
    | Lost applied => Some (tt, if applied then drop_lease s node else s)
    | Late => Some (tt, set_late s (sy_late s ++ [LateDelete node]))
    end
  | ListLeases => served c s (lo_version <$> sy_leases s)
  | GetLease node => served_get c s ((λ o, (lo_version o, lo_record o)) <$> sy_leases s !! node)
  | ListRecords => served c s (concat ((λ e, (λ v, (e.1, v.1)) <$> map_to_list e.2) <$> map_to_list (sy_records s)))
  | ListVersions table => served c s (map_to_list (versions_of s table)).*1
  | GetVersion table seq => served_get c s (versions_of s table !! seq)
  | CreateVersion table seq r =>
    let written := set_versions s table (<[seq := r]> (versions_of s table)) in
    let absent := bool_decide (versions_of s table !! seq = None) in
    match ch_outcome c with
    | Done => Some (if absent then (Ok tt, written) else (Err AlreadyExists, s))
    | Lost applied => Some (Err (StoreOther ""), if applied && absent then written else s)
    | Late => None
    end
  | DeleteVersion table seq =>
    match ch_outcome c with
    | Done | Lost true => Some (tt, set_versions s table (delete seq (versions_of s table)))
    | _ => Some (tt, s)
    end
  | Acquire _ => Some (tt, s)
  | Unlock _ => Some (tt, s)
  end.

(** ** Runs *)

(** What the engine calls. *)
Inductive Call :=
| CallRenew
| CallSample
| CallResolve (table : string) (fresh : bool)
| CallClaim (table : string)
| CallSetEpoch (table : string) (epoch : N)
| CallRelease (table : string) (next_seq : option N)
| CallUpdateAlarms (key : string) (change : gmap string Alarm → option unit * gmap string Alarm)
| CallReadAlarms (key : string)
| CallAccepting (node : string)
| CallConfirm (table : string) (epoch : N)
| CallTakeLost
| CallTakeHandedSeq (table : string)
| CallPlan (keys : list string)
| CallOrphaned (tables : list string)
| CallSurplus (known : list string)
| CallHeldByPredecessor (tables : list string)
| CallDrain
| CallRetire.

Section Runs.
Context (cfg : LeaseConfig).
Context `{NodeHost}.

Definition program_of (self : Self) (c : Call) : Own unit :=
  match c with
  | CallRenew => forget (renew cfg self)
  | CallSample => sample cfg
  | CallResolve table fresh => forget (resolve cfg self table fresh)
  | CallClaim table => forget (claim cfg self table)
  | CallSetEpoch table epoch => forget (set_epoch cfg self table epoch)
  | CallRelease table next_seq => release table next_seq
  | CallUpdateAlarms key change => forget (update_alarms cfg self key change)
  | CallReadAlarms key => forget (read_alarms key)
  | CallAccepting node => forget (accepting cfg node)
  | CallConfirm table epoch => forget (confirm cfg self table epoch)
  | CallTakeLost => forget take_lost
  | CallTakeHandedSeq table => forget (take_handed_seq table)
  | CallPlan keys => forget (plan cfg self keys)
  | CallOrphaned tables => forget (orphaned cfg self tables)
  | CallSurplus known => forget (surplus known)
  | CallHeldByPredecessor tables => forget (held_by_predecessor cfg self tables)
  | CallDrain => drain cfg self
  | CallRetire => retire
  end.

(** [Ownership::new]. *)
Definition state_new (self : Self) (uuid : string) (now : N) : State :=
  mkState (mkSession (session_name (sf_node_id self) uuid) 0 None false false)
    ∅ ∅ ∅ ∅ [] [] ∅ ∅ usize_max now.

(** A call in flight: its process, the tables whose lock it holds, what is left of it. *)
Record Task := mkTask { tk_proc : string; tk_locks : gset string; tk_prog : Own unit }.

Record Config := mkConfig { cf_sys : Sys; cf_tasks : list Task }.

Definition config_empty : Config := mkConfig sys_empty [].

Definition locks_after {X} (q : OReq X) (locks : gset string) : gset string :=
  match q with
  | Acquire table => {[table]} ∪ locks
  | Unlock table => locks ∖ {[table]}
  | _ => locks
  end.

(** Nobody else in the process holds the lock that is asked for. *)
Definition lock_free {X} (q : OReq X) (p : string) (tasks : list Task) : bool :=
  match q with
  | Acquire table => forallb (λ t, negb (bool_decide (tk_proc t = p)) || bool_decide (table ∉ tk_locks t)) tasks
  | _ => true
  end.

Inductive Event :=
| Tick (d : N)
| Spawn (p : string) (self : Self) (uuid : string)
| Start (p : string) (c : Call)
| Run (i : nat) (c : Choice)
| Land (i : nat).

Definition exec (c : Config) (e : Event) : option Config :=
  let s := cf_sys c in
  match e with
  | Tick d => Some (mkConfig (tick s d) (cf_tasks c))
  | Spawn p self uuid =>
    let name := session_name (sf_node_id self) uuid in
    if bool_decide (is_Some (sy_procs s !! p)) || bool_decide (is_Some (sy_names s !! name)) then None
    else Some (mkConfig (set_proc s p (mkProc self (state_new self uuid (sy_now s))) name) (cf_tasks c))
  | Start p call =>
    match sy_procs s !! p with
    | Some proc => Some (mkConfig s (cf_tasks c ++ [mkTask p ∅ (program_of (pc_self proc) call)]))
    | None => None
    end
  | Run i choice =>
    match nth_error (cf_tasks c) i with
    | Some (mkTask p locks (PAsk q k)) =>
      if lock_free q p (cf_tasks c) then
        match perform p q choice s with
        | Some (x, s') =>
          Some (mkConfig s' (set_nth i (mkTask p (locks_after q locks) (k x)) (cf_tasks c)))
        | None => None
        end
      else None
    | _ => None
    end
  | Land i =>
    match sy_late s !! i with
    | Some late =>
      let s := set_late s (delete i (sy_late s)) in
      Some (mkConfig (match late with LatePut r => land_lease s r | LateDelete node => drop_lease s node end)
              (cf_tasks c))
    | None => None
    end
  end.

(** [timely s s'] excludes three kinds of events (see [OwnershipSafety.one_owner] and
    [OwnershipToy.untimely_runs_share_a_table]): a renewal that counts more than [skew] after its
    issue; the deletion of a running session's lease that was renewed within the last verdict;
    and an outdated view of the leases: one recorded as first seen a verdict ago, or dropped while
    it is in the bucket. *)
Definition timely_proc (s : Sys) (p : string) (proc' : Proc) : Prop :=
  match sy_procs s !! p with
  | None => True
  | Some proc =>
    match se_anchor (st_session (pc_state proc')) with
    | Some issued =>
      se_anchor (st_session (pc_state proc)) = Some issued ∨ sy_now s ≤ issued + lc_skew_ms cfg
    | None => True
    end
    ∧ map_Forall (λ node seen',
        match st_leases (pc_state proc) !! node with
        | Some seen => sn_version seen = sn_version seen' ∧ sn_first_seen seen = sn_first_seen seen'
        | None => False
        end ∨ sy_now s < sn_first_seen seen' + verdict cfg) (st_leases (pc_state proc'))
    ∧ map_Forall (λ node _, is_Some (st_leases (pc_state proc') !! node) ∨ sy_leases s !! node = None)
        (st_leases (pc_state proc))
  end.

Definition runs_as (s : Sys) (node : string) : Prop :=
  map_Exists (λ _ proc, se_node (st_session (pc_state proc)) = node
                        ∧ se_retired (st_session (pc_state proc)) = false) (sy_procs s).

Definition timely (s s' : Sys) : Prop :=
  map_Forall (timely_proc s) (sy_procs s')
  ∧ map_Forall (λ node o, is_Some (sy_leases s' !! node) ∨ ¬ runs_as s node
                          ∨ lo_landed o + verdict cfg ≤ sy_now s) (sy_leases s).

#[global] Instance timely_dec s s' : Decision (timely s s').
Proof.
  unfold timely, timely_proc, runs_as.
  refine (and_dec (map_Forall_dec _ _) (map_Forall_dec _ _)).
  intros p proc'. destruct (sy_procs s !! p); [|apply _].
  refine (and_dec _ (and_dec (map_Forall_dec _ _) (map_Forall_dec _ _))); [destruct (se_anchor _); apply _|].
  intros node seen'. destruct (st_leases _ !! node); apply _.
Defined.

(** A run, and whether every step of it was timely. *)
Fixpoint run_events (c : Config) (evs : list Event) : option (Config * bool) :=
  match evs with
  | [] => Some (c, true)
  | e :: evs =>
    match exec c e with
    | Some c' =>
      match run_events c' evs with
      | Some (c'', rest) => Some (c'', bool_decide (timely (cf_sys c) (cf_sys c')) && rest)
      | None => None
      end
    | None => None
    end
  end.

End Runs.
