(* ===== verification/OwnershipPlace.v ===== *)
(** * OwnershipPlace: the placement of the keys

    [Ownership.place] spreads the keys over the live nodes.  It places every key, never gives a
    node more than its share, and depends on the set of keys and nodes alone, so that every
    process computes the same plan. *)

From S2P Require Import Prelude Text Programs ObjectStore Cron Alarms Ownership.

#[local] Open Scope N_scope.

Section Place.
Context `{NodeHost}.

(** ** The order of the keys *)

#[global] Instance scored_le_trans : Transitive scored_le.
Proof.
  unfold scored_le. intros a b c [Hab|[Hab Hs]] [Hbc|[Hbc Hs']]; [left; lia..|].
  right. split; [congruence|]. by transitivity b.2.
Qed.

#[global] Instance scored_le_total : Total scored_le.
Proof.
  intros a b. unfold scored_le. destruct (N.lt_trichotomy a.1 b.1) as [|[|]]; [auto| |auto].
  destruct (total String.le a.2 b.2); auto.
Qed.

#[global] Instance scored_le_antisymm : AntiSymm (=) scored_le.
Proof.
  intros [a x] [b y]. unfold scored_le. cbn. intros [Hab|[Hab Hs]] [Hba|[Hba Hs']]; [lia..|].
  f_equal; [done|]. by apply (anti_symm String.le).
Qed.

(** Strings in the order of a score. *)
Abbreviation by_score f := (λ a b : string, scored_le (f a, a) (f b, b)).

Section Order.
Context (f : string → N).

#[local] Instance by_score_trans : Transitive (by_score f).
Proof. intros a b c Hab Hbc. by transitivity (f b, b). Qed.

#[local] Instance by_score_total : Total (by_score f).
Proof. intros a b. apply (total scored_le). Qed.

#[local] Instance by_score_antisymm : AntiSymm (=) (by_score f).
Proof. intros a b Hab Hba. by pose proof (anti_symm scored_le _ _ Hab Hba) as [=]. Qed.

Lemma sorted_keys (l : list string) : StronglySorted (by_score f) (merge_sort (by_score f) l).
Proof. apply StronglySorted_merge_sort; apply _. Qed.

(** Highest score first. *)
Lemma ranked_perm (l l' : list string) : l ≡ₚ l' →
  merge_sort (λ a b, scored_le (f b, b) (f a, a)) l = merge_sort (λ a b, scored_le (f b, b) (f a, a)) l'.
Proof.
  intros Hp. set (R := λ a b : string, scored_le (f b, b) (f a, a)).
  assert (Transitive R) by (intros a b c Hab Hbc; unfold R in *; by transitivity (f b, b)).
  assert (Total R) by (intros a b; apply (total scored_le)).
  assert (AntiSymm (=) R) by (intros a b Hab Hba; by pose proof (anti_symm scored_le _ _ Hab Hba) as [=]).
  apply (Sorted_unique R); [by apply (Sorted_merge_sort R)..|]. by rewrite !merge_sort_Permutation.
Qed.

Lemma dedup_cons a b (l : list string) :
  dedup (a :: b :: l) = if bool_decide (a = b) then dedup (b :: l) else a :: dedup (b :: l).
Proof. cbn [dedup]. by repeat case_bool_decide. Qed.

Lemma dedup_elem (l : list string) k : k ∈ dedup l ↔ k ∈ l.
Proof.
  induction l as [|a l IH]; [done|]. destruct l as [|b l]; [done|]. rewrite dedup_cons, (elem_of_cons (b :: l)), <- IH.
  case_bool_decide as Hab; [subst b|by rewrite elem_of_cons]. rewrite IH, elem_of_cons. clear. naive_solver.
Qed.

Lemma dedup_NoDup (l : list string) : StronglySorted (by_score f) l → NoDup (dedup l).
Proof.
  induction l as [|a l IH]; [constructor|]. intros [Hs Hall]%StronglySorted_inv. destruct l as [|b l].
  - apply NoDup_singleton.
  - specialize (IH Hs). rewrite dedup_cons. case_bool_decide as Hab; [done|]. constructor; [|done]. rewrite dedup_elem. intros Hin. apply StronglySorted_inv in Hs as [_ Hb].
    rewrite Forall_forall in Hall, Hb. apply elem_of_cons in Hin as [->|Hin]; [done|].
    apply Hab, (anti_symm (by_score f)); [apply Hall; by left|by apply Hb].
Qed.

Lemma dedup_sorted (l : list string) : StronglySorted (by_score f) l → StronglySorted (by_score f) (dedup l).
Proof.
  induction l as [|a l IH]; [constructor|]. intros [Hs Hall]%StronglySorted_inv. destruct l as [|b l]; [by repeat constructor|].
  specialize (IH Hs). rewrite dedup_cons. case_bool_decide; [done|]. constructor; [done|]. rewrite Forall_forall in *. intros k Hk. by apply Hall, dedup_elem.
Qed.

(** A sorted list without duplicates is its set of elements. *)
Lemma sorted_set (l l' : list string) :
  StronglySorted (by_score f) l → StronglySorted (by_score f) l' → NoDup l → NoDup l' → (∀ k, k ∈ l ↔ k ∈ l') → l = l'.
Proof.
  intros Hl Hl' Hn Hn' He. apply (StronglySorted_unique (by_score f)); [done..|]. by apply NoDup_Permutation.
Qed.

End Order.

(** The keys as [place] goes through them. *)
Definition ordered (keys : list string) : list string :=
  dedup (merge_sort (by_score (λ k, xxh3_64 (as_bytes k))) keys).

Lemma ordered_NoDup keys : NoDup (ordered keys).
Proof. eapply dedup_NoDup, sorted_keys. Qed.

Lemma ordered_elem keys k : k ∈ ordered keys ↔ k ∈ keys.
Proof. unfold ordered. by rewrite dedup_elem, merge_sort_Permutation. Qed.

Lemma ordered_set keys keys' : (∀ k, k ∈ keys ↔ k ∈ keys') → ordered keys = ordered keys'.
Proof.
  intros He. eapply sorted_set; [apply dedup_sorted, sorted_keys..|apply ordered_NoDup|apply ordered_NoDup|].
  intros k. by rewrite !ordered_elem.
Qed.

Lemma place_key_perm cap nodes nodes' acc key : nodes ≡ₚ nodes' → place_key cap nodes acc key = place_key cap nodes' acc key.
Proof. intros Hp. unfold place_key. by rewrite (ranked_perm (score key) nodes nodes' Hp). Qed.

Lemma place_fold_perm cap nodes nodes' acc keys : nodes ≡ₚ nodes' →
  foldl (λ acc key, acc ← acc; place_key cap nodes acc key) acc keys
  = foldl (λ acc key, acc ← acc; place_key cap nodes' acc key) acc keys.
Proof.
  intros Hp. revert acc. induction keys as [|key keys IH]; intros acc; cbn [foldl]; [done|].
  rewrite IH. f_equal. destruct acc as [acc|]; [|done]. by apply place_key_perm.
Qed.

(** The plan depends on the set of keys and of nodes alone. *)
Lemma place_perm keys keys' nodes nodes' :
  (∀ k, k ∈ keys ↔ k ∈ keys') → nodes ≡ₚ nodes' → place keys nodes = place keys' nodes'.
Proof.
  intros Hk Hn. unfold place. fold (ordered keys). fold (ordered keys'). rewrite (ordered_set keys keys' Hk).
  destruct nodes as [|n nodes], nodes' as [|n' nodes']; [done|by apply Permutation_nil_l in Hn|by apply Permutation_nil_r in Hn|].
  unfold len. rewrite (Permutation_length Hn). by rewrite (place_fold_perm _ _ _ _ _ Hn).
Qed.

(** ** The load of the nodes *)

Abbreviation load loads n := (default 0 (loads !! n)).

Fixpoint total_load (loads : gmap string N) (nodes : list string) : N :=
  match nodes with
  | [] => 0
  | n :: nodes => load loads n + total_load loads nodes
  end.

Lemma total_load_skip loads nodes n v : n ∉ nodes → total_load (<[n := v]> loads) nodes = total_load loads nodes.
Proof.
  induction nodes as [|m nodes IH]; cbn; [done|]. intros [Hne Hn]%not_elem_of_cons.
  rewrite lookup_insert_ne by done. by rewrite IH.
Qed.

Lemma total_load_add loads nodes n :
  NoDup nodes → n ∈ nodes → total_load (<[n := load loads n + 1]> loads) nodes = total_load loads nodes + 1.
Proof.
  induction nodes as [|m nodes IH]; [by intros _ ?%elem_of_nil|].
  intros [Hm Hnd]%NoDup_cons [->|Hn]%elem_of_cons; cbn.
  - rewrite lookup_insert_eq, total_load_skip by done. cbn. lia.
  - rewrite lookup_insert_ne by (by intros ->). rewrite IH by done. lia.
Qed.

Lemma total_load_full loads nodes cap :
  (∀ n, n ∈ nodes → cap ≤ load loads n) → len nodes * cap ≤ total_load loads nodes.
Proof.
  induction nodes as [|m nodes IH]; cbn [total_load]; [by unfold len|]. intros Hcap. rewrite len_cons.
  pose proof (Hcap m ltac:(by left)). specialize (IH ltac:(intros n Hn; apply Hcap; by right)). lia.
Qed.

(** How many keys a placement gives to a node. *)
Definition keys_of (placed : gmap string string) (n : string) : N := N.of_nat (size (filter (λ e, e.2 = n) placed)).

Lemma keys_of_insert placed k m n : placed !! k = None →
  keys_of (<[k := m]> placed) n = keys_of placed n + (if decide (m = n) then 1 else 0).
Proof.
  intros Hk. unfold keys_of. rewrite map_filter_insert. cbn. destruct (decide (m = n)).
  - rewrite map_size_insert_None; [lia|]. by apply map_lookup_filter_None_2; left.
  - rewrite delete_id; [lia|]. done.
Qed.

(** After the keys [done]: each is placed, and the loads say how often a node was chosen. *)
Record placed_ok (cap : N) (nodes done : list string) (acc : gmap string string * gmap string N) : Prop := {
  po_keys k : is_Some (acc.1 !! k) ↔ k ∈ done;
  po_nodes k n : acc.1 !! k = Some n → n ∈ nodes;
  po_load n : load acc.2 n = keys_of acc.1 n;
  po_cap n : load acc.2 n ≤ cap;
  po_total : total_load acc.2 nodes = len done;
}.

Lemma place_key_ok cap nodes done acc key :
  NoDup nodes → placed_ok cap nodes done acc → key ∉ done → len done < len nodes * cap →
  ∃ acc', place_key cap nodes acc key = Some acc' ∧ placed_ok cap nodes (done ++ [key]) acc'.
Proof.
  intros Hnd Hok Hkey Hroom. unfold place_key. set (ranked := merge_sort _ nodes).
  assert (ranked ≡ₚ nodes) as Hperm by apply merge_sort_Permutation.
  destruct (filter (λ node, load acc.2 node < cap) ranked) as [|m rest] eqn:Hf; cbn.
  { exfalso. assert (∀ n, n ∈ nodes → cap ≤ load acc.2 n) as Hfull.
    { intros n Hn. destruct (N.le_gt_cases cap (load acc.2 n)) as [|Hlt]; [done|].
      assert (n ∈ filter (λ node, load acc.2 node < cap) ranked) as Hin
        by (apply list_elem_of_filter; by rewrite Hperm).
      rewrite Hf in Hin. by apply elem_of_nil in Hin. }
    apply total_load_full in Hfull. rewrite (po_total _ _ _ _ Hok) in Hfull. lia. }
  assert (m ∈ filter (λ node, load acc.2 node < cap) ranked) as Hm by (rewrite Hf; by left).
  apply list_elem_of_filter in Hm as [Hlt Hm]. rewrite Hperm in Hm.
  assert (acc.1 !! key = None) as Hnone by (apply eq_None_not_Some; by rewrite (po_keys _ _ _ _ Hok)).
  eexists. split; [done|]. split; cbn.
  - intros k. rewrite elem_of_app, list_elem_of_singleton, <- (po_keys _ _ _ _ Hok), lookup_insert_is_Some.
    clear. destruct (decide (key = k)); naive_solver.
  - intros k n [[<- <-]|[_ Hk]]%lookup_insert_Some; [done|]. by eapply po_nodes.
  - intros n. rewrite keys_of_insert by done. pose proof (po_load _ _ _ _ Hok n). destruct (decide (m = n)) as [->|].
    + rewrite lookup_insert_eq. cbn. lia.
    + rewrite lookup_insert_ne by done. lia.
  - intros n. destruct (decide (m = n)) as [->|].
    + rewrite lookup_insert_eq. cbn. lia.
    + rewrite lookup_insert_ne by done. by eapply po_cap.
  - rewrite total_load_add, (po_total _ _ _ _ Hok) by done. by rewrite len_app.
Qed.

Lemma place_fold_ok cap nodes keys done acc :
  NoDup nodes → NoDup (done ++ keys) → placed_ok cap nodes done acc → len (done ++ keys) ≤ len nodes * cap →
  ∃ acc', foldl (λ acc key, acc ← acc; place_key cap nodes acc key) (Some acc) keys = Some acc'
          ∧ placed_ok cap nodes (done ++ keys) acc'.
Proof.
  revert done acc. induction keys as [|key keys IH]; intros done acc Hnd Hk Hok Hroom; cbn [foldl].
  { rewrite app_nil_r. eauto. }
  assert (key ∉ done) as Hkey by (apply NoDup_app in Hk as (_ & Hd & _); intros Hin; apply (Hd key Hin); by left).
  rewrite len_app, len_cons in Hroom.
  destruct (place_key_ok cap nodes done acc key Hnd Hok Hkey) as (acc' & Hp & Hok'); [lia|].
  cbn. rewrite Hp. destruct (IH (done ++ [key]) acc') as (acc2 & Hf & Hok2); [done| |done| |].
  - by rewrite <- app_assoc.
  - rewrite <- app_assoc. cbn. rewrite len_app, len_cons. lia.
  - exists acc2. by rewrite <- app_assoc in Hok2.
Qed.

Lemma div_ceil_covers a b : b ≠ 0 → a ≤ b * div_ceil a b.
Proof.
  intros Hb. unfold div_ceil. pose proof (N.div_mod' (a + b - 1) b). pose proof (N.mod_lt (a + b - 1) b Hb). lia.
Qed.

End Place.

(** On nodes that are all different, [place] does not panic: it places exactly the keys, each on
    one of the nodes, no node gets more than its share of them, rounded up, and whoever lists the
    same keys and nodes, in whatever order, computes the same placement. *)
Theorem place_is_balanced `{NodeHost} keys nodes :
  NoDup nodes → nodes ≠ [] →
  ∃ placed, place keys nodes = Some placed
    ∧ (∀ k, is_Some (placed !! k) ↔ k ∈ keys)
    ∧ (∀ k n, placed !! k = Some n → n ∈ nodes)
    ∧ (∀ n, keys_of placed n ≤ div_ceil (N.of_nat (size placed)) (len nodes))
    ∧ (∀ keys' nodes', (∀ k, k ∈ keys ↔ k ∈ keys') → nodes ≡ₚ nodes' → place keys' nodes' = Some placed).
Proof.
  intros Hnd Hne. set (cap := div_ceil (len (ordered keys)) (len nodes)).
  assert (len nodes ≠ 0) as Hlen by (destruct nodes; [done|rewrite len_cons; lia]).
  destruct (place_fold_ok cap nodes (ordered keys) [] (∅, ∅)) as ([placed loads] & Hf & Hok);
    [done|apply ordered_NoDup| |by apply div_ceil_covers|].
  { split; cbn.
    - intros k. rewrite lookup_empty. split; [by intros []|by intros ?%elem_of_nil].
    - done.
    - intros n. by rewrite lookup_empty.
    - intros n. rewrite lookup_empty. cbn. lia.
    - clear. by induction nodes as [|n nodes IH]; cbn; [|rewrite IH, lookup_empty]. }
  assert (place keys nodes = Some placed) as Hplace.
  { unfold place. destruct nodes as [|n0 nodes]; [done|]. fold (ordered keys). fold cap. by rewrite Hf. }
  exists placed. split; [done|].
  assert (N.of_nat (size placed) = len (ordered keys)) as Hsize.
  { assert (dom placed = list_to_set (ordered keys)) as Hdom.
    { apply set_eq. intros k. rewrite elem_of_dom, elem_of_list_to_set. apply (po_keys _ _ _ _ Hok). }
    rewrite <- size_dom, Hdom, size_list_to_set by apply ordered_NoDup. done. }
  rewrite Hsize. split_and!.
  - intros k. rewrite <- ordered_elem. apply (po_keys _ _ _ _ Hok).
  - apply (po_nodes _ _ _ _ Hok).
  - intros n. rewrite <- (po_load _ _ _ _ Hok). apply (po_cap _ _ _ _ Hok).
  - intros keys' nodes' Hk Hn. rewrite <- Hplace. symmetry. by apply place_perm.
Qed.

#[local] Instance p_host : NodeHost := {| xxh3_64 b := foldl (λ acc x, (acc * 31 + Byte.to_N x) mod 1009) 7 b |}.

Lemma place_is_balanced_witness :
  ∃ placed, place ["a"; "b"; "c"; "b"] ["n1"; "n2"] = Some placed ∧ (∀ n, keys_of placed n ≤ 2).
Proof.
  destruct (place_is_balanced ["a"; "b"; "c"; "b"] ["n1"; "n2"]) as (placed & Hp & _ & _ & Hcap & _).
  - apply (bool_decide_unpack _). by vm_compute.
  - done.
  - exists placed. split; [done|]. intros n. specialize (Hcap n). vm_compute in Hp. by injection Hp as <-.
Defined.
