(* ===== verification/OwnershipLogic.v ===== *)
(** * OwnershipLogic: reasoning about the processes and their bucket

    The invariant of the processes of [Ownership] and the bucket they share, a small
    rely-guarantee logic for the programs that run on them, and what each question does to the
    invariant.  [OwnershipSafety] proves the operations in it. *)

From S2P Require Import Prelude Text Programs ObjectStore Cron Alarms Ownership.

#[local] Open Scope N_scope.

Create HintDb own discriminated.

Section Logic.
Context (cfg : LeaseConfig).
Context `{NodeHost}.

(** ** Vocabulary *)

Abbreviation session pr := (st_session (pc_state pr)).
Abbreviation node pr := (se_node (st_session (pc_state pr))).
Abbreviation anchor pr := (se_anchor (st_session (pc_state pr))).
Abbreviation retired pr := (se_retired (st_session (pc_state pr))).
Abbreviation held pr := (st_held (pc_state pr)).

(** The session may be authoritative now, or may still become so by a renewal in flight. *)
Definition alive (s : Sys) (pr : Proc) : Prop :=
  retired pr = false ∧ ∃ a, anchor pr = Some a ∧ sy_now s < a + verdict cfg.

(** The session has counted a renewal, or is over. *)
Definition counted (pr : Proc) : Prop := retired pr = true ∨ is_Some (anchor pr).

(** No process runs this session, or will again. *)
Definition dead (s : Sys) (n : string) : Prop :=
  is_Some (sy_names s !! n)
  ∧ ∀ q pr, sy_procs s !! q = Some pr → node pr = n →
      retired pr = true ∨ ∃ a, anchor pr = Some a ∧ a + verdict cfg ≤ sy_now s.

(** A session a record may name. *)
Definition recorded (s : Sys) (n : string) : Prop :=
  is_Some (sy_names s !! n) ∧ ∀ q pr, sy_procs s !! q = Some pr → node pr = n → counted pr.

(** The newest version of a table's record, and the session it names. *)
Definition newest (s : Sys) (t : string) : N := newest_version (map_to_list (versions_of s t)).*1.

Definition latest_node (s : Sys) (t : string) : option string := ow_node <$> versions_of s t !! newest s t.

(** Process [p], while it runs session [me], is the one the table's record names. *)
Definition owned (s : Sys) (p me t : string) : Prop :=
  is_Some (sy_names s !! me)
  ∧ ∀ pr, sy_procs s !! p = Some pr → node pr = me → counted pr ∧ (alive s pr → latest_node s t = Some me).

(** A renewal of session [n] issued at [i] and acknowledged: while it may count, the lease is at
    least as young. *)
Definition renewed (s : Sys) (n : string) (i : N) : Prop :=
  is_Some (sy_names s !! n) ∧ i ≤ sy_now s
  ∧ (runs_as s n → sy_now s ≤ i + lc_skew_ms cfg → ∃ o, sy_leases s !! n = Some o ∧ i ≤ lo_landed o).

Definition seen_ok (s : Sys) (n : string) (seen : Seen) : Prop :=
  sn_first_seen seen ≤ sy_now s ∧ sn_version seen < sy_version s
  ∧ ∀ o, sy_leases s !! n = Some o → lo_version o = sn_version seen → lo_landed o ≤ sn_first_seen seen.

Definition held_ok (s : Sys) (pr : Proc) (t : string) (h : Held) : Prop :=
  counted pr ∧ he_seq h ≤ newest s t
  ∧ (newest s t = he_seq h → latest_node s t = Some (node pr))
  ∧ (alive s pr → latest_node s t = Some (node pr)).

Record inv (s : Sys) : Prop := {
  inv_names q pr : sy_procs s !! q = Some pr → sy_names s !! node pr = Some q;
  inv_nonempty : sy_names s !! "" = None;
  inv_lease n o : sy_leases s !! n = Some o → lo_landed o ≤ sy_now s ∧ lo_version o < sy_version s;
  inv_seen q pr n seen : sy_procs s !! q = Some pr → st_leases (pc_state pr) !! n = Some seen → seen_ok s n seen;
  inv_alive q pr a : sy_procs s !! q = Some pr → retired pr = false → anchor pr = Some a →
    a ≤ sy_now s ∧ (sy_now s < a + verdict cfg → ∃ o, sy_leases s !! node pr = Some o ∧ a ≤ lo_landed o);
  inv_held q pr t h : sy_procs s !! q = Some pr → held pr !! t = Some h → held_ok s pr t h;
  inv_record t k r : versions_of s t !! k = Some r → 1 ≤ k ∧ (ow_node r = "" ∨ recorded s (ow_node r));
  inv_dead q pr n : sy_procs s !! q = Some pr → n ∈ st_dead (pc_state pr) → dead s n;
}.

(** What a task of process [p] that holds the locks [L] may rely on, whatever the others do. *)
Record rely (p : string) (L : gset string) (s s' : Sys) : Prop := {
  rely_now : sy_now s ≤ sy_now s';
  rely_names n q : sy_names s !! n = Some q → sy_names s' !! n = Some q;
  rely_version : sy_version s ≤ sy_version s';
  rely_lease n o : sy_leases s' !! n = Some o → lo_version o < sy_version s → sy_leases s !! n = Some o;
  rely_dead n : dead s n → dead s' n;
  rely_recorded n : recorded s n → recorded s' n;
  rely_renewed n i : renewed s n i → renewed s' n i;
  rely_newest t : newest s t ≤ newest s' t;
  rely_latest t : newest s' t = newest s t → versions_of s' t !! newest s t = versions_of s t !! newest s t;
  rely_owned t me : t ∈ L → owned s p me t → owned s' p me t;
  rely_proc pr : sy_procs s !! p = Some pr → ∃ pr', sy_procs s' !! p = Some pr' ∧ pc_self pr' = pc_self pr
    ∧ (is_Some (sy_names s !! node pr') → node pr' = node pr
       ∧ (counted pr → counted pr') ∧ ∀ t, t ∈ L → held pr' !! t = held pr !! t)
    ∧ (∀ n seen', st_leases (pc_state pr') !! n = Some seen' →
         (∃ seen, st_leases (pc_state pr) !! n = Some seen ∧ sn_version seen = sn_version seen'
                  ∧ sn_first_seen seen = sn_first_seen seen')
         ∨ sy_now s < sn_first_seen seen' + verdict cfg)
    ∧ (∀ n, st_leases (pc_state pr') !! n = None →
         st_leases (pc_state pr) !! n = None ∨ (recorded s n → dead s' n));
}.

(** A step of such a task keeps to what every other task relies on. *)
Definition guarantee (p : string) (L : gset string) (s s' : Sys) : Prop :=
  ∀ p' L', p' ≠ p ∨ L ## L' → rely p' L' s s'.

(** ** Newest versions *)

Lemma newest_is_max s t : is_max (max_by (λ a b, b <=? a) (map_to_list (versions_of s t)).*1)
  (λ k, is_Some (versions_of s t !! k)).
Proof.
  eapply is_max_iff, max_by_is_max. intros k. rewrite list_elem_of_fmap. split.
  - intros ([k' r] & -> & Hin%elem_of_map_to_list). by exists r.
  - intros [r Hr]. exists (k, r). split; [done|by apply elem_of_map_to_list].
Qed.

Lemma newest_le s t k r : versions_of s t !! k = Some r → k ≤ newest s t.
Proof.
  intros Hr. pose proof (newest_is_max s t) as Hm. unfold newest, newest_version.
  destruct (max_by _ _); cbn in *; [apply Hm; eauto|by destruct (Hm k); exists r].
Qed.

Lemma newest_in s t : newest s t ≠ 0 → is_Some (versions_of s t !! newest s t).
Proof.
  intros Hne. pose proof (newest_is_max s t) as Hm. unfold newest, newest_version in *.
  destruct (max_by _ _); cbn in *; [apply Hm|done].
Qed.

Lemma newest_unique s t m : (∀ k, is_Some (versions_of s t !! k) → k ≤ m) →
  (m = 0 ∨ is_Some (versions_of s t !! m)) → newest s t = m.
Proof.
  intros Hle Hin. pose proof (newest_is_max s t) as Hm. unfold newest, newest_version in *.
  destruct (max_by _ _) as [k|]; cbn in *.
  - destruct Hm as [Hk Hmax]. destruct Hin as [->|Hin]; [specialize (Hle _ Hk); lia|].
    specialize (Hle _ Hk). specialize (Hmax _ Hin). lia.
  - destruct Hin as [->|Hin]; [done|by destruct (Hm m)].
Qed.

Lemma newest_ext s s' t : versions_of s' t = versions_of s t → newest s' t = newest s t.
Proof. intros He. unfold newest. by rewrite He. Qed.

Lemma latest_ext s s' t : versions_of s' t = versions_of s t → latest_node s' t = latest_node s t.
Proof. intros He. unfold latest_node. by rewrite (newest_ext s s' t), He. Qed.

(** ** The logic *)

Lemma rely_refl p L s : rely p L s s.
Proof.
  split; try done. intros pr Hpr. exists pr. split_and!; [done..|eauto|auto].
Qed.

Lemma rely_trans p L s1 s2 s3 : rely p L s1 s2 → rely p L s2 s3 → rely p L s1 s3.
Proof.
  intros H1 H2. split.
  - transitivity (sy_now s2); [apply H1|apply H2].
  - intros n q Hn. by apply H2, H1.
  - transitivity (sy_version s2); [apply H1|apply H2].
  - intros n o Ho Hv. apply H1; [|done]. apply H2; [done|]. pose proof (rely_version _ _ _ _ H1). lia.
  - intros n Hn. by apply H2, H1.
  - intros n Hn. by apply H2, H1.
  - intros n i Hn. by apply H2, H1.
  - intros t. transitivity (newest s2 t); [apply H1|apply H2].
  - intros t Ht. pose proof (rely_newest _ _ _ _ H1 t). pose proof (rely_newest _ _ _ _ H2 t).
    assert (newest s2 t = newest s1 t) as Heq by lia. rewrite <- (rely_latest _ _ _ _ H1) by done.
    rewrite <- Heq. apply H2. lia.
  - intros t me Ht Ho. by apply H2, H1.
  - intros pr Hpr. destruct (rely_proc _ _ _ _ H1 _ Hpr) as (pr2 & Hpr2 & Hs2 & Hn2 & Hseen2 & Hgone2).
    destruct (rely_proc _ _ _ _ H2 _ Hpr2) as (pr3 & Hpr3 & Hs3 & Hn3 & Hseen3 & Hgone3).
    exists pr3. split_and!; [done|congruence| | |].
    + intros [q Hq]. destruct Hn3 as (Heq3 & Hc3 & Hh3); [exists q; by apply (rely_names _ _ _ _ H1)|].
      destruct Hn2 as (Heq2 & Hc2 & Hh2); [rewrite <- Heq3; by exists q|].
      split_and!; [congruence|auto|]. intros t Ht. rewrite Hh3 by done. auto.
    + intros n seen3 Hn. destruct (Hseen3 n seen3 Hn) as [(seen2 & Hl2 & Hv2 & Hf2)|Hlt].
      * destruct (Hseen2 n seen2 Hl2) as [(seen1 & ? & ? & ?)|Hlt]; [left|right; by rewrite <- Hf2].
        exists seen1. split_and!; [done|congruence..].
      * right. pose proof (rely_now _ _ _ _ H1). lia.
    + intros n Hn. destruct (Hgone3 n Hn) as [Hl|Hd].
      * destruct (Hgone2 n Hl) as [|Hd]; [by left|right]. intros Hr. by apply H2, Hd.
      * right. intros Hr. by apply Hd, H1.
Qed.

(** [wp p L m Q s]: from [s] on, with other tasks in between, every step of [m] keeps the
    invariant and the guarantee, and a result satisfies [Q]. *)
Fixpoint wp {A} (p : string) (L : gset string) (m : Own A)
    (Q : result OwnError A → gset string → Sys → Prop) (s : Sys) : Prop :=
  match m with
  | PReturn r => ∀ s', rely p L s s' → inv s' → Q r L s'
  | PLoops => True
  | PAsk q k => ∀ s' c x s'', rely p L s s' → inv s' → perform p q c s' = Some (x, s'') → timely cfg s' s'' →
      inv s'' ∧ guarantee p L s' s'' ∧ wp p (locks_after q L) (k x) Q s''
  end.

Lemma wp_rely {A} p L (m : Own A) Q s s' : wp p L m Q s → rely p L s s' → wp p L m Q s'.
Proof.
  destruct m as [r| |X q k]; cbn; [|done|].
  - intros Hm Hr s2 Hr2. apply Hm. by eapply rely_trans.
  - intros Hm Hr s2 c x s3 Hr2. apply Hm. by eapply rely_trans.
Qed.

Lemma wp_mono {A} p L (m : Own A) (Q Q' : result OwnError A → gset string → Sys → Prop) s :
  (∀ r L' s', inv s' → Q r L' s' → Q' r L' s') → wp p L m Q s → wp p L m Q' s.
Proof.
  intros HQ. revert L s. induction m as [r| |X q k IH]; intros L s Hm; cbn in *; [|done|].
  - intros s' Hr Hi. apply HQ; auto.
  - intros s' c x s'' Hr Hi Hp Ht. destruct (Hm s' c x s'' Hr Hi Hp Ht) as (? & ? & ?). auto.
Qed.

Lemma wp_bind {A B} p L (m : Own A) (f : A → Own B) Q s :
  wp p L m (λ r L' s', match r with Ok a => wp p L' (f a) Q s' | Err e => Q (Err e) L' s' end) s →
  wp p L (m ≫= f) Q s.
Proof.
  revert L s. induction m as [[a|e]| |X q k IH]; intros L s Hm; cbn in *; [|done..|].
  - assert (∀ s', rely p L s s' → inv s' → wp p L (f a) Q s') as Hf by done. clear Hm.
    destruct (f a) as [r| |X q k]; cbn in *; [|done|].
    + intros s' Hr Hi. by apply (Hf s' Hr Hi s' (rely_refl _ _ _) Hi).
    + intros s' c x s'' Hr Hi. by apply (Hf s' Hr Hi s' c x s'' (rely_refl _ _ _) Hi).
  - intros s' c x s'' Hr Hi Hp Ht. destruct (Hm s' c x s'' Hr Hi Hp Ht) as (? & ? & Hk).
    split_and!; [done..|by apply IH].
Qed.

(** Assertions that other tasks do not disturb. *)
Definition stable (p : string) (L : gset string) (P : Sys → Prop) : Prop :=
  ∀ s s', P s → rely p L s s' → inv s' → P s'.

Definition triple {A} (p : string) (L : gset string) (P : Sys → Prop) (m : Own A)
    (Q : result OwnError A → gset string → Sys → Prop) : Prop :=
  ∀ s, inv s → P s → wp p L m Q s.

Lemma triple_ret {A} p L (P : Sys → Prop) (r : result OwnError A) (Q : result OwnError A → gset string → Sys → Prop) :
  stable p L P → (∀ s, inv s → P s → Q r L s) → triple p L P (PReturn r) Q.
Proof. intros Hst HQ s Hi HP s' Hr Hi'. apply HQ; [done|]. by eapply Hst. Qed.

Lemma triple_ask {X A} p L (P : Sys → Prop) (q : OReq X) (P' : X → Sys → Prop) (f : X → Own A) Q :
  stable p L P →
  (∀ s c x s', inv s → P s → perform p q c s = Some (x, s') → timely cfg s s' →
     inv s' ∧ guarantee p L s s' ∧ P' x s') →
  (∀ x, triple p (locks_after q L) (P' x) (f x) Q) →
  triple p L P (x ← ask q; f x) Q.
Proof.
  intros Hst Hq Hf s Hi HP s' c x s'' Hr Hi' Hp Ht.
  destruct (Hq s' c x s'' Hi' (Hst _ _ HP Hr Hi') Hp Ht) as (Hi'' & Hg & HP').
  split_and!; [done..|]. by apply Hf.
Qed.

(** A question that changes nothing. *)
Lemma triple_query {X A} p L (P : Sys → Prop) (q : OReq X) (P' : X → Sys → Prop) (f : X → Own A) Q :
  stable p L P → (∀ c x s s', perform p q c s = Some (x, s') → s' = s) → locks_after q L = L →
  (∀ s c x, inv s → P s → perform p q c s = Some (x, s) → P' x s) →
  (∀ x, triple p L (P' x) (f x) Q) →
  triple p L P (x ← ask q; f x) Q.
Proof.
  intros Hst Hsame HL Hq Hf. eapply (triple_ask _ _ _ _ P'); [done| |by rewrite HL].
  intros s c x s' Hi HP Hp Ht. pose proof (Hsame _ _ _ _ Hp) as ->.
  split_and!; [done|intros p' L' _; apply rely_refl|by eapply Hq].
Qed.

Lemma triple_bind {A B} p L (P : Sys → Prop) (m : Own A) (P' : A → Sys → Prop) (f : A → Own B) Q :
  triple p L P m (λ r L' s, L' = L ∧ match r with Ok a => P' a s | Err e => Q (Err e) L s end) →
  (∀ a, triple p L (P' a) (f a) Q) →
  triple p L P (m ≫= f) Q.
Proof.
  intros Hm Hf s Hi HP. apply wp_bind. eapply wp_mono, Hm; [|done..].
  intros [a|e] L' s' Hi' [-> HP']; [by apply Hf|done].
Qed.

Lemma triple_pre {A} p L (P P' : Sys → Prop) (m : Own A) Q :
  (∀ s, inv s → P s → P' s) → triple p L P' m Q → triple p L P m Q.
Proof. intros Hp Hm s Hi HP. apply Hm; auto. Qed.

Lemma triple_post {A} p L P (m : Own A) (Q Q' : result OwnError A → gset string → Sys → Prop) :
  (∀ r L' s, inv s → Q r L' s → Q' r L' s) → triple p L P m Q → triple p L P m Q'.
Proof. intros HQ Hm s Hi HP. by eapply wp_mono, Hm. Qed.

(** ** Steps that leave the processes alone *)

Section Store.
Context (s s' : Sys).
Context (Hprocs : sy_procs s' = sy_procs s) (Hnames : sy_names s' = sy_names s) (Hnow : sy_now s ≤ sy_now s').

Lemma alive_back pr : alive s' pr → alive s pr.
Proof using Hnow. intros (Hr & a & Ha & Hlt). split; [done|]. exists a. split; [done|lia]. Qed.

Lemma dead_store n : dead s n → dead s' n.
Proof using All.
  intros [Hn Hd]. split; [by rewrite Hnames|]. intros q pr Hpr Heq. rewrite Hprocs in Hpr.
  destruct (Hd q pr Hpr Heq) as [|(a & Ha & Hle)]; [by left|right]. exists a. split; [done|lia].
Qed.

Lemma recorded_store n : recorded s n → recorded s' n.
Proof using Hprocs Hnames. intros [Hn Hd]. split; [by rewrite Hnames|]. by rewrite Hprocs. Qed.

Lemma runs_as_store n : runs_as s' n ↔ runs_as s n.
Proof using Hprocs. unfold runs_as. by rewrite Hprocs. Qed.

Lemma store_rely p L :
  sy_version s ≤ sy_version s' →
  (∀ n o, sy_leases s' !! n = Some o → lo_version o < sy_version s → sy_leases s !! n = Some o) →
  (∀ n i, renewed s n i → renewed s' n i) →
  (∀ t, newest s t ≤ newest s' t) →
  (∀ t, newest s' t = newest s t → versions_of s' t !! newest s t = versions_of s t !! newest s t) →
  (∀ t me, t ∈ L → owned s p me t → owned s' p me t) →
  rely p L s s'.
Proof using All.
  intros Hv Hl Hren Hnew Hlat Hown. split; try done.
  - by intros n q; rewrite Hnames.
  - apply dead_store.
  - apply recorded_store.
  - intros pr Hpr. exists pr. rewrite Hprocs. split_and!; [done..|eauto|auto].
Qed.

Lemma owned_same p me t : versions_of s' t = versions_of s t → owned s p me t → owned s' p me t.
Proof using All.
  intros Hv [Hme Ho]. split; [by rewrite Hnames|]. intros pr Hpr Heq.
  rewrite Hprocs in Hpr. destruct (Ho pr Hpr Heq) as [Hc Ha]. split; [done|].
  intros Hal. rewrite (latest_ext _ _ _ Hv). by apply Ha, alive_back.
Qed.

Lemma held_same pr t h : versions_of s' t = versions_of s t → held_ok s pr t h → held_ok s' pr t h.
Proof using Hnow.
  intros Hv (? & ? & ? & Ha). unfold held_ok. rewrite (newest_ext _ _ _ Hv), (latest_ext _ _ _ Hv).
  split_and!; [done..|]. intros Hal. by apply Ha, alive_back.
Qed.

(** Only the leases changed. *)
Lemma lease_step_inv :
  inv s → (∀ t, versions_of s' t = versions_of s t) → sy_version s ≤ sy_version s' →
  (∀ n o, sy_leases s' !! n = Some o → lo_landed o ≤ sy_now s' ∧ lo_version o < sy_version s'
     ∧ (lo_version o < sy_version s → sy_leases s !! n = Some o)) →
  (∀ q pr a, sy_procs s !! q = Some pr → retired pr = false → anchor pr = Some a → sy_now s' < a + verdict cfg →
     ∀ o, sy_leases s !! node pr = Some o → a ≤ lo_landed o →
     ∃ o', sy_leases s' !! node pr = Some o' ∧ a ≤ lo_landed o') →
  inv s'.
Proof using All.
  intros Hi Hver Hv Hl Hal. split.
  - intros q pr. rewrite Hprocs, Hnames. apply Hi.
  - rewrite Hnames. apply Hi.
  - intros n o Ho. by destruct (Hl n o Ho) as (? & ? & _).
  - intros q pr n seen Hpr Hn. rewrite Hprocs in Hpr. destruct (inv_seen _ Hi _ _ _ _ Hpr Hn) as (Hf & Hlt & Ho).
    split_and!; [lia..|]. intros o Ho' Heq. destruct (Hl n o Ho') as (_ & _ & Hold). apply Ho; [apply Hold; lia|done].
  - intros q pr a Hpr Hr Ha. rewrite Hprocs in Hpr. destruct (inv_alive _ Hi _ _ _ Hpr Hr Ha) as [Hle Ho].
    split; [lia|]. intros Hlt. destruct Ho as (o & Ho & Hao); [lia|]. by eapply Hal.
  - intros q pr t h Hpr Hh. rewrite Hprocs in Hpr. apply held_same; [done|]. by eapply inv_held.
  - intros t k r. rewrite Hver. intros Hr. destruct (inv_record _ Hi _ _ _ Hr) as [? [?|?]]; split; auto.
    right. by apply recorded_store.
  - intros q pr n Hpr Hn. rewrite Hprocs in Hpr. apply dead_store. by eapply inv_dead.
Qed.

Lemma lease_step_rely p L :
  (∀ t, versions_of s' t = versions_of s t) → sy_version s ≤ sy_version s' →
  (∀ n o, sy_leases s' !! n = Some o → lo_version o < sy_version s → sy_leases s !! n = Some o) →
  (∀ n i, renewed s n i → renewed s' n i) →
  rely p L s s'.
Proof using All.
  intros Hver Hv Hl Hren. apply store_rely; [done..| | |].
  - intros t. by rewrite (newest_ext s s').
  - intros t _. by rewrite Hver.
  - intros t me _. by apply owned_same.
Qed.

End Store.

Lemma tick_ok s d : inv s → inv (tick s d) ∧ ∀ p L, rely p L s (tick s d).
Proof.
  intros Hi. split; [|intros p L].
  - eapply (lease_step_inv s); try done; cbn; [lia|..].
    + intros n o Ho. destruct (inv_lease _ Hi _ _ Ho). split_and!; [lia|done..].
    + eauto.
  - eapply lease_step_rely; try done; cbn; [lia|]. intros n i (? & Hi' & Hr). split_and!; cbn; [done|lia|].
    intros Hrun Hle. apply Hr; [done|lia].
Qed.

Lemma late_ok s l : inv s → inv (set_late s l) ∧ ∀ p L, rely p L s (set_late s l).
Proof.
  intros Hi. split; [|intros p L].
  - eapply (lease_step_inv s); try done; cbn; [|eauto]. intros n o Ho. by destruct (inv_lease _ Hi _ _ Ho).
  - by eapply lease_step_rely.
Qed.

Lemma land_ok s r : inv s → inv (land_lease s r) ∧ ∀ p L, rely p L s (land_lease s r).
Proof.
  intros Hi. split; [|intros p L].
  - eapply (lease_step_inv s); try done; cbn; [lia|..].
    + intros n o. rewrite lookup_insert_Some. intros [[<- <-]|[Hne Ho]]; cbn; [split_and!; [done|lia..]|].
      destruct (inv_lease _ Hi _ _ Ho). split_and!; [done|lia|done].
    + intros q pr a Hpr Hr Ha _ o Ho Hao. destruct (decide (le_node r = node pr)) as [Heq|Hne].
      * rewrite Heq, lookup_insert_eq. eexists. split; [done|]. cbn. by destruct (inv_alive _ Hi _ _ _ Hpr Hr Ha).
      * rewrite lookup_insert_ne by done. eauto.
  - eapply lease_step_rely; try done; cbn; [lia|..].
    + intros n o. rewrite lookup_insert_Some. intros [[<- <-]|[Hne Ho]]; cbn; [lia|done].
    + intros n i (? & Hle & Hr). split_and!; [done..|]. cbn. intros Hrun Hsk. destruct (decide (le_node r = n)) as [<-|Hne].
      * rewrite lookup_insert_eq. eauto.
      * rewrite lookup_insert_ne by done. by apply Hr.
Qed.

Lemma drop_ok s n : lc_ttl_ms cfg ≠ 0 → inv s → timely cfg s (drop_lease s n) →
  inv (drop_lease s n) ∧ ∀ p L, rely p L s (drop_lease s n).
Proof.
  intros Httl Hi [_ Ht].
  assert (∀ o, sy_leases s !! n = Some o → ¬ runs_as s n ∨ lo_landed o + verdict cfg ≤ sy_now s) as Hexp.
  { intros o Ho. destruct (map_Forall_lookup_1 _ _ _ _ Ht Ho) as [Hs|?]; [|done].
    cbn in Hs. rewrite lookup_delete_eq in Hs. by destruct Hs. }
  split; [|intros p L].
  - eapply (lease_step_inv s); try done; cbn.
    + intros m o [_ Ho]%lookup_delete_Some. by destruct (inv_lease _ Hi _ _ Ho).
    + intros q pr a Hpr Hr Ha Hlt o Ho Hao. destruct (decide (n = node pr)) as [->|Hne].
      * destruct (Hexp o Ho) as [Hno|Hle]; [|lia]. destruct Hno. exists q, pr. done.
      * rewrite lookup_delete_ne by done. eauto.
  - eapply lease_step_rely; try done; cbn.
    + by intros m o [_ Ho]%lookup_delete_Some.
    + intros m i (? & Hle & Hr). split_and!; [done..|]. cbn. intros Hrun Hsk. destruct (Hr Hrun Hsk) as (o & Ho & Hio).
      destruct (decide (n = m)) as [->|Hne]; [|rewrite lookup_delete_ne by done; eauto].
      destruct (Hexp o Ho) as [|Hle']; [done|]. unfold verdict in Hle'. lia.
Qed.

(** ** Versions of a record *)

Lemma versions_set s t m t' :
  versions_of (set_versions s t m) t' = if decide (t' = t) then m else versions_of s t'.
Proof.
  unfold versions_of. cbn. destruct (decide (t' = t)) as [->|Hne]; [by rewrite lookup_insert_eq|].
  by rewrite lookup_insert_ne.
Qed.

(** Nobody who may still act owns the newest version, or only session [me] does. *)
Definition free (s : Sys) (t me : string) : Prop :=
  ∀ r, versions_of s t !! newest s t = Some r → ow_node r = "" ∨ ow_node r = me ∨ dead s (ow_node r).

(** What a task must know to write version [sq] of a record in the name of its session [me]. *)
Record may_create (p : string) (s : Sys) (t : string) (sq : N) (me : string) (r : OwnerRecord) : Prop := {
  mc_proc : is_Some (sy_procs s !! p);
  mc_name : sy_names s !! me = Some p;
  mc_counted : recorded s me;
  mc_pos : 1 ≤ sq;
  mc_next : sq ≤ newest s t + 1;
  mc_free : newest s t + 1 = sq → free s t me;
  mc_node : ow_node r = me
    ∨ (ow_node r = "" ∧ ∀ pr, sy_procs s !! p = Some pr → node pr = me → held pr !! t = None);
}.

Lemma may_create_stable p L t sq me r : t ∈ L → stable p L (λ s, may_create p s t sq me r).
Proof.
  intros Ht s s' [[pr Hpr] Hn Hc Hpos Hnext Hfree Hnode] Hr Hi. pose proof (rely_newest _ _ _ _ Hr t) as Hle.
  destruct (rely_proc _ _ _ _ Hr _ Hpr) as (pr' & Hpr' & _ & Hnm & _). split.
  - by exists pr'.
  - by apply Hr.
  - by apply Hr.
  - done.
  - lia.
  - intros Heq r' Hr'. assert (newest s' t = newest s t) as He by lia.
    rewrite He, (rely_latest _ _ _ _ Hr t He) in Hr'. destruct (Hfree ltac:(lia) r' Hr') as [|[|Hd]]; [by left|auto|].
    right; right. by apply Hr.
  - destruct Hnode as [|[He Hh]]; [by left|right]. split; [done|]. intros pr2 Hpr2 Hme. simplify_eq.
    destruct Hnm as (Heq & _ & Hheld); [by rewrite Hn|]. rewrite Hheld by done. by apply Hh.
Qed.

(** Adding version [sq] of a record. *)
Section Create.
Context (s : Sys) (p t : string) (sq : N) (me : string) (r : OwnerRecord).
Context (Hi : inv s) (Hmc : may_create p s t sq me r) (Habs : versions_of s t !! sq = None).

Let s' : Sys := set_versions s t (<[sq := r]> (versions_of s t)).

Lemma create_versions t' : versions_of s' t' = if decide (t' = t) then <[sq := r]> (versions_of s t) else versions_of s t'.
Proof. apply versions_set. Qed.

Lemma create_newest t' : newest s' t' = if decide (t' = t) then N.max (newest s t) sq else newest s t'.
Proof.
  pose proof (create_versions t') as Hv. destruct (decide (t' = t)) as [->|]; [|by apply newest_ext].
  apply newest_unique; rewrite Hv.
  - intros k [r' Hr']. apply lookup_insert_Some in Hr' as [[<- <-]|[_ Hr']]; [lia|]. apply newest_le in Hr'. lia.
  - right. destruct (N.max_spec (newest s t) sq) as [[_ ->]|[Hle ->]]; [by rewrite lookup_insert_eq|].
    destruct (decide (sq = newest s t)) as [->|Hne]; [by rewrite lookup_insert_eq|].
    rewrite lookup_insert_ne by done. apply newest_in. pose proof (mc_pos _ _ _ _ _ _ Hmc). lia.
Qed.

(** The new version is not the newest, or it follows it. *)
Lemma create_latest t' : latest_node s' t' = latest_node s t'
  ∨ (t' = t ∧ newest s t + 1 = sq ∧ latest_node s' t = Some (ow_node r)).
Proof.
  unfold latest_node. rewrite create_newest, create_versions. destruct (decide (t' = t)) as [->|]; [|by left].
  pose proof (mc_next _ _ _ _ _ _ Hmc). destruct (decide (newest s t + 1 = sq)) as [Heq|Hne].
  - right. rewrite create_newest, create_versions, !decide_True by done.
    split_and!; [done..|]. by rewrite N.max_r, lookup_insert_eq by lia.
  - left. rewrite N.max_l by lia. destruct (decide (sq = newest s t)) as [->|]; [|by rewrite lookup_insert_ne].
    exfalso. destruct (newest_in s t) as [r' Hr']; [pose proof (mc_pos _ _ _ _ _ _ Hmc); lia|congruence].
Qed.

(** Whoever may act as the owner of the newest version is session [me] of [p]. *)
Lemma create_owner q pr :
  sy_procs s !! q = Some pr → alive s pr → newest s t + 1 = sq → latest_node s t = Some (node pr) →
  q = p ∧ node pr = me.
Proof.
  intros Hpr Hal Heq Hlat. unfold latest_node in Hlat. apply fmap_Some in Hlat as (r' & Hr' & Hn).
  pose proof (inv_names _ Hi _ _ Hpr) as Hq.
  destruct (mc_free _ _ _ _ _ _ Hmc Heq r' Hr') as [He|[He|[_ Hd]]]; rewrite <- Hn in *.
  - rewrite He, (inv_nonempty _ Hi) in Hq. done.
  - rewrite He, (mc_name _ _ _ _ _ _ Hmc) in Hq. by simplify_eq.
  - destruct Hal as (Hr & a & Ha & Hlt). destruct (Hd q pr Hpr eq_refl) as [|(a' & Ha' & Hle)]; [congruence|].
    rewrite Ha in Ha'. simplify_eq. lia.
Qed.

Lemma create_inv : inv s'.
Proof.
  split.
  - apply Hi.
  - apply Hi.
  - apply Hi.
  - apply Hi.
  - apply Hi.
  - intros q pr t' h Hpr Hh. destruct (inv_held _ Hi _ _ _ _ Hpr Hh) as (Hc & Hle & Hat & Hal).
    split; [done|]. rewrite create_newest. destruct (decide (t' = t)) as [->|Hne].
    + split; [lia|]. destruct (create_latest t) as [Hl|(_ & Heq & Hl)]; rewrite Hl.
      * split; [|done]. intros He. apply Hat. lia.
      * split; [lia|]. intros Halive. destruct (create_owner _ _ Hpr Halive Heq (Hal Halive)) as [-> Hme].
        destruct (mc_node _ _ _ _ _ _ Hmc) as [->|[_ Hno]]; [congruence|].
        rewrite (Hno _ Hpr Hme) in Hh. done.
    + rewrite (latest_ext s s' t'); [done|]. by rewrite create_versions, decide_False.
  - intros t' k r'. rewrite create_versions. destruct (decide (t' = t)) as [->|]; [|apply Hi].
    intros [[<- <-]|[_ Hr']]%lookup_insert_Some; [|by apply Hi in Hr'].
    split; [apply Hmc|]. destruct (mc_node _ _ _ _ _ _ Hmc) as [->|[-> _]]; [right; apply Hmc|by left].
  - apply Hi.
Qed.

Lemma create_guarantee L : t ∈ L → guarantee p L s s'.
Proof.
  intros Ht p' L' Hdis. apply store_rely; try done.
  - intros t'. rewrite create_newest. destruct (decide (t' = t)) as [->|]; lia.
  - intros t'. rewrite create_newest, create_versions. destruct (decide (t' = t)) as [->|]; [|done].
    intros He. rewrite lookup_insert_ne; [done|]. intros ->.
    destruct (newest_in s t) as [r' Hr']; [pose proof (mc_pos _ _ _ _ _ _ Hmc); lia|congruence].
  - intros t' me' Ht' [Hnm Ho]. split; [done|]. intros pr Hpr Hme. destruct (Ho pr Hpr Hme) as [Hc Hal]. split; [done|]. intros Halive.
    destruct (create_latest t') as [->|(-> & Heq & _)]; [by apply Hal|].
    destruct (create_owner _ _ Hpr Halive Heq) as [-> _]; [rewrite Hal by done; congruence|].
    destruct Hdis as [|Hdis]; [done|]. set_solver.
Qed.

(** After it, the version is the newest one only with these contents. *)
Lemma create_written : sq ≤ newest s' t ∧ (newest s' t = sq → versions_of s' t !! sq = Some r).
Proof.
  rewrite create_newest, create_versions, !decide_True by done. split; [lia|]. by rewrite lookup_insert_eq.
Qed.

End Create.

(** Removing a version that is not the newest. *)
Lemma remove_ok s t k : inv s → k < newest s t →
  let s' := set_versions s t (delete k (versions_of s t)) in inv s' ∧ ∀ p L, rely p L s s'.
Proof.
  intros Hi Hk s'.
  assert (∀ t', versions_of s' t' = if decide (t' = t) then delete k (versions_of s t) else versions_of s t') as Hv
    by (intros; apply versions_set).
  assert (∀ t', newest s' t' = newest s t') as Hnew.
  { intros t'. specialize (Hv t'). destruct (decide (t' = t)) as [->|]; [|by apply newest_ext].
    apply newest_unique; rewrite Hv.
    - intros j [r [_ Hr]%lookup_delete_Some]. by eapply newest_le.
    - right. rewrite lookup_delete_ne by lia. apply newest_in. lia. }
  assert (∀ t', versions_of s' t' !! newest s t' = versions_of s t' !! newest s t') as Hat.
  { intros t'. rewrite Hv. destruct (decide (t' = t)) as [->|]; [|done]. by rewrite lookup_delete_ne by lia. }
  assert (∀ t', latest_node s' t' = latest_node s t') as Hlat.
  { intros t'. unfold latest_node. by rewrite Hnew, Hat. }
  split; [split|intros p L]; try apply Hi.
  - intros q pr t' h Hpr Hh. destruct (inv_held _ Hi _ _ _ _ Hpr Hh) as (? & ? & ? & ?).
    unfold held_ok. by rewrite Hnew, Hlat.
  - intros t' j r'. rewrite Hv. destruct (decide (t' = t)) as [->|]; [|apply Hi].
    intros [_ Hr']%lookup_delete_Some. by apply Hi in Hr'.
  - apply store_rely; try done.
    + intros t'. by rewrite Hnew.
    + intros t' me _ [Hnm Ho]. split; [done|]. intros pr Hpr Hme. rewrite Hlat. by apply Ho.
Qed.

(** ** Steps of a process *)

(** A lease that is not in the bucket has no session left. *)
Lemma absent_dead s n : inv s → sy_leases s !! n = None → recorded s n → dead s n.
Proof.
  intros Hi Hl [Hn Hc]. split; [done|]. intros q pr Hpr Heq. destruct (retired pr) eqn:Hr; [by left|right].
  destruct (Hc q pr Hpr Heq) as [|[a Ha]]; [congruence|]. exists a. split; [done|].
  destruct (N.le_gt_cases (a + verdict cfg) (sy_now s)); [done|].
  destruct (inv_alive _ Hi _ _ _ Hpr Hr Ha) as [_ (o & Ho & _)]; [done|congruence].
Qed.

(** The entries of leases a step may leave. *)
Definition leases_ok (s : Sys) (st st' : State) : Prop :=
  ∀ n seen', st_leases st' !! n = Some seen' →
    (∃ seen, st_leases st !! n = Some seen ∧ sn_version seen = sn_version seen' ∧ sn_first_seen seen = sn_first_seen seen')
    ∨ seen_ok s n seen'.

(** What a block that holds the locks [L] may do: go on with the session, or start the fresh one
    [name] with nothing. *)
Inductive local_ok (s : Sys) (L : gset string) (name : string) (self : Self) (st st' : State) : Prop :=
| local_same :
    se_node (st_session st') = se_node (st_session st) →
    (se_retired (st_session st) = true → se_retired (st_session st') = true) →
    (se_retired (st_session st') = false →
       se_anchor (st_session st') = se_anchor (st_session st)
       ∨ ∃ i, se_anchor (st_session st') = Some i ∧ renewed s (se_node (st_session st)) i
              ∧ ∀ a, se_anchor (st_session st) = Some a → i < a + lc_ttl_ms cfg) →
    (∀ t, t ∉ L → st_held st' !! t = st_held st !! t) →
    (∀ t h, t ∈ L → st_held st' !! t = Some h → st_held st !! t = Some h ∨ held_ok s (mkProc self st') t h) →
    leases_ok s st st' →
    (∀ n, n ∈ st_dead st' → n ∈ st_dead st ∨ (n = se_node (st_session st) ∧ se_retired (st_session st') = true)) →
    local_ok s L name self st st'
| local_fresh :
    se_node (st_session st') = name → se_anchor (st_session st') = None → se_retired (st_session st') = false →
    st_held st' = ∅ → leases_ok s st st' →
    (∀ n, n ∈ st_dead st' → n ∈ st_dead st ∨ n = se_node (st_session st)) →
    local_ok s L name self st st'.

Section Local.
Context (s : Sys) (p name : string) (pr : Proc) (st' : State) (L : gset string).
Context (Hi : inv s) (Hpr : sy_procs s !! p = Some pr) (Hfresh : sy_names s !! name = None) (Hne : name ≠ "").
Context (Hok : local_ok s L name (pc_self pr) (pc_state pr) st').

Let pr' : Proc := mkProc (pc_self pr) st'.
Let s' : Sys := set_proc s p pr' name.

Context (Ht : timely cfg s s').

Lemma local_procs q : sy_procs s' !! q = if decide (q = p) then Some pr' else sy_procs s !! q.
Proof.
  unfold s'. cbn. destruct (decide (q = p)) as [->|]; [by rewrite lookup_insert_eq|by rewrite lookup_insert_ne].
Qed.

Lemma local_names n q : sy_names s !! n = Some q → sy_names s' !! n = Some q.
Proof. intros Hn. unfold s'. cbn. rewrite lookup_insert_ne; [done|]. intros ->. congruence. Qed.

Lemma local_names_is n : is_Some (sy_names s !! n) → is_Some (sy_names s' !! n).
Proof. intros [q Hq]. exists q. by apply local_names. Qed.

(** The known session of [p] is the one it had. *)
Lemma local_session : is_Some (sy_names s !! node pr') → node pr' = node pr
  ∧ (retired pr = true → retired pr' = true) ∧ (counted pr → counted pr')
  ∧ (retired pr' = false → anchor pr' = anchor pr
       ∨ ∃ i, anchor pr' = Some i ∧ renewed s (node pr) i ∧ (anchor pr = Some i ∨ sy_now s ≤ i + lc_skew_ms cfg)
              ∧ ∀ a, anchor pr = Some a → i < a + lc_ttl_ms cfg)
  ∧ ∀ t, t ∉ L → held pr' !! t = held pr !! t.
Proof.
  intros Hn. destruct Hok as [Hnode Hret Hanc Hh _ _ _|Hs _ _ _ _ _].
  - split_and!; [done..| |intros Hr|done].
    + intros [Hr|Ha]; [left; auto|]. destruct (retired pr') eqn:Hr; [by left|right].
      destruct (Hanc Hr) as [He|(i & He & _)]; unfold pr'; cbn; rewrite He; [done|by eexists].
    + destruct (Hanc Hr) as [He|(i & He & Hren & Hlt)]; [by left|right]. exists i. split_and!; [done..| |done].
      destruct Ht as [Hproc _]. specialize (map_Forall_lookup_1 _ _ p pr' Hproc) as Hp.
      rewrite local_procs, decide_True in Hp by done. specialize (Hp eq_refl). unfold timely_proc in Hp.
      rewrite Hpr in Hp. destruct Hp as [Hp _]. unfold pr' in Hp. cbn in Hp. by rewrite He in Hp.
  - exfalso. unfold pr' in Hn. cbn in Hn. rewrite Hs, Hfresh in Hn. by destruct Hn.
Qed.

(** Who is alive after the step was alive before. *)
Lemma local_alive : is_Some (sy_names s !! node pr') → counted pr → alive s' pr' → alive s pr.
Proof.
  intros Hn Hc (Hr & a & Ha & Hlt). destruct (local_session Hn) as (_ & Hret & _ & Hanc & _).
  assert (retired pr = false) as Hr0 by (destruct (retired pr); [by rewrite Hret in Hr|done]).
  split; [done|]. destruct (Hanc Hr) as [He|(i & He & _ & Hsk & Hlti)]; [exists a; split; [congruence|done]|].
  destruct Hc as [|[a0 Ha0]]; [congruence|]. exists a0. split; [done|]. specialize (Hlti a0 Ha0).
  rewrite Ha in He. injection He as ->. unfold verdict in *. cbn in Hlt. destruct Hsk as [|Hsk]; [simplify_eq; done|lia].
Qed.

Lemma local_dead n : dead s n → dead s' n.
Proof.
  intros [Hn Hd]. split; [by apply local_names_is|]. intros q prq. rewrite local_procs.
  destruct (decide (q = p)) as [->|]; [|by apply Hd]. intros [= <-] Heq. rewrite <- Heq in Hn.
  destruct (local_session Hn) as (Hnode & Hret & _ & Hanc & _).
  destruct (Hd p pr Hpr) as [Hr|(a & Ha & Hle)]; [congruence|left; auto|].
  destruct (retired pr') eqn:Hr; [by left|right].
  destruct (Hanc eq_refl) as [He|(i & He & _ & Hsk & Hlti)]; [exists a; split; [congruence|done]|].
  specialize (Hlti a Ha). unfold verdict in Hle. destruct Hsk as [Hsk|Hsk]; [|lia].
  exists i. split; [done|]. rewrite Ha in Hsk. injection Hsk as ->. done.
Qed.

Lemma local_recorded n : recorded s n → recorded s' n.
Proof.
  intros [Hn Hd]. split; [by apply local_names_is|]. intros q prq. rewrite local_procs.
  destruct (decide (q = p)) as [->|]; [|by apply Hd]. intros [= <-] Heq. rewrite <- Heq in Hn.
  destruct (local_session Hn) as (Hnode & _ & Hc & _). apply Hc. eapply Hd; [done|congruence].
Qed.

Lemma local_runs n : is_Some (sy_names s !! n) → runs_as s' n → runs_as s n.
Proof.
  intros Hn (q & prq & Hq & Heq & Hr). rewrite local_procs in Hq.
  destruct (decide (q = p)) as [->|]; [|by exists q, prq]. injection Hq as <-.
  rewrite <- Heq in Hn. destruct (local_session Hn) as (Hnode & Hret & _).
  exists p, pr. split_and!; [done|congruence|]. destruct (retired pr); [by rewrite Hret in Hr|done].
Qed.

Lemma local_renewed n i : renewed s n i → renewed s' n i.
Proof.
  intros (Hn & Hle & Hr). split_and!; [by apply local_names_is|done|]. intros Hrun Hsk. by apply Hr, Hsk; apply local_runs.
Qed.

Lemma local_leases : leases_ok s (pc_state pr) st'.
Proof. by destruct Hok. Qed.

Lemma local_inv : inv s'.
Proof.
  split.
  - intros q prq. rewrite local_procs. destruct (decide (q = p)) as [->|Hqp].
    + intros [= <-]. destruct Hok as [Hnode _ _ _ _ _ _|Hs _ _ _ _ _].
      * apply local_names. unfold pr'. cbn. rewrite Hnode. by apply (inv_names _ Hi).
      * unfold pr', s'. cbn. by rewrite Hs, lookup_insert_eq.
    + intros Hq. by apply local_names, (inv_names _ Hi).
  - unfold s'. cbn. rewrite lookup_insert_ne by done. apply Hi.
  - apply Hi.
  - intros q prq n seen. rewrite local_procs. destruct (decide (q = p)) as [->|]; [|apply Hi].
    intros [= <-] Hn. destruct (local_leases n seen Hn) as [(seen0 & Hn0 & Hv & Hf)|]; [|done].
    destruct (inv_seen _ Hi _ _ _ _ Hpr Hn0) as (? & ? & ?). unfold seen_ok. rewrite <- Hv, <- Hf. done.
  - intros q prq a. rewrite local_procs. destruct (decide (q = p)) as [->|]; [|apply Hi].
    intros [= <-] Hr Ha. destruct Hok as [Hnode Hret Hanc _ _ _ _|_ Hs _ _ _ _]; [|unfold pr' in Ha; cbn in Ha; by rewrite Hs in Ha].
    assert (is_Some (sy_names s !! node pr')) as Hn by (unfold pr'; cbn; rewrite Hnode; eexists; by apply (inv_names _ Hi)).
    destruct (local_session Hn) as (Heq & Hret' & _ & Hanc' & _).
    assert (retired pr = false) as Hr0 by (destruct (retired pr); [by rewrite Hret' in Hr|done]).
    destruct (Hanc' Hr) as [He|(i & He & (_ & Hle & Hren) & Hsk & _)].
    + rewrite Heq. apply (inv_alive _ Hi _ _ _ Hpr Hr0). congruence.
    + rewrite Ha in He. injection He as ->. destruct Hsk as [Hsk|Hsk]; [rewrite Heq; by apply (inv_alive _ Hi _ _ _ Hpr Hr0)|].
      split; [done|]. intros _. rewrite Heq. apply Hren; [|done]. by exists p, pr.
  - intros q prq t h. rewrite local_procs. destruct (decide (q = p)) as [->|].
    2: { intros Hq Hh. by destruct (inv_held _ Hi _ _ _ _ Hq Hh). }
    intros [= <-] Hh. destruct Hok as [Hnode _ _ Hout Hin _ _|_ _ _ Hempty _ _]; [|unfold pr' in Hh; cbn in Hh; by rewrite Hempty in Hh].
    assert (held pr !! t = Some h ∨ held_ok s pr' t h) as [Hold|Hnew]; [| |by destruct Hnew].
    { destruct (decide (t ∈ L)) as [Ht'|Ht']; [by apply Hin|left; by rewrite <- Hout]. }
    destruct (inv_held _ Hi _ _ _ _ Hpr Hold) as (Hc & Hle & Hat & Hal).
    assert (is_Some (sy_names s !! node pr')) as Hn by (unfold pr'; cbn; rewrite Hnode; eexists; by apply (inv_names _ Hi)).
    destruct (local_session Hn) as (Heq & _ & Hc' & _). rewrite <- Heq in *. split_and!; [auto|done..|].
    intros Halive. by apply Hal, local_alive.
  - intros t k r Hr. destruct (inv_record _ Hi _ _ _ Hr) as [? [?|?]]; split; auto. right. by apply local_recorded.
  - intros q prq n. rewrite local_procs. destruct (decide (q = p)) as [->|]; [|intros Hq Hn; by eapply local_dead, inv_dead].
    intros [= <-] Hn.
    assert (n ∈ st_dead (pc_state pr) ∨ (n = node pr ∧ (retired pr' = true ∨ node pr' = name))) as [Hold|[-> Hcase]].
    { destruct Hok as [_ _ _ _ _ _ Hd|Hs _ _ _ _ Hd]; destruct (Hd n Hn) as [|Hd']; try by left.
      - right. destruct Hd' as [-> ?]. auto.
      - right. split; [done|right]. unfold pr'. cbn. by rewrite Hs. }
    { by eapply local_dead, inv_dead. }
    pose proof (inv_names _ Hi _ _ Hpr) as Hnm. split; [eexists; by apply local_names|].
    intros q prq. rewrite local_procs. destruct (decide (q = p)) as [->|Hqp].
    + intros [= <-] Heq. destruct Hcase as [|Hname]; [by left|]. rewrite Hname in Heq. congruence.
    + intros Hq Heq. pose proof (inv_names _ Hi _ _ Hq) as Hnq. rewrite Heq in Hnq. congruence.
Qed.

Lemma local_guarantee : guarantee p L s s'.
Proof.
  intros p' L' Hdis. split.
  - done.
  - apply local_names.
  - done.
  - done.
  - apply local_dead.
  - apply local_recorded.
  - apply local_renewed.
  - done.
  - done.
  - intros t me Ht' [Hn Ho]. split; [by apply local_names_is|]. intros prq. rewrite local_procs.
    destruct (decide (p' = p)) as [->|]; [|by apply Ho]. intros [= <-] Heq. rewrite <- Heq in Hn.
    destruct (local_session Hn) as (Hnode & _ & Hc & _).
    destruct (Ho pr Hpr) as [Hc0 Hal]; [congruence|]. split; [auto|]. intros Halive. by apply Hal, local_alive.
  - intros prq Hq. rewrite local_procs. destruct (decide (p' = p)) as [->|].
    2: { exists prq. split_and!; [done..|eauto|auto]. }
    assert (prq = pr) as -> by congruence. exists pr'. split_and!; [done..| | |].
    + intros Hn. destruct (local_session Hn) as (? & _ & ? & _ & Hh). split_and!; [done..|].
      intros t Ht'. apply Hh. destruct Hdis as [|Hdis]; [done|]. set_solver.
    + destruct Ht as [Hproc _]. specialize (map_Forall_lookup_1 _ _ p pr' Hproc) as Hp.
      rewrite local_procs, decide_True in Hp by done. specialize (Hp eq_refl). unfold timely_proc in Hp.
      rewrite Hpr in Hp. destruct Hp as (_ & Hseen & _). intros n seen' Hn.
      specialize (Hseen n seen' Hn). cbn in Hseen. destruct (st_leases (pc_state pr) !! n) as [seen|]; [|by right; destruct Hseen].
      destruct Hseen as [[? ?]|]; [left; by exists seen|by right].
    + destruct Ht as [Hproc _]. specialize (map_Forall_lookup_1 _ _ p pr' Hproc) as Hp.
      rewrite local_procs, decide_True in Hp by done. specialize (Hp eq_refl). unfold timely_proc in Hp.
      rewrite Hpr in Hp. destruct Hp as (_ & _ & Hgone). intros n Hn.
      destruct (st_leases (pc_state pr) !! n) as [seen|] eqn:Hs; [|by left]. right. intros Hrec.
      destruct (Hgone n seen Hs) as [[? Hsome]|Habs]; [congruence|].
      by apply local_dead, absent_dead.
Qed.

End Local.

(** ** Rules *)

Lemma stable_and p L P P' : stable p L P → stable p L P' → stable p L (λ s, P s ∧ P' s).
Proof. intros HP HP' s s' [? ?] Hr Hi. split; [by eapply HP|by eapply HP']. Qed.

Lemma stable_pure p L (P : Prop) : stable p L (λ _, P).
Proof. by intros s s' HP _ _. Qed.

Lemma stable_imp p L (P : Prop) (P' : Sys → Prop) : (P → stable p L P') → stable p L (λ s, P → P' s).
Proof. intros Hst s s' Hs Hr Hi HP. by eapply Hst; [|apply Hs|..]. Qed.

Lemma stable_all {A} p L (P : A → Sys → Prop) : (∀ a, stable p L (P a)) → stable p L (λ s, ∀ a, P a s).
Proof. intros Hst s s' Hs Hr Hi a. by eapply Hst. Qed.

Lemma stable_ex {A} p L (P : A → Sys → Prop) : (∀ a, stable p L (P a)) → stable p L (λ s, ∃ a, P a s).
Proof. intros Hst s s' [a Ha] Hr Hi. exists a. by eapply Hst. Qed.

Lemma stable_dead p L n : stable p L (λ s, dead s n).
Proof. intros s s' Hd Hr _. by apply Hr. Qed.

Lemma stable_recorded p L n : stable p L (λ s, recorded s n).
Proof. intros s s' Hd Hr _. by apply Hr. Qed.

Lemma stable_renewed p L n i : stable p L (λ s, renewed s n i).
Proof. intros s s' Hd Hr _. by apply Hr. Qed.

Lemma stable_now p L i : stable p L (λ s, i ≤ sy_now s).
Proof. intros s s' Hd Hr _. pose proof (rely_now _ _ _ _ Hr). lia. Qed.

Lemma stable_name p L n q : stable p L (λ s, sy_names s !! n = Some q).
Proof. intros s s' Hd Hr _. by apply Hr. Qed.

Lemma stable_named p L n : stable p L (λ s, is_Some (sy_names s !! n)).
Proof. intros s s' [q Hq] Hr _. exists q. by apply Hr. Qed.

Lemma stable_owned p L me t : t ∈ L → stable p L (λ s, owned s p me t).
Proof. intros Ht s s' Ho Hr _. by apply Hr. Qed.

(** The process of a task runs, as [self]. *)
Definition here (p : string) (self : Self) (s : Sys) : Prop :=
  ∃ pr, sy_procs s !! p = Some pr ∧ pc_self pr = self.

Lemma stable_here p L self : stable p L (here p self).
Proof.
  intros s s' (pr & Hpr & Hs) Hr _. destruct (rely_proc _ _ _ _ Hr _ Hpr) as (pr' & ? & ? & _).
  exists pr'. split; [done|congruence].
Qed.

(** A question whose step every task may rely on keeps what is stable. *)
Lemma triple_quiet {X A} p L (P : Sys → Prop) (q : OReq X) (E : X → Sys → Prop) (f : X → Own A) Q :
  stable p L P → locks_after q L = L →
  (∀ s c x s', inv s → P s → perform p q c s = Some (x, s') → timely cfg s s' →
     inv s' ∧ (∀ p' L', rely p' L' s s') ∧ E x s') →
  (∀ x, triple p L (λ s, P s ∧ E x s) (f x) Q) →
  triple p L P (x ← ask q; f x) Q.
Proof.
  intros Hst HL Hq Hf. apply (triple_ask _ _ _ _ (λ x s, P s ∧ E x s)); [done| |by rewrite HL].
  intros s c x s' Hi HP Hp Ht. destruct (Hq s c x s' Hi HP Hp Ht) as (Hi' & Hr & HE).
  split_and!; [done|intros p' L' _; apply Hr|by eapply Hst|done].
Qed.

Lemma triple_now {A} p L P (f : N → Own A) Q :
  stable p L P → (∀ x, triple p L (λ s, P s ∧ x ≤ sy_now s) (f x) Q) → triple p L P (x ← ask Now; f x) Q.
Proof.
  intros Hst Hf. apply (triple_quiet _ _ _ _ (λ x s, x ≤ sy_now s)); [done..| |done].
  intros s c x s' Hi HP [= <- <-] _. split_and!; [done|intros; apply rely_refl|done].
Qed.

(** A question answered without a change. *)
Lemma triple_look {X A} p L P (q : OReq X) (E : X → Sys → Prop) (f : X → Own A) Q :
  stable p L P → locks_after q L = L → (∀ c x s s', perform p q c s = Some (x, s') → s' = s) →
  (∀ s c x, inv s → P s → perform p q c s = Some (x, s) → E x s) →
  (∀ x, triple p L (λ s, P s ∧ E x s) (f x) Q) →
  triple p L P (x ← ask q; f x) Q.
Proof.
  intros Hst HL Hsame HE Hf. apply (triple_quiet _ _ _ _ E); [done..| |done].
  intros s c x s' Hi HP Hp _. pose proof (Hsame _ _ _ _ Hp) as ->.
  split_and!; [done|intros; apply rely_refl|by eapply HE].
Qed.

Lemma session_name_ne id uuid : session_name id uuid ≠ "".
Proof. unfold session_name. by destruct id. Qed.

(** What a block does: the answer and the state it leaves, under a fresh name. *)
Lemma block_step {X} p L self (b : Host → State → X * State) s c x s' pr :
  inv s → sy_procs s !! p = Some pr → pc_self pr = self →
  perform p (Locked b) c s = Some (x, s') → timely cfg s s' →
  let h := mkHost (sy_now s) (ch_wall c) (ch_uuid c) in
  let name := session_name (sf_node_id self) (ch_uuid c) in
  local_ok s L name self (pc_state pr) (b h (pc_state pr)).2 →
  sy_names s !! name = None ∧ x = (b h (pc_state pr)).1
  ∧ s' = set_proc s p (mkProc self (b h (pc_state pr)).2) name ∧ inv s' ∧ guarantee p L s s'.
Proof.
  intros Hi Hpr Hself Hp Ht h name Hok. cbn in Hp. rewrite Hpr in Hp. cbn in Hp. rewrite Hself in Hp.
  case_bool_decide as Hname; [done|]. apply eq_None_not_Some in Hname.
  fold h in Hp. destruct (b h (pc_state pr)) as [x0 st'] eqn:Hbx. injection Hp as -> <-. subst self. cbn in *.
  split_and!; [done..| |].
  - by eapply local_inv; eauto using session_name_ne.
  - by eapply local_guarantee; eauto using session_name_ne.
Qed.

(** A block that leaves what the process holds alone, or starts over. *)
Lemma triple_block {X A} p L self P (b : Host → State → X * State) (E : X → Sys → Prop) (f : X → Own A) Q :
  stable p L P → (∀ s, P s → here p self s) →
  (∀ s h pr, inv s → P s → sy_procs s !! p = Some pr → h_now h = sy_now s →
     let name := session_name (sf_node_id self) (h_uuid h) in
     local_ok s ∅ name self (pc_state pr) (b h (pc_state pr)).2
     ∧ (sy_names s !! name = None → let s' := set_proc s p (mkProc self (b h (pc_state pr)).2) name in
        inv s' → P s' → E (b h (pc_state pr)).1 s')) →
  (∀ x, triple p L (λ s, P s ∧ E x s) (f x) Q) →
  triple p L P (x ← ask (Locked b); f x) Q.
Proof.
  intros Hst Hhere Hb Hf. apply (triple_quiet _ _ _ _ E); [done..| |done].
  intros s c x s' Hi HP Hp Ht. destruct (Hhere s HP) as (pr & Hpr & Hself).
  destruct (Hb s (mkHost (sy_now s) (ch_wall c) (ch_uuid c)) pr Hi HP Hpr eq_refl) as [Hok HE].
  destruct (block_step p ∅ self b s c x s' pr Hi Hpr Hself Hp Ht Hok) as (Hname & -> & -> & Hi' & Hg).
  assert (∀ p' L', rely p' L' s (set_proc s p (mkProc self (b (mkHost (sy_now s) (ch_wall c) (ch_uuid c)) (pc_state pr)).2)
    (session_name (sf_node_id self) (ch_uuid c)))) as Hr.
  { intros p' L'. apply Hg. right. apply disjoint_empty_l. }
  split_and!; [done..|]. apply HE; [done..|]. by eapply Hst.
Qed.

(** A block that may change what the process holds of the tables whose locks it has. *)
Lemma triple_held_block {X A} p L self P (b : Host → State → X * State) (P' : X → Sys → Prop) (f : X → Own A) Q :
  stable p L P → (∀ s, P s → here p self s) →
  (∀ s h pr, inv s → P s → sy_procs s !! p = Some pr → pc_self pr = self → h_now h = sy_now s →
     let name := session_name (sf_node_id self) (h_uuid h) in
     let s' := set_proc s p (mkProc self (b h (pc_state pr)).2) name in
     local_ok s L name self (pc_state pr) (b h (pc_state pr)).2
     ∧ (sy_names s !! name = None → inv s' → rely p ∅ s s' → P' (b h (pc_state pr)).1 s')) →
  (∀ x, triple p L (P' x) (f x) Q) →
  triple p L P (x ← ask (Locked b); f x) Q.
Proof.
  intros Hst Hhere Hb Hf. apply (triple_ask _ _ _ _ P'); [done| |done].
  intros s c x s' Hi HP Hp Ht. destruct (Hhere s HP) as (pr & Hpr & Hself).
  destruct (Hb s (mkHost (sy_now s) (ch_wall c) (ch_uuid c)) pr Hi HP Hpr Hself eq_refl) as [Hok HE].
  destruct (block_step p L self b s c x s' pr Hi Hpr Hself Hp Ht Hok) as (Hname & -> & -> & Hi' & Hg).
  split_and!; [done..|]. apply HE; [done..|]. apply Hg. right. apply disjoint_empty_r.
Qed.

(** ** Blocks *)

Lemma leases_same s st st' : st_leases st' = st_leases st → leases_ok s st st'.
Proof. intros He n seen' Hn. left. exists seen'. by rewrite <- He. Qed.

(** A block that leaves the session, the tables, the leases' dates and the dead sessions alone. *)
Lemma local_benign s L name self st st' :
  st_session st' = st_session st → st_held st' = st_held st → leases_ok s st st' → st_dead st' = st_dead st →
  local_ok s L name self st st'.
Proof.
  intros Hs Hh Hl Hd. apply local_same; rewrite ?Hs, ?Hh, ?Hd; auto.
Qed.

Lemma local_refl s L name self st : local_ok s L name self st st.
Proof. apply local_benign; [done..| |done]. by apply leases_same. Qed.

Lemma auth_local s L self h st :
  local_ok s L (session_name (sf_node_id self) (h_uuid h)) self st (authoritative_locked cfg self h st).2.
Proof.
  unfold authoritative_locked. destruct (se_retired (st_session st)) eqn:Hr; [apply local_refl|].
  destruct (se_anchor (st_session st)); [|apply local_refl]. destruct (_ <? _); [apply local_refl|].
  apply local_fresh; cbn; [done..|by apply leases_same|]. set_solver.
Qed.

Lemma auth_true self h st st' :
  authoritative_locked cfg self h st = (true, st') →
  st' = st ∧ se_retired (st_session st) = false
  ∧ ∃ a, se_anchor (st_session st) = Some a ∧ h_now h - a < lc_ttl_ms cfg.
Proof.
  unfold authoritative_locked. destruct (se_retired (st_session st)); [done|].
  destruct (se_anchor (st_session st)) as [a|]; [|done]. destruct (N.ltb_spec (h_now h - a) (lc_ttl_ms cfg)); [|done].
  intros [= <-]. eauto.
Qed.

(** An authoritative process is alive. *)
Lemma auth_alive self h pr s st' :
  lc_ttl_ms cfg ≠ 0 → h_now h = sy_now s → authoritative_locked cfg self h (pc_state pr) = (true, st') → alive s pr.
Proof.
  intros Httl Hh (_ & Hr & a & Ha & Hlt)%auth_true. split; [done|]. exists a. split; [done|].
  unfold verdict. lia.
Qed.

(** Blocks that only ask for authority. *)
Lemma auth_block_local {X} s L self h st (g : bool → State → X) :
  local_ok s L (session_name (sf_node_id self) (h_uuid h)) self st
    (let '(a, st') := authoritative_locked cfg self h st in (g a st', st')).2.
Proof. pose proof (auth_local s L self h st) as Hl. by destruct (authoritative_locked cfg self h st). Qed.

Lemma prepare_local s L self h st :
  local_ok s L (session_name (sf_node_id self) (h_uuid h)) self st (renew_prepare cfg self h st).2.
Proof.
  unfold renew_prepare. destruct (se_retired (st_session st)) eqn:Hr; [apply local_refl|]. cbn.
  unfold authoritative_locked. rewrite Hr.
  assert (local_ok s L (session_name (sf_node_id self) (h_uuid h)) self st
    (set_abandoned (set_session st (set_renewal (st_session st) (se_renewal (st_session st) + 1))) [])) as Hsame.
  { apply local_same; cbn; auto. by apply leases_same. }
  destruct (se_anchor (st_session st)); [|done]. destruct (_ <? _); [done|].
  apply local_fresh; cbn; [done..|by apply leases_same|]. set_solver.
Qed.

Lemma count_local s L name self issued n written h st :
  lc_ttl_ms cfg ≠ 0 → (written = Ok tt → renewed s n issued) →
  local_ok s L name self st (renew_count cfg issued n written h st).2.
Proof.
  intros Httl Hw. unfold renew_count. destruct written as [[]|]; [|apply local_refl].
  case_bool_decide as Hn; [|apply local_refl]. destruct (se_retired (st_session st)) eqn:Hr; [apply local_refl|]. cbn.
  destruct (match se_anchor (st_session st) with Some a => _ | None => _ end) eqn:Ha; [|apply local_refl].
  apply local_same; cbn; auto; [|by apply leases_same]. intros _. right. exists issued.
  split_and!; [done|rewrite Hn; auto|]. intros a He. rewrite He in Ha. bool_facts. lia.
Qed.

(** The listing of the leases, taken at [T] or before. *)
Definition listing_ok (present : gmap string N) (T : N) (s : Sys) : Prop :=
  T ≤ sy_now s ∧ ∀ n v, present !! n = Some v → v < sy_version s
    ∧ ∀ o, sy_leases s !! n = Some o → lo_version o = v → lo_landed o ≤ T.

Lemma stable_listing p L present T : stable p L (listing_ok present T).
Proof.
  intros s s' [HT Hl] Hr _. split; [pose proof (rely_now _ _ _ _ Hr); lia|]. intros n v Hn.
  destruct (Hl n v Hn) as [Hv Ho]. split; [pose proof (rely_version _ _ _ _ Hr); lia|].
  intros o Ho' Hov. apply Ho; [|done]. apply Hr; [done|lia].
Qed.

Lemma merge_local s L name self before listed_at present bodies h st :
  listing_ok present listed_at s →
  local_ok s L name self st (sample_merge cfg before listed_at present bodies h st).2.
Proof.
  intros [HT Hl]. apply local_benign; cbn; [done..| |done]. intros n seen'. cbn.
  rewrite map_lookup_imap. intros (v & Hv & Hm)%bind_Some. injection Hm as <-.
  destruct (Hl n v Hv) as [Hlt Ho].
  assert (∀ body, seen_ok s n (mkSeen v listed_at body)) as Hnew by (intros; split_and!; done).
  unfold merge_lease. destruct (st_leases st !! n) as [seen|]; [|by right].
  destruct (sn_version seen =? v); [left; by exists seen|by right].
Qed.

Lemma see_local s L name self n version lease h st :
  version < sy_version s → (∀ o, sy_leases s !! n = Some o → lo_landed o ≤ h_now h) → h_now h = sy_now s →
  local_ok s L name self st (see_lease n version lease h st).2.
Proof.
  intros Hv Ho Hh. unfold see_lease.
  assert (∀ l, seen_ok s n (mkSeen version (h_now h) l)) as Hnew.
  { intros l. split_and!; cbn; [lia|done|]. intros o Ho' _. by apply Ho. }
  assert (∀ l seen', (∃ seen, st_leases st !! n = Some seen ∧ sn_version seen = sn_version seen'
             ∧ sn_first_seen seen = sn_first_seen seen') ∨ seen_ok s n seen' →
    l = <[n := seen']> (st_leases st) → local_ok s L name self st (set_leases st l)) as Hins.
  { intros l seen' Hs ->. apply local_benign; cbn; [done..| |done]. intros m seen2. cbn.
    intros [[<- <-]|[_ Hm]]%lookup_insert_Some; [done|left; by exists seen2]. }
  destruct (st_leases st !! n) as [seen|] eqn:Hs; [destruct (sn_version seen =? version)|].
  - eapply Hins; [|done]. left. by exists seen.
  - eapply Hins; [|done]. by right.
  - eapply Hins; [|done]. by right.
Qed.

End Logic.

#[export] Hint Resolve stable_and stable_pure stable_dead stable_recorded stable_renewed stable_now stable_name
  stable_named stable_owned stable_here stable_listing may_create_stable : own.

(** Proves that an assertion is stable, by its shape. *)
Ltac settle :=
  repeat match goal with
  | _ => assumption
  | |- stable _ _ _ (λ s, _ ∧ _) => apply stable_and
  | |- stable _ _ _ (λ s, ∃ x, _) => apply stable_ex; intros ?
  | |- stable _ _ _ (λ s, ∀ x, _) => first [apply stable_imp; intros ? | apply stable_all; intros ?]
  | _ => solve [eauto with own]
  end.
