(* ===== verification/OwnershipSafety.v ===== *)
(** * OwnershipSafety: a table has one owner

    The operations of [Ownership], proved in the logic of [OwnershipLogic], and the theorem: however
    the calls of any number of processes interleave, fail and lose their answers, no two processes
    hold a table at the same time, in every run that is timely. *)

From S2P Require Import Prelude Text Programs ObjectStore Cron Alarms Ownership OwnershipLogic.

#[local] Open Scope N_scope.

Section Safety.
Context (cfg : LeaseConfig).
Context `{NodeHost}.
Context (Httl : lc_ttl_ms cfg ≠ 0).
Context (p : string) (self : Self).

Abbreviation node pr := (se_node (st_session (pc_state pr))).
Abbreviation held pr := (st_held (pc_state pr)).

(** [keeps L P m E]: [m] keeps the assertion [P] and its locks, and an answer [a] satisfies [E a]. *)
Definition keeps {A} (L : gset string) (P : Sys → Prop) (m : Own A) (E : A → Sys → Prop) : Prop :=
  triple cfg p L P m (λ r L' s, L' = L ∧ P s ∧ ∀ a, r = Ok a → E a s).

Abbreviation steady := (stable cfg p).

Lemma keeps_return {A} L P (r : result OwnError A) (E : A → Sys → Prop) :
  steady L P → (∀ a s, inv cfg s → P s → r = Ok a → E a s) → keeps L P (PReturn r) E.
Proof. intros Hst HE. apply triple_ret; [done|]. intros s Hi HP. split_and!; [done..|]. eauto. Qed.

Lemma keeps_bind {A B} L P (m : Own A) (E : A → Sys → Prop) (f : A → Own B) (E' : B → Sys → Prop) :
  keeps L P m E → (∀ a, keeps L (λ s, P s ∧ E a s) (f a) E') → keeps L P (m ≫= f) E'.
Proof.
  intros Hm Hf. eapply (triple_bind _ _ _ _ _ (λ a s, P s ∧ E a s)).
  - eapply triple_post, Hm. intros [a|e] L' s Hi (-> & HP & HE); [by auto|].
    split_and!; [done..|]. by intros ? ?.
  - intros a. eapply triple_post, Hf. intros r L' s Hi (-> & [HP _] & HE). done.
Qed.

Lemma keeps_weaken {A} L P (m : Own A) (E E' : A → Sys → Prop) :
  (∀ a s, inv cfg s → P s → E a s → E' a s) → keeps L P m E → keeps L P m E'.
Proof. intros HE. apply triple_post. intros r L' s Hi (-> & HP & Ha). split_and!; [done..|]. eauto. Qed.

Lemma keeps_equiv {A} L (P P' : Sys → Prop) (m : Own A) (E : A → Sys → Prop) :
  (∀ s, P s ↔ P' s) → keeps L P' m E → keeps L P m E.
Proof.
  intros Hp Hm s Hi HP. eapply wp_mono, Hm; [|done|by apply Hp].
  intros r L' s' Hi' (-> & HP' & HE). split_and!; [done|by apply Hp|done].
Qed.

(** Nothing is learnt from an answer. *)
Lemma keeps_then {A B} L P (m : Own A) (f : A → Own B) (E : B → Sys → Prop) :
  keeps L P m (λ _ _, True) → (∀ a, keeps L P (f a) E) → keeps L P (m ≫= f) E.
Proof.
  intros Hm Hf. eapply keeps_bind; [done|]. intros a. eapply keeps_equiv, Hf. naive_solver.
Qed.

Lemma keeps_quiet {X} L P (q : OReq X) (E : X → Sys → Prop) :
  steady L P → (∀ x, steady L (E x)) → locks_after q L = L →
  (∀ s c x s', inv cfg s → P s → perform p q c s = Some (x, s') → timely cfg s s' →
     inv cfg s' ∧ (∀ p' L', rely cfg p' L' s s') ∧ E x s') →
  keeps L P (ask q) E.
Proof.
  intros Hst HE HL Hq. apply (triple_quiet cfg p L P q E (λ x, PReturn (Ok x))); [done..|].
  intros x. apply triple_ret; [by apply stable_and|]. intros s _ [HP Hx]. split_and!; [done..|]. by intros ? [= <-].
Qed.

Lemma keeps_look {X} L P (q : OReq X) (E : X → Sys → Prop) :
  steady L P → (∀ x, steady L (E x)) → locks_after q L = L →
  (∀ c x s s', perform p q c s = Some (x, s') → s' = s) →
  (∀ s c x, inv cfg s → P s → perform p q c s = Some (x, s) → E x s) →
  keeps L P (ask q) E.
Proof.
  intros Hst HE HL Hsame Hq. apply keeps_quiet; [done..|]. intros s c x s' Hi HP Hp _.
  pose proof (Hsame _ _ _ _ Hp) as ->. split_and!; [done|intros; apply rely_refl|by eapply Hq].
Qed.

Lemma keeps_try {X} L P (q : OReq (result OwnError X)) (E : X → Sys → Prop) :
  steady L P → (∀ x, steady L (E x)) → locks_after q L = L →
  (∀ c x s s', perform p q c s = Some (x, s') → s' = s) →
  (∀ s c x, inv cfg s → P s → perform p q c s = Some (Ok x, s) → E x s) →
  keeps L P (try_ask q) E.
Proof.
  intros Hst HE HL Hsame Hq.
  apply (triple_quiet cfg p L P q (λ r s, ∀ x, r = Ok x → E x s) PReturn); [done..| |].
  - intros s c x s' Hi HP Hp _. pose proof (Hsame _ _ _ _ Hp) as ->.
    split_and!; [done|intros; apply rely_refl|]. intros a ->. by eapply Hq.
  - intros r. apply triple_ret.
    + apply stable_and; [done|]. intros s s' Hs Hr Hi a Ha. by eapply HE; [by apply Hs|..].
    + intros s _ [HP Hx]. split_and!; [done..|]. auto.
Qed.

Lemma keeps_now L P : steady L P → keeps L P (ask Now) (λ x s, x ≤ sy_now s).
Proof.
  intros Hst. apply keeps_look; [done|auto with own|done|by intros c x s s' [= <- <-]|]. by intros s c x _ _ [= <-].
Qed.

Lemma keeps_block {X} L P (b : Host → State → X * State) (E : X → Sys → Prop) :
  steady L P → (∀ x, steady L (E x)) → (∀ s, P s → here p self s) →
  (∀ s h pr, inv cfg s → P s → sy_procs s !! p = Some pr → h_now h = sy_now s →
     let name := session_name (sf_node_id self) (h_uuid h) in
     local_ok cfg s ∅ name self (pc_state pr) (b h (pc_state pr)).2
     ∧ (sy_names s !! name = None → let s' := set_proc s p (mkProc self (b h (pc_state pr)).2) name in
        inv cfg s' → P s' → E (b h (pc_state pr)).1 s')) →
  keeps L P (locked b) E.
Proof.
  intros Hst HE Hhere Hb. apply (triple_block cfg p L self P b E (λ x, PReturn (Ok x))); [done..|].
  intros x. apply triple_ret; [by apply stable_and|]. intros s _ [HP Hx]. split_and!; [done..|]. by intros ? [= <-].
Qed.

(** A block about which only its being allowed matters. *)
Lemma keeps_any_block {X} L P (b : Host → State → X * State) :
  steady L P → (∀ s, P s → here p self s) →
  (∀ s h st, inv cfg s → P s → h_now h = sy_now s →
     local_ok cfg s ∅ (session_name (sf_node_id self) (h_uuid h)) self st (b h st).2) →
  keeps L P (locked b) (λ _ _, True).
Proof. intros Hst Hhere Hb. apply keeps_block; [done|auto with own|done|]. intros s h pr Hi HP _ Hh. split; [by apply Hb|done]. Qed.

Lemma keeps_read {X} L P (g : State → X) : steady L P → (∀ s, P s → here p self s) → keeps L P (read g) (λ _ _, True).
Proof. intros Hst Hhere. apply keeps_any_block; [done..|]. intros. apply local_refl. Qed.

(** A block that changes none of the session, the tables, the leases and the dead sessions. *)
Lemma keeps_modify L P (g : State → State) :
  steady L P → (∀ s, P s → here p self s) →
  (∀ st, st_session (g st) = st_session st ∧ st_held (g st) = st_held st ∧ st_leases (g st) = st_leases st
         ∧ st_dead (g st) = st_dead st) →
  keeps L P (modify g) (λ _ _, True).
Proof.
  intros Hst Hhere Hg. apply keeps_any_block; [done..|]. intros s h st _ _ _. destruct (Hg st) as (? & ? & ? & ?).
  apply local_benign; [done..| |done]. by apply leases_same.
Qed.

Lemma keeps_all {A} L P (q : A → OReq unit) l :
  steady L P → (∀ a, a ∈ l → keeps L P (ask (q a)) (λ _ _, True)) → keeps L P (ask_all q l) (λ _ _, True).
Proof.
  intros Hst Hq. induction l as [|a l IH]; cbn [ask_all]; [by apply keeps_return|].
  eapply keeps_then; [apply Hq; by left|]. intros _. apply IH. intros b Hb. apply Hq. by right.
Qed.

Lemma keeps_delete L P n : steady L P → keeps L P (ask (DeleteLease n)) (λ _ _, True).
Proof.
  intros Hst. apply keeps_quiet; [done|auto with own|done|]. intros s c x s' Hi _ Hp Ht. cbn in Hp.
  destruct (ch_outcome c) as [|[]|]; injection Hp as _ <-.
  - destruct (drop_ok cfg s n Httl Hi Ht). auto.
  - destruct (drop_ok cfg s n Httl Hi Ht). auto.
  - split_and!; [done|intros; apply rely_refl|done].
  - destruct (late_ok cfg s (sy_late s ++ [LateDelete n]) Hi). auto.
Qed.

(** ** Renewing *)

Lemma keeps_put L P deadline r issued :
  steady L P → (∀ s, P s → is_Some (sy_names s !! le_node r) ∧ issued ≤ sy_now s) →
  keeps L P (ask (PutLease deadline r)) (λ w s, w = Ok tt → renewed cfg s (le_node r) issued).
Proof.
  intros Hst HP. apply keeps_quiet; [done|intros; settle|done|]. intros s c x s' Hi Hs Hp _.
  destruct (HP s Hs) as [Hn Hle]. destruct (land_ok cfg s r Hi) as [Hi' Hr'].
  assert (renewed cfg (land_lease s r) (le_node r) issued) as Hren.
  { split_and!; [done..|]. cbn. intros _ _. rewrite lookup_insert_eq. by eexists. }
  cbn in Hp. destruct (ch_outcome c) as [|[]|].
  - destruct (_ <=? _); [|done]. injection Hp as <- <-. done.
  - injection Hp as <- <-. done.
  - injection Hp as <- <-. split_and!; [done|intros; apply rely_refl|done].
  - injection Hp as <- <-. by destruct (late_ok cfg s (sy_late s ++ [LatePut r]) Hi).
Qed.

Lemma keeps_renew L P : steady L P → (∀ s, P s → here p self s) → keeps L P (renew cfg self) (λ _ _, True).
Proof.
  intros Hst Hhere. unfold renew. eapply keeps_bind; [by apply keeps_now|]. intros issued.
  eapply (keeps_bind _ _ _ (λ r s, ∀ x, r = Some x → is_Some (sy_names s !! le_node x.1))).
  { apply keeps_block; [settle|intros; settle|naive_solver|].
    intros s h pr Hi [HP _] Hpr Hh name. split; [apply prepare_local|]. intros Hname s' Hi' _ x Hx.
    exists p. assert (le_node x.1 = node (mkProc self (renew_prepare cfg self h (pc_state pr)).2)) as ->.
    { unfold renew_prepare in *. destruct (se_retired _); [done|]. cbn in *. by simplify_eq. }
    apply (inv_names _ _ Hi'). cbn. by rewrite lookup_insert_eq. }
  intros [[r abandoned]|]; [|apply keeps_return; [settle|done]].
  eapply keeps_then; [apply keeps_all; [settle|]; intros; apply keeps_delete; settle|]. intros _.
  eapply keeps_bind; [apply keeps_now; settle|]. intros timer.
  eapply keeps_bind; [apply (keeps_put _ _ _ r issued); [settle|]; naive_solver|]. intros written.
  apply keeps_any_block; [settle|naive_solver|]. intros s h st Hi [_ Hw] _. by apply count_local.
Qed.

(** ** Reading the bucket *)

(** What reading version [k] learns. *)
Definition version_read (t : string) (k : N) (o : option OwnerRecord) (s : Sys) : Prop :=
  ∀ r, o = Some r → k ≤ newest s t ∧ (newest s t = k → versions_of s t !! newest s t = Some r)
                    ∧ (ow_node r = "" ∨ recorded s (ow_node r)).

Lemma stable_version_read L t k o : steady L (version_read t k o).
Proof.
  intros s s' Ho Hr Hi r Hor. destruct (Ho r Hor) as (Hle & Hat & Hn).
  pose proof (rely_newest _ _ _ _ _ Hr t). split_and!; [lia| |].
  - intros He. assert (newest s' t = newest s t) as Hs by lia.
    rewrite Hs, (rely_latest _ _ _ _ _ Hr t Hs). apply Hat. lia.
  - destruct Hn; [by left|right]. by apply Hr.
Qed.

#[local] Hint Resolve stable_version_read : own.

Lemma keeps_read_version L P t k : steady L P → keeps L P (read_version t k) (version_read t k).
Proof.
  intros Hst. unfold read_version.
  eapply (keeps_bind _ _ _ (λ (o : result StoreError OwnerRecord), version_read t k (match o with Ok r => Some r | _ => None end))).
  { apply keeps_look; [done|intros; settle|done| |].
    - intros c x s s' Hp. cbn in Hp. unfold served_get in Hp. by destruct (ch_outcome c); simplify_eq.
    - intros s c x Hi _ Hp r Hx. cbn in Hp. unfold served_get in Hp. destruct (ch_outcome c); simplify_eq; [|done..].
      destruct (versions_of s t !! k) as [r'|] eqn:Hr; simplify_eq/=.
      split_and!; [by eapply newest_le|by intros ->|by apply (inv_record _ _ Hi) in Hr as [_ ?]]. }
  intros [r|e]; [apply keeps_return; [settle|]|].
  - by intros a s _ [_ Hr] [= <-].
  - destruct e; (apply keeps_return; [settle|]); intros a s _ _ ?; by simplify_eq.
Qed.

(** What [read_latest] learns: the newest version, as long as there is no newer one. *)
Definition latest_read (t : string) (x : N * option OwnerRecord) (s : Sys) : Prop :=
  x.1 ≤ newest s t ∧ (newest s t = x.1 → versions_of s t !! newest s t = x.2)
  ∧ ∀ r, x.2 = Some r → ow_node r = "" ∨ recorded s (ow_node r).

Lemma stable_latest_read L t x : steady L (latest_read t x).
Proof.
  intros s s' (Hle & Hat & Hn) Hr Hi. pose proof (rely_newest _ _ _ _ _ Hr t). split_and!; [lia| |].
  - intros He. assert (newest s' t = newest s t) as Hs by lia.
    rewrite Hs, (rely_latest _ _ _ _ _ Hr t Hs). apply Hat. lia.
  - intros r Hx. destruct (Hn r Hx); [by left|right]. by apply Hr.
Qed.

#[local] Hint Resolve stable_latest_read : own.

Lemma keeps_list L P t (E : list N → Sys → Prop) :
  steady L P → (∀ l, steady L (E l)) →
  (∀ s, inv cfg s → P s → E (map_to_list (versions_of s t)).*1 s) →
  keeps L P (try_ask (ListVersions t)) E.
Proof.
  intros Hst HE Hl. apply keeps_try; [done..| |].
  - intros c x s s' Hp. cbn in Hp. unfold served in Hp. by destruct (ch_outcome c); simplify_eq.
  - intros s c x Hi HP Hp. cbn in Hp. unfold served in Hp. destruct (ch_outcome c); simplify_eq. auto.
Qed.

Lemma keeps_read_latest_loop L t attempts P :
  steady L P → (∀ s, P s → here p self s) → keeps L P (read_latest_loop attempts t) (latest_read t).
Proof.
  revert P. induction attempts as [|attempts IH]; intros P Hst Hhere; cbn [read_latest_loop]; [by apply keeps_return|].
  eapply (keeps_bind _ _ _ (λ l s, newest_version l = 0 → latest_read t (0, None) s)).
  { apply keeps_list; [done|intros; settle|]. intros s Hi _ Hz. change (newest s t = 0) in Hz.
    split_and!; cbn; [lia| |done]. intros _. destruct (versions_of s t !! newest s t) as [r|] eqn:Hr; [|done].
    apply (inv_record _ _ Hi) in Hr as [? _]. lia. }
  intros l. destruct (N.eqb_spec (newest_version l) 0) as [Hz|Hz].
  - eapply keeps_then; [apply keeps_modify; [settle|naive_solver|done]|]. intros _.
    apply keeps_return; [settle|]. intros a s _ [_ Hl] [= <-]. auto.
  - eapply keeps_bind; [apply keeps_read_version; settle|]. intros [r|].
    + eapply keeps_then; [apply keeps_modify; [settle|naive_solver|done]|]. intros _.
      apply keeps_return; [settle|]. intros a s _ [_ Hv] [= <-]. destruct (Hv r eq_refl) as (? & ? & ?).
      split_and!; [done..|]. by intros ? [= <-].
    + apply IH; [settle|naive_solver].
Qed.

Lemma keeps_read_latest L t P :
  steady L P → (∀ s, P s → here p self s) → keeps L P (read_latest t) (latest_read t).
Proof. apply keeps_read_latest_loop. Qed.

(** ** Sampling *)

Lemma keeps_bodies L nodes bodies P : steady L P → keeps L P (read_bodies nodes bodies) (λ _ _, True).
Proof.
  intros Hst. revert bodies. induction nodes as [|n nodes IH]; intros bodies; cbn [read_bodies]; [by apply keeps_return|].
  eapply keeps_then; [|intros; apply IH]. apply keeps_look; [done|intros; settle|done| |done].
  intros c x s s' Hp. cbn in Hp. unfold served_get in Hp. by destruct (ch_outcome c); simplify_eq.
Qed.

Lemma keeps_stale L stale P : steady L P → (∀ s, P s → here p self s) → keeps L P (read_stale stale) (λ _ _, True).
Proof.
  revert P. induction stale as [|[t k] stale IH]; intros P Hst Hhere; cbn [read_stale]; [by apply keeps_return|].
  eapply keeps_bind; [by apply keeps_read_version|]. intros o.
  eapply (keeps_then _ _ (match o with Some record => _ | None => _ end)); [|intros; apply IH; [settle|naive_solver]].
  destruct o; [apply keeps_modify; [settle|naive_solver|done]|apply keeps_return; [settle|done]].
Qed.

Lemma keeps_sample L P : steady L P → (∀ s, P s → here p self s) → keeps L P (sample cfg) (λ _ _, True).
Proof.
  intros Hst Hhere. unfold sample. eapply keeps_then; [eapply keeps_weaken, keeps_now; [done|settle]|]. intros before.
  eapply (keeps_bind _ _ _ (λ present s, ∃ T, listing_ok present T s)).
  { apply keeps_try; [done|intros; settle|done| |].
    - intros c x s s' Hp. cbn in Hp. unfold served in Hp. by destruct (ch_outcome c); simplify_eq.
    - intros s c x Hi _ Hp. cbn in Hp. unfold served in Hp. destruct (ch_outcome c); simplify_eq.
      exists (sy_now s). split; [done|]. intros n v. rewrite lookup_fmap. intros (o & Ho & ->)%fmap_Some_1.
      destruct (inv_lease _ _ Hi _ _ Ho). split; [done|]. intros o' Ho' _. by destruct (inv_lease _ _ Hi _ _ Ho'). }
  intros present. eapply (keeps_bind _ _ _ (λ T, listing_ok present T)).
  { apply keeps_look; [settle|intros; settle|done|by intros c x s s' [= <- <-]|].
    intros s c x _ [_ (T & HT & Hl)] [= <-]. split; [done|]. intros n v Hn. destruct (Hl n v Hn) as [? Ho].
    split; [done|]. intros o Ho' Hv. specialize (Ho o Ho' Hv). lia. }
  intros listed_at. eapply keeps_then; [apply keeps_read; [settle|naive_solver]|]. intros changed.
  eapply keeps_then; [apply keeps_bodies; settle|]. intros bodies.
  eapply keeps_then; [apply keeps_any_block; [settle|naive_solver|]; intros s h st _ [_ Hl] _; by apply merge_local|].
  intros expired. eapply keeps_then; [apply keeps_all; [settle|]; intros; apply keeps_delete; settle|]. intros _.
  eapply keeps_then; [apply keeps_try; [settle|intros; settle|done| |done]|].
  { intros c x s s' Hp. cbn in Hp. unfold served in Hp. by destruct (ch_outcome c); simplify_eq. }
  intros records. eapply keeps_then; [apply keeps_read; [settle|naive_solver]|]. intros stale.
  eapply keeps_then; [apply keeps_stale; [settle|naive_solver]|]. intros _.
  apply keeps_modify; [settle|naive_solver|done].
Qed.

(** ** Judging a lease *)

Section Liveness.
Context (n : string) (K : Prop).

(** Under [K]: once version [v] was read from the bucket, an entry with that version that is
    a verdict older than [before] belongs to a dead session. *)
Definition got_lease (v before : N) (s : Sys) : Prop :=
  here p self s ∧ before ≤ sy_now s ∧ v < sy_version s
  ∧ (K → recorded s n ∧ ∀ pr seen, sy_procs s !! p = Some pr → st_leases (pc_state pr) !! n = Some seen →
       sn_version seen = v → sn_first_seen seen + verdict cfg ≤ before → dead cfg s n).

(** Under [K]: the entry of the process, judged at [T], is right about the session. *)
Definition judged (T : N) (s : Sys) : Prop :=
  here p self s ∧ T ≤ sy_now s
  ∧ (K → recorded s n ∧ ∀ pr, sy_procs s !! p = Some pr →
       match st_leases (pc_state pr) !! n with
       | Some seen => sn_first_seen seen + verdict cfg ≤ T → dead cfg s n
       | None => dead cfg s n
       end).

Lemma stable_got L v before : steady L (got_lease v before).
Proof.
  intros s s' (Hh & Hb & Hv & HK) Hr Hi. split_and!; [by eapply stable_here| | |].
  - pose proof (rely_now _ _ _ _ _ Hr). lia.
  - pose proof (rely_version _ _ _ _ _ Hr). lia.
  - intros HK'. destruct (HK HK') as [Hrec Hd]. split; [by apply Hr|]. intros pr' seen' Hpr' Hs' Hsv Hf.
    destruct Hh as (pr & Hpr & _). destruct (rely_proc _ _ _ _ _ Hr _ Hpr) as (pr2 & Hpr2 & _ & _ & Hseen & _).
    assert (pr2 = pr') as -> by congruence. destruct (Hseen n seen' Hs') as [(seen & Hs & He1 & He2)|Hlt]; [|lia].
    apply Hr. eapply Hd; [done..|congruence|lia].
Qed.

Lemma stable_judged L T : steady L (judged T).
Proof.
  intros s s' (Hh & Hb & HK) Hr Hi. split_and!; [by eapply stable_here| |].
  - pose proof (rely_now _ _ _ _ _ Hr). lia.
  - intros HK'. destruct (HK HK') as [Hrec Hd]. split; [by apply Hr|]. intros pr' Hpr'.
    destruct Hh as (pr & Hpr & _). destruct (rely_proc _ _ _ _ _ Hr _ Hpr) as (pr2 & Hpr2 & _ & _ & Hseen & Hgone).
    assert (pr2 = pr') as -> by congruence. specialize (Hd pr Hpr).
    destruct (st_leases (pc_state pr') !! n) as [seen'|] eqn:Hs'.
    + intros Hf. destruct (Hseen n seen' Hs') as [(seen & Hs & He1 & He2)|Hlt]; [|lia].
      rewrite Hs in Hd. apply Hr, Hd. lia.
    + destruct (Hgone n Hs') as [Hs|Hdead]; [|auto]. rewrite Hs in Hd. by apply Hr.
Qed.

#[local] Hint Resolve stable_got stable_judged : own.

Lemma keeps_get_lease L P before :
  steady L P → (∀ s, P s → here p self s ∧ before ≤ sy_now s) → (K → ∀ s, P s → recorded s n) →
  keeps L P (ask (GetLease n)) (λ got s,
    match got with
    | Ok (v, _) => got_lease v before s
    | Err _ => got = Err NotFound → K → dead cfg s n
    end).
Proof.
  intros Hst HP HK. apply keeps_look; [done| |done| |].
  - intros [[v r]|e]; settle.
  - intros c x s s' Hp. cbn in Hp. unfold served_get in Hp. by destruct (ch_outcome c); simplify_eq.
  - intros s c x Hi Hs Hp. destruct (HP s Hs) as [Hh Hb]. cbn in Hp. unfold served_get in Hp.
    destruct (ch_outcome c); simplify_eq; [|done..].
    destruct (sy_leases s !! n) as [o|] eqn:Ho; cbn in *; simplify_eq; [|intros _ HK'; apply absent_dead; auto].
    destruct (inv_lease _ _ Hi _ _ Ho) as [Hl Hv]. split_and!; [done..|]. intros HK'. specialize (HK HK' s Hs).
    split; [done|]. intros pr seen Hpr Hseen Hsv Hf.
    destruct (inv_seen _ _ Hi _ _ _ _ Hpr Hseen) as (_ & _ & Hland). specialize (Hland o Ho ltac:(congruence)).
    destruct HK as [Hn Hc]. split; [done|]. intros q prq Hq Heq. destruct (se_retired (st_session (pc_state prq))) eqn:Hret; [by left|right].
    destruct (Hc q prq Hq Heq) as [|[a Ha]]; [congruence|]. exists a. split; [done|].
    destruct (N.le_gt_cases (a + verdict cfg) (sy_now s)); [done|].
    destruct (inv_alive _ _ Hi _ _ _ Hq Hret Ha) as [_ (o' & Ho' & Hao)]; [done|]. rewrite Heq in Ho'. simplify_eq. lia.
Qed.

Lemma keeps_see L P v lease before now :
  steady L P → (∀ s, P s → got_lease v before s ∧ now ≤ sy_now s) →
  keeps L P (locked (see_lease n v lease)) (λ same s, judged (if same : bool then before else now) s).
Proof.
  intros Hst HP. apply keeps_block; [done|intros; settle|by intros s (Hg & _)%HP; apply Hg|].
  intros s h pr Hi Hs Hpr Hh name. destruct (HP s Hs) as [(_ & _ & Hv & _) Hnow]. split.
  { apply see_local; [done| |done]. intros o Ho. rewrite Hh. by destruct (inv_lease _ _ Hi _ _ Ho). }
  intros Hname s' Hi' Hs'. destruct (HP _ Hs') as [(Hh' & Hb' & _ & HK) Hnow']. split_and!; [done|by destruct (_.1)|].
  intros HK'. destruct (HK HK') as [Hrec Hd]. split; [done|]. intros pr' Hpr'.
  assert (pr' = mkProc self (see_lease n v lease h (pc_state pr)).2) as ->.
  { unfold s' in Hpr'. cbn in Hpr'. rewrite lookup_insert_eq in Hpr'. congruence. }
  specialize (λ seen, Hd _ seen Hpr') as Hd0. clear Hd.
  assert (verdict cfg ≠ 0) as Hvd by (unfold verdict; lia). unfold see_lease in *.
  destruct (st_leases (pc_state pr) !! n) as [seen|] eqn:Hseen; [destruct (N.eqb_spec (sn_version seen) v) as [Hsv|Hsv]|]; cbn in *;
    rewrite lookup_insert_eq in Hd0 |- *; cbn; [|lia..].
  by apply (Hd0 _ eq_refl).
Qed.

Lemma keeps_judge L P T (W : Prop) :
  steady L P → (∀ s, P s → here p self s) → (W → ∀ s, P s → judged T s) →
  keeps L P (read (judge cfg n T)) (λ l s, K → W → match l with Live _ _ => True | _ => dead cfg s n end).
Proof.
  intros Hst Hhere HP. apply keeps_block; [done|intros [| |]; settle|done|].
  intros s h pr Hi Hs Hpr Hh name. split; [apply local_refl|]. intros Hname s' Hi' Hs' HK HW.
  destruct (HP HW _ Hs') as (_ & _ & Hj). destruct (Hj HK) as [_ Hd].
  specialize (Hd (mkProc self (pc_state pr))). unfold judge. cbn in *. rewrite lookup_insert_eq in Hd. specialize (Hd eq_refl).
  cbn in Hd. destruct (st_leases (pc_state pr) !! n) as [seen|]; [|done].
  destruct (N.leb_spec (verdict cfg) (T - sn_first_seen seen)); [|done]. apply Hd. unfold verdict in *. lia.
Qed.

Lemma keeps_liveness L P fresh :
  steady L P → (∀ s, P s → here p self s) → (K → ∀ s, P s → recorded s n) →
  keeps L P (liveness cfg n fresh)
    (λ l s, K → fresh = true → match l with Live _ _ => True | _ => dead cfg s n end).
Proof.
  intros Hst Hhere HK. unfold liveness. eapply (keeps_bind _ _ _ (λ d s, d = true → dead cfg s n)).
  { apply keeps_block; [done|intros; settle|done|]. intros s h pr Hi Hs Hpr Hh name. split; [apply local_refl|].
    intros Hname s' Hi' Hs' Hd. cbn in Hd. bool_facts. eapply (inv_dead _ _ Hi' p (mkProc self (pc_state pr))); [|done].
    cbn. by rewrite lookup_insert_eq. }
  intros []; [apply keeps_return; [settle|]; intros a s _ [_ Hd] [= <-]; auto|].
  eapply keeps_then; [apply keeps_read; [settle|naive_solver]|]. intros known.
  eapply keeps_bind; [apply keeps_now; settle|]. intros now.
  destruct (fresh || negb known) eqn:Hf.
  - eapply keeps_bind; [apply keeps_now; settle|]. intros before.
    eapply keeps_bind; [apply (keeps_get_lease _ _ before); [settle|naive_solver..]|]. intros [[v lease]|e].
    + eapply keeps_bind; [apply (keeps_see _ _ v lease before now); [settle|naive_solver]|]. intros same.
      apply keeps_weaken with (E := λ l s, K → True → match l with Live _ _ => True | _ => dead cfg s n end); [naive_solver|].
      apply keeps_judge; [settle|naive_solver..].
    + destruct e; [|apply keeps_return; [settle|naive_solver]..].
      eapply keeps_then; [apply keeps_any_block; [settle|naive_solver|]|].
      * intros s h st _ _ _. apply local_benign; cbn; [done..| |done]. intros m seen'. cbn.
        intros [_ Hm]%lookup_delete_Some. left. by exists seen'.
      * intros _. apply keeps_return; [settle|]. intros a s _ [_ Hd] [= <-]. auto.
  - apply orb_false_iff in Hf as [-> _].
    apply keeps_weaken with (E := λ l s, K → False → match l with Live _ _ => True | _ => dead cfg s n end); [naive_solver|].
    apply keeps_judge; [settle|naive_solver..].
Qed.

End Liveness.

(** ** Writing a version *)

(** Version [sq] was written in the name of session [me]; it is the newest, or has been followed. *)
Definition written (t : string) (sq : N) (me : string) (r : OwnerRecord) (s : Sys) : Prop :=
  here p self s ∧ sy_names s !! me = Some p ∧ recorded s me ∧ latest_read t (sq, Some r) s.

Lemma stable_written L t sq me r : steady L (written t sq me r).
Proof. unfold written. settle. Qed.

#[local] Hint Resolve stable_written : own.

Definition may_write (t : string) (sq : N) (me : string) (r : OwnerRecord) (s : Sys) : Prop :=
  here p self s ∧ may_create cfg p s t sq me r.

Lemma stable_may_write L t sq me r : t ∈ L → steady L (may_write t sq me r).
Proof. intros Ht. unfold may_write. settle. Qed.

#[local] Hint Resolve stable_may_write : own.

Lemma create_step L t sq me r s c x s' :
  t ∈ L → inv cfg s → may_write t sq me r s → perform p (CreateVersion t sq r) c s = Some (x, s') →
  inv cfg s' ∧ guarantee cfg p L s s' ∧ here p self s' ∧ (x = Ok tt → written t sq me r s').
Proof.
  intros Ht Hi [Hh Hmc] Hp.
  assert (∀ s2, s2 = s → x ≠ Ok tt →
    inv cfg s2 ∧ guarantee cfg p L s s2 ∧ here p self s2 ∧ (x = Ok tt → written t sq me r s2)) as Hsame.
  { intros s2 -> Hx. split_and!; [done|intros p' L' _; apply rely_refl|done|done]. }
  assert (versions_of s t !! sq = None → let s2 := set_versions s t (<[sq := r]> (versions_of s t)) in
    inv cfg s2 ∧ guarantee cfg p L s s2 ∧ here p self s2 ∧ (x = Ok tt → written t sq me r s2)) as Hnew.
  { intros Habs s2. pose proof (create_inv cfg s p t sq me r Hi Hmc Habs) as Hi2.
    pose proof (create_guarantee cfg s p t sq me r Hi Hmc Habs L Ht) as Hg. split_and!; [done..|]. intros _.
    destruct (create_written cfg s p t sq me r Hmc Habs) as [Hle Hat]. unfold written. split; [done|split; [apply Hmc|split; [apply Hmc|]]].
    split_and!; cbn; [done|intros Hq; rewrite Hq; by apply Hat|]. intros ? [= <-].
    destruct (mc_node _ _ _ _ _ _ _ Hmc) as [->|[-> _]]; [right; apply Hmc|by left]. }
  cbn in Hp. destruct (ch_outcome c) as [|applied|]; [| |done].
  - injection Hp as Hp. case_bool_decide as Habs; simplify_eq; [by apply Hnew|by apply Hsame].
  - injection Hp as <- <-. destruct applied; cbn; [|by apply Hsame].
    case_bool_decide as Habs; [by apply Hnew|by apply Hsame].
Qed.

Lemma keeps_remove L P t k :
  steady L P → (∀ s, P s → k < newest s t) → keeps L P (ask (DeleteVersion t k)) (λ _ _, True).
Proof.
  intros Hst HP. apply keeps_quiet; [done|intros; settle|done|]. intros s c x s' Hi Hs Hp _.
  destruct (remove_ok cfg s t k Hi (HP s Hs)). cbn in Hp.
  destruct (ch_outcome c) as [|[]|]; injection Hp as _ <-; try done;
    split_and!; try done; intros; apply rely_refl.
Qed.

Lemma triple_write L t sq me r :
  t ∈ L → triple cfg p L (may_write t sq me r) (write_version t sq r)
    (λ res L' s, L' = L ∧ here p self s
       ∧ ∀ b, res = Ok b → b = true → written t sq me r s ∧ (ow_node r = me → owned cfg s p me t)).
Proof.
  intros Ht. unfold write_version.
  apply (triple_ask _ _ _ _ _ (λ x s, here p self s ∧ (x = Ok tt → written t sq me r s))); [settle| |].
  { intros s c x s' Hi HP Hp _. by eapply create_step. }
  intros [[]|e]; cbn [locks_after].
  2: { destruct e; (apply triple_ret; [settle|]); (intros s _ [Hh _]; split_and!; [done..|]); by intros b [= <-]. }
  apply triple_pre with (P' := λ s, written t sq me r s); [naive_solver|].
  assert (keeps L (written t sq me r) (versions ← try_ask (ListVersions t);
    if negb (bool_decide (max_by (λ a b : N, b <=? a) versions = Some sq)) then ret false
    else _ ← ask_all (DeleteVersion t) (filter (λ v, v + 1 < sq) versions);
         _ ← modify (λ st, set_records st (<[t := (sq, r)]> (st_records st))); ret true)
    (λ b s, b = true → ow_node r = me → owned cfg s p me t)) as Hk.
  2: { eapply triple_post, Hk. intros res L' s _ (-> & Hw & Hb). split_and!; [done|apply Hw|].
       intros b Hres Hbt. split; [done|by apply (Hb b)]. }
  eapply (keeps_bind _ _ _ (λ l s, max_by (λ a b : N, b <=? a) l = Some sq → ow_node r = me → owned cfg s p me t)).
  { apply keeps_list; [settle|intros; settle|]. intros s Hi (_ & Hn & [_ Hc] & _ & Hat & _) Hmax Hme.
    assert (newest s t = sq) as Hnew by (unfold newest, newest_version; by rewrite Hmax).
    split; [by eexists|]. intros pr Hpr Heq. split; [by eapply Hc|]. intros _. unfold latest_node.
    rewrite (Hat Hnew). cbn. by rewrite Hme. }
  intros l. case_bool_decide as Hmax; cbn [negb]; [|apply keeps_return; [settle|naive_solver]].
  eapply keeps_then.
  { apply keeps_all; [settle|]. intros v [Hv _]%list_elem_of_filter. apply keeps_remove; [settle|].
    intros s [(_ & _ & _ & Hle & _) _]. cbn in Hle. lia. }
  intros _. eapply keeps_then; [apply keeps_modify; [settle|by intros s [Hw _]; apply Hw|done]|]. intros _.
  apply keeps_return; [settle|]. intros b s _ [_ Hown] [= <-] _. auto.
Qed.

(** ** Operations *)

Definition any {A} : result OwnError A → gset string → Sys → Prop := λ _ _ _, True.

Lemma keeps_any {A} L P (m : Own A) E : keeps L P m E → triple cfg p L P m any.
Proof. intros Hm. eapply triple_post, Hm. done. Qed.

Lemma keeps_seq {A B} L P (m : Own A) (E : A → Sys → Prop) (f : A → Own B) :
  keeps L P m E → (∀ a, triple cfg p L (λ s, P s ∧ E a s) (f a) any) → triple cfg p L P (m ≫= f) any.
Proof.
  intros Hm Hf. eapply triple_bind; [|exact Hf]. eapply triple_post, Hm.
  intros [a|e] L' s Hi (-> & HP & HE); split; auto; done.
Qed.

Lemma triple_any_ret {A} L P (r : result OwnError A) : triple cfg p L P (PReturn r) any.
Proof. by intros s _ _ s' _ _. Qed.

Lemma keeps_auth_block {X} L P (g : bool → State → X) :
  steady L P → (∀ s, P s → here p self s) →
  keeps L P (locked (λ h st, let '(a, st) := authoritative_locked cfg self h st in (g a st, st))) (λ _ _, True).
Proof. intros Hst Hhere. apply keeps_any_block; [done..|]. intros. apply auth_block_local. Qed.

Lemma keeps_holds L P t : steady L P → (∀ s, P s → here p self s) → keeps L P (holds cfg self t) (λ _ _, True).
Proof. apply (keeps_auth_block (X := option N) L P (λ a st, if a then he_epoch <$> st_held st !! t else None)). Qed.

Lemma keeps_me L P :
  steady L P → (∀ s, P s → here p self s) →
  keeps L P (read (λ st, se_node (st_session st))) (λ me s, sy_names s !! me = Some p).
Proof.
  intros Hst Hhere. apply keeps_block; [done|intros; settle|done|]. intros s h pr Hi Hs Hpr Hh name.
  split; [apply local_refl|]. intros Hname s' Hi' _. cbn.
  apply (inv_names _ _ Hi' p (mkProc self (pc_state pr))). cbn. by rewrite lookup_insert_eq.
Qed.

Lemma keeps_verdict L P n fresh (K : Prop) :
  steady L P → (∀ s, P s → here p self s) → (K → ∀ s, P s → recorded s n) →
  keeps L P (lease_verdict cfg n fresh) (λ v s, K → fresh = true → v = None → dead cfg s n).
Proof.
  intros Hst Hhere HK. unfold lease_verdict. eapply keeps_bind; [by apply (keeps_liveness n K)|].
  intros l. apply keeps_return; [|intros a s _ [_ Hl] [= <-] HK' Hf; destruct l; naive_solver].
  destruct l; settle.
Qed.

(** What a process holds after a version was written in its name. *)
Lemma insert_local s L t me r h pr st' name :
  inv cfg s → t ∈ L → sy_procs s !! p = Some pr → node pr = me →
  written t (he_seq h) me r s → ow_node r = me → owned cfg s p me t →
  st_session st' = st_session (pc_state pr) → st_held st' = <[t := h]> (held pr) →
  st_leases st' = st_leases (pc_state pr) → st_dead st' = st_dead (pc_state pr) →
  local_ok cfg s L name self (pc_state pr) st'.
Proof.
  intros Hi Ht Hpr Hme (_ & _ & _ & Hle & Hat & _) Hrn [_ Hown] Hs Hh Hl Hd. destruct (Hown pr Hpr Hme) as [Hc Hal].
  apply local_same; rewrite ?Hs, ?Hd; auto; [| |by apply leases_same].
  - intros t' Ht'. rewrite Hh, lookup_insert_ne; [done|]. by intros ->.
  - intros t' h' _. rewrite Hh. intros [[<- <-]|[_ Ho]]%lookup_insert_Some; [right|by left].
    assert (node (mkProc self st') = me) as Hn' by (cbn; by rewrite Hs). rewrite <- Hn' in *.
    split_and!; [by unfold counted; cbn; rewrite Hs|done| |].
    + intros He. unfold latest_node. rewrite (Hat He). cbn in *. by rewrite Hrn.
    + intros Halive. apply Hal. unfold alive in *. cbn in Halive. by rewrite Hs in Halive.
Qed.

Lemma delete_local s L t st st' name :
  t ∈ L → st_session st' = st_session st → st_held st' = delete t (st_held st) →
  st_leases st' = st_leases st → st_dead st' = st_dead st → local_ok cfg s L name self st st'.
Proof.
  intros Ht Hs Hh Hl Hd. apply local_same; rewrite ?Hs, ?Hd; auto; [| |by apply leases_same].
  - intros t' Ht'. rewrite Hh, lookup_delete_ne; [done|]. by intros ->.
  - intros t' h' _. rewrite Hh. intros [_ Ho]%lookup_delete_Some. by left.
Qed.

Lemma keep_or_drop_local s L t me r wrote h hd pr :
  inv cfg s → t ∈ L → sy_procs s !! p = Some pr → ow_node r = me →
  (wrote = true → written t (he_seq hd) me r s ∧ owned cfg s p me t) →
  local_ok cfg s L (session_name (sf_node_id self) (h_uuid h)) self (pc_state pr) (keep_or_drop t me wrote hd h (pc_state pr)).2.
Proof.
  intros Hi Ht Hpr Hr Hw. unfold keep_or_drop. destruct wrote; cbn [negb orb]; [|by eapply delete_local].
  case_bool_decide as Hme; cbn [negb]; [|by eapply delete_local]. destruct (Hw eq_refl). by eapply insert_local.
Qed.

(** Writing, and what the rest may build on. *)
Lemma triple_written {A} L t sq me r (k : bool → Own A) :
  t ∈ L → ow_node r = me →
  (∀ wrote, triple cfg p L (λ s, here p self s ∧ (wrote = true → written t sq me r s ∧ owned cfg s p me t)) (k wrote) any) →
  triple cfg p L (may_write t sq me r) (wrote ← write_version t sq r; k wrote) any.
Proof.
  intros Ht Hr Hk.
  apply (triple_bind _ _ _ _ _ (λ wrote s, here p self s ∧ (wrote = true → written t sq me r s ∧ owned cfg s p me t))); [|done].
  eapply triple_post, (triple_write L t sq me r Ht). intros [wrote|e] L' s Hi (-> & Hh & Hw); (split; [done|]); [|done].
  split; [done|]. intros Hwt. destruct (Hw _ eq_refl Hwt). auto.
Qed.

(** Writing, and then a block that keeps the table or gives it up. *)
Lemma triple_write_keep {X A} L t sq me r (b : bool → Host → State → X * State) (k : bool → X → Own A) :
  t ∈ L → ow_node r = me → (∀ wrote x, ∃ res, k wrote x = PReturn res) →
  (∀ wrote s h pr, inv cfg s → sy_procs s !! p = Some pr →
    (wrote = true → written t sq me r s ∧ owned cfg s p me t) →
    local_ok cfg s L (session_name (sf_node_id self) (h_uuid h)) self (pc_state pr) (b wrote h (pc_state pr)).2) →
  triple cfg p L (may_write t sq me r) (wrote ← write_version t sq r; x ← locked (b wrote); k wrote x) any.
Proof.
  intros Ht Hr Hk Hb. apply triple_written; [done..|]. intros wrote.
  apply (triple_held_block cfg p L self _ (b wrote) (λ _ _, True)); [settle|naive_solver| |].
  - intros s h pr Hi [_ Hw] Hpr _ _. split; [by apply Hb|done].
  - intros x. destruct (Hk wrote x) as [res ->]. apply triple_any_ret.
Qed.

(** The owner's first block: what it may write next. *)
Lemma keeps_held_now L P t :
  steady L P → t ∈ L → (∀ s, P s → here p self s) →
  keeps L P (locked (held_now cfg self t)) (λ o s, ∀ hd me, o = Some (hd, me) →
    ∀ r, ow_node r = me → may_write t (he_seq hd + 1) me r s).
Proof.
  intros Hst Ht Hhere. apply keeps_block; [done|intros; settle|done|]. intros s h pr Hi Hs Hpr Hh name.
  split; [apply (auth_block_local (X := option (Held * string)) cfg s ∅ self h (pc_state pr)
    (λ a st, if a then (λ held, (held, se_node (st_session st))) <$> st_held st !! t else None))|].
  intros Hname s' Hi' Hs' hd me Ho r Hr. split; [by apply Hhere|]. unfold held_now in *.
  destruct (authoritative_locked cfg self h (pc_state pr)) as [[] st'] eqn:Hauth; [|done]. cbn in *.
  apply fmap_Some in Ho as (hd' & Hhd & [= -> ->]).
  pose proof (auth_alive cfg self h pr s _ Httl Hh Hauth) as Halive.
  apply auth_true in Hauth as (-> & Hret & a & Ha & _).
  assert (sy_procs s' !! p = Some (mkProc self (pc_state pr))) as Hpr' by (cbn; by rewrite lookup_insert_eq).
  destruct (inv_held _ _ Hi' _ _ _ _ Hpr' Hhd) as (Hc & Hle & Hat & Hal). cbn in Hat.
  pose proof (inv_names _ _ Hi' _ _ Hpr') as Hn. cbn [pc_state] in Hn.
  split; [by eexists|done| |lia|lia| |by left].
  - split; [by eexists|]. intros q prq Hq Heq. pose proof (inv_names _ _ Hi' _ _ Hq) as Hnq. rewrite Heq, Hn in Hnq.
    injection Hnq as <-. rewrite Hpr' in Hq. injection Hq as <-. done.
  - intros He r' Hr'. right; left. assert (newest s' t = he_seq hd') as Hq by lia. specialize (Hat Hq).
    unfold latest_node in Hat. rewrite Hr' in Hat. cbn in Hat. congruence.
Qed.

Lemma set_epoch_ok L t epoch : t ∈ L →
  triple cfg p L (here p self) (
    mine ← locked (held_now cfg self t);
    match mine with
    | None => ret false
    | Some (held, me) =>
      if he_epoch held =? epoch then ret true
      else
        written ← write_version t (he_seq held + 1) (mkOwner me epoch (he_alarms held) None);
        locked (keep_or_drop t me written (mkHeld (he_seq held + 1) epoch (he_alarms held)))
    end) any.
Proof.
  intros Ht. eapply keeps_seq; [apply keeps_held_now; [settle|done|done]|]. intros [[hd me]|]; [|apply triple_any_ret].
  destruct (_ =? _); [apply triple_any_ret|].
  eapply triple_pre; [intros s _ [_ Hw]; by apply (Hw hd me eq_refl (mkOwner me epoch (he_alarms hd) None))|].
  apply (triple_write_keep L t _ me _
    (λ w, keep_or_drop t me w (mkHeld (he_seq hd + 1) epoch (he_alarms hd))) (λ _ x, PReturn (Ok x))); [done..|eauto|].
  intros w s h pr Hi Hpr Hw. by apply (keep_or_drop_local s L t me (mkOwner me epoch (he_alarms hd) None)).
Qed.

Lemma update_alarms_ok {T} L t (change : gmap string Alarm → option T * gmap string Alarm) : t ∈ L →
  triple cfg p L (here p self) (
    mine ← locked (held_now cfg self t);
    match mine with
    | None => ret NotOwner
    | Some (held, me) =>
      let '(out, alarms) := change (he_alarms held) in
      match out with
      | None => ret Skipped
      | Some out =>
        written ← write_version t (he_seq held + 1) (mkOwner me (he_epoch held) alarms None);
        kept ← locked (alarms_keep t me written (mkHeld (he_seq held + 1) (he_epoch held) alarms));
        ret (if kept : bool then Applied out else NotOwner)
      end
    end) any.
Proof.
  intros Ht. eapply keeps_seq; [apply keeps_held_now; [settle|done|done]|]. intros [[hd me]|]; [|apply triple_any_ret].
  destruct (change (he_alarms hd)) as [[out|] alarms]; [|apply triple_any_ret].
  eapply triple_pre; [intros s _ [_ Hw]; by apply (Hw hd me eq_refl (mkOwner me (he_epoch hd) alarms None))|].
  apply (triple_write_keep L t _ me _ (λ w, alarms_keep t me w (mkHeld (he_seq hd + 1) (he_epoch hd) alarms))
    (λ _ kept, ret (if kept then Applied out else NotOwner))); [done..|eauto|].
  intros w s h pr Hi Hpr Hw.
  pose proof (keep_or_drop_local s L t me (mkOwner me (he_epoch hd) alarms None) w h
    (mkHeld (he_seq hd + 1) (he_epoch hd) alarms) pr Hi Ht Hpr eq_refl Hw) as Hl.
  unfold alarms_keep. destruct (keep_or_drop t me w _ h (pc_state pr)) as [[] st']; [done|]. cbn in *.
  destruct Hl; [by apply local_same|by apply local_fresh].
Qed.

Lemma release_ok L t next_seq : t ∈ L →
  triple cfg p L (here p self) (
    held ← locked (λ _ st, (st_held st !! t, set_held st (delete t (st_held st))));
    match held with
    | None => ret tt
    | Some held =>
      _ ← write_version t (he_seq held + 1) (mkOwner "" (he_epoch held) (he_alarms held) next_seq);
      ret tt
    end) any.
Proof.
  intros Ht. apply (triple_held_block cfg p L self _ (λ _ st, (st_held st !! t, set_held st (delete t (st_held st))))
    (λ o s, ∀ hd, o = Some hd → ∃ me, ∀ r, ow_node r = "" → may_write t (he_seq hd + 1) me r s)); [settle|done| |].
  - intros s h pr Hi Hs Hpr Hself Hh name s'. split; [by eapply delete_local|]. intros Hname Hi' Hrel hd Ho. cbn in Ho.
    destruct (inv_held _ _ Hi _ _ _ _ Hpr Ho) as (Hc & Hle & Hat & _). exists (node pr). intros r Hr.
    assert (sy_procs s' !! p = Some (mkProc self (set_held (pc_state pr) (delete t (held pr))))) as Hpr'
      by (cbn; by rewrite lookup_insert_eq).
    pose proof (inv_names _ _ Hi' _ _ Hpr') as Hn. cbn [pc_state set_held st_session] in Hn.
    split; [by eapply stable_here|]. split; [by eexists|done| |lia|change (newest s' t) with (newest s t); lia| |].
    + split; [by eexists|]. intros q prq Hq Heq. pose proof (inv_names _ _ Hi' _ _ Hq) as Hnq. rewrite Heq, Hn in Hnq.
      injection Hnq as <-. rewrite Hpr' in Hq. injection Hq as <-. done.
    + intros He r' Hr'. right; left. change (newest s' t) with (newest s t) in *. change (versions_of s' t) with (versions_of s t) in *.
      assert (newest s t = he_seq hd) as Hq by lia. specialize (Hat Hq). unfold latest_node in Hat. rewrite Hr' in Hat.
      cbn in Hat. congruence.
    + right. split; [done|]. intros pr2 Hpr2 _. rewrite Hpr' in Hpr2. injection Hpr2 as <-. cbn. by rewrite lookup_delete_eq.
  - intros [hd|]; [|apply triple_any_ret]. intros s Hi Hs. destruct (Hs hd eq_refl) as [me Hw].
    assert (triple cfg p L (may_write t (he_seq hd + 1) me (mkOwner "" (he_epoch hd) (he_alarms hd) next_seq))
      (_ ← write_version t (he_seq hd + 1) (mkOwner "" (he_epoch hd) (he_alarms hd) next_seq); ret tt) any) as Hm.
    { eapply (triple_bind _ _ _ _ _ (λ _ _, True)); [|intros; apply triple_any_ret].
      eapply triple_post, (triple_write L t _ me _ Ht). by intros [] L' s' _ (-> & _). }
    apply Hm; [done|]. by apply Hw.
Qed.

(** The block of [claim] that asks for authority: the session it was begun for has counted a
    renewal, if it is still the one. *)
Lemma keeps_may L P me :
  steady L P → (∀ s, P s → here p self s ∧ sy_names s !! me = Some p) →
  keeps L P (locked (λ h st, let '(ok, st) := authoritative_locked cfg self h st in
                             (ok && negb (se_draining (st_session st)), st)))
    (λ may s, may = true → recorded s me).
Proof.
  intros Hst HP. apply keeps_block; [done|intros; settle|by intros s (? & _)%HP|]. intros s h pr Hi Hs Hpr Hh name.
  split; [apply (auth_block_local cfg s ∅ self h (pc_state pr) (λ ok st, ok && negb (se_draining (st_session st))))|].
  intros Hname s' Hi' Hs' Hmay. destruct (HP _ Hs') as [_ Hme]. split; [by eexists|]. intros q prq Hq Heq.
  pose proof (inv_names _ _ Hi' _ _ Hq) as Hnq. rewrite Heq, Hme in Hnq. injection Hnq as <-.
  unfold s' in Hq. cbn in Hq. rewrite lookup_insert_eq in Hq. injection Hq as <-.
  destruct (authoritative_locked cfg self h (pc_state pr)) as [[] st'] eqn:Hauth; [|done].
  apply auth_true in Hauth as (-> & _ & a & Ha & _). right. by exists a.
Qed.

Lemma claim_keep_local s L t me seq record r h pr :
  inv cfg s → t ∈ L → sy_procs s !! p = Some pr → ow_node r = me →
  written t (seq + 1) me r s → owned cfg s p me t →
  local_ok cfg s L (session_name (sf_node_id self) (h_uuid h)) self (pc_state pr) (claim_keep t me seq record r h (pc_state pr)).2.
Proof.
  intros Hi Ht Hpr Hr Hw Ho. unfold claim_keep. case_bool_decide as Hme; cbn [negb]; [|apply local_refl].
  by eapply (insert_local s L t me r (mkHeld (seq + 1) (ow_epoch r) (ow_alarms r))).
Qed.

(** Nobody who may still act owns the record that was read, or session [me] does. *)
Definition unowned (record : option OwnerRecord) (me : string) (s : Sys) : Prop :=
  ∀ r, record = Some r → ow_node r = "" ∨ ow_node r = me ∨ dead cfg s (ow_node r).

Lemma stable_unowned L record me : steady L (unowned record me).
Proof.
  intros s s' Hs Hr Hi r Hrec. destruct (Hs r Hrec) as [|[|]]; [by left|auto|]. right; right. by apply Hr.
Qed.

#[local] Hint Resolve stable_unowned : own.

Lemma keeps_unowned L P record me :
  steady L P → (∀ s, P s → here p self s) → (∀ r s, record = Some r → P s → ow_node r = "" ∨ recorded s (ow_node r)) →
  keeps L P (match record with
             | Some r =>
               if negb (bool_decide (ow_node r = "")) && negb (bool_decide (ow_node r = me))
               then lease_verdict cfg (ow_node r) true else ret None
             | None => ret None
             end) (λ live s, live = None → unowned record me s).
Proof.
  intros Hst Hhere Hrec. destruct record as [r|]; [|apply keeps_return; [done|by intros a s _ _ _ _ ?]].
  destruct (negb (bool_decide (ow_node r = "")) && negb (bool_decide (ow_node r = me))) eqn:Hother.
  - eapply keeps_weaken, (keeps_verdict _ _ (ow_node r) true True); [|done..|].
    + intros a s _ _ Hd -> ? [= <-]. right; right. by apply Hd.
    + intros _ s Hs. bool_facts. by destruct (Hrec r s eq_refl Hs).
  - apply keeps_return; [done|]. intros a s _ _ _ _ ? [= <-].
    apply andb_false_iff in Hother as [Ho|Ho]; apply negb_false_iff, bool_decide_eq_true in Ho; auto.
Qed.

Lemma claim_ok L t : t ∈ L → triple cfg p L (here p self) (claim_writing cfg self t) any.
Proof.
  intros Ht. unfold claim_writing. eapply keeps_seq; [apply keeps_holds; [settle|done]|].
  intros [epoch|]; [apply triple_any_ret|].
  eapply keeps_seq; [apply keeps_read_latest; [settle|naive_solver]|]. intros [seq record].
  eapply keeps_seq; [apply keeps_me; [settle|naive_solver]|]. intros me.
  eapply keeps_seq; [apply (keeps_unowned _ _ record me); [settle|naive_solver|]|].
  { intros r s Hr [[_ (_ & _ & Hn)] _]. auto. }
  intros [[peer verdict_in]|]; [apply triple_any_ret|].
  eapply keeps_seq; [apply (keeps_may _ _ me); [settle|naive_solver]|].
  intros []; cbn [negb]; [|apply triple_any_ret].
  set (r := mkOwner me (default 0 (ow_epoch <$> record)) (default ∅ (ow_alarms <$> record)) None).
  apply triple_pre with (P' := may_write t (seq + 1) me r).
  { intros s Hi [[[[[Hh _] (Hle & Hat & _)] Hn] Hfree] Hrec]. cbn in Hle, Hat. split; [done|].
    destruct Hh as (pr & Hpr & _). split; [by eexists|done|by apply Hrec|lia|lia| |by left].
    intros He r' Hr'. rewrite (Hat ltac:(lia)) in Hr'. by apply Hfree. }
  apply triple_written; [done..|].
  intros []; cbn [negb]; [|apply triple_any_ret].
  apply (triple_held_block cfg p L self _ (claim_keep t me seq record r) (λ _ _, True)); [settle|naive_solver| |].
  - intros s h pr Hi [_ Hw] Hpr _ _. destruct (Hw eq_refl). split; [by apply claim_keep_local|done].
  - intros kept. apply triple_any_ret.
Qed.

(** ** Every call *)

Lemma wp_finally {A} L (m : Own A) t s : wp cfg p L m any s → wp cfg p L (finally m (Unlock t)) any s.
Proof.
  revert L s. induction m as [r| |X q k IH]; intros L s Hm; cbn [finally]; [|done|].
  - intros s' c x s'' Hr Hi [= <- <-] _. split_and!; [done|intros p' L' _; apply rely_refl|done].
  - intros s' c x s'' Hr Hi Hp Ht. destruct (Hm s' c x s'' Hr Hi Hp Ht) as (? & ? & ?). split_and!; [done..|]. by apply IH.
Qed.

Lemma writing_ok {A} L t (m : Own A) :
  triple cfg p ({[t]} ∪ L) (here p self) m any → triple cfg p L (here p self) (writing t m) any.
Proof.
  intros Hm. apply (triple_ask _ _ _ _ _ (λ _, here p self)); [settle| |].
  - intros s c x s' Hi HP [= <- <-] _. split_and!; [done|intros p' L' _; apply rely_refl|done].
  - intros _ s Hi Hs. by apply wp_finally, Hm.
Qed.

Lemma forget_ok {A} L P (m : Own A) : triple cfg p L P m any → triple cfg p L P (forget m) any.
Proof.
  intros Hm s Hi Hs. apply wp_bind. eapply wp_mono, Hm; [|done..]. intros [a|e] L' s' _ _; [|done]. by intros s2 _ _.
Qed.

Lemma locks_with (t : string) (L : gset string) : t ∈ {[t]} ∪ L.
Proof. set_solver. Qed.

Lemma keeps_live_peers L P : steady L P → (∀ s, P s → here p self s) → keeps L P (live_peers cfg self) (λ _ _, True).
Proof.
  intros Hst Hhere. apply keeps_any_block; [done..|]. intros s h st _ _ _. unfold live_peers_locked.
  pose proof (auth_local cfg s ∅ self h st) as Hl. by destruct (authoritative_locked cfg self h st).
Qed.

Lemma keeps_preferred L P t : steady L P → (∀ s, P s → here p self s) → keeps L P (preferred cfg self t) (λ _ _, True).
Proof.
  intros Hst Hhere. unfold preferred. eapply keeps_then; [by apply keeps_live_peers|]. intros live.
  eapply keeps_then; [by apply keeps_read|]. intros placed. by apply keeps_return.
Qed.

Lemma keeps_orphaned L P me tables :
  steady L P → (∀ s, P s → here p self s) → keeps L P (orphaned_of cfg self me tables) (λ _ _, True).
Proof.
  intros Hst Hhere. induction tables as [|t tables IH]; cbn [orphaned_of]; [by apply keeps_return|].
  eapply keeps_then; [by apply keeps_any_block; [done..|]; intros; apply local_refl|]. intros orphan.
  eapply (keeps_then _ _ (if orphan : bool then _ else _)).
  { destruct orphan; [|by apply keeps_return]. eapply keeps_then; [by apply keeps_preferred|]. intros. by apply keeps_return. }
  intros mine. eapply keeps_then; [apply IH|]. intros. by apply keeps_return.
Qed.

Lemma keeps_resolve L P t fresh :
  steady L P → (∀ s, P s → here p self s) → keeps L P (resolve cfg self t fresh) (λ _ _, True).
Proof.
  intros Hst Hhere. unfold resolve. eapply keeps_then; [by apply keeps_holds|].
  intros [epoch|]; [by apply keeps_return|].
  eapply keeps_then; [by apply keeps_read|]. intros cached.
  eapply (keeps_then _ _ (match cached with Some record => _ | None => _ end)).
  { assert (keeps L P ('(_, record) ← read_latest t; ret record) (λ _ _, True)) as Hlatest.
    { eapply keeps_then; [eapply keeps_weaken, keeps_read_latest; done|]. intros [? ?]. by apply keeps_return. }
    destruct cached; [destruct fresh; [done|by apply keeps_return]|done]. }
  intros [record|]; [|by apply keeps_return]. case_bool_decide; [by apply keeps_return|].
  eapply keeps_then; [by apply keeps_read|]. intros me. case_bool_decide.
  - eapply keeps_then; [by apply keeps_holds|]. intros. by apply keeps_return.
  - eapply keeps_then; [eapply keeps_weaken, (keeps_verdict _ _ _ fresh False); done|]. intros. by apply keeps_return.
Qed.

Lemma retire_ok L : triple cfg p L (here p self) retire any.
Proof.
  eapply keeps_seq; [apply keeps_any_block; [settle|done|]|].
  - intros s h st _ _ _. apply local_same; cbn; auto; [done|by apply leases_same|]. set_solver.
  - intros node. eapply keeps_any, keeps_delete. settle.
Qed.

Lemma drain_ok L : triple cfg p L (here p self) (drain cfg self) any.
Proof.
  eapply keeps_seq; [apply keeps_any_block; [settle|done|]|].
  - intros s h st _ _ _. apply local_same; cbn; auto. by apply leases_same.
  - intros ?. eapply keeps_seq; [apply keeps_renew; [settle|naive_solver]|]. intros. apply triple_any_ret.
Qed.

(** Every call keeps the invariant and the guarantee. *)
Lemma program_ok call : triple cfg p ∅ (here p self) (program_of cfg self call) any.
Proof.
  destruct call; cbn [program_of]; try apply forget_ok.
  - by eapply keeps_any, keeps_renew; [settle|].
  - by eapply keeps_any, keeps_sample; [settle|].
  - by eapply keeps_any, keeps_resolve; [settle|].
  - unfold claim. eapply keeps_seq; [apply keeps_holds; [settle|done]|]. intros [epoch|]; [apply triple_any_ret|].
    eapply triple_pre, writing_ok, claim_ok; [naive_solver|apply locks_with].
  - apply writing_ok, set_epoch_ok, locks_with.
  - apply writing_ok, release_ok, locks_with.
  - apply writing_ok, update_alarms_ok, locks_with.
  - unfold read_alarms. eapply keeps_seq; [apply keeps_read; [settle|done]|]. intros [alarms|]; [apply triple_any_ret|].
    eapply keeps_seq; [apply keeps_read_latest; [settle|naive_solver]|]. intros [? ?]. apply triple_any_ret.
  - unfold accepting. eapply keeps_seq; [apply (keeps_liveness node False); [settle|done|done]|].
    intros [peer verdict_in| |]; [|apply triple_any_ret..].
    eapply keeps_seq; [apply keeps_read; [settle|naive_solver]|]. intros. apply triple_any_ret.
  - unfold confirm. eapply keeps_seq; [apply keeps_holds; [settle|done]|]. intros. apply triple_any_ret.
  - by eapply keeps_any, keeps_any_block; [settle|..]; [|intros; apply local_benign; [done..|by apply leases_same|]].
  - by eapply keeps_any, keeps_any_block; [settle|..]; [|intros; apply local_benign; [done..|by apply leases_same|]].
  - unfold plan. eapply keeps_seq; [apply keeps_live_peers; [settle|done]|]. intros live.
    destruct (place keys (pe_node <$> live)); [|apply triple_any_ret].
    eapply keeps_seq; [apply keeps_modify; [settle|naive_solver|done]|]. intros. apply triple_any_ret.
  - unfold orphaned. eapply keeps_seq; [apply keeps_read; [settle|done]|]. intros me.
    by eapply keeps_any, keeps_orphaned; [settle|]; naive_solver.
  - unfold surplus. eapply keeps_seq; [apply keeps_read; [settle|done]|]. intros me.
    by eapply keeps_any, keeps_read; [settle|]; naive_solver.
  - unfold held_by_predecessor. eapply keeps_seq; [apply keeps_read; [settle|done]|]. intros me.
    eapply keeps_seq; [apply keeps_live_peers; [settle|naive_solver]|]. intros peers.
    by eapply keeps_any, keeps_read; [settle|]; naive_solver.
  - apply drain_ok.
  - apply retire_ok.
Qed.

End Safety.

(** ** Runs *)

Section Runs.
Context (cfg : LeaseConfig).
Context `{NodeHost}.
Context (Httl : lc_ttl_ms cfg ≠ 0).

Definition task_ok (s : Sys) (tk : Task) : Prop := wp cfg (tk_proc tk) (tk_locks tk) (tk_prog tk) any s.

(** Two calls of one process never hold the same lock. *)
Definition apart (tasks : list Task) : Prop :=
  ∀ i j ti tj, i ≠ j → tasks !! i = Some ti → tasks !! j = Some tj → tk_proc ti = tk_proc tj → tk_locks ti ## tk_locks tj.

Record config_ok (c : Config) : Prop := {
  co_inv : inv cfg (cf_sys c);
  co_tasks i tk : cf_tasks c !! i = Some tk → task_ok (cf_sys c) tk;
  co_apart : apart (cf_tasks c);
}.

Lemma task_rely s s' tk : task_ok s tk → rely cfg (tk_proc tk) (tk_locks tk) s s' → task_ok s' tk.
Proof. apply wp_rely. Qed.

(** A step on which every task may rely. *)
Lemma quiet_config c s' :
  config_ok c → inv cfg s' → (∀ p L, rely cfg p L (cf_sys c) s') → config_ok (mkConfig s' (cf_tasks c)).
Proof.
  intros Hc Hi Hr. split; [done| |apply Hc]. intros i tk Htk. eapply task_rely; [by eapply co_tasks|apply Hr].
Qed.

(** A new process. *)
Lemma spawn_ok s p self uuid now :
  let name := session_name (sf_node_id self) uuid in
  let s' := set_proc s p (mkProc self (state_new self uuid now)) name in
  inv cfg s → sy_procs s !! p = None → sy_names s !! name = None → inv cfg s' ∧ ∀ q L, rely cfg q L s s'.
Proof.
  intros name s' Hi Hp Hname.
  assert (∀ q pr, sy_procs s' !! q = Some pr → sy_procs s !! q = Some pr
    ∨ (q = p ∧ pr = mkProc self (state_new self uuid now))) as Hprocs.
  { intros q pr Hq. cbn in Hq. apply lookup_insert_Some in Hq as [[<- <-]|[_ Hq]]; [by right|by left]. }
  assert (∀ n q, sy_names s !! n = Some q → sy_names s' !! n = Some q) as Hnames.
  { intros n q Hn. cbn. rewrite lookup_insert_ne; [done|congruence]. }
  assert (∀ n, is_Some (sy_names s !! n) → is_Some (sy_names s' !! n)) as Hnamed by (intros n [q Hq]; eauto).
  assert (∀ n, is_Some (sy_names s !! n) → n ≠ name) as Hold by (intros n [q Hq] ?; congruence).
  assert (∀ n, dead cfg s n → dead cfg s' n) as Hdead.
  { intros n [Hn Hd]. split; [auto|]. intros q pr [Hq|[-> ->]]%Hprocs Heq; [by eapply Hd|]. by destruct (Hold n Hn). }
  assert (∀ n, recorded s n → recorded s' n) as Hrec.
  { intros n [Hn Hd]. split; [auto|]. intros q pr [Hq|[-> ->]]%Hprocs Heq; [by eapply Hd|]. by destruct (Hold n Hn). }
  split; [split|intros q L; split; try done].
  - intros q pr [Hq|[-> ->]]%Hprocs; [by apply Hnames, (inv_names _ _ Hi)|]. cbn. by rewrite lookup_insert_eq.
  - cbn. rewrite lookup_insert_ne by apply session_name_ne. apply Hi.
  - apply Hi.
  - intros q pr n seen [Hq|[-> ->]]%Hprocs; [by apply (inv_seen _ _ Hi q pr)|done].
  - intros q pr a [Hq|[-> ->]]%Hprocs; [by apply (inv_alive _ _ Hi q pr)|done].
  - intros q pr t h [Hq|[-> ->]]%Hprocs Hh; [by destruct (inv_held _ _ Hi _ _ _ _ Hq Hh)|done].
  - intros t k r Hr. destruct (inv_record _ _ Hi _ _ _ Hr) as [? [|]]; split; auto.
  - intros q pr n [Hq|[-> ->]]%Hprocs Hn; [by eapply Hdead, inv_dead|by apply not_elem_of_empty in Hn].
  - intros n i (Hn & Hle & Hr). split_and!; [auto|done|]. intros (q' & pr & [Hq|[-> ->]]%Hprocs & Heq & Hret) Hsk.
    + apply Hr; [by exists q', pr|done].
    + by destruct (Hold n Hn).
  - intros t me _ [Hn Ho]. split; [auto|]. intros pr [Hq|[-> ->]]%Hprocs Heq; [by apply Ho|]. by destruct (Hold me Hn).
  - intros pr Hq. exists pr. split; [cbn; rewrite lookup_insert_ne; [done|congruence]|]. split_and!; [done..|eauto|auto].
Qed.

(** A step of one of the tasks. *)
Lemma run_ok c i p locks X (q : OReq X) k choice x s' :
  config_ok c → cf_tasks c !! i = Some (mkTask p locks (PAsk q k)) → lock_free q p (cf_tasks c) = true →
  perform p q choice (cf_sys c) = Some (x, s') → timely cfg (cf_sys c) s' →
  config_ok (mkConfig s' (set_nth i (mkTask p (locks_after q locks) (k x)) (cf_tasks c))).
Proof.
  intros Hc Hi Hfree Hp Ht.
  destruct (co_tasks _ Hc _ _ Hi _ _ _ _ (rely_refl _ _ _ _) (co_inv _ Hc) Hp Ht) as (Hinv & Hg & Hk). split; cbn; [done|..].
  - intros j tk [[<- <-]|[Hne Hj]]%set_nth_Some; [done|].
    eapply task_rely; [by eapply co_tasks|]. apply Hg.
    destruct (decide (tk_proc tk = p)) as [Heq|]; [right|by left]. by apply (co_apart _ Hc i j _ _ Hne Hi Hj).
  - assert (∀ j tk, j ≠ i → cf_tasks c !! j = Some tk → tk_proc tk = p → locks_after q locks ## tk_locks tk) as Hnew.
    { intros j tk Hne Hj Heq. pose proof (co_apart _ Hc i j _ _ (not_eq_sym Hne) Hi Hj (eq_sym Heq)) as Hold. cbn in Hold.
      destruct q; cbn; try done; [|set_solver]. cbn in Hfree. rewrite forallb_forall in Hfree.
      specialize (Hfree tk (nth_error_In _ _ (eq_trans (nth_error_is _ j) Hj))).
      rewrite bool_decide_eq_true_2 in Hfree by done. cbn in Hfree. apply bool_decide_eq_true in Hfree. set_solver. }
    intros j1 j2 t1 t2 Hne [[<- <-]|[Hn1 H1]]%set_nth_Some [[<- <-]|[Hn2 H2]]%set_nth_Some Heq; cbn in *.
    + done.
    + by eapply Hnew; [|done|].
    + symmetry. by eapply Hnew; [|done|].
    + apply (co_apart _ Hc j1 j2 _ _ Hne H1 H2 Heq).
Qed.

Lemma exec_ok c e c' : config_ok c → exec cfg c e = Some c' → timely cfg (cf_sys c) (cf_sys c') → config_ok c'.
Proof.
  intros Hc He Ht. pose proof (co_inv _ Hc) as Hi. destruct e as [d|p self uuid|p call|i choice|i]; cbn in He.
  - injection He as <-. destruct (tick_ok cfg _ d Hi). by apply quiet_config.
  - case_bool_decide as Hp; [done|]. case_bool_decide as Hn; [done|]. injection He as <-.
    apply eq_None_not_Some in Hp, Hn. destruct (spawn_ok _ p self uuid (sy_now (cf_sys c)) Hi Hp Hn). by apply quiet_config.
  - destruct (sy_procs (cf_sys c) !! p) as [proc|] eqn:Hp; [|done]. injection He as <-. split; cbn; [done|..].
    + intros i tk [Htk|<-]%snoc_Some; [by eapply co_tasks|]. apply program_ok; [done..|]. by exists proc.
    + intros i j ti tj Hne [Hi1|<-]%snoc_Some [Hj1|<-]%snoc_Some Heq; cbn in *; [apply (co_apart _ Hc i j _ _ Hne Hi1 Hj1 Heq)|set_solver..].
  - rewrite nth_error_is in He. destruct (cf_tasks c !! i) as [[p locks [r| |X q k]]|] eqn:Htk; try done.
    destruct (lock_free q p (cf_tasks c)) eqn:Hfree; [|done].
    destruct (perform p q choice (cf_sys c)) as [[x s']|] eqn:Hp; [|done]. injection He as <-.
    by eapply run_ok.
  - destruct (sy_late (cf_sys c) !! i) as [late|]; [|done]. injection He as <-.
    destruct (late_ok cfg _ (delete i (sy_late (cf_sys c))) Hi) as [Hi1 Hr1].
    destruct late as [r|n]; [destruct (land_ok cfg _ r Hi1) as [Hi2 Hr2]|destruct (drop_ok cfg _ n Httl Hi1 Ht) as [Hi2 Hr2]];
      apply quiet_config; try done; intros p L; eapply rely_trans; [apply Hr1|apply Hr2|apply Hr1|apply Hr2].
Qed.

Lemma empty_ok : config_ok config_empty.
Proof. split; [by split|done|done]. Qed.

Lemma run_events_ok c evs c' : config_ok c → run_events cfg c evs = Some (c', true) → config_ok c'.
Proof.
  revert c. induction evs as [|e evs IH]; intros c Hc Hr; cbn in Hr; [by injection Hr as <-|].
  destruct (exec cfg c e) as [c1|] eqn:He; [|done].
  destruct (run_events cfg c1 evs) as [[c2 rest]|] eqn:Hrest; [|done]. injection Hr as -> [Ht ->]%andb_true_iff.
  apply bool_decide_eq_true in Ht. eapply IH; [|done]. by eapply exec_ok.
Qed.

(** The holder of a table is the process its record names. *)
Lemma holder_named s p pr t h e :
  inv cfg s → sy_procs s !! p = Some pr → h_now h = sy_now s →
  (holds_locked cfg (pc_self pr) t h (pc_state pr)).1 = Some e →
  ∃ n, latest_node s t = Some n ∧ sy_names s !! n = Some p.
Proof.
  intros Hi Hpr Hh Hholds. unfold holds_locked in Hholds.
  destruct (authoritative_locked cfg (pc_self pr) h (pc_state pr)) as [[] st'] eqn:Ha; [|done]. cbn in Hholds.
  pose proof (auth_alive cfg (pc_self pr) h pr s st' Httl Hh Ha) as Hal. apply auth_true in Ha as (-> & _).
  apply fmap_Some in Hholds as (hd & Hheld & _). destruct (inv_held _ _ Hi _ _ _ _ Hpr Hheld) as (_ & _ & _ & Hlat).
  eexists. split; [by apply Hlat|]. by apply (inv_names _ _ Hi).
Qed.

End Runs.

(** C3: In every timely run of any number of processes, at most one holds a table: two processes that
    both answer [holds] with an epoch, at the same time, are one. *)
Theorem one_owner (cfg : LeaseConfig) `{NodeHost} evs c t p pr q prq h h' e e' :
  lc_ttl_ms cfg ≠ 0 → run_events cfg config_empty evs = Some (c, true) →
  sy_procs (cf_sys c) !! p = Some pr → sy_procs (cf_sys c) !! q = Some prq →
  h_now h = sy_now (cf_sys c) → h_now h' = sy_now (cf_sys c) →
  (holds_locked cfg (pc_self pr) t h (pc_state pr)).1 = Some e →
  (holds_locked cfg (pc_self prq) t h' (pc_state prq)).1 = Some e' →
  p = q.
Proof.
  intros Httl Hrun Hp Hq Hh Hh' He He'.
  pose proof (co_inv _ _ (run_events_ok cfg Httl _ _ _ (empty_ok cfg) Hrun)) as Hi.
  destruct (holder_named cfg Httl _ _ _ _ _ _ Hi Hp Hh He) as (n & Hn & Hnp).
  destruct (holder_named cfg Httl _ _ _ _ _ _ Hi Hq Hh' He') as (n' & Hn' & Hnq). congruence.
Qed.
