(* ===== verification/OwnershipToy.v ===== *)
(** * OwnershipToy: two processes and a table

    A run in which a table changes hands, and the runs that [Ownership.timely] excludes: in each
    of the three, two processes hold one table. *)

From stdpp Require Import pretty.
From S2P Require Import Prelude Text Programs ObjectStore Cron Alarms Ownership OwnershipLogic OwnershipSafety.

#[local] Open Scope N_scope.

#[local] Instance o_host : NodeHost := {| xxh3_64 b := len b |}.

Definition o_cfg : LeaseConfig := mkLeaseConfig 9000 2000 2000.
Definition o_a : Self := mkSelf "a" "addr-a".
Definition o_b : Self := mkSelf "b" "addr-b".

(** Task [i] runs for [n] steps that are all answered; the fresh names count from [base]. *)
Fixpoint o_go (i : nat) (base : N) (n : nat) : list Event :=
  match n with
  | O => []
  | S n => Run i (mkChoice Done 0 (pretty base)) :: o_go i (base + 1) n
  end.

(** What process [p] answers when it is asked for a table, at the end of a run. *)
Definition o_holds (c : Config) (p t : string) : option N :=
  match sy_procs (cf_sys c) !! p with
  | Some pr => (holds_locked o_cfg (pc_self pr) t (mkHost (sy_now (cf_sys c)) 0 "x") (pc_state pr)).1
  | None => None
  end.

(** Whether a run was timely, and the epochs at which A and B hold the table. *)
Definition o_outcome (evs : list Event) : option (bool * option N * option N) :=
  match run_events o_cfg config_empty evs with
  | Some (c, timely) => Some (timely, o_holds c "A" "t", o_holds c "B" "t")
  | None => None
  end.

(** A and B renew, and A claims the table. *)
Definition o_claimed : list Event :=
  [Spawn "A" o_a "0"; Spawn "B" o_b "0"; Start "A" CallRenew] ++ o_go 0 100 5
  ++ [Start "B" CallRenew] ++ o_go 1 200 5 ++ [Start "A" (CallClaim "t")] ++ o_go 2 300 12.

(** B looks at A's lease; A starts to renew and stalls; B sees the lease for a verdict, and
    claims the table. *)
Definition o_moved : list Event :=
  o_claimed ++ [Start "B" (CallClaim "t")] ++ o_go 3 400 15
  ++ [Tick 8000; Start "A" CallRenew] ++ o_go 4 500 2 ++ [Start "B" CallRenew] ++ o_go 5 600 5
  ++ [Tick 3000; Start "B" (CallClaim "t")] ++ o_go 6 700 20.

(** The stalled renewal goes on: its timer starts only now. *)
Definition o_late_renewal : list Event := o_moved ++ o_go 4 900 3.

(** A's first renewal is written and not acknowledged.  B sees that lease for a verdict, and is
    about to delete it when A renews, and claims the table. *)
Definition o_deleting : list Event :=
  [Spawn "A" o_a "0"; Spawn "B" o_b "0"; Start "A" CallRenew] ++ o_go 0 100 3
  ++ [Run 0 (mkChoice (Lost true) 0 "103")] ++ o_go 0 104 1 ++ [Start "B" CallSample] ++ o_go 1 200 9
  ++ [Tick 11000; Start "B" CallSample] ++ o_go 2 300 5
  ++ [Start "A" CallRenew] ++ o_go 3 400 5 ++ [Start "A" (CallClaim "t")] ++ o_go 4 500 12.

(** B deletes it, and claims the table of a session without a lease. *)
Definition o_deleted : list Event :=
  o_deleting ++ o_go 2 600 1 ++ [Start "B" CallRenew] ++ o_go 5 700 5 ++ [Start "B" (CallClaim "t")] ++ o_go 6 800 19.

(** B lists the leases and stalls; A renews three times; B reads A's lease to claim the table. *)
Definition o_looking : list Event :=
  o_claimed ++ [Start "B" CallSample] ++ o_go 3 400 6
  ++ [Tick 3000; Start "A" CallRenew] ++ o_go 4 500 5
  ++ [Tick 3000; Start "A" CallRenew] ++ o_go 5 600 5 ++ [Start "B" CallRenew] ++ o_go 6 700 5
  ++ [Tick 3000; Start "A" CallRenew] ++ o_go 7 800 5
  ++ [Tick 2000; Start "B" (CallClaim "t")] ++ o_go 8 900 13.

(** The old listing overwrites what was read before it is judged. *)
Definition o_overwritten : list Event := o_looking ++ o_go 3 1000 1 ++ o_go 8 1100 7.

(** The table moves from A to B in a timely run. *)
Example o_moves : o_outcome o_claimed = Some (true, Some 0, None) ∧ o_outcome o_moved = Some (true, None, Some 0).
Proof. split; vm_compute; reflexivity. Qed.

(** What [timely] excludes does happen, and costs the exclusion: a renewal that is delayed between
    the check of the authority and its timer, a lease that is deleted while its session counts its
    first renewal, and a listing that is taken over between the reading and the judging of a lease
    each end with two processes that hold one table. *)
Theorem untimely_runs_share_a_table :
  (o_outcome o_moved = Some (true, None, Some 0) ∧ o_outcome o_late_renewal = Some (false, Some 0, Some 0))
  ∧ (o_outcome o_deleting = Some (true, Some 0, None) ∧ o_outcome o_deleted = Some (false, Some 0, Some 0))
  ∧ (o_outcome o_looking = Some (true, Some 0, None) ∧ o_outcome o_overwritten = Some (false, Some 0, Some 0)).
Proof. split_and!; vm_compute; reflexivity. Qed.

(** The configuration after the move. *)
Definition o_end : Config := match run_events o_cfg config_empty o_moved with Some (c, _) => c | None => config_empty end.

Definition o_proc (p : string) : Proc :=
  default (mkProc o_a (state_new o_a "" 0)) (sy_procs (cf_sys o_end) !! p).

Lemma one_owner_witness : o_holds o_end "B" "t" = Some 0 ∧ "B" = "B".
Proof.
  split; [vm_compute; reflexivity|].
  apply (one_owner o_cfg o_moved o_end "t" "B" (o_proc "B") "B" (o_proc "B")
    (mkHost (sy_now (cf_sys o_end)) 0 "x") (mkHost (sy_now (cf_sys o_end)) 0 "y") 0 0).
  - discriminate.
  - vm_compute. reflexivity.
  - vm_compute. reflexivity.
  - vm_compute. reflexivity.
  - reflexivity.
  - reflexivity.
  - vm_compute. reflexivity.
  - vm_compute. reflexivity.
Defined.
