(* ===== verification/Access.v ===== *)
(** * Access: who may call which route

    [crates/walleye-node/src/access.rs]: the scopes of a token, the table of the routes'
    requirements, the set of tokens published in the bucket and how a node keeps it current, and
    the gate in front of every handler.

    An operation of [Access] is a program ([Programs.Prog]) over the questions of [AReq]: the
    clocks, the three locks of the node's state and the conditional read of the published object.
    JSON, hexadecimal, SHA-256 and the reading of a header value are parameters; a [Method] is its
    name and a path is its pattern. *)

From S2P Require Import Prelude Text Programs.

#[local] Open Scope N_scope.

Definition MISS_REFRESH_INTERVAL : N := 1000.

(** ** Scopes *)

Inductive Scope := SRead | SWrite | SManage.

#[global] Instance Scope_eq_dec : EqDecision Scope.
Proof. solve_decision. Defined.

Definition scope_all : list Scope := [SRead; SWrite; SManage].

Definition scope_name (s : Scope) : string :=
  match s with SRead => "data:read" | SWrite => "data:write" | SManage => "data:manage" end.

(** [Scope::parse]. *)
Definition scope_parse (name : string) : option Scope :=
  head (filter (λ s, scope_name s = name) scope_all).

Definition scope_bit (s : Scope) : N :=
  match s with SRead => 1 | SWrite => 2 | SManage => 4 end.

(** [Scopes]: a [u8]. *)
Definition Scopes : Type := N.

Definition scopes_contains (scopes : Scopes) (s : Scope) : bool := negb (N.land scopes (scope_bit s) =? 0).

(** [Scopes::from_iter]. *)
Definition scopes_from_iter (l : list Scope) : Scopes := foldl (λ bits s, N.lor bits (scope_bit s)) 0 l.

(** ** Routes *)

Inductive Required := ROpen | RSystem | RData (scope : Scope).

#[global] Instance Required_eq_dec : EqDecision Required.
Proof. solve_decision. Defined.

Record Rule := mkRule { ru_method : string; ru_path : string; ru_required : Required }.

Definition same_route (a b : Rule) : bool :=
  bool_decide (ru_method a = ru_method b) && bool_decide (ru_path a = ru_path b).

(** The methods [MethodFilter::try_from] accepts. *)
Definition routable : list string :=
  ["CONNECT"; "DELETE"; "GET"; "HEAD"; "OPTIONS"; "PATCH"; "POST"; "PUT"; "TRACE"].

(** [Routes::route] on the rules; [None] is a panic at start-up. *)
Definition routes_route (rules : list Rule) (rule : Rule) : option (list Rule) :=
  if negb (bool_decide (ru_method rule ∈ routable)) then None
  else if existsb (same_route rule) rules then None
  else Some (rules ++ [rule]).

(** [Routes::merge]. *)
Definition routes_merge (rules other : list Rule) : option (list Rule) :=
  if existsb (λ rule, existsb (same_route rule) rules) other then None else Some (rules ++ other).

(** [Routes::into_parts]. *)
Definition routes_table (rules : list Rule) : gmap (string * string) Required :=
  list_to_map (reverse ((λ r, ((ru_method r, ru_path r), ru_required r)) <$> rules)).

(** [Table::required]. *)
Definition table_required (table : gmap (string * string) Required) (method path : string) : option Required :=
  let method := if bool_decide (method = "HEAD") then "GET" else method in
  table !! (method, path).

(** ** Principals *)

Inductive Principal := PSystem | PToken (scopes : Scopes).

(** [Principal::allows]. *)
Definition allows (p : Principal) (required : Required) : bool :=
  match p, required with
  | _, ROpen | PSystem, _ => true
  | PToken _, RSystem => false
  | PToken scopes, RData scope => scopes_contains scopes scope
  end.

Inductive Refusal := Missing | Unknown | Expired.

(** ** The published set *)

Record PublishedToken := mkPublishedToken {
  pt_id : string; pt_sha256 : string; pt_scopes : list string; pt_expires_at : option N }.
Record Published := mkPublished { pb_version : N; pb_tokens : list PublishedToken }.

Record Grant := mkGrant { gr_scopes : Scopes; gr_expires_at : option N }.

#[global] Instance byte_countable : Countable byte.
Proof. refine (inj_countable Byte.to_N Byte.of_N _). intros b. apply Byte.of_to_N. Defined.

(** [HashMap<[u8; 32], Grant>]. *)
Definition Grants : Type := gmap (list byte) Grant.

Class AccessHost := {
  published_from_slice : list byte → option Published;
  hex_decode : string → option (list byte);
  sha256 : list byte → list byte;
}.

Inductive ParseError :=
| Unreadable
| VersionNotUnderstood (version : N)
| NoSha256 (id : string)
| NamesScope (id name : string).

Section Parse.
Context `{AccessHost}.

Definition parse_token (grants : Grants) (token : PublishedToken) : result ParseError Grants :=
  hash ← ok_or (bytes ← hex_decode (pt_sha256 token); if len bytes =? 32 then Some bytes else None)
           (NoSha256 (pt_id token));
  scopes ← try_map (λ name, ok_or (scope_parse name) (NamesScope (pt_id token) name)) (pt_scopes token);
  Ok (<[hash := mkGrant (scopes_from_iter scopes) (pt_expires_at token)]> grants).

(** [parse]. *)
Definition parse (bytes : list byte) : result ParseError Grants :=
  published ← ok_or (published_from_slice bytes) Unreadable;
  if negb (pb_version published =? 1) then Err (VersionNotUnderstood (pb_version published))
  else try_fold parse_token ∅ (pb_tokens published).

End Parse.

(** ** What a program asks *)

(** The answer of a conditional read: an object with its tag and its body, which may fail to
    arrive. *)
Inductive Answer :=
| GotObject (tag : option string) (body : option (list byte))
| GotNotModified
| GotNotFound
| GetFailed.

Inductive AReq : Type → Type :=
| ReadGrants : AReq Grants
| SetGrants (g : Grants) : AReq unit
(** the asynchronous mutex around the tag *)
| LockEtag : AReq unit
| ReadEtag : AReq (option string)
| SetEtag (tag : option string) : AReq unit
| UnlockEtag : AReq unit
| GetObject (if_none_match : option string) : AReq Answer
| NowSeconds : AReq N
(** the block of [may_refresh_on_miss], with the instant it reads *)
| MayRefresh : AReq bool.

Inductive RefreshError := Reading | Malformed (e : ParseError).

Abbreviation Acc := (Prog AReq RefreshError).

(** [self]: the deployment's token, and whether there is a bucket. *)
Record Access := mkAccess { ac_system : string; ac_source : bool }.

Record Request := mkRequest {
  rq_matched : option string;
  rq_method : string;
  (** the value of a header that is present and readable as text *)
  rq_header : string → option string;
}.

(** [str::strip_prefix]. *)
Fixpoint strip_prefix (prefix s : string) : option string :=
  match prefix, s with
  | EmptyString, _ => Some s
  | String a prefix, String b s => if bool_decide (a = b) then strip_prefix prefix s else None
  | String _ _, EmptyString => None
  end.

(** [presented]. *)
Definition presented (r : Request) : option string :=
  match rq_header r "x-api-key" with
  | Some key => Some key
  | None => value ← rq_header r "authorization"; strip_prefix "Bearer " value
  end.

(** The comparison of [identify]: as many bytes, and no two that differ. *)
Definition same_token (token system : string) : bool :=
  (str_len token =? str_len system)
  && (foldl (λ d ab, N.lor d (N.lxor (Byte.to_N ab.1) (Byte.to_N ab.2))) 0 (zip (as_bytes token) (as_bytes system)) =? 0).

(** The block of [may_refresh_on_miss]. *)
Definition miss_block (now : N) (last : option N) : bool * option N :=
  if match last with Some at_ms => now - at_ms <? MISS_REFRESH_INTERVAL | None => false end
  then (false, last) else (true, Some now).

Section Operations.
Context `{AccessHost}.
Context (self : Access).

Definition install (grants : Grants) (tag : option string) : Acc unit :=
  _ ← ask (SetGrants grants);
  ask (SetEtag tag).

(** The part of [refresh] that holds the tag. *)
Definition refresh_locked : Acc unit :=
  etag ← ask ReadEtag;
  got ← ask (GetObject etag);
  match got with
  | GotObject tag (Some bytes) =>
    match parse bytes with
    | Ok grants => install grants tag
    | Err e => PReturn (Err (Malformed e))
    end
  | GotObject _ None => PReturn (Err Reading)
  | GotNotModified => PReturn (Ok tt)
  | GotNotFound => install ∅ None
  | GetFailed => PReturn (Err Reading)
  end.

(** [refresh]. *)
Definition refresh : Acc unit :=
  if ac_source self then
    _ ← ask LockEtag;
    finally refresh_locked UnlockEtag
  else PReturn (Ok tt).

(** [lookup]. *)
Definition lookup_grant (grants : Grants) (hash : list byte) (now : N) : option (result Refusal Principal) :=
  (λ grant, match gr_expires_at grant with
            | Some at_s => if at_s <=? now then Err Expired else Ok (PToken (gr_scopes grant))
            | None => Ok (PToken (gr_scopes grant))
            end) <$> grants !! hash.

Definition lookup (hash : list byte) : Acc (option (result Refusal Principal)) :=
  grants ← ask ReadGrants;
  now ← ask NowSeconds;
  PReturn (Ok (lookup_grant grants hash now)).

(** The second half of [identify]: a token that is not known yet. *)
Definition identify_miss (hash : list byte) : Acc (result Refusal Principal) :=
  may ← (if ac_source self then ask MayRefresh else PReturn (Ok false));
  if may : bool then
    _ ← attempt refresh;
    found ← lookup hash;
    PReturn (Ok (default (Err Unknown) found))
  else PReturn (Ok (Err Unknown)).

(** [identify]. *)
Definition identify (r : Request) : Acc (result Refusal Principal) :=
  match presented r with
  | None => PReturn (Ok (Err Missing))
  | Some token =>
    if same_token token (ac_system self) then PReturn (Ok (Ok PSystem))
    else
      let hash := sha256 (as_bytes token) in
      found ← lookup hash;
      match found with
      | Some found => PReturn (Ok found)
      | None => identify_miss hash
      end
  end.

(** What the gate does with a request: hand it to the next handler, or refuse it. *)
Inductive Admission := Next | Refused (status : N) (message : string).

Definition refusal_of (r : Refusal) : Admission :=
  match r with
  | Missing => Refused 401 "no token; send it as x-api-key or a bearer"
  | Unknown => Refused 401 "unauthorized"
  | Expired => Refused 401 "this token has expired"
  end.

Definition denied (required : Required) : Admission :=
  Refused 403 (match required with
               | RData scope => "this token does not have " +:+ scope_name scope
               | _ => "this route is for the platform only"
               end).

(** [gate]. *)
Definition gate (table : gmap (string * string) Required) (r : Request) : Acc Admission :=
  match rq_matched r with
  | None => PReturn (Ok Next)
  | Some path =>
    match table_required table (rq_method r) path with
    | None => PReturn (Ok (Refused 403 (rq_method r +:+ " " +:+ path +:+ " has no access rule, so nobody may call it")))
    | Some required =>
      if bool_decide (required = ROpen) then PReturn (Ok Next)
      else
        who ← identify r;
        PReturn (Ok (match who with
                     | Err refusal => refusal_of refusal
                     | Ok principal => if allows principal required then Next else denied required
                     end))
    end
  end.

End Operations.

(** ** A node and its bucket *)

(** A published version: the object with its tag, or no object. *)
Definition Version : Type := option (list byte * option string).

Record World := mkWorld {
  wo_history : list Version;
  wo_now : N;
  wo_grants : Grants;
  wo_etag : option string;
  wo_locked : bool;
  wo_miss : option N;
}.

(** The last version is the current one. *)
Definition current (s : World) : Version := default None (last (wo_history s)).

(** What becomes of a read, and the wall clock a block reads. *)
Inductive ReadOutcome := Served (body : bool) | ReadError.
Record AccessChoice := mkAccessChoice { cc_read : ReadOutcome; cc_seconds : N }.

(** [GET] with [If-None-Match]. *)
Definition get_object (s : World) (if_none_match : option string) (o : ReadOutcome) : Answer :=
  match o with
  | ReadError => GetFailed
  | Served body =>
    match current s with
    | None => GotNotFound
    | Some (bytes, tag) =>
      if bool_decide (is_Some if_none_match) && bool_decide (if_none_match = tag) then GotNotModified
      else GotObject tag (if body then Some bytes else None)
    end
  end.

Definition set_grants (s : World) (g : Grants) : World :=
  mkWorld (wo_history s) (wo_now s) g (wo_etag s) (wo_locked s) (wo_miss s).
Definition set_etag (s : World) (tag : option string) : World :=
  mkWorld (wo_history s) (wo_now s) (wo_grants s) tag (wo_locked s) (wo_miss s).
Definition set_locked (s : World) (b : bool) : World :=
  mkWorld (wo_history s) (wo_now s) (wo_grants s) (wo_etag s) b (wo_miss s).
Definition set_miss (s : World) (m : option N) : World :=
  mkWorld (wo_history s) (wo_now s) (wo_grants s) (wo_etag s) (wo_locked s) m.

(** The answer to a question; [None] while the lock is taken. *)
Definition answer {X} (q : AReq X) (c : AccessChoice) (s : World) : option (X * World) :=
  match q in AReq X return option (X * World) with
  | ReadGrants => Some (wo_grants s, s)
  | SetGrants g => Some (tt, set_grants s g)
  | LockEtag => if wo_locked s then None else Some (tt, set_locked s true)
  | ReadEtag => Some (wo_etag s, s)
  | SetEtag tag => Some (tt, set_etag s tag)
  | UnlockEtag => Some (tt, set_locked s false)
  | GetObject inm => Some (get_object s inm (cc_read c), s)
  | NowSeconds => Some (cc_seconds c, s)
  | MayRefresh => let '(may, last) := miss_block (wo_now s) (wo_miss s) in Some (may, set_miss s last)
  end.

(** The poll of [spawn_refresh] or a request at the gate. *)
Inductive AccessCall := PollRefresh | GateRequest (r : Request).

(** A call in flight, and the version that was current when it began. *)
Record AccessTask := mkAccessTask { at_call : AccessCall; at_began : nat; at_prog : Acc unit }.

Record AccessRun := mkAccessRun { ar_world : World; ar_tasks : list AccessTask }.

(** Start-up: nothing is known of what the bucket holds. *)
Definition access_start (history : list Version) (now : N) : AccessRun :=
  mkAccessRun (mkWorld history now ∅ None false None) [].

Inductive AccessEvent :=
| Pass (ms : N)
| Publish (v : Version)
| Begin (call : AccessCall)
| Go (i : nat) (c : AccessChoice).

(** A tag names one body. *)
Definition tags_agree (a b : Version) : bool :=
  match a, b with
  | Some (bytes, Some tag), Some (bytes', Some tag') => negb (bool_decide (tag = tag')) || bool_decide (bytes = bytes')
  | _, _ => true
  end.

Section Runs.
Context `{AccessHost}.
Context (self : Access) (table : gmap (string * string) Required).

Definition access_program (call : AccessCall) : Acc unit :=
  match call with
  | PollRefresh => refresh self
  | GateRequest r => forget (gate self table r)
  end.

Definition access_exec (c : AccessRun) (e : AccessEvent) : option AccessRun :=
  let s := ar_world c in
  match e with
  | Pass ms =>
    Some (mkAccessRun (mkWorld (wo_history s) (wo_now s + ms) (wo_grants s) (wo_etag s) (wo_locked s) (wo_miss s)) (ar_tasks c))
  | Publish v =>
    if forallb (tags_agree v) (wo_history s) then
      Some (mkAccessRun (mkWorld (wo_history s ++ [v]) (wo_now s) (wo_grants s) (wo_etag s) (wo_locked s) (wo_miss s)) (ar_tasks c))
    else None
  | Begin call =>
    Some (mkAccessRun s (ar_tasks c ++ [mkAccessTask call (length (wo_history s) - 1) (access_program call)]))
  | Go i choice =>
    match nth_error (ar_tasks c) i with
    | Some (mkAccessTask call began (PAsk q k)) =>
      match answer q choice s with
      | Some (x, s') => Some (mkAccessRun s' (set_nth i (mkAccessTask call began (k x)) (ar_tasks c)))
      | None => None
      end
    | _ => None
    end
  end.

Fixpoint access_run (c : AccessRun) (evs : list AccessEvent) : option AccessRun :=
  match evs with
  | [] => Some c
  | e :: evs => match access_exec c e with Some c' => access_run c' evs | None => None end
  end.

(** The tokens of a version; [None] where it cannot be read. *)
Definition version_grants (v : Version) : option Grants :=
  match v with
  | None => Some ∅
  | Some (bytes, _) => match parse bytes with Ok g => Some g | Err _ => None end
  end.

End Runs.
