(* ===== verification/AccessSafety.v ===== *)
(** * AccessSafety: nobody gets in who may not

    The gate decides by the tokens and the clock it read last, and lets a request through exactly
    when its caller meets the requirement of the route.  And the tokens a node knows never fall
    behind: once a refresh has succeeded they are those of a version that was published no earlier
    than when the refresh began, however refreshes, requests and publications interleave. *)

From S2P Require Import Prelude Text Programs Traces Access.

#[local] Open Scope N_scope.

#[global] Instance Grant_eq_dec : EqDecision Grant.
Proof. solve_decision. Defined.

(** ** Bits and bytes *)

Lemma scopes_contains_iff l s : scopes_contains (scopes_from_iter l) s = true ↔ s ∈ l.
Proof.
  unfold scopes_contains, scopes_from_iter. rewrite negb_true_iff, N.eqb_neq.
  assert (∀ acc, N.land (foldl (λ bits s, N.lor bits (scope_bit s)) acc l) (scope_bit s) ≠ 0
    ↔ N.land acc (scope_bit s) ≠ 0 ∨ s ∈ l) as Hacc.
  { induction l as [|t l IH]; intros acc; cbn [foldl].
    - rewrite elem_of_nil. tauto.
    - rewrite IH, elem_of_cons, N.land_lor_distr_l. destruct (decide (s = t)) as [->|Hne].
      + split; [tauto|]. intros _. left. intros [_ Hz]%N.lor_eq_0_iff. by destruct t.
      + assert (N.land (scope_bit t) (scope_bit s) = 0) as -> by (by destruct t, s).
        rewrite N.lor_0_r. tauto. }
  rewrite Hacc, N.land_0_l. split; [by intros [?|?]|by right].
Qed.

Lemma same_token_iff a b : same_token a b = true ↔ a = b.
Proof.
  unfold same_token, str_len. rewrite andb_true_iff, !N.eqb_eq.
  assert (∀ d l k, len l = len k →
    foldl (λ d ab, N.lor d (N.lxor (Byte.to_N ab.1) (Byte.to_N ab.2))) d (zip l k) = 0 ↔ d = 0 ∧ l = k) as Hz.
  { intros d l. revert d. induction l as [|x l IH]; intros d [|y k] Hl; cbn [zip zip_with foldl];
      rewrite ?len_cons, ?len_nil in Hl; try lia; [naive_solver|].
    rewrite IH by lia. cbn. rewrite N.lor_eq_0_iff, N.lxor_eq_0_iff. split.
    - intros [[-> Hxy] ->]. split; [done|]. assert (x = y) as -> by (rewrite <- (byte_of_to_N x), Hxy; apply byte_of_to_N). done.
    - by intros [-> [= -> ->]]. }
  split.
  - intros [Hl Hd]. rewrite Hz in Hd by done. destruct Hd as [_ Hd]. by apply as_bytes_inj.
  - intros ->. split; [done|]. by apply Hz.
Qed.

(** ** The gate *)

(** The tokens and the clock that were read last. *)
Definition read_event (seen : option Grants * option (Grants * N)) (e : Event AReq) : option Grants * option (Grants * N) :=
  match e with
  | Asked q x =>
    match q in AReq X return X → option Grants * option (Grants * N) with
    | ReadGrants => λ grants, (Some grants, seen.2)
    | NowSeconds => λ now, (seen.1, (λ grants, (grants, now)) <$> seen.1)
    | _ => λ _, seen
    end x
  end.

Definition last_read (tr : list (Event AReq)) : option Grants * option (Grants * N) := foldl read_event (None, None) tr.

Lemma last_read_snoc tr e : last_read (tr ++ [e]) = read_event (last_read tr) e.
Proof. unfold last_read. by rewrite foldl_app. Qed.

Section Gate.
Context `{AccessHost}.
Context (self : Access).

(** A token of the set that has not expired. *)
Definition valid_grant (seen : option (Grants * N)) (token : string) (grant : Grant) : Prop :=
  ∃ grants now, seen = Some (grants, now) ∧ grants !! sha256 (as_bytes token) = Some grant
    ∧ ∀ at_s, gr_expires_at grant = Some at_s → now < at_s.

(** Who may pass, given what was read last. *)
Definition may_pass (table : gmap (string * string) Required) (r : Request) (seen : option (Grants * N)) : Prop :=
  match rq_matched r with
  | None => True
  | Some path =>
    ∃ required, table_required table (rq_method r) path = Some required
      ∧ (required = ROpen
         ∨ ∃ token, presented r = Some token
             ∧ (token = ac_system self
                ∨ ∃ grant scope, valid_grant seen token grant ∧ required = RData scope
                    ∧ scopes_contains (gr_scopes grant) scope = true))
  end.

Abbreviation anything := (λ _ _ _, True).

(** [m] reads neither the tokens nor the clock. *)
Fixpoint reads_nothing {A} (m : Acc A) : Prop :=
  match m with
  | PReturn _ => True
  | PLoops => True
  | PAsk q k => (∀ seen x, read_event seen (Asked q x) = seen) ∧ ∀ x, reads_nothing (k x)
  end.

Lemma reads_nothing_always {A} (m : Acc A) tr :
  reads_nothing m → always anything (λ tr' _, last_read tr' = last_read tr) tr m.
Proof.
  intros Hm. assert (∀ tr', last_read tr' = last_read tr → always anything (λ tr' _, last_read tr' = last_read tr) tr' m) as Hg;
    [|by apply Hg].
  induction m as [r| |X q k IH]; intros tr' Htr; cbn; [done|done|]. destruct Hm as [Hq Hk]. split; [done|].
  intros x. apply IH; [done|]. by rewrite last_read_snoc, Hq.
Qed.

Lemma refresh_reads_nothing : reads_nothing (attempt (refresh self)).
Proof.
  unfold refresh. destruct (ac_source self); [|done]. cbn. split; [done|]. intros _. split; [done|]. intros etag.
  split; [done|]. intros [tag [bytes|]| | |]; cbn; try done. destruct (parse bytes); cbn; done.
Qed.

(** What [identify] concludes from what it read last. *)
Definition identified (r : Request) (seen : option (Grants * N)) (who : result Refusal Principal) : Prop :=
  match presented r with
  | None => who = Err Missing
  | Some token =>
    if same_token token (ac_system self) then who = Ok PSystem
    else ∃ grants now, seen = Some (grants, now)
         ∧ who = default (Err Unknown) (lookup_grant grants (sha256 (as_bytes token)) now)
  end.

Lemma identify_spec r : always anything (λ tr who, identified r (last_read tr).2 who) [] (identify self r).
Proof.
  unfold identify, identified. destruct (presented r) as [token|]; [|by intros ? [= <-]].
  destruct (same_token token (ac_system self)); [by intros ? [= <-]|].
  cbn. split; [done|]. intros grants. split; [done|]. intros now.
  destruct (lookup_grant grants (sha256 (as_bytes token)) now) as [found|] eqn:Hf.
  { intros ? [= <-]. exists grants, now. by rewrite Hf. }
  unfold identify_miss.
  assert (∀ tr, (last_read tr).2 = Some (grants, now) →
    always anything (λ tr who, ∃ grants now, (last_read tr).2 = Some (grants, now)
      ∧ who = default (Err Unknown) (lookup_grant grants (sha256 (as_bytes token)) now)) tr
      (PReturn (Ok (Err Unknown)) : Acc (result Refusal Principal))) as Hno.
  { intros tr Htr ? [= <-]. exists grants, now. by rewrite Hf. }
  destruct (ac_source self); [|by apply Hno]. cbn. split; [done|]. intros [|]; [|by apply Hno].
  eapply always_bind; [apply reads_nothing_always, refresh_reads_nothing|]. intros tr res Htr.
  cbn. split; [done|]. intros grants'. split; [done|]. intros now' ? [= <-]. exists grants', now'.
  by rewrite !last_read_snoc.
Qed.

End Gate.

(** C16: However it is answered, the gate lets a request through exactly when, by the tokens and the
    clock it read last, the caller meets the requirement of the route: no handler matches it, the
    route is open, the caller presents the deployment's token, or one of the set that has not
    expired and holds the scope the route asks for. *)
Theorem gate_admits_exactly `{AccessHost} self table r :
  always (λ _ _ _, True) (λ tr a, a = Next ↔ may_pass self table r (last_read tr).2) [] (gate self table r).
Proof.
  unfold gate, may_pass. destruct (rq_matched r) as [path|]; [|by intros ? [= <-]].
  destruct (table_required table (rq_method r) path) as [required|].
  2: { intros ? [= <-]. split; [done|]. by intros (? & ? & _). }
  case_bool_decide as Hopen; [intros ? [= <-]; subst; naive_solver|].
  eapply always_bind; [apply identify_spec|]. intros tr who Hwho ? [= <-]. unfold identified in Hwho.
  split.
  - intros Hnext. exists required. split; [done|]. right. destruct (presented r) as [token|]; [|by subst who].
    exists token. split; [done|]. destruct (same_token token (ac_system self)) eqn:Hsys.
    { left. by apply same_token_iff. }
    right. destruct Hwho as (grants & now & Hseen & ->). unfold lookup_grant in Hnext.
    destruct (grants !! sha256 (as_bytes token)) as [grant|] eqn:Hg; cbn in Hnext; [|done].
    assert (∀ at_s, gr_expires_at grant = Some at_s → now < at_s) as Hlive.
    { intros at_s He. rewrite He in Hnext. destruct (N.leb_spec at_s now); [done|done]. }
    assert ((if allows (PToken (gr_scopes grant)) required then Next else denied required) = Next) as Hallow.
    { destruct (gr_expires_at grant) as [at_s|]; [|done]. destruct (at_s <=? now); [done|done]. }
    destruct required as [| |scope]; cbn in Hallow; try done.
    exists grant, scope. split_and!; [by exists grants, now|done|]. by destruct (scopes_contains (gr_scopes grant) scope).
  - intros (required' & [= <-] & [?|(token & Hp & Hcase)]); [done|]. rewrite Hp in Hwho.
    destruct (same_token token (ac_system self)) eqn:Hsys; [subst who; by destruct required|].
    destruct Hcase as [->|(grant & scope & (grants & now & Hseen & Hg & Hlive) & -> & Hs)].
    { by rewrite (proj2 (same_token_iff _ _) eq_refl) in Hsys. }
    destruct Hwho as (grants' & now' & Hseen' & ->). rewrite Hseen in Hseen'. injection Hseen' as <- <-.
    unfold lookup_grant. rewrite Hg. cbn. destruct (gr_expires_at grant) as [at_s|]; cbn; [|by rewrite Hs].
    destruct (N.leb_spec at_s now); [specialize (Hlive at_s eq_refl); lia|]. cbn. by rewrite Hs.
Qed.

(** ** Refreshing *)

(** Where a call is in its use of the lock, and what it has read under it. *)
Inductive Phase :=
| Idle (refreshed : bool)
| Holding
| Known (etag : option string)
| Loaded (grants : Grants) (tag : option string)
| Setting (tag : option string)
| Fresh
| Stale.

Definition idle (ph : Phase) : bool := match ph with Idle _ => true | _ => false end.

Section Refresh.
Context `{AccessHost}.

(** What an answer to the conditional read allows. *)
Definition after_get (got : Answer) : Phase :=
  match got with
  | GotObject tag (Some bytes) => match parse bytes with Ok grants => Loaded grants tag | Err _ => Stale end
  | GotObject _ None | GetFailed => Stale
  | GotNotModified => Fresh
  | GotNotFound => Loaded ∅ None
  end.

(** The protocol of the lock: [None] is a question out of turn. *)
Definition step_phase (ph : Phase) {X} (q : AReq X) : X → option Phase :=
  match q in AReq X return X → option Phase with
  | ReadGrants => λ _, if idle ph then Some ph else None
  | NowSeconds => λ _, if idle ph then Some ph else None
  | MayRefresh => λ _, if idle ph then Some ph else None
  | LockEtag => λ _, if idle ph then Some Holding else None
  | ReadEtag => λ e, match ph with Holding => Some (Known e) | _ => None end
  | GetObject e => λ got, match ph with
                          | Known e' => if bool_decide (e' = e) then Some (after_get got) else None
                          | _ => None
                          end
  | SetGrants g => λ _, match ph with
                        | Loaded g' tag => if bool_decide (g' = g) then Some (Setting tag) else None
                        | _ => None
                        end
  | SetEtag tag => λ _, match ph with
                        | Setting tag' => if bool_decide (tag' = tag) then Some Fresh else None
                        | _ => None
                        end
  | UnlockEtag => λ _, match ph with Fresh => Some (Idle true) | Stale => Some (Idle false) | _ => None end
  end.

(** [m] follows the protocol from [ph] on, and ends as [R] says. *)
Fixpoint follows {A} (ph : Phase) (R : Phase → result RefreshError A → Prop) (m : Acc A) : Prop :=
  match m with
  | PReturn r => R ph r
  | PLoops => True
  | PAsk q k => ∀ x, match step_phase ph q x with Some ph' => follows ph' R (k x) | None => False end
  end.

Lemma follows_bind {A B} ph R0 R (m : Acc A) (f : A → Acc B) :
  follows ph R0 m →
  (∀ ph r, R0 ph r → match r with Ok a => follows ph R (f a) | Err e => R ph (Err e) end) →
  follows ph R (m ≫= f).
Proof.
  intros Hm Hf. revert ph Hm. induction m as [r| |X q k IH]; intros ph Hm.
  - specialize (Hf ph r Hm). by destruct r.
  - done.
  - intros x. specialize (Hm x). cbn in *. destruct (step_phase ph q x); [|done]. by apply IH.
Qed.

Lemma follows_attempt {A} ph R R' (m : Acc A) :
  follows ph R m → (∀ ph r, R ph r → R' ph (Ok r)) → follows ph R' (attempt m).
Proof.
  intros Hm Hf. revert ph Hm. induction m as [r| |X q k IH]; intros ph Hm; cbn in *; [by apply Hf|done|].
  intros x. specialize (Hm x). destruct (step_phase ph q x); [|done]. by apply IH.
Qed.

(** The end of a refresh: the lock is free again, and success means it read or confirmed. *)
Definition refreshed {A} (ph : Phase) (r : result RefreshError A) : Prop :=
  ∃ b, ph = Idle b ∧ (is_ok r = true → b = true).

Lemma refresh_follows self b : ac_source self = true → follows (Idle b) refreshed (refresh self).
Proof.
  intros Hs. unfold refresh. rewrite Hs. cbn. intros ? etag. rewrite bool_decide_eq_true_2 by done.
  assert (∀ ph r, (ph = Fresh ∨ (ph = Stale ∧ is_ok r = false)) →
    follows ph refreshed (PAsk UnlockEtag (λ _, PReturn r) : Acc unit)) as Hend.
  { intros ph r [->|[-> Hr]] y; cbn; [by exists true|]. exists false. by rewrite Hr. }
  intros [tag [bytes|]| | |]; cbn [after_get].
  - destruct (parse bytes) as [grants|e] eqn:Hp.
    + cbn. intros ?. rewrite bool_decide_eq_true_2 by done. intros ?. rewrite bool_decide_eq_true_2 by done.
      intros ?. by exists true.
    + apply Hend. by right.
  - apply Hend. by right.
  - apply Hend. by left.
  - cbn. intros ?. rewrite bool_decide_eq_true_2 by done. intros ?. rewrite bool_decide_eq_true_2 by done.
    intros ?. by exists true.
  - apply Hend. by right.
Qed.

(** The end of anything else: the lock is free. *)
Definition released {A} (ph : Phase) (r : result RefreshError A) : Prop := ∃ b, ph = Idle b.

Lemma lookup_follows b hash : follows (Idle b) released (lookup hash).
Proof. intros grants now. by exists b. Qed.

Lemma gate_follows self table r b : ac_source self = true → follows (Idle b) released (forget (gate self table r)).
Proof.
  intros Hs. unfold forget. eapply (follows_bind _ released); [|intros ph [a|e] Hr; exact Hr].
  unfold gate. destruct (rq_matched r); [|by exists b]. destruct (table_required _ _ _); [|by exists b].
  case_bool_decide; [by exists b|].
  eapply (follows_bind _ released); [|intros ph [a|e] Hr; exact Hr].
  unfold identify. destruct (presented r) as [token|]; [|by exists b]. destruct (same_token _ _); [by exists b|].
  eapply follows_bind; [apply lookup_follows|]. intros ph [[found|]|e] [b' ->]; [by exists b'| |by exists b'].
  unfold identify_miss. rewrite Hs. intros [|]; cbn [step_phase idle]; [|by exists b'].
  eapply (follows_bind _ released).
  { eapply follows_attempt; [by apply refresh_follows|]. intros ph res (b2 & -> & _). by exists b2. }
  intros ph [res|e] [b2 ->]; [|by exists b2].
  eapply follows_bind; [apply lookup_follows|]. intros ph [found|e] [b3 ->]; by exists b3.
Qed.

(** ** Runs *)

(** The tokens [g] are those of version [w], which is among the published ones. *)
Definition of_version (s : World) (g : Grants) (w : nat) : Prop :=
  ∃ v, wo_history s !! w = Some v ∧ version_grants v = Some g.

(** A tag the node keeps belongs to a body with the tokens [g]. *)
Definition tag_of (s : World) (g : Grants) (tag : option string) : Prop :=
  ∀ e, tag = Some e → ∃ bytes w, wo_history s !! w = Some (Some (bytes, Some e)) ∧ parse bytes = Ok g.

(** Version [w] is installed, and it is no older than [began]. *)
Definition caught_up (w : option nat) (began : nat) : Prop := ∃ w', w = Some w' ∧ (began ≤ w')%nat.

(** What the phase of a call that began at version [began] says of the node, whose tokens are
    those of version [w]. *)
Definition phase_ok (s : World) (w : option nat) (began : nat) (ph : Phase) : Prop :=
  match ph with
  | Idle b => b = true → caught_up w began
  | Holding | Stale => tag_of s (wo_grants s) (wo_etag s)
  | Known e => tag_of s (wo_grants s) (wo_etag s) ∧ e = wo_etag s
  | Loaded g tag =>
    tag_of s (wo_grants s) (wo_etag s)
    ∧ ∃ u, of_version s g u ∧ tag_of s g tag ∧ (began ≤ u)%nat ∧ (∀ w', w = Some w' → (w' ≤ u)%nat)
  | Setting tag => tag_of s (wo_grants s) tag ∧ caught_up w began
  | Fresh => tag_of s (wo_grants s) (wo_etag s) ∧ caught_up w began
  end.

(** A call in flight follows the protocol from its phase on; a refresh ends as [refreshed]. *)
Definition task_follows (tk : AccessTask) (ph : Phase) : Prop :=
  follows ph (match at_call tk with PollRefresh => refreshed | GateRequest _ => released end) (at_prog tk).

(** The parts of the world the invariant speaks of. *)
Definition same_node (s s' : World) : Prop :=
  wo_history s' = wo_history s ∧ wo_grants s' = wo_grants s ∧ wo_etag s' = wo_etag s.

Lemma phase_ok_ext s s' w began ph : same_node s s' → phase_ok s w began ph → phase_ok s' w began ph.
Proof. intros (Hh & Hg & He). unfold phase_ok, of_version, tag_of. by rewrite Hh, Hg, He. Qed.

(** A call that does not hold the lock changes nothing, or takes the lock. *)
Lemma idle_step s ph X (q : AReq X) c x s' ph' :
  idle ph = true → answer q c s = Some (x, s') → step_phase ph q x = Some ph' →
  (same_node s s' ∧ wo_locked s' = wo_locked s ∧ ph' = ph)
  ∨ (same_node s s' ∧ wo_locked s = false ∧ wo_locked s' = true ∧ ph' = Holding).
Proof.
  intros Hid Ha Hs. destruct ph as [b| | | | | |]; try done.
  destruct q; cbn in Ha, Hs; try done; try (injection Ha as <- <-; injection Hs as <-; by left).
  - destruct (wo_locked s) eqn:Hl; [done|]. injection Ha as <- <-. injection Hs as <-. by right.
  - destruct (miss_block _ _). injection Ha as <- <-. injection Hs as <-. by left.
Qed.

Definition installed (s : World) (w : option nat) : Prop :=
  match w with Some w' => of_version s (wo_grants s) w' | None => wo_etag s = None end.

(** What the holder of the lock has read is the current version. *)
Lemma get_step s w began etag o :
  wo_history s ≠ [] → (∀ i j a b, wo_history s !! i = Some a → wo_history s !! j = Some b → tags_agree a b = true) →
  installed s w → tag_of s (wo_grants s) (wo_etag s) → etag = wo_etag s → (began < length (wo_history s))%nat →
  let ph' := after_get (get_object s etag o) in
  ∃ w', installed s w' ∧ phase_ok s w' began ph' ∧ (∀ b, caught_up w b → caught_up w' b) ∧ idle ph' = false.
Proof.
  intros Hne Htags Hw Htag -> Hb ph'.
  set (u := (length (wo_history s) - 1)%nat).
  assert (wo_history s !! u = Some (current s)) as Hcur.
  { unfold u, current. rewrite Nat.sub_1_r, <- last_lookup. destruct (last (wo_history s)) eqn:Hl; [done|].
    by apply last_None in Hl. }
  assert (∀ w', w = Some w' → (w' ≤ u)%nat) as Hu.
  { intros w' ->. destruct Hw as (v & Hv & _). apply lookup_lt_Some in Hv. unfold u. lia. }
  assert (phase_ok s w began Stale ∧ idle Stale = false) as Hstale by done.
  assert (∀ g tag, version_grants (current s) = Some g → tag_of s g tag →
    phase_ok s w began (Loaded g tag)) as Hload.
  { intros g tag Hg Ht. split; [done|]. exists u. split_and!; [by exists (current s)|done|unfold u; lia|done]. }
  unfold ph', get_object. destruct o as [body|]; [|exists w; naive_solver].
  destruct (current s) as [[bytes tag]|] eqn:Hc; [|exists w; split_and!; try done; by apply Hload].
  case_bool_decide as Hsome; [case_bool_decide as Heq|]; cbn [andb after_get].
  - destruct Hsome as [e He]. destruct (Htag e He) as (bytes' & i & Hi & Hp).
    pose proof (Htags i u _ _ Hi Hcur) as Hag. rewrite He in Heq. subst tag. cbn in Hag.
    rewrite bool_decide_eq_true_2 in Hag by done. cbn in Hag. apply bool_decide_eq_true in Hag as ->.
    exists (Some u). assert (installed s (Some u)) as Hin by (exists (Some (bytes, Some e)); split; [done|]; cbn; by rewrite Hp).
    split_and!; [done|by split_and!; [|exists u; split; [|unfold u; lia]]| |done].
    intros b (w' & -> & ?). exists u. split; [done|]. specialize (Hu w' eq_refl). lia.
  - destruct body; cbn; [|by exists w]. destruct (parse bytes) as [g|] eqn:Hp; [|by exists w].
    exists w. split_and!; try done. apply Hload; [cbn; by rewrite Hp|]. intros e ->. by exists bytes, u.
  - destruct body; cbn; [|by exists w]. destruct (parse bytes) as [g|] eqn:Hp; [|by exists w].
    exists w. split_and!; try done. apply Hload; [cbn; by rewrite Hp|]. intros e ->. by exists bytes, u.
Qed.

(** A step of the holder of the lock. *)
Lemma holder_step s w began ph X (q : AReq X) c x s' ph' :
  wo_history s ≠ [] → (∀ i j a b, wo_history s !! i = Some a → wo_history s !! j = Some b → tags_agree a b = true) →
  installed s w → phase_ok s w began ph → idle ph = false → wo_locked s = true → (began < length (wo_history s))%nat →
  answer q c s = Some (x, s') → step_phase ph q x = Some ph' →
  wo_history s' = wo_history s ∧ ∃ w', installed s' w' ∧ phase_ok s' w' began ph'
    ∧ (∀ b, caught_up w b → caught_up w' b)
    ∧ if idle ph' then wo_locked s' = false ∧ tag_of s' (wo_grants s') (wo_etag s') else wo_locked s' = true.
Proof.
  intros Hne Htags Hw Hph Hid Hl Hb Ha Hs. destruct ph as [b| |e|g tag|tag| |]; try done;
    destruct q; cbn in Ha, Hs; try done.
  - injection Ha as <- <-. injection Hs as <-. split; [done|]. by exists w.
  - case_bool_decide as He; [|done]. subst. injection Ha as <- <-. injection Hs as <-. destruct Hph as [Htag ->].
    split; [done|]. destruct (get_step s w began (wo_etag s) (cc_read c) Hne Htags Hw Htag eq_refl Hb) as (w' & ? & ? & ? & Hi).
    exists w'. by rewrite Hi.
  - case_bool_decide; [|done]. subst. injection Ha as <- <-. injection Hs as <-. split; [done|].
    destruct Hph as (_ & u & Hu & Ht & Hbu & Hwu). exists (Some u). split_and!; [done|split; [done|by exists u]| |done].
    intros b (w' & -> & ?). exists u. split; [done|]. specialize (Hwu w' eq_refl). lia.
  - case_bool_decide; [|done]. subst. injection Ha as <- <-. injection Hs as <-. split; [done|].
    destruct Hph as [Ht Hc]. exists w. split_and!; [|done..]. destruct Hc as (w' & -> & _). done.
  - injection Ha as <- <-. injection Hs as <-. split; [done|]. destruct Hph. exists w. split_and!; [done|by intros _|done|by split].
  - injection Ha as <- <-. injection Hs as <-. split; [done|]. exists w. split_and!; [done|by intros ?|done|by split].
Qed.

(** The calls in flight, each in its phase; the node's tokens are those of version [w]. *)
Record run_ok (c : AccessRun) (w : option nat) (phase : nat → Phase) : Prop := {
  ro_history : wo_history (ar_world c) ≠ [];
  ro_tags i j a b : wo_history (ar_world c) !! i = Some a → wo_history (ar_world c) !! j = Some b → tags_agree a b = true;
  ro_installed : installed (ar_world c) w;
  ro_tasks i tk : ar_tasks c !! i = Some tk → task_follows tk (phase i)
    ∧ phase_ok (ar_world c) w (at_began tk) (phase i) ∧ (at_began tk < length (wo_history (ar_world c)))%nat;
  ro_lock : wo_locked (ar_world c) = false → tag_of (ar_world c) (wo_grants (ar_world c)) (wo_etag (ar_world c));
  ro_one i tk : ar_tasks c !! i = Some tk → idle (phase i) = false → wo_locked (ar_world c) = true
    ∧ ∀ j tk', ar_tasks c !! j = Some tk' → j ≠ i → idle (phase j) = true;
}.

(** A change of the world that the calls in flight do not notice. *)
Lemma run_ok_world c s' w phase :
  run_ok c w phase → same_node (ar_world c) s' → wo_locked s' = wo_locked (ar_world c) → run_ok (mkAccessRun s' (ar_tasks c)) w phase.
Proof.
  intros Hc Hsame Hl. destruct Hsame as (Hh & Hg & He) eqn:Hsame'. clear Hsame'.
  split; cbn; rewrite ?Hh, ?Hl; try apply Hc.
  - pose proof (ro_installed _ _ _ Hc) as Hi. unfold installed, of_version in *. by rewrite Hh, Hg, He.
  - intros i tk Htk. destruct (ro_tasks _ _ _ Hc _ _ Htk) as (? & Hp & ?). split_and!; [done| |done]. by eapply phase_ok_ext.
  - intros Hf. pose proof (ro_lock _ _ _ Hc Hf) as Ht. unfold tag_of in *. by rewrite Hh, Hg, He.
Qed.

Lemma tags_agree_sym a b : tags_agree a b = tags_agree b a.
Proof.
  destruct a as [[x [e|]]|], b as [[y [e'|]]|]; cbn; try done. f_equal; [f_equal|]; apply bool_decide_ext; by split.
Qed.

Lemma tags_agree_refl a : tags_agree a a = true.
Proof. destruct a as [[x [e|]]|]; cbn; try done. by rewrite !bool_decide_eq_true_2. Qed.

Lemma publish_ok c v w phase :
  let s := ar_world c in
  run_ok c w phase → forallb (tags_agree v) (wo_history s) = true →
  run_ok (mkAccessRun (mkWorld (wo_history s ++ [v]) (wo_now s) (wo_grants s) (wo_etag s) (wo_locked s) (wo_miss s)) (ar_tasks c)) w phase.
Proof.
  intros s Hc Hv. set (s' := mkWorld _ _ _ _ _ _). rewrite forallb_forall in Hv.
  assert (∀ g u, of_version s g u → of_version s' g u) as Hver.
  { intros g u (x & Hx & Hg). exists x. split; [by apply lookup_app_l_Some|done]. }
  assert (∀ g tag, tag_of s g tag → tag_of s' g tag) as Htag.
  { intros g tag Ht e He. destruct (Ht e He) as (bytes & u & Hu & Hp). exists bytes, u. split; [by apply lookup_app_l_Some|done]. }
  split; cbn; try apply Hc.
  - intros [? Heq]%app_eq_nil. done.
  - intros i j a b Ha Hb. apply lookup_app_Some in Ha as [Ha|[_ Ha]], Hb as [Hb|[_ Hb]].
    + by eapply (ro_tags _ _ _ Hc).
    + apply list_lookup_singleton_Some in Hb as [_ <-]. rewrite tags_agree_sym. apply Hv.
      by eapply list_elem_of_In, list_elem_of_lookup_2.
    + apply list_lookup_singleton_Some in Ha as [_ <-]. apply Hv. by eapply list_elem_of_In, list_elem_of_lookup_2.
    + apply list_lookup_singleton_Some in Ha as [_ <-], Hb as [_ <-]. apply tags_agree_refl.
  - pose proof (ro_installed _ _ _ Hc) as Hi. destruct w; [by apply Hver|done].
  - intros i tk Htk. destruct (ro_tasks _ _ _ Hc _ _ Htk) as (? & Hp & Hlt). split_and!; [done| |rewrite length_app; fold s in Hlt; cbn; lia].
    destruct (phase i); cbn in *; try done; try (by apply Htag); try (destruct Hp; split; [by apply Htag|done]).
    destruct Hp as (? & u & ? & ? & ? & ?). split; [by apply Htag|]. exists u. split_and!; [by apply Hver|by apply Htag|done|done].
  - intros Hf. apply Htag. by apply (ro_lock _ _ _ Hc).
Qed.

(** The phases after call [i] entered [ph]. *)
Definition set_phase (phase : nat → Phase) (i : nat) (ph : Phase) : nat → Phase :=
  λ j, if decide (j = i) then ph else phase j.

Lemma set_phase_eq phase i ph : set_phase phase i ph i = ph.
Proof. unfold set_phase. by rewrite decide_True. Qed.

Lemma set_phase_ne phase i ph j : j ≠ i → set_phase phase i ph j = phase j.
Proof. unfold set_phase. intros ?. by rewrite decide_False. Qed.

Lemma go_ok c i call began X (q : AReq X) k choice x s' w phase :
  run_ok c w phase → ar_tasks c !! i = Some (mkAccessTask call began (PAsk q k)) → answer q choice (ar_world c) = Some (x, s') →
  ∃ w' phase', run_ok (mkAccessRun s' (set_nth i (mkAccessTask call began (k x)) (ar_tasks c))) w' phase'.
Proof.
  intros Hc Hi Ha. destruct (ro_tasks _ _ _ Hc _ _ Hi) as (Hf & Hp & Hb). specialize (Hf x). cbn in Hp, Hb.
  destruct (step_phase (phase i) q x) as [ph'|] eqn:Hs; [|done].
  destruct (idle (phase i)) eqn:Hid.
  - assert (same_node (ar_world c) s' ∧ phase_ok (ar_world c) w began ph' ∧
      ((wo_locked s' = wo_locked (ar_world c) ∧ idle ph' = true) ∨ (wo_locked (ar_world c) = false ∧ wo_locked s' = true ∧ idle ph' = false)))
      as (Hsame & Hp' & Hcase).
    { destruct (idle_step _ _ _ _ _ _ _ _ Hid Ha Hs) as [(? & ? & ->)|(? & Hl & ? & ->)]; [auto|].
      split_and!; [done| |auto]. by apply (ro_lock _ _ _ Hc). }
    exists w, (set_phase phase i ph'). destruct Hsame as (Hh & Hg & He) eqn:Hsame'. clear Hsame'.
    split; cbn; rewrite ?Hh.
    + apply Hc.
    + apply Hc.
    + pose proof (ro_installed _ _ _ Hc) as Hin. unfold installed, of_version in *. by rewrite Hh, Hg, He.
    + intros j tk [[<- <-]|[Hne Hj]]%set_nth_Some.
      * rewrite set_phase_eq. split_and!; [done|by eapply phase_ok_ext|done].
      * rewrite set_phase_ne by done. destruct (ro_tasks _ _ _ Hc _ _ Hj) as (? & ? & ?). split_and!; [done|by eapply phase_ok_ext|done].
    + intros Hu. assert (wo_locked (ar_world c) = false) as Hu0 by (destruct Hcase as [[<- _]|(? & ? & _)]; [done|congruence]).
      pose proof (ro_lock _ _ _ Hc Hu0) as Ht. unfold tag_of in *. by rewrite Hh, Hg, He.
    + intros j tk [[<- <-]|[Hne Hj]]%set_nth_Some; rewrite ?set_phase_eq, ?set_phase_ne by done.
      * intros Hb'. destruct Hcase as [[_ ?]|(Hl & ? & _)]; [congruence|]. split; [done|].
        intros j' tk' [[<- _]|[Hne' Hj']]%set_nth_Some Hjn; [done|]. rewrite set_phase_ne by done.
        destruct (idle (phase j')) eqn:Hidj; [done|]. destruct (ro_one _ _ _ Hc _ _ Hj' Hidj). congruence.
      * intros Hbusy. destruct (ro_one _ _ _ Hc _ _ Hj Hbusy) as [Hl Hothers].
        destruct Hcase as [[Hl' Hph']|(? & _)]; [|congruence]. split; [congruence|].
        intros j' tk' [[<- _]|[Hne' Hj']]%set_nth_Some Hjn; [by rewrite set_phase_eq|]. rewrite set_phase_ne by done. eauto.
  - destruct (ro_one _ _ _ Hc _ _ Hi Hid) as [Hl Hothers].
    destruct (holder_step _ w began _ _ _ _ _ _ _ (ro_history _ _ _ Hc) (ro_tags _ _ _ Hc) (ro_installed _ _ _ Hc) Hp Hid Hl Hb Ha Hs)
      as (Hh & w' & Hin & Hp' & Hmono & Hend).
    exists w', (set_phase phase i ph'). split; cbn; rewrite ?Hh; try apply Hc.
    + done.
    + intros j tk [[<- <-]|[Hne Hj]]%set_nth_Some.
      * rewrite set_phase_eq. done.
      * rewrite set_phase_ne by done. destruct (ro_tasks _ _ _ Hc _ _ Hj) as (? & Hpj & ?). split_and!; [done| |done].
        specialize (Hothers j tk Hj (not_eq_sym Hne)). destruct (phase j); try done. cbn in *. auto.
    + intros Hu. destruct (idle ph'); [by destruct Hend|congruence].
    + intros j tk [[<- <-]|[Hne Hj]]%set_nth_Some; rewrite ?set_phase_eq, ?set_phase_ne by done.
      * intros Hb'. rewrite Hb' in Hend. split; [done|].
        intros j' tk' [[<- _]|[Hne' Hj']]%set_nth_Some Hjn; [done|]. rewrite set_phase_ne by done. eauto.
      * intros Hbusy. specialize (Hothers j tk Hj (not_eq_sym Hne)). congruence.
Qed.

Lemma access_exec_ok self table c e c' w phase :
  ac_source self = true → run_ok c w phase → access_exec self table c e = Some c' → ∃ w' phase', run_ok c' w' phase'.
Proof.
  intros Hs Hc He. destruct e as [ms|v|call|i choice]; cbn in He.
  - injection He as <-. exists w, phase. by apply run_ok_world.
  - destruct (forallb _ _) eqn:Hv; [|done]. injection He as <-. exists w, phase. by apply publish_ok.
  - injection He as <-. exists w, (set_phase phase (length (ar_tasks c)) (Idle false)).
    assert (∀ i tk, ar_tasks c !! i = Some tk → i ≠ length (ar_tasks c)) as Hold.
    { intros i tk Hi ->. rewrite lookup_ge_None_2 in Hi; [done|lia]. }
    assert (∀ i tk, (ar_tasks c ++ [mkAccessTask call (length (wo_history (ar_world c)) - 1) (access_program self table call)]) !! i = Some tk →
      (ar_tasks c !! i = Some tk ∧ i ≠ length (ar_tasks c)) ∨ (i = length (ar_tasks c)
        ∧ tk = mkAccessTask call (length (wo_history (ar_world c)) - 1) (access_program self table call))) as Hnew.
    { intros i tk [Hi|[Hle [Hz <-]%list_lookup_singleton_Some]]%lookup_app_Some; [left; eauto|right]. split; [lia|done]. }
    split; cbn; try apply Hc.
    + intros i tk [[Hi Hne]|[-> ->]]%Hnew; [rewrite set_phase_ne by done; by apply (ro_tasks _ _ _ Hc)|].
      rewrite set_phase_eq. split_and!; [|done|].
      * unfold task_follows. destruct call; cbn; [by apply refresh_follows|by apply gate_follows].
      * cbn. pose proof (ro_history _ _ _ Hc). destruct (wo_history (ar_world c)); [done|]. cbn. lia.
    + intros i tk [[Hi Hne]|[-> ->]]%Hnew; [rewrite set_phase_ne by done|by rewrite set_phase_eq].
      intros Hb. destruct (ro_one _ _ _ Hc _ _ Hi Hb) as [? Ho]. split; [done|].
      intros j tk' [[Hj Hnj]|[-> ->]]%Hnew Hij; [rewrite set_phase_ne by done; eauto|by rewrite set_phase_eq].
  - rewrite nth_error_is in He. destruct (ar_tasks c !! i) as [[call began [r| |X q k]]|] eqn:Hi; try done.
    destruct (answer q choice (ar_world c)) as [[x s']|] eqn:Ha; [|done]. injection He as <-. by eapply go_ok.
Qed.

Lemma access_run_ok self table c evs c' w phase :
  ac_source self = true → run_ok c w phase → access_run self table c evs = Some c' → ∃ w' phase', run_ok c' w' phase'.
Proof.
  intros Hs. revert c w phase. induction evs as [|e evs IH]; intros c w phase Hc Hr; cbn in Hr; [injection Hr as <-; eauto|].
  destruct (access_exec self table c e) as [c1|] eqn:He; [|done].
  destruct (access_exec_ok _ _ _ _ _ _ _ Hs Hc He) as (w' & phase' & Hc'). by eapply IH.
Qed.

Lemma access_start_ok history now :
  history ≠ [] → (∀ i j a b, history !! i = Some a → history !! j = Some b → tags_agree a b = true) →
  run_ok (access_start history now) None (λ _, Idle false).
Proof. intros Hne Ht. by split; cbn. Qed.

End Refresh.

(** C24: However refreshes, requests at the gate and publications interleave, and whatever reads fail:
    once a refresh has succeeded, the node's tokens are those of one published version, and that
    version is no older than the one that was current when the refresh began.  So a token that a
    version revokes is refused by whoever looks it up after a later refresh succeeded. *)
Theorem refresh_catches_up `{AccessHost} self table history now evs c i began :
  ac_source self = true → history ≠ [] →
  (∀ i j a b, history !! i = Some a → history !! j = Some b → tags_agree a b = true) →
  access_run self table (access_start history now) evs = Some c →
  ar_tasks c !! i = Some (mkAccessTask PollRefresh began (PReturn (Ok tt))) →
  ∃ w v, (began ≤ w)%nat ∧ wo_history (ar_world c) !! w = Some v ∧ version_grants v = Some (wo_grants (ar_world c)).
Proof.
  intros Hs Hne Ht Hrun Hi.
  destruct (access_run_ok self table _ _ _ _ _ Hs (access_start_ok history now Hne Ht) Hrun) as (w & phase & Hc).
  destruct (ro_tasks _ _ _ Hc _ _ Hi) as (Hf & Hp & _). destruct Hf as (b & Hb & Hok). rewrite Hb in Hp.
  destruct (Hp (Hok eq_refl)) as (w' & -> & Hle). destruct (ro_installed _ _ _ Hc) as (v & Hv & Hg). by exists w', v.
Qed.
