(* ===== verification/AccessToy.v ===== *)
(** * AccessToy: a token that is granted and revoked *)

From S2P Require Import Prelude Text Programs Traces Access AccessSafety.

#[local] Open Scope N_scope.

Definition x_token : string := "token-token-token-token-token-32".

(** Digests that are the text itself, and two published sets. *)
#[local] Instance x_host : AccessHost := {|
  published_from_slice b :=
    if bool_decide (b = as_bytes "granted") then Some (mkPublished 1 [mkPublishedToken "tok_1" x_token ["data:read"] None])
    else if bool_decide (b = as_bytes "revoked") then Some (mkPublished 1 []) else None;
  hex_decode s := Some (as_bytes s);
  sha256 b := b;
|}.

Definition x_self : Access := mkAccess "deployment" true.
Definition x_table : gmap (string * string) Required := routes_table [mkRule "GET" "/v1/query" (RData SRead)].
Definition x_request : Request :=
  mkRequest (Some "/v1/query") "GET" (λ name, if bool_decide (name = "x-api-key") then Some x_token else None).

Definition x_served : AccessChoice := mkAccessChoice (Served true) 1000.

Definition x_go (i n : nat) : list AccessEvent := repeat (Go i x_served) n.

(** The token is published and read; it is revoked, and read again. *)
Definition x_granted : list AccessEvent :=
  [Publish (Some (as_bytes "granted", Some "e1")); Begin PollRefresh] ++ x_go 0 6.
Definition x_revoked : list AccessEvent :=
  x_granted ++ [Publish (Some (as_bytes "revoked", Some "e2")); Begin PollRefresh] ++ x_go 1 6.

Definition x_end (evs : list AccessEvent) : AccessRun :=
  default (access_start [] 0) (access_run x_self x_table (access_start [None] 0) evs).

(** What a request at the gate would be told with these tokens, read at [now]. *)
Definition x_lookup (evs : list AccessEvent) (now : N) : option (result Refusal Principal) :=
  lookup_grant (wo_grants (ar_world (x_end evs))) (sha256 (as_bytes x_token)) now.

Example x_outcomes : x_lookup x_granted 1000 = Some (Ok (PToken 1)) ∧ x_lookup x_revoked 1000 = None.
Proof. split; vm_compute; reflexivity. Qed.

(** While reads fail, the old set is kept, for however long. *)
Example failed_reads_keep_tokens :
  x_lookup (x_granted ++ [Publish (Some (as_bytes "revoked", Some "e2")); Pass 3600000; Begin PollRefresh]
            ++ x_go 1 2 ++ [Go 1 (mkAccessChoice ReadError 4600)] ++ x_go 1 1) 4600 = Some (Ok (PToken 1)).
Proof. vm_compute. reflexivity. Qed.

Lemma refresh_catches_up_witness :
  ∃ w v, (2 ≤ w)%nat ∧ wo_history (ar_world (x_end x_revoked)) !! w = Some v
    ∧ version_grants v = Some (wo_grants (ar_world (x_end x_revoked))).
Proof.
  apply (refresh_catches_up x_self x_table [None] 0 x_revoked (x_end x_revoked) 1 2).
  - reflexivity.
  - discriminate.
  - intros [|i] [|j] a b Ha Hb; try discriminate; injection Ha as <-; injection Hb as <-; reflexivity.
  - vm_compute. reflexivity.
  - vm_compute. reflexivity.
Defined.
