(* ===== verification/Literal.v ===== *)
(** * Literal: what a field's value is

    [crates/walleye-node/src/ingest/literal.rs]: the literals a client sent, the kinds a column
    can have, the conversion of one value to one kind, and the kinds a sample admits.

    A text is the list of its bytes; [i64] and [i128] are [Z] with their bounds checked where the
    code checks them, and [f64] is the [spec_float] of binary64, which [parse::<f64>] rounds to.
    The JSON string codec and the date parsers of [chrono] are parameters. *)

From Stdlib Require Import SpecFloat.
From S2P Require Import Prelude Text Cron.

#[local] Open Scope Z_scope.

(** ** Kinds *)

Inductive Kind :=
| KBoolean | KInt64 | KFloat64 | KDecimal | KTimestampIso | KTimestampSeconds | KTimestampMillis | KTimestampMicros
| KString | KJson.

#[global] Instance Kind_eq_dec : EqDecision Kind.
Proof. solve_decision. Defined.

(** [Kind::ALL]. *)
Definition kind_all : list Kind :=
  [KBoolean; KInt64; KFloat64; KDecimal; KTimestampIso; KTimestampSeconds; KTimestampMillis; KTimestampMicros; KString; KJson].

(** [Kind::name]. *)
Definition kind_name (k : Kind) : string :=
  match k with
  | KBoolean => "boolean"
  | KInt64 => "int64"
  | KFloat64 => "float64"
  | KDecimal => "decimal"
  | KTimestampIso => "timestamp_text"
  | KTimestampSeconds => "timestamp_seconds"
  | KTimestampMillis => "timestamp_millis"
  | KTimestampMicros => "timestamp_micros"
  | KString => "string"
  | KJson => "json"
  end.

(** [Kind::from_name]. *)
Definition kind_from_name (name : string) : option Kind := head (filter (λ k, kind_name k = name) kind_all).

(** [Kind::storage]. *)
Definition kind_storage (k : Kind) : string :=
  match k with
  | KBoolean => "boolean"
  | KInt64 => "int64"
  | KFloat64 => "float64"
  | KDecimal => "decimal"
  | KTimestampIso | KTimestampSeconds | KTimestampMillis | KTimestampMicros => "timestamp"
  | KString => "string"
  | KJson => "json"
  end.

(** [Kind::keyable]. *)
Definition kind_keyable (k : Kind) : bool := match k with KInt64 | KString | KBoolean => true | _ => false end.

(** ** Literals and values *)

Inductive Literal :=
| LNull
| LBool (value : bool)
| LNumber (text : str)
| LText (text : str)
| LObject (text : str)
| LArray (text : str).

Inductive Value :=
| VBool (value : bool)
| VInt (value : Z)
| VFloat (value : spec_float)
| VDecimal (value : Z)
| VMicros (value : Z)
| VText (value : str).

Definition DECIMAL_SCALE : nat := 9.
Definition DECIMAL_PRECISION : nat := 38.

Class LiteralHost := {
  (** [serde_json::from_str::<String>] and [to_string] *)
  json_read_string : str → option str;
  json_write_string : str → str;
  (** [DateTime::parse_from_rfc3339], [NaiveDateTime::parse_from_str] and [NaiveDate::parse_from_str]
      with the day's midnight, each as microseconds since 1970 *)
  rfc3339_micros : str → option Z;
  naive_micros : string → str → option Z;
  date_micros : str → option Z;
}.

(** [char::is_ascii_digit] on a byte, and its value. *)
Definition is_digit (b : byte) : bool := in_range 0x30 0x39 b.
Definition digit_value (b : byte) : Z := Z.of_N (Byte.to_N b) - 48.

(** The number a sequence of digits writes. *)
Definition digits_value (l : str) : Z := foldl (λ acc b, acc * 10 + digit_value b) 0 l.

Definition i64_min : Z := - 2 ^ 63.
Definition i64_max : Z := 2 ^ 63 - 1.
Definition i128_min : Z := - 2 ^ 127.
Definition i128_max : Z := 2 ^ 127 - 1.

Definition in_bounds (lo hi x : Z) : option Z := if (lo <=? x) && (x <=? hi) then Some x else None.

(** [str::strip_prefix] of one byte. *)
Definition strip_byte (b : byte) (s : str) : option str :=
  match s with
  | c :: rest => if bool_decide (c = b) then Some rest else None
  | [] => None
  end.

(** A sign, and what follows it. *)
Definition split_sign (s : str) : bool * str :=
  match s with
  | c :: rest => if bool_decide (c = x2d) then (true, rest) else if bool_decide (c = x2b) then (false, rest) else (false, s)
  | [] => (false, [])
  end.

(** [parse] of a signed integer: a sign, digits, and a value within the bounds. *)
Definition parse_int (lo hi : Z) (s : str) : option Z :=
  let '(negative, body) := split_sign s in
  if bool_decide (body = []) || negb (forallb is_digit body) then None
  else in_bounds lo hi (if negative then - digits_value body else digits_value body).

Definition contains_any (bytes : list byte) (s : str) : bool := existsb (λ b, bool_decide (b ∈ bytes)) s.

(** ** Reading *)

Section Reading.
Context `{LiteralHost}.

(** [Literal::read] on the text of the raw value. *)
Definition literal_read (raw : str) : Literal :=
  let text := trim raw in
  match text with
  | [] => LNull
  | b :: _ =>
    if bool_decide (b = x6e) then LNull
    else if bool_decide (b = x74) then LBool true
    else if bool_decide (b = x66) then LBool false
    else if bool_decide (b = x22) then LText (default text (json_read_string text))
    else if bool_decide (b = x7b) then LObject text
    else if bool_decide (b = x5b) then LArray text
    else LNumber text
  end.

Definition is_null (l : Literal) : bool := match l with LNull => true | _ => false end.

(** [bool::to_string]. *)
Definition bool_text (b : bool) : str := as_bytes (if b then "true" else "false").

(** [Literal::json]. *)
Definition literal_json (l : Literal) : str :=
  match l with
  | LNull => as_bytes "null"
  | LBool b => bool_text b
  | LNumber text | LObject text | LArray text => text
  | LText text => json_write_string text
  end.

(** [Literal::sample]. *)
Definition literal_sample (l : Literal) : str :=
  let text := literal_json l in
  let cs := chars (length text) text in
  if (80 <? length cs)%nat then concat (take 77 cs) ++ as_bytes "..." else text.

(** ** Numbers *)

(** [whole]. *)
Definition whole (text : str) : option Z :=
  let text := trim text in
  if contains_any [x2e; x65; x45] text then None else parse_int i64_min i64_max text.

(** [digits]. *)
Definition plain_digits (text : str) : option str :=
  let body := default text (strip_byte x2d text) in
  if bool_decide (body = []) || negb (forallb is_digit body) then None
  else if (1 <? length body)%nat && bool_decide (head body = Some x30) then None
  else Some text.

(** The loop of [numeric]: [index] of the byte, whether a dot was read. *)
Fixpoint numeric_loop (total index : nat) (dot : bool) (body : str) : bool :=
  match body with
  | [] => true
  | b :: rest =>
    if is_digit b then numeric_loop total (S index) dot rest
    else if bool_decide (b = x2e) && negb dot && (0 <? index)%nat && (S index <? total)%nat
    then numeric_loop total (S index) true rest
    else false
  end.

(** [numeric]. *)
Definition numeric (text : str) : option str :=
  let body := default text (strip_byte x2d text) in
  if bool_decide (body = []) then None
  else if negb (numeric_loop (length body) 0 false body) then None
  else if (1 <? length body)%nat && bool_decide (head body = Some x30)
          && negb (bool_decide (take 2 body = [x30; x2e])) then None
  else Some text.

(** The digits at the front, and the rest. *)
Fixpoint span_digits (s : str) : str * str :=
  match s with
  | b :: rest => if is_digit b then let '(ds, rest') := span_digits rest in (b :: ds, rest') else ([], s)
  | [] => ([], [])
  end.

(** The binary64 nearest to [m * 10 ^ e], ties to even. *)
Definition decimal_to_float (negative : bool) (m : Z) (e : Z) : spec_float :=
  match m with
  | Z.pos p =>
    if 0 <=? e then binary_round 53 1024 negative (p * Z.to_pos (10 ^ e)) 0
    else SFdiv 53 1024 (S754_finite negative p 0) (S754_finite false (Z.to_pos (10 ^ (- e))) 0)
  | _ => S754_zero negative
  end.

(** The exponent of a float, if there is one and nothing else. *)
Definition float_exponent (s : str) : option Z :=
  match s with
  | [] => Some 0
  | b :: rest =>
    if bool_decide (b = x65) || bool_decide (b = x45) then
      let '(negative, ds) := split_sign rest in
      if bool_decide (ds = []) || negb (forallb is_digit ds) then None
      else Some (if negative then - digits_value ds else digits_value ds)
    else None
  end.

(** [parse::<f64>], without the words for infinity and for what is not a number. *)
Definition parse_f64 (s : str) : option spec_float :=
  let '(negative, body) := split_sign s in
  let '(integer, rest) := span_digits body in
  let '(fraction, rest) :=
    match strip_byte x2e rest with
    | Some rest => span_digits rest
    | None => ([], rest)
    end in
  if bool_decide (integer = []) && bool_decide (fraction = []) then None
  else
    exponent ← float_exponent rest;
    Some (decimal_to_float negative (digits_value (integer ++ fraction)) (exponent - Z.of_nat (length fraction))).

Definition is_finite (f : spec_float) : bool :=
  match f with S754_zero _ | S754_finite _ _ _ => true | _ => false end.

(** [float]. *)
Definition float (text : str) : option spec_float :=
  f ← parse_f64 (trim text); if is_finite f then Some f else None.

Definition checked_i128 (x : Z) : option Z := in_bounds i128_min i128_max x.

(** The loop of [decimal] over the digits of the fraction. *)
Definition scale_digit (acc : option Z) (b : byte) : option Z :=
  scaled ← acc; tens ← checked_i128 (scaled * 10); checked_i128 (tens + digit_value b).

(** [decimal]. *)
Definition decimal (text : str) : option Z :=
  let text := trim text in
  if contains_any [x65; x45] text then None
  else
    let '(negative, body) := match strip_byte x2d text with Some rest => (true, rest) | None => (false, text) end in
    let '(integer, fraction) := default (body, []) (split_once x2e body) in
    if bool_decide (integer = []) || negb (forallb is_digit integer) || negb (forallb is_digit fraction)
       || (DECIMAL_SCALE <? length fraction)%nat || (DECIMAL_PRECISION - DECIMAL_SCALE <? length integer)%nat
    then None
    else
      whole ← parse_int i128_min i128_max integer;
      scaled ← foldl scale_digit (Some whole) fraction;
      unit ← checked_i128 (10 ^ Z.of_nat (DECIMAL_SCALE - length fraction));
      scaled ← checked_i128 (scaled * unit);
      Some (if negative then - scaled else scaled).

(** ** Moments *)

Definition Y2000 : Z := 946684800000000.
Definition Y2100 : Z := 4102444800000000.

(** [epoch]. *)
Definition epoch (l : Literal) (per_unit : Z) : option Z :=
  text ← match l with LNumber text => Some text | LText text => plain_digits text | _ => None end;
  value ← whole text;
  micros ← in_bounds i64_min i64_max (value * per_unit);
  if (Y2000 <=? micros) && (micros <? Y2100) then Some micros else None.

(** [iso]. *)
Definition iso (text : str) : option Z :=
  let text := trim text in
  if (length text <? 10)%nat then None
  else match rfc3339_micros text with
       | Some micros => Some micros
       | None =>
         match naive_micros "%Y-%m-%d %H:%M:%S%.f" text with
         | Some micros => Some micros
         | None =>
           match naive_micros "%Y-%m-%dT%H:%M:%S%.f" text with
           | Some micros => Some micros
           | None => if (length text =? 10)%nat then date_micros text else None
           end
         end
       end.

(** ** Conversion *)

(** [convert]. *)
Definition convert (k : Kind) (l : Literal) : option Value :=
  match k, l with
  | _, LNull => None
  | KBoolean, LBool b => Some (VBool b)
  | KInt64, LNumber text => VInt <$> whole text
  | KInt64, LText text => VInt <$> (plain_digits text ≫= whole)
  | KFloat64, LNumber text => VFloat <$> float text
  | KFloat64, LText text => VFloat <$> (numeric text ≫= float)
  | KDecimal, LNumber text => VDecimal <$> decimal text
  | KDecimal, LText text => VDecimal <$> (numeric text ≫= decimal)
  | KTimestampIso, LText text => VMicros <$> iso text
  | KTimestampSeconds, l => VMicros <$> epoch l 1000000
  | KTimestampMillis, l => VMicros <$> epoch l 1000
  | KTimestampMicros, l => VMicros <$> epoch l 1
  | KString, LText text => Some (VText text)
  | KString, LNumber text => Some (VText text)
  | KString, LBool b => Some (VText (bool_text b))
  | KJson, l => Some (VText (literal_json l))
  | _, _ => None
  end.

Definition is_nested (l : Literal) : bool := match l with LObject _ | LArray _ => true | _ => false end.

(** [candidates]. *)
Definition candidates (values : list Literal) : list Kind :=
  let seen := filter (λ l, is_null l = false) values in
  match seen with
  | [] => [KString]
  | _ =>
    if existsb is_nested seen then [KJson]
    else filter (λ k, k ≠ KJson ∧ forallb (λ l, bool_decide (is_Some (convert k l))) seen = true) kind_all
  end.

(** [lossless]. *)
Definition lossless (options : list Kind) : Kind :=
  default KJson (head (filter (λ k, k ∈ options) [KBoolean; KInt64; KDecimal; KString; KJson])).

End Reading.
