(* ===== verification/LiteralSafety.v ===== *)
(** * LiteralSafety: exactly or not at all

    What a conversion stores is what the text says, digit for digit; the kind that is chosen when
    nobody judges fits every value and rounds none; and texts of plain integers stay apart. *)

From Stdlib Require Import SpecFloat.
From S2P Require Import Prelude Text Cron Literal.

#[local] Open Scope Z_scope.

(** ** Digits *)

Abbreviation digits_of l := (forallb is_digit l = true).

Lemma digit_bounds b : is_digit b = true → 0 ≤ digit_value b < 10.
Proof.
  unfold is_digit, in_range, digit_value. rewrite andb_true_iff, !N.leb_le. lia.
Qed.

Lemma digits_value_snoc l b : digits_value (l ++ [b]) = digits_value l * 10 + digit_value b.
Proof. unfold digits_value. by rewrite foldl_app. Qed.

Lemma digits_value_app l k : digits_value (l ++ k) = digits_value l * 10 ^ Z.of_nat (length k) + digits_value k.
Proof.
  induction k as [|b k IH] using rev_ind; [rewrite app_nil_r; change (digits_value []) with 0; cbn; lia|].
  rewrite app_assoc, !digits_value_snoc, IH, length_app. cbn [length].
  replace (Z.of_nat (length k + 1)) with (Z.of_nat (length k) + 1) by lia. rewrite Z.pow_add_r by lia. lia.
Qed.

Lemma digits_bounds l : digits_of l → 0 ≤ digits_value l < 10 ^ Z.of_nat (length l).
Proof.
  induction l as [|b l IH] using rev_ind; [change (digits_value []) with 0; cbn; lia|].
  rewrite forallb_app, andb_true_iff. intros [Hl Hb]. cbn in Hb. rewrite andb_true_r in Hb.
  specialize (IH Hl). apply digit_bounds in Hb. rewrite digits_value_snoc, length_app. cbn [length].
  replace (Z.of_nat (length l + 1)) with (Z.of_nat (length l) + 1) by lia. rewrite Z.pow_add_r by lia. lia.
Qed.

Lemma digits_not_in l b : digits_of l → is_digit b = false → b ∉ l.
Proof. rewrite forallb_forall. intros Hl Hb Hin. apply list_elem_of_In in Hin. specialize (Hl b Hin). congruence. Qed.

Lemma in_bounds_Some lo hi x y : in_bounds lo hi x = Some y ↔ y = x ∧ lo ≤ x ≤ hi.
Proof.
  unfold in_bounds. destruct (Z.leb_spec lo x), (Z.leb_spec x hi); cbn; split; try naive_solver lia.
Qed.

Lemma in_bounds_eq lo hi x : lo ≤ x ≤ hi → in_bounds lo hi x = Some x.
Proof. intros. by apply in_bounds_Some. Qed.

(** ** What a text says *)

(** [reads s m k]: the text [s] is a sign, digits and perhaps a dot with more digits, and says
    [m / 10 ^ k]. *)
Inductive reads : str → Z → nat → Prop :=
| reads_number (sign : str) (negative dot : bool) ip fp :
    (sign = [] ∧ negative = false) ∨ (sign = [x2b] ∧ negative = false) ∨ (sign = [x2d] ∧ negative = true) →
    ip ≠ [] → digits_of ip → digits_of fp → (dot = false → fp = []) →
    reads (sign ++ ip ++ (if dot then x2e :: fp else [])) ((if negative then -1 else 1) * digits_value (ip ++ fp)) (length fp).

Lemma split_sign_spec s negative body :
  split_sign s = (negative, body) →
  ∃ sign, s = sign ++ body ∧ ((sign = [] ∧ negative = false) ∨ (sign = [x2b] ∧ negative = false) ∨ (sign = [x2d] ∧ negative = true)).
Proof.
  destruct s as [|c rest]; cbn; [intros [= <- <-]; exists []; naive_solver|].
  case_bool_decide as Hm; [intros [= <- <-]; exists [x2d]; subst; naive_solver|].
  case_bool_decide as Hp; intros [= <- <-]; [exists [x2b]; subst; naive_solver|exists []; naive_solver].
Qed.

Lemma parse_int_reads lo hi s n : parse_int lo hi s = Some n → reads s n 0 ∧ lo ≤ n ≤ hi.
Proof.
  unfold parse_int. destruct (split_sign s) as [negative body] eqn:Hs. case_bool_decide as Hb; [done|].
  destruct (forallb is_digit body) eqn:Hd; [|done]. cbn. intros [-> Hn]%in_bounds_Some. split; [|done].
  destruct (split_sign_spec _ _ _ Hs) as (sign & -> & Hsign).
  replace (if negative then - digits_value body else digits_value body)
    with ((if negative then -1 else 1) * digits_value (body ++ [])) by (rewrite app_nil_r; destruct negative; lia).
  rewrite <- (app_nil_r body) at 1. by apply (reads_number sign negative false body []).
Qed.

Lemma split_once_Some sep s a b : split_once sep s = Some (a, b) → s = a ++ sep :: b.
Proof.
  revert a b. induction s as [|c s IH]; intros a b; cbn; [done|]. case_bool_decide as Hc; [intros [= <- <-]; by subst|].
  destruct (split_once sep s) as [[a' b']|]; cbn; [|done]. intros [= <- <-]. cbn. f_equal. by apply IH.
Qed.

Lemma split_once_app sep a b : sep ∉ a → split_once sep (a ++ sep :: b) = Some (a, b).
Proof.
  induction a as [|c a IH]; cbn; [by rewrite bool_decide_eq_true_2|]. intros [Hc Ha]%not_elem_of_cons.
  rewrite bool_decide_eq_false_2 by done. by rewrite IH.
Qed.

Lemma split_once_None sep s : sep ∉ s → split_once sep s = None.
Proof.
  induction s as [|c s IH]; cbn; [done|]. intros [Hc Hs]%not_elem_of_cons. rewrite bool_decide_eq_false_2 by done. by rewrite IH.
Qed.

Lemma scale_fold fp w s : foldl scale_digit (Some w) fp = Some s → s = w * 10 ^ Z.of_nat (length fp) + digits_value fp.
Proof.
  revert s. induction fp as [|b fp IH] using rev_ind; intros s; [intros [= <-]; change (digits_value []) with 0; cbn; lia|].
  rewrite foldl_app. cbn [foldl]. unfold scale_digit at 1. destruct (foldl scale_digit (Some w) fp) as [s0|]; [|done].
  cbn. unfold checked_i128. intros (tens & [-> _]%in_bounds_Some & [-> _]%in_bounds_Some)%bind_Some.
  rewrite (IH s0 eq_refl), digits_value_snoc, length_app. cbn [length].
  replace (Z.of_nat (length fp + 1)) with (Z.of_nat (length fp) + 1) by lia. rewrite Z.pow_add_r by lia. lia.
Qed.

Lemma scale_fold_ok fp w :
  digits_of fp → 0 ≤ w → (w + 1) * 10 ^ Z.of_nat (length fp) ≤ i128_max →
  foldl scale_digit (Some w) fp = Some (w * 10 ^ Z.of_nat (length fp) + digits_value fp).
Proof.
  induction fp as [|b fp IH] using rev_ind; [intros _ _ _; change (digits_value []) with 0; cbn; f_equal; lia|].
  rewrite forallb_app, andb_true_iff, foldl_app, digits_value_snoc, length_app. intros [Hfp Hb] Hw Hmax.
  cbn [forallb andb foldl length] in *. rewrite andb_true_r in Hb. apply digit_bounds in Hb.
  replace (Z.of_nat (length fp + 1)) with (Z.of_nat (length fp) + 1) in * by lia. rewrite Z.pow_add_r in * by lia.
  pose proof (digits_bounds fp Hfp). rewrite IH by (try done; lia). unfold scale_digit. cbn. unfold checked_i128.
  assert (i128_min ≤ 0) by (unfold i128_min; lia).
  rewrite in_bounds_eq by lia. cbn. rewrite in_bounds_eq by lia. f_equal. lia.
Qed.

Lemma strip_byte_Some b s rest : strip_byte b s = Some rest → s = b :: rest.
Proof. destruct s as [|c s]; cbn; [done|]. case_bool_decide; [|done]. intros [= <-]. by subst. Qed.

Lemma decimal_reads text d :
  decimal text = Some d → ∃ m k, reads (trim text) m k ∧ (k ≤ 9)%nat ∧ d = m * 10 ^ Z.of_nat (9 - k).
Proof.
  unfold decimal. destruct (contains_any _ _); [done|].
  destruct (match strip_byte x2d (trim text) with Some rest => _ | None => _ end) as [negative body] eqn:Hneg.
  destruct (default (body, []) (split_once x2e body)) as [ip fp] eqn:Hsplit.
  case_bool_decide as Hip; [done|]. destruct (forallb is_digit ip) eqn:Hdi; [|done]. destruct (forallb is_digit fp) eqn:Hdf; [|done].
  destruct (Nat.ltb_spec DECIMAL_SCALE (length fp)) as [|Hlen]; [done|].
  destruct (_ <? length ip)%nat; [done|]. cbn [negb orb].
  intros (w & Hw & (s & Hs%scale_fold & (u & [-> _]%in_bounds_Some & (s' & [-> _]%in_bounds_Some & [= <-])%bind_Some)%bind_Some)%bind_Some)%bind_Some.
  assert (w = digits_value ip) as ->.
  { unfold parse_int in Hw. destruct ip as [|c ip]; [done|]. cbn in Hdi. apply andb_true_iff in Hdi as [Hc Hdi].
    assert (split_sign (c :: ip) = (false, c :: ip)) as Heq.
    { cbn. rewrite !bool_decide_eq_false_2; [done|..]; by intros ->. }
    rewrite Heq in Hw. rewrite bool_decide_eq_false_2 in Hw by done. cbn [forallb] in Hw. rewrite Hc, Hdi in Hw.
    by apply in_bounds_Some in Hw as [-> _]. }
  assert (body = ip ++ (if bool_decide (split_once x2e body = None) then [] else x2e :: fp)
    ∧ (bool_decide (split_once x2e body = None) = true → fp = [])) as [Hbody Hdot].
  { destruct (split_once x2e body) as [[a b]|] eqn:Hso; cbn in Hsplit; injection Hsplit as <- <-.
    - rewrite bool_decide_eq_false_2 by done. split; [by apply split_once_Some|done].
    - rewrite bool_decide_eq_true_2 by done. by rewrite app_nil_r. }
  exists ((if negative then -1 else 1) * digits_value (ip ++ fp)), (length fp). split_and!; [|done|].
  - destruct (strip_byte x2d (trim text)) as [rest|] eqn:Hst; injection Hneg as <- <-.
    + apply strip_byte_Some in Hst as ->. rewrite Hbody. destruct (bool_decide (split_once x2e rest = None)) eqn:Hd.
      * rewrite (Hdot eq_refl). apply (reads_number [x2d] true false ip []); naive_solver.
      * apply (reads_number [x2d] true true ip fp); naive_solver.
    + rewrite Hbody at 1. destruct (bool_decide (split_once x2e (trim text) = None)) eqn:Hd.
      * rewrite (Hdot eq_refl). apply (reads_number [] false false ip []); naive_solver.
      * apply (reads_number [] false true ip fp); naive_solver.
  - subst s. rewrite digits_value_app. unfold DECIMAL_SCALE. destruct negative; lia.
Qed.

(** A decimal text that fits is stored. *)
Lemma decimal_complete text (negative dot : bool) ip fp :
  trim text = (if negative then [x2d] else []) ++ ip ++ (if dot then x2e :: fp else []) →
  ip ≠ [] → digits_of ip → digits_of fp → (dot = false → fp = []) → (length ip ≤ 29)%nat → (length fp ≤ 9)%nat →
  decimal text = Some ((if negative then -1 else 1) * digits_value (ip ++ fp) * 10 ^ Z.of_nat (9 - length fp)).
Proof.
  intros Htrim Hip Hdi Hdf Hdot Hli Hlf. unfold decimal.
  assert (∀ b, is_digit b = false → b ≠ x2e → b ≠ x2d → b ∉ trim text) as Hno.
  { intros b Hb He Hd. rewrite Htrim, !not_elem_of_app. split_and!.
    - destruct negative; rewrite ?elem_of_cons, ?elem_of_nil; naive_solver.
    - by apply digits_not_in.
    - destruct dot; [|by apply not_elem_of_nil]. rewrite not_elem_of_cons. split; [done|]. by apply digits_not_in. }
  assert (contains_any [x65; x45] (trim text) = false) as Hce.
  { unfold contains_any. apply not_true_iff_false. rewrite existsb_exists. intros (b & Hb & Hin%bool_decide_eq_true).
    apply list_elem_of_In in Hb. rewrite !elem_of_cons, elem_of_nil in Hin.
    destruct Hin as [->|[->|[]]]; by apply Hno in Hb. }
  rewrite Hce.
  set (body := ip ++ (if dot then x2e :: fp else [])).
  assert (∃ c rest, ip = c :: rest ∧ is_digit c = true) as (c & rest & Hc & Hcd).
  { destruct ip as [|c rest]; [done|]. exists c, rest. split; [done|]. cbn in Hdi. by apply andb_true_iff in Hdi as [? _]. }
  assert (c ≠ x2d ∧ c ≠ x2b) as [Hc1 Hc2] by (split; intros ->; done).
  assert (match strip_byte x2d (trim text) with Some rest => (true, rest) | None => (false, trim text) end = (negative, body)) as ->.
  { rewrite Htrim. fold body. destruct negative; cbn; [done|]. unfold body. rewrite Hc. cbn. by rewrite bool_decide_eq_false_2. }
  assert (default (body, [] : str) (split_once x2e body) = (ip, fp)) as Hparts.
  { unfold body. assert (x2e ∉ ip) as Hn by (by apply digits_not_in). destruct dot; [by rewrite split_once_app|].
    rewrite app_nil_r, split_once_None by done. cbn. by rewrite Hdot. }
  change (default (body, []) (split_once x2e body)) with (default (body, [] : str) (split_once x2e body)). rewrite Hparts.
  rewrite bool_decide_eq_false_2 by done. rewrite Hdi, Hdf.
  destruct (Nat.ltb_spec DECIMAL_SCALE (length fp)) as [Hl|_]; [unfold DECIMAL_SCALE in Hl; lia|].
  destruct (Nat.ltb_spec (DECIMAL_PRECISION - DECIMAL_SCALE) (length ip)) as [Hl|_]; [unfold DECIMAL_PRECISION, DECIMAL_SCALE in Hl; lia|].
  cbn [negb orb]. pose proof (digits_bounds ip Hdi) as Hv. pose proof (digits_bounds fp Hdf) as Hvf.
  assert (10 ^ Z.of_nat (length ip) ≤ 10 ^ 29) by (apply Z.pow_le_mono_r; lia).
  assert (10 ^ Z.of_nat (length fp) ≤ 10 ^ 9) by (apply Z.pow_le_mono_r; lia).
  assert (0 < 10 ^ Z.of_nat (length fp)) by (apply Z.pow_pos_nonneg; lia).
  assert (0 < 10 ^ Z.of_nat (9 - length fp)) by (apply Z.pow_pos_nonneg; lia).
  assert (10 ^ Z.of_nat (length fp) * 10 ^ Z.of_nat (9 - length fp) = 10 ^ 9) as Hsplit.
  { rewrite <- Z.pow_add_r by lia. f_equal. lia. }
  assert (i128_min ≤ 0 ∧ 10 ^ 29 * 10 ^ 9 ≤ i128_max ∧ 10 ^ 29 ≤ i128_max ∧ 10 ^ 9 ≤ i128_max) as (Hmin & Hmax & Hmax29 & Hmax9) by (vm_compute; naive_solver).
  assert (parse_int i128_min i128_max ip = Some (digits_value ip)) as ->.
  { unfold parse_int. assert (split_sign ip = (false, ip)) as ->.
    { rewrite Hc. cbn. by rewrite !bool_decide_eq_false_2. }
    rewrite bool_decide_eq_false_2 by done. rewrite Hdi. cbn. apply in_bounds_eq. lia. }
  assert (10 ^ Z.of_nat (9 - length fp) ≤ 10 ^ 9) by (apply Z.pow_le_mono_r; lia).
  cbn [mbind option_bind]. rewrite scale_fold_ok; [|done|lia|]; [|nia]. cbn [mbind option_bind]. unfold checked_i128, DECIMAL_SCALE.
  rewrite in_bounds_eq by lia. cbn [mbind option_bind]. rewrite <- digits_value_app.
  rewrite in_bounds_eq; [cbn [mbind option_bind]; f_equal; destruct negative; lia|].
  rewrite digits_value_app. nia.
Qed.

(** ** Conversion *)

Section Conversion.
Context `{LiteralHost}.

(** The literal is a text that says [m / 10 ^ k]. *)
Definition says (l : Literal) (m : Z) (k : nat) : Prop :=
  ∃ text, (l = LNumber text ∨ l = LText text) ∧ reads (trim text) m k.

(** A moment [units] after 1970, of [per_unit] microseconds each, in this century. *)
Definition moment (l : Literal) (per_unit t : Z) : Prop :=
  ∃ units, says l units 0 ∧ t = units * per_unit ∧ Y2000 ≤ t < Y2100.

(** The value of this kind is what the literal says. *)
Definition exact (k : Kind) (l : Literal) (v : Value) : Prop :=
  match k, v with
  | KBoolean, VBool b => l = LBool b
  | KInt64, VInt n => says l n 0 ∧ i64_min ≤ n ≤ i64_max
  | KDecimal, VDecimal d => ∃ m j, says l m j ∧ (j ≤ 9)%nat ∧ d = m * 10 ^ Z.of_nat (9 - j)
  | KTimestampSeconds, VMicros t => moment l 1000000 t
  | KTimestampMillis, VMicros t => moment l 1000 t
  | KTimestampMicros, VMicros t => moment l 1 t
  | KTimestampIso, VMicros t => ∃ text, l = LText text ∧ iso text = Some t
  | KFloat64, VFloat f => is_finite f = true ∧ ∃ text, (l = LNumber text ∨ l = LText text) ∧ parse_f64 (trim text) = Some f
  | KString, VText t => l = LText t ∨ l = LNumber t ∨ ∃ b, l = LBool b ∧ t = bool_text b
  | KJson, VText t => t = literal_json l
  | _, _ => False
  end.

Lemma whole_reads text n : whole text = Some n → reads (trim text) n 0 ∧ i64_min ≤ n ≤ i64_max.
Proof. unfold whole. destruct (contains_any _ _); [done|]. apply parse_int_reads. Qed.

Lemma plain_digits_same text text' : plain_digits text = Some text' → text' = text.
Proof. unfold plain_digits. destruct (_ || _); [done|]. destruct (_ && _); [done|]. by intros [= <-]. Qed.

Lemma numeric_same text text' : numeric text = Some text' → text' = text.
Proof.
  unfold numeric. case_bool_decide; [done|]. destruct (negb _); [done|]. destruct (_ && _ && _); [done|]. by intros [= <-].
Qed.

Lemma epoch_moment l u t : epoch l u = Some t → moment l u t.
Proof.
  unfold epoch. intros (text & Htext & (n & Hn%whole_reads & (m & [-> _]%in_bounds_Some & Hr)%bind_Some)%bind_Some)%bind_Some.
  destruct (Z.leb_spec Y2000 (n * u)), (Z.ltb_spec (n * u) Y2100); try done. injection Hr as <-.
  exists n. split_and!; [|done..]. exists text. split; [|by destruct Hn].
  destruct l; try done; [by injection Htext as ->; left|]. apply plain_digits_same in Htext as ->. by right.
Qed.

Lemma convert_exact k l v : convert k l = Some v → exact k l v.
Proof.
  destruct k, l; cbn [convert exact]; try done;
    try (intros (t & Ht%epoch_moment & ->)%fmap_Some; done); try (intros [= <-]; solve [eauto 10]).
  - intros (n & [Hr Hb]%whole_reads & ->)%fmap_Some. split; [|done]. by exists text; split; [left|].
  - intros (n & (text' & ->%plain_digits_same & [Hr Hb]%whole_reads)%bind_Some & ->)%fmap_Some.
    split; [|done]. by exists text; split; [right|].
  - intros (f & (f' & Hf & Hfin)%bind_Some & ->)%fmap_Some. destruct (is_finite f') eqn:Hx; [|done]. injection Hfin as <-.
    split; [done|]. exists text. by split; [left|].
  - intros (f & (text' & ->%numeric_same & (f' & Hf & Hfin)%bind_Some)%bind_Some & ->)%fmap_Some.
    destruct (is_finite f') eqn:Hx; [|done]. injection Hfin as <-. split; [done|]. exists text. by split; [right|].
  - intros (d & (m & j & Hr & Hj & ->)%decimal_reads & ->)%fmap_Some. exists m, j. split_and!; [|done..]. by exists text; split; [left|].
  - intros (d & (text' & ->%numeric_same & (m & j & Hr & Hj & ->)%decimal_reads)%bind_Some & ->)%fmap_Some.
    exists m, j. split_and!; [|done..]. by exists text; split; [right|].
  - intros (t & Ht & ->)%fmap_Some. by exists text.
Qed.

(** At most one unit of time fits a value. *)
Lemma epoch_units l u u' t t' :
  epoch l u = Some t → epoch l u' = Some t' → u ∈ [1000000; 1000; 1] → u' ∈ [1000000; 1000; 1] → u = u'.
Proof.
  unfold epoch. intros (text & Htext & (n & Hn & (m & [-> _]%in_bounds_Some & Hr)%bind_Some)%bind_Some)%bind_Some.
  intros (text' & Htext' & (n' & Hn' & (m' & [-> _]%in_bounds_Some & Hr')%bind_Some)%bind_Some)%bind_Some.
  assert (text' = text) as -> by congruence. assert (n' = n) as -> by congruence.
  destruct (Z.leb_spec Y2000 (n * u)), (Z.ltb_spec (n * u) Y2100); try done.
  destruct (Z.leb_spec Y2000 (n * u')), (Z.ltb_spec (n * u') Y2100); try done.
  unfold Y2000, Y2100 in *. rewrite !elem_of_cons, !elem_of_nil. intros [->|[->|[->|[]]]] [->|[->|[->|[]]]]; lia.
Qed.

(** ** Candidates *)

Lemma scalar_string l : is_null l = false → is_nested l = false → is_Some (convert KString l).
Proof. destruct l; cbn; try done; eauto. Qed.

(** Every candidate fits every value that is not null. *)
Lemma candidates_fit values k l :
  k ∈ candidates values → l ∈ values → is_null l = false → is_Some (convert k l).
Proof.
  intros Hk Hl Hn. unfold candidates in Hk.
  assert (l ∈ filter (λ l, is_null l = false) values) as Hin by (by apply list_elem_of_filter).
  destruct (filter (λ l, is_null l = false) values) as [|l0 seen] eqn:Hf; [by apply elem_of_nil in Hin|].
  destruct (existsb is_nested (l0 :: seen)).
  - apply list_elem_of_singleton in Hk as ->. destruct l; cbn; eauto; done.
  - apply list_elem_of_filter in Hk as [[_ Hall] _]. rewrite forallb_forall in Hall.
    apply list_elem_of_In in Hin. specialize (Hall l Hin). by apply bool_decide_eq_true in Hall.
Qed.

Lemma candidates_string_or_json values : KString ∈ candidates values ∨ candidates values = [KJson].
Proof.
  unfold candidates. destruct (filter (λ l, is_null l = false) values) as [|l0 seen] eqn:Hf; [left; by left|].
  destruct (existsb is_nested (l0 :: seen)) eqn:Hn; [by right|left]. apply list_elem_of_filter. split; [|by vm_compute; repeat constructor].
  split; [done|]. rewrite forallb_forall. intros l Hl. apply bool_decide_eq_true. apply scalar_string.
  - apply list_elem_of_In in Hl. rewrite <- Hf in Hl. by apply list_elem_of_filter in Hl as [? _].
  - destruct (is_nested l) eqn:Hx; [|done]. assert (existsb is_nested (l0 :: seen) = true) as Ht; [|congruence].
    apply existsb_exists. by exists l.
Qed.

Lemma lossless_in options : KString ∈ options ∨ options = [KJson] →
  lossless options ∈ options ∧ lossless options ∈ [KBoolean; KInt64; KDecimal; KString; KJson].
Proof.
  intros Ho. unfold lossless.
  destruct (filter (λ k, k ∈ options) [KBoolean; KInt64; KDecimal; KString; KJson]) as [|k rest] eqn:Hf; cbn.
  - exfalso. assert (∃ k, k ∈ filter (λ k, k ∈ options) [KBoolean; KInt64; KDecimal; KString; KJson]) as [k Hk].
    { destruct Ho as [Ho| ->]; [exists KString|exists KJson]; apply list_elem_of_filter; split; rewrite ?list_elem_of_singleton; auto;
        rewrite !elem_of_cons; auto 10. }
    rewrite Hf in Hk. by apply elem_of_nil in Hk.
  - assert (k ∈ filter (λ k, k ∈ options) [KBoolean; KInt64; KDecimal; KString; KJson]) as Hk by (rewrite Hf; by left).
    by apply list_elem_of_filter in Hk.
Qed.

End Conversion.

(** ** Plain integers *)

Lemma digits_same_length l k : digits_of l → digits_of k → length l = length k → digits_value l = digits_value k → l = k.
Proof.
  revert k. induction l as [|b l IH] using rev_ind; intros k Hl Hk Hlen Hv.
  { destruct k; [done|]. cbn in Hlen. lia. }
  destruct k as [|c k _] using rev_ind; [rewrite length_app in Hlen; cbn in Hlen; lia|].
  rewrite !length_app in Hlen. cbn in Hlen. rewrite !digits_value_snoc in Hv.
  rewrite forallb_app, andb_true_iff in Hl, Hk. cbn in Hl, Hk. rewrite !andb_true_r in Hl, Hk.
  destruct Hl as [Hl Hb], Hk as [Hk Hc]. pose proof (digit_bounds b Hb). pose proof (digit_bounds c Hc).
  assert (l = k) as -> by (apply IH; try done; lia). f_equal. f_equal.
  assert (digit_value b = digit_value c) as Hbc by lia. unfold digit_value in Hbc.
  rewrite <- (byte_of_to_N b), <- (byte_of_to_N c). f_equal. lia.
Qed.

(** No zero in front. *)
Definition canonical (l : str) : Prop := l ≠ [] ∧ digits_of l ∧ ((1 < length l)%nat → head l ≠ Some x30).

Lemma canonical_large l : canonical l → (1 < length l)%nat → 10 ^ Z.of_nat (length l - 1) ≤ digits_value l.
Proof.
  intros (_ & Hd & Hz) Hlen. destruct l as [|b l]; [cbn in Hlen; lia|]. specialize (Hz Hlen). cbn in Hz.
  change (b :: l) with ([b] ++ l). rewrite digits_value_app. cbn in Hd. apply andb_true_iff in Hd as [Hb Hl].
  pose proof (digit_bounds b Hb) as Hbb. pose proof (digits_bounds l Hl).
  assert (digits_value [b] = digit_value b) as -> by done. cbn [length app]. rewrite Nat.sub_succ, Nat.sub_0_r.
  assert (1 ≤ digit_value b).
  { destruct (Z.eq_dec (digit_value b) 0) as [Hzero|]; [|lia]. destruct Hz. f_equal. unfold digit_value in Hzero.
    rewrite <- (byte_of_to_N b). replace (Byte.to_N b) with 48%N by lia. reflexivity. }
  assert (0 < 10 ^ Z.of_nat (length l)) by (apply Z.pow_pos_nonneg; lia). nia.
Qed.

Lemma canonical_inj l k : canonical l → canonical k → digits_value l = digits_value k → l = k.
Proof.
  assert (∀ l k, canonical l → canonical k → digits_value l = digits_value k → (length l < length k)%nat → False) as Hlt.
  { intros l' k' (Hne & Hl & _) Hk Hv Hlen.
    assert (1 ≤ length l')%nat by (destruct l'; [done|cbn; lia]).
    pose proof (canonical_large k' Hk ltac:(lia)) as Hlarge. pose proof (digits_bounds l' Hl) as [_ Hu].
    assert (10 ^ Z.of_nat (length l') ≤ 10 ^ Z.of_nat (length k' - 1)) by (apply Z.pow_le_mono_r; lia). lia. }
  intros Hl Hk Hv. apply digits_same_length; [apply Hl|apply Hk| |done].
  destruct (Nat.lt_trichotomy (length l) (length k)) as [?|[?|?]]; [|done|]; exfalso; by eauto.
Qed.

Lemma rev_fmap {A B} (f : A → B) l : rev (f <$> l) = f <$> rev l.
Proof. induction l as [|x l IH]; cbn; [done|]. by rewrite IH, fmap_app. Qed.

(** Texts of one-byte characters without blanks are not trimmed. *)
Lemma trim_plain s : (∀ b, b ∈ s → in_range 0x21 0x7F b = true) → trim s = s.
Proof.
  intros Hs. assert (∀ n s, (∀ b, b ∈ s → in_range 0x21 0x7F b = true) → (length s ≤ n)%nat → chars n s = (λ b, [b]) <$> s) as Hchars.
  { clear. induction n as [|n IH]; intros [|b s] Hs Hn; cbn in *; try done; [lia|].
    assert (char_len b = 1%nat) as ->.
    { specialize (Hs b ltac:(by left)). unfold char_len, in_range in *. rewrite andb_true_iff, !N.leb_le in Hs.
      destruct (N.leb_spec 0 (Byte.to_N b)); [|lia]. by destruct (N.leb_spec (Byte.to_N b) 127); [|lia]. }
    cbn. f_equal. rewrite drop_0. apply IH; [|lia]. intros c Hc. apply Hs. by right. }
  assert (∀ s, (∀ b, b ∈ s → in_range 0x21 0x7F b = true) → drop_blanks ((λ b, [b]) <$> s) = (λ b, [b]) <$> s) as Hdrop.
  { clear. intros [|b s] Hs; [done|]. cbn [fmap list_fmap drop_blanks]. specialize (Hs b ltac:(by left)).
    assert (is_whitespace [b] = false) as ->; [|done]. unfold is_whitespace, blank_bytes, in_range in *.
    rewrite andb_true_iff, !N.leb_le in Hs. destruct (N.leb_spec 9 (Byte.to_N b)), (N.leb_spec (Byte.to_N b) 13); cbn; try lia;
      destruct (N.leb_spec 32 (Byte.to_N b)), (N.leb_spec (Byte.to_N b) 32); cbn; try done; lia. }
  unfold trim. rewrite Hchars, Hdrop by done. rewrite rev_fmap, Hdrop.
  - rewrite rev_fmap, rev_involutive. clear. induction s as [|b s IH]; cbn; [done|]. by rewrite IH.
  - intros b Hb. apply Hs. apply list_elem_of_In, in_rev. by apply list_elem_of_In.
Qed.

(** A plain integer is a sign and digits without a zero in front. *)
Lemma plain_digits_spec text n :
  plain_digits text = Some text → whole text = Some n →
  ∃ (negative : bool) body, text = (if negative then [x2d] else []) ++ body ∧ canonical body
    ∧ n = if negative then - digits_value body else digits_value body.
Proof.
  unfold plain_digits. set (body := default text (strip_byte x2d text)). intros Hp Hw.
  case_bool_decide as Hne; [done|]. destruct (forallb is_digit body) eqn:Hd; [|done]. cbn [negb orb] in Hp.
  assert (canonical body) as Hcan.
  { split_and!; [done..|]. intros Hlen Hh. destruct (Nat.ltb_spec 1 (length body)); [|lia].
    by rewrite bool_decide_eq_true_2 in Hp. }
  assert (∃ negative : bool, text = (if negative then [x2d] else []) ++ body) as [negative Htext].
  { unfold body. destruct (strip_byte x2d text) as [rest|] eqn:Hs; [|by exists false]. exists true. by apply strip_byte_Some in Hs. }
  exists negative, body. split_and!; [done..|].
  assert (∀ b, b ∈ body → in_range 0x21 0x7F b = true) as Hplain.
  { intros b Hb. rewrite forallb_forall in Hd. apply list_elem_of_In in Hb. specialize (Hd b Hb).
    unfold is_digit, in_range in *. rewrite !andb_true_iff, !N.leb_le in *. lia. }
  unfold whole in Hw. rewrite trim_plain in Hw.
  2: { intros b. rewrite Htext, elem_of_app. intros [Hb|Hb]; [|by apply Hplain]. destruct negative; [|by apply elem_of_nil in Hb].
       by apply list_elem_of_singleton in Hb as ->. }
  destruct (contains_any _ _); [done|]. unfold parse_int in Hw. destruct body as [|c body'] eqn:Hbody; [done|].
  assert (split_sign text = (negative, c :: body')) as Hss.
  { rewrite Htext. destruct negative; cbn; [done|]. apply andb_true_iff in Hd as [Hc _].
    rewrite !bool_decide_eq_false_2; [done|..]; by intros ->. }
  rewrite Hss, bool_decide_eq_false_2, Hd in Hw by done. cbn [negb orb] in Hw. by apply in_bounds_Some in Hw as [-> _].
Qed.

(** C25: A value of any kind but the rounded and the calendar ones is exactly what the client's text
    says, and a decimal number whose digits fit is stored, never refused. *)
Theorem conversion_is_exact `{LiteralHost} :
  (∀ k l v, convert k l = Some v → exact k l v)
  ∧ ∀ text (negative dot : bool) ip fp,
      trim text = (if negative then [x2d] else []) ++ ip ++ (if dot then x2e :: fp else []) →
      ip ≠ [] → digits_of ip → digits_of fp → (dot = false → fp = []) → (length ip ≤ 29)%nat → (length fp ≤ 9)%nat →
      convert KDecimal (LNumber text)
      = Some (VDecimal ((if negative then -1 else 1) * digits_value (ip ++ fp) * 10 ^ Z.of_nat (9 - length fp))).
Proof.
  split; [intros k l v; apply convert_exact|]. intros text negative dot ip fp Ht Hip Hdi Hdf Hdot Hli Hlf. cbn [convert].
  by erewrite decimal_complete.
Qed.

(** The kind that is used when nobody judges is a candidate, fits every value of the sample, and
    is neither floating point nor a moment; and at most one unit of time is ever a candidate of a
    sample with a value. *)
Theorem lossless_kind_fits `{LiteralHost} values :
  let k := lossless (candidates values) in
  k ∈ candidates values
  ∧ (∀ l, l ∈ values → is_null l = false → ∃ v, convert k l = Some v ∧ exact k l v)
  ∧ k ∈ [KBoolean; KInt64; KDecimal; KString; KJson]
  ∧ ∀ k1 k2, k1 ∈ [KTimestampSeconds; KTimestampMillis; KTimestampMicros] → k2 ∈ [KTimestampSeconds; KTimestampMillis; KTimestampMicros] →
      k1 ∈ candidates values → k2 ∈ candidates values → k1 = k2.
Proof.
  intros k. destruct (lossless_in (candidates values) (candidates_string_or_json values)) as [Hin Hk]. split_and!; [done| |done|].
  - intros l Hl Hn. destruct (candidates_fit values k l Hin Hl Hn) as [v Hv]. exists v. split; [done|]. by apply convert_exact.
  - intros k1 k2 H1 H2 Hc1 Hc2.
    assert (∃ l, l ∈ values ∧ is_null l = false) as (l & Hl & Hn).
    { unfold candidates in Hc1. destruct (filter (λ l, is_null l = false) values) as [|l seen] eqn:Hf.
      - apply list_elem_of_singleton in Hc1 as ->. rewrite !elem_of_cons, elem_of_nil in H1. naive_solver.
      - exists l. assert (l ∈ filter (λ l, is_null l = false) values) as Hl by (rewrite Hf; by left).
        by apply list_elem_of_filter in Hl as [? ?]. }
    destruct (candidates_fit values k1 l Hc1 Hl Hn) as [v1 Hv1]. destruct (candidates_fit values k2 l Hc2 Hl Hn) as [v2 Hv2].
    assert (∀ k v, k ∈ [KTimestampSeconds; KTimestampMillis; KTimestampMicros] → convert k l = Some v →
      ∃ u t, u ∈ [1000000; 1000; 1] ∧ epoch l u = Some t ∧ k = (if u =? 1000000 then KTimestampSeconds else if u =? 1000 then KTimestampMillis else KTimestampMicros)) as Hunit.
    { intros k' v Hk' Hv. rewrite !elem_of_cons, elem_of_nil in Hk'. destruct Hk' as [->|[->|[->|[]]]];
        [exists 1000000|exists 1000|exists 1]; destruct l; try done; cbn [convert] in Hv; apply fmap_Some in Hv as (t & Ht & _);
        exists t; split_and!; rewrite ?elem_of_cons; auto. }
    destruct (Hunit k1 v1 H1 Hv1) as (u1 & t1 & Hu1 & He1 & ->). destruct (Hunit k2 v2 H2 Hv2) as (u2 & t2 & Hu2 & He2 & ->).
    by rewrite (epoch_units l u1 u2 t1 t2).
Qed.

(** Texts that are stored as integers are not confused: two of them with the same value are the
    same text, or they are the two ways of writing zero. *)
Theorem plain_integers_stay_apart `{LiteralHost} a b n :
  plain_digits a = Some a → plain_digits b = Some b →
  convert KInt64 (LText a) = Some (VInt n) → convert KInt64 (LText b) = Some (VInt n) →
  a = b ∨ (n = 0 ∧ ∀ t, t ∈ [a; b] → t = [x30] ∨ t = [x2d; x30]).
Proof.
  intros Ha Hb Hca Hcb. cbn in Hca, Hcb. rewrite Ha in Hca. rewrite Hb in Hcb. cbn in Hca, Hcb.
  apply fmap_Some in Hca as (n1 & Hwa & [= <-]). apply fmap_Some in Hcb as (n2 & Hwb & [= <-]).
  destruct (plain_digits_spec a n Ha Hwa) as (na & la & -> & Hla & Hva).
  destruct (plain_digits_spec b n Hb Hwb) as (nb & lb & -> & Hlb & Hvb).
  pose proof (digits_bounds la (proj1 (proj2 Hla))) as Hba. pose proof (digits_bounds lb (proj1 (proj2 Hlb))) as Hbb.
  destruct (Z.eq_dec n 0) as [->|Hn].
  - right. split; [done|].
    assert (∀ l, canonical l → digits_value l = 0 → l = [x30]) as Hzero.
    { intros l Hl Hv. apply canonical_inj; [done|by split_and!; [|done|cbn; lia]|done]. }
    assert (la = [x30]) as -> by (apply Hzero; [done|destruct na; lia]).
    assert (lb = [x30]) as -> by (apply Hzero; [done|destruct nb; lia]).
    intros t. rewrite !elem_of_cons, elem_of_nil. destruct na, nb; naive_solver.
  - left. assert (na = nb) as -> by (destruct na, nb; try done; lia).
    assert (la = lb) as ->; [|done]. apply canonical_inj; [done..|]. destruct nb; lia.
Qed.
