(* ===== verification/LiteralToy.v ===== *)
(** * LiteralToy: literals at their limits *)

From Stdlib Require Import SpecFloat.
From S2P Require Import Prelude Text Cron Literal LiteralSafety.

#[local] Open Scope Z_scope.

(** A host that knows no dates and quotes nothing. *)
#[local] Instance l_host : LiteralHost := {|
  json_read_string _ := None;
  json_write_string s := s;
  rfc3339_micros _ := None;
  naive_micros _ _ := None;
  date_micros _ := None;
|}.

Abbreviation t s := (as_bytes s).

(** The first integer a float cannot hold is kept; the bounds of [i64] are exact. *)
Example whole_limits :
  whole (t "9007199254740993") = Some 9007199254740993
  ∧ whole (t "-9223372036854775808") = Some i64_min ∧ whole (t "9223372036854775808") = None ∧ whole (t "1e3") = None.
Proof. split_and!; vm_compute; reflexivity. Qed.

(** Rounding to binary64: a tenth, the largest finite value, what overflows and what vanishes. *)
Example float_limits :
  float (t "0.1") = Some (S754_finite false 7205759403792794 (-56))
  ∧ float (t "1.7976931348623157e308") = Some (S754_finite false 9007199254740991 971)
  ∧ float (t "1e309") = None ∧ float (t "-1e-400") = Some (S754_zero true).
Proof. split_and!; vm_compute; reflexivity. Qed.

(** A zip code stays text, and a plain number does not. *)
Example sample_kinds :
  candidates [LText (t "02134"); LText (t "10001")] = [KString]
  ∧ candidates [LText (t "10001"); LNull] = [KInt64; KFloat64; KDecimal; KString]
  ∧ lossless (candidates [LNumber (t "1.50"); LNumber (t "2")]) = KDecimal
  ∧ candidates [LNumber (t "1700000000")] = [KInt64; KFloat64; KDecimal; KTimestampSeconds; KString].
Proof. split_and!; vm_compute; reflexivity. Qed.

(** The text of a negative zero is not kept. *)
Example negative_zero : convert KInt64 (LText (t "-0")) = Some (VInt 0) ∧ candidates [LText (t "-0")] = [KInt64; KFloat64; KDecimal; KString].
Proof. split; vm_compute; reflexivity. Qed.

Lemma conversion_is_exact_witness :
  convert KDecimal (LNumber (t " -12.50 ")) = Some (VDecimal (-12500000000)).
Proof.
  destruct conversion_is_exact as [_ Hd].
  apply (Hd (t " -12.50 ") true true (t "12") (t "50")); try reflexivity; [discriminate|discriminate|apply (bool_decide_unpack _); reflexivity..].
Defined.

Lemma plain_integers_stay_apart_witness : t "10001" = t "10001" ∨ (10001 = 0 ∧ ∀ x, x ∈ [t "10001"; t "10001"] → x = [x30] ∨ x = [x2d; x30]).
Proof. apply (plain_integers_stay_apart (t "10001") (t "10001") 10001); vm_compute; reflexivity. Defined.
