(* ===== verification/Resources.v ===== *)
(** * Resources: one budget for queries and the cache

    [crates/walleye-cache/src/query_resources.rs]: the memory that queries and leases reserve comes
    out of what the cache may use, and so does the disk that spilling takes.

    The pool's and the cache's own decisions (whether the pool grants a reservation, whether a
    resize succeeds, how many bytes of evicted values are still alive) are choices of the
    environment.  The operations of [MemoryPool] and [SpillFileObserver] hold the mutex of the
    state and are one step; [reserve_memory] and the drop of a lease touch the atomic counter
    [leased] outside it, and are the steps of a thread. *)

From S2P Require Import Prelude.

#[local] Open Scope N_scope.

Definition MIB : N := 1024 * 1024.

(** The limits of [QueryResources], fixed by [new]. *)
Record Limits := mkLimits {
  lm_memory_bytes : N;
  lm_disk_bytes : N;
  lm_cache_memory_ceiling : N;
  lm_cache_memory_floor : N;
  lm_cache_disk_ceiling : N;
  lm_disk_floor : N;
}.

(** [QueryResources::new], as far as its limits. *)
Definition resources_new (memory_capacity persistent_capacity disk_floor memory_bytes disk_bytes : N) : option Limits :=
  if (memory_bytes =? 0) || (memory_bytes <? memory_capacity) || (disk_bytes <? persistent_capacity) || (disk_bytes <=? disk_floor)
  then None
  else Some (mkLimits memory_bytes disk_bytes memory_capacity
               (N.min (N.min (memory_capacity / 16) (64 * MIB)) (memory_bytes / 4)) persistent_capacity disk_floor).

(** What changes: the bytes the pool has granted, the counter of the leases, the capacity of the
    cache in memory and on disk, and [State]. *)
Record Budget := mkBudget {
  bg_reserved : N;
  bg_leased : N;
  bg_capacity : N;
  bg_disk : N;
  bg_spill_files : N;
  bg_disk_usage : gmap string N;
}.

Definition set_reserved (b : Budget) (x : N) : Budget :=
  mkBudget x (bg_leased b) (bg_capacity b) (bg_disk b) (bg_spill_files b) (bg_disk_usage b).
Definition set_leased (b : Budget) (x : N) : Budget :=
  mkBudget (bg_reserved b) x (bg_capacity b) (bg_disk b) (bg_spill_files b) (bg_disk_usage b).
Definition set_capacity (b : Budget) (x : N) : Budget :=
  mkBudget (bg_reserved b) (bg_leased b) x (bg_disk b) (bg_spill_files b) (bg_disk_usage b).
Definition set_disk (b : Budget) (x : N) : Budget :=
  mkBudget (bg_reserved b) (bg_leased b) (bg_capacity b) x (bg_spill_files b) (bg_disk_usage b).
Definition set_spill_files (b : Budget) (x : N) : Budget :=
  mkBudget (bg_reserved b) (bg_leased b) (bg_capacity b) (bg_disk b) x (bg_disk_usage b).
Definition set_usage (b : Budget) (x : gmap string N) : Budget :=
  mkBudget (bg_reserved b) (bg_leased b) (bg_capacity b) (bg_disk b) (bg_spill_files b) x.

(** The environment: the pool grants, the first and the second resize succeed, the bytes of
    retained values (estimated, counted, counted after eviction), and the size of the disk file
    after a resize to the size asked for, if it succeeds. *)
Record Env := mkEnv {
  en_grants : bool;
  en_resize : bool;
  en_evict : bool;
  en_estimate : N;
  en_retained : N;
  en_retained_after : N;
  en_disk : N → option N;
}.

Section Operations.
Context (lm : Limits).

Definition leasable : N := lm_memory_bytes lm - lm_cache_memory_floor lm.

Definition memory_available (b : Budget) : N := lm_memory_bytes lm - bg_reserved b.

(** [LanceFoyerCacheBackend::resize_memory]: the new capacity, or an error. *)
Definition resize_memory (ok : bool) (bytes : N) (b : Budget) : option Budget :=
  let bytes := N.min bytes (lm_cache_memory_ceiling lm) in
  if bg_capacity b =? bytes then Some b else if ok then Some (set_capacity b bytes) else None.

Definition quantum : N := N.max (N.min (8 * MIB) (lm_cache_memory_ceiling lm)) 1.

(** The second half of [make_memory_available]: values that outlive their eviction. *)
Definition evict_retained (e : Env) (available : N) (b : Budget) : bool * Budget :=
  if (available <? en_estimate e) && (available <? en_retained e) then
    match resize_memory (en_evict e) 0 b with
    | None => (false, b)
    | Some b => (negb (available <? en_retained_after e), b)
    end
  else (true, b).

(** [make_memory_available]; [false] is an error. *)
Definition make_memory_available (e : Env) (b : Budget) : bool * Budget :=
  let available := memory_available b in
  let target := N.min available (lm_cache_memory_ceiling lm) in
  if target <? bg_capacity b then
    match resize_memory (en_resize e) (target / quantum * quantum) b with
    | None => (false, b)
    | Some b => evict_retained e available b
    end
  else evict_retained e available b.

(** [return_memory]. *)
Definition return_memory (e : Env) (b : Budget) : Budget :=
  if bg_leased b <? bg_reserved b then b
  else
    let target := N.max (N.min (lm_memory_bytes lm - bg_leased b) (lm_cache_memory_ceiling lm) / quantum * quantum)
                    (N.min (lm_cache_memory_floor lm) (lm_cache_memory_ceiling lm)) in
    if bg_capacity b =? target then b else default b (resize_memory (en_resize e) target b).

(** [MemoryPool::grow]. *)
Definition grow (e : Env) (additional : N) (b : Budget) : Budget :=
  (make_memory_available e (set_reserved b (bg_reserved b + additional))).2.

(** [MemoryPool::shrink]. *)
Definition shrink (e : Env) (bytes : N) (b : Budget) : Budget :=
  return_memory e (set_reserved b (bg_reserved b - bytes)).

(** [MemoryPool::try_grow]. *)
Definition try_grow (e : Env) (additional : N) (b : Budget) : bool * Budget :=
  if negb (en_grants e) then (false, b)
  else
    let '(ok, b) := make_memory_available e (set_reserved b (bg_reserved b + additional)) in
    if ok then (true, b) else (false, set_reserved b (bg_reserved b - additional)).

(** ** Leases *)

(** A caller of [reserve_memory], from its admission to the end of its lease. *)
Inductive Lessee :=
| Asking (bytes : N)
| Passed (held bytes : N)
| Counted (bytes : N)
| Failed (bytes : N)
| Leasing (bytes : N)
| Leaving (bytes : N)
| Gone.

(** Each step of [reserve_memory], and of the drop of the lease: the counter first, then the
    reservation. *)
Definition lessee_step (e : Env) (t : Lessee) (b : Budget) : option (Lessee * Budget) :=
  match t with
  | Asking bytes =>
    let held := bg_leased b in
    Some (if leasable <? saturating_add held bytes then Gone else Passed held bytes, b)
  | Passed _ bytes => Some (Counted bytes, set_leased b (bg_leased b + bytes))
  | Counted bytes =>
    let '(ok, b) := try_grow e bytes b in
    Some (if ok then Leasing bytes else Failed bytes, b)
  | Failed bytes => Some (Gone, set_leased b (bg_leased b - bytes))
  | Leasing bytes => Some (Leaving bytes, set_leased b (bg_leased b - bytes))
  | Leaving bytes => Some (Gone, if bytes =? 0 then b else shrink e bytes b)
  | Gone => None
  end.

(** ** Disk *)

Definition used_elsewhere (b : Budget) : N := map_fold (λ _ bytes acc, bytes + acc) 0 (bg_disk_usage b).

(** [LanceFoyerCacheBackend::resize_disk_blocking]: the actual size, or an error. *)
Definition resize_disk (e : Env) (bytes : N) : option N := en_disk e (N.min bytes (lm_cache_disk_ceiling lm)).

(** [cache_disk_target]. *)
Definition cache_disk_target (b : Budget) : N :=
  N.max (N.min (lm_cache_disk_ceiling lm) (lm_disk_bytes lm - used_elsewhere b)) (lm_disk_floor lm).

(** [set_disk_usage_blocking]; [false] is an error of the resize. *)
Definition set_disk_usage (e : Env) (name : string) (bytes : N) (b : Budget) : bool * Budget :=
  let b := set_usage b (if bytes =? 0 then delete name (bg_disk_usage b) else <[name := bytes]> (bg_disk_usage b)) in
  if 0 <? bg_spill_files b then (true, b)
  else match resize_disk e (cache_disk_target b) with
       | Some actual => (true, set_disk b actual)
       | None => (false, b)
       end.

(** [SpillFileObserver::before_create]. *)
Definition before_create (e : Env) (b : Budget) : bool * Budget :=
  if bg_spill_files b =? 0 then
    match resize_disk e 0 with
    | None => (false, b)
    | Some actual =>
      let b := set_disk b actual in
      if lm_disk_floor lm <? actual then (false, b) else (true, set_spill_files b (bg_spill_files b + 1))
    end
  else (true, set_spill_files b (bg_spill_files b + 1)).

(** The drop of a [SpillLease]. *)
Definition spill_drop (e : Env) (b : Budget) : Budget :=
  let b := set_spill_files b (bg_spill_files b - 1) in
  if bg_spill_files b =? 0 then
    match resize_disk e (cache_disk_target b) with Some actual => set_disk b actual | None => b end
  else b.

(** ** Runs *)

(** A runtime: its budget, the callers of [reserve_memory], the bytes that query operators have
    reserved, and how many spill files are alive. *)
Record Runtime := mkRuntime { rt_budget : Budget; rt_lessees : list Lessee; rt_queries : N; rt_spills : N }.

Definition runtime_start : Runtime :=
  mkRuntime (mkBudget 0 0 (lm_cache_memory_ceiling lm) (lm_cache_disk_ceiling lm) 0 ∅) [] 0 0.

Inductive Move :=
| Ask (bytes : N)
| Step (i : nat)
| QueryGrow (bytes : N)
| QueryTryGrow (bytes : N)
| QueryShrink (bytes : N)
| DiskUsage (name : string) (bytes : N)
| SpillCreate
| SpillDrop.

Definition runtime_move (r : Runtime) (m : Move) (e : Env) : option Runtime :=
  let b := rt_budget r in
  match m with
  | Ask bytes => Some (mkRuntime b (rt_lessees r ++ [Asking bytes]) (rt_queries r) (rt_spills r))
  | Step i =>
    t ← rt_lessees r !! i;
    '(t, b) ← lessee_step e t b;
    Some (mkRuntime b (<[i := t]> (rt_lessees r)) (rt_queries r) (rt_spills r))
  | QueryGrow bytes => Some (mkRuntime (grow e bytes b) (rt_lessees r) (rt_queries r + bytes) (rt_spills r))
  | QueryTryGrow bytes =>
    let '(ok, b) := try_grow e bytes b in
    Some (mkRuntime b (rt_lessees r) (if ok then rt_queries r + bytes else rt_queries r) (rt_spills r))
  | QueryShrink bytes =>
    if bytes <=? rt_queries r then Some (mkRuntime (shrink e bytes b) (rt_lessees r) (rt_queries r - bytes) (rt_spills r)) else None
  | DiskUsage name bytes => Some (mkRuntime (set_disk_usage e name bytes b).2 (rt_lessees r) (rt_queries r) (rt_spills r))
  | SpillCreate =>
    let '(ok, b) := before_create e b in
    Some (mkRuntime b (rt_lessees r) (rt_queries r) (if ok then rt_spills r + 1 else rt_spills r))
  | SpillDrop =>
    if 0 <? rt_spills r then Some (mkRuntime (spill_drop e b) (rt_lessees r) (rt_queries r) (rt_spills r - 1)) else None
  end.

Definition is_admitted (t : Lessee) : bool := match t with Passed _ _ => true | _ => false end.

(** No two callers are between the admission and the count, and the resize of an infallible reservation,
    whose failure the code only logs, succeeds. *)
Definition orderly (r : Runtime) (m : Move) (e : Env) : bool :=
  (length (filter (λ t, is_admitted t = true) (rt_lessees r)) <=? 1)%nat
  && match m with QueryGrow _ => en_resize e | _ => true end.

(** A run, and whether it was orderly. *)
Fixpoint runtime_run (r : Runtime) (moves : list (Move * Env)) : option (Runtime * bool) :=
  match moves with
  | [] => Some (r, (length (filter (λ t, is_admitted t = true) (rt_lessees r)) <=? 1)%nat)
  | (m, e) :: moves =>
    r' ← runtime_move r m e;
    '(r'', rest) ← runtime_run r' moves;
    Some (r'', orderly r m e && rest)
  end.

End Operations.
