(* ===== verification/ResourcesSafety.v ===== *)
(** * ResourcesSafety: the budget is kept

    While reservations are admitted one at a time, the cache and what queries and leases hold
    never exceed the memory budget together, and no spill file exists while the cache has more
    than its floor on disk.  Two reservations admitted at once break it. *)

From S2P Require Import Prelude Resources.

#[local] Open Scope N_scope.

Section Budget.
Context (lm : Limits).

(** The limits as [resources_new] makes them. *)
Definition limits_ok : Prop :=
  lm_cache_memory_ceiling lm ≤ lm_memory_bytes lm ∧ lm_cache_memory_floor lm ≤ lm_memory_bytes lm ∧ lm_memory_bytes lm < u64_max.

(** The cache leaves room for what is reserved. *)
Definition room (b : Budget) : Prop := bg_capacity b ≤ lm_memory_bytes lm - bg_reserved b.

Definition capped (b : Budget) : Prop := bg_capacity b ≤ lm_cache_memory_ceiling lm.

Lemma resize_memory_Some ok bytes b b' :
  resize_memory lm ok bytes b = Some b' → b' = set_capacity b (N.min bytes (lm_cache_memory_ceiling lm)).
Proof.
  unfold resize_memory. destruct (N.eqb_spec (bg_capacity b) (N.min bytes (lm_cache_memory_ceiling lm))) as [He|].
  - intros [= <-]. rewrite <- He. by destruct b.
  - destruct ok; [|done]. by intros [= <-].
Qed.

Lemma resize_memory_ok bytes b :
  resize_memory lm true bytes b = Some (set_capacity b (N.min bytes (lm_cache_memory_ceiling lm))).
Proof.
  unfold resize_memory. destruct (N.eqb_spec (bg_capacity b) (N.min bytes (lm_cache_memory_ceiling lm))) as [He|]; [|done].
  rewrite <- He. by destruct b.
Qed.

Lemma quantum_le x : x / quantum lm * quantum lm ≤ x.
Proof. rewrite N.mul_comm. apply N.Div0.mul_div_le. Qed.

(** What [make_memory_available] may change. *)
Definition only_capacity (b b' : Budget) : Prop := b' = set_capacity b (bg_capacity b') ∧ bg_capacity b' ≤ bg_capacity b.

Lemma only_capacity_refl b : only_capacity b b.
Proof. split; [by destruct b|done]. Qed.

Lemma evict_spec e available b : only_capacity b (evict_retained lm e available b).2.
Proof.
  unfold evict_retained. destruct (_ && _); [|apply only_capacity_refl].
  destruct (resize_memory lm (en_evict e) 0 b) as [b'|] eqn:Hr; [|apply only_capacity_refl].
  apply resize_memory_Some in Hr as ->. split; [done|cbn; lia].
Qed.

Lemma make_available_spec e b :
  let r := make_memory_available lm e b in
  only_capacity b r.2 ∧ (r.1 = true → room r.2) ∧ (en_resize e = true → room r.2).
Proof.
  unfold make_memory_available, room. destruct (N.ltb_spec (N.min (memory_available lm b) (lm_cache_memory_ceiling lm)) (bg_capacity b)) as [Hlt|Hge].
  - destruct (resize_memory lm (en_resize e) _ b) as [b'|] eqn:Hr.
    + apply resize_memory_Some in Hr as ->. set (b' := set_capacity _ _).
      pose proof (quantum_le (N.min (memory_available lm b) (lm_cache_memory_ceiling lm))) as Hq.
      pose proof (evict_spec e (memory_available lm b) b') as Hev.
      assert (bg_capacity b' ≤ memory_available lm b ∧ bg_capacity b' ≤ bg_capacity b) as [Hb1 Hb2] by (cbn; lia).
      destruct (evict_retained lm e (memory_available lm b) b') as [ok b2]. destruct Hev as [-> Hle]. cbn in *.
      unfold memory_available in *. split; [split; [done|cbn; lia]|]. split; intros _; lia.
    + cbn. split; [apply only_capacity_refl|]. split; [done|]. intros Hok. rewrite Hok, resize_memory_ok in Hr. done.
  - pose proof (evict_spec e (memory_available lm b) b) as Hev.
    destruct (evict_retained lm e (memory_available lm b) b) as [ok b2]. destruct Hev as [-> Hle]. cbn in *.
    unfold memory_available in *. split; [by split|]. split; intros _; lia.
Qed.

Lemma try_grow_spec e n b :
  room b →
  let r := try_grow lm e n b in
  room r.2 ∧ bg_capacity r.2 ≤ bg_capacity b ∧ bg_reserved r.2 = (if r.1 then bg_reserved b + n else bg_reserved b)
  ∧ bg_leased r.2 = bg_leased b ∧ bg_disk r.2 = bg_disk b ∧ bg_spill_files r.2 = bg_spill_files b.
Proof.
  intros Hroom. unfold try_grow. destruct (en_grants e); cbn [negb]; [|done].
  destruct (make_available_spec e (set_reserved b (bg_reserved b + n))) as ([He Hle] & Hok & _).
  destruct (make_memory_available lm e (set_reserved b (bg_reserved b + n))) as [[] b']; cbn in *.
  - specialize (Hok eq_refl). rewrite He. cbn. split_and!; try done. by rewrite He in Hok.
  - rewrite He. unfold room in *. cbn. split_and!; try done; lia.
Qed.

Lemma grow_spec e n b :
  en_resize e = true →
  let b' := grow lm e n b in
  room b' ∧ bg_capacity b' ≤ bg_capacity b ∧ bg_reserved b' = bg_reserved b + n ∧ bg_leased b' = bg_leased b
  ∧ bg_disk b' = bg_disk b ∧ bg_spill_files b' = bg_spill_files b.
Proof.
  intros Hres. unfold grow. destruct (make_available_spec e (set_reserved b (bg_reserved b + n))) as ([He Hle] & _ & Hok).
  specialize (Hok Hres). revert He Hle Hok. generalize (make_memory_available lm e (set_reserved b (bg_reserved b + n))).2.
  intros b' -> Hle Hok. cbn in *. done.
Qed.

Lemma return_spec e b :
  limits_ok → room b → capped b → bg_leased b ≤ leasable lm →
  let b' := return_memory lm e b in
  room b' ∧ capped b' ∧ bg_reserved b' = bg_reserved b ∧ bg_leased b' = bg_leased b
  ∧ bg_disk b' = bg_disk b ∧ bg_spill_files b' = bg_spill_files b.
Proof.
  intros (Hc & Hf & _) Hroom Hcap Hl. unfold return_memory, leasable in *.
  destruct (N.ltb_spec (bg_leased b) (bg_reserved b)); [done|]. set (target := N.max _ _).
  destruct (bg_capacity b =? target); [done|].
  destruct (resize_memory lm (en_resize e) target b) as [b'|] eqn:Hr; [|done]. apply resize_memory_Some in Hr as ->. cbn.
  pose proof (quantum_le (N.min (lm_memory_bytes lm - bg_leased b) (lm_cache_memory_ceiling lm))) as Hq.
  unfold room, capped. cbn. split_and!; try done; unfold target; lia.
Qed.

Lemma shrink_spec e n b :
  limits_ok → room b → capped b → bg_leased b ≤ leasable lm →
  let b' := shrink lm e n b in
  room b' ∧ capped b' ∧ bg_reserved b' = bg_reserved b - n ∧ bg_leased b' = bg_leased b
  ∧ bg_disk b' = bg_disk b ∧ bg_spill_files b' = bg_spill_files b.
Proof.
  intros Hlim Hroom Hcap Hl. unfold shrink.
  destruct (return_spec e (set_reserved b (bg_reserved b - n))) as (? & ? & ? & ? & ? & ?); try done.
  unfold room in *. cbn. lia.
Qed.

(** ** Threads *)

(** What a caller has counted, and what it has reserved. *)
Definition counts (t : Lessee) : N := match t with Counted n | Failed n | Leasing n => n | _ => 0 end.
Definition reserves (t : Lessee) : N := match t with Leasing n | Leaving n => n | _ => 0 end.

Fixpoint total (f : Lessee → N) (l : list Lessee) : N := match l with [] => 0 | t :: l => f t + total f l end.

#[local] Arguments total : simpl never.

Lemma total_cons f t l : total f (t :: l) = f t + total f l.
Proof. done. Qed.

Lemma total_app f l k : total f (l ++ k) = total f l + total f k.
Proof. induction l as [|t l IH]; [done|]. rewrite <- app_comm_cons, !total_cons, IH. lia. Qed.

Lemma total_split f l i t : l !! i = Some t → ∃ rest, total f l = f t + rest ∧ ∀ t', total f (<[i := t']> l) = f t' + rest.
Proof.
  intros Hi. exists (total f (take i l) + total f (drop (S i) l)).
  assert (i < length l)%nat as Hlt by (by eapply lookup_lt_Some). split.
  - rewrite <- (take_drop_middle l i t Hi) at 1. rewrite total_app, total_cons. lia.
  - intros t'. rewrite insert_take_drop by done. rewrite total_app, total_cons. lia.
Qed.

Record runtime_ok (r : Runtime) : Prop := {
  rk_room : room (rt_budget r);
  rk_capped : capped (rt_budget r);
  rk_leasable : bg_leased (rt_budget r) ≤ leasable lm;
  rk_leased : bg_leased (rt_budget r) = total counts (rt_lessees r);
  rk_reserved : bg_reserved (rt_budget r) = total reserves (rt_lessees r) + rt_queries r;
  rk_admitted i held bytes : rt_lessees r !! i = Some (Passed held bytes) →
    bg_leased (rt_budget r) ≤ held ∧ saturating_add held bytes ≤ leasable lm;
  rk_spills : bg_spill_files (rt_budget r) = rt_spills r;
  rk_disk : 0 < rt_spills r → bg_disk (rt_budget r) ≤ lm_disk_floor lm;
}.

Definition admitted_count (l : list Lessee) : nat := length (filter (λ t, is_admitted t = true) l).

(** Only one caller is admitted: no other is. *)
Lemma one_admitted l i j t t' :
  (admitted_count l ≤ 1)%nat → l !! i = Some t → l !! j = Some t' → is_admitted t = true → is_admitted t' = true → i = j.
Proof.
  intros Hone Hi Hj Ht Ht'. destruct (Nat.lt_trichotomy i j) as [Hlt|[?|Hlt]]; [|done|]; exfalso.
  - rewrite <- (take_drop_middle l i t Hi) in Hone. unfold admitted_count in Hone.
    assert (drop (S i) l !! (j - S i)%nat = Some t') as Hd by (rewrite lookup_drop; by replace (S i + (j - S i))%nat with j by lia).
    rewrite filter_app, filter_cons, decide_True, length_app in Hone by done. cbn in Hone.
    assert (t' ∈ filter (λ t, is_admitted t = true) (drop (S i) l)) as Hin
      by (apply list_elem_of_filter; split; [done|by eapply list_elem_of_lookup_2]).
    destruct (filter (λ t, is_admitted t = true) (drop (S i) l)); [by apply elem_of_nil in Hin|cbn in Hone; lia].
  - rewrite <- (take_drop_middle l j t' Hj) in Hone. unfold admitted_count in Hone.
    assert (drop (S j) l !! (i - S j)%nat = Some t) as Hd by (rewrite lookup_drop; by replace (S j + (i - S j))%nat with i by lia).
    rewrite filter_app, filter_cons, decide_True, length_app in Hone by done. cbn in Hone.
    assert (t ∈ filter (λ t, is_admitted t = true) (drop (S j) l)) as Hin
      by (apply list_elem_of_filter; split; [done|by eapply list_elem_of_lookup_2]).
    destruct (filter (λ t, is_admitted t = true) (drop (S j) l)); [by apply elem_of_nil in Hin|cbn in Hone; lia].
Qed.

(** A step that leaves the callers, or those of them that count, alone. *)
Lemma keep_admitted (l : list Lessee) i t' (P : N → N → Prop) :
  is_admitted t' = false → (∀ j held bytes, l !! j = Some (Passed held bytes) → j ≠ i → P held bytes) →
  ∀ j held bytes, <[i := t']> l !! j = Some (Passed held bytes) → P held bytes.
Proof.
  intros Ht HP j held bytes [(<- & -> & _)|[Hne Hj]]%list_lookup_insert_Some; [done|]. by eapply HP.
Qed.

Lemma lessee_ok r i t e t' b' :
  limits_ok → runtime_ok r → (admitted_count (rt_lessees r) ≤ 1)%nat → rt_lessees r !! i = Some t →
  lessee_step lm e t (rt_budget r) = Some (t', b') →
  runtime_ok (mkRuntime b' (<[i := t']> (rt_lessees r)) (rt_queries r) (rt_spills r)).
Proof.
  intros Hlim Hr Hone Hi Hs.
  destruct (total_split counts _ _ _ Hi) as (rc & Hc & Hc'). destruct (total_split reserves _ _ _ Hi) as (rr & Hrr & Hrr').
  pose proof (rk_leased _ Hr) as Hl. pose proof (rk_reserved _ Hr) as Hres. rewrite Hc in Hl. rewrite Hrr in Hres.
  pose proof (rk_room _ Hr) as Hroom. pose proof (rk_capped _ Hr) as Hcap. pose proof (rk_leasable _ Hr) as Hle.
  assert (∀ j held bytes, rt_lessees r !! j = Some (Passed held bytes) → j ≠ i →
    bg_leased (rt_budget r) ≤ held ∧ saturating_add held bytes ≤ leasable lm) as Hadm by (intros; by eapply rk_admitted).
  destruct t as [n|held n|n|n|n|n|]; cbn in Hs, Hl, Hres; [| | | | | |done].
  - set (t2 := if leasable lm <? _ then _ else _) in Hs.
    assert (counts t2 = 0 ∧ reserves t2 = 0) as [Ht1 Ht2] by (unfold t2; by destruct (_ <? _)).
    injection Hs as <- <-. split; cbn; rewrite ?Hc', ?Hrr', ?Ht1, ?Ht2; try done; try apply Hr.
    intros j held' n' [(-> & Heq & _)|[Hne Hj]]%list_lookup_insert_Some; [|by eapply Hadm]. unfold t2 in Heq.
    destruct (N.ltb_spec (leasable lm) (saturating_add (bg_leased (rt_budget r)) n)); [done|]. by injection Heq as <- <-.
  - injection Hs as <- <-. destruct (rk_admitted _ Hr _ _ _ Hi) as [Hh Hsat].
    assert (bg_leased (rt_budget r) + n ≤ leasable lm) as Hfit.
    { destruct Hlim as (_ & _ & Hmax). unfold saturating_add, leasable in *. lia. }
    split; cbn; rewrite ?Hc', ?Hrr'; try done; try apply Hr; try (cbn; lia).
    apply keep_admitted; [done|]. intros j held' n' Hj Hne. destruct Hne. by eapply (one_admitted _ j i).
  - destruct (try_grow_spec e n (rt_budget r) Hroom) as (H1 & H2 & H3 & H4 & H5 & H6).
    destruct (try_grow lm e n (rt_budget r)) as [ok b]. injection Hs as <- <-. cbn in *.
    split; cbn; rewrite ?H3, ?H4, ?H5, ?H6, ?Hc', ?Hrr'; try done; try apply Hr.
    + unfold capped in *. lia.
    + destruct ok; cbn; lia.
    + destruct ok; cbn; lia.
    + apply keep_admitted; [by destruct ok|done].
  - injection Hs as <- <-. split; cbn; rewrite ?Hc', ?Hrr'; try done; try apply Hr; try (cbn; lia).
    apply keep_admitted; [done|]. intros j held' n' Hj Hne. destruct (Hadm j held' n' Hj Hne). split; [lia|done].
  - injection Hs as <- <-. split; cbn; rewrite ?Hc', ?Hrr'; try done; try apply Hr; try (cbn; lia).
    apply keep_admitted; [done|]. intros j held' n' Hj Hne. destruct (Hadm j held' n' Hj Hne). split; [lia|done].
  - assert (∃ b, b' = b ∧ room b ∧ capped b ∧ bg_reserved b = bg_reserved (rt_budget r) - n ∧ bg_leased b = bg_leased (rt_budget r)
      ∧ bg_disk b = bg_disk (rt_budget r) ∧ bg_spill_files b = bg_spill_files (rt_budget r) ∧ t' = Gone) as (b & -> & H1 & H2 & H3 & H4 & H5 & H6 & ->).
    { destruct (N.eqb_spec n 0) as [->|]; injection Hs as <- <-; eexists; (split; [done|]).
      - split_and!; try done. lia.
      - destruct (shrink_spec e n (rt_budget r) Hlim Hroom Hcap Hle) as (?&?&?&?&?&?). done. }
    split; cbn; rewrite ?H3, ?H4, ?H5, ?H6, ?Hc', ?Hrr'; try done; try apply Hr; try (cbn; lia).
    by apply keep_admitted.
Qed.

(** ** Moves and runs *)

(** A step that changes only the reservations of queries. *)
Lemma query_ok r b' queries :
  runtime_ok r → room b' → capped b' → bg_reserved b' + rt_queries r = bg_reserved (rt_budget r) + queries →
  bg_leased b' = bg_leased (rt_budget r) → bg_disk b' = bg_disk (rt_budget r) → bg_spill_files b' = bg_spill_files (rt_budget r) →
  runtime_ok (mkRuntime b' (rt_lessees r) queries (rt_spills r)).
Proof.
  intros Hr H1 H2 H3 H4 H5 H6. pose proof (rk_reserved _ Hr).
  split; cbn; rewrite ?H4, ?H5, ?H6; try done; try apply Hr. lia.
Qed.

(** A step that changes only the disk. *)
Lemma disk_ok r b' spills :
  runtime_ok r → bg_capacity b' = bg_capacity (rt_budget r) → bg_reserved b' = bg_reserved (rt_budget r) →
  bg_leased b' = bg_leased (rt_budget r) → bg_spill_files b' = spills → (0 < spills → bg_disk b' ≤ lm_disk_floor lm) →
  runtime_ok (mkRuntime b' (rt_lessees r) (rt_queries r) spills).
Proof.
  intros Hr H1 H2 H3 H4 H5. split; cbn; unfold room, capped; rewrite ?H1, ?H2, ?H3; try done; apply Hr.
Qed.

Lemma budget_move_ok r m e r' :
  limits_ok → runtime_ok r → orderly r m e = true → runtime_move lm r m e = Some r' → runtime_ok r'.
Proof.
  intros Hlim Hr Ho Hm. unfold orderly in Ho. apply andb_prop in Ho as [Hone Ho]. apply Nat.leb_le in Hone.
  pose proof (rk_room _ Hr) as Hroom. pose proof (rk_capped _ Hr) as Hcap. pose proof (rk_leasable _ Hr) as Hle.
  pose proof (rk_spills _ Hr) as Hsp. pose proof (rk_disk _ Hr) as Hdk.
  destruct m as [n|i|n|n|n|name n| |]; cbn [runtime_move] in Hm.
  - injection Hm as <-. split; cbn; rewrite ?total_app, ?total_cons; try apply Hr.
    + rewrite (rk_leased _ Hr). cbn. unfold total. lia.
    + rewrite (rk_reserved _ Hr). cbn. unfold total. lia.
    + intros i held bytes [Hi|[_ Hi]]%lookup_app_Some; [by eapply rk_admitted|]. by apply list_lookup_singleton_Some in Hi as [_ ?].
  - destruct (rt_lessees r !! i) as [t|] eqn:Hi; [|done]. cbn in Hm.
    destruct (lessee_step lm e t (rt_budget r)) as [[t' b']|] eqn:Hs; [|done]. injection Hm as <-. by eapply lessee_ok.
  - injection Hm as <-. destruct (grow_spec e n (rt_budget r) Ho) as (?&?&H3&?&?&?).
    apply query_ok; try done; [unfold capped in *; lia|]. rewrite H3. lia.
  - destruct (try_grow_spec e n (rt_budget r) Hroom) as (?&?&H3&?&?&?). destruct (try_grow lm e n (rt_budget r)) as [ok b'].
    injection Hm as <-. cbn in *. apply query_ok; try done; [unfold capped in *; lia|]. rewrite H3. destruct ok; lia.
  - destruct (N.leb_spec n (rt_queries r)); [|done]. injection Hm as <-.
    destruct (shrink_spec e n (rt_budget r) Hlim Hroom Hcap Hle) as (?&?&H3&?&?&?). apply query_ok; try done.
    pose proof (rk_reserved _ Hr). rewrite H3. lia.
  - injection Hm as <-. unfold set_disk_usage. cbn [set_usage bg_spill_files bg_disk_usage].
    destruct (N.ltb_spec 0 (bg_spill_files (rt_budget r))) as [Hlt|Hz]; [by apply disk_ok|].
    destruct (resize_disk _ _ _); apply disk_ok; try done; cbn; intros; lia.
  - unfold before_create in Hm. destruct (N.eqb_spec (bg_spill_files (rt_budget r)) 0) as [Hz|Hnz].
    + destruct (resize_disk lm e 0) as [actual|]; cbn in Hm; [|injection Hm as <-; by apply disk_ok].
      destruct (N.ltb_spec (lm_disk_floor lm) actual); injection Hm as <-; apply disk_ok; try done; cbn; intros; lia.
    + injection Hm as <-. apply disk_ok; try done; cbn; [lia|]. intros _. apply Hdk. lia.
  - destruct (N.ltb_spec 0 (rt_spills r)) as [Hlt|]; [|done]. injection Hm as <-. unfold spill_drop. cbn [set_spill_files bg_spill_files].
    destruct (N.eqb_spec (bg_spill_files (rt_budget r) - 1) 0); [destruct (resize_disk _ _ _)|];
      apply disk_ok; try done; cbn; intros; lia || (apply Hdk; lia).
Qed.

Lemma start_ok : limits_ok → runtime_ok (runtime_start lm).
Proof. intros (Hc & Hf & _). split; cbn; try done; unfold room, capped; cbn; lia. Qed.

Lemma budget_run_ok moves r r' : limits_ok → runtime_ok r → runtime_run lm r moves = Some (r', true) → runtime_ok r'.
Proof.
  intros Hlim. revert r. induction moves as [|[m e] moves IH]; intros r Hr Hrun; cbn [runtime_run] in Hrun; [by injection Hrun as <- _|].
  destruct (runtime_move lm r m e) as [r1|] eqn:Hm; [|done]. cbn in Hrun.
  destruct (runtime_run lm r1 moves) as [[r2 ok]|] eqn:Hr2; [|done]. injection Hrun as <- Ho. apply andb_prop in Ho as [Ho ->].
  eapply IH; [|done]. by eapply budget_move_ok.
Qed.

End Budget.

Lemma new_limits memory_capacity persistent_capacity disk_floor memory_bytes disk_bytes lm :
  resources_new memory_capacity persistent_capacity disk_floor memory_bytes disk_bytes = Some lm → memory_bytes < u64_max → limits_ok lm ∧ lm_memory_bytes lm = memory_bytes.
Proof.
  unfold resources_new. intros Hn Hmax. destruct (_ || _) eqn:Hg; [done|]. injection Hn as <-.
  apply orb_false_elim in Hg as [[[_ Hc%N.ltb_ge]%orb_false_elim _]%orb_false_elim _].
  assert (memory_bytes / 4 ≤ memory_bytes) by (apply N.Div0.div_le_upper_bound; lia).
  split; [|done]. split_and!; cbn; try done; lia.
Qed.

(** C23: In every run of reservations, leases, query growth and spilling in which no two callers of
    [reserve_memory] are between their admission and their count, and in which the resize that an
    infallible reservation asks for succeeds (the code only logs when it does not), whatever else the
    pool grants and whichever other resizes fail: while the pool itself has granted no more than its
    size, what queries and leases have reserved and what the cache may hold stay within the memory
    budget together, and a pool that granted more leaves the cache at zero; the leases never hold
    more than the budget less the cache's working floor; and while a spill file exists the cache's
    file is no larger than its floor on disk. *)
Theorem memory_budget_is_kept memory_capacity persistent_capacity disk_floor memory_bytes disk_bytes lm moves r :
  resources_new memory_capacity persistent_capacity disk_floor memory_bytes disk_bytes = Some lm →
  memory_bytes < u64_max →
  runtime_run lm (runtime_start lm) moves = Some (r, true) →
  let b := rt_budget r in
  (bg_reserved b ≤ memory_bytes → bg_capacity b + bg_reserved b ≤ memory_bytes)
  ∧ (memory_bytes < bg_reserved b → bg_capacity b = 0)
  ∧ bg_leased b ≤ leasable lm
  ∧ (0 < rt_spills r → bg_disk b ≤ lm_disk_floor lm).
Proof.
  intros Hn Hmax Hrun. destruct (new_limits _ _ _ _ _ _ Hn Hmax) as [Hlim He].
  pose proof (budget_run_ok lm moves _ r Hlim (start_ok lm Hlim) Hrun) as Hr. cbn.
  pose proof (rk_room _ _ Hr) as Hroom. unfold room in Hroom. rewrite He in Hroom.
  split_and!; [lia|lia|apply (rk_leasable _ _ Hr)|apply (rk_disk _ _ Hr)].
Qed.

(** ** Concrete runs *)

(** A pool that grants and a cache that resizes as it is told, down to its floor on disk. *)
Definition willing : Env := mkEnv true true true 0 0 0 (λ bytes, Some (N.max bytes (256 * MIB))).

Definition gib_limits : option Limits := resources_new (1024 * MIB) (4096 * MIB) (256 * MIB) (1024 * MIB) (8192 * MIB).

Definition play (moves : list Move) : option (Runtime * bool) :=
  lm ← gib_limits; runtime_run lm (runtime_start lm) (map (λ m, (m, willing)) moves).

(** A lease, a query that grows and shrinks while it spills, and a second lease, one after the other. *)
Definition orderly_moves : list Move :=
  [Ask (500 * MIB); Step 0; Step 0; Step 0; QueryTryGrow (100 * MIB); SpillCreate; DiskUsage "log" (300 * MIB);
   Ask (300 * MIB); Step 1; Step 1; Step 1; QueryShrink (100 * MIB); Step 0; Step 0].

Definition seen (x : option (Runtime * bool)) : option (list N * bool) :=
  '(r, ok) ← x; Some ([bg_capacity (rt_budget r) / MIB; bg_reserved (rt_budget r) / MIB; bg_leased (rt_budget r) / MIB; bg_disk (rt_budget r) / MIB; rt_spills r], ok).

Lemma memory_budget_is_kept_witness :
  ∃ lm r, gib_limits = Some lm ∧ play orderly_moves = Some (r, true) ∧ seen (play orderly_moves) = Some ([720; 300; 300; 256; 1], true)
  ∧ bg_capacity (rt_budget r) + bg_reserved (rt_budget r) ≤ 1024 * MIB.
Proof.
  eexists _, _. split; [vm_compute; reflexivity|]. split; [vm_compute; reflexivity|]. split; [vm_compute; reflexivity|].
  eapply (memory_budget_is_kept (1024 * MIB) (4096 * MIB) (256 * MIB) (1024 * MIB) (8192 * MIB) _ (map (λ m, (m, willing)) orderly_moves)).
  - vm_compute. reflexivity.
  - vm_compute. reflexivity.
  - vm_compute. reflexivity.
  - vm_compute. intros [=].
Defined.

(** Two callers of [reserve_memory] that both read the counter before either adds to it are both
    granted 500 MiB of the 960 MiB that leases may hold; when a query next releases memory, the
    cache regrows to its floor of 64 MiB, and the 1024 MiB budget is exceeded by 40 MiB although
    the pool refused nothing it should have and no resize failed. *)
Theorem concurrent_leases_overrun :
  seen (play [Ask (500 * MIB); Ask (500 * MIB); Step 0; Step 1; Step 0; Step 1; Step 0; Step 1; QueryTryGrow (8 * MIB); QueryShrink (8 * MIB)])
  = Some ([64; 1000; 1000; 4096; 0], false)
  ∧ (gib_limits ≫= λ lm, Some (leasable lm / MIB)) = Some 960 ∧ 64 + 1000 > 1024.
Proof. split; [vm_compute; reflexivity|]. split; [vm_compute; reflexivity|lia]. Qed.
