(* ===== verification/Authority.v ===== *)
(** * Authority: moving metadata authority to the object store

    [crates/walleye-bitr-server/src/authority.rs] and [migrate_control_authority] of
    [metadata_authority.rs]: certify one complete metadata value from a quorum of the old control
    cohort, freeze a quorum of its volumes, and create the first control head from exactly that
    value.

    [binary_search] on the members of a cohort is membership: the standard library promises nothing
    on a list that is not sorted, and a cohort that is not sorted is refused by [ControlHead::new]
    before a certificate is made of it. *)

From stdpp Require Import pretty.
From S2P Require Import Prelude Text Programs Wire Client Placement Manifest Cohorts ControlDoc Control ObjectStore ControlHead Coordinator.

#[local] Open Scope N_scope.

Inductive AuthorityError :=
| AuthorityInvalid (reason : string)
| InsufficientQuorum (required actual : N)
| FreezeMismatch
| SourceDoesNotMatchHead
| AuthorityHead (e : ControlHeadError).

(** [to_string] of an error of the object store. *)
Class StoreErrorText := { store_error_text : StoreError → string }.

(** The value certified by one old control quorum. *)
Record SourceQuorumCertificate := mkCertificate {
  sq_authority : string;
  sq_authority_epoch : N;
  sq_revision : N;
  sq_metadata : ControlMetadata;
  sq_control_cohort_id : N;
  sq_control_member_ids : list string;
  sq_agreeing_member_ids : gset string;
}.

Record SourceReplicaSnapshot := mkReplicaSnapshot { sr_member_id : string; sr_snapshot : MembershipSnapshot }.

Record FrozenSourceQuorum := mkFrozen {
  fq_certificate : SourceQuorumCertificate;
  fq_freeze : MetadataFreeze;
  fq_acknowledged_member_ids : gset string;
  fq_required_quorum : N;
}.

#[global] Instance SourceQuorumCertificate_eq_dec : EqDecision SourceQuorumCertificate.
Proof. solve_decision. Defined.

(** [to_string] of the errors. *)
Definition control_head_error_text `{StoreErrorText} (e : ControlHeadError) : string :=
  match e with
  | HeadInvalid reason => "invalid replica control head: " +:+ reason
  | HeadObjectStore e => "replica control head object-store operation failed: " +:+ store_error_text e
  | HeadJson reason => "replica control head JSON conversion failed: " +:+ reason
  | HeadAlreadyExists => "replica control head already exists"
  | HeadPrecondition => "replica control head conditional update failed"
  | HeadSourceMarkerMismatch => "replica control head source marker does not match the expected authority"
  | HeadOperationConflict operation_id =>
    "replica control head operation " +:+ operation_id +:+ " conflicts with an existing value"
  | HeadPendingHandoffConflict stream operation_id =>
    "pending handoff for stream " +:+ stream +:+ " is owned by operation " +:+ operation_id
  | HeadMissingEtag => "replica control head object has no ETag for conditional update"
  end.

Definition authority_error_text `{StoreErrorText} (e : AuthorityError) : string :=
  match e with
  | AuthorityInvalid reason => "invalid replica authority handoff: " +:+ reason
  | InsufficientQuorum required actual =>
    "source metadata quorum is insufficient: required " +:+ pretty required +:+ ", got " +:+ pretty actual
  | FreezeMismatch => "metadata freeze does not match the certified source"
  | SourceDoesNotMatchHead => "source quorum does not match the active control head"
  | AuthorityHead e => "control-head operation failed: " +:+ control_head_error_text e
  end.

(** ** Checks *)

Definition validate_quorum_size (required available : N) : result AuthorityError unit :=
  if (required =? 0) || (available <? required) then Err (InsufficientQuorum required available) else Ok tt.

Definition validate_operation_id (operation_id : string) : result AuthorityError unit :=
  if blank operation_id then Err (AuthorityInvalid "authority operation id must not be empty") else Ok tt.

(** [SourceReplicaSnapshot::new]. *)
Definition replica_snapshot_new (member_id : string) (snapshot : MembershipSnapshot)
    : result AuthorityError SourceReplicaSnapshot :=
  if blank member_id then Err (AuthorityInvalid "source replica member id must not be empty")
  else Ok (mkReplicaSnapshot member_id snapshot).

Section Authority.
Context `{ManifestHost, MetadataJson, HeadCodec}.

(** [ControlSourceMarker::new]. *)
Definition control_source_marker_new (authority : string) (authority_epoch revision : N) (digest : string)
    : result ControlHeadError ControlSourceMarker :=
  let marker := mkSource authority authority_epoch revision digest in
  _ ← validate_source_marker marker; Ok marker.

(** [SourceQuorumCertificate::source_marker]. *)
Definition source_marker (c : SourceQuorumCertificate) : result AuthorityError ControlSourceMarker :=
  map_err AuthorityHead
    (control_source_marker_new (sq_authority c) (sq_authority_epoch c) (sq_revision c) (metadata_digest (sq_metadata c))).

Definition source_cohort_writable (status : CohortStatus) : bool :=
  match status with CActive | CDraining => true | _ => false end.

(** [SourceQuorumCertificate::validate]. *)
Definition validate_certificate (c : SourceQuorumCertificate) (required_quorum : N) : result AuthorityError unit :=
  let ids := sq_control_member_ids c in
  _ ← validate_quorum_size required_quorum (len ids);
  if blank (sq_authority c) then Err (AuthorityInvalid "source authority must not be empty")
  else if (sq_authority_epoch c =? 0) || (sq_revision c =? 0) then
    Err (AuthorityInvalid "source authority epoch and revision must be nonzero")
  else
    let digest := metadata_digest (sq_metadata c) in
    cohort ← ok_or (cm_cohorts (sq_metadata c) !! sq_control_cohort_id c)
               (AuthorityInvalid "source certificate names an unknown control cohort");
    if negb (bool_decide (dc_members cohort = ids)) || negb (len (dc_members cohort) =? REPLICATION_FACTOR)
       || (len (dc_members cohort) <? required_quorum) || negb (source_cohort_writable (dc_status cohort))
    then Err (AuthorityInvalid "source control cohort does not match the certified membership")
    else if (N.of_nat (size (sq_agreeing_member_ids c)) <? required_quorum)
            || negb (forallb (λ id, bool_decide (id ∈ ids)) (elements (sq_agreeing_member_ids c)))
    then Err (InsufficientQuorum required_quorum (N.of_nat (size (sq_agreeing_member_ids c))))
    else match validate_manifest (cm_manifest (sq_metadata c)) with
    | Err _ => Err (AuthorityInvalid "source certificate contains an invalid manifest")
    | Ok _ =>
      if bool_decide (digest = "") then Err (AuthorityInvalid "source metadata digest must not be empty")
      else
        marker ← map_err AuthorityHead
                   (control_source_marker_new (sq_authority c) (sq_authority_epoch c) (sq_revision c) digest);
        _ ← map_err AuthorityHead
              (control_head_new (sq_authority_epoch c) (sq_revision c) "source-certificate-validation" marker (sq_metadata c));
        Ok tt
    end.

(** [SourceQuorumCertificate::freeze_request]. *)
Definition freeze_request (c : SourceQuorumCertificate) (operation_id : string) (required_quorum : N)
    : result AuthorityError MetadataFreeze :=
  _ ← validate_certificate c required_quorum;
  _ ← validate_operation_id operation_id;
  source ← source_marker c;
  target ← ok_or (checked_add (sq_authority_epoch c) 1) (AuthorityInvalid "authority epoch exhausted");
  Ok (mkFreeze operation_id source target (sq_control_cohort_id c)).

(** The freeze is the one of the certificate. *)
Definition check_freeze (c : SourceQuorumCertificate) (freeze : MetadataFreeze) : result AuthorityError unit :=
  source ← source_marker c;
  if negb (bool_decide (mf_source freeze = source)) || negb (mf_control_cohort_id freeze =? sq_control_cohort_id c)
  then Err FreezeMismatch
  else
    target ← ok_or (checked_add (sq_authority_epoch c) 1) (AuthorityInvalid "authority epoch exhausted");
    if negb (mf_target_authority_epoch freeze =? target) then Err FreezeMismatch else Ok tt.

(** [FrozenSourceQuorum::validate]. *)
Definition validate_frozen (f : FrozenSourceQuorum) : result AuthorityError unit :=
  let c := fq_certificate f in
  _ ← validate_certificate c (fq_required_quorum f);
  _ ← validate_operation_id (mf_operation_id (fq_freeze f));
  _ ← check_freeze c (fq_freeze f);
  if (N.of_nat (size (fq_acknowledged_member_ids f)) <? fq_required_quorum f)
     || negb (forallb (λ id, bool_decide (id ∈ sq_control_member_ids c)) (elements (fq_acknowledged_member_ids f)))
  then Err (InsufficientQuorum (fq_required_quorum f) (N.of_nat (size (fq_acknowledged_member_ids f))))
  else Ok tt.

(** [SourceQuorumCertificate::initial_head]. *)
Definition initial_head (c : SourceQuorumCertificate) (f : FrozenSourceQuorum) (operation_id : string)
    : result AuthorityError ControlHead :=
  _ ← validate_frozen f;
  if negb (bool_decide (fq_certificate f = c)) then
    Err (AuthorityInvalid "freeze certificate does not match the source metadata")
  else
    marker ← source_marker c;
    map_err AuthorityHead
      (control_head_new (mf_target_authority_epoch (fq_freeze f)) (sq_revision c) operation_id marker (sq_metadata c)).

(** [SourceQuorumCertificate::next_head]. *)
Definition successor_head {V} (c : SourceQuorumCertificate) (f : FrozenSourceQuorum) (current : ControlHeadSnapshot V)
    (operation_id : string) : result AuthorityError ControlHead :=
  _ ← validate_frozen f;
  if negb (bool_decide (fq_certificate f = c)) then
    Err (AuthorityInvalid "freeze certificate does not match the source metadata")
  else
    let head := sn_head current in
    if negb (bool_decide (ch_metadata_digest head = metadata_digest (sq_metadata c)))
       || negb (bool_decide (ch_metadata head = sq_metadata c))
       || negb (sq_authority_epoch c =? ch_authority_epoch head) || negb (sq_revision c =? ch_revision head)
    then Err SourceDoesNotMatchHead
    else
      marker ← source_marker c;
      epoch ← ok_or (checked_add (ch_authority_epoch head) 1) (AuthorityInvalid "authority epoch exhausted");
      revision ← ok_or (checked_add (ch_revision head) 1) (AuthorityInvalid "head revision exhausted");
      map_err AuthorityHead (control_head_new epoch revision operation_id marker (sq_metadata c)).

(** ** Certificates *)

(** The digest of an adopted head must be that of the metadata; the revision a snapshot stands for. *)
Definition snapshot_revision (s : MembershipSnapshot) (digest : string) : result AuthorityError N :=
  revision ← (if 0 <? ms_control_head_revision s then
                if bool_decide (ms_control_head_digest s = "") || negb (bool_decide (ms_control_head_digest s = digest))
                then Err (AuthorityInvalid "source control-head revision has no matching metadata digest")
                else Ok (ms_control_head_revision s)
              else Ok (N.max (ms_manifest_revision s) 1));
  if negb (bool_decide (ms_control_head_digest s = "")) && negb (bool_decide (ms_control_head_digest s = digest))
  then Err (AuthorityInvalid "source control-head digest does not match complete metadata")
  else Ok revision.

(** The complete metadata of a snapshot. *)
Definition snapshot_metadata (s : MembershipSnapshot) : result AuthorityError ControlMetadata :=
  let members : gmap string DurableMember := list_to_map ((λ m, (dm_id m, m)) <$> ms_members s) in
  if negb (N.of_nat (size members) =? len (ms_members s)) then
    Err (AuthorityInvalid "source membership contains duplicate member identities")
  else
    let cohorts : gmap N DurableCohort := list_to_map ((λ c, (dc_id c, c)) <$> ms_cohorts s) in
    if negb (N.of_nat (size cohorts) =? len (ms_cohorts s)) then
      Err (AuthorityInvalid "source membership contains duplicate cohort identities")
    else
      m ← ok_or (ms_manifest s) (AuthorityInvalid "source snapshot has no complete routing manifest");
      if negb (rm_revision m =? ms_manifest_revision s)
         || ((0 <? rm_revision m) && negb (bool_decide (rm_digest m = ms_manifest_digest s)))
         || negb (rm_write_cohort_id m =? ms_write_cohort_id s)
         || negb (bool_decide (rm_stream_segments m = ms_stream_segments s))
      then Err (AuthorityInvalid "source snapshot manifest fields disagree")
      else
        _ ← map_err (λ e, AuthorityInvalid (replica_error_text e)) (validate_manifest m);
        Ok (mkMetadata (ms_membership_epoch s) members cohorts m ∅).

(** [candidate_from_snapshot]. *)
Definition candidate_from_snapshot (authority : string) (response : SourceReplicaSnapshot)
    : result AuthorityError SourceQuorumCertificate :=
  let s := sr_snapshot response in
  meta ← snapshot_metadata s;
  let digest := metadata_digest meta in
  let authority_epoch := if ms_control_authority_epoch s =? 0 then 1 else ms_control_authority_epoch s in
  revision ← snapshot_revision s digest;
  cohort ← ok_or (cm_cohorts meta !! ms_control_authority_cohort_id s)
             (AuthorityInvalid "source control authority cohort is missing");
  if negb (len (dc_members cohort) =? REPLICATION_FACTOR)
     || existsb (λ id, bool_decide (cm_members meta !! id = None)) (dc_members cohort)
  then Err (AuthorityInvalid "source control cohort is incomplete")
  else if negb (bool_decide (sr_member_id response ∈ dc_members cohort)) then
    Err (AuthorityInvalid "source response did not come from its control cohort")
  else
    source ← map_err AuthorityHead (control_source_marker_new authority authority_epoch revision digest);
    _ ← map_err AuthorityHead
          (control_head_new authority_epoch revision "source-certificate-validation" source meta);
    Ok (mkCertificate authority authority_epoch revision meta (ms_control_authority_cohort_id s) (dc_members cohort) ∅).

Definition same_source (left right : SourceQuorumCertificate) : bool :=
  bool_decide (sq_authority left = sq_authority right) && (sq_authority_epoch left =? sq_authority_epoch right)
  && (sq_revision left =? sq_revision right) && (sq_control_cohort_id left =? sq_control_cohort_id right)
  && bool_decide (sq_control_member_ids left = sq_control_member_ids right)
  && bool_decide (sq_metadata left = sq_metadata right).

Definition with_agreeing (c : SourceQuorumCertificate) (ids : gset string) : SourceQuorumCertificate :=
  mkCertificate (sq_authority c) (sq_authority_epoch c) (sq_revision c) (sq_metadata c) (sq_control_cohort_id c)
    (sq_control_member_ids c) ids.

(** A response joins the candidate with the same source, or starts one. *)
Fixpoint join_source (candidate : SourceQuorumCertificate) (member_id : string)
    (candidates : list (SourceQuorumCertificate * gset string))
    : result AuthorityError (list (SourceQuorumCertificate * gset string)) :=
  match candidates with
  | [] => Ok [(candidate, {[member_id]})]
  | (existing, members) :: rest =>
    if same_source existing candidate then
      if bool_decide (member_id ∈ members) then
        Err (AuthorityInvalid "source quorum response contains a duplicate member")
      else Ok ((with_agreeing existing ({[member_id]} ∪ members), {[member_id]} ∪ members) :: rest)
    else rest ← join_source candidate member_id rest; Ok ((existing, members) :: rest)
  end.

Definition collect_candidate (authority : string) (candidates : list (SourceQuorumCertificate * gset string))
    (response : SourceReplicaSnapshot) : result AuthorityError (list (SourceQuorumCertificate * gset string)) :=
  candidate ← candidate_from_snapshot authority response;
  join_source candidate (sr_member_id response) candidates.

(** [certify_source_quorum]. *)
Definition certify_source_quorum (authority : string) (responses : list SourceReplicaSnapshot) (required_quorum : N)
    : result AuthorityError SourceQuorumCertificate :=
  if blank authority then Err (AuthorityInvalid "source authority must not be empty")
  else
    _ ← validate_quorum_size required_quorum (len responses);
    candidates ← try_fold (collect_candidate authority) [] responses;
    match filter (λ c : SourceQuorumCertificate * gset string, required_quorum ≤ N.of_nat (size c.2)) candidates with
    | [(certificate, members)] =>
      let certificate := with_agreeing certificate members in
      _ ← validate_certificate certificate required_quorum;
      Ok certificate
    | winners =>
      Err (InsufficientQuorum required_quorum (foldr (λ c acc, N.max (N.of_nat (size c.2)) acc) 0 winners))
    end.

(** One acknowledgement of the freeze. *)
Definition count_ack (c : SourceQuorumCertificate) (freeze : MetadataFreeze) (members : gset string)
    (ack : MetadataFreezeAck) : result AuthorityError (gset string) :=
  if negb (bool_decide (fa_operation_id ack = mf_operation_id freeze)) || negb (bool_decide (fa_source ack = mf_source freeze))
     || negb (fa_target_authority_epoch ack =? mf_target_authority_epoch freeze)
     || negb (bool_decide (fa_metadata_digest ack = metadata_digest (sq_metadata c)))
     || negb (fa_control_cohort_id ack =? mf_control_cohort_id freeze)
     || negb (bool_decide (fa_member_id ack ∈ sq_control_member_ids c)) || bool_decide (fa_member_id ack ∈ members)
  then Err FreezeMismatch else Ok ({[fa_member_id ack]} ∪ members).

(** [certify_frozen_source]. *)
Definition certify_frozen_source (c : SourceQuorumCertificate) (freeze : MetadataFreeze) (acks : list MetadataFreezeAck)
    (required_quorum : N) : result AuthorityError FrozenSourceQuorum :=
  _ ← validate_certificate c required_quorum;
  _ ← check_freeze c freeze;
  _ ← validate_operation_id (mf_operation_id freeze);
  members ← try_fold (count_ack c freeze) ∅ acks;
  if N.of_nat (size members) <? required_quorum then Err (InsufficientQuorum required_quorum (N.of_nat (size members)))
  else
    let frozen := mkFrozen c freeze members required_quorum in
    _ ← validate_frozen frozen; Ok frozen.

End Authority.

(** ** The migration *)

(** What [migrate_control_authority] asks: whether there is a head store, the head, its creation,
    the coordinator's own control document, an adoption by it, the documents of the volumes of the
    control cohort, their freeze, and a spawned adoption. *)
Inductive MigrationReq (V : Type) : Type → Type :=
| HeadStore : MigrationReq V (result ReplicaError unit)
| LoadHead : MigrationReq V (result ControlHeadError (option (ControlHeadSnapshot V)))
| CreateHead (head : ControlHead) : MigrationReq V (result ControlHeadError (ControlHeadSnapshot V))
| LocalControl : MigrationReq V (option (result ReplicaError DurableControlState))
| AdoptLocal (head : ControlHead) : MigrationReq V (result ReplicaError unit)
| ControlStates (nodes : list ReplicaNode)
    : MigrationReq V (list (ReplicaNode * result ReplicaError (option DurableControlState)))
| FreezeNodes (nodes : list ReplicaNode) (freeze : MetadataFreeze)
    : MigrationReq V (list (result ReplicaError MetadataFreezeAck))
| SpawnAdopt (node : ReplicaNode) (head : ControlHead) : MigrationReq V unit.

Arguments HeadStore {V}.
Arguments LoadHead {V}.
Arguments CreateHead {V} head.
Arguments LocalControl {V}.
Arguments AdoptLocal {V} head.
Arguments ControlStates {V} nodes.
Arguments FreezeNodes {V} nodes freeze.
Arguments SpawnAdopt {V} node head.

Section Migration.
Context `{ManifestHost, MetadataJson, HeadCodec, StoreErrorText} {V : Type}.

Abbreviation Migration := (Prog (MigrationReq V) ReplicaError).

(** [head_store.load().await.map_err(..)?]. *)
Definition load_migrated : Migration (option (ControlHeadSnapshot V)) :=
  r ← ask LoadHead; PReturn (map_err (λ e, NodeStorage (control_head_error_text e)) r).

(** [self.control().map(|control| control.state()).transpose()?]. *)
Definition local_state : Migration (option DurableControlState) :=
  r ← ask LocalControl;
  PReturn match r with None => Ok None | Some (Ok st) => Ok (Some st) | Some (Err e) => Err e end.

Definition has_migrated (st : option DurableControlState) : bool :=
  match st with Some st => negb (ct_control_head_revision st =? 0) | None => false end.

(** [control_cohort_nodes] on the coordinator's own document. *)
Definition peers : Migration (list ReplicaNode) :=
  st ← local_state;
  PReturn match st with
          | None => Err (Protocol "placement manifest requires direct mode")
          | Some st => control_cohort_nodes st
          end.

Definition source_response (answer : ReplicaNode * result ReplicaError (option DurableControlState))
    : option SourceReplicaSnapshot :=
  match answer with
  | (node, Ok (Some st)) =>
    match replica_snapshot_new (rn_id node) (membership_from_state st) with Ok response => Some response | Err _ => None end
  | _ => None
  end.

Definition source_responses (answers : list (ReplicaNode * result ReplicaError (option DurableControlState)))
    : list SourceReplicaSnapshot := omap source_response answers.

Definition given_acks (answers : list (result ReplicaError MetadataFreezeAck)) : list MetadataFreezeAck :=
  omap (λ r, match r with Ok ack => Some ack | Err _ => None end) answers.

(** [consider_freeze]: the durable freeze of this source, if there is one. *)
Definition consider_freeze (c : SourceQuorumCertificate) (expected : ControlSourceMarker)
    (durable candidate : option MetadataFreeze) : result ReplicaError (option MetadataFreeze) :=
  match candidate with
  | None => Ok durable
  | Some freeze =>
    if negb (bool_decide (mf_source freeze = expected)) || negb (mf_control_cohort_id freeze =? sq_control_cohort_id c)
    then Ok durable
    else
      target ← ok_or (checked_add (sq_authority_epoch c) 1) (Protocol "authority epoch exhausted");
      if negb (mf_target_authority_epoch freeze =? target) then Ok durable
      else match durable with
      | Some existing =>
        if bool_decide (existing = freeze) then Ok durable
        else Err (Protocol "source quorum contains conflicting durable metadata freezes")
      | None => Ok (Some freeze)
      end
  end.

Definition protocol {A} (r : result AuthorityError A) : result ReplicaError A :=
  map_err (λ e, Protocol (authority_error_text e)) r.

(** The freeze to resume, or a new one. *)
Definition choose_freeze (c : SourceQuorumCertificate) (local : option MetadataFreeze)
    (responses : list SourceReplicaSnapshot) (operation_id : string) (quorum : N) : result ReplicaError MetadataFreeze :=
  expected ← protocol (source_marker c);
  durable ← try_fold (consider_freeze c expected) None
              (local :: ((λ r, ms_metadata_freeze (sr_snapshot r)) <$> responses));
  match durable with
  | Some freeze => Ok freeze
  | None => protocol (freeze_request c operation_id quorum)
  end.

(** Create the head, or take the one that won the race. *)
Definition publish_initial (frozen : FrozenSourceQuorum) : Migration (ControlHeadSnapshot V) :=
  head ← PReturn (protocol (initial_head (fq_certificate frozen) frozen (mf_operation_id (fq_freeze frozen))));
  r ← ask (CreateHead head);
  match r with
  | Ok snapshot => PReturn (Ok snapshot)
  | Err HeadAlreadyExists =>
    latest ← load_migrated;
    PReturn (ok_or latest (Protocol "control-head Create lost a race but no head is readable"))
  | Err e => PReturn (Err (Protocol (authority_error_text (AuthorityHead e))))
  end.

(** Certify, freeze, and publish. *)
Definition migrate_source (quorum : N) (operation_id : string) (nodes : list ReplicaNode) : Migration (ControlHeadSnapshot V) :=
  answers ← ask (ControlStates nodes);
  let responses := source_responses answers in
  _ ← PReturn (if existsb (λ r, negb (ms_control_head_revision (sr_snapshot r) =? 0)) responses
               then Err (NodeStorage "source cohort reports a migrated control head that is missing from object storage")
               else Ok tt);
  certificate ← PReturn (protocol (certify_source_quorum LEGACY_CONTROL_AUTHORITY responses quorum));
  _ ← PReturn (protocol (source_marker certificate));
  local ← ask LocalControl;
  local ← PReturn match local with
                  | None => Ok None
                  | Some (Ok st) => Ok (ct_metadata_freeze st)
                  | Some (Err e) => Err (NodeStorage (replica_error_text e))
                  end;
  freeze ← PReturn (choose_freeze certificate local responses operation_id quorum);
  acks ← ask (FreezeNodes nodes freeze);
  frozen ← PReturn (protocol (certify_frozen_source certificate freeze
                                (given_acks acks) quorum));
  current ← load_migrated;
  match current with
  | Some existing => PReturn (Ok existing)
  | None => publish_initial frozen
  end.

Fixpoint spawn_adoptions (head : ControlHead) (nodes : list ReplicaNode) : Migration unit :=
  match nodes with
  | [] => PReturn (Ok tt)
  | node :: nodes => _ ← ask (SpawnAdopt node head); spawn_adoptions head nodes
  end.

(** [migrate_control_authority]. *)
Definition migrate_control_authority (quorum : N) (operation_id : string) : Migration (ControlHeadSnapshot V) :=
  _ ← try_ask HeadStore;
  existing ← load_migrated;
  match existing with
  | Some existing =>
    _ ← try_ask (AdoptLocal (sn_head existing));
    PReturn (Ok existing)
  | None =>
    st ← local_state;
    _ ← PReturn (if has_migrated st then Err (NodeStorage "authoritative control head is missing after migration") else Ok tt);
    nodes ← peers;
    snapshot ← migrate_source quorum operation_id nodes;
    _ ← try_ask (AdoptLocal (sn_head snapshot));
    _ ← spawn_adoptions (sn_head snapshot) nodes;
    PReturn (Ok snapshot)
  end.

(** [load_authoritative_head]. *)
Definition load_authoritative_head : Migration (option (ControlHeadSnapshot V)) :=
  _ ← try_ask HeadStore;
  loaded ← load_migrated;
  match loaded with
  | Some snapshot => PReturn (Ok (Some snapshot))
  | None =>
    st ← local_state;
    PReturn (if has_migrated st then Err (NodeStorage "authoritative control head is missing after migration") else Ok None)
  end.

End Migration.
