(* ===== verification/AuthoritySafety.v ===== *)
(** * AuthoritySafety: a migration loses no metadata

    The volumes of the old control cohort run on, are frozen, and restart; a coordinator certifies,
    freezes and creates the first control head.  Whatever manifest revision and membership epoch a
    set of volumes that meets every quorum holds, at any time, the head that is created has at
    least these. *)

From S2P Require Import Prelude Text Programs Traces Wire Client Placement Manifest Cohorts ControlDoc Control ControlSafety ObjectStore ControlHead Coordinator Authority.

#[local] Open Scope N_scope.

(** ** The volumes of the old cohort *)

Section Volumes.
Context `{ManifestHost} `{ControlJson} `{MetadataJson}.
Context (sha256_hex_nonempty : ∀ bs, sha256_hex bs ≠ "").

(** What the endpoints of a volume do to its store before a head exists, and a restart. *)
Inductive member_step (id : string) (c : DurableControl) : DurableControl → Prop :=
| member_cas io revision digest segments op repair cutover r c' :
    cas_manifest_with_cutover io c revision digest segments op repair cutover = (r, c') → member_step id c c'
| member_membership io q r c' :
    cas_membership_document_with_options io c q = (r, c') → member_step id c c'
| member_freeze io request r c' :
    freeze_metadata_authority io c id request = (r, c') → member_step id c c'
| member_placement io r c' :
    mark_placement_initialized io c = (r, c') → member_step id c c'
| member_read r c' :
    control_manifest c = (r, c') → member_step id c c'
| member_restart io c' :
    control_open io (Some (dcl_disk c)) [] = Ok c' → member_step id c c'.

Lemma member_control id c c' : member_step id c c' → control_step c c'.
Proof.
  intros [io rev dg segs op repair cut r ? Hs|io q r ? Hs|io rq r ? Hs|io r ? Hs|r ? Hs|io ? Hs].
  - destruct repair; [right|left]; by econstructor.
  - left. by econstructor.
  - left. by econstructor.
  - left. by econstructor.
  - left. by econstructor.
  - left. by econstructor.
Qed.

(** The states of a volume, in order, since it was opened. *)
Definition member_run (id : string) (states : list DurableControl) : Prop :=
  (∃ io file members c, states !! 0%nat = Some c ∧ control_open io file members = Ok c)
  ∧ ∀ i c c', states !! i = Some c → states !! S i = Some c' → member_step id c c'.

(** ** Documents only grow *)

Record doc_le (st st' : DurableControlState) : Prop := {
  dl_revision : ct_manifest_revision st ≤ ct_manifest_revision st';
  dl_epoch : ct_membership_epoch st ≤ ct_membership_epoch st';
}.

#[local] Instance doc_le_preorder : PreOrder doc_le.
Proof. split; [done|]. intros a b c [] []. split; lia. Qed.

(** A document without a revision has no routes. *)
Definition numbered (st : DurableControlState) : Prop := ct_manifest_revision st = 0 → ct_stream_segments st = ∅.

Lemma seal_migrate_numbered st st' :
  seal_manifest (migrate_manifest st) = Ok st' →
  numbered st' ∧ ct_membership_epoch st' = ct_membership_epoch st ∧ (numbered st → ct_manifest_revision st' = ct_manifest_revision st).
Proof.
  unfold seal_manifest, migrate_manifest, numbered. intros Hs.
  destruct (N.eqb_spec (ct_manifest_revision st) 0) as [Hz|Hnz]; [case_bool_decide as Hseg|]; cbn [andb negb] in Hs.
  - rewrite Hz in Hs. cbn [negb N.eqb] in Hs. by injection Hs as <-.
  - cbn [negb N.eqb ct_manifest_revision set_binding set_revision] in Hs.
    destruct (_ && _); [done|]. injection Hs as <-. cbn. split_and!; [done|done|]. intros Hn. by destruct Hseg; apply Hn.
  - rewrite (proj2 (N.eqb_neq _ _) Hnz) in Hs. cbn [negb] in Hs. destruct (_ && _); [done|]. by injection Hs as <-.
Qed.

Lemma group_legacy_fields st :
  ct_manifest_revision (group_legacy_members st) = ct_manifest_revision st
  ∧ ct_membership_epoch (group_legacy_members st) = ct_membership_epoch st
  ∧ ct_stream_segments (group_legacy_members st) = ct_stream_segments st.
Proof. unfold group_legacy_members. by case_match. Qed.

Lemma reconcile_numbered before st changed :
  reconcile_cohorts before = Ok (st, changed) →
  numbered st ∧ ct_membership_epoch st = ct_membership_epoch before ∧ (numbered before → ct_manifest_revision st = ct_manifest_revision before).
Proof.
  unfold reconcile_cohorts. intros Hr. next Hr. next Hr. next Hr. injection Hr as <- _.
  destruct (group_legacy_fields before) as (Hrev & Hep & Hseg).
  destruct (seal_migrate_numbered _ _ Hx1) as (Hn & He & Hk).
  cbn [ct_membership_epoch ct_manifest_revision set_segments fill_policies set_members set_cohorts] in *.
  rewrite Hep in He. split_and!; [done|done|]. intros Hb. rewrite Hk; [exact Hrev|].
  intros Hz. cbn [ct_stream_segments ct_manifest_revision set_segments fill_policies set_members set_cohorts] in *.
  rewrite Hrev in Hz. unfold fill_segments in Hx0. cbn [ct_stream_segments fill_policies set_members set_cohorts] in Hx0.
  rewrite Hseg, (Hb Hz) in Hx0. vm_compute in Hx0. by injection Hx0 as <-.
Qed.

(** What a plan may install: a document no older, and no newer once frozen. *)
Definition plan_grows {A} (st : DurableControlState) (plan : result ReplicaError (Plan A)) : Prop :=
  ∀ next a, plan = Ok (Install next a) →
    doc_le st next ∧ numbered next ∧ (ct_metadata_freeze st ≠ None → doc_le next st).

Lemma digest_numbered st : validate_control_state st = Ok tt → ct_manifest_digest st ≠ "" → numbered st.
Proof. intros Hv Hd Hz. by destruct Hd; apply (valid_digest sha256_hex_nonempty). Qed.

Lemma published_fields_of st revision segments op :
  rm_revision (published_manifest st revision segments op) = revision
  ∧ rm_digest (published_manifest st revision segments op) = manifest_digest segments.
Proof.
  unfold published_manifest. destruct (manifest_metadata_for_state st segments) as [[? ?] ?].
  by destruct (manifest_policy_for_state st segments _).
Qed.

Lemma cas_grows st revision digest segments op repair cutover :
  plan_grows st (plan_cas_manifest st revision digest segments op repair cutover).
Proof.
  intros next m (_ & _ & Hfree & _ & -> & Hv & Hm)%plan_cas_manifest_Install.
  assert (∃ r, m = published_manifest st r segments op ∧ ct_manifest_revision st ≤ r) as (r & -> & Hr).
  { destruct repair; destruct_and! Hm; subst; eexists; (split; [done|lia]). }
  destruct (published_fields_of st r segments op) as [Hrev Hdig]. split_and!; [| |congruence].
  - split; [|done]. cbn. by rewrite Hrev.
  - apply digest_numbered; [done|]. cbn. rewrite Hdig. apply sha256_hex_nonempty.
Qed.

Lemma membership_epoch_grows st q next snapshot :
  plan_cas_membership st q = Ok (Install next snapshot) → ct_membership_epoch st ≤ ct_membership_epoch next.
Proof.
  assert (∀ members epoch requested, requested_document st q members epoch = Ok requested → ct_membership_epoch requested = epoch) as Hreq.
  { intros members epoch requested. unfold requested_document. destruct (mq_cohorts q), (mq_write_cohort_id q) as [id|];
      try destruct (id =? 0); by intros [= <-]. }
  assert (∀ reconciled revision segments, ct_membership_epoch (publish_routes st reconciled q revision segments) = ct_membership_epoch reconciled) as Hpub.
  { intros. unfold publish_routes. destruct (_ <? _); [done|]. by destruct (mq_write_cohort_id q). }
  assert (∀ (b : bool) r d segments requested, ct_membership_epoch (if b then set_revision r d (set_segments segments requested)
    else set_segments segments requested) = ct_membership_epoch requested) as Hif by (by intros []).
  unfold plan_cas_membership. intros Hp. walk Hp; bool_facts.
  all: repeat match goal with
    | Hx : requested_document _ _ _ _ = Ok _ |- _ => apply Hreq in Hx
    | Hx : reconcile_cohorts _ = Ok _ |- _ => apply reconcile_numbered in Hx as (_ & Hx & _); rewrite Hif in Hx
    | Hx : ok_or (checked_add _ _) _ = Ok _ |- _ => apply ok_or_Ok, checked_add_Some in Hx as [-> _]
    end.
  all: cbn [prune_operation_records set_operations set_manifest_operations ct_membership_epoch]; rewrite Hpub; lia.
Qed.

Lemma membership_grows st q : validate_control_state st = Ok tt → plan_grows st (plan_cas_membership st q).
Proof.
  intros Hv next snapshot Hp. pose proof (plan_cas_membership_revs sha256_hex_nonempty _ _ _ _ Hv Hp) as Hrev.
  pose proof (membership_epoch_grows _ _ _ _ Hp) as Hep.
  apply plan_cas_membership_Install in Hp as (Hfree & _ & requested & revision & segments & reconciled & changed & published & Hi & Hr & -> & Hvp & -> & _).
  split_and!; [| |congruence].
  - split; [|done]. unfold revs_le in Hrev. lia.
  - apply reconcile_numbered in Hr as [Hn _]. unfold publish_routes in *.
    destruct (N.ltb_spec (ct_manifest_revision st) revision).
    + intros Hz. cbn in Hz. rewrite (proj1 (published_fields_of _ _ _ _)) in Hz. lia.
    + by destruct (mq_write_cohort_id q).
Qed.

Lemma freeze_grows st id request : numbered st → plan_grows st (plan_freeze st id request).
Proof.
  intros Hn next a Hp. apply plan_freeze_Install in Hp as Hi. destruct Hi as (_ & Hfree & _).
  unfold plan_freeze in Hp. walk Hp. split_and!; [done|done|congruence].
Qed.

Lemma placement_grows st : numbered st → plan_grows st (plan_mark_placement_initialized st).
Proof. intros Hn next a Hp. unfold plan_mark_placement_initialized in Hp. walk Hp. by split_and!. Qed.

(** ** The invariant of a volume *)

Record member_inv (c : DurableControl) : Prop := {
  mi_control : control_inv c;
  mi_durable : freeze_durable c;
  mi_state : numbered (dcl_state c);
  mi_disk : numbered (dcl_disk c);
  mi_ahead : doc_le (dcl_state c) (dcl_disk c);
  mi_frozen : ct_metadata_freeze (dcl_state c) ≠ None → doc_le (dcl_disk c) (dcl_state c);
}.

(** What a step does to the document in memory. *)
Definition grows (c c' : DurableControl) : Prop :=
  doc_le (dcl_state c) (dcl_state c')
  ∧ (ct_metadata_freeze (dcl_state c) ≠ None → ct_metadata_freeze (dcl_state c') ≠ None ∧ doc_le (dcl_state c') (dcl_state c)).

(** The documents, after a plan that only grows. *)
Lemma execute_grows {A} io clear c (plan : result ReplicaError (Plan A)) r c' :
  member_inv c → plan_grows (dcl_state c) plan → execute io clear c plan = (r, c') →
  numbered (dcl_state c') ∧ numbered (dcl_disk c') ∧ doc_le (dcl_state c') (dcl_disk c')
  ∧ (ct_metadata_freeze (dcl_state c') ≠ None → doc_le (dcl_disk c') (dcl_state c'))
  ∧ doc_le (dcl_state c) (dcl_state c') ∧ (ct_metadata_freeze (dcl_state c) ≠ None → doc_le (dcl_state c') (dcl_state c)).
Proof.
  intros [_ _ Hs Hd Ha Hf] Hp. unfold execute, persist_control_state.
  destruct plan as [[a|next a]|e]; [by intros [= <- <-]| |by intros [= <- <-]].
  destruct (Hp next a eq_refl) as (Hle & Hn & Hfz). destruct io as [|reason [|]]; intros [= <- <-]; by cbn.
Qed.

Lemma member_step_inv id c c' : member_inv c → member_step id c c' → member_inv c' ∧ grows c c'.
Proof.
  intros Hinv Hs. pose proof Hinv as [Hc Hfd Hns Hnd Ha Hf]. apply member_control in Hs as Hcs.
  destruct (control_step_freeze _ _ Hc Hfd Hcs) as [Hfd' Hkeep].
  assert (control_inv c') as Hc' by (destruct Hcs; [by eapply volume_step_inv|by eapply quorum_step_inv]).
  assert (ct_metadata_freeze (dcl_state c) ≠ None → ct_metadata_freeze (dcl_state c') ≠ None) as Hstay.
  { destruct (ct_metadata_freeze (dcl_state c)) as [rq|] eqn:Hrq; [|done]. intros _.
    destruct (Hkeep rq (Hfd rq Hrq)) as [-> _]. done. }
  assert (∀ A io clear (plan : result ReplicaError (Plan A)) r,
    plan_grows (dcl_state c) plan → execute io clear c plan = (r, c') → member_inv c' ∧ grows c c') as Hexec.
  { intros A io clear plan r Hp He. destruct (execute_grows _ _ _ _ _ _ Hinv Hp He) as (?&?&?&?&?&?).
    split; [by split|]. split; [done|]. intros. split; auto. }
  destruct Hs as [io rev dg segs op repair cut r c' Hs|io q r c' Hs|io rq r c' Hs|io r c' Hs|r c' Hs|io c' Hs].
  - eapply Hexec; [apply cas_grows|exact Hs].
  - eapply Hexec; [apply membership_grows, Hc|exact Hs].
  - eapply Hexec; [by apply freeze_grows|exact Hs].
  - eapply Hexec; [by apply placement_grows|exact Hs].
  - apply control_manifest_inv in Hs as (_ & Hst & Hdk & _); [|done].
    split; [split; rewrite ?Hst, ?Hdk; done|]. unfold grows. rewrite Hst. by split.
  - apply control_open_Ok in Hs as (_ & _ & Hdisk & st & changed & [= <-] & Hr).
    destruct (reconcile_numbered _ _ _ Hr) as (Hn & Hep & Hrev). specialize (Hrev Hnd).
    assert (doc_le (dcl_disk c) (dcl_state c') ∧ doc_le (dcl_state c') (dcl_disk c)) as [Hto Hfrom] by (split; split; lia).
    split; [split; rewrite ?Hdisk; done|]. split; [by etrans|]. intros Hfz. split; [by apply Hstay|]. etrans; [exact Hfrom|by apply Hf].
Qed.

Lemma open_inv io file members c : control_open io file members = Ok c → member_inv c.
Proof.
  intros (Hv & Hca & Hdisk & st & changed & _ & Hr)%control_open_Ok. destruct (reconcile_numbered _ _ _ Hr) as [Hn _].
  split; rewrite ?Hdisk; try done.
  - split; [done|by rewrite Hdisk|by intros m; rewrite Hca].
  - intros rq Hrq. unfold frozen_by. by rewrite Hdisk.
Qed.

Lemma run_inv id states i c : member_run id states → states !! i = Some c → member_inv c.
Proof.
  intros [(io & file & members & c0 & H0' & Ho) Hstep]. revert c. induction i as [|i IH]; intros c Hi.
  - rewrite H0' in Hi. injection Hi as <-. by eapply open_inv.
  - destruct (states !! i) as [c1|] eqn:Hc1.
    + eapply member_step_inv; [by apply IH|by eapply Hstep].
    + apply lookup_ge_None in Hc1. apply lookup_lt_Some in Hi. lia.
Qed.

Lemma run_grows id states i j c c' :
  member_run id states → states !! i = Some c → states !! j = Some c' → (i ≤ j)%nat → grows c c'.
Proof.
  intros Hrun Hi Hj Hle. revert c' Hj. induction Hle as [|j Hle IH]; intros c' Hj.
  - rewrite Hi in Hj. injection Hj as <-. by split.
  - destruct (states !! j) as [c1|] eqn:Hc1; [|apply lookup_ge_None in Hc1; apply lookup_lt_Some in Hj; lia].
    destruct (IH c1 eq_refl) as [Hd Hf]. pose proof (run_inv _ _ _ _ Hrun Hc1) as Hinv.
    destruct (member_step_inv _ _ _ Hinv (proj2 Hrun _ _ _ Hc1 Hj)) as [_ [Hd' Hf']].
    split; [by etrans|]. intros Hfz. destruct (Hf Hfz) as [Hfz1 Hle1]. destruct (Hf' Hfz1). split; [done|by etrans].
Qed.

(** A volume that acknowledged a freeze holds nothing newer than what it froze, ever. *)
Lemma frozen_is_last id states i j c c1 c2 io request ack :
  member_run id states → states !! i = Some c → states !! S i = Some c1 → states !! j = Some c2 →
  freeze_metadata_authority io c id request = (Ok ack, c1) → doc_le (dcl_state c2) (dcl_state c).
Proof.
  intros Hrun Hi Hi1 Hj Hf.
  assert (ct_metadata_freeze (dcl_state c1) ≠ None ∧ doc_le (dcl_state c1) (dcl_state c)) as [Hfz Hback].
  { unfold freeze_metadata_authority, execute in Hf. destruct (plan_freeze _ _ _) as [[a|next a]|e] eqn:Hp; [| |done].
    - injection Hf as _ <-. split; [|done]. unfold plan_freeze in Hp. walk Hp; congruence.
    - unfold persist_control_state in Hf. destruct io; [|done]. injection Hf as _ <-. cbn.
      unfold plan_freeze in Hp. by walk Hp. }
  destruct (Nat.le_gt_cases j i) as [Hle|Hgt].
  - by destruct (run_grows _ _ _ _ _ _ Hrun Hj Hi Hle).
  - etrans; [|exact Hback]. by destruct (run_grows _ _ _ _ _ _ Hrun Hi1 Hj Hgt) as [_ []].
Qed.

(** ** Certified freezes *)

(** An acknowledgement that the volume [id] gave. *)
Definition issued (states : string → list DurableControl) (request : MetadataFreeze) (ack : MetadataFreezeAck) : Prop :=
  ∃ i c c' io, states (fa_member_id ack) !! i = Some c ∧ states (fa_member_id ack) !! S i = Some c'
    ∧ freeze_metadata_authority io c (fa_member_id ack) request = (Ok ack, c').

(** A freeze is acknowledged only by a document whose metadata has the digest of the request. *)
Lemma freeze_digest io c id request ack c' :
  freeze_metadata_authority io c id request = (Ok ack, c') →
  cs_digest (mf_source request) = metadata_digest (control_metadata_from_state (dcl_state c)).
Proof.
  unfold freeze_metadata_authority, execute. destruct (plan_freeze _ _ _) as [plan|e] eqn:Hp; [|done]. intros _.
  unfold plan_freeze in Hp. destruct (blank id); [done|]. next Hp. clear Hp.
  unfold ensure_request_matches_state in Hx. destruct (blank _); [done|]. cbv zeta in Hx. next Hx.
  destruct (_ || _) eqn:Hor; [done|]. clear Hx. bool_facts.
  unfold source_marker_for_state, source_marker_new in Hx0. destruct (_ && _); [done|].
  destruct (_ || _); [done|]. destruct (_ || _); [done|]. destruct (_ || _); [done|]. injection Hx0 as <-. by match goal with Hm : mf_source request = _ |- _ => rewrite Hm end.
Qed.

Context `{HeadCodec}.

Lemma count_acks c freeze acks members members' :
  try_fold (count_ack c freeze) members acks = Ok members' →
  ∀ id, id ∈ members' → id ∈ members ∨ ∃ ack, ack ∈ acks ∧ fa_member_id ack = id ∧ id ∈ sq_control_member_ids c.
Proof.
  revert members. induction acks as [|ack acks IH]; intros members Hf id Hid; cbn in Hf; [injection Hf as <-; by left|].
  next Hf. unfold count_ack in Hx. destruct (_ || _) eqn:Hor; [done|]. injection Hx as <-. bool_facts.
  destruct (IH _ Hf id Hid) as [[->%elem_of_singleton|?]%elem_of_union|(a & Ha & ? & ?)]; [|by left|].
  - right. exists ack. split_and!; [by left|done|done].
  - right. exists a. split_and!; [by right|done|done].
Qed.

Lemma marker_digest c source :
  source_marker c = Ok source → cs_digest source = metadata_digest (sq_metadata c).
Proof.
  unfold source_marker, control_source_marker_new. intros Hs. apply map_err_Ok in Hs. cbv zeta in Hs. next Hs. by injection Hs as <-.
Qed.

Lemma check_freeze_digest c freeze u :
  check_freeze c freeze = Ok u → cs_digest (mf_source freeze) = metadata_digest (sq_metadata c).
Proof.
  unfold check_freeze. intros Hc. next Hc. destruct (_ || _) eqn:Hor; [done|]. bool_facts.
  match goal with Hm : mf_source freeze = _ |- _ => rewrite Hm end. by apply marker_digest.
Qed.

Lemma certificate_cohort c q u :
  validate_certificate c q = Ok u →
  ∃ cohort, cm_cohorts (sq_metadata c) !! sq_control_cohort_id c = Some cohort ∧ dc_members cohort = sq_control_member_ids c
    ∧ len (dc_members cohort) = REPLICATION_FACTOR.
Proof.
  unfold validate_certificate. cbv zeta. intros Hv. next Hv. destruct (blank _); [done|]. destruct (_ || _); [done|].
  next Hv. apply ok_or_Ok in Hx0. destruct (_ || _) eqn:Hor; [done|]. bool_facts. eauto.
Qed.

(** The states of the volumes tell metadata apart by its digest. *)
Definition digests_tell (states : string → list DurableControl) : Prop :=
  ∀ id i c m, states id !! i = Some c →
    metadata_digest (control_metadata_from_state (dcl_state c)) = metadata_digest m → control_metadata_from_state (dcl_state c) = m.

(** [meta] has at least the revision and the epoch that the volumes [holders] hold, at any time. *)
Definition doc_covers (states : string → list DurableControl) (meta : ControlMetadata) (holders : gset string) : Prop :=
  ∀ revision epoch,
    (∀ id, id ∈ holders → ∃ j c, states id !! j = Some c
       ∧ revision ≤ ct_manifest_revision (dcl_state c) ∧ epoch ≤ ct_membership_epoch (dcl_state c)) →
    revision ≤ rm_revision (cm_manifest meta) ∧ epoch ≤ cm_membership_epoch meta.

(** [meta] covers whatever a set of volumes of its control cohort holds that meets every quorum. *)
Definition covers_quorums (states : string → list DurableControl) (quorum : N) (meta : ControlMetadata) : Prop :=
  ∃ cohort_id cohort, cm_cohorts meta !! cohort_id = Some cohort ∧ len (dc_members cohort) = REPLICATION_FACTOR
    ∧ ∀ holders : gset string, holders ⊆ list_to_set (dc_members cohort) →
        REPLICATION_FACTOR < N.of_nat (size holders) + quorum → doc_covers states meta holders.

Lemma freeze_quorums_meet (l : list string) (a b : gset string) :
  a ⊆ list_to_set l → b ⊆ list_to_set l → (length l < size a + size b)%nat → ∃ id, id ∈ a ∧ id ∈ b.
Proof.
  intros Ha Hb Hlt. destruct (decide (a ∩ b = ∅)) as [He|[id Hid]%set_choose_L]; [|exists id; set_solver]. exfalso.
  assert (size (a ∪ b) = size a + size b)%nat as Hu by (apply size_union; set_solver).
  assert (size (a ∪ b) ≤ size (list_to_set l : gset string))%nat by (apply subseteq_size; set_solver).
  assert (size (list_to_set l : gset string) ≤ length l)%nat.
  { clear. induction l as [|x l IH]; [done|]. cbn. rewrite size_union_alt, size_singleton.
    assert (size (list_to_set l ∖ {[x]} : gset string) ≤ size (list_to_set l : gset string))%nat by (apply subseteq_size; set_solver). lia. }
  lia.
Qed.

Lemma frozen_covers states c freeze acks quorum frozen :
  (∀ id, member_run id (states id)) → digests_tell states →
  certify_frozen_source c freeze acks quorum = Ok frozen → (∀ ack, ack ∈ acks → issued states freeze ack) →
  covers_quorums states quorum (sq_metadata c).
Proof.
  intros Hrun Htell Hcert Hissued. unfold certify_frozen_source in Hcert. next Hcert. next Hcert. next Hcert. next Hcert.
  destruct (N.ltb_spec (N.of_nat (size x2)) quorum) as [|Hq]; [done|].
  destruct (certificate_cohort _ _ _ Hx) as (cohort & Hco & Hids & Hlen). exists (sq_control_cohort_id c), cohort. split_and!; [done..|].
  intros holders Hsub Hmeet revision epoch Hhold.
  assert (∀ id, id ∈ x2 → ∃ ack, ack ∈ acks ∧ fa_member_id ack = id ∧ id ∈ sq_control_member_ids c) as Hacked.
  { intros id Hid. by destruct (count_acks _ _ _ _ _ Hx2 id Hid) as [?%not_elem_of_empty|]. }
  destruct (freeze_quorums_meet (dc_members cohort) holders x2) as (id & Hid & (ack & Hack & <- & _)%Hacked); [done| | |].
  { intros id (ack & _ & _ & ?)%Hacked. rewrite Hids. by apply elem_of_list_to_set. }
  { unfold len in Hlen. lia. }
  destruct (Hissued _ Hack) as (i & ci & c1 & io & Hi & Hi1 & Hf). destruct (Hhold _ Hid) as (j & cj & Hj & Hrev & Hep).
  destruct (frozen_is_last _ _ _ _ _ _ _ _ _ _ (Hrun _) Hi Hi1 Hj Hf) as [Hle1 Hle2].
  assert (control_metadata_from_state (dcl_state ci) = sq_metadata c) as <-.
  { eapply Htell; [exact Hi|]. by rewrite <- (freeze_digest _ _ _ _ _ _ Hf), (check_freeze_digest _ _ _ Hx0). }
  cbn [control_metadata_from_state cm_manifest cm_membership_epoch].
  assert (rm_revision (manifest_from_state (dcl_state ci)) = ct_manifest_revision (dcl_state ci)) as ->.
  { unfold manifest_from_state. by repeat case_match. }
  split; lia.
Qed.

Lemma initial_head_metadata c frozen op head :
  initial_head c frozen op = Ok head → ch_metadata head = sq_metadata c.
Proof.
  unfold initial_head. intros Hi. next Hi. destruct (negb _); [done|]. next Hi. apply map_err_Ok in Hi.
  unfold control_head_new in Hi. cbv zeta in Hi. next Hi. by injection Hi as <-.
Qed.

Lemma frozen_certificate c freeze acks quorum frozen :
  certify_frozen_source c freeze acks quorum = Ok frozen → fq_certificate frozen = c.
Proof.
  unfold certify_frozen_source. intros Hc. next Hc. next Hc. next Hc. next Hc. destruct (_ <? _); [done|]. cbv zeta in Hc.
  next Hc. by injection Hc as <-.
Qed.

(** ** The coordinator *)

Context `{StoreErrorText} {V : Type}.

(** Every acknowledgement in the trace was given by its volume. *)
Definition genuine (states : string → list DurableControl) (tr : list (Event (MigrationReq V))) : Prop :=
  ∀ nodes freeze answers ack, Asked (FreezeNodes nodes freeze) answers ∈ tr → Ok ack ∈ answers → issued states freeze ack.

(** A head is created only with metadata that covers every quorum. *)
Definition creates_covering (states : string → list DurableControl) (quorum : N) (tr : list (Event (MigrationReq V)))
    (X : Type) (q : MigrationReq V X) : Prop :=
  match q with
  | CreateHead head => genuine states tr → covers_quorums states quorum (ch_metadata head)
  | _ => True
  end.

Lemma publish_creates states quorum tr nodes certificate freeze answers frozen :
  (∀ id, member_run id (states id)) → digests_tell states →
  Asked (FreezeNodes nodes freeze) answers ∈ tr →
  certify_frozen_source certificate freeze (given_acks answers) quorum = Ok frozen →
  always (creates_covering states quorum) (λ _ _, True) tr (publish_initial frozen : Prog (MigrationReq V) ReplicaError _).
Proof.
  intros Hrun Htell Hin Hcert. unfold publish_initial. apply always_return. intros head Hhead. unfold protocol in Hhead.
  apply map_err_Ok in Hhead. rewrite (frozen_certificate _ _ _ _ _ Hcert) in Hhead. apply always_ask.
  - intros Hgen. rewrite (initial_head_metadata _ _ _ _ Hhead). eapply frozen_covers; [done..|].
    intros ack ([a|e] & Ha & [= ->])%list_elem_of_omap. by eapply Hgen.
  - intros [snapshot|e]; [by intros ? ?|]. destruct e; try by intros ? ?.
    unfold load_migrated. cbn. split; [done|]. intros r. by destruct (map_err _ r) as [[?|]|]; intros ? ?.
Qed.

Lemma source_creates states quorum op tr nodes :
  (∀ id, member_run id (states id)) → digests_tell states →
  always (creates_covering states quorum) (λ _ _, True) tr (migrate_source quorum op nodes : Prog (MigrationReq V) ReplicaError _).
Proof.
  intros Hrun Htell. unfold migrate_source. apply always_ask; [done|]. intros answers. cbv zeta.
  apply always_return. intros _ _. apply always_return. intros certificate Hcert. apply always_return. intros _ _.
  apply always_ask; [done|]. intros local. apply always_return. intros freeze0 _. apply always_return. intros freeze _.
  apply always_ask; [done|]. intros acks. apply always_return. intros frozen Hfrozen. unfold protocol in Hfrozen. apply map_err_Ok in Hfrozen.
  unfold load_migrated. cbn. split; [done|]. intros r. destruct (map_err _ r) as [[existing|]|e]; [by intros ? ?| |by intros ? ?].
  eapply (publish_creates _ _ _ nodes); [done..| |exact Hfrozen]. rewrite !elem_of_app. left. right. by apply list_elem_of_singleton.
Qed.

Lemma spawn_creates states quorum tr head nodes :
  always (creates_covering states quorum) (λ _ _, True) tr (spawn_adoptions head nodes : Prog (MigrationReq V) ReplicaError unit).
Proof. revert tr. induction nodes as [|node nodes IH]; intros tr; [by intros ? ?|]. cbn. split; [done|]. intros []. apply IH. Qed.

Lemma load_creates states quorum tr :
  always (creates_covering states quorum) (λ _ _, True) tr (load_migrated : Prog (MigrationReq V) ReplicaError _).
Proof. split; [done|]. by intros r ? ?. Qed.

Lemma local_creates states quorum tr :
  always (creates_covering states quorum) (λ _ _, True) tr (local_state : Prog (MigrationReq V) ReplicaError _).
Proof. split; [done|]. by intros local ? ?. Qed.

Lemma peers_creates states quorum tr :
  always (creates_covering states quorum) (λ _ _, True) tr (peers : Prog (MigrationReq V) ReplicaError _).
Proof. eapply always_bind; [apply local_creates|]. by intros ? ? ? ? ?. Qed.

(** C4: However it is answered, [migrate_control_authority] creates a head only with metadata that no
    quorum of the old control cohort is ahead of: if the acknowledgements it counted are genuine,
    then a set of volumes of that cohort that meets every freeze quorum holds, at no time before or
    after, through compare-and-swaps, repairs, failed writes and restarts, a manifest revision or a
    membership epoch beyond those of the created head. *)
Theorem migration_loses_no_commit (states : string → list DurableControl) quorum operation_id :
  (∀ id, member_run id (states id)) → digests_tell states →
  always (creates_covering states quorum) (λ _ _, True) []
    (migrate_control_authority quorum operation_id : Prog (MigrationReq V) ReplicaError _).
Proof.
  intros Hrun Htell. unfold migrate_control_authority. apply always_try; [done|]. intros [].
  eapply always_bind; [apply load_creates|]. intros tr0 [existing|] _.
  { split; [done|]. by intros [|] ? ?. }
  eapply always_bind; [apply (local_creates states quorum)|]. intros tr st _. apply always_return. intros [] _.
  eapply always_bind; [apply peers_creates|]. intros tr' nodes _.
  eapply always_bind; [by apply source_creates|]. intros tr2 snapshot _.
  apply always_try; [done|]. intros []. eapply always_bind; [apply spawn_creates|]. by intros ? ? ? ? ?.
Qed.

End Volumes.
