(* ===== verification/AuthorityToy.v ===== *)
(** * AuthorityToy: a migration at work

    Three volumes that published a first route; two of them acknowledge a freeze, and the
    coordinator creates the first head from what they hold. *)

From S2P Require Import Prelude Text Programs Traces Wire Client Placement Manifest Cohorts ControlDoc Control ControlSafety ControlToy ObjectStore ControlHead Coordinator Authority AuthoritySafety.

#[local] Open Scope N_scope.

#[local] Existing Instance toy_control_host.
#[local] Existing Instance toy_control_json.

Definition m_bare : ControlMetadata := control_metadata_from_state (dcl_state k_control).
Definition m_routed : ControlMetadata := control_metadata_from_state (dcl_state k_one).

(** Texts that tell the two values apart. *)
#[local] Instance m_metadata_json : MetadataJson :=
  {| metadata_to_vec m := if bool_decide (m = m_routed) then [x31] else if bool_decide (m = m_bare) then [x30] else [] |}.

#[local] Instance m_head_codec : HeadCodec := {| control_head_to_vec _ := []; control_head_from_slice _ := Err "unreadable" |}.

#[local] Instance m_error_text : StoreErrorText := {| store_error_text _ := "store" |}.

(** ** The volumes *)

Definition m_request : MetadataFreeze :=
  mkFreeze "move" (mkSource LEGACY_CONTROL_AUTHORITY 1 1 (metadata_digest m_routed)) 2 0.

Definition m_ack (id : string) : MetadataFreezeAck :=
  mkFreezeAck id "move" (mf_source m_request) 2 (metadata_digest m_routed) 0.

Definition m_frozen (id : string) : DurableControl := (freeze_metadata_authority PersistDone k_one id m_request).2.

Definition m_states (id : string) : list DurableControl :=
  if bool_decide (id ∈ ["a"; "b"]) then [k_control; k_one; m_frozen id] else [k_control; k_one].

Lemma m_freezes id : id ∈ ["a"; "b"] → freeze_metadata_authority PersistDone k_one id m_request = (Ok (m_ack id), m_frozen id).
Proof.
  intros Hid. assert ((freeze_metadata_authority PersistDone k_one id m_request).1 = Ok (m_ack id)) as Hf
    by (assert (id = "a" ∨ id = "b") as [->| ->] by set_solver; by vm_compute).
  unfold m_frozen. rewrite <- Hf. exact (surjective_pairing _).
Qed.

Lemma m_cas id : member_step id k_control k_one.
Proof. apply (member_cas id k_control PersistDone 0 "" k_first "op1" false None k_cas1.1). exact (surjective_pairing k_cas1). Qed.

(** Runs of two and of three states. *)
Lemma run_of_two id a b io file members :
  control_open io file members = Ok a → member_step id a b → member_run id [a; b].
Proof.
  intros Ho Hs. split; [by exists io, file, members, a|].
  intros [|[|i]] x y Hx Hy; cbn in Hx, Hy; simplify_eq; done.
Qed.

Lemma run_of_three id a b c io file members :
  control_open io file members = Ok a → member_step id a b → member_step id b c → member_run id [a; b; c].
Proof.
  intros Ho Hs Hs'. split; [by exists io, file, members, a|].
  intros [|[|[|i]]] x y Hx Hy; cbn in Hx, Hy; simplify_eq; done.
Qed.

Lemma m_run id : member_run id (m_states id).
Proof.
  unfold m_states. destruct (bool_decide_reflect (id ∈ ["a"; "b"])) as [Hid|_].
  - eapply run_of_three; [exact k_open_ok|exact (m_cas id)|]. eapply member_freeze. exact (m_freezes id Hid).
  - eapply run_of_two; [exact k_open_ok|exact (m_cas id)].
Qed.

Lemma of_three {A} (P : A → Prop) (a b c x : A) i : P a → P b → P c → [a; b; c] !! i = Some x → P x.
Proof. destruct i as [|[|[|i]]]; cbn; intros; by simplify_eq. Qed.

Lemma of_two {A} (P : A → Prop) (a b x : A) i : P a → P b → [a; b] !! i = Some x → P x.
Proof. destruct i as [|[|i]]; cbn; intros; by simplify_eq. Qed.

Definition m_one_of_two (c : DurableControl) : Prop :=
  control_metadata_from_state (dcl_state c) = m_bare ∨ control_metadata_from_state (dcl_state c) = m_routed.

Lemma m_metadata id i c : m_states id !! i = Some c → m_one_of_two c.
Proof.
  unfold m_states. destruct (bool_decide_reflect (id ∈ ["a"; "b"])) as [Hid|_].
  - apply (of_three m_one_of_two); [by left|by right|right].
    assert (id = "a" ∨ id = "b") as [->| ->] by set_solver; vm_compute; reflexivity.
  - apply (of_two m_one_of_two); [by left|by right].
Qed.

Lemma told_apart (F : list byte → string) (bare routed x m : ControlMetadata) :
  let f m := F (if bool_decide (m = routed) then [x31] else if bool_decide (m = bare) then [x30] else []) in
  F [x31] ≠ F [x30] → F [x31] ≠ F [] → F [x30] ≠ F [] → bare ≠ routed → x = bare ∨ x = routed → f x = f m → x = m.
Proof.
  cbv beta zeta. intros H1 H2 H3 Hne Hx He.
  destruct (bool_decide_reflect (m = routed)); destruct (bool_decide_reflect (m = bare));
    destruct (bool_decide_reflect (x = routed)); destruct (bool_decide_reflect (x = bare)); cbv iota in He; destruct Hx; congruence.
Qed.

Lemma m_tell : digests_tell m_states.
Proof.
  assert (m_bare ≠ m_routed) as Hne.
  { intros He. apply (f_equal (λ m, rm_revision (cm_manifest m))) in He. vm_compute in He. discriminate He. }
  intros id i c m Hi He. apply (told_apart sha256_hex m_bare m_routed _ m); [by vm_compute..|exact Hne|exact (m_metadata id i c Hi)|exact He].
Qed.

(** ** The coordinator *)

(** The answers: no head yet, and the third volume is silent. *)
Definition m_answer {X} (q : MigrationReq unit X) : X :=
  match q with
  | HeadStore => Ok tt
  | LoadHead => Ok None
  | CreateHead head => Ok (mkSnapshot head tt)
  | LocalControl => Some (Ok (dcl_state k_one))
  | AdoptLocal _ => Ok tt
  | ControlStates nodes => map (λ node, (node, Ok (Some (dcl_state k_one)))) nodes
  | FreezeNodes _ _ => [Ok (m_ack "a"); Ok (m_ack "b"); Err NodeUnavailable]
  | SpawnAdopt _ _ => tt
  end.

(** A program after [n] answers, and what was asked. *)
Fixpoint follow {E A} (n : nat) (tr : list (Event (MigrationReq unit))) (m : Prog (MigrationReq unit) E A)
    : list (Event (MigrationReq unit)) * Prog (MigrationReq unit) E A :=
  match n, m with
  | S n, PAsk q k => follow n (tr ++ [Asked q (m_answer q)]) (k (m_answer q))
  | _, _ => (tr, m)
  end.

Lemma always_follow {E A} P R n tr (m : Prog (MigrationReq unit) E A) :
  always P R tr m → always P R (follow n tr m).1 (follow n tr m).2.
Proof.
  revert tr m. induction n as [|n IH]; intros tr m Hm; [done|]. destruct m as [r| |X q k]; [done..|].
  destruct Hm as [_ Hk]. apply IH, Hk.
Qed.

Definition head_asked {E A} (m : Prog (MigrationReq unit) E A) : option ControlHead :=
  match m with PAsk q _ => match q with CreateHead head => Some head | _ => None end | _ => None end.

Lemma asked_covers {E A} quorum R tr (m : Prog (MigrationReq unit) E A) head :
  always (creates_covering m_states quorum) R tr m → head_asked m = Some head → genuine m_states tr →
  covers_quorums m_states quorum (ch_metadata head).
Proof. destruct m as [r| |X q k]; try done. intros [Hq _] Hh Hg. destruct q; try done. injection Hh as <-. by apply Hq. Qed.

Definition m_program : Prog (MigrationReq unit) ReplicaError (ControlHeadSnapshot unit) := migrate_control_authority 2 "move".

Definition m_point := follow 8 [] m_program.

Definition m_meta : option ControlMetadata := ch_metadata <$> head_asked m_point.2.

Lemma m_meta_is : m_meta = Some m_routed.
Proof. vm_compute. reflexivity. Qed.

(** The freezes that were asked, with their answers. *)
Definition freeze_of (e : Event (MigrationReq unit)) : list (MetadataFreeze * list (result ReplicaError MetadataFreezeAck)) :=
  match e with
  | @Asked _ X q x =>
    match q in MigrationReq _ X return X → list (MetadataFreeze * list (result ReplicaError MetadataFreezeAck)) with
    | FreezeNodes _ freeze => λ answers, [(freeze, answers)]
    | _ => λ _, []
    end x
  end.

Definition freezes_in (tr : list (Event (MigrationReq unit))) : list (MetadataFreeze * list (result ReplicaError MetadataFreezeAck)) :=
  concat (map freeze_of tr).

Lemma freezes_in_spec nodes freeze answers tr : Asked (FreezeNodes nodes freeze) answers ∈ tr → (freeze, answers) ∈ freezes_in tr.
Proof.
  induction tr as [|e tr IH]; intros Hin; [by apply elem_of_nil in Hin|]. unfold freezes_in. cbn.
  apply elem_of_cons in Hin as [<-|Hin]; [by left|]. apply elem_of_app. right. by apply IH.
Qed.

Lemma m_freezes_in : freezes_in m_point.1 = [(m_request, [Ok (m_ack "a"); Ok (m_ack "b"); Err NodeUnavailable])].
Proof. vm_compute. reflexivity. Qed.

Lemma m_issued id : id ∈ ["a"; "b"] → issued m_states m_request (m_ack id).
Proof.
  intros Hid. exists 1%nat, k_one, (m_frozen id), PersistDone. cbn [fa_member_id m_ack].
  assert (m_states id = [k_control; k_one; m_frozen id]) as -> by (unfold m_states; by rewrite bool_decide_eq_true_2).
  split; [reflexivity|]. split; [reflexivity|]. exact (m_freezes id Hid).
Qed.

Lemma m_genuine : genuine m_states m_point.1.
Proof.
  intros nodes freeze answers ack Hin%freezes_in_spec Hack. rewrite m_freezes_in in Hin.
  apply list_elem_of_singleton in Hin. injection Hin as -> ->.
  rewrite !elem_of_cons, elem_of_nil in Hack. destruct Hack as [[= ->]|[[= ->]|[[=]|[]]]]; apply m_issued; set_solver.
Qed.

(** Two of the three volumes froze revision 1; the head that the coordinator creates covers what
    any two of them hold. *)
Lemma migration_loses_no_commit_witness :
  ∃ head, head_asked m_point.2 = Some head ∧ rm_revision (cm_manifest (ch_metadata head)) = 1
    ∧ covers_quorums m_states 2 (ch_metadata head).
Proof.
  destruct (head_asked m_point.2) as [head|] eqn:Hh.
  - exists head. split; [reflexivity|]. pose proof m_meta_is as Hm. unfold m_meta in Hm. rewrite Hh in Hm. cbn in Hm. injection Hm as Hm.
    split; [rewrite Hm; vm_compute; reflexivity|].
    refine (asked_covers 2 _ _ _ head _ Hh m_genuine). apply always_follow.
    exact (migration_loses_no_commit toy_digest_nonempty m_states 2 "move" m_run m_tell).
  - pose proof m_meta_is as Hm. unfold m_meta in Hm. rewrite Hh in Hm. discriminate Hm.
Defined.
