(* ===== verification/Retirement.v ===== *)
(** * Retirement: when a cohort's machines may go

    [crates/walleye-bitr-server/src/online_retirement.rs]: a receipt that allows an operator to
    destroy the machines of a retired cohort, derived from the control head and the archive.

    The gateway reads the head, the archive and the members of the cohort: its methods are programs
    over these questions. *)

From stdpp Require Import pretty.
From S2P Require Import Prelude Text Programs Wire Client Placement Manifest Cohorts ControlDoc Control.

#[local] Open Scope N_scope.

Record OnlineCohortReplacementReceipt := mkRetirement {
  or_operation_id : string;
  or_cohort_id : N;
  or_old_members_removed : bool;
  or_all_ranges_archived : bool;
  or_hot_tail_archived : bool;
  or_metadata_authority_moved : bool;
  or_can_retire : bool;
  or_archive_proof : string;
  or_authority_marker : string;
}.

(** serde_json of what the receipt proves. *)
Class RetirementJson := {
  retirement_to_vec : string → string → N → N → string → list (string * N * N) → list byte;
}.

Definition unproven {A} (reason : string) : result ReplicaError A :=
  Err (Protocol ("cohort retirement is not proven: " +:+ reason)).

(** [prefixes.entry(stream).and_modify(max).or_insert(end)]. *)
Definition raise_prefix (prefixes : gmap string N) (stream : string) (end_lsn : N) : gmap string N :=
  <[stream := match prefixes !! stream with Some value => N.max value end_lsn | None => end_lsn end]> prefixes.

(** The ranges of a cohort. *)
Definition source_ranges (m : ReplicaManifest) (source_cohort_id : N) : list (string * StreamSegment) :=
  concat (map (λ entry : string * list StreamSegment,
                 map (pair entry.1) (filter (λ s, sg_cohort_id s = source_cohort_id) entry.2))
            (sbtree_entries (rm_stream_segments m))).

(** A member of the source that was removed. *)
Definition check_removed (meta : ControlMetadata) (source_cohort_id : N) (id : string) : result ReplicaError unit :=
  match cm_members meta !! id with
  | None => unproven "source member is absent"
  | Some member =>
    if negb (dm_cohort_id member =? source_cohort_id) || negb (bool_decide (dm_status member = MRemoved))
    then unproven "a source member still participates in writes" else Ok tt
  end.

(** A complete successor. *)
Definition complete_successor (meta : ControlMetadata) (source_cohort_id receipt_cohort_id : N) (cohort : DurableCohort) : bool :=
  negb (dc_id cohort =? source_cohort_id)
  && ((receipt_cohort_id =? source_cohort_id) || (dc_id cohort =? receipt_cohort_id))
  && bool_decide (dc_status cohort = CActive) && (len (dc_members cohort) =? REPLICATION_FACTOR)
  && forallb (λ id, match cm_members meta !! id with
                    | Some member => (dm_cohort_id member =? dc_id cohort) && bool_decide (dm_status member = MActive)
                    | None => false
                    end) (dc_members cohort).

(** A range of the source: closed, and with the members of the cohort. *)
Definition require_range (source : DurableCohort) (prefixes : gmap string N) (range : string * StreamSegment)
    : result ReplicaError (gmap string N) :=
  let '(stream, segment) := range in
  match sg_end_lsn segment with
  | None => unproven "a source stream range is still open"
  | Some end_lsn =>
    if negb (bool_decide (sg_member_ids segment = dc_members source)) || (end_lsn <? sg_start_lsn segment)
    then unproven "source range identity or boundary is inconsistent"
    else Ok (raise_prefix prefixes stream end_lsn)
  end.

(** [required_archive_prefixes]. *)
Definition required_archive_prefixes (head : ControlHead) (operation_id : string) (source_cohort_id receipt_cohort_id : N)
    : result ReplicaError (gmap string N) :=
  let meta := ch_metadata head in
  if blank operation_id || (ch_authority_epoch head <? 2) || bool_decide (ch_completed_operations head !! operation_id = None)
  then unproven "the operation has no committed object-head receipt"
  else match cm_cohorts meta !! source_cohort_id with
  | None => unproven "source cohort is absent"
  | Some source =>
    if negb (bool_decide (dc_status source = CRetired)) || negb (len (dc_members source) =? REPLICATION_FACTOR)
    then unproven "source cohort has not retired"
    else
      _ ← try_fold (λ _ id, check_removed meta source_cohort_id id) tt (dc_members source);
      if negb (existsb (complete_successor meta source_cohort_id receipt_cohort_id) (nbtree_values (cm_cohorts meta)))
      then unproven "no complete successor cohort remains"
      else try_fold (require_range source) ∅ (source_ranges (cm_manifest meta) source_cohort_id)
  end.

(** What the gateway asks: the head, an archived range to be verified, the watermark of the archive
    for one stream and for several at once, the recovery of a hot tail, and an archival. *)
Inductive RetireReq : Type → Type :=
| RetireHead : RetireReq (result ReplicaError (option ControlHead))
| VerifyArchived (stream : string) (start_lsn end_lsn : N) : RetireReq (result ReplicaError unit)
| ArchiveMark (stream : string) : RetireReq (result ReplicaError N)
| ArchiveMarks (streams : list string) : RetireReq (list (result ReplicaError N))
| HotTail (stream : string) (after_lsn : N) : RetireReq (result ReplicaError (list EncryptedRecord))
| ArchiveRecords (records : list EncryptedRecord) : RetireReq (result ReplicaError N).

Abbreviation Retire := (Prog RetireReq ReplicaError).

(** The loop of [verify_source_archive_ranges]. *)
Fixpoint verify_ranges (ranges : list (string * StreamSegment)) : Retire unit :=
  match ranges with
  | [] => PReturn (Ok tt)
  | (stream, segment) :: ranges =>
    match sg_end_lsn segment with
    | None => PReturn (unproven "source archive proof contains an open range")
    | Some end_lsn =>
      _ ← try_ask (VerifyArchived stream (sg_start_lsn segment) end_lsn);
      verify_ranges ranges
    end
  end.

Definition verify_source_archive_ranges (m : ReplicaManifest) (source_cohort_id : N) : Retire unit :=
  verify_ranges (source_ranges m source_cohort_id).

(** A range that must be finite before the cohort is removed. *)
Definition finite_range (prefixes : gmap string N) (range : string * StreamSegment) : result ReplicaError (gmap string N) :=
  match sg_end_lsn range.2 with
  | None => unproven "a source range remains open before retirement"
  | Some end_lsn => Ok (raise_prefix prefixes range.1 end_lsn)
  end.

Definition records_through (end_lsn : N) (records : list EncryptedRecord) : list EncryptedRecord :=
  filter (λ r, er_lsn r ≤ end_lsn) records.

(** Archive one stream through the end of its ranges. *)
Definition archive_prefix (stream : string) (end_lsn : N) : Retire unit :=
  archived ← try_ask (ArchiveMark stream);
  if end_lsn <=? archived then PReturn (Ok tt)
  else
    records ← try_ask (HotTail stream archived);
    _ ← try_ask (ArchiveRecords (records_through end_lsn records));
    archived ← try_ask (ArchiveMark stream);
    PReturn (if archived <? end_lsn then unproven "historical source records could not be archived" else Ok tt).

Fixpoint archive_prefixes (prefixes : list (string * N)) : Retire unit :=
  match prefixes with
  | [] => PReturn (Ok tt)
  | (stream, end_lsn) :: prefixes => _ ← archive_prefix stream end_lsn; archive_prefixes prefixes
  end.

(** [archive_source_finite_ranges]. *)
Definition archive_source_finite_ranges (m : ReplicaManifest) (source_cohort_id : N) : Retire unit :=
  prefixes ← PReturn (try_fold finite_range ∅ (source_ranges m source_cohort_id));
  _ ← archive_prefixes (sbtree_entries prefixes);
  verify_source_archive_ranges m source_cohort_id.

(** One proof: the watermark reaches the end of the ranges. *)
Definition prove_prefix (p : string * N * result ReplicaError N) : result ReplicaError (string * N * N) :=
  let '(stream, required, answer) := p in
  archived ← answer;
  if archived <? required then unproven "an archive head is below a sealed source range" else Ok (stream, required, archived).

Definition prove_prefixes (prefixes : list (string * N)) (answers : list (result ReplicaError N))
    : result ReplicaError (list (string * N * N)) :=
  try_map prove_prefix (zip prefixes answers).

Definition authority_marker (head : ControlHead) : string :=
  "object-head:" +:+ pretty (ch_authority_epoch head) +:+ ":" +:+ pretty (ch_revision head) +:+ ":" +:+ ch_metadata_digest head.

Section Receipt.
Context `{ManifestHost, RetirementJson}.

(** [verified_online_retirement_receipt]. *)
Definition verified_online_retirement_receipt (operation_id : string) (source_cohort_id receipt_cohort_id : N)
    : Retire OnlineCohortReplacementReceipt :=
  loaded ← try_ask RetireHead;
  head ← PReturn match loaded with Some head => Ok head | None => unproven "object-store metadata authority is absent" end;
  prefixes ← PReturn (required_archive_prefixes head operation_id source_cohort_id receipt_cohort_id);
  _ ← verify_source_archive_ranges (cm_manifest (ch_metadata head)) source_cohort_id;
  answers ← ask (ArchiveMarks (map fst (sbtree_entries prefixes)));
  proofs ← PReturn (prove_prefixes (sbtree_entries prefixes) answers);
  PReturn (Ok (mkRetirement operation_id receipt_cohort_id true true true true true
    (sha256_hex (retirement_to_vec "lakeday/online-retirement/v1" operation_id source_cohort_id receipt_cohort_id
                   (ch_metadata_digest head) proofs))
    (authority_marker head))).

End Receipt.
