(* ===== verification/RetirementSafety.v ===== *)
(** * RetirementSafety: a receipt is proof

    When the receipt says that the machines of a cohort may go, every record of every range that
    the cohort held can be read from the archive, now and for good. *)

From S2P Require Import Prelude Text Programs Traces Wire Client Placement Manifest Cohorts ControlDoc Control ObjectStore Archive ArchiveSafety Retirement.

#[local] Open Scope N_scope.

(** ** What is required of a head *)

(** The cohort has retired, and its members are removed. *)
Definition source_gone (head : ControlHead) (source_cohort_id : N) : Prop :=
  ∃ source, cm_cohorts (ch_metadata head) !! source_cohort_id = Some source ∧ dc_status source = CRetired
    ∧ ∀ id, id ∈ dc_members source → ∃ member, cm_members (ch_metadata head) !! id = Some member
        ∧ dm_cohort_id member = source_cohort_id ∧ dm_status member = MRemoved.

Lemma source_ranges_spec m source stream segments segment :
  rm_stream_segments m !! stream = Some segments → segment ∈ segments → sg_cohort_id segment = source →
  (stream, segment) ∈ source_ranges m source.
Proof.
  intros Hl Hin Hs. unfold source_ranges. apply list_elem_of_In, in_concat.
  exists (map (pair stream) (filter (λ s, sg_cohort_id s = source) segments)). split; apply list_elem_of_In.
  - apply list_elem_of_In, in_map_iff. exists (stream, segments). split; [done|]. apply list_elem_of_In.
    unfold sbtree_entries. rewrite merge_sort_Permutation. by apply elem_of_map_to_list.
  - apply list_elem_of_In, in_map_iff. exists segment. split; [done|]. apply list_elem_of_In, list_elem_of_filter. done.
Qed.

(** Each stream of the ranges, with an LSN no range of it exceeds. *)
Definition bounded (prefixes : gmap string N) (range : string * StreamSegment) : Prop :=
  ∃ end_lsn bound, sg_end_lsn range.2 = Some end_lsn ∧ prefixes !! range.1 = Some bound ∧ end_lsn ≤ bound.

Lemma raise_keeps prefixes stream end_lsn range : bounded prefixes range → bounded (raise_prefix prefixes stream end_lsn) range.
Proof.
  intros (e & b & He & Hb & Hle). unfold bounded, raise_prefix. destruct (decide (stream = range.1)) as [->|Hne].
  - rewrite lookup_insert_eq, Hb. exists e, (N.max b end_lsn). split_and!; [done|done|lia].
  - rewrite lookup_insert_ne by done. by exists e, b.
Qed.

Lemma raise_bounds prefixes stream segment end_lsn :
  sg_end_lsn segment = Some end_lsn → bounded (raise_prefix prefixes stream end_lsn) (stream, segment).
Proof.
  intros He. unfold bounded, raise_prefix. cbn. rewrite lookup_insert_eq. eexists end_lsn, _. split_and!; [done|done|].
  destruct (prefixes !! stream); lia.
Qed.

Lemma require_bounds source ranges prefixes prefixes' :
  try_fold (require_range source) prefixes ranges = Ok prefixes' →
  (∀ range, bounded prefixes range → bounded prefixes' range) ∧ ∀ range, range ∈ ranges → bounded prefixes' range.
Proof.
  revert prefixes. induction ranges as [|[stream segment] ranges IH]; intros prefixes Hf; cbn in Hf.
  { injection Hf as <-. split; [done|]. by intros ? ?%elem_of_nil. }
  next Hf. destruct (IH _ Hf) as [Hk Hin]. unfold require_range in Hx.
  destruct (sg_end_lsn segment) as [end_lsn|] eqn:He; [|done]. destruct (_ || _); [done|]. injection Hx as <-. split.
  - intros range Hr. by apply Hk, raise_keeps.
  - intros range [->|Hr]%elem_of_cons; [by apply Hk, raise_bounds|by apply Hin].
Qed.

Lemma required_spec head op source receipt prefixes :
  required_archive_prefixes head op source receipt = Ok prefixes →
  source_gone head source ∧ ∀ range, range ∈ source_ranges (cm_manifest (ch_metadata head)) source → bounded prefixes range.
Proof.
  unfold required_archive_prefixes. cbv zeta. destruct (_ || _); [done|].
  destruct (cm_cohorts (ch_metadata head) !! source) as [co|] eqn:Hc; [|done].
  destruct (_ || _) eqn:Hor; [done|]. intros Hr. next Hr. destruct (negb (existsb _ _)); [done|].
  apply require_bounds in Hr as [_ Hr]. split; [|done]. bool_facts. destruct x.
  rewrite try_fold_all in Hx. exists co. split_and!; [done|done|]. intros id Hid. specialize (Hx id Hid).
  unfold check_removed in Hx. destruct (cm_members _ !! id) as [member|]; [|done]. destruct (_ || _) eqn:Hor'; [done|].
  bool_facts. eauto.
Qed.

(** A proof for every prefix. *)
Lemma proofs_reach prefixes answers proofs stream bound :
  length answers = length prefixes → prove_prefixes prefixes answers = Ok proofs → (stream, bound) ∈ prefixes →
  ∃ i archived, map fst prefixes !! i = Some stream ∧ answers !! i = Some (Ok archived) ∧ bound ≤ archived.
Proof.
  unfold prove_prefixes. rewrite try_map_Ok. intros Hlen Hf [i Hi]%list_elem_of_lookup.
  destruct (lookup_lt_is_Some_2 answers i) as [answer Ha]; [rewrite Hlen; by eapply lookup_lt_Some|].
  assert (zip prefixes answers !! i = Some (stream, bound, answer)) as Hz by (apply lookup_zip_Some; done).
  destruct (Forall2_lookup_l _ _ _ _ _ Hf Hz) as (p & _ & Hp). unfold prove_prefix in Hp.
  destruct answer as [archived|e]; [|done]. cbn in Hp. destruct (N.ltb_spec archived bound); [done|].
  exists i, archived. split_and!; [|done|done]. change (map fst prefixes) with (fst <$> prefixes). rewrite list_lookup_fmap, Hi. done.
Qed.

(** ** The receipt *)

Section Receipt.
Context `{ManifestHost, RetirementJson} `{ArchiveHostLaws} {S V : Type} `{ObjectStoreLaws S V}.
Context (a : OpaqueArchive).

(** The marks that the archive answered were its watermarks, at some time before [now]. *)
Definition archive_genuine (now : Archivers (S := S) (V := V)) (tr : list (Event RetireReq)) : Prop :=
  ∀ streams answers, Asked (ArchiveMarks streams) answers ∈ tr →
    length answers = length streams
    ∧ ∀ i stream archived, streams !! i = Some stream → answers !! i = Some (Ok archived) →
        ∃ before at_read, archive_initial a stream before ∧ rtc (archive_step a) before at_read ∧ rtc (archive_step a) at_read now
          ∧ archived_lsn a (store_get (av_store at_read)) stream = Ok archived.

(** Every record from [start_lsn] through [end_lsn] is served by the archive, now and later. *)
Definition range_kept (now : Archivers (S := S) (V := V)) (stream : string) (start_lsn end_lsn : N) : Prop :=
  ∀ later lsn after, rtc (archive_step a) now later → 1 ≤ lsn → start_lsn ≤ lsn ≤ end_lsn → after < lsn →
    ∃ records r, archive_recover a (store_get (av_store later)) stream after = Ok records ∧ r ∈ records ∧ er_lsn r = lsn.

Lemma mark_kept now stream before at_read archived start_lsn end_lsn :
  host_ok a stream → archive_initial a stream before → rtc (archive_step a) before at_read → rtc (archive_step a) at_read now →
  archived_lsn a (store_get (av_store at_read)) stream = Ok archived → end_lsn ≤ archived → range_kept now stream start_lsn end_lsn.
Proof.
  intros Hhost Hinit Hrun Hnow Hmark Hle later lsn after Hlater Hone Hlsn Hafter.
  destruct (archive_run_log a stream Hhost before at_read Hinit Hrun) as (log & _ & _ & Hlen & _ & Hmore).
  rewrite Hmark in Hlen. injection Hlen as ->.
  assert (rtc (archive_step a) at_read later) as Hlong by (by etrans).
  destruct (Hmore later Hlong) as (more & _ & Hlater_len).
  assert (rtc (archive_step a) before later) as Hall by (by etrans).
  destruct (archive_run_log a stream Hhost before later Hinit Hall) as (log' & Hchain & _ & Hlen' & Hrec & _).
  rewrite Hlater_len in Hlen'. injection Hlen' as Hlen'.
  destruct (chain_has 1 0 log' lsn Hchain) as (r & Hr & Hlr); [lia|rewrite <- Hlen', len_app; lia|].
  exists (filter (λ r, after < er_lsn r) log'), r. split_and!; [apply Hrec| |done].
  apply list_elem_of_filter. split; [by rewrite Hlr|done].
Qed.

Definition retire_any : list (Event RetireReq) → ∀ X, RetireReq X → Prop := λ _ _ _, True.

Lemma ranges_answered tr ranges (R : list (Event RetireReq) → Prop) :
  (∀ tr e, R tr → R (tr ++ [e])) → R tr → always retire_any (λ tr' _, R tr') tr (verify_ranges ranges).
Proof.
  intros Hmono. revert tr. induction ranges as [|[stream segment] ranges IH]; intros tr Hr; cbn [verify_ranges]; [by intros ? [= <-]|].
  destruct (sg_end_lsn segment); [|by intros ? ?]. apply always_try; [done|]. intros u. by apply IH, Hmono.
Qed.

(** C17: When a receipt is issued, the head that was read has the source cohort retired and its members
    removed, every range of the source in it is closed, and whatever archivers did before and do
    after, each record of each of these ranges is read back from the archive, for good (where the keys of
    the stream in the object store are its own). *)
Theorem retirement_keeps_records now operation_id source_cohort_id receipt_cohort_id :
  always retire_any (λ tr _, archive_genuine now tr →
      ∃ head, Asked RetireHead (Ok (Some head)) ∈ tr ∧ source_gone head source_cohort_id
        ∧ ∀ stream segments segment,
            rm_stream_segments (cm_manifest (ch_metadata head)) !! stream = Some segments → segment ∈ segments →
            sg_cohort_id segment = source_cohort_id →
            ∃ end_lsn, sg_end_lsn segment = Some end_lsn ∧ (host_ok a stream → range_kept now stream (sg_start_lsn segment) end_lsn))
    [] (verified_online_retirement_receipt operation_id source_cohort_id receipt_cohort_id).
Proof.
  unfold verified_online_retirement_receipt. apply always_try; [done|]. intros loaded.
  apply always_return. intros head Hhead. destruct loaded as [head'|]; [|done]. injection Hhead as ->.
  apply always_return. intros prefixes Hreq. destruct (required_spec _ _ _ _ _ Hreq) as [Hgone Hbound].
  eapply always_bind; [apply (ranges_answered _ _ (λ tr, Asked RetireHead (Ok (Some head)) ∈ tr))|].
  { intros tr e Hin. apply elem_of_app. by left. }
  { apply elem_of_app. right. by apply list_elem_of_singleton. }
  intros tr u Hin. apply always_ask; [done|]. intros answers. apply always_return. intros proofs Hproofs receipt _ Hgen.
  exists head. split_and!; [apply elem_of_app; by left|done|]. intros stream segments segment Hl Hseg Hsrc.
  destruct (Hbound _ (source_ranges_spec _ _ _ _ _ Hl Hseg Hsrc)) as (end_lsn & bound & He & Hb & Hle). cbn in He, Hb.
  exists end_lsn. split; [done|]. intros Hhost.
  destruct (Hgen (map fst (sbtree_entries prefixes)) answers) as [Hlen Hmarks]; [apply elem_of_app; right; by apply list_elem_of_singleton|].
  destruct (proofs_reach (sbtree_entries prefixes) answers proofs stream bound) as (i & archived & Hi & Ha & Hreach); [|done| |].
  { by rewrite Hlen, length_map. }
  { unfold sbtree_entries. rewrite merge_sort_Permutation. by apply elem_of_map_to_list. }
  destruct (Hmarks i stream archived Hi Ha) as (before & at_read & Hinit & Hrun & Hnow & Hmark).
  eapply mark_kept; [done..|lia].
Qed.

End Receipt.
