(* ===== verification/RetirementToy.v ===== *)
(** * RetirementToy: a cohort at its end

    A head in which one cohort, which held a range of a stream, was replaced by another, and an
    archive that reaches the end of that range, or does not. *)

From S2P Require Import Prelude Text Programs Traces Wire Client Placement Manifest Cohorts NodeToy ControlDoc Control ObjectStore Archive ArchiveSafety ArchiveToy Retirement RetirementSafety.

#[local] Open Scope N_scope.

#[local] Existing Instance digest_host.
#[local] Existing Instance archive_host.
#[local] Existing Instance archive_host_laws.
#[local] Instance e_json : RetirementJson := {| retirement_to_vec _ _ _ _ _ _ := [] |}.

Definition e_member (status : MemberStatus) (cohort : N) (id : string) : string * DurableMember :=
  (id, mkMember id ("http://" +:+ id) status cohort "" "" "" 0 "" 0).

Definition e_segment (end_lsn : option N) : StreamSegment := mkSegment 1 end_lsn 1 ["a"; "b"; "c"] "hash" 1 1 1 "op" "" 0.

Definition e_head (end_lsn : option N) : ControlHead :=
  ControlDoc.mkHead 1 2 5 "retire" {["retire" := mkReceipt 2 5 "digest"]} (mkSource "legacy" 1 1 "d") "digest"
    (mkMetadata 1 (list_to_map (map (e_member MRemoved 1) ["a"; "b"; "c"] ++ map (e_member MActive 2) ["d"; "e"; "f"]))
       {[1 := mkCohort 1 ["a"; "b"; "c"] CRetired "" 0; 2 := mkCohort 2 ["d"; "e"; "f"] CActive "" 0]}
       (mkManifest 1 1 "" 1 2 "hash" 0 {["t/s" := [e_segment end_lsn]]} "op" "" 0) ∅).

Definition e_answer (end_lsn : option N) (archived : N) {X} (q : RetireReq X) : X :=
  match q with
  | RetireHead => Ok (Some (e_head end_lsn))
  | VerifyArchived _ _ _ => Ok tt
  | ArchiveMark _ => Ok archived
  | ArchiveMarks streams => map (λ _, Ok archived) streams
  | HotTail _ _ => Ok []
  | ArchiveRecords _ => Ok archived
  end.

(** What is asked and answered, and the result. *)
Fixpoint e_run {A} (end_lsn : option N) (archived : N) (tr : list (Event RetireReq)) (m : Retire A)
    : list (Event RetireReq) * option (result ReplicaError A) :=
  match m with
  | PReturn r => (tr, Some r)
  | PLoops => (tr, None)
  | PAsk q k => e_run end_lsn archived (tr ++ [Asked q (e_answer end_lsn archived q)]) (k (e_answer end_lsn archived q))
  end.

Lemma always_run {A} P R end_lsn archived tr (m : Retire A) a :
  always P R tr m → (e_run end_lsn archived tr m).2 = Some (Ok a) → R (e_run end_lsn archived tr m).1 a.
Proof.
  revert tr. induction m as [r| |X q k IH]; intros tr Hm Ha; cbn in *; [injection Ha as ->; by apply Hm|done|].
  apply IH; [apply Hm|done].
Qed.

Definition e_receipt (end_lsn : option N) (archived : N) :=
  e_run end_lsn archived [] (verified_online_retirement_receipt "retire" 1 2).

(** A receipt for an archive that reaches the end of the range; none while it does not, and none
    while the range is open. *)
Example receipts_need_the_archive :
  match (e_receipt (Some 2) 2).2 with Some (Ok receipt) => or_can_retire receipt | _ => false end = true
  ∧ (e_receipt (Some 3) 2).2 = Some (unproven "an archive head is below a sealed source range")
  ∧ (e_receipt None 2).2 = Some (unproven "a source stream range is still open").
Proof. vm_compute. done. Qed.

(** The marks that were asked, with their answers. *)
Definition marks_of (e : Event RetireReq) : list (list string * list (result ReplicaError N)) :=
  match e with
  | @Asked _ X q x =>
    match q in RetireReq X return X → list (list string * list (result ReplicaError N)) with
    | ArchiveMarks streams => λ answers, [(streams, answers)]
    | _ => λ _, []
    end x
  end.

Lemma marks_of_spec streams answers tr :
  Asked (ArchiveMarks streams) answers ∈ tr → (streams, answers) ∈ concat (map marks_of tr).
Proof.
  induction tr as [|e tr IH]; intros Hin; [by apply elem_of_nil in Hin|]. cbn.
  apply elem_of_cons in Hin as [<-|Hin]; [by left|]. apply elem_of_app. right. by apply IH.
Qed.

Definition e_now : @Archivers ToyStore (list byte) := mkArchivers z_s2 [].

Lemma e_genuine : archive_genuine z_archive e_now (e_receipt (Some 2) 2).1.
Proof.
  intros streams answers Hin%marks_of_spec.
  assert (concat (map marks_of (e_receipt (Some 2) 2).1) = [(["t/s"], [Ok 2])]) as He by (vm_compute; reflexivity).
  rewrite He in Hin. apply list_elem_of_singleton in Hin. injection Hin as -> ->. split; [reflexivity|].
  intros [|[|i]] stream archived Hs Ha; cbn in Hs, Ha; [|discriminate Hs|discriminate Hs].
  injection Hs as <-. injection Ha as <-. exists z_empty, e_now. split; [exact z_start|]. split; [exact z_run|]. split; [apply rtc_refl|].
  vm_compute. reflexivity.
Qed.

(** The archive holds two records; the receipt is issued, and both are kept. *)
Lemma retirement_keeps_records_witness :
  ∃ receipt, (e_receipt (Some 2) 2).2 = Some (Ok receipt) ∧ range_kept z_archive e_now "t/s" 1 2.
Proof.
  destruct (e_receipt (Some 2) 2).2 as [[receipt|e]|] eqn:Hr; [|vm_compute in Hr; discriminate Hr..].
  exists receipt. split; [reflexivity|].
  destruct (always_run _ _ (Some 2) 2 [] _ receipt (retirement_keeps_records z_archive e_now "retire" 1 2) Hr e_genuine)
    as (head & Hin & _ & Hkept).
  assert (head = e_head (Some 2)) as ->.
  { assert (∀ e, e ∈ (e_receipt (Some 2) 2).1 →
      match e with @Asked _ X q x => match q in RetireReq X return X → Prop with RetireHead => λ r, r = Ok (Some (e_head (Some 2))) | _ => λ _, True end x end) as Hall.
    { apply Forall_forall. vm_compute. repeat constructor. }
    specialize (Hall _ Hin). cbn in Hall. injection Hall as ->. reflexivity. }
  destruct (Hkept "t/s" [e_segment (Some 2)] (e_segment (Some 2))) as (end_lsn & He & Hk); [vm_compute; reflexivity|left|reflexivity|].
  injection He as <-. exact (Hk z_host).
Defined.
