(* ===== verification/Ingest.v ===== *)
(** * Ingest: records of any shape, as rows of a table

    [crates/walleye-node/src/ingest.rs], the part that decides nothing: the names a client chose,
    a record as it arrived, the rule of a table, the definition the rule makes, one record read
    through a rule and the Arrow batch of many; and the code that takes a definition and a batch,
    [StreamDefinition::table_config] and [conform_batch] of [engine.rs] with [TableConfig] of
    [crates/walleye-lance/src/table.rs].

    Names are strings, texts of a client are lists of bytes.  serde_json, SHA-256, the Unicode
    tables and Arrow are the parameter [IngestHost]. *)

From Stdlib Require Import SpecFloat.
From stdpp Require Import pretty.
From S2P Require Import Prelude Text Cron Literal.

(** ** Constants *)

Definition BRONZE : string := "ingest_bronze".
Definition QUARANTINE : string := "ingest_quarantine".
Definition ID : string := "walleye_id".
Definition EXTRA : string := "walleye_extra".
Definition MAX_COLUMNS : nat := 200.
Definition HIDDEN_PK : string := "_walleye_pk".
Definition HIDDEN_SEQ : string := "_walleye_seq".

(** ** Rules *)

Record RuleColumn := mkRuleColumn {
  rc_name : string;
  rc_kind : string;
  rc_required : bool;
  rc_aliases : list string;
}.

Record Embedding := mkEmbedding {
  em_source : string;
  em_column : string;
  em_model : string;
  em_dimensions : N;
}.

Record Change := mkChange {
  ch_what : string;
  ch_chose : string;
  ch_by : string;
  ch_confidence : option spec_float;
}.

Record TableRule := mkTableRule {
  tr_table : string;
  tr_version : N;
  tr_columns : list RuleColumn;
  tr_primary_key : option string;
  tr_keys_are_data : bool;
  tr_sources : list string;
  tr_history : list Change;
  tr_embeddings : list Embedding;
  tr_embed_considered : list string;
}.

(** One record as it arrived. *)
Record Arrived := mkArrived {
  ar_id : string;
  ar_raw : str;
  ar_fields : option (gmap string Literal);
}.

(** ** Arrow *)

Inductive DataType :=
| DUtf8 | DLargeUtf8 | DInt64 | DFloat64 | DBoolean
| DDecimal128 (precision scale : Z)
| DTimestampMicrosUtc
| DVector (width : Z)
| DUInt64
| DOther (name : string).

#[global] Instance DataType_eq_dec : EqDecision DataType.
Proof. solve_decision. Defined.

Record Field := mkField { fl_name : string; fl_type : DataType; fl_nullable : bool }.

Inductive Cell :=
| CValue (v : Value)
| CVector (v : list spec_float)
| CSeq (n : N).

Record Array := mkArray { ay_type : DataType; ay_cells : list (option Cell) }.

Record RecordBatch := mkRecordBatch { rb_fields : list Field; rb_columns : list Array }.

Definition num_rows (b : RecordBatch) : nat :=
  match rb_columns b with [] => 0%nat | a :: _ => length (ay_cells a) end.

(** How a call ends without a value. *)
Inductive Failure :=
| Panic
| Failed (message : string).

(** ** Definitions of streams *)

Record Column := mkColumn { co_name : string; co_kind : string; co_nullable : bool }.
Record VectorIndexSpec := mkVectorIndexSpec { vi_name : string; vi_column : string; vi_metric : string }.
Record TextIndexSpec := mkTextIndexSpec { ti_name : string; ti_column : string }.

Record StreamDefinition := mkStreamDefinition {
  sd_name : string;
  sd_columns : list Column;
  sd_primary_key : list string;
  sd_schema : option str;
  sd_vector_indexes : list VectorIndexSpec;
  sd_text_indexes : list TextIndexSpec;
}.

(** Without what the name determines: where the table is stored, its shard and its stream. *)
Record TableConfig := mkTableConfig {
  tc_name : string;
  tc_schema : list Field;
  tc_primary_keys : list string;
  tc_vector_indexes : list VectorIndexSpec;
  tc_text_indexes : list TextIndexSpec;
}.

Class IngestHost := {
  ih_literal :: LiteralHost;
  sha256 : list byte → list byte;
  hex_encode : list byte → string;
  (** [serde_json::from_str::<BTreeMap<String, Box<RawValue>>>] *)
  json_object : str → option (gmap string str);
  (** [RawValue::from_string], and its text *)
  raw_value : str → option str;
  (** [char::is_alphanumeric] and [char::to_lowercase] *)
  is_alphanumeric : str → bool;
  to_lowercase : str → str;
  (** the Arrow schema of a catalog entry, [DistanceType::try_from], [RecordBatch::try_new] and
      the hash of whole rows *)
  arrow_schema : str → result string (list Field);
  metric_known : string → bool;
  record_batch_try_new : list Field → list Array → result string unit;
  content_hash : list Array → result string Array;
}.

(** ** Names *)

Definition is_ascii_lower (b : byte) : bool := in_range 0x61 0x7A b.
Definition is_ascii_upper (b : byte) : bool := in_range 0x41 0x5A b.
Definition is_ascii_alphanumeric (b : byte) : bool := is_digit b || is_ascii_lower b || is_ascii_upper b.

Definition to_ascii_lower (b : byte) : byte :=
  if is_ascii_upper b then byte_of_N (Byte.to_N b + 32) else b.

(** [valid_source]. *)
Definition valid_source (name : string) : bool :=
  (1 <=? str_len name) && (str_len name <=? 128)
  && forallb (λ b, is_ascii_alphanumeric b || bool_decide (b ∈ [x2e; x5f; x2d])) (as_bytes name).

(** [valid_name] of the engine, and the check of [TableConfig::new]. *)
Definition valid_name (name : string) : bool :=
  negb (bool_decide (name = "")) && forallb (λ b, is_ascii_alphanumeric b || bool_decide (b ∈ [x5f; x2d])) (as_bytes name).

(** [char::is_control]: U+0000 to U+001F and U+007F to U+009F. *)
Definition is_control (c : str) : bool :=
  match c with
  | [b] => in_range 0x00 0x1F b || in_range 0x7F 0x7F b
  | [b; b'] => in_range 0xC2 0xC2 b && in_range 0x80 0x9F b'
  | _ => false
  end.

Definition starts_with_underscore (key : string) : bool := bool_decide (head (as_bytes key) = Some x5f).

(** [column_name]. *)
Definition column_name (key : string) : bool :=
  negb (bool_decide (key = "")) && (str_len key <=? 64) && negb (starts_with_underscore key)
  && negb (bool_decide (key = ID)) && negb (bool_decide (key = EXTRA))
  && negb (existsb is_control (chars (length (as_bytes key)) (as_bytes key))).

(** The loop of [table_name]. *)
Definition table_char (name : str) (c : str) : str :=
  match c with
  | [b] =>
    if is_ascii_alphanumeric b then name ++ [to_ascii_lower b]
    else if negb (bool_decide (last name = Some x5f)) && negb (bool_decide (name = [])) then name ++ [x5f] else name
  | _ => if negb (bool_decide (last name = Some x5f)) && negb (bool_decide (name = [])) then name ++ [x5f] else name
  end.

(** [trim_start_matches('_')]. *)
Fixpoint drop_underscores (s : str) : str :=
  match s with
  | b :: rest => if bool_decide (b = x5f) then drop_underscores rest else s
  | [] => []
  end.

(** [trim_matches('_')]. *)
Definition trim_underscores (s : str) : str := rev (drop_underscores (rev (drop_underscores s))).

(** [table_name]. *)
Definition table_name (from : str) : option string :=
  let name := trim_underscores (foldl table_char [] (chars (length from) from)) in
  match name with
  | [] => None
  | b :: _ =>
    let name := if is_digit b then as_bytes "t_" ++ name else name in
    Some (String.string_of_list_byte (concat (take 48 (chars (length name) name))))
  end.

Section Ingest.
Context `{IngestHost}.

(** [Arrived::new] on the text of the raw value. *)
Definition arrived_new (source : string) (text : str) : Arrived :=
  mkArrived (hex_encode (take 16 (sha256 (as_bytes source ++ [x00] ++ text)))) text
    ((λ m : gmap string str, literal_read <$> m) <$> json_object text).

(** [spelled_alike]. *)
Definition fold_name (name : string) : str :=
  concat (to_lowercase <$> filter (λ c, is_alphanumeric c = true) (chars (length (as_bytes name)) (as_bytes name))).

Definition spelled_alike (a b : string) : bool :=
  negb (bool_decide (a = b)) && negb (bool_decide (fold_name a = [])) && bool_decide (fold_name a = fold_name b).

(** ** One record through a rule *)

Definition column_kind (c : RuleColumn) : Kind := default KString (kind_from_name (rc_kind c)).

(** The first of the names that is a field: [iter.find_map(|name| fields.get_key_value(name))]. *)
Fixpoint find_field {A} (fields : gmap string A) (names : list string) : option (string * A) :=
  match names with
  | [] => None
  | name :: names =>
    match fields !! name with
    | Some value => Some (name, value)
    | None => find_field fields names
    end
  end.

Definition column_names (c : RuleColumn) : list string := rc_name c :: rc_aliases c.

(** [raw_json]. *)
Definition raw_json (value : Literal) : str := default (as_bytes "null") (raw_value (literal_json value)).

(** What the loop of [row] over the columns has read. *)
Record Reading := mkReading {
  rd_used : gset string;
  rd_extra : gmap string str;
  rd_values : list (option Value);
}.

Definition row_column (fields : gmap string Literal) (r : Reading) (c : RuleColumn) : Reading :=
  match find_field fields (column_names c) with
  | Some (name, value) =>
    let converted := convert (column_kind c) value in
    mkReading ({[name]} ∪ rd_used r)
      (if bool_decide (converted = None) && negb (is_null value) then <[name := raw_json value]> (rd_extra r) else rd_extra r)
      (rd_values r ++ [converted])
  | None => mkReading (rd_used r) (rd_extra r) (rd_values r ++ [None])
  end.

Definition keep_unused (used : gset string) (extra : gmap string str) (entry : string * Literal) : gmap string str :=
  if bool_decide (entry.1 ∈ used) then extra else <[entry.1 := raw_json entry.2]> extra.

(** The values of the columns and what is left over. *)
Definition row_parts (rule : TableRule) (fields : gmap string Literal) : list (option Value) * gmap string str :=
  let r := foldl (row_column fields) (mkReading ∅ ∅ []) (tr_columns rule) in
  (rd_values r, foldl (keep_unused (rd_used r)) (rd_extra r) (sbtree_entries fields)).

Fixpoint join_bytes (sep : str) (parts : list str) : str :=
  match parts with
  | [] => []
  | [part] => part
  | part :: parts => part ++ sep ++ join_bytes sep parts
  end.

(** The object the leftovers are written as. *)
Definition object_text (entries : list (string * str)) : str :=
  as_bytes "{" ++ join_bytes (as_bytes ",") ((λ e, json_write_string (as_bytes e.1) ++ as_bytes ":" ++ e.2) <$> entries)
  ++ as_bytes "}".

(** [row]. *)
Definition row (rule : TableRule) (a : Arrived) : list (option Value) * bool * option str :=
  match ar_fields a with
  | None => ([], false, None)
  | Some fields =>
    let '(values, extra) := row_parts rule fields in
    let rescued := negb (bool_decide (extra = ∅)) in
    (values, rescued, if rescued then Some (object_text (sbtree_entries extra)) else None)
  end.

(** ** The definition of a table *)

Definition rule_key (rule : TableRule) : string := default ID (tr_primary_key rule).

Definition embedding_column (e : Embedding) : Column := mkColumn (em_column e) ("vector:" +:+ pretty (em_dimensions e)) true.

(** [definition]. *)
Definition definition (rule : TableRule) : StreamDefinition :=
  let key := rule_key rule in
  mkStreamDefinition (tr_table rule)
    (mkColumn ID "string" false
     :: ((λ c, mkColumn (rc_name c) (kind_storage (column_kind c)) (negb (bool_decide (rc_name c = key)))) <$> tr_columns rule)
     ++ (embedding_column <$> tr_embeddings rule)
     ++ [mkColumn EXTRA "json" true])
    [key] None
    ((λ e, mkVectorIndexSpec (em_column e +:+ "_idx") (em_column e) "cosine") <$> tr_embeddings rule)
    [].

Definition i32_min : Z := - 2 ^ 31.
Definition i32_max : Z := 2 ^ 31 - 1.

(** [str::strip_prefix]. *)
Fixpoint strip_prefix (prefix s : str) : option str :=
  match prefix, s with
  | [], _ => Some s
  | b :: prefix, c :: s => if bool_decide (b = c) then strip_prefix prefix s else None
  | _ :: _, [] => None
  end.

(** [storage_type]. *)
Definition storage_type (kind : string) : option DataType :=
  if bool_decide (kind = "string") || bool_decide (kind = "json") then Some DUtf8
  else if bool_decide (kind = "int64") then Some DInt64
  else if bool_decide (kind = "float64") then Some DFloat64
  else if bool_decide (kind = "boolean") then Some DBoolean
  else if bool_decide (kind = "decimal") then Some (DDecimal128 (Z.of_nat DECIMAL_PRECISION) (Z.of_nat DECIMAL_SCALE))
  else if bool_decide (kind = "timestamp") then Some DTimestampMicrosUtc
  else rest ← strip_prefix (as_bytes "vector:") (as_bytes kind);
       width ← parse_int i32_min i32_max rest;
       if (0 <? width)%Z then Some (DVector width) else None.

(** [schema.field_with_name]. *)
Definition field_with_name (schema : list Field) (name : string) : option Field :=
  head (filter (λ f, fl_name f = name) schema).

(** [TableConfig::new]. *)
Definition table_config_new (name : string) (schema : list Field) (primary_keys : list string) : result string TableConfig :=
  if negb (valid_name name) then Err "stream identifiers must be ASCII letters, digits, underscore or dash"
  else if bool_decide (primary_keys = []) || existsb (λ k, negb (bool_decide (is_Some (field_with_name schema k)))) primary_keys
  then Err "table requires existing primary-key columns"
  else Ok (mkTableConfig name schema primary_keys [] []).

(** [TableConfig::with_vector_indexes]; the message about a column of another type leaves out the type. *)
Definition check_vector_index (config : TableConfig) (spec : VectorIndexSpec) : result string unit :=
  field ← ok_or (field_with_name (tc_schema config) (vi_column spec)) ("Unable to get field named " +:+ vi_column spec);
  match fl_type field with
  | DVector _ => if metric_known (vi_metric spec) then Ok tt else Err "unknown metric"
  | _ => Err ("vector index " +:+ vi_name spec +:+ " needs a FixedSizeList<Float32> column")
  end.

Definition with_vector_indexes (config : TableConfig) (specs : list VectorIndexSpec) : result string TableConfig :=
  _ ← try_fold (λ _ spec, check_vector_index config spec) tt specs;
  Ok (mkTableConfig (tc_name config) (tc_schema config) (tc_primary_keys config) specs (tc_text_indexes config)).

(** [TableConfig::with_text_indexes], with the same message. *)
Definition check_text_index (config : TableConfig) (spec : TextIndexSpec) : result string unit :=
  field ← ok_or (field_with_name (tc_schema config) (ti_column spec)) ("Unable to get field named " +:+ ti_column spec);
  match fl_type field with
  | DUtf8 | DLargeUtf8 => Ok tt
  | _ => Err ("text index " +:+ ti_name spec +:+ " needs a text column")
  end.

Definition with_text_indexes (config : TableConfig) (specs : list TextIndexSpec) : result string TableConfig :=
  _ ← try_fold (λ _ spec, check_text_index config spec) tt specs;
  Ok (mkTableConfig (tc_name config) (tc_schema config) (tc_primary_keys config) (tc_vector_indexes config) specs).

(** The column loop of [table_config]: the names seen so far and the fields. *)
Definition config_column (primary_key : list string) (acc : gset string * list Field) (c : Column)
    : result string (gset string * list Field) :=
  let '(seen, fields) := acc in
  if bool_decide (co_name c = "") || bool_decide (co_name c ∈ seen) then Err "invalid or duplicate column"
  else if starts_with_underscore (co_name c) then Err ("column " +:+ co_name c +:+ " uses a reserved name")
  else
    t ← ok_or (storage_type (co_kind c))
          "type must be string, int64, float64, boolean, decimal, timestamp, json, or vector:N";
    if co_nullable c && bool_decide (co_name c ∈ primary_key) then Err "primary key must be non-nullable"
    else Ok ({[co_name c]} ∪ seen, fields ++ [mkField (co_name c) t (co_nullable c)]).

(** [StreamDefinition::table_config]. *)
Definition table_config (d : StreamDefinition) : result string TableConfig :=
  config ← match sd_schema d with
           | Some json =>
             if negb (bool_decide (length (sd_columns d) = 0%nat)) then Err "definition must use either columns or schema"
             else schema ← arrow_schema json; table_config_new (sd_name d) schema (sd_primary_key d)
           | None =>
             '(_, fields) ← try_fold (config_column (sd_primary_key d)) (∅, []) (sd_columns d);
             if bool_decide (length fields = 0%nat)
                || negb (bool_decide (size (list_to_set (sd_primary_key d) : gset string) = length (sd_primary_key d)))
             then Err "columns and distinct primary keys are required"
             else table_config_new (sd_name d) (fields ++ [mkField HIDDEN_SEQ DUInt64 false]) (sd_primary_key d)
           end;
  config ← with_vector_indexes config (sd_vector_indexes d);
  with_text_indexes config (sd_text_indexes d).

(** ** Batches *)

(** [fill_for]: the builder of a kind is known by its Arrow type. *)
Definition fill_for (k : Kind) : DataType :=
  match k with
  | KBoolean => DBoolean
  | KInt64 => DInt64
  | KFloat64 => DFloat64
  | KDecimal => DDecimal128 (Z.of_nat DECIMAL_PRECISION) (Z.of_nat DECIMAL_SCALE)
  | KTimestampIso | KTimestampSeconds | KTimestampMillis | KTimestampMicros => DTimestampMicrosUtc
  | KString | KJson => DUtf8
  end.

(** [Fill::push], for each builder. *)
Definition fill_push (t : DataType) (value : option Value) : option Cell :=
  match t, value with
  | DBoolean, Some (VBool v) => Some (CValue (VBool v))
  | DInt64, Some (VInt v) => Some (CValue (VInt v))
  | DFloat64, Some (VFloat v) => Some (CValue (VFloat v))
  | DDecimal128 _ _, Some (VDecimal v) => Some (CValue (VDecimal v))
  | DTimestampMicrosUtc, Some (VMicros v) => Some (CValue (VMicros v))
  | DUtf8, Some (VText v) => Some (CValue (VText v))
  | _, _ => None
  end.

(** The first column of that name, [iter().position]. *)
Fixpoint find_index {A} (p : A → bool) (l : list A) : option nat :=
  match l with
  | [] => None
  | x :: l => if p x then Some 0%nat else S <$> find_index p l
  end.

(** [embeddable]. *)
Definition embeddable (rule : TableRule) (values : list (option Value)) : list (option string) :=
  (λ e,
    at_ ← find_index (λ c, bool_decide (rc_name c = em_source e)) (tr_columns rule);
    value ← values !! at_;
    match value with
    | Some (VText text) => if bool_decide (trim text = []) then None else Some (String.string_of_list_byte text)
    | _ => None
    end) <$> tr_embeddings rule.

(** A [BTreeSet] of strings, in its order. *)
Definition btree_set (l : list string) : list string := merge_sort String.le (remove_dups l).

(** [texts]. *)
Definition texts (rule : TableRule) (records : list Arrived) : list string :=
  if bool_decide (length (tr_embeddings rule) = 0%nat) then []
  else btree_set (omap id (concat ((λ a, embeddable rule (row rule a).1.1) <$> records))).

(** [e.dimensions as i32]. *)
Definition as_i32 (n : N) : Z := ((Z.of_N n + 2 ^ 31) mod 2 ^ 32 - 2 ^ 31)%Z.

Record Built := mkBuilt {
  bu_batch : RecordBatch;
  bu_rescued : nat;
  bu_embedded : nat;
  bu_awaiting : nat;
}.

(** The vector of one embedding of one row. *)
Definition row_vector (vectors : gmap string (list spec_float)) (e : Embedding) (text : option string) : option (list spec_float) :=
  t ← text;
  v ← vectors !! t;
  if N.of_nat (length v) =? em_dimensions e then Some v else None.

(** The builders of [batch]: ids, columns, lists and extras. *)
Record Builders := mkBuilders {
  bs_ids : list (option Cell);
  bs_columns : list Array;
  bs_lists : list Array;
  bs_extras : list (option Cell);
  bs_rescued : nat;
  bs_embedded : nat;
  bs_awaiting : nat;
}.

Definition append_cell (a : Array) (c : option Cell) : Array := mkArray (ay_type a) (ay_cells a ++ [c]).

Definition bool_nat (b : bool) : nat := if b then 1%nat else 0%nat.

(** One turn of the loop of [batch]. *)
Definition batch_row (rule : TableRule) (vectors : gmap string (list spec_float)) (b : Builders) (a : Arrived) : Builders :=
  let '(values, kept, extra) := row rule a in
  let wanted := embeddable rule values in
  let found := zip_with (row_vector vectors) (tr_embeddings rule) wanted in
  let has := existsb (λ v, bool_decide (is_Some v)) found in
  let lacks := existsb (λ p, bool_decide (is_Some p.1) && negb (bool_decide (is_Some p.2))) (zip wanted found) in
  mkBuilders
    (bs_ids b ++ [Some (CValue (VText (as_bytes (ar_id a))))])
    (zip_with (λ builder value, append_cell builder (fill_push (ay_type builder) value)) (bs_columns b) values)
    (zip_with (λ list vector, append_cell list (CVector <$> vector)) (bs_lists b) found)
    (bs_extras b ++ [(λ t, CValue (VText t)) <$> extra])
    (bs_rescued b + bool_nat kept)%nat (bs_embedded b + bool_nat has)%nat (bs_awaiting b + bool_nat lacks)%nat.

Definition empty_builders (rule : TableRule) : Builders :=
  mkBuilders [] ((λ c, mkArray (fill_for (column_kind c)) []) <$> tr_columns rule)
    ((λ e, mkArray (DVector (as_i32 (em_dimensions e))) []) <$> tr_embeddings rule) [] 0 0 0.

Definition batch_field (c : Column) : result Failure Field :=
  t ← ok_or (storage_type (co_kind c)) Panic; Ok (mkField (co_name c) t (co_nullable c)).

(** [batch]. *)
Definition batch (rule : TableRule) (records : list Arrived) (vectors : gmap string (list spec_float)) : result Failure Built :=
  let b := foldl (batch_row rule vectors) (empty_builders rule) records in
  let columns := mkArray DUtf8 (bs_ids b) :: bs_columns b ++ bs_lists b ++ [mkArray DUtf8 (bs_extras b)] in
  fields ← try_map batch_field (sd_columns (definition rule));
  _ ← map_err Failed (record_batch_try_new fields columns);
  Ok (mkBuilt (mkRecordBatch fields columns) (bs_rescued b) (bs_embedded b) (bs_awaiting b)).

(** ** What the engine does with a batch *)

Definition hidden (column : string) : bool := bool_decide (column = HIDDEN_PK) || bool_decide (column = HIDDEN_SEQ).

Definition hidden_pk (d : StreamDefinition) : bool := bool_decide (sd_primary_key d = [HIDDEN_PK]).

(** One column of [conform_batch]; the message about a type leaves out the two types. *)
Definition conform_field (b : RecordBatch) (field : Field) : result string (option Array) :=
  if hidden (fl_name field) then Ok None
  else
    index ← ok_or (find_index (λ f, bool_decide (fl_name f = fl_name field)) (rb_fields b)) ("missing column " +:+ fl_name field);
    column ← ok_or (rb_columns b !! index) "no such column";
    if negb (bool_decide (ay_type column = fl_type field))
    then Err ("column " +:+ fl_name field +:+ " has a type the table does not expect")
    else if negb (fl_nullable field) && existsb (λ c, negb (bool_decide (is_Some c))) (ay_cells column)
    then Err ("column " +:+ fl_name field +:+ " must not contain nulls")
    else Ok (Some column).

Definition sequence_column (first rows : N) : Array :=
  mkArray DUInt64 ((λ i, Some (CSeq (saturating_add first (N.of_nat i)))) <$> seq 0 (N.to_nat (saturating_sub (saturating_add first rows) first))).

(** [conform_batch]. *)
Definition conform_batch (d : StreamDefinition) (full : list Field) (b : RecordBatch) (first_seq : N) : result string RecordBatch :=
  found ← try_map (conform_field b) full;
  let columns := omap id found in
  if negb (bool_decide (length (rb_columns b) = length columns)) then Err "batch contains columns that are not in the table"
  else
    columns ← if hidden_pk d then hash ← content_hash columns; Ok (columns ++ [hash]) else Ok columns;
    let columns := columns ++ [sequence_column first_seq (N.of_nat (num_rows b))] in
    _ ← record_batch_try_new full columns;
    Ok (mkRecordBatch full columns).

End Ingest.
