(* ===== verification/IngestSafety.v ===== *)
(** * IngestSafety: what a row keeps of a record

    A record read through any rule: every field is in a column, exactly as [convert] keeps the value it
    denotes, or in the catch-all, whose text reads back as the leftover fields as they were sent. *)

From Stdlib Require Import SpecFloat.
From S2P Require Import Prelude Text Cron Literal LiteralSafety Ingest.

(** What [RecordBatch::try_new] accepts: as many arrays as fields, each of its field's type, all
    of one length, and no null in a field that is not nullable. *)
Definition array_fits (rows : nat) (f : Field) (a : Array) : Prop :=
  ay_type a = fl_type f ∧ length (ay_cells a) = rows ∧ (fl_nullable f = false → Forall is_Some (ay_cells a)).

(** The first byte of a JSON value tells what it is, and a word is one of three. *)
Definition json_start (w : str) : bool :=
  match w with
  | [] => false
  | b :: _ =>
    if bool_decide (b = x6e) then bool_decide (w = as_bytes "null")
    else if bool_decide (b = x74) then bool_decide (w = as_bytes "true")
    else if bool_decide (b = x66) then bool_decide (w = as_bytes "false")
    else bool_decide (b ∈ [x22; x7b; x5b; x2d]) || is_digit b
  end.

(** The documented behaviour of serde_json, Arrow and Lance that ingestion relies on. *)
Class IngestLaws `{IngestHost} := {
  raw_words w : w ∈ [as_bytes "null"; as_bytes "true"; as_bytes "false"] → raw_value w = Some w;
  raw_string t : raw_value (json_write_string t) = Some (json_write_string t);
  raw_start w : raw_value w = Some w → json_start w = true;
  string_reads t : json_read_string (json_write_string t) = Some t;
  object_values text fields k raw :
    json_object text = Some fields → fields !! k = Some raw → raw_value (trim raw) = Some (trim raw);
  object_reads entries :
    NoDup (entries.*1) → (∀ k v, (k, v) ∈ entries → raw_value v = Some v) →
    json_object (object_text entries) = Some (list_to_map entries);
  cosine_known : metric_known "cosine" = true;
  try_new_accepts rows fields arrays :
    fields ≠ [] → Forall2 (array_fits rows) fields arrays → record_batch_try_new fields arrays = Ok tt;
  try_new_checks fields arrays :
    record_batch_try_new fields arrays = Ok tt → ∃ rows, Forall2 (array_fits rows) fields arrays;
}.

(** ** Reading a row *)

Section Row.
Context `{IngestHost}.
Implicit Types (fields : gmap string Literal) (c : RuleColumn).

Lemma find_field_Some {A} (fields : gmap string A) names k v :
  find_field fields names = Some (k, v) → k ∈ names ∧ fields !! k = Some v.
Proof.
  induction names as [|n names IH]; cbn; [done|]. destruct (fields !! n) eqn:E.
  - intros [= -> ->]. split; [by left|done].
  - intros [? ?]%IH. split; [by right|done].
Qed.

Lemma find_field_None {A} (fields : gmap string A) names :
  find_field fields names = None ↔ ∀ n, n ∈ names → fields !! n = None.
Proof.
  induction names as [|n names IH]; cbn.
  { split; [by intros _ ? ?%not_elem_of_nil|done]. }
  destruct (fields !! n) eqn:E.
  - split; [done|]. intros Hn. specialize (Hn n). rewrite Hn in E; [done|by left].
  - rewrite IH. split; [|intros Hn; intros; apply Hn; by right]. intros Hn m [->|Hm]%elem_of_cons; auto.
Qed.

(** The value a column takes from a record. *)
Definition column_value fields c : option Value :=
  match find_field fields (column_names c) with
  | Some (_, v) => convert (column_kind c) v
  | None => None
  end.

(** A column that takes field [k], and one that takes it and cannot keep it. *)
Definition takes fields c k : Prop := ∃ v, find_field fields (column_names c) = Some (k, v).
Definition refuses fields c k : Prop :=
  ∃ v, find_field fields (column_names c) = Some (k, v) ∧ convert (column_kind c) v = None ∧ is_null v = false.

(** Everything in the catch-all is a field of the record with its JSON. *)
Definition from_record fields (extra : gmap string str) : Prop :=
  ∀ k t, extra !! k = Some t → ∃ v, fields !! k = Some v ∧ t = raw_json v.

Lemma from_record_insert fields extra k v :
  from_record fields extra → fields !! k = Some v → from_record fields (<[k := raw_json v]> extra).
Proof.
  intros Hf Hk k' t [[<- <-]|[_ Hk']]%lookup_insert_Some; [by eauto|by apply Hf].
Qed.

Lemma or_exists_cons {A} (P : Prop) (Q : A → Prop) x l :
  (P ∨ Q x) ∨ (∃ y, y ∈ l ∧ Q y) ↔ P ∨ ∃ y, y ∈ x :: l ∧ Q y.
Proof.
  setoid_rewrite elem_of_cons. split; [intros [[?|?]|(y & ? & ?)]; eauto|].
  intros [?|(y & [->|?] & ?)]; eauto.
Qed.

Lemma row_columns fields cols r :
  let r' := foldl (row_column fields) r cols in
  from_record fields (rd_extra r) →
  rd_values r' = rd_values r ++ (column_value fields <$> cols)
  ∧ (∀ k, k ∈ rd_used r' ↔ k ∈ rd_used r ∨ ∃ c, c ∈ cols ∧ takes fields c k)
  ∧ from_record fields (rd_extra r')
  ∧ (∀ k, is_Some (rd_extra r' !! k) ↔ is_Some (rd_extra r !! k) ∨ ∃ c, c ∈ cols ∧ refuses fields c k).
Proof.
  cbn zeta. revert r. induction cols as [|c cols IH]; intros r Hr; cbn [foldl fmap list_fmap].
  { rewrite app_nil_r. split_and!; [done| |done|]; intros k; split; auto; by intros [?|(? & ?%not_elem_of_nil & _)]. }
  assert (from_record fields (rd_extra (row_column fields r c))
    ∧ rd_values (row_column fields r c) = rd_values r ++ [column_value fields c]
    ∧ (∀ k, k ∈ rd_used (row_column fields r c) ↔ k ∈ rd_used r ∨ takes fields c k)
    ∧ (∀ k, is_Some (rd_extra (row_column fields r c) !! k) ↔ is_Some (rd_extra r !! k) ∨ refuses fields c k))
    as (Hf & Hv & Hu & Hx).
  { unfold row_column, column_value, takes, refuses.
    destruct (find_field fields (column_names c)) as [[n v]|] eqn:E; cbn.
    2:{ split_and!; [done|done| |]; intros k; split; auto; [by intros [?|[? [=]]]|by intros [?|(? & [=] & _)]]. }
    apply find_field_Some in E as [_ Hn]. split_and!; [|done| |].
    - case_match; [by apply from_record_insert|done].
    - intros k. rewrite elem_of_union, elem_of_singleton. split; [intros [->|?]; eauto|].
      intros [?|[v' [= <- _]]]; auto.
    - intros k. destruct (bool_decide (convert (column_kind c) v = None) && negb (is_null v)) eqn:Ec; bool_facts.
      + destruct (decide (k = n)) as [->|Hne]; [rewrite lookup_insert_eq; split; eauto 10|].
        rewrite lookup_insert_ne by done. split; [auto|]. by intros [?|(v' & [= <-] & _)].
      + split; [auto|]. intros [?|(v' & [= <- <-] & Hc & Hnull)]; [done|].
        exfalso. destruct Ec as [Ec|Ec]; bool_facts; congruence. }
  destruct (IH _ Hf) as (IHv & IHu & IHf & IHx). split_and!; [| |done|].
  - rewrite IHv, Hv, <- app_assoc. done.
  - intros k. rewrite IHu, Hu. apply (or_exists_cons _ (λ c, takes fields c k)).
  - intros k. rewrite IHx, Hx. apply (or_exists_cons _ (λ c, refuses fields c k)).
Qed.

Lemma keep_unused_fold fields used entries extra :
  (∀ k v, (k, v) ∈ entries → fields !! k = Some v) → from_record fields extra →
  let extra' := foldl (keep_unused used) extra entries in
  from_record fields extra'
  ∧ ∀ k, is_Some (extra' !! k) ↔ is_Some (extra !! k) ∨ ((k ∉ used) ∧ k ∈ (fst <$> entries)).
Proof.
  cbn zeta. revert extra. induction entries as [|[n v] entries IH]; intros extra He Hf; cbn [foldl].
  { split; [done|]. intros k. split; [auto|]. by intros [?|[_ ?%not_elem_of_nil]]. }
  destruct (IH (keep_unused used extra (n, v))) as [IHf IHx].
  { intros k v' Hk. apply He. by right. }
  { unfold keep_unused; cbn. case_bool_decide; [done|]. apply from_record_insert; [done|]. apply He. by left. }
  split; [done|]. intros k. rewrite IHx. unfold keep_unused; cbn. rewrite elem_of_cons.
  case_bool_decide as Hu.
  - split; [intros [?|[? ?]]; auto|]. by intros [?|[Hk [->|?]]]; auto.
  - destruct (decide (k = n)) as [->|Hne]; [rewrite lookup_insert_eq; split; [|eauto]; right; by eauto|].
    rewrite lookup_insert_ne by done. split; [intros [?|[? ?]]; auto|]. by intros [?|[? [->|?]]]; auto.
Qed.

Lemma not_all_takes fields (cols : list RuleColumn) k :
  ¬ (∀ c, c ∈ cols → ¬ takes fields c k) → ∃ c, c ∈ cols ∧ takes fields c k.
Proof.
  intros Hnot. destruct (decide (Exists (λ c, option_map fst (find_field fields (column_names c)) = Some k) cols)) as [He|He].
  - apply Exists_exists in He as (c & Hc & Hk). exists c. split; [done|]. unfold takes.
    destruct (find_field fields (column_names c)) as [[n v]|]; simplify_eq/=. by eexists.
  - exfalso. apply Hnot. intros c Hc [v Hv]. apply He, Exists_exists. exists c. by rewrite Hv.
Qed.

(** What [row] reads: the columns' values, and the fields no column keeps. *)
Lemma row_parts_spec rule fields :
  let '(values, extra) := row_parts rule fields in
  values = column_value fields <$> tr_columns rule
  ∧ from_record fields extra
  ∧ ∀ k, is_Some (extra !! k) ↔
      is_Some (fields !! k)
      ∧ ((∃ c, c ∈ tr_columns rule ∧ refuses fields c k) ∨ ∀ c, c ∈ tr_columns rule → ¬ takes fields c k).
Proof.
  unfold row_parts. pose proof (row_columns fields (tr_columns rule) (mkReading ∅ ∅ [])) as Hr. revert Hr.
  generalize (foldl (row_column fields) (mkReading ∅ ∅ []) (tr_columns rule)). intros r Hr.
  destruct Hr as (Hv & Hu & Hf & Hx).
  { intros k t Hk. cbn in Hk. by rewrite lookup_empty in Hk. }
  destruct (keep_unused_fold fields (rd_used r) (sbtree_entries fields) (rd_extra r)) as [Hf' Hx']; [|done|].
  { intros k v. by rewrite elem_of_sbtree_entries. }
  split_and!; [done|done|]. intros k. rewrite Hx', Hx, Hu. cbn. rewrite lookup_empty.
  assert (k ∈ (sbtree_entries fields).*1 ↔ is_Some (fields !! k)) as ->.
  { rewrite list_elem_of_fmap. split.
    - intros ([k' v] & -> & Hin%elem_of_sbtree_entries). by exists v.
    - intros [v Hv']. exists (k, v). split; [done|]. by apply elem_of_sbtree_entries. }
  rewrite (elem_of_empty (C:=gset string) k). split.
  - intros [[[]|(c & Hc & v & Hfind & Hconv)]|[Hn Hk]]; [done| |].
    + split; [apply find_field_Some in Hfind as [_ ->]; by eexists|]. left. exists c. split; [done|]. by exists v.
    + split; [done|]. right. intros c Hc Ht. apply Hn. right. eauto.
  - intros [Hk [Hr|Hn]]; [left; by right|]. right. split; [|done]. intros [[]|(c & Hc & Ht)]. by eapply Hn.
Qed.

End Row.

Section Kept.
Context `{IngestLaws}.

(** The value a JSON text denotes, a string that does not decode standing for its own text. *)
Definition denotes (raw : str) (l : Literal) : Prop :=
  match l with
  | LNull => trim raw = as_bytes "null"
  | LBool b => trim raw = as_bytes (if b then "true" else "false")
  | LNumber text => text = trim raw ∧ ∃ b rest, text = b :: rest ∧ (b = x2d ∨ is_digit b = true)
  | LText s => head (trim raw) = Some x22
      ∧ (json_read_string (trim raw) = Some s ∨ json_read_string (trim raw) = None ∧ s = trim raw)
  | LObject text => text = trim raw ∧ head text = Some x7b
  | LArray text => text = trim raw ∧ head text = Some x5b
  end.

(** The JSON of a field as it was sent: its text without the blanks around it; a string is escaped
    anew, and quoted once more if it does not decode. *)
Definition sent_text (raw : str) : str :=
  if bool_decide (head (trim raw) = Some x22)
  then json_write_string (default (trim raw) (json_read_string (trim raw))) else trim raw.

Ltac decide_bytes := repeat first
  [rewrite (bool_decide_eq_true_2 (@eq byte _ _)) by done | rewrite (bool_decide_eq_false_2 (@eq byte _ _)) by done
  |rewrite (bool_decide_eq_true_2 (@eq (option byte) _ _)) by done | rewrite (bool_decide_eq_false_2 (@eq (option byte) _ _)) by done].

Lemma literal_read_denotes raw :
  json_start (trim raw) = true → denotes raw (literal_read raw) ∧ literal_json (literal_read raw) = sent_text raw.
Proof.
  unfold literal_read, sent_text. destruct (trim raw) as [|b rest] eqn:E; [done|]. cbn [json_start head].
  destruct (decide (b = x6e)) as [->|]; [|destruct (decide (b = x74)) as [->|]; [|destruct (decide (b = x66)) as [->|];
    [|destruct (decide (b = x22)) as [->|]; [|destruct (decide (b = x7b)) as [->|]; [|destruct (decide (b = x5b)) as [->|]]]]]].
  1-3: decide_bytes; intros Hw%bool_decide_eq_true; cbn [denotes literal_json]; by rewrite E, Hw.
  - decide_bytes. intros _. cbn [denotes literal_json]. rewrite E. split; [|done]. split; [done|].
    by destruct (json_read_string _); [left|right].
  - decide_bytes. intros _. cbn [denotes literal_json]. by rewrite E.
  - decide_bytes. intros _. cbn [denotes literal_json]. by rewrite E.
  - rewrite !(bool_decide_eq_false_2 (b = _)), (bool_decide_eq_false_2 (Some b = _)) by congruence.
    intros Hs. cbn [denotes literal_json]. rewrite E. split; [|done]. split; [done|].
  exists b, rest. split; [done|]. rewrite orb_true_iff, bool_decide_eq_true, !elem_of_cons in Hs.
  destruct Hs as [[->|[->|[->|[->|[]%not_elem_of_nil]]]]|?]; try done; [by left|by right].
Qed.

(** A string in the catch-all reads back as the string that was sent. *)
Lemma sent_text_reads raw s : json_read_string (trim raw) = Some s → json_read_string (sent_text raw) = Some s.
Proof.
  unfold sent_text. intros Hs. case_bool_decide; [|done]. rewrite Hs. apply string_reads.
Qed.

(** The JSON of a field that was read is the JSON it is written as. *)
Lemma raw_json_read text (raws : gmap string str) k raw :
  json_object text = Some raws → raws !! k = Some raw → raw_value (literal_json (literal_read raw)) = Some (literal_json (literal_read raw)).
Proof.
  intros Ht Hk. pose proof (object_values _ _ _ _ Ht Hk) as Hraw. unfold literal_read.
  destruct (trim raw) as [|b rest] eqn:E; [by apply raw_words; left|].
  case_bool_decide; [by apply raw_words; left|].
  case_bool_decide; [by apply raw_words; right; left|].
  case_bool_decide; [by apply raw_words; right; right; left|].
  case_bool_decide; [apply raw_string|].
  case_bool_decide; [done|]. by case_bool_decide.
Qed.

(** The catch-all of a record reads back as what it keeps. *)
Lemma extra_reads_back text (raws extra : gmap string str) :
  json_object text = Some raws → from_record (literal_read <$> raws) extra →
  (∀ k t, extra !! k = Some t → ∃ raw, raws !! k = Some raw ∧ t = literal_json (literal_read raw))
  ∧ json_object (object_text (sbtree_entries extra)) = Some extra.
Proof.
  intros Ht Hf.
  assert (∀ k t, extra !! k = Some t → ∃ raw, raws !! k = Some raw ∧ t = literal_json (literal_read raw)) as Hkeep.
  { intros k t (v & (raw & <- & Hraw)%lookup_fmap_Some & ->)%Hf. exists raw. split; [done|].
    unfold raw_json. by rewrite (raw_json_read _ _ _ _ Ht Hraw). }
  split; [done|]. rewrite object_reads.
  - f_equal. symmetry. apply list_to_map_flip. unfold sbtree_entries. by rewrite merge_sort_Permutation.
  - apply NoDup_sbtree_keys.
  - intros k v (raw & Hraw & ->)%elem_of_sbtree_entries%Hkeep. by apply (raw_json_read text raws k).
Qed.

(** C26: nothing of a record is lost on its way into a row, whatever the table's rule: the row has
    one value per column; every field of the object the client sent is either a column's value,
    exactly what [convert] keeps of the JSON value the field denotes, or a JSON [null] in a column, or
    in the catch-all under its own name with the JSON it was sent with: byte for byte without the blanks
    around it, but for a string, which is escaped anew and reads back as the same string, or is
    quoted once more if it does not decode; and the text of the catch-all reads back as exactly the
    fields it keeps, so that it is present exactly when there is something in it. *)
Theorem row_loses_nothing rule source text (raws : gmap string str) values rescued extra :
  json_object text = Some raws → row rule (arrived_new source text) = (values, rescued, extra) →
  length values = length (tr_columns rule)
  ∧ ∃ left : gmap string str,
      (extra = None ∧ left = ∅ ∨ ∃ t, extra = Some t ∧ json_object t = Some left)
      ∧ (rescued = true ↔ left ≠ ∅)
      ∧ (∀ k t, left !! k = Some t → ∃ raw, raws !! k = Some raw ∧ t = sent_text raw
           ∧ ∀ s, json_read_string (trim raw) = Some s → json_read_string t = Some s)
      ∧ ∀ k raw, raws !! k = Some raw →
          left !! k = Some (sent_text raw)
          ∨ ∃ i c l, tr_columns rule !! i = Some c ∧ k ∈ column_names c
              ∧ denotes raw l ∧ values !! i = Some (convert (column_kind c) l)
              ∧ (is_Some (convert (column_kind c) l) ∨ trim raw = as_bytes "null").
Proof.
  intros Ht. unfold row, arrived_new. cbn [ar_fields]. rewrite Ht. cbn [fmap option_fmap option_map].
  pose proof (row_parts_spec rule (literal_read <$> raws)) as Hspec.
  destruct (row_parts rule (literal_read <$> raws)) as [vs left]. destruct Hspec as (-> & Hf & Hx).
  intros [= <- <- <-]. destruct (extra_reads_back _ _ _ Ht Hf) as [Hkeep Hread].
  assert (∀ k raw, raws !! k = Some raw → denotes raw (literal_read raw) ∧ literal_json (literal_read raw) = sent_text raw) as Hsent.
  { intros k raw Hk. apply literal_read_denotes, raw_start. by apply (object_values text raws k). }
  split; [by rewrite length_fmap|]. exists left. split_and!.
  - case_bool_decide as Hl; cbn; [by left|right; by eexists].
  - by rewrite negb_true_iff, bool_decide_eq_false.
  - intros k t (raw & Hk & ->)%Hkeep. exists raw. destruct (Hsent _ _ Hk) as [_ ->]. split_and!; [done..|]. apply sent_text_reads.
  - intros k raw Hk. destruct (Hsent _ _ Hk) as [Hden Hjson]. assert ((literal_read <$> raws) !! k = Some (literal_read raw)) as Hfk.
    { by rewrite lookup_fmap, Hk. }
    destruct (left !! k) as [t|] eqn:El.
    { left. apply Hkeep in El as (raw' & Hk' & ->). simplify_eq. by rewrite Hjson. }
    right. assert (¬ ∀ c, c ∈ tr_columns rule → ¬ takes (literal_read <$> raws) c k) as Hnot.
    { intros Hno. assert (is_Some (left !! k)) as [? ?]; [apply Hx; eauto|congruence]. }
    apply not_all_takes in Hnot as (c & Hc & v & Hfind).
    pose proof (find_field_Some _ _ _ _ Hfind) as [Hin Hv]. simplify_eq.
    apply list_elem_of_lookup in Hc as [i Hi]. exists i, c, (literal_read raw). split_and!; [done..| |].
    + rewrite list_lookup_fmap, Hi. cbn. unfold column_value. by rewrite Hfind.
    + destruct (convert (column_kind c) (literal_read raw)) eqn:Ec; [left; by eexists|right].
      destruct (is_null (literal_read raw)) eqn:En; [by destruct (literal_read raw); [exact Hden|..]|].
      assert (is_Some (left !! k)) as [? ?]; [|congruence]. apply Hx. split; [by eexists|].
      left. exists c. split; [by eapply list_elem_of_lookup_2|]. by exists (literal_read raw).
Qed.

End Kept.
