(* ===== verification/IngestShape.v ===== *)
(** * IngestShape: the rules that make tables

    When a rule has the shape the code keeps, its definition is one the engine accepts, and the
    records that have their key become a batch the table takes, with every value of every column. *)

From Stdlib Require Import SpecFloat.
From stdpp Require Import pretty.
From S2P Require Import Prelude Text Cron Literal LiteralSafety Ingest IngestSafety.

(** ** Numbers in names *)

Lemma as_bytes_cons c s : as_bytes (String.String c s) = Ascii.byte_of_ascii c :: as_bytes s.
Proof. done. Qed.

Lemma pretty_char x : x < 10 →
  is_digit (Ascii.byte_of_ascii (pretty_N_char x)) = true ∧ digit_value (Ascii.byte_of_ascii (pretty_N_char x)) = Z.of_N x.
Proof.
  intros Hx. assert (x ∈ [0; 1; 2; 3; 4; 5; 6; 7; 8; 9]) as Hin.
  { apply list_elem_of_In. cbn. lia. }
  repeat (apply elem_of_cons in Hin as [->|Hin]; [by vm_compute|]). by apply not_elem_of_nil in Hin.
Qed.

Lemma pretty_go x s :
  ∃ l, as_bytes (pretty_N_go x s) = l ++ as_bytes s ∧ digits_of l ∧ digits_value l = Z.of_N x ∧ (0 < x → l ≠ []).
Proof.
  revert s. induction (N.lt_wf_0 x) as [x _ IH]; intros s. destruct (decide (0 < x)) as [Hx|Hx].
  - rewrite pretty_N_go_step by done.
    destruct (IH (x `div` 10)) with (s := String.String (pretty_N_char (x `mod` 10)) s) as (l & Hl & Hd & Hv & _).
    { apply N.div_lt; lia. }
    assert (x `mod` 10 < 10) as Hm by (apply N.mod_lt; lia).
    destruct (pretty_char _ Hm) as [Hdig Hval]. exists (l ++ [Ascii.byte_of_ascii (pretty_N_char (x `mod` 10))]).
    split_and!.
    + rewrite Hl, as_bytes_cons, <- app_assoc. done.
    + rewrite forallb_app, Hd. cbn. by rewrite Hdig.
    + rewrite digits_value_snoc, Hv, Hval. pose proof (N.div_mod x 10). lia.
    + by destruct l.
  - assert (x = 0) as -> by lia. exists []. by rewrite pretty_N_go_0.
Qed.

Lemma pretty_digits (n : N) : 0 < n →
  digits_of (as_bytes (pretty n)) ∧ digits_value (as_bytes (pretty n)) = Z.of_N n ∧ as_bytes (pretty n) ≠ [].
Proof.
  intros Hn. unfold pretty, pretty_N. case_decide; [lia|].
  destruct (pretty_go n "") as (l & Hl & Hd & Hv & Hne). rewrite Hl, app_nil_r. auto.
Qed.

Lemma strip_prefix_app p s : strip_prefix p (p ++ s) = Some s.
Proof. induction p as [|b p IH]; cbn; [done|]. by rewrite bool_decide_true. Qed.

Lemma vector_storage (d : N) : 0 < d < 2 ^ 31 → storage_type ("vector:" +:+ pretty d) = Some (DVector (Z.of_N d)).
Proof.
  intros Hd. destruct (pretty_digits d) as (Hdig & Hval & Hne); [lia|]. unfold storage_type.
  rewrite !bool_decide_false by done. cbn [orb]. rewrite as_bytes_app, strip_prefix_app. cbn [mbind option_bind].
  unfold parse_int. destruct (as_bytes (pretty d)) as [|b l] eqn:E; [done|].
  assert (split_sign (b :: l) = (false, b :: l)) as ->.
  { cbn in Hdig. bool_facts. cbn. rewrite !bool_decide_false; [done|by intros ->..]. }
  rewrite Hdig, Hval. cbn [negb orb bool_decide]. rewrite bool_decide_false by done. cbn [orb].
  rewrite in_bounds_eq by (unfold i32_min, i32_max; lia). cbn. by case (Z.ltb_spec 0 (Z.of_N d)); [|lia].
Qed.

(** The storage of a kind is the builder's type. *)
Lemma kind_storage_type k : storage_type (kind_storage k) = Some (fill_for k).
Proof. by destruct k. Qed.

Lemma column_kind_name c k : rc_kind c = kind_name k → column_kind c = k.
Proof. intros Hk. unfold column_kind. rewrite Hk. by destruct k. Qed.

(** ** The shape of a rule *)

(** Every name a column answers to. *)
Definition all_names (rule : TableRule) : list string := concat (column_names <$> tr_columns rule).

(** A name no other column of the table has, that the engine reserves for nobody. *)
Definition vector_name_ok (rule : TableRule) (name : string) : Prop :=
  (name ∉ rc_name <$> tr_columns rule) ∧ name ≠ ID ∧ name ≠ EXTRA ∧ name ≠ "" ∧ starts_with_underscore name = false.

Record rule_shape (rule : TableRule) : Prop := {
  sh_table : valid_name (tr_table rule) = true;
  sh_names : NoDup (all_names rule);
  sh_columns c : c ∈ tr_columns rule → column_name (rc_name c) = true ∧ ∃ k, rc_kind c = kind_name k;
  sh_count : (length (tr_columns rule) + 2 ≤ MAX_COLUMNS)%nat;
  sh_vectors : NoDup (em_column <$> tr_embeddings rule);
  sh_vector e : e ∈ tr_embeddings rule → vector_name_ok rule (em_column e) ∧ 0 < em_dimensions e < 2 ^ 31;
}.

(** The key, if the rule names one, is a required column of a kind that hashes. *)
Definition keyed (rule : TableRule) : Prop :=
  ∀ key, tr_primary_key rule = Some key →
    ∃ c, c ∈ tr_columns rule ∧ rc_name c = key ∧ rc_required c = true ∧ kind_keyable (column_kind c) = true.

(** ** The table a rule makes *)

Definition column_field (rule : TableRule) (c : RuleColumn) : Field :=
  mkField (rc_name c) (fill_for (column_kind c)) (negb (bool_decide (rc_name c = rule_key rule))).
Definition vector_field (e : Embedding) : Field := mkField (em_column e) (DVector (Z.of_N (em_dimensions e))) true.

Definition definition_fields (rule : TableRule) : list Field :=
  mkField ID DUtf8 false :: (column_field rule <$> tr_columns rule) ++ (vector_field <$> tr_embeddings rule)
  ++ [mkField EXTRA DUtf8 true].

(** A column of a definition and its field. *)
Definition column_is (c : Column) (f : Field) : Prop :=
  storage_type (co_kind c) = Some (fl_type f) ∧ co_name c = fl_name f ∧ co_nullable c = fl_nullable f.

(** What the engine asks of a field. *)
Definition field_ok (key : string) (f : Field) : Prop :=
  fl_name f ≠ "" ∧ starts_with_underscore (fl_name f) = false ∧ (fl_nullable f = true → fl_name f ≠ key).

Lemma column_name_ok name : column_name name = true →
  name ≠ "" ∧ name ≠ ID ∧ name ≠ EXTRA ∧ starts_with_underscore name = false.
Proof. unfold column_name. intros Hn. bool_facts. by split_and!. Qed.

Section Shape.
Context `{IngestLaws} (rule : TableRule) (Hsh : rule_shape rule).

Lemma definition_columns : Forall2 column_is (sd_columns (definition rule)) (definition_fields rule).
Proof.
  cbn. constructor; [done|]. apply Forall2_app; [|apply Forall2_app].
  - rewrite Forall2_fmap. apply Forall_Forall2_diag, Forall_forall. intros c Hc. split_and!; [|done..].
    apply kind_storage_type.
  - rewrite Forall2_fmap. apply Forall_Forall2_diag, Forall_forall. intros e He. split_and!; [|done..].
    apply vector_storage. by apply (sh_vector _ Hsh).
  - by repeat constructor.
Qed.

Lemma definition_names : fl_name <$> definition_fields rule = ID :: (rc_name <$> tr_columns rule)
  ++ (em_column <$> tr_embeddings rule) ++ [EXTRA].
Proof. cbn. f_equal. rewrite !fmap_app, <- !list_fmap_compose. done. Qed.

Lemma names_of_columns l : sublist (rc_name <$> l) (concat (column_names <$> l)).
Proof.
  induction l as [|c l IH]; cbn; [constructor|]. apply sublist_skip. by apply sublist_inserts_l.
Qed.

Lemma column_names_NoDup : NoDup (rc_name <$> tr_columns rule).
Proof. eapply sublist_NoDup; [apply (sh_names _ Hsh)|apply names_of_columns]. Qed.

Lemma definition_NoDup : NoDup (fl_name <$> definition_fields rule).
Proof.
  rewrite definition_names.
  assert (∀ n, n ∈ rc_name <$> tr_columns rule → n ≠ ID ∧ n ≠ EXTRA) as Hc.
  { intros n (c & -> & Hc)%list_elem_of_fmap. apply (sh_columns _ Hsh) in Hc as [Hc _].
    by apply column_name_ok in Hc as (_ & ? & ? & _). }
  assert (∀ n, n ∈ em_column <$> tr_embeddings rule → n ≠ ID ∧ n ≠ EXTRA ∧ n ∉ rc_name <$> tr_columns rule) as He.
  { intros n (e & -> & He)%list_elem_of_fmap. apply (sh_vector _ Hsh) in He as [(?&?&?&?) _]. done. }
  constructor.
  - rewrite !elem_of_app, list_elem_of_singleton. intros [Hn|[Hn|Hn]]; [by apply Hc in Hn as [? _]|by apply He in Hn as [? _]|done].
  - apply NoDup_app. split_and!; [apply column_names_NoDup| |].
    + intros n Hn. rewrite elem_of_app, list_elem_of_singleton. intros [Hn'| ->]; [by apply He in Hn' as (_ & _ & ?)|by apply Hc in Hn as [_ ?]].
    + apply NoDup_app. split_and!; [apply (sh_vectors _ Hsh)| |apply NoDup_singleton].
      intros n Hn ->%list_elem_of_singleton. by apply He in Hn as (_ & ? & _).
Qed.

Lemma rule_key_cases : keyed rule →
  rule_key rule = ID ∧ tr_primary_key rule = None
  ∨ ∃ c, tr_primary_key rule = Some (rc_name c) ∧ c ∈ tr_columns rule ∧ rule_key rule = rc_name c.
Proof.
  intros Hk. unfold rule_key. destruct (tr_primary_key rule) as [key|] eqn:E; [right|by left].
  destruct (Hk _ E) as (c & Hc & <- & _). by exists c.
Qed.

Lemma definition_fields_ok : keyed rule → ∀ f, f ∈ definition_fields rule → field_ok (rule_key rule) f.
Proof.
  intros Hk f Hf. unfold definition_fields in Hf. rewrite elem_of_cons, !elem_of_app, list_elem_of_singleton in Hf.
  destruct Hf as [->|[(c & -> & Hc)%list_elem_of_fmap|[(e & -> & He)%list_elem_of_fmap| ->]]].
  - by split_and!.
  - pose proof (sh_columns _ Hsh _ Hc) as [Hn _]. apply column_name_ok in Hn as (? & ? & ? & ?). split_and!; [done..|].
    cbn. intros Hb. by bool_facts.
  - pose proof (sh_vector _ Hsh _ He) as [(Hn & ? & ? & ? & ?) _]. split_and!; [done..|]. cbn. intros _ Heq.
    destruct (rule_key_cases Hk) as [[Hid _]|(c & _ & Hc & Hck)]; [congruence|].
    apply Hn. rewrite Heq, Hck. by apply list_elem_of_fmap_2.
  - split_and!; [done..|]. cbn. intros _ Heq.
    destruct (rule_key_cases Hk) as [[Hid _]|(c & _ & Hc & Hck)]; [by rewrite Hid in Heq|].
    pose proof (sh_columns _ Hsh _ Hc) as [Hn _]. apply column_name_ok in Hn as (_ & _ & Hx & _). congruence.
Qed.

(** The loop of [table_config] over good columns. *)
Lemma config_columns key cols fields seen acc :
  Forall2 column_is cols fields → (∀ f, f ∈ fields → field_ok key f) → NoDup (fl_name <$> fields) →
  (∀ f, f ∈ fields → fl_name f ∉ seen) →
  ∃ seen', try_fold (config_column [key]) (seen, acc) cols = Ok (seen', acc ++ fields).
Proof.
  intros Hcols. revert seen acc. induction Hcols as [|[name kind nullable] f cols fields (Ht & Hn & Hnull) _ IH];
    intros seen acc Hok Hnd Hseen; cbn [try_fold].
  { exists seen. by rewrite app_nil_r. }
  cbn in Ht, Hn, Hnull. subst name nullable. destruct (Hok f) as (Hne & Hus & Hkey); [by left|].
  unfold config_column at 1; cbn. rewrite bool_decide_false by done.
  rewrite bool_decide_false by (apply Hseen; by left). cbn [orb]. rewrite Hus, Ht. cbn [ok_or mbind result_bind].
  assert (fl_nullable f && bool_decide (fl_name f ∈ [key]) = false) as ->.
  { destruct (fl_nullable f); [|done]. cbn. rewrite bool_decide_false; [done|].
    intros ?%list_elem_of_singleton. by apply Hkey. }
  apply NoDup_cons in Hnd as [Hnot Hnd].
  destruct (IH ({[fl_name f]} ∪ seen) (acc ++ [f])) as [seen' IHf]; [intros; apply Hok; by right|done| |].
  { intros g Hg. rewrite elem_of_union, elem_of_singleton. intros [Heq|Hin].
    - apply Hnot. rewrite <- Heq. by apply list_elem_of_fmap_2.
    - by eapply Hseen; [right|]. }
  exists seen'. destruct f as [? ? ?]. cbn in *. rewrite <- app_assoc in IHf. exact IHf.
Qed.

Lemma field_with_name_in (schema : list Field) f :
  NoDup (fl_name <$> schema) → f ∈ schema → field_with_name schema (fl_name f) = Some f.
Proof.
  unfold field_with_name. induction schema as [|g schema IH]; [by intros _ ?%not_elem_of_nil|].
  intros [Hnot Hnd]%NoDup_cons [->|Hf]%elem_of_cons.
  - by rewrite filter_cons_True.
  - rewrite filter_cons_False; [by apply IH|]. intros Heq. apply Hnot. rewrite Heq. by apply list_elem_of_fmap_2.
Qed.

Definition full_schema : list Field := definition_fields rule ++ [mkField HIDDEN_SEQ DUInt64 false].

Lemma definition_visible f : f ∈ definition_fields rule → starts_with_underscore (fl_name f) = false.
Proof.
  unfold definition_fields. rewrite elem_of_cons, !elem_of_app, list_elem_of_singleton.
  intros [->|[(c & -> & Hc)%list_elem_of_fmap|[(e & -> & He)%list_elem_of_fmap| ->]]]; [done| | |done].
  - apply (sh_columns _ Hsh) in Hc as [Hn _]. by apply column_name_ok in Hn as (_ & _ & _ & ?).
  - by apply (sh_vector _ Hsh) in He as [(_ & _ & _ & _ & ?) _].
Qed.

Lemma full_NoDup : NoDup (fl_name <$> full_schema).
Proof.
  unfold full_schema. rewrite fmap_app. apply NoDup_app. split_and!; [apply definition_NoDup| |apply NoDup_singleton].
  intros n (f & -> & Hf)%list_elem_of_fmap Heq%list_elem_of_singleton.
  apply definition_visible in Hf. cbn in Heq. rewrite Heq in Hf. done.
Qed.

(** The definition of a keyed rule is accepted. *)
Lemma definition_accepted : keyed rule →
  ∃ cfg, table_config (definition rule) = Ok cfg ∧ tc_schema cfg = full_schema ∧ tc_primary_keys cfg = [rule_key rule].
Proof.
  intros Hk. unfold table_config. cbn [sd_schema definition sd_primary_key].
  destruct (config_columns (rule_key rule) (sd_columns (definition rule)) (definition_fields rule) ∅ [])
    as [seen ->]; [apply definition_columns|by apply definition_fields_ok|apply definition_NoDup|set_solver|].
  cbn [mbind result_bind app]. rewrite bool_decide_false by (cbn; lia).
  rewrite bool_decide_true by (cbn; by rewrite union_empty_r_L, size_singleton). cbn [negb orb].
  change (sd_name (definition rule)) with (tr_table rule). unfold table_config_new. rewrite (sh_table _ Hsh). cbn [negb].
  fold full_schema. rewrite bool_decide_false by done. cbn [orb existsb].
  assert (∃ f, f ∈ full_schema ∧ fl_name f = rule_key rule) as (f & Hf & Hfn).
  { destruct (rule_key_cases Hk) as [[-> _]|(c & _ & Hc & ->)].
    - exists (mkField ID DUtf8 false). split; [by left|done].
    - exists (column_field rule c). split; [|done]. right. apply elem_of_app. left. apply elem_of_app. left.
      by apply list_elem_of_fmap_2. }
  rewrite <- Hfn, (field_with_name_in _ _ full_NoDup Hf). rewrite bool_decide_true by by eexists. cbn.
  unfold with_vector_indexes. rewrite (proj2 (try_fold_all _ _)).
  { eexists. split; [reflexivity|done]. }
  intros spec (e & -> & He)%list_elem_of_fmap. unfold check_vector_index. cbn [tc_schema vi_column vi_metric].
  assert (field_with_name full_schema (em_column e) = Some (vector_field e)) as Hw.
  2:{ unfold full_schema in Hw. cbn in Hw. rewrite Hw. cbn. by rewrite cosine_known. }
  apply (field_with_name_in full_schema (vector_field e) full_NoDup). right. apply elem_of_app. left. apply elem_of_app. right. apply elem_of_app. left. by apply list_elem_of_fmap_2.
Qed.

(** A key that is a column, or the id, is not the hidden one. *)
Lemma keyed_visible : keyed rule → rule_key rule ≠ HIDDEN_PK.
Proof.
  intros Hk Heq. destruct (rule_key_cases Hk) as [[Hid _]|(c & _ & Hc & Hck)]; [by rewrite Hid in Heq|].
  pose proof (sh_columns _ Hsh _ Hc) as [Hcn _]. apply column_name_ok in Hcn as (_ & _ & _ & Hus).
  rewrite <- Hck, Heq in Hus. done.
Qed.

(** The columns an accepted definition makes. *)
Lemma config_columns_Ok key cols fields seen acc r :
  Forall2 column_is cols fields → try_fold (config_column key) (seen, acc) cols = Ok r → r.2 = acc ++ fields.
Proof.
  intros Hcols. revert seen acc. induction Hcols as [|[name kind nullable] f cols fields (Ht & Hn & Hnull) _ IH];
    intros seen acc; cbn [try_fold]; [intros [= <-]; by rewrite app_nil_r|].
  cbn in Ht, Hn, Hnull. subst name nullable. unfold config_column at 1; cbn. destruct (_ || _); [done|].
  destruct (starts_with_underscore _); [done|]. rewrite Ht. cbn. destruct (_ && _); [done|].
  intros ->%IH. rewrite <- app_assoc. by destruct f.
Qed.

(** Any definition of a rule that the engine accepts has the columns of the rule, and a key the
    engine does not compute. *)
Lemma accepted_schema cfg :
  table_config (definition rule) = Ok cfg → tc_schema cfg = full_schema ∧ rule_key rule ≠ HIDDEN_PK.
Proof.
  unfold table_config. cbn [sd_schema definition]. intros (c1 & Hc & Hcfg)%bind_Ok.
  apply bind_Ok in Hc as ([seen fields] & Hf & Hc).
  apply (config_columns_Ok _ _ _ _ _ _ definition_columns) in Hf. cbn [app snd] in Hf. subst fields.
  destruct (_ || _); [done|]. fold full_schema in Hc. unfold table_config_new in Hc. destruct (negb (valid_name _)); [done|].
  destruct (_ || _) eqn:Hkey in Hc; [done|]. injection Hc as <-. apply orb_false_elim in Hkey as [_ Hkey].
  split.
  - unfold with_vector_indexes, with_text_indexes in Hcfg. apply bind_Ok in Hcfg as (c2 & (u & _ & [= <-])%bind_Ok & Hcfg).
    by apply bind_Ok in Hcfg as (u' & _ & [= <-]).
  - intros Heq. cbn [definition sd_primary_key existsb] in Hkey. rewrite Heq in Hkey.
    rewrite bool_decide_false in Hkey; [done|]. intros [f Hf]. unfold field_with_name in Hf.
    apply head_Some_elem_of, list_elem_of_filter in Hf as [Hn Hin]. unfold full_schema in Hin.
    apply elem_of_app in Hin as [Hin|Hin%list_elem_of_singleton]; [|by subst].
    apply definition_visible in Hin. by rewrite Hn in Hin.
Qed.

End Shape.

(** ** The batch of records that have their key *)

Section Batch.
Context `{IngestLaws} (rule : TableRule) (Hsh : rule_shape rule) (Hkey : keyed rule).

(** What a record gives a column. *)
Definition record_value (a : Arrived) (c : RuleColumn) : option Value :=
  fields ← ar_fields a; column_value fields c.

Definition cells (records : list Arrived) (c : RuleColumn) : list (option Cell) :=
  (λ a, CValue <$> record_value a c) <$> records.

(** An object that has the key of the rule. *)
Definition placeable (a : Arrived) : Prop :=
  is_Some (ar_fields a) ∧ ∀ c, c ∈ tr_columns rule → tr_primary_key rule = Some (rc_name c) → is_Some (record_value a c).

(** A builder keeps every value of its kind. *)
Lemma fill_keeps k l v : convert k l = Some v → fill_push (fill_for k) (Some v) = Some (CValue v).
Proof.
  intros Hc. destruct k, l; cbn in Hc; simplify_eq; try done;
    repeat match goal with
    | Hc : _ <$> ?m = Some _ |- _ => apply fmap_Some in Hc as (? & _ & ->)
    end; done.
Qed.

Lemma record_value_kept a c :
  fill_push (fill_for (column_kind c)) (record_value a c) = CValue <$> record_value a c.
Proof.
  unfold record_value. destruct (ar_fields a) as [fields|]; cbn; [|by destruct (fill_for _)].
  unfold column_value. destruct (find_field _ _) as [[n l]|]; cbn; [|by destruct (fill_for _)].
  destruct (convert (column_kind c) l) as [v|] eqn:E; cbn; [by apply fill_keeps in E|by destruct (fill_for _)].
Qed.

Lemma row_values a : is_Some (ar_fields a) → (row rule a).1.1 = record_value a <$> tr_columns rule.
Proof.
  intros [fields Hf]. unfold row, record_value. rewrite Hf.
  pose proof (row_parts_spec rule fields) as Hs. destruct (row_parts rule fields) as [values extra]. by destruct Hs as [-> _].
Qed.

Lemma zip_with_fmap_same {A B C D} (f : B → C → D) (g : A → B) (h : A → C) l :
  zip_with f (g <$> l) (h <$> l) = (λ x, f (g x) (h x)) <$> l.
Proof. induction l as [|x l IH]; cbn; [done|]. by rewrite <- IH. Qed.

Lemma append_vectors n es ls (found : list (option (list spec_float))) :
  Forall2 (λ e a, ay_type a = DVector (as_i32 (em_dimensions e)) ∧ length (ay_cells a) = n) es ls →
  Forall2 (λ _ _, True) ls found →
  Forall2 (λ e a, ay_type a = DVector (as_i32 (em_dimensions e)) ∧ length (ay_cells a) = (n + 1)%nat) es
    (zip_with (λ list vector, append_cell list (CVector <$> vector)) ls found).
Proof.
  intros Hl. revert found. induction Hl as [|e l es ls [Ht Hn] _ IH]; intros found Hz; inversion Hz; subst; cbn; [constructor|].
  constructor; [|by apply IH]. cbn. split; [done|]. by rewrite length_app.
Qed.

(** The builders after the loop. *)
Lemma batch_builders vectors records : Forall (λ a, is_Some (ar_fields a)) records →
  let b := foldl (batch_row rule vectors) (empty_builders rule) records in
  bs_ids b = (λ a, Some (CValue (VText (as_bytes (ar_id a))))) <$> records
  ∧ bs_columns b = (λ c, mkArray (fill_for (column_kind c)) (cells records c)) <$> tr_columns rule
  ∧ Forall2 (λ e a, ay_type a = DVector (as_i32 (em_dimensions e)) ∧ length (ay_cells a) = length records)
      (tr_embeddings rule) (bs_lists b)
  ∧ length (bs_extras b) = length records.
Proof.
  cbn zeta. induction records as [|a records IH] using rev_ind; intros Hobj.
  { split_and!; [done|done| |done]. cbn. rewrite Forall2_fmap_r. apply Forall_Forall2_diag, Forall_forall. by intros. }
  apply Forall_app in Hobj as [Hobj Ha]. rewrite Forall_singleton in Ha. destruct (IH Hobj) as (Hids & Hcols & Hlists & Hextras).
  rewrite foldl_app. cbn [foldl]. set (b := foldl _ _ records) in *. unfold batch_row.
  pose proof (row_values a Ha) as Hrow. destruct (row rule a) as [[values kept] extra]. cbn in Hrow. subst values. cbn.
  split_and!.
  - by rewrite Hids, fmap_app.
  - rewrite Hcols, zip_with_fmap_same. apply list_fmap_ext. intros i c _. unfold append_cell. cbn. f_equal.
    unfold cells. rewrite fmap_app. cbn. by rewrite record_value_kept.
  - rewrite length_app. cbn.
    assert (Forall2 (λ _ _, True) (bs_lists b)
      (zip_with (row_vector vectors) (tr_embeddings rule) (embeddable rule (record_value a <$> tr_columns rule)))) as Hz.
    { apply Forall2_same_length_lookup_2.
      - rewrite length_zip_with. unfold embeddable. rewrite length_fmap. apply Forall2_length in Hlists. lia.
      - done. }
    by apply append_vectors.
  - rewrite !length_app, Hextras. done.
Qed.

Lemma as_i32_small d : 0 < d < 2 ^ 31 → as_i32 d = Z.of_N d.
Proof. intros Hd. unfold as_i32. rewrite Z.mod_small by lia. lia. Qed.

(** The arrays of the batch fit the fields of the table. *)
Lemma batch_arrays_fit vectors records : Forall placeable records →
  let b := foldl (batch_row rule vectors) (empty_builders rule) records in
  Forall2 (array_fits (length records)) (definition_fields rule)
    (mkArray DUtf8 (bs_ids b) :: bs_columns b ++ bs_lists b ++ [mkArray DUtf8 (bs_extras b)]).
Proof.
  intros Hp. destruct (batch_builders vectors records) as (Hids & Hcols & Hlists & Hextras).
  { eapply Forall_impl; [exact Hp|]. by intros a [? _]. }
  cbn zeta. set (b := foldl _ _ records) in *. constructor.
  { split_and!; [done|by cbn; rewrite Hids, length_fmap|]. intros _. cbn. rewrite Hids, Forall_fmap.
    apply Forall_forall. intros a _. by eexists. }
  apply Forall2_app; [|apply Forall2_app].
  - rewrite Hcols, Forall2_fmap. apply Forall_Forall2_diag, Forall_forall. intros c Hc.
    split_and!; [done|by cbn; unfold cells; rewrite length_fmap|]. cbn. intros Hb. bool_facts.
    unfold cells. rewrite Forall_fmap. eapply Forall_impl; [exact Hp|]. intros a [_ Ha]. cbn.
    rewrite fmap_is_Some. apply Ha; [done|].
    destruct (rule_key_cases rule Hkey) as [[Hid _]|(c' & Hpk & _ & Hck)]; [|congruence].
    pose proof (sh_columns _ Hsh _ Hc) as [Hn _]. apply column_name_ok in Hn as (_ & Hn & _). congruence.
  - rewrite Forall2_fmap_l. apply Forall2_same_length_lookup_2; [by eapply Forall2_length|].
    intros i e l He Hl. destruct (Forall2_lookup_lr _ _ _ _ _ _ Hlists He Hl) as [Ht Hn].
    split_and!; [|done..]. cbn. rewrite Ht, as_i32_small; [done|]. by eapply (sh_vector _ Hsh), list_elem_of_lookup_2.
  - repeat constructor; done.
Qed.

End Batch.

(** What a batch of placeable records is, and that the table takes it. *)
Section Conform.
Context `{IngestLaws} (rule : TableRule) (Hsh : rule_shape rule).

Lemma batch_fields : try_map batch_field (sd_columns (definition rule)) = Ok (definition_fields rule).
Proof.
  apply try_map_Ok. eapply Forall2_impl; [by apply definition_columns|].
  intros [name kind nullable] [fname ft fnull] (Ht & Hn & Hnull). unfold batch_field. cbn in *. rewrite Ht. cbn. congruence.
Qed.

Lemma batch_ok vectors records : keyed rule → Forall (placeable rule) records →
  ∃ built, batch rule records vectors = Ok built
    ∧ rb_fields (bu_batch built) = definition_fields rule
    ∧ Forall2 (array_fits (length records)) (definition_fields rule) (rb_columns (bu_batch built))
    ∧ num_rows (bu_batch built) = length records
    ∧ ∀ i c, tr_columns rule !! i = Some c →
        rb_columns (bu_batch built) !! S i = Some (mkArray (fill_for (column_kind c)) (cells records c)).
Proof.
  intros Hkey Hp. pose proof (batch_arrays_fit rule Hsh Hkey vectors records Hp) as Hfit.
  destruct (batch_builders rule vectors records) as (Hids & Hcols & _).
  { eapply Forall_impl; [exact Hp|]. by intros a [? _]. }
  cbn zeta in *. unfold batch. rewrite batch_fields. cbn [mbind result_bind].
  rewrite (try_new_accepts (length records)); [|done|exact Hfit]. cbn. eexists. split; [reflexivity|].
  cbn. split_and!; [done|done|by rewrite Hids, length_fmap|].
  intros i c Hi. transitivity (bs_columns (foldl (batch_row rule vectors) (empty_builders rule) records) !! i).
  - apply lookup_app_l. rewrite Hcols, length_fmap. by eapply lookup_lt_Some.
  - by rewrite Hcols, list_lookup_fmap, Hi.
Qed.

Lemma find_index_name (fields : list Field) i f :
  NoDup (fl_name <$> fields) → fields !! i = Some f → find_index (λ g, bool_decide (fl_name g = fl_name f)) fields = Some i.
Proof.
  revert i. induction fields as [|g fields IH]; intros [|i]; cbn; try done.
  - intros _ [= ->]. by rewrite bool_decide_true.
  - intros [Hnot Hnd]%NoDup_cons Hi. rewrite bool_decide_false, (IH i Hnd Hi); [done|].
    intros Heq. apply Hnot. rewrite Heq. by eapply list_elem_of_fmap_2, list_elem_of_lookup_2.
Qed.

Lemma visible_not_hidden name : starts_with_underscore name = false → hidden name = false.
Proof.
  intros Hn. unfold hidden. apply orb_false_iff. split; apply bool_decide_eq_false; by intros ->.
Qed.

Lemma conform_fields b n :
  rb_fields b = definition_fields rule → Forall2 (array_fits n) (definition_fields rule) (rb_columns b) →
  try_map (conform_field b) (full_schema rule) = Ok ((Some <$> rb_columns b) ++ [None]).
Proof.
  intros Hf Hfit. apply try_map_Ok. apply Forall2_app; [|by repeat constructor].
  rewrite Forall2_fmap_r. apply Forall2_same_length_lookup_2; [by eapply Forall2_length|].
  intros i f a Hi Ha. destruct (Forall2_lookup_lr _ _ _ _ _ _ Hfit Hi Ha) as (Ht & _ & Hnull).
  unfold conform_field. rewrite visible_not_hidden by (eapply definition_visible, list_elem_of_lookup_2; done).
  rewrite Hf, (find_index_name _ i) by (done || by apply definition_NoDup). cbn [ok_or mbind result_bind].
  rewrite Ha. cbn [ok_or mbind result_bind]. rewrite bool_decide_true by done. cbn [negb].
  destruct (fl_nullable f); [done|]. cbn [negb andb]. destruct (existsb _ _) eqn:E; [|done].
  apply existsb_exists in E as (c & Hc & Hb). bool_facts. exfalso. apply Hb.
  specialize (Hnull eq_refl). rewrite Forall_forall in Hnull. by apply Hnull, list_elem_of_In.
Qed.

Lemma omap_Some_None {A} (l : list A) : omap id ((Some <$> l) ++ [None]) = l.
Proof. induction l as [|x l IH]; cbn; [done|]. by rewrite IH. Qed.

(** The table takes the batch, and gives the rows their arrival numbers. *)
Lemma batch_conforms b n first :
  rule_key rule ≠ HIDDEN_PK → rb_fields b = definition_fields rule → Forall2 (array_fits n) (definition_fields rule) (rb_columns b) →
  num_rows b = n → first + N.of_nat n ≤ u64_max →
  conform_batch (definition rule) (full_schema rule) b first
  = Ok (mkRecordBatch (full_schema rule) (rb_columns b ++ [sequence_column first (N.of_nat n)])).
Proof.
  intros Hkey Hf Hfit Hn Hfirst. unfold conform_batch. rewrite (conform_fields b n Hf Hfit). cbn [mbind result_bind].
  rewrite omap_Some_None, bool_decide_true by done. cbn [negb].
  assert (hidden_pk (definition rule) = false) as ->.
  { unfold hidden_pk. cbn. apply bool_decide_eq_false. by intros [= Hk]. }
  cbn [mbind result_bind]. rewrite Hn, (try_new_accepts n); [done|done|].
  unfold full_schema. apply Forall2_app; [done|]. constructor; [|constructor]. split_and!; [done| |].
  - unfold sequence_column. cbn. rewrite length_fmap, length_seq. unfold saturating_sub, saturating_add.
    rewrite N.min_l by lia. lia.
  - intros _. unfold sequence_column. cbn. rewrite Forall_fmap. apply Forall_forall. intros ? _. by eexists.
Qed.

End Conform.
