(* ===== verification/IngestRules.v ===== *)
(** * IngestRules: what is decided about a table

    [crates/walleye-node/src/ingest.rs], the part that decides: where a new source goes ([route]),
    what a new table looks like ([design]), what a batch changes about a table ([evolve]) and which
    texts carry vectors ([plan_embeddings], with [prose] of [ingest/embed.rs]).  What is not decided
    by code is asked: the judge of [crates/walleye-typesafe/src/lib.rs], the engine and the embedding
    model answer a program ([Programs]), and any answer is possible. *)

From Stdlib Require Import SpecFloat.
From stdpp Require Import pretty.
From S2P Require Import Prelude Text Programs Cron Literal Ingest.

(** ** Constants *)

Definition MANY_FIELDS : nat := 24.
Definition SHOWN : nat := 5.
Definition NEW_FIELD : string := "__new_field__".

(** 0.6 and 0.5 as [f64]. *)
Definition CONFIDENT : spec_float := decimal_to_float false 6 (-1).
Definition half : spec_float := decimal_to_float false 5 (-1).
Definition two : spec_float := decimal_to_float false 2 0.

(** ** Questions and answers *)

Inductive Question :=
| QChoice (instructions : string) (criteria : gmap string string)
| QScore (instructions : string) (criteria : list string)
| QNoul (instructions : string).

Definition collect {V} (entries : list (string * V)) : gmap string V :=
  foldl (λ m e, <[e.1 := e.2]> m) ∅ entries.

Definition choice (instructions : string) (criteria : list (string * string)) : Question :=
  QChoice instructions (collect criteria).

Inductive Answer :=
| AChoice (choice : string) (confidence : spec_float) (probabilities : gmap string spec_float)
| AScore (score confidence : spec_float) (legend : gmap string string) (probabilities : gmap string spec_float)
| ANoul (noul : spec_float).

(** [score.round() as i64]: half away from zero, saturating. *)
Definition round_i64 (f : spec_float) : Z :=
  (match f with
  | S754_finite s m e =>
    let r := if 0 <=? e then Z.pos m * 2 ^ e else (2 * Z.pos m + 2 ^ (- e)) / (2 * 2 ^ (- e)) in
    Z.max i64_min (Z.min i64_max (if s then - r else r))
  | S754_infinity s => if s then i64_min else i64_max
  | _ => 0
  end)%Z.

(** [Answer::label]. *)
Definition answer_label (a : Answer) : option string :=
  match a with
  | AChoice c _ _ => Some c
  | AScore score _ legend _ => legend !! (pretty (round_i64 score) : string)
  | ANoul _ => None
  end.

(** [Answer::confidence]. *)
Definition answer_confidence (a : Answer) : spec_float :=
  match a with
  | AChoice _ c _ | AScore _ c _ _ => c
  | ANoul noul => SFmul 53 1024 (SFabs (SFsub 53 1024 noul half)) two
  end.

(** [Answer::value]. *)
Definition answer_value (a : Answer) : option spec_float :=
  match a with
  | AScore score _ _ _ => Some score
  | ANoul noul => Some noul
  | AChoice _ _ _ => None
  end.

(** [chosen]. *)
Definition chosen (answers : gmap string Answer) (key : string) : option (string * spec_float) :=
  answer ← answers !! key;
  label ← answer_label answer;
  if SFleb CONFIDENT (answer_confidence answer) then Some (label, answer_confidence answer) else None.

(** [decided]. *)
Definition decided (answers : gmap string Answer) (key : string) : option (bool * spec_float) :=
  answer ← answers !! key;
  value ← answer_value answer;
  if SFleb CONFIDENT (answer_confidence answer) then Some (SFleb half value, answer_confidence answer) else None.

(** [by_judge] and [by_rule]. *)
Definition by_judge (what chose : string) (confidence : spec_float) : Change := mkChange what chose "jev" (Some confidence).
Definition by_rule (what chose : string) : Change := mkChange what chose "rule" None.

(** [bool::to_string]. *)
Definition bool_string (b : bool) : string := if b then "true" else "false".

(** [f64::total_cmp], where there is one value that is not a number. *)
Definition total_key (f : spec_float) : Z :=
  match f with
  | S754_infinity true => -3
  | S754_finite true _ _ => -2
  | S754_zero true => -1
  | S754_zero false => 0
  | S754_finite false _ _ => 2
  | S754_infinity false => 3
  | S754_nan => 4
  end.

Definition total_leb (a b : spec_float) : bool :=
  (match total_key a, total_key b with
  | 2, 2 | -2, -2 => SFleb a b
  | x, y => x <=? y
  end)%Z.

(** ** What the programs ask *)

Record Route := mkRoute { ro_source : string; ro_table : string }.

Record BronzeRow := mkBronzeRow { br_id : string; br_source : string; br_received_at : N; br_record : str }.
Record QuarantineRow := mkQuarantineRow {
  qr_id : string; qr_source : string; qr_table_name : string; qr_reason : string; qr_record : str }.

(** A row of bronze as a query returns it. *)
Record StoredRow := mkStoredRow { sr_id : string; sr_source : string; sr_record : str }.

Inductive IngestReq : Type → Type :=
(** the judge; a judge that is not configured or fails answers nothing *)
| Judge (state : string) (questions : gmap string Question) : IngestReq (gmap string Answer)
(** the embedding model: its name if one is configured, the width of its vectors, vectors *)
| ConfiguredModel : IngestReq (option string)
| Dimensions : IngestReq (result string N)
| Embed (texts : list string) : IngestReq (result string (list (list spec_float)))
(** the objects of the store *)
| LoadRoute (source : string) : IngestReq (result Failure (option Route))
| LoadRule (table : string) : IngestReq (result Failure (option TableRule))
| SaveRoute (route : Route) : IngestReq (result Failure unit)
| SaveRule (rule : TableRule) : IngestReq (result Failure unit)
| EveryRule : IngestReq (result Failure (list TableRule))
(** the engine *)
| TableNames : IngestReq (result Failure (list string))
| Define (d : StreamDefinition) (exist_ok : bool) : IngestReq (result Failure unit)
| DropTable (table : string) : IngestReq (result Failure unit)
| Append (table : string) (b : RecordBatch) : IngestReq (result Failure N)
| WriteBronze (rows : list BronzeRow) : IngestReq (result Failure unit)
| WriteQuarantine (rows : list QuarantineRow) : IngestReq (result Failure unit)
| HeldValues (table column : string) : IngestReq (option (list string))
| StoredVectors (table source column : string) : IngestReq (option (list (string * list spec_float)))
| MissingVectors (rule : TableRule) : IngestReq (option (list string))
| BronzeById (ids : list string) : IngestReq (option (list StoredRow))
| BronzeOf (sources : list string) (table : string) : IngestReq (result Failure (list StoredRow))
(** the clock and the locks of [State] *)
| Now : IngestReq N
| LockSource (source : string) : IngestReq unit
| UnlockSource (source : string) : IngestReq unit
| LockTable (table : string) : IngestReq unit
| UnlockTable (table : string) : IngestReq unit.

Abbreviation Ingesting := (Prog IngestReq Failure).

(** [?] on a computation that asks nothing. *)
Definition returns {A} (r : result Failure A) : Ingesting A := PReturn r.

(** A [for] loop whose body awaits. *)
Fixpoint ask_fold {S A} (f : S → A → Ingesting S) (s : S) (l : list A) : Ingesting S :=
  match l with
  | [] => returns (Ok s)
  | x :: l => s' ← f s x; ask_fold f s' l
  end.

(** [ask]. *)
Definition ask_judge (state : string) (questions : gmap string Question) : Ingesting (gmap string Answer) :=
  if bool_decide (questions = ∅) then returns (Ok ∅) else ask (Judge state questions).

(** ** Texts *)

Definition dq : string := String.String (Ascii.ascii_of_nat 34) "".
Definition nl : string := String.String (Ascii.ascii_of_nat 10) "".
Definition quoted (s : string) : string := dq +:+ s +:+ dq.
Definition text_of (s : str) : string := String.string_of_list_byte s.

(** [Kind::meaning]. *)
Definition kind_meaning (k : Kind) : string :=
  match k with
  | KBoolean => "a true or false flag"
  | KInt64 => "a whole number that is counted or compared, such as a quantity or a count"
  | KFloat64 => "a measurement where tiny rounding does not matter, such as a temperature, a ratio or a score"
  | KDecimal => "an exact decimal amount that must never be rounded, such as money or a price"
  | KTimestampIso => "a moment in time written out as a date or date and time"
  | KTimestampSeconds => "a moment in time given as seconds since 1970"
  | KTimestampMillis => "a moment in time given as milliseconds since 1970"
  | KTimestampMicros => "a moment in time given as microseconds since 1970"
  | KString => "text, or an identifier or code that only looks like a number - a zip code, a "
      +:+ "phone number, an account number - where leading zeros matter and arithmetic means nothing"
  | KJson => "a nested object or list, kept whole"
  end.

Section Rules.
Context `{IngestHost}.

Abbreviation Record_ := (gmap string Literal).

Definition sample_text (l : Literal) : string := text_of (literal_sample l).

(** One record in [describe]. *)
Definition shown_record (r : Record_) : string :=
  "{" +:+ String.concat ", " ((λ e, text_of (json_write_string (as_bytes e.1)) +:+ ": " +:+ sample_text e.2) <$> sbtree_entries r)
  +:+ "}" +:+ nl.

(** The statistics of [describe]: how often a field appears, and a few of its values. *)
Definition count_field (fields : gmap string (nat * list string)) (e : string * Literal) : gmap string (nat * list string) :=
  let '(count, examples) := default (0%nat, []) (fields !! e.1) in
  let sample := sample_text e.2 in
  <[e.1 := (S count, if (length examples <? 4)%nat && negb (is_null e.2) && negb (bool_decide (sample ∈ examples))
                     then examples ++ [sample] else examples)]> fields.

(** [describe]. *)
Definition describe (source : string) (records : list Record_) : string :=
  "Records arriving on the stream " +:+ quoted source +:+ ". " +:+ pretty (length records)
  +:+ " of them, the first few in full:" +:+ nl
  +:+ String.concat "" (shown_record <$> take SHOWN records)
  +:+ nl +:+ "Every field, how many records have it, and example values:" +:+ nl
  +:+ String.concat ""
        ((λ e, "- " +:+ e.1 +:+ ": in " +:+ pretty e.2.1 +:+ " of " +:+ pretty (length records) +:+ "; "
               +:+ String.concat ", " e.2.2 +:+ nl)
         <$> sbtree_entries (foldl count_field ∅ (concat (sbtree_entries <$> records)))).

(** [type_question]. *)
Definition type_question (field : string) (options : list Kind) : Question :=
  choice ("What does the field " +:+ quoted field +:+ " hold? Choose how it should be stored. Every option "
          +:+ "offered is one all of its values fit.")
    ((λ k, (kind_name k, kind_meaning k)) <$> options).

(** ** Fields of a batch *)

(** The fields in the order they appear, with their values. *)
Record Seen := mkSeen { se_order : list string; se_values : gmap string (list Literal) }.

Definition see (s : Seen) (e : string * Literal) : Seen :=
  mkSeen (if bool_decide (is_Some (se_values s !! e.1)) then se_order s else se_order s ++ [e.1])
    (<[e.1 := default [] (se_values s !! e.1) ++ [e.2]]> (se_values s)).

(** [values[key]]. *)
Definition values_of (s : Seen) (key : string) : list Literal := default [] (se_values s !! key).

Definition see_all (entries : list (string * Literal)) : Seen := foldl see (mkSeen [] ∅) entries.

(** How many records have the field. *)
Definition present (records : list Record_) (key : string) : nat :=
  length (filter (λ r : Record_, is_Some (r !! key)) records).

(** A choice among the kinds that fit: [chosen(..).and_then(..)]. *)
Definition chosen_kind (answers : gmap string Answer) (key : string) (options : list Kind) : option (Kind * spec_float) :=
  '(name, confidence) ← chosen answers key;
  kind ← kind_from_name name;
  if bool_decide (kind ∈ options) then Some (kind, confidence) else None.

(** The kind of a new column, and the change that records it. *)
Definition pick_kind (answers : gmap string Answer) (question key : string) (options : list Kind) : Kind * list Change :=
  match options with
  | [kind] => (kind, [])
  | _ =>
    match chosen_kind answers question options with
    | Some (kind, confidence) => (kind, [by_judge ("type of " +:+ key) (kind_name kind) confidence])
    | None => (lossless options, [by_rule ("type of " +:+ key) (kind_name (lossless options))])
    end
  end.

Definition at_limit (key : string) : Change :=
  by_rule ("column " +:+ key) "kept in the catch-all: the table is at its column limit".

(** ** A new table *)

(** [while taken { name = base_n }], with as much fuel as there are names to avoid. *)
Fixpoint fresh_name (fuel : nat) (taken : string → bool) (base name : string) (n : N) : string :=
  match fuel with
  | O => name
  | S fuel => if taken name then fresh_name fuel taken base (base +:+ "_" +:+ pretty n) (n + 1) else name
  end.

Definition name_taken (taken : list string) (name : string) : bool :=
  bool_decide (name ∈ taken) || bool_decide (name = BRONZE) || bool_decide (name = QUARANTINE).

Definition add_name (taken : list string) (names : list string) (base : string) : list string :=
  let name := fresh_name (length taken + 3) (name_taken taken) base base 2 in
  if bool_decide (name ∈ names) then names else names ++ [name].

Definition type_fields : list string := ["type"; "kind"; "event"; "event_type"; "object"; "entity"; "resource"].

(** The name a field that is the same text in every record gives. *)
Definition field_table_name (records : list Record_) (seen : Seen) (key : string) : option string :=
  values ← se_values seen !! key;
  let texts := remove_dups (omap (λ l, match l with LText t => Some t | _ => None end) values) in
  match texts with
  | [t] => if bool_decide (length values = length records) then table_name t else None
  | _ => None
  end.

(** The names a new table may have, in order. *)
Definition table_names (source : string) (records : list Record_) (seen : Seen) (taken : list string) : list string :=
  let raw := option_list (table_name (as_bytes source)) ++ omap (field_table_name records seen) type_fields in
  foldl (add_name taken) [] (match raw with [] => ["ingested"] | _ => raw end).

(** The questions about one field of a new table. *)
Definition field_questions (records : list Record_) (index : nat) (key : string) (options : list Kind) : list (string * Question) :=
  (if (1 <? length options)%nat then [("type_" +:+ pretty index, type_question key options)] else [])
  ++ (if bool_decide (present records key = length records)
      then [("required_" +:+ pretty index,
             QNoul ("Every one of these records needs " +:+ quoted key +:+ " to mean anything: a record "
                    +:+ "without it would be broken, not just shorter."))] else []).

(** The fields that may identify a record. *)
Definition key_candidate (records : list Record_) (seen : Seen) (key : string) : bool :=
  let values := values_of seen key in
  (5 <=? length records)%nat && bool_decide (present records key = length records)
  && forallb (λ v, negb (is_null v)) values && existsb kind_keyable (candidates values)
  && bool_decide (length (remove_dups (literal_json <$> values)) = length values).

Definition design_questions (records : list Record_) (seen : Seen) (names named keys : list string) : gmap string Question :=
  collect
    ((if (MANY_FIELDS <=? length named)%nat
      then [("keys_are_data", QNoul ("The top-level keys of these records are themselves data - ids, dates, user "
                                     +:+ "names - rather than the names of fields every record shares."))] else [])
     ++ (if (1 <? length names)%nat
         then [("name", choice "What should the table holding these records be called?"
                          ((λ n, (n, "a table named " +:+ n)) <$> names))] else [])
     ++ concat ((λ e, field_questions records e.1 e.2 (candidates (values_of seen e.2))) <$> enumerate named)
     ++ (match keys with
         | [] => []
         | _ => [("key", choice ("Which field identifies a record, so that a later record with the same value "
                                 +:+ "replaces it?")
                           (((λ k, (k, quoted k +:+ " identifies the record")) <$> keys)
                            ++ [("none", "no field identifies a record; each one is an event of its own")]))]
         end)).

(** The columns of a new table, one field after the other. *)
Definition design_column (seen : Seen) (answers : gmap string Answer) (acc : list RuleColumn * list Change)
    (e : nat * string) : list RuleColumn * list Change :=
  let '(columns, changes) := acc in
  let '(index, key) := e in
  if (MAX_COLUMNS <=? length columns + 2)%nat then (columns, changes ++ [at_limit key])
  else
    let '(kind, change) := pick_kind answers ("type_" +:+ pretty index) key (candidates (values_of seen key)) in
    let '(required, change') :=
      match decided answers ("required_" +:+ pretty index) with
      | Some (yes, confidence) => (yes, [by_judge (key +:+ " required") (bool_string yes) confidence])
      | None => (false, [])
      end in
    (columns ++ [mkRuleColumn key (kind_name kind) required []], changes ++ change ++ change').

(** A key is required and of a kind that hashes, whatever the judge said. *)
Definition key_column (seen : Seen) (key : string) (c : RuleColumn) : RuleColumn :=
  mkRuleColumn (rc_name c)
    (if default false (kind_keyable <$> kind_from_name (rc_kind c)) then rc_kind c
     else kind_name (default KString (head (filter (λ k, kind_keyable k = true) (candidates (values_of seen key))))))
    true (rc_aliases c).

(** [iter_mut().find(..)] and a change of what it finds. *)
Fixpoint update_first {A} (p : A → bool) (f : A → A) (l : list A) : list A :=
  match l with
  | [] => []
  | x :: l => if p x then f x :: l else x :: update_first p f l
  end.

(** The name, the nature of the keys and the primary key the answers choose. *)
Definition design_name (names : list string) (answers : gmap string Answer) : string * list Change :=
  let otherwise := (default "" (head names), [by_rule "table name" (default "" (head names))]) in
  match chosen answers "name" with
  | Some (name, confidence) => if bool_decide (name ∈ names) then (name, [by_judge "table name" name confidence]) else otherwise
  | None => otherwise
  end.

Definition over_limit (named : list string) : bool := (MAX_COLUMNS <? length named + 2)%nat.

Definition design_data (named : list string) (answers : gmap string Answer) : bool * list Change :=
  let '(data, changes) :=
    match decided answers "keys_are_data" with
    | Some (yes, confidence) => (yes, [by_judge "keys are data" (bool_string yes) confidence])
    | None => (over_limit named, if over_limit named then [by_rule "keys are data" "true"] else [])
    end in
  (data || over_limit named, changes).

Definition design_key (keys : list string) (answers : gmap string Answer) : option string * list Change :=
  match chosen answers "key" with
  | Some (key, confidence) =>
    if negb (bool_decide (key = "none")) && bool_decide (key ∈ keys)
    then (Some key, [by_judge "primary key" key confidence])
    else (None, [by_rule "primary key" ID])
  | None => (None, [by_rule "primary key" ID])
  end.

(** What [design] makes of the answers. *)
Definition design_table (source : string) (records : list Record_) (seen : Seen) (names named keys : list string)
    (answers : gmap string Answer) : TableRule * list Change :=
  let '(table, c1) := design_name names answers in
  let '(data, c2) := design_data named answers in
  let '(columns, c3) := if data then ([], []) else foldl (design_column seen answers) ([], []) (enumerate named) in
  let '(primary_key, c4) := design_key keys answers in
  let columns :=
    match primary_key with
    | Some key => update_first (λ c, bool_decide (rc_name c = key)) (key_column seen key) columns
    | None => columns
    end in
  (mkTableRule table 0 columns primary_key data [source] [] [] [], c1 ++ c2 ++ c3 ++ c4).

(** [design]. *)
Definition design (source : string) (records : list Record_) (state : string) : Ingesting (TableRule * list Change) :=
  let seen := see_all (concat (sbtree_entries <$> records)) in
  taken ← try_ask TableNames;
  let names := table_names source records seen taken in
  let named := filter (λ k, column_name k = true) (se_order seen) in
  let keys := filter (λ k, key_candidate records seen k = true) named in
  answers ← ask_judge state (design_questions records seen names named keys);
  returns (Ok (design_table source records seen names named keys answers)).

(** ** A new source *)

Definition known_column (rule : TableRule) (key : string) : option RuleColumn :=
  head (filter (λ c, key ∈ column_names c) (tr_columns rule)).

Definition fits_rule (rule : TableRule) (records : list Record_) : bool :=
  forallb (λ r : Record_, forallb (λ e : string * Literal,
    match known_column rule e.1 with
    | Some column =>
      is_null e.2 || match kind_from_name (rc_kind column) with Some k => bool_decide (is_Some (convert k e.2)) | None => false end
    | None => true
    end) (sbtree_entries r)) records.

(** Whether a table is offered to a new source. *)
Definition offered (fields : list string) (records : list Record_) (rule : TableRule) : bool :=
  if tr_keys_are_data rule || bool_decide (fields = []) then false
  else
    let overlap := length (filter (λ k, is_Some (known_column rule k)) fields) in
    fits_rule rule records && (length fields * 6 <=? overlap * 10)%nat.

Definition route_question (existing : list TableRule) : gmap string Question :=
  match existing with
  | [] => ∅
  | _ => {[ "route" := choice "Are these records the same kind of thing an existing table already holds?"
       (((λ r, (tr_table r, "the same kind of record as the table " +:+ tr_table r +:+ ", whose columns are "
                             +:+ String.concat ", " (rc_name <$> tr_columns r))) <$> existing)
        ++ [("new", "a different kind of record that belongs in a table of its own")]) ]}
  end.

Definition push_source (rule : TableRule) (source : string) : TableRule :=
  mkTableRule (tr_table rule) (tr_version rule) (tr_columns rule) (tr_primary_key rule) (tr_keys_are_data rule)
    (tr_sources rule ++ [source]) (tr_history rule) (tr_embeddings rule) (tr_embed_considered rule).

Definition offered_rules (records : list Record_) (rules : list TableRule) : list TableRule :=
  let fields := btree_set (concat ((λ r : Record_, (sbtree_entries r).*1) <$> records)) in
  filter (λ r, offered fields records r = true) rules.

Definition routed (existing : list TableRule) (answers : gmap string Answer) : option (TableRule * spec_float) :=
  '(table, confidence) ← chosen answers "route";
  if bool_decide (table = "new") then None
  else rule ← head (filter (λ r, tr_table r = table) existing); Some (rule, confidence).

(** [route]. *)
Definition route (source : string) (records : list Record_) : Ingesting (TableRule * bool * list Change) :=
  let state := describe source records in
  rules ← try_ask EveryRule;
  let existing := offered_rules records rules in
  answers ← ask_judge state (route_question existing);
  match routed existing answers with
  | Some (rule, confidence) =>
    returns (Ok (push_source rule source, false, [by_judge ("route " +:+ source) (tr_table rule) confidence]))
  | None =>
    '(rule, changes) ← design source records state;
    returns (Ok (rule, true, changes))
  end.

End Rules.
