(* ===== verification/IngestNames.v ===== *)
(** * IngestNames: the names ingestion makes

    A table name made from what a client sent is one the engine accepts; a name that is looked for
    among those not taken is found, within the fuel of the search; the fields of a batch are listed
    once each. *)

From Stdlib Require Import SpecFloat.
From stdpp Require Import pretty.
From S2P Require Import Prelude Text Programs Cron Literal LiteralSafety Ingest IngestSafety IngestShape IngestRules.

(** ** Names the engine accepts *)

Definition name_byte (b : byte) : bool := is_ascii_alphanumeric b || bool_decide (b ∈ [x5f; x2d]).

Lemma valid_name_bytes name : valid_name name = true ↔ as_bytes name ≠ [] ∧ forallb name_byte (as_bytes name) = true.
Proof.
  unfold valid_name. rewrite andb_true_iff, negb_true_iff, bool_decide_eq_false. split; intros [Hn ?]; split; try done.
  - intros He. apply Hn. rewrite <- (of_bytes_as_bytes name), He. done.
  - intros ->. done.
Qed.

Lemma valid_name_app a b : valid_name a = true → forallb name_byte (as_bytes b) = true → valid_name (a +:+ b) = true.
Proof.
  rewrite !valid_name_bytes, as_bytes_app, forallb_app. intros [Hn ->] ->. split; [|done]. by destruct (as_bytes a).
Qed.

Lemma digit_name_byte b : is_digit b = true → name_byte b = true.
Proof. intros Hd. unfold name_byte, is_ascii_alphanumeric. by rewrite Hd. Qed.

Lemma pretty_name_bytes (n : N) : forallb name_byte (as_bytes (pretty n)) = true.
Proof.
  destruct (decide (0 < n)) as [Hn|Hn]; [|by assert (n = 0) as -> by lia].
  apply forallb_forall. intros b Hb. apply digit_name_byte. destruct (pretty_digits n Hn) as (Hd & _).
  rewrite forallb_forall in Hd. by apply Hd.
Qed.

Lemma numbered_valid base (n : N) : valid_name base = true → valid_name (base +:+ "_" +:+ pretty n) = true.
Proof.
  intros Hb. apply valid_name_app; [done|]. rewrite as_bytes_app, forallb_app, pretty_name_bytes. done.
Qed.

(** ** Table names *)

Lemma lower_name_byte b : is_ascii_alphanumeric b = true → name_byte (to_ascii_lower b) = true.
Proof. by destruct b. Qed.

Lemma table_char_bytes name c : forallb name_byte name = true → forallb name_byte (table_char name c) = true.
Proof.
  intros Hn. unfold table_char. assert (forallb name_byte (name ++ [x5f]) = true) as Hu by (by rewrite forallb_app, Hn).
  destruct c as [|b [|? ?]]; [by case_match| |by case_match].
  destruct (is_ascii_alphanumeric b) eqn:E; [|by case_match].
  rewrite forallb_app, Hn. cbn. by rewrite lower_name_byte.
Qed.

Lemma table_chars_bytes cs name : forallb name_byte name = true → forallb name_byte (foldl table_char name cs) = true.
Proof. revert name. induction cs as [|c cs IH]; intros name Hn; cbn; [done|]. by apply IH, table_char_bytes. Qed.

Lemma drop_underscores_in s b : b ∈ drop_underscores s → b ∈ s.
Proof.
  induction s as [|c s IH]; cbn; [done|]. case_bool_decide; [|done]. intros Hb. right. by apply IH.
Qed.

Lemma trim_underscores_in s b : b ∈ trim_underscores s → b ∈ s.
Proof.
  unfold trim_underscores. rewrite !list_elem_of_In, <- in_rev, <- !list_elem_of_In.
  intros Hb%drop_underscores_in. apply drop_underscores_in. by rewrite list_elem_of_In, in_rev, <- list_elem_of_In.
Qed.

Lemma chars_in fuel s c b : c ∈ chars fuel s → b ∈ c → b ∈ s.
Proof.
  revert s. induction fuel as [|fuel IH]; intros s; [by intros ?%not_elem_of_nil|]. destruct s as [|x s]; [by intros ?%not_elem_of_nil|].
  cbn [chars]. intros [->|Hc]%elem_of_cons Hb.
  - by eapply subseteq_take.
  - specialize (IH _ Hc Hb). rewrite list_elem_of_In in IH |- *. apply list_elem_of_In in IH. apply list_elem_of_In.
    by eapply subseteq_drop.
Qed.

Lemma bytes_forall (p : byte → bool) s : forallb p s = true ↔ ∀ b, b ∈ s → p b = true.
Proof. rewrite forallb_forall. by setoid_rewrite list_elem_of_In. Qed.

(** A table name made from a text is one the engine accepts. *)
Lemma table_name_valid text name : table_name text = Some name → valid_name name = true.
Proof.
  unfold table_name. destruct (trim_underscores _) as [|b rest] eqn:E; [done|]. intros [= <-].
  assert (forallb name_byte (b :: rest) = true) as Hok.
  { apply bytes_forall. intros b' Hb. rewrite <- E in Hb. apply trim_underscores_in in Hb.
    pose proof (table_chars_bytes (chars (length text) text) [] eq_refl) as Hall. rewrite bytes_forall in Hall. by apply Hall. }
  apply valid_name_bytes. rewrite as_bytes_of_bytes.
  set (name := if is_digit b then _ else _).
  assert (∃ x l, name = x :: l ∧ forallb name_byte (x :: l) = true) as (x & l & -> & Hxl).
  { unfold name. destruct (is_digit b); [|by eauto]. eexists _, _. split; [reflexivity|]. exact Hok. }
  split.
  - cbn. unfold char_len. by repeat case_match.
  - apply bytes_forall. intros b' Hb. rewrite bytes_forall in Hxl. apply Hxl.
    apply list_elem_of_In, in_concat in Hb as (c & Hc & Hb).
    eapply chars_in; [|by apply list_elem_of_In]. eapply subseteq_take. by apply list_elem_of_In.
Qed.

(** ** Names not taken *)

(** The names the search tries after the first. *)
Definition tried (base : string) (n : N) (fuel : nat) : list string :=
  (λ i, base +:+ "_" +:+ pretty (n + N.of_nat i)) <$> seq 0 fuel.

Lemma append_inv_head a b c : a +:+ b = a +:+ c → b = c.
Proof. induction a as [|x a IH]; [done|]. intros [= Heq]. by apply IH. Qed.

Lemma tried_S base n fuel : tried base n (S fuel) = (base +:+ "_" +:+ pretty n) :: tried base (n + 1) fuel.
Proof.
  unfold tried. cbn. rewrite N.add_0_r. f_equal. rewrite <- fmap_S_seq, <- list_fmap_compose.
  apply list_fmap_ext. intros i x _. cbn. do 3 f_equal. lia.
Qed.

Lemma tried_NoDup base n fuel : NoDup (base :: tried base n fuel).
Proof.
  constructor.
  - intros (i & Heq & _)%list_elem_of_fmap. assert (as_bytes base = as_bytes base ++ as_bytes ("_" +:+ pretty (n + N.of_nat i))) as Hb.
    { rewrite <- as_bytes_app, <- Heq. done. }
    apply (f_equal length) in Hb. rewrite as_bytes_app, !length_app in Hb. change (length (as_bytes "_")) with 1%nat in Hb. lia.
  - unfold tried. apply NoDup_fmap_2_strong; [|apply NoDup_seq]. intros i j _ _ Heq.
    apply append_inv_head in Heq. injection Heq as Heq. change (pretty (n + N.of_nat i) = pretty (n + N.of_nat j)) in Heq. apply (inj (pretty (A:=N))) in Heq. lia.
Qed.

Lemma fresh_name_cases fuel taken base name n :
  fresh_name fuel taken base name n ∈ name :: tried base n fuel
  ∧ (taken (fresh_name fuel taken base name n) = true → ∀ x, x ∈ name :: tried base n fuel → taken x = true).
Proof.
  revert name n. induction fuel as [|fuel IH]; intros name n; cbn [fresh_name].
  { split; [by left|]. by intros Ht x ->%list_elem_of_singleton. }
  rewrite tried_S. destruct (taken name) eqn:E.
  - destruct (IH (base +:+ "_" +:+ pretty n) (n + 1)) as [IHin IHt]. split; [by right|].
    intros Ht x [->|Hx]%elem_of_cons; [done|]. by apply IHt.
  - split; [by left|]. rewrite E. done.
Qed.

(** With more tries than names to avoid, the name found is not taken. *)
Lemma fresh_name_free fuel taken base n (avoid : list string) :
  (∀ x, taken x = true → x ∈ avoid) → (length avoid ≤ fuel)%nat →
  taken (fresh_name fuel taken base base n) = false.
Proof.
  intros Hav Hf. destruct (taken _) eqn:E; [|done]. exfalso.
  destruct (fresh_name_cases fuel taken base base n) as [_ Ht]. specialize (Ht E).
  assert (length (base :: tried base n fuel) ≤ length avoid)%nat as Hle.
  { apply submseteq_length, NoDup_submseteq; [apply tried_NoDup|]. intros x Hx. by apply Hav, Ht. }
  cbn in Hle. unfold tried in Hle. rewrite length_fmap, length_seq in Hle. lia.
Qed.

Lemma fresh_name_valid fuel taken base n : valid_name base = true → valid_name (fresh_name fuel taken base base n) = true.
Proof.
  intros Hb. destruct (fresh_name_cases fuel taken base base n) as [Hin _].
  apply elem_of_cons in Hin as [->|(i & -> & _)%list_elem_of_fmap]; [done|]. by apply numbered_valid.
Qed.

(** A name of a new table: the engine accepts it and no table has it. *)
Definition new_name (taken : list string) (name : string) : Prop :=
  valid_name name = true ∧ (name ∉ taken) ∧ name ≠ BRONZE ∧ name ≠ QUARANTINE.

Lemma add_name_new taken names base :
  valid_name base = true → Forall (new_name taken) names →
  Forall (new_name taken) (add_name taken names base) ∧ add_name taken names base ≠ [].
Proof.
  intros Hb Hn. unfold add_name. set (name := fresh_name _ _ _ _ _).
  case_bool_decide as Hin; [split; [done|by intros ->; apply not_elem_of_nil in Hin]|].
  split; [|by destruct names]. apply Forall_app. split; [done|]. apply Forall_singleton. split; [by apply fresh_name_valid|].
  assert (name_taken taken name = false) as Ht.
  { apply (fresh_name_free _ _ _ _ (taken ++ [BRONZE; QUARANTINE])); [|rewrite length_app; cbn; lia].
    intros x Hx. unfold name_taken in Hx. rewrite !orb_true_iff, !bool_decide_eq_true in Hx. set_solver. }
  unfold name_taken in Ht. rewrite !orb_false_iff, !bool_decide_eq_false in Ht. naive_solver.
Qed.

Lemma add_names_new taken bases names :
  Forall (λ b, valid_name b = true) bases → Forall (new_name taken) names → bases ≠ [] ∨ names ≠ [] →
  Forall (new_name taken) (foldl (add_name taken) names bases) ∧ foldl (add_name taken) names bases ≠ [].
Proof.
  revert names. induction bases as [|b bases IH]; intros names Hb Hn Hne; cbn; [naive_solver|].
  inversion Hb; subst. destruct (add_name_new taken names b) as [? ?]; [done..|]. apply IH; [done..|]. by right.
Qed.

Section Tables.
Context `{IngestHost}.
Implicit Types records : list (gmap string Literal).

Lemma field_table_name_valid records seen key name : field_table_name records seen key = Some name → valid_name name = true.
Proof.
  unfold field_table_name. intros Hn. apply bind_Some in Hn as (values & _ & Hn). cbn zeta in Hn.
  destruct (remove_dups _) as [|t [|? ?]]; [done| |done]. case_bool_decide; [|done]. by eapply table_name_valid.
Qed.

(** The names a new table may have are valid and free, and there is at least one. *)
Lemma table_names_new source records seen taken :
  Forall (new_name taken) (table_names source records seen taken) ∧ table_names source records seen taken ≠ [].
Proof.
  unfold table_names. set (raw := option_list _ ++ _).
  assert (Forall (λ b, valid_name b = true) raw) as Hraw.
  { unfold raw. apply Forall_app. split.
    - destruct (table_name _) eqn:E; cbn; [|done]. apply Forall_singleton. by eapply table_name_valid.
    - apply Forall_forall. intros n (k & _ & Hk)%list_elem_of_omap. by eapply field_table_name_valid. }
  destruct raw as [|b raw]; apply add_names_new; try done; [by repeat constructor|by left|by left].
Qed.

(** ** The fields of a batch, once each *)

Lemma see_fold entries s :
  NoDup (se_order s) → (∀ k, k ∈ se_order s ↔ is_Some (se_values s !! k)) →
  let s' := foldl see s entries in
  NoDup (se_order s') ∧ (∀ k, k ∈ se_order s' ↔ is_Some (se_values s' !! k))
  ∧ ∀ k, k ∈ se_order s' → k ∈ se_order s ∨ k ∈ (fst <$> entries).
Proof.
  cbn zeta. revert s. induction entries as [|[k v] entries IH]; intros s Hnd Hdom; cbn [foldl]; [split_and!; auto|].
  destruct (IH (see s (k, v))) as (IHn & IHd & IHin).
  - unfold see. cbn. case_bool_decide as Hk; [done|]. apply NoDup_app. split_and!; [done| |apply NoDup_singleton].
    intros x Hx ->%list_elem_of_singleton. by apply Hk, Hdom.
  - intros x. unfold see. cbn. destruct (decide (x = k)) as [->|Hne].
    + rewrite lookup_insert_eq. split; [by eexists|]. intros _. case_bool_decide as Hk; [by apply Hdom|].
      apply elem_of_app. right. by left.
    + rewrite lookup_insert_ne by done. case_bool_decide; [done|]. rewrite elem_of_app, list_elem_of_singleton. naive_solver.
  - split_and!; [done..|]. intros x Hx. destruct (IHin x Hx) as [Hs|Hs]; [|right; by right].
    unfold see in Hs. cbn in Hs. case_bool_decide; [by left|]. rewrite elem_of_app, list_elem_of_singleton in Hs.
    destruct Hs as [?| ->]; [by left|right; by left].
Qed.

Lemma see_all_NoDup entries : NoDup (se_order (see_all entries)).
Proof. apply see_fold; [constructor|]. intros k. cbn. rewrite lookup_empty. split; [by intros ?%not_elem_of_nil|by intros []]. Qed.

Lemma see_all_in entries k : k ∈ se_order (see_all entries) → k ∈ (fst <$> entries).
Proof.
  intros Hk. destruct (see_fold entries (mkSeen [] ∅)) as (_ & _ & Hin); [constructor| |].
  - intros x. cbn. rewrite lookup_empty. split; [by intros ?%not_elem_of_nil|by intros []].
  - destruct (Hin k Hk) as [?%not_elem_of_nil|?]; done.
Qed.

End Tables.
