(* ===== verification/IngestEvolve.v ===== *)
(** * IngestEvolve: what a batch changes about a table

    [evolve] and [plan_embeddings] of [crates/walleye-node/src/ingest.rs], and [prose] of
    [ingest/embed.rs].  A batch is asked about in two rounds: what its new fields are, and then,
    for the records that have their key, new columns, gaps and values that do not fit. *)

From Stdlib Require Import SpecFloat.
From stdpp Require Import pretty.
From S2P Require Import Prelude Text Programs Cron Literal Ingest IngestRules.

(** ** Changing a rule *)

Definition with_columns (rule : TableRule) (columns : list RuleColumn) : TableRule :=
  mkTableRule (tr_table rule) (tr_version rule) columns (tr_primary_key rule) (tr_keys_are_data rule)
    (tr_sources rule) (tr_history rule) (tr_embeddings rule) (tr_embed_considered rule).

Definition with_keys_are_data (rule : TableRule) : TableRule :=
  mkTableRule (tr_table rule) (tr_version rule) (tr_columns rule) (tr_primary_key rule) true
    (tr_sources rule) (tr_history rule) (tr_embeddings rule) (tr_embed_considered rule).

Definition with_embeddings (rule : TableRule) (embeddings : list Embedding) (considered : list string) : TableRule :=
  mkTableRule (tr_table rule) (tr_version rule) (tr_columns rule) (tr_primary_key rule) (tr_keys_are_data rule)
    (tr_sources rule) (tr_history rule) embeddings considered.

Definition push_alias (key : string) (c : RuleColumn) : RuleColumn :=
  mkRuleColumn (rc_name c) (rc_kind c) (rc_required c) (rc_aliases c ++ [key]).
Definition set_kind (k : Kind) (c : RuleColumn) : RuleColumn :=
  mkRuleColumn (rc_name c) (kind_name k) (rc_required c) (rc_aliases c).
Definition set_optional (c : RuleColumn) : RuleColumn :=
  mkRuleColumn (rc_name c) (rc_kind c) false (rc_aliases c).

(** [rule.columns[at]] changed in place. *)
Definition change_column (f : RuleColumn → RuleColumn) (at_ : nat) (rule : TableRule) : TableRule :=
  with_columns rule (alter f at_ (tr_columns rule)).

(** [rule.columns[at].name]; the positions come from the rule itself. *)
Definition column_at (rule : TableRule) (at_ : nat) : string := default "" (rc_name <$> tr_columns rule !! at_).

(** What [evolve] reports. *)
Record Evolved := mkEvolved {
  ev_changes : list Change;
  ev_reshaped : bool;
  ev_quarantine : gmap nat string;
}.

Section Evolve.
Context `{IngestHost}.

Abbreviation Record_ := (gmap string Literal).

(** [find]. *)
Definition find_column (rule : TableRule) (key : string) : option nat :=
  find_index (λ c, bool_decide (key ∈ column_names c)) (tr_columns rule).

(** [value_of]. *)
Definition value_of (r : Record_) (c : RuleColumn) : option Literal := snd <$> find_field r (column_names c).

Definition is_unknown (rule : TableRule) (key : string) : bool :=
  negb (bool_decide (is_Some (find_column rule key))) && column_name key
  && negb (existsb (λ e, bool_decide (em_column e = key)) (tr_embeddings rule)).

(** [unknown_fields]. *)
Definition unknown_fields (rule : TableRule) (records : list Record_) : Seen :=
  if tr_keys_are_data rule then mkSeen [] ∅
  else see_all (filter (λ e, is_unknown rule e.1 = true) (concat (sbtree_entries <$> records))).

Definition converts (k : Kind) (l : Literal) : bool := bool_decide (is_Some (convert k l)).
Definition fits (k : Kind) (l : Literal) : bool := is_null l || converts k l.

Definition is_key (rule : TableRule) (c : RuleColumn) : bool := bool_decide (tr_primary_key rule = Some (rc_name c)).

(** ** Round one *)

(** The columns a new field could be: the one it spells alike, or those it may have been. *)
Fixpoint could_be (rule : TableRule) (key : string) (carrying : list Record_) (values : list Literal)
    (columns : list (nat * RuleColumn)) (acc : list nat) : option nat * list nat :=
  match columns with
  | [] => (None, acc)
  | (at_, c) :: columns =>
    let absent := forallb (λ r, bool_decide (value_of r c = None)) carrying in
    let fit := forallb (λ v, if is_key rule c then converts (column_kind c) v else fits (column_kind c) v) values in
    if negb (absent && fit) then could_be rule key carrying values columns acc
    else if spelled_alike key (rc_name c) then (Some at_, [])
    else could_be rule key carrying values columns (acc ++ [at_])
  end.

Record FirstRound := mkFirstRound {
  fr_questions : gmap string Question;
  fr_renames : list (string * string * list nat);
  fr_spelled : list (string * nat);
  fr_evidence : gmap nat (list string);
}.

(** One option of a rename: the column, and what the engine says it holds. *)
Definition rename_option (rule : TableRule) (c : RuleColumn) (held : list string) : string * string :=
  (rc_name c,
   "the existing column " +:+ quoted (rc_name c) +:+ " under a new name; it holds "
   +:+ match kind_from_name (rc_kind c) with Some k => kind_meaning k | None => "text" end
   +:+ match held with [] => "" | _ => ", with values like " +:+ String.concat ", " held end).

Definition rename_question (key : string) (values : list Literal) (options : list (string * string)) : Question :=
  choice ("These records have a field " +:+ quoted key +:+ " the table has never seen, holding values like "
          +:+ String.concat ", " (take 4 (sample_text <$> filter (λ v, is_null v = false) values))
          +:+ ", and they do not have the columns offered here. Is " +:+ quoted key
          +:+ " one of those columns under a new name - the same thing, now spelled differently - or a new field?")
    (options ++ [(NEW_FIELD, "a new field that is none of these columns")]).

(** [held]: the values a query found, in quotes. *)
Definition held_texts (answer : option (list string)) : list string := quoted <$> default [] answer.

(** [held], remembered per column. *)
Definition gather_option (rule : TableRule) (acc : gmap nat (list string) * list (string * string)) (at_ : nat)
    : Ingesting (gmap nat (list string) * list (string * string)) :=
  let '(evidence, options) := acc in
  match tr_columns rule !! at_ with
  | None => returns (Ok acc)
  | Some c =>
    match evidence !! at_ with
    | Some held => returns (Ok (evidence, options ++ [rename_option rule c held]))
    | None =>
      answer ← ask (HeldValues (tr_table rule) (rc_name c));
      let held := held_texts answer in
      returns (Ok (<[at_ := held]> evidence, options ++ [rename_option rule c held]))
    end
  end.

(** One unknown field of round one. *)
Definition consider_field (rule : TableRule) (records : list Record_) (seen : Seen) (f : FirstRound) (key : string)
    : Ingesting FirstRound :=
  let carrying := filter (λ r : Record_, is_Some (r !! key)) records in
  let '(spelled, maybe) := could_be rule key carrying (values_of seen key) (enumerate (tr_columns rule)) [] in
  let f := match spelled with
           | Some at_ => mkFirstRound (fr_questions f) (fr_renames f) (fr_spelled f ++ [(key, at_)]) (fr_evidence f)
           | None => f
           end in
  match maybe with
  | [] => returns (Ok f)
  | _ =>
    '(evidence, options) ← ask_fold (gather_option rule) (fr_evidence f, []) maybe;
    let question := "rename_" +:+ pretty (length (fr_renames f)) in
    returns (Ok (mkFirstRound (<[question := rename_question key (values_of seen key) options]> (fr_questions f))
                   (fr_renames f ++ [(question, key, maybe)]) (fr_spelled f) evidence))
  end.

Definition keys_question (unknown : list string) : gmap string Question :=
  if (MANY_FIELDS <=? length unknown)%nat
  then {[ "keys_are_data" := QNoul ("These " +:+ pretty (length unknown) +:+ " new top-level keys are data - ids, dates, "
            +:+ "names - rather than the names of new fields: " +:+ String.concat ", " (take 12 unknown)) ]}
  else ∅.

(** What the answers of round one change: the rule, whether its shape changed, what is recorded and
    which fields turned out to be columns. *)
Record Settled := mkSettled {
  st_rule : TableRule;
  st_reshaped : bool;
  st_changes : list Change;
  st_renamed : list string;
}.

Definition renamed_to (key : string) (rule : TableRule) (at_ : nat) : string := key +:+ " is " +:+ column_at rule at_ +:+ " renamed".

(** One field that spells a column alike. *)
Definition apply_spelled (unknown : list string) (s : Settled) (e : string * nat) : Settled :=
  let '(key, at_) := e in
  let known := match tr_columns (st_rule s) !! at_ with Some c => bool_decide (key ∈ rc_aliases c) | None => true end in
  let renamed := if bool_decide (key ∈ unknown) then st_renamed s ++ [key] else st_renamed s in
  if known then mkSettled (st_rule s) (st_reshaped s) (st_changes s) renamed
  else mkSettled (change_column (push_alias key) at_ (st_rule s)) true
         (st_changes s ++ [by_rule (renamed_to key (st_rule s) at_) "true"]) renamed.

(** The answers that lean to a column. *)
Definition lean (rule : TableRule) (answers : gmap string Answer) (e : string * string * list nat)
    : option (spec_float * string * nat) :=
  let '(question, key, maybe) := e in
  answer ← answers !! question;
  label ← answer_label answer;
  at_ ← head (filter (λ i, rc_name <$> tr_columns rule !! i = Some label) maybe);
  Some (answer_confidence answer, key, at_).

(** [leans.sort_by(|a, b| b.0.total_cmp(&a.0))]. *)
Definition surer (a b : spec_float * string * nat) : Prop := total_leb b.1.1 a.1.1 = true.

#[global] Instance surer_dec : RelDecision surer.
Proof. intros a b. unfold surer. apply _. Defined.

Definition apply_lean (acc : Settled * list nat) (e : spec_float * string * nat) : Settled * list nat :=
  let '(s, taken) := acc in
  let '(confidence, key, at_) := e in
  if bool_decide (key ∈ st_renamed s) then acc
  else if bool_decide (at_ ∈ taken) then acc
  else (mkSettled (change_column (push_alias key) at_ (st_rule s)) true
          (st_changes s ++ [by_judge (renamed_to key (st_rule s) at_) "true" confidence]) (st_renamed s ++ [key]),
        taken ++ [at_]).

Definition new_field_change (answers : gmap string Answer) (renamed : list string) (e : string * string * list nat) : option Change :=
  let '(question, key, _) := e in
  if bool_decide (key ∈ renamed) then None
  else answer ← answers !! question; Some (by_judge (key +:+ " is a new field") "true" (answer_confidence answer)).

(** Whether the keys of the records are data. *)
Definition settle_keys (rule : TableRule) (answers : gmap string Answer) : TableRule * list Change :=
  match decided answers "keys_are_data" with
  | Some (yes, confidence) =>
    (if yes then with_keys_are_data rule else rule, [by_judge "keys are data" (bool_string yes) confidence])
  | None => (rule, [])
  end.

(** The fields that are columns: those spelled alike, then those the judge leans to, the surest first. *)
Definition settle_fields (unknown : list string) (f : FirstRound) (answers : gmap string Answer) (s : Settled) : Settled :=
  let s := foldl (apply_spelled unknown) s (fr_spelled f) in
  (foldl apply_lean (s, []) (merge_sort surer (omap (lean (st_rule s) answers) (fr_renames f)))).1.

(** The answers of round one. *)
Definition settle (rule : TableRule) (unknown : list string) (f : FirstRound) (answers : gmap string Answer) : Settled :=
  let '(rule, c0) := settle_keys rule answers in
  if tr_keys_are_data rule then mkSettled rule false c0 []
  else
    let s := settle_fields unknown f answers (mkSettled rule false c0 []) in
    mkSettled (st_rule s) (st_reshaped s)
      (st_changes s ++ omap (new_field_change answers (st_renamed s)) (fr_renames f)) (st_renamed s).

(** ** The key *)

(** Why a record cannot be placed. *)
Definition key_problem (key : string) (c : RuleColumn) (r : Record_) : option string :=
  match value_of r c with
  | Some value =>
    if converts (column_kind c) value then None
    else match value with
         | LNull => Some ("missing its key " +:+ quoted key)
         | _ => Some ("its key " +:+ quoted key +:+ " is not a " +:+ kind_name (column_kind c))
         end
  | None => Some ("missing its key " +:+ quoted key)
  end.

Definition refuse (q : gmap nat string) (e : nat * option string) : gmap nat string :=
  match e.2 with Some reason => <[e.1 := reason]> q | None => q end.

Definition key_quarantine (rule : TableRule) (records : list Record_) : gmap nat string :=
  match tr_primary_key rule with
  | None => ∅
  | Some key =>
    match head (filter (λ c, rc_name c = key) (tr_columns rule)) with
    | None => ∅
    | Some c => foldl refuse ∅ (prod_map id (key_problem key c) <$> enumerate records)
    end
  end.

(** ** Round two *)

Definition lacks (c : RuleColumn) (r : Record_) : bool :=
  match value_of r c with None | Some LNull => true | Some _ => false end.

(** The required columns that some records lack, and those records. *)
Definition missing_columns (rule : TableRule) (live : list (nat * Record_)) : list (nat * list nat) :=
  omap (λ e : nat * RuleColumn,
    if negb (rc_required e.2) || is_key rule e.2 then None
    else match filter (λ r : nat * Record_, lacks e.2 r.2 = true) live with
         | [] => None
         | without => Some (e.1, without.*1)
         end) (enumerate (tr_columns rule)).

Definition seen_in (live : list (nat * Record_)) (c : RuleColumn) : list Literal := omap (λ r, value_of r.2 c) live.

Definition wider_kinds (rule : TableRule) (c : RuleColumn) (seen : list Literal) : list Kind :=
  filter (λ k, k ≠ column_kind c ∧ (is_key rule c = false ∨ kind_keyable k = true)) (candidates seen).

(** The columns some values do not fit, and the kinds that would take them. *)
Definition misfit_columns (rule : TableRule) (live : list (nat * Record_)) : list (nat * list Kind) :=
  omap (λ e : nat * RuleColumn,
    let seen := seen_in live e.2 in
    if forallb (fits (column_kind e.2)) seen then None else Some (e.1, wider_kinds rule e.2 seen))
    (enumerate (tr_columns rule)).

Definition missing_question (rule : TableRule) (live : nat) (e : nat * list nat) : string * Question :=
  ("optional_" +:+ pretty e.1,
   QNoul (quoted (column_at rule e.1) +:+ " was required, and " +:+ pretty (length e.2) +:+ " of " +:+ pretty live
          +:+ " new records arrived without it. It is an optional field that these records simply do not have, "
          +:+ "rather than a sign the records are broken.")).

Definition misfit_question (rule : TableRule) (live : list (nat * Record_)) (e : nat * list Kind) : string * Question :=
  let c := default (mkRuleColumn "" "" false []) (tr_columns rule !! e.1) in
  let kind := column_kind c in
  ("widen_" +:+ pretty e.1,
   choice ("The column " +:+ quoted (rc_name c) +:+ " holds " +:+ kind_name kind +:+ ", and new records sent values that are not: "
           +:+ String.concat ", " (take 4 (sample_text <$> filter (λ v, fits kind v = false) (seen_in live c)))
           +:+ ". What should happen?")
     (((λ k, (kind_name k, "widen the column to " +:+ kind_name k +:+ ": " +:+ kind_meaning k)) <$> e.2)
      ++ [("keep", "keep it " +:+ kind_name kind +:+ "; the values that do not fit are mistakes, kept aside with the record")])).

Definition second_questions (rule : TableRule) (seen : Seen) (live : list (nat * Record_))
    (missing : list (nat * list nat)) (misfits : list (nat * list Kind)) : gmap string Question :=
  collect
    (omap (λ e : nat * string,
       let options := candidates (values_of seen e.2) in
       if (1 <? length options)%nat then Some ("type_" +:+ pretty e.1, type_question e.2 options) else None)
       (enumerate (se_order seen))
     ++ (missing_question rule (length live) <$> missing)
     ++ (misfit_question rule live <$> misfits)).

(** The state of the loops over the answers of round two. *)
Record Second := mkSecond { se_rule : TableRule; se_evolved : Evolved }.

Definition record_changes (o : Evolved) (changes : list Change) : Evolved :=
  mkEvolved (ev_changes o ++ changes) (ev_reshaped o) (ev_quarantine o).

(** A new column. *)
Definition add_column (seen : Seen) (answers : gmap string Answer) (s : Second) (e : nat * string) : Second :=
  let '(index, key) := e in
  if (MAX_COLUMNS <=? length (tr_columns (se_rule s)) + 2)%nat
  then mkSecond (se_rule s) (record_changes (se_evolved s) [at_limit key])
  else
    let '(kind, change) := pick_kind answers ("type_" +:+ pretty index) key (candidates (values_of seen key)) in
    mkSecond (with_columns (se_rule s) (tr_columns (se_rule s) ++ [mkRuleColumn key (kind_name kind) false []]))
      (mkEvolved (ev_changes (se_evolved s) ++ change ++ [by_rule ("new column " +:+ key) (kind_name kind)]) true
         (ev_quarantine (se_evolved s))).

(** A required column that records lack. *)
Definition settle_missing (answers : gmap string Answer) (s : Second) (e : nat * list nat) : Second :=
  let '(at_, without) := e in
  let name := column_at (se_rule s) at_ in
  let o := se_evolved s in
  match decided answers ("optional_" +:+ pretty at_) with
  | Some (false, confidence) =>
    mkSecond (se_rule s)
      (mkEvolved (ev_changes o ++ [by_judge (name +:+ " missing") "refuse the records" confidence]) (ev_reshaped o)
         (foldl (λ q index, <[index := "missing the required field " +:+ quoted name]> q) (ev_quarantine o) without))
  | answer =>
    mkSecond (change_column set_optional at_ (se_rule s))
      (record_changes o [match answer with
                         | Some (_, confidence) => by_judge (name +:+ " missing") "now optional" confidence
                         | None => by_rule (name +:+ " missing") "now optional"
                         end])
  end.

(** A column some values do not fit. *)
Definition settle_misfit (answers : gmap string Answer) (s : Second) (e : nat * list Kind) : Second :=
  let '(at_, wider) := e in
  let name := column_at (se_rule s) at_ in
  let o := se_evolved s in
  match chosen_kind answers ("widen_" +:+ pretty at_) wider with
  | Some (kind, confidence) =>
    mkSecond (change_column (set_kind kind) at_ (se_rule s))
      (mkEvolved (ev_changes o ++ [by_judge ("widen " +:+ name) (kind_name kind) confidence]) true (ev_quarantine o))
  | None =>
    mkSecond (se_rule s) (record_changes o [by_rule ("widen " +:+ name) "kept; values that do not fit are in the catch-all"])
  end.

(** The records that are not refused. *)
Definition live_records (q : gmap nat string) (records : list Record_) : list (nat * Record_) :=
  filter (λ e, q !! e.1 = None) (enumerate records).

(** The answers of round two. *)
Definition second_round (rule : TableRule) (seen : Seen) (missing : list (nat * list nat)) (misfits : list (nat * list Kind))
    (o : Evolved) (answers : gmap string Answer) : TableRule * Evolved :=
  let s := foldl (add_column seen answers) (mkSecond rule o) (enumerate (se_order seen)) in
  let s := foldl (settle_missing answers) s missing in
  let s := foldl (settle_misfit answers) s misfits in
  (se_rule s, se_evolved s).

(** [evolve]; the rule is returned changed. *)
Definition evolve (rule : TableRule) (source : string) (records : list Record_) : Ingesting (TableRule * Evolved) :=
  if bool_decide (length records = 0%nat) then returns (Ok (rule, mkEvolved [] false ∅))
  else
    let seen := unknown_fields rule records in
    f ← ask_fold (consider_field rule records seen) (mkFirstRound (keys_question (se_order seen)) [] [] ∅) (se_order seen);
    answers ← ask_judge (describe source records) (fr_questions f);
    let s := settle rule (se_order seen) f answers in
    let rule := st_rule s in
    let quarantine := key_quarantine rule records in
    let live := live_records quarantine records in
    let o := mkEvolved (st_changes s) (st_reshaped s) quarantine in
    if bool_decide (length live = 0%nat) then returns (Ok (rule, o))
    else
      let seen := unknown_fields rule live.*2 in
      let missing := missing_columns rule live in
      let misfits := misfit_columns rule live in
      answers ← ask_judge (describe source live.*2) (second_questions rule seen live missing misfits);
      returns (Ok (second_round rule seen missing misfits o answers)).

(** ** Embeddings *)

Inductive Prose := ProseNo | ProseMaybe | ProseClearly.

Definition sum (l : list nat) : nat := foldr Nat.add 0%nat l.

(** [prose]. *)
Definition prose (values : list str) : Prose :=
  let seen := filter (λ v, trim v ≠ []) values in
  match seen with
  | [] => ProseNo
  | _ =>
    let count := length seen in
    let characters := (sum ((λ v, length (chars (length v) v)) <$> seen) / count)%nat in
    let words := (sum ((λ v, length (split_whitespace v)) <$> seen) / count)%nat in
    if (length (remove_dups seen) <? 2)%nat && (1 <? count)%nat then ProseNo
    else if (60 <=? characters)%nat && (8 <=? words)%nat then ProseClearly
    else if (24 <=? characters)%nat && (3 <=? words)%nat then ProseMaybe
    else ProseNo
  end.

(** The first of the names whose field is a text. *)
Fixpoint find_text (r : Record_) (names : list string) : option str :=
  match names with
  | [] => None
  | name :: names => match r !! name with Some (LText t) => Some t | _ => find_text r names end
  end.

(** What is known of the text columns: to be considered done, to be embedded, to be asked about. *)
Record Texts := mkTexts { tx_clearly : list string; tx_maybe : list string; tx_considered : list string }.

Definition consider_text (rule : TableRule) (records : list Record_) (t : Texts) (c : RuleColumn) : Texts :=
  if negb (bool_decide (rc_kind c = kind_name KString)) || is_key rule c || bool_decide (rc_name c ∈ tr_embed_considered rule)
  then t
  else match omap (λ r, find_text r (column_names c)) records with
       | [] => t
       | seen =>
         match prose seen with
         | ProseNo => mkTexts (tx_clearly t) (tx_maybe t) (tx_considered t ++ [rc_name c])
         | ProseClearly => mkTexts (tx_clearly t ++ [rc_name c]) (tx_maybe t) (tx_considered t)
         | ProseMaybe => mkTexts (tx_clearly t) (tx_maybe t ++ [rc_name c]) (tx_considered t)
         end
       end.

Definition embed_question (e : nat * string) : string * Question :=
  ("embed_" +:+ pretty e.1,
   QNoul ("The field " +:+ quoted e.2 +:+ " holds free text that someone would want to search by meaning - a description, "
          +:+ "a message, a review, a note - rather than a name, a title, a code or a label.")).

(** The answer about one text column: wanted, recorded, considered. *)
Definition judge_text (answers : gmap string Answer) (acc : list (string * Change) * list Change * list string) (e : nat * string)
    : list (string * Change) * list Change * list string :=
  let '(wanted, changes, considered) := acc in
  let '(index, name) := e in
  let key := "embed_" +:+ pretty index in
  match decided answers key with
  | Some (true, confidence) => (wanted ++ [(name, by_judge ("embed " +:+ name) "true" confidence)], changes, considered)
  | Some (false, confidence) => (wanted, changes ++ [by_judge ("embed " +:+ name) "false" confidence], considered ++ [name])
  | None =>
    if bool_decide (is_Some (answers !! key))
    then (wanted, changes ++ [by_rule ("embed " +:+ name) "false"], considered ++ [name])
    else acc
  end.

(** The names a new vector column may not have. *)
Definition vector_names (rule : TableRule) : list string :=
  (rc_name <$> tr_columns rule) ++ (em_column <$> tr_embeddings rule) ++ [ID; EXTRA].

Definition add_embedding (model : string) (dimensions : N) (acc : TableRule * list Change) (e : string * Change)
    : TableRule * list Change :=
  let '(rule, changes) := acc in
  let '(name, change) := e in
  let base := name +:+ "_embedding" in
  let column := fresh_name (length (vector_names rule) + 1) (λ n, bool_decide (n ∈ vector_names rule)) base base 2 in
  (with_embeddings rule (tr_embeddings rule ++ [mkEmbedding name column model dimensions]) (tr_embed_considered rule ++ [name]),
   changes ++ [change]).

(** [plan_embeddings]; the rule is returned changed. *)
Definition plan_embeddings (embedder : option string) (rule : TableRule) (source : string) (records : list Record_)
    : Ingesting (TableRule * list Change * bool) :=
  match embedder with
  | None => returns (Ok (rule, [], false))
  | Some model =>
    if existsb (λ e, negb (bool_decide (em_model e = model))) (tr_embeddings rule) || tr_keys_are_data rule
    then returns (Ok (rule, [], false))
    else
      let t := foldl (consider_text rule records) (mkTexts [] [] []) (tr_columns rule) in
      let questions := collect (embed_question <$> enumerate (tx_maybe t)) in
      answers ← ask_judge (describe source records) questions;
      let '(wanted, changes, considered) :=
        foldl (judge_text answers) ((λ name, (name, by_rule ("embed " +:+ name) "true")) <$> tx_clearly t, [], tx_considered t)
          (enumerate (tx_maybe t)) in
      let rule := with_embeddings rule (tr_embeddings rule) (tr_embed_considered rule ++ considered) in
      match wanted with
      | [] => returns (Ok (rule, changes, false))
      | _ =>
        width ← match tr_embeddings rule with
                | e :: _ => returns (Ok (Ok (em_dimensions e)))
                | [] => ask Dimensions
                end;
        match width with
        | Err error => returns (Ok (rule, changes ++ [by_rule "embedding" ("unavailable: " +:+ error)], false))
        | Ok dimensions =>
          let '(rule, changes) := foldl (add_embedding model dimensions) (rule, changes) wanted in
          returns (Ok (rule, changes, true))
        end
      end
  end.

End Evolve.
