(* ===== verification/IngestRun.v ===== *)
(** * IngestRun: one request to ingest

    [ingest] of [crates/walleye-node/src/ingest.rs] and what it calls to write: the vectors of a
    batch ([vectors_for]), the rows written without theirs ([repair]), and the table made again from
    bronze ([rebuild]).  A query the code formats as SQL is a question of its own; the answers of
    the engine, the object store, the judge and the embedding model are any. *)

From Stdlib Require Import SpecFloat.
From stdpp Require Import pretty.
From S2P Require Import Prelude Text Programs Cron Literal Ingest IngestRules IngestEvolve.

(** What one request did. *)
Record Report := mkReport {
  rp_source : string;
  rp_table : string;
  rp_created : bool;
  rp_accepted : nat;
  rp_quarantined : nat;
  rp_rescued : nat;
  rp_rebuilt : bool;
  rp_embedded : nat;
  rp_unembedded : nat;
  rp_changes : list Change;
}.

Section Run.
Context `{IngestHost}.

Abbreviation Record_ := (gmap string Literal).
Abbreviation Vectors := (gmap string (list spec_float)).

(** ** Vectors *)

Definition known_more (known : Vectors) (missing : list string) (vectors : list (list spec_float)) : Vectors :=
  foldl (λ m e, <[e.1 := e.2]> m) known (zip missing vectors).

(** [vectors_for]: what is known afterwards, and why it is not all. *)
Definition vectors_for (embedder : option string) (rule : TableRule) (texts : list string) (known : Vectors)
    : Ingesting (Vectors * option string) :=
  match embedder with
  | None => returns (Ok (known, None))
  | Some model =>
    if bool_decide (length (tr_embeddings rule) = 0%nat) then returns (Ok (known, None))
    else
      match head (filter (λ e, em_model e ≠ model) (tr_embeddings rule)) with
      | Some other =>
        returns (Ok (known, Some ("this table's vectors come from " +:+ em_model other +:+ ", and " +:+ model
                                  +:+ " is configured; vectors from two models cannot be compared")))
      | None =>
        match filter (λ t, known !! t = None) texts with
        | [] => returns (Ok (known, None))
        | missing =>
          answer ← ask (Embed missing);
          match answer with
          | Ok vectors => returns (Ok (known_more known missing vectors, None))
          | Err error => returns (Ok (known, Some error))
          end
        end
      end
  end.

(** ** Rows of bronze *)

(** [arrivals]. *)
Definition arrival (r : StoredRow) : option Arrived :=
  text ← raw_value (sr_record r);
  let a := arrived_new (sr_source r) text in
  if bool_decide (is_Some (ar_fields a)) then Some (mkArrived (sr_id r) (ar_raw a) (ar_fields a)) else None.

Definition arrivals (rows : list StoredRow) : list Arrived := omap arrival rows.

Definition is_ascii_hexdigit (b : byte) : bool := is_digit b || in_range 0x61 0x66 b || in_range 0x41 0x46 b.

Definition hex_ids (ids : list string) : list string := filter (λ id, forallb is_ascii_hexdigit (as_bytes id) = true) ids.

(** [repair]: how many rows were given vectors. *)
Definition repair (rule : TableRule) (embedder : option string) : Ingesting nat :=
  if bool_decide (length (tr_embeddings rule) = 0%nat) || bool_decide (embedder = None) then returns (Ok 0%nat)
  else
    answer ← ask (MissingVectors rule);
    match hex_ids (default [] answer) with
    | [] => returns (Ok 0%nat)
    | ids =>
      answer ← ask (BronzeById ids);
      match answer with
      | None => returns (Ok 0%nat)
      | Some rows =>
        let records := arrivals rows in
        '(known, why) ← vectors_for embedder rule (texts rule records) ∅;
        match why with
        | Some _ => returns (Ok 0%nat)
        | None =>
          match batch rule records known with
          | Err Panic => returns (Err Panic)
          | Err (Failed _) => returns (Ok 0%nat)
          | Ok built =>
            if bool_decide (num_rows (bu_batch built) = 0%nat) then returns (Ok 0%nat)
            else
              appended ← ask (Append (tr_table rule) (bu_batch built));
              match appended with
              | Ok _ => returns (Ok (bu_embedded built))
              | Err _ => returns (Ok 0%nat)
              end
          end
        end
      end
    end.

(** ** Making a table again *)

Definition keep_vector (e : Embedding) (known : Vectors) (row : string * list spec_float) : Vectors :=
  if N.of_nat (length row.2) =? em_dimensions e then <[row.1 := row.2]> known else known.

Definition keep_vectors (e : Embedding) (known : Vectors) (answer : option (list (string * list spec_float))) : Vectors :=
  foldl (keep_vector e) known (default [] answer).

(** The vectors the table already holds. *)
Definition stored_vectors (rule : TableRule) (known : Vectors) (e : Embedding) : Ingesting Vectors :=
  answer ← ask (StoredVectors (tr_table rule) (em_source e) (em_column e));
  returns (Ok (keep_vectors e known answer)).

(** [rows.chunks(n)]. *)
Fixpoint chunks {A} (fuel n : nat) (l : list A) : list (list A) :=
  match fuel, l with
  | S fuel, _ :: _ => take n l :: chunks fuel n (drop n l)
  | _, _ => []
  end.

(** What a rebuild has counted: rescued, embedded, awaiting. *)
Record Totals := mkTotals { to_rescued : nat; to_embedded : nat; to_awaiting : nat }.

Definition rebuild_chunk (rule : TableRule) (embedder : option string) (acc : Vectors * Totals) (rows : list StoredRow)
    : Ingesting (Vectors * Totals) :=
  let '(known, total) := acc in
  let records := arrivals rows in
  '(known, _) ← vectors_for embedder rule (texts rule records) known;
  built ← returns (batch rule records known);
  let total := mkTotals (to_rescued total + bu_rescued built)%nat (to_embedded total + bu_embedded built)%nat
                 (to_awaiting total + bu_awaiting built)%nat in
  if bool_decide (num_rows (bu_batch built) = 0%nat) then returns (Ok (known, total))
  else
    _ ← try_ask (Append (tr_table rule) (bu_batch built));
    returns (Ok (known, total)).

(** [rebuild]. *)
Definition rebuild (rule : TableRule) (embedder : option string) : Ingesting Totals :=
  known ← ask_fold (stored_vectors rule) ∅ (tr_embeddings rule);
  _ ← ask (DropTable (tr_table rule));
  _ ← try_ask (Define (definition rule) false);
  match filter (λ s, valid_source s = true) (tr_sources rule) with
  | [] => returns (Ok (mkTotals 0 0 0))
  | sources =>
    rows ← try_ask (BronzeOf sources (tr_table rule));
    '(_, total) ← ask_fold (rebuild_chunk rule embedder) (known, mkTotals 0 0 0) (chunks (length rows) 2048 rows);
    returns (Ok total)
  end.

(** ** The request *)

Definition system_table (name : string) (columns : list Column) : StreamDefinition :=
  mkStreamDefinition name columns [ID] None [] [].

Definition bronze_table : StreamDefinition :=
  system_table BRONZE [mkColumn ID "string" false; mkColumn "source" "string" false;
                       mkColumn "received_at" "int64" false; mkColumn "record" "string" false].

Definition quarantine_table : StreamDefinition :=
  system_table QUARANTINE [mkColumn ID "string" false; mkColumn "source" "string" false;
                           mkColumn "table_name" "string" true; mkColumn "reason" "string" false;
                           mkColumn "record" "string" false].

(** [ensure_system_tables]. *)
Definition ensure_system_tables : Ingesting unit :=
  _ ← try_ask (Define bronze_table true);
  try_ask (Define quarantine_table true).

Definition bronze_rows (source : string) (received : N) (arrived : list Arrived) : list BronzeRow :=
  (λ a, mkBronzeRow (ar_id a) source received (ar_raw a)) <$> arrived.

Definition is_object (a : Arrived) : Prop := is_Some (ar_fields a).

#[global] Instance is_object_dec a : Decision (is_object a).
Proof. unfold is_object. apply _. Defined.

(** The records that are objects, and their fields. *)
Definition objects_of (arrived : list Arrived) : list Arrived := filter is_object arrived.
Definition fields_of (objects : list Arrived) : list Record_ := omap ar_fields objects.

Definition not_objects (arrived : list Arrived) : list (Arrived * string) :=
  (λ a, (a, "not a JSON object")) <$> filter (λ a, ¬ is_object a) arrived.

Definition refused_objects (objects : list Arrived) (q : gmap nat string) : list (Arrived * string) :=
  omap (λ e : nat * Arrived, reason ← q !! e.1; Some (e.2, reason)) (enumerate objects).

Definition quarantine_rows (source table : string) (refused : list (Arrived * string)) : list QuarantineRow :=
  (λ e : Arrived * string, mkQuarantineRow (ar_id e.1) source table e.2 (ar_raw e.1)) <$> refused.

Definition accepted_objects (objects : list Arrived) (refused : list (Arrived * string)) : list Arrived :=
  filter (λ a, ar_id a ∉ (λ e : Arrived * string, ar_id e.1) <$> refused) objects.

(** The history keeps its last 200 entries. *)
Definition record_history (rule : TableRule) (changes : list Change) : TableRule :=
  let history := tr_history rule ++ changes in
  mkTableRule (tr_table rule) (tr_version rule) (tr_columns rule) (tr_primary_key rule) (tr_keys_are_data rule)
    (tr_sources rule) (drop (length history - 200) history) (tr_embeddings rule) (tr_embed_considered rule).

Definition bump_version (rule : TableRule) : TableRule :=
  mkTableRule (tr_table rule) (tr_version rule + 1) (tr_columns rule) (tr_primary_key rule) (tr_keys_are_data rule)
    (tr_sources rule) (tr_history rule) (tr_embeddings rule) (tr_embed_considered rule).

Definition note_source (rule : TableRule) (source : string) : TableRule :=
  if bool_decide (source ∈ tr_sources rule) then rule else push_source rule source.

(** The rule of a source, under the lock of the source. *)
Definition route_source (source : string) (records : list Record_) : Ingesting (TableRule * bool * list Change) :=
  found ← try_ask (LoadRoute source);
  match found with
  | Some r =>
    rule ← try_ask (LoadRule (ro_table r));
    match rule with
    | Some rule => returns (Ok (rule, false, []))
    | None => returns (Err (Failed ("source " +:+ source +:+ " routes to " +:+ ro_table r +:+ " which has no rule")))
    end
  | None =>
    '(rule, created, changes) ← route source records;
    _ ← try_ask (SaveRule rule);
    _ ← try_ask (SaveRoute (mkRoute source (tr_table rule)));
    returns (Ok (rule, created, changes))
  end.

(** The rule as it is now that the table is locked. *)
Definition latest_rule (rule : TableRule) (created : bool) (source : string) : Ingesting TableRule :=
  if created then returns (Ok (note_source rule source))
  else
    latest ← try_ask (LoadRule (tr_table rule));
    returns (Ok (note_source (default rule latest) source)).

(** The accepted records into the table as it is. *)
Definition write_rows (rule : TableRule) (embedder : option string) (accepted : list Arrived)
    : Ingesting (nat * nat * nat * list Change) :=
  repaired ← repair rule embedder;
  '(known, why) ← vectors_for embedder rule (texts rule accepted) ∅;
  let deferred := match why with Some why => [by_rule "embedding" ("deferred: " +:+ why)] | None => [] end in
  built ← returns (batch rule accepted known);
  let done := (bu_rescued built, (bu_embedded built + repaired)%nat, bu_awaiting built, deferred) in
  if bool_decide (num_rows (bu_batch built) = 0%nat) then returns (Ok done)
  else
    _ ← try_ask (Append (tr_table rule) (bu_batch built));
    returns (Ok done).

Definition count_rescued (rule : TableRule) (accepted : list Arrived) : nat :=
  length (filter (λ a, (row rule a).1.2 = true) accepted).

(** The silver half of the request. *)
Definition write_silver (rule : TableRule) (embedder : option string) (rebuilt : bool) (accepted : list Arrived)
    : Ingesting (nat * nat * nat * list Change) :=
  if rebuilt then
    total ← rebuild rule embedder;
    returns (Ok (count_rescued rule accepted, to_embedded total, to_awaiting total, []))
  else write_rows rule embedder accepted.

(** What happens under the lock of the table. *)
Definition ingest_table (source : string) (arrived : list Arrived) (rule : TableRule) (created : bool) (changes : list Change)
    : Ingesting Report :=
  let objects := objects_of arrived in
  let records := fields_of objects in
  rule ← latest_rule rule created source;
  '(rule, evolved) ← evolve rule source records;
  embedder ← ask ConfiguredModel;
  '(rule, planned, embedding_added) ← plan_embeddings embedder rule source records;
  let changes := changes ++ ev_changes evolved ++ planned in
  let quarantine := not_objects arrived ++ refused_objects objects (ev_quarantine evolved) in
  _ ← match quarantine with
      | [] => returns (Ok tt)
      | _ => try_ask (WriteQuarantine (quarantine_rows source (tr_table rule) quarantine))
      end;
  let rule := record_history rule changes in
  let accepted := accepted_objects objects quarantine in
  let rebuilt := created || ev_reshaped evolved || embedding_added in
  let rule := if rebuilt then bump_version rule else rule in
  _ ← try_ask (SaveRule rule);
  '(rescued, embedded, unembedded, deferred) ← write_silver rule embedder rebuilt accepted;
  returns (Ok (mkReport source (tr_table rule) created (length accepted) (length quarantine) rescued rebuilt
                 embedded unembedded (changes ++ deferred))).

(** [ingest]. *)
Definition ingest (source : string) (raws : list str) : Ingesting Report :=
  if negb (valid_source source)
  then returns (Err (Failed "a source is 1 to 128 letters, digits, '.', '_' or '-'"))
  else if bool_decide (length raws = 0%nat) then returns (Err (Failed "send at least one record"))
  else
    _ ← ensure_system_tables;
    let arrived := arrived_new source <$> raws in
    received ← ask Now;
    _ ← try_ask (WriteBronze (bronze_rows source received arrived));
    _ ← ask (LockSource source);
    '(rule, created, changes) ← finally (route_source source (fields_of (objects_of arrived))) (UnlockSource source);
    _ ← ask (LockTable (tr_table rule));
    finally (ingest_table source arrived rule created changes) (UnlockTable (tr_table rule)).

End Run.
