(* ===== verification/IngestKeeps.v ===== *)
(** * IngestKeeps: the shape of a rule survives every decision

    Whatever the judge answers, [design] makes a rule of the shape of [IngestShape], and [evolve] and
    [plan_embeddings] keep it; a record [evolve] does not refuse has its key; and a rule whose shape
    is reported unchanged makes the same table as before. *)

From Stdlib Require Import SpecFloat.
From stdpp Require Import pretty.
From S2P Require Import Prelude Text Programs Traces Cron Literal LiteralSafety Ingest IngestSafety IngestShape IngestRules IngestNames IngestEvolve.

(** ** Loops that ask *)

Section Loops.
Context (P : list (Event IngestReq) → ∀ X, IngestReq X → Prop).

Lemma always_fold {S A} (I : list A → S → Prop) (f : S → A → Ingesting S) l s tr :
  I [] s →
  (∀ done x rest s tr, l = done ++ x :: rest → I done s → always P (λ _, I (done ++ [x])) tr (f s x)) →
  always P (λ _, I l) tr (ask_fold f s l).
Proof.
  intros H0 Hstep. assert (∀ rest done s tr, l = done ++ rest → I done s → always P (λ _, I l) tr (ask_fold f s rest)) as Hall;
    [|by apply (Hall l [])].
  induction rest as [|x rest IH]; intros done s' tr' Hl Hs; cbn [ask_fold].
  { rewrite app_nil_r in Hl. subst. by intros ? [= <-]. }
  apply (always_bind P (λ _, I (done ++ [x]))); [by eapply Hstep|]. intros tr'' s'' Hs''.
  apply (IH (done ++ [x])); [by rewrite <- app_assoc|done].
Qed.

Lemma always_any {S A} (f : S → A → Ingesting S) l s tr :
  (∀ s x tr, always P (λ _ _, True) tr (f s x)) → always P (λ _ _, True) tr (ask_fold f s l).
Proof. intros Hf. by apply (always_fold (λ _ _, True)). Qed.

Lemma always_judge {B} (R : list (Event IngestReq) → B → Prop) tr state questions (k : gmap string Answer → Ingesting B) :
  P tr _ (Judge state questions) → (∀ tr' answers, always P R tr' (k answers)) →
  always P R tr (answers ← ask_judge state questions; k answers).
Proof.
  intros Hp Hk. unfold ask_judge. case_bool_decide; [by apply Hk|]. split; [done|]. intros answers. apply Hk.
Qed.

End Loops.

(** ** A new table *)

Lemma update_first_names (p : RuleColumn → bool) f l :
  (∀ c, rc_name (f c) = rc_name c ∧ rc_aliases (f c) = rc_aliases c) →
  rc_name <$> update_first p f l = rc_name <$> l ∧ concat (column_names <$> update_first p f l) = concat (column_names <$> l).
Proof.
  intros Hf. induction l as [|c l [IHn IHa]]; [done|]. cbn. destruct (p c); cbn.
  - unfold column_names. by destruct (Hf c) as [-> ->].
  - by rewrite IHn, IHa.
Qed.

Lemma update_first_in {A} (p : A → bool) f l c : c ∈ update_first p f l → c ∈ l ∨ ∃ d, d ∈ l ∧ p d = true ∧ c = f d.
Proof.
  induction l as [|d l IH]; cbn; [by intros ?%not_elem_of_nil|]. destruct (p d) eqn:E.
  - intros [->|Hc]%elem_of_cons; [right; exists d; split; [by left|done]|left; by right].
  - intros [->|Hc]%elem_of_cons; [left; by left|]. destruct (IH Hc) as [?|(d' & ? & ?)]; [left; by right|right; exists d'; split; [by right|done]].
Qed.

Lemma update_first_hit {A} (p : A → bool) f l : Exists (λ c, p c = true) l → ∃ d, d ∈ l ∧ p d = true ∧ f d ∈ update_first p f l.
Proof.
  induction l as [|d l IH]; [by intros ?%Exists_nil|]. cbn. destruct (p d) eqn:E.
  - intros _. exists d. split_and!; [by left|done|by left].
  - intros [Hd|Hl]%Exists_cons; [congruence|]. destruct (IH Hl) as (d' & ? & ? & ?). exists d'. split_and!; [by right|done|by right].
Qed.

Lemma all_names_plain (l : list RuleColumn) : (∀ c, c ∈ l → rc_aliases c = []) → concat (column_names <$> l) = rc_name <$> l.
Proof.
  induction l as [|c l IH]; intros Hl; cbn; [done|]. unfold column_names at 1. rewrite Hl by by left. cbn.
  f_equal. apply IH. intros; apply Hl. by right.
Qed.

Section Design.
Context `{IngestHost}.
Implicit Types records : list (gmap string Literal).

Lemma design_column_step seen answers columns changes i key :
  (length columns + 2 < MAX_COLUMNS)%nat →
  ∃ kind required changes', design_column seen answers (columns, changes) (i, key)
    = (columns ++ [mkRuleColumn key (kind_name kind) required []], changes').
Proof.
  intros Hlen. unfold design_column. destruct (Nat.leb_spec MAX_COLUMNS (length columns + 2)); [lia|].
  destruct (pick_kind _ _ _ _) as [kind c1]. destruct (decided answers _) as [[yes conf]|]; by do 3 eexists.
Qed.

(** The columns a fold over the fields of a small batch makes. *)
Lemma design_columns seen answers es columns changes :
  (length columns + length es + 2 ≤ MAX_COLUMNS)%nat →
  let r := foldl (design_column seen answers) (columns, changes) es in
  rc_name <$> r.1 = (rc_name <$> columns) ++ (snd <$> es)
  ∧ ∀ c, c ∈ r.1 → c ∈ columns ∨ (rc_aliases c = [] ∧ ∃ k, rc_kind c = kind_name k).
Proof.
  cbn zeta. revert columns changes. induction es as [|[i key] es IH]; intros columns changes Hlen; cbn [foldl].
  { cbn. rewrite app_nil_r. split; [done|auto]. }
  cbn in Hlen. destruct (design_column_step seen answers columns changes i key) as (kind & required & changes' & ->); [lia|].
  destruct (IH (columns ++ [mkRuleColumn key (kind_name kind) required []]) changes') as [IHn IHc].
  { rewrite length_app. cbn. lia. }
  split; [rewrite IHn, fmap_app, <- app_assoc; done|]. intros c Hc. destruct (IHc c Hc) as [Hin|?]; [|by right].
  apply elem_of_app in Hin as [?| ->%list_elem_of_singleton]; [by left|right]. split; [done|by eexists].
Qed.

Lemma enumerate_snd {A} (l : list A) : snd <$> enumerate l = l.
Proof. unfold enumerate. apply snd_zip. by rewrite length_seq. Qed.

Lemma length_enumerate {A} (l : list A) : length (enumerate l) = length l.
Proof. unfold enumerate. rewrite length_zip_with, length_seq. lia. Qed.

(** A keyless table whose records' keys are data. *)
Definition all_data (rule : TableRule) : Prop := tr_keys_are_data rule = true ∧ tr_columns rule = [].

Lemma key_column_keyable seen key c : kind_keyable (column_kind (key_column seen key c)) = true.
Proof.
  unfold key_column, column_kind. cbn [rc_kind]. destruct (kind_from_name (rc_kind c)) as [k|] eqn:E; cbn.
  - destruct (kind_keyable k) eqn:Ek; [by rewrite E|]. destruct (head _) as [k'|] eqn:Eh; [|done].
    assert (kind_keyable k' = true) as Hk'.
    { apply head_Some_elem_of in Eh. by apply list_elem_of_filter in Eh as [? _]. }
    by destruct k'.
  - destruct (head _) as [k'|] eqn:Eh; [|done]. assert (kind_keyable k' = true) as Hk'.
    { apply head_Some_elem_of in Eh. by apply list_elem_of_filter in Eh as [? _]. }
    by destruct k'.
Qed.

Lemma design_name_new names taken answers :
  Forall (new_name taken) names → names ≠ [] → new_name taken (design_name names answers).1.
Proof.
  intros Hnames Hne. assert (new_name taken (default "" (head names))) as Hhead.
  { destruct names; [done|]. by inversion Hnames. }
  unfold design_name. destruct (chosen answers "name") as [[name conf]|]; [|done].
  case_bool_decide as Hin; [|done]. by eapply Forall_forall in Hnames.
Qed.

Lemma design_data_limit named answers : (design_data named answers).1 = false → (length named + 2 ≤ MAX_COLUMNS)%nat.
Proof.
  unfold design_data. destruct (decided answers "keys_are_data") as [[yes conf]|]; cbn [fst]; intros Ho;
    apply orb_false_iff in Ho as [_ Ho]; by apply Nat.ltb_ge in Ho.
Qed.

Lemma design_key_in keys answers key : (design_key keys answers).1 = Some key → key ∈ keys.
Proof.
  unfold design_key. destruct (chosen answers "key") as [[k conf]|]; [|done].
  destruct (negb _ && _) eqn:E; [|done]. intros [= ->]. by bool_facts.
Qed.

(** What [design] makes of any answers. *)
Lemma design_table_shape source records seen taken answers :
  NoDup (se_order seen) →
  let names := table_names source records seen taken in
  let named := filter (λ k, column_name k = true) (se_order seen) in
  let keys := filter (λ k, key_candidate records seen k = true) named in
  let rule := (design_table source records seen names named keys answers).1 in
  rule_shape rule ∧ (keyed rule ∨ all_data rule) ∧ new_name taken (tr_table rule).
Proof.
  intros Hnd names named keys. destruct (table_names_new source records seen taken) as [Hnames Hne]. fold names in Hnames, Hne.
  assert (NoDup named) as Hnamed by by apply NoDup_filter.
  assert (∀ k, k ∈ named → column_name k = true) as Hcn by (intros k [? _]%list_elem_of_filter; done).
  unfold design_table.
  pose proof (design_name_new names taken answers Hnames Hne) as Htable.
  destruct (design_name names answers) as [table c1]. cbn [fst] in Htable.
  pose proof (design_key_in keys answers) as Hpk. destruct (design_key keys answers) as [pk c4]. cbn [fst] in Hpk.
  assert (∀ key, pk = Some key → key ∈ named) as Hpk' by (intros key [_ ?]%Hpk%list_elem_of_filter; done).
  pose proof (design_data_limit named answers) as Hlimit. destruct (design_data named answers) as [data c2]. cbn [fst] in Hlimit.
  destruct data; cbn [fst].
  - assert (match pk with Some key => update_first (λ c, bool_decide (rc_name c = key)) (key_column seen key) [] | None => [] end = [])
      as -> by by destruct pk.
    split; [|split; [right; done|done]]. split; cbn [tr_table tr_columns tr_embeddings].
    { apply Htable. } { constructor. } { by intros ? ?%not_elem_of_nil. } { by apply Nat.leb_le. } { constructor. } { by intros ? ?%not_elem_of_nil. }
  - specialize (Hlimit eq_refl).
    destruct (design_columns seen answers (enumerate named) [] []) as [Hn Hc]; [rewrite length_enumerate; cbn; lia|].
    destruct (foldl (design_column seen answers) ([], []) (enumerate named)) as [columns c3]. cbn [fst] in *.
    rewrite enumerate_snd in Hn. cbn in Hn.
    assert (∀ c, c ∈ columns → rc_aliases c = [] ∧ ∃ k, rc_kind c = kind_name k) as Hcols.
    { intros c Hin. destruct (Hc c Hin) as [?%not_elem_of_nil|?]; done. }
    set (columns' := match pk with Some key => _ | None => columns end).
    assert (rc_name <$> columns' = named ∧ concat (column_names <$> columns') = named
      ∧ ∀ c, c ∈ columns' → ∃ k, rc_kind c = kind_name k) as (Hn' & Ha' & Hk').
    { assert (concat (column_names <$> columns) = named) as Hplain by (rewrite all_names_plain; [done|]; intros c Hin; by apply Hcols).
      unfold columns'. destruct pk as [key|]; [|split_and!; [done|done|]; intros c Hin; by apply Hcols].
      destruct (update_first_names (λ c, bool_decide (rc_name c = key)) (key_column seen key) columns) as [-> ->]; [done|].
      split_and!; [done|done|]. intros c [Hin|(d & Hin & _ & ->)]%update_first_in; [by apply Hcols|].
      cbn. case_match; [by apply Hcols|by eexists]. }
    split; [|split; [left|done]].
    + split; cbn.
      * apply Htable.
      * unfold all_names. cbn. by rewrite Ha'.
      * intros c Hin. split; [|by apply Hk']. apply Hcn. rewrite <- Hn'. by apply list_elem_of_fmap_2.
      * rewrite <- (length_fmap rc_name), Hn'. lia.
      * constructor.
      * by intros ? ?%not_elem_of_nil.
    + intros key Hkey. cbn in Hkey |- *. pose proof (Hpk' key Hkey) as Hin. subst pk. unfold columns'.
      destruct (update_first_hit (λ c, bool_decide (rc_name c = key)) (key_column seen key) columns) as (d & Hd & Hb & Hin').
      { rewrite <- Hn in Hin. apply list_elem_of_fmap in Hin as (c & -> & Hc'). apply Exists_exists. exists c.
        split; [done|]. by rewrite bool_decide_true. }
      exists (key_column seen key d). split_and!; [done|by cbn; bool_facts|done|apply key_column_keyable].
Qed.

End Design.

(** ** Round one: columns that answer to more names *)

(** The same column under more names. *)
Definition same_column (c c' : RuleColumn) : Prop :=
  rc_name c' = rc_name c ∧ rc_kind c' = rc_kind c ∧ rc_required c' = rc_required c.

Record aliased (r r' : TableRule) : Prop := {
  al_table : tr_table r' = tr_table r;
  al_key : tr_primary_key r' = tr_primary_key r;
  al_vectors : tr_embeddings r' = tr_embeddings r;
  al_columns : Forall2 same_column (tr_columns r) (tr_columns r');
}.

Lemma same_column_refl l : Forall2 same_column l l.
Proof. apply Forall_Forall2_diag, Forall_forall. by intros. Qed.

Lemma aliased_refl r : aliased r r.
Proof. split; try done. apply same_column_refl. Qed.

Lemma aliased_names r r' : aliased r r' → rc_name <$> tr_columns r' = rc_name <$> tr_columns r.
Proof. intros [_ _ _ Hc]. induction Hc as [|c c' l l' [Hn _] _ IH]; cbn; [done|]. by rewrite Hn, IH. Qed.

Lemma column_kind_eq c c' : rc_kind c' = rc_kind c → column_kind c' = column_kind c.
Proof. unfold column_kind. by intros ->. Qed.

Lemma aliased_shape r r' : rule_shape r → aliased r r' → NoDup (all_names r') → rule_shape r'.
Proof.
  intros Hsh Hal Hnd. pose proof (aliased_names _ _ Hal) as Hnames. pose proof Hal as [Ht Hk He Hc]. split.
  - rewrite Ht. apply (sh_table _ Hsh).
  - done.
  - intros c' Hin. apply list_elem_of_lookup in Hin as [i Hi].
    destruct (Forall2_lookup_r _ _ _ _ _ Hc Hi) as (c & Hic & Hn & Hkind & _).
    rewrite Hn, Hkind. eapply (sh_columns _ Hsh), list_elem_of_lookup_2; done.
  - rewrite <- (Forall2_length _ _ _ Hc). apply (sh_count _ Hsh).
  - rewrite He. apply (sh_vectors _ Hsh).
  - intros e Hin. rewrite He in Hin. destruct (sh_vector _ Hsh e Hin) as [Hv Hd]. split; [|done].
    unfold vector_name_ok. by rewrite Hnames.
Qed.

Lemma aliased_keyed r r' : keyed r → aliased r r' → keyed r'.
Proof.
  intros Hkey [Ht Hk He Hc] key Hpk. rewrite Hk in Hpk. destruct (Hkey key Hpk) as (c & Hin & Hn & Hr & Hkk).
  apply list_elem_of_lookup in Hin as [i Hi]. destruct (Forall2_lookup_l _ _ _ _ _ Hc Hi) as (c' & Hi' & Hn' & Hkind & Hr').
  exists c'. split_and!; [by eapply list_elem_of_lookup_2|congruence|congruence|].
  by rewrite (column_kind_eq c c' Hkind).
Qed.

Lemma push_alias_names k i l :
  concat (column_names <$> alter (push_alias k) i l) = concat (column_names <$> l)
  ∨ concat (column_names <$> alter (push_alias k) i l) ≡ₚ k :: concat (column_names <$> l).
Proof.
  revert i. induction l as [|c l IH]; intros [|i]; cbn; [by left|by left| |].
  - right. rewrite <- app_assoc. cbn. rewrite <- Permutation_middle. apply perm_swap.
  - destruct (IH i) as [->|Hp]; [by left|right]. fold (alter (push_alias k) i l). rewrite Hp.
    rewrite <- Permutation_middle. apply perm_swap.
Qed.

(** A rule with fields given to its columns: [keys] were considered so far. *)
Record settling (rule0 : TableRule) (keys : list string) (r : TableRule) (reshaped : bool) : Prop := {
  sg_aliased : aliased rule0 r;
  sg_NoDup : NoDup (all_names rule0) → NoDup (all_names r);
  sg_names k : k ∈ all_names r → k ∈ all_names rule0 ∨ k ∈ keys;
  sg_same : reshaped = false → tr_columns r = tr_columns rule0;
}.

Lemma settling_more rule0 keys keys' r reshaped :
  settling rule0 keys r reshaped → (∀ k, k ∈ keys → k ∈ keys') → settling rule0 keys' r reshaped.
Proof. intros [] Hk. split; try done. intros k Hin. naive_solver. Qed.

Lemma settling_alias rule0 keys r reshaped k i :
  settling rule0 keys r reshaped → k ∉ all_names rule0 → k ∉ keys →
  settling rule0 (keys ++ [k]) (change_column (push_alias k) i r) true.
Proof.
  intros [Hal Hnd Hin Hsame] Hk0 Hk.
  assert (all_names (change_column (push_alias k) i r) = all_names r
    ∨ all_names (change_column (push_alias k) i r) ≡ₚ k :: all_names r) as Hnames by apply push_alias_names.
  assert (k ∉ all_names r) as Hnot by (intros [?|?]%Hin; done).
  split; [| |intros x Hx|done].
  - destruct Hal as [Ht Hkey He Hc]. split; try done. cbn. clear -Hc. revert i.
    induction Hc as [|c c' l l' Hcc Hl IH]; intros [|i]; cbn; [constructor|constructor| |].
    + constructor; [by destruct Hcc as (? & ? & ?)|done].
    + constructor; [done|apply IH].
  - intros H0. destruct Hnames as [->| ->]; [by apply Hnd|]. constructor; [done|by apply Hnd].
  - destruct Hnames as [Heq|Heq]; rewrite Heq in Hx.
    + destruct (Hin x Hx); [by left|right; apply elem_of_app; by left].
    + apply elem_of_cons in Hx as [->|Hx]; [right; apply elem_of_app; right; by left|].
      destruct (Hin x Hx); [by left|right; apply elem_of_app; by left].
Qed.

Section Settle.
Context `{IngestHost}.

Lemma apply_spelled_settling rule0 unknown l keys s :
  settling rule0 keys (st_rule s) (st_reshaped s) →
  (∀ k, k ∈ (fst <$> l) → k ∉ all_names rule0) → NoDup (keys ++ (fst <$> l)) →
  let s' := foldl (apply_spelled unknown) s l in
  settling rule0 (keys ++ (fst <$> l)) (st_rule s') (st_reshaped s').
Proof.
  cbn zeta. revert keys s. induction l as [|[k i] l IH]; intros keys s Hs Hun Hnd; cbn [foldl].
  { cbn. by rewrite app_nil_r. }
  cbn in Hnd. rewrite cons_middle, app_assoc in Hnd. cbn [fmap list_fmap fst]. rewrite cons_middle, app_assoc. apply IH.
  - unfold apply_spelled. case_match.
    + cbn. eapply settling_more; [done|]. intros x Hx. apply elem_of_app. by left.
    + cbn. apply (settling_alias _ _ _ (st_reshaped s)); [done|apply Hun; by left|].
      apply NoDup_app in Hnd as [Hnd _]. apply NoDup_app in Hnd as (_ & Hnd & _). intros Hk. eapply Hnd; [done|]. by left.
  - intros x Hx. apply Hun. by right.
  - done.
Qed.

Lemma apply_lean_settling rule0 l keys s taken :
  settling rule0 keys (st_rule s) (st_reshaped s) →
  (∀ k, k ∈ ((λ e : spec_float * string * nat, e.1.2) <$> l) → k ∉ all_names rule0) →
  NoDup (keys ++ ((λ e : spec_float * string * nat, e.1.2) <$> l)) →
  let s' := (foldl apply_lean (s, taken) l).1 in
  settling rule0 (keys ++ ((λ e : spec_float * string * nat, e.1.2) <$> l)) (st_rule s') (st_reshaped s').
Proof.
  cbn zeta. revert keys s taken. induction l as [|[[conf k] i] l IH]; intros keys s taken Hs Hun Hnd; cbn [foldl].
  { cbn. by rewrite app_nil_r. }
  cbn in Hnd. rewrite cons_middle, app_assoc in Hnd. cbn [fmap list_fmap fst snd]. rewrite cons_middle, app_assoc.
  assert (settling rule0 (keys ++ [k]) (st_rule s) (st_reshaped s)) as Hskip.
  { eapply settling_more; [done|]. intros x Hx. apply elem_of_app. by left. }
  assert (∀ x, x ∈ ((λ e : spec_float * string * nat, e.1.2) <$> l) → x ∉ all_names rule0) as Hun'.
  { intros x Hx. apply Hun. by right. }
  unfold apply_lean at 2 4. case_bool_decide; [by apply IH|]. case_bool_decide; [by apply IH|]. apply IH; [|done..].
  cbn. apply (settling_alias _ _ _ (st_reshaped s)); [done|apply Hun; by left|].
  apply NoDup_app in Hnd as [Hnd _]. apply NoDup_app in Hnd as (_ & Hnd & _). intros Hk. eapply Hnd; [done|]. by left.
Qed.

(** The fields round one may give to columns. *)
Definition first_keys (f : FirstRound) : list string := (fst <$> fr_spelled f) ++ ((λ e : string * string * list nat, e.1.2) <$> fr_renames f).

Lemma lean_keys rule answers l :
  sublist ((λ e : spec_float * string * nat, e.1.2) <$> omap (lean rule answers) l) ((λ e : string * string * list nat, e.1.2) <$> l).
Proof.
  induction l as [|[[q k] maybe] l IH]; cbn; [constructor|].
  destruct (answers !! q) as [a|]; cbn; [|by apply sublist_cons].
  destruct (answer_label a) as [label|]; cbn; [|by apply sublist_cons].
  destruct (head _) as [i|]; cbn; [|by apply sublist_cons]. by apply sublist_skip.
Qed.

Lemma settle_keys_same rule answers :
  aliased rule (settle_keys rule answers).1 ∧ tr_columns (settle_keys rule answers).1 = tr_columns rule.
Proof.
  unfold settle_keys. destruct (decided answers "keys_are_data") as [[[|] conf]|]; cbn; (split; [|done]);
    try apply aliased_refl. split; try done. apply same_column_refl.
Qed.

(** Round one keeps the shape. *)
Lemma settle_settling rule unknown f answers :
  NoDup (first_keys f) → (∀ k, k ∈ first_keys f → k ∉ all_names rule) →
  let s := settle rule unknown f answers in
  settling rule (first_keys f) (st_rule s) (st_reshaped s).
Proof.
  intros Hnd Hun. cbn zeta. unfold settle. destruct (settle_keys_same rule answers) as [Hal Hcols].
  destruct (settle_keys rule answers) as [rule1 c0]. cbn [fst] in Hal, Hcols.
  assert (settling rule [] rule1 false) as H1.
  { split; [done| | |done]; unfold all_names; rewrite Hcols; auto. }
  destruct (tr_keys_are_data rule1); cbn.
  { eapply settling_more; [done|]. by intros ? ?%not_elem_of_nil. }
  unfold first_keys in Hnd, Hun. pose proof Hnd as Hnd'. apply NoDup_app in Hnd' as (Hn1 & Hdisj & Hn2).
  assert (settling rule (fst <$> fr_spelled f)
    (st_rule (foldl (apply_spelled unknown) (mkSettled rule1 false c0 []) (fr_spelled f)))
    (st_reshaped (foldl (apply_spelled unknown) (mkSettled rule1 false c0 []) (fr_spelled f)))) as H2.
  { apply (apply_spelled_settling rule unknown (fr_spelled f) []); [done| |done]. intros k Hk. apply Hun, elem_of_app. by left. }
  unfold settle_fields. set (s := foldl _ _ (fr_spelled f)) in *. cbn zeta.
  set (leans := merge_sort surer (omap (lean (st_rule s) answers) (fr_renames f))).
  assert (((λ e : spec_float * string * nat, e.1.2) <$> leans)
    ≡ₚ ((λ e : spec_float * string * nat, e.1.2) <$> omap (lean (st_rule s) answers) (fr_renames f))) as Hperm.
  { apply fmap_Permutation. apply merge_sort_Permutation. }
  pose proof (lean_keys (st_rule s) answers (fr_renames f)) as Hsub.
  assert (∀ k, k ∈ ((λ e : spec_float * string * nat, e.1.2) <$> leans) → k ∈ ((λ e : string * string * list nat, e.1.2) <$> fr_renames f)) as Hin.
  { intros k Hk. rewrite Hperm in Hk. by eapply elem_of_sublist. }
  eapply settling_more; [apply (apply_lean_settling rule leans (fst <$> fr_spelled f) s []); [done| |]|].
  - intros k Hk. apply Hun, elem_of_app. right. by apply Hin.
  - apply NoDup_app. split_and!; [done| |].
    + intros k Hk Hk'. eapply Hdisj; [done|]. by apply Hin.
    + rewrite Hperm. by eapply sublist_NoDup.
  - intros k [Hk|Hk]%elem_of_app; apply elem_of_app; [by left|right; by apply Hin].
Qed.

End Settle.

(** ** Unknown fields *)

Section Unknown.
Context `{IngestHost}.
Implicit Types records : list (gmap string Literal).

Lemma find_index_None {A} (p : A → bool) l : find_index p l = None → ∀ x, x ∈ l → p x = false.
Proof.
  induction l as [|y l IH]; cbn; [by intros _ ? ?%not_elem_of_nil|]. destruct (p y) eqn:E; [done|].
  destruct (find_index p l); [done|]. intros _ x [->|Hx]%elem_of_cons; [done|by apply IH].
Qed.

Lemma unknown_new rule key : is_unknown rule key = true →
  (key ∉ all_names rule) ∧ column_name key = true ∧ key ∉ em_column <$> tr_embeddings rule.
Proof.
  unfold is_unknown. rewrite !andb_true_iff, !negb_true_iff, bool_decide_eq_false. intros [[Hf Hc] He]. split_and!; [|done|].
  - unfold all_names. intros Hk. apply list_elem_of_In, in_concat in Hk as (names & Hn & Hk).
    apply list_elem_of_In, list_elem_of_fmap in Hn as (c & -> & Hin). apply list_elem_of_In in Hk.
    destruct (find_column rule key) eqn:E; [by destruct Hf|].
    pose proof (find_index_None _ _ E c Hin) as Hno. by rewrite bool_decide_eq_false in Hno.
  - intros (e & -> & Hin)%list_elem_of_fmap. apply not_true_iff_false in He. apply He. apply existsb_exists. exists e.
    split; [by apply list_elem_of_In|]. by rewrite bool_decide_true.
Qed.

Lemma unknown_fields_new rule records :
  NoDup (se_order (unknown_fields rule records))
  ∧ ∀ k, k ∈ se_order (unknown_fields rule records) → is_unknown rule k = true.
Proof.
  unfold unknown_fields. destruct (tr_keys_are_data rule); [split; [constructor|by intros ? ?%not_elem_of_nil]|].
  split; [apply see_all_NoDup|]. intros k Hk%see_all_in. apply list_elem_of_fmap in Hk as ([k' v] & -> & Hin).
  by apply list_elem_of_filter in Hin as [? _].
Qed.

Context (P : list (Event IngestReq) → ∀ X, IngestReq X → Prop).
Context (Pheld : ∀ tr t c, P tr _ (HeldValues t c)).

Lemma gather_option_any rule acc i tr : always P (λ _ _, True) tr (gather_option rule acc i).
Proof.
  unfold gather_option. destruct acc as [evidence options]. destruct (tr_columns rule !! i); [|done].
  destruct (evidence !! i); [done|]. split; [apply Pheld|done].
Qed.

Lemma could_be_one rule key carrying values cols acc spelled maybe :
  could_be rule key carrying values cols acc = (spelled, maybe) → spelled = None ∨ maybe = [].
Proof.
  revert acc. induction cols as [|[i c] cols IH]; intros acc; cbn [could_be]; [intros [= <- _]; by left|].
  destruct (negb _); [apply IH|]. destruct (spelled_alike _ _); [|apply IH]. intros [= <- <-]. by right.
Qed.

(** Round one considers each unknown field once. *)
Lemma consider_fields rule records seen tr :
  NoDup (se_order seen) →
  always P (λ _ f, NoDup (first_keys f) ∧ ∀ k, k ∈ first_keys f → k ∈ se_order seen) tr
    (ask_fold (consider_field rule records seen) (mkFirstRound (keys_question (se_order seen)) [] [] ∅) (se_order seen)).
Proof.
  intros Hnd. apply (always_fold P (λ done f, NoDup (first_keys f) ∧ ∀ k, k ∈ first_keys f → k ∈ done)).
  { split; [constructor|by intros ? ?%not_elem_of_nil]. }
  intros done key rest f tr' Hl [Hf Hin]. unfold consider_field.
  assert (key ∉ done) as Hkey.
  { rewrite Hl in Hnd. apply NoDup_app in Hnd as (_ & Hnd & _). intros Hk. eapply Hnd; [done|]. by left. }
  assert (key ∉ first_keys f) as Hnew by naive_solver.
  assert (∀ f', first_keys f' ≡ₚ key :: first_keys f →
    NoDup (first_keys f') ∧ ∀ k, k ∈ first_keys f' → k ∈ done ++ [key]) as Hgrow.
  { intros f' Hp. split; [rewrite Hp; by constructor|]. intros k Hk. rewrite Hp in Hk. apply elem_of_cons in Hk as [->|Hk].
    - apply elem_of_app. right. by left.
    - apply elem_of_app. left. by apply Hin. }
  assert (NoDup (first_keys f) ∧ ∀ k, k ∈ first_keys f → k ∈ done ++ [key]) as Hstay.
  { split; [done|]. intros k Hk. apply elem_of_app. left. by apply Hin. }
  destruct (could_be _ _ _ _ _ _) as [spelled maybe] eqn:Ec.
  pose proof (could_be_one _ _ _ _ _ _ _ _ Ec) as Hor.
  destruct maybe as [|i maybe].
  - intros ? [= <-]. destruct spelled as [at_|]; [|done]. apply Hgrow. unfold first_keys. cbn. rewrite fmap_app. cbn.
    rewrite <- app_assoc. cbn. by rewrite <- Permutation_middle.
  - destruct Hor as [->|?]; [|done]. apply (always_bind P (λ _ _, True)); [apply always_any; intros; apply gather_option_any|].
    intros tr'' [evidence options] _ ? [= <-]. apply Hgrow. unfold first_keys. cbn. rewrite fmap_app. cbn.
    by rewrite app_assoc, Permutation_app_comm.
Qed.

End Unknown.

(** ** Round two *)

(** A column after round two: the same names, and the key as it was. *)
Definition kept (pk : option string) (c c' : RuleColumn) : Prop :=
  rc_name c' = rc_name c ∧ rc_aliases c' = rc_aliases c
  ∧ ((∃ k, rc_kind c = kind_name k) → ∃ k, rc_kind c' = kind_name k)
  ∧ (pk = Some (rc_name c) → rc_kind c' = rc_kind c ∧ rc_required c' = rc_required c).

Definition new_column (r0 : TableRule) (c : RuleColumn) : Prop :=
  rc_aliases c = [] ∧ (∃ k, rc_kind c = kind_name k) ∧ column_name (rc_name c) = true
  ∧ rc_name c ∉ em_column <$> tr_embeddings r0.

(** The state of round two, from rule [r0] and report [o0]. *)
Record rounded (r0 : TableRule) (o0 : Evolved) (s : Second) : Prop := {
  rn_table : tr_table (se_rule s) = tr_table r0;
  rn_key : tr_primary_key (se_rule s) = tr_primary_key r0;
  rn_vectors : tr_embeddings (se_rule s) = tr_embeddings r0;
  rn_columns : ∃ cols new, tr_columns (se_rule s) = cols ++ new
    ∧ Forall2 (kept (tr_primary_key r0)) (tr_columns r0) cols ∧ Forall (new_column r0) new
    ∧ (ev_reshaped (se_evolved s) = false → new = [] ∧ Forall2 (λ c c', rc_kind c' = rc_kind c) (tr_columns r0) cols);
  rn_NoDup : NoDup (all_names r0) → NoDup (all_names (se_rule s));
  rn_count : (length (tr_columns r0) + 2 ≤ MAX_COLUMNS → length (tr_columns (se_rule s)) + 2 ≤ MAX_COLUMNS)%nat;
  rn_reshaped : ev_reshaped (se_evolved s) = false → ev_reshaped o0 = false;
  rn_quarantine i : ev_quarantine (se_evolved s) !! i = None → ev_quarantine o0 !! i = None;
}.

Lemma kept_refl pk l : Forall2 (kept pk) l l.
Proof. apply Forall_Forall2_diag, Forall_forall. intros c _. by split_and!. Qed.

Lemma rounded_start r0 o0 : rounded r0 o0 (mkSecond r0 o0).
Proof.
  split; try done. exists (tr_columns r0), []. rewrite app_nil_r. split_and!; [done|apply kept_refl|done|].
  intros _. split; [done|]. apply Forall_Forall2_diag, Forall_forall. by intros.
Qed.

(** Only the report changes. *)
Lemma rounded_report r0 o0 s o :
  rounded r0 o0 s → ev_reshaped o = ev_reshaped (se_evolved s) →
  (∀ i, ev_quarantine o !! i = None → ev_quarantine (se_evolved s) !! i = None) →
  rounded r0 o0 (mkSecond (se_rule s) o).
Proof.
  intros [] Hr Hq. split; cbn; try done; [by rewrite Hr|by rewrite Hr|]. intros i Hi. auto.
Qed.

Section Second.
Context `{IngestHost}.

Lemma add_columns_rounded r0 o0 seen answers l s past :
  rounded r0 o0 s → (∀ k, k ∈ all_names (se_rule s) → k ∈ all_names r0 ∨ k ∈ past) →
  NoDup (past ++ (snd <$> l)) → (∀ k, k ∈ (snd <$> l) → is_unknown r0 k = true) →
  rounded r0 o0 (foldl (add_column seen answers) s l).
Proof.
  revert s past. induction l as [|[i key] l IH]; intros s past Hs Hin Hnd Hun; cbn [foldl]; [done|].
  cbn in Hnd. rewrite cons_middle, app_assoc in Hnd. destruct (unknown_new r0 key) as (Hk & Hcn & Hem); [apply Hun; by left|].
  apply (IH _ (past ++ [key])); [| |done|intros; apply Hun; by right].
  - unfold add_column. destruct (Nat.leb_spec MAX_COLUMNS (length (tr_columns (se_rule s)) + 2)) as [Hlim|Hlim]; [by apply rounded_report|]. destruct (pick_kind _ _ _ _) as [kind change].
    destruct Hs as [Ht Hpk He (cols & new & Hcols & Hf & Hnew & Hsame) Hn Hcount Hr Hq]. split; cbn; try done.
    + exists cols, (new ++ [mkRuleColumn key (kind_name kind) false []]). rewrite Hcols, app_assoc. split_and!; [done..| |done].
      apply Forall_app. split; [done|]. apply Forall_singleton. split_and!; [done|by eexists|done..].
    + intros Hnd0. specialize (Hn Hnd0). unfold all_names. cbn. rewrite fmap_app, concat_app. cbn.
      apply NoDup_app. split_and!; [done| |apply NoDup_singleton]. intros k Hk' ->%list_elem_of_singleton.
      destruct (Hin key Hk') as [?|Hd]; [done|].
      apply NoDup_app in Hnd as [Hnd _]. apply NoDup_app in Hnd as (_ & Hnd & _). eapply Hnd; [done|]. by left.
    + intros _. rewrite length_app. cbn [length]. lia.
  - intros k Hk'. unfold add_column in Hk'. case_match.
    + destruct (Hin k Hk') as [?|?]; [by left|right; apply elem_of_app; by left].
    + destruct (pick_kind _ _ _ _) as [kind change]. unfold all_names in Hk'. cbn in Hk'. rewrite fmap_app, concat_app in Hk'. cbn in Hk'.
      apply elem_of_app in Hk' as [Hk'| ->%list_elem_of_singleton].
      * destruct (Hin k Hk') as [?|?]; [by left|right; apply elem_of_app; by left].
      * right. apply elem_of_app. right. by left.
Qed.

Lemma lookup_alter_inv {A} (f : A → A) (l : list A) i j y :
  alter f i l !! j = Some y → (i = j ∧ ∃ d, l !! j = Some d ∧ y = f d) ∨ (i ≠ j ∧ l !! j = Some y).
Proof.
  destruct (decide (i = j)) as [->|Hne]; [|rewrite list_lookup_alter_ne by done; by right].
  rewrite list_lookup_alter_eq. intros (d & -> & Hd)%fmap_Some. left. eauto.
Qed.

(** A column of [r0] that changes in place. *)
Lemma rounded_change r0 o0 s f i c0 o :
  rounded r0 o0 s → tr_columns r0 !! i = Some c0 →
  (∀ c, kept (tr_primary_key r0) c0 c → kept (tr_primary_key r0) c0 (f c)) →
  (ev_reshaped o = false → ev_reshaped (se_evolved s) = false ∧ ∀ c, rc_kind (f c) = rc_kind c) →
  (∀ j, ev_quarantine o !! j = None → ev_quarantine (se_evolved s) !! j = None) →
  rounded r0 o0 (mkSecond (change_column f i (se_rule s)) o).
Proof.
  intros [Ht Hpk He (cols & new & Hcols & Hf & Hnew & Hsame) Hn Hcount Hr Hq] Hi Hk Ho Hoq.
  assert (∃ c, cols !! i = Some c ∧ kept (tr_primary_key r0) c0 c) as (c & Hc & Hkc).
  { destruct (Forall2_lookup_l _ _ _ _ _ Hf Hi) as (c & ? & ?). by exists c. }
  assert (alter f i (cols ++ new) = alter f i cols ++ new) as Halter.
  { apply alter_app_l. by eapply lookup_lt_Some. }
  assert (column_names (f c) = column_names c) as Hnames.
  { unfold column_names. destruct (Hk c Hkc) as (-> & -> & _). destruct Hkc as (-> & -> & _). done. }
  split; cbn; try done.
  - exists (alter f i cols), new. rewrite Hcols, Halter. split_and!; [done| |done|].
    + eapply Forall2_same_length_lookup_2; [by rewrite length_alter; eapply Forall2_length|].
      intros j x y Hx Hy. apply lookup_alter_inv in Hy as [(Heq & d & Hd & ->)|[Hne Hy]].
      * subst j. simplify_eq. by apply Hk.
      * by eapply Forall2_lookup_lr.
    + intros Ho'. destruct (Ho Ho') as [Hre Hkind]. destruct (Hsame Hre) as [-> Hkinds]. split; [done|].
      eapply Forall2_same_length_lookup_2; [by rewrite length_alter; eapply Forall2_length|].
      intros j x y Hx Hy. apply lookup_alter_inv in Hy as [(Heq & d & Hd & ->)|[Hne Hy]].
      * subst j. rewrite Hkind. by eapply (Forall2_lookup_lr _ _ _ _ _ _ Hkinds).
      * by eapply (Forall2_lookup_lr _ _ _ _ _ _ Hkinds).
  - intros H0. specialize (Hn H0). unfold all_names in *. cbn. rewrite Hcols, Halter, fmap_app. rewrite Hcols, fmap_app in Hn.
    assert (column_names <$> alter f i cols = column_names <$> cols) as Heq.
    { apply list_eq. intros j. rewrite !list_lookup_fmap. destruct (decide (i = j)) as [->|Hne].
      - rewrite list_lookup_alter_eq, Hc. cbn. by rewrite Hnames.
      - by rewrite list_lookup_alter_ne. }
    by rewrite Heq.
  - intros H0. rewrite length_alter. by apply Hcount.
  - intros Ho'. apply Hr. by apply Ho.
  - intros j Hj. auto.
Qed.

End Second.

Section Rounds.
Context `{IngestHost}.
Implicit Types records : list (gmap string Literal).
Implicit Types live : list (nat * gmap string Literal).

(** The positions of round two are columns that are not the key. *)
Definition not_key (r0 : TableRule) (i : nat) : Prop :=
  ∃ c0, tr_columns r0 !! i = Some c0 ∧ tr_primary_key r0 ≠ Some (rc_name c0).

Lemma fold_refuse (reason : string) l (q : gmap nat string) i :
  foldl (λ q index, <[index := reason]> q) q l !! i = None → q !! i = None.
Proof.
  revert q. induction l as [|j l IH]; intros q; cbn; [done|]. intros Hi%IH.
  destruct (decide (i = j)) as [->|Hne]; [by rewrite lookup_insert_eq in Hi|by rewrite lookup_insert_ne in Hi].
Qed.

Lemma settle_missing_rounded r0 o0 answers l s :
  rounded r0 o0 s → (∀ e, e ∈ l → not_key r0 e.1) → rounded r0 o0 (foldl (settle_missing answers) s l).
Proof.
  revert s. induction l as [|[i without] l IH]; intros s Hs Hl; cbn [foldl]; [done|].
  apply IH; [|intros; apply Hl; by right]. destruct (Hl (i, without)) as (c0 & Hi & Hk); [by left|]. cbn in Hi.
  assert (∀ ch, rounded r0 o0 (mkSecond (change_column set_optional i (se_rule s)) (record_changes (se_evolved s) ch))) as Hopt.
  { intros ch. eapply rounded_change; [done|done| |done|done]. intros c (Hn & Ha & Hkind & _). by split_and!. }
  unfold settle_missing. destruct (decided _ _) as [[[|] conf]|]; [apply Hopt| |apply Hopt].
  apply rounded_report; [done|done|]. intros j. cbn. apply fold_refuse.
Qed.

Lemma settle_misfit_rounded r0 o0 answers l s :
  rounded r0 o0 s → (∀ e, e ∈ l → not_key r0 e.1) → rounded r0 o0 (foldl (settle_misfit answers) s l).
Proof.
  revert s. induction l as [|[i wider] l IH]; intros s Hs Hl; cbn [foldl]; [done|].
  apply IH; [|intros; apply Hl; by right]. destruct (Hl (i, wider)) as (c0 & Hi & Hk); [by left|]. cbn in Hi.
  unfold settle_misfit. destruct (chosen_kind _ _ _) as [[kind conf]|]; [|by apply rounded_report].
  eapply rounded_change; [done|done| |done|done]. intros c (Hn & Ha & Hkind & _). split_and!; [done|done| |done]. intros _. by eexists.
Qed.

(** ** The key *)

Lemma value_of_column r c : column_value r c = value_of r c ≫= convert (column_kind c).
Proof. unfold column_value, value_of. by destruct (find_field r (column_names c)) as [[n v]|]. Qed.

Lemma fold_refuse_problems l (q : gmap nat string) i p :
  foldl refuse q l !! i = None → (i, Some p) ∈ l → False.
Proof.
  assert (∀ l (q : gmap nat string), is_Some (q !! i) → is_Some (foldl refuse q l !! i)) as Hstay.
  { clear. induction l as [|[j o] l IH]; intros q Hq; cbn; [done|]. apply IH. unfold refuse. cbn. destruct o; [|done].
    destruct (decide (i = j)) as [->|Hne]; [rewrite lookup_insert_eq; by eexists|by rewrite lookup_insert_ne]. }
  revert q. induction l as [|[j o] l IH]; intros q Hi; cbn in Hi; [by intros ?%not_elem_of_nil|].
  intros [[= <- <-]|Hin]%elem_of_cons; [|by eapply IH].
  destruct (Hstay l (refuse q (i, Some p))) as [x Hx]; [unfold refuse; cbn; rewrite lookup_insert_eq; by eexists|congruence].
Qed.

(** A record that is not refused has its key. *)
Lemma key_quarantine_spec rule records i r c :
  NoDup (rc_name <$> tr_columns rule) → tr_primary_key rule = Some (rc_name c) → c ∈ tr_columns rule →
  records !! i = Some r → key_quarantine rule records !! i = None →
  ∃ v, value_of r c = Some v ∧ converts (column_kind c) v = true.
Proof.
  intros Hnd Hpk Hc Hr. unfold key_quarantine. rewrite Hpk.
  assert (head (filter (λ c', rc_name c' = rc_name c) (tr_columns rule)) = Some c) as ->.
  { clear -Hnd Hc. induction (tr_columns rule) as [|d l IH]; [by apply not_elem_of_nil in Hc|].
    apply NoDup_cons in Hnd as [Hnot Hnd]. apply elem_of_cons in Hc as [->|Hc]; [by rewrite filter_cons_True|].
    rewrite filter_cons_False; [by apply IH|]. intros Heq. apply Hnot. rewrite Heq. by apply list_elem_of_fmap_2. }
  intros Hq. destruct (key_problem (rc_name c) c r) as [p|] eqn:Ep.
  - exfalso. eapply (fold_refuse_problems _ _ i p Hq). apply list_elem_of_fmap. exists (i, r).
    split; [unfold prod_map; cbn; by rewrite Ep|]. by apply elem_of_enumerate.
  - unfold key_problem in Ep. destruct (value_of r c) as [v|]; [|done]. exists v. split; [done|].
    destruct (converts (column_kind c) v); [done|]. by destruct v.
Qed.

Lemma missing_not_key rule live e : e ∈ missing_columns rule live → not_key rule e.1.
Proof.
  unfold missing_columns. intros ([i c] & Hin & He)%list_elem_of_omap. apply elem_of_enumerate in Hin. cbn in He.
  destruct (negb (rc_required c) || is_key rule c) eqn:E; [done|]. case_match; simplify_eq/=.
  exists c. split; [done|]. apply orb_false_iff in E as [_ Hk]. by apply bool_decide_eq_false in Hk.
Qed.

Lemma misfit_not_key rule live e :
  (∀ j r c, (j, r) ∈ live → c ∈ tr_columns rule → tr_primary_key rule = Some (rc_name c) →
     ∃ v, value_of r c = Some v ∧ converts (column_kind c) v = true) →
  e ∈ misfit_columns rule live → not_key rule e.1.
Proof.
  intros Hlive. unfold misfit_columns. intros ([i c] & Hin & He)%list_elem_of_omap. apply elem_of_enumerate in Hin. cbn in He.
  destruct (forallb _ _) eqn:E; simplify_eq. cbn. exists c. split; [done|]. intros Hpk.
  apply not_true_iff_false in E. apply E. apply forallb_forall. intros v Hv%list_elem_of_In.
  unfold seen_in in Hv. apply list_elem_of_omap in Hv as ([j r] & Hjr & Hv). cbn [snd] in Hv.
  destruct (Hlive j r c Hjr) as (v' & Hv' & Hc); [by eapply list_elem_of_lookup_2|done|]. simplify_eq.
  unfold fits. by rewrite Hc, orb_true_r.
Qed.

(** ** What round two leaves *)

Lemma rounded_names r0 o0 s : rounded r0 o0 s →
  ∃ new, rc_name <$> tr_columns (se_rule s) = (rc_name <$> tr_columns r0) ++ new
    ∧ ∀ n, n ∈ new → n ∉ em_column <$> tr_embeddings r0.
Proof.
  intros Hr. destruct (rn_columns _ _ _ Hr) as (cols & new & -> & Hf & Hnew & _). exists (rc_name <$> new).
  rewrite fmap_app. split.
  - f_equal. induction Hf as [|c c' l l' (Hn & _) _ IH]; cbn; [done|]. by rewrite Hn, IH.
  - intros n (c & -> & Hc)%list_elem_of_fmap. rewrite Forall_forall in Hnew. by apply Hnew in Hc as (_ & _ & _ & ?).
Qed.

Lemma rounded_shape r0 o0 s : rule_shape r0 → rounded r0 o0 s → rule_shape (se_rule s).
Proof.
  intros Hsh Hr. pose proof (rounded_names _ _ _ Hr) as (newn & Hnames & Hnotin).
  destruct (rn_columns _ _ _ Hr) as (cols & new & Hcols & Hf & Hnew & _). split.
  - rewrite (rn_table _ _ _ Hr). apply (sh_table _ Hsh).
  - apply (rn_NoDup _ _ _ Hr), (sh_names _ Hsh).
  - intros c Hc. rewrite Hcols in Hc. apply elem_of_app in Hc as [Hc|Hc].
    + apply list_elem_of_lookup in Hc as [i Hi]. destruct (Forall2_lookup_r _ _ _ _ _ Hf Hi) as (c0 & Hi0 & Hn & _ & Hk & _).
      destruct (sh_columns _ Hsh c0) as [Hcn Hkind]; [by eapply list_elem_of_lookup_2|]. rewrite Hn. auto.
    + rewrite Forall_forall in Hnew. by apply Hnew in Hc as (_ & ? & ? & _).
  - apply (rn_count _ _ _ Hr), (sh_count _ Hsh).
  - rewrite (rn_vectors _ _ _ Hr). apply (sh_vectors _ Hsh).
  - intros e He. rewrite (rn_vectors _ _ _ Hr) in He. destruct (sh_vector _ Hsh e He) as [(Hv & ?) Hd]. split; [|done].
    split; [|done]. rewrite Hnames, elem_of_app. intros [?|Hn]; [done|]. apply Hnotin in Hn. apply Hn. by apply list_elem_of_fmap_2.
Qed.

(** The key column after round two. *)
Lemma rounded_key r0 o0 s c : rounded r0 o0 s → rule_shape r0 → keyed r0 →
  c ∈ tr_columns (se_rule s) → tr_primary_key (se_rule s) = Some (rc_name c) →
  ∃ c0, c0 ∈ tr_columns r0 ∧ tr_primary_key r0 = Some (rc_name c0) ∧ column_names c = column_names c0
    ∧ column_kind c = column_kind c0.
Proof.
  intros Hr Hsh Hkey Hc Hpk. pose proof (rounded_shape _ _ _ Hsh Hr) as Hsh'. rewrite (rn_key _ _ _ Hr) in Hpk.
  destruct (Hkey _ Hpk) as (c0 & Hc0 & Hn0 & _). destruct (rn_columns _ _ _ Hr) as (cols & new & Hcols & Hf & Hnew & _).
  apply list_elem_of_lookup in Hc0 as [i Hi]. destruct (Forall2_lookup_l _ _ _ _ _ Hf Hi) as (c1 & Hi1 & Hn & Ha & _ & Hk).
  destruct Hk as [Hk _]; [by rewrite Hn0|].
  assert (c = c1) as ->.
  { pose proof (column_names_NoDup _ Hsh') as Hnd. apply list_elem_of_lookup in Hc as [j Hj].
    assert (tr_columns (se_rule s) !! i = Some c1) as Hi1' by (rewrite Hcols; by apply lookup_app_l_Some).
    assert (j = i) as ->; [|by simplify_eq]. eapply NoDup_lookup; [exact Hnd| |].
    - by rewrite list_lookup_fmap, Hj.
    - rewrite list_lookup_fmap, Hi1'. cbn. congruence. }
  exists c0. split_and!; [by eapply list_elem_of_lookup_2|congruence|unfold column_names; congruence|by apply column_kind_eq].
Qed.

Lemma rounded_keyed r0 o0 s : rounded r0 o0 s → keyed r0 → keyed (se_rule s).
Proof.
  intros Hr Hkey key Hpk. rewrite (rn_key _ _ _ Hr) in Hpk. destruct (Hkey _ Hpk) as (c0 & Hc0 & Hn0 & Hreq & Hkk).
  destruct (rn_columns _ _ _ Hr) as (cols & new & Hcols & Hf & _).
  apply list_elem_of_lookup in Hc0 as [i Hi]. destruct (Forall2_lookup_l _ _ _ _ _ Hf Hi) as (c1 & Hi1 & Hn & Ha & _ & Hk).
  destruct Hk as [Hk Hq]; [by rewrite Hn0|]. exists c1. split_and!; [|congruence|congruence|].
  - rewrite Hcols. apply elem_of_app. left. by eapply list_elem_of_lookup_2.
  - by rewrite (column_kind_eq c0 c1 Hk).
Qed.

End Rounds.

(** ** The whole of [evolve] *)

Lemma definition_same r r' :
  tr_table r' = tr_table r → tr_primary_key r' = tr_primary_key r → tr_embeddings r' = tr_embeddings r →
  Forall2 (λ c c', rc_name c' = rc_name c ∧ rc_kind c' = rc_kind c) (tr_columns r) (tr_columns r') →
  definition r' = definition r.
Proof.
  intros Ht Hk He Hc. unfold definition, rule_key. rewrite Ht, Hk, He. do 3 f_equal.
  induction Hc as [|c c' l l' [Hn Hkind] _ IH]; cbn; [done|]. by rewrite Hn, (column_kind_eq c c' Hkind), IH.
Qed.

Section Evolve.
Context `{IngestHost}.
Implicit Types records : list (gmap string Literal).

(** A record that has the key of the rule. *)
Definition has_key (rule : TableRule) (r : gmap string Literal) : Prop :=
  ∀ c, c ∈ tr_columns rule → tr_primary_key rule = Some (rc_name c) → is_Some (column_value r c).

(** A rule the node keeps: of the right shape, its key a column unless it has none. *)
Definition rule_kept (rule : TableRule) : Prop := rule_shape rule ∧ (keyed rule ∨ all_data rule).

(** What [evolve] promises. *)
Record evolved_well (rule : TableRule) records (rule' : TableRule) (o : Evolved) : Prop := {
  ew_kept : rule_kept rule → rule_kept rule';
  ew_keyed : rule_shape rule → keyed rule → keyed rule';
  ew_table : tr_table rule' = tr_table rule;
  ew_same : rule_kept rule → ev_reshaped o = false → definition rule' = definition rule;
  ew_key : rule_shape rule → keyed rule → ∀ i r, records !! i = Some r → ev_quarantine o !! i = None → has_key rule' r;
}.

Lemma settle_data rule unknown f answers :
  tr_keys_are_data rule = true → tr_keys_are_data (st_rule (settle rule unknown f answers)) = true.
Proof.
  intros Hd. unfold settle, settle_keys. destruct (decided answers "keys_are_data") as [[[|] conf]|]; cbn; rewrite ?Hd; done.
Qed.

Lemma settling_kept rule keys r reshaped : settling rule keys r reshaped →
  (tr_keys_are_data rule = true → tr_keys_are_data r = true) → rule_kept rule → rule_kept r.
Proof.
  intros [Hal Hnd Hin Hsame] Hdata [Hsh Hk]. split; [by eapply aliased_shape, Hnd, sh_names|].
  destruct Hk as [Hk|[Hd Hc]]; [left; by eapply aliased_keyed|right]. split; [auto|].
  pose proof (al_columns _ _ Hal) as Hf. rewrite Hc in Hf. by inversion Hf.
Qed.

Lemma settling_definition rule keys r : settling rule keys r false → definition r = definition rule.
Proof.
  intros [[Ht Hk He _] _ _ Hsame]. apply definition_same; [done..|]. rewrite Hsame by done.
  apply Forall_Forall2_diag, Forall_forall. by intros.
Qed.

(** The live records have their key. *)
Lemma live_key rule records j r c :
  rule_shape rule → (j, r) ∈ live_records (key_quarantine rule records) records →
  c ∈ tr_columns rule → tr_primary_key rule = Some (rc_name c) →
  ∃ v, value_of r c = Some v ∧ converts (column_kind c) v = true.
Proof.
  intros Hsh Hin Hc Hpk. unfold live_records in Hin. apply list_elem_of_filter in Hin as [Hq Hin]. cbn in Hq.
  apply elem_of_enumerate in Hin. eapply key_quarantine_spec; eauto. by apply column_names_NoDup.
Qed.

Lemma has_key_value rule records i r :
  rule_shape rule → records !! i = Some r → key_quarantine rule records !! i = None → has_key rule r.
Proof.
  intros Hsh Hr Hq c Hc Hpk. destruct (key_quarantine_spec rule records i r c) as (v & Hv & Hcv); [by apply column_names_NoDup|done..|].
  rewrite value_of_column, Hv. cbn. by apply bool_decide_eq_true in Hcv.
Qed.

(** The answers of round two. *)
Lemma second_round_rounded rule records o answers :
  let live := live_records (key_quarantine rule records) records in
  let seen := unknown_fields rule live.*2 in
  rule_kept rule →
  ∃ s, second_round rule seen (missing_columns rule live) (misfit_columns rule live) o answers = (se_rule s, se_evolved s)
    ∧ rounded rule o s ∧ (all_data rule → se_rule s = rule).
Proof.
  intros live seen [Hsh Hk]. eexists. split; [reflexivity|]. destruct (unknown_fields_new rule live.*2) as [Hnd Hun]. fold seen in Hnd, Hun.
  split.
  - apply settle_misfit_rounded.
    + apply settle_missing_rounded; [|intros e; apply missing_not_key].
      apply (add_columns_rounded _ _ _ _ _ _ []); [apply rounded_start|by intros k Hin; left| |].
      * by rewrite enumerate_snd.
      * intros k. rewrite enumerate_snd. apply Hun.
    + intros e. apply misfit_not_key. intros j r c. by apply live_key.
  - intros [Hd Hc]. unfold seen, unknown_fields. rewrite Hd. cbn [se_order enumerate].
    unfold missing_columns, misfit_columns. by rewrite Hc.
Qed.

(** Round one and round two together. *)
Lemma two_rounds rule records keys rule1 o0 s :
  settling rule keys rule1 (ev_reshaped o0) → (tr_keys_are_data rule = true → tr_keys_are_data rule1 = true) →
  ev_quarantine o0 = key_quarantine rule1 records →
  rule_kept rule → rounded rule1 o0 s → (all_data rule1 → se_rule s = rule1) →
  evolved_well rule records (se_rule s) (se_evolved s).
Proof.
  intros Hset Hdata Hq Hkept Hr Hall. destruct (settling_kept _ _ _ _ Hset Hdata Hkept) as [Hsh1 Hk1].
  assert (keyed rule → keyed rule1) as Hkeyed by (intros; by eapply aliased_keyed, sg_aliased).
  split.
  - intros _. split; [by eapply rounded_shape|]. destruct Hk1 as [Hk1|Ha]; [left; by eapply rounded_keyed|right]. by rewrite Hall.
  - intros _ Hk. by eapply rounded_keyed, Hkeyed.
  - rewrite (rn_table _ _ _ Hr). by apply sg_aliased in Hset as [? _ _ _].
  - intros _ Ho. pose proof (rn_reshaped _ _ _ Hr Ho) as Ho0. rewrite Ho0 in Hset.
    rewrite <- (settling_definition _ _ _ Hset). destruct (rn_columns _ _ _ Hr) as (cols & new & Hcols & Hf & _ & Hsame).
    destruct (Hsame Ho) as [-> Hkinds]. rewrite app_nil_r in Hcols.
    apply definition_same; [apply (rn_table _ _ _ Hr)|apply (rn_key _ _ _ Hr)|apply (rn_vectors _ _ _ Hr)|].
    rewrite Hcols. eapply Forall2_same_length_lookup_2; [by eapply Forall2_length|]. intros i c c' Hc Hc'.
    split; [by eapply Forall2_lookup_lr in Hf as (? & _)|by eapply (Forall2_lookup_lr _ _ _ _ _ _ Hkinds)].
  - intros _ Hk i r Hi Hqi c Hc Hpk. specialize (Hkeyed Hk).
    destruct (rounded_key _ _ _ _ Hr Hsh1 Hkeyed Hc Hpk) as (c0 & Hc0 & Hpk0 & Hn & Hkind).
    pose proof (rn_quarantine _ _ _ Hr i Hqi) as Hq0. rewrite Hq in Hq0.
    pose proof (has_key_value _ _ _ _ Hsh1 Hi Hq0 c0 Hc0 Hpk0) as Hv.
    unfold column_value in *. by rewrite Hn, Hkind.
Qed.

Context (P : list (Event IngestReq) → ∀ X, IngestReq X → Prop).
Context (Pjudge : ∀ tr s q, P tr _ (Judge s q)) (Pheld : ∀ tr t c, P tr _ (HeldValues t c)).

(** Whatever is answered, a batch leaves a rule that is kept, and the records it does not refuse
    have their key; when it reports the shape unchanged, the table is the same. *)
Lemma evolve_keeps rule source records tr :
  rule_kept rule → always P (λ _ r, evolved_well rule records r.1 r.2) tr (evolve rule source records).
Proof.
  intros Hkept. unfold evolve. case_bool_decide as Hlen.
  { intros ? [= <-]. destruct records; [|done]. by split. }
  destruct (unknown_fields_new rule records) as [Hnd Hun].
  apply (always_bind P (λ _ f, NoDup (first_keys f) ∧ ∀ k, k ∈ first_keys f → k ∈ se_order (unknown_fields rule records))).
  { by apply consider_fields. }
  intros tr1 f [Hf Hfin]. apply always_judge; [apply Pjudge|]. intros tr2 answers. cbn zeta.
  assert (settling rule (first_keys f) (st_rule (settle rule (se_order (unknown_fields rule records)) f answers))
    (st_reshaped (settle rule (se_order (unknown_fields rule records)) f answers))) as Hset.
  { apply settle_settling; [done|]. intros k Hk. by apply unknown_new, Hun, Hfin. }
  pose proof (settle_data rule (se_order (unknown_fields rule records)) f answers) as Hdata.
  revert Hset Hdata. generalize (settle rule (se_order (unknown_fields rule records)) f answers). intros s Hset Hdata.
  pose proof (settling_kept _ _ _ _ Hset Hdata Hkept) as Hkept1. case_bool_decide.
  - intros ? [= <-]. apply (two_rounds rule records (first_keys f) (st_rule s)
      (mkEvolved (st_changes s) (st_reshaped s) (key_quarantine (st_rule s) records))
      (mkSecond (st_rule s) (mkEvolved (st_changes s) (st_reshaped s) (key_quarantine (st_rule s) records)))); try done.
    apply rounded_start.
  - apply always_judge; [apply Pjudge|]. intros tr3 answers2 ? [= <-].
    destruct (second_round_rounded (st_rule s) records
      (mkEvolved (st_changes s) (st_reshaped s) (key_quarantine (st_rule s) records)) answers2 Hkept1) as (s2 & Heq & Hr & Hall).
    rewrite Heq. by apply (two_rounds rule records (first_keys f) (st_rule s)
      (mkEvolved (st_changes s) (st_reshaped s) (key_quarantine (st_rule s) records)) s2).
Qed.

(** Only the judge and the table's values are asked. *)
Lemma evolve_any rule source records tr : always P (λ _ _, True) tr (evolve rule source records).
Proof.
  unfold evolve. case_bool_decide; [done|]. destruct (unknown_fields_new rule records) as [Hnd _].
  eapply always_bind; [by apply consider_fields|]. intros tr1 f _. apply always_judge; [apply Pjudge|].
  intros tr2 answers. cbn zeta. case_bool_decide; [done|]. by apply always_judge; [apply Pjudge|].
Qed.

End Evolve.

(** ** Embeddings *)

(** The widths the embedding model reported fit a column. *)
Definition widths_ok (tr : list (Event IngestReq)) : Prop := ∀ d, Asked Dimensions (Ok d) ∈ tr → 0 < d < 2 ^ 31.

Lemma underscore_app a b : a ≠ "" → starts_with_underscore (a +:+ b) = starts_with_underscore a.
Proof. destruct a as [|c a]; [done|]. intros _. done. Qed.

Section Plan.
Context `{IngestHost}.
Implicit Types records : list (gmap string Literal).

(** What planning leaves as it was. *)
Record planned (r r' : TableRule) : Prop := {
  pl_table : tr_table r' = tr_table r;
  pl_key : tr_primary_key r' = tr_primary_key r;
  pl_columns : tr_columns r' = tr_columns r;
  pl_data : tr_keys_are_data r' = tr_keys_are_data r;
  pl_sources : tr_sources r' = tr_sources r;
}.

Lemma add_embedding_shape model d rule changes e :
  rule_shape rule → e.1 ∈ rc_name <$> tr_columns rule → 0 < d < 2 ^ 31 →
  rule_shape (add_embedding model d (rule, changes) e).1.
Proof.
  destruct e as [name change]. cbn [fst]. intros Hsh Hin Hd. unfold add_embedding. cbn [fst].
  set (base := name +:+ "_embedding"). set (column := fresh_name _ _ base base 2).
  assert (column ∉ vector_names rule) as Hfree.
  { apply (bool_decide_eq_false (column ∈ vector_names rule)).
    apply (fresh_name_free (length (vector_names rule) + 1) (λ n, bool_decide (n ∈ vector_names rule)) base 2 (vector_names rule)); [|lia].
    intros x. apply bool_decide_eq_true. }
  assert (name ≠ "" ∧ starts_with_underscore name = false) as [Hne Hus].
  { apply list_elem_of_fmap in Hin as (c & -> & Hc). apply (sh_columns _ Hsh) in Hc as [Hc _].
    apply column_name_ok in Hc as (? & _ & _ & ?). done. }
  assert (column ≠ "" ∧ starts_with_underscore column = false) as [Hce Hcu].
  { destruct (fresh_name_cases (length (vector_names rule) + 1) (λ n, bool_decide (n ∈ vector_names rule)) base base 2) as [Hcol _].
    fold column in Hcol. assert (base ≠ "" ∧ starts_with_underscore base = false) as [Hb Hbu].
    { unfold base. rewrite underscore_app by done. split; [by destruct name|done]. }
    apply elem_of_cons in Hcol as [->|(i & -> & _)%list_elem_of_fmap]; [done|]. rewrite underscore_app by done. split; [|done].
    by destruct base. }
  unfold vector_names in Hfree. rewrite !elem_of_app in Hfree.
  destruct Hsh as [Ht Hn Hcols Hcount Hv Hvec]. split; cbn; try done.
  - rewrite fmap_app. apply NoDup_app. split_and!; [done| |apply NoDup_singleton].
    intros x Hx ->%list_elem_of_singleton. apply Hfree. by auto.
  - intros e [He| ->%list_elem_of_singleton]%elem_of_app; [by apply Hvec|]. cbn. split; [|done].
    split_and!; [intros ?; apply Hfree; by auto| | |done|done].
    + intros ->. apply Hfree. right. right. by left.
    + intros ->. apply Hfree. right. right. right. by left.
Qed.

Lemma add_embeddings_planned model d wanted rule changes :
  let r := foldl (add_embedding model d) (rule, changes) wanted in
  planned rule r.1 ∧ (rule_shape rule → (∀ e, e ∈ wanted → e.1 ∈ rc_name <$> tr_columns rule) → 0 < d < 2 ^ 31 → rule_shape r.1).
Proof.
  cbn zeta. revert rule changes. induction wanted as [|e wanted IH]; intros rule changes; cbn [foldl]; [by split; [split|]|].
  pose proof (add_embedding_shape model d rule changes e) as Hstep.
  assert (planned rule (add_embedding model d (rule, changes) e).1) as Hp by by (destruct e; split).
  destruct (add_embedding model d (rule, changes) e) as [rule1 changes1]. cbn [fst] in *.
  destruct (IH rule1 changes1) as [IHp IHs]. split.
  - destruct Hp, IHp. split; congruence.
  - intros Hsh Hin Hd. apply IHs; [apply Hstep; [done|apply Hin; by left|done]| |done].
    intros e' He'. rewrite (pl_columns _ _ Hp). apply Hin. by right.
Qed.

(** Only columns of the rule are considered. *)
Lemma consider_text_in rule records cols t n :
  let t' := foldl (consider_text rule records) t cols in
  n ∈ tx_clearly t' ∨ n ∈ tx_maybe t' → (n ∈ tx_clearly t ∨ n ∈ tx_maybe t) ∨ n ∈ rc_name <$> cols.
Proof.
  cbn zeta. revert t. induction cols as [|c cols IH]; intros t Hn; cbn [foldl] in Hn; [by left|].
  destruct (IH _ Hn) as [Hc|Hc]; [|right; by right]. unfold consider_text in Hc.
  destruct (negb _ || _ || _); [by left|]. destruct (omap _ _); [by left|].
  destruct (prose _); cbn in Hc; rewrite ?elem_of_app, ?list_elem_of_singleton in Hc;
    destruct Hc as [Hc|Hc]; try destruct Hc as [Hc| ->]; auto; right; by left.
Qed.

Lemma judge_text_in answers l wanted changes considered e :
  e ∈ (foldl (judge_text answers) (wanted, changes, considered) l).1.1 → e ∈ wanted ∨ e.1 ∈ (snd <$> l).
Proof.
  revert wanted changes considered. induction l as [|[i name] l IH]; intros wanted changes considered; cbn [foldl]; [by left|].
  unfold judge_text at 2. intros He.
  assert (e ∈ wanted ∨ e.1 = name ∨ e.1 ∈ (snd <$> l)) as [?|[->|?]]; [|by left|right; by left|right; by right].
  destruct (decided _ _) as [[[|] conf]|].
  - apply IH in He as [He|He]; [|auto]. apply elem_of_app in He as [He| ->%list_elem_of_singleton]; auto.
  - apply IH in He as [He|He]; auto.
  - case_bool_decide; apply IH in He as [He|He]; auto.
Qed.

Context (P : list (Event IngestReq) → ∀ X, IngestReq X → Prop).
Context (Pjudge : ∀ tr s q, P tr _ (Judge s q)) (Pdim : ∀ tr, P tr _ Dimensions).

(** What [plan_embeddings] promises. *)
Definition planned_well (rule : TableRule) (tr : list (Event IngestReq)) (r : TableRule * list Change * bool) : Prop :=
  planned rule r.1.1 ∧ (r.2 = false → tr_embeddings r.1.1 = tr_embeddings rule)
  ∧ (rule_shape rule → widths_ok tr → rule_shape r.1.1).

Lemma considered_shape rule considered : rule_shape rule → rule_shape (with_embeddings rule (tr_embeddings rule) considered).
Proof. intros []. by split. Qed.

Lemma plan_keeps embedder rule source records tr :
  always P (λ tr' r, planned_well rule tr' r) tr (plan_embeddings embedder rule source records).
Proof.
  unfold plan_embeddings. destruct embedder as [model|]; [|intros ? [= <-]; by split_and!].
  destruct (existsb _ _ || _); [intros ? [= <-]; by split_and!|]. apply always_judge; [apply Pjudge|]. intros tr1 answers.
  set (t := foldl (consider_text rule records) (mkTexts [] [] []) (tr_columns rule)).
  assert (∀ n, n ∈ tx_clearly t ∨ n ∈ tx_maybe t → n ∈ rc_name <$> tr_columns rule) as Ht.
  { intros n Hn. destruct (consider_text_in rule records (tr_columns rule) (mkTexts [] [] []) n Hn) as [[Hc|Hc]|?]; [| |done];
      by apply not_elem_of_nil in Hc. }
  pose proof (judge_text_in answers (enumerate (tx_maybe t))
    ((λ name, (name, by_rule ("embed " +:+ name) "true")) <$> tx_clearly t) [] (tx_considered t)) as Hw.
  destruct (foldl (judge_text answers) _ _) as [[wanted changes] considered]. cbn [fst] in Hw.
  assert (∀ e, e ∈ wanted → e.1 ∈ rc_name <$> tr_columns rule) as Hwanted.
  { intros e He. apply Ht. destruct (Hw e He) as [(n & -> & Hn)%list_elem_of_fmap|Hn]; [by left|right].
    by rewrite enumerate_snd in Hn. }
  clear Hw. destruct wanted as [|w wanted].
  { intros ? [= <-]. split_and!; [done|done|]. intros Hsh _. by apply considered_shape. }
  set (rule1 := with_embeddings rule (tr_embeddings rule) (tr_embed_considered rule ++ considered)).
  assert (∀ tr2 width, (∀ d, width = Ok d → rule_shape rule → widths_ok tr2 → 0 < d < 2 ^ 31) →
    always P (λ tr' r, planned_well rule tr' r) tr2
      match width with
      | Err error => returns (Ok (rule1, changes ++ [by_rule "embedding" ("unavailable: " +:+ error)], false))
      | Ok dimensions =>
        let '(rule, changes) := foldl (add_embedding model dimensions) (rule1, changes) (w :: wanted) in
        returns (Ok (rule, changes, true))
      end) as Hrest.
  { intros tr2 [d|error] Hd; [|intros ? [= <-]; split_and!; [done|done|intros Hsh _; by apply considered_shape]].
    destruct (add_embeddings_planned model d (w :: wanted) rule1 changes) as [Hp Hs].
    destruct (foldl _ _ (w :: wanted)) as [rule2 changes2]. cbn [fst] in *. intros ? [= <-]. split_and!; [|done|].
    - destruct Hp. by split.
    - intros Hsh Hwid. apply Hs; [by apply considered_shape|done|]. by apply Hd. }
  cbn [tr_embeddings with_embeddings rule1]. destruct (tr_embeddings rule) as [|e es] eqn:Ee.
  - split; [apply Pdim|]. intros width. apply Hrest. intros d -> _ Hwid. apply Hwid, elem_of_app. right. by left.
  - apply (Hrest tr1 (Ok (em_dimensions e))). intros d [= <-] Hsh _. apply (sh_vector _ Hsh). rewrite Ee. by left.
Qed.

End Plan.
