(* ===== verification/IngestRunSafety.v ===== *)
(** * IngestRunSafety: what a request to ingest leaves behind

    Whatever the engine, the store, the judge and the embedding model answer: records are in bronze
    before anything else changes; a request that succeeds leaves each of them in quarantine or in the
    table; the rules it saves are kept, and every batch it appends is one the table takes. *)

From Stdlib Require Import SpecFloat.
From stdpp Require Import pretty.
From S2P Require Import Prelude Text Programs Traces Cron Literal LiteralSafety Ingest IngestSafety IngestShape IngestRules IngestNames IngestEvolve IngestKeeps IngestRun.

(** ** A batch that was built *)

Section Built.
Context `{IngestHost}.

Lemma batch_ids rule vectors records b :
  bs_ids (foldl (batch_row rule vectors) b records) = bs_ids b ++ ((λ a, Some (CValue (VText (as_bytes (ar_id a))))) <$> records).
Proof.
  revert b. induction records as [|a records IH]; intros b; cbn [foldl]; [by rewrite app_nil_r|].
  rewrite IH. unfold batch_row. destruct (row rule a) as [[values kept] extra]. cbn. by rewrite <- app_assoc.
Qed.

(** The first column of a batch holds the ids of its records. *)
Definition holds_id (b : RecordBatch) (id : string) : Prop :=
  ∃ a rest, rb_columns b = a :: rest ∧ Some (CValue (VText (as_bytes id))) ∈ ay_cells a.

Lemma batch_holds rule records vectors built :
  batch rule records vectors = Ok built →
  num_rows (bu_batch built) = length records ∧ ∀ a, a ∈ records → holds_id (bu_batch built) (ar_id a).
Proof.
  unfold batch. intros Hb. next Hb. next Hb. injection Hb as <-. unfold num_rows, holds_id. cbn [bu_batch rb_columns ay_cells]. rewrite batch_ids. cbn [empty_builders bs_ids app].
  split; [by rewrite length_fmap|].
  intros a Ha. eexists _, _. split; [done|]. cbn [ay_cells]. apply list_elem_of_fmap. by exists a.
Qed.

End Built.

(** ** Traces of a request *)

Section Run.
Context `{IngestHost}.
Implicit Types tr : list (Event IngestReq).

(** Anything but dropping a table. *)
Definition keeps_tables {X} (q : IngestReq X) : Prop := match q with DropTable _ => False | _ => True end.

Abbreviation kept_since tr := (Forall (λ e : Event IngestReq, match e with Asked q _ => keeps_tables q end) tr).

(** The record is in the table of the rule: a batch that [batch] built under this rule from records
    with [a] among them, and that holds its id, was appended to this table, and no table was dropped
    after that. *)
Definition in_table tr (rule : TableRule) (a : Arrived) : Prop :=
  ∃ records vectors built n pre post,
    tr = pre ++ Asked (Append (tr_table rule) (bu_batch built)) (Ok n) :: post ∧ kept_since post
    ∧ batch rule records vectors = Ok built ∧ a ∈ records ∧ holds_id (bu_batch built) (ar_id a).

(** The record, or one the request was sent with the same id, was written to quarantine, with what
    it was sent as, for this source and table. *)
Definition in_quarantine tr (source table : string) (arrived : list Arrived) (a : Arrived) : Prop :=
  ∃ rows e reason, Asked (WriteQuarantine rows) (Ok tt) ∈ tr ∧ e ∈ arrived ∧ ar_id e = ar_id a
    ∧ mkQuarantineRow (ar_id e) source table reason (ar_raw e) ∈ rows.

(** The table of the rule was made again: it was dropped, defined as the rule says, bronze was queried
    for the sources of the rule, this one among them, and every object of the answer was then
    appended to it. *)
Definition remade tr (rule : TableRule) (source : string) : Prop :=
  ∃ pre dropped sources rows post,
    tr = pre ++ [Asked (DropTable (tr_table rule)) dropped; Asked (Define (definition rule) false) (Ok tt);
                 Asked (BronzeOf sources (tr_table rule)) (Ok rows)] ++ post
    ∧ sources = filter (λ s, valid_source s = true) (tr_sources rule) ∧ source ∈ sources
    ∧ ∀ a, a ∈ arrivals rows → in_table post rule a.

(** All the records of the request are in bronze. *)
Definition bronze_written (source : string) (raws : list str) tr : Prop :=
  ∃ received, Asked (WriteBronze (bronze_rows source received (arrived_new source <$> raws))) (Ok tt) ∈ tr.

(** The questions that change what is stored, the system tables and bronze apart. *)
Definition changes {X} (q : IngestReq X) : Prop :=
  match q with
  | SaveRoute _ | SaveRule _ | DropTable _ | Append _ _ | WriteQuarantine _ => True
  | Define _ exist_ok => exist_ok = false
  | _ => False
  end.

Definition after_bronze (source : string) (raws : list str) tr X (q : IngestReq X) : Prop :=
  changes q → bronze_written source raws tr.

Lemma written_stays source raws tr more : bronze_written source raws tr → bronze_written source raws (tr ++ more).
Proof. intros [received Hr]. exists received. apply elem_of_app. by left. Qed.

Lemma in_table_stays tr more rule a : kept_since more → in_table tr rule a → in_table (tr ++ more) rule a.
Proof.
  intros Hm (records & vectors & built & n & pre & post & -> & Hk & Hb). exists records, vectors, built, n, pre, (post ++ more).
  rewrite <- app_assoc. split_and!; [done|by apply Forall_app|apply Hb..].
Qed.

Lemma in_quarantine_stays tr more source table arrived a :
  in_quarantine tr source table arrived a → in_quarantine (tr ++ more) source table arrived a.
Proof. intros (rows & e & reason & Ha & Hb). exists rows, e, reason. split; [apply elem_of_app; by left|done]. Qed.

Lemma remade_stays tr more rule source : kept_since more → remade tr rule source → remade (tr ++ more) rule source.
Proof.
  intros Hm (pre & dropped & sources & rows & post & -> & Hs & Hin & Hall). exists pre, dropped, sources, rows, (post ++ more).
  rewrite <- !app_assoc. split_and!; [done..|]. intros a Ha. by apply in_table_stays, Hall.
Qed.

(** Once the records are in bronze, anything may follow. *)
Lemma written_any {A} source raws tr (m : Ingesting A) :
  bronze_written source raws tr → always (after_bronze source raws) (λ tr' _, bronze_written source raws tr') tr m.
Proof.
  intros Hw. eapply always_weaken; [| |apply (always_past (bronze_written source raws))]; [by intros tr' X q ? _|done|].
  intros more. by apply written_stays.
Qed.

(** Nothing changes before the records are in bronze. *)
Lemma ingest_bronze_first source raws :
  always (after_bronze source raws) (λ tr _, bronze_written source raws tr) [] (ingest source raws).
Proof.
  unfold ingest. destruct (negb (valid_source source)); [by intros ? [=]|]. case_bool_decide; [by intros ? [=]|].
  apply (always_bind _ (λ _ _, True)).
  { unfold ensure_system_tables. apply always_try; [by intros [=]|]. intros []. split; [by intros [=]|]. by intros ? ?. }
  intros tr _ _. apply always_ask; [by intros []|]. intros received. apply always_try; [by intros []|]. intros [].
  apply written_any. exists received. apply elem_of_app. right. by left.
Qed.

(** ** What the silver half writes *)

Abbreviation any := (λ _ _ _, True).

Lemma always_True {A} tr (m : Ingesting A) : always any (λ _ _, True) tr m.
Proof. revert tr. induction m as [r| |X q k IH]; intros tr; cbn; [done|done|]. split; [done|]. intros x. apply IH. Qed.

(** Any program of which nothing is asked but that its trace grows. *)
Lemma always_grows {A B} (R : list (Event IngestReq) → B → Prop) tr (m : Ingesting A) (f : A → Ingesting B) :
  (∀ more a, always any R (tr ++ more) (f a)) → always any R tr (m ≫= f).
Proof.
  intros Hf. eapply always_bind; [apply always_extends, always_True|]. intros tr' a [_ [more ->]]. apply Hf.
Qed.

(** A batch that was appended last. *)
Lemma appended_in_table rule records vectors built n pre a :
  batch rule records vectors = Ok built → a ∈ records →
  in_table (pre ++ [Asked (Append (tr_table rule) (bu_batch built)) (Ok n)]) rule a.
Proof.
  intros Hb Ha. exists records, vectors, built, n, pre, []. split_and!; [done|done|done|done|].
  by apply (batch_holds _ _ _ _ Hb).
Qed.

(** A batch without rows was built from nothing. *)
Lemma no_rows rule records vectors built :
  batch rule records vectors = Ok built → num_rows (bu_batch built) = 0%nat → records = [].
Proof. intros [Hn _]%batch_holds Hz. apply nil_length_inv. congruence. Qed.

Lemma write_rows_in_table rule embedder accepted tr :
  always any (λ tr' _, ∀ a, a ∈ accepted → in_table tr' rule a) tr (write_rows rule embedder accepted).
Proof.
  unfold write_rows. apply always_grows. intros more repaired. apply always_grows. intros more' [known why].
  apply always_return. intros built Hb. cbn zeta. case_bool_decide as Hz.
  - intros ? _ a Ha. rewrite (no_rows _ _ _ _ Hb Hz) in Ha. by apply not_elem_of_nil in Ha.
  - apply always_try; [done|]. intros n ? _ a Ha. by eapply appended_in_table.
Qed.

(** A loop whose invariant speaks of the trace. *)
Lemma always_fold_tr {S A} (I : list A → list (Event IngestReq) → S → Prop) (f : S → A → Ingesting S) l s tr :
  I [] tr s →
  (∀ past x tr s, I past tr s → always any (λ tr' s', I (past ++ [x]) tr' s') tr (f s x)) →
  always any (λ tr' s', I l tr' s') tr (ask_fold f s l).
Proof.
  intros H0 Hstep. assert (∀ rest past s tr, l = past ++ rest → I past tr s →
    always any (λ tr' s', I l tr' s') tr (ask_fold f s rest)) as Hall; [|by apply (Hall l [])].
  induction rest as [|x rest IH]; intros past s' tr' Hl Hs; cbn [ask_fold].
  { rewrite app_nil_r in Hl. subst. by intros ? [= <-]. }
  eapply always_bind; [by apply Hstep|]. intros tr'' s'' Hs''. apply (IH (past ++ [x])); [by rewrite <- app_assoc|done].
Qed.

Lemma chunks_cover {A} fuel n (l : list A) x : (0 < n)%nat → (length l ≤ fuel)%nat → x ∈ l → ∃ c, c ∈ chunks fuel n l ∧ x ∈ c.
Proof.
  intros Hn. revert l. induction fuel as [|fuel IH]; intros l Hl Hx; destruct l as [|y l]; try by apply not_elem_of_nil in Hx.
  { cbn in Hl. lia. }
  cbn [chunks]. rewrite <- (take_drop n (y :: l)) in Hx. apply elem_of_app in Hx as [Hx|Hx].
  - eexists. split; [by left|done].
  - destruct (IH (drop n (y :: l))) as (c & Hc & Hxc); [|done|].
    + rewrite length_drop. cbn in *. lia.
    + exists c. split; [by right|done].
Qed.

Lemma vectors_for_keeps embedder rule ts known tr :
  always (λ _ X q, keeps_tables q) (λ _ _, True) tr (vectors_for embedder rule ts known).
Proof.
  unfold vectors_for. destruct embedder as [model|]; [|done]. case_bool_decide; [done|]. destruct (head _); [done|].
  destruct (filter _ _); [done|]. split; [done|]. by intros [v|e].
Qed.

(** What the rebuild appended so far, since [base]. *)
Definition appended_since base rule (past : list (list StoredRow)) tr : Prop :=
  ∃ post, tr = base ++ post ∧ ∀ c a, c ∈ past → a ∈ arrivals c → in_table post rule a.

Lemma appended_more base rule past c tr more :
  kept_since more → appended_since base rule past tr → (∀ a, a ∈ arrivals c → ∀ post, tr = base ++ post → in_table (post ++ more) rule a) →
  appended_since base rule (past ++ [c]) (tr ++ more).
Proof.
  intros Hm (post & -> & Hp) Hc. exists (post ++ more). split; [by rewrite app_assoc|]. intros c' a Hin Ha.
  apply elem_of_app in Hin as [Hin|Hin]; [apply in_table_stays; eauto|].
  apply list_elem_of_singleton in Hin as ->. by apply (Hc a).
Qed.

Lemma rebuild_chunk_in_table rule embedder acc rows base past tr :
  appended_since base rule past tr →
  always any (λ tr' _, appended_since base rule (past ++ [rows]) tr') tr (rebuild_chunk rule embedder acc rows).
Proof.
  intros Hpast. unfold rebuild_chunk. destruct acc as [known total].
  eapply always_bind; [apply (always_adds (λ X q, keeps_tables q)), vectors_for_keeps|]. intros tr1 [known' why] [_ (more & -> & Hm)].
  apply always_return. intros built Hb. cbn zeta. case_bool_decide as Hz.
  - intros res _. apply appended_more; [done..|]. intros a Ha. rewrite (no_rows _ _ _ _ Hb Hz) in Ha. by apply not_elem_of_nil in Ha.
  - apply always_try; [done|]. intros n res _. rewrite <- app_assoc. apply appended_more; [|done|].
    + apply Forall_app. split; [done|]. by apply Forall_singleton.
    + intros a Ha post _. rewrite app_assoc. by eapply appended_in_table.
Qed.

Lemma arrivals_in rows a : a ∈ arrivals rows → ∃ r, r ∈ rows ∧ arrival r = Some a.
Proof. intros (r & Hr & Ha)%list_elem_of_omap. eauto. Qed.

Lemma rebuild_remade rule embedder source tr :
  source ∈ tr_sources rule → valid_source source = true →
  always any (λ tr' _, remade tr' rule source) tr (rebuild rule embedder).
Proof.
  intros Hin Hv. unfold rebuild. apply always_grows. intros more known. apply always_ask; [done|]. intros dropped.
  apply always_try; [done|]. intros [].
  assert (source ∈ filter (λ s, valid_source s = true) (tr_sources rule)) as Hf by by apply list_elem_of_filter.
  destruct (filter _ (tr_sources rule)) as [|s sources] eqn:Hs; [by apply not_elem_of_nil in Hf|].
  apply always_try; [done|]. intros rows. set (tr1 := _ ++ [Asked (BronzeOf _ _) _]).
  eapply always_bind.
  { apply (always_fold_tr (λ past tr _, appended_since tr1 rule past tr)).
    - exists []. rewrite app_nil_r. split; [done|]. by intros c a ?%not_elem_of_nil.
    - intros past c tr' acc Hp. by apply rebuild_chunk_in_table. }
  intros tr' [known' total] (post & -> & Hall) res _. exists (tr ++ more), dropped, (s :: sources), rows, post.
  split_and!; [unfold tr1; by rewrite <- !app_assoc|done|done|].
  intros a (r & Hr & Ha)%arrivals_in. destruct (chunks_cover (length rows) 2048 rows r) as (c & Hc & Hrc); [lia|lia|done|].
  apply (Hall c); [done|]. unfold arrivals. apply list_elem_of_omap. eauto.
Qed.

(** ** The whole request *)

(** Where a record of a successful request is. *)
Definition settled tr (rule : TableRule) (source : string) (rebuilt : bool) (arrived : list Arrived) (a : Arrived) : Prop :=
  in_quarantine tr source (tr_table rule) arrived a
  ∨ (ar_fields a ≠ None ∧ if rebuilt then remade tr rule source else in_table tr rule a).

Lemma settled_stays tr more rule source rebuilt arrived a :
  kept_since more → settled tr rule source rebuilt arrived a → settled (tr ++ more) rule source rebuilt arrived a.
Proof.
  intros Hm [Hq|[Ho Hr]]; [left; by apply in_quarantine_stays|right]. split; [done|].
  destruct rebuilt; [by apply remade_stays|by apply in_table_stays].
Qed.

Lemma note_source_in rule source : source ∈ tr_sources (note_source rule source).
Proof.
  unfold note_source. case_bool_decide; [done|]. cbn. apply elem_of_app. right. by left.
Qed.

Lemma latest_rule_source rule created source tr :
  always any (λ _ r, source ∈ tr_sources r) tr (latest_rule rule created source).
Proof.
  unfold latest_rule. destruct created; [intros ? [= <-]; apply note_source_in|].
  apply always_try; [done|]. intros latest ? [= <-]. apply note_source_in.
Qed.

(** Neither [evolve] nor [plan_embeddings] touches the sources. *)
Lemma change_columns_sources f i r : tr_sources (change_column f i r) = tr_sources r.
Proof. done. Qed.

Lemma settle_sources rule unknown f answers : tr_sources (st_rule (settle rule unknown f answers)) = tr_sources rule.
Proof.
  unfold settle. assert (tr_sources (settle_keys rule answers).1 = tr_sources rule) as Hk.
  { unfold settle_keys. by destruct (decided answers "keys_are_data") as [[[|] conf]|]. }
  destruct (settle_keys rule answers) as [rule1 c0]. cbn [fst] in Hk. destruct (tr_keys_are_data rule1); [done|].
  cbn [st_rule]. unfold settle_fields.
  assert (∀ l s, tr_sources (st_rule (foldl (apply_spelled unknown) s l)) = tr_sources (st_rule s)) as Hs.
  { induction l as [|[k i] l IH]; intros s; cbn [foldl]; [done|]. rewrite IH. unfold apply_spelled. by case_match. }
  assert (∀ l s taken, tr_sources (st_rule (foldl apply_lean (s, taken) l).1) = tr_sources (st_rule s)) as Hl.
  { induction l as [|[[c k] i] l IH]; intros s taken; cbn [foldl]; [done|]. unfold apply_lean at 2.
    case_bool_decide; [apply IH|]. case_bool_decide; [apply IH|]. by rewrite IH. }
  by rewrite Hl, Hs.
Qed.

Lemma second_round_sources rule seen missing misfits o answers :
  tr_sources (second_round rule seen missing misfits o answers).1 = tr_sources rule.
Proof.
  unfold second_round. cbn [fst].
  assert (∀ l s, tr_sources (se_rule (foldl (settle_misfit answers) s l)) = tr_sources (se_rule s)) as H1.
  { induction l as [|[i w] l IH]; intros s; cbn [foldl]; [done|]. rewrite IH. unfold settle_misfit. by destruct (chosen_kind _ _ _) as [[? ?]|]. }
  assert (∀ l s, tr_sources (se_rule (foldl (settle_missing answers) s l)) = tr_sources (se_rule s)) as H2.
  { induction l as [|[i w] l IH]; intros s; cbn [foldl]; [done|]. rewrite IH. unfold settle_missing. by destruct (decided _ _) as [[[|] ?]|]. }
  assert (∀ l s, tr_sources (se_rule (foldl (add_column seen answers) s l)) = tr_sources (se_rule s)) as H3.
  { induction l as [|[i k] l IH]; intros s; cbn [foldl]; [done|]. rewrite IH. unfold add_column. case_match; [done|].
    by destruct (pick_kind _ _ _ _). }
  by rewrite H1, H2, H3.
Qed.

Lemma evolve_sources rule source records tr :
  always any (λ _ r, tr_sources r.1 = tr_sources rule) tr (evolve rule source records).
Proof.
  unfold evolve. case_bool_decide; [by intros ? [= <-]|]. apply always_grows. intros more f.
  apply always_judge; [done|]. intros tr1 answers. cbn zeta. case_bool_decide.
  - intros ? [= <-]. apply settle_sources.
  - apply always_judge; [done|]. intros tr2 answers2 ? [= <-]. rewrite second_round_sources. apply settle_sources.
Qed.

(** The refused records are in quarantine. *)
Lemma quarantine_written source table arrived (refused : list (Arrived * string)) tr :
  (∀ e, e ∈ refused → e.1 ∈ arrived) →
  always any (λ tr' _, ∀ e a, e ∈ refused → ar_id e.1 = ar_id a → in_quarantine tr' source table arrived a) tr
    match refused with
    | [] => returns (Ok tt)
    | _ => try_ask (WriteQuarantine (quarantine_rows source table refused))
    end.
Proof.
  intros Hin. destruct refused as [|e0 refused]; [by intros ? _ e a ?%not_elem_of_nil|]. split; [done|]. intros written [] -> e a He Heq.
  exists (quarantine_rows source table (e0 :: refused)), e.1, e.2.
  split_and!; [apply elem_of_app; right; by left|by apply Hin|done|].
  unfold quarantine_rows. apply list_elem_of_fmap. by exists e.
Qed.

Lemma refused_arrived arrived q e :
  e ∈ not_objects arrived ++ refused_objects (objects_of arrived) q → e.1 ∈ arrived.
Proof.
  intros [He|He]%elem_of_app.
  - apply list_elem_of_fmap in He as (a & -> & [_ Ha]%list_elem_of_filter). done.
  - apply list_elem_of_omap in He as ([i a] & Hi & He). apply bind_Some in He as (reason & _ & [= <-]).
    apply elem_of_enumerate, list_elem_of_lookup_2 in Hi. by apply list_elem_of_filter in Hi as [_ ?].
Qed.

(** Every record of a request is refused, or accepted as an object. *)
Lemma refused_or_accepted arrived q a :
  a ∈ arrived →
  let refused := not_objects arrived ++ refused_objects (objects_of arrived) q in
  (∃ e : Arrived * string, e ∈ refused ∧ ar_id e.1 = ar_id a) ∨ (ar_fields a ≠ None ∧ a ∈ accepted_objects (objects_of arrived) refused).
Proof.
  intros Ha refused. destruct (decide (ar_id a ∈ (λ e : Arrived * string, ar_id e.1) <$> refused)) as [Hr|Hr].
  { apply list_elem_of_fmap in Hr as (e & Heq & He). left. by exists e. }
  right. assert (is_object a) as Hobj.
  { apply dec_stable. intros Hno. apply Hr. apply list_elem_of_fmap. exists (a, "not a JSON object"). split; [done|].
    apply elem_of_app. left. unfold not_objects. apply list_elem_of_fmap. exists a. split; [done|]. by apply list_elem_of_filter. }
  split; [by destruct Hobj as [? ->]|]. unfold accepted_objects. apply list_elem_of_filter. split; [done|].
  unfold objects_of. by apply list_elem_of_filter.
Qed.

Lemma write_silver_settled rule embedder (rebuilt : bool) (accepted : list Arrived) source tr :
  source ∈ tr_sources rule → valid_source source = true →
  always any (λ tr' _, ∀ a : Arrived, a ∈ accepted → if rebuilt then remade tr' rule source else in_table tr' rule a) tr
    (write_silver rule embedder rebuilt accepted).
Proof.
  intros Hin Hv. unfold write_silver. destruct rebuilt; [|apply write_rows_in_table].
  eapply always_bind; [by apply (rebuild_remade _ _ source)|]. intros tr' total Hr ? _ a _. done.
Qed.

(** All records of a request are settled under a rule it saved, that of the table it reports. *)
Definition all_settled tr (source : string) (arrived : list Arrived) (report : Report) : Prop :=
  ∃ rule, Asked (SaveRule rule) (Ok tt) ∈ tr ∧ tr_table rule = rp_table report
    ∧ ∀ a, a ∈ arrived → settled tr rule source (rp_rebuilt report) arrived a.

Lemma ingest_table_settled source arrived rule created changes tr :
  valid_source source = true →
  always any (λ tr' rp, all_settled tr' source arrived rp) tr (ingest_table source arrived rule created changes).
Proof.
  intros Hv. unfold ingest_table. eapply always_bind; [apply latest_rule_source|]. intros tr1 rule1 Hs1.
  eapply always_bind; [apply evolve_sources|]. intros tr2 [rule2 evolved] Hs2. cbn [fst] in Hs2.
  apply always_ask; [done|]. intros embedder. eapply always_bind; [by apply plan_keeps|].
  intros tr3 [[rule3 planned] added] [Hp _]. cbn [fst] in Hp. apply pl_sources in Hp.
  set (refused := not_objects arrived ++ _).
  eapply always_bind; [apply (quarantine_written source (tr_table rule3) arrived refused), refused_arrived|]. intros tr4 u Hq. cbn beta zeta in Hq |- *.
  set (rebuilt := created || _ || _). set (rule4 := if rebuilt then _ else _).
  assert (tr_sources rule4 = tr_sources rule3 ∧ tr_table rule4 = tr_table rule3) as [Hs4 Ht4] by (unfold rule4; by destruct rebuilt).
  assert (source ∈ tr_sources rule4) as Hin4 by by rewrite Hs4, Hp, Hs2.
  apply always_try; [done|]. intros []. set (tr5 := tr4 ++ _).
  eapply always_bind; [by apply always_extends, (write_silver_settled _ _ _ _ source)|].
  intros tr6 [[[rescued embedded] unembedded] deferred] [Hw [more ->]] ? [= <-]. exists rule4. cbn [rp_rebuilt rp_table].
  split_and!; [apply elem_of_app; left; unfold tr5; apply elem_of_app; right; by left|done|]. intros a Ha.
  destruct (refused_or_accepted arrived (ev_quarantine evolved) a Ha) as [(e & He & Heq)|[Hobj Hacc]].
  - left. rewrite Ht4. unfold tr5. apply in_quarantine_stays, in_quarantine_stays. by apply (Hq e).
  - right. split; [done|]. by apply (Hw a).
Qed.

Lemma ingest_settled source raws :
  always any (λ tr report, all_settled tr source (arrived_new source <$> raws) report) [] (ingest source raws).
Proof.
  unfold ingest. destruct (negb (valid_source source)) eqn:Hv; [by intros ? [=]|]. apply negb_false_iff in Hv.
  case_bool_decide; [by intros ? [=]|]. apply always_grows. intros more _. apply always_ask; [done|]. intros received.
  apply always_try; [done|]. intros []. apply always_ask; [done|]. intros []. apply always_grows.
  intros more' [[rule created] changes]. apply always_ask; [done|]. intros []. apply always_finally; [done| |].
  - intros tr x report (r & Hs & Ht & Hr). exists r. split_and!; [apply elem_of_app; by left|done|].
    intros a Ha. apply settled_stays; [by apply Forall_singleton|by apply Hr].
  - by apply ingest_table_settled.
Qed.

(** C5: ingestion loses no record.  Whatever the engine, the store, the judge and the embedding
    model answer, a request changes a table, a rule, a route or the quarantine only after all its
    records were written to bronze; and when it reports success on a table, it saved a rule of this
    table under which every record it was sent is settled.  The record was written to quarantine for
    this source and table with what it was sent as; or it is an object and is in a batch built from
    the rule and appended to this table, which was not dropped after that; or, when the request
    reports that the table was made again, the table was dropped, defined as the rule says, and bronze
    queried for the rule's sources, this source among them, and every object of the answer was
    appended to this table after that. *)
Theorem ingest_keeps_records source raws :
  always (after_bronze source raws)
    (λ tr report, bronze_written source raws tr ∧ all_settled tr source (arrived_new source <$> raws) report)
    [] (ingest source raws).
Proof.
  eapply always_weaken; [| |apply (always_both _ _ _ _ _ _ (ingest_bronze_first source raws) (ingest_settled source raws))].
  - intros tr X q [Hq _]. exact Hq.
  - done.
Qed.

End Run.

(** ** The rules a request saves, and the batches it appends *)

Section Rules.
Context `{IngestLaws}.
Implicit Types tr : list (Event IngestReq).

(** A rule that was read. *)
Definition loaded_rule tr (rule : TableRule) : Prop :=
  (∃ t, Asked (LoadRule t) (Ok (Some rule)) ∈ tr) ∨ ∃ rules, Asked EveryRule (Ok rules) ∈ tr ∧ rule ∈ rules.

(** The rules that were read are kept, and the widths that were reported fit. *)
Definition sound_so_far tr : Prop := (∀ rule, loaded_rule tr rule → rule_kept rule) ∧ widths_ok tr.

(** The table has this definition: it was defined so, or is that of a rule that was read. *)
Definition table_is tr (d : StreamDefinition) : Prop :=
  Asked (Define d false) (Ok tt) ∈ tr ∨ ∃ rule, loaded_rule tr rule ∧ definition rule = d.

(** A batch the table of the rule takes: whenever the engine accepts the definition of the rule, which
    it does if the key of the rule is a column, it conforms the batch from any arrival number. *)
Definition batch_taken (rule : TableRule) (b : RecordBatch) : Prop :=
  (keyed rule → is_ok (table_config (definition rule)) = true)
  ∧ ∀ cfg, table_config (definition rule) = Ok cfg →
      ∀ first, first + N.of_nat (num_rows b) ≤ u64_max →
        ∃ b', conform_batch (definition rule) (tc_schema cfg) b first = Ok b'.

Definition sound_change tr X (q : IngestReq X) : Prop :=
  match q with
  | SaveRule rule => sound_so_far tr → rule_kept rule
  | Append t b => sound_so_far tr → ∃ rule, rule_kept rule ∧ tr_table rule = t ∧ table_is tr (definition rule) ∧ batch_taken rule b
  | _ => True
  end.

Lemma loaded_stays tr more rule : loaded_rule tr rule → loaded_rule (tr ++ more) rule.
Proof.
  intros [[t Ht]|(rules & Hr & Hin)]; [left; exists t|right; exists rules]; rewrite elem_of_app; auto.
Qed.

Lemma sound_before tr more : sound_so_far (tr ++ more) → sound_so_far tr.
Proof.
  intros [Hr Hw]. split; [intros rule Hl; by apply Hr, loaded_stays|]. intros d Hd. apply Hw, elem_of_app. by left.
Qed.

Lemma table_is_stays tr more d : table_is tr d → table_is (tr ++ more) d.
Proof.
  intros [Hd|(rule & Hr & Hd)]; [left; apply elem_of_app; by left|right]. exists rule. split; [by apply loaded_stays|done].
Qed.

(** A batch that was built fits the table of its rule. *)
Lemma built_taken rule records vectors built :
  rule_shape rule → batch rule records vectors = Ok built → batch_taken rule (bu_batch built).
Proof.
  intros Hsh Hb. pose proof (batch_holds _ _ _ _ Hb) as [Hn _].
  split; [intros Hk; by destruct (definition_accepted rule Hsh Hk) as (cfg & -> & _)|].
  intros cfg [Hschema Hkey]%(accepted_schema rule Hsh) first Hfirst.
  unfold batch in Hb. rewrite (batch_fields rule Hsh) in Hb. cbn [mbind result_bind] in Hb.
  apply bind_Ok in Hb as ([] & Ht & Hb). apply map_err_Ok in Ht. apply try_new_checks in Ht as [rows Hfit].
  injection Hb as <-. cbn [bu_batch] in *. rewrite Hschema.
  assert (rows = length records) as ->.
  { inversion Hfit as [|? ? ? ? (_ & Hlen & _)]; subst. rewrite <- Hn. done. }
  eexists. apply (batch_conforms rule Hsh _ (length records)); [done|done|done|done|by rewrite Hn in Hfirst].
Qed.

Lemma vectors_for_sound embedder rule ts known tr : always sound_change (λ _ _, True) tr (vectors_for embedder rule ts known).
Proof.
  unfold vectors_for. destruct embedder as [model|]; [|done]. case_bool_decide; [done|]. destruct (head _); [done|].
  destruct (filter _ _); [done|]. split; [done|]. by intros [v|e].
Qed.

(** Writing batches of a kept rule to its table. *)
Lemma append_sound tr rule records vectors built n :
  (sound_so_far tr → rule_kept rule) → (sound_so_far tr → table_is tr (definition rule)) → batch rule records vectors = Ok built →
  sound_change (tr ++ n) _ (Append (tr_table rule) (bu_batch built)).
Proof.
  intros Hk Ht Hb Hs. apply sound_before in Hs. specialize (Hk Hs). exists rule. split_and!; [done|done|by apply table_is_stays, Ht|].
  eapply built_taken; [|done]. apply Hk.
Qed.

Lemma repair_sound rule embedder tr :
  (sound_so_far tr → rule_kept rule) → (sound_so_far tr → table_is tr (definition rule)) → always sound_change (λ _ _, True) tr (repair rule embedder).
Proof.
  intros Hk Ht. unfold repair. destruct (_ || _); [done|]. apply always_ask; [done|]. intros ids. destruct (hex_ids _); [done|].
  apply always_ask; [done|]. intros [rows|]; [|done].
  eapply always_bind; [apply always_extends, vectors_for_sound|]. intros tr1 [known why] [_ [more ->]]. destruct why; [done|].
  destruct (batch _ _ _) as [built|[|]] eqn:Hb; [|done|done]. case_bool_decide; [done|].
  apply always_ask; [|by intros [|]]. rewrite <- !app_assoc. by eapply append_sound.
Qed.

Lemma write_rows_sound rule embedder accepted tr :
  (sound_so_far tr → rule_kept rule) → (sound_so_far tr → table_is tr (definition rule)) →
  always sound_change (λ _ _, True) tr (write_rows rule embedder accepted).
Proof.
  intros Hk Ht. unfold write_rows. eapply always_bind; [by apply always_extends, repair_sound|]. intros tr1 n [_ [more ->]].
  eapply always_bind; [apply always_extends, vectors_for_sound|]. intros tr2 [known why] [_ [more' ->]].
  apply always_return. intros built Hb. cbn zeta. case_bool_decide; [done|]. apply always_try; [|done].
  rewrite <- app_assoc. by eapply append_sound.
Qed.

Lemma rebuild_sound rule embedder tr : (sound_so_far tr → rule_kept rule) → always sound_change (λ _ _, True) tr (rebuild rule embedder).
Proof.
  intros Hk. unfold rebuild. eapply always_bind.
  { apply always_extends, always_any. intros s e tr'. unfold stored_vectors. by apply always_ask. }
  intros tr1 known [_ [more ->]]. apply always_ask; [done|]. intros dropped. apply always_try; [done|]. intros [].
  set (tr2 := _ ++ [Asked (Define _ _) _]).
  assert (∀ more, table_is (tr2 ++ more) (definition rule)) as Ht.
  { intros more'. apply table_is_stays. left. unfold tr2. apply elem_of_app. right. by left. }
  assert (∀ more, sound_so_far (tr2 ++ more) → rule_kept rule) as Hk2.
  { intros more' Hs. apply Hk. unfold tr2 in Hs. rewrite <- !app_assoc in Hs. by apply sound_before in Hs. }
  destruct (filter _ _) as [|s sources]; [done|]. apply always_try; [done|]. intros rows.
  eapply always_bind; [|by intros tr3 [known' total] _].
  assert (∀ l acc more, always sound_change (λ _ _, True) (tr2 ++ more) (ask_fold (rebuild_chunk rule embedder) acc l)) as Hfold; [|by apply Hfold].
  induction l as [|c l IH]; intros [known' total] more'; cbn [ask_fold]; [done|].
  assert (always sound_change (λ _ _, True) (tr2 ++ more') (rebuild_chunk rule embedder (known', total) c)) as Hstep.
  { unfold rebuild_chunk. eapply always_bind; [apply always_extends, vectors_for_sound|]. intros tr3 [known'' why] [_ [more'' ->]].
    apply always_return. intros built Hb. cbn zeta. case_bool_decide; [done|]. apply always_try; [|done].
    rewrite <- app_assoc, <- (app_nil_r (tr2 ++ _)). eapply append_sound; [apply Hk2|intros _; apply Ht|done]. }
  eapply always_bind; [by apply always_extends|]. intros tr3 acc [_ [more'' ->]]. rewrite <- app_assoc. apply IH.
Qed.

(** A rule a request works with, and whether its table exists already. *)
Definition rule_sound tr (rule : TableRule) (created : bool) : Prop :=
  (sound_so_far tr → rule_kept rule) ∧ (created = false → ∃ l, loaded_rule tr l ∧ definition l = definition rule).

Lemma rule_sound_stays tr more rule created : rule_sound tr rule created → rule_sound (tr ++ more) rule created.
Proof.
  intros [Hk Hl]. split; [intros Hs; by apply Hk, sound_before in Hs || (apply Hk; by apply sound_before in Hs)|].
  intros Hc. destruct (Hl Hc) as (l & Hin & Hd). exists l. split; [by apply loaded_stays|done].
Qed.

(** Rules that differ in nothing that makes the table. *)
Lemma rule_kept_same r r' :
  tr_table r' = tr_table r → tr_primary_key r' = tr_primary_key r → tr_columns r' = tr_columns r →
  tr_embeddings r' = tr_embeddings r → tr_keys_are_data r' = tr_keys_are_data r → rule_kept r → rule_kept r'.
Proof.
  intros Ht Hk Hc He Hd [[] Hor]. split.
  - split; unfold all_names, vector_name_ok in *; rewrite ?Ht, ?Hc, ?He; done.
  - unfold keyed, all_data in *. rewrite Hk, Hc, Hd. done.
Qed.

Lemma push_source_kept rule source : rule_kept rule → rule_kept (push_source rule source).
Proof. by apply rule_kept_same. Qed.

Lemma note_source_sound tr rule created source : rule_sound tr rule created → rule_sound tr (note_source rule source) created.
Proof.
  intros [Hk Hl]. unfold note_source. case_bool_decide; [done|]. split; [intros Hs; by apply push_source_kept, Hk|done].
Qed.

Lemma design_sound source records state tr : always sound_change (λ _ r, rule_kept r.1) tr (design source records state).
Proof.
  unfold design. apply always_try; [done|]. intros taken. apply always_judge; [done|]. intros tr1 answers ? [= <-].
  destruct (design_table_shape source records (see_all (concat (sbtree_entries <$> records))) taken answers) as (Hsh & Hk & _);
    [apply see_all_NoDup|]. by split.
Qed.

Lemma head_filter_in {A} (p : A → Prop) `{∀ x, Decision (p x)} l x : head (filter p l) = Some x → x ∈ l.
Proof. intros Hh%head_Some_elem_of. by apply list_elem_of_filter in Hh as [_ ?]. Qed.

Lemma route_sound source records tr :
  always sound_change (λ tr' r, rule_sound tr' r.1.1 r.1.2) tr (route source records).
Proof.
  unfold route. apply always_try; [done|]. intros rules. apply (always_bind _ (λ tr' _, ∃ more, tr' = tr ++ [Asked EveryRule (Ok rules)] ++ more)).
  { unfold ask_judge. case_bool_decide; [intros ? _; exists []; by rewrite app_nil_r|]. split; [done|].
    intros answers ? _. exists [Asked (Judge (describe source records) (route_question (offered_rules records rules))) answers].
    by rewrite <- !app_assoc. }
  intros tr1 answers [more ->]. destruct (routed _ answers) as [[rule conf]|] eqn:Er.
  - intros ? [= <-]. cbn [fst snd].
    assert (loaded_rule (tr ++ [Asked EveryRule (Ok rules)] ++ more) rule) as Hl.
    { right. exists rules. split; [apply elem_of_app; right; by left|]. unfold routed in Er.
      apply bind_Some in Er as ([table c] & _ & Er). case_bool_decide; [done|].
      apply bind_Some in Er as (r & Hr & [= <- <-]). apply head_filter_in in Hr. unfold offered_rules in Hr.
      by apply list_elem_of_filter in Hr as [_ ?]. }
    split; [intros [Hs _]; by apply push_source_kept, Hs|]. intros _. by exists rule.
  - eapply always_bind; [apply design_sound|]. intros tr2 [rule changes] Hk ? [= <-]. by split.
Qed.

Lemma route_source_sound source records tr :
  always sound_change (λ tr' r, rule_sound tr' r.1.1 r.1.2) tr (route_source source records).
Proof.
  unfold route_source. apply always_try; [done|]. intros [r|].
  - apply always_try; [done|]. intros [rule|]; [|by intros ? [=]]. intros ? [= <-]. cbn [fst snd].
    assert (loaded_rule ((tr ++ [Asked (LoadRoute source) (Ok (Some r))]) ++ [Asked (LoadRule (ro_table r)) (Ok (Some rule))]) rule) as Hl.
    { left. exists (ro_table r). apply elem_of_app. right. by left. }
    split; [intros [Hs _]; by apply Hs|]. intros _. by exists rule.
  - eapply always_bind; [apply route_sound|]. intros tr1 [[rule created] changes] Hr. cbn [fst snd] in Hr.
    apply always_try; [intros Hs; by apply Hr|]. intros []. apply always_try; [done|]. intros [] ? [= <-].
    cbn [fst snd]. by apply rule_sound_stays, rule_sound_stays.
Qed.

Lemma latest_rule_sound rule created source tr :
  rule_sound tr rule created → always sound_change (λ tr' r, rule_sound tr' r created) tr (latest_rule rule created source).
Proof.
  intros Hr. unfold latest_rule. destruct created; [intros ? [= <-]; by apply note_source_sound|].
  apply always_try; [done|]. intros [latest|] ? [= <-]; apply note_source_sound; [|by apply rule_sound_stays]. cbn [default].
  assert (loaded_rule (tr ++ [Asked (LoadRule (tr_table rule)) (Ok (Some latest))]) latest) as Hl.
  { left. exists (tr_table rule). apply elem_of_app. right. by left. }
  split; [intros [Hs _]; by apply Hs|]. intros _. by exists latest.
Qed.

Lemma planned_kept rule tr r : planned_well rule tr r → widths_ok tr → rule_kept rule → rule_kept r.1.1.
Proof.
  intros ([Ht Hk Hc Hd Hs] & _ & Hsh) Hw [Hshape Hor]. split; [by apply Hsh|].
  unfold keyed, all_data in *. rewrite Hk, Hc, Hd. done.
Qed.

Lemma planned_definition rule tr r : planned_well rule tr r → r.2 = false → definition r.1.1 = definition rule.
Proof.
  intros ([Ht Hk Hc Hd Hs] & He & _) Hf. unfold definition, rule_key. by rewrite Ht, Hk, Hc, (He Hf).
Qed.

Lemma quarantine_sound source table refused tr :
  always sound_change (λ _ _, True) tr
    match refused with
    | [] => returns (Ok tt)
    | _ => try_ask (WriteQuarantine (quarantine_rows source table refused))
    end.
Proof. destruct refused; [done|]. split; [done|]. by intros x a. Qed.

(** A rule that was read and then changed in nothing that makes the table has the table. *)
Lemma write_silver_sound rule embedder rebuilt accepted tr :
  (sound_so_far tr → rule_kept rule) → (rebuilt = false → sound_so_far tr → table_is tr (definition rule)) →
  always sound_change (λ _ _, True) tr (write_silver rule embedder rebuilt accepted).
Proof.
  intros Hk Ht. unfold write_silver. destruct rebuilt; [|by apply write_rows_sound; auto].
  eapply always_bind; [by apply rebuild_sound|]. by intros.
Qed.

Lemma saved_kept rule changes (rebuilt : bool) :
  rule_kept rule → rule_kept (if rebuilt then bump_version (record_history rule changes) else record_history rule changes).
Proof. destruct rebuilt; by apply rule_kept_same. Qed.

Lemma saved_definition rule changes (rebuilt : bool) :
  definition (if rebuilt then bump_version (record_history rule changes) else record_history rule changes) = definition rule.
Proof. by destruct rebuilt. Qed.

Lemma ingest_table_sound source arrived rule created changes tr :
  rule_sound tr rule created → always sound_change (λ _ _, True) tr (ingest_table source arrived rule created changes).
Proof.
  intros Hr. unfold ingest_table. eapply always_bind; [by apply latest_rule_sound|]. intros tr1 rule1 [Hk1 Hl1].
  eapply (always_bind _ (λ tr2 r, (rule_kept rule1 → evolved_well rule1 (fields_of (objects_of arrived)) r.1 r.2) ∧ ∃ more, tr2 = tr1 ++ more)).
  { apply (always_extends _ (λ tr' r, rule_kept rule1 → evolved_well rule1 (fields_of (objects_of arrived)) r.1 r.2)).
    apply always_when; [by apply evolve_any|]. intros Hk. by apply evolve_keeps. }
  intros tr2 [rule2 evolved] [Hev [more ->]]. cbn [fst snd] in Hev. apply always_ask; [done|]. intros embedder.
  eapply always_bind; [apply always_extends; by apply plan_keeps|].
  intros tr3 [[rule3 planned] added] [Hp [more3 ->]].
  set (tr3 := _ ++ more3). eapply always_bind; [apply always_extends, quarantine_sound|]. intros tr4 u [_ [more4 ->]]. cbn zeta.
  set (rebuilt := created || _ || _). set (all := changes ++ _).
  assert (∀ more', sound_so_far (tr3 ++ more') → rule_kept rule3) as Hk3.
  { intros more' Hs%sound_before. pose proof (planned_kept _ _ _ Hp) as Hpk. apply Hpk; [apply Hs|].
    assert (rule_kept rule1) as Hk; [|by apply Hev]. apply Hk1. unfold tr3 in Hs. rewrite <- !app_assoc in Hs. by apply sound_before in Hs. }
  assert (rebuilt = false → ∀ more', sound_so_far (tr3 ++ more') → table_is (tr3 ++ more') (definition rule3)) as Ht3.
  { intros ((Hc & Hre)%orb_false_iff & Ha)%orb_false_iff more' Hs%sound_before. apply table_is_stays.
    destruct (Hl1 Hc) as (l & Hl & Hd). right. exists l. unfold tr3 in *. rewrite <- !app_assoc in *.
    split; [by apply loaded_stays|]. apply sound_before in Hs. specialize (Hk1 Hs).
    pose proof (planned_definition _ _ _ Hp Ha) as Hpd. cbn [fst] in Hpd. by rewrite Hpd, (ew_same _ _ _ _ (Hev Hk1) Hk1 Hre). }
  apply always_try; [intros Hs; apply saved_kept; by eapply Hk3|]. intros [].
  eapply always_bind; [apply write_silver_sound|by intros tr5 [[[? ?] ?] ?] _].
  - rewrite <- app_assoc. intros Hs. apply saved_kept. by eapply Hk3.
  - intros Hb. rewrite saved_definition, <- app_assoc. by apply Ht3.
Qed.

(** C19: every rule a request saves is one the node can keep, and every batch it appends is one the
    table takes.  Whatever is answered, as long as the rules that were read were kept ones and the
    widths the model reports are positive 32-bit integers: a rule that is saved names its table
    validly, gives its columns and vectors distinct names of known kinds that the engine accepts,
    and has a required key of a kind that hashes unless its keys are data and it has no column; a
    batch is appended only to the table of such a rule, which was defined just so or has the
    definition of a rule that was read; the engine accepts the definition if the key of the rule is
    a column; and whenever the engine accepts the definition, it conforms the batch from any arrival
    number without error. *)
Theorem ingest_keeps_rules source raws : always sound_change (λ _ _, True) [] (ingest source raws).
Proof.
  unfold ingest. destruct (negb (valid_source source)); [by intros ? [=]|]. case_bool_decide; [by intros ? [=]|].
  apply (always_bind _ (λ _ _, True)).
  { unfold ensure_system_tables. apply always_try; [done|]. intros []. split; [done|]. by intros ? ?. }
  intros tr _ _. apply always_ask; [done|]. intros received. apply always_try; [done|]. intros [].
  apply always_ask; [done|]. intros []. eapply always_bind.
  { apply always_finally; [done| |apply route_source_sound]. intros tr' e r. apply rule_sound_stays. }
  intros tr' [[rule created] changes] Hr. cbn [fst snd] in Hr. apply always_ask; [done|]. intros [].
  apply always_finally; [done|done|]. apply ingest_table_sound. by apply rule_sound_stays.
Qed.

End Rules.
