(* ===== verification/IngestStuck.v ===== *)
(** * IngestStuck: a table that is never made

    A rule whose keys are data has no columns.  A judge may give such a rule a primary key all the
    same, and then the engine refuses its definition, after the rule and the route were saved; and
    no later request asks for the table again. *)

From Stdlib Require Import SpecFloat.
From S2P Require Import Prelude Text Programs Traces Cron Literal Ingest IngestSafety IngestShape IngestRules IngestNames IngestEvolve IngestKeeps IngestRun IngestRunSafety.

(** ** Rules whose keys are data *)

Section Stuck.
Context `{IngestLaws}.
Implicit Types tr : list (Event IngestReq).
Implicit Types P : list (Event IngestReq) → ∀ X, IngestReq X → Prop.

(** A well-formed rule whose keys are data, so that it has no column, and that has a key all the same. *)
Definition stuck (rule : TableRule) : Prop :=
  rule_shape rule ∧ all_data rule ∧ tr_embeddings rule = [] ∧ ∃ key, tr_primary_key rule = Some key ∧ column_name key = true.

Lemma stuck_fields rule : stuck rule → definition_fields rule = [mkField ID DUtf8 false; mkField EXTRA DUtf8 true].
Proof. intros (_ & [_ Hc] & He & _). unfold definition_fields. by rewrite Hc, He. Qed.

(** The engine refuses the definition. *)
Lemma stuck_refused rule : stuck rule → table_config (definition rule) = Err "table requires existing primary-key columns".
Proof.
  intros Hst. pose proof (stuck_fields rule Hst) as Hfields. destruct Hst as (Hsh & [_ Hc] & He & key & Hk & Hn).
  apply column_name_ok in Hn as (Hne & Hid & Hex & Hus). assert (rule_key rule = key) as Hkey by (unfold rule_key; by rewrite Hk).
  unfold table_config. cbn [sd_schema definition sd_primary_key].
  destruct (config_columns (rule_key rule) (sd_columns (definition rule)) (definition_fields rule) ∅ [])
    as [seen ->]; [by apply definition_columns| |by apply definition_NoDup|set_solver|].
  { rewrite Hfields, Hkey. intros f [->|[->|[]%not_elem_of_nil]%elem_of_cons]%elem_of_cons; by split_and!. }
  cbn [mbind result_bind app]. rewrite bool_decide_false by (cbn; lia).
  rewrite bool_decide_true by (cbn; by rewrite union_empty_r_L, size_singleton). cbn [negb orb].
  change (sd_name (definition rule)) with (tr_table rule). unfold table_config_new. rewrite (sh_table _ Hsh). cbn [negb].
  rewrite bool_decide_false by done. cbn [orb existsb]. rewrite Hkey, Hfields. unfold field_with_name. cbn [app].
  rewrite !filter_cons_False; [done|..]; cbn; [intros <-; by vm_compute in Hus|congruence..].
Qed.

(** Nothing that makes the table is changed. *)
Lemma stuck_same r r' :
  tr_table r' = tr_table r → tr_primary_key r' = tr_primary_key r → tr_columns r' = tr_columns r →
  tr_embeddings r' = tr_embeddings r → tr_keys_are_data r' = tr_keys_are_data r → stuck r → stuck r'.
Proof.
  intros Ht Hk Hc He Hd (Hsh & [Hd' Hc'] & He' & Hkey). split_and!; [|by split; congruence|congruence|by rewrite Hk].
  assert (rule_kept r) as Hkept by by split; [|right].
  by destruct (rule_kept_same r r' Ht Hk Hc He Hd Hkept).
Qed.

Lemma stuck_noted rule source : stuck rule → stuck (note_source rule source).
Proof. unfold note_source. case_bool_decide; [done|]. by apply stuck_same. Qed.

Lemma stuck_saved rule changes (rebuilt : bool) :
  stuck rule → stuck (if rebuilt then bump_version (record_history rule changes) else record_history rule changes).
Proof. destruct rebuilt; by apply stuck_same. Qed.

(** The rule a judge makes who says that the keys are data and names a key. *)
Lemma design_stuck P source records state tr :
  (∀ tr s q, P tr _ (Judge s q)) → (∀ tr, P tr _ TableNames) →
  always P (λ _ r, tr_keys_are_data r.1 = true → tr_primary_key r.1 ≠ None → stuck r.1) tr (design source records state).
Proof.
  intros Pj Pt. unfold design. apply always_try; [apply Pt|]. intros taken. apply always_judge; [apply Pj|]. intros tr1 answers ? [= <-].
  set (seen := see_all _). set (named := filter _ (se_order seen)). set (keys := filter _ named). intros Hd Hk.
  destruct (design_table_shape source records seen taken answers) as (Hsh & _ & _); [apply see_all_NoDup|].
  fold named keys in Hsh. split; [done|]. unfold design_table in *. destruct (design_name _ answers) as [table c1].
  destruct (design_data named answers) as [data c2]. pose proof (design_key_in keys answers) as Hin.
  destruct (design_key keys answers) as [[key|] c4]; [|by destruct data; [|destruct (foldl _ _ _)]].
  cbn [fst] in Hin. specialize (Hin key eq_refl).
  assert (data = true) as -> by by destruct data; [|destruct (foldl _ _ _)]. split_and!; [done|done|]. exists key. split; [done|].
  apply list_elem_of_filter in Hin as [_ Hin]. by apply list_elem_of_filter in Hin as [? _].
Qed.

(** ** Requests that find such a rule *)

(** What the request was told about the route of its source. *)
Definition event_route (e : Event IngestReq) : option (result Failure (option Route)) :=
  match e with
  | @Asked _ X q x =>
    match q in IngestReq X return X → option (result Failure (option Route)) with
    | LoadRoute _ => λ x, Some x
    | _ => λ _, None
    end x
  end.

Definition route_answer tr : option (result Failure (option Route)) := head (omap event_route tr).

(** The source has a route. *)
Definition route_found tr : Prop := ∃ r, route_answer tr = Some (Ok (Some r)).

(** Every rule that was read is stuck. *)
Definition loads_stuck tr : Prop := ∀ t rule, Asked (LoadRule t) (Ok (Some rule)) ∈ tr → stuck rule.

(** The table of a rule that was read. *)
Definition read_table tr (table : string) : Prop :=
  ∃ t rule, Asked (LoadRule t) (Ok (Some rule)) ∈ tr ∧ tr_table rule = table.

(** A request that finds a route and such rules never asks for a table, and saves such rules only. *)
Definition never_made tr X (q : IngestReq X) : Prop :=
  route_found tr → loads_stuck tr →
  match q with
  | Define _ exist_ok => exist_ok = true
  | DropTable _ => False
  | SaveRule rule => stuck rule ∧ read_table tr (tr_table rule)
  | _ => True
  end.

(** Before a table is asked for, its rule and the route to it are saved. *)
Definition saved_first (source : string) tr X (q : IngestReq X) : Prop :=
  match q with
  | Define d false =>
    (∃ rule, Asked (SaveRule rule) (Ok tt) ∈ tr ∧ definition rule = d)
    ∧ (route_found tr ∨ ∃ t, Asked (SaveRoute (mkRoute source t)) (Ok tt) ∈ tr)
  | _ => True
  end.

Lemma route_answer_grows tr more a : route_answer tr = Some a → route_answer (tr ++ more) = Some a.
Proof. unfold route_answer. rewrite omap_app. by destruct (omap event_route tr). Qed.

Lemma loads_before tr more : loads_stuck (tr ++ more) → loads_stuck tr.
Proof. intros Hl t rule Hin. apply (Hl t). apply elem_of_app. by left. Qed.

Lemma read_table_grows tr more table : read_table tr table → read_table (tr ++ more) table.
Proof. intros (t & rule & Hin & Ht). exists t, rule. split; [apply elem_of_app; by left|done]. Qed.

(** The rule the request works with: stuck, and of a table that was read, if all that was read is stuck. *)
Definition works_stuck tr (rule : TableRule) : Prop := loads_stuck tr → stuck rule ∧ read_table tr (tr_table rule).

Lemma works_grows tr more rule : works_stuck tr rule → works_stuck (tr ++ more) rule.
Proof. intros Hw [Hs Hr]%loads_before%Hw. split; [done|by apply read_table_grows]. Qed.

Lemma evolve_stuck P rule source records tr :
  (∀ tr s q, P tr _ (Judge s q)) → all_data rule →
  always P (λ _ r, r.1 = rule ∧ ev_reshaped r.2 = false) tr (evolve rule source records).
Proof.
  intros Pj [Hd Hc]. unfold evolve. case_bool_decide; [by intros ? [= <-]|].
  unfold unknown_fields. rewrite Hd. cbn [se_order ask_fold].
  apply always_return. intros f _. apply always_judge; [apply Pj|]. intros tr1 answers. cbn zeta.
  assert (st_rule (settle rule [] f answers) = rule ∧ st_reshaped (settle rule [] f answers) = false) as [Hr Hre].
  { unfold settle, settle_keys. destruct rule; cbn in *; subst. by destruct (decided answers "keys_are_data") as [[[|] conf]|]. }
  rewrite Hr, Hre, Hd. case_bool_decide; [by intros ? [= <-]|]. apply always_judge; [apply Pj|].
  intros tr2 answers2 ? [= <-]. unfold second_round, missing_columns, misfit_columns. rewrite Hc. done.
Qed.

Lemma plan_stuck P embedder rule source records tr :
  all_data rule → always P (λ _ r, r.1.1 = rule ∧ r.2 = false) tr (plan_embeddings embedder rule source records).
Proof.
  intros [Hd _]. unfold plan_embeddings. destruct embedder as [model|]; [|by intros ? [= <-]].
  rewrite Hd, orb_true_r. by intros ? [= <-].
Qed.

Lemma latest_stuck rule source tr :
  works_stuck tr rule → always never_made (λ tr' r, works_stuck tr' r) tr (latest_rule rule false source).
Proof.
  intros Hw. apply always_try; [done|]. intros latest ? [= <-] Hl.
  assert (stuck (default rule latest) ∧ read_table (tr ++ [Asked (LoadRule (tr_table rule)) (Ok latest)]) (tr_table (default rule latest)))
    as [Hs Hr].
  { destruct latest as [l|]; cbn [default]; [|by apply works_grows].
    assert (Asked (LoadRule (tr_table rule)) (Ok (Some l)) ∈ tr ++ [Asked (LoadRule (tr_table rule)) (Ok (Some l))]) as Hin
      by (apply elem_of_app; right; by left).
    split; [by eapply Hl|]. by exists (tr_table rule), l. }
  split; [by apply stuck_noted|]. unfold note_source. by case_bool_decide.
Qed.

(** The questions that make no table and save no rule. *)
Definition plain {X} (q : IngestReq X) : Prop :=
  match q with Define _ _ | DropTable _ | SaveRule _ => False | _ => True end.

Abbreviation plainly := (λ _ X (q : IngestReq X), plain q).

Lemma plain_never {A} (R : list (Event IngestReq) → A → Prop) tr (m : Ingesting A) :
  always plainly R tr m → always never_made R tr m.
Proof. apply always_weaken; [|done]. intros tr' X q Hq _ _. by destruct q. Qed.

Lemma plain_saved {A} source (R : list (Event IngestReq) → A → Prop) tr (m : Ingesting A) :
  always plainly R tr m → always (saved_first source) R tr m.
Proof. apply always_weaken; [|done]. intros tr' X q Hq. by destruct q. Qed.

Lemma vectors_for_plain embedder rule ts known tr : always plainly (λ _ _, True) tr (vectors_for embedder rule ts known).
Proof.
  unfold vectors_for. destruct embedder as [model|]; [|done]. case_bool_decide; [done|]. destruct (head _); [done|].
  destruct (filter _ _); [done|]. split; [done|]. by intros [v|e].
Qed.

Lemma repair_plain rule embedder tr : always plainly (λ _ _, True) tr (repair rule embedder).
Proof.
  unfold repair. destruct (_ || _); [done|]. apply always_ask; [done|]. intros ids. destruct (hex_ids _); [done|].
  apply always_ask; [done|]. intros [rows|]; [|done]. eapply always_bind; [apply vectors_for_plain|]. intros tr1 [known why] _.
  destruct why; [done|]. destruct (batch _ _ _) as [built|[|]]; [|done|done]. case_bool_decide; [done|].
  apply always_ask; [done|]. by intros [|].
Qed.

Lemma write_rows_plain rule embedder accepted tr : always plainly (λ _ _, True) tr (write_rows rule embedder accepted).
Proof.
  unfold write_rows. eapply always_bind; [apply repair_plain|]. intros tr1 n _. eapply always_bind; [apply vectors_for_plain|].
  intros tr2 [known why] _. apply always_return. intros built _. cbn zeta. case_bool_decide; [done|]. by apply always_try.
Qed.

Lemma write_rows_appends rule embedder accepted tr :
  always plainly (λ tr' _, ∀ a, a ∈ accepted → in_table tr' rule a) tr (write_rows rule embedder accepted).
Proof.
  eapply always_weaken; [| |apply (always_both _ _ _ _ _ _ (write_rows_plain rule embedder accepted tr) (write_rows_in_table rule embedder accepted tr))].
  - by intros tr' X q [? _].
  - by intros tr' a [_ ?].
Qed.

(** What a request that found such a rule reports. *)
Definition left_unmade tr (rp : Report) : Prop :=
  route_found tr → loads_stuck tr →
  rp_created rp = false ∧ rp_rebuilt rp = false
  ∧ ((0 < rp_accepted rp)%nat → ∃ b n, Asked (Append (rp_table rp) b) (Ok n) ∈ tr).

Lemma ingest_table_never source arrived rule changes tr :
  works_stuck tr rule → always never_made left_unmade tr (ingest_table source arrived rule false changes).
Proof.
  intros Hw. unfold ingest_table. eapply always_bind; [by apply latest_stuck|]. intros tr1 rule1 Hw1.
  eapply (always_bind _ (λ tr2 r, (stuck rule1 → r.1 = rule1 ∧ ev_reshaped r.2 = false) ∧ ∃ more, tr2 = tr1 ++ more)).
  { apply always_extends, always_when; [by apply evolve_any|]. intros (_ & Hd & _). by apply evolve_stuck. }
  intros tr2 [rule2 evolved] [Hev [more2 ->]]. cbn [fst snd] in Hev. apply always_ask; [done|]. intros embedder.
  eapply (always_bind _ (λ tr3 r, (stuck rule2 → r.1.1 = rule2 ∧ r.2 = false) ∧ ∃ more, tr3 = (tr1 ++ more2) ++ [Asked ConfiguredModel embedder] ++ more)).
  { eapply always_mono; [|apply always_extends, (always_when (stuck rule2)); [|intros (_ & Hd & _); by apply plan_stuck]].
    - intros tr3 r [Hr [more ->]]. split; [done|]. exists more. by rewrite <- app_assoc.
    - eapply always_mono; [|by apply plan_keeps]. done. }
  intros tr3 [[rule3 planned] added] [Hp [more3 ->]]. cbn [fst snd] in Hp. set (tr3 := _ ++ _).
  set (quarantine := not_objects arrived ++ _).
  eapply (always_bind _ (λ tr4 _, ∃ more, tr4 = tr3 ++ more)).
  { eapply always_mono; [|apply (always_extends _ (λ _ _, True)), plain_never; by destruct quarantine; [|split; [|intros x ? ?]]].
    by intros tr4 a [_ ?]. }
  intros tr4 u [more4 ->]. cbn zeta. set (rebuilt := false || _ || _). set (all := changes ++ _).
  assert (∀ more, loads_stuck (tr3 ++ more) → stuck rule3 ∧ read_table (tr3 ++ more) (tr_table rule3) ∧ rebuilt = false) as Hst.
  { intros more Hl. assert (loads_stuck tr1) as Hl1 by (unfold tr3 in Hl; rewrite <- !app_assoc in Hl; by apply loads_before in Hl).
    destruct (Hw1 Hl1) as [Hs Hr]. destruct (Hev Hs) as [-> Hre]. destruct (Hp Hs) as [-> Hadd].
    split_and!; [done| |by unfold rebuilt; rewrite Hre, Hadd]. unfold tr3. rewrite <- !app_assoc. by apply read_table_grows. }
  set (rule4 := if rebuilt then _ else _). assert (tr_table rule4 = tr_table rule3) as Ht4 by (unfold rule4; by destruct rebuilt).
  apply always_try.
  { intros _ Hl. destruct (Hst _ Hl) as (Hs & Hr & _). rewrite Ht4. split; [by apply stuck_saved|done]. }
  intros []. rewrite <- app_assoc. set (tr5 := tr3 ++ _). destruct rebuilt eqn:Hre.
  - eapply always_weaken; [| |apply (always_past (λ tr, ¬ loads_stuck tr))].
    + by intros tr' X q Hn _ ?%Hn.
    + by intros tr' rp Hn _ ?%Hn.
    + intros more Hl. unfold tr5 in Hl. rewrite <- app_assoc in Hl. by destruct (Hst _ Hl) as (_ & _ & ?).
  - cbn [write_silver]. eapply always_bind; [apply plain_never, write_rows_appends|].
    intros tr6 [[[rescued embedded] unembedded] deferred] Hin ? [= <-] _ _. cbn [rp_created rp_rebuilt rp_accepted rp_table].
    split_and!; [done..|]. intros Hn. destruct (accepted_objects _ _) as [|a accepted]; [cbn in Hn; lia|].
    destruct (Hin a) as (records & vectors & built & n & pre & post & -> & _); [by left|].
    exists (bu_batch built), n. apply elem_of_app. right. by left.
Qed.

(** Whatever follows, the source had no route. *)
Abbreviation unrouted tr := (∀ more, ¬ route_found (tr ++ more)).

Lemma unrouted_never {A} (R : list (Event IngestReq) → A → Prop) tr (m : Ingesting A) :
  (∀ tr a, ¬ route_found tr → R tr a) → unrouted tr → always never_made R tr m.
Proof.
  intros HR Hu. eapply always_weaken; [| |apply (always_past (λ tr, ¬ route_found tr)), Hu].
  - by intros tr' X q Hn ?%Hn.
  - intros tr' a Hn. by apply HR.
Qed.

Lemma route_source_never source records tr :
  route_answer tr = None →
  always never_made (λ tr' r, (r.1.2 = false ∧ works_stuck tr' r.1.1) ∨ unrouted tr') tr (route_source source records).
Proof.
  intros Hnone. unfold route_source. apply always_try; [by intros [r Hr]; rewrite Hnone in Hr|]. intros found.
  assert (route_answer (tr ++ [Asked (LoadRoute source) (Ok found)]) = Some (Ok found)) as Hfound.
  { unfold route_answer in *. rewrite omap_app. by destruct (omap event_route tr). }
  destruct found as [r|].
  - apply always_try; [done|]. intros [rule|]; [|by intros ? [=]]. intros ? [= <-]. left. split; [done|]. cbn [fst snd].
    set (tr' := _ ++ _). assert (Asked (LoadRule (ro_table r)) (Ok (Some rule)) ∈ tr') as Hin
      by (apply elem_of_app; right; by left).
    intros Hl. split; [by eapply Hl|]. by exists (ro_table r), rule.
  - set (tr1 := tr ++ _) in *.
    eapply always_weaken; [| |apply (always_past (λ tr, route_answer tr = Some (Ok None)))].
    + by intros tr' X q Hn [r Hr]; rewrite Hn in Hr.
    + intros tr' a Hn. right. intros more [r Hr]. rewrite (route_answer_grows _ more _ Hn) in Hr. done.
    + intros more. by apply route_answer_grows.
Qed.

Lemma ingest_never source raws : always never_made left_unmade [] (ingest source raws).
Proof.
  unfold ingest. destruct (negb (valid_source source)); [by intros ? [=]|]. case_bool_decide; [by intros ? [=]|].
  apply (always_bind _ (λ tr _, route_answer tr = None)).
  { unfold ensure_system_tables. apply always_try; [done|]. intros []. split; [done|]. by intros x ? ->. }
  intros tr _ Hnone. apply always_ask; [done|]. intros received. apply always_try; [done|]. intros [].
  apply always_ask; [done|]. intros []. eapply always_bind.
  { apply always_finally; [done| |apply route_source_never].
    - intros tr' x [[rule created] changes] [[Hc Hw]|Hu]; cbn [fst snd] in *; [left; split; [done|by apply works_grows]|right].
      intros more. rewrite <- app_assoc. apply Hu.
    - unfold route_answer in *. rewrite !omap_app. by destruct (omap event_route tr). }
  intros tr' [[rule created] changes] Hr. cbn [fst snd] in Hr. apply always_ask; [done|]. intros [].
  assert (∀ tr'' rp, ¬ route_found tr'' → left_unmade tr'' rp) as Hvac by by intros tr'' rp Hn ?%Hn.
  apply always_finally; [done| |].
  - intros tr'' x rp Hu Hf Hl%loads_before.
    assert (route_found tr'') as Hf''.
    { destruct Hf as [r Hf]. exists r. unfold route_answer in *. rewrite omap_app in Hf. cbn in Hf. by rewrite app_nil_r in Hf. }
    destruct (Hu Hf'' Hl) as (? & ? & Ha). split_and!; [done..|]. intros Hn.
    destruct (Ha Hn) as (b & n & Hin). exists b, n. apply elem_of_app. by left.
  - destruct Hr as [[-> Hw]|Hu]; [by apply ingest_table_never, works_grows|].
    apply unrouted_never; [done|]. intros more. rewrite <- app_assoc. apply Hu.
Qed.

(** ** The rule and the route are saved first *)

Definition is_routed (source : string) tr : Prop :=
  route_found tr ∨ ∃ t, Asked (SaveRoute (mkRoute source t)) (Ok tt) ∈ tr.

Lemma routed_grows source tr more : is_routed source tr → is_routed source (tr ++ more).
Proof.
  intros [[r Hr]|[t Ht]]; [left; exists r; by apply route_answer_grows|right; exists t; apply elem_of_app; by left].
Qed.

Lemma rebuild_saved source rule embedder tr :
  Asked (SaveRule rule) (Ok tt) ∈ tr → is_routed source tr →
  always (saved_first source) (λ _ _, True) tr (rebuild rule embedder).
Proof.
  intros Hs Hr. unfold rebuild. eapply always_bind.
  { apply always_extends, always_any. intros s e tr'. unfold stored_vectors. by apply always_ask. }
  intros tr1 known [_ [more ->]]. apply always_ask; [done|]. intros dropped. apply always_try.
  { split; [|by apply routed_grows, routed_grows]. exists rule. split; [|done]. apply elem_of_app. left. apply elem_of_app. by left. }
  intros []. destruct (filter _ _); [done|]. apply always_try; [done|]. intros rows.
  eapply (always_bind _ (λ _ _, True)); [|by intros tr' [known' total] _].
  apply plain_saved, always_any. intros [known' total] c tr'. unfold rebuild_chunk.
  eapply always_bind; [apply vectors_for_plain|]. intros tr3 [known'' why] _. apply always_return. intros built _. cbn zeta.
  case_bool_decide; [done|]. by apply always_try.
Qed.

Lemma ingest_table_saved source arrived rule created changes tr :
  is_routed source tr → always (saved_first source) (λ _ _, True) tr (ingest_table source arrived rule created changes).
Proof.
  intros Hr. unfold ingest_table. eapply (always_bind _ (λ tr' _, is_routed source tr')).
  { unfold latest_rule. destruct created; [by intros ? ?|]. apply always_try; [done|]. intros latest ? _. by apply routed_grows. }
  intros tr1 rule1 Hr1. eapply (always_bind _ (λ tr' _, is_routed source tr')).
  { eapply always_mono; [|by apply always_extends, evolve_any]. intros tr' a [_ [more ->]]. by apply routed_grows. }
  intros tr2 [rule2 evolved] Hr2. apply always_ask; [done|]. intros embedder.
  eapply (always_bind _ (λ tr' _, is_routed source tr')).
  { eapply always_mono; [|apply always_extends; by apply plan_keeps]. intros tr' a [_ [more ->]]. by apply routed_grows, routed_grows. }
  intros tr3 [[rule3 planned] added] Hr3. set (quarantine := not_objects arrived ++ _).
  eapply (always_bind _ (λ tr' _, is_routed source tr')).
  { destruct quarantine; [by intros ? _|]. split; [done|]. intros x ? _. by apply routed_grows. }
  intros tr4 u Hr4. cbn zeta. apply always_try; [done|]. intros [].
  eapply (always_bind _ (λ _ _, True)); [|by intros tr5 [[[? ?] ?] ?] _].
  unfold write_silver. destruct (created || _ || _); [|apply plain_saved, write_rows_plain].
  eapply always_bind; [apply rebuild_saved|by intros].
  - apply elem_of_app. right. by left.
  - by apply routed_grows.
Qed.

Lemma route_plain source records tr : always plainly (λ _ _, True) tr (route source records).
Proof.
  unfold route. apply always_try; [done|]. intros rules. apply always_judge; [done|]. intros tr1 answers.
  destruct (routed _ answers) as [[rule conf]|]; [done|]. eapply (always_bind _ (λ _ _, True)); [|by intros ? [? ?] _].
  unfold design. apply always_try; [done|]. intros taken. by apply always_judge.
Qed.

Lemma ingest_saved source raws : always (saved_first source) (λ _ _, True) [] (ingest source raws).
Proof.
  unfold ingest. destruct (negb (valid_source source)); [by intros ? [=]|]. case_bool_decide; [by intros ? [=]|].
  apply (always_bind _ (λ tr _, route_answer tr = None)).
  { unfold ensure_system_tables. apply always_try; [done|]. intros []. split; [done|]. by intros x ? ->. }
  intros tr _ Hnone. apply always_ask; [done|]. intros received. apply always_try; [done|]. intros [].
  apply always_ask; [done|]. intros []. set (tr0 := _ ++ [Asked (LockSource _) _]).
  assert (route_answer tr0 = None) as Hnone0.
  { unfold tr0, route_answer in *. rewrite !omap_app. by destruct (omap event_route tr). }
  apply (always_bind _ (λ tr' _, is_routed source tr')).
  { apply always_finally; [done|intros; by apply routed_grows|]. unfold route_source. apply always_try; [done|]. intros [r|].
    - assert (is_routed source (tr0 ++ [Asked (LoadRoute source) (Ok (Some r))])) as Hr.
      { left. exists r. unfold route_answer in *. rewrite omap_app. by destruct (omap event_route tr0). }
      apply always_try; [done|]. intros [rule|]; [|by intros ? [=]]. intros ? _. by apply routed_grows.
    - eapply always_bind; [apply plain_saved, route_plain|]. intros tr1 [[rule created] changes] _.
      apply always_try; [done|]. intros []. apply always_try; [done|]. intros [] ? _. right. exists (tr_table rule).
      apply elem_of_app. right. by left. }
  intros tr' [[rule created] changes] Hr. apply always_ask; [done|]. intros [].
  apply always_finally; [done|done|]. by apply ingest_table_saved, routed_grows.
Qed.

(** C40: a table whose keys are data and that was given a key is never made.  Whatever a judge
    answers, a rule [design] makes whose keys are data and that has a primary key is one whose
    definition the engine refuses, because the key is no column of it; and every request saves the
    rule and the route before it asks the engine for the table.  Whatever is answered, a request that
    finds a route and reads only such rules never asks for a table to be made or dropped, saves only such
    rules, of tables it read, and so leaves the next one where it was; if it reports success it reports
    that no table was created or made again, and any record it accepted was appended to the table that
    was not made. *)
Theorem keyed_data_is_never_made source raws :
  (∀ rule, stuck rule → table_config (definition rule) = Err "table requires existing primary-key columns")
  ∧ (∀ records state, always (λ _ _ _, True)
       (λ _ r, tr_keys_are_data r.1 = true → tr_primary_key r.1 ≠ None → stuck r.1) [] (design source records state))
  ∧ always (λ tr X q, never_made tr X q ∧ saved_first source tr X q) left_unmade [] (ingest source raws).
Proof.
  split; [apply stuck_refused|]. split; [intros records state; by apply design_stuck|].
  eapply always_weaken; [| |apply (always_both _ _ _ _ _ _ (ingest_never source raws) (ingest_saved source raws))].
  - done.
  - by intros tr rp [? _].
Qed.

End Stuck.
