(* ===== verification/IngestWritable.v ===== *)
(** * IngestWritable: what a request accepts, its table takes

    A request reads its records through a rule, changes the rule, and refuses some of the records.
    Those it does not refuse make a batch of the changed rule, which the engine takes as it is. *)

From Stdlib Require Import SpecFloat.
From stdpp Require Import pretty.
From S2P Require Import Prelude Text Programs Traces Cron Literal LiteralSafety Ingest IngestSafety IngestShape IngestRules IngestNames IngestEvolve IngestKeeps IngestRun.

Section Accepted.
Context `{IngestHost}.

(** The records of a request that are not refused, [evolve] having said which are. *)
Definition accepted_of (arrived : list Arrived) (o : Evolved) : list Arrived :=
  accepted_objects (objects_of arrived) (not_objects arrived ++ refused_objects (objects_of arrived) (ev_quarantine o)).

Lemma omap_total {A B} (f : A → option B) l i x y :
  Forall (λ x, is_Some (f x)) l → l !! i = Some x → f x = Some y → omap f l !! i = Some y.
Proof.
  intros Hall. revert i. induction Hall as [|z l [w Hw] Hall IH]; intros [|i] Hi Hf; cbn in *; simplify_eq; rewrite ?Hw; [done|by apply IH].
Qed.

Lemma refused_named objects q i a reason :
  objects !! i = Some a → q !! i = Some reason → (a, reason) ∈ refused_objects objects q.
Proof.
  intros Hi Hq. unfold refused_objects. apply list_elem_of_omap. exists (i, a). split; [|by cbn; rewrite Hq].
  unfold enumerate. apply list_elem_of_lookup. exists i. rewrite lookup_zip_with, Hi.
  rewrite lookup_seq_lt by by eapply lookup_lt_Some. done.
Qed.

(** What is accepted was read, and not refused. *)
Lemma accepted_read arrived o a : a ∈ accepted_of arrived o →
  ∃ i r, fields_of (objects_of arrived) !! i = Some r ∧ ev_quarantine o !! i = None ∧ ar_fields a = Some r.
Proof.
  intros [Hno Ha]%list_elem_of_filter. apply list_elem_of_lookup in Ha as [i Hi].
  assert (Forall (λ a, is_Some (ar_fields a)) (objects_of arrived)) as Hall.
  { apply Forall_forall. intros b Hb. by apply list_elem_of_filter in Hb as [? _]. }
  assert (is_Some (ar_fields a)) as [r Hr] by by (rewrite Forall_forall in Hall; eapply Hall, list_elem_of_lookup_2).
  exists i, r. split_and!; [by eapply omap_total| |done].
  destruct (ev_quarantine o !! i) as [reason|] eqn:Hq; [|done]. exfalso. apply Hno. apply list_elem_of_fmap.
  exists (a, reason). split; [done|]. apply elem_of_app. right. by eapply refused_named.
Qed.

End Accepted.

Section Writable.
Context `{IngestLaws}.

(** The table the rule defines can be made, and takes a batch of these records, with any vectors:
    a row for each, and in each column what the record has for it. *)
Definition takes_all (rule : TableRule) (records : list Arrived) : Prop :=
  ∃ cfg, table_config (definition rule) = Ok cfg
    ∧ ∀ vectors, ∃ built, batch rule records vectors = Ok built
        ∧ num_rows (bu_batch built) = length records
        ∧ (∀ i c, tr_columns rule !! i = Some c →
             rb_columns (bu_batch built) !! S i = Some (mkArray (fill_for (column_kind c)) (cells records c)))
        ∧ ∀ first, first + N.of_nat (length records) ≤ u64_max →
            conform_batch (definition rule) (tc_schema cfg) (bu_batch built) first
            = Ok (mkRecordBatch (tc_schema cfg) (rb_columns (bu_batch built) ++ [sequence_column first (N.of_nat (length records))])).

Lemma placeable_takes rule records : rule_shape rule → keyed rule → Forall (placeable rule) records → takes_all rule records.
Proof.
  intros Hsh Hk Hp. destruct (definition_accepted rule Hsh Hk) as (cfg & Hcfg & Hschema & _). exists cfg. split; [done|].
  intros vectors. destruct (batch_ok rule Hsh vectors records Hk Hp) as (built & Hb & Hf & Hfit & Hn & Hcols).
  exists built. split_and!; [done..|]. intros first Hfirst. rewrite Hschema. apply (batch_conforms rule Hsh _ (length records)); [by apply keyed_visible|done..].
Qed.

Lemma planned_keyed r r' : planned r r' → keyed r → keyed r'.
Proof. intros [_ Hk Hc _ _] Hkey. unfold keyed. by rewrite Hk, Hc. Qed.

(** C20: what a request accepts, its table takes.  From any kept rule whose key, if it has one, is a
    column, whatever the judge, the table's values and the embedding model say, the rule that
    [evolve] and [plan_embeddings] leave is again such a rule, of the same table, with the same
    definition unless one of them reports a change of shape; the table it defines can be made; and
    the records that were not refused build one batch of it, with a row for each and in each column
    exactly the value the record has for it, which the engine conforms without error, numbering the
    rows in order. *)
Theorem accepted_records_fit embedder rule source arrived :
  rule_kept rule → keyed rule →
  always (λ _ _ _, True)
    (λ tr r, widths_ok tr →
       let '((_, evolved), (rule', _, added)) := r in
       rule_kept rule' ∧ keyed rule' ∧ tr_table rule' = tr_table rule
       ∧ (ev_reshaped evolved = false → added = false → definition rule' = definition rule)
       ∧ takes_all rule' (accepted_of arrived evolved))
    []
    (e ← evolve rule source (fields_of (objects_of arrived));
     p ← plan_embeddings embedder e.1 source (fields_of (objects_of arrived));
     returns (Ok (e, p))).
Proof.
  intros Hkept Hk. eapply always_bind; [by apply evolve_keeps|]. intros tr1 [rule1 o] Hev. cbn [fst snd] in Hev.
  eapply always_bind; [by apply plan_keeps|]. intros tr2 [[rule2 ch] added] (Hpl & Hemb & Hpsh) ? [= <-] Hw. cbn [fst snd] in *.
  pose proof (ew_kept _ _ _ _ Hev Hkept) as [Hsh1 _]. pose proof (ew_keyed _ _ _ _ Hev (proj1 Hkept) Hk) as Hk1.
  pose proof (planned_keyed _ _ Hpl Hk1) as Hk2. specialize (Hpsh Hsh1 Hw).
  split_and!; [split; [done|by left]|done|by rewrite (pl_table _ _ Hpl), (ew_table _ _ _ _ Hev)| |].
  - intros Hre Ha. rewrite <- (ew_same _ _ _ _ Hev Hkept Hre). unfold definition, rule_key.
    by rewrite (pl_table _ _ Hpl), (pl_key _ _ Hpl), (pl_columns _ _ Hpl), (Hemb Ha).
  - apply placeable_takes; [done..|]. apply Forall_forall. intros a (i & r & Hi & Hq & Hr)%accepted_read.
    split; [by eexists|]. intros c Hc Hpk. unfold record_value. rewrite Hr. cbn.
    rewrite (pl_columns _ _ Hpl) in Hc. rewrite (pl_key _ _ Hpl) in Hpk.
    by eapply (ew_key _ _ _ _ Hev (proj1 Hkept) Hk).
Qed.

End Writable.
