(* ===== verification/IngestHostToy.v ===== *)
(** * IngestHostToy: a host that keeps the laws

    A small concrete [IngestHost]: JSON objects are flat, with their separators escaped in strings;
    a batch is checked field by field; the hash is the identity.  Every law of [IngestLaws] holds
    of it, so that what is proved from the laws is about something. *)

From Stdlib Require Import SpecFloat.
From S2P Require Import Prelude Text Cron Literal LiteralSafety Ingest IngestSafety IngestNames.

(** ** Strings *)

Definition j_separators : list byte := [x2c; x3a; x7b; x7d].
Definition j_special : list byte := x22 :: x25 :: j_separators.

Definition j_escape (b : byte) : str :=
  if bool_decide (b ∈ j_special) then [x25; byte_of_N (65 + Byte.to_N b / 16); byte_of_N (65 + Byte.to_N b mod 16)] else [b].

Fixpoint j_unescape (s : str) : str :=
  match s with
  | x25 :: h :: l :: rest => byte_of_N ((Byte.to_N h - 65) * 16 + (Byte.to_N l - 65)) :: j_unescape rest
  | b :: rest => b :: j_unescape rest
  | [] => []
  end.

Definition j_write (t : str) : str := x22 :: concat (j_escape <$> t) ++ [x22].

(** The text between two bytes. *)
Definition j_within (a b : byte) (s : str) : option str :=
  match s with
  | x :: rest => if bool_decide (x = a) then match rev rest with y :: r => if bool_decide (y = b) then Some (rev r) else None | [] => None end else None
  | [] => None
  end.

Definition j_read (s : str) : option str := j_unescape <$> j_within x22 x22 s.

Definition j_raw (s : str) : option str :=
  if contains_any j_separators s || negb (json_start s) || negb (bool_decide (trim s = s)) then None else Some s.

(** ** Objects *)

Definition j_entry (part : str) : option (string * str) :=
  '(k, v) ← split_once x3a part;
  k ← j_read k;
  v ← j_raw v;
  Some (String.string_of_list_byte k, v).

Fixpoint j_entries (parts : list str) : option (gmap string str) :=
  match parts with
  | [] => Some ∅
  | part :: parts => '(k, v) ← j_entry part; rest ← j_entries parts; Some (<[k := v]> rest)
  end.

Definition j_object (text : str) : option (gmap string str) :=
  body ← j_within x7b x7d text;
  if bool_decide (body = []) then Some ∅ else j_entries (split_at x2c body).

Definition j_hex_digit (n : N) : byte := if n <? 10 then byte_of_N (48 + n) else byte_of_N (87 + n).
Definition j_hex (s : str) : string :=
  String.string_of_list_byte (concat ((λ b, [j_hex_digit (Byte.to_N b / 16); j_hex_digit (Byte.to_N b mod 16)]) <$> s)).

#[global] Instance array_fits_dec rows f a : Decision (array_fits rows f a).
Proof. unfold array_fits. apply _. Defined.

Definition j_try_new (fields : list Field) (arrays : list Array) : result string unit :=
  let rows := match arrays with a :: _ => length (ay_cells a) | [] => 0%nat end in
  if bool_decide (Forall2 (array_fits rows) fields arrays) then Ok tt else Err "the arrays do not fit the schema".

#[global] Instance j_literal : LiteralHost := {|
  json_read_string := j_read;
  json_write_string := j_write;
  rfc3339_micros _ := None;
  naive_micros _ _ := None;
  date_micros _ := None;
|}.

#[global] Instance j_host : IngestHost := {|
  sha256 s := s;
  hex_encode := j_hex;
  json_object := j_object;
  raw_value := j_raw;
  is_alphanumeric c := match c with [b] => is_ascii_alphanumeric b | _ => false end;
  to_lowercase c := to_ascii_lower <$> c;
  arrow_schema _ := Err "no schema";
  metric_known m := bool_decide (m ∈ ["cosine"; "l2"; "dot"]);
  record_batch_try_new := j_try_new;
  content_hash _ := Err "no hash";
|}.

(** ** The laws *)

Lemma j_within_app a b s : j_within a b (a :: s ++ [b]) = Some s.
Proof.
  unfold j_within. rewrite bool_decide_eq_true_2 by done. rewrite rev_app_distr. cbn [rev app].
  rewrite bool_decide_eq_true_2 by done. by rewrite rev_involutive.
Qed.

Lemma j_escape_step b rest : j_unescape (j_escape b ++ rest) = b :: j_unescape rest.
Proof. destruct b; reflexivity. Qed.

Lemma j_unescape_escape t : j_unescape (concat (j_escape <$> t)) = t.
Proof. induction t as [|b t IH]; [done|]. cbn [fmap list_fmap concat]. by rewrite j_escape_step, IH. Qed.

Lemma j_read_write t : j_read (j_write t) = Some t.
Proof. unfold j_read, j_write. rewrite j_within_app. cbn. by rewrite j_unescape_escape. Qed.

Lemma j_escape_clean b : Forall (λ c, c ∉ j_separators) (j_escape b).
Proof. destruct b; apply (bool_decide_unpack _); vm_compute; exact I. Qed.

Lemma j_write_clean t c : c ∈ j_separators → c ∉ j_write t.
Proof.
  intros Hc. unfold j_write. rewrite not_elem_of_cons, not_elem_of_app, list_elem_of_singleton.
  assert (c ≠ x22) as Hq by by (intros ->; revert Hc; apply (bool_decide_unpack _); vm_compute).
  split_and!; [done| |done]. induction t as [|b t IH]; [by apply not_elem_of_nil|]. cbn [fmap list_fmap concat].
  rewrite not_elem_of_app. split; [|done]. intros Hin. pose proof (j_escape_clean b) as Hall. rewrite Forall_forall in Hall. by apply (Hall c).
Qed.

Lemma j_raw_clean s : (∀ c, c ∈ j_separators → c ∉ s) → json_start s = true → trim s = s → j_raw s = Some s.
Proof.
  intros Hs Hj Ht. unfold j_raw. rewrite Hj, (bool_decide_eq_true_2 (trim s = s)) by done.
  destruct (contains_any j_separators s) eqn:E; [|done]. exfalso.
  apply existsb_exists in E as (c & Hin & Hc%bool_decide_eq_true). apply (Hs c Hc). by apply list_elem_of_In.
Qed.

Lemma j_raw_inv s t : j_raw s = Some t → t = s ∧ (∀ c, c ∈ j_separators → c ∉ s) ∧ json_start s = true ∧ trim s = s.
Proof.
  unfold j_raw. destruct (contains_any j_separators s) eqn:E; [done|]. destruct (json_start s) eqn:Hj; [|done].
  case_bool_decide; [|done]. intros [= <-]. split_and!; [done| |done..].
  intros c Hc Hin. enough (contains_any j_separators s = true) by congruence. apply existsb_exists. exists c.
  split; [by apply list_elem_of_In|]. by apply bool_decide_eq_true.
Qed.

Lemma chars_concat n s : (length s ≤ n)%nat → concat (chars n s) = s.
Proof.
  revert s. induction n as [|n IH]; intros [|b s] Hn; cbn [length] in Hn; try done; [lia|]. cbn [chars concat].
  assert (1 ≤ char_len b)%nat as Hb by (unfold char_len; repeat case_match; lia).
  rewrite IH; [by rewrite take_drop|]. rewrite length_drop. cbn. lia.
Qed.

Lemma chars_nonempty n s c : c ∈ chars n s → c ≠ [].
Proof.
  revert s. induction n as [|n IH]; intros [|b s]; cbn [chars]; try by intros ?%not_elem_of_nil.
  intros [->|Hc]%elem_of_cons; [|by apply IH in Hc]. unfold char_len. by repeat case_match.
Qed.

(** No blank has a quote in it. *)
Lemma blank_no_quote s : blank_bytes s = true → x22 ∉ s.
Proof.
  remember (length s) as n eqn:Hn. revert s Hn. induction (lt_wf n) as [n _ IH]. intros [|b0 r0] -> Hb; [by apply not_elem_of_nil|].
  assert (∀ r, (length r < length (b0 :: r0))%nat → blank_bytes r = true → x22 ∉ r) as Hr by (intros r Hr; by apply (IH _ Hr)).
  clear IH. cbn [blank_bytes] in Hb. destruct (in_range 0x09 0x0D b0 || in_range 0x20 0x20 b0) eqn:H0.
  { apply not_elem_of_cons. split; [by intros <-|]. apply Hr; [cbn; lia|done]. }
  destruct r0 as [|b1 r1]; [done|]. destruct (in_range 0xC2 0xC2 b0) eqn:H1.
  { apply andb_prop in Hb as [H2 Hb]. rewrite !not_elem_of_cons. split_and!; [by intros <-..|]. apply Hr; [cbn; lia|done]. }
  destruct r1 as [|b2 r2]; [done|]. apply andb_prop in Hb as [H2 Hb].
  rewrite !not_elem_of_cons. split_and!; [| | |apply Hr; [cbn; lia|done]]; intros <-.
  - done.
  - by rewrite !andb_false_r in H2.
  - by rewrite !andb_false_r in H2.
Qed.

Lemma drop_blanks_quote c cs : x22 ∈ c → drop_blanks (c :: cs) = c :: cs.
Proof.
  intros Hc. cbn [drop_blanks]. destruct (is_whitespace c) eqn:E; [|done]. by apply blank_no_quote in E.
Qed.

(** What begins and ends with a quote is not trimmed. *)
Lemma trim_quoted t : trim (x22 :: t ++ [x22]) = x22 :: t ++ [x22].
Proof.
  set (s := x22 :: t ++ [x22]). unfold trim. pose proof (chars_concat (length s) s (le_n _)) as Hc.
  assert (∃ cs, chars (length s) s = ([x22] : str) :: cs) as [cs Hcs].
  { unfold s. cbn [length chars]. change (char_len x22) with 1%nat. cbn [take]. eauto. }
  rewrite Hcs in *. rewrite drop_blanks_quote by by left.
  destruct (rev (([x22] : str) :: cs)) as [|c rest] eqn:Hrev; [by apply (f_equal length) in Hrev; rewrite length_rev in Hrev|].
  assert (([x22] : str) :: cs = rev rest ++ [c]) as Hlast by (rewrite <- (rev_involutive (([x22] : str) :: cs)), Hrev; done).
  rewrite drop_blanks_quote.
  - rewrite <- Hrev, rev_involutive. exact Hc.
  - assert (c ≠ []) as Hne.
    { assert (c ∈ chars (length s) s) as Hin by (rewrite Hcs, Hlast; apply elem_of_app; right; by left).
      by eapply chars_nonempty. }
    rewrite Hlast, concat_app in Hc. cbn in Hc. rewrite app_nil_r in Hc.
    apply (f_equal last) in Hc. rewrite last_app in Hc. unfold s in Hc. rewrite app_comm_cons, last_snoc in Hc.
    destruct (last c) as [b|] eqn:Hb; [|by apply last_None in Hb]. injection Hc as ->. by apply last_Some_elem_of in Hb.
Qed.

Lemma split_join sep parts : parts ≠ [] → Forall (λ p, sep ∉ p) parts → split_at sep (join_bytes [sep] parts) = parts.
Proof.
  intros Hne Hall. induction Hall as [|p parts Hp Hall IH]; [done|].
  assert (∀ rest, split_at sep (p ++ sep :: rest) = p :: split_at sep rest) as Hcut.
  { intros rest. induction p as [|b p IHp]; cbn; [by rewrite bool_decide_eq_true_2|].
    apply not_elem_of_cons in Hp as [Hb Hp]. rewrite bool_decide_eq_false_2 by done. by rewrite IHp. }
  destruct parts as [|q parts].
  - cbn [join_bytes]. clear IH Hcut. induction p as [|b p IHp]; cbn; [done|].
    apply not_elem_of_cons in Hp as [Hb Hp]. rewrite bool_decide_eq_false_2 by done. rewrite IHp by done. done.
  - change (join_bytes [sep] (p :: q :: parts)) with (p ++ sep :: join_bytes [sep] (q :: parts)). by rewrite Hcut, IH.
Qed.

Lemma j_entry_reads k v : j_raw v = Some v → j_entry (j_write (as_bytes k) ++ x3a :: v) = Some (k, v).
Proof.
  intros Hv. unfold j_entry. rewrite split_once_app by (apply j_write_clean; by right; left). cbn [mbind option_bind].
  rewrite j_read_write. cbn [mbind option_bind]. rewrite Hv. cbn. by rewrite of_bytes_as_bytes.
Qed.

Lemma j_entries_read (entries : list (string * str)) :
  (∀ k v, (k, v) ∈ entries → j_raw v = Some v) →
  j_entries ((λ e, j_write (as_bytes e.1) ++ x3a :: e.2) <$> entries) = Some (list_to_map entries).
Proof.
  induction entries as [|[k v] entries IH]; intros Hv; [done|]. cbn [fmap list_fmap j_entries fst snd].
  rewrite j_entry_reads by (apply (Hv k); by left). cbn [mbind option_bind]. rewrite IH; [done|].
  intros k' v' Hin. apply (Hv k'). by right.
Qed.

Lemma j_values parts (fields : gmap string str) k raw :
  j_entries parts = Some fields → fields !! k = Some raw → j_raw raw = Some raw.
Proof.
  revert fields. induction parts as [|p parts IH]; cbn; intros fields; [by intros [= <-]; rewrite lookup_empty|].
  intros Hf. destruct (j_entry p) as [[k' v']|] eqn:He; [|done]. cbn in Hf. destruct (j_entries parts) as [rest|]; [|done].
  injection Hf as <-. intros [[_ <-]|[_ Hr]]%lookup_insert_Some; [|by eapply IH].
  unfold j_entry in He. destruct (split_once x3a p) as [[a b]|]; [|done]. cbn in He. destruct (j_read a); [|done]. cbn in He.
  destruct (j_raw b) as [v|] eqn:Hb; [|done]. injection He as _ ->. apply j_raw_inv in Hb as (-> & Hc & Hs & Ht). by apply j_raw_clean.
Qed.

Lemma j_object_values text (fields : gmap string str) k raw :
  j_object text = Some fields → fields !! k = Some raw → j_raw (trim raw) = Some (trim raw).
Proof.
  unfold j_object. destruct (j_within x7b x7d text) as [body|]; [|done]. cbn. case_bool_decide; [by intros [= <-]|].
  intros Hf Hk. pose proof (j_values _ _ _ _ Hf Hk) as Hj. pose proof Hj as (_ & _ & _ & Ht)%j_raw_inv. by rewrite Ht.
Qed.

Lemma j_object_reads entries :
  (∀ k v, (k, v) ∈ entries → j_raw v = Some v) → j_object (object_text entries) = Some (list_to_map entries).
Proof.
  intros Hv. unfold j_object, object_text. change (as_bytes "{") with [x7b]. change (as_bytes "}") with [x7d].
  destruct entries as [|[k v] entries]; [done|].
  change (as_bytes ",") with [x2c]. set (parts := (λ e : string * str, j_write (as_bytes e.1) ++ as_bytes ":" ++ e.2) <$> (k, v) :: entries).
  change (j_within x7b x7d (x7b :: join_bytes [x2c] parts ++ [x7d]) ≫= (λ body, if bool_decide (body = []) then Some ∅ else j_entries (split_at x2c body)) = Some (list_to_map ((k, v) :: entries))).
  rewrite j_within_app. cbn [mbind option_bind].
  assert (split_at x2c (join_bytes [x2c] parts) = parts) as Hsplit.
  { apply split_join; [done|]. apply Forall_fmap, Forall_forall. intros [k' v'] Hin. cbn [compose fst snd].
    rewrite !not_elem_of_app. change (as_bytes ":") with [x3a]. split_and!; [apply j_write_clean; by left|by apply (bool_decide_unpack _)|].
    apply Hv, j_raw_inv in Hin as (_ & Hc & _). apply Hc. by left. }
  rewrite bool_decide_eq_false_2, Hsplit.
  - by apply (j_entries_read ((k, v) :: entries)).
  - intros Hnil. rewrite Hnil in Hsplit. unfold parts in Hsplit. cbn in Hsplit. discriminate.
Qed.

Lemma j_accepts rows fields arrays :
  fields ≠ [] → Forall2 (array_fits rows) fields arrays → j_try_new fields arrays = Ok tt.
Proof.
  intros Hne Hf. unfold j_try_new. destruct Hf as [|f a fields arrays Hfit Hf]; [done|].
  destruct Hfit as (Ht & Hlen & Hnull). rewrite Hlen, bool_decide_eq_true_2; [done|]. by constructor.
Qed.

#[global] Instance j_laws : IngestLaws.
Proof.
  split.
  - intros w Hw. rewrite !elem_of_cons in Hw.
    destruct Hw as [->|[->|[->|Hw]]]; [vm_compute; reflexivity..|by apply not_elem_of_nil in Hw].
  - intros t. apply j_raw_clean; [intros c Hc; by apply j_write_clean|done|apply trim_quoted].
  - intros w Hw. by apply j_raw_inv in Hw as (_ & _ & ? & _).
  - intros t. apply j_read_write.
  - intros text fields k raw. apply j_object_values.
  - intros entries _ Hv. by apply j_object_reads.
  - reflexivity.
  - intros rows fields arrays. apply j_accepts.
  - intros fields arrays. unfold record_batch_try_new, j_host, j_try_new. case_bool_decide; [|done]. eauto.
Qed.
