(* ===== verification/IngestToy.v ===== *)
(** * IngestToy: ingestion on concrete records

    Requests run against a small world: an object store of rules and routes, an engine that checks
    the definitions it is given, a judge and a model that say what they are told to. *)

From Stdlib Require Import SpecFloat.
From stdpp Require Import pretty.
From S2P Require Import Prelude Text Programs Traces Cron Literal LiteralSafety Ingest IngestSafety IngestShape IngestRules IngestNames IngestEvolve IngestKeeps IngestRun IngestRunSafety IngestStuck IngestWritable IngestHostToy.

(** ** A world *)

Record World := mkWorld {
  w_routes : gmap string Route;
  w_rules : gmap string TableRule;
  w_tables : gmap string StreamDefinition;
  w_bronze : list BronzeRow;
  w_quarantine : list QuarantineRow;
  w_batches : list (string * RecordBatch);
}.

Definition w_empty : World := mkWorld ∅ ∅ ∅ [] [] [].

(** [define_with] checks the definition; a table that exists is refused, unless that is allowed. *)
Definition w_define (w : World) (d : StreamDefinition) (exist_ok : bool) : World * result Failure unit :=
  match table_config d with
  | Err e => (w, Err (Failed e))
  | Ok _ =>
    match w_tables w !! sd_name d with
    | Some _ => (w, if exist_ok then Ok tt else Err (Failed "the table exists"))
    | None => (mkWorld (w_routes w) (w_rules w) (<[sd_name d := d]> (w_tables w)) (w_bronze w) (w_quarantine w) (w_batches w), Ok tt)
    end
  end.

(** What the judge and the model say. *)
Record Advice := mkAdvice { ad_answers : gmap string Answer; ad_model : option string; ad_width : N }.

Definition w_step (ad : Advice) (w : World) {X} (q : IngestReq X) : World * X :=
  match q with
  | Judge _ questions => (w, filter (λ e, is_Some (questions !! e.1)) (ad_answers ad))
  | ConfiguredModel => (w, ad_model ad)
  | Dimensions => (w, Ok (ad_width ad))
  | Embed texts => (w, Ok ((λ _, replicate (N.to_nat (ad_width ad)) half) <$> texts))
  | LoadRoute s => (w, Ok (w_routes w !! s))
  | LoadRule t => (w, Ok (w_rules w !! t))
  | SaveRoute r => (mkWorld (<[ro_source r := r]> (w_routes w)) (w_rules w) (w_tables w) (w_bronze w) (w_quarantine w) (w_batches w), Ok tt)
  | SaveRule r => (mkWorld (w_routes w) (<[tr_table r := r]> (w_rules w)) (w_tables w) (w_bronze w) (w_quarantine w) (w_batches w), Ok tt)
  | EveryRule => (w, Ok ((sbtree_entries (w_rules w)).*2))
  | TableNames => (w, Ok ((sbtree_entries (w_tables w)).*1))
  | Define d exist_ok => w_define w d exist_ok
  | DropTable t => (mkWorld (w_routes w) (w_rules w) (delete t (w_tables w)) (w_bronze w) (w_quarantine w) (w_batches w), Ok tt)
  | Append t b =>
    if bool_decide (is_Some (w_tables w !! t))
    then (mkWorld (w_routes w) (w_rules w) (w_tables w) (w_bronze w) (w_quarantine w) (w_batches w ++ [(t, b)]), Ok (N.of_nat (num_rows b)))
    else (w, Err (Failed "no such table"))
  | WriteBronze rows => (mkWorld (w_routes w) (w_rules w) (w_tables w) (w_bronze w ++ rows) (w_quarantine w) (w_batches w), Ok tt)
  | WriteQuarantine rows => (mkWorld (w_routes w) (w_rules w) (w_tables w) (w_bronze w) (w_quarantine w ++ rows) (w_batches w), Ok tt)
  | HeldValues _ _ => (w, None)
  | StoredVectors _ _ _ => (w, None)
  | MissingVectors _ => (w, None)
  | BronzeById _ => (w, None)
  | BronzeOf sources t =>
    (w, Ok ((λ r, mkStoredRow (br_id r) (br_source r) (br_record r)) <$>
            filter (λ r, br_source r ∈ sources ∧ Forall (λ q, qr_table_name q = t → qr_id q ≠ br_id r) (w_quarantine w)) (w_bronze w)))
  | Now => (w, 0)
  | LockSource _ | UnlockSource _ | LockTable _ | UnlockTable _ => (w, tt)
  end.

(** The same while the engine cannot make tables. *)
Definition w_outage (ad : Advice) (w : World) {X} (q : IngestReq X) : World * X :=
  match q in IngestReq X return World * X with
  | Define _ false => (w, Err (Failed "the store is unavailable"))
  | q => w_step ad w q
  end.

Fixpoint w_runs {A} (step : World → ∀ X, IngestReq X → World * X) (w : World) (m : Ingesting A) : World * option (result Failure A) :=
  match m with
  | PReturn r => (w, Some r)
  | PLoops => (w, None)
  | PAsk q k => w_runs step (step w _ q).1 (k (step w _ q).2)
  end.

Definition w_run {A} (ad : Advice) := @w_runs A (λ w X q, w_step ad w q).

(** ** Records *)

Definition w_record (entries : list (string * string)) : str :=
  object_text ((λ e, (e.1, as_bytes e.2)) <$> entries).

Definition w_yes : Answer := ANoul (decimal_to_float false 1 0).
Definition w_pick (name : string) : Answer := AChoice name (decimal_to_float false 9 (-1)) ∅.
Definition w_quiet : Advice := mkAdvice ∅ None 0.

(** ** A key and keys that are data *)

(** Five records of 24 fields, of which one identifies them. *)
Definition w_wide (i : nat) : str :=
  w_record (("id", pretty (i + 100)%nat) :: ((λ n, ("field" +:+ pretty (n : nat), "1")) <$> seq 10 23)).

Definition w_judge : Advice := mkAdvice (collect [("keys_are_data", w_yes); ("key", w_pick "id")]) None 0.

Definition w_first := w_run w_judge w_empty (ingest "wide" (w_wide <$> seq 0 5)).
Definition w_second := w_run w_quiet w_first.1 (ingest "wide" (w_wide <$> seq 0 5)).

(** A judge that says both of the first records of a source: the rule and the route are saved, the
    engine refuses the definition, and the next request, which finds them, writes to a table that
    does not exist. *)
Theorem keyed_data_is_stuck :
  w_first.2 = Some (Err (Failed "table requires existing primary-key columns"))
  ∧ w_routes w_first.1 !! "wide" = Some (mkRoute "wide" "wide")
  ∧ (tr_primary_key <$> w_rules w_first.1 !! "wide") = Some (Some "id")
  ∧ (tr_columns <$> w_rules w_first.1 !! "wide") = Some []
  ∧ w_second.2 = Some (Err (Failed "no such table")).
Proof. split_and!; vm_compute; reflexivity. Qed.

Lemma keyed_data_is_never_made_witness :
  (∃ rule, w_rules w_first.1 !! "wide" = Some rule ∧ stuck rule
     ∧ table_config (definition rule) = Err "table requires existing primary-key columns")
  ∧ always (λ tr X q, never_made tr X q ∧ saved_first "wide" tr X q) left_unmade [] (ingest "wide" (w_wide <$> seq 0 5)).
Proof.
  pose proof (keyed_data_is_never_made "wide" (w_wide <$> seq 0 5)) as (Hrefused & _ & Hrun). split; [|exact Hrun].
  destruct (w_rules w_first.1 !! "wide") as [rule|] eqn:Hr; [|vm_compute in Hr; discriminate]. exists rule. split; [reflexivity|].
  assert (stuck rule) as Hst; [|split; [exact Hst|exact (Hrefused rule Hst)]].
  vm_compute in Hr. injection Hr as <-. split_and!; [split|done|done|by exists "id"]; cbn.
  - reflexivity.
  - constructor.
  - by intros c ?%not_elem_of_nil.
  - vm_compute. lia.
  - constructor.
  - by intros e ?%not_elem_of_nil.
Defined.

(** ** More columns than the limit *)

Definition w_full : TableRule :=
  mkTableRule "full" 1 ((λ i : nat, mkRuleColumn ("c" +:+ pretty i) "string" false []) <$> seq 0 198) None false ["notes"] [] [] [].

Definition w_model : Advice := mkAdvice ∅ (Some "model") 2.

Definition w_prose : gmap string Literal :=
  {[ "c0" := LText (as_bytes "a long note that someone would like to find again by what it means one day") ]}.

Definition w_planned : option (TableRule * list Change * bool) :=
  match (w_run w_model w_empty (plan_embeddings (Some "model") w_full "notes" [w_prose])).2 with
  | Some (Ok r) => Some r
  | _ => None
  end.

(** A table that is at its limit of columns is given one more for vectors. *)
Theorem planning_passes_limit :
  length (sd_columns (definition w_full)) = MAX_COLUMNS
  ∧ ((λ r, (length (sd_columns (definition r.1.1)), r.2)) <$> w_planned) = Some (S MAX_COLUMNS, true).
Proof. split; vm_compute; reflexivity. Qed.

(** ** Witnesses *)

(** A table of people, by number. *)
Definition w_people : TableRule :=
  mkTableRule "people" 1
    [mkRuleColumn "number" "int64" true []; mkRuleColumn "name" "string" false ["Name"]; mkRuleColumn "age" "int64" false []]
    (Some "number") false ["hr"] [] [] [].

Lemma w_people_kept : rule_kept w_people.
Proof.
  split; [split|left].
  - reflexivity.
  - apply (bool_decide_unpack _). vm_compute. exact I.
  - intros c Hc. unfold w_people, tr_columns in Hc. rewrite !elem_of_cons in Hc.
    destruct Hc as [->|[->|[->|Hc%not_elem_of_nil]]]; [split; [reflexivity|by exists KInt64]|split; [reflexivity|by exists KString]|split; [reflexivity|by exists KInt64]|done].
  - vm_compute. lia.
  - constructor.
  - by intros e ?%not_elem_of_nil.
  - intros key [= <-]. exists (mkRuleColumn "number" "int64" true []). split; [by left|]. done.
Qed.

Lemma w_people_keyed : keyed w_people.
Proof. intros key [= <-]. exists (mkRuleColumn "number" "int64" true []). split; [by left|]. done. Qed.

(** Two people: one known by an alias and with a field no column has, one without the key. *)
Definition w_ada : str := w_record [("number", "7"); ("Name", String.string_of_list_byte (j_write (as_bytes "Ada"))); ("town", "[]"); ("age", "3.5")].
Definition w_nobody : str := w_record [("age", "3")].

Example ada_read :
  row w_people (arrived_new "hr" w_ada)
  = ([Some (VInt 7); Some (VText (as_bytes "Ada")); None], true,
     Some (object_text [("age", as_bytes "3.5"); ("town", as_bytes "[]")])).
Proof. vm_compute. reflexivity. Qed.

Lemma row_loses_nothing_witness :
  ∃ (raws : gmap string str) values rescued extra,
    json_object w_ada = Some raws ∧ row w_people (arrived_new "hr" w_ada) = (values, rescued, extra)
    ∧ length values = 3%nat.
Proof.
  destruct (json_object w_ada) as [raws|] eqn:Hj; [|vm_compute in Hj; discriminate].
  destruct (row w_people (arrived_new "hr" w_ada)) as [[values rescued] extra] eqn:Hr.
  exists raws, values, rescued, extra. split; [reflexivity|]. split; [reflexivity|].
  exact (proj1 (row_loses_nothing w_people "hr" w_ada raws values rescued extra Hj Hr)).
Defined.

Lemma accepted_records_fit_witness :
  always (λ _ _ _, True)
    (λ tr r, widths_ok tr → takes_all r.2.1.1 (accepted_of (arrived_new "hr" <$> [w_ada; w_nobody]) r.1.2)) []
    (e ← evolve w_people "hr" (fields_of (objects_of (arrived_new "hr" <$> [w_ada; w_nobody])));
     p ← plan_embeddings None e.1 "hr" (fields_of (objects_of (arrived_new "hr" <$> [w_ada; w_nobody])));
     returns (Ok (e, p))).
Proof.
  eapply always_mono; [|exact (accepted_records_fit None w_people "hr" (arrived_new "hr" <$> [w_ada; w_nobody]) w_people_kept w_people_keyed)].
  intros tr [[r0 ev] [[r1 ch] added]] Hr Hw. exact (proj2 (proj2 (proj2 (proj2 (Hr Hw))))).
Defined.

(** A source that is new: a table is made for it, and its rule and its route are saved. *)
Definition w_new := w_run w_quiet w_empty (ingest "hr" [w_ada; w_nobody]).

Lemma ingest_keeps_rules_witness :
  (∃ report, w_new.2 = Some (Ok report) ∧ rp_created report = true ∧ rp_accepted report = 2%nat)
  ∧ always sound_change (λ _ _, True) [] (ingest "hr" [w_ada; w_nobody]).
Proof.
  split; [|exact (ingest_keeps_rules "hr" [w_ada; w_nobody])].
  destruct w_new.2 as [[report|]|] eqn:Hr; [|vm_compute in Hr; discriminate..]. exists report. split; [reflexivity|].
  vm_compute in Hr. injection Hr as <-. split; reflexivity.
Defined.

(** ** A table that could not be made *)

Definition w_interrupted := w_runs (λ w X q, w_outage w_quiet w q) w_empty (ingest "hr" [w_ada]).
Definition w_later := w_run w_quiet w_interrupted.1 (ingest "hr" [w_ada]).

(** A request that fails to make the table has saved its rule and its route; the next one takes the
    table to be there and fails too, although the engine is back. *)
Theorem interrupted_rebuild_is_stuck :
  w_interrupted.2 = Some (Err (Failed "the store is unavailable"))
  ∧ w_later.2 = Some (Err (Failed "no such table")).
Proof. split; vm_compute; reflexivity. Qed.
